(* ===== verification/_CoqProject ===== *)
-Q . S2P
Prelude.v
Strconv.v
Crc32.v
PlatformIO.v
Primitives.v
WalCodec.v
Wal.v
WalCorrect.v
WalRecovery.v
WalTruncate.v
GroupCommit.v
Document.v
LockManager.v
Schema.v
KdbCodec.v
CodecCorrect.v
Sha256.v
Commit.v
CommitDirect.v
CommitCorrect.v
CommitDecode.v
CommitScan.v
KeyEnc.v
KeyOrder.v
Walk.v
Numbering.v
Paint.v
Strings.v
Dag.v
DagOps.v
DagAncestry.v
DagMerge.v
DagHistory.v
DagWalk.v
DagJoin.v
DagInvariant.v
DagReachable.v
Utf8.v
Float64.v
Json.v
JsonRoundTrip.v
JsonParser.v
JsonPath.v
JsonPathCorrect.v
JsonQuery.v
JsonDiff.v
DocumentMerge.v
TrieHash.v
Trie.v
TrieCorrect.v
TrieWalk.v
TrieBulk.v
DocumentTree.v
TreeMap.v
TreePacked.v
TreeProof.v
TreeNodes.v
TreeDiff.v
TreeSlab.v
SlabChunks.v
SlabEdit.v
SlabMemory.v
SlabPlace.v
SlabBulk.v
SlabFamily.v
AttachmentHash.v
AttachmentSet.v
AttachmentPool.v
AttachmentTable.v
AttachmentMerge.v
DagAttachments.v
DocumentJson.v
MemStore.v
UniqueRegistry.v
StorageAdapter.v
TxPlan.v
TxSerial.v
TxEngine.v
TxCorrect.v
TxGuarantees.v
