(* ===== verification/Prelude.v ===== *)
(** * Verification of the KDB storage, history and transaction core

    KDB is an embedded document database: documents live in versioned
    namespaces, a commit is a content-addressed payload that names a Merkle tree
    of documents, transactions are checked against the head and append commits,
    writes go through a write-ahead log before they are acknowledged, and indexes
    keep their keys in byte order.  This library models the Go implementation ([src/go/kdb]) of the
    parts that every other part stands on, and proves what those parts promise.

    ** Parts, files and sources

    - [Prelude]: the conventions below and the lemmas on machine integers, byte
      strings, slices, big- and little-endian numbers and sorting.
    - [Crc32]: [compression/crc32.go] over the IEEE checksum, bit by bit.
    - [PlatformIO]: [storage/platform_io.go] as a class, [PlatformIOShim], whose
      laws are what the log relies on, [storage/io/segment_name.go], and
      [storage/io/in_memory.go] as an instance of the class.
    - [Primitives]: [codec/primitives.go] (UUID, Hash, Timestamp).
    - [WalCodec]: [storage/wal/codec.go] and [types.go], the frames of the log.
    - [Wal]: [storage/wal/default_wal.go], every operation of
      [DefaultWriteAheadLog] in a state and error monad over any shim.
      [WalCorrect], [WalRecovery] and [WalTruncate] prove it against an abstract
      log, a list of records.
    - [GroupCommit]: [storage/wal/group_commit.go] as a step relation over any
      number of concurrent callers.
    - [Document]: the operations of [document/kdb_op.go] and the ids they touch.
    - [LockManager]: [transaction/lock_manager.go], every operation; the clock is
      a parameter that each operation reads.
    - [Schema]: [codec/value.go] and [codec/schema], values, types and registry.
    - [KdbCodec]: [codec/wirecodec.go] and [codec/wire_numbers.go], the binary
      codec driven by a schema; [CodecCorrect] proves it.
    - [Sha256]: the hash function of the Go standard library, computed.
    - [Commit]: [document/wire.go], [kdb_op.go], [kdb_commit.go] and
      [kdb_document.go], commits as codec values and their generic encoding.
    - [CommitDirect]: [document/commit_direct.go], [commit_scan.go] and
      [content_hasher.go], the hand-written encoder, decoder, scanner and hasher.
      [CommitCorrect], [CommitDecode] and [CommitScan] prove that they agree with
      the generic ones.
    - [KeyEnc]: [index/key.go] and [index/keyenc.go], index keys and their
      order-preserving encoding; [KeyOrder] proves it.
    - [Walk], [Numbering], [Paint]: the three loops that the commit graph runs
      over parents, with what each computes: a work list with a visited set
      ([dag/ancestry.go]), a depth-first numbering ([dag/generations.go]) and
      painting from a priority queue ([dag/merge_bases.go]).
    - [Dag]: the state of [dag/in_memory_commit_dag.go], its generation numbers,
      ancestry tests and merge bases.  [DagOps]: every operation on commits,
      stubs, shallow roots, branches, tags, pins and marks, from the same file
      and [dag/retention.go], [provisional.go], [unlogged.go], [history_nav.go].
    - [DagAncestry] and [DagMerge] prove the questions; [DagInvariant] that every
      operation keeps the invariant; [DagReachable] has the operations as a step
      relation and what holds of all states it reaches.  The Module [DagDemo] of
      [DagAncestry] is a small history the theorems are evaluated on.
    - [Strings]: the functions of Go's [strings] that revision names use.
    - [DagHistory]: walks, listings, revisions and lookups of
      [dag/history_nav.go] and [in_memory_commit_dag.go]; [DagWalk] proves them.
    - [DagJoin]: [dag/join.go], merges without content, with
      [codec/derived_uuid.go].
    - [Strconv], [Utf8], [Float64]: integers and floats as
      text and UTF-8, as the Go standard library has them.
    - [Json]: [json/value.go], [writer.go] and [parser.go].  [JsonPath]:
      [json/path.go], [api.go] and [candidates.go].  [JsonDiff]: [json/diff.go].
      [JsonRoundTrip], [JsonParser], [JsonPathCorrect] and [JsonQuery] prove
      them.  [DocumentMerge] and [DocumentJson]:
      [document/kdb_document.go], documents, their patches and their creation.
    - [TrieHash], [Trie], [TrieBulk]: [document/document_tree_trie.go] over
      values; [TrieCorrect] and [TrieWalk] prove it.  [DocumentTree]:
      [document/document_tree.go]; [TreeMap] and [TreePacked] prove it.
      [TreeProof]: [document_tree_proof.go].  [TreeNodes]:
      [document_tree_node.go]; [TreeDiff] proves it.
    - [TreeSlab]: [document/document_tree_slab.go], the records of tries with
      their reference counts.  [SlabChunks] has the addresses, [SlabEdit] and
      [SlabPlace] the updates, [SlabMemory] the counts, [SlabBulk] bulk builds,
      and [SlabFamily] any number of trees over one slab.
    - [AttachmentHash], [AttachmentSet], [AttachmentPool], [AttachmentTable]:
      [document/attachment_hash.go], [attachment_table.go] and
      [attachment_set_pool.go].  [AttachmentMerge] and [DagAttachments]:
      [dag/attachment_merge.go] and [dag/attachments.go], the attachment tables
      of commits.
    - [MemStore]: [storage/mem], the in-memory storage adapter.
      [StorageAdapter]: the interface [storage/adapter.go] as a class with laws
      over the documents of each tree, and [MemStore] as an instance.
    - [UniqueRegistry]: [transaction/unique_registry.go].
    - [TxPlan]: the checks of a transaction, [transaction/prepare.go],
      [default_engine.go], [preconditions.go], [attachments.go] and
      [document/precondition.go].  [TxEngine]: applying, committing, replaying
      and preparing it, and the fold of a commit of [embed/tree_rebuild.go].
      [TxSerial] says what the checks mean, [TxCorrect] what a commit leaves
      behind, [TxGuarantees] what clients are promised; the Module [TxFindings]
      of [TxEngine] has what the engine lets through.

    ** How they interact

    The log encodes records with [WalCodec], which checksums them with [Crc32],
    and stores them through [PlatformIOShim].  [GroupCommit] decides when a
    caller of the log may be told its record is on disk.  A record carries a
    commit payload, written by [CommitDirect] in the format of [KdbCodec] for the
    schemas of [Commit] and hashed with [Sha256].  A transaction may hold the
    locks of its documents in [LockManager].  [TxPlan] reads the documents it
    touches through [StorageAdapter], merges its patches over them with
    [DocumentMerge], consults the attachment tables of [DagAttachments] and the
    values held in [UniqueRegistry], and [TxEngine] then stages the documents,
    has the adapter commit their [DocumentTree], appends a commit built with
    [CommitDirect] to the graph of [DagOps] and moves the registry.  The
    questions of the graph ([Dag], [DagHistory], [DagJoin]) decide what a merge
    or a reader sees.  A document tree keeps its trie in a slab, and an
    attachment table is a document tree of set hashes.  [KeyEnc] is used by the
    index stores.  The engine's theorems are proved against the class
    [StorageAdapter.AdapterLaws], the pool's against the class of its store, the
    log's against the class of the shim; the instances discharge the laws.

    ** What the theorems show

    - Log frames: a segment of frames with a torn tail decodes to the records
      written; damage is skipped and counted, or reported with the records
      before it; no bytes make the decoder panic; one changed byte of the magic
      or past the length field is reported, and one of the length field may end
      decoding as a torn tail does.
    - Log: append, batch append, recovery, truncation, opening and reopening
      refine operations on the list of records, across rotation of segments and
      failures of the storage; on storage that does not fail appending and
      truncation succeed.
    - Group commit: who is let through has its sequence on disk, and every run of
      the rounds ends with all callers answered.
    - Locks: fencing tokens of superseded leases never validate again, two
      sessions never both validate a document, acquiring is all or nothing, and
      sweeping is invisible.
    - Codec: values that fit their schema encode and decode to themselves,
      whatever follows; varints likewise.
    - Commits: the direct encoder, size, decoder, hasher and scanner give what
      the generic codec gives, and a built commit decodes to itself.
    - Index keys: the encoding keeps the order of keys and decodes to the key,
      and the decoder settles any bytes.
    - Commit graph: the invariant of every reachable state, in whatever order
      commits arrive; readers without a lock see the current head; merge bases
      are those of the parent relation; what the ancestry test finds is an
      ancestor, and it finds every ancestor without pruning, with stale
      generations, or in a history whose commits arrive after their parents;
      an append is compare-and-swap and later than its parents.
    - History: the walk ends and lists what is reachable, newest first, pages
      tile it, a point in time resolves to the first commit old enough, and
      spelled revisions parse back.
    - Joins: a frontier depends only on the commits with content that heads stand
      for, and a head incorporates a commit exactly when it reaches those.
    - JSON: what is written is read back in its normal form; the parser ends on
      any text; what was set at a path is read there and nothing apart from it
      changes; the three-way diff lists exactly the fields that differ; rebasing
      a write carries its changes and nothing else.
    - Document trees: a tree refines a finite map, and its hash is that of the
      uncompressed Merkle tree of the map; an accepted proof is true, a
      comparison finds exactly the differences, and the packed form decodes to
      the tree.  Over a slab, trees that share records keep their maps through
      interleaved updates and drops; nothing leaks, no operation panics while
      slots are left, and no two slots share a place.
    - Attachments: four computations of a content hash agree and an audit path is
      accepted exactly when it is the path; tables refine maps of maps; the pool
      returns what was put and keeps its budget; the table at a commit is that of
      the operations along its first parents; merges decide each attachment the
      same from both sides.
    - Storage adapter and registry: the in-memory adapter refines a map from tree
      hashes to documents; a plan without violations keeps the registry covering
      the documents and the constraints true.
    - Transactions: strict sessions are serial executions in commit order; a
      precondition held where the transaction landed; unique constraints hold at
      every head; the operations of a commit rebuild its tree; a valid
      transaction on the head commits; one that is refused leaves documents,
      history and registry as they were.
    - Where the code departs from what it means to do or from its comments, a
      theorem states the behaviour on a concrete input: records appended after a
      torn tail are lost by the next recovery, a fully truncated log reuses
      sequences, a length of 2^63 - 1 makes the codec panic, re-acquiring a lock
      removes its deadline, the scanner reports writes of an operations field
      that a later one replaces, signed zeros reorder composite keys, the pruned
      ancestry test misses a parent that arrived after the graph was numbered, a
      squash drops a tagged commit, a listing with an unbounded limit that skips
      anything is empty, the text of a merged document depends on the order of a
      Go map, renaming an attachment in a merge can give a taken name or cut a
      character, the chunk count of a huge attachment wraps, a transaction that
      writes a document twice claims values that no document has, an empty blob
      cannot be read back, a guarded patch reverts the changes of another client,
      a document that cannot be read counts as absent, and a tree that cannot be
      committed leaves its writes to the next transaction.

    ** Conventions

    A call that returns [(T, error)] is a value of [go E T], which also has a
    constructor for a panic.  An integer is a [Z], reduced with [wrapu] and
    [wraps] where the source's arithmetic can leave its width.  A byte slice or
    string is a [list byte]; indexing and slicing out of range panic.  A map is a
    [gmap], or an association list where its order is visible.  A float is its
    IEEE bits.  A mutex makes the operation that holds it one step.

    Recursion that is not structural takes fuel.  The decoders of frames, values
    and keys start with one more than the length of the input, and every round or
    nested record consumes a byte, so the fuel is enough: the round-trip theorems
    and, for frames and keys, the theorems on arbitrary bytes are about the
    functions with that fuel.  A varint loop has a round per seven bits of its
    width: five for 32 bits, ten for 64.  The encoders recurse on the value.  The
    rounds of group commit are a relation and need no fuel.  A walk of the graph
    has a round per start and per parent of each commit it can meet; the
    numbering two per commit and one per parent; painting one per commit; the
    walk along first parents one per resident commit.  The lemmas on the loops
    show that they end within that; along first parents, on an acyclic graph.
    The JSON parser has one more than the length of the text.  A trie has 32
    levels, one per hexadecimal digit of an identifier, so its updates have 32,
    a release of a record 33, and a comparison 33 batches.  Draining the queue of
    dropped roots has one more than its length, growing a pool a round per
    missing slot, evicting from a pool of sets one per entry, hashing or proving
    a Merkle tree one per leaf, and splitting content into chunks one more than
    its bytes.

    The commit graph is that of the in-memory node store.  Maps that Go visits in
    any order are visited in the order of their elements, where the result does
    not depend on it, and otherwise in an order that is an argument.  That hash
    links have no cycle, and no path of 2^32 - 1 commits, is a hypothesis of the
    theorems that need it ([acyclic]).  A history is ordered when no commit
    arrives that is already some commit's parent ([fresh]); the part of the
    invariant that relates generations to parents is that of ordered histories,
    and in others it fails as the theorem on late parents shows.  The time is an
    argument of the operations that read the clock.

    SHA-256 is computed, and no theorem assumes that it has no collisions.  Where
    a result depends on it, the theorem has the collision as its alternative, in
    terms of the values that were hashed, or it assumes that the new hashes of
    the state at hand differ from those that are there (for transactions,
    [TxCorrect.commit_safe]).

    A transaction is one step, as under the write gate of its namespace.  Group
    commit, updates of trees over a slab and reads of the attachment pool
    interleave.

    ** What is not modelled

    Files, memory maps and sockets are behind interfaces; the random source and
    the clock are inputs; buffer pools, metrics and logging have no effect on
    results.  The files and checkpoints of the commit graph and of document
    trees, merging a branch in the transaction engine, the index stores, the
    sorted tables, the delta files, the attachment store, the schema engine (an
    interface of the transaction engine), SQL, the server and the synchronisation
    protocols are not modelled.  Transactions carry no attachment table of their
    own, which no code of the repository sets.  The Kotlin and
    TypeScript implementations are separate programs. *)

From Stdlib Require Export ZArith Lia List Bool.
From Stdlib Require Export Init.Byte.
From Stdlib Require Strings.Byte.
From Stdlib Require Strings.String.
From stdpp Require Export base tactics list gmap numbers sorting.

Export String.StringSyntax.
Open Scope Z_scope.

(** [lia] with division and remainder turned into equations. *)
Ltac zdm := Z.to_euclidean_division_equations; lia.

(** * Outcomes of Go calls

    A Go function of type [(T, error)] that may also panic is a value of
    [go E T]: it returns a value, returns an error, or panics. *)

Inductive go (E A : Type) : Type :=
  | Ok (a : A)
  | Err (e : E)
  | Panic.
Arguments Ok {E A} a.
Arguments Err {E A} e.
Arguments Panic {E A}.

#[export] Instance go_ret {E} : MRet (go E) := fun A a => Ok a.
#[export] Instance go_bind {E} : MBind (go E) := fun A B k m =>
  match m with Ok a => k a | Err e => Err e | Panic => Panic end.

Definition no_panic {E A} (r : go E A) : bool :=
  match r with Panic => false | _ => true end.

Lemma go_bind_ok {E A B} (m : go E A) (k : A -> go E B) b :
  (m ≫= k) = Ok b -> exists a, m = Ok a /\ k a = Ok b.
Proof. destruct m; simpl; intros; try discriminate; eauto. Qed.

Lemma no_panic_bind {E A B} (m : go E A) (k : A -> go E B) :
  no_panic m = true -> (forall a, m = Ok a -> no_panic (k a) = true) ->
  no_panic (m ≫= k) = true.
Proof. destruct m; simpl; auto. Qed.

(** * Machine integers

    A Go integer is a [Z]; [wrapu w] and [wraps w] reduce a mathematical
    result to the unsigned and the signed range of width [w]. *)

Definition wrapu (w z : Z) : Z := z mod 2 ^ w.
Definition wraps (w z : Z) : Z := (z + 2 ^ (w - 1)) mod 2 ^ w - 2 ^ (w - 1).

Definition is_u (w z : Z) : Prop := 0 <= z < 2 ^ w.
Definition is_s (w z : Z) : Prop := - 2 ^ (w - 1) <= z < 2 ^ (w - 1).

Lemma wrapu_id w z : is_u w z -> wrapu w z = z.
Proof. intros H. apply Z.mod_small, H. Qed.

Lemma pow2_split w : 1 <= w -> 2 ^ w = 2 * 2 ^ (w - 1).
Proof. intros. rewrite <- Z.pow_succ_r by lia. f_equal. lia. Qed.

Lemma wraps_id w z : 1 <= w -> is_s w z -> wraps w z = z.
Proof.
  unfold is_s, wraps. intros Hw H.
  pose proof (pow2_split w Hw). rewrite Z.mod_small; lia.
Qed.

Lemma wraps_wrapu w z : 1 <= w -> wraps w (wrapu w z) = wraps w z.
Proof.
  intros Hw. unfold wraps, wrapu. f_equal.
  rewrite Z.add_mod_idemp_l; [reflexivity|]. apply Z.pow_nonzero; lia.
Qed.

Lemma wraps_range w z : 1 <= w -> is_s w (wraps w z).
Proof.
  intros Hw. unfold is_s, wraps. pose proof (pow2_split w Hw).
  pose proof (Z.mod_pos_bound (z + 2 ^ (w - 1)) (2 ^ w) ltac:(apply Z.pow_pos_nonneg; lia)).
  lia.
Qed.

Lemma wrapu_range w z : 0 <= w -> is_u w (wrapu w z).
Proof. intros. apply Z.mod_pos_bound, Z.pow_pos_nonneg; lia. Qed.

Lemma lor_shiftl_add a b n :
  0 <= n -> 0 <= a < 2 ^ n -> Z.lor a (Z.shiftl b n) = a + b * 2 ^ n.
Proof.
  intros Hn Ha. rewrite <- Z.shiftl_mul_pow2 by lia.
  rewrite <- Z.add_lor_land. replace (Z.land a (Z.shiftl b n)) with 0; [lia|].
  symmetry. apply Z.bits_inj'. intros i Hi. rewrite Z.land_spec, Z.bits_0.
  destruct (Z_lt_dec i n).
  - rewrite Z.shiftl_spec_low by lia. apply andb_false_r.
  - destruct (Z.eq_dec a 0) as [->|]; [now rewrite Z.bits_0|].
    rewrite (Z.bits_above_log2 a i); [reflexivity|lia|].
    apply Z.log2_lt_pow2; [lia|]. eapply Z.lt_le_trans; [apply Ha|].
    apply Z.pow_le_mono_r; lia.
Qed.

Lemma lor_shiftl_add_l a b n :
  0 <= n -> 0 <= b < 2 ^ n -> Z.lor (Z.shiftl a n) b = a * 2 ^ n + b.
Proof. intros. rewrite Z.lor_comm, lor_shiftl_add by lia. lia. Qed.

(** * Bytes *)

Abbreviation bytes := (list byte).

(** A Go string literal: its UTF-8 bytes. *)
Definition str (s : String.string) : bytes := String.list_byte_of_string s.
Arguments str s%_string_scope.

Definition b2z (b : byte) : Z := Z.of_N (Strings.Byte.to_N b).
(** Go's [byte(v)]: truncation to the low eight bits. *)
Definition z2b (z : Z) : byte :=
  match Strings.Byte.of_N (Z.to_N (z mod 256)) with Some b => b | None => x00 end.

#[export] Instance byte_eq_dec : EqDecision byte := Strings.Byte.byte_eq_dec.
#[export] Instance byte_countable : Countable byte :=
  inj_countable Strings.Byte.to_N Strings.Byte.of_N Strings.Byte.of_to_N.

Lemma b2z_range b : 0 <= b2z b < 256.
Proof. unfold b2z. pose proof (Strings.Byte.to_N_bounded b). lia. Qed.

Lemma b2z_z2b z : b2z (z2b z) = z mod 256.
Proof.
  unfold b2z, z2b. pose proof (Z.mod_pos_bound z 256 ltac:(lia)).
  destruct (Strings.Byte.of_N _) eqn:E.
  - apply Strings.Byte.to_of_N in E. rewrite E. lia.
  - apply Strings.Byte.of_N_None_iff in E. lia.
Qed.

Lemma z2b_b2z b : z2b (b2z b) = b.
Proof. destruct b; reflexivity. Qed.

Lemma b2z_inj a b : b2z a = b2z b -> a = b.
Proof. intros H. rewrite <- (z2b_b2z a), <- (z2b_b2z b). now f_equal. Qed.

Lemma z2b_mod z z' : z mod 256 = z' mod 256 -> z2b z = z2b z'.
Proof. unfold z2b. now intros ->. Qed.

(** Go's [<=] on strings, [bytes.Compare(a, b) <= 0]: byte-wise lexicographic. *)
Fixpoint bytes_leb (a b : bytes) : bool :=
  match a, b with
  | [], _ => true
  | _ :: _, [] => false
  | x :: a, y :: b =>
    if b2z x <? b2z y then true else if b2z y <? b2z x then false else bytes_leb a b
  end.

Lemma bytes_leb_refl a : bytes_leb a a = true.
Proof. induction a as [|x a IH]; simpl; [done|]. by rewrite Z.ltb_irrefl. Qed.
Lemma bytes_leb_antisymm a b : bytes_leb a b = true -> bytes_leb b a = true -> a = b.
Proof.
  revert b; induction a as [|x a IH]; intros [|y b]; simpl; try done.
  destruct (Z.ltb_spec (b2z x) (b2z y)), (Z.ltb_spec (b2z y) (b2z x)); try done; [lia|].
  intros H1 H2. f_equal; [|auto]. apply b2z_inj. lia.
Qed.
Lemma bytes_leb_total a b : bytes_leb a b = false -> bytes_leb b a = true.
Proof.
  revert b; induction a as [|x a IH]; intros [|y b]; simpl; try done.
  destruct (Z.ltb_spec (b2z x) (b2z y)), (Z.ltb_spec (b2z y) (b2z x)); try done; try lia. apply IH.
Qed.
Lemma bytes_leb_trans a b c : bytes_leb a b = true -> bytes_leb b c = true -> bytes_leb a c = true.
Proof.
  revert b c; induction a as [|x a IH]; intros [|y b] [|z c]; simpl; try done.
  destruct (Z.ltb_spec (b2z x) (b2z y)), (Z.ltb_spec (b2z y) (b2z x)), (Z.ltb_spec (b2z y) (b2z z)), (Z.ltb_spec (b2z z) (b2z y)),
    (Z.ltb_spec (b2z x) (b2z z)), (Z.ltb_spec (b2z z) (b2z x)); try done; try lia; apply IH.
Qed.
Definition bytes_le (a b : bytes) : Prop := bytes_leb a b = true.
#[export] Instance bytes_le_dec : RelDecision bytes_le := fun a b => bool_eq_dec _ _.

(** [strings.HasPrefix]. *)
Definition has_prefix (s prefix : bytes) : bool := bool_decide (take (length prefix) s = prefix).
Lemma has_prefix_app p s : has_prefix (p ++ s) p = true.
Proof. apply bool_decide_eq_true. by rewrite take_app_length. Qed.

Create HintDb kdb.
Create Rewrite HintDb kdb.
#[export] Hint Resolve b2z_range : kdb.
#[export] Hint Rewrite b2z_z2b z2b_b2z : kdb.

(** * Little- and big-endian words *)

Fixpoint le_bytes (n : nat) (v : Z) : bytes :=
  match n with O => [] | S n => z2b v :: le_bytes n (v / 256) end.
Fixpoint le_val (l : bytes) : Z :=
  match l with [] => 0 | b :: l => b2z b + 256 * le_val l end.

Definition be_bytes (n : nat) (v : Z) : bytes := rev (le_bytes n v).
Definition be_val (l : bytes) : Z := le_val (rev l).

Lemma le_bytes_length n v : length (le_bytes n v) = n.
Proof. revert v; induction n; simpl; auto. Qed.

Lemma be_bytes_length n v : length (be_bytes n v) = n.
Proof. unfold be_bytes. rewrite length_rev. apply le_bytes_length. Qed.

Lemma pow256_S n : 2 ^ (8 * Z.of_nat (S n)) = 256 * 2 ^ (8 * Z.of_nat n).
Proof.
  replace (8 * Z.of_nat (S n)) with (8 + 8 * Z.of_nat n) by lia.
  rewrite Z.pow_add_r by lia. reflexivity.
Qed.

Lemma le_val_range l : 0 <= le_val l < 2 ^ (8 * Z.of_nat (length l)).
Proof.
  induction l as [|b l IH]; [simpl; lia|]. cbn [length le_val].
  rewrite pow256_S. pose proof (b2z_range b). lia.
Qed.

Lemma be_val_range l : 0 <= be_val l < 2 ^ (8 * Z.of_nat (length l)).
Proof. unfold be_val. rewrite <- (length_rev l). apply le_val_range. Qed.

Lemma le_val_bytes n v : le_val (le_bytes n v) = v mod 2 ^ (8 * Z.of_nat n).
Proof.
  revert v; induction n as [|n IH]; intros v; [simpl; now rewrite Z.mod_1_r|].
  cbn [le_bytes le_val]. rewrite IH, b2z_z2b, pow256_S.
  pose proof (Z.pow_pos_nonneg 2 (8 * Z.of_nat n) ltac:(lia) ltac:(lia)).
  rewrite Z.rem_mul_r by lia. lia.
Qed.

Lemma be_val_bytes n v : be_val (be_bytes n v) = v mod 2 ^ (8 * Z.of_nat n).
Proof. unfold be_val, be_bytes. rewrite rev_involutive. apply le_val_bytes. Qed.

Lemma le_bytes_val l : le_bytes (length l) (le_val l) = l.
Proof.
  induction l as [|b l IH]; [reflexivity|]. cbn [length le_val le_bytes].
  pose proof (b2z_range b). f_equal.
  - rewrite <- (z2b_b2z b) at 2. apply z2b_mod.
    rewrite (Z.mul_comm 256), Z.mod_add; lia.
  - rewrite (Z.mul_comm 256), Z.div_add, Z.div_small by lia. apply IH.
Qed.

Lemma be_bytes_val l : be_bytes (length l) (be_val l) = l.
Proof.
  unfold be_bytes, be_val. rewrite <- (length_rev l), le_bytes_val.
  apply rev_involutive.
Qed.

Lemma be_val_inj l k : length l = length k -> be_val l = be_val k -> l = k.
Proof. intros Hl Hv. rewrite <- (be_bytes_val l), <- (be_bytes_val k). congruence. Qed.

Lemma be_val_snoc l b : be_val (l ++ [b]) = 256 * be_val l + b2z b.
Proof. unfold be_val. rewrite rev_app_distr. simpl. lia. Qed.

Lemma le_bytes_mod n v : le_bytes n (v mod 2 ^ (8 * Z.of_nat n)) = le_bytes n v.
Proof.
  rewrite <- (le_val_bytes n v).
  rewrite <- (le_bytes_length n v) at 1. apply le_bytes_val.
Qed.

#[export] Hint Rewrite le_bytes_length be_bytes_length : kdb.

(** * Slices

    Lengths and offsets of the code are [int]s, so they are [Z]s here. *)

Definition zlen {A} (l : list A) : Z := Z.of_nat (length l).

(** [l[i]]: a Go index expression, which panics out of range. *)
Definition zindex {E A} (l : list A) (i : Z) : go E A :=
  if i <? 0 then Panic
  else match l !! Z.to_nat i with Some x => Ok x | None => Panic end.

(** [l[lo:hi]] on a slice that is not resliced past its length. *)
Definition zslice {E A} (l : list A) (lo hi : Z) : go E (list A) :=
  if (0 <=? lo) && (lo <=? hi) && (hi <=? zlen l)
  then Ok (take (Z.to_nat (hi - lo)) (drop (Z.to_nat lo) l))
  else Panic.

Lemma zlen_nonneg {A} (l : list A) : 0 <= zlen l.
Proof. unfold zlen; lia. Qed.
Lemma zlen_app {A} (l k : list A) : zlen (l ++ k) = zlen l + zlen k.
Proof. unfold zlen. rewrite length_app. lia. Qed.
Lemma zlen_cons {A} (x : A) l : zlen (x :: l) = 1 + zlen l.
Proof. unfold zlen. simpl. lia. Qed.
Lemma zlen_nil {A} : zlen (@nil A) = 0.
Proof. reflexivity. Qed.

#[export] Hint Resolve zlen_nonneg : kdb.
#[export] Hint Rewrite @zlen_app @zlen_cons @zlen_nil : kdb.

Lemma zindex_ok {E A} (l : list A) i :
  0 <= i < zlen l -> exists x, l !! Z.to_nat i = Some x /\ zindex (E:=E) l i = Ok x.
Proof.
  unfold zindex, zlen. intros H. destruct (Z.ltb_spec i 0); [lia|].
  destruct (lookup_lt_is_Some_2 l (Z.to_nat i)) as [x Hx]; [lia|].
  exists x. now rewrite Hx.
Qed.

Lemma zindex_app_r {E A} (p l : list A) i :
  0 <= i -> zindex (E:=E) (p ++ l) (zlen p + i) = zindex l i.
Proof.
  intros Hi. unfold zindex, zlen.
  destruct (Z.ltb_spec (Z.of_nat (length p) + i) 0); [lia|].
  destruct (Z.ltb_spec i 0); [lia|].
  rewrite lookup_app_r by lia. replace (Z.to_nat _ - length p)%nat with (Z.to_nat i) by lia.
  reflexivity.
Qed.

Lemma zslice_app_r {E A} (p l : list A) lo hi :
  0 <= lo -> zslice (E:=E) (p ++ l) (zlen p + lo) (zlen p + hi) = zslice l lo hi.
Proof.
  intros Hlo. unfold zslice. rewrite zlen_app.
  pose proof (zlen_nonneg p).
  replace (zlen p + lo <=? zlen p + hi) with (lo <=? hi) by lia.
  replace (zlen p + hi <=? zlen p + zlen l) with (hi <=? zlen l) by lia.
  replace (0 <=? zlen p + lo) with (0 <=? lo) by lia.
  destruct (_ && _ && _); [|reflexivity]. f_equal.
  rewrite drop_app_ge by (unfold zlen in *; lia).
  f_equal; [lia|]. f_equal. unfold zlen in *; lia.
Qed.

Lemma zslice_prefix {E A} (l k : list A) : zslice (E:=E) (l ++ k) 0 (zlen l) = Ok l.
Proof.
  unfold zslice. rewrite zlen_app. pose proof (zlen_nonneg l). pose proof (zlen_nonneg k).
  destruct (Z.leb_spec 0 0); [|lia]. destruct (Z.leb_spec 0 (zlen l)); [|lia].
  destruct (Z.leb_spec (zlen l) (zlen l + zlen k)); [|lia]. simpl.
  f_equal. rewrite Z.sub_0_r. change (drop 0 (l ++ k)) with (l ++ k).
  unfold zlen. rewrite Nat2Z.id. apply take_app_length.
Qed.

(** * Loops

    A Go [for] loop as a step function that continues with a new state or
    stops with a result.  [loop d] runs at most [2 ^ d] steps, without building
    a unary counter; [steps n] is the same loop with unary fuel, the form the
    proofs use. *)

Fixpoint loop {T A} (d : nat) (step : T -> T + A) (s : T) : T + A :=
  match d with
  | O => step s
  | S d => match loop d step s with inl s' => loop d step s' | inr a => inr a end
  end.

Fixpoint steps {T A} (n : nat) (step : T -> T + A) (s : T) : T + A :=
  match n with
  | O => inl s
  | S n => match step s with inl s' => steps n step s' | inr a => inr a end
  end.

Lemma steps_add {T A} (step : T -> T + A) n m s :
  steps (n + m) step s = match steps n step s with inl s' => steps m step s' | inr a => inr a end.
Proof.
  revert s; induction n as [|n IH]; intros s; simpl; [reflexivity|].
  destruct (step s); auto.
Qed.

Lemma loop_steps {T A} (step : T -> T + A) d s : loop d step s = steps (2 ^ d) step s.
Proof.
  revert s; induction d as [|d IH]; intros s; simpl.
  - destruct (step s); reflexivity.
  - rewrite Nat.add_0_r, steps_add, IH. destruct (steps (2 ^ d) step s); auto.
Qed.

Lemma steps_more {T A} (step : T -> T + A) n m s a :
  steps n step s = inr a -> (n <= m)%nat -> steps m step s = inr a.
Proof.
  intros H Hm. replace m with (n + (m - n))%nat by lia. now rewrite steps_add, H.
Qed.

(** A loop whose measure falls at every step stops within the measure. *)
Lemma steps_measure {T A} (step : T -> T + A) (mu : T -> nat) (inv : T -> Prop) n s :
  (forall t, inv t -> match step t with inl t' => inv t' /\ (mu t' < mu t)%nat | inr _ => True end) ->
  inv s -> (mu s < n)%nat -> exists a, steps n step s = inr a.
Proof.
  intros Hstep. revert s; induction n as [|n IH]; intros s Hs Hn; [lia|].
  simpl. specialize (Hstep s Hs). destruct (step s) as [t|a]; eauto.
  destruct Hstep. apply IH; [assumption|lia].
Qed.

(** A loop whose body may return an error or panic.  Running out of fuel is
    reported as a panic; the theorems show that it does not happen. *)
Definition lift_step {E T A} (body : T -> go E (T + A)) (s : T) : T + go E A :=
  match body s with
  | Ok (inl s') => inl s'
  | Ok (inr a) => inr (Ok a)
  | Err e => inr (Err e)
  | Panic => inr Panic
  end.

Definition finish {E T A} (r : T + go E A) : go E A :=
  match r with inr a => a | inl _ => Panic end.

(** * Sub-ranges of a byte string *)

Definition sub (b : bytes) (off : Z) (n : nat) : bytes := take n (drop (Z.to_nat off) b).

Lemma sub_app_r p l k n : 0 <= k -> sub (p ++ l) (zlen p + k) n = sub l k n.
Proof.
  intros. unfold sub, zlen. rewrite drop_app_ge by lia. do 2 f_equal. lia.
Qed.

Lemma sub_app_r' p l o k n : o = zlen p + k -> 0 <= k -> sub (p ++ l) o n = sub l k n.
Proof. intros ->. apply sub_app_r. Qed.

Lemma sub_prefix l q n : n = length l -> sub (l ++ q) 0 n = l.
Proof. intros ->. apply take_app_length. Qed.

Lemma sub_length b off n : 0 <= off -> off + Z.of_nat n <= zlen b -> length (sub b off n) = n.
Proof. unfold sub, zlen. intros. rewrite length_take, length_drop. lia. Qed.

Lemma sub_app_l l q off n :
  0 <= off -> off + Z.of_nat n <= zlen l -> sub (l ++ q) off n = sub l off n.
Proof.
  unfold sub, zlen. intros. rewrite drop_app_le by lia. apply take_app_le.
  rewrite length_drop. lia.
Qed.

Lemma zslice_sub {E} (b : bytes) lo hi :
  0 <= lo <= hi -> hi <= zlen b -> zslice (E:=E) b lo hi = Ok (sub b lo (Z.to_nat (hi - lo))).
Proof.
  intros. unfold zslice. replace (_ && _ && _) with true by (symmetry; lia). reflexivity.
Qed.

(** A slice of a 64-bit Go program: its length is an [int]. *)
Definition slice_ok {A} (l : list A) : Prop := zlen l < 2 ^ 63.

(** The rule the proofs use: an invariant of the state, a measure that falls
    while the loop runs, and what holds of the result. *)
Lemma loop_inv {T A} (step : T -> T + A) (mu : T -> Z) (inv : T -> Prop) (good : A -> Prop) d s :
  (forall t, inv t -> match step t with inl t' => inv t' /\ 0 <= mu t' < mu t | inr a => good a end) ->
  inv s -> mu s < 2 ^ Z.of_nat d ->
  exists a, loop d step s = inr a /\ good a.
Proof.
  intros Hstep Hs Hd.
  assert (Hn : forall n t, inv t -> mu t <= Z.of_nat n -> exists a, steps (S n) step t = inr a /\ good a).
  { induction n as [|n IH]; intros t Ht Hmu; specialize (Hstep t Ht);
      cbn [steps]; destruct (step t) as [t'|a]; eauto; destruct Hstep as [Ht' Hlt]; [lia|].
    apply (IH t' Ht'). lia. }
  destruct (Z_lt_dec (mu s) 0) as [Hneg|Hneg].
  - specialize (Hstep s Hs). destruct (step s) as [t'|a] eqn:E; [lia|]. exists a. split; [|done].
    rewrite loop_steps. apply (steps_more _ 1); [simpl; now rewrite E|].
    apply Nat2Z.inj_le. rewrite Nat2Z.inj_pow.
    pose proof (Z.pow_pos_nonneg 2 (Z.of_nat d)). change (Z.of_nat 2) with 2. lia.
  - assert (exists a, steps (2 ^ d) step s = inr a /\ good a) as (a & Ha & Hg).
    { assert (Hp : (0 < 2 ^ d)%nat) by (apply Nat.neq_0_lt_0, Nat.pow_nonzero; lia).
      destruct (2 ^ d)%nat as [|m] eqn:E; [lia|]. apply Hn; [done|].
      apply (f_equal Z.of_nat) in E. rewrite Nat2Z.inj_pow in E.
      change (Z.of_nat 2) with 2 in E. lia. }
    exists a. now rewrite loop_steps.
Qed.

(** * Lists of lists *)

Lemma elem_of_concat_map {A B} (f : A -> list B) l y : y ∈ concat (map f l) <-> exists x, x ∈ l /\ y ∈ f x.
Proof.
  induction l as [|a l IH]; cbn; [split; [by intros ?%not_elem_of_nil|by intros (? & ?%not_elem_of_nil & _)]|]. rewrite elem_of_app, IH. set_solver.
Qed.

Lemma StronglySorted_concat {A} (R : A -> A -> Prop) ls : (forall i l, ls !! i = Some l -> StronglySorted R l) ->
  (forall i j l l' x y, (i < j)%nat -> ls !! i = Some l -> ls !! j = Some l' -> x ∈ l -> y ∈ l' -> R x y) -> StronglySorted R (concat ls).
Proof.
  induction ls as [|l ls IH]; intros Hs Hc; cbn; [constructor|]. apply StronglySorted_app. split_and!; [|by apply (Hs 0%nat)|apply IH; [intros i l' Hi; by apply (Hs (S i))|intros i j l1 l2 x y Hij Hi Hj; apply (Hc (S i) (S j)); [lia|done..]]].
  intros x y Hx (l' & Hl' & Hy)%list_elem_of_In%in_concat. apply list_elem_of_In, list_elem_of_lookup in Hl' as [j Hj]. apply (Hc 0%nat (S j) l l'); [lia|done..|by apply list_elem_of_In].
Qed.

(** * Sorting

    [sort.Slice] by a strict "less" of the code: insertion sort, which is
    stable.  Only the order of equal elements depends on the algorithm. *)
Section Isort.
Context {A : Type} (ltb : A -> A -> bool).

Fixpoint sinsert (x : A) (l : list A) : list A :=
  match l with [] => [x] | y :: l' => if ltb y x then y :: sinsert x l' else x :: l end.
Fixpoint isort (l : list A) : list A :=
  match l with [] => [] | x :: l => sinsert x (isort l) end.

Lemma sinsert_perm x l : sinsert x l ≡ₚ x :: l.
Proof. induction l as [|y l IH]; simpl; [done|]. destruct (ltb y x); [rewrite IH; constructor|done]. Qed.
Lemma isort_perm l : isort l ≡ₚ l.
Proof. induction l as [|x l IH]; simpl; [done|]. now rewrite sinsert_perm, IH. Qed.

(** A list no later element of which is less than an earlier one is left alone. *)
Lemma isort_id l : StronglySorted (fun a b => ltb b a = false) l -> isort l = l.
Proof.
  induction 1 as [|x l Hl IH Hx]; simpl; [done|]. rewrite IH.
  destruct Hx as [|y l Hy _]; simpl; [done|]. now rewrite Hy.
Qed.

(** Sorting by an integer key a permutation of a list with strictly increasing keys gives that list. *)
Lemma sinsert_sorted (key : A -> Z) x l :
  (forall a b, ltb a b = (key a <? key b)) ->
  StronglySorted (fun a b => key a <= key b) l -> StronglySorted (fun a b => key a <= key b) (sinsert x l).
Proof.
  intros Hk. induction 1 as [|y l Hl IH Hy]; simpl; [repeat constructor|].
  rewrite Hk. destruct (Z.ltb_spec (key y) (key x)).
  - constructor; [done|]. rewrite sinsert_perm. constructor; [lia|done].
  - constructor; [by constructor|]. constructor; [done|]. eapply Forall_impl; [exact Hy|]. simpl. lia.
Qed.

Lemma isort_sorted (key : A -> Z) l :
  (forall a b, ltb a b = (key a <? key b)) -> StronglySorted (fun a b => key a <= key b) (isort l).
Proof. intros Hk. induction l as [|x l IH]; simpl; [constructor|]. by apply sinsert_sorted. Qed.

Lemma isort_strict (key : A -> Z) l :
  (forall a b, ltb a b = (key a <? key b)) -> NoDup (map key l) -> StronglySorted (fun a b => key a < key b) (isort l).
Proof.
  intros Hk Hn. pose proof (isort_sorted key l Hk) as Hs.
  assert (Hn' : NoDup (map key (isort l))) by (by rewrite isort_perm).
  induction Hs as [|x l' Hs IH Hx]; simpl in *; constructor; apply NoDup_cons in Hn' as [Hni Hn']; [auto|].
  rewrite Forall_forall in Hx |- *. intros y Hy. specialize (Hx y Hy).
  assert (key x <> key y); [|lia]. intros E. apply Hni. rewrite E. by apply (list_elem_of_fmap_2 key).
Qed.

Lemma isort_unique (key : A -> Z) l l' :
  (forall a b, ltb a b = (key a <? key b)) ->
  l ≡ₚ l' -> StronglySorted (fun a b => key a < key b) l' -> isort l = l'.
Proof.
  intros Hk Hp Hs. assert (Hp' : isort l ≡ₚ l') by (by rewrite isort_perm).
  assert (Hinj : forall x y, x ∈ l' -> y ∈ l' -> key x = key y -> x = y).
  { clear Hp Hp'. induction Hs as [|z l' _ IH Hz]; [set_solver|]. rewrite Forall_forall in Hz.
    intros x y Hx Hy E. apply elem_of_cons in Hx, Hy. destruct Hx as [->|Hx], Hy as [->|Hy]; [done|..|auto].
    - specialize (Hz y Hy). lia.
    - specialize (Hz x Hx). lia. }
  apply (StronglySorted_unique_strong (fun a b => key a <= key b)); [|..|done].
  - intros x y Hx Hy H1 H2. apply Hinj; [by rewrite <- Hp'|done|lia].
  - by apply isort_sorted.
  - clear Hp Hp' Hinj. induction Hs as [|z l' _ IH Hz]; constructor; [done|].
    eapply Forall_impl; [exact Hz|]. simpl. lia.
Qed.

(** Sorting by a byte-string key: in order, and the same for every order of the same elements. *)
Definition before (key : A -> bytes) (a b : A) : Prop := bytes_leb (key a) (key b) = true.

Lemma isort_bytes (key : A -> bytes) l :
  (forall a b, ltb a b = negb (bytes_leb (key b) (key a))) -> StronglySorted (before key) (isort l).
Proof.
  intros Hk. induction l as [|x l IH]; simpl; [constructor|]. induction IH as [|y l' Hl IH Hy]; simpl; [repeat constructor|].
  rewrite Hk. destruct (bytes_leb (key x) (key y)) eqn:E; simpl.
  - constructor; [by constructor|]. constructor; [done|]. eapply Forall_impl; [exact Hy|]. intros z. by apply bytes_leb_trans.
  - constructor; [done|]. rewrite sinsert_perm. constructor; [by apply bytes_leb_total|done].
Qed.

Lemma isort_bytes_unique (key : A -> bytes) l l' :
  (forall a b, ltb a b = negb (bytes_leb (key b) (key a))) -> (forall a b, key a = key b -> a = b) -> l ≡ₚ l' -> isort l = isort l'.
Proof.
  intros Hk Hi Hp. apply (StronglySorted_unique_strong (before key)).
  - intros a b _ _ H1 H2. apply Hi. by apply bytes_leb_antisymm.
  - by apply isort_bytes.
  - by apply isort_bytes.
  - by rewrite !isort_perm.
Qed.
End Isort.
