(* ===== verification/Strconv.v ===== *)
(** Decimal numbers as text: what the code uses of Go's [strconv] for integers. *)

From S2P Require Import Prelude.

Module Strconv.

(** The [n] low decimal digits of [z], most significant first. *)
Fixpoint dec_digits (n : nat) (z : Z) : bytes :=
  match n with O => [] | S n => dec_digits n (z / 10) ++ [z2b (48 + z mod 10)] end.

(** [strconv.ParseInt(s, 10, 64)]; every failure is an error. *)
Fixpoint parse_digits (acc : Z) (s : bytes) : option Z :=
  match s with
  | [] => Some acc
  | c :: s =>
    if (48 <=? b2z c) && (b2z c <=? 57) then parse_digits (10 * acc + (b2z c - 48)) s else None
  end.

Definition ParseInt (s : bytes) : option Z :=
  let '(neg, digits) :=
    match s with
    | c :: rest =>
      if b2z c =? 43 then (false, rest) else if b2z c =? 45 then (true, rest) else (false, s)
    | [] => (false, s)
    end in
  match digits with
  | [] => None
  | _ =>
    v ← parse_digits 0 digits;
    let v := if neg : bool then - v else v in
    if (- 2 ^ 63 <=? v) && (v <? 2 ^ 63) then Some v else None
  end.

(** The number of decimal digits of [z], at least one; [n] is at least that number. *)
Fixpoint ndigits (n : nat) (z : Z) : nat :=
  match n with O => 1%nat | S n => if z <? 10 then 1%nat else S (ndigits n (z / 10)) end.

(** The decimal digits of [z >= 0], without leading zeros. *)
Definition digits (z : Z) : bytes := dec_digits (ndigits (Z.to_nat (Z.log2 z)) z) z.

(** [strconv.FormatInt(z, 10)]. *)
Definition FormatInt (z : Z) : bytes := if z <? 0 then str "-" ++ digits (- z) else digits z.

(** ** Lemmas *)

Lemma dec_digits_length n z : length (dec_digits n z) = n.
Proof. revert z; induction n; intros z; simpl; [done|]. rewrite length_app, IHn. simpl. lia. Qed.

Lemma digit_ok d : 0 <= d < 10 -> b2z (z2b (48 + d)) = 48 + d.
Proof. intros. rewrite b2z_z2b. apply Z.mod_small. lia. Qed.

Lemma parse_digits_app acc a b :
  parse_digits acc (a ++ b) = (v ← parse_digits acc a; parse_digits v b).
Proof.
  revert acc; induction a as [|c a IH]; intros acc; simpl; [done|].
  destruct (_ && _); [apply IH|done].
Qed.

Lemma parse_dec_digits n z acc :
  0 <= z -> parse_digits acc (dec_digits n z) = Some (acc * 10 ^ Z.of_nat n + z mod 10 ^ Z.of_nat n).
Proof.
  revert z acc; induction n as [|n IH]; intros z acc Hz.
  - simpl. rewrite Z.mod_1_r. f_equal. lia.
  - cbn [dec_digits]. rewrite parse_digits_app, IH by (apply Z.div_pos; lia). cbn [mbind option_bind].
    pose proof (Z.mod_pos_bound z 10 ltac:(lia)) as Hd. simpl. rewrite digit_ok by lia.
    replace ((48 <=? 48 + z mod 10) && (48 + z mod 10 <=? 57)) with true by lia. f_equal.
    replace (Z.of_nat (S n)) with (Z.of_nat n + 1) by lia.
    rewrite Z.pow_add_r, Z.pow_1_r by lia.
    pose proof (Z.pow_pos_nonneg 10 (Z.of_nat n) ltac:(lia) ltac:(lia)).
    rewrite (Z.mul_comm (10 ^ Z.of_nat n) 10), (Z.rem_mul_r z 10) by lia. lia.
Qed.

Lemma ndigits_spec n z : 0 <= z < 2 ^ (Z.of_nat n + 1) ->
  (1 <= ndigits n z)%nat /\ z < 10 ^ Z.of_nat (ndigits n z) /\ (0 < z -> 10 ^ (Z.of_nat (ndigits n z) - 1) <= z).
Proof.
  revert z. induction n as [|n IH]; intros z Hz; cbn [ndigits]; [change (2 ^ (Z.of_nat 0 + 1)) with 2 in Hz; cbn; lia|].
  destruct (Z.ltb_spec z 10) as [H|H]; [cbn; lia|]. replace (Z.of_nat (S n) + 1) with (Z.succ (Z.of_nat n + 1)) in Hz by lia.
  rewrite Z.pow_succ_r in Hz by lia. destruct (IH (z / 10)) as (I1 & I2 & I3); [zdm|]. specialize (I3 ltac:(zdm)).
  rewrite Nat2Z.inj_succ, Z.pow_succ_r by lia. split; [lia|]. split; [zdm|]. intros _.
  replace (Z.succ (Z.of_nat (ndigits n (z / 10))) - 1) with (Z.succ (Z.of_nat (ndigits n (z / 10)) - 1)) by lia. rewrite Z.pow_succ_r by lia. zdm.
Qed.

Lemma ndigits_log z : 0 <= z -> (1 <= ndigits (Z.to_nat (Z.log2 z)) z)%nat /\ z < 10 ^ Z.of_nat (ndigits (Z.to_nat (Z.log2 z)) z) /\
  (0 < z -> 10 ^ (Z.of_nat (ndigits (Z.to_nat (Z.log2 z)) z) - 1) <= z).
Proof.
  intros Hz. apply ndigits_spec. pose proof (Z.log2_nonneg z). rewrite Z2Nat.id by done. split; [done|].
  destruct (Z.eq_dec z 0) as [->|Hne]; [done|]. apply (Z.log2_spec z). lia.
Qed.

Definition digit (c : byte) : Prop := 48 <= b2z c <= 57.

Lemma dec_digits_digit n z : Forall digit (dec_digits n z).
Proof.
  revert z. induction n as [|n IH]; intros z; cbn [dec_digits]; [constructor|]. apply Forall_app. split; [apply IH|]. constructor; [|constructor].
  unfold digit. pose proof (Z.mod_pos_bound z 10 ltac:(lia)). rewrite digit_ok by lia. lia.
Qed.
Lemma digits_digit z : Forall digit (digits z).
Proof. apply dec_digits_digit. Qed.
Lemma digits_length z : (1 <= length (digits z))%nat \/ z < 0.
Proof. destruct (Z.lt_ge_cases z 0); [by right|left]. unfold digits. rewrite dec_digits_length. by apply ndigits_log. Qed.

Lemma parse_digits_digits z : 0 <= z -> parse_digits 0 (digits z) = Some z.
Proof. intros Hz. unfold digits. rewrite parse_dec_digits by done. f_equal. rewrite Z.mod_small; [lia|]. pose proof (ndigits_log z Hz). lia. Qed.

Lemma parse_digits_bound s acc z : Forall digit s -> parse_digits acc s = Some z -> z < (acc + 1) * 10 ^ Z.of_nat (length s).
Proof.
  intros HF. revert acc. induction HF as [|c s Hc _ IH]; intros acc; cbn [parse_digits length]; [intros [= <-]; cbn; lia|].
  unfold digit in Hc. destruct (_ && _); [|done]. intros H%IH. rewrite Nat2Z.inj_succ, Z.pow_succ_r by lia.
  pose proof (Z.pow_pos_nonneg 10 (Z.of_nat (length s))). nia.
Qed.

Lemma digits_head z : 0 <= z -> exists c ds, digits z = c :: ds /\ digit c /\ (c = x30 -> ds = []).
Proof.
  intros Hz. pose proof (ndigits_log z Hz) as (N1 & N2 & N3). pose proof (digits_digit z) as HF. pose proof (parse_digits_digits z Hz) as HP.
  unfold digits in *. set (n := ndigits _ z) in *. assert (HL := dec_digits_length n z). destruct (dec_digits n z) as [|c ds] eqn:E; [cbn in HL; lia|].
  exists c, ds. inversion HF as [|? ? Hc HF' E']; subst. split_and!; [done..|]. intros ->. destruct ds as [|c' ds']; [done|exfalso].
  assert (Hz0 : 0 < z). { destruct (Z.eq_dec z 0) as [->|]; [|lia]. vm_compute in E. discriminate. }
  specialize (N3 Hz0). change (parse_digits 0 (c' :: ds') = Some z) in HP.
  enough (z < 10 ^ (Z.of_nat n - 1)) by lia. cbn in HL. replace (Z.of_nat n - 1) with (Z.of_nat (length (c' :: ds'))) by (cbn; lia).
  rewrite <- (Z.mul_1_l (10 ^ _)). exact (parse_digits_bound (c' :: ds') 0 z HF' HP).
Qed.

Lemma ParseInt_FormatInt z : is_s 64 z -> ParseInt (FormatInt z) = Some z.
Proof.
  intros Hz. unfold is_s in Hz. unfold FormatInt. destruct (Z.ltb_spec z 0) as [Hn|Hn].
  - unfold ParseInt. change (str "-" ++ digits (- z)) with (x2d :: digits (- z)). cbv iota beta. change (b2z x2d =? 43) with false. change (b2z x2d =? 45) with true. cbv iota beta.
    pose proof (parse_digits_digits (- z) ltac:(lia)) as HP. destruct (digits_head (- z) ltac:(lia)) as (c & ds & E & _). rewrite E in *. rewrite HP. cbn.
    replace (- - z) with z by lia. replace ((_ <=? z) && (z <? _)) with true by lia. done.
  - unfold ParseInt. pose proof (parse_digits_digits z Hn) as HP. destruct (digits_head z Hn) as (c & ds & E & Hc & _). rewrite E in *. unfold digit in Hc.
    destruct (Z.eqb_spec (b2z c) 43); [lia|]. destruct (Z.eqb_spec (b2z c) 45); [lia|]. rewrite HP. cbn.
    replace ((_ <=? z) && (z <? _)) with true by lia. done.
Qed.

End Strconv.
