(* ===== verification/Crc32.v ===== *)
(** The CRC-32 of [go/kdb/compression/crc32.go].

    [ChecksumIEEE] is Go's [hash/crc32]: the reflected IEEE polynomial,
    computed here bit by bit.  [CRC32] and [CRC32All] are the two functions of
    the source.  The theorem of the file is the guarantee the log formats rely
    on: a change confined to one byte of a checksummed range always changes
    the checksum. *)

From S2P Require Import Prelude.

Module Crc32.

Definition poly : Z := 0xEDB88320.

(** One step of the reflected shift register. *)
Definition crc_bit (s : Z) : Z :=
  if Z.odd s then Z.lxor (Z.shiftr s 1) poly else Z.shiftr s 1.

Definition crc_byte (s : Z) (b : byte) : Z := Nat.iter 8 crc_bit (Z.lxor s (b2z b)).

Definition crc_update (s : Z) (data : bytes) : Z := fold_left crc_byte data s.

Definition ChecksumIEEE (data : bytes) : Z :=
  Z.lxor (crc_update 0xFFFFFFFF data) 0xFFFFFFFF.

(** [compression.CRC32]: a negative length means "to the end", and the range
    is clipped to the data. *)
Definition CRC32 {E} (data : bytes) (offset length : Z) : go E Z :=
  let length := if length <? 0 then zlen data - offset else length in
  let end_ := wraps 64 (offset + length) in
  let end_ := if zlen data <? end_ then zlen data else end_ in
  if end_ <=? offset then Ok 0
  else d ← zslice data offset end_; Ok (ChecksumIEEE d).

Definition CRC32All (data : bytes) : Z := ChecksumIEEE data.

Example check_value : ChecksumIEEE (str "123456789") = 0xCBF43926.
Proof. vm_compute. reflexivity. Qed.

(** ** Ranges *)

Lemma lxor_u w a b : 0 <= w -> is_u w a -> is_u w b -> is_u w (Z.lxor a b).
Proof.
  unfold is_u. intros Hw Ha Hb. split; [apply Z.lxor_nonneg; lia|].
  destruct (Z.eq_dec (Z.lxor a b) 0) as [->|Hne]; [lia|].
  assert (0 <= Z.lxor a b) by (apply Z.lxor_nonneg; lia).
  apply Z.log2_lt_pow2; [lia|].
  destruct (Z.eq_dec w 0) as [->|].
  { replace a with 0 in * by (simpl in *; lia). replace b with 0 in * by (simpl in *; lia).
    now destruct Hne. }
  assert (Hl : forall x, 0 <= x < 2 ^ w -> Z.log2 x < w).
  { intros x Hx. destruct (Z.eq_dec x 0) as [->|]; [simpl; lia|].
    apply Z.log2_lt_pow2; lia. }
  pose proof (Z.log2_lxor a b ltac:(lia) ltac:(lia)). pose proof (Hl a Ha). pose proof (Hl b Hb). lia.
Qed.

Lemma crc_bit_u s : is_u 32 s -> is_u 32 (crc_bit s).
Proof.
  intros Hs. assert (is_u 32 (Z.shiftr s 1)).
  { unfold is_u in *. rewrite Z.shiftr_div_pow2 by lia. change (2 ^ 1) with 2. zdm. }
  unfold crc_bit. destruct (Z.odd s); [|assumption].
  apply lxor_u; [lia|assumption|]. unfold is_u, poly. lia.
Qed.

Lemma crc_iter_u n s : is_u 32 s -> is_u 32 (Nat.iter n crc_bit s).
Proof. intros Hs. induction n; simpl; auto using crc_bit_u. Qed.

Lemma byte_u32 b : is_u 32 (b2z b).
Proof. unfold is_u. pose proof (b2z_range b). lia. Qed.

Lemma crc_byte_u s b : is_u 32 s -> is_u 32 (crc_byte s b).
Proof. intros. apply crc_iter_u, lxor_u; auto using byte_u32; lia. Qed.

Lemma crc_update_u data s : is_u 32 s -> is_u 32 (crc_update s data).
Proof. revert s. induction data; simpl; auto using crc_byte_u. Qed.

Lemma init_u : is_u 32 0xFFFFFFFF.
Proof. unfold is_u. lia. Qed.

Lemma ChecksumIEEE_u data : is_u 32 (ChecksumIEEE data).
Proof. apply lxor_u; auto using crc_update_u, init_u; lia. Qed.

(** ** Injectivity of one register step *)

Lemma crc_bit_top s : is_u 32 s -> Z.testbit (crc_bit s) 31 = Z.odd s.
Proof.
  intros Hs. assert (Ht : Z.testbit (Z.shiftr s 1) 31 = false).
  { rewrite Z.shiftr_spec by lia. change (31 + 1) with 32.
    destruct (Z.eq_dec s 0) as [->|]; [apply Z.bits_0|].
    apply Z.bits_above_log2; [unfold is_u in Hs; lia|].
    apply Z.log2_lt_pow2; unfold is_u in Hs; lia. }
  unfold crc_bit. destruct (Z.odd s); [|exact Ht].
  rewrite Z.lxor_spec, Ht. reflexivity.
Qed.

Lemma lxor_cancel_r a b c : Z.lxor a c = Z.lxor b c -> a = b.
Proof.
  intros H. apply (f_equal (fun x => Z.lxor x c)) in H.
  rewrite !Z.lxor_assoc, Z.lxor_nilpotent, !Z.lxor_0_r in H. exact H.
Qed.

Lemma lxor_cancel_l a b c : Z.lxor c a = Z.lxor c b -> a = b.
Proof. rewrite !(Z.lxor_comm c). apply lxor_cancel_r. Qed.

Lemma shiftr1_odd_inj s t :
  Z.odd s = Z.odd t -> Z.shiftr s 1 = Z.shiftr t 1 -> s = t.
Proof.
  intros Ho Hs. rewrite <- !Z.div2_spec in Hs.
  rewrite (Z.div2_odd s), (Z.div2_odd t), Ho, Hs. reflexivity.
Qed.

Lemma crc_bit_inj s t : is_u 32 s -> is_u 32 t -> crc_bit s = crc_bit t -> s = t.
Proof.
  intros Hs Ht H. assert (Ho : Z.odd s = Z.odd t).
  { rewrite <- crc_bit_top, <- (crc_bit_top t), H by assumption. reflexivity. }
  apply shiftr1_odd_inj; [exact Ho|]. unfold crc_bit in H. rewrite Ho in H.
  destruct (Z.odd t); [exact (lxor_cancel_r _ _ _ H)|exact H].
Qed.

Lemma crc_iter_inj n s t :
  is_u 32 s -> is_u 32 t -> Nat.iter n crc_bit s = Nat.iter n crc_bit t -> s = t.
Proof.
  induction n as [|n IH]; simpl; [auto|]. intros Hs Ht H.
  apply IH; auto. apply crc_bit_inj in H; auto using crc_iter_u.
Qed.

Lemma crc_byte_inj_state s t b :
  is_u 32 s -> is_u 32 t -> crc_byte s b = crc_byte t b -> s = t.
Proof.
  intros Hs Ht H. apply crc_iter_inj in H; [|apply lxor_u; auto using byte_u32; lia..].
  exact (lxor_cancel_r _ _ _ H).
Qed.

Lemma crc_byte_inj_data s a b : is_u 32 s -> crc_byte s a = crc_byte s b -> a = b.
Proof.
  intros Hs H. apply crc_iter_inj in H; [|apply lxor_u; auto using byte_u32; lia..].
  apply b2z_inj, (lxor_cancel_l _ _ _ H).
Qed.

Lemma crc_update_inj data s t :
  is_u 32 s -> is_u 32 t -> crc_update s data = crc_update t data -> s = t.
Proof.
  revert s t. induction data as [|b l IH]; simpl; [auto|]. intros s t Hs Ht H.
  apply IH in H; auto using crc_byte_u. exact (crc_byte_inj_state _ _ _ Hs Ht H).
Qed.

Lemma ChecksumIEEE_detects_byte_eq p q a b :
  a <> b -> ChecksumIEEE (p ++ a :: q) <> ChecksumIEEE (p ++ b :: q).
Proof.
  intros Hab H. unfold ChecksumIEEE in H. apply lxor_cancel_r in H.
  unfold crc_update in H. rewrite !fold_left_app in H. simpl in H.
  apply crc_update_inj in H; [|apply crc_byte_u, crc_update_u, init_u..].
  apply crc_byte_inj_data in H; [contradiction|]. apply crc_update_u, init_u.
Qed.

(** Two byte strings that differ in exactly one byte never have the same
    CRC-32, so a record damaged in one byte is always caught by its checksum. *)
Theorem ChecksumIEEE_detects_byte (p q : bytes) (a b : byte) (Hab : a <> b) :
  ChecksumIEEE (p ++ a :: q) <> ChecksumIEEE (p ++ b :: q).
Proof. now apply ChecksumIEEE_detects_byte_eq. Qed.

Lemma ChecksumIEEE_detects_byte_witness :
  ChecksumIEEE (str "put" ++ x01 :: str "blob") <> ChecksumIEEE (str "put" ++ x81 :: str "blob").
Proof. apply ChecksumIEEE_detects_byte. discriminate. Defined.

End Crc32.
