(* ===== verification/PlatformIO.v ===== *)
(** Platform I/O: segment names ([storage/io/segment_name.go]), the
    [PlatformIOShim] interface ([storage/platform_io.go]) and its in-memory
    implementation ([storage/io/in_memory.go]).

    Strings are byte lists.  An operation of the shim maps a state to a new
    state and an outcome; the mutex around every operation makes each of them
    atomic.  [PlatformIOShim] is the interface the log is written against,
    [ShimLaws] what it relies on, and [InMemoryPlatformIO] discharges it. *)

From S2P Require Import Prelude.

Inductive io_error :=
  | SegmentSealed (name : bytes)
  | UnknownSegment (name : bytes)
  | OffsetOutOfRange
  | NegativeLength
  | RenameOfSealed (name : bytes)
  | RenameTargetExists (name : bytes)
  | IOFault.

(** ** Segment names *)

Module SegmentName.

Inductive SegmentKind := SegmentKindDelta | SegmentKindWAL | SegmentKindSSTable.

Definition KindString (k : SegmentKind) : bytes :=
  match k with
  | SegmentKindDelta => str "delta"
  | SegmentKindWAL => str "wal"
  | SegmentKindSSTable => str "sstable"
  end.

Definition path (namespaceID : bytes) (kind : SegmentKind) (segmentID : bytes) : bytes :=
  str "ns/" ++ namespaceID ++ str "/" ++ KindString kind ++ str "/" ++ segmentID.

Definition WAL (namespaceID walID : bytes) : bytes := path namespaceID SegmentKindWAL walID.

Definition NamespacePrefix (namespaceID : bytes) : bytes := str "ns/" ++ namespaceID ++ str "/".

End SegmentName.

(** ** The interface *)

Class PlatformIOShim (T : Type) := {
  AppendToSegment : bytes -> bytes -> T -> T * go io_error Z;
  ReadFromSegment : bytes -> Z -> Z -> T -> go io_error bytes;
  FlushSegment : bytes -> T -> T * go io_error unit;
  SealSegment : bytes -> T -> T * go io_error unit;
  ListSegments : bytes -> T -> go io_error (list bytes);
  DeleteSegment : bytes -> T -> T * go io_error unit;
}.

(** The bytes [ReadFromSegment] returns for a range of a segment: the part of
    the range inside it. *)
Definition read_range (c : bytes) (off len : Z) : bytes :=
  take (Z.to_nat len) (drop (Z.to_nat off) c).

(** What a client may rely on.  [content] is a segment's bytes, if the segment
    exists; [sealed] whether it refuses appends.  Any operation may fail with
    an error; a failed operation changes no segment's contents. *)
Class ShimLaws (T : Type) `{PlatformIOShim T} := {
  content : T -> bytes -> option bytes;
  sealed : T -> bytes -> bool;
  append_law : forall n b s,
    let '(s', r) := AppendToSegment n b s in
    sealed s' = sealed s /\
    match r with
    | Ok z => let c := default [] (content s n) ++ b in
        z = zlen c /\ forall m, content s' m = if decide (m = n) then Some c else content s m
    | Err _ => forall m, content s' m = content s m
    | Panic => False
    end;
  read_law : forall n off len s,
    match ReadFromSegment n off len s with
    | Ok d => exists c, content s n = Some c /\ d = read_range c off len
    | Err _ => True
    | Panic => False
    end;
  flush_law : forall n s,
    let '(s', r) := FlushSegment n s in
    sealed s' = sealed s /\ r <> Panic /\ forall m, content s' m = content s m;
  seal_law : forall n s,
    let '(s', r) := SealSegment n s in
    r <> Panic /\ (forall m, content s' m = content s m) /\
    (forall m, m <> n -> sealed s' m = sealed s m);
  delete_law : forall n s,
    let '(s', r) := DeleteSegment n s in
    (forall m, m <> n -> sealed s' m = sealed s m) /\
    match r with
    | Ok _ => sealed s' n = false /\
        forall m, content s' m = if decide (m = n) then None else content s m
    | Err _ => sealed s' n = sealed s n /\ forall m, content s' m = content s m
    | Panic => False
    end;
  list_law : forall ns s,
    match ListSegments ns s with
    | Ok l => NoDup l /\ forall n, n ∈ l <-> is_Some (content s n) /\
        has_prefix n (SegmentName.NamespacePrefix ns) = true
    | Err _ => True
    | Panic => False
    end;
}.

(** A shim whose storage never faults: operations fail only for the reasons
    the interface documents. *)
Class ShimTotal (T : Type) `{ShimLaws T} := {
  append_total : forall n b s, sealed s n = false -> exists s' z, AppendToSegment n b s = (s', Ok z);
  read_total : forall n c off len s, content s n = Some c -> 0 <= off <= zlen c -> 0 <= len ->
    ReadFromSegment n off len s = Ok (read_range c off len);
  flush_total : forall n s, exists s', FlushSegment n s = (s', Ok tt);
  seal_total : forall n s, exists s', SealSegment n s = (s', Ok tt);
  delete_total : forall n s, exists s', DeleteSegment n s = (s', Ok tt);
  list_total : forall ns s, exists l, ListSegments ns s = Ok l;
}.

(** ** The in-memory shim *)

Module InMemory.

Record InMemoryPlatformIO := mkIO {
  segments : gmap bytes bytes;
  sealedSet : gset bytes;
  snapshots : gmap bytes bytes;
  generations : gmap bytes Z;
}.

Definition NewInMemoryPlatformIO : InMemoryPlatformIO := mkIO ∅ ∅ ∅ ∅.

Definition set_segments (f : gmap bytes bytes -> gmap bytes bytes) (s : InMemoryPlatformIO) :=
  mkIO (f (segments s)) (sealedSet s) (snapshots s) (generations s).

Definition Append (segmentName b : bytes) (s : InMemoryPlatformIO)
    : InMemoryPlatformIO * go io_error Z :=
  if decide (segmentName ∈ sealedSet s) then (s, Err (SegmentSealed segmentName))
  else
    let next := default [] (segments s !! segmentName) ++ b in
    (set_segments <[segmentName := next]> s, Ok (zlen next)).

Definition Read (segmentName : bytes) (offset length : Z) (s : InMemoryPlatformIO)
    : go io_error bytes :=
  match segments s !! segmentName with
  | None => Err (UnknownSegment segmentName)
  | Some full =>
    if (offset <? 0) || (zlen full <? offset) then Err OffsetOutOfRange
    else if length <? 0 then Err NegativeLength
    else
      let safeLen := if zlen full <? offset + length then zlen full - offset else length in
      if safeLen <=? 0 then Ok []
      else zslice full offset (offset + safeLen)
  end.

Definition SegmentSize (segmentName : bytes) (s : InMemoryPlatformIO) : go io_error Z :=
  match segments s !! segmentName with
  | None => Err (UnknownSegment segmentName)
  | Some full => Ok (zlen full)
  end.

Definition Flush (segmentName : bytes) (s : InMemoryPlatformIO)
    : InMemoryPlatformIO * go io_error unit := (s, Ok tt).

Definition Seal (segmentName : bytes) (s : InMemoryPlatformIO)
    : InMemoryPlatformIO * go io_error unit :=
  (mkIO (segments s) ({[segmentName]} ∪ sealedSet s) (snapshots s) (generations s), Ok tt).

Definition ListNames (namespaceID : bytes) (s : InMemoryPlatformIO) : go io_error (list bytes) :=
  let prefix := SegmentName.NamespacePrefix namespaceID in
  Ok (merge_sort bytes_le
        (List.filter (fun name => has_prefix name prefix) (map_to_list (segments s)).*1)).

Definition Delete (segmentName : bytes) (s : InMemoryPlatformIO)
    : InMemoryPlatformIO * go io_error unit :=
  (mkIO (delete segmentName (segments s)) (sealedSet s ∖ {[segmentName]})
     (snapshots s) (delete segmentName (generations s)), Ok tt).

Definition Rename (from to : bytes) (s : InMemoryPlatformIO)
    : InMemoryPlatformIO * go io_error unit :=
  match segments s !! from with
  | None => (s, Err (UnknownSegment from))
  | Some data =>
    if decide (from ∈ sealedSet s) then (s, Err (RenameOfSealed from))
    else if bool_decide (is_Some (segments s !! to)) || bool_decide (from = to)
    then (s, Err (RenameTargetExists to))
    else (mkIO (delete from (<[to := data]> (segments s))) (sealedSet s) (snapshots s)
            (delete to (delete from (generations s))), Ok tt)
  end.

(** [SegmentGeneration]: [next] is the process-wide counter behind
    [storage.NextSegmentGeneration]. *)
Definition Generation (segmentName : bytes) (next : Z) (s : InMemoryPlatformIO)
    : InMemoryPlatformIO * Z * Z :=
  match generations s !! segmentName with
  | Some g => (s, next, g)
  | None =>
    let g := wrapu 64 (next + 1) in
    (mkIO (segments s) (sealedSet s) (snapshots s) (<[segmentName := g]> (generations s)), g, g)
  end.

(** A snapshot written with no bytes is stored as a nil slice, so it reads
    back as if it were absent. *)
Definition ReadSnapshot (key : bytes) (s : InMemoryPlatformIO) : go io_error (option bytes) :=
  Ok (match snapshots s !! key with Some (b :: l) => Some (b :: l) | _ => None end).

Definition WriteSnapshot (key data : bytes) (s : InMemoryPlatformIO)
    : InMemoryPlatformIO * go io_error unit :=
  (mkIO (segments s) (sealedSet s) (<[key := data]> (snapshots s)) (generations s), Ok tt).

Definition DeleteSnapshot (key : bytes) (s : InMemoryPlatformIO)
    : InMemoryPlatformIO * go io_error unit :=
  (mkIO (segments s) (sealedSet s) (delete key (snapshots s)) (generations s), Ok tt).

#[export] Instance in_memory_shim : PlatformIOShim InMemoryPlatformIO := {|
  AppendToSegment := Append;
  ReadFromSegment := Read;
  FlushSegment := Flush;
  SealSegment := Seal;
  ListSegments := ListNames;
  DeleteSegment := Delete;
|}.

Lemma Read_range n full off len s :
  segments s !! n = Some full -> 0 <= off <= zlen full -> 0 <= len ->
  Read n off len s = Ok (read_range full off len).
Proof.
  intros Hn Hoff Hlen. unfold Read. rewrite Hn.
  destruct (Z.ltb_spec off 0); [lia|]. destruct (Z.ltb_spec (zlen full) off); [lia|].
  destruct (Z.ltb_spec len 0); [lia|]. simpl. unfold read_range, zlen in *.
  destruct (Z.ltb_spec (Z.of_nat (length full)) (off + len)) as [H2|H2].
  - destruct (Z.leb_spec (Z.of_nat (length full) - off) 0).
    + f_equal. rewrite drop_ge by lia. now rewrite take_nil.
    + unfold zslice, zlen. replace (_ && _ && _) with true by (symmetry; lia). f_equal.
      rewrite !take_ge; [reflexivity|rewrite length_drop; lia..].
  - destruct (Z.leb_spec len 0).
    + replace (Z.to_nat len) with 0%nat by lia. reflexivity.
    + unfold zslice, zlen. replace (_ && _ && _) with true by (symmetry; lia). do 3 f_equal. lia.
Qed.

Lemma Read_no_panic n off len s : Read n off len s <> Panic.
Proof.
  unfold Read. destruct (segments s !! n) as [full|]; [|done].
  destruct (Z.ltb_spec off 0), (Z.ltb_spec (zlen full) off), (Z.ltb_spec len 0); try done.
  simpl. destruct (Z.ltb_spec (zlen full) (off + len)); case_match; try done;
    unfold zslice; replace (_ && _ && _) with true by (symmetry; lia); done.
Qed.

#[export, refine] Instance in_memory_laws : ShimLaws InMemoryPlatformIO := {|
  content s n := segments s !! n;
  sealed s n := bool_decide (n ∈ sealedSet s);
|}.
Proof.
  - intros n b s. simpl. unfold Append. case_decide; simpl; [done|].
    split_and!; try done. intros m. rewrite lookup_insert. repeat case_decide; congruence.
  - intros n off len s. simpl. pose proof (Read_no_panic n off len s).
    destruct (Read n off len s) as [d| |] eqn:E; [|done..]. revert E. unfold Read.
    destruct (segments s !! n) as [full|] eqn:Hn; [|done].
    destruct (Z.ltb_spec off 0), (Z.ltb_spec (zlen full) off), (Z.ltb_spec len 0); try done.
    intros E. exists full. split; [done|].
    pose proof (Read_range n full off len s Hn ltac:(lia) ltac:(lia)) as R. unfold Read in R.
    rewrite Hn in R.
    replace (off <? 0) with false in R by lia. replace (zlen full <? off) with false in R by lia.
    replace (len <? 0) with false in R by lia. simpl in *. congruence.
  - intros n s. simpl. done.
  - intros n s. simpl. split_and!; [done..|]. intros m Hm. apply bool_decide_ext. set_solver.
  - intros n s. simpl. split; [|split].
    + intros m Hm. apply bool_decide_ext. set_solver.
    + apply bool_decide_eq_false. set_solver.
    + intros m. rewrite lookup_delete. repeat case_decide; congruence.
  - intros ns s. cbn [ListSegments in_memory_shim]. unfold ListNames.
    split.
    + rewrite merge_sort_Permutation. apply NoDup_ListNoDup, List.NoDup_filter, NoDup_ListNoDup, NoDup_fst_map_to_list.
    + intros n. rewrite merge_sort_Permutation, list_elem_of_In, List.filter_In, <- list_elem_of_In.
      rewrite list_elem_of_fmap. split.
      * intros [((k & v) & -> & Hin) Hp]. apply elem_of_map_to_list in Hin. eauto.
      * intros [[v Hv] Hp]. split; [|done]. exists (n, v). split; [done|]. by apply elem_of_map_to_list.
Defined.

#[export] Instance in_memory_total : ShimTotal InMemoryPlatformIO.
Proof.
  split.
  - intros n b s H. simpl in *. apply bool_decide_eq_false in H. unfold Append.
    rewrite decide_False by done. eauto.
  - intros n c off len s. simpl. apply Read_range.
  - intros n s. simpl. eauto.
  - intros n s. simpl. eauto.
  - intros n s. simpl. eauto.
  - intros ns s. cbn. eauto.
Qed.

End InMemory.
