(* ===== verification/Primitives.v ===== *)
(** The identifier, hash and time types of [go/kdb/codec/primitives.go].

    A [UUID] is two signed 64-bit halves, a [Hash] 32 bytes, a [Timestamp]
    milliseconds and microseconds within the millisecond.  Properties: the byte
    and the text forms of a UUID and of a hash decode to what was encoded, and
    the microsecond form of a timestamp does for every instant it can hold. *)

From S2P Require Import Prelude.

(** Errors of the parsing functions, by the message of the source. *)
Inductive parse_error :=
  | UuidRequires16Bytes | UuidRequires32Hex | HashRequires32Bytes | HashRequires64Chars
  | HexInvalidByte | HexOddLength.

(** ** encoding/hex *)

Definition hex_digit (n : Z) : byte := if n <? 10 then z2b (48 + n) else z2b (87 + n).

Definition from_hex_char (c : byte) : option Z :=
  let c := b2z c in
  if (48 <=? c) && (c <=? 57) then Some (c - 48)
  else if (97 <=? c) && (c <=? 102) then Some (c - 97 + 10)
  else if (65 <=? c) && (c <=? 70) then Some (c - 65 + 10)
  else None.

(** [hex.EncodeToString]. *)
Fixpoint EncodeToString (b : bytes) : bytes :=
  match b with
  | [] => []
  | x :: b => hex_digit (b2z x / 16) :: hex_digit (b2z x mod 16) :: EncodeToString b
  end.

(** [hex.DecodeString]: a pair is checked before the odd trailing character. *)
Fixpoint DecodeString (s : bytes) : go parse_error bytes :=
  match s with
  | [] => Ok []
  | [c] => match from_hex_char c with None => Err HexInvalidByte | Some _ => Err HexOddLength end
  | a :: b :: s =>
    match from_hex_char a, from_hex_char b with
    | Some x, Some y => r ← DecodeString s; Ok (z2b (Z.lor (Z.shiftl x 4) y) :: r)
    | _, _ => Err HexInvalidByte
    end
  end.

(** ** Big-endian and little-endian words *)

(** [writeBE64], the eight bytes it stores. *)
Definition writeBE64 (v : Z) : bytes :=
  let u := wrapu 64 v in
  (fun i => z2b (Z.shiftr u ((7 - i) * 8))) <$> [0; 1; 2; 3; 4; 5; 6; 7].

Definition readBE64 {E} (b : bytes) (off : Z) : go E Z :=
  u ← foldl (fun acc i =>
        u ← acc; x ← zindex b (off + i);
        Ok (Z.lor (wrapu 64 (Z.shiftl u 8)) (b2z x))) (Ok 0) [0; 1; 2; 3; 4; 5; 6; 7];
  Ok (wraps 64 u).

Definition putLe32 (v : Z) : bytes := (fun i => z2b (Z.shiftr v (8 * i))) <$> [0; 1; 2; 3].
Definition putLe64 (v : Z) : bytes :=
  (fun i => z2b (Z.shiftr v (8 * i))) <$> [0; 1; 2; 3; 4; 5; 6; 7].

Definition read_le {E} (w : Z) (idx : list Z) (b : bytes) (off : Z) : go E Z :=
  foldl (fun acc i =>
    v ← acc; x ← zindex b (off + i); Ok (Z.lor v (wrapu w (Z.shiftl (b2z x) (8 * i)))))
    (Ok 0) idx.

Definition readLe32 {E} (b : bytes) (off : Z) : go E Z :=
  v ← read_le 32 [0; 1; 2; 3] b off; Ok (wraps 32 v).
Definition readLe64 {E} (b : bytes) (off : Z) : go E Z :=
  read_le 64 [0; 1; 2; 3; 4; 5; 6; 7] b off.

(** ** UUID *)

Record UUID := mkUUID { MSB : Z; LSB : Z }.

#[export] Instance uuid_eq_dec : EqDecision UUID.
Proof. solve_decision. Defined.
#[export] Instance uuid_countable : Countable UUID :=
  inj_countable' (fun u => (MSB u, LSB u)) (fun p => mkUUID p.1 p.2)
    (fun u => match u with mkUUID _ _ => eq_refl end).

Definition uuid_wf (u : UUID) : Prop := is_s 64 (MSB u) /\ is_s 64 (LSB u).

Definition UUIDFromBytes (b : bytes) : go parse_error UUID :=
  if negb (zlen b =? 16) then Err UuidRequires16Bytes
  else m ← readBE64 b 0; l ← readBE64 b 8; Ok (mkUUID m l).

(** [UUID.Bytes] and [UUID.AppendBytes]. *)
Definition UUIDBytes (u : UUID) : bytes := writeBE64 (MSB u) ++ writeBE64 (LSB u).
Definition AppendBytes (dst : bytes) (u : UUID) : bytes := dst ++ be_bytes 8 (MSB u) ++ be_bytes 8 (LSB u).

(** [UUID.String]: the five groups are the hexadecimal digits of bytes 0-3,
    4-5, 6-7, 8-9 and 10-15. *)
Definition UUIDString (u : UUID) : bytes :=
  let b := UUIDBytes u in
  let dash := str "-" in
  EncodeToString (sub b 0 4) ++ dash ++ EncodeToString (sub b 4 2) ++ dash ++
  EncodeToString (sub b 6 2) ++ dash ++ EncodeToString (sub b 8 2) ++ dash ++
  EncodeToString (sub b 10 6).

(** [strings.ReplaceAll(s, "-", "")]. *)
Definition strip_dashes (s : bytes) : bytes := List.filter (fun c => negb (b2z c =? 45)) s.

Definition UUIDFromString (s : bytes) : go parse_error UUID :=
  let s := strip_dashes s in
  if negb (zlen s =? 32) then Err UuidRequires32Hex
  else b ← DecodeString s; UUIDFromBytes b.

(** ** Hash *)

Record Hash := mkHash { HashBytes : bytes }.

#[export] Instance hash_eq_dec : EqDecision Hash.
Proof. solve_decision. Defined.
#[export] Instance hash_countable : Countable Hash :=
  inj_countable' HashBytes mkHash (fun h => match h with mkHash _ => eq_refl end).

Definition hash_wf (h : Hash) : Prop := length (HashBytes h) = 32%nat.

Definition HashFromBytes (b : bytes) : go parse_error Hash :=
  if negb (zlen b =? 32) then Err HashRequires32Bytes else Ok (mkHash b).

Definition HashFromHex (s : bytes) : go parse_error Hash :=
  if negb (zlen s =? 64) then Err HashRequires64Chars
  else b ← DecodeString s; HashFromBytes b.

Definition Hex (h : Hash) : bytes := EncodeToString (HashBytes h).

(** ** Timestamp *)

Record Timestamp := mkTs { EpochMillis : Z; MicroRemainder : Z }.

Definition EpochMicros (t : Timestamp) : Z :=
  wraps 64 (wraps 64 (EpochMillis t * 1000) + MicroRemainder t).

(** Go's [/] and [%] truncate towards zero. *)
Definition TimestampFromEpochMicros (micros : Z) : Timestamp :=
  let ms := Z.quot micros 1000 in
  let r := Z.rem micros 1000 in
  if (micros <? 0) && negb (r =? 0) then mkTs (ms - 1) (1000 + r) else mkTs ms r.

(** The timestamps [TimestampFromEpochMicros] produces: those whose
    microsecond form fits in an int64. *)
Definition ts_wf (t : Timestamp) : Prop :=
  0 <= MicroRemainder t < 1000 /\ is_s 64 (EpochMillis t * 1000 + MicroRemainder t).

(** ** Lemmas *)

Lemma z2b_shift_div v k : 0 <= k -> z2b (Z.shiftr v k) = z2b (v / 2 ^ k).
Proof. intros. now rewrite Z.shiftr_div_pow2. Qed.

Lemma le_bytes_4 v :
  le_bytes 4 v = [z2b v; z2b (v / 256); z2b (v / 256 / 256); z2b (v / 256 / 256 / 256)].
Proof. reflexivity. Qed.

Ltac shift_bytes :=
  cbn -[z2b Z.shiftr Z.div];
  repeat f_equal; rewrite ?Z.shiftr_div_pow2 by lia;
  rewrite ?Z.div_div by lia; try reflexivity;
  rewrite ?Z.div_1_r; reflexivity.

Lemma putLe32_spec v : putLe32 v = le_bytes 4 v.
Proof. unfold putLe32. shift_bytes. Qed.
Lemma putLe64_spec v : putLe64 v = le_bytes 8 v.
Proof. unfold putLe64. shift_bytes. Qed.

Lemma writeBE64_spec v : writeBE64 v = be_bytes 8 v.
Proof.
  unfold writeBE64, be_bytes. rewrite <- (le_bytes_mod 8 v).
  change (2 ^ (8 * Z.of_nat 8)) with (2 ^ 64). fold (wrapu 64 v). shift_bytes.
Qed.

Lemma zindex_sub {E} b off n (i : nat) x :
  0 <= off -> sub b off n !! i = Some x -> zindex (E:=E) b (off + Z.of_nat i) = Ok x.
Proof.
  unfold sub, zindex. intros Hoff H. apply lookup_take_Some in H as [H _].
  rewrite lookup_drop in H. destruct (Z.ltb_spec (off + Z.of_nat i) 0); [lia|].
  replace (Z.to_nat (off + Z.of_nat i)) with (Z.to_nat off + i)%nat by lia. now rewrite H.
Qed.

Lemma be_step u x :
  0 <= u < 2 ^ 56 -> Z.lor (wrapu 64 (Z.shiftl u 8)) (b2z x) = 256 * u + b2z x.
Proof.
  intros Hu. pose proof (b2z_range x). rewrite wrapu_id.
  - rewrite Z.lor_comm, lor_shiftl_add by lia. lia.
  - unfold is_u. rewrite Z.shiftl_mul_pow2 by lia. lia.
Qed.

Lemma le_step w v x k :
  0 <= k -> k + 8 <= w -> 0 <= v < 2 ^ k ->
  Z.lor v (wrapu w (Z.shiftl (b2z x) k)) = v + b2z x * 2 ^ k.
Proof.
  intros Hk Hw Hv. pose proof (b2z_range x). rewrite wrapu_id.
  - apply lor_shiftl_add; lia.
  - unfold is_u. rewrite Z.shiftl_mul_pow2 by lia.
    assert (2 ^ (k + 8) <= 2 ^ w) by (apply Z.pow_le_mono_r; lia).
    rewrite Z.pow_add_r in * by lia. split; nia.
Qed.

(** The bytes of a range of length [n], named. *)
Lemma sub_split {E} b off n :
  0 <= off -> off + Z.of_nat n <= zlen b ->
  exists l, sub b off n = l /\ length l = n /\
    forall i x, l !! i = Some x -> zindex (E:=E) b (off + Z.of_nat i) = Ok x.
Proof.
  intros. exists (sub b off n). split_and!; [done|by apply sub_length|].
  intros i x. by apply zindex_sub.
Qed.

Ltac use_index H :=
  repeat match goal with
  | |- context [zindex ?b (?o + ?k)] =>
      let n := eval compute in (Z.to_nat k) in
      rewrite (H n _ eq_refl : zindex b (o + k) = Ok _)
  end.

(** Innermost shift-and-or first, so that the ranges are known. *)
Ltac be_steps :=
  repeat match goal with
  | |- context [Z.lor (wrapu 64 (Z.shiftl ?u 8)) (b2z ?x)] =>
      lazymatch u with context [Z.lor] => fail | _ => rewrite (be_step u x) by lia end
  end.
Ltac le_steps :=
  repeat match goal with
  | |- context [Z.lor ?v (wrapu ?w (Z.shiftl (b2z ?x) ?k))] =>
      lazymatch v with context [Z.lor] => fail | _ => rewrite (le_step w v x k) by (cbn; lia) end
  end.

Lemma readBE64_spec {E} b off :
  0 <= off -> off + 8 <= zlen b -> readBE64 (E:=E) b off = Ok (wraps 64 (be_val (sub b off 8))).
Proof.
  intros H1 H2. destruct (sub_split (E:=E) b off 8 H1 H2) as (l & -> & Hlen & Hi).
  do 9 (destruct l as [|? l]; try discriminate). unfold readBE64. cbn -[zindex Z.add].
  use_index Hi. cbn -[Z.lor wrapu Z.shiftl Z.add be_val].
  repeat match goal with b : byte |- _ => learn_hyp (b2z_range b) end.
  be_steps. do 2 f_equal. unfold be_val. cbn. lia.
Qed.

Lemma readLe32_spec {E} b off :
  0 <= off -> off + 4 <= zlen b -> readLe32 (E:=E) b off = Ok (wraps 32 (le_val (sub b off 4))).
Proof.
  intros H1 H2. destruct (sub_split (E:=E) b off 4 H1 H2) as (l & -> & Hlen & Hi).
  do 5 (destruct l as [|? l]; try discriminate). unfold readLe32, read_le. cbn -[zindex Z.add].
  use_index Hi. cbn -[Z.lor wrapu Z.shiftl Z.add].
  repeat match goal with b : byte |- _ => learn_hyp (b2z_range b) end.
  le_steps. do 2 f_equal. cbn -[Z.add Z.mul]. lia.
Qed.

Lemma readLe64_spec {E} b off :
  0 <= off -> off + 8 <= zlen b -> readLe64 (E:=E) b off = Ok (le_val (sub b off 8)).
Proof.
  intros H1 H2. destruct (sub_split (E:=E) b off 8 H1 H2) as (l & -> & Hlen & Hi).
  do 9 (destruct l as [|? l]; try discriminate). unfold readLe64, read_le. cbn -[zindex Z.add].
  use_index Hi. cbn -[Z.lor wrapu Z.shiftl Z.add].
  repeat match goal with b : byte |- _ => learn_hyp (b2z_range b) end.
  le_steps. f_equal. cbn -[Z.add Z.mul]. lia.
Qed.

Lemma wraps_be_val v : is_s 64 v -> wraps 64 (be_val (be_bytes 8 v)) = v.
Proof.
  intros H. rewrite be_val_bytes. change (v mod _) with (wrapu 64 v).
  rewrite wraps_wrapu by lia. apply wraps_id; [lia|exact H].
Qed.

Lemma writeBE64_length v : length (writeBE64 v) = 8%nat.
Proof. reflexivity. Qed.

Lemma readBE64_write {E} p v q :
  is_s 64 v -> readBE64 (E:=E) (p ++ writeBE64 v ++ q) (zlen p) = Ok v.
Proof.
  intros Hv. rewrite readBE64_spec.
  - rewrite (sub_app_r' _ _ _ 0) by lia. rewrite sub_prefix by done.
    rewrite writeBE64_spec. now rewrite wraps_be_val.
  - apply zlen_nonneg.
  - rewrite !zlen_app. unfold zlen at 2 3. rewrite writeBE64_length.
    pose proof (zlen_nonneg p). pose proof (zlen_nonneg q). unfold zlen in *. lia.
Qed.

Lemma zlen_writeBE64 v : zlen (writeBE64 v) = 8.
Proof. unfold zlen. now rewrite writeBE64_length. Qed.

Lemma UUIDBytes_length u : length (UUIDBytes u) = 16%nat.
Proof. unfold UUIDBytes. now rewrite length_app, !writeBE64_length. Qed.

Lemma UUIDFromBytes_Bytes u : uuid_wf u -> UUIDFromBytes (UUIDBytes u) = Ok u.
Proof.
  intros [Hm Hl]. unfold UUIDFromBytes.
  replace (zlen (UUIDBytes u) =? 16) with true
    by (unfold zlen; rewrite UUIDBytes_length; reflexivity). simpl negb. cbn iota.
  assert (R1 : readBE64 (E:=parse_error) (UUIDBytes u) 0 = Ok (MSB u))
    by apply (readBE64_write [] _ _ Hm).
  assert (R2 : readBE64 (E:=parse_error) (UUIDBytes u) 8 = Ok (LSB u)).
  { rewrite <- (zlen_writeBE64 (MSB u)). rewrite <- (app_nil_r (UUIDBytes u)).
    unfold UUIDBytes. rewrite <- app_assoc. apply (readBE64_write _ _ _ Hl). }
  rewrite R1, R2. now destruct u.
Qed.

Lemma hex_char_digit n : 0 <= n < 16 -> from_hex_char (hex_digit n) = Some n.
Proof.
  intros H. assert (Hc : In n (map Z.of_nat (seq 0 16))).
  { apply in_map_iff. exists (Z.to_nat n). split; [lia|]. apply in_seq. lia. }
  repeat (destruct Hc as [<-|Hc]; [reflexivity|]). destruct Hc.
Qed.

Lemma hex_pair x : z2b (Z.lor (Z.shiftl (b2z x / 16) 4) (b2z x mod 16)) = x.
Proof. destruct x; reflexivity. Qed.

Lemma DecodeString_Encode b : DecodeString (EncodeToString b) = Ok b.
Proof.
  induction b as [|x b IH]; [reflexivity|]. cbn [EncodeToString DecodeString].
  pose proof (b2z_range x). rewrite !hex_char_digit by zdm. rewrite IH. simpl.
  now rewrite hex_pair.
Qed.

Lemma EncodeToString_app a b : EncodeToString (a ++ b) = EncodeToString a ++ EncodeToString b.
Proof. induction a; simpl; congruence. Qed.

Lemma EncodeToString_length b : length (EncodeToString b) = (2 * length b)%nat.
Proof. induction b; simpl; lia. Qed.

Lemma hex_digit_not_dash n : 0 <= n < 16 -> (b2z (hex_digit n) =? 45) = false.
Proof.
  intros H. unfold hex_digit. destruct (Z.ltb_spec n 10); rewrite b2z_z2b; zdm.
Qed.

Lemma strip_dashes_hex b : strip_dashes (EncodeToString b) = EncodeToString b.
Proof.
  induction b as [|x b IH]; [reflexivity|]. unfold strip_dashes in *. cbn [EncodeToString List.filter].
  pose proof (b2z_range x). rewrite !hex_digit_not_dash by zdm. simpl. now rewrite IH.
Qed.

Lemma sub_groups b : length b = 16%nat ->
  sub b 0 4 ++ sub b 4 2 ++ sub b 6 2 ++ sub b 8 2 ++ sub b 10 6 = b.
Proof. intros H. do 17 (destruct b as [|? b]; try discriminate). reflexivity. Qed.

Lemma strip_dashes_app a b : strip_dashes (a ++ b) = strip_dashes a ++ strip_dashes b.
Proof. apply List.filter_app. Qed.

Lemma UUIDString_strip u : strip_dashes (UUIDString u) = EncodeToString (UUIDBytes u).
Proof.
  unfold UUIDString. rewrite !strip_dashes_app, !strip_dashes_hex.
  replace (strip_dashes (str "-")) with (@nil byte) by reflexivity. rewrite !app_nil_l.
  rewrite <- !EncodeToString_app, sub_groups by apply UUIDBytes_length. reflexivity.
Qed.

Lemma UUID_text u : uuid_wf u -> UUIDFromString (UUIDString u) = Ok u.
Proof.
  intros Hu. unfold UUIDFromString. rewrite UUIDString_strip. unfold zlen.
  rewrite EncodeToString_length, UUIDBytes_length. cbn [negb Z.eqb].
  rewrite DecodeString_Encode. apply UUIDFromBytes_Bytes, Hu.
Qed.

(** The text form of a UUID parses back to the same UUID, so a WAL named by its UUID is
    found again when the partition is reopened. *)
Theorem UUIDFromString_String (u : UUID) (Hu : uuid_wf u) : UUIDFromString (UUIDString u) = Ok u.
Proof. by apply UUID_text. Qed.

Lemma UUIDFromString_String_witness :
  UUIDFromString (UUIDString (mkUUID 0x1122334455667788 (-1))) = Ok (mkUUID 0x1122334455667788 (-1)).
Proof. apply UUIDFromString_String. split; unfold is_s; simpl; lia. Defined.

Lemma HashFromHex_Hex h : hash_wf h -> HashFromHex (Hex h) = Ok h.
Proof.
  intros Hh. unfold HashFromHex, Hex, zlen. rewrite EncodeToString_length, Hh.
  simpl negb. cbn iota. rewrite DecodeString_Encode. simpl.
  unfold HashFromBytes, zlen. rewrite Hh. now destruct h.
Qed.

Lemma EpochMicros_exact t : ts_wf t -> EpochMicros t = EpochMillis t * 1000 + MicroRemainder t.
Proof.
  intros [Hr Hs]. unfold EpochMicros, wraps in *. unfold is_s in Hs. simpl in *.
  zdm.
Qed.

Lemma FromEpochMicros_EpochMicros t : ts_wf t -> TimestampFromEpochMicros (EpochMicros t) = t.
Proof.
  intros Hw. rewrite EpochMicros_exact by done. destruct Hw as [Hr _].
  destruct t as [ms r]; simpl in *. unfold TimestampFromEpochMicros.
  destruct (Z.ltb_spec (ms * 1000 + r) 0), (Z.eqb_spec (Z.rem (ms * 1000 + r) 1000) 0);
    simpl; f_equal; zdm.
Qed.

Lemma TimestampFromEpochMicros_wf m : is_s 64 m -> ts_wf (TimestampFromEpochMicros m).
Proof.
  unfold is_s, ts_wf, TimestampFromEpochMicros. simpl. intros Hm.
  destruct (Z.ltb_spec m 0), (Z.eqb_spec (Z.rem m 1000) 0); simpl; unfold is_s; zdm.
Qed.
