(* ===== verification/WalCodec.v ===== *)
(** The record format of the write-ahead log: [storage/wal/codec.go] and the
    record types of [storage/wal/types.go].

    [EncodeRecord] lays a record out as magic, length, sequence, timestamp,
    kind, payload checksum, payload and frame checksum; [DecodeRecords] walks a
    segment.  The theorems: decoding never reads out of range, whatever the
    bytes; a segment of encoded records, with or without a torn record at its
    end, decodes to exactly those records; one damaged byte past a record's
    length field is always detected, and with [skipCorrupt] costs that record
    and no other. *)

From S2P Require Import Prelude Crc32 Primitives.
Import Crc32.

Module WalCodec.

Definition Magic : Z := 0x4B444358.
Definition BatchMagic : Z := 0x4B444242.
Definition headerLen : Z := 21.

Inductive RecordKind :=
  | RecordKindPutBlob | RecordKindDeleteBlob | RecordKindFlushCheckpoint | RecordKindMarker.

Record WalRecord := mkRecord {
  Sequence : Z;
  RecTimestamp : Timestamp;
  Kind : RecordKind;
  Payload : bytes;
}.

Definition kindOrdinal (kind : RecordKind) : Z :=
  match kind with
  | RecordKindPutBlob => 0
  | RecordKindDeleteBlob => 1
  | RecordKindFlushCheckpoint => 2
  | RecordKindMarker => 3
  end.

Definition kindFromOrdinal (o : Z) : RecordKind :=
  if o =? 0 then RecordKindPutBlob
  else if o =? 1 then RecordKindDeleteBlob
  else if o =? 2 then RecordKindFlushCheckpoint
  else RecordKindMarker.

(** [writeInt] and [writeLong] store big-endian bytes at an offset; here, the
    bytes they store. *)
Definition writeInt (v : Z) : bytes :=
  [z2b (Z.shiftr v 24); z2b (Z.shiftr v 16); z2b (Z.shiftr v 8); z2b v].
Definition writeLong (v : Z) : bytes :=
  (fun i => z2b (Z.shiftr v (56 - i * 8))) <$> [0; 1; 2; 3; 4; 5; 6; 7].

Definition readInt {E} (b : bytes) (off : Z) : go E Z :=
  b0 ← zindex b off; b1 ← zindex b (off + 1); b2 ← zindex b (off + 2); b3 ← zindex b (off + 3);
  Ok (Z.lor (Z.lor (Z.lor (Z.shiftl (Z.land (b2z b0) 0xFF) 24) (Z.shiftl (Z.land (b2z b1) 0xFF) 16))
               (Z.shiftl (Z.land (b2z b2) 0xFF) 8)) (Z.land (b2z b3) 0xFF)).

Definition readLong {E} (b : bytes) (off : Z) : go E Z :=
  foldl (fun acc i =>
    v ← acc; x ← zindex b (off + i);
    Ok (Z.lor (wraps 64 (Z.shiftl v 8)) (Z.land (b2z x) 0xFF))) (Ok 0) [0; 1; 2; 3; 4; 5; 6; 7].

(** The stores of [EncodeRecord] fill the array from its start to its end, so
    the array is their concatenation: the fields up to the payload, and the
    checksum of those. *)
Definition record_head (record : WalRecord) : bytes :=
  let payload := Payload record in
  let bodyLen := headerLen + zlen payload in
  writeInt Magic ++ writeInt bodyLen ++ writeLong (Sequence record) ++
  writeLong (EpochMicros (RecTimestamp record)) ++ [z2b (kindOrdinal (Kind record))] ++
  writeInt (CRC32All payload) ++ payload.

Definition EncodeRecord (record : WalRecord) : bytes :=
  let arr := record_head record in arr ++ writeInt (ChecksumIEEE arr).

Record DecodeResult := mkResult { Records : list WalRecord; SkippedCorrupt : Z }.

Inductive corruption := BadMagic | HeaderCrc | PayloadCrc.
Record CorruptionError := mkCorruption {
  Message : corruption; PartitionKey : bytes; SegmentName : bytes; Offset : Z;
}.

(** An error also carries the records decoded before it. *)
Abbreviation decoded := (go (CorruptionError * list WalRecord) DecodeResult).

(** The scan for the next plausible frame start after a bad magic. *)
Fixpoint resync (fuel : nat) (b : bytes) (scan : Z) : Z :=
  match fuel with
  | O => scan
  | S fuel =>
    if scan + 4 <=? zlen b then
      match readInt (E:=unit) b scan with
      | Ok candidate =>
        if (candidate =? Magic) || (candidate =? BatchMagic) then scan else resync fuel b (scan + 1)
      | _ => scan
      end
    else scan
  end.

Section Decode.
Context (b : bytes) (partitionKey segmentName : bytes) (skipCorrupt : bool).

(** Loop state: [offset], [out], [skipped]. *)
Definition dstate : Type := Z * list WalRecord * Z.

Definition corrupt (m : corruption) (st : dstate) : CorruptionError * list WalRecord :=
  let '(offset, out, _) := st in (mkCorruption m partitionKey segmentName offset, out).

(** One iteration of the loop of [DecodeRecords]. *)
Definition decode_body (st : dstate)
    : go (CorruptionError * list WalRecord) (dstate + DecodeResult) :=
  let '(offset, out, skipped) := st in
  let stop := Ok (inr (mkResult out skipped)) in
  if negb (offset + 12 <=? zlen b) then stop
  else
    magic ← readInt b offset;
    if magic =? BatchMagic then stop
    else if negb (magic =? Magic) then
      if skipCorrupt then
        Ok (inl (resync (length b) b (offset + 1), out, skipped + 1))
      else Err (corrupt BadMagic st)
    else
      recordLen ← readInt b (offset + 4);
      let recordEnd := offset + 12 + recordLen in
      if (zlen b <? recordEnd) || (recordLen <? headerLen) then stop
      else
        headerCrc ← readInt b (recordEnd - 4);
        crc ← CRC32 b offset (recordEnd - offset - 4);
        if negb (headerCrc =? crc) then
          if skipCorrupt then Ok (inl (recordEnd, out, skipped + 1))
          else Err (corrupt HeaderCrc st)
        else
          seq ← readLong b (offset + 8);
          epochMicros ← readLong b (offset + 16);
          k ← zindex b (offset + 24);
          payloadCrc ← readInt b (offset + 25);
          let payloadOff := offset + 29 in
          let payloadLen := recordLen - headerLen in
          payload ← zslice b payloadOff (payloadOff + payloadLen);
          if negb (CRC32All payload =? payloadCrc) then
            if skipCorrupt then Ok (inl (recordEnd, out, skipped + 1))
            else Err (corrupt PayloadCrc st)
          else
            Ok (inl (recordEnd,
              out ++ [mkRecord seq (TimestampFromEpochMicros epochMicros)
                        (kindFromOrdinal (b2z k)) payload], skipped)).

(** Every iteration that continues moves [offset] forward, so the length of
    the segment bounds their number. *)
Definition DecodeRecords : decoded :=
  finish (steps (S (length b)) (lift_step decode_body) (0, [], 0)).

End Decode.

(** [PutBlob] payloads. *)
Record PutBlob := mkPutBlob { ContentHash : Hash; Bytes : bytes }.

Definition EncodePutBlob (p : PutBlob) : bytes := HashBytes (ContentHash p) ++ Bytes p.

Inductive put_blob_error := PutBlobTooShort | PutBlobHash (e : parse_error).

Definition DecodePutBlob (payload : bytes) : go put_blob_error PutBlob :=
  if zlen payload <? 32 then Err PutBlobTooShort
  else
    hb ← zslice payload 0 32;
    match HashFromBytes hb with
    | Ok h => rest ← zslice payload 32 (zlen payload); Ok (mkPutBlob h rest)
    | Err e => Err (PutBlobHash e)
    | Panic => Panic
    end.

(** A record whose fields are in range: an int64 sequence, a timestamp with an
    int64 microsecond form, and a frame length that fits the 32-bit field. *)
Definition record_wf (r : WalRecord) : Prop :=
  is_s 64 (Sequence r) /\ ts_wf (RecTimestamp r) /\ headerLen + zlen (Payload r) < 2 ^ 32.

Definition sample : WalRecord :=
  mkRecord 7 (mkTs 1700000000000 250) RecordKindPutBlob (str "payload").

Example sample_roundtrip :
  DecodeRecords (EncodeRecord sample ++ EncodeRecord sample) [] [] false =
  Ok (mkResult [sample; sample] 0).
Proof. vm_compute. reflexivity. Qed.

Example sample_skip :
  DecodeRecords (x00 :: x01 :: EncodeRecord sample) [] [] true = Ok (mkResult [sample] 1).
Proof. vm_compute. reflexivity. Qed.

(** ** Reading and writing words *)

Lemma land_255 x : Z.land (b2z x) 0xFF = b2z x.
Proof.
  change 0xFF with (Z.ones 8). rewrite Z.land_ones by lia. apply Z.mod_small, b2z_range.
Qed.

Lemma readInt_spec {E} b off :
  0 <= off -> off + 4 <= zlen b -> readInt (E:=E) b off = Ok (be_val (sub b off 4)).
Proof.
  intros H1 H2. destruct (sub_split (E:=E) b off 4 H1 H2) as (l & -> & Hlen & Hi).
  do 5 (destruct l as [|? l]; try discriminate). unfold readInt.
  replace (zindex b off) with (zindex (E:=E) b (off + 0)) by (f_equal; lia).
  use_index Hi. cbn -[Z.lor Z.land Z.shiftl be_val].
  repeat match goal with b : byte |- _ => learn_hyp (b2z_range b) end.
  rewrite !land_255. unfold be_val. cbn -[Z.lor Z.shiftl Z.add Z.mul].
  rewrite <- !Z.lor_assoc.
  rewrite (lor_shiftl_add_l _ _ 8), (lor_shiftl_add_l _ _ 16), (lor_shiftl_add_l _ _ 24) by lia.
  f_equal. lia.
Qed.

Lemma wraps_shl8 v x :
  Z.lor (wraps 64 (Z.shiftl v 8)) (b2z x) = wraps 64 (256 * v + b2z x).
Proof.
  pose proof (b2z_range x). rewrite Z.shiftl_mul_pow2 by lia.
  assert (E : wraps 64 (v * 2 ^ 8) = wraps 56 v * 2 ^ 8) by (unfold wraps; simpl; zdm).
  rewrite E, <- Z.shiftl_mul_pow2, lor_shiftl_add_l by lia. unfold wraps. simpl. zdm.
Qed.

Lemma wraps_step v x : wraps 64 (256 * wraps 64 v + x) = wraps 64 (256 * v + x).
Proof. unfold wraps. simpl. zdm. Qed.

Lemma readLong_spec {E} b off :
  0 <= off -> off + 8 <= zlen b -> readLong (E:=E) b off = Ok (wraps 64 (be_val (sub b off 8))).
Proof.
  intros H1 H2. destruct (sub_split (E:=E) b off 8 H1 H2) as (l & -> & Hlen & Hi).
  do 9 (destruct l as [|? l]; try discriminate). unfold readLong. cbn -[zindex Z.add Z.land].
  use_index Hi. cbn -[Z.lor Z.land wraps Z.shiftl Z.add be_val Z.mul].
  rewrite !land_255, !wraps_shl8.
  repeat match goal with
  | |- context [wraps 64 (256 * wraps 64 ?v + ?x)] =>
      lazymatch v with context [wraps] => fail | _ => rewrite (wraps_step v x) end
  end.
  do 2 f_equal. unfold be_val.
  cbn -[Z.add Z.mul]. lia.
Qed.

Lemma writeInt_spec v : writeInt v = be_bytes 4 v.
Proof. unfold writeInt, be_bytes. shift_bytes. Qed.

Lemma writeLong_spec v : writeLong v = be_bytes 8 v.
Proof. unfold writeLong, be_bytes. shift_bytes. Qed.

Lemma CRC32_sub {E} b off n :
  0 <= off -> 0 < n -> off + n <= zlen b -> slice_ok b ->
  CRC32 (E:=E) b off n = Ok (ChecksumIEEE (sub b off (Z.to_nat n))).
Proof.
  unfold slice_ok. intros. unfold CRC32. destruct (Z.ltb_spec n 0); [lia|].
  rewrite wraps_id by (unfold is_s; simpl; lia).
  destruct (Z.ltb_spec (zlen b) (off + n)); [lia|].
  destruct (Z.leb_spec (off + n) off); [lia|].
  rewrite zslice_sub by lia. simpl. do 3 f_equal. lia.
Qed.

(** ** One frame *)

Definition frame_record (f : bytes) (L : Z) : WalRecord :=
  mkRecord (wraps 64 (be_val (sub f 8 8))) (TimestampFromEpochMicros (wraps 64 (be_val (sub f 16 8))))
    (kindFromOrdinal (be_val (sub f 24 1))) (sub f 29 (Z.to_nat (L - headerLen))).

Lemma sub_mid p f q k n :
  0 <= k -> k + Z.of_nat n <= zlen f -> sub (p ++ f ++ q) (zlen p + k) n = sub f k n.
Proof. intros. rewrite sub_app_r by lia. apply sub_app_l; lia. Qed.

Lemma zindex_mid {E} p f q k :
  0 <= k < zlen f ->
  exists x, zindex (E:=E) (p ++ f ++ q) (zlen p + k) = Ok x /\ be_val (sub f k 1) = b2z x.
Proof.
  intros Hk. destruct (zindex_ok (E:=E) f k Hk) as (x & Hx & Hi). exists x. split.
  - rewrite zindex_app_r by lia. unfold zindex. rewrite lookup_app_l by (unfold zlen in *; lia).
    destruct (Z.ltb_spec k 0); [lia|]. now rewrite Hx.
  - unfold sub. erewrite drop_S by exact Hx. unfold be_val. simpl. lia.
Qed.

Section Frame.
Context (pk sn : bytes) (skip : bool) (p f q : bytes) (out : list WalRecord) (sk L : Z).
Context (b : bytes) (Eb : b = p ++ f ++ q) (Hb : slice_ok b) (Hlen : zlen f = 12 + L) (HL : headerLen <= L).
Context (Hmagic : be_val (sub f 0 4) = Magic) (Hl : be_val (sub f 4 4) = L).

(** What the loop does with a frame whose magic and length are intact: it
    accepts it, or skips or reports it, by the two checksums alone. *)
Definition frame_outcome : go (CorruptionError * list WalRecord) (dstate + DecodeResult) :=
  let next := zlen p + zlen f in
  let damaged m :=
    if skip then Ok (inl (next, out, sk + 1)) else Err (corrupt pk sn m (zlen p, out, sk)) in
  if negb (be_val (sub f (8 + L) 4) =? ChecksumIEEE (sub f 0 (Z.to_nat (8 + L)))) then damaged HeaderCrc
  else if negb (CRC32All (sub f 29 (Z.to_nat (L - headerLen))) =? be_val (sub f 25 4))
  then damaged PayloadCrc
  else Ok (inl (next, out ++ [frame_record f L], sk)).

Lemma frame_sub k n : 0 <= k -> k + Z.of_nat n <= zlen f -> sub b (zlen p + k) n = sub f k n.
Proof. rewrite Eb. apply sub_mid. Qed.

Lemma frame_sub0 n : Z.of_nat n <= zlen f -> sub b (zlen p) n = sub f 0 n.
Proof. intros. rewrite <- frame_sub by lia. f_equal. lia. Qed.

Lemma decode_body_frame : decode_body b pk sn skip (zlen p, out, sk) = frame_outcome.
Proof.
  pose proof (zlen_nonneg p). pose proof (zlen_nonneg q). unfold headerLen in HL.
  assert (Hz : zlen b = zlen p + (12 + L) + zlen q) by (rewrite Eb, !zlen_app; lia).
  unfold decode_body. destruct (Z.leb_spec (zlen p + 12) (zlen b)); [|lia]. cbn [negb].
  rewrite (readInt_spec b (zlen p)), frame_sub0, Hmagic by lia. cbn [mbind go_bind].
  change (Magic =? BatchMagic) with false. change (Magic =? Magic) with true. cbn [negb].
  rewrite (readInt_spec b (zlen p + 4)), frame_sub, Hl by lia. cbn [mbind go_bind].
  destruct (Z.ltb_spec (zlen b) (zlen p + 12 + L)); [lia|].
  destruct (Z.ltb_spec L headerLen); [unfold headerLen in *; lia|]. cbn [orb].
  replace (zlen p + 12 + L - 4) with (zlen p + (8 + L)) by lia.
  replace (zlen p + 12 + L - zlen p - 4) with (8 + L) by lia.
  replace (zlen p + 12 + L) with (zlen p + zlen f) by lia.
  rewrite (readInt_spec b (zlen p + (8 + L))), frame_sub by lia. cbn [mbind go_bind].
  rewrite CRC32_sub, frame_sub0 by (assumption || lia). cbn [mbind go_bind].
  unfold frame_outcome. destruct (negb (be_val (sub f (8 + L) 4) =? _)); [reflexivity|].
  rewrite !readLong_spec, !frame_sub by lia. cbn [mbind go_bind].
  destruct (zindex_mid (E:=CorruptionError * list WalRecord) p f q 24) as (x & Hx & Hk); [lia|].
  rewrite <- Eb in Hx. rewrite Hx. cbn [mbind go_bind].
  rewrite readInt_spec, frame_sub by lia. cbn [mbind go_bind].
  unfold headerLen. rewrite zslice_sub, frame_sub by lia.
  replace (zlen p + 29 + (L - 21) - (zlen p + 29)) with (L - 21) by lia.
  cbn [mbind go_bind]. unfold frame_record. rewrite Hk. reflexivity.
Qed.

End Frame.

(** ** Encoded frames *)

Lemma field_at pre x post o n : o = zlen pre -> n = length x -> sub (pre ++ x ++ post) o n = x.
Proof.
  intros -> ->. rewrite (sub_app_r' _ _ _ 0) by lia. apply sub_prefix. reflexivity.
Qed.

Lemma writeInt_length v : length (writeInt v) = 4%nat.
Proof. reflexivity. Qed.
Lemma writeLong_length v : length (writeLong v) = 8%nat.
Proof. reflexivity. Qed.

Lemma be_val_writeInt v : is_u 32 v -> be_val (writeInt v) = v.
Proof. intros H. rewrite writeInt_spec, be_val_bytes. now apply Z.mod_small. Qed.

Lemma wraps_be_val_writeLong v : is_s 64 v -> wraps 64 (be_val (writeLong v)) = v.
Proof. rewrite writeLong_spec. apply wraps_be_val. Qed.

Lemma kindFromOrdinal_kindOrdinal k : kindFromOrdinal (kindOrdinal k) = k.
Proof. now destruct k. Qed.

Definition frameLen (r : WalRecord) : Z := headerLen + zlen (Payload r).

Lemma record_head_length r : zlen (record_head r) = 8 + frameLen r.
Proof. unfold record_head, frameLen, headerLen. autorewrite with kdb. unfold zlen. cbn. lia. Qed.

Lemma EncodeRecord_length r : zlen (EncodeRecord r) = 12 + frameLen r.
Proof. unfold EncodeRecord. rewrite zlen_app, record_head_length. unfold zlen. cbn. lia. Qed.

Lemma EncodeRecord_fields r :
  EncodeRecord r =
  writeInt Magic ++ writeInt (frameLen r) ++ writeLong (Sequence r) ++
  writeLong (EpochMicros (RecTimestamp r)) ++ [z2b (kindOrdinal (Kind r))] ++
  writeInt (CRC32All (Payload r)) ++ Payload r ++ writeInt (ChecksumIEEE (record_head r)).
Proof. unfold EncodeRecord, record_head, frameLen. rewrite <- !app_assoc. reflexivity. Qed.

Section Fields.
Context (r : WalRecord).
Let f := EncodeRecord r.

(** [field n] moves the fields before the wanted one into the prefix. *)
Tactic Notation "field" integer(n) :=
  unfold f; rewrite EncodeRecord_fields; do n rewrite app_assoc; apply field_at; try reflexivity.

Lemma field_magic : sub f 0 4 = writeInt Magic.
Proof. unfold f. rewrite EncodeRecord_fields. now apply sub_prefix. Qed.
Lemma field_len : sub f 4 4 = writeInt (frameLen r).
Proof. field 0. Qed.
Lemma field_seq : sub f 8 8 = writeLong (Sequence r).
Proof. field 1. Qed.
Lemma field_micros : sub f 16 8 = writeLong (EpochMicros (RecTimestamp r)).
Proof. field 2. Qed.
Lemma field_kind : sub f 24 1 = [z2b (kindOrdinal (Kind r))].
Proof. field 3. Qed.
Lemma field_pcrc : sub f 25 4 = writeInt (CRC32All (Payload r)).
Proof. field 4. Qed.
Lemma field_payload : sub f 29 (Z.to_nat (frameLen r - headerLen)) = Payload r.
Proof. field 5. unfold frameLen, zlen. lia. Qed.
Lemma field_head : sub f 0 (Z.to_nat (8 + frameLen r)) = record_head r.
Proof.
  unfold f, EncodeRecord. apply sub_prefix. rewrite <- record_head_length. unfold zlen. lia.
Qed.
Lemma field_crc : sub f (8 + frameLen r) 4 = writeInt (ChecksumIEEE (record_head r)).
Proof.
  unfold f, EncodeRecord. rewrite <- (app_nil_r (_ ++ _)), <- app_assoc. cbv zeta.
  apply field_at; [|reflexivity]. now rewrite record_head_length.
Qed.

Context (Hr : record_wf r).

Lemma frameLen_u : is_u 32 (frameLen r).
Proof.
  destruct Hr as (_ & _ & H). unfold frameLen, is_u, headerLen in *.
  pose proof (zlen_nonneg (Payload r)). lia.
Qed.

Lemma frame_record_encode : frame_record f (frameLen r) = r.
Proof.
  unfold frame_record. rewrite field_seq, field_micros, field_kind, field_payload.
  destruct Hr as (Hs & Ht & _). rewrite !wraps_be_val_writeLong; [|now rewrite EpochMicros_exact by done; apply Ht|done].
  rewrite FromEpochMicros_EpochMicros by done.
  replace (be_val [z2b (kindOrdinal (Kind r))]) with (kindOrdinal (Kind r)) by now destruct (Kind r).
  rewrite kindFromOrdinal_kindOrdinal. now destruct r.
Qed.

End Fields.

(** A frame that is a record's encoding with one byte changed, past the magic
    and the length. *)
Definition damaged (r : WalRecord) (f : bytes) : Prop :=
  exists x a c y, EncodeRecord r = x ++ a :: y /\ f = x ++ c :: y /\ a <> c /\ (8 <= length x)%nat.

Lemma damaged_length r f : damaged r f -> zlen f = zlen (EncodeRecord r).
Proof.
  intros (x & a & c & y & He & -> & _). rewrite He. unfold zlen. now rewrite !length_app.
Qed.

Lemma damaged_sub r f k :
  damaged r f -> 0 <= k -> k + 4 <= 8 -> sub f k 4 = sub (EncodeRecord r) k 4.
Proof.
  intros (x & a & c & y & -> & -> & _ & Hx) H1 H2.
  rewrite !sub_app_l; unfold zlen; lia || reflexivity.
Qed.

Lemma app_cons_split {A} (h t x y : list A) a :
  h ++ t = x ++ a :: y ->
  (exists y1, h = x ++ a :: y1 /\ y = y1 ++ t) \/ (exists x1, x = h ++ x1 /\ t = x1 ++ a :: y).
Proof.
  intros H. apply app_eq_app in H as [l [[Hh Ht]|[Hx Ht]]].
  - destruct l as [|a' l]; simpl in Ht.
    + right. exists []. rewrite app_nil_r in Hh. subst h. split; [now rewrite app_nil_r|done].
    + injection Ht as <- ->. left. eauto.
  - right. eauto.
Qed.

(** The frame checksum of a damaged frame does not match. *)
Lemma damaged_crc r f :
  damaged r f ->
  be_val (sub f (8 + frameLen r) 4) <> ChecksumIEEE (sub f 0 (Z.to_nat (8 + frameLen r))).
Proof.
  intros (x & a & c & y & He & -> & Hac & _).
  assert (Hn : Z.to_nat (8 + frameLen r) = length (record_head r))
    by (rewrite <- record_head_length; unfold zlen; lia).
  rewrite Hn. pose proof (ChecksumIEEE_u (record_head r)) as Hu. unfold EncodeRecord in He.
  apply app_cons_split in He as [(y1 & Hh & ->)|(x1 & -> & Ht)].
  - replace (x ++ c :: y1 ++ _) with ((x ++ c :: y1) ++ writeInt (ChecksumIEEE (record_head r)) ++ [])
      by now rewrite app_nil_r, <- app_assoc.
    assert (Hlen : length (record_head r) = length (x ++ c :: y1)) by (rewrite Hh, !length_app; reflexivity).
    rewrite field_at; [|rewrite <- record_head_length; unfold zlen; lia|reflexivity].
    rewrite sub_prefix, be_val_writeInt by done. rewrite Hh. now apply ChecksumIEEE_detects_byte_eq.
  - rewrite <- app_assoc. rewrite sub_prefix by done.
    assert (Hl : length (x1 ++ c :: y) = 4%nat)
      by (rewrite <- (writeInt_length (ChecksumIEEE (record_head r))), Ht, !length_app; reflexivity).
    replace (record_head r ++ x1 ++ c :: y) with (record_head r ++ (x1 ++ c :: y) ++ [])
      by now rewrite app_nil_r.
    rewrite field_at by (rewrite ?record_head_length; lia).
    intros Hv. rewrite <- (be_val_writeInt _ Hu) in Hv. apply be_val_inj in Hv.
    + rewrite Ht in Hv. apply app_inv_head in Hv. congruence.
    + now rewrite Hl.
Qed.

Lemma intact_step b pk sn skip p r q out sk :
  record_wf r -> b = p ++ EncodeRecord r ++ q -> slice_ok b ->
  decode_body b pk sn skip (zlen p, out, sk) =
  Ok (inl (zlen p + zlen (EncodeRecord r), out ++ [r], sk)).
Proof.
  intros Hr Eb Hb. pose proof (frameLen_u r Hr) as Hu.
  rewrite (decode_body_frame pk sn skip p (EncodeRecord r) q out sk (frameLen r)); try assumption.
  - unfold frame_outcome. rewrite field_crc, field_head, field_payload, field_pcrc.
    rewrite !be_val_writeInt by apply ChecksumIEEE_u. rewrite !Z.eqb_refl. cbn [negb].
    now rewrite frame_record_encode.
  - apply EncodeRecord_length.
  - unfold frameLen. pose proof (zlen_nonneg (Payload r)). lia.
  - rewrite field_magic. apply be_val_writeInt. unfold is_u, Magic. lia.
  - rewrite field_len. now apply be_val_writeInt.
Qed.

Lemma damaged_step b pk sn skip p r f q out sk :
  record_wf r -> damaged r f -> b = p ++ f ++ q -> slice_ok b ->
  decode_body b pk sn skip (zlen p, out, sk) =
  if skip then Ok (inl (zlen p + zlen f, out, sk + 1))
  else Err (corrupt pk sn HeaderCrc (zlen p, out, sk)).
Proof.
  intros Hr Hd Eb Hb. pose proof (frameLen_u r Hr) as Hu.
  rewrite (decode_body_frame pk sn skip p f q out sk (frameLen r)); try assumption.
  - unfold frame_outcome. pose proof (damaged_crc r f Hd) as Hc. apply Z.eqb_neq in Hc.
    rewrite Hc. reflexivity.
  - rewrite (damaged_length r f Hd). apply EncodeRecord_length.
  - unfold frameLen. pose proof (zlen_nonneg (Payload r)). lia.
  - rewrite (damaged_sub r f 0 Hd), field_magic by lia. apply be_val_writeInt. unfold is_u, Magic. lia.
  - rewrite (damaged_sub r f 4 Hd), field_len by lia. now apply be_val_writeInt.
Qed.

(** ** Whole segments

    A segment is described by its frames, each with the record it was written
    for. *)

Definition frames_bytes (fs : list (WalRecord * bytes)) : bytes := concat (map snd fs).

Definition intact (rf : WalRecord * bytes) : bool := bool_decide (rf.2 = EncodeRecord rf.1).
Definition survivors (fs : list (WalRecord * bytes)) : list WalRecord :=
  map fst (List.filter intact fs).
Definition lost (fs : list (WalRecord * bytes)) : Z :=
  zlen (List.filter (fun rf => negb (intact rf)) fs).

Definition frame_ok (skip : bool) (rf : WalRecord * bytes) : Prop :=
  record_wf rf.1 /\ (rf.2 = EncodeRecord rf.1 \/ (skip = true /\ damaged rf.1 rf.2)).

(** What a crash can leave of the record being written: part of it. *)
Definition torn (r : WalRecord) (tail : bytes) : Prop :=
  exists rest, EncodeRecord r = tail ++ rest /\ rest <> [].

Lemma damaged_not_intact r f : damaged r f -> intact (r, f) = false.
Proof.
  intros (x & a & c & y & He & -> & Hac & _). apply bool_decide_eq_false. simpl. rewrite He.
  intros H. apply app_inv_head in H. congruence.
Qed.

Lemma intact_encode r : intact (r, EncodeRecord r) = true.
Proof. apply bool_decide_eq_true. reflexivity. Qed.

Lemma survivors_cons rf fs :
  survivors (rf :: fs) = if intact rf then rf.1 :: survivors fs else survivors fs.
Proof. unfold survivors. cbn [List.filter]. now destruct (intact rf). Qed.

Lemma lost_cons rf fs : lost (rf :: fs) = if intact rf then lost fs else 1 + lost fs.
Proof. unfold lost. cbn [List.filter]. destruct (intact rf); cbn [negb]; [done|apply zlen_cons]. Qed.

Lemma decode_run b pk sn skip fs :
  slice_ok b -> Forall (frame_ok skip) fs ->
  forall p q out sk k, b = p ++ frames_bytes fs ++ q ->
  steps (length fs + k) (lift_step (decode_body b pk sn skip)) (zlen p, out, sk) =
  steps k (lift_step (decode_body b pk sn skip))
    (zlen (p ++ frames_bytes fs), out ++ survivors fs, sk + lost fs).
Proof.
  intros Hb. induction 1 as [|[r f] fs [Hr Hf] Hfs IH]; intros p q out sk k Eb.
  - simpl. unfold survivors, lost, frames_bytes, zlen. simpl. now rewrite !app_nil_r, Z.add_0_r.
  - simpl in Hr, Hf. unfold frames_bytes in Eb. simpl in Eb. rewrite <- app_assoc in Eb.
    assert (Hnext : forall out' sk',
      steps (length fs + k) (lift_step (decode_body b pk sn skip)) (zlen p + zlen f, out', sk') =
      steps k (lift_step (decode_body b pk sn skip))
        (zlen (p ++ frames_bytes ((r, f) :: fs)), out' ++ survivors fs, sk' + lost fs)).
    { intros. rewrite <- zlen_app. rewrite (IH (p ++ f) q) by now rewrite <- app_assoc.
      unfold frames_bytes. simpl. now rewrite <- app_assoc. }
    cbn [length Nat.add steps]. unfold lift_step at 1. destruct Hf as [->|[-> Hd]].
    + rewrite (intact_step _ _ _ _ p r _ out sk Hr Eb Hb), Hnext.
      rewrite survivors_cons, lost_cons, intact_encode. now rewrite <- app_assoc.
    + rewrite (damaged_step _ _ _ _ p r f _ out sk Hr Hd Eb Hb), Hnext.
      rewrite survivors_cons, lost_cons, (damaged_not_intact r f Hd). now rewrite Z.add_assoc.
Qed.

Lemma torn_stop b pk sn skip p r tail out sk :
  record_wf r -> torn r tail -> b = p ++ tail ->
  decode_body b pk sn skip (zlen p, out, sk) = Ok (inr (mkResult out sk)).
Proof.
  intros Hr (rest & He & Hne) ->. unfold decode_body.
  pose proof (zlen_nonneg p). pose proof (zlen_nonneg tail).
  destruct (Z.leb_spec (zlen p + 12) (zlen (p ++ tail))) as [H12|]; [|reflexivity].
  rewrite zlen_app in *. cbn [negb].
  assert (Hsub : forall k, 0 <= k -> k + 4 <= 8 -> sub (p ++ tail) (zlen p + k) 4 = sub (EncodeRecord r) k 4).
  { intros k Hk Hk2. rewrite sub_app_r by lia. rewrite He. symmetry. apply sub_app_l; lia. }
  rewrite (readInt_spec _ (zlen p)) by (rewrite ?zlen_app; lia).
  replace (sub (p ++ tail) (zlen p) 4) with (sub (EncodeRecord r) 0 4)
    by (rewrite <- Hsub by lia; f_equal; lia).
  rewrite field_magic, be_val_writeInt by (unfold is_u, Magic; lia). cbn [mbind go_bind].
  change (Magic =? BatchMagic) with false. change (Magic =? Magic) with true. cbn [negb].
  rewrite (readInt_spec _ (zlen p + 4)) by (rewrite ?zlen_app; lia).
  rewrite Hsub, field_len, be_val_writeInt by (lia || now apply frameLen_u). cbn [mbind go_bind].
  apply (f_equal zlen) in He. rewrite EncodeRecord_length, zlen_app in He.
  assert (0 < zlen rest) by (destruct rest; [done|]; rewrite zlen_cons; pose proof (zlen_nonneg rest); lia).
  destruct (Z.ltb_spec (zlen p + zlen tail) (zlen p + 12 + frameLen r)); [reflexivity|lia].
Qed.

Lemma EncodeRecord_nonempty r : (1 <= length (EncodeRecord r))%nat.
Proof.
  pose proof (EncodeRecord_length r) as H. unfold zlen, frameLen, headerLen in H.
  pose proof (zlen_nonneg (Payload r)). unfold zlen in *. lia.
Qed.

Lemma frames_count skip fs :
  Forall (frame_ok skip) fs -> (length fs <= length (frames_bytes fs))%nat.
Proof.
  induction 1 as [|[r f] fs [_ Hf] _ IH]; [simpl; lia|]. unfold frames_bytes in *. simpl in *.
  rewrite length_app. assert (1 <= length f)%nat; [|lia].
  destruct Hf as [->|[_ Hd]]; [apply EncodeRecord_nonempty|].
  pose proof (damaged_length r f Hd) as E. pose proof (EncodeRecord_nonempty r). unfold zlen in E. lia.
Qed.

Lemma DecodeRecords_frames pk sn skip fs r tail :
  Forall (frame_ok skip) fs -> record_wf r -> torn r tail -> slice_ok (frames_bytes fs ++ tail) ->
  DecodeRecords (frames_bytes fs ++ tail) pk sn skip = Ok (mkResult (survivors fs) (lost fs)).
Proof.
  intros Hfs Hr Ht Hb. unfold DecodeRecords.
  pose proof (frames_count skip fs Hfs) as Hn.
  replace (S (length (frames_bytes fs ++ tail)))
    with (length fs + S (length (frames_bytes fs) + length tail - length fs))%nat
    by (rewrite length_app; lia).
  change 0 with (zlen (@nil byte)) at 1.
  rewrite (decode_run _ pk sn skip fs Hb Hfs [] tail) by done. cbn [steps]. unfold lift_step at 1.
  rewrite app_nil_l. now rewrite (torn_stop _ pk sn skip (frames_bytes fs) r tail) by done.
Qed.

Lemma sample_wf : record_wf sample.
Proof. vm_compute. repeat split; discriminate || reflexivity. Qed.

(** ** No out-of-range access, and termination *)

Lemma resync_bounds fuel b scan :
  0 <= scan <= zlen b -> scan <= resync fuel b scan <= zlen b.
Proof.
  revert scan. induction fuel as [|fuel IH]; intros scan Hs; cbn [resync]; [lia|].
  destruct (Z.leb_spec (scan + 4) (zlen b)); [|lia].
  rewrite readInt_spec by lia. destruct (_ || _); [lia|].
  specialize (IH (scan + 1) ltac:(lia)). lia.
Qed.

(** The scan stops at the end of the segment or on a magic, never for lack of
    fuel. *)
Lemma resync_stops fuel b scan :
  0 <= scan -> zlen b - scan <= Z.of_nat fuel ->
  let r := resync fuel b scan in
  zlen b < r + 4 \/ be_val (sub b r 4) = Magic \/ be_val (sub b r 4) = BatchMagic.
Proof.
  revert scan. induction fuel as [|fuel IH]; intros scan Hs Hf; cbn [resync]; [left; lia|].
  destruct (Z.leb_spec (scan + 4) (zlen b)); [|left; lia].
  rewrite readInt_spec by lia.
  destruct (Z.eqb_spec (be_val (sub b scan 4)) Magic); [right; now left|].
  destruct (Z.eqb_spec (be_val (sub b scan 4)) BatchMagic); [right; now right|].
  cbn [orb]. apply IH; lia.
Qed.

Definition progress (b : bytes) (st : dstate)
    (r : go (CorruptionError * list WalRecord) (dstate + DecodeResult)) : Prop :=
  match r with
  | Ok (inl (offset', _, _)) => st.1.1 < offset' <= zlen b
  | Ok (inr _) | Err _ => True
  | Panic => False
  end.

Lemma decode_body_progress b pk sn skip st :
  slice_ok b -> 0 <= st.1.1 -> progress b st (decode_body b pk sn skip st).
Proof.
  destruct st as [[offset out] sk]. intros Hb Hoff. cbn [fst] in Hoff. unfold decode_body.
  destruct (Z.leb_spec (offset + 12) (zlen b)); cbn [negb]; [|exact I].
  rewrite (readInt_spec b offset) by lia. cbn [mbind go_bind].
  destruct (_ =? BatchMagic); [exact I|].
  destruct (_ =? Magic); cbn [negb].
  2: { destruct skip; cbn [progress fst]; [|exact I].
       pose proof (resync_bounds (length b) b (offset + 1) ltac:(lia)). lia. }
  rewrite (readInt_spec b (offset + 4)) by lia. cbn [mbind go_bind].
  set (L := be_val (sub b (offset + 4) 4)).
  destruct (Z.ltb_spec (zlen b) (offset + 12 + L)); [exact I|].
  destruct (Z.ltb_spec L headerLen) as [|HL]; [exact I|]. unfold headerLen in *. cbn [orb].
  rewrite (readInt_spec b (offset + 12 + L - 4)) by lia. cbn [mbind go_bind].
  rewrite CRC32_sub by (assumption || lia). cbn [mbind go_bind].
  destruct (negb _); [destruct skip; cbn [progress fst]; [lia|exact I]|].
  rewrite !readLong_spec by lia. cbn [mbind go_bind].
  destruct (zindex_ok (E:=CorruptionError * list WalRecord) b (offset + 24)) as (x & _ & ->); [lia|].
  cbn [mbind go_bind]. rewrite readInt_spec by lia. cbn [mbind go_bind].
  rewrite zslice_sub by lia. cbn [mbind go_bind].
  destruct (negb _); [destruct skip; cbn [progress fst]; [lia|exact I]|].
  cbn [progress fst]. lia.
Qed.

(** Decoding a segment always returns - records or a corruption error - and never reads
    outside it, whatever bytes it holds. *)
Theorem DecodeRecords_no_panic (b pk sn : bytes) (skip : bool) (Hb : slice_ok b) :
  no_panic (DecodeRecords b pk sn skip) = true.
Proof.
  unfold DecodeRecords.
  assert (Hinv : forall n st, 0 <= st.1.1 <= zlen b -> (Z.to_nat (zlen b - st.1.1) < n)%nat ->
    no_panic (finish (steps n (lift_step (decode_body b pk sn skip)) st)) = true).
  { induction n as [|n IH]; intros st Hst Hn; [lia|]. cbn [steps]. unfold lift_step at 1.
    pose proof (decode_body_progress b pk sn skip st Hb ltac:(lia)) as P.
    destruct (decode_body b pk sn skip st) as [[st'|]| |]; try done.
    destruct st' as [[o' out'] sk']. cbn [progress] in P. apply IH; cbn [fst]; lia. }
  apply Hinv; cbn [fst]; unfold zlen; lia.
Qed.

Lemma DecodeRecords_no_panic_witness :
  no_panic (DecodeRecords (writeInt Magic ++ writeInt 0xFFFFFFFF ++ str "hostile") [] [] true) = true.
Proof. apply DecodeRecords_no_panic. unfold slice_ok. vm_compute. reflexivity. Defined.

(** C1. A segment of whole records followed by what a crash left of the next one (any proper part
    of it, possibly nothing) decodes to exactly those records, with nothing skipped. *)
Theorem DecodeRecords_torn (rs : list WalRecord) (r : WalRecord) (tail pk sn : bytes) (skip : bool)
    (Hrs : Forall record_wf rs) (Hr : record_wf r) (Ht : torn r tail)
    (Hb : slice_ok (concat (map EncodeRecord rs) ++ tail)) :
  DecodeRecords (concat (map EncodeRecord rs) ++ tail) pk sn skip = Ok (mkResult rs 0).
Proof.
  set (fs := map (fun r => (r, EncodeRecord r)) rs).
  assert (Ef : frames_bytes fs = concat (map EncodeRecord rs))
    by (unfold frames_bytes, fs; now rewrite map_map).
  rewrite <- Ef in *. rewrite (DecodeRecords_frames pk sn skip fs r tail); try done.
  - unfold fs. clear. do 2 f_equal.
    + induction rs as [|x rs IH]; [done|]. cbn [map]. rewrite survivors_cons, intact_encode. now f_equal.
    + induction rs as [|x rs IH]; [done|]. cbn [map]. now rewrite lost_cons, intact_encode.
  - unfold fs. apply Forall_map. eapply Forall_impl; [exact Hrs|]. intros x Hx. split; [done|now left].
Qed.

Lemma DecodeRecords_torn_witness :
  DecodeRecords (EncodeRecord sample ++ [] ++ take 20 (EncodeRecord sample)) [] [] false =
  Ok (mkResult [sample] 0).
Proof.
  apply (DecodeRecords_torn [sample] sample (take 20 (EncodeRecord sample)) [] [] false).
  - constructor; [apply sample_wf|constructor].
  - apply sample_wf.
  - exists (drop 20 (EncodeRecord sample)). split; [vm_compute; reflexivity|vm_compute; discriminate].
  - unfold slice_ok. vm_compute. reflexivity.
Defined.

(** With [skipCorrupt], a segment in which any of the records have been damaged in one byte
    each, past their length field, decodes to exactly the undamaged ones, and the number
    skipped is the number damaged: damage never spreads to a neighbouring record. *)
Theorem DecodeRecords_skips_damage (fs : list (WalRecord * bytes)) (pk sn : bytes)
    (Hfs : Forall (fun rf => record_wf rf.1 /\ (rf.2 = EncodeRecord rf.1 \/ damaged rf.1 rf.2)) fs)
    (Hb : slice_ok (frames_bytes fs)) :
  DecodeRecords (frames_bytes fs) pk sn true = Ok (mkResult (survivors fs) (lost fs)).
Proof.
  rewrite <- (app_nil_r (frames_bytes fs)). apply (DecodeRecords_frames pk sn true fs sample []).
  - eapply Forall_impl; [exact Hfs|]. intros rf [H1 H2]. split; [done|]. tauto.
  - apply sample_wf.
  - exists (EncodeRecord sample). split; [done|]. discriminate.
  - now rewrite app_nil_r.
Qed.

Definition sample_damaged : bytes := take 30 (EncodeRecord sample) ++ xff :: drop 31 (EncodeRecord sample).

Lemma sample_damaged_ok : damaged sample sample_damaged.
Proof.
  exists (take 30 (EncodeRecord sample)). eexists. exists xff, (drop 31 (EncodeRecord sample)).
  split; [vm_compute; reflexivity|]. split; [reflexivity|]. split; [discriminate|]. vm_compute. lia.
Qed.

Lemma DecodeRecords_skips_damage_witness :
  DecodeRecords (frames_bytes [(sample, sample_damaged); (sample, EncodeRecord sample)]) [] [] true =
  Ok (mkResult [sample] 1).
Proof.
  rewrite DecodeRecords_skips_damage.
  - vm_compute. reflexivity.
  - apply Forall_cons; split; [split; [apply sample_wf|right; apply sample_damaged_ok]|].
    apply Forall_cons; split; [split; [apply sample_wf|left; reflexivity]|]. constructor.
  - unfold slice_ok. vm_compute. reflexivity.
Defined.

(** A record's encoding with one byte changed, that at offset [k]. *)
Definition changed_at (k : nat) (r : WalRecord) (f : bytes) : Prop :=
  exists x a c y, EncodeRecord r = x ++ a :: y /\ f = x ++ c :: y /\ a <> c /\ length x = k.

Lemma changed_length k r f : changed_at k r f -> zlen f = 12 + frameLen r.
Proof. intros (x & a & c & y & He & -> & _). rewrite <- EncodeRecord_length, He. unfold zlen. now rewrite !length_app. Qed.

(** No byte of the magic of a record makes it another magic when it is changed. *)
Lemma changed_magic k r f : changed_at k r f -> (k < 4)%nat -> be_val (sub f 0 4) <> Magic /\ be_val (sub f 0 4) <> BatchMagic.
Proof.
  intros (x & a & c & y & He & -> & Hac & Hk) Hlt. pose proof (field_magic r) as Hm. rewrite He in Hm. cbn [writeInt] in Hm. vm_compute in Hm.
  destruct x as [|x0 [|x1 [|x2 [|x3 [|x4 x]]]]]; cbn in Hk; try lia; destruct y as [|y0 [|y1 [|y2 y]]]; try discriminate Hm; injection Hm as; subst; split; intros E;
    match type of E with be_val ?l = ?v => change v with (be_val (be_bytes 4 v)) in E; apply be_val_inj in E; [vm_compute in E; congruence|reflexivity] end.
Qed.

(** Decoding gets to the frame after whole records. *)
Lemma decode_after rs q pk sn : Forall record_wf rs -> slice_ok (concat (map EncodeRecord rs) ++ q) ->
  let b := concat (map EncodeRecord rs) ++ q in let st := (zlen (concat (map EncodeRecord rs)), rs, 0) in
  (forall e, decode_body b pk sn false st = Err e -> DecodeRecords b pk sn false = Err e) /\
  (forall res, decode_body b pk sn false st = Ok (inr res) -> DecodeRecords b pk sn false = Ok res).
Proof.
  intros Hrs Hb b st. set (fs := map (fun r => (r, EncodeRecord r)) rs).
  assert (Ef : frames_bytes fs = concat (map EncodeRecord rs)) by (unfold frames_bytes, fs; now rewrite map_map).
  assert (Hfs : Forall (frame_ok false) fs) by (unfold fs; apply Forall_map; eapply Forall_impl; [exact Hrs|]; intros x Hx; split; [done|now left]).
  assert (Hs : survivors fs = rs /\ lost fs = 0).
  { unfold fs. clear. induction rs as [|x rs [IH1 IH2]]; [done|]. cbn [map]. rewrite survivors_cons, intact_encode, IH1. split; [done|]. unfold lost in *. cbn [List.filter]. rewrite intact_encode. exact IH2. }
  destruct Hs as [Hs Hl]. unfold DecodeRecords, st. pose proof (frames_count false fs Hfs) as Hn. unfold b in *. rewrite <- Ef in *.
  replace (S (length (frames_bytes fs ++ q))) with (length fs + S (length (frames_bytes fs ++ q) - length fs))%nat by (rewrite !length_app; lia).
  pose proof (fun n => decode_run _ pk sn false fs Hb Hfs [] q [] 0 n eq_refl) as R. rewrite Hs, Hl in R. cbn [app Z.add] in R. rewrite R. cbn [steps].
  split; intros x E; unfold lift_step at 1; change (0 + 0) with 0; now rewrite E.
Qed.

(** C39. What decoding makes of a record with one byte changed, when it is not told to skip
    corrupt records.  A change past the length field is a header checksum failure, and one of
    the magic a bad magic, reported at the record's offset together with the records before it.
    A change of the length field is not always noticed: when the frame then ends past the
    segment or is shorter than a header, decoding stops there as at a torn tail, with the
    records before it and no error. *)
Theorem DecodeRecords_reports_damage (rs : list WalRecord) (r : WalRecord) (f rest pk sn : bytes) (k : nat)
    (Hrs : Forall record_wf rs) (Hr : record_wf r) (Hf : changed_at k r f)
    (Hb : slice_ok (concat (map EncodeRecord rs) ++ f ++ rest)) :
  let b := concat (map EncodeRecord rs) ++ f ++ rest in let at_ := zlen (concat (map EncodeRecord rs)) in
  ((8 <= k)%nat -> DecodeRecords b pk sn false = Err (mkCorruption HeaderCrc pk sn at_, rs)) /\
  ((k < 4)%nat -> DecodeRecords b pk sn false = Err (mkCorruption BadMagic pk sn at_, rs)) /\
  ((4 <= k < 8)%nat -> zlen b < at_ + 12 + be_val (sub f 4 4) \/ be_val (sub f 4 4) < headerLen -> DecodeRecords b pk sn false = Ok (mkResult rs 0)).
Proof.
  intros b at_. destruct (decode_after rs (f ++ rest) pk sn Hrs Hb) as [Herr Hstop]. fold b in Herr, Hstop. fold at_ in Herr, Hstop.
  pose proof (changed_length k r f Hf) as Hz. unfold frameLen, headerLen in Hz. pose proof (zlen_nonneg (Payload r)). pose proof (zlen_nonneg rest). pose proof (zlen_nonneg (concat (map EncodeRecord rs))).
  assert (Hbz : zlen b = at_ + zlen f + zlen rest) by (unfold b, at_; rewrite !zlen_app; lia).
  assert (Hsub : forall o, 0 <= o -> o + 4 <= zlen f -> sub b (at_ + o) 4 = sub f o 4) by (intros o Ho Ho4; unfold b, at_; apply sub_mid; lia).
  assert (Hm : readInt (E := CorruptionError * list WalRecord) b at_ = Ok (be_val (sub f 0 4))) by (rewrite readInt_spec by lia; rewrite <- (Z.add_0_r at_), Hsub by lia; done).
  split_and!.
  - intros Hk. apply Herr. assert (Hd : damaged r f) by (destruct Hf as (x & a & c & y & E1 & E2 & E3 & E4); exists x, a, c, y; split_and!; [done..|lia]). exact (damaged_step b pk sn false _ r f rest rs 0 Hr Hd eq_refl Hb).
  - intros Hk. apply Herr. unfold decode_body. destruct (Z.leb_spec (at_ + 12) (zlen b)); [|lia]. cbn [negb]. rewrite Hm. cbn [mbind go_bind]. destruct (changed_magic k r f Hf Hk) as [M1 M2].
    rewrite (proj2 (Z.eqb_neq _ _) M2), (proj2 (Z.eqb_neq _ _) M1). reflexivity.
  - intros Hk Hlen. apply Hstop. unfold decode_body. destruct (Z.leb_spec (at_ + 12) (zlen b)); [|lia]. cbn [negb]. rewrite Hm. cbn [mbind go_bind].
    assert (Emg : be_val (sub f 0 4) = Magic). { destruct Hf as (x & a & c & y & E1 & E2 & _ & E4). rewrite E2, sub_app_l by (unfold zlen; lia). rewrite <- (sub_app_l x (a :: y)) by (unfold zlen; lia). rewrite <- E1, field_magic. apply be_val_writeInt. unfold is_u, Magic. lia. }
    rewrite Emg. change (Magic =? BatchMagic) with false. change (Magic =? Magic) with true. cbn [negb]. rewrite (readInt_spec b (at_ + 4)), Hsub by lia. cbn [mbind go_bind].
    assert (Hend : (zlen b <? at_ + 12 + be_val (sub f 4 4)) || (be_val (sub f 4 4) <? headerLen) = true) by (apply orb_true_iff; destruct Hlen; [left|right]; now apply Z.ltb_lt).
    cbv zeta. rewrite Hend. reflexivity.
Qed.

Definition sample_long : bytes := take 4 (EncodeRecord sample) ++ xff :: drop 5 (EncodeRecord sample).

(** One byte of the second record changed: in its payload, and in its length. *)
Lemma DecodeRecords_reports_damage_witness :
  DecodeRecords (EncodeRecord sample ++ sample_damaged) (str "p") (str "s") false = Err (mkCorruption HeaderCrc (str "p") (str "s") 40, [sample]) /\
  DecodeRecords (EncodeRecord sample ++ sample_long) (str "p") (str "s") false = Ok (mkResult [sample] 0).
Proof.
  assert (Hs : Forall record_wf [sample]) by (constructor; [apply sample_wf|constructor]).
  assert (H1 : changed_at 30 sample sample_damaged) by (exists (take 30 (EncodeRecord sample)); eexists; exists xff, (drop 31 (EncodeRecord sample)); split; [vm_compute; reflexivity|]; split; [reflexivity|]; split; [discriminate|reflexivity]).
  assert (H2 : changed_at 4 sample sample_long) by (exists (take 4 (EncodeRecord sample)); eexists; exists xff, (drop 5 (EncodeRecord sample)); split; [vm_compute; reflexivity|]; split; [reflexivity|]; split; [discriminate|reflexivity]).
  split.
  - destruct (DecodeRecords_reports_damage [sample] sample sample_damaged [] (str "p") (str "s") 30 Hs sample_wf H1) as [D _]; [unfold slice_ok; vm_compute; reflexivity|].
    refine (eq_trans (D _) _); [lia|vm_compute; reflexivity].
  - destruct (DecodeRecords_reports_damage [sample] sample sample_long [] (str "p") (str "s") 4 Hs sample_wf H2) as (_ & _ & D); [unfold slice_ok; vm_compute; reflexivity|].
    refine (D _ _); [lia|left; vm_compute; reflexivity].
Defined.

End WalCodec.
