(* ===== verification/Wal.v ===== *)
(** The write-ahead log: [storage/wal/default_wal.go].

    The state is the log's record and the storage behind it; an operation is a
    function of a state and error monad over any [PlatformIOShim], with the
    mutex's critical section as its body.  The log is a chain of segments, the
    last of which is active and is replaced when it is full. *)

From S2P Require Import Prelude Strconv Crc32 Primitives PlatformIO WalCodec.
Import Strconv WalCodec.

Module Wal.

Definition defaultMaxSegmentBytes : Z := 64 * 1024 * 1024.
Definition readChunkBytes : Z := 64 * 1024.

Record walSegment := mkSeg { name : bytes; firstSequence : Z }.

Record DefaultWriteAheadLog := mkWal {
  walID : UUID;
  partitionKey : bytes;
  walMaxSegmentBytes : Z;
  skipCorrupt : bool;
  segments : list walSegment;
  segmentName : bytes;
  sequenceCounter : Z;
  segmentSize : Z;
  closed : bool;
}.

Record AppendResult := mkAppend {
  ResSequence : Z; SegmentOffset : Z; SegmentSizeAfterBytes : Z;
}.

Record RecoverySummary := mkSummary {
  RecordsReplayed : Z; RecordsSkippedCorrupt : Z; LastSequence : Z; SegmentsScanned : Z;
}.

Inductive wal_error :=
  | ClosedError (partitionKey : bytes)
  | IOError (e : io_error)
  | Corruption (e : CorruptionError)
  | BadWalID (e : parse_error)
  | HandlerError.

(** ** Segment names *)

(** [fmt.Sprintf("%020d", z)] for an int64. *)
Definition fmt020d (z : Z) : bytes :=
  if z <? 0 then str "-" ++ dec_digits 19 (- z) else dec_digits 20 z.

Definition ActiveSegmentName (partitionKey : bytes) (walID : UUID) : bytes :=
  SegmentName.WAL partitionKey (UUIDString walID).

Definition RotatedSegmentName (partitionKey : bytes) (walID : UUID) (firstSequence : Z) : bytes :=
  SegmentName.WAL partitionKey (UUIDString walID ++ str "." ++ fmt020d firstSequence).

(** [strings.Cut(s, sep)] for a one-byte separator. *)
Fixpoint cut (sep : byte) (s : bytes) : bytes * option bytes :=
  match s with
  | [] => ([], None)
  | c :: s =>
    if bool_decide (c = sep) then ([], Some s)
    else let '(before, after) := cut sep s in (c :: before, after)
  end.

Definition ParseWalFileName (fileName : bytes) : option (bytes * Z) :=
  let '(id, suffix) := cut x2e fileName in
  if bool_decide (id = []) then None
  else
    match suffix with
    | None => Some (id, 1)
    | Some suffix =>
      match ParseInt suffix with
      | Some seq => if seq <? 1 then None else Some (id, seq)
      | None => None
      end
    end.

(** [strings.Contains(s, sub)]. *)
Fixpoint contains (s sub : bytes) : bool :=
  has_prefix s sub || match s with [] => false | _ :: s => contains s sub end.

(** [name[strings.LastIndex(name, "/")+1:]]. *)
Definition base_name (s : bytes) : bytes :=
  rev ((fix go (r : bytes) := match r with
        | [] => []
        | c :: r => if bool_decide (c = x2f) then [] else c :: go r end) (rev s)).

Definition parse_segment (name : bytes) : option (bytes * walSegment) :=
  if negb (contains name (str "/wal/")) then None
  else
    match ParseWalFileName (base_name name) with
    | Some (id, firstSeq) => Some (id, mkSeg name firstSeq)
    | None => None
    end.

Definition seg_ltb (a b : walSegment) : bool := firstSequence a <? firstSequence b.

Definition latestWalChain (segmentNames : list bytes) : list walSegment * bytes :=
  let parsed := omap parse_segment segmentNames in
  let newest := foldl (fun newest p => if bytes_leb p.1 newest then newest else p.1) [] parsed in
  (isort seg_ltb (map snd (List.filter (fun p => bool_decide (p.1 = newest)) parsed)), newest).

(** ** The state monad of the log

    The state is the log's fields and the shim's state; an error keeps the
    changes made before it, as in the source. *)

Section Ops.
Context {T : Type} `{PlatformIOShim T}.

Definition world : Type := DefaultWriteAheadLog * T.
Definition M (A : Type) : Type := world -> world * go wal_error A.

#[global] Instance M_ret : MRet M := fun A a st => (st, Ok a).
#[global] Instance M_bind : MBind M := fun A B k m st =>
  match m st with
  | (st', Ok a) => k a st'
  | (st', Err e) => (st', Err e)
  | (st', Panic) => (st', Panic)
  end.

Definition get : M DefaultWriteAheadLog := fun st => (st, Ok st.1).
Definition modify (f : DefaultWriteAheadLog -> DefaultWriteAheadLog) : M unit :=
  fun st => ((f st.1, st.2), Ok tt).
Definition fail {A} (e : wal_error) : M A := fun st => (st, Err e).

Definition lift_io {A} (r : go io_error A) : go wal_error A :=
  match r with Ok a => Ok a | Err e => Err (IOError e) | Panic => Panic end.
Definition io {A} (op : T -> T * go io_error A) : M A :=
  fun st => let '(s, r) := op st.2 in ((st.1, s), lift_io r).
Definition pure_io {A} (op : T -> go io_error A) : M A := fun st => (st, lift_io (op st.2)).

(** ** Whole-segment reads *)

(** The loop bodies of [readSegment] and [segmentSizeOf]. *)
Definition read_body (name : bytes) (s : T) (st : Z * bytes) : go io_error (Z * bytes + bytes) :=
  let '(off, out) := st in
  part ← ReadFromSegment name off readChunkBytes s;
  if zlen part =? 0 then Ok (inr out)
  else
    let out := out ++ part in
    let off := off + zlen part in
    if zlen part <? readChunkBytes then Ok (inr out) else Ok (inl (off, out)).

Definition size_body (name : bytes) (s : T) (size : Z) : go io_error (Z + Z) :=
  part ← ReadFromSegment name size readChunkBytes s;
  let size := size + zlen part in
  if zlen part <? readChunkBytes then Ok (inr size) else Ok (inl size).

(** [readSegment] reads a segment in [readChunkBytes] windows.  The offset is
    an int64, so 2^64 windows are more than any segment has. *)
Definition readSegment (name : bytes) (s : T) : go io_error bytes :=
  finish (loop 64 (lift_step (read_body name s)) (0, [])).

Definition segmentSizeOf (name : bytes) (s : T) : go io_error Z :=
  finish (loop 64 (lift_step (size_body name s)) 0).

(** ** Operations *)

Definition set_counter_size (c z : Z) (w : DefaultWriteAheadLog) :=
  mkWal (walID w) (partitionKey w) (walMaxSegmentBytes w) (skipCorrupt w) (segments w)
    (segmentName w) c z (closed w).

Definition checkOpen : M unit :=
  w ← get; if closed w then fail (ClosedError (partitionKey w)) else mret tt.

Definition rotateIfFullLocked (incomingBytes first : Z) : M unit :=
  w ← get;
  if (walMaxSegmentBytes w <=? 0) || (segmentSize w =? 0) then mret tt
  else if wraps 64 (segmentSize w + incomingBytes) <=? walMaxSegmentBytes w then mret tt
  else
    let previous := segmentName w in
    let nm := RotatedSegmentName (partitionKey w) (walID w) first in
    _ ← io (AppendToSegment nm []);
    _ ← io (FlushSegment previous);
    _ ← io (SealSegment previous);
    modify (fun w => mkWal (walID w) (partitionKey w) (walMaxSegmentBytes w) (skipCorrupt w)
      (segments w ++ [mkSeg nm first]) nm (sequenceCounter w) 0 (closed w)).

Definition with_sequence (r : WalRecord) (seq : Z) : WalRecord :=
  mkRecord seq (RecTimestamp r) (Kind r) (Payload r).

Definition Append (record : WalRecord) : M AppendResult :=
  _ ← checkOpen;
  w ← get;
  let seq := wraps 64 (sequenceCounter w + 1) in
  let b := EncodeRecord (with_sequence record seq) in
  _ ← rotateIfFullLocked (zlen b) seq;
  w ← get;
  let offset := segmentSize w in
  newSize ← io (AppendToSegment (segmentName w) b);
  _ ← modify (set_counter_size seq newSize);
  mret (mkAppend seq offset newSize).

(** The encoded records of a batch, numbered from the counter. *)
Fixpoint encode_batch (counter : Z) (i : Z) (records : list WalRecord) : list bytes :=
  match records with
  | [] => []
  | r :: rs =>
    EncodeRecord (with_sequence r (wraps 64 (counter + i + 1))) :: encode_batch counter (i + 1) rs
  end.

Fixpoint append_encoded (encoded : list bytes) (last : AppendResult) : M AppendResult :=
  match encoded with
  | [] => mret last
  | b :: rest =>
    w ← get;
    let seq := wraps 64 (sequenceCounter w + 1) in
    let off := segmentSize w in
    newSize ← io (AppendToSegment (segmentName w) b);
    _ ← modify (set_counter_size seq newSize);
    append_encoded rest (mkAppend seq off newSize)
  end.

Definition AppendBatch (records : list WalRecord) : M AppendResult :=
  _ ← checkOpen;
  w ← get;
  match records with
  | [] => mret (mkAppend (sequenceCounter w) 0 (segmentSize w))
  | _ =>
    let encoded := encode_batch (sequenceCounter w) 0 records in
    let total := foldl (fun t b => wraps 64 (t + zlen b)) 0 encoded in
    _ ← rotateIfFullLocked total (wraps 64 (sequenceCounter w + 1));
    append_encoded encoded (mkAppend 0 0 0)
  end.

Definition Sync : M unit := w ← get; io (FlushSegment (segmentName w)).

Definition Close : M unit :=
  modify (fun w => mkWal (walID w) (partitionKey w) (walMaxSegmentBytes w) (skipCorrupt w)
    (segments w) (segmentName w) (sequenceCounter w) (segmentSize w) true).

Definition lift_decode (r : decoded) : go wal_error DecodeResult :=
  match r with Ok d => Ok d | Err (e, _) => Err (Corruption e) | Panic => Panic end.

(** The handler of [Recover] has a state of its own, which it keeps when it
    reports an error. *)
Section Recover.
Context {A : Type} (handler : A -> WalRecord -> A * bool).

(** Replay state: the handler's, then [replayed], [skipped], [maxSeq],
    [activeSize] and [scanned]. *)
Record replay := mkReplay {
  hstate : A; replayed : Z; skipped : Z; maxSeq : Z; activeSize : Z; scanned : Z;
}.

Definition rec_ltb (a b : WalRecord) : bool := Sequence a <? Sequence b.

Fixpoint replay_records (rs : list WalRecord) (p : replay) : replay * bool :=
  match rs with
  | [] => (p, true)
  | r :: rs =>
    let '(h, ok) := handler (hstate p) r in
    if ok then
      replay_records rs (mkReplay h (replayed p + 1) (skipped p)
        (if maxSeq p <? Sequence r then Sequence r else maxSeq p) (activeSize p) (scanned p))
    else (mkReplay h (replayed p) (skipped p) (maxSeq p) (activeSize p) (scanned p), false)
  end.

Definition scan_segment (w : DefaultWriteAheadLog) (s : T) (last : bool) (seg : walSegment)
    (p : replay) : replay * go wal_error unit :=
  match lift_io (readSegment (name seg) s) with
  | Ok b =>
    let p := mkReplay (hstate p) (replayed p) (skipped p) (maxSeq p)
               (if last then zlen b else activeSize p) (scanned p + 1) in
    match lift_decode (DecodeRecords b (partitionKey w) (name seg) (skipCorrupt w)) with
    | Ok d =>
      let p := mkReplay (hstate p) (replayed p) (skipped p + SkippedCorrupt d) (maxSeq p)
                 (activeSize p) (scanned p) in
      let '(p, ok) := replay_records (isort rec_ltb (Records d)) p in
      (p, if ok then Ok tt else Err HandlerError)
    | Err e => (p, Err e)
    | Panic => (p, Panic)
    end
  | Err e => (p, Err e)
  | Panic => (p, Panic)
  end.

Fixpoint scan_segments (w : DefaultWriteAheadLog) (s : T) (segs : list walSegment) (p : replay)
    : replay * go wal_error unit :=
  match segs with
  | [] => (p, Ok tt)
  | seg :: rest =>
    match scan_segment w s (match rest with [] => true | _ => false end) seg p with
    | (p, Ok _) => scan_segments w s rest p
    | (p, r) => (p, r)
    end
  end.

Definition Recover (h0 : A) (st : world) : A * (world * go wal_error RecoverySummary) :=
  let '(w, s) := st in
  let '(p, r) := scan_segments w s (segments w) (mkReplay h0 0 0 0 0 0) in
  (hstate p,
   match r with
   | Ok _ =>
     let counter := if sequenceCounter w <? maxSeq p then maxSeq p else sequenceCounter w in
     ((set_counter_size counter (activeSize p) w, s),
      Ok (mkSummary (replayed p) (skipped p) (maxSeq p) (scanned p)))
   | Err e => (st, Err e)
   | Panic => (st, Panic)
   end).
End Recover.

(** The loop over the sealed segments of [Truncate]: [segs] is the suffix of
    the chain still to visit, its last element being the active segment. *)
Fixpoint truncate_sealed (cut : Z) (segs kept : list walSegment) : M (list walSegment) :=
  match segs with
  | seg :: ((next :: _) as rest) =>
    if wraps 64 (firstSequence next - 1) <=? cut then
      _ ← io (DeleteSegment (name seg)); truncate_sealed cut rest kept
    else truncate_sealed cut rest (kept ++ [seg])
  | _ => mret kept
  end.

(** What [Truncate] does to the active segment; the result is the segment and
    its new size. *)
Definition truncate_active (cut : Z) (w : DefaultWriteAheadLog) (active : walSegment) : M (walSegment * Z) :=
  if sequenceCounter w <=? cut then
    _ ← io (DeleteSegment (name active));
    _ ← io (AppendToSegment (name active) []);
    mret (mkSeg (name active) (wraps 64 (sequenceCounter w + 1)), 0)
  else if firstSequence active <=? cut then
    b ← pure_io (readSegment (name active));
    d ← (fun st => (st, lift_decode (DecodeRecords b (partitionKey w) (name active) (skipCorrupt w))));
    let rewritten := concat (map EncodeRecord
      (List.filter (fun r => cut <? Sequence r) (Records d))) in
    _ ← io (DeleteSegment (name active));
    _ ← io (AppendToSegment (name active) rewritten);
    mret (mkSeg (name active) (wraps 64 (cut + 1)), zlen rewritten)
  else mret (active, segmentSize w).

Definition Truncate (truncateThroughSequence : Z) : M unit :=
  _ ← checkOpen;
  w ← get;
  kept ← truncate_sealed truncateThroughSequence (segments w) [];
  match last (segments w) with
  | None => fun st => (st, Panic)
  | Some active =>
    r ← truncate_active truncateThroughSequence w active;
    modify (fun w => mkWal (walID w) (partitionKey w) (walMaxSegmentBytes w) (skipCorrupt w)
      (kept ++ [r.1]) (name r.1) (sequenceCounter w) r.2 (closed w))
  end.

(** [DefaultFactory.OpenOrCreate]; [fresh] is the UUID [codec.RandomUUID]
    returns when a new log is created. *)
Definition OpenOrCreate (factoryMax configMax : Z) (factorySkip configSkip : bool)
    (partitionKey : bytes) (fresh : UUID) (s : T) : T * go wal_error DefaultWriteAheadLog :=
  let maxSeg := if factoryMax <=? 0 then configMax else factoryMax in
  let maxSeg := if maxSeg <=? 0 then defaultMaxSegmentBytes else maxSeg in
  let skip := factorySkip || configSkip in
  match lift_io (ListSegments partitionKey s) with
  | Ok existing =>
    let '(chain, walIDStr) := latestWalChain existing in
    match last chain with
    | None =>
      let nm := ActiveSegmentName partitionKey fresh in
      let '(s, r) := AppendToSegment nm [] s in
      (s, match lift_io r with
          | Ok _ => Ok (mkWal fresh partitionKey maxSeg skip [mkSeg nm 1] nm 0 0 false)
          | Err e => Err e
          | Panic => Panic
          end)
    | Some active =>
      (s, match UUIDFromString walIDStr with
          | Ok id =>
            match lift_io (segmentSizeOf (name active) s) with
            | Ok size => Ok (mkWal id partitionKey maxSeg skip chain (name active) 0 size false)
            | Err e => Err e
            | Panic => Panic
            end
          | Err e => Err (BadWalID e)
          | Panic => Panic
          end)
    end
  | Err e => (s, Err e)
  | Panic => (s, Panic)
  end.

End Ops.

(** ** Whole-segment reads return the segment *)

Section Reads.
Context {T : Type} `{ShimLaws T}.

Lemma read_range_length c off len :
  0 <= off <= zlen c -> 0 <= len -> zlen (read_range c off len) = Z.min len (zlen c - off).
Proof. intros. unfold read_range, zlen in *. rewrite length_take, length_drop. lia. Qed.

Lemma take_zlen (c : bytes) n : zlen c <= n -> take (Z.to_nat n) c = c.
Proof. intros Hn. apply take_ge. unfold zlen in Hn. lia. Qed.

Lemma take_read_range c off len :
  0 <= off -> 0 <= len -> take (Z.to_nat off) c ++ read_range c off len = take (Z.to_nat (off + len)) c.
Proof.
  intros. unfold read_range. rewrite take_take_drop. f_equal. lia.
Qed.

(** A read the loops make that the shim fails. *)
Definition faulted (n : bytes) (s : T) : Prop :=
  exists off e, 0 <= off /\ (forall c, content s n = Some c -> off <= zlen c) /\
    ReadFromSegment n off readChunkBytes s = Err e.

Definition read_outcome {A} (n : bytes) (s : T) (f : bytes -> A) (r : go io_error A) : Prop :=
  match r with
  | Ok a => exists d, content s n = Some d /\ a = f d
  | Err _ => faulted n s
  | Panic => False
  end.

Definition size_ok (c : option bytes) : Prop := forall d, c = Some d -> slice_ok d.

(** One window of either loop, at offset [off]. *)
Lemma window_law n off s :
  0 <= off -> (forall c, content s n = Some c -> off <= zlen c) ->
  read_outcome n s (fun c => read_range c off readChunkBytes)
    (ReadFromSegment n off readChunkBytes s).
Proof.
  intros H1 H2. pose proof (read_law n off readChunkBytes s) as L.
  destruct (ReadFromSegment n off readChunkBytes s) eqn:E; [done| |done].
  red. unfold faulted. eauto 6.
Qed.

Lemma readSegment_law n s :
  size_ok (content s n) -> read_outcome n s id (readSegment n s).
Proof.
  intros Hsz. unfold readSegment.
  set (size := match content s n with Some c => zlen c | None => 0 end).
  destruct (loop_inv (lift_step (read_body n s)) (fun st : Z * bytes => size - st.1)
    (fun st => 0 <= st.1 /\ forall c, content s n = Some c -> st.1 <= zlen c /\ st.2 = take (Z.to_nat st.1) c)
    (read_outcome n s id) 64 (0, [])) as (a & E & Ha); [| | |rewrite E; exact Ha].
  - intros [off out] [Hp Hi]. unfold lift_step, read_body.
    pose proof (window_law n off s Hp (fun c Hc => proj1 (Hi c Hc))) as L.
    destruct (ReadFromSegment n off readChunkBytes s) as [d| |]; simpl in L |- *; [|done..].
    destruct L as (c & Hc & ->). destruct (Hi c Hc) as [Ho Hout]. cbn [fst snd] in *.
    assert (size = zlen c) as Hs by (unfold size; now rewrite Hc). unfold readChunkBytes in *.
    pose proof (read_range_length c off (64 * 1024) ltac:(lia) ltac:(lia)) as Hl.
    pose proof (take_read_range c off (64 * 1024) ltac:(lia) ltac:(lia)) as Happ.
    rewrite <- Hout in Happ.
    destruct (Z.eqb_spec (zlen (read_range c off (64 * 1024))) 0).
    { exists c. split; [done|]. rewrite Hout. unfold id. apply take_zlen. lia. }
    destruct (Z.ltb_spec (zlen (read_range c off (64 * 1024))) (64 * 1024)).
    { exists c. split; [done|]. rewrite Happ. unfold id. apply take_zlen. lia. }
    cbn [fst snd]. split; [|lia]. split; [lia|]. intros c' Hc'.
    assert (c' = c) as -> by congruence. split; [lia|]. rewrite Happ. f_equal. lia.
  - cbn [fst snd]. split; [lia|]. intros c _. pose proof (zlen_nonneg c). split; [lia|done].
  - cbn [fst]. unfold size. destruct (content s n) as [c|] eqn:Hc; [|simpl; lia].
    specialize (Hsz c eq_refl). unfold slice_ok in Hsz. simpl (2 ^ _). lia.
Qed.

Lemma segmentSizeOf_law n s :
  size_ok (content s n) -> read_outcome n s zlen (segmentSizeOf n s).
Proof.
  intros Hsz. unfold segmentSizeOf.
  set (size := match content s n with Some c => zlen c | None => 0 end).
  destruct (loop_inv (lift_step (size_body n s)) (fun off : Z => size - off)
    (fun off => 0 <= off /\ forall c, content s n = Some c -> off <= zlen c)
    (read_outcome n s zlen) 64 0) as (a & E & Ha); [| | |rewrite E; exact Ha].
  - intros off [Hp Hi]. unfold lift_step, size_body. pose proof (window_law n off s Hp Hi) as L.
    destruct (ReadFromSegment n off readChunkBytes s) as [d| |]; simpl in L |- *; [|done..].
    destruct L as (c & Hc & ->). pose proof (Hi c Hc) as Ho.
    assert (size = zlen c) as Hs by (unfold size; now rewrite Hc). unfold readChunkBytes in *.
    pose proof (read_range_length c off (64 * 1024) ltac:(lia) ltac:(lia)) as Hl.
    destruct (Z.ltb_spec (zlen (read_range c off (64 * 1024))) (64 * 1024)).
    { exists c. split; [done|]. lia. }
    split; [|lia]. split; [lia|]. intros c' Hc'. assert (c' = c) as -> by congruence. lia.
  - split; [lia|]. intros c _. apply zlen_nonneg.
  - unfold size. destruct (content s n) as [c|] eqn:Hc; [|simpl; lia].
    specialize (Hsz c eq_refl). unfold slice_ok in Hsz. simpl (2 ^ _). lia.
Qed.

(** On a shim that does not fault, the reads succeed. *)
Lemma not_faulted `{!ShimTotal T} n c s : content s n = Some c -> ~ faulted n s.
Proof.
  intros Hc (off & e & H1 & H2 & E). specialize (H2 c Hc).
  rewrite (read_total n c off readChunkBytes s Hc) in E; [done|lia|unfold readChunkBytes; lia].
Qed.

Lemma readSegment_total `{!ShimTotal T} n c s :
  content s n = Some c -> slice_ok c -> readSegment n s = Ok c.
Proof.
  intros Hc Hok. pose proof (readSegment_law n s) as L. rewrite Hc in L.
  specialize (L ltac:(intros d E; congruence)). destruct (readSegment n s) as [d| |]; simpl in L.
  - destruct L as (d' & E & ->). unfold id. congruence.
  - now destruct (not_faulted n c s Hc).
  - done.
Qed.

Lemma segmentSizeOf_total `{!ShimTotal T} n c s :
  content s n = Some c -> slice_ok c -> segmentSizeOf n s = Ok (zlen c).
Proof.
  intros Hc Hok. pose proof (segmentSizeOf_law n s) as L. rewrite Hc in L.
  specialize (L ltac:(intros d E; congruence)). destruct (segmentSizeOf n s) as [d| |]; simpl in L.
  - destruct L as (d' & E & ->). congruence.
  - now destruct (not_faulted n c s Hc).
  - done.
Qed.

End Reads.
End Wal.
