(* ===== verification/WalCorrect.v ===== *)
(** Correctness of the write-ahead log of [Wal.v].

    The abstract log is a list of records.  [wal_inv] says that the chain of
    segments on the shim holds exactly that list, cut into consecutively
    numbered segments.  Every operation preserves it on every path, failed I/O
    included. *)

From S2P Require Import Prelude Strconv Crc32 Primitives PlatformIO WalCodec Wal.
Import Strconv WalCodec Wal.

Module WalCorrect.

(** A chain: every segment with the records it holds. *)
Abbreviation chain := (list (walSegment * list WalRecord)).

Definition log (gs : chain) : list WalRecord := concat (map snd gs).
Definition seg_bytes (rs : list WalRecord) : bytes := concat (map EncodeRecord rs).

(** Records are numbered consecutively through the chain, from [start] up to
    but excluding [stop], and each segment knows its first number; the head of
    the chain may claim an earlier one, after records were cut off it. *)
Fixpoint numbered (head : bool) (start : Z) (gs : chain) (stop : Z) : Prop :=
  match gs with
  | [] => start = stop
  | (seg, rs) :: gs =>
    (if head then firstSequence seg <= start else firstSequence seg = start) /\
    map Sequence rs = seqZ start (zlen rs) /\
    numbered false (start + zlen rs) gs stop
  end.

(** The segment names a log can have, by the number in them; the head of the
    chain may be named for an earlier record than its first. *)
Definition seg_name (pk : bytes) (u : UUID) (k : Z) (nm : bytes) : Prop :=
  (k = 1 /\ nm = ActiveSegmentName pk u) \/ (1 < k /\ nm = RotatedSegmentName pk u k).

Definition named (pk : bytes) (u : UUID) (head : bool) (seg : walSegment) : Prop :=
  exists k, seg_name pk u k (name seg) /\ if head then k <= firstSequence seg else k = firstSequence seg.

Fixpoint all_named (pk : bytes) (u : UUID) (head : bool) (gs : chain) : Prop :=
  match gs with [] => True | g :: gs => named pk u head g.1 /\ all_named pk u false gs end.

Section Inv.
Context {T : Type} `{ShimLaws T}.

Record wal_inv (w : DefaultWriteAheadLog) (s : T) (pre : chain) (act : walSegment * list WalRecord)
  : Prop := {
  inv_segments : segments w = map fst (pre ++ [act]);
  inv_active : segmentName w = name act.1;
  inv_size : segmentSize w = zlen (seg_bytes act.2);
  inv_content : Forall (fun g => content s (name g.1) = Some (seg_bytes g.2)) (pre ++ [act]);
  inv_records : Forall record_wf (log (pre ++ [act]));
  inv_numbered : exists start, numbered true start (pre ++ [act]) (sequenceCounter w + 1);
  inv_nodup : NoDup (map (fun g => name g.1) (pre ++ [act]));
  inv_named : all_named (partitionKey w) (walID w) true (pre ++ [act]);
  inv_full : Forall (fun g => g.2 <> []) pre;
  (** A segment numbered past the last record is empty or does not exist. *)
  inv_fresh : forall k, sequenceCounter w < k < 2 ^ 63 ->
    default [] (content s (RotatedSegmentName (partitionKey w) (walID w) k)) = [];
  inv_counter : 0 <= sequenceCounter w < 2 ^ 63;
}.

(** The active segment accepts appends, and so will the next one. *)
Record wal_live (w : DefaultWriteAheadLog) (s : T) : Prop := {
  live_active : sealed s (segmentName w) = false;
  live_fresh : forall k, sequenceCounter w < k < 2 ^ 63 ->
    sealed s (RotatedSegmentName (partitionKey w) (walID w) k) = false;
}.

End Inv.

(** ** Names *)

Lemma ParseInt_fmt020d z : 0 <= z < 2 ^ 63 -> ParseInt (fmt020d z) = Some z.
Proof.
  intros Hz. unfold fmt020d. destruct (Z.ltb_spec z 0); [lia|].
  assert (Hp : parse_digits 0 (dec_digits 20 z) = Some z).
  { rewrite parse_dec_digits by lia. f_equal. rewrite Z.mod_small; [lia|].
    change (10 ^ Z.of_nat 20) with 100000000000000000000. lia. }
  unfold ParseInt. pose proof (dec_digits_length 20 z) as Hl.
  destruct (dec_digits 20 z) as [|c ds] eqn:E; [discriminate|].
  cbn [parse_digits] in Hp. destruct ((48 <=? b2z c) && (b2z c <=? 57)) eqn:Hc; [|discriminate].
  destruct (Z.eqb_spec (b2z c) 43); [lia|]. destruct (Z.eqb_spec (b2z c) 45); [lia|].
  cbn [parse_digits]. rewrite Hc, Hp. simpl.
  replace ((_ <=? z) && (z <? _)) with true by lia. done.
Qed.

Lemma cut_app sep a b : sep ∉ a -> cut sep (a ++ sep :: b) = (a, Some b).
Proof.
  induction a as [|c a IH]; intros Hn; simpl.
  - now rewrite bool_decide_true.
  - rewrite bool_decide_false by set_solver. rewrite IH by set_solver. done.
Qed.

Lemma cut_none sep a : sep ∉ a -> cut sep a = (a, None).
Proof.
  induction a as [|c a IH]; intros Hn; simpl; [done|].
  rewrite bool_decide_false by set_solver. rewrite IH by set_solver. done.
Qed.

(** The characters of a UUID string: hexadecimal digits and dashes. *)
Definition uuid_char (c : byte) : Prop := b2z c = 45 \/ 48 <= b2z c <= 57 \/ 97 <= b2z c <= 102.

Lemma hex_digit_char n : 0 <= n < 16 -> uuid_char (hex_digit n).
Proof.
  intros. unfold uuid_char, hex_digit. destruct (Z.ltb_spec n 10); rewrite b2z_z2b; zdm.
Qed.

Lemma EncodeToString_char b : Forall uuid_char (EncodeToString b).
Proof.
  induction b as [|x b IH]; simpl; [constructor|]. pose proof (b2z_range x).
  constructor; [apply hex_digit_char; zdm|]. constructor; [apply hex_digit_char; zdm|done].
Qed.

Lemma UUIDString_char u : Forall uuid_char (UUIDString u).
Proof.
  unfold UUIDString. assert (Hd : Forall uuid_char (str "-"))
    by (constructor; [now left|constructor]).
  repeat (apply Forall_app; split); auto using EncodeToString_char.
Qed.

Lemma UUIDString_not c u : ~ uuid_char c -> c ∉ UUIDString u.
Proof.
  intros Hc Hin. pose proof (UUIDString_char u) as Hf. rewrite Forall_forall in Hf.
  apply Hc, Hf. done.
Qed.

Lemma UUIDString_no_dot u : x2e ∉ UUIDString u.
Proof. apply UUIDString_not. unfold uuid_char. replace (b2z x2e) with 46 by reflexivity. lia. Qed.

Lemma UUIDString_nonempty u : UUIDString u <> [].
Proof. intros E. apply (f_equal strip_dashes) in E. rewrite UUIDString_strip in E.
  apply (f_equal length) in E. rewrite EncodeToString_length, UUIDBytes_length in E. done. Qed.

Lemma ParseWalFileName_number u k :
  1 <= k < 2 ^ 63 -> ParseWalFileName (UUIDString u ++ str "." ++ fmt020d k) = Some (UUIDString u, k).
Proof.
  intros Hk.
  unfold ParseWalFileName.
  replace (UUIDString u ++ str "." ++ fmt020d k) with (UUIDString u ++ x2e :: fmt020d k) by done.
  rewrite cut_app by apply UUIDString_no_dot.
  rewrite bool_decide_false by apply UUIDString_nonempty.
  rewrite ParseInt_fmt020d by lia. destruct (Z.ltb_spec k 1); [lia|done].
Qed.

(** The file name a rotated segment is given parses back to the log's id and the sequence the
    segment starts at, so a reopened log finds its chain in order. *)
Theorem ParseWalFileName_rotated (u : UUID) (k : Z) (Hk : 1 <= k < 2 ^ 63) :
  ParseWalFileName (UUIDString u ++ str "." ++ fmt020d k) = Some (UUIDString u, k).
Proof. by apply ParseWalFileName_number. Qed.

Lemma ParseWalFileName_rotated_witness :
  ParseWalFileName (UUIDString (mkUUID 1 2) ++ str "." ++ fmt020d 42) = Some (UUIDString (mkUUID 1 2), 42).
Proof. apply ParseWalFileName_rotated. lia. Defined.

Lemma fmt020d_inj a b : 0 <= a < 2 ^ 63 -> 0 <= b < 2 ^ 63 -> fmt020d a = fmt020d b -> a = b.
Proof. intros Ha Hb E. apply (f_equal ParseInt) in E. rewrite !ParseInt_fmt020d in E by lia. congruence. Qed.

Lemma Rotated_inj pk u a b :
  0 <= a < 2 ^ 63 -> 0 <= b < 2 ^ 63 -> RotatedSegmentName pk u a = RotatedSegmentName pk u b -> a = b.
Proof.
  intros Ha Hb E. unfold RotatedSegmentName, SegmentName.WAL, SegmentName.path in E.
  repeat apply app_inv_head in E. by apply fmt020d_inj.
Qed.

Lemma Active_not_rotated pk u k : ActiveSegmentName pk u <> RotatedSegmentName pk u k.
Proof.
  unfold ActiveSegmentName, RotatedSegmentName, SegmentName.WAL, SegmentName.path. intros E.
  repeat apply app_inv_head in E. apply (f_equal length) in E. rewrite !length_app in E. simpl in E. lia.
Qed.

(** Names carry their number: a name numbered below [k] is not the rotated name of [k]. *)
Lemma seg_name_lt pk u j k nm :
  seg_name pk u j nm -> 0 <= j < k -> k < 2 ^ 63 -> nm <> RotatedSegmentName pk u k.
Proof.
  intros [[-> ->]|[Hj ->]] Hk Hb; [apply Active_not_rotated|]. intros E. apply Rotated_inj in E; lia.
Qed.

(** ** Numbering *)

(** Whether what follows [gs] starts the chain. *)
Definition still_head (h : bool) (gs : chain) : bool := match gs with [] => h | _ => false end.

Lemma numbered_app h a g1 g2 c :
  numbered h a (g1 ++ g2) c <-> exists b, numbered h a g1 b /\ numbered (still_head h g1) b g2 c.
Proof.
  revert h a; induction g1 as [|[seg rs] g1 IH]; intros h a; simpl.
  - split; [eauto|]. intros (b & -> & ?); done.
  - rewrite IH. replace (still_head false g1) with false by (by destruct g1). naive_solver.
Qed.

Lemma all_named_app pk u h g1 g2 :
  all_named pk u h (g1 ++ g2) <-> all_named pk u h g1 /\ all_named pk u (still_head h g1) g2.
Proof.
  revert h; induction g1 as [|g g1 IH]; intros h; simpl; [tauto|]. rewrite IH.
  replace (still_head false g1) with false by (by destruct g1). tauto.
Qed.

Lemma numbered_le h a gs c : numbered h a gs c -> a <= c.
Proof.
  revert h a; induction gs as [|[seg rs] gs IH]; intros h a; simpl; [lia|].
  intros (_ & _ & Hn). apply IH in Hn. pose proof (zlen_nonneg rs). lia.
Qed.

Lemma numbered_log h a gs c : numbered h a gs c -> map Sequence (log gs) = seqZ a (c - a).
Proof.
  revert h a; induction gs as [|[seg rs] gs IH]; intros h a; simpl.
  - intros ->. rewrite seqZ_nil by lia. done.
  - intros (_ & Hs & Hn). pose proof (numbered_le _ _ _ _ Hn). pose proof (zlen_nonneg rs).
    unfold log in *. simpl. rewrite map_app, Hs, (IH _ _ Hn).
    replace (c - a) with (zlen rs + (c - (a + zlen rs))) by lia. rewrite seqZ_app by lia. done.
Qed.

Lemma numbered_first h a gs c g : numbered h a gs c -> g ∈ gs -> firstSequence g.1 <= c.
Proof.
  revert h a; induction gs as [|[seg rs] gs IH]; intros h a; simpl; [set_solver|].
  intros (Hf & Hs & Hn) Hin. pose proof (numbered_le _ _ _ _ Hn). pose proof (zlen_nonneg rs).
  apply elem_of_cons in Hin as [->|Hin]; simpl; [destruct h; lia|]. by apply (IH _ _ Hn).
Qed.

Lemma named_in pk u h gs g : all_named pk u h gs -> g ∈ gs ->
  exists k, seg_name pk u k (name g.1) /\ 1 <= k <= firstSequence g.1.
Proof.
  revert h; induction gs as [|g0 gs IH]; intros h; simpl; [set_solver|].
  intros [(k & Hs & Hk) Hn] Hin. apply elem_of_cons in Hin as [->|Hin]; [|eauto].
  exists k. split; [done|]. destruct Hs as [[-> _]|[? _]]; destruct h; lia.
Qed.

Lemma numbered_snoc h a pre seg rs r c :
  numbered h a (pre ++ [(seg, rs)]) c -> Sequence r = c -> numbered h a (pre ++ [(seg, rs ++ [r])]) (c + 1).
Proof.
  intros Hn Hr. apply numbered_app in Hn as (b & H1 & H2). apply numbered_app. exists b.
  split; [done|]. simpl in *. destruct H2 as (Hf & Hs & Hc). pose proof (zlen_nonneg rs).
  rewrite zlen_app. split_and!; [done| |rewrite <- Hc; unfold zlen; simpl; lia].
  rewrite map_app, Hs. simpl. rewrite seqZ_app by (unfold zlen; simpl; lia).
  f_equal. rewrite Hr, <- Hc. done.
Qed.

Lemma log_snoc pre seg rs r : log (pre ++ [(seg, rs ++ [r])]) = log (pre ++ [(seg, rs)]) ++ [r].
Proof. unfold log. rewrite !map_app, !concat_app. simpl. rewrite !app_nil_r, app_assoc. done. Qed.

Lemma log_rotate gs seg : log (gs ++ [(seg, [])]) = log gs.
Proof. unfold log. rewrite map_app, concat_app. simpl. now rewrite app_nil_r. Qed.

Lemma seg_bytes_snoc rs r : seg_bytes (rs ++ [r]) = seg_bytes rs ++ EncodeRecord r.
Proof. unfold seg_bytes. rewrite map_app, concat_app. simpl. now rewrite app_nil_r. Qed.

(** ** How the invariant moves *)

Section Preserve.
Context {T : Type} `{ShimLaws T}.

(** Contents are the same, except that an absent segment may now be empty. *)
Definition touches (s s' : T) : Prop :=
  (forall m, default [] (content s' m) = default [] (content s m)) /\
  (forall m c, content s m = Some c -> content s' m = Some c).

Lemma touches_same (s s' : T) : (forall m, content s' m = content s m) -> touches s s'.
Proof. intros E. split; intros m; rewrite E; done. Qed.

Lemma touches_trans (s1 s2 s3 : T) : touches s1 s2 -> touches s2 s3 -> touches s1 s3.
Proof. intros [A B] [C D]. split; [intros m; by rewrite C, A|auto]. Qed.

Lemma touches_create n s s' c :
  default [] (content s n) = [] -> c = default [] (content s n) ++ [] ->
  (forall m, content s' m = if decide (m = n) then Some c else content s m) -> touches s s'.
Proof.
  intros E -> Hc. rewrite E in Hc. split; intros m; rewrite Hc; case_decide; subst; simpl; try done.
  intros c Hm. rewrite Hm in E. simpl in E. by subst.
Qed.

Lemma inv_touches w (s s' : T) pre act : touches s s' -> wal_inv w s pre act -> wal_inv w s' pre act.
Proof.
  intros [Hd Hs] [? ? ? Hc ? ? ? ? ? Hf ?]. constructor; try done.
  - eapply Forall_impl; [exact Hc|]. simpl. auto.
  - intros k Hk. rewrite Hd. auto.
Qed.

(** Every segment of the chain is named for a record not past its first. *)
Lemma inv_name w (s : T) pre act g :
  wal_inv w s pre act -> g ∈ pre ++ [act] ->
  exists k, seg_name (partitionKey w) (walID w) k (name g.1) /\ 1 <= k <= firstSequence g.1 /\
    firstSequence g.1 <= sequenceCounter w + 1.
Proof.
  intros I Hg. destruct (inv_numbered _ _ _ _ I) as (a & Hn).
  pose proof (numbered_first _ _ _ _ _ Hn Hg).
  destruct (named_in _ _ _ _ _ (inv_named _ _ _ _ I) Hg) as (k & Hs & Hk). eauto.
Qed.

Lemma inv_first_lt w (s : T) pre act :
  wal_inv w s pre act -> segmentSize w <> 0 ->
  forall g, g ∈ pre ++ [act] -> firstSequence g.1 < sequenceCounter w + 1.
Proof.
  intros I Hz g Hg. destruct (inv_numbered _ _ _ _ I) as (a & Hn).
  assert (Hne : 0 < zlen act.2).
  { pose proof (inv_size _ _ _ _ I) as E. destruct act.2; [|unfold zlen; simpl; lia].
    rewrite E in Hz. done. }
  apply numbered_app in Hn as (b & H1 & H2). destruct act as [seg rs]. simpl in *.
  destruct H2 as (Hf & _ & Hc). apply elem_of_app in Hg as [Hg|Hg].
  - pose proof (numbered_first _ _ _ _ _ H1 Hg). lia.
  - apply list_elem_of_singleton in Hg as ->. simpl. destruct (still_head true pre); lia.
Qed.

Lemma inv_active_old w (s : T) pre act k :
  wal_inv w s pre act -> segmentSize w <> 0 -> sequenceCounter w < k < 2 ^ 63 ->
  forall g, g ∈ pre ++ [act] -> name g.1 <> RotatedSegmentName (partitionKey w) (walID w) k.
Proof.
  intros I Hz Hk g Hg. pose proof (inv_first_lt _ _ _ _ I Hz g Hg).
  destruct (inv_name _ _ _ _ _ I Hg) as (j & Hs & Hj & _). eapply seg_name_lt; [exact Hs|lia..].
Qed.

Lemma inv_rotate w (s : T) pre act nm :
  wal_inv w s pre act -> segmentSize w <> 0 -> sequenceCounter w + 1 < 2 ^ 63 ->
  nm = RotatedSegmentName (partitionKey w) (walID w) (sequenceCounter w + 1) ->
  content s nm = Some [] ->
  wal_inv (mkWal (walID w) (partitionKey w) (walMaxSegmentBytes w) (skipCorrupt w)
      (segments w ++ [mkSeg nm (sequenceCounter w + 1)]) nm (sequenceCounter w) 0 (closed w))
    s (pre ++ [act]) (mkSeg nm (sequenceCounter w + 1), []).
Proof.
  intros I Hz Hb Hnm Hc. pose proof (inv_first_lt _ _ _ _ I Hz) as Hlt.
  assert (Hin : act ∈ pre ++ [act]) by set_solver. specialize (Hlt act Hin).
  destruct (inv_name _ _ _ _ _ I Hin) as (j & Hs & Hj & _).
  pose proof (inv_counter _ _ _ _ I) as Hk.
  pose proof (inv_active_old _ _ _ _ (sequenceCounter w + 1) I Hz ltac:(lia)) as Hnew.
  destruct I as [Is Ia Iz Ic Ir [a In] Id Im Iu If Ik].
  assert (Hsh : still_head true (pre ++ [act]) = false) by (by destruct pre).
  constructor; cbn [segments segmentName segmentSize sequenceCounter partitionKey walID fst snd name firstSequence]; try done.
  - rewrite Is, (map_app _ (pre ++ [act])). done.
  - apply Forall_app. split; [done|]. constructor; [done|constructor].
  - now rewrite log_rotate.
  - exists a. apply numbered_app. exists (sequenceCounter w + 1). split; [done|]. rewrite Hsh. simpl.
    split_and!; [done..|]. unfold zlen. simpl. lia.
  - rewrite map_app. apply NoDup_app. split_and!; [done| |apply NoDup_singleton].
    intros x Hx. apply list_elem_of_fmap in Hx as (g & -> & Hg). simpl.
    rewrite list_elem_of_singleton, Hnm. by apply Hnew.
  - apply all_named_app. rewrite Hsh. split; [done|]. split; [|done].
    exists (sequenceCounter w + 1). split; [|done]. right. split; [lia|done].
  - apply Forall_app. split; [done|]. constructor; [|constructor]. intros E. by rewrite Iz, E in Hz.
Qed.

Lemma inv_append w (s s' : T) pre seg rs r :
  wal_inv w s pre (seg, rs) -> record_wf r -> Sequence r = sequenceCounter w + 1 ->
  sequenceCounter w + 1 < 2 ^ 63 ->
  (forall m, content s' m = if decide (m = name seg) then Some (seg_bytes rs ++ EncodeRecord r) else content s m) ->
  wal_inv (set_counter_size (sequenceCounter w + 1) (zlen (seg_bytes rs ++ EncodeRecord r)) w)
    s' pre (seg, rs ++ [r]).
Proof.
  intros I Hr Hq Hb Hc. destruct (inv_name _ _ _ _ (seg, rs) I ltac:(set_solver)) as (j & Hs & Hj & Hj2).
  destruct I as [Is Ia Iz Ic Ir [a In] Id Im Iu If Ik]. rewrite <- seg_bytes_snoc in *.
  rewrite map_app in Is, Id. apply Forall_app in Ic as [Ic1 Ic2].
  apply all_named_app in Im. cbn [fst] in *.
  constructor; unfold set_counter_size; cbn [segments segmentName segmentSize sequenceCounter partitionKey walID fst snd]; try done.
  - rewrite map_app. done.
  - apply Forall_app. split; [|constructor; [|constructor]]; simpl; [|by rewrite Hc, decide_True].
    rewrite Forall_forall in Ic1 |- *. intros g Hg. rewrite Hc, decide_False; [auto|].
    intros E. apply NoDup_app in Id as (_ & Hd & _). apply (Hd (name g.1)); [|simpl; rewrite E; by left].
    apply list_elem_of_fmap. eauto.
  - rewrite log_snoc. apply Forall_app. split; [done|]. by constructor.
  - exists a. by apply numbered_snoc.
  - rewrite map_app. done.
  - by apply all_named_app.
  - intros k Hk. rewrite Hc, decide_False; [apply If; lia|]. intros E. symmetry in E. revert E.
    eapply seg_name_lt; [exact Hs|lia..].
  - lia.
Qed.

(** ** Rotation *)

(** The log held by [gs] has grown by [rs]. *)
Definition grows (w : DefaultWriteAheadLog) (gs : chain) (rs : list WalRecord)
    (w' : DefaultWriteAheadLog) (s' : T) : Prop :=
  exists pre' act', wal_inv w' s' pre' act' /\ log (pre' ++ [act']) = log gs ++ rs /\
    sequenceCounter w' = sequenceCounter w + zlen rs /\ closed w' = closed w.

Lemma grows_touches w (s s' : T) pre act :
  touches s s' -> wal_inv w s pre act -> grows w (pre ++ [act]) [] w s'.
Proof.
  intros Ht I. exists pre, act. rewrite app_nil_r. split_and!; try done; [by eapply inv_touches|].
  unfold zlen. simpl. lia.
Qed.

Lemma grows_refl w (s : T) pre act : wal_inv w s pre act -> grows w (pre ++ [act]) [] w s.
Proof. apply grows_touches, touches_same. done. Qed.

Lemma append_nil_touches n (s : T) :
  default [] (content s n) = [] ->
  let '(s', r) := AppendToSegment n [] s in
  touches s s' /\ match r with Ok _ => content s' n = Some [] | Err _ => True | Panic => False end.
Proof.
  intros E. pose proof (append_law n [] s) as L. destruct (AppendToSegment n [] s) as [s' [z|e|]].
  - destruct L as (_ & _ & Hc). split; [by eapply touches_create|].
    rewrite Hc, decide_True by done. by rewrite E.
  - destruct L as [_ Hc]. split; [by apply touches_same|done].
  - by destruct L.
Qed.

Lemma rotate_spec w (s : T) pre act inc :
  wal_inv w s pre act -> sequenceCounter w + 1 < 2 ^ 63 ->
  let '((w', s'), r) := rotateIfFullLocked inc (sequenceCounter w + 1) (w, s) in
  r <> Panic /\ grows w (pre ++ [act]) [] w' s'.
Proof.
  intros I Hb. pose proof (inv_counter _ _ _ _ I) as Hk.
  unfold rotateIfFullLocked, mbind, M_bind, get, io, modify, mret, M_ret. cbn [fst snd].
  destruct (_ || _) eqn:Hg; [split; [done|by apply (grows_touches w s), I]|].
  apply orb_false_iff in Hg as [_ Hz%Z.eqb_neq].
  destruct (_ <=? _); [split; [done|by apply (grows_touches w s), I]|].
  cbn [fst snd]. pose proof (append_nil_touches _ s (inv_fresh _ _ _ _ I (sequenceCounter w + 1) ltac:(lia))) as L1.
  destruct (AppendToSegment _ [] s) as [s1 [z|e|]]; destruct L1 as [T1 Hc1]; cbn [lift_io]; [|split; [done|by eapply grows_touches]|done].
  pose proof (flush_law (segmentName w) s1) as L2. cbn [fst snd].
  destruct (FlushSegment (segmentName w) s1) as [s2 [[]|e|]]; destruct L2 as (_ & L2 & Hc2); cbn [lift_io]; [| |done];
    pose proof (touches_trans _ _ _ T1 (touches_same _ _ Hc2)) as T2; [|split; [done|by eapply grows_touches]].
  cbn [fst snd]. pose proof (seal_law (segmentName w) s2) as L3.
  destruct (SealSegment (segmentName w) s2) as [s3 [[]|e|]]; destruct L3 as (L3 & Hc3 & _); cbn [lift_io]; [| |done];
    pose proof (touches_trans _ _ _ T2 (touches_same _ _ Hc3)) as T3; [|split; [done|by eapply grows_touches]].
  split; [done|]. cbn [fst snd]. exists (pre ++ [act]), (mkSeg (RotatedSegmentName (partitionKey w) (walID w) (sequenceCounter w + 1)) (sequenceCounter w + 1), []).
  split_and!; [|by rewrite log_rotate, app_nil_r|simpl; unfold zlen; simpl; lia|done]. apply inv_rotate; try done; [by eapply inv_touches|].
  by rewrite Hc3, Hc2.
Qed.

Lemma rotate_total `{!ShimTotal T} w (s : T) pre act inc :
  wal_inv w s pre act -> wal_live w s -> sequenceCounter w + 1 < 2 ^ 63 ->
  exists w' s', rotateIfFullLocked inc (sequenceCounter w + 1) (w, s) = ((w', s'), Ok tt) /\ wal_live w' s'.
Proof.
  intros I [La Lf] Hb. pose proof (inv_counter _ _ _ _ I) as Hk.
  unfold rotateIfFullLocked, mbind, M_bind, get, io, modify, mret, M_ret. cbn [fst snd].
  destruct (_ || _) eqn:Hg; [by eauto using Build_wal_live|]. apply orb_false_iff in Hg as [_ Hz%Z.eqb_neq].
  destruct (_ <=? _); [by eauto using Build_wal_live|].
  cbn [fst snd]. set (nm := RotatedSegmentName (partitionKey w) (walID w) (sequenceCounter w + 1)).
  destruct (append_total nm [] s ltac:(apply Lf; lia)) as (s1 & z & E1). pose proof (append_law nm [] s) as L1.
  rewrite E1 in L1 |- *. destruct L1 as [L1 _]. cbn [lift_io fst snd].
  destruct (flush_total (segmentName w) s1) as (s2 & E2). pose proof (flush_law (segmentName w) s1) as L2.
  rewrite E2 in L2 |- *. destruct L2 as [L2 _]. cbn [lift_io fst snd].
  destruct (seal_total (segmentName w) s2) as (s3 & E3). pose proof (seal_law (segmentName w) s2) as L3.
  rewrite E3 in L3 |- *. destruct L3 as (_ & _ & L3). cbn [lift_io fst snd]. rewrite L2, L1 in L3.
  assert (Hn : forall k, sequenceCounter w < k < 2 ^ 63 ->
    sealed s3 (RotatedSegmentName (partitionKey w) (walID w) k) = false).
  { intros k Hkk. rewrite L3; [by apply Lf|]. apply not_eq_sym. rewrite (inv_active _ _ _ _ I).
    eapply inv_active_old; [done..|set_solver]. }
  eexists _, _. split; [reflexivity|]. constructor; cbn; [apply Hn; lia|exact Hn].
Qed.

(** ** Appending *)

Definition record_ok (r : WalRecord) : Prop :=
  ts_wf (RecTimestamp r) /\ headerLen + zlen (Payload r) < 2 ^ 32.

Lemma with_sequence_wf r q : record_ok r -> 0 <= q < 2 ^ 63 -> record_wf (with_sequence r q).
Proof. intros [? ?] ?. split_and!; simpl; try done; unfold is_s; simpl; lia. Qed.

(** The records of a batch, numbered on from [c]. *)
Fixpoint stamp (c : Z) (rs : list WalRecord) : list WalRecord :=
  match rs with [] => [] | r :: rs => with_sequence r (c + 1) :: stamp (c + 1) rs end.

Lemma append_one w (s : T) pre act r :
  wal_inv w s pre act -> record_ok r -> sequenceCounter w + 1 < 2 ^ 63 ->
  let r' := with_sequence r (sequenceCounter w + 1) in
  let '(s', x) := AppendToSegment (segmentName w) (EncodeRecord r') s in
  match x with
  | Ok z => grows w (pre ++ [act]) [r'] (set_counter_size (sequenceCounter w + 1) z w) s'
  | Err _ => grows w (pre ++ [act]) [] w s'
  | Panic => False
  end.
Proof.
  intros I Hr Hb r'. pose proof (append_law (segmentName w) (EncodeRecord r') s) as L.
  destruct (AppendToSegment _ _ s) as [s' [z|e|]]; destruct L as [_ L]; [| |done].
  - destruct act as [seg rs]. destruct L as [-> Hc]. pose proof (inv_counter _ _ _ _ I).
    rewrite (inv_active _ _ _ _ I) in *. cbn [fst] in *.
    assert (E : default [] (content s (name seg)) = seg_bytes rs).
    { pose proof (inv_content _ _ _ _ I) as Hf. apply Forall_app in Hf as [_ Hf].
      inversion_clear Hf as [|? ? E _]. simpl in E. by rewrite E. }
    rewrite E in *. exists pre, (seg, rs ++ [r']). split_and!; [|apply log_snoc|done..].
    eapply inv_append; try done. apply with_sequence_wf; [done|lia].
  - eapply grows_touches; [by apply touches_same|done].
Qed.

Lemma grows_trans w gs rs1 w1 (s1 s2 : T) pre1 act1 rs2 w2 :
  log (pre1 ++ [act1]) = log gs ++ rs1 -> sequenceCounter w1 = sequenceCounter w + zlen rs1 ->
  closed w1 = closed w -> grows w1 (pre1 ++ [act1]) rs2 w2 s2 -> grows w gs (rs1 ++ rs2) w2 s2.
Proof.
  intros El Ec Ek (pre2 & act2 & I2 & El2 & Ec2 & Ek2). exists pre2, act2. split_and!; [done|..].
  - by rewrite El2, El, app_assoc.
  - rewrite zlen_app. lia.
  - congruence.
Qed.

Lemma encode_batch_stamp c i rs :
  0 <= c + i -> c + i + zlen rs < 2 ^ 63 -> encode_batch c i rs = map EncodeRecord (stamp (c + i) rs).
Proof.
  revert i; induction rs as [|r rs IH]; intros i Hl Hb; [done|]. rewrite zlen_cons in Hb. pose proof (zlen_nonneg rs).
  cbn [encode_batch stamp map]. rewrite wraps_id by (unfold is_s; simpl; lia).
  rewrite IH by lia. do 3 f_equal. lia.
Qed.

(** The batch loop: on success the whole batch is in the log, on a failure the part of it before
    the failed append. *)
Lemma append_encoded_spec rs w (s : T) pre act last :
  wal_inv w s pre act -> Forall record_ok rs -> sequenceCounter w + zlen rs < 2 ^ 63 ->
  let '((w', s'), x) := append_encoded (map EncodeRecord (stamp (sequenceCounter w) rs)) last (w, s) in
  match x with
  | Ok res => (rs <> [] -> ResSequence res = sequenceCounter w + zlen rs) /\
      grows w (pre ++ [act]) (stamp (sequenceCounter w) rs) w' s'
  | Err _ => exists n, (n < length rs)%nat /\
      grows w (pre ++ [act]) (take n (stamp (sequenceCounter w) rs)) w' s'
  | Panic => False
  end.
Proof.
  revert w s pre act last; induction rs as [|r rs IH]; intros w s pre act last I Hr Hb.
  { split; [done|]. by apply grows_refl. }
  inversion_clear Hr as [|? ? Hr1 Hr2]. rewrite zlen_cons in *. pose proof (zlen_nonneg rs).
  pose proof (append_one w s pre act r I Hr1 ltac:(lia)) as L. pose proof (inv_counter _ _ _ _ I).
  cbv zeta in L. cbn [stamp map]. set (r' := with_sequence r (sequenceCounter w + 1)) in *. cbn [append_encoded].
  unfold mbind, M_bind, get, io, modify. cbn [fst snd]. rewrite wraps_id by (unfold is_s; simpl; lia).
  destruct (AppendToSegment _ _ s) as [s' [z|e|]]; cbn [lift_io fst snd]; [|exists 0%nat; split; [simpl; lia|exact L]|exact L].
  destruct L as (pre1 & act1 & I1 & El & Ec & Ek).
  specialize (IH _ s' pre1 act1 (mkAppend (sequenceCounter w + 1) (segmentSize w) z) I1 Hr2).
  assert (Ec' : sequenceCounter (set_counter_size (sequenceCounter w + 1) z w) = sequenceCounter w + 1) by done.
  rewrite Ec' in IH. specialize (IH ltac:(lia)).
  destruct (append_encoded _ _ _) as [[w2 s2] [res|e|]] eqn:EA; [| |done].
  - destruct IH as [Hres Hg]. split.
    + intros _. destruct rs; [|rewrite Hres by done; lia].
      cbn in EA. unfold mret, M_ret in EA. injection EA as <- <- <-. simpl. unfold zlen. simpl. lia.
    + apply (grows_trans w (pre ++ [act]) [r'] _ s' s2 pre1 act1 _ w2 El Ec Ek Hg).
  - destruct IH as (n & Hn & Hg). exists (S n). split; [simpl; lia|].
    apply (grows_trans w (pre ++ [act]) [r'] _ s' s2 pre1 act1 _ w2 El Ec Ek Hg).
Qed.

(** C36. [Append] refines appending to the abstract log: on success the log has grown by exactly the
    given record under the next sequence number, which is returned; on every error (closed log, failed
    write, failed rotation at any of its steps) the log and the counter are as before; it never panics. *)
Theorem Append_refines w (s : T) pre act record
  (I : wal_inv w s pre act) (Hr : record_ok record) (Hb : sequenceCounter w + 1 < 2 ^ 63) :
  let '((w', s'), x) := Append record (w, s) in
  match x with
  | Ok res => closed w = false /\ ResSequence res = sequenceCounter w + 1 /\
      grows w (pre ++ [act]) [with_sequence record (sequenceCounter w + 1)] w' s'
  | Err _ => grows w (pre ++ [act]) [] w' s'
  | Panic => False
  end.
Proof.
  pose proof (inv_counter _ _ _ _ I). unfold Append, checkOpen, mbind, M_bind, get, mret, M_ret. cbn [fst snd].
  destruct (closed w) eqn:Ek; [by apply grows_refl|].
  cbn [fst snd]. rewrite wraps_id by (unfold is_s; simpl; lia).
  pose proof (rotate_spec w s pre act (zlen (EncodeRecord (with_sequence record (sequenceCounter w + 1)))) I Hb) as R.
  destruct (rotateIfFullLocked _ _ _) as [[w1 s1] [[]|e|]]; destruct R as [Hp R]; [|done..].
  destruct R as (pre1 & act1 & I1 & El & Ec & Ek1). unfold zlen in Ec. cbn [length] in Ec.
  assert (Ec1 : sequenceCounter w1 = sequenceCounter w) by lia.
  pose proof (append_one w1 s1 pre1 act1 record I1 Hr ltac:(lia)) as L. cbv zeta in L. rewrite Ec1 in L.
  unfold io, modify. cbn [fst snd]. destruct (AppendToSegment _ _ s1) as [s2 [z|e|]]; cbn [lift_io fst snd]; [| |done].
  - split_and!; [done..|]. by eapply (grows_trans _ _ [] w1 s1 s2 pre1 act1).
  - by eapply (grows_trans _ _ [] w1 s1 s2 pre1 act1).
Qed.

(** [AppendBatch] refines appending a list: on success the whole batch is in the log under
    consecutive numbers and the last one is returned; on an error a strict prefix of the batch
    (possibly empty) is. *)
Theorem AppendBatch_refines w (s : T) pre act records
  (I : wal_inv w s pre act) (Hr : Forall record_ok records)
  (Hb : sequenceCounter w + zlen records < 2 ^ 63) :
  let '((w', s'), x) := AppendBatch records (w, s) in
  match x with
  | Ok res => closed w = false /\ ResSequence res = sequenceCounter w + zlen records /\
      grows w (pre ++ [act]) (stamp (sequenceCounter w) records) w' s'
  | Err _ => exists n, (n = 0 \/ n < length records)%nat /\
      grows w (pre ++ [act]) (take n (stamp (sequenceCounter w) records)) w' s'
  | Panic => False
  end.
Proof.
  pose proof (inv_counter _ _ _ _ I). unfold AppendBatch, checkOpen, mbind, M_bind, get, mret, M_ret. cbn [fst snd].
  destruct (closed w) eqn:Ek; [exists 0%nat; split; [by left|by apply grows_refl]|].
  destruct records as [|r0 rs0] eqn:Er.
  { split_and!; [done|unfold zlen; simpl; lia|by apply grows_refl]. }
  rewrite <- Er in *. assert (Hne : records <> []) by (subst; done). pose proof (zlen_nonneg records).
  assert (0 < zlen records) by (subst; rewrite zlen_cons; pose proof (zlen_nonneg rs0); lia).
  cbn [fst snd]. rewrite wraps_id by (unfold is_s; simpl; lia). rewrite encode_batch_stamp, Z.add_0_r by lia.
  match goal with |- context [rotateIfFullLocked ?t _ _] => pose proof (rotate_spec w s pre act t I ltac:(lia)) as R end.
  destruct (rotateIfFullLocked _ _ _) as [[w1 s1] [[]|e|]]; destruct R as [Hp R]; [|exists 0%nat; split; [by left|exact R]|done].
  destruct R as (pre1 & act1 & I1 & El & Ec & Ek1). unfold zlen in Ec. cbn [length] in Ec.
  assert (Ec1 : sequenceCounter w1 = sequenceCounter w) by lia.
  pose proof (append_encoded_spec records w1 s1 pre1 act1 (mkAppend 0 0 0) I1 Hr ltac:(lia)) as L. rewrite Ec1 in L.
  destruct (append_encoded _ _ _) as [[w2 s2] [res|e|]]; [| |done].
  - destruct L as [Hs Hg]. split_and!; [done|by apply Hs|]. by eapply (grows_trans _ _ [] w1 s1 s2 pre1 act1).
  - destruct L as (n & Hn & Hg). exists n. split; [by right|]. by eapply (grows_trans _ _ [] w1 s1 s2 pre1 act1).
Qed.

(** On a shim that does not fault, [Append] to an open log succeeds, and the log stays able to
    accept the next record. *)
Theorem Append_succeeds `{!ShimTotal T} w (s : T) pre act record
  (I : wal_inv w s pre act) (Hl : wal_live w s) (Ho : closed w = false)
  (Hb : sequenceCounter w + 1 < 2 ^ 63) :
  exists w' s' res, Append record (w, s) = ((w', s'), Ok res) /\ wal_live w' s'.
Proof.
  pose proof (inv_counter _ _ _ _ I). unfold Append, checkOpen, mbind, M_bind, get, mret, M_ret. cbn [fst snd].
  rewrite Ho. cbn [fst snd]. rewrite wraps_id by (unfold is_s; simpl; lia).
  set (b := EncodeRecord _).
  pose proof (rotate_spec w s pre act (zlen b) I Hb) as R.
  destruct (rotate_total w s pre act (zlen b) I Hl Hb) as (w1 & s1 & E & [La Lf]).
  rewrite E in R |- *. destruct R as (_ & pre1 & act1 & I1 & _ & Ec & _).
  assert (Ec1 : sequenceCounter w1 = sequenceCounter w) by (rewrite Ec; unfold zlen; simpl; lia).
  unfold io, modify. cbn [fst snd]. destruct (append_total _ b s1 La) as (s2 & z & E2).
  pose proof (append_law (segmentName w1) b s1) as L. rewrite E2 in L |- *. destruct L as [L _].
  cbn [lift_io fst snd]. eexists _, _, _. split; [reflexivity|].
  constructor; cbn; rewrite L; [done|]. intros k Hk. apply Lf. lia.
Qed.

End Preserve.
(** ** A small log on the in-memory shim *)

Section Example.
Import InMemory.

Definition sample_id : UUID := mkUUID 1 2.
Definition sample_pk : bytes := str "p".
Definition sample_name : bytes := ActiveSegmentName sample_pk sample_id.
Definition sample_seg : walSegment := mkSeg sample_name 1.
(** A log with no record, and the same log with one; segments are rotated at ten bytes. *)
Definition sample_log : DefaultWriteAheadLog :=
  mkWal sample_id sample_pk 10 false [sample_seg] sample_name 0 0 false.
Definition sample_store : InMemoryPlatformIO := (Append sample_name [] NewInMemoryPlatformIO).1.
Definition sample_record : WalRecord := with_sequence sample 1.
Definition sample_log1 : DefaultWriteAheadLog :=
  set_counter_size 1 (zlen (seg_bytes [] ++ EncodeRecord sample_record)) sample_log.
Definition sample_store1 : InMemoryPlatformIO := (Append sample_name (EncodeRecord sample_record) sample_store).1.

Lemma sample_ok : record_ok sample.
Proof. vm_compute. repeat split; discriminate || reflexivity. Qed.

Lemma sample_content k : content sample_store (RotatedSegmentName sample_pk sample_id k) = None.
Proof.
  unfold sample_store, Append. rewrite decide_False by set_solver.
  cbn [fst content in_memory_laws]. unfold set_segments. cbn [InMemory.segments].
  rewrite lookup_insert_ne; [done|]. apply Active_not_rotated.
Qed.

Lemma sample_inv : wal_inv sample_log sample_store [] (sample_seg, []).
Proof.
  constructor; cbn [sample_log segments segmentName segmentSize sequenceCounter partitionKey walID]; try done.
  - constructor; [reflexivity|constructor].
  - exists 1. by vm_compute.
  - apply NoDup_singleton.
  - split; [|done]. exists 1. split; [by left|]. simpl. lia.
  - intros k Hk. by rewrite sample_content.
Qed.

Lemma sample_live : wal_live sample_log sample_store.
Proof. by constructor. Qed.

Lemma sample_inv1 : wal_inv sample_log1 sample_store1 [] (sample_seg, [] ++ [sample_record]).
Proof.
  unfold sample_log1, sample_store1.
  apply (inv_append sample_log sample_store); [apply sample_inv| |done|done|].
  - apply with_sequence_wf; [apply sample_ok|lia].
  - intros m. unfold Append. rewrite decide_False by (vm_compute; set_solver). cbn [fst].
    cbn [content in_memory_laws]. unfold set_segments. cbn [InMemory.segments].
    unfold sample_seg. cbn [name]. case_decide; subst.
    + rewrite lookup_insert_eq. f_equal.
    + by rewrite lookup_insert_ne.
Qed.

Lemma Append_refines_witness :
  let '((w', s'), x) := Wal.Append sample (sample_log1, sample_store1) in
  match x with
  | Ok res => closed sample_log1 = false /\ ResSequence res = 2 /\
      grows sample_log1 ([] ++ [(sample_seg, [] ++ [sample_record])]) [with_sequence sample 2] w' s'
  | Err _ => grows sample_log1 ([] ++ [(sample_seg, [] ++ [sample_record])]) [] w' s'
  | Panic => False
  end.
Proof. apply (Append_refines sample_log1 sample_store1 _ _ sample sample_inv1 sample_ok). reflexivity. Defined.

Lemma AppendBatch_refines_witness :
  let '((w', s'), x) := AppendBatch [sample; sample] (sample_log, sample_store) in
  match x with
  | Ok res => closed sample_log = false /\ ResSequence res = 2 /\
      grows sample_log ([] ++ [(sample_seg, [])]) (stamp 0 [sample; sample]) w' s'
  | Err _ => exists n, (n = 0 \/ n < 2)%nat /\
      grows sample_log ([] ++ [(sample_seg, [])]) (take n (stamp 0 [sample; sample])) w' s'
  | Panic => False
  end.
Proof.
  apply (AppendBatch_refines sample_log sample_store _ _ [sample; sample] sample_inv).
  - repeat constructor; apply sample_ok.
  - reflexivity.
Defined.

Lemma Append_succeeds_witness :
  exists w' s' res, Wal.Append sample (sample_log, sample_store) = ((w', s'), Ok res) /\ wal_live w' s'.
Proof.
  apply (Append_succeeds sample_log sample_store _ _ sample sample_inv sample_live); reflexivity.
Defined.

End Example.
End WalCorrect.
