(* ===== verification/WalRecovery.v ===== *)
(** Recovery, reopening and truncation of the write-ahead log, against the
    invariant of [WalCorrect.v]. *)

From S2P Require Import Prelude Strconv Crc32 Primitives PlatformIO WalCodec Wal WalCorrect.
Import Strconv WalCodec Wal WalCorrect.

Module WalRecovery.

(** ** Decoding a segment of the log *)

Lemma survivors_encoded rs : survivors (map (fun r => (r, EncodeRecord r)) rs) = rs.
Proof.
  induction rs as [|r rs IH]; [done|]. cbn [map]. rewrite survivors_cons, intact_encode, IH. done.
Qed.

Lemma lost_encoded rs : lost (map (fun r => (r, EncodeRecord r)) rs) = 0.
Proof. induction rs as [|r rs IH]; [done|]. cbn [map]. by rewrite lost_cons, intact_encode. Qed.

Lemma frames_encoded rs : frames_bytes (map (fun r => (r, EncodeRecord r)) rs) = seg_bytes rs.
Proof. unfold frames_bytes, seg_bytes. rewrite map_map. done. Qed.

Lemma decode_segment pk sn skip rs r0 tail :
  Forall record_wf rs -> record_wf r0 -> torn r0 tail -> slice_ok (seg_bytes rs ++ tail) ->
  DecodeRecords (seg_bytes rs ++ tail) pk sn skip = Ok (mkResult rs 0).
Proof.
  intros Hw Hr0 Ht Hs. pose proof (DecodeRecords_frames pk sn skip (map (fun r => (r, EncodeRecord r)) rs) r0 tail) as D.
  rewrite frames_encoded, survivors_encoded, lost_encoded in D. apply D; try done.
  clear D Hs. induction Hw; constructor; [split; [done|by left]|done].
Qed.

Lemma torn_nil r : torn r [].
Proof. exists (EncodeRecord r). split; [done|].
  intros E. pose proof (EncodeRecord_nonempty r) as L. rewrite E in L. simpl in L. lia. Qed.

(** ** Replaying *)

Section Replay.
Context {A : Type} (handler : A -> WalRecord -> A * bool).

(** What replaying a log means: the handler runs on each record in order, up
    to the first one it rejects. *)
Fixpoint run (h : A) (rs : list WalRecord) : A * bool :=
  match rs with
  | [] => (h, true)
  | r :: rs => let '(h', ok) := handler h r in if ok then run h' rs else (h', false)
  end.

Lemma run_app h rs1 rs2 :
  run h (rs1 ++ rs2) = if (run h rs1).2 then run (run h rs1).1 rs2 else run h rs1.
Proof.
  revert h; induction rs1 as [|r rs1 IH]; intros h; simpl; [done|].
  destruct (handler h r) as [h' []]; [apply IH|done].
Qed.

(** The replay state after the records [rs] were all accepted. *)
Definition advance (p : replay) (rs : list WalRecord) : replay :=
  mkReplay (run (hstate p) rs).1 (replayed p + zlen rs) (skipped p)
    (foldl Z.max (maxSeq p) (map Sequence rs)) (activeSize p) (scanned p).

Lemma replay_records_run rs p :
  let '(p', ok) := replay_records handler rs p in
  ok = (run (hstate p) rs).2 /\ hstate p' = (run (hstate p) rs).1 /\ (ok = true -> p' = advance p rs).
Proof.
  revert p; induction rs as [|r rs IH]; intros p.
  - simpl. split_and!; [done..|]. intros _. unfold advance, zlen. simpl. rewrite Z.add_0_r. by destruct p.
  - cbn [replay_records run]. destruct (handler (hstate p) r) as [h' ok] eqn:Eh. destruct ok; [|done].
    specialize (IH (mkReplay h' (replayed p + 1) (skipped p)
      (if maxSeq p <? Sequence r then Sequence r else maxSeq p) (activeSize p) (scanned p))).
    destruct (replay_records handler rs _) as [p' ok]. destruct IH as (H1 & H2 & H3). split_and!; [done..|].
    intros Hok. rewrite (H3 Hok). unfold advance. cbn [hstate replayed skipped maxSeq activeSize scanned run map foldl].
    rewrite Eh, zlen_cons. f_equal; [lia|]. f_equal. destruct (Z.ltb_spec (maxSeq p) (Sequence r)); lia.
Qed.

Section Scan.
Context {T : Type} `{ShimTotal T} (w : DefaultWriteAheadLog) (s : T).

Definition sorted_seg (rs : list WalRecord) : Prop := exists a, map Sequence rs = seqZ a (zlen rs).

Lemma seqZ_sorted a n : StronglySorted (fun x y => (y <? x) = false) (seqZ a n).
Proof.
  destruct (Z_le_gt_dec 0 n) as [Hn|Hn]; [|rewrite seqZ_nil by lia; constructor].
  revert a. pattern n. apply natlike_ind; [constructor| |done]. intros m Hm IH a.
  rewrite seqZ_cons by lia. constructor; [rewrite Z.pred_succ; apply IH|].
  rewrite Z.pred_succ. apply Forall_seqZ. intros. lia.
Qed.

Lemma sort_segment rs : sorted_seg rs -> isort rec_ltb rs = rs.
Proof.
  intros (a & E). apply isort_id. pose proof (seqZ_sorted a (zlen rs)) as Hs. rewrite <- E in Hs.
  clear E. induction rs as [|r rs IH]; [constructor|]. simpl in Hs. apply StronglySorted_inv in Hs as [Hs Hf].
  constructor; [auto|]. unfold rec_ltb. rewrite Forall_map in Hf. exact Hf.
Qed.

(** A segment that holds [rs] and what a crash left of one more record. *)
Definition holds (seg : walSegment) (rs : list WalRecord) (tail : bytes) : Prop :=
  content s (name seg) = Some (seg_bytes rs ++ tail) /\ slice_ok (seg_bytes rs ++ tail) /\
  Forall record_wf rs /\ sorted_seg rs /\ exists r0, record_wf r0 /\ torn r0 tail.

Lemma scan_one last seg rs tail p :
  holds seg rs tail ->
  let '(p', r) := scan_segment handler w s last seg p in
  hstate p' = (run (hstate p) rs).1 /\
  if (run (hstate p) rs).2 then
    r = Ok tt /\
    p' = advance (mkReplay (hstate p) (replayed p) (skipped p) (maxSeq p)
           (if last then zlen (seg_bytes rs ++ tail) else activeSize p) (scanned p + 1)) rs
  else r = Err HandlerError.
Proof.
  intros (Hc & Hs & Hw & Ho & r0 & Hr0 & Ht). unfold scan_segment.
  rewrite (readSegment_total (name seg) _ s Hc Hs). cbn [lift_io].
  rewrite (decode_segment _ _ _ rs r0 tail) by done. cbn [lift_decode Records SkippedCorrupt hstate replayed skipped maxSeq activeSize scanned].
  rewrite sort_segment, Z.add_0_r by done.
  match goal with |- context [replay_records handler rs ?q] => pose proof (replay_records_run rs q) as R end.
  destruct (replay_records handler rs _) as [p' ok]. cbn [hstate] in R. destruct R as (-> & H2 & H3).
  split; [done|]. destruct (run (hstate p) rs).2; [|done]. split; [done|]. auto.
Qed.

Lemma advance_app p rs1 rs2 :
  (run (hstate p) rs1).2 = true ->
  advance (advance p rs1) rs2 = advance p (rs1 ++ rs2).
Proof.
  intros E. unfold advance. cbn [hstate replayed skipped maxSeq activeSize scanned].
  rewrite run_app, E, map_app, foldl_app, zlen_app, Z.add_assoc. done.
Qed.

(** The whole chain. *)
Lemma scan_chain pre act tail p :
  Forall (fun g => holds g.1 g.2 []) pre -> holds act.1 act.2 tail ->
  let rs := log (pre ++ [act]) in
  let '(p', r) := scan_segments handler w s (map fst (pre ++ [act])) p in
  hstate p' = (run (hstate p) rs).1 /\
  if (run (hstate p) rs).2 then
    r = Ok tt /\
    p' = advance (mkReplay (hstate p) (replayed p) (skipped p) (maxSeq p)
           (zlen (seg_bytes act.2 ++ tail)) (scanned p + zlen (pre ++ [act]))) rs
  else r = Err HandlerError.
Proof.
  intros Hpre Hact. revert p. induction Hpre as [|[seg rs] pre Hg Hpre IH]; intros p.
  - unfold log. cbn [app map concat]. rewrite app_nil_r. cbn [scan_segments].
    pose proof (scan_one true act.1 act.2 tail p Hact) as L.
    destruct (scan_segment _ _ _ _ _ _) as [p' r]. destruct L as [L1 L2].
    destruct (run (hstate p) act.2).2; [destruct L2 as [-> ->]|subst r]; done.
  - cbn [app map fst]. cbn [scan_segments]. unfold log. cbn [map concat snd].
    destruct (map fst (pre ++ [act])) as [|g0 gs0] eqn:E0; [by destruct pre|]. rewrite <- E0 in *.
    pose proof (scan_one false seg rs [] p Hg) as L. cbn [fst snd] in *.
    fold (log (pre ++ [act])). rewrite run_app.
    destruct (scan_segment _ _ _ _ _ _) as [p1 r1]. destruct L as [L1 L2].
    destruct (run (hstate p) rs).2 eqn:Er; [destruct L2 as [-> ->]|subst r1; rewrite Er; done].
    specialize (IH (advance (mkReplay (hstate p) (replayed p) (skipped p) (maxSeq p) (activeSize p) (scanned p + 1)) rs)).
    cbv zeta in IH. destruct (scan_segments _ _ _ _ _) as [p2 r2]. cbn [hstate advance] in IH.
    destruct IH as [I1 I2]. split; [done|]. destruct (run (run (hstate p) rs).1 _).2; [|done].
    destruct I2 as [-> ->]. split; [done|]. rewrite zlen_cons, <- advance_app by done.
    unfold advance. cbn [hstate replayed skipped maxSeq activeSize scanned]. f_equal. lia.
Qed.

(** The last sequence number of a log. *)
Definition last_sequence (rs : list WalRecord) : Z := foldl Z.max 0 (map Sequence rs).

Lemma Recover_chain h0 pre act tail :
  segments w = map fst (pre ++ [act]) ->
  Forall (fun g => holds g.1 g.2 []) pre -> holds act.1 act.2 tail ->
  let rs := log (pre ++ [act]) in
  Recover handler h0 (w, s) =
    ((run h0 rs).1,
     if (run h0 rs).2 then
       ((set_counter_size (Z.max (sequenceCounter w) (last_sequence rs)) (zlen (seg_bytes act.2 ++ tail)) w, s),
        Ok (mkSummary (zlen rs) 0 (last_sequence rs) (zlen (pre ++ [act]))))
     else ((w, s), Err HandlerError)).
Proof.
  intros Es Hpre Hact rs. unfold Recover. rewrite Es.
  pose proof (scan_chain pre act tail (mkReplay h0 0 0 0 0 0) Hpre Hact) as L. cbv zeta in L.
  destruct (scan_segments _ _ _ _ _) as [p r]. fold rs in L. destruct L as [L1 L2]. cbn [hstate] in *.
  rewrite L1. destruct (run h0 rs).2; [|by subst r]. destruct L2 as [-> ->].
  unfold advance. cbn [hstate replayed skipped maxSeq activeSize scanned]. rewrite !Z.add_0_l.
  fold (last_sequence rs). do 4 f_equal.
  destruct (Z.ltb_spec (sequenceCounter w) (last_sequence rs)); lia.
Qed.

End Scan.
End Replay.

(** ** The chain of a log in its invariant *)

Lemma fold_max_seqZ a n m : 0 < n -> m <= a -> foldl Z.max m (seqZ a n) = a + n - 1.
Proof.
  intros Hn. revert a m. pattern n. apply Z.lt_ind with 0; [..|done]; [solve_proper| |].
  - intros a m Hm. simpl. lia.
  - intros k Hk IH a m Hm. rewrite seqZ_cons, Z.pred_succ by lia. cbn [foldl]. rewrite IH by lia. lia.
Qed.

Lemma numbered_last h a gs c :
  numbered h a gs c -> 0 <= a -> last_sequence (log gs) = match log gs with [] => 0 | _ => c - 1 end.
Proof.
  intros Hn Ha. pose proof (numbered_log _ _ _ _ Hn) as E. pose proof (numbered_le _ _ _ _ Hn).
  unfold last_sequence. rewrite E. destruct (log gs) as [|r rs].
  - simpl in E. destruct (Z_le_gt_dec (c - a) 0); [by rewrite seqZ_nil by lia|].
    rewrite seqZ_cons in E by lia. discriminate.
  - destruct (Z_le_gt_dec (c - a) 0); [rewrite seqZ_nil in E by lia; discriminate|].
    rewrite fold_max_seqZ by lia. lia.
Qed.

Lemma numbered_sorted h a gs c g : numbered h a gs c -> g ∈ gs -> sorted_seg g.2.
Proof.
  revert h a; induction gs as [|[seg rs] gs IH]; intros h a; simpl; [set_solver|].
  intros (_ & Hs & Hn) Hin. apply elem_of_cons in Hin as [->|Hin]; [by exists a|eauto].
Qed.

Lemma log_in gs g r : g ∈ gs -> r ∈ g.2 -> r ∈ log gs.
Proof.
  unfold log. induction gs as [|g0 gs IH]; [set_solver|]. simpl. intros Hg Hr.
  apply elem_of_app. apply elem_of_cons in Hg as [->|Hg]; auto.
Qed.

(** Segments no larger than a slice can be. *)
Definition small (gs : chain) : Prop := Forall (fun g => slice_ok (seg_bytes g.2)) gs.

Section Recovery.
Context {T : Type} `{ShimTotal T} {A : Type} (handler : A -> WalRecord -> A * bool).

Lemma inv_start w (s : T) pre act start :
  wal_inv w s pre act -> numbered true start (pre ++ [act]) (sequenceCounter w + 1) -> 1 <= start.
Proof.
  intros I Hn. destruct (pre ++ [act]) as [|g gs] eqn:E; [by destruct pre|].
  destruct (inv_name _ _ _ _ g I ltac:(rewrite E; set_solver)) as (k & _ & Hk & _).
  destruct g. simpl in *. lia.
Qed.

Lemma inv_holds w (s : T) pre act :
  wal_inv w s pre act -> small (pre ++ [act]) ->
  Forall (fun g => holds s g.1 g.2 []) (pre ++ [act]).
Proof.
  intros I Hs. destruct (inv_numbered _ _ _ _ I) as (a & Hn). unfold small in Hs.
  pose proof (inv_content _ _ _ _ I) as Hc. pose proof (inv_records _ _ _ _ I) as Hr.
  rewrite Forall_forall in Hs. rewrite Forall_forall in Hc. rewrite Forall_forall in Hr.
  rewrite Forall_forall. intros g Hg. unfold holds. rewrite app_nil_r.
  split_and!; [by apply Hc|by apply Hs| |by eapply numbered_sorted|].
  - rewrite Forall_forall. intros r Hin. eapply Hr, log_in; done.
  - exists sample. split; [apply sample_wf|apply torn_nil].
Qed.

(** [Recover] on an open log replays exactly the abstract log, every record once and in sequence
    order, through the handler, stopping with its error if the handler rejects a record; it reports
    the number of records and of segments and no damage, and leaves the log as it was. *)
Theorem Recover_replays w (s : T) pre act h0
  (I : wal_inv w s pre act) (Hs : small (pre ++ [act])) :
  let rs := log (pre ++ [act]) in
  Recover handler h0 (w, s) =
    ((run handler h0 rs).1,
     ((w, s),
      if (run handler h0 rs).2 then
        Ok (mkSummary (zlen rs) 0 (match rs with [] => 0 | _ => sequenceCounter w end) (zlen (pre ++ [act])))
      else Err HandlerError)).
Proof.
  intros rs. pose proof (inv_holds _ _ _ _ I Hs) as Hh. apply Forall_app in Hh as [Hpre Hact].
  inversion_clear Hact as [|? ? Ha _].
  rewrite (Recover_chain handler w s h0 pre act [] (inv_segments _ _ _ _ I) Hpre Ha). fold rs.
  f_equal. destruct (run handler h0 rs).2; [|done]. destruct (inv_numbered _ _ _ _ I) as (a & Hn).
  pose proof (inv_start _ _ _ _ _ I Hn). pose proof (inv_counter _ _ _ _ I).
  pose proof (numbered_last _ _ _ _ Hn ltac:(lia)) as E. fold rs in E. rewrite app_nil_r, E.
  rewrite <- (inv_size _ _ _ _ I). unfold set_counter_size.
  assert (Hm : Z.max (sequenceCounter w) (match rs with [] => 0 | _ => sequenceCounter w + 1 - 1 end) = sequenceCounter w)
    by (destruct rs; lia).
  rewrite Hm. destruct w; simpl. do 3 f_equal. destruct rs; lia.
Qed.

End Recovery.

(** ** Finding the chain again *)

Lemma contains_mid a sub b : contains (a ++ sub ++ b) sub = true.
Proof.
  induction a as [|c a IH]; simpl.
  - pose proof (has_prefix_app sub b) as E. destruct (sub ++ b); cbn [contains]; by rewrite E.
  - rewrite IH. apply orb_true_r.
Qed.

Lemma base_name_app a f : x2f ∉ f -> base_name (a ++ x2f :: f) = f.
Proof.
  intros Hf. unfold base_name. rewrite rev_app_distr. cbn [rev]. rewrite <- app_assoc. cbn [app].
  assert (Hr : x2f ∉ rev f) by (rewrite list_elem_of_In, <- in_rev, <- list_elem_of_In; done).
  rewrite <- (rev_involutive f) at 2. f_equal. revert Hr. generalize (rev f) as r.
  induction r as [|c r IH]; intros Hr; simpl.
  - done.
  - rewrite bool_decide_false by set_solver. rewrite IH by set_solver. done.
Qed.

Lemma dec_digits_char n z : Forall uuid_char (dec_digits n z).
Proof.
  revert z; induction n as [|n IH]; intros z; simpl; [constructor|].
  apply Forall_app. split; [apply IH|]. constructor; [|constructor].
  pose proof (Z.mod_pos_bound z 10 ltac:(lia)). unfold uuid_char. rewrite digit_ok by lia. lia.
Qed.

Lemma uuid_char_not_slash l : Forall uuid_char l -> x2f ∉ l.
Proof.
  intros Hl Hin. rewrite Forall_forall in Hl. specialize (Hl _ Hin). revert Hl.
  unfold uuid_char. replace (b2z x2f) with 47 by reflexivity. lia.
Qed.

Lemma wal_path pk f : SegmentName.WAL pk f = (str "ns/" ++ pk ++ str "/wal") ++ x2f :: f.
Proof. unfold SegmentName.WAL, SegmentName.path. rewrite <- !app_assoc. done. Qed.

Lemma wal_path_contains pk f : contains (SegmentName.WAL pk f) (str "/wal/") = true.
Proof.
  replace (SegmentName.WAL pk f) with ((str "ns/" ++ pk) ++ str "/wal/" ++ f); [apply contains_mid|].
  unfold SegmentName.WAL, SegmentName.path. rewrite <- !app_assoc. done.
Qed.

Lemma wal_path_prefix pk f : has_prefix (SegmentName.WAL pk f) (SegmentName.NamespacePrefix pk) = true.
Proof.
  replace (SegmentName.WAL pk f) with (SegmentName.NamespacePrefix pk ++ str "wal/" ++ f); [apply has_prefix_app|].
  unfold SegmentName.WAL, SegmentName.path, SegmentName.NamespacePrefix. rewrite <- !app_assoc. done.
Qed.

Lemma parse_wal_path pk f id k :
  x2f ∉ f -> ParseWalFileName f = Some (id, k) ->
  parse_segment (SegmentName.WAL pk f) = Some (id, mkSeg (SegmentName.WAL pk f) k).
Proof.
  intros Hf Hp. unfold parse_segment. rewrite wal_path_contains. cbn [negb].
  rewrite wal_path at 1. by rewrite base_name_app, Hp.
Qed.

Lemma parse_active pk u :
  parse_segment (ActiveSegmentName pk u) = Some (UUIDString u, mkSeg (ActiveSegmentName pk u) 1).
Proof.
  apply parse_wal_path; [apply uuid_char_not_slash, UUIDString_char|].
  unfold ParseWalFileName. rewrite cut_none by apply UUIDString_no_dot.
  by rewrite bool_decide_false by apply UUIDString_nonempty.
Qed.

Lemma parse_rotated pk u k : 1 <= k < 2 ^ 63 ->
  parse_segment (RotatedSegmentName pk u k) = Some (UUIDString u, mkSeg (RotatedSegmentName pk u k) k).
Proof.
  intros Hk. apply parse_wal_path; [|by apply ParseWalFileName_number].
  intros Hin. apply elem_of_app in Hin as [Hin|Hin]; [by apply (uuid_char_not_slash _ (UUIDString_char u))|].
  apply elem_of_app in Hin as [Hin|Hin]; [vm_compute in Hin; set_solver|].
  unfold fmt020d in Hin. destruct (Z.ltb_spec k 0); [lia|].
  revert Hin. apply uuid_char_not_slash, dec_digits_char.
Qed.

Lemma parse_seg_name pk u k nm :
  seg_name pk u k nm -> k < 2 ^ 63 ->
  parse_segment nm = Some (UUIDString u, mkSeg nm k) /\ has_prefix nm (SegmentName.NamespacePrefix pk) = true.
Proof.
  intros [[-> ->]|[H1 ->]] Hk; split; try apply wal_path_prefix; [apply parse_active|apply parse_rotated; lia].
Qed.

(** A segment as a reopened log knows it: numbered by its name. *)
Definition renum (g : walSegment * list WalRecord) : walSegment * list WalRecord :=
  match parse_segment (name g.1) with Some (_, seg) => (seg, g.2) | None => g end.

Lemma renum_eq pk u k g :
  seg_name pk u k (name g.1) -> k < 2 ^ 63 -> renum g = (mkSeg (name g.1) k, g.2).
Proof. intros Hs Hk. unfold renum. by rewrite (proj1 (parse_seg_name _ _ _ _ Hs Hk)). Qed.

Lemma renum_log gs : log (map renum gs) = log gs.
Proof.
  unfold log. induction gs as [|g gs IH]; [done|]. simpl. rewrite IH. f_equal.
  unfold renum. by destruct (parse_segment _) as [[]|].
Qed.

Lemma renum_chain pk u h a gs c :
  all_named pk u h gs -> numbered h a gs c -> c <= 2 ^ 63 - 1 ->
  all_named pk u h (map renum gs) /\ numbered h a (map renum gs) c /\
  map (fun g => name g.1) (map renum gs) = map (fun g => name g.1) gs /\
  map snd (map renum gs) = map snd gs /\
  omap (fun n => snd <$> parse_segment n) (map (fun g => name g.1) gs) = map fst (map renum gs).
Proof.
  revert h a; induction gs as [|g gs IH]; intros h a; [done|].
  intros [(k & Hs & Hk) Hn] Hnum Hc. cbn [map omap list_omap].
  pose proof (numbered_first _ _ _ _ g Hnum ltac:(set_solver)) as Hf.
  assert (Hk2 : k < 2 ^ 63) by (destruct h; lia).
  rewrite (proj1 (parse_seg_name _ _ _ _ Hs Hk2)), (renum_eq _ _ _ _ Hs Hk2).
  destruct g as [seg rs]. simpl in *. destruct Hnum as (Hfs & Hrs & Hnum).
  destruct (IH _ _ Hn Hnum Hc) as (I1 & I2 & I3 & I4 & I5). rewrite I3, I4, I5.
  split_and!; try done.
  - exists k. split; [done|]. simpl. destruct h; lia.
  - destruct h; lia.
Qed.

Lemma numbered_ge a gs c g : numbered false a gs c -> g ∈ gs -> a <= firstSequence g.1.
Proof.
  revert a; induction gs as [|[seg rs] gs IH]; intros a; simpl; [set_solver|].
  intros (Hf & _ & Hn) Hin. pose proof (zlen_nonneg rs).
  apply elem_of_cons in Hin as [->|Hin]; simpl; [lia|]. specialize (IH _ Hn Hin). lia.
Qed.

Lemma numbered_increasing h a pre act c :
  numbered h a (pre ++ [act]) c -> Forall (fun g => g.2 <> []) pre ->
  StronglySorted (fun x y => firstSequence x < firstSequence y) (map fst (pre ++ [act])).
Proof.
  revert h a; induction pre as [|[seg rs] pre IH]; intros h a Hn Hf; [repeat constructor|].
  inversion_clear Hf as [|? ? Hne Hf']. simpl in *. destruct Hn as (Hs & _ & Hn).
  constructor; [by eapply IH|]. rewrite Forall_map, Forall_forall. intros g Hg.
  pose proof (numbered_ge _ _ _ _ Hn Hg). destruct rs; [done|]. rewrite zlen_cons in *.
  pose proof (zlen_nonneg rs). destruct h; lia.
Qed.

(** ** The newest log of a listing *)

Lemma fold_newest U (parsed : list (bytes * walSegment)) acc :
  Forall (fun p => bytes_leb p.1 U = true) parsed -> bytes_leb acc U = true ->
  (acc = U \/ exists p, p ∈ parsed /\ p.1 = U) ->
  foldl (fun newest p => if bytes_leb p.1 newest then newest else p.1) acc parsed = U.
Proof.
  intros Hf. revert acc. induction Hf as [|p parsed Hp Hf IH]; intros acc Ha Hu; simpl.
  - destruct Hu as [->|(p & Hp & _)]; [done|set_solver].
  - apply IH; [by destruct (bytes_leb p.1 acc)|].
    destruct (bytes_leb p.1 acc) eqn:E.
    + destruct Hu as [->|(q & Hq & Eq)]; [by left|]. apply elem_of_cons in Hq as [->|Hq]; [|eauto].
      left. apply bytes_leb_antisymm; [done|by subst].
    + destruct Hu as [->|(q & Hq & Eq)]; [by rewrite Hp in E|].
      apply elem_of_cons in Hq as [->|Hq]; [by left|eauto].
Qed.

(** The segments of a listing that belong to log [U]. *)
Definition of_log (U : bytes) (n : bytes) : option walSegment :=
  match parse_segment n with Some (id, seg) => if bool_decide (id = U) then Some seg else None | None => None end.

Lemma filter_omap U l :
  map snd (List.filter (fun p : bytes * walSegment => bool_decide (p.1 = U)) (omap parse_segment l)) = omap (of_log U) l.
Proof.
  unfold of_log. induction l as [|n l IH]; [done|]. cbn [omap list_omap].
  destruct (parse_segment n) as [[id seg]|]; [|apply IH]. cbn [List.filter fst].
  case_bool_decide; cbn [map snd]; by rewrite IH.
Qed.

Lemma omap_none {B C} (f : B -> option C) l : (forall x, x ∈ l -> f x = None) -> omap f l = [].
Proof.
  induction l as [|x l IH]; intros Hn; [done|]. cbn [omap list_omap].
  rewrite Hn by set_solver. apply IH. set_solver.
Qed.

Lemma renum_snd g : (renum g).2 = g.2.
Proof. unfold renum. by destruct (parse_segment _) as [[]|]. Qed.

Section Latest.
Context (pk : bytes) (u : UUID) (a c : Z) (pre : chain) (act : walSegment * list WalRecord) (l : list bytes).
Abbreviation gs := (pre ++ [act]).
Abbreviation names := (map (fun g => name g.1) gs).
Context (Hn : all_named pk u true gs) (Hnum : numbered true a gs c) (Hc : c <= 2 ^ 63 - 1).
Context (Hf : Forall (fun g => g.2 <> []) pre) (Hl : NoDup l) (Hd : NoDup names).
Context (Hin : forall n, n ∈ names -> n ∈ l).
(** No other log of the partition is newer, and the log has no other segment. *)
Context (Hall : forall n id seg, n ∈ l -> parse_segment n = Some (id, seg) ->
  bytes_leb id (UUIDString u) = true /\ (id = UUIDString u -> n ∈ names)).

Lemma chain_parse g : g ∈ gs -> exists k, parse_segment (name g.1) = Some (UUIDString u, mkSeg (name g.1) k).
Proof using Hn Hnum Hc.
  intros Hg. destruct (named_in _ _ _ _ _ Hn Hg) as (k & Hs & Hk).
  pose proof (numbered_first _ _ _ _ _ Hnum Hg). exists k.
  apply (parse_seg_name _ _ _ _ Hs). lia.
Qed.

Lemma chain_segments : omap (of_log (UUIDString u)) l ≡ₚ map fst (map renum gs).
Proof using All.
  destruct (renum_chain _ _ _ _ _ _ Hn Hnum Hc) as (_ & _ & _ & _ & R5). rewrite <- R5.
  destruct (submseteq_Permutation names l) as (k & Hk); [by apply NoDup_submseteq|].
  assert (Hdis : forall n, n ∈ names -> n ∉ k).
  { rewrite Hk in Hl. apply NoDup_app in Hl. tauto. }
  assert (Ek : omap (of_log (UUIDString u)) k = []).
  { apply omap_none. intros n Hnk. unfold of_log. destruct (parse_segment n) as [[id seg]|] eqn:E; [|done].
    case_bool_decide; [|done]. destruct (Hall n id seg) as [_ Hx]; [rewrite Hk; set_solver|done|].
    exfalso. eapply Hdis; [by apply Hx|done]. }
  rewrite Hk, omap_app, Ek, app_nil_r. apply reflexive_eq, list_omap_ext, Forall_Forall2_diag, Forall_forall.
  intros n Hnn. apply list_elem_of_fmap in Hnn as (g & -> & Hg).
  destruct (chain_parse g Hg) as (j & E). unfold of_log. rewrite E. by rewrite bool_decide_true.
Qed.

Lemma latestWalChain_spec : latestWalChain l = (map fst (map renum gs), UUIDString u).
Proof using All.
  unfold latestWalChain. rewrite (fold_newest (UUIDString u)).
  - f_equal. rewrite filter_omap. apply (isort_unique _ firstSequence); [done|apply chain_segments|].
    rewrite map_app. cbn [map]. destruct (renum_chain _ _ _ _ _ _ Hn Hnum Hc) as (_ & R2 & _).
    rewrite map_app in R2. eapply numbered_increasing; [exact R2|].
    rewrite Forall_map. eapply Forall_impl; [exact Hf|]. intros g Hg. simpl. by rewrite renum_snd.
  - rewrite Forall_forall. intros [id seg] Hp. apply list_elem_of_omap in Hp as (n & Hnl & E).
    by destruct (Hall n id seg Hnl E).
  - done.
  - right. destruct (chain_parse act ltac:(set_solver)) as (k & E).
    exists (UUIDString u, mkSeg (name act.1) k). split; [|done]. apply list_elem_of_omap.
    exists (name act.1). split; [|done]. apply Hin, list_elem_of_fmap. exists act. split; [done|set_solver].
Qed.
End Latest.

(** ** Reopening after a crash *)

Section Reopen.
Context {T : Type} `{ShimTotal T}.

(** [s'] is what a crash leaves of [s]: the active segment may end in part of
    a record that was being written. *)
Definition crash (w : DefaultWriteAheadLog) (act : walSegment * list WalRecord) (tail : bytes) (s s' : T) : Prop :=
  (exists r, record_wf r /\ torn r tail) /\ slice_ok (seg_bytes act.2 ++ tail) /\
  forall m, content s' m = if decide (m = segmentName w) then Some (seg_bytes act.2 ++ tail) else content s m.

(** No log of the partition has a greater id, and the log has no segment outside its chain. *)
Definition newest_log (w : DefaultWriteAheadLog) (gs : chain) (s : T) : Prop :=
  forall n id seg, is_Some (content s n) -> parse_segment n = Some (id, seg) ->
    bytes_leb id (UUIDString (walID w)) = true /\
    (id = UUIDString (walID w) -> n ∈ map (fun g => name g.1) gs).

Section Crashed.
Context (w : DefaultWriteAheadLog) (s s' : T) (pre : chain) (act : walSegment * list WalRecord) (tail : bytes).
Context (I : wal_inv w s pre act) (Hb : sequenceCounter w + 1 < 2 ^ 63) (Hs : small pre).
Context (Hcr : crash w act tail s s').

Lemma crash_active : content s' (name act.1) = Some (seg_bytes act.2 ++ tail).
Proof using All.
  pose proof Hcr as (_ & _ & Hc). rewrite Hc, decide_True; [done|].
  symmetry. apply (inv_active _ _ _ _ I).
Qed.

Lemma crash_sealed g : g ∈ pre -> content s' (name g.1) = Some (seg_bytes g.2).
Proof using All.
  intros Hg. pose proof Hcr as (_ & _ & Hc). rewrite Hc, (inv_active _ _ _ _ I), decide_False.
  - pose proof (inv_content _ _ _ _ I) as Hf. rewrite Forall_forall in Hf. apply Hf. set_solver.
  - intros E. pose proof (inv_nodup _ _ _ _ I) as Hd. rewrite map_app in Hd.
    apply NoDup_app in Hd as (_ & Hd & _). apply (Hd (name g.1)); [|rewrite E; by left].
    apply list_elem_of_fmap. eauto.
Qed.

Lemma renum_name g : g ∈ pre ++ [act] -> name (renum g).1 = name g.1.
Proof using All.
  intros Hg. destruct (inv_name _ _ _ _ _ I Hg) as (k & Hk & Hk1 & Hk2).
  rewrite (renum_eq _ _ _ _ Hk) by lia. done.
Qed.

Lemma crash_holds :
  Forall (fun g => holds s' g.1 g.2 []) (map renum pre) /\ holds s' (renum act).1 (renum act).2 tail.
Proof using All.
  destruct (inv_numbered _ _ _ _ I) as (a & Hn). pose proof (inv_records _ _ _ _ I) as Hr.
  assert (Hrec : forall g, g ∈ pre ++ [act] -> Forall record_wf g.2).
  { intros g Hg. rewrite Forall_forall in Hr |- *. intros r Hin. eapply Hr, log_in; done. }
  assert (Hsrt : forall g, g ∈ pre ++ [act] -> sorted_seg g.2) by (intros; by eapply numbered_sorted).
  pose proof Hcr as ((r0 & Hr0 & Ht) & Hsz & _). unfold holds. split.
  - rewrite Forall_map, Forall_forall. intros g Hg. assert (Hg' : g ∈ pre ++ [act]) by set_solver.
    rewrite renum_name, renum_snd, app_nil_r by done. pose proof Hs as Hs'. unfold small in Hs'. rewrite Forall_forall in Hs'.
    split_and!; auto using crash_sealed. exists sample. split; [apply sample_wf|apply torn_nil].
  - assert (Hg' : act ∈ pre ++ [act]) by set_solver. rewrite renum_name, renum_snd by done.
    split_and!; eauto using crash_active.
Qed.

Lemma crash_listed l :
  newest_log w (pre ++ [act]) s' -> ListSegments (partitionKey w) s' = Ok l ->
  latestWalChain l = (map fst (map renum (pre ++ [act])), UUIDString (walID w)).
Proof using All.
  intros Hnew Hl. pose proof (list_law (partitionKey w) s') as L. rewrite Hl in L. destruct L as [Hd Hin].
  destruct (inv_numbered _ _ _ _ I) as (a & Hn).
  eapply latestWalChain_spec; try done; [apply (inv_named _ _ _ _ I)|lia|apply (inv_full _ _ _ _ I)|apply (inv_nodup _ _ _ _ I)|..].
  - intros n Hnn. apply list_elem_of_fmap in Hnn as (g & -> & Hg). apply Hin.
    destruct (inv_name _ _ _ _ _ I Hg) as (k & Hk & Hk1 & Hk2).
    split; [|apply (parse_seg_name _ _ _ _ Hk); lia].
    apply elem_of_app in Hg as [Hg|Hg]; [rewrite crash_sealed by done; by eexists|].
    apply list_elem_of_singleton in Hg as ->. rewrite crash_active. by eexists.
  - intros n id seg Hnl Hp. apply Hin in Hnl as [Hx _]. by eapply Hnew.
Qed.

(** The log's fields as they are after reopening and recovering. *)
Definition reopened (maxSeg : Z) (skip : bool) : DefaultWriteAheadLog :=
  mkWal (walID w) (partitionKey w) maxSeg skip (map fst (map renum (pre ++ [act]))) (segmentName w)
    (sequenceCounter w) (zlen (seg_bytes act.2 ++ tail)) false.

Lemma reopened_inv maxSeg skip :
  tail = [] -> wal_inv (reopened maxSeg skip) s' (map renum pre) (renum act).
Proof using All.
  intros Et. destruct (inv_numbered _ _ _ _ I) as (a & Hn).
  destruct (renum_chain _ _ _ _ _ _ (inv_named _ _ _ _ I) Hn ltac:(lia)) as (R1 & R2 & R3 & R4 & R5).
  destruct crash_holds as [Hh1 Hh2].
  rewrite map_app in R1, R2, R3. cbn [map] in R1, R2, R3.
  constructor; unfold reopened; cbn [segments segmentName segmentSize sequenceCounter partitionKey walID]; try done.
  - by rewrite map_app.
  - rewrite renum_name by set_solver. apply (inv_active _ _ _ _ I).
  - rewrite renum_snd, Et, app_nil_r. done.
  - apply Forall_app. split; [|constructor; [|constructor]].
    + eapply Forall_impl; [exact Hh1|]. intros g (Hc & _). by rewrite app_nil_r in Hc.
    + destruct Hh2 as (Hc & _). by rewrite Et, app_nil_r in Hc.
  - pose proof (renum_log (pre ++ [act])) as El. rewrite map_app in El. cbn [map] in El. rewrite El.
    apply (inv_records _ _ _ _ I).
  - by exists a.
  - rewrite R3. apply (inv_nodup _ _ _ _ I).
  - rewrite Forall_map. eapply Forall_impl; [apply (inv_full _ _ _ _ I)|]. intros g. simpl. by rewrite renum_snd.
  - intros k Hk. pose proof (inv_fresh _ _ _ _ I k Hk) as E. pose proof Hcr as (_ & _ & Hc). rewrite Hc.
    case_decide as Ed; [|done]. simpl. rewrite Et, app_nil_r, Ed, (inv_active _ _ _ _ I) in *.
    pose proof (inv_content _ _ _ _ I) as Hf. rewrite Forall_forall in Hf.
    specialize (Hf act ltac:(set_solver)). simpl in Hf. by rewrite Hf in E.
  - apply (inv_counter _ _ _ _ I).
Qed.

End Crashed.

(** C6. A log that has a record, the greatest id of its partition and no stray segments crashes; part of a record
    may be left at the end of its active segment.  Reopening the partition finds the same log with
    its chain of segments, and recovering it then replays exactly the records of the log in order
    and restores the sequence counter.  When nothing was torn, the log is again in its invariant
    with the same records, so that it goes on from there.  (After a torn tail it does not: what is
    appended behind the tail is lost, [append_after_torn_tail_is_lost].) *)
Theorem reopen_recovers {A} (handler : A -> WalRecord -> A * bool) (h0 : A)
  (w : DefaultWriteAheadLog) (s s' : T) (pre : chain) (act : walSegment * list WalRecord) (tail : bytes)
  (factoryMax configMax : Z) (factorySkip configSkip : bool) (fresh : UUID)
  (I : wal_inv w s pre act) (Hb : sequenceCounter w + 1 < 2 ^ 63) (Hu : uuid_wf (walID w))
  (Hne : log (pre ++ [act]) <> []) (Hs : small pre) (Hcr : crash w act tail s s')
  (Hnew : newest_log w (pre ++ [act]) s') :
  exists w' w'',
    OpenOrCreate factoryMax configMax factorySkip configSkip (partitionKey w) fresh s' = (s', Ok w') /\
    Recover handler h0 (w', s') =
      ((run handler h0 (log (pre ++ [act]))).1,
       if (run handler h0 (log (pre ++ [act]))).2 then
         ((w'', s'), Ok (mkSummary (zlen (log (pre ++ [act]))) 0 (sequenceCounter w) (zlen (pre ++ [act]))))
       else ((w', s'), Err HandlerError)) /\
    walID w'' = walID w /\ sequenceCounter w'' = sequenceCounter w /\
    (tail = [] -> exists pre' act', wal_inv w'' s' pre' act' /\ log (pre' ++ [act']) = log (pre ++ [act])).
Proof.
  destruct (list_total (partitionKey w) s') as (l & Hl).
  pose proof (crash_listed _ _ _ _ _ _ I Hb Hs Hcr l Hnew Hl) as Hlat.
  destruct (crash_holds _ _ _ _ _ _ I Hb Hs Hcr) as [Hh1 Hh2].
  set (maxSeg := if (if factoryMax <=? 0 then configMax else factoryMax) <=? 0 then defaultMaxSegmentBytes
    else if factoryMax <=? 0 then configMax else factoryMax). set (skip := factorySkip || configSkip).
  set (size := zlen (seg_bytes act.2 ++ tail)).
  exists (mkWal (walID w) (partitionKey w) maxSeg skip (map fst (map renum (pre ++ [act]))) (segmentName w) 0 size false).
  exists (reopened w pre act tail maxSeg skip).
  assert (Hnm : name (renum act).1 = segmentName w).
  { rewrite (renum_name _ _ _ _ _ _ I Hb Hs Hcr) by set_solver. symmetry. apply (inv_active _ _ _ _ I). }
  split_and!; [| |done..|].
  - unfold OpenOrCreate. rewrite Hl. cbn [lift_io]. rewrite Hlat, !map_app. cbn [map]. rewrite last_snoc.
    rewrite (UUID_text _ Hu), Hnm. destruct Hh2 as (Hc & Hsz & _). rewrite Hnm, renum_snd in Hc. rewrite renum_snd in Hsz.
    rewrite (segmentSizeOf_total _ _ s' Hc Hsz). cbn [lift_io]. done.
  - pose proof (Recover_chain handler (mkWal (walID w) (partitionKey w) maxSeg skip (map fst (map renum (pre ++ [act])))
      (segmentName w) 0 size false) s' h0 (map renum pre) (renum act) tail) as R. cbv zeta in R.
    replace (map renum pre ++ [renum act]) with (map renum (pre ++ [act])) in R by (by rewrite map_app).
    rewrite R by done. rewrite renum_log. destruct (inv_numbered _ _ _ _ I) as (a & Hn).
    pose proof (inv_start _ _ _ _ _ I Hn). pose proof (inv_counter _ _ _ _ I).
    assert (Elast : last_sequence (log (pre ++ [act])) = sequenceCounter w).
    { rewrite (numbered_last _ _ _ _ Hn ltac:(lia)). destruct (log (pre ++ [act])); [done|lia]. }
    assert (Ez : zlen (map renum (pre ++ [act])) = zlen (pre ++ [act])) by (unfold zlen; by rewrite length_map).
    rewrite Ez, Elast, renum_snd. unfold reopened, set_counter_size, size.
    cbn [walID partitionKey walMaxSegmentBytes skipCorrupt segments segmentName closed sequenceCounter].
    rewrite Z.max_r by lia. done.
  - intros Et. exists (map renum pre), (renum act). split; [by apply (reopened_inv w s)|].
    rewrite <- (renum_log (pre ++ [act])), map_app. done.
Qed.

(** ** A new partition *)

(** Opening a partition that has no write-ahead log creates an empty one in its invariant, able to
    accept appends. *)
Theorem OpenOrCreate_creates (s : T) (pk : bytes) (fresh : UUID)
  (factoryMax configMax : Z) (factorySkip configSkip : bool)
  (Hnone : forall n, is_Some (content s n) -> has_prefix n (SegmentName.NamespacePrefix pk) = true -> parse_segment n = None)
  (Hseal : forall n, content s n = None -> sealed s n = false) :
  exists s' w act, OpenOrCreate factoryMax configMax factorySkip configSkip pk fresh s = (s', Ok w) /\
    wal_inv w s' [] act /\ wal_live w s' /\ log [act] = [] /\ closed w = false.
Proof.
  destruct (list_total pk s) as (l & Hl). pose proof (list_law pk s) as L. rewrite Hl in L. destruct L as [_ Hin].
  set (nm := ActiveSegmentName pk fresh).
  assert (Habs : forall f id seg, parse_segment (SegmentName.WAL pk f) = Some (id, seg) -> content s (SegmentName.WAL pk f) = None).
  { intros f id seg Hp. destruct (content s _) eqn:E; [|done].
    rewrite Hnone in Hp; [done|by eexists|apply wal_path_prefix]. }
  assert (Hnm : content s nm = None) by (eapply Habs, parse_active).
  assert (Hom : omap parse_segment l = []).
  { apply omap_none. intros n Hn. apply Hin in Hn as [? ?]. auto. }
  unfold OpenOrCreate. rewrite Hl. cbn [lift_io]. unfold latestWalChain. rewrite Hom. simpl. fold nm.
  destruct (append_total nm [] s (Hseal _ Hnm)) as (s' & z & E). pose proof (append_law nm [] s) as L.
  rewrite E in L |- *. destruct L as (Hsl & _ & Hc). rewrite Hnm in Hc. cbn [lift_io].
  assert (Hrot : forall k, 0 < k < 2 ^ 63 -> content s (RotatedSegmentName pk fresh k) = None).
  { intros k Hk. eapply Habs, parse_rotated. lia. }
  eexists _, _, (mkSeg nm 1, []). split; [reflexivity|]. split_and!; [|constructor; cbn|done..].
  - constructor; cbn [segments segmentName segmentSize sequenceCounter partitionKey walID app map fst snd name]; try done.
    + constructor; [|constructor]. simpl. by rewrite Hc, decide_True.
    + exists 1. simpl. unfold zlen. simpl. split_and!; [lia|done|lia].
    + apply NoDup_singleton.
    + split; [|done]. exists 1. split; [by left|]. simpl. lia.
    + intros k Hk. rewrite Hc, decide_False, Hrot by (lia || apply not_eq_sym, Active_not_rotated). done.
  - rewrite Hsl. by apply Hseal.
  - intros k Hk. rewrite Hsl. apply Hseal, Hrot. lia.
Qed.

End Reopen.
(** ** The sample log of [WalCorrect.v] *)

Section Example.
Import InMemory.

Definition count (n : Z) (_ : WalRecord) : Z * bool := (n + 1, true).
Definition sample_act : walSegment * list WalRecord := (sample_seg, [sample_record]).
Definition sample_tail : bytes := take 5 (EncodeRecord (with_sequence sample 2)).
Definition sample_crashed : InMemoryPlatformIO := (Append sample_name sample_tail sample_store1).1.

Lemma store1_content n :
  content sample_store1 n = if decide (n = sample_name) then Some (seg_bytes [sample_record]) else None.
Proof.
  unfold sample_store1, sample_store, Append. do 2 rewrite decide_False by (vm_compute; set_solver).
  cbn [fst content in_memory_laws]. unfold set_segments. cbn [InMemory.segments].
  rewrite insert_insert_eq. case_decide; subst; [by rewrite lookup_insert_eq|by rewrite lookup_insert_ne].
Qed.

Lemma sample_small : slice_ok (seg_bytes [sample_record]).
Proof. by vm_compute. Qed.

Lemma sample_crash : crash sample_log1 sample_act sample_tail sample_store1 sample_crashed.
Proof.
  split_and!.
  - exists (with_sequence sample 2). split; [apply with_sequence_wf; [apply sample_ok|lia]|].
    exists (drop 5 (EncodeRecord (with_sequence sample 2))). split; [by rewrite <- (take_drop 5) at 1|by vm_compute].
  - by vm_compute.
  - intros m. unfold sample_crashed, Append. rewrite decide_False by (vm_compute; set_solver).
    cbn [fst content in_memory_laws]. unfold set_segments. cbn [InMemory.segments].
    change (segmentName sample_log1) with sample_name. case_decide; subst.
    + rewrite lookup_insert_eq. pose proof (store1_content sample_name) as E. rewrite decide_True in E by done.
      cbn [content in_memory_laws] in E. rewrite E. done.
    + by rewrite lookup_insert_ne.
Qed.

Lemma sample_newest : newest_log sample_log1 [sample_act] sample_crashed.
Proof.
  intros n id seg [c Hc] Hp. destruct sample_crash as (_ & _ & E). rewrite E, store1_content in Hc.
  assert (n = sample_name) as ->.
  { change (segmentName sample_log1) with sample_name in Hc. by repeat case_decide. }
  unfold sample_name in *. rewrite parse_active in Hp. injection Hp as <- _.
  split; [apply bytes_leb_refl|]. intros _. by left.
Qed.

Lemma Recover_replays_witness :
  Recover count 0 (sample_log1, sample_store1) =
    (1, ((sample_log1, sample_store1), Ok (mkSummary 1 0 1 1))).
Proof.
  apply (Recover_replays count sample_log1 sample_store1 [] (sample_seg, [] ++ [sample_record]) 0 sample_inv1).
  constructor; [apply sample_small|constructor].
Defined.

Lemma reopen_recovers_witness :
  exists w' w'',
    OpenOrCreate 0 0 false false sample_pk (mkUUID 7 7) sample_crashed = (sample_crashed, Ok w') /\
    Recover count 0 (w', sample_crashed) = (1, ((w'', sample_crashed), Ok (mkSummary 1 0 1 1))) /\
    walID w'' = sample_id /\ sequenceCounter w'' = 1 /\
    (sample_tail = [] -> exists pre' act', wal_inv w'' sample_crashed pre' act' /\
       log (pre' ++ [act']) = [sample_record]).
Proof.
  apply (reopen_recovers count 0 sample_log1 sample_store1 sample_crashed [] sample_act sample_tail 0 0 false false
    (mkUUID 7 7) sample_inv1).
  - reflexivity.
  - split; unfold is_s; simpl; lia.
  - discriminate.
  - constructor.
  - exact sample_crash.
  - exact sample_newest.
Defined.

Lemma OpenOrCreate_creates_witness :
  exists s' w act, OpenOrCreate 0 0 false false sample_pk sample_id NewInMemoryPlatformIO = (s', Ok w) /\
    wal_inv w s' [] act /\ wal_live w s' /\ log [act] = [] /\ closed w = false.
Proof.
  apply (OpenOrCreate_creates NewInMemoryPlatformIO sample_pk sample_id 0 0 false false).
  - intros n [c Hc]. discriminate Hc.
  - intros n _. reflexivity.
Defined.

End Example.
End WalRecovery.
