(* ===== verification/WalTruncate.v ===== *)
(** Truncation of the write-ahead log, and two consequences of how recovery
    and truncation treat the end of the log. *)

From S2P Require Import Prelude Strconv Crc32 Primitives PlatformIO WalCodec Wal WalCorrect WalRecovery.
Import Strconv WalCodec Wal WalCorrect WalRecovery.

Module WalTruncate.

Section Truncate.
Context {T : Type} `{ShimTotal T}.

Definition deleted (ns : list bytes) (s s' : T) : Prop :=
  forall m, content s' m = if decide (m ∈ ns) then None else content s m.

Lemma deleted_nil s : deleted [] s s.
Proof. intros m. by rewrite decide_False by set_solver. Qed.

Lemma deleted_cons n ns s1 s2 s3 : deleted [n] s1 s2 -> deleted ns s2 s3 -> deleted (n :: ns) s1 s3.
Proof.
  intros H12 H23 m. rewrite H23, H12. repeat case_decide; set_solver.
Qed.

Lemma delete_total_deleted n s :
  exists s', DeleteSegment n s = (s', Ok tt) /\ deleted [n] s s'.
Proof.
  destruct (delete_total n s) as (s' & E). exists s'. split; [done|].
  pose proof (delete_law n s) as L. rewrite E in L. destruct L as (_ & _ & Hc).
  intros m. rewrite Hc. repeat case_decide; set_solver.
Qed.

Lemma truncate_sealed_cons cut seg next rest kept :
  truncate_sealed cut (seg :: next :: rest) kept =
  if wraps 64 (firstSequence next - 1) <=? cut then
    mbind (fun _ => truncate_sealed cut (next :: rest) kept) (io (DeleteSegment (name seg)))
  else truncate_sealed cut (next :: rest) (kept ++ [seg]).
Proof. reflexivity. Qed.

(** Nothing is deleted when the cut is before the chain. *)
Lemma truncate_sealed_none cut w (s : T) h a pre act c kept :
  numbered h a (pre ++ [act]) c -> Forall (fun g => g.2 <> []) pre -> 0 <= a -> c < 2 ^ 63 -> cut < a ->
  truncate_sealed cut (map fst (pre ++ [act])) kept (w, s) = ((w, s), Ok (kept ++ map fst pre)).
Proof.
  intros Hn Hf. revert h a kept Hn. induction Hf as [|[seg rs] pre Hne Hf IH]; intros h a kept Hn Ha Hc Hcut.
  - simpl. unfold mret, M_ret. by rewrite app_nil_r.
  - cbn [app map fst] in *. destruct Hn as (_ & _ & Hn). simpl in Hne.
    assert (Hz : 0 < zlen rs) by (destruct rs; [done|]; rewrite zlen_cons; pose proof (zlen_nonneg rs); lia).
    pose proof (numbered_le _ _ _ _ Hn). destruct (pre ++ [act]) as [|[seg2 rs2] gs] eqn:E; [by destruct pre|].
    assert (Hs2 : firstSequence seg2 = a + zlen rs) by apply Hn.
    cbn [map fst]. rewrite truncate_sealed_cons, Hs2, wraps_id by (unfold is_s; simpl; lia).
    destruct (Z.leb_spec (a + zlen rs - 1) cut); [lia|].
    specialize (IH false (a + zlen rs) (kept ++ [seg]) Hn ltac:(lia) Hc ltac:(lia)).
    cbn [map fst] in IH. rewrite IH. by rewrite <- app_assoc.
Qed.

(** The sealed segments deleted are a prefix of the chain, all of whose records are covered by the cut. *)
Lemma truncate_sealed_spec cut w (s : T) h a pre act c kept :
  numbered h a (pre ++ [act]) c -> Forall (fun g => g.2 <> []) pre -> 0 <= a -> c < 2 ^ 63 ->
  exists dropped rest b s', pre = dropped ++ rest /\
    truncate_sealed cut (map fst (pre ++ [act])) kept (w, s) = ((w, s'), Ok (kept ++ map fst rest)) /\
    deleted (map (fun g => name g.1) dropped) s s' /\
    numbered h a dropped b /\ numbered (still_head h dropped) b (rest ++ [act]) c /\ (dropped <> [] -> b <= cut + 1) /\
    (rest <> [] -> exists g gs, rest ++ [act] = g :: gs /\ forall g', g' ∈ gs -> cut + 1 < firstSequence g'.1).
Proof.
  intros Hn Hf. revert h a s Hn. induction Hf as [|[seg rs] pre Hne Hf IH]; intros h a s Hn Ha Hc.
  - exists [], [], a, s. simpl. unfold mret, M_ret. rewrite app_nil_r. by split_and!.
  - pose proof Hn as Hn0. cbn [app map fst] in Hn |- *. destruct Hn as (H1' & H2' & Hn). simpl in Hne.
    assert (Hz : 0 < zlen rs) by (destruct rs; [done|]; rewrite zlen_cons; pose proof (zlen_nonneg rs); lia).
    pose proof (numbered_le _ _ _ _ Hn).
    destruct (pre ++ [act]) as [|[seg2 rs2] gs] eqn:E; [by destruct pre|].
    assert (Hs2 : firstSequence seg2 = a + zlen rs) by apply Hn.
    cbn [map fst]. rewrite truncate_sealed_cons, Hs2, wraps_id by (unfold is_s; simpl; lia).
    destruct (Z.leb_spec (a + zlen rs - 1) cut).
    + destruct (delete_total_deleted (name seg) s) as (s1 & E1 & D1).
      destruct (IH false (a + zlen rs) s1 Hn ltac:(lia) Hc) as (dr & rest & b & s2 & Ep & Et & Hd & Hn1 & Hn2 & Hb & Hr).
      exists ((seg, rs) :: dr), rest, b, s2. cbn [map fst] in Et.
      unfold mbind, M_bind, io. cbn [fst snd]. rewrite E1. cbn [lift_io]. rewrite Et. subst pre.
      split_and!; try done; [by eapply deleted_cons|by destruct dr|].
      intros _. destruct dr; [|by apply Hb]. simpl in Hn1. lia.
    + pose proof (truncate_sealed_none cut w s false (a + zlen rs) pre act c (kept ++ [seg])) as L.
      rewrite E in L. specialize (L Hn Hf ltac:(lia) Hc ltac:(lia)). cbn [map fst] in L.
      exists [], ((seg, rs) :: pre), a, s. rewrite L, <- app_assoc. split_and!; try done.
      intros _. exists (seg, rs), (pre ++ [act]). split; [done|]. rewrite E. intros g Hg.
      pose proof (numbered_ge _ _ _ _ Hn Hg). lia.
Qed.

Lemma record_after_first h a gs c g r : numbered h a gs c -> g ∈ gs -> r ∈ g.2 -> firstSequence g.1 <= Sequence r.
Proof.
  revert h a. induction gs as [|[seg rs] gs IH]; intros h a Hn Hg Hr; [by apply not_elem_of_nil in Hg|]. destruct Hn as (Hf & Hs & Hn). apply elem_of_cons in Hg as [->|Hg]; [|by eapply IH].
  cbn [fst snd] in *. apply (list_elem_of_fmap_2 Sequence) in Hr. change (Sequence <$> rs) with (map Sequence rs) in Hr. rewrite Hs in Hr. apply elem_of_seqZ in Hr. destruct h; lia.
Qed.

(** The last record of a segment precedes the next segment. *)
Lemma numbered_next h a g g2 gs c cut : numbered h a (g :: g2 :: gs) c -> g.2 <> [] -> cut + 1 < firstSequence g2.1 -> exists r, r ∈ g.2 /\ cut < Sequence r.
Proof.
  destruct g as [seg rs], g2 as [seg2 rs2]. cbn [fst snd]. intros (_ & Hs & Hf & _) Hne Hc. destruct (exists_last Hne) as (l & r & ->). exists r. split; [apply elem_of_app; right; by left|].
  rewrite map_app in Hs. cbn [map] in Hs. apply (f_equal last) in Hs. rewrite last_snoc in Hs. unfold zlen in *. rewrite length_app in *. cbn [length] in *. replace (Z.of_nat (length l + 1)) with (Z.of_nat (length l) + 1) in * by lia. rewrite seqZ_app, last_app in Hs by lia. cbn in Hs. injection Hs as Hs. lia.
Qed.

(** What a cut leaves of the records that it covers: those of one sealed segment that holds a
    record past the cut too. *)
Definition only_straddling (cut : Z) (pre : chain) (act : walSegment * list WalRecord) : Prop :=
  forall r, r ∈ log (pre ++ [act]) -> Sequence r <= cut -> exists g gs, pre = g :: gs /\ r ∈ g.2 /\ exists r', r' ∈ g.2 /\ cut < Sequence r'.

Lemma elem_of_log r gs : r ∈ log gs <-> exists g, g ∈ gs /\ r ∈ g.2.
Proof. unfold log. rewrite list_elem_of_In, in_concat. setoid_rewrite in_map_iff. setoid_rewrite <- list_elem_of_In. split; [intros (x & (g & <- & Hg) & Hr); eauto|intros (g & Hg & Hr); eauto]. Qed.

Lemma rest_straddles cut h b rest act c : numbered h b (rest ++ [act]) c -> Forall (fun g => g.2 <> []) rest -> cut < firstSequence act.1 ->
  (rest <> [] -> exists g gs, rest ++ [act] = g :: gs /\ forall g', g' ∈ gs -> cut + 1 < firstSequence g'.1) -> only_straddling cut rest act.
Proof.
  intros Hn Hf Ha Hr r (g' & Hg' & Hin)%elem_of_log Hle. pose proof (record_after_first _ _ _ _ _ _ Hn Hg' Hin) as Hfs. destruct rest as [|g0 rest]; [apply list_elem_of_singleton in Hg' as ->; lia|].
  destruct Hr as (g & gs & Eg & Hall); [done|]. cbn [app] in *. injection Eg as <- <-. exists g0, rest. split; [done|]. inversion_clear Hf. apply elem_of_cons in Hg' as [->|Hg']; [|specialize (Hall g' Hg'); lia]. split; [done|].
  destruct (rest ++ [act]) as [|g2 gs] eqn:E; [by destruct rest|]. eapply (numbered_next h b g0 g2 gs c); [exact Hn|done|]. apply Hall. by left.
Qed.

(** The log's fields after truncation. *)
Definition set_chain (segs : list walSegment) (size : Z) (w : DefaultWriteAheadLog) : DefaultWriteAheadLog :=
  mkWal (walID w) (partitionKey w) (walMaxSegmentBytes w) (skipCorrupt w) segs (segmentName w)
    (sequenceCounter w) size (closed w).

Lemma numbered_head h a gs c : numbered h a gs c -> numbered true a gs c.
Proof. destruct gs as [|[seg rs] gs], h; simpl; try done. intros (-> & ? & ?). split_and!; [lia|done..]. Qed.

Lemma all_named_head pk u h gs : all_named pk u h gs -> all_named pk u true gs.
Proof.
  destruct gs as [|g gs], h; simpl; try done. intros [(k & Hs & ->) ?]. split; [|done].
  eexists. split; [done|lia].
Qed.

Lemma log_app g1 g2 : log (g1 ++ g2) = log g1 ++ log g2.
Proof. unfold log. by rewrite map_app, concat_app. Qed.

Lemma inv_drop w (s s' : T) dropped rest act a b h :
  wal_inv w s (dropped ++ rest) act -> deleted (map (fun g => name g.1) dropped) s s' ->
  numbered true a dropped b -> numbered h b (rest ++ [act]) (sequenceCounter w + 1) ->
  wal_inv (set_chain (map fst (rest ++ [act])) (segmentSize w) w) s' rest act.
Proof.
  intros [Is Ia Iz Ic Ir _ Id Im Iu If Ik] Hd Hn1 Hn2. rewrite <- app_assoc in *.
  rewrite map_app in Id. apply NoDup_app in Id as (_ & Hdis & Id).
  apply Forall_app in Ic as [Ic1 Ic2]. rewrite log_app in Ir. apply Forall_app in Ir as [_ Ir].
  apply all_named_app in Im as [_ Im]. apply Forall_app in Iu as [_ Iu].
  constructor; cbn [set_chain segments segmentName segmentSize sequenceCounter partitionKey walID]; try done.
  - rewrite Forall_forall in Ic2 |- *. intros g Hg. rewrite Hd, decide_False; [by apply Ic2|].
    intros Hin. apply (Hdis _ Hin), list_elem_of_fmap. eauto.
  - exists b. by eapply numbered_head.
  - by eapply all_named_head.
  - intros k Hk. rewrite Hd. case_decide; [done|]. by apply If.
Qed.

Lemma inv_replace w (s s' : T) act f' rs' start :
  wal_inv w s [] act -> firstSequence act.1 <= f' -> f' <= start -> Forall record_wf rs' ->
  map Sequence rs' = seqZ start (zlen rs') -> start + zlen rs' = sequenceCounter w + 1 ->
  (segmentSize w = 0 -> rs' = []) ->
  (forall m, content s' m = if decide (m = name act.1) then Some (seg_bytes rs') else content s m) ->
  wal_inv (set_chain [mkSeg (name act.1) f'] (zlen (seg_bytes rs')) w) s' [] (mkSeg (name act.1) f', rs').
Proof.
  intros I Hf Hst Hr Hq Hc Hz Hct.
  destruct (inv_name _ _ _ _ act I ltac:(set_solver)) as (j & Hs & Hj & _).
  pose proof (inv_active_old w s [] act) as Hno.
  pose proof I as [Is Ia Iz Ic Ir _ Id Im Iu If Ik].
  constructor; cbn [set_chain segments segmentName segmentSize sequenceCounter partitionKey walID app map fst snd]; try done.
  - constructor; [|constructor]. simpl. by rewrite Hct, decide_True.
  - unfold log. simpl. by rewrite app_nil_r.
  - exists start. simpl. split_and!; done.
  - split; [|done]. exists j. split; [done|]. simpl. lia.
  - intros k Hk. rewrite Hct. case_decide as Ed; [|by apply If]. simpl.
    destruct (Z.eq_dec (segmentSize w) 0) as [E|E]; [by rewrite (Hz E)|].
    destruct (Hno k I E Hk act ltac:(set_solver)). done.
Qed.

(** Cutting a consecutively numbered list of records. *)
Lemma filter_cut cut b rs :
  map Sequence rs = seqZ b (zlen rs) -> cut < b + zlen rs ->
  exists d, rs = d ++ List.filter (fun r => cut <? Sequence r) rs /\ Forall (fun r => Sequence r <= cut) d /\
    let rs' := List.filter (fun r => cut <? Sequence r) rs in
    map Sequence rs' = seqZ (Z.max b (cut + 1)) (zlen rs') /\
    Z.max b (cut + 1) + zlen rs' = b + zlen rs.
Proof.
  revert b; induction rs as [|r rs IH]; intros b Hs Hc.
  - exists []. simpl in *. unfold zlen in *. simpl in *. split_and!; [done|constructor|done|lia].
  - pose proof (zlen_nonneg rs). rewrite zlen_cons in *. rewrite seqZ_cons in Hs by lia.
    replace (Z.pred (1 + zlen rs)) with (zlen rs) in Hs by lia. cbn [map] in Hs. injection Hs as Hb Hs.
    destruct (IH (Z.succ b) Hs ltac:(lia)) as (d & Ed & Hd & H1' & H2'). cbn [List.filter]. rewrite Hb.
    destruct (Z.ltb_spec cut b).
    + replace (Z.max (Z.succ b) (cut + 1)) with (Z.succ b) in * by lia.
      replace (Z.max b (cut + 1)) with b in * by lia.
      exists []. pose proof (f_equal zlen Ed) as Ez. rewrite zlen_app in Ez.
      assert (zlen d = 0) as Hd0 by (cbv zeta in H2'; lia).
      destruct d; [|rewrite zlen_cons in Hd0; pose proof (zlen_nonneg d); lia]. simpl in Ed. rewrite <- Ed in *.
      split_and!; [done|constructor| |by rewrite zlen_cons]. cbn [map]. rewrite zlen_cons, seqZ_cons by lia.
      replace (Z.pred (1 + zlen rs)) with (zlen rs) by lia. by rewrite Hb, Hs.
    + replace (Z.max (Z.succ b) (cut + 1)) with (cut + 1) in * by lia.
      replace (Z.max b (cut + 1)) with (cut + 1) in * by lia.
      exists (r :: d). split_and!; [simpl; by rewrite <- Ed|constructor; [lia|done]|done|lia].
Qed.

Lemma rewrite_segment n b (s : T) :
  exists s1 s2 z, DeleteSegment n s = (s1, Ok tt) /\ AppendToSegment n b s1 = (s2, Ok z) /\
    forall m, content s2 m = if decide (m = n) then Some b else content s m.
Proof.
  destruct (delete_total n s) as (s1 & E1). pose proof (delete_law n s) as L1. rewrite E1 in L1.
  destruct L1 as (_ & Hs & Hc1). destruct (append_total n b s1 Hs) as (s2 & z & E2).
  pose proof (append_law n b s1) as L2. rewrite E2 in L2. destruct L2 as (_ & _ & Hc2).
  exists s1, s2, z. split_and!; [done..|]. intros m. rewrite Hc2, !Hc1.
  repeat case_decide; simpl; congruence.
Qed.

(** The state once the sealed segments are dealt with: the cut reaches into the
    active segment only when it covers every sealed one. *)
Lemma truncate_prefix cut w (s : T) pre act :
  wal_inv w s pre act -> sequenceCounter w + 1 < 2 ^ 63 ->
  exists dropped rest s1, pre = dropped ++ rest /\
    truncate_sealed cut (segments w) [] (w, s) = ((w, s1), Ok (map fst rest)) /\
    wal_inv (set_chain (map fst (rest ++ [act])) (segmentSize w) w) s1 rest act /\
    Forall (fun r => Sequence r <= cut) (log dropped) /\
    (firstSequence act.1 <= cut + 1 -> rest = []) /\ (cut < firstSequence act.1 -> only_straddling cut rest act).
Proof.
  intros I Hb. destruct (inv_numbered _ _ _ _ I) as (a & Hn). pose proof (inv_start _ _ _ _ _ I Hn).
  destruct (truncate_sealed_spec cut w s true a pre act _ [] Hn (inv_full _ _ _ _ I) ltac:(lia) Hb)
    as (dr & rest & b & s1 & Ep & Et & Hd & Hn1 & Hn2 & Hcov & Hr).
  exists dr, rest, s1. rewrite (inv_segments _ _ _ _ I), Et. subst pre. split_and!; try done.
  - by eapply inv_drop.
  - destruct dr as [|g dr]; [constructor|]. specialize (Hcov ltac:(done)).
    pose proof (numbered_log _ _ _ _ Hn1) as E.
    assert (Hall : Forall (fun q => q <= cut) (map Sequence (log (g :: dr)))).
    { rewrite E. apply Forall_seqZ. intros. lia. }
    by rewrite Forall_map in Hall.
  - intros Hf. destruct rest as [|g0 rest]; [done|]. destruct Hr as (g & gs & Eg & Hall); [done|].
    injection Eg as -> <-. specialize (Hall act ltac:(set_solver)). lia.
  - intros Hf. eapply rest_straddles; [exact Hn2| |done|done]. pose proof (inv_full _ _ _ _ I) as Hfull. by apply Forall_app in Hfull as [_ ?].
Qed.

(** What is left of the active segment, when the cut reaches it. *)
Lemma truncate_active_spec cut w0 w (s : T) act :
  wal_inv w s [] act -> sequenceCounter w + 1 < 2 ^ 63 -> slice_ok (seg_bytes act.2) ->
  sequenceCounter w0 = sequenceCounter w -> sequenceCounter w <= cut \/ firstSequence act.1 <= cut ->
  exists s' f' rs' dropped,
    truncate_active cut w0 act.1 (w0, s) = ((w0, s'), Ok (mkSeg (name act.1) f', zlen (seg_bytes rs'))) /\
    wal_inv (set_chain [mkSeg (name act.1) f'] (zlen (seg_bytes rs')) w) s' [] (mkSeg (name act.1) f', rs') /\
    act.2 = dropped ++ rs' /\ Forall (fun r => Sequence r <= cut) dropped /\
    Forall (fun r => cut < Sequence r) rs'.
Proof.
  intros I Hb Hs Ew Hreach. destruct (inv_name _ _ _ _ act I ltac:(set_solver)) as (k & _ & Hk1 & Hk2).
  destruct (inv_numbered _ _ _ _ I) as (a & Hn). pose proof (inv_start _ _ _ _ _ I Hn) as Ha.
  pose proof (inv_size _ _ _ _ I) as Hz. destruct act as [seg rs]. simpl in Hn. destruct Hn as (Hf & Hseq & Hend). cbn [fst snd] in *.
  unfold truncate_active, mbind, M_bind, mret, M_ret, io, pure_io. rewrite Ew. cbn [fst snd].
  destruct (Z.leb_spec (sequenceCounter w) cut) as [Hc|Hc].
  - destruct (rewrite_segment (name seg) [] s) as (s2 & s3 & z & E2 & E3 & Hct). cbn [fst snd]. rewrite E2. cbn [lift_io fst snd].
    rewrite E3. cbn [lift_io fst snd]. rewrite wraps_id by (unfold is_s; simpl; lia).
    exists s3, (sequenceCounter w + 1), [], rs. split_and!; [done| |by rewrite app_nil_r| |constructor].
    + eapply (inv_replace w s s3 (seg, rs) _ [] (sequenceCounter w + 1)); try done; [lia..|unfold zlen; simpl; lia].
    + assert (Hall : Forall (fun q => q <= cut) (map Sequence rs)) by (rewrite Hseq; apply Forall_seqZ; lia).
      by rewrite Forall_map in Hall.
  - destruct (Z.leb_spec (firstSequence seg) cut) as [Hf'|Hf']; [|lia].
    destruct (filter_cut cut a rs Hseq ltac:(lia)) as (d & Ed & Hd & Hq & Hl). cbv zeta in Hq, Hl.
    pose proof (inv_content _ _ _ _ I) as Hct0. inversion_clear Hct0 as [|? ? Hc0 _]. cbn [fst snd] in Hc0.
    pose proof (inv_records _ _ _ _ I) as Hwf. unfold log in Hwf. simpl in Hwf. rewrite app_nil_r in Hwf.
    cbn [fst snd]. rewrite (readSegment_total _ _ s Hc0 Hs). cbn [lift_io fst snd].
    pose proof (decode_segment (partitionKey w0) (name seg) (skipCorrupt w0) rs sample [] Hwf sample_wf (torn_nil _)) as D.
    rewrite app_nil_r in D. rewrite (D Hs). cbn [lift_decode Records].
    set (rs' := List.filter (fun r => cut <? Sequence r) rs) in *. fold (seg_bytes rs').
    destruct (rewrite_segment (name seg) (seg_bytes rs') s) as (s2 & s3 & z & E2 & E3 & Hct). cbn [fst snd]. rewrite E2. cbn [lift_io fst snd].
    rewrite E3. cbn [lift_io fst snd]. rewrite wraps_id by (unfold is_s; simpl; lia).
    exists s3, (cut + 1), rs', d. split_and!; try done.
    + eapply (inv_replace w s s3 (seg, rs) _ rs' (Z.max a (cut + 1))); try done; [simpl; lia|lia|..|lia|].
      * rewrite Ed in Hwf. by apply Forall_app in Hwf as [_ Hwf].
      * intros E0. rewrite Hz in E0. unfold rs'. destruct rs as [|r rs]; [done|].
        unfold seg_bytes in E0. cbn [map concat] in E0. rewrite zlen_app in E0.
        pose proof (EncodeRecord_nonempty r). unfold zlen in E0. lia.
    + apply Forall_forall. intros r Hr. unfold rs' in Hr. apply list_elem_of_In, filter_In in Hr as [_ Hr]. lia.
Qed.

(** C38. [Truncate] on an open log succeeds on storage that does not fault, and drops a prefix of
    the log.  No record past the cut is dropped.  A record that the cut covers is left only in a
    sealed segment that straddles the cut: the first one of the log, with a record past the cut
    in it; so when the cut reaches into the active segment, exactly the records past it are left.
    What is left is a log in its invariant with the same sequence counter. *)
Theorem Truncate_keeps w (s : T) pre act cut
  (I : wal_inv w s pre act) (Ho : closed w = false) (Hb : sequenceCounter w + 1 < 2 ^ 63)
  (Hs : slice_ok (seg_bytes act.2)) :
  exists w' s' pre' act' dropped,
    Truncate cut (w, s) = ((w', s'), Ok tt) /\ wal_inv w' s' pre' act' /\
    sequenceCounter w' = sequenceCounter w /\
    log (pre ++ [act]) = dropped ++ log (pre' ++ [act']) /\
    Forall (fun r => Sequence r <= cut) dropped /\ only_straddling cut pre' act' /\
    (firstSequence act.1 <= cut -> Forall (fun r => cut < Sequence r) (log (pre' ++ [act']))).
Proof.
  destruct (truncate_prefix cut w s pre act I Hb) as (dr & rest & s1 & Ep & Et & I1 & Hdr & Hrest & Hstr).
  pose proof (inv_active _ _ _ _ I) as Hnm.
  unfold Truncate, checkOpen, mbind, M_bind, get, mret, M_ret. cbn [fst snd]. rewrite Ho.
  cbn [fst snd]. rewrite Et. cbn [fst snd]. rewrite (inv_segments _ _ _ _ I), map_app. cbn [map]. rewrite last_snoc.
  destruct (decide (sequenceCounter w <= cut \/ firstSequence act.1 <= cut)) as [Hr|Hr].
  - destruct (inv_name _ _ _ _ act I ltac:(set_solver)) as (k & _ & _ & Hk2).
    specialize (Hrest ltac:(lia)). subst rest. rewrite app_nil_r in Ep. subst dr. cbn [map app] in I1.
    destruct (truncate_active_spec cut w _ s1 act I1 Hb Hs eq_refl Hr) as (s2 & f' & rs' & d & E & I2 & Ed & Hd & Hgt).
    rewrite E. unfold modify. cbn [fst snd name app map]. rewrite <- Hnm in I2 |- *.
    eexists _, s2, [], (mkSeg (segmentName w) f', rs'), (log pre ++ d). split; [reflexivity|].
    assert (Hlog : log ([] ++ [(mkSeg (segmentName w) f', rs')]) = rs') by (unfold log; simpl; by rewrite app_nil_r).
    split_and!; [exact I2|done| |by apply Forall_app| |].
    + rewrite Hlog, log_app, <- app_assoc. unfold log. simpl. by rewrite !app_nil_r, Ed.
    + intros r Hin Hle. rewrite Hlog in Hin. rewrite Forall_forall in Hgt. specialize (Hgt r Hin). lia.
    + intros _. by rewrite Hlog.
  - unfold truncate_active. destruct (Z.leb_spec (sequenceCounter w) cut); [lia|].
    destruct (Z.leb_spec (firstSequence act.1) cut); [lia|]. unfold mret, M_ret, modify. cbn [fst snd].
    eexists _, s1, rest, act, (log dr). split; [reflexivity|]. rewrite <- Hnm.
    split_and!; [|done|by rewrite Ep, <- app_assoc, log_app|done|apply Hstr; lia|lia].
    rewrite map_app in I1. exact I1.
Qed.

End Truncate.
(** ** Two histories of a log on the in-memory shim *)

Section Histories.
Import InMemory.

Lemma Truncate_keeps_witness :
  exists w' s' pre' act' dropped,
    Truncate 1 (sample_log1, sample_store1) = ((w', s'), Ok tt) /\ wal_inv w' s' pre' act' /\
    sequenceCounter w' = 1 /\ [sample_record] = dropped ++ log (pre' ++ [act']) /\
    Forall (fun r => Sequence r <= 1) dropped /\ only_straddling 1 pre' act' /\
    (1 <= 1 -> Forall (fun r => 1 < Sequence r) (log (pre' ++ [act']))).
Proof.
  apply (Truncate_keeps sample_log1 sample_store1 [] (sample_seg, [] ++ [sample_record]) 1 sample_inv1);
    [reflexivity|reflexivity|apply sample_small].
Defined.

Definition collect (seen : list Z) (r : WalRecord) : list Z * bool := (seen ++ [Sequence r], true).

(** A process that opens the partition and recovers its log. *)
Definition boot (s : InMemoryPlatformIO)
    : option (DefaultWriteAheadLog * list Z * RecoverySummary) :=
  match OpenOrCreate 0 0 false false sample_pk sample_id s with
  | (s, Ok w) =>
    match Recover collect [] (w, s) with
    | (seen, ((w, _), Ok summary)) => Some (w, seen, summary)
    | _ => None
    end
  | _ => None
  end.

(** A process that does so and then appends and syncs one record: the sequence
    it was given, and the storage it leaves. *)
Definition boot_append (s : InMemoryPlatformIO) : option (Z * InMemoryPlatformIO) :=
  match boot s with
  | Some (w, _, _) =>
    match Wal.Append sample (w, s) with
    | ((w, s), Ok res) =>
      match Sync (w, s) with ((_, s), Ok _) => Some (ResSequence res, s) | _ => None end
    | _ => None
    end
  | None => None
  end.

(** Recovery leaves the torn bytes of a crashed append in the active segment and later appends go
    after them.  Here a record is appended and synced successfully after such a crash, and the next
    start replays the log without that record, reporting neither an error nor damage. *)
Theorem append_after_torn_tail_is_lost :
  match boot_append sample_crashed with
  | Some (seq, s') => seq = 2 /\ option_map (fun x => (x.1.2, x.2)) (boot s') = Some ([1], mkSummary 1 0 1 1)
  | None => False
  end.
Proof. vm_compute. split; reflexivity. Qed.

(** The sequence counter does not survive a restart after a full truncation: the next record
    reuses sequence number 1. *)
Theorem truncated_log_reuses_sequences :
  match Truncate 1 (sample_log1, sample_store1) with
  | ((w, s'), Ok _) => sequenceCounter w = 1 /\ option_map fst (boot_append s') = Some 1
  | _ => False
  end.
Proof. vm_compute. split; reflexivity. Qed.

End Histories.
End WalTruncate.
