(* ===== verification/GroupCommit.v ===== *)
(** Group commit: [storage/wal/group_commit.go].

    The committer's methods are the critical sections of the code; callers of
    [SyncTo] and the goroutines running [runRounds] interleave between them.
    The write-ahead log is seen as two numbers: the last sequence appended and
    the last one durable. *)

From stdpp Require Import relations.
From S2P Require Import Prelude.

Module GroupCommit.

(** A waiter is the sequence asked for and the caller's channel, here the
    caller's identity. *)
Record gcWaiter := mkWaiter { seq : Z; ch : nat }.
Record GroupCommitter := mkGC { syncedSeq : Z; inFlight : bool; waiters : list gcWaiter }.

Definition NewGroupCommitter : GroupCommitter := mkGC 0 false [].

(** ** Critical sections *)

(** What [SyncTo] does before it blocks: return at once, or wait, having
    started a [runRounds] goroutine or not. *)
Inductive entered := ReturnsNil | Waits (started : bool).

Definition SyncTo (s : Z) (c : nat) (g : GroupCommitter) : GroupCommitter * entered :=
  if s <=? syncedSeq g then (g, ReturnsNil)
  else
    let g := mkGC (syncedSeq g) (inFlight g) (waiters g ++ [mkWaiter s c]) in
    if inFlight g then (g, Waits false)
    else (mkGC (syncedSeq g) true (waiters g), Waits true).

(** The top of a round: take the waiters; [None] is the return of the loop. *)
Definition takeBatch (g : GroupCommitter) : GroupCommitter * option (list gcWaiter) :=
  match waiters g with
  | [] => (mkGC (syncedSeq g) false [], None)
  | batch => (mkGC (syncedSeq g) (inFlight g) [], Some batch)
  end.

Definition maxSeq (batch : list gcWaiter) : Z :=
  foldl (fun m w => if m <? seq w then seq w else m) 0 batch.

Definition publish (ok : bool) (batch : list gcWaiter) (g : GroupCommitter) : GroupCommitter :=
  if ok && (syncedSeq g <? maxSeq batch) then mkGC (maxSeq batch) (inFlight g) (waiters g) else g.

Definition SyncedSeq (g : GroupCommitter) : Z := syncedSeq g.

(** ** Interleavings *)

(** Where a [runRounds] goroutine is: at the top of the loop, before the call
    of [doSync], inside it (with what was appended when it was called), after
    it, or handing the result to the rest of the batch. *)
Inductive pc :=
  | Top
  | Taken (batch : list gcWaiter)
  | InSync (batch : list gcWaiter) (from : Z)
  | Synced (batch : list gcWaiter) (ok : bool)
  | Sending (rest : list gcWaiter) (ok : bool).

Record world := mkWorld {
  gc : GroupCommitter;
  runners : list pc;
  appended : Z;
  durable : Z;
  returned : list (gcWaiter * bool);
}.

Definition init : world := mkWorld NewGroupCommitter [] 0 0 [].

(** The steps.  A caller asks only for a sequence already appended.  [doSync]
    may succeed only if all that was appended when it was called is durable;
    whether it fails or not, more than that may have become durable. *)
Inductive call_step : world -> world -> Prop :=
  | step_append g rs a d ret : call_step (mkWorld g rs a d ret) (mkWorld g rs (a + 1) d ret)
  | step_call g rs a d ret s c g' : s <= a -> SyncTo s c g = (g', ReturnsNil) ->
      call_step (mkWorld g rs a d ret) (mkWorld g' rs a d ((mkWaiter s c, true) :: ret))
  | step_wait g rs a d ret s c g' started : s <= a -> SyncTo s c g = (g', Waits started) ->
      call_step (mkWorld g rs a d ret) (mkWorld g' (if started then Top :: rs else rs) a d ret).

(** The steps of a [runRounds] goroutine. *)
Inductive run_step : world -> world -> Prop :=
  | step_take g rs1 rs2 a d ret g' batch : takeBatch g = (g', Some batch) ->
      run_step (mkWorld g (rs1 ++ Top :: rs2) a d ret) (mkWorld g' (rs1 ++ Taken batch :: rs2) a d ret)
  | step_exit g rs1 rs2 a d ret g' : takeBatch g = (g', None) ->
      run_step (mkWorld g (rs1 ++ Top :: rs2) a d ret) (mkWorld g' (rs1 ++ rs2) a d ret)
  | step_sync g rs1 rs2 a d ret batch :
      run_step (mkWorld g (rs1 ++ Taken batch :: rs2) a d ret) (mkWorld g (rs1 ++ InSync batch a :: rs2) a d ret)
  | step_synced g rs1 rs2 a d ret batch from ok d' : d <= d' <= a -> (ok = true -> from <= d') ->
      run_step (mkWorld g (rs1 ++ InSync batch from :: rs2) a d ret)
           (mkWorld g (rs1 ++ Synced batch ok :: rs2) a d' ret)
  | step_publish g rs1 rs2 a d ret batch ok :
      run_step (mkWorld g (rs1 ++ Synced batch ok :: rs2) a d ret)
           (mkWorld (publish ok batch g) (rs1 ++ Sending batch ok :: rs2) a d ret)
  | step_send g rs1 rs2 a d ret w rest ok :
      run_step (mkWorld g (rs1 ++ Sending (w :: rest) ok :: rs2) a d ret)
           (mkWorld g (rs1 ++ Sending rest ok :: rs2) a d ((w, ok) :: ret))
  | step_next g rs1 rs2 a d ret ok :
      run_step (mkWorld g (rs1 ++ Sending [] ok :: rs2) a d ret) (mkWorld g (rs1 ++ Top :: rs2) a d ret).

Definition step (w w' : world) : Prop := call_step w w' \/ run_step w w'.
Definition reachable (w : world) : Prop := rtc step init w.

(** ** The invariant *)

Definition below (n : Z) (batch : list gcWaiter) : Prop := Forall (fun w => seq w <= n) batch.

(** What a goroutine at [p] knows. *)
Definition pc_ok (a d : Z) (p : pc) : Prop :=
  match p with
  | Top => True
  | Taken b => below a b
  | InSync b from => below from b /\ from <= a
  | Synced b ok | Sending b ok => below a b /\ (ok = true -> below d b)
  end.

Record inv (w : world) : Prop := {
  inv_durable : 0 <= durable w <= appended w;
  inv_synced : 0 <= syncedSeq (gc w) <= durable w;
  inv_waiters : below (appended w) (waiters (gc w));
  inv_pcs : Forall (pc_ok (appended w) (durable w)) (runners w);
  (** [inFlight] says whether there is a goroutine, and there is never more than one. *)
  inv_runner : length (runners w) = if inFlight (gc w) then 1%nat else 0%nat;
  inv_no_orphan : waiters (gc w) <> [] -> inFlight (gc w) = true;
  inv_returned : forall x, (x, true) ∈ returned w -> seq x <= durable w;
}.

Lemma below_mono n m b : n <= m -> below n b -> below m b.
Proof. intros Hn Hb. eapply Forall_impl; [exact Hb|]. simpl. lia. Qed.

Lemma pc_ok_mono a a' d d' p : a <= a' -> d <= d' -> pc_ok a d p -> pc_ok a' d' p.
Proof. intros Ha Hd. destruct p; simpl; try done; intuition eauto using below_mono; lia. Qed.

Lemma maxSeq_below d b : 0 <= d -> below d b -> 0 <= maxSeq b <= d.
Proof.
  intros Hd Hb. unfold maxSeq.
  cut (forall m, 0 <= m <= d -> 0 <= foldl (fun m w => if m <? seq w then seq w else m) m b <= d);
    [intros H; apply H; lia|].
  induction Hb as [|w b Hw Hb IH]; intros m Hm; simpl; [lia|]. apply IH.
  destruct (Z.ltb_spec m (seq w)); lia.
Qed.

(** The one goroutine's position, once the list is known to be a singleton. *)
Lemma one_runner (rs1 rs2 : list pc) p (b : bool) :
  length (rs1 ++ p :: rs2) = (if b then 1 else 0)%nat -> b = true /\ rs1 = [] /\ rs2 = [].
Proof. rewrite length_app. destruct b, rs1, rs2; simpl; try lia; done. Qed.

Lemma SyncTo_spec s c g g' e :
  SyncTo s c g = (g', e) ->
  syncedSeq g' = syncedSeq g /\
  match e with
  | ReturnsNil => g' = g /\ s <= syncedSeq g
  | Waits st => waiters g' = waiters g ++ [mkWaiter s c] /\ inFlight g' = true /\ st = negb (inFlight g)
  end.
Proof.
  unfold SyncTo. destruct (Z.leb_spec s (syncedSeq g)); [|destruct (inFlight g) eqn:E; simpl];
    intros [= <- <-]; simpl; rewrite ?E; auto.
Qed.

Lemma takeBatch_spec g g' b :
  takeBatch g = (g', b) ->
  syncedSeq g' = syncedSeq g /\ waiters g' = [] /\
  match b with
  | None => waiters g = [] /\ inFlight g' = false
  | Some b => waiters g = b /\ b <> [] /\ inFlight g' = inFlight g
  end.
Proof. unfold takeBatch. destruct (waiters g) eqn:E; intros [= <- <-]; simpl; auto. Qed.

Lemma publish_spec ok b g :
  waiters (publish ok b g) = waiters g /\ inFlight (publish ok b g) = inFlight g /\
  syncedSeq g <= syncedSeq (publish ok b g) /\
  (forall d, syncedSeq g <= d -> 0 <= d -> (ok = true -> below d b) -> syncedSeq (publish ok b g) <= d).
Proof.
  unfold publish. destruct (ok && _) eqn:E; simpl; [|split_and!; auto; lia].
  apply andb_true_iff in E as [-> E]. split_and!; try done; [lia|]. intros d Hd Hd0 Hb.
  pose proof (maxSeq_below d b Hd0 (Hb eq_refl)). lia.
Qed.

(** A step of the one goroutine, which leaves what callers saw alone. *)
Lemma runner_inv g g' p ps a d d' ret ret' :
  inv (mkWorld g [p] a d ret) -> d <= d' <= a ->
  syncedSeq g <= syncedSeq g' <= d' -> (waiters g' = waiters g \/ waiters g' = []) ->
  length ps = (if inFlight g' then 1 else 0)%nat ->
  (waiters g' <> [] -> inFlight g' = true) ->
  Forall (pc_ok a d') ps -> (forall x, (x, true) ∈ ret' -> (x, true) ∈ ret \/ seq x <= d') ->
  inv (mkWorld g' ps a d' ret').
Proof.
  intros [Id Is Iw Ip Ir Io It] Hd Hs Hw Hl Ho Hp Hret. simpl in *. constructor; simpl; try done; [lia|lia| |].
  - destruct Hw as [->| ->]; [done|constructor].
  - intros x Hx. destruct (Hret x Hx) as [Hx'|]; [|done]. specialize (It x Hx'). lia.
Qed.

Lemma call_step_inv w w' : call_step w w' -> inv w -> inv w'.
Proof.
  intros Hs I. destruct Hs as [g rs a d ret|g rs a d ret s c g' Hs E|g rs a d ret s c g' st Hs E];
    pose proof I as [Id Is Iw Ip Ir Io It]; simpl in *.
  - constructor; simpl; try done; [lia|by eapply below_mono; [|done]; lia|].
    eapply Forall_impl; [exact Ip|]. intros p. apply pc_ok_mono; lia.
  - apply SyncTo_spec in E as (_ & -> & Hle). constructor; simpl; try done.
    intros x Hx. apply elem_of_cons in Hx as [[= ->]|Hx]; [simpl; lia|auto].
  - apply SyncTo_spec in E as (Es & Ew & Ef & ->). constructor; simpl; rewrite ?Es, ?Ew, ?Ef; try done.
    + apply Forall_app. split; [done|]. constructor; [done|constructor].
    + destruct (inFlight g); simpl; [done|by constructor].
    + destruct (inFlight g); simpl; [done|]. by rewrite Ir.
Qed.

Lemma run_step_inv w w' : run_step w w' -> inv w -> inv w'.
Proof.
  intros Hs I. destruct Hs as [g rs1 rs2 a d ret g' b E|g rs1 rs2 a d ret g' E|g rs1 rs2 a d ret b
    |g rs1 rs2 a d ret b f ok d' Hd Hok|g rs1 rs2 a d ret b ok|g rs1 rs2 a d ret w r ok|g rs1 rs2 a d ret ok];
    pose proof I as [Id Is Iw Ip Ir Io It]; simpl in *;
    destruct (one_runner _ _ _ _ Ir) as (Ef & -> & ->); simpl in *; inversion_clear Ip as [|? ? Hp _].
  - apply takeBatch_spec in E as (Es & Ew & Eb & Hne & Ei).
    eapply runner_inv; [exact I|simpl; rewrite ?Es, ?Ei, ?Ef, ?Ew; try done; lia || auto..].
    constructor; [|constructor]. simpl. by rewrite <- Eb.
  - apply takeBatch_spec in E as (Es & Ew & Ew0 & Ei).
    eapply runner_inv; [exact I|simpl; rewrite ?Es, ?Ei, ?Ef, ?Ew; try done; lia || auto..].
  - eapply runner_inv; [exact I|simpl; rewrite ?Ef; try done; lia || auto..].
    constructor; [|constructor]. simpl. split; [done|lia].
  - eapply runner_inv; [exact I|simpl; rewrite ?Ef; try done; lia || auto..].
    destruct Hp as [Hb Hf]. constructor; [|constructor]. simpl. split; [by eapply below_mono; [|done]|].
    intros Eok. eapply below_mono; [|done]. auto.
  - destruct (publish_spec ok b g) as (Ew & Ei & El & Eu). destruct Hp as [Hb Hd].
    eapply runner_inv; [exact I|simpl; rewrite ?Ei, ?Ef, ?Ew; try done; lia || auto..].
    + split; [done|]. apply Eu; [lia|lia|done].
    + by repeat constructor.
  - destruct Hp as [Hb Hd]. inversion_clear Hb as [|? ? Hw Hr].
    eapply runner_inv; [exact I|simpl; rewrite ?Ef; try done; lia || auto..].
    + constructor; [|constructor]. simpl. split; [done|]. intros Eok. specialize (Hd Eok). by inversion_clear Hd.
    + intros x Hx. apply elem_of_cons in Hx as [[= -> <-]|Hx]; [|by left]. right.
      specialize (Hd eq_refl). by inversion_clear Hd.
  - eapply runner_inv; [exact I|simpl; rewrite ?Ef; try done; lia || auto..].
    constructor; [done|constructor].
Qed.

Lemma init_inv : inv init.
Proof. constructor; simpl; try done; try lia; try (by constructor). set_solver. Qed.

Lemma reachable_inv w : reachable w -> inv w.
Proof.
  intros Hr. unfold reachable in Hr. revert w Hr. apply rtc_ind_r; [apply init_inv|]. intros x y _ [Hs|Hs] I; [by eapply call_step_inv|by eapply run_step_inv].
Qed.

(** ** Every caller returns *)

Definition batch_of (p : pc) : list gcWaiter :=
  match p with Top => [] | Taken b | InSync b _ | Synced b _ | Sending b _ => b end.

(** The callers blocked in [SyncTo]. *)
Definition pending (w : world) : list gcWaiter := waiters (gc w) ++ concat (map batch_of (runners w)).

Definition pc_weight (p : pc) : nat :=
  match p with
  | Top => 1 | Taken b => 2 * length b + 5 | InSync b _ => 2 * length b + 4
  | Synced b _ => 2 * length b + 3 | Sending b _ => 2 * length b + 2
  end%nat.
Definition weight (w : world) : nat :=
  (10 * length (waiters (gc w)) + sum_list (map pc_weight (runners w)))%nat.

Lemma sum_list_app' l1 l2 : sum_list (l1 ++ l2) = (sum_list l1 + sum_list l2)%nat.
Proof. induction l1; simpl; lia. Qed.

Lemma run_step_weight w w' : run_step w w' -> (weight w' < weight w)%nat.
Proof.
  destruct 1 as [g rs1 rs2 a d ret g' b E|g rs1 rs2 a d ret g' E|g rs1 rs2 a d ret b
    |g rs1 rs2 a d ret b f ok d' Hd Hok|g rs1 rs2 a d ret b ok|g rs1 rs2 a d ret w r ok|g rs1 rs2 a d ret ok];
    unfold weight; simpl; rewrite !map_app, !sum_list_app'; simpl; try lia.
  - apply takeBatch_spec in E as (_ & -> & -> & Hne & _). destruct b; [done|]. simpl. lia.
  - apply takeBatch_spec in E as (_ & -> & -> & _). simpl. lia.
  - destruct (publish_spec ok b g) as (-> & _). lia.
Qed.

Lemma run_step_pending w w' x :
  run_step w w' -> x ∈ pending w -> x ∈ pending w' \/ exists ok, (x, ok) ∈ returned w'.
Proof.
  destruct 1 as [g rs1 rs2 a d ret g' b E|g rs1 rs2 a d ret g' E|g rs1 rs2 a d ret b
    |g rs1 rs2 a d ret b f ok d' Hd Hok|g rs1 rs2 a d ret b ok|g rs1 rs2 a d ret w r ok|g rs1 rs2 a d ret ok];
    unfold pending; simpl; rewrite !map_app, !concat_app; simpl; try (by left).
  - apply takeBatch_spec in E as (_ & -> & -> & _). set_solver.
  - apply takeBatch_spec in E as (_ & -> & -> & _). set_solver.
  - destruct (publish_spec ok b g) as (-> & _). by left.
  - rewrite !elem_of_app, elem_of_cons. intros [?|[?|[->|?]]]; [set_solver|set_solver| |set_solver].
    right. exists ok. by left.
Qed.

Lemma run_step_returned w w' : run_step w w' -> forall x, x ∈ returned w -> x ∈ returned w'.
Proof. destruct 1; simpl; set_solver. Qed.

(** A goroutine can always go on, [doSync] returning. *)
Lemma runner_steps w p ps : inv w -> runners w = p :: ps -> exists w', run_step w w'.
Proof.
  intros I Er. pose proof (inv_durable _ I) as Hd. destruct w as [g rs a d ret]. simpl in *. subst rs. destruct p as [|b|b from|b ok|b ok].
  - destruct (takeBatch g) as [g' [b|]] eqn:E;
      [eexists; by apply (step_take g [] ps)|eexists; by apply (step_exit g [] ps)].
  - eexists. apply (step_sync g [] ps).
  - eexists. apply (step_synced g [] ps a d ret b from false d); [lia|done].
  - eexists. apply (step_publish g [] ps).
  - destruct b as [|w b]; eexists; [apply (step_next g [] ps)|apply (step_send g [] ps)].
Qed.

Lemma run_step_sn w : sn run_step w.
Proof.
  remember (weight w) as n eqn:E. revert w E. induction n as [n IH] using lt_wf_ind. intros w ->.
  constructor. intros w' Hs. eapply IH; [by apply run_step_weight|done].
Qed.

Lemma run_steps_inv w w' : rtc run_step w w' -> inv w -> inv w'.
Proof. induction 1; eauto using run_step_inv. Qed.

Lemma run_steps_pending w w' : rtc run_step w w' ->
  forall x, x ∈ pending w -> x ∈ pending w' \/ exists ok, (x, ok) ∈ returned w'.
Proof.
  induction 1 as [w|w1 w2 w3 Hs Hr IH]; [auto|]. intros x Hx.
  destruct (run_step_pending _ _ _ Hs Hx) as [Hp|(ok & Hp)]; [auto|]. right. exists ok.
  clear IH Hs. induction Hr; [done|]. eauto using run_step_returned.
Qed.

Lemma run_nf_pending w : inv w -> nf run_step w -> pending w = [].
Proof.
  intros I Hnf. unfold pending. destruct (runners w) as [|p ps] eqn:Er.
  - pose proof (inv_runner w I) as Hl. rewrite Er in Hl. pose proof (inv_no_orphan w I) as Ho.
    destruct (waiters (gc w)) eqn:Ew; [done|]. rewrite Ho in Hl by done. discriminate.
  - destruct (runner_steps w p ps I Er) as (w' & Hs). destruct Hnf. by exists w'.
Qed.

(** C34. A caller of [SyncTo] that returned without error had its sequence durable: a successful sync
    is never credited to a write that was not covered by it, in any interleaving of callers, appends
    and rounds, sync failures included. *)
Theorem SyncTo_durable w x (Hr : reachable w) (Hx : (x, true) ∈ returned w) : seq x <= durable w.
Proof. by apply (inv_returned w (reachable_inv w Hr)). Qed.

(** C35. No caller is abandoned: from every reachable state, the goroutine's steps end, in whatever
    way [doSync] returns, and when they have ended every caller that was blocked has been sent its
    result. *)
Theorem SyncTo_returns w (Hr : reachable w) :
  sn run_step w /\
  forall w', rtc run_step w w' -> nf run_step w' ->
    forall x, x ∈ pending w -> exists ok, (x, ok) ∈ returned w'.
Proof.
  split; [apply run_step_sn|]. intros w' Hw' Hnf x Hx. apply reachable_inv in Hr.
  destruct (run_steps_pending w w' Hw' x Hx) as [Hp|Hp]; [|done].
  apply (run_steps_inv w w' Hw') in Hr. rewrite (run_nf_pending w' Hr Hnf) in Hp. set_solver.
Qed.

(** A record is appended, a caller asks for it and a round covers it. *)
Lemma sample_reachable : reachable (mkWorld (mkGC 1 true []) [Sending [mkWaiter 1 7] true] 1 1 []).
Proof.
  unfold reachable, init, NewGroupCommitter.
  eapply rtc_l; [left; apply step_append|]. eapply rtc_l; [left; apply (step_wait _ [] _ _ _ 1 7); [lia|reflexivity]|].
  eapply rtc_l; [right; apply (step_take _ [] []); reflexivity|].
  eapply rtc_l; [right; apply (step_sync _ [] [])|].
  eapply rtc_l; [right; apply (step_synced _ [] [] _ _ _ _ _ true 1); lia|].
  eapply rtc_l; [right; apply (step_publish _ [] [])|]. apply rtc_refl.
Qed.

Lemma sample_returned_reachable :
  reachable (mkWorld (mkGC 1 true []) [Sending [] true] 1 1 [(mkWaiter 1 7, true)]).
Proof.
  unfold reachable. eapply rtc_r; [apply sample_reachable|]. right. apply (step_send _ [] []).
Qed.

Lemma SyncTo_durable_witness : 1 <= 1.
Proof.
  apply (SyncTo_durable _ (mkWaiter 1 7) sample_returned_reachable). by left.
Defined.

Lemma SyncTo_returns_witness :
  sn run_step (mkWorld (mkGC 1 true []) [Sending [mkWaiter 1 7] true] 1 1 []) /\
  forall w', rtc run_step (mkWorld (mkGC 1 true []) [Sending [mkWaiter 1 7] true] 1 1 []) w' -> nf run_step w' ->
    forall x, x ∈ [mkWaiter 1 7] -> exists ok, (x, ok) ∈ returned w'.
Proof. apply (SyncTo_returns _ sample_reachable). Defined.

End GroupCommit.
