(* ===== verification/Document.v ===== *)
(** The operations of a transaction: the types of [document/kdb_op.go]. *)

From S2P Require Import Prelude Primitives.

Module Document.

Inductive Op :=
  | WriteOp (DocID : UUID) (Patch : bytes) (Replace : bool)
  | DeleteOp (DocID : UUID)
  | FileWriteOp (Path : bytes) (BlobHash : Hash)
  | SchemaMigrationOp (MigrationID : UUID) (MigrationPayload : bytes)
  | AttachmentPutOp (DocID AttachmentID : UUID) (Name : bytes) (Scheme : Z) (ContentHash : Hash)
      (Size : Z) (Mime : bytes)
  | AttachmentDeleteOp (DocID AttachmentID : UUID).

Definition OpDocID (op : Op) : option UUID :=
  match op with
  | WriteOp d _ _ | DeleteOp d | AttachmentPutOp d _ _ _ _ _ _ | AttachmentDeleteOp d _ => Some d
  | FileWriteOp _ _ | SchemaMigrationOp _ _ => None
  end.

End Document.
