(* ===== verification/LockManager.v ===== *)
(** The document lock manager: [transaction/lock_manager.go].

    The clock is a parameter, read once per call of [m.now()] in the source;
    the manager's state counts the reads.  A zero [time.Time] is [None]. *)

From S2P Require Import Prelude Primitives Document.
Import Document.

Module LockManager.

Abbreviation lockKey := (bytes * UUID)%type.

Record lockRecord := mkRec { sessionID : bytes; fence : Z; expiresAt : option Z }.

Record Lease := mkLease {
  LeaseNamespace : bytes; LeaseDoc : UUID; LeaseSession : bytes; Fence : Z;
  ExpiresAt : option Z; GrantedNow : bool;
}.

Record LockManager := mkLM {
  locks : gmap lockKey lockRecord;
  fences : gmap lockKey Z;
  reads : nat;
}.

(** [kdberr.DocumentLockedError]: namespace, document and owner. *)
Record DocumentLockedError := mkLocked { ErrNamespace : bytes; ErrDoc : bytes; ErrOwner : bytes }.

Definition NewLockManager : LockManager := mkLM ∅ ∅ 0.

Definition leaseKey (l : Lease) : lockKey := (LeaseNamespace l, LeaseDoc l).

Definition set_locks (f : gmap lockKey lockRecord -> gmap lockKey lockRecord) (m : LockManager) : LockManager :=
  mkLM (f (locks m)) (fences m) (reads m).

(** The owner named in an error: that of the zero record when there is none. *)
Definition owner (rec : option lockRecord) : bytes := match rec with Some r => sessionID r | None => [] end.

Definition sameSession (s : bytes) (rec : lockRecord) : bool := bool_decide (sessionID rec = s).

(** Whether a record's deadline has passed. *)
Definition expired (t : Z) (rec : lockRecord) : bool :=
  match expiresAt rec with Some e => negb (t <? e) | None => false end.

Section Clock.
Context (now : nat -> Z).

Definition readClock (m : LockManager) : Z * LockManager :=
  (now (reads m), mkLM (locks m) (fences m) (S (reads m))).

Definition liveHolderLocked (key : lockKey) (m : LockManager) : LockManager * option lockRecord :=
  match locks m !! key with
  | None => (m, None)
  | Some rec =>
    match expiresAt rec with
    | None => (m, Some rec)
    | Some e =>
      let '(t, m) := readClock m in
      if negb (t <? e) then (set_locks (delete key) m, None) else (m, Some rec)
    end
  end.

Definition grantLocked (key : lockKey) (session : bytes) (ttl : Z) (existing : option lockRecord)
    (m : LockManager) : LockManager * Lease :=
  let fresh := match existing with Some r => negb (sameSession session r) | None => true end in
  let '(m, fence) :=
    if fresh then
      let f := wrapu 64 (default 0 (fences m !! key) + 1) in
      (mkLM (locks m) (<[key := f]> (fences m)) (reads m), f)
    else (m, match existing with Some r => fence r | None => 0 end) in
  let '(m, expires) :=
    if 0 <? ttl then let '(t, m) := readClock m in (m, Some (t + ttl)) else (m, None) in
  (set_locks (insert key (mkRec session fence expires)) m,
   mkLease key.1 key.2 session fence expires fresh).

Definition TryAcquireLease (ns : bytes) (doc : UUID) (session : bytes) (ttl : Z) (m : LockManager)
    : LockManager * go DocumentLockedError Lease :=
  let key := (ns, doc) in
  let '(m, rec) := liveHolderLocked key m in
  match rec with
  | Some r =>
    if negb (sameSession session r) then (m, Err (mkLocked ns (UUIDString doc) (sessionID r)))
    else let '(m, l) := grantLocked key session ttl rec m in (m, Ok l)
  | None => let '(m, l) := grantLocked key session ttl rec m in (m, Ok l)
  end.

Definition TryAcquire (ns : bytes) (doc : UUID) (session : bytes) (m : LockManager)
    : LockManager * go DocumentLockedError unit :=
  let '(m, r) := TryAcquireLease ns doc session 0 m in (m, _ ← r; Ok tt).

Definition Renew (ns : bytes) (doc : UUID) (session : bytes) (ttl : Z) (m : LockManager)
    : LockManager * go DocumentLockedError Lease :=
  let key := (ns, doc) in
  let '(m, rec) := liveHolderLocked key m in
  if match rec with Some r => sameSession session r | None => false end
  then let '(m, l) := grantLocked key session ttl rec m in (m, Ok l)
  else (m, Err (mkLocked ns (UUIDString doc) (owner rec))).

Definition Release (ns : bytes) (doc : UUID) (session : bytes) (m : LockManager) : LockManager :=
  match locks m !! (ns, doc) with
  | Some r => if sameSession session r then set_locks (delete (ns, doc)) m else m
  | None => m
  end.

Definition ReleaseAll (session : bytes) (m : LockManager) : LockManager :=
  set_locks (filter (fun kr => sameSession session kr.2 = false)) m.

Definition releaseOne (l : Lease) (m : LockManager) : LockManager :=
  if negb (GrantedNow l) then m
  else
    match locks m !! leaseKey l with
    | Some r =>
      if sameSession (LeaseSession l) r && (fence r =? Fence l) then set_locks (delete (leaseKey l)) m else m
    | None => m
    end.

Definition ReleaseLeases (leases : list Lease) (m : LockManager) : LockManager :=
  foldl (fun m l => releaseOne l m) m leases.

Definition AssertHeld (ns : bytes) (doc : UUID) (session : bytes) (m : LockManager)
    : LockManager * go DocumentLockedError unit :=
  let '(m, rec) := liveHolderLocked (ns, doc) m in
  if match rec with Some r => sameSession session r | None => false end
  then (m, Ok tt) else (m, Err (mkLocked ns (UUIDString doc) (owner rec))).

Fixpoint ValidateFences (leases : list Lease) (m : LockManager)
    : LockManager * go DocumentLockedError unit :=
  match leases with
  | [] => (m, Ok tt)
  | l :: leases =>
    let '(m, rec) := liveHolderLocked (leaseKey l) m in
    if match rec with Some r => sameSession (LeaseSession l) r && (fence r =? Fence l) | None => false end
    then ValidateFences leases m
    else (m, Err (mkLocked (LeaseNamespace l) (UUIDString (LeaseDoc l)) (owner rec)))
  end.

Definition Sweep (m : LockManager) : LockManager * Z :=
  let '(t, m) := readClock m in
  (set_locks (filter (fun kr => expired t kr.2 = false)) m,
   Z.of_nat (size (filter (fun kr => expired t kr.2 = true) (locks m)))).

Record HeldLock := mkHeld {
  HeldNamespace : bytes; HeldDoc : UUID; HeldSession : bytes; HeldFence : Z; HeldExpires : option Z;
}.

Definition bytes_ltb (a b : bytes) : bool := negb (bytes_leb b a).

Definition held_less (a b : HeldLock) : bool :=
  if bool_decide (HeldExpires a = HeldExpires b) then
    bytes_ltb (UUIDString (HeldDoc a)) (UUIDString (HeldDoc b))
  else match HeldExpires a, HeldExpires b with
       | None, _ => false
       | _, None => true
       | Some x, Some y => x <? y
       end.

Definition Held (m : LockManager) : LockManager * list HeldLock :=
  let '(t, m) := readClock m in
  (m, isort held_less
        (omap (fun '(key, rec) =>
           if expired t rec then None
           else Some (mkHeld key.1 key.2 (sessionID rec) (fence rec) (expiresAt rec)))
         (map_to_list (locks m)))).

Definition HeldCount (m : LockManager) : LockManager * Z :=
  let '(t, m) := readClock m in
  (m, Z.of_nat (size (filter (fun kr => expired t kr.2 = false) (locks m)))).

(** ** Transactions *)

Definition doc_less (a b : UUID) : bool := bytes_ltb (UUIDString a) (UUIDString b).

Fixpoint documentIDs (operations : list Op) (seen : gset UUID) (out : list UUID) : list UUID :=
  match operations with
  | [] => out
  | op :: ops =>
    match OpDocID op with
    | None => documentIDs ops seen out
    | Some d =>
      if decide (d ∈ seen) then documentIDs ops seen out
      else documentIDs ops ({[d]} ∪ seen) (out ++ [d])
    end
  end.

Definition DocumentIDsIn (operations : list Op) : list UUID := documentIDs operations ∅ [].

Fixpoint assertUnheld (ns session : bytes) (ids : list UUID) (m : LockManager)
    : LockManager * go DocumentLockedError unit :=
  match ids with
  | [] => (m, Ok tt)
  | d :: ids =>
    let '(m, rec) := liveHolderLocked (ns, d) m in
    match rec with
    | Some r =>
      if negb (sameSession session r) then (m, Err (mkLocked ns (UUIDString d) (sessionID r)))
      else assertUnheld ns session ids m
    | None => assertUnheld ns session ids m
    end
  end.

Definition AssertUnheldByOthers (ns session : bytes) (operations : list Op) (m : LockManager)
    : LockManager * go DocumentLockedError unit :=
  assertUnheld ns session (isort doc_less (DocumentIDsIn operations)) m.

Fixpoint acquireAll (ns session : bytes) (ttl : Z) (ids : list UUID) (leases : list Lease) (m : LockManager)
    : LockManager * go DocumentLockedError (list Lease) :=
  match ids with
  | [] => (m, Ok leases)
  | d :: ids =>
    match TryAcquireLease ns d session ttl m with
    | (m, Ok l) => acquireAll ns session ttl ids (leases ++ [l]) m
    | (m, Err e) => (ReleaseLeases leases m, Err e)
    | (m, Panic) => (m, Panic)
    end
  end.

Definition AcquireAllForTransaction (ns session : bytes) (operations : list Op) (ttl : Z) (m : LockManager)
    : LockManager * go DocumentLockedError (list Lease) :=
  acquireAll ns session ttl (isort doc_less (DocumentIDsIn operations)) [] m.

(** ** What the helpers do *)

Lemma liveHolder_spec key m m' rec :
  liveHolderLocked key m = (m', rec) ->
  fences m' = fences m /\ locks m' !! key = rec /\ (forall r, rec = Some r -> locks m !! key = Some r) /\
  (forall k, k <> key -> locks m' !! k = locks m !! k) /\ (reads m <= reads m')%nat.
Proof.
  unfold liveHolderLocked, readClock. destruct (locks m !! key) as [r|] eqn:E.
  - destruct (expiresAt r) as [e|] eqn:Ee; [destruct (negb _)|]; intros [= <- <-]; simpl; split_and!; try done; try lia.
    + by rewrite lookup_delete_eq.
    + intros k Hk. by rewrite lookup_delete_ne.
  - by intros [= <- <-].
Qed.

(** The fence counter of a key. *)
Definition counter (m : LockManager) (key : lockKey) : Z := default 0 (fences m !! key).

Lemma grant_spec key session ttl existing m m' l :
  grantLocked key session ttl existing m = (m', l) ->
  leaseKey l = key /\ LeaseSession l = session /\
  GrantedNow l = (match existing with Some r => negb (sameSession session r) | None => true end) /\
  locks m' = <[key := mkRec session (Fence l) (ExpiresAt l)]> (locks m) /\
  (reads m <= reads m')%nat /\
  if GrantedNow l then fences m' = <[key := Fence l]> (fences m) /\ Fence l = wrapu 64 (counter m key + 1)
  else fences m' = fences m /\ Fence l = match existing with Some r => fence r | None => 0 end.
Proof.
  unfold grantLocked, readClock, set_locks, leaseKey, counter. destruct key as [ns d].
  destruct (match existing with Some r => negb (sameSession session r) | None => true end) eqn:Ef;
    destruct (0 <? ttl); intros [= <- <-]; simpl; split_and!; try done; lia.
Qed.

(** ** The invariant *)

(** A held lock carries its key's latest fence. *)
Definition lm_inv (m : LockManager) : Prop :=
  forall key r, locks m !! key = Some r -> fences m !! key = Some (fence r).

(** [l] may have been issued: its fence is not from the future, and if it is the
    latest one of its key then nobody else holds the key. *)
Definition issued (m : LockManager) (l : Lease) : Prop :=
  Fence l <= counter m (leaseKey l) /\
  (Fence l = counter m (leaseKey l) ->
   forall r, locks m !! leaseKey l = Some r -> sessionID r = LeaseSession l).

(** ** Primitive operations, in any order *)

Inductive lm_op :=
  | DoAcquire (ns : bytes) (doc : UUID) (session : bytes) (ttl : Z)
  | DoRenew (ns : bytes) (doc : UUID) (session : bytes) (ttl : Z)
  | DoRelease (ns : bytes) (doc : UUID) (session : bytes)
  | DoReleaseAll (session : bytes)
  | DoReleaseLeases (leases : list Lease)
  | DoAssertHeld (ns : bytes) (doc : UUID) (session : bytes)
  | DoValidate (leases : list Lease)
  | DoAssertUnheld (ns session : bytes) (operations : list Op)
  | DoSweep | DoHeld | DoHeldCount.

Definition exec (op : lm_op) (m : LockManager) : LockManager :=
  match op with
  | DoAcquire ns d s ttl => (TryAcquireLease ns d s ttl m).1
  | DoRenew ns d s ttl => (Renew ns d s ttl m).1
  | DoRelease ns d s => Release ns d s m
  | DoReleaseAll s => ReleaseAll s m
  | DoReleaseLeases ls => ReleaseLeases ls m
  | DoAssertHeld ns d s => (AssertHeld ns d s m).1
  | DoValidate ls => (ValidateFences ls m).1
  | DoAssertUnheld ns s ops => (AssertUnheldByOthers ns s ops m).1
  | DoSweep => (Sweep m).1
  | DoHeld => (Held m).1
  | DoHeldCount => (HeldCount m).1
  end.

Definition execs (ops : list lm_op) (m : LockManager) : LockManager := foldl (fun m op => exec op m) m ops.

(** Two managers with the same fences, the second with fewer locks. *)
Definition shrinks (m m' : LockManager) : Prop := fences m' = fences m /\ locks m' ⊆ locks m.

Lemma shrinks_refl m : shrinks m m.
Proof. done. Qed.
Lemma shrinks_trans m1 m2 m3 : shrinks m1 m2 -> shrinks m2 m3 -> shrinks m1 m3.
Proof. intros [E1 S1] [E2 S2]. split; [congruence|]. by etrans. Qed.

Lemma liveHolder_shrinks key m m' rec : liveHolderLocked key m = (m', rec) -> shrinks m m'.
Proof.
  intros E. destruct (liveHolder_spec _ _ _ _ E) as (Ef & Ek & Er & Eo & _). split; [done|].
  apply map_subseteq_spec. intros k r Hk. destruct (decide (k = key)) as [->|Hn].
  - apply Er. congruence.
  - by rewrite <- Eo.
Qed.

Lemma validate_shrinks ls m : shrinks m (ValidateFences ls m).1.
Proof.
  revert m; induction ls as [|l ls IH]; intros m; simpl; [done|].
  destruct (liveHolderLocked _ m) as [m' rec] eqn:E. apply liveHolder_shrinks in E.
  destruct (match rec with Some _ => _ | None => _ end); [|done]. by eapply shrinks_trans.
Qed.

Lemma assertUnheld_shrinks ns s ids m : shrinks m (assertUnheld ns s ids m).1.
Proof.
  revert m; induction ids as [|d ids IH]; intros m; simpl; [done|].
  destruct (liveHolderLocked _ m) as [m' rec] eqn:E. apply liveHolder_shrinks in E.
  destruct rec as [r|]; [destruct (negb _); [done|]|]; by eapply shrinks_trans.
Qed.

Lemma release_shrinks ls m : shrinks m (ReleaseLeases ls m).
Proof.
  revert m; induction ls as [|l ls IH]; intros m; simpl; [done|]. eapply shrinks_trans; [|apply IH].
  unfold releaseOne. destruct (negb _); [done|]. destruct (locks m !! leaseKey l); [|done].
  destruct (_ && _); [|done]. split; [done|]. apply delete_subseteq.
Qed.

(** Every operation drops locks, grants one under a new fence, or keeps one with its holder and fence. *)
Inductive effect (m m' : LockManager) : Prop :=
  | eff_shrink : shrinks m m' -> effect m m'
  | eff_mint key r : fences m' = <[key := fence r]> (fences m) -> fence r = wrapu 64 (counter m key + 1) ->
      locks m' !! key = Some r -> (forall k x, k <> key -> locks m' !! k = Some x -> locks m !! k = Some x) ->
      effect m m'
  | eff_keep key r r0 : fences m' = fences m -> locks m !! key = Some r0 ->
      sessionID r = sessionID r0 -> fence r = fence r0 ->
      locks m' !! key = Some r -> (forall k x, k <> key -> locks m' !! k = Some x -> locks m !! k = Some x) ->
      effect m m'.

Lemma sameSession_true s r : sameSession s r = true <-> sessionID r = s.
Proof. apply bool_decide_eq_true. Qed.

(** The grant at the end of [TryAcquireLease] and [Renew]. *)
Lemma grant_effect key session ttl m0 m1 rec m2 l :
  liveHolderLocked key m0 = (m1, rec) -> grantLocked key session ttl rec m1 = (m2, l) ->
  effect m0 m2 /\ leaseKey l = key /\ LeaseSession l = session /\
  locks m2 !! key = Some (mkRec session (Fence l) (ExpiresAt l)) /\
  (GrantedNow l = true -> counter m2 key = Fence l /\ Fence l = wrapu 64 (counter m0 key + 1)) /\
  (GrantedNow l = false -> exists r0, locks m0 !! key = Some r0 /\ sessionID r0 = session /\ fence r0 = Fence l).
Proof.
  intros E1 E2. pose proof (liveHolder_shrinks _ _ _ _ E1) as [Hf Hsub].
  destruct (liveHolder_spec _ _ _ _ E1) as (_ & Hk & Hr & _ & _).
  destruct (grant_spec _ _ _ _ _ _ _ E2) as (Elk & Es & Eg & El & _ & Hfence).
  assert (Hoth : forall k x, k <> key -> locks m2 !! k = Some x -> locks m0 !! k = Some x).
  { intros k x Hn Hx. rewrite El, lookup_insert_ne in Hx by done. by eapply lookup_weaken. }
  assert (Hlk : locks m2 !! key = Some (mkRec session (Fence l) (ExpiresAt l))) by (by rewrite El, lookup_insert_eq).
  assert (Ec : counter m1 key = counter m0 key) by (unfold counter; by rewrite Hf).
  destruct (GrantedNow l) eqn:G; destruct Hfence as [Hf2 Hf3].
  - rewrite Ec in Hf3. rewrite Hf in Hf2. split_and!; try done.
    + by apply (eff_mint _ _ key (mkRec session (Fence l) (ExpiresAt l))).
    + intros _. split; [|done]. unfold counter. by rewrite Hf2, lookup_insert_eq.
  - destruct rec as [r0|]; [|done]. specialize (Hr r0 eq_refl). symmetry in Eg.
    apply negb_false_iff, sameSession_true in Eg. split_and!; try done.
    + apply (eff_keep _ _ key (mkRec session (Fence l) (ExpiresAt l)) r0); simpl; congruence || done.
    + intros _. exists r0. split_and!; congruence.
Qed.

Lemma TryAcquire_ok ns d s ttl m m' l :
  TryAcquireLease ns d s ttl m = (m', Ok l) ->
  exists m1 rec, liveHolderLocked (ns, d) m = (m1, rec) /\ grantLocked (ns, d) s ttl rec m1 = (m', l) /\
    forall r, rec = Some r -> sessionID r = s.
Proof.
  unfold TryAcquireLease. destruct (liveHolderLocked (ns, d) m) as [m1 [r|]] eqn:E.
  - destruct (sameSession s r) eqn:Es; simpl; [|done]. destruct (grantLocked _ _ _ _ _) as [m2 l2] eqn:G.
    intros [= <- <-]. exists m1, (Some r). split_and!; try done. intros r' [= <-]. by apply sameSession_true.
  - destruct (grantLocked _ _ _ _ _) as [m2 l2] eqn:G. intros [= <- <-]. exists m1, None. split_and!; done.
Qed.

Lemma exec_effect op m : effect m (exec op m).
Proof.
  destruct op as [ns d s ttl|ns d s ttl|ns d s|s|ls|ns d s|ls|ns s ops| | |]; simpl.
  - destruct (TryAcquireLease ns d s ttl m) as [m' [l|e|]] eqn:E; simpl.
    + destruct (TryAcquire_ok _ _ _ _ _ _ _ E) as (m1 & rec & E1 & E2 & _).
      apply (grant_effect _ _ _ _ _ _ _ _ E1 E2).
    + apply eff_shrink. revert E. unfold TryAcquireLease. destruct (liveHolderLocked _ m) as [m1 [r|]] eqn:E1.
      * destruct (negb _); [|by destruct (grantLocked _ _ _ _ _)]. intros [= <- _]. by eapply liveHolder_shrinks.
      * by destruct (grantLocked _ _ _ _ _).
    + apply eff_shrink. revert E. unfold TryAcquireLease. destruct (liveHolderLocked _ m) as [m1 [r|]] eqn:E1;
        [destruct (negb _); [done|]|]; by destruct (grantLocked _ _ _ _ _).
  - unfold Renew. destruct (liveHolderLocked _ m) as [m1 rec] eqn:E1.
    destruct (match rec with Some r => sameSession s r | None => false end);
      [|apply eff_shrink; by eapply liveHolder_shrinks].
    destruct (grantLocked _ _ _ _ _) as [m2 l] eqn:E2. apply (grant_effect _ _ _ _ _ _ _ _ E1 E2).
  - apply eff_shrink. unfold Release. destruct (locks m !! (ns, d)); [|done]. destruct (sameSession _ _); [|done].
    split; [done|]. apply delete_subseteq.
  - apply eff_shrink. split; [done|]. apply map_filter_subseteq.
  - apply eff_shrink, release_shrinks.
  - apply eff_shrink. unfold AssertHeld. destruct (liveHolderLocked _ m) as [m1 rec] eqn:E1.
    apply liveHolder_shrinks in E1. by destruct (match rec with Some r => sameSession s r | None => false end).
  - apply eff_shrink, validate_shrinks.
  - apply eff_shrink, assertUnheld_shrinks.
  - apply eff_shrink. split; [done|]. apply map_filter_subseteq.
  - by apply eff_shrink.
  - by apply eff_shrink.
Qed.

Lemma effect_inv m m' : effect m m' -> lm_inv m -> lm_inv m'.
Proof.
  intros [[Ef Hs]|key r Ef Efr Hk Ho|key r r0 Ef H0 Es Ee Hk Ho] I k x Hx.
  - rewrite Ef. apply I. by eapply lookup_weaken.
  - rewrite Ef. destruct (decide (k = key)) as [->|Hn]; [rewrite lookup_insert_eq; congruence|].
    rewrite lookup_insert_ne by done. auto.
  - rewrite Ef. destruct (decide (k = key)) as [->|Hn]; [|auto]. rewrite (I _ _ H0). congruence.
Qed.

Lemma effect_counter m m' k :
  effect m m' -> 0 <= counter m k < 2 ^ 64 - 1 -> counter m k <= counter m' k <= counter m k + 1.
Proof.
  intros [[Ef Hs]|key r Ef Efr Hk Ho|key r r0 Ef H0 Es Ee Hk Ho] Hc; unfold counter in *; rewrite Ef; try lia.
  destruct (decide (k = key)) as [->|Hn]; [|rewrite lookup_insert_ne by done; lia].
  rewrite lookup_insert_eq. simpl. rewrite Efr. fold (counter m key) in *.
  rewrite wrapu_id; [lia|unfold is_u; lia].
Qed.

Lemma effect_issued m m' l :
  effect m m' -> 0 <= counter m (leaseKey l) < 2 ^ 64 - 1 -> issued m l -> issued m' l.
Proof.
  intros He Hc [H1 H2]. pose proof (effect_counter _ _ _ He Hc). split; [lia|]. intros E r Hr.
  destruct He as [[Ef Hs]|key r' Ef Efr Hk Ho|key r' r0 Ef H0 Es Ee Hk Ho].
  - apply H2; [lia|]. by eapply lookup_weaken.
  - destruct (decide (leaseKey l = key)) as [<-|Hn]; [|apply H2; [lia|auto]].
    exfalso. assert (counter m' (leaseKey l) = fence r') as E' by (unfold counter; by rewrite Ef, lookup_insert_eq).
    rewrite Efr, wrapu_id in E' by (unfold is_u; lia). lia.
  - destruct (decide (leaseKey l = key)) as [<-|Hn]; [|apply H2; [lia|auto]].
    rewrite Hk in Hr. injection Hr as <-. rewrite Es. apply H2; [lia|done].
Qed.

(** ** Sequences of operations *)

(** After [n] operations: the invariant, and every counter at most [n]. *)
Definition after (n : nat) (m : LockManager) : Prop :=
  lm_inv m /\ forall k, 0 <= counter m k <= Z.of_nat n.

Lemma after_exec n op m : Z.of_nat n < 2 ^ 64 - 1 -> after n m -> after (S n) (exec op m).
Proof.
  intros Hn [I Hc]. pose proof (exec_effect op m) as He. split; [by eapply effect_inv|].
  intros k. specialize (Hc k). pose proof (effect_counter _ _ k He ltac:(lia)). lia.
Qed.

Lemma after_execs n ops m : Z.of_nat (n + length ops) < 2 ^ 64 -> after n m -> after (n + length ops) (execs ops m).
Proof.
  revert n m; induction ops as [|op ops IH]; intros n m Hn Ha; simpl in *.
  - by rewrite Nat.add_0_r.
  - rewrite <- Nat.add_succ_comm. apply IH; [lia|]. apply after_exec; [lia|done].
Qed.

Lemma issued_execs n ops m l :
  Z.of_nat (n + length ops) < 2 ^ 64 -> after n m -> issued m l -> issued (execs ops m) l.
Proof.
  revert n m; induction ops as [|op ops IH]; intros n m Hn Ha Hi; simpl in *; [done|].
  apply (IH (S n)); [lia|apply after_exec; [lia|done]|].
  eapply effect_issued; [apply exec_effect| |done]. destruct Ha as [_ Hc]. specialize (Hc (leaseKey l)). lia.
Qed.

Lemma counter_execs n ops m k :
  Z.of_nat (n + length ops) < 2 ^ 64 -> after n m -> counter m k <= counter (execs ops m) k.
Proof.
  revert n m; induction ops as [|op ops IH]; intros n m Hn Ha; simpl in *; [lia|].
  etrans; [|apply (IH (S n)); [lia|apply after_exec; [lia|done]]].
  destruct Ha as [_ Hc]. specialize (Hc k). apply (effect_counter _ _ k (exec_effect op m)). lia.
Qed.

Lemma after_new : after 0 NewLockManager.
Proof. split; [done|]. intros k. unfold counter, NewLockManager. cbn [fences]. rewrite lookup_empty. simpl. lia. Qed.

(** A granted lease was issued, and one of another session on its key is superseded. *)
Lemma acquire_issued n ns d s ttl m m' l :
  Z.of_nat n < 2 ^ 64 - 1 -> after n m -> TryAcquireLease ns d s ttl m = (m', Ok l) ->
  issued m' l /\ after (S n) m' /\ leaseKey l = (ns, d) /\ LeaseSession l = s /\ Fence l = counter m' (ns, d) /\
  forall l0, leaseKey l0 = (ns, d) -> LeaseSession l0 <> s -> issued m l0 -> Fence l0 < Fence l.
Proof.
  intros Hn Ha E. pose proof (after_exec n (DoAcquire ns d s ttl) m Hn Ha) as Ha'. simpl in Ha'. rewrite E in Ha'. simpl in Ha'.
  destruct (TryAcquire_ok _ _ _ _ _ _ _ E) as (m1 & rec & E1 & E2 & Hrec).
  destruct (grant_effect _ _ _ _ _ _ _ _ E1 E2) as (_ & Elk & Els & Elock & Hg & Hk).
  assert (Ec : Fence l = counter m' (ns, d)).
  { destruct Ha' as [I' _]. unfold counter. by rewrite (I' _ _ Elock). }
  split_and!; try done.
  - split; [rewrite Elk; lia|]. rewrite Elk. intros _ r Hr. rewrite Elock in Hr. injection Hr as <-. simpl. done.
  - intros l0 Ek0 Es0 [H1 H2]. rewrite Ek0 in *. destruct Ha as [I Hc]. specialize (Hc (ns, d)).
    destruct (GrantedNow l) eqn:G.
    + destruct (Hg eq_refl) as [_ Hf]. rewrite wrapu_id in Hf by (unfold is_u; lia). lia.
    + destruct (Hk eq_refl) as (r0 & Hr0 & Hs0 & Hf0). pose proof (I _ _ Hr0) as Hcnt.
      assert (counter m (ns, d) = Fence l) as Ecm by (unfold counter; rewrite Hcnt; simpl; done).
      destruct (Z.eq_dec (Fence l0) (counter m (ns, d))) as [E0|]; [|lia].
      destruct Es0. rewrite <- (H2 E0 r0 Hr0). done.
Qed.

Lemma validate_superseded l m :
  lm_inv m -> Fence l < counter m (leaseKey l) -> exists e, (ValidateFences [l] m).2 = Err e.
Proof.
  intros I Hlt. simpl. destruct (liveHolderLocked (leaseKey l) m) as [m' rec] eqn:E.
  destruct (liveHolder_spec _ _ _ _ E) as (_ & _ & Hr & _).
  destruct rec as [r|]; [|by eexists]. pose proof (I _ _ (Hr r eq_refl)) as Hf.
  unfold counter in Hlt. rewrite Hf in Hlt. simpl in Hlt.
  destruct (Z.eqb_spec (fence r) (Fence l)); [lia|]. rewrite andb_false_r. by eexists.
Qed.

(** C7. Fencing: once another session has been granted a document, a lease handed out on it before
    fails validation for ever after, whatever sequence of operations comes before, between and after,
    and whatever the clock does. *)
Theorem stale_lease_refused ops1 ops2 ops3 ns doc s1 ttl1 s2 ttl2 m1 l1 m2 l2
  (Hn : Z.of_nat (length ops1 + length ops2 + length ops3) + 2 < 2 ^ 64)
  (E1 : TryAcquireLease ns doc s1 ttl1 (execs ops1 NewLockManager) = (m1, Ok l1))
  (E2 : TryAcquireLease ns doc s2 ttl2 (execs ops2 m1) = (m2, Ok l2))
  (Hs : s1 <> s2) :
  exists e, (ValidateFences [l1] (execs ops3 m2)).2 = Err e.
Proof.
  pose proof (after_execs 0 ops1 NewLockManager ltac:(simpl; lia) after_new) as A1. simpl in A1.
  set (n1 := length ops1) in *. set (n2 := length ops2) in *. set (n3 := length ops3) in *.
  destruct (acquire_issued n1 _ _ _ _ _ _ _ ltac:(lia) A1 E1) as (I1 & A2 & K1 & S1 & _ & _).
  pose proof (after_execs (S n1) ops2 m1 ltac:(lia) A2) as A3.
  pose proof (issued_execs (S n1) ops2 m1 l1 ltac:(lia) A2 I1) as I2.
  destruct (acquire_issued (S n1 + n2) _ _ _ _ _ _ _ ltac:(lia) A3 E2) as (_ & A4 & _ & _ & F2 & Hlt).
  specialize (Hlt l1 K1 ltac:(congruence) I2).
  pose proof (after_execs (S (S n1 + n2)) ops3 m2 ltac:(lia) A4) as [I5 _].
  apply validate_superseded; [done|]. rewrite K1.
  pose proof (counter_execs (S (S n1 + n2)) ops3 m2 (ns, doc) ltac:(lia) A4). lia.
Qed.

(** Two leases on one document that validate together are the same session's, with the same fence. *)
Theorem ValidateFences_exclusive m m' l1 l2
  (Hk : leaseKey l1 = leaseKey l2) (Hv : ValidateFences [l1; l2] m = (m', Ok tt)) :
  LeaseSession l1 = LeaseSession l2 /\ Fence l1 = Fence l2.
Proof.
  simpl in Hv. rewrite <- Hk in Hv. destruct (liveHolderLocked _ m) as [m1 rec1] eqn:E1.
  destruct rec1 as [r1|]; [|done]. destruct (_ && _) eqn:V1; [|done].
  destruct (liveHolderLocked _ m1) as [m2 rec2] eqn:E2. destruct rec2 as [r2|]; [|done].
  destruct (sameSession (LeaseSession l2) r2 && _) eqn:V2; [|done].
  destruct (liveHolder_spec _ _ _ _ E1) as (_ & K1 & _). destruct (liveHolder_spec _ _ _ _ E2) as (_ & _ & K2 & _).
  rewrite (K2 _ eq_refl) in K1. injection K1 as ->.
  apply andb_true_iff in V1 as [V1%sameSession_true V1'], V2 as [V2%sameSession_true V2']. split; [congruence|lia].
Qed.

(** ** Documents of a transaction *)

Lemma documentIDs_spec ops seen out d :
  (forall x, x ∈ out <-> x ∈ seen) ->
  d ∈ documentIDs ops seen out <-> d ∈ out \/ exists op, op ∈ ops /\ OpDocID op = Some d.
Proof.
  revert seen out; induction ops as [|op ops IH]; intros seen out Hs; simpl.
  - set_solver.
  - destruct (OpDocID op) as [x|] eqn:E; [case_decide as Hx|].
    + rewrite IH by done. apply Hs in Hx. set_solver.
    + rewrite IH by set_solver. set_solver.
    + rewrite IH by done. set_solver.
Qed.

Lemma documentIDs_nodup ops seen out :
  (forall x, x ∈ out <-> x ∈ seen) -> NoDup out -> NoDup (documentIDs ops seen out).
Proof.
  revert seen out; induction ops as [|op ops IH]; intros seen out Hs Hn; simpl; [done|].
  destruct (OpDocID op) as [x|] eqn:E; [case_decide as Hx|]; [by apply IH| |by apply IH].
  apply IH; [set_solver|]. apply NoDup_app. split_and!; [done|set_solver|apply NoDup_singleton].
Qed.

(** The documents the lock manager visits for a transaction. *)
Definition visited (ops : list Op) : list UUID := isort doc_less (DocumentIDsIn ops).

Lemma visited_spec ops d : d ∈ visited ops <-> exists op, op ∈ ops /\ OpDocID op = Some d.
Proof.
  unfold visited, DocumentIDsIn. rewrite isort_perm, documentIDs_spec by set_solver. set_solver.
Qed.

Lemma visited_nodup ops : NoDup (visited ops).
Proof. unfold visited. rewrite isort_perm. apply documentIDs_nodup; [set_solver|constructor]. Qed.

Lemma assertUnheld_spec ns s ids m :
  let '(m', r) := assertUnheld ns s ids m in
  match r with
  | Ok _ => forall d rec, d ∈ ids -> locks m' !! (ns, d) = Some rec -> sessionID rec = s
  | Err e => exists d rec, d ∈ ids /\ locks m' !! (ns, d) = Some rec /\ sessionID rec <> s /\
      e = mkLocked ns (UUIDString d) (sessionID rec)
  | Panic => False
  end.
Proof.
  revert m; induction ids as [|d ids IH]; intros m; simpl; [set_solver|].
  destruct (liveHolderLocked (ns, d) m) as [m1 rec] eqn:E. destruct (liveHolder_spec _ _ _ _ E) as (_ & Hk & _).
  assert (Hrest : (forall r, rec = Some r -> sessionID r = s) ->
    let '(m', r) := assertUnheld ns s ids m1 in
    match r with
    | Ok _ => forall d' rec, d' ∈ d :: ids -> locks m' !! (ns, d') = Some rec -> sessionID rec = s
    | Err e => exists d' rec, d' ∈ d :: ids /\ locks m' !! (ns, d') = Some rec /\ sessionID rec <> s /\
        e = mkLocked ns (UUIDString d') (sessionID rec)
    | Panic => False
    end).
  { intros Hrec. specialize (IH m1). pose proof (assertUnheld_shrinks ns s ids m1) as [_ Hsub].
    destruct (assertUnheld ns s ids m1) as [m' [[]|e|]]; simpl in Hsub; [| |done].
    - intros d' r Hd' Hr. apply elem_of_cons in Hd' as [->|Hd']; [|eauto]. apply Hrec.
      rewrite <- Hk. by eapply lookup_weaken.
    - destruct IH as (d' & r & Hd' & ?). exists d', r. split; [set_solver|done]. }
  destruct rec as [r|]; [|by apply Hrest]. destruct (sameSession s r) eqn:Es; simpl.
  - apply Hrest. intros r' [= <-]. by apply sameSession_true.
  - exists d, r. split_and!; [set_solver|done| |done]. intros E'. apply sameSession_true in E'. congruence.
Qed.

(** The commit check: when [AssertUnheldByOthers] passes, no document the transaction writes is
    locked by another session; when it refuses, it names a document of the transaction and the other
    session that holds it. *)
Theorem AssertUnheldByOthers_spec ns s ops m :
  let '(m', r) := AssertUnheldByOthers ns s ops m in
  match r with
  | Ok _ => forall op d rec, op ∈ ops -> OpDocID op = Some d -> locks m' !! (ns, d) = Some rec -> sessionID rec = s
  | Err e => exists op d rec, op ∈ ops /\ OpDocID op = Some d /\ locks m' !! (ns, d) = Some rec /\
      sessionID rec <> s /\ e = mkLocked ns (UUIDString d) (sessionID rec)
  | Panic => False
  end.
Proof.
  unfold AssertUnheldByOthers. fold (visited ops). pose proof (assertUnheld_spec ns s (visited ops) m) as L.
  destruct (assertUnheld ns s (visited ops) m) as [m' [[]|e|]]; [| |done].
  - intros op d rec Hop Hd. apply L, visited_spec. eauto.
  - destruct L as (d & rec & Hd & ?). apply visited_spec in Hd as (op & ? & ?). eauto 7.
Qed.

(** ** Acquiring for a transaction *)

Lemma releaseOne_spec l m k r :
  locks (releaseOne l m) !! k = Some r <->
  locks m !! k = Some r /\
  ~ (GrantedNow l = true /\ leaseKey l = k /\ sessionID r = LeaseSession l /\ fence r = Fence l).
Proof.
  unfold releaseOne. destruct (GrantedNow l); simpl; [|naive_solver].
  destruct (decide (leaseKey l = k)) as [<-|Hn].
  - destruct (locks m !! leaseKey l) as [r0|] eqn:E; [|naive_solver].
    destruct (sameSession (LeaseSession l) r0) eqn:Es; simpl.
    + apply sameSession_true in Es. destruct (Z.eqb_spec (fence r0) (Fence l)); simpl.
      * rewrite lookup_delete_eq. split; [done|]. intros [[= <-] Hx]. by destruct Hx.
      * rewrite E. split; [|naive_solver]. intros [= <-]. split; [done|]. naive_solver.
    + rewrite E. split; [|naive_solver]. intros [= <-]. split; [done|]. intros (_ & _ & Hx & _).
      apply sameSession_true in Hx. congruence.
  - assert (locks (match locks m !! leaseKey l with
      | Some r0 => if sameSession (LeaseSession l) r0 && (fence r0 =? Fence l) then set_locks (delete (leaseKey l)) m else m
      | None => m end) !! k = locks m !! k) as ->; [|naive_solver].
    destruct (locks m !! leaseKey l); [|done]. destruct (_ && _); [|done]. simpl. by rewrite lookup_delete_ne.
Qed.

Lemma releaseLeases_spec ls m k r :
  locks (ReleaseLeases ls m) !! k = Some r <->
  locks m !! k = Some r /\
  forall l, l ∈ ls -> ~ (GrantedNow l = true /\ leaseKey l = k /\ sessionID r = LeaseSession l /\ fence r = Fence l).
Proof.
  revert m; induction ls as [|l ls IH]; intros m; [set_solver|].
  cbn [ReleaseLeases foldl]. fold (ReleaseLeases ls (releaseOne l m)). rewrite IH, releaseOne_spec. set_solver.
Qed.

Lemma liveHolder_unexpiring key m m' rec r0 :
  liveHolderLocked key m = (m', rec) -> locks m !! key = Some r0 -> expiresAt r0 = None -> rec = Some r0 /\ m' = m.
Proof. unfold liveHolderLocked. intros E Hk He. rewrite Hk, He in E. by injection E as <- <-. Qed.

(** What a successful [TryAcquireLease] leaves. *)
Lemma TryAcquire_result ns d s ttl m m' l :
  TryAcquireLease ns d s ttl m = (m', Ok l) ->
  leaseKey l = (ns, d) /\ LeaseSession l = s /\
  locks m' !! (ns, d) = Some (mkRec s (Fence l) (ExpiresAt l)) /\
  (forall k, k <> (ns, d) -> locks m' !! k = locks m !! k) /\
  (GrantedNow l = false -> exists r0, locks m !! (ns, d) = Some r0 /\ sessionID r0 = s /\ fence r0 = Fence l) /\
  (forall r0, locks m !! (ns, d) = Some r0 -> expiresAt r0 = None ->
     GrantedNow l = false /\ sessionID r0 = s /\ fence r0 = Fence l).
Proof.
  intros E. destruct (TryAcquire_ok _ _ _ _ _ _ _ E) as (m1 & rec & E1 & E2 & Hrec).
  destruct (grant_effect _ _ _ _ _ _ _ _ E1 E2) as (_ & K & S & L & _ & G).
  destruct (liveHolder_spec _ _ _ _ E1) as (_ & _ & _ & Ho & _).
  destruct (grant_spec _ _ _ _ _ _ _ E2) as (_ & _ & Eg & El & _ & Hf). split_and!; try done.
  - intros k Hk. rewrite El, lookup_insert_ne by done. auto.
  - intros r0 H0 He. destruct (liveHolder_unexpiring _ _ _ _ _ E1 H0 He) as [-> ->].
    pose proof (Hrec r0 eq_refl) as Hs. rewrite (proj2 (sameSession_true s r0) Hs) in Eg. simpl in Eg.
    rewrite Eg in Hf. destruct Hf as [_ Hf]. done.
Qed.

(** The loop of [AcquireAllForTransaction] after the documents [done], from [m0]. *)
Record acquiring (m0 : LockManager) (ns s : bytes) (done : list UUID) (leases : list Lease) (m : LockManager) : Prop := {
  acq_leases : map leaseKey leases = map (fun d => (ns, d)) done;
  acq_held : forall l, l ∈ leases -> LeaseSession l = s /\
    locks m !! leaseKey l = Some (mkRec s (Fence l) (ExpiresAt l));
  acq_origin : forall k r, locks m !! k = Some r ->
    (exists l, l ∈ leases /\ GrantedNow l = true /\ leaseKey l = k /\ sessionID r = LeaseSession l /\ fence r = Fence l) \/
    (exists r0, locks m0 !! k = Some r0 /\ sessionID r0 = sessionID r /\ fence r0 = fence r);
  acq_kept : forall k r0, locks m0 !! k = Some r0 -> expiresAt r0 = None ->
    (k ∉ map (fun d => (ns, d)) done -> locks m !! k = Some r0) /\
    (forall l, l ∈ leases -> leaseKey l = k -> GrantedNow l = false /\ sessionID r0 = s /\ fence r0 = Fence l);
}.

Lemma acquiring_start m ns s : acquiring m ns s [] [] m.
Proof. constructor; [done|set_solver|eauto|set_solver]. Qed.

Lemma acquiring_step m0 ns s done leases m d ttl m' l :
  acquiring m0 ns s done leases m -> d ∉ done -> TryAcquireLease ns d s ttl m = (m', Ok l) ->
  acquiring m0 ns s (done ++ [d]) (leases ++ [l]) m'.
Proof.
  intros [A1 A2 A3 A4] Hd E. destruct (TryAcquire_result _ _ _ _ _ _ _ E) as (K & S & L & O & G & U).
  assert (Hnew : forall l', l' ∈ leases -> leaseKey l' <> (ns, d)).
  { intros l' Hl' E'. apply Hd. apply (list_elem_of_fmap_2 leaseKey) in Hl'. unfold fmap, list_fmap in Hl'.
    change (leaseKey l' ∈ map leaseKey leases) in Hl'. rewrite A1, E' in Hl'.
    apply list_elem_of_fmap in Hl' as (d' & [= <-] & ?). done. }
  constructor.
  - rewrite !map_app, A1. simpl. by rewrite K.
  - intros l' Hl'. apply elem_of_app in Hl' as [Hl'|Hl'].
    + rewrite O by auto. auto.
    + apply list_elem_of_singleton in Hl' as ->. by rewrite K.
  - intros k r Hr. destruct (decide (k = (ns, d))) as [->|Hn].
    + rewrite L in Hr. injection Hr as <-. destruct (GrantedNow l) eqn:Eg.
      * left. exists l. split_and!; [set_solver|done..].
      * destruct (G eq_refl) as (r0 & H0 & Es & Ef). destruct (A3 _ _ H0) as [(l' & Hl' & ? & ? & ?)|(r1 & ? & ? & ?)].
        -- by destruct (Hnew l').
        -- right. exists r1. simpl. split_and!; [done|congruence..].
    + rewrite O in Hr by done. destruct (A3 _ _ Hr) as [(l' & Hl' & ?)|?]; [left; exists l'; set_solver|by right].
  - intros k r0 H0 He. destruct (A4 k r0 H0 He) as [B1 B2]. split.
    + intros Hk. rewrite map_app in Hk. rewrite O by set_solver. apply B1. set_solver.
    + intros l' Hl' Ek. apply elem_of_app in Hl' as [Hl'|Hl']; [by apply B2|].
      apply list_elem_of_singleton in Hl' as ->. rewrite K in Ek. subst k. apply U; [|done].
      apply B1. intros Hin. apply list_elem_of_fmap in Hin as (d' & [= <-] & ?). done.
Qed.

Lemma TryAcquire_err ns d s ttl m m' e :
  TryAcquireLease ns d s ttl m = (m', Err e) -> exists rec, liveHolderLocked (ns, d) m = (m', Some rec).
Proof.
  unfold TryAcquireLease. destruct (liveHolderLocked _ m) as [m1 [r|]];
    [destruct (negb _); [|by destruct (grantLocked _ _ _ _ _)]|by destruct (grantLocked _ _ _ _ _)].
  intros [= <- _]. by exists r.
Qed.

Lemma acquiring_rollback m0 ns s done leases m d m1 rec :
  acquiring m0 ns s done leases m -> d ∉ done -> liveHolderLocked (ns, d) m = (m1, Some rec) ->
  (forall k r, locks (ReleaseLeases leases m1) !! k = Some r ->
     exists r0, locks m0 !! k = Some r0 /\ sessionID r0 = sessionID r /\ fence r0 = fence r) /\
  (forall k r0, locks m0 !! k = Some r0 -> expiresAt r0 = None ->
     exists r, locks (ReleaseLeases leases m1) !! k = Some r /\ sessionID r = sessionID r0 /\ fence r = fence r0).
Proof.
  intros [A1 A2 A3 A4] Hd E. destruct (liveHolder_spec _ _ _ _ E) as (_ & Hk & Hm & Ho & _).
  assert (Hsame : forall k, locks m1 !! k = locks m !! k).
  { intros k. destruct (decide (k = (ns, d))) as [->|]; [|by apply Ho]. rewrite Hk. symmetry. by apply Hm. }
  split.
  - intros k r Hr. apply releaseLeases_spec in Hr as [Hr Hno]. rewrite Hsame in Hr.
    destruct (A3 _ _ Hr) as [(l & Hl & ?)|?]; [|done]. by destruct (Hno l Hl).
  - intros k r0 H0 He. destruct (A4 k r0 H0 He) as [B1 B2].
    assert (Hno : forall r l, l ∈ leases ->
      ~ (GrantedNow l = true /\ leaseKey l = k /\ sessionID r = LeaseSession l /\ fence r = Fence l)).
    { intros r l Hl (Hg & Ek & _). destruct (B2 l Hl Ek) as [Hg' _]. congruence. }
    destruct (decide (k ∈ map (fun d => (ns, d)) done)) as [Hin|Hin].
    + rewrite <- A1 in Hin. apply list_elem_of_fmap in Hin as (l & -> & Hl). destruct (A2 l Hl) as [_ Hlk].
      destruct (B2 l Hl eq_refl) as (_ & Es & Ef). exists (mkRec s (Fence l) (ExpiresAt l)).
      split; [|by simpl]. apply releaseLeases_spec. rewrite Hsame. split; [done|]. intros l'. apply Hno.
    + exists r0. split; [|done]. apply releaseLeases_spec. rewrite Hsame. split; [auto|]. intros l'. apply Hno.
Qed.

(** The loop's outcome. *)
Lemma acquireAll_spec m0 ns s ttl ids done leases m :
  acquiring m0 ns s done leases m -> NoDup (done ++ ids) ->
  let '(m', r) := acquireAll ns s ttl ids leases m in
  match r with
  | Ok ls => acquiring m0 ns s (done ++ ids) ls m'
  | Err _ =>
    (forall k r, locks m' !! k = Some r ->
       exists r0, locks m0 !! k = Some r0 /\ sessionID r0 = sessionID r /\ fence r0 = fence r) /\
    (forall k r0, locks m0 !! k = Some r0 -> expiresAt r0 = None ->
       exists r, locks m' !! k = Some r /\ sessionID r = sessionID r0 /\ fence r = fence r0)
  | Panic => False
  end.
Proof.
  revert done leases m. induction ids as [|d ids IH]; intros done leases m A Hn; simpl.
  - by rewrite app_nil_r.
  - assert (Hd : d ∉ done).
    { apply NoDup_app in Hn as (_ & Hx & _). intros Hin. destruct (Hx d Hin). by left. }
    destruct (TryAcquireLease ns d s ttl m) as [m1 [l|e|]] eqn:E.
    + replace (done ++ d :: ids) with ((done ++ [d]) ++ ids) in * by (by rewrite <- app_assoc).
      apply IH; [|done]. by eapply acquiring_step.
    + destruct (TryAcquire_err _ _ _ _ _ _ _ E) as (rec & E'). by eapply acquiring_rollback.
    + revert E. unfold TryAcquireLease. destruct (liveHolderLocked _ m) as [? [r|]];
        [destruct (negb _); [done|]|]; by destruct (grantLocked _ _ _ _ _).
Qed.

(** [AcquireAllForTransaction] is all or nothing: on success the session holds every document the
    transaction writes, with the leases returned; on refusal it holds no lock it did not hold before,
    and no lock held without a deadline is lost. *)
Theorem AcquireAllForTransaction_spec ns s ops ttl m :
  let '(m', r) := AcquireAllForTransaction ns s ops ttl m in
  match r with
  | Ok leases => forall op d, op ∈ ops -> OpDocID op = Some d ->
      exists l, l ∈ leases /\ leaseKey l = (ns, d) /\ LeaseSession l = s /\
        locks m' !! (ns, d) = Some (mkRec s (Fence l) (ExpiresAt l))
  | Err _ =>
    (forall k r, locks m' !! k = Some r ->
       exists r0, locks m !! k = Some r0 /\ sessionID r0 = sessionID r /\ fence r0 = fence r) /\
    (forall k r0, locks m !! k = Some r0 -> expiresAt r0 = None ->
       exists r, locks m' !! k = Some r /\ sessionID r = sessionID r0 /\ fence r = fence r0)
  | Panic => False
  end.
Proof.
  unfold AcquireAllForTransaction. fold (visited ops).
  pose proof (acquireAll_spec m ns s ttl (visited ops) [] [] m (acquiring_start m ns s) (visited_nodup ops)) as L.
  destruct (acquireAll ns s ttl (visited ops) [] m) as [m' [ls|e|]]; [|done..].
  intros op d Hop Hd. destruct L as [A1 A2 _ _]. simpl in A1.
  assert (Hin : (ns, d) ∈ map leaseKey ls).
  { rewrite A1. apply list_elem_of_fmap. exists d. split; [done|]. apply visited_spec. eauto. }
  apply list_elem_of_fmap in Hin as (l & E & Hl). destruct (A2 l Hl) as [Hs Hk]. exists l. by rewrite E.
Qed.

(** ** Expiry *)

(** The unexpired holder of a key at time [t]. *)
Definition live (t : Z) (m : LockManager) (key : lockKey) : option lockRecord :=
  match locks m !! key with Some r => if expired t r then None else Some r | None => None end.

(** Sweeping is invisible: at every time from the sweep on, every document has the same unexpired
    holder with and without it. *)
Theorem Sweep_invisible m t key (Ht : now (reads m) <= t) :
  live t (Sweep m).1 key = live t m key.
Proof.
  unfold live, Sweep, readClock. cbn [fst locks set_locks]. rewrite map_lookup_filter.
  destruct (locks m !! key) as [r|]; [|done]. simpl. case_guard as Hg; simpl; [done|].
  apply not_false_iff_true in Hg. unfold expired in *. destruct (expiresAt r) as [e|]; [|done].
  destruct (Z.ltb_spec (now (reads m)) e); [done|]. destruct (Z.ltb_spec t e); [lia|done].
Qed.

(** Re-acquiring a leased document without a time to live removes the deadline of the lease: it
    stays locked after the time the holder was promised, until released. *)
Theorem TryAcquire_drops_deadline m ns doc s ttl m1 l1 e
  (E1 : TryAcquireLease ns doc s ttl m = (m1, Ok l1)) (He : ExpiresAt l1 = Some e)
  (Hnow : now (reads m1) < e) :
  exists m2, TryAcquire ns doc s m1 = (m2, Ok tt) /\
    forall t, live t m2 (ns, doc) = Some (mkRec s (Fence l1) None).
Proof.
  destruct (TryAcquire_result _ _ _ _ _ _ _ E1) as (_ & _ & Hk & _). rewrite He in Hk.
  unfold TryAcquire, TryAcquireLease, liveHolderLocked, readClock. rewrite Hk. simpl.
  destruct (Z.ltb_spec (now (reads m1)) e); [|lia]. simpl. unfold sameSession. simpl.
  rewrite bool_decide_true by done. simpl. unfold grantLocked, sameSession. simpl.
  rewrite bool_decide_true by done. simpl. eexists. split; [reflexivity|].
  intros t. unfold live. simpl. by rewrite lookup_insert_eq.
Qed.


End Clock.

(** ** Sample runs, with a clock that advances by one at every read *)

Definition clock (n : nat) : Z := Z.of_nat n.
Definition doc1 : UUID := mkUUID 0 1.
Definition grant (s : bytes) (ttl : Z) (m : LockManager) : LockManager * Lease :=
  match TryAcquireLease clock (str "ns") doc1 s ttl m with
  | (m, Ok l) => (m, l)
  | (m, _) => (m, mkLease [] doc1 [] 0 None false)
  end.
(** Session [a] gets a lease that lasts one read of the clock; [b] takes the document over. *)
Definition granted_a := grant (str "a") 1 NewLockManager.
Definition granted_b := grant (str "b") 0 granted_a.1.

Lemma stale_lease_refused_witness :
  exists e, (ValidateFences clock [granted_a.2] (execs clock [DoSweep] granted_b.1)).2 = Err e.
Proof.
  apply (stale_lease_refused clock [] [] [DoSweep] (str "ns") doc1 (str "a") 1 (str "b") 0
    granted_a.1 granted_a.2 granted_b.1 granted_b.2).
  - reflexivity.
  - vm_compute. reflexivity.
  - vm_compute. reflexivity.
  - discriminate.
Defined.

Lemma ValidateFences_exclusive_witness : str "b" = str "b" /\ 2 = 2.
Proof.
  apply (ValidateFences_exclusive clock granted_b.1 granted_b.1 granted_b.2 granted_b.2).
  - reflexivity.
  - vm_compute. reflexivity.
Defined.

Lemma Sweep_invisible_witness : live 5 (Sweep clock granted_a.1).1 (str "ns", doc1) = None.
Proof. apply (Sweep_invisible clock granted_a.1 5 (str "ns", doc1)). vm_compute. discriminate. Defined.

Definition granted_long := grant (str "a") 9 NewLockManager.
Lemma TryAcquire_drops_deadline_witness :
  exists m2, TryAcquire clock (str "ns") doc1 (str "a") granted_long.1 = (m2, Ok tt) /\
    forall t, live t m2 (str "ns", doc1) = Some (mkRec (str "a") 1 None).
Proof.
  apply (TryAcquire_drops_deadline clock NewLockManager (str "ns") doc1 (str "a") 9 granted_long.1 granted_long.2 9).
  - vm_compute. reflexivity.
  - vm_compute. reflexivity.
  - vm_compute. reflexivity.
Defined.

End LockManager.
