(* ===== verification/Schema.v ===== *)
(** Values, types and named schemas of the wire codec: [codec/value.go] and
    the package [codec/schema].

    A record value's field map is an association list in increasing field-id
    order without duplicates.  A float is its IEEE 754 bit pattern. *)

From S2P Require Import Prelude Primitives.

Module Schema.

Inductive Value :=
  | NullValue
  | BoolValue (V : bool)
  | Int32Value (V : Z)
  | Int64Value (V : Z)
  | Float64Value (bits : Z)
  | StringValue (V : bytes)
  | BytesValue (V : bytes)
  | ArrayValue (Elements : list Value)
  | MapValue (Entries : list (Value * Value))
  | RecordValue (Fields : list (Z * Value))
  | EnumValue (Ordinal : Z) (Symbol : bytes)
  | UnionValue (Branch : Z) (Inner : Value)
  | FixedValue (V : bytes)
  | DateValue (DaysSinceEpoch : Z)
  | TimestampValue (EpochMicros : Z) (TZ : option bytes)
  | UUIDValue (MSB LSB : Z).

(** [PhysicalKind] is a byte; these are the kinds [byTag] knows. *)
Inductive PhysicalKind :=
  | PhysicalNull | PhysicalBool | PhysicalInt8 | PhysicalInt16 | PhysicalInt32 | PhysicalInt64
  | PhysicalFloat32 | PhysicalFloat64 | PhysicalBytes | PhysicalString | PhysicalArray
  | PhysicalMap | PhysicalRecord | PhysicalEnum | PhysicalUnion | PhysicalFixed.

Definition Tag (p : PhysicalKind) : byte :=
  match p with
  | PhysicalNull => x00 | PhysicalBool => x01 | PhysicalInt8 => x02 | PhysicalInt16 => x03
  | PhysicalInt32 => x04 | PhysicalInt64 => x05 | PhysicalFloat32 => x06 | PhysicalFloat64 => x07
  | PhysicalBytes => x08 | PhysicalString => x09 | PhysicalArray => x0a | PhysicalMap => x0b
  | PhysicalRecord => x0c | PhysicalEnum => x0d | PhysicalUnion => x0e | PhysicalFixed => x0f
  end.

Definition PhysicalFromTag (tag : byte) : option PhysicalKind :=
  match tag with
  | x00 => Some PhysicalNull | x01 => Some PhysicalBool | x02 => Some PhysicalInt8 | x03 => Some PhysicalInt16
  | x04 => Some PhysicalInt32 | x05 => Some PhysicalInt64 | x06 => Some PhysicalFloat32 | x07 => Some PhysicalFloat64
  | x08 => Some PhysicalBytes | x09 => Some PhysicalString | x0a => Some PhysicalArray | x0b => Some PhysicalMap
  | x0c => Some PhysicalRecord | x0d => Some PhysicalEnum | x0e => Some PhysicalUnion | x0f => Some PhysicalFixed
  | _ => None
  end.

#[export] Instance physical_eq_dec : EqDecision PhysicalKind.
Proof. solve_decision. Defined.

Inductive LogicalAnnotation :=
  | LogicalDate
  | LogicalTimeMicros
  | LogicalTimestampMicros (Timezone : option bytes)
  | LogicalTimestampMillis (Timezone : option bytes)
  | LogicalUUID
  | LogicalDuration
  | LogicalCustom (ID : bytes).

Inductive SType :=
  | Primitive (Physical : PhysicalKind) (Logical : option LogicalAnnotation)
  | Ref (FullyQualifiedName : bytes)
  | Nullable (Inner : SType)
  | Array (Element : SType)
  | Map (Key Val : SType)
  | Union (Branches : list SType).

Definition Prim (p : PhysicalKind) : SType := Primitive p None.

(** A default is a value of the codec; other Go values do not occur as defaults. *)
Record FieldSchema := mkField { ID : Z; FieldName : bytes; FieldType : SType; Default : option Value }.
Record RecordSchema := mkRecordSchema { RecordName : bytes; RecordNamespace : bytes; SchemaFields : list FieldSchema }.
Record EnumSchema := mkEnumSchema { EnumName : bytes; EnumNamespace : bytes; Symbols : list bytes }.
Record FixedSchema := mkFixedSchema {
  FixedName : bytes; FixedNamespace : bytes; Size : Z; FixedLogical : option LogicalAnnotation;
}.

Definition fqname (namespace name : bytes) : bytes := namespace ++ str "." ++ name.

(** [fieldsByID] is filled in the order of the fields: a later one replaces an
    earlier one of the same id. *)
Definition FieldByID (r : RecordSchema) (id : Z) : option FieldSchema :=
  foldl (fun found f => if ID f =? id then Some f else found) None (SchemaFields r).

Inductive NamedSchema :=
  | NamedRecord (s : RecordSchema)
  | NamedEnum (s : EnumSchema)
  | NamedFixed (s : FixedSchema).

Record Registry := mkRegistry {
  records : gmap bytes RecordSchema;
  enums : gmap bytes EnumSchema;
  fixed : gmap bytes FixedSchema;
  frozen : bool;
}.

Definition NewRegistry : Registry := mkRegistry ∅ ∅ ∅ false.

(** Registering on a frozen registry panics. *)
Definition RegisterRecord {E} (rec : RecordSchema) (r : Registry) : go E Registry :=
  if frozen r then Panic
  else Ok (mkRegistry (<[fqname (RecordNamespace rec) (RecordName rec) := rec]> (records r)) (enums r) (fixed r) false).
Definition RegisterEnum {E} (e : EnumSchema) (r : Registry) : go E Registry :=
  if frozen r then Panic
  else Ok (mkRegistry (records r) (<[fqname (EnumNamespace e) (EnumName e) := e]> (enums r)) (fixed r) false).
Definition RegisterFixed {E} (f : FixedSchema) (r : Registry) : go E Registry :=
  if frozen r then Panic
  else Ok (mkRegistry (records r) (enums r) (<[fqname (FixedNamespace f) (FixedName f) := f]> (fixed r)) false).
Definition Freeze (r : Registry) : Registry := mkRegistry (records r) (enums r) (fixed r) true.

Definition Resolve (fq : bytes) (r : Registry) : option NamedSchema :=
  match records r !! fq with
  | Some s => Some (NamedRecord s)
  | None =>
    match enums r !! fq with
    | Some s => Some (NamedEnum s)
    | None => NamedFixed <$> fixed r !! fq
    end
  end.

(** ** Lemmas *)

Lemma PhysicalFromTag_Tag p : PhysicalFromTag (Tag p) = Some p.
Proof. by destruct p. Qed.

Lemma FieldByID_in r f :
  NoDup (map ID (SchemaFields r)) -> f ∈ SchemaFields r -> FieldByID r (ID f) = Some f.
Proof.
  unfold FieldByID. generalize (@None FieldSchema). induction (SchemaFields r) as [|g fs IH]; intros acc Hn Hf; [set_solver|].
  simpl in *. apply NoDup_cons in Hn as [Hg Hn]. apply elem_of_cons in Hf as [->|Hf]; [|by apply IH].
  rewrite Z.eqb_refl. clear IH Hn. induction fs as [|h fs IH]; [done|]. simpl in *.
  destruct (Z.eqb_spec (ID h) (ID g)); [set_solver|]. apply IH. set_solver.
Qed.

End Schema.
