(* ===== verification/KdbCodec.v ===== *)
(** The wire codec: [codec/wire_numbers.go] and [codec/wirecodec.go].

    An encoder returns the bytes it appends.  A decoder threads its cursor.
    Errors carry the message of the source. *)

From S2P Require Import Prelude Primitives Schema.
Import Schema.

Module KdbCodec.

Inductive codec_error :=
  | EncodeError (msg : bytes)
  | DecodeError (msg : bytes) (pos : Z)
  | SchemaError (msg : bytes)
  | OutOfFuel.

Abbreviation res := (go codec_error).

(** ** Variable-length integers *)

(** The loop of [appendLeb128U32]; a uint32 has at most five groups of seven bits. *)
Fixpoint leb_loop (fuel : nat) (dst : bytes) (cur : Z) : bytes :=
  match fuel with
  | O => dst
  | S fuel =>
    let chunk := Z.land cur 127 in
    let cur := Z.shiftr cur 7 in
    if cur =? 0 then dst ++ [z2b chunk] else leb_loop fuel (dst ++ [z2b (Z.lor chunk 128)]) cur
  end.

Definition appendLeb128U32 (dst : bytes) (v : Z) : bytes := leb_loop 5 dst v.
Definition encodeLeb128U32 (v : Z) : bytes := appendLeb128U32 [] v.

Fixpoint readLeb_loop (fuel : nat) (raw : bytes) (pos result shift : Z) : res (Z * Z) :=
  match fuel with
  | O => Err (DecodeError (str "varint overflow") pos)
  | S fuel =>
    if zlen raw <=? pos then Err (DecodeError (str "truncated varint") pos)
    else
      b ← zindex raw pos;
      let pos := pos + 1 in
      let result := Z.lor result (wrapu 64 (Z.shiftl (Z.land (b2z b) 127) shift)) in
      if Z.land (b2z b) 128 =? 0 then Ok (result, pos)
      else
        let shift := shift + 7 in
        if 63 <? shift then Err (DecodeError (str "varint overflow") pos)
        else readLeb_loop fuel raw pos result shift
  end.

Definition readLeb128U64 (raw : bytes) (pos : Z) : res (Z * Z) := readLeb_loop 11 raw pos 0 0.

(** ** The cursor *)

Record cursor := mkCursor { raw : bytes; pos : Z; limit : Z }.
Definition at_pos (c : cursor) (p : Z) : cursor := mkCursor (raw c) p (limit c).

Definition u8 (c : cursor) : res (byte * cursor) :=
  if limit c <=? pos c then Err (DecodeError (str "eof u8") (pos c))
  else b ← zindex (raw c) (pos c); Ok (b, at_pos c (pos c + 1)).

(** [c.pos+n] is an int and may wrap; the slice expression then panics, as
    does [make] before it. *)
Definition rawN (n : Z) (c : cursor) : res (bytes * cursor) :=
  if (n <? 0) || (limit c <? wraps 64 (pos c + n)) then Err (DecodeError (str "eof raw") (pos c))
  else s ← zslice (raw c) (pos c) (wraps 64 (pos c + n)); Ok (s, at_pos c (wraps 64 (pos c + n))).

Definition leb (c : cursor) : res (Z * cursor) :=
  '(v, p) ← readLeb128U64 (raw c) (pos c); Ok (v, at_pos c p).

Definition checkElementCount (n : Z) (kind : bytes) (c : cursor) : res unit :=
  let remaining := limit c - pos c in
  if (remaining <? 0) || (remaining <? n) then Err (DecodeError (kind ++ str " length exceeds remaining input") (pos c))
  else Ok tt.

Definition putLe16 (v : Z) : bytes := [z2b v; z2b (Z.shiftr (wrapu 16 v) 8)].
Definition putLe32s (v : Z) : bytes := putLe32 (wrapu 32 v).
Definition putLe64s (v : Z) : bytes := putLe64 (wrapu 64 v).

Definition readLe16 {E} (b : bytes) : go E Z :=
  b0 ← zindex b 0; b1 ← zindex b 1; Ok (wraps 16 (Z.lor (b2z b0) (Z.shiftl (b2z b1) 8))).

Definition appendLebBytes (dst r : bytes) : bytes := appendLeb128U32 dst (wrapu 32 (zlen r)) ++ r.
Definition appendLebString (dst s : bytes) : bytes := appendLeb128U32 dst (wrapu 32 (zlen s)) ++ s.
Definition lebPrefix (r : bytes) : bytes := appendLebBytes [] r.

Definition readLebBytes (c : cursor) : res (bytes * cursor) := '(n, c) ← leb c; rawN (wraps 64 n) c.
Definition readLebString (c : cursor) : res (bytes * cursor) := readLebBytes c.

(** ** Encoding *)

Definition fail {A} (msg : bytes) : res A := Err (EncodeError msg).

(** [math.IsInf(d, 0) || math.IsNaN(d)]: the exponent is all ones. *)
Definition non_finite (bits : Z) : bool := Z.land (Z.shiftr bits 52) 2047 =? 2047.

Definition uuidWire (v : Value) : res bytes :=
  match v with
  | UUIDValue m l => Ok (writeBE64 m ++ writeBE64 l)
  | FixedValue b => if negb (zlen b =? 16) then Panic else Ok b
  | _ => Panic
  end.

(** A failed type assertion panics. *)
Definition encodePhysicalOnly (v : Value) (phy : PhysicalKind) : res bytes :=
  match phy with
  | PhysicalNull => match v with NullValue => Ok [] | _ => fail (str "null") end
  | PhysicalBool => match v with BoolValue b => Ok [if b then x01 else x00] | _ => Panic end
  | PhysicalInt32 => match v with Int32Value i => Ok (putLe32s i) | _ => Panic end
  | PhysicalInt64 => match v with Int64Value i => Ok (putLe64s i) | _ => Panic end
  | PhysicalFloat64 =>
    match v with
    | Float64Value bits => if non_finite bits then fail (str "non-finite") else Ok (putLe64 bits)
    | _ => Panic
    end
  | PhysicalString => match v with StringValue s => Ok (appendLebString [] s) | _ => Panic end
  | PhysicalBytes => match v with BytesValue b => Ok (appendLebBytes [] b) | _ => Panic end
  | _ => fail (str "composite needs structural type")
  end.

Definition encodePrim (v : Value) (phy : PhysicalKind) (logical : option LogicalAnnotation) : res bytes :=
  match logical with
  | Some LogicalDate =>
    match v with
    | DateValue d => Ok (putLe32s d)
    | Int32Value i => Ok (putLe32s i)
    | _ => fail (str "DATE value")
    end
  | Some (LogicalTimestampMicros _) =>
    match v with TimestampValue t _ => Ok (putLe64s t) | _ => fail (str "timestamp") end
  | Some LogicalUUID => uuidWire v
  | _ => encodePhysicalOnly v phy
  end.

Definition valuesEqual (a b : Value) : bool :=
  match a, b with
  | NullValue, NullValue => true
  | Int32Value x, Int32Value y => x =? y
  | StringValue x, StringValue y => bool_decide (x = y)
  | BoolValue x, BoolValue y => Bool.eqb x y
  | _, _ => false
  end.

Definition omitField (cur : Value) (def : option Value) : bool :=
  match def with None => false | Some d => valuesEqual cur d end.

Definition physicalTag (typ : SType) (reg : Registry) : PhysicalKind :=
  match typ with
  | Primitive p _ => p
  | Array _ => PhysicalArray
  | Map _ _ => PhysicalMap
  | Union _ | Nullable _ => PhysicalUnion
  | Ref fq =>
    match Resolve fq reg with
    | Some (NamedRecord _) => PhysicalRecord
    | Some (NamedEnum _) => PhysicalEnum
    | Some (NamedFixed _) => PhysicalFixed
    | None => PhysicalRecord
    end
  end.

Definition field_ltb (a b : FieldSchema) : bool := ID a <? ID b.

(** The key lookup in a field map. *)
Fixpoint field_lookup {A} (id : Z) (fields : list (Z * A)) : option A :=
  match fields with
  | [] => None
  | (k, x) :: fields => if k =? id then Some x else field_lookup id fields
  end.

Section Encode.
Context (reg : Registry).

(** A record's body.  Each field value comes with its encoder, [encodeValue] of
    that value. *)
Fixpoint encode_fields (fields : list FieldSchema) (rec : list (Z * (Value * (SType -> res bytes)))) : res bytes :=
  match fields with
  | [] => Ok []
  | f :: fs =>
    match field_lookup (ID f) rec with
    | None => match Default f with Some _ => encode_fields fs rec | None => fail (str "missing field " ++ FieldName f) end
    | Some (cur, enc) =>
      if omitField cur (Default f) then encode_fields fs rec
      else
        b ← enc (FieldType f);
        rest ← encode_fields fs rec;
        Ok (appendLeb128U32 [] (wrapu 32 (ID f)) ++ Tag (physicalTag (FieldType f) reg) :: b ++ rest)
    end
  end.

(** Sorting a slice that is sorted leaves it alone, so the check before it is
    not a separate case. *)
Definition encodeRecord (rec : list (Z * (Value * (SType -> res bytes)))) (sch : RecordSchema) : res bytes :=
  body ← encode_fields (isort field_ltb (SchemaFields sch)) rec;
  Ok (appendLeb128U32 [] (wrapu 32 (zlen body)) ++ body).

Fixpoint encodeValue (v : Value) {struct v} : SType -> res bytes :=
  fix enc (typ : SType) {struct typ} : res bytes :=
    match typ with
    | Nullable inner =>
      match v with NullValue => Ok [x00] | _ => b ← enc inner; Ok (x01 :: b) end
    | Union branches =>
      match v with
      | UnionValue br inner =>
        if (br <? 0) || (zlen branches <=? br) then fail (str "branch")
        else match branches !! Z.to_nat br with
             | Some t => b ← encodeValue inner t; Ok (z2b br :: b)
             | None => Panic
             end
      | _ => fail (str "UnionVal expected")
      end
    | Primitive p l => encodePrim v p l
    | Array el =>
      match v with
      | ArrayValue els =>
        b ← (fix all (els : list Value) : res bytes :=
               match els with
               | [] => Ok []
               | e :: es => b ← encodeValue e el; bs ← all es; Ok (b ++ bs)
               end) els;
        Ok (appendLeb128U32 [] (wrapu 32 (zlen els)) ++ b)
      | _ => fail (str "ArrayVal expected")
      end
    | Map kt vt =>
      match v with
      | MapValue entries =>
        b ← (fix all (es : list (Value * Value)) : res bytes :=
               match es with
               | [] => Ok []
               | (k, x) :: es => bk ← encodeValue k kt; bx ← encodeValue x vt; bs ← all es; Ok (bk ++ bx ++ bs)
               end) entries;
        Ok (appendLeb128U32 [] (wrapu 32 (zlen entries)) ++ b)
      | _ => fail (str "MapVal expected")
      end
    | Ref fq =>
      match Resolve fq reg with
      | None => Err (SchemaError (str "unknown type " ++ fq))
      | Some (NamedRecord s) =>
        match v with
        | RecordValue fields => encodeRecord (map (fun '(id, x) => (id, (x, encodeValue x))) fields) s
        | _ => fail (str "RecordVal expected")
        end
      | Some (NamedEnum s) =>
        match v with
        | EnumValue o _ =>
          if (o <? 0) || (zlen (Symbols s) <=? o) then fail (str "enum ordinal range") else Ok (putLe32s o)
        | _ => fail (str "EnumVal expected")
        end
      | Some (NamedFixed s) =>
        match v with
        | FixedValue b => if negb (zlen b =? Size s) then fail (str "fixed bytes") else Ok b
        | _ => fail (str "FixedVal expected")
        end
      end
    end.

Definition wireEncode (v : Value) (typ : SType) : res bytes := encodeValue v typ.

End Encode.

(** ** Decoding *)

Definition bad {A} (msg : bytes) (c : cursor) : res A := Err (DecodeError msg (pos c)).

Definition decodePhysicalOnly (phy : PhysicalKind) (c : cursor) : res (Value * cursor) :=
  match phy with
  | PhysicalNull => Ok (NullValue, c)
  | PhysicalBool => '(b, c) ← u8 c; Ok (BoolValue (negb (b2z b =? 0)), c)
  | PhysicalInt32 => '(r, c) ← rawN 4 c; i ← readLe32 r 0; Ok (Int32Value i, c)
  | PhysicalInt64 => '(r, c) ← rawN 8 c; i ← readLe64 r 0; Ok (Int64Value (wraps 64 i), c)
  | PhysicalFloat64 => '(r, c) ← rawN 8 c; bits ← readLe64 r 0; Ok (Float64Value bits, c)
  | PhysicalString => '(s, c) ← readLebString c; Ok (StringValue s, c)
  | PhysicalBytes => '(b, c) ← readLebBytes c; Ok (BytesValue b, c)
  | _ => bad (str "unexpected composite physical") c
  end.

Definition decodePrim (phy : PhysicalKind) (logical : option LogicalAnnotation) (c : cursor) : res (Value * cursor) :=
  match logical with
  | Some LogicalDate => '(r, c) ← rawN 4 c; d ← readLe32 r 0; Ok (DateValue d, c)
  | Some (LogicalTimestampMicros _) =>
    '(r, c) ← rawN 8 c; t ← readLe64 r 0; Ok (TimestampValue (wraps 64 t) None, c)
  | Some LogicalUUID =>
    '(r, c) ← rawN 16 c; m ← readBE64 r 0; l ← readBE64 r 8; Ok (UUIDValue m l, c)
  | _ => decodePhysicalOnly phy c
  end.

Definition upliftFixed (s : FixedSchema) (b : bytes) : res Value :=
  if negb (zlen b =? Size s) then Err (DecodeError (str "fixed size mismatch") (-1))
  else match FixedLogical s with
       | Some LogicalUUID => m ← readBE64 b 0; l ← readBE64 b 8; Ok (UUIDValue m l)
       | _ => Ok (FixedValue b)
       end.

Definition skipTagged (kind : PhysicalKind) (c : cursor) : res cursor :=
  match kind with
  | PhysicalInt32 | PhysicalFloat32 => '(_, c) ← rawN 4 c; Ok c
  | PhysicalInt64 | PhysicalFloat64 => '(_, c) ← rawN 8 c; Ok c
  | PhysicalString | PhysicalBytes => '(_, c) ← readLebBytes c; Ok c
  | PhysicalBool | PhysicalInt8 => '(_, c) ← u8 c; Ok c
  | PhysicalInt16 => '(_, c) ← rawN 2 c; Ok c
  | _ => bad (str "skip unsupported") c
  end.

(** [fields[id] = x] on a field map. *)
Fixpoint field_insert {A} (id : Z) (x : A) (fields : list (Z * A)) : list (Z * A) :=
  match fields with
  | [] => [(id, x)]
  | (k, y) :: rest =>
    if id <? k then (id, x) :: fields
    else if id =? k then (id, x) :: rest
    else (k, y) :: field_insert id x rest
  end.

(** The defaults of the fields that were not on the wire. *)
Definition fill_defaults (sch : RecordSchema) (fields : list (Z * Value)) : list (Z * Value) :=
  foldl (fun fields f =>
    match field_lookup (ID f) fields, Default f with
    | None, Some d => field_insert (ID f) d fields
    | _, _ => fields
    end) fields (SchemaFields sch).

(** Arrays and maps: [n] elements, one after the other. *)
Fixpoint decode_many {A} (dec : cursor -> res (A * cursor)) (n : nat) (c : cursor) : res (list A * cursor) :=
  match n with
  | O => Ok ([], c)
  | S n => '(x, c) ← dec c; '(xs, c) ← decode_many dec n c; Ok (x :: xs, c)
  end.

Section Decode.
Context (reg : Registry).

(** The loop of [decodeRecord] over the record's bytes, [slab].  An iteration
    reads at least one byte. *)
Fixpoint decode_fields (decodeValue : SType -> cursor -> res (Value * cursor)) (sch : RecordSchema)
    (fuel : nat) (slab : bytes) (p : Z) (fields : list (Z * Value)) : res (list (Z * Value)) :=
  if zlen slab <=? p then Ok fields
  else
    match fuel with
    | O => Err OutOfFuel
    | S fuel =>
      '(fidU, p) ← readLeb128U64 slab p;
      let fid := wraps 64 fidU in
      if zlen slab <=? p then Err (DecodeError (str "truncated record") p)
      else
        tag ← zindex slab p;
        let p := p + 1 in
        match PhysicalFromTag tag with
        | None => Err (DecodeError (str "unknown record tag") p)
        | Some kind =>
          match FieldByID sch fid with
          | None =>
            c ← skipTagged kind (mkCursor slab p (zlen slab));
            decode_fields decodeValue sch fuel slab (pos c) fields
          | Some field =>
            if negb (bool_decide (kind = physicalTag (FieldType field) reg))
            then Err (DecodeError (str "record tag mismatch") p)
            else
              '(v, c) ← decodeValue (FieldType field) (mkCursor slab p (zlen slab));
              decode_fields decodeValue sch fuel slab (pos c) (field_insert fid v fields)
          end
        end
    end.

Definition decodeRecord (decodeValue : SType -> cursor -> res (Value * cursor)) (sch : RecordSchema)
    (c : cursor) : res (Value * cursor) :=
  '(slabLen, c) ← leb c;
  '(slab, c) ← rawN (wraps 64 slabLen) c;
  fields ← decode_fields decodeValue sch (length slab) slab 0 [];
  Ok (RecordValue (fill_defaults sch fields), c).

Definition decodeNamed (decodeValue : SType -> cursor -> res (Value * cursor)) (fq : bytes)
    (c : cursor) : res (Value * cursor) :=
  match Resolve fq reg with
  | None => Err (SchemaError (str "unknown type " ++ fq))
  | Some (NamedRecord s) => decodeRecord decodeValue s c
  | Some (NamedEnum s) =>
    '(r, c) ← rawN 4 c;
    ord ← readLe32 r 0;
    let sym := if (0 <=? ord) && (ord <? zlen (Symbols s))
               then default (str "<unknown>") (Symbols s !! Z.to_nat ord) else str "<unknown>" in
    Ok (EnumValue ord sym, c)
  | Some (NamedFixed s) => '(r, c) ← rawN (Size s) c; v ← upliftFixed s r; Ok (v, c)
  end.

(** Recursion goes through a named record only on that record's own bytes, so
    [fuel] counts nested records. *)
Fixpoint decodeValue (fuel : nat) {struct fuel} : SType -> cursor -> res (Value * cursor) :=
  fix dec (typ : SType) (c : cursor) {struct typ} : res (Value * cursor) :=
    match typ with
    | Nullable inner =>
      '(m, c) ← u8 c;
      if b2z m =? 0 then Ok (NullValue, c)
      else if b2z m =? 1 then dec inner c
      else bad (str "bad nullable") c
    | Union branches =>
      '(br, c) ← u8 c;
      '(inner, c) ← (fix pick (bs : list SType) (n : nat) : res (Value * cursor) :=
         match bs, n with
         | [], _ => bad (str "bad union") c
         | t :: _, O => dec t c
         | _ :: bs, S n => pick bs n
         end) branches (Z.to_nat (b2z br));
      Ok (UnionValue (b2z br) inner, c)
    | Primitive p l => decodePrim p l c
    | Array el =>
      '(n, c) ← leb c;
      _ ← checkElementCount n (str "array") c;
      '(xs, c) ← decode_many (dec el) (Z.to_nat n) c;
      Ok (ArrayValue xs, c)
    | Map kt vt =>
      '(n, c) ← leb c;
      _ ← checkElementCount n (str "map") c;
      '(xs, c) ← decode_many (fun c => '(k, c) ← dec kt c; '(v, c) ← dec vt c; Ok ((k, v), c)) (Z.to_nat n) c;
      Ok (MapValue xs, c)
    | Ref fq =>
      match fuel with
      | O => Err OutOfFuel
      | S fuel => decodeNamed (decodeValue fuel) fq c
      end
    end.

(** A record nested in a record is shorter than it, so there are fewer nested
    records than bytes. *)
Definition wireDecodeFirst (b : bytes) (typ : SType) : res (Value * Z) :=
  '(v, c) ← decodeValue (S (length b)) typ (mkCursor b 0 (zlen b));
  Ok (v, pos c).

Definition wireDecode (b : bytes) (typ : SType) : res Value :=
  '(v, consumed) ← wireDecodeFirst b typ;
  if negb (consumed =? zlen b) then Err (DecodeError (str "trailing bytes") consumed) else Ok v.

End Decode.
End KdbCodec.
