(* ===== verification/CodecCorrect.v ===== *)
(** The wire codec round trip: what [encodeValue] writes for a well-typed
    value, [decodeValue] reads back, in any surrounding bytes. *)

From S2P Require Import Prelude Primitives Schema KdbCodec.
Import Schema KdbCodec.

Module CodecCorrect.

(** ** Reading exactly what was written *)

(** The cursor is after [p], with [rest] to come. *)
Definition positioned (c : cursor) (p rest : bytes) : Prop :=
  raw c = p ++ rest /\ pos c = zlen p /\ limit c = zlen (raw c) /\ slice_ok (raw c).

(** [dec] reads [enc] as [x], wherever it is. *)
Definition decodes {A} (dec : cursor -> res (A * cursor)) (enc : bytes) (x : A) : Prop :=
  forall c p rest, positioned c p (enc ++ rest) -> dec c = Ok (x, at_pos c (pos c + zlen enc)).

Lemma positioned_after c p enc rest :
  positioned c p (enc ++ rest) -> positioned (at_pos c (pos c + zlen enc)) (p ++ enc) rest.
Proof.
  intros (H1 & H2 & H3 & H4). unfold positioned, at_pos. simpl. rewrite zlen_app, <- app_assoc. by rewrite H2.
Qed.

Lemma decodes_ret {A} (x : A) : decodes (fun c => Ok (x, c)) [] x.
Proof. intros c p rest _. unfold zlen. simpl. rewrite Z.add_0_r. by destruct c. Qed.

Lemma decodes_bind {A B} (d : cursor -> res (A * cursor)) (k : A -> cursor -> res (B * cursor)) e1 e2 x y :
  decodes d e1 x -> decodes (k x) e2 y -> decodes (fun c => '(x, c) ← d c; k x c) (e1 ++ e2) y.
Proof.
  intros H1 H2 c p rest Hc. rewrite <- app_assoc in Hc. rewrite (H1 _ _ _ Hc). cbn [mbind go_bind].
  rewrite (H2 _ _ _ (positioned_after _ _ _ _ Hc)). unfold at_pos. simpl. rewrite zlen_app, Z.add_assoc. done.
Qed.

(** The last read of a decoder, followed by a result. *)
Lemma decodes_map {A B} (d : cursor -> res (A * cursor)) (f : A -> B) e x :
  decodes d e x -> decodes (fun c => '(x, c) ← d c; Ok (f x, c)) e (f x).
Proof.
  intros H. rewrite <- (app_nil_r e). apply (decodes_bind d (fun x c => Ok (f x, c)) e [] x); [done|].
  apply decodes_ret.
Qed.

Lemma decodes_ext {A} (d d' : cursor -> res (A * cursor)) e x :
  (forall c, d c = d' c) -> decodes d e x -> decodes d' e x.
Proof. intros E H c p rest Hc. rewrite <- E. eauto. Qed.

Lemma positioned_len c p rest : positioned c p rest -> limit c = zlen p + zlen rest /\ zlen p + zlen rest < 2 ^ 63.
Proof. intros (H1 & H2 & H3 & H4). unfold slice_ok in H4. rewrite H1, zlen_app in *. lia. Qed.

Lemma decodes_u8 b : decodes u8 [b] b.
Proof.
  intros c p rest Hc. pose proof (positioned_len _ _ _ Hc) as [Hl _]. destruct Hc as (H1 & H2 & _ & _).
  unfold u8. rewrite zlen_app in Hl. change (zlen [b]) with 1 in *. pose proof (zlen_nonneg rest).
  destruct (Z.leb_spec (limit c) (pos c)); [lia|]. rewrite H1, H2.
  replace (zlen p) with (zlen p + 0) at 1 by lia. rewrite zindex_app_r by lia. done.
Qed.

Lemma decodes_rawN b n : n = zlen b -> decodes (rawN n) b b.
Proof.
  intros -> c p rest Hc. pose proof (positioned_len _ _ _ Hc) as [Hl Hs]. destruct Hc as (H1 & H2 & _ & _).
  rewrite zlen_app in *. pose proof (zlen_nonneg p). pose proof (zlen_nonneg b). pose proof (zlen_nonneg rest).
  unfold rawN. rewrite wraps_id by (unfold is_s; simpl; lia).
  destruct (Z.ltb_spec (zlen b) 0); [lia|]. destruct (Z.ltb_spec (limit c) (pos c + zlen b)); [lia|]. cbn [orb].
  rewrite H1, H2. replace (zlen p) with (zlen p + 0) at 1 by lia. rewrite zslice_app_r, zslice_prefix by lia. done.
Qed.

(** ** Variable-length integers *)

Lemma leb_loop_app fuel dst v : leb_loop fuel dst v = dst ++ leb_loop fuel [] v.
Proof.
  revert dst v; induction fuel as [|fuel IH]; intros dst v; cbn [leb_loop]; [by rewrite app_nil_r|].
  destruct (_ =? 0); [done|]. rewrite IH, (IH ([] ++ _)), <- app_assoc. done.
Qed.

Lemma land_127 v : 0 <= v -> Z.land v 127 = v mod 128.
Proof. intros. change 127 with (Z.ones 7). rewrite Z.land_ones by lia. done. Qed.

Lemma chunk_bits v : 0 <= v -> b2z (z2b (Z.land v 127)) = v mod 128 /\ Z.land (v mod 128) 128 = 0.
Proof.
  intros Hv. rewrite land_127 by done. pose proof (Z.mod_pos_bound v 128 ltac:(lia)).
  rewrite b2z_z2b, Z.mod_small by lia. split; [done|].
  apply Z.bits_inj_0. intros i. rewrite Z.land_spec. destruct (Z.testbit 128 i) eqn:E; [|apply andb_false_r].
  assert (i = 7) as -> by (change 128 with (2 ^ 7) in E; rewrite Z.pow2_bits_eqb in E by lia; lia).
  rewrite Z.testbit_eqb by lia. change (2 ^ 7) with 128. rewrite Z.div_small by lia. done.
Qed.

Lemma chunk_cont v : 0 <= v -> b2z (z2b (Z.lor (Z.land v 127) 128)) = v mod 128 + 128.
Proof.
  intros Hv. rewrite land_127 by done. pose proof (Z.mod_pos_bound v 128 ltac:(lia)).
  rewrite b2z_z2b. change 128 with (Z.shiftl 1 7) at 2. rewrite lor_shiftl_add by lia.
  apply Z.mod_small. lia.
Qed.

Lemma land_cont x : 0 <= x < 128 -> Z.land (x + 128) 127 = x /\ Z.land (x + 128) 128 = 128.
Proof.
  intros Hx. replace (x + 128) with (Z.lor x (Z.shiftl 1 7)) by (rewrite lor_shiftl_add by lia; lia).
  rewrite !Z.land_lor_distr_l. change (Z.land (Z.shiftl 1 7) 127) with 0. change (Z.land (Z.shiftl 1 7) 128) with 128.
  destruct (chunk_bits x ltac:(lia)) as [_ Hc]. rewrite (Z.mod_small x 128) in Hc by lia.
  rewrite Hc, land_127, Z.mod_small by lia. rewrite Z.lor_0_r, Z.lor_0_l. done.
Qed.

Lemma wrap_shift v s : 0 <= s -> 0 <= v -> v * 2 ^ s < 2 ^ 64 -> wrapu 64 (Z.shiftl v s) = Z.shiftl v s.
Proof. intros. apply wrapu_id. unfold is_u. rewrite Z.shiftl_mul_pow2 by lia. nia. Qed.

Lemma readLeb_step fuel p b q result shift :
  readLeb_loop (S fuel) (p ++ b :: q) (zlen p) result shift =
  let result' := Z.lor result (wrapu 64 (Z.shiftl (Z.land (b2z b) 127) shift)) in
  if Z.land (b2z b) 128 =? 0 then Ok (result', zlen p + 1)
  else if 63 <? shift + 7 then Err (DecodeError (str "varint overflow") (zlen p + 1))
  else readLeb_loop fuel (p ++ b :: q) (zlen p + 1) result' (shift + 7).
Proof.
  cbn [readLeb_loop]. rewrite zlen_app, zlen_cons. pose proof (zlen_nonneg q).
  destruct (Z.leb_spec (zlen p + (1 + zlen q)) (zlen p)); [lia|].
  assert (zindex (E:=codec_error) (p ++ b :: q) (zlen p) = Ok b) as ->; [|done].
  rewrite <- (Z.add_0_r (zlen p)). rewrite zindex_app_r by lia. done.
Qed.

(** One loop against the other: [fuel] groups of seven bits, read from bit [shift] on. *)
Lemma readLeb_leb fuel fuel' p v rest result shift :
  (fuel <= fuel')%nat -> 0 <= shift -> shift + 7 * Z.of_nat fuel <= 63 ->
  0 <= v < 2 ^ (7 * Z.of_nat fuel) -> 0 <= result < 2 ^ shift -> (0 < fuel)%nat ->
  readLeb_loop fuel' (p ++ leb_loop fuel [] v ++ rest) (zlen p) result shift =
  Ok (result + v * 2 ^ shift, zlen p + zlen (leb_loop fuel [] v)).
Proof.
  revert fuel' p v result shift. induction fuel as [|fuel IH]; intros fuel' p v result shift Hf Hs Hsf Hv Hr Hpos; [lia|].
  destruct fuel' as [|fuel']; [lia|]. cbn [leb_loop].
  assert (Hp7 : 2 ^ (7 * Z.of_nat (S fuel)) = 128 * 2 ^ (7 * Z.of_nat fuel)).
  { replace (7 * Z.of_nat (S fuel)) with (7 + 7 * Z.of_nat fuel) by lia. rewrite Z.pow_add_r by lia. done. }
  assert (Hsh : Z.shiftr v 7 = v / 128) by (rewrite Z.shiftr_div_pow2 by lia; done).
  pose proof (Z.mod_pos_bound v 128 ltac:(lia)). pose proof (Z.div_mod v 128 ltac:(lia)) as Hdm.
  assert (Hbig : 128 * 2 ^ shift <= 2 ^ 63).
  { transitivity (2 ^ (7 + shift)); [rewrite Z.pow_add_r by lia; lia|]. apply Z.pow_le_mono_r; lia. }
  rewrite Hsh. destruct (Z.eqb_spec (v / 128) 0) as [E|E].
  - cbn [app]. rewrite readLeb_step. cbv zeta. destruct (chunk_bits v ltac:(lia)) as [C1 C2]. rewrite C1, C2. cbn [Z.eqb].
    rewrite land_127, Z.mod_mod, wrap_shift, lor_shiftl_add by (lia || nia). do 2 f_equal. f_equal; lia.
  - rewrite leb_loop_app. cbn [app]. rewrite readLeb_step. cbv zeta. rewrite chunk_cont by lia.
    destruct (land_cont (v mod 128) ltac:(lia)) as [-> ->]. cbn [Z.eqb].
    rewrite wrap_shift, lor_shiftl_add by (lia || nia).
    destruct fuel as [|fuel]; [exfalso; change (2 ^ (7 * Z.of_nat 0)) with 1 in Hp7; zdm|].
    destruct (Z.ltb_spec 63 (shift + 7)); [lia|].
    set (b := z2b (Z.lor (Z.land v 127) 128)). set (tailb := leb_loop (S fuel) [] (v / 128)) in *.
    replace (p ++ b :: tailb ++ rest) with ((p ++ [b]) ++ tailb ++ rest) by (by rewrite <- app_assoc).
    replace (zlen p + 1) with (zlen (p ++ [b])) by (rewrite zlen_app; done).
    unfold tailb. rewrite IH; [|lia|lia|lia| | |lia].
    + rewrite !zlen_app, !zlen_cons. change (zlen (@nil byte)) with 0. rewrite Z.pow_add_r by lia.
      change (2 ^ 7) with 128. f_equal. f_equal; [nia|lia].
    + split; [apply Z.div_pos; lia|]. apply Z.div_lt_upper_bound; lia.
    + rewrite Z.pow_add_r by lia. change (2 ^ 7) with 128. nia.
Qed.

Lemma leb_loop_nonempty fuel v : 1 <= zlen (leb_loop (S fuel) [] v).
Proof.
  cbn [leb_loop]. destruct (_ =? 0); [done|]. rewrite leb_loop_app, zlen_app.
  match goal with |- context [leb_loop fuel [] ?x] => pose proof (zlen_nonneg (leb_loop fuel [] x)) end.
  unfold zlen at 1. simpl. lia.
Qed.

Lemma leb128_length v : 1 <= zlen (appendLeb128U32 [] v).
Proof. apply leb_loop_nonempty. Qed.

Lemma decodes_leb v : is_u 32 v -> decodes leb (appendLeb128U32 [] v) v.
Proof.
  intros Hv c p rest (H1 & H2 & H3 & H4). unfold leb, readLeb128U64, appendLeb128U32 in *. rewrite H1, H2.
  unfold is_u in Hv. rewrite (readLeb_leb 5 11) by (simpl; lia). cbn [mbind go_bind].
  rewrite Z.mul_1_r, Z.add_0_l. done.
Qed.


(** ** Fixed-width integers *)

Lemma sub_all (b : bytes) n : length b = n -> sub b 0 n = b.
Proof. intros <-. rewrite <- (app_nil_r b) at 1. by apply sub_prefix. Qed.

Lemma putLe32s_length v : length (putLe32s v) = 4%nat.
Proof. unfold putLe32s. rewrite putLe32_spec. apply le_bytes_length. Qed.
Lemma putLe64_length v : length (putLe64 v) = 8%nat.
Proof. rewrite putLe64_spec. apply le_bytes_length. Qed.

Lemma readLe32_put {E} i : is_s 32 i -> readLe32 (E:=E) (putLe32s i) 0 = Ok i.
Proof.
  intros Hi. rewrite readLe32_spec by (unfold zlen; rewrite ?putLe32s_length; lia).
  rewrite sub_all by apply putLe32s_length. unfold putLe32s. rewrite putLe32_spec, le_val_bytes.
  change (wrapu 32 i mod 2 ^ (8 * Z.of_nat 4)) with (wrapu 32 (wrapu 32 i)).
  rewrite !wraps_wrapu, wraps_id by (done || lia). done.
Qed.

Lemma readLe64_put {E} u : is_u 64 u -> readLe64 (E:=E) (putLe64 u) 0 = Ok u.
Proof.
  intros Hu. rewrite readLe64_spec by (unfold zlen; rewrite ?putLe64_length; lia).
  rewrite sub_all by apply putLe64_length. rewrite putLe64_spec, le_val_bytes.
  change (u mod 2 ^ (8 * Z.of_nat 8)) with (wrapu 64 u). by rewrite wrapu_id.
Qed.

Lemma readLe64_put_s {E} i : is_s 64 i -> (x ← readLe64 (E:=E) (putLe64s i) 0; Ok (wraps 64 x)) = Ok i.
Proof.
  intros Hi. unfold putLe64s. rewrite readLe64_put by (apply wrapu_range; lia). cbn [mbind go_bind].
  by rewrite wraps_wrapu, wraps_id by (done || lia).
Qed.

Lemma readBE64_pair {E} m l : is_s 64 m -> is_s 64 l ->
  readBE64 (E:=E) (writeBE64 m ++ writeBE64 l) 0 = Ok m /\ readBE64 (E:=E) (writeBE64 m ++ writeBE64 l) 8 = Ok l.
Proof.
  intros Hm Hl. split; [apply (readBE64_write [] _ _ Hm)|].
  rewrite <- (zlen_writeBE64 m). rewrite <- (app_nil_r (writeBE64 l)). apply (readBE64_write _ _ _ Hl).
Qed.

(** ** Well-typed values *)

Definition prim_wt (v : Value) (p : PhysicalKind) (l : option LogicalAnnotation) : Prop :=
  match l with
  | Some LogicalDate => match v with DateValue d => is_s 32 d | _ => False end
  | Some (LogicalTimestampMicros _) => match v with TimestampValue t None => is_s 64 t | _ => False end
  | Some LogicalUUID => match v with UUIDValue m l => is_s 64 m /\ is_s 64 l | _ => False end
  | _ =>
    match p, v with
    | PhysicalNull, NullValue => True
    | PhysicalBool, BoolValue _ => True
    | PhysicalInt32, Int32Value i => is_s 32 i
    | PhysicalInt64, Int64Value i => is_s 64 i
    | PhysicalFloat64, Float64Value bits => is_u 64 bits /\ non_finite bits = false
    | PhysicalString, StringValue _ => True
    | PhysicalBytes, BytesValue _ => True
    | _, _ => False
    end
  end.

(** Schemas whose field ids are distinct and fit the wire. *)
Definition schema_ok (s : RecordSchema) : Prop :=
  NoDup (map ID (SchemaFields s)) /\ Forall (fun f => 0 <= ID f < 2 ^ 31) (SchemaFields s).

Definition by_id (s : RecordSchema) : list FieldSchema := isort field_ltb (SchemaFields s).

Section Typed.
Context (reg : Registry).

(** Every encoding of the type has at least one byte. *)
Definition wide (t : SType) : bool :=
  match t with
  | Primitive p l =>
    match l with
    | Some LogicalDate | Some (LogicalTimestampMicros _) | Some LogicalUUID => true
    | _ => negb (bool_decide (p = PhysicalNull))
    end
  | Ref fq => match Resolve fq reg with Some (NamedFixed s) => 0 <? Size s | _ => true end
  | _ => true
  end.

(** A record's fields are those of its schema, in id order, each well-typed. *)
Fixpoint fields_wt (fields : list (Z * (SType -> Prop))) (fs : list FieldSchema) : Prop :=
  match fields, fs with
  | [], [] => True
  | (id, ok) :: fields, f :: fs => id = ID f /\ ok (FieldType f) /\ fields_wt fields fs
  | _, _ => False
  end.

Fixpoint wt (v : Value) {struct v} : SType -> Prop :=
  fix wtt (typ : SType) {struct typ} : Prop :=
    match typ with
    | Nullable inner => match v with NullValue => True | _ => wtt inner end
    | Union branches =>
      match v with
      | UnionValue br inner =>
        0 <= br < 256 /\ match branches !! Z.to_nat br with Some t => wt inner t | None => False end
      | _ => False
      end
    | Primitive p l => prim_wt v p l
    | Array el =>
      match v with
      | ArrayValue els =>
        wide el = true /\
        (fix all (els : list Value) : Prop := match els with [] => True | e :: es => wt e el /\ all es end) els
      | _ => False
      end
    | Map kt vt =>
      match v with
      | MapValue entries =>
        wide kt = true /\
        (fix all (es : list (Value * Value)) : Prop :=
           match es with [] => True | (k, x) :: es => wt k kt /\ wt x vt /\ all es end) entries
      | _ => False
      end
    | Ref fq =>
      match Resolve fq reg with
      | None => False
      | Some (NamedRecord s) =>
        match v with
        | RecordValue fields => schema_ok s /\ fields_wt (map (fun '(id, x) => (id, wt x)) fields) (by_id s)
        | _ => False
        end
      | Some (NamedEnum s) =>
        match v with
        | EnumValue o sym => 0 <= o < 2 ^ 31 /\ Symbols s !! Z.to_nat o = Some sym
        | _ => False
        end
      | Some (NamedFixed s) =>
        match v with
        | FixedValue b => zlen b = Size s /\ FixedLogical s <> Some LogicalUUID
        | _ => False
        end
      end
    end.

(** What the round trip needs of one value at one type. *)
Definition rt_as (v : Value) (t : SType) (b : bytes) : Prop :=
  encodeValue reg v t = Ok b /\ (wide t = true -> 1 <= zlen b) /\
  forall fuel, zlen b < 2 ^ 32 -> (length b < fuel)%nat -> decodes (decodeValue reg fuel t) b v.

Definition rt (v : Value) (t : SType) : Prop := exists b, rt_as v t b.

End Typed.

(** ** Induction on values *)

Section ValueInd.
Context (P : Value -> Prop).
Context (Hflat : forall v, match v with ArrayValue _ | MapValue _ | RecordValue _ | UnionValue _ _ => True | _ => P v end).
Context (Harray : forall els, Forall P els -> P (ArrayValue els)).
Context (Hmap : forall es, Forall (fun e => P e.1 /\ P e.2) es -> P (MapValue es)).
Context (Hrecord : forall fs, Forall (fun f => P f.2) fs -> P (RecordValue fs)).
Context (Hunion : forall b v, P v -> P (UnionValue b v)).

Fixpoint Value_ind' (v : Value) : P v :=
  match v with
  | ArrayValue els => Harray els ((fix go l : Forall P l :=
      match l with [] => Forall_nil_2 _ | e :: l => Forall_cons_2 _ _ _ (Value_ind' e) (go l) end) els)
  | MapValue es => Hmap es ((fix go l : Forall (fun e => P e.1 /\ P e.2) l :=
      match l with
      | [] => Forall_nil_2 _
      | (k, x) :: l => Forall_cons_2 _ (k, x) l (conj (Value_ind' k) (Value_ind' x)) (go l)
      end) es)
  | RecordValue fs => Hrecord fs ((fix go l : Forall (fun f => P f.2) l :=
      match l with [] => Forall_nil_2 _ | (id, x) :: l => Forall_cons_2 _ (id, x) l (Value_ind' x) (go l) end) fs)
  | UnionValue b v => Hunion b v (Value_ind' v)
  | v => Hflat v
  end.
End ValueInd.

(** ** One lemma per kind of type *)

Section RoundTrip.
Context (reg : Registry).

Lemma dec_prim fuel p l c : decodeValue reg fuel (Primitive p l) c = decodePrim p l c.
Proof. by destruct fuel. Qed.
Lemma dec_nullable fuel t c : decodeValue reg fuel (Nullable t) c =
  '(m, c) ← u8 c;
  if b2z m =? 0 then Ok (NullValue, c)
  else if b2z m =? 1 then decodeValue reg fuel t c else bad (str "bad nullable") c.
Proof. by destruct fuel. Qed.
Lemma dec_array fuel el c : decodeValue reg fuel (Array el) c =
  '(n, c) ← leb c;
  _ ← checkElementCount n (str "array") c;
  '(xs, c) ← decode_many (decodeValue reg fuel el) (Z.to_nat n) c;
  Ok (ArrayValue xs, c).
Proof. by destruct fuel. Qed.
Lemma dec_map fuel kt vt c : decodeValue reg fuel (Map kt vt) c =
  '(n, c) ← leb c;
  _ ← checkElementCount n (str "map") c;
  '(xs, c) ← decode_many (fun c => '(k, c) ← decodeValue reg fuel kt c;
    '(v, c) ← decodeValue reg fuel vt c; Ok ((k, v), c)) (Z.to_nat n) c;
  Ok (MapValue xs, c).
Proof. by destruct fuel. Qed.
Lemma dec_ref fuel fq c : decodeValue reg (S fuel) (Ref fq) c = decodeNamed reg (decodeValue reg fuel) fq c.
Proof. done. Qed.

Fixpoint pick_branch (dec : SType -> cursor -> res (Value * cursor)) (bs : list SType) (n : nat) (c : cursor)
    : res (Value * cursor) :=
  match bs, n with
  | [], _ => bad (str "bad union") c
  | t :: _, O => dec t c
  | _ :: bs, S n => pick_branch dec bs n c
  end.

Lemma dec_union fuel bs c : decodeValue reg fuel (Union bs) c =
  '(br, c) ← u8 c;
  '(inner, c) ← pick_branch (decodeValue reg fuel) bs (Z.to_nat (b2z br)) c;
  Ok (UnionValue (b2z br) inner, c).
Proof.
  assert (E : forall f bs n c, (fix pick (bs : list SType) (n : nat) : res (Value * cursor) :=
         match bs, n with
         | [], _ => bad (str "bad union") c
         | t :: _, O => f t c
         | _ :: bs, S n => pick bs n
         end) bs n = pick_branch f bs n c).
  { intros f bs'. induction bs' as [|t bs' IH]; intros [|n] c'; simpl; auto. }
  destruct fuel; cbn [decodeValue]; destruct (u8 c) as [[br c']| |]; cbn [mbind go_bind]; try done.
  - by rewrite (E (decodeValue reg 0)).
  - by rewrite (E (decodeValue reg (S fuel))).
Qed.

Lemma enc_prim v p l : encodeValue reg v (Primitive p l) = encodePrim v p l.
Proof. by destruct v. Qed.
Lemma enc_nullable v t : v <> NullValue -> encodeValue reg v (Nullable t) = (b ← encodeValue reg v t; Ok (x01 :: b)).
Proof. by destruct v. Qed.
Lemma wt_nullable v t : v <> NullValue -> wt reg v (Nullable t) = wt reg v t.
Proof. by destruct v. Qed.
Lemma wt_prim v p l : wt reg v (Primitive p l) = prim_wt v p l.
Proof. by destruct v. Qed.

Lemma rt_nullable v t : (v <> NullValue -> wt reg v t -> rt reg v t) -> wt reg v (Nullable t) -> rt reg v (Nullable t).
Proof.
  intros IH Hw. assert (v = NullValue \/ v <> NullValue) as [->|Hn] by (destruct v; auto).
  - exists [x00]. split_and!; [done..|]. intros fuel _ _ c p rest Hc. rewrite dec_nullable.
    rewrite (decodes_u8 _ _ _ _ Hc). done.
  - rewrite wt_nullable in Hw by done. destruct (IH Hn Hw) as (b & E & _ & D). exists (x01 :: b).
    unfold rt_as. rewrite enc_nullable, E by done. split_and!; [done|intros _; rewrite zlen_cons; pose proof (zlen_nonneg b); lia|].
    intros fuel Hz Hf. rewrite zlen_cons in Hz. simpl in Hf.
    apply (decodes_ext (fun c => '(m, c) ← u8 c; if b2z m =? 0 then Ok (NullValue, c)
      else if b2z m =? 1 then decodeValue reg fuel t c else bad (str "bad nullable") c));
      [intros c; by rewrite dec_nullable|].
    change (x01 :: b) with ([x01] ++ b).
    apply (decodes_bind u8 (fun m c => if b2z m =? 0 then Ok (NullValue, c)
      else if b2z m =? 1 then decodeValue reg fuel t c else bad (str "bad nullable") c) _ _ x01); [apply decodes_u8|].
    apply D; [lia|lia].
Qed.

(** A read of [n] bytes whose conversion to a value cannot fail. *)
Lemma decodes_fixed {A} n (f : bytes -> res A) b x :
  zlen b = n -> f b = Ok x -> decodes (fun c => '(r, c) ← rawN n c; y ← f r; Ok (y, c)) b x.
Proof.
  intros Hn Hf c p rest Hc. rewrite (decodes_rawN b n (eq_sym Hn) _ _ _ Hc). cbn [mbind go_bind]. by rewrite Hf.
Qed.

Lemma decodes_lebBytes b : zlen b < 2 ^ 32 -> decodes readLebBytes (appendLebBytes [] b) b.
Proof.
  intros Hb. pose proof (zlen_nonneg b). unfold readLebBytes, appendLebBytes.
  apply (decodes_bind leb (fun n => rawN (wraps 64 n)) _ _ (zlen b)).
  - rewrite wrapu_id by (unfold is_u; lia). apply decodes_leb. unfold is_u; lia.
  - apply decodes_rawN. apply wraps_id; unfold is_s; lia.
Qed.

Lemma appendLebBytes_len b : 1 + zlen b <= zlen (appendLebBytes [] b).
Proof. unfold appendLebBytes. rewrite zlen_app. pose proof (leb128_length (wrapu 32 (zlen b))). lia. Qed.

Lemma rt_intro v t b :
  encodeValue reg v t = Ok b -> (wide reg t = true -> 1 <= zlen b) ->
  (forall fuel, zlen b < 2 ^ 32 -> (length b < fuel)%nat -> decodes (decodeValue reg fuel t) b v) -> rt reg v t.
Proof. intros. by exists b. Qed.

Lemma zlen_put32 i : zlen (putLe32s i) = 4.
Proof. unfold zlen. by rewrite putLe32s_length. Qed.
Lemma zlen_put64 i : zlen (putLe64 i) = 8.
Proof. unfold zlen. by rewrite putLe64_length. Qed.

Lemma zlen_put64s i : zlen (putLe64s i) = 8.
Proof. apply zlen_put64. Qed.

(** The same read, written with the conversion in line. *)
Ltac fixed_read n f :=
  eexists; split_and!; [done|rewrite ?zlen_put32, ?zlen_put64, ?zlen_put64s; lia|]; intros _;
  apply (decodes_ext (fun c => '(r, c) ← rawN n c; y ← f r; Ok (y, c)));
  [intros c; unfold decodePhysicalOnly, decodePrim; destruct (rawN n c) as [[r c']| |]; cbn [mbind go_bind]; try done;
   by match goal with |- context [readLe32 ?r ?o] => destruct (readLe32 (E:=codec_error) r o)
      | |- context [readLe64 ?r ?o] => destruct (readLe64 (E:=codec_error) r o) end
  |apply decodes_fixed; [rewrite ?zlen_put32, ?zlen_put64, ?zlen_put64s; lia|
    first [rewrite readLe64_put_s by done|rewrite readLe32_put by done|rewrite readLe64_put by done]; reflexivity]].

Lemma phys_decodes v p : prim_wt v p None ->
  exists b, encodePhysicalOnly v p = Ok b /\ (p <> PhysicalNull -> 1 <= zlen b) /\
    (zlen b < 2 ^ 32 -> decodes (decodePhysicalOnly p) b v).
Proof.
  intros Hp. destruct p, v; try contradiction; cbn [encodePhysicalOnly decodePhysicalOnly prim_wt] in *.
  - eexists; split_and!; [done..|]. intros _. apply decodes_ret.
  - eexists; split_and!; [done..|]. intros _.
    match goal with b : bool |- _ => destruct b end;
      [exact (decodes_map u8 (fun x => BoolValue (negb (b2z x =? 0))) _ _ (decodes_u8 x01))
      |exact (decodes_map u8 (fun x => BoolValue (negb (b2z x =? 0))) _ _ (decodes_u8 x00))].
  - fixed_read 4 (fun r : bytes => i ← readLe32 r 0; Ok (Int32Value i) : res Value).
  - fixed_read 8 (fun r : bytes => x ← (i ← readLe64 r 0; Ok (wraps 64 i)); Ok (Int64Value x) : res Value).
  - destruct Hp as [Hp1 ->].
    fixed_read 8 (fun r : bytes => i ← readLe64 r 0; Ok (Float64Value i) : res Value).
  - match goal with s : bytes |- _ => rename s into v end. pose proof (appendLebBytes_len v) as Hn. pose proof (zlen_nonneg v).
    exists (appendLebBytes [] v); split_and!; [done|lia|].
    intros Hz. apply (decodes_map readLebBytes BytesValue (appendLebBytes [] v) v), decodes_lebBytes. lia.
  - match goal with s : bytes |- _ => rename s into v end. pose proof (appendLebBytes_len v) as Hn. pose proof (zlen_nonneg v).
    exists (appendLebBytes [] v); split_and!; [done|lia|].
    intros Hz. apply (decodes_map readLebBytes StringValue (appendLebBytes [] v) v), decodes_lebBytes. lia.
Qed.

Lemma zlen_uuid m l : zlen (writeBE64 m ++ writeBE64 l) = 16.
Proof. by rewrite zlen_app, !zlen_writeBE64. Qed.

Lemma uuid_decodes p m l : is_s 64 m /\ is_s 64 l ->
  decodes (decodePrim p (Some LogicalUUID)) (writeBE64 m ++ writeBE64 l) (UUIDValue m l).
Proof.
  intros [Hm Hl]. destruct (readBE64_pair (E:=codec_error) _ _ Hm Hl) as [R1 R2].
  pose proof (zlen_uuid m l) as Hz. revert R1 R2 Hz. generalize (writeBE64 m ++ writeBE64 l). intros b R1 R2 Hz.
  intros c q rest Hc. unfold decodePrim. rewrite (decodes_rawN b 16 (eq_sym Hz) _ _ _ Hc).
  cbn [mbind go_bind]. by rewrite R1, R2.
Qed.

Lemma prim_decodes v p l : prim_wt v p l ->
  exists b, encodePrim v p l = Ok b /\ (wide reg (Primitive p l) = true -> 1 <= zlen b) /\
    (zlen b < 2 ^ 32 -> decodes (decodePrim p l) b v).
Proof.
  intros Hw.
  destruct l as [[]|]; try (destruct (phys_decodes v p Hw) as (b & E & W & D); exists b; split_and!;
    [done|intros Hwd; apply W; intros ->; done|done]).
  all: destruct v; try contradiction; cbn [prim_wt encodePrim decodePrim uuidWire] in *.
  - fixed_read 4 (fun r : bytes => d ← readLe32 r 0; Ok (DateValue d) : res Value).
  - match goal with z : option bytes |- _ => destruct z; [contradiction|] end.
    fixed_read 8 (fun r : bytes => x ← (i ← readLe64 r 0; Ok (wraps 64 i)); Ok (TimestampValue x None) : res Value).
  - eexists; split_and!; [done|by rewrite zlen_uuid|]. intros _. by apply uuid_decodes.
Qed.

Lemma rt_prim v p l : prim_wt v p l -> rt reg v (Primitive p l).
Proof.
  intros Hw. destruct (prim_decodes v p l Hw) as (b & E & W & D). apply (rt_intro _ _ b); [by rewrite enc_prim|done|].
  intros fuel Hz _. apply (decodes_ext (decodePrim p l)); [intros c; by rewrite dec_prim|]. auto.
Qed.

(** Arrays and maps *)

Lemma Forall_choose {A B} (R : A -> B -> Prop) xs : Forall (fun x => exists y, R x y) xs -> exists ys, Forall2 R xs ys.
Proof.
  induction 1 as [|x xs [y Hy] _ [ys IH]]; [by exists []|]. exists (y :: ys). by constructor.
Qed.

Lemma decodes_many {A} (dec : cursor -> res (A * cursor)) (R : A -> bytes -> Prop) fuel xs bs :
  (forall x b, R x b -> zlen b < 2 ^ 32 -> (length b < fuel)%nat -> decodes dec b x) ->
  Forall2 R xs bs -> zlen (concat bs) < 2 ^ 32 -> (length (concat bs) < fuel)%nat ->
  decodes (decode_many dec (length xs)) (concat bs) xs.
Proof.
  intros Hd. induction 1 as [|x b xs bs Hx Hxs IH]; intros Hz Hf; [apply decodes_ret|].
  cbn [concat length decode_many] in *. rewrite zlen_app in Hz. rewrite length_app in Hf.
  pose proof (zlen_nonneg b). pose proof (zlen_nonneg (concat bs)).
  apply (decodes_bind dec (fun x c => '(xs, c) ← decode_many dec (length xs) c; Ok (x :: xs, c)) _ _ x).
  - apply Hd; [done|lia|lia].
  - apply (decodes_map (decode_many dec (length xs)) (cons x)), IH; lia.
Qed.

Lemma decodes_counted {A} (dec : cursor -> res (A * cursor)) (g : list A -> Value) kind xs b :
  zlen b < 2 ^ 32 -> zlen xs <= zlen b -> decodes (decode_many dec (length xs)) b xs ->
  decodes (fun c => '(n, c) ← leb c; _ ← checkElementCount n kind c;
    '(xs, c) ← decode_many dec (Z.to_nat n) c; Ok (g xs, c)) (appendLeb128U32 [] (wrapu 32 (zlen xs)) ++ b) (g xs).
Proof.
  intros Hb Hx D. pose proof (zlen_nonneg xs). rewrite wrapu_id by (unfold is_u; lia).
  apply (decodes_bind leb (fun n c => _ ← checkElementCount n kind c;
    '(xs, c) ← decode_many dec (Z.to_nat n) c; Ok (g xs, c)) _ _ (zlen xs)); [apply decodes_leb; unfold is_u; lia|].
  intros c p rest Hc. pose proof (positioned_len _ _ _ Hc) as [Hl _]. rewrite zlen_app in Hl. pose proof (zlen_nonneg rest).
  unfold checkElementCount. destruct Hc as (H1 & H2 & H3 & H4).
  destruct (Z.ltb_spec (limit c - pos c) 0); [lia|]. destruct (Z.ltb_spec (limit c - pos c) (zlen xs)); [lia|].
  cbn [orb mbind go_bind]. unfold zlen at 1. rewrite Nat2Z.id.
  by rewrite (decodes_map _ g _ _ D c p rest).
Qed.

Lemma many_length {A} (R : A -> bytes -> Prop) xs bs :
  (forall x b, R x b -> 1 <= zlen b) -> Forall2 R xs bs -> zlen xs <= zlen (concat bs).
Proof.
  intros HR. induction 1 as [|x b xs bs Hx _ IH]; [done|]. cbn [concat]. rewrite zlen_cons, zlen_app.
  specialize (HR _ _ Hx). lia.
Qed.

Lemma rt_array els el :
  wide reg el = true -> Forall (fun e => rt reg e el) els -> rt reg (ArrayValue els) (Array el).
Proof.
  intros Hw [bs Hbs]%Forall_choose.
  assert (Hlen := many_length _ _ _ (fun x b H => proj1 (proj2 H) Hw) Hbs).
  apply (rt_intro _ _ (appendLeb128U32 [] (wrapu 32 (zlen els)) ++ concat bs)).
  - cbn [encodeValue].
    match goal with |- (b ← ?f els; _) = _ => assert (f els = Ok (concat bs)) as ->; [|done] end.
    clear Hlen. induction Hbs as [|e b els bs (He & _) _ IH]; [done|]. cbn [concat]. rewrite He, IH. done.
  - rewrite zlen_app. pose proof (zlen_nonneg (concat bs)). pose proof (leb128_length (wrapu 32 (zlen els))). lia.
  - intros fuel Hz Hf. rewrite zlen_app in Hz. rewrite length_app in Hf. pose proof (zlen_nonneg (appendLeb128U32 [] (wrapu 32 (zlen els)))).
    apply (decodes_ext _ _ _ _ (fun c => eq_sym (dec_array fuel el c))).
    apply (decodes_counted (decodeValue reg fuel el) ArrayValue); [lia|done|].
    apply (decodes_many _ (fun e b => rt_as reg e el b) fuel); [|done|lia|lia].
    intros x b (_ & _ & D). apply D.
Qed.

Lemma rt_map es kt vt :
  wide reg kt = true -> Forall (fun e => rt reg e.1 kt /\ rt reg e.2 vt) es -> rt reg (MapValue es) (Map kt vt).
Proof.
  intros Hw Hes.
  set (R := fun (e : Value * Value) b => exists bk bx, rt_as reg e.1 kt bk /\ rt_as reg e.2 vt bx /\ b = bk ++ bx).
  assert (exists bs, Forall2 R es bs) as [bs Hbs].
  { apply Forall_choose. eapply Forall_impl; [exact Hes|]. intros e [[bk Hk] [bx Hx]]. exists (bk ++ bx), bk, bx. done. }
  assert (Hlen : zlen es <= zlen (concat bs)).
  { apply (many_length R); [|done]. intros e b (bk & bx & (_ & Hk & _) & _ & ->). rewrite zlen_app.
    pose proof (zlen_nonneg bx). specialize (Hk Hw). lia. }
  apply (rt_intro _ _ (appendLeb128U32 [] (wrapu 32 (zlen es)) ++ concat bs)).
  - cbn [encodeValue].
    match goal with |- (b ← ?f es; _) = _ => assert (f es = Ok (concat bs)) as ->; [|done] end.
    clear Hlen Hes. induction Hbs as [|[k x] b es bs (bk & bx & (Hk & _) & (Hx & _) & ->) _ IH]; [done|].
    cbn [concat fst snd] in *. rewrite Hk, Hx, IH. cbn [mbind go_bind]. by rewrite <- app_assoc.
  - rewrite zlen_app. pose proof (zlen_nonneg (concat bs)). pose proof (leb128_length (wrapu 32 (zlen es))). lia.
  - intros fuel Hz Hf. rewrite zlen_app in Hz. rewrite length_app in Hf. pose proof (zlen_nonneg (appendLeb128U32 [] (wrapu 32 (zlen es)))).
    apply (decodes_ext _ _ _ _ (fun c => eq_sym (dec_map fuel kt vt c))).
    apply (decodes_counted _ MapValue); [lia|done|].
    apply (decodes_many _ R fuel); [|done|lia|lia].
    intros [k x] b (bk & bx & (_ & _ & Dk) & (_ & _ & Dx) & ->) Hb1 Hb2. rewrite zlen_app in Hb1. rewrite length_app in Hb2.
    pose proof (zlen_nonneg bk). pose proof (zlen_nonneg bx).
    apply (decodes_bind (decodeValue reg fuel kt) (fun k c => '(v, c) ← decodeValue reg fuel vt c; Ok ((k, v), c)) _ _ k).
    + apply Dk; lia.
    + apply (decodes_map (decodeValue reg fuel vt) (pair k)). apply Dx; lia.
Qed.

(** Unions, enums and fixed types *)

Lemma pick_branch_lookup dec bs n t c : bs !! n = Some t -> pick_branch dec bs n c = dec t c.
Proof. revert n. induction bs as [|b bs IH]; intros [|n] H; simplify_eq/=; auto. Qed.

Lemma enc_union bs br v t b :
  0 <= br -> bs !! Z.to_nat br = Some t -> encodeValue reg v t = Ok b ->
  encodeValue reg (UnionValue br v) (Union bs) = Ok (z2b br :: b).
Proof.
  intros Hbr Hl E. pose proof (lookup_lt_Some _ _ _ Hl) as Hlt. cbn [encodeValue].
  destruct (Z.ltb_spec br 0); [lia|]. unfold zlen. destruct (Z.leb_spec (Z.of_nat (length bs)) br); [lia|].
  cbn [orb]. by rewrite Hl, E.
Qed.

Lemma rt_union bs br v t : 0 <= br < 256 -> bs !! Z.to_nat br = Some t -> rt reg v t -> rt reg (UnionValue br v) (Union bs).
Proof.
  intros Hbr Hl (b & E & _ & D). apply (rt_intro _ _ (z2b br :: b)).
  - by apply (enc_union bs br v t); [lia|..].
  - intros _. rewrite zlen_cons. pose proof (zlen_nonneg b). lia.
  - intros fuel Hz Hf. rewrite zlen_cons in Hz. simpl in Hf.
    apply (decodes_ext _ _ _ _ (fun c => eq_sym (dec_union fuel bs c))). change (z2b br :: b) with ([z2b br] ++ b).
    apply (decodes_bind u8 (fun br c => '(inner, c) ← pick_branch (decodeValue reg fuel) bs (Z.to_nat (b2z br)) c;
      Ok (UnionValue (b2z br) inner, c)) _ _ (z2b br)); [apply decodes_u8|].
    rewrite b2z_z2b, Z.mod_small by lia.
    apply (decodes_map (pick_branch (decodeValue reg fuel) bs (Z.to_nat br)) (UnionValue br)).
    apply (decodes_ext (decodeValue reg fuel t)); [intros c; by rewrite (pick_branch_lookup _ _ _ _ _ Hl)|].
    apply D; lia.
Qed.

Lemma rt_enum fq s o sym : Resolve fq reg = Some (NamedEnum s) -> 0 <= o < 2 ^ 31 -> Symbols s !! Z.to_nat o = Some sym ->
  rt reg (EnumValue o sym) (Ref fq).
Proof.
  intros Hr Ho Hs. pose proof (lookup_lt_Some _ _ _ Hs) as Hlt. apply (rt_intro _ _ (putLe32s o)).
  - cbn [encodeValue]. rewrite Hr. destruct (Z.ltb_spec o 0); [lia|].
    unfold zlen. by destruct (Z.leb_spec (Z.of_nat (length (Symbols s))) o); [lia|].
  - by rewrite zlen_put32.
  - intros [|fuel] _ Hf; [lia|]. intros c p rest Hc. rewrite dec_ref. unfold decodeNamed. rewrite Hr.
    rewrite (decodes_rawN _ 4 (eq_sym (zlen_put32 o)) _ _ _ Hc). cbn [mbind go_bind].
    rewrite readLe32_put by (unfold is_s; lia). cbn [mbind go_bind].
    destruct (Z.leb_spec 0 o); [|lia]. unfold zlen at 1. destruct (Z.ltb_spec o (Z.of_nat (length (Symbols s)))); [|lia].
    cbn [andb]. by rewrite Hs.
Qed.

Lemma rt_fixed fq s b : Resolve fq reg = Some (NamedFixed s) -> zlen b = Size s -> FixedLogical s <> Some LogicalUUID ->
  rt reg (FixedValue b) (Ref fq).
Proof.
  intros Hr Hb Hl. apply (rt_intro _ _ b).
  - cbn [encodeValue]. rewrite Hr. destruct (Z.eqb_spec (zlen b) (Size s)); [done|congruence].
  - cbn [wide]. rewrite Hr. intros ?%Z.ltb_lt. lia.
  - intros [|fuel] _ Hf; [lia|]. intros c p rest Hc. rewrite dec_ref. unfold decodeNamed. rewrite Hr.
    rewrite (decodes_rawN _ _ (eq_sym Hb) _ _ _ Hc). cbn [mbind go_bind]. unfold upliftFixed.
    destruct (Z.eqb_spec (zlen b) (Size s)); [|congruence]. cbn [negb].
    by destruct (FixedLogical s) as [[]|].
Qed.

End RoundTrip.

(** ** Field maps *)

Section FieldMaps.
Context {A : Type}.
Implicit Types (l : list (Z * A)).

Definition increasing l : Prop := StronglySorted (fun a b => a.1 < b.1) l.

Lemma field_lookup_above l id : Forall (fun a => id < a.1) l -> field_lookup id l = None.
Proof.
  induction 1 as [|[k x] l Hk _ IH]; [done|]. simpl in *. by destruct (Z.eqb_spec k id); [lia|].
Qed.

Lemma increasing_ext l1 l2 :
  increasing l1 -> increasing l2 -> (forall id, field_lookup id l1 = field_lookup id l2) -> l1 = l2.
Proof.
  intros H1. revert l2. induction H1 as [|[k x] l1 Hs1 IH Hf1]; intros l2 H2 E.
  - destruct l2 as [|[k x] l2]; [done|]. specialize (E k). simpl in E. by rewrite Z.eqb_refl in E.
  - destruct H2 as [|[k' x'] l2 Hs2 Hf2]; [specialize (E k); simpl in E; by rewrite Z.eqb_refl in E|].
    assert (k = k') as <-.
    { destruct (Z.lt_trichotomy k k') as [Hlt|[?|Hlt]]; [|done|].
      - specialize (E k). simpl in E. rewrite Z.eqb_refl in E. destruct (Z.eqb_spec k' k); [lia|].
        rewrite field_lookup_above in E; [done|]. eapply Forall_impl; [exact Hf2|]. simpl. lia.
      - specialize (E k'). simpl in E. rewrite Z.eqb_refl in E. destruct (Z.eqb_spec k k'); [lia|].
        rewrite field_lookup_above in E; [done|]. eapply Forall_impl; [exact Hf1|]. simpl. lia. }
    pose proof (E k) as Ek. simpl in Ek. rewrite Z.eqb_refl in Ek. f_equal; [congruence|]. apply IH; [done|].
    intros id. specialize (E id). simpl in E. destruct (Z.eqb_spec k id) as [Hid|]; [|done]. rewrite <- Hid.
    by rewrite !field_lookup_above.
Qed.

Lemma field_insert_lookup id x l id' : increasing l ->
  field_lookup id' (field_insert id x l) = if id =? id' then Some x else field_lookup id' l.
Proof.
  induction 1 as [|[k y] l Hs IH Hf]; [done|]. cbn [field_insert].
  destruct (Z.ltb_spec id k); [done|]. destruct (Z.eqb_spec id k) as [->|]; cbn [field_lookup].
  - by destruct (Z.eqb_spec k id').
  - rewrite IH. destruct (Z.eqb_spec k id'), (Z.eqb_spec id id'); congruence.
Qed.

Lemma field_insert_keys id x l (P : Z -> Prop) :
  P id -> Forall (fun a => P a.1) l -> Forall (fun a => P a.1) (field_insert id x l).
Proof.
  intros Hid. induction 1 as [|[k y] l Hk Hl IH]; [by repeat constructor|]. cbn [field_insert].
  destruct (id <? k); [by repeat constructor|]. destruct (id =? k); by constructor.
Qed.

Lemma field_insert_increasing id x l : increasing l -> increasing (field_insert id x l).
Proof.
  induction 1 as [|[k y] l Hs IH Hf]; [repeat constructor|]. cbn [field_insert].
  destruct (Z.ltb_spec id k).
  - constructor; [by constructor|]. constructor; [done|]. eapply Forall_impl; [exact Hf|]. simpl. lia.
  - destruct (Z.eqb_spec id k) as [->|]; [by constructor|]. constructor; [done|].
    apply (field_insert_keys id x l (fun i => k < i)); [lia|done].
Qed.

Lemma field_insert_last id x l : Forall (fun a => a.1 < id) l -> field_insert id x l = l ++ [(id, x)].
Proof.
  induction 1 as [|[k y] l Hk _ IH]; [done|]. simpl in *. destruct (Z.ltb_spec id k); [lia|].
  destruct (Z.eqb_spec id k); [lia|]. by rewrite IH.
Qed.

Lemma field_lookup_in l id x : increasing l -> (id, x) ∈ l -> field_lookup id l = Some x.
Proof.
  induction 1 as [|[k y] l Hs IH Hf]; [set_solver|]. intros [[= -> ->]|Hin]%elem_of_cons; simpl; [by rewrite Z.eqb_refl|].
  destruct (Z.eqb_spec k id) as [->|]; [|auto]. rewrite Forall_forall in Hf. specialize (Hf _ Hin). simpl in Hf. lia.
Qed.
End FieldMaps.

(** ** Records *)

Section Records.
Context (reg : Registry).

Definition matches (a : Z * Value) (f : FieldSchema) : Prop := a.1 = ID f /\ rt reg a.2 (FieldType f).

(** The fields the encoder writes. *)
Fixpoint present (fields : list (Z * Value)) (fs : list FieldSchema) : list (Z * Value) :=
  match fields, fs with
  | a :: fields, f :: fs => if omitField a.2 (Default f) then present fields fs else a :: present fields fs
  | _, _ => []
  end.

Lemma readLeb128_at p v rest : is_u 32 v ->
  readLeb128U64 (p ++ appendLeb128U32 [] v ++ rest) (zlen p) = Ok (v, zlen p + zlen (appendLeb128U32 [] v)).
Proof.
  intros Hv. unfold readLeb128U64, appendLeb128U32. unfold is_u in Hv. rewrite (readLeb_leb 5 11) by (simpl; lia).
  by rewrite Z.mul_1_r, Z.add_0_l.
Qed.

(** One iteration of the decoder on one field. *)
Lemma decode_fields_step s fuel k p f b v rest acc :
  NoDup (map ID (SchemaFields s)) -> f ∈ SchemaFields s -> 0 <= ID f < 2 ^ 31 ->
  decodes (decodeValue reg fuel (FieldType f)) b v ->
  let field := appendLeb128U32 [] (wrapu 32 (ID f)) ++ Tag (physicalTag (FieldType f) reg) :: b in
  slice_ok (p ++ field ++ rest) ->
  decode_fields reg (decodeValue reg fuel) s (S k) (p ++ field ++ rest) (zlen p) acc =
  decode_fields reg (decodeValue reg fuel) s k ((p ++ field) ++ rest) (zlen (p ++ field)) (field_insert (ID f) v acc).
Proof.
  intros Hn Hf Hid D field Hs. cbn [decode_fields].
  set (lb := appendLeb128U32 [] (wrapu 32 (ID f))) in *. set (tag := Tag (physicalTag (FieldType f) reg)) in *.
  assert (Hlb : 1 <= zlen lb) by apply leb128_length.
  assert (Hz : zlen (p ++ field ++ rest) = zlen p + zlen lb + 1 + zlen b + zlen rest).
  { unfold field. rewrite !zlen_app, zlen_cons. lia. }
  pose proof (zlen_nonneg b). pose proof (zlen_nonneg rest). pose proof (zlen_nonneg p).
  rewrite Hz. destruct (Z.leb_spec (zlen p + zlen lb + 1 + zlen b + zlen rest) (zlen p)); [lia|].
  assert (R : readLeb128U64 (p ++ field ++ rest) (zlen p) = Ok (ID f, zlen p + zlen lb)).
  { unfold field, lb. rewrite wrapu_id by (unfold is_u; lia). rewrite <- app_assoc. apply readLeb128_at. unfold is_u; lia. }
  rewrite R. cbn [mbind go_bind]. rewrite wraps_id by (unfold is_s; lia).
  destruct (Z.leb_spec (zlen p + zlen lb + 1 + zlen b + zlen rest) (zlen p + zlen lb)); [lia|].
  assert (S1 : p ++ field ++ rest = (p ++ lb ++ [tag]) ++ b ++ rest) by (unfold field; by rewrite <- !app_assoc).
  assert (T : zindex (E:=codec_error) (p ++ field ++ rest) (zlen p + zlen lb) = Ok tag).
  { unfold field. rewrite <- app_assoc, <- zlen_app, app_assoc. rewrite <- (Z.add_0_r (zlen (p ++ lb))).
    rewrite zindex_app_r by lia. done. }
  rewrite T. cbn [mbind go_bind]. unfold tag at 1. rewrite PhysicalFromTag_Tag, FieldByID_in by done.
  rewrite bool_decide_true by done. cbn [negb].
  rewrite (D _ (p ++ lb ++ [tag]) rest).
  - cbn [mbind go_bind at_pos pos]. rewrite <- app_assoc. do 2 f_equal; try done. unfold field. rewrite !zlen_app, zlen_cons. lia.
  - unfold positioned. cbn [raw pos limit]. split_and!; [done| |by rewrite Hz|done]. rewrite !zlen_app. change (zlen [tag]) with 1. lia.
Qed.

Lemma record_body s fields fs rec :
  NoDup (map ID (SchemaFields s)) -> Forall2 matches fields fs -> increasing fields ->
  Forall (fun f => f ∈ SchemaFields s /\ 0 <= ID f < 2 ^ 31) fs ->
  Forall (fun a => field_lookup a.1 rec = Some (a.2, encodeValue reg a.2)) fields ->
  exists body, encode_fields reg fs rec = Ok body /\
    forall fuel k p acc, zlen body < 2 ^ 32 -> (length body <= fuel)%nat -> (length body <= k)%nat -> slice_ok (p ++ body) ->
      Forall (fun a => Forall (fun b => a.1 < b.1) fields) acc ->
      decode_fields reg (decodeValue reg fuel) s k (p ++ body) (zlen p) acc = Ok (acc ++ present fields fs).
Proof.
  intros Hn Hm. induction Hm as [|[id x] f fields fs [Hid Hx] Hm IH]; intros Hinc Hfs Hrec.
  { exists []. split; [done|]. intros fuel k p acc _ _ _ _ _. rewrite !app_nil_r.
    destruct k; cbn [decode_fields]; by rewrite Z.leb_refl. }
  cbn [fst snd] in *. apply Forall_cons in Hfs as [[Hf Hid'] Hfs]. apply Forall_cons in Hrec as [Hl Hrec].
  apply StronglySorted_inv in Hinc as [Hinc Hlt].
  destruct (IH Hinc Hfs Hrec) as (body & E & D). cbn [encode_fields present fst snd] in *. rewrite <- Hid, Hl.
  destruct (omitField x (Default f)).
  { exists body. split; [done|]. intros fuel k p acc ? ? ? ? Hacc. apply D; try done.
    eapply Forall_impl; [exact Hacc|]. by intros a [_ ?]%Forall_cons. }
  destruct Hx as (b & Eb & _ & Db). rewrite Eb, E. cbn [mbind go_bind]. rewrite Hid in *.
  eexists; split; [done|]. intros fuel k p acc Hz Hf1 Hk Hs Hacc.
  set (field := appendLeb128U32 [] (wrapu 32 (ID f)) ++ Tag (physicalTag (FieldType f) reg) :: b).
  assert (EQ : appendLeb128U32 [] (wrapu 32 (ID f)) ++ Tag (physicalTag (FieldType f) reg) :: b ++ body = field ++ body)
    by (unfold field; by rewrite <- app_assoc).
  rewrite EQ in *.
  assert (Hfl : (length b < length field)%nat) by (unfold field; rewrite length_app; simpl; lia).
  rewrite length_app in Hf1, Hk. rewrite zlen_app in Hz. destruct k as [|k]; [lia|].
  assert (zlen b < zlen field) by (unfold zlen; lia). pose proof (zlen_nonneg b). pose proof (zlen_nonneg body).
  unfold field. rewrite (decode_fields_step _ _ _ _ _ _ x); [|done..|apply Db; lia|done]. fold field.
  rewrite field_insert_last.
  - rewrite D; [by rewrite <- app_assoc|lia|lia|lia|by rewrite <- app_assoc|].
    apply Forall_app. split; [|by repeat constructor].
    eapply Forall_impl; [exact Hacc|]. by intros a [_ ?]%Forall_cons.
  - eapply Forall_impl; [exact Hacc|]. by intros a [? _]%Forall_cons.
Qed.

Lemma omitField_default x d : omitField x d = true -> d = Some x.
Proof.
  destruct d as [d|]; [|done]. cbn [omitField]. unfold valuesEqual. intros H.
  destruct x, d; try discriminate; f_equal; f_equal; first [done|by apply Z.eqb_eq in H|by apply bool_decide_eq_true in H|by apply Bool.eqb_prop in H].
Qed.

Lemma present_lookup fields fs id :
  Forall2 matches fields fs -> increasing fields ->
  field_lookup id (present fields fs) = field_lookup id fields \/
  field_lookup id (present fields fs) = None /\
    exists f, f ∈ fs /\ ID f = id /\ Default f = field_lookup id fields.
Proof.
  induction 1 as [|[k x] f fields fs [Hid _] Hm IH]; intros Hinc; [by left|].
  apply StronglySorted_inv in Hinc as [Hinc Hlt]. specialize (IH Hinc). cbn [present fst snd field_lookup] in *.
  destruct (omitField x (Default f)) eqn:Ho; cbn [field_lookup].
  - apply omitField_default in Ho. destruct (Z.eqb_spec k id) as [Hk|].
    + rewrite Hk in *. right. split; [|exists f; split_and!; [set_solver|done|done]].
      destruct IH as [->|[-> _]]; [by apply field_lookup_above|done].
    + destruct IH as [?|(? & g & ? & ? & ?)]; [by left|right; split; [done|exists g; set_solver]].
  - destruct (k =? id); [by left|]. destruct IH as [?|(? & g & ? & ? & ?)]; [by left|right; split; [done|exists g; set_solver]].
Qed.

Lemma present_keys fields fs (P : Z * Value -> Prop) : Forall P fields -> Forall P (present fields fs).
Proof.
  intros H. revert fs. induction H as [|a fields Ha _ IH]; intros [|f fs]; simpl; try done.
  destruct (omitField _ _); [done|by constructor].
Qed.

Lemma present_increasing fields fs : increasing fields -> increasing (present fields fs).
Proof.
  intros H. revert fs. induction H as [|a fields Hs IH Ha]; intros [|f fs]; simpl; try constructor.
  destruct (omitField _ _); [apply IH|]. constructor; [apply IH|by apply present_keys].
Qed.

(** A step of [fill_defaults] gives one more field the value it had. *)
Lemma fill_defaults_lookup gs acc fields :
  NoDup (map ID gs) -> increasing acc ->
  (forall f, f ∈ gs -> field_lookup (ID f) acc = None -> Default f = field_lookup (ID f) fields) ->
  let out := foldl (fun fields f => match field_lookup (ID f) fields, Default f with
    | None, Some d => field_insert (ID f) d fields | _, _ => fields end) acc gs in
  increasing out /\
  forall id, field_lookup id out =
    if bool_decide (id ∈ map ID gs) then match field_lookup id acc with Some x => Some x | None => field_lookup id fields end
    else field_lookup id acc.
Proof.
  revert acc. induction gs as [|f gs IH]; intros acc Hn Hinc Hd; cbn [foldl map] in *.
  { split; [done|]. intros id. by rewrite bool_decide_false by set_solver. }
  apply NoDup_cons in Hn as [Hni Hn].
  set (acc' := match field_lookup (ID f) acc with Some _ => acc | None => match Default f with Some d => field_insert (ID f) d acc | None => acc end end).
  assert (Hinc' : increasing acc').
  { unfold acc'. destruct (field_lookup (ID f) acc), (Default f); try done. by apply field_insert_increasing. }
  assert (Hl : forall id, field_lookup id acc' =
    if id =? ID f then match field_lookup id acc with Some x => Some x | None => field_lookup id fields end else field_lookup id acc).
  { intros id. specialize (Hd f ltac:(set_solver)). unfold acc'. destruct (Z.eqb_spec id (ID f)) as [->|Hne].
    - destruct (field_lookup (ID f) acc) eqn:E; [done|]. rewrite <- Hd by done.
      destruct (Default f); [|done]. by rewrite field_insert_lookup, Z.eqb_refl.
    - destruct (field_lookup (ID f) acc); [done|]. destruct (Default f); [|done].
      rewrite field_insert_lookup by done. by destruct (Z.eqb_spec (ID f) id). }
  destruct (IH acc') as [Hinc'' Hl''].
  - done.
  - done.
  - intros g Hg. rewrite Hl. destruct (Z.eqb_spec (ID g) (ID f)) as [E|]; [|intros; apply Hd; set_solver].
    exfalso. apply Hni. rewrite <- E. by apply (list_elem_of_fmap_2 ID).
  - split; [done|]. intros id. cbv zeta in Hl''. rewrite Hl'', Hl.
    destruct (Z.eqb_spec id (ID f)) as [->|Hne].
    + rewrite bool_decide_false by done. by rewrite bool_decide_true by set_solver.
    + destruct (decide (id ∈ map ID gs)); [rewrite !bool_decide_true by set_solver|rewrite !bool_decide_false by set_solver]; done.
Qed.

Lemma matches_ids fields fs : Forall2 matches fields fs -> map fst fields = map ID fs.
Proof. induction 1 as [|a f fields fs [E _] _ IH]; simpl; congruence. Qed.

Lemma by_id_sorted s : schema_ok s -> StronglySorted (fun a b => ID a < ID b) (by_id s).
Proof. intros [Hn _]. by apply isort_strict. Qed.

Lemma matches_increasing fields fs :
  Forall2 matches fields fs -> StronglySorted (fun a b => ID a < ID b) fs -> increasing fields.
Proof.
  induction 1 as [|a f fields fs [E _] Hm IH]; intros Hs; [constructor|]. apply StronglySorted_inv in Hs as [Hs Hf].
  constructor; [by apply IH|]. clear IH Hs. induction Hm as [|b g fields fs [E' _] _ IH]; [constructor|].
  apply Forall_cons in Hf as [Hg Hf]. constructor; [lia|auto].
Qed.

Lemma fill_present s fields :
  schema_ok s -> Forall2 matches fields (by_id s) -> fill_defaults s (present fields (by_id s)) = fields.
Proof.
  intros Hok Hm. pose proof (matches_increasing _ _ Hm (by_id_sorted s Hok)) as Hinc. pose proof Hok as [Hn _].
  assert (Hin : forall f, f ∈ SchemaFields s <-> f ∈ by_id s) by (intros f; unfold by_id; by rewrite isort_perm).
  assert (Hsome : forall f, f ∈ SchemaFields s -> field_lookup (ID f) fields <> None).
  { intros f Hf. assert (Hf' : ID f ∈ map fst fields) by (rewrite (matches_ids _ _ Hm); apply (list_elem_of_fmap_2 ID), Hin, Hf).
    apply list_elem_of_fmap in Hf' as ([k x] & -> & Hx). cbn [fst]. by rewrite (field_lookup_in _ _ _ Hinc Hx). }
  destruct (fill_defaults_lookup (SchemaFields s) (present fields (by_id s)) fields) as [Hinc' Hl]; [done|by apply present_increasing| |].
  - intros f Hf Hnone. destruct (present_lookup _ _ (ID f) Hm Hinc) as [E|(_ & g & Hg & E & <-)].
    + rewrite Hnone in E. by destruct (Hsome f Hf).
    + apply Hin in Hg. pose proof (FieldByID_in s f Hn Hf) as F1. pose proof (FieldByID_in s g Hn Hg) as F2. congruence.
  - apply increasing_ext; [done|done|]. intros id. unfold fill_defaults. rewrite Hl.
    destruct (present_lookup _ _ id Hm Hinc) as [->|(-> & g & Hg & <- & E)].
    + case_bool_decide; [by destruct (field_lookup id fields)|done].
    + rewrite bool_decide_true; [done|]. by apply (list_elem_of_fmap_2 ID), Hin.
Qed.

Lemma field_lookup_encoders fields :
  increasing fields -> Forall (fun a => field_lookup a.1 (map (fun '(id, x) => (id, (x, encodeValue reg x))) fields) =
    Some (a.2, encodeValue reg a.2)) fields.
Proof.
  intros Hinc. apply Forall_forall. intros [id x] Hx.
  assert (E : forall l : list (Z * Value), field_lookup id (map (fun '(id, x) => (id, (x, encodeValue reg x))) l) =
    (fun x => (x, encodeValue reg x)) <$> field_lookup id l).
  { intros l. induction l as [|[k y] l IH]; [done|]. simpl. by destruct (k =? id). }
  cbn [fst snd]. by rewrite E, (field_lookup_in _ _ _ Hinc Hx).
Qed.

Lemma rt_record fq s fields :
  Resolve fq reg = Some (NamedRecord s) -> schema_ok s -> Forall2 matches fields (by_id s) ->
  rt reg (RecordValue fields) (Ref fq).
Proof.
  intros Hr Hok Hm. pose proof (matches_increasing _ _ Hm (by_id_sorted s Hok)) as Hinc.
  assert (Hids : Forall (fun f => f ∈ SchemaFields s /\ 0 <= ID f < 2 ^ 31) (by_id s)).
  { destruct Hok as [_ Hids]. rewrite Forall_forall in Hids |- *. intros f Hf. unfold by_id in Hf. rewrite isort_perm in Hf. auto. }
  destruct (record_body s fields (by_id s) _ (proj1 Hok) Hm Hinc Hids (field_lookup_encoders fields Hinc)) as (body & E & D).
  apply (rt_intro _ _ _ (appendLeb128U32 [] (wrapu 32 (zlen body)) ++ body)).
  - cbn [encodeValue]. rewrite Hr. unfold encodeRecord. fold (by_id s). by rewrite E.
  - intros _. rewrite zlen_app. pose proof (zlen_nonneg body). pose proof (leb128_length (wrapu 32 (zlen body))). lia.
  - intros [|fuel] Hz Hf; [lia|]. intros c p rest Hc. rewrite dec_ref. unfold decodeNamed, decodeRecord. rewrite Hr.
    assert (Hl : (1 <= length (appendLeb128U32 [] (wrapu 32 (zlen body))))%nat)
      by (pose proof (leb128_length (wrapu 32 (zlen body))); unfold zlen in *; lia).
    rewrite zlen_app in Hz. rewrite length_app in Hf. pose proof (zlen_nonneg (appendLeb128U32 [] (wrapu 32 (zlen body)))).
    pose proof (decodes_lebBytes body ltac:(lia) c p rest Hc) as R. unfold readLebBytes in R.
    destruct (leb c) as [[n c1]| |]; cbn [mbind go_bind] in R |- *; try discriminate. rewrite R. cbn [mbind go_bind].
    assert (Dd := D fuel (length body) [] [] ltac:(lia) ltac:(lia) ltac:(lia)). cbn [app] in Dd. change (zlen []) with 0 in Dd. rewrite Dd.
    + cbn [app mbind go_bind]. by rewrite fill_present.
    + unfold slice_ok. lia.
    + constructor.
Qed.

End Records.

(** ** The round trip *)

Section Main.
Context (reg : Registry).

Definition all_rt (v : Value) : Prop := forall t, wt reg v t -> rt reg v t.

Definition parts (v : Value) : Prop :=
  match v with
  | ArrayValue els => Forall all_rt els
  | MapValue es => Forall (fun e => all_rt e.1 /\ all_rt e.2) es
  | RecordValue fs => Forall (fun f => all_rt f.2) fs
  | UnionValue _ v => all_rt v
  | _ => True
  end.

Lemma parts_record fields fs :
  Forall (fun f => all_rt f.2) fields -> fields_wt (map (fun '(id, x) => (id, wt reg x)) fields) fs ->
  Forall2 (matches reg) fields fs.
Proof.
  intros H. revert fs. induction H as [|[id x] fields Hx _ IH]; intros [|f fs] Hw; try done.
  simpl in Hw. destruct Hw as (-> & Hw & Hws). constructor; [|by apply IH]. split; [done|]. by apply Hx.
Qed.

Lemma parts_ref v fq : parts v -> wt reg v (Ref fq) -> rt reg v (Ref fq).
Proof.
  intros Hp Hw. assert (Hw' := Hw). destruct v; cbn [wt] in Hw; destruct (Resolve fq reg) as [[s|s|s]|] eqn:Hr; try contradiction.
  - destruct Hw as [Hok Hf]. eapply rt_record; [done|done|]. by apply parts_record.
  - destruct Hw. by eapply rt_enum.
  - destruct Hw. by eapply rt_fixed.
Qed.

Lemma parts_rt v : parts v -> all_rt v.
Proof.
  intros Hp t. induction t; intros Hw.
  - rewrite wt_prim in Hw. by apply rt_prim.
  - by apply parts_ref.
  - apply rt_nullable; auto.
  - destruct v; try contradiction. cbn [wt parts] in *. destruct Hw as [Hwd Hw]. apply rt_array; [done|]. clear IHt.
    induction Hp as [|e els He _ IH]; [constructor|]. destruct Hw as [Hw Hws]. constructor; [by apply He|auto].
  - destruct v; try contradiction. cbn [wt parts] in *. destruct Hw as [Hwd Hw]. apply rt_map; [done|]. clear IHt1 IHt2.
    induction Hp as [|[k x] es [Hk Hx] _ IH]; [constructor|]. destruct Hw as (Hwk & Hwx & Hws).
    constructor; [by split; [apply Hk|apply Hx]|auto].
  - destruct v; try contradiction. cbn [wt parts] in *. destruct Hw as [Hbr Hw].
    destruct (Branches !! Z.to_nat Branch) as [t|] eqn:Hl; [|contradiction]. eapply rt_union; [done|done|]. by apply Hp.
Qed.

Lemma wt_rt v : all_rt v.
Proof.
  apply Value_ind'; [|intros; by apply parts_rt..].
  intros []; try exact I; by apply parts_rt.
Qed.

Lemma wire_decodes v t b :
  wt reg v t -> wireEncode reg v t = Ok b -> zlen b < 2 ^ 32 ->
  wireDecode reg b t = Ok v /\ forall rest, slice_ok (b ++ rest) -> wireDecodeFirst reg (b ++ rest) t = Ok (v, zlen b).
Proof.
  intros Hw Eb Hz. destruct (wt_rt v t Hw) as (b' & E & _ & D). unfold wireEncode in Eb. rewrite E in Eb. injection Eb as ->.
  assert (F : forall rest, slice_ok (b ++ rest) -> wireDecodeFirst reg (b ++ rest) t = Ok (v, zlen b)).
  { intros rest Hs. unfold wireDecodeFirst.
    rewrite (D (S (length (b ++ rest))) Hz ltac:(rewrite length_app; lia) _ [] rest); [done|]. by split_and!. }
  split; [|done]. unfold wireDecode. assert (F0 := F []). rewrite app_nil_r in F0.
  rewrite F0 by (unfold slice_ok; lia). cbn [mbind go_bind]. by rewrite Z.eqb_refl.
Qed.

(** C17. A well-typed value has an encoding, and where that is shorter than
    4 GiB decoding it gives the value back: exactly at its end when more bytes
    follow ([wireDecodeFirst]), and with nothing left over ([wireDecode]).
    Fields equal to their default, which the encoder leaves out, come back. *)
Theorem wire_roundtrip v t :
  wt reg v t ->
  exists b, wireEncode reg v t = Ok b /\
    (zlen b < 2 ^ 32 ->
     wireDecode reg b t = Ok v /\
     forall rest, slice_ok (b ++ rest) -> wireDecodeFirst reg (b ++ rest) t = Ok (v, zlen b)).
Proof.
  intros Hw. destruct (wt_rt v t Hw) as (b & E & _). exists b. split; [done|]. intros Hz. by apply wire_decodes.
Qed.

End Main.

(** A varint of five bytes at most is read back where it was written. *)
Theorem leb128_roundtrip v p rest :
  is_u 32 v ->
  readLeb128U64 (p ++ appendLeb128U32 [] v ++ rest) (zlen p) = Ok (v, zlen p + zlen (appendLeb128U32 [] v)).
Proof. apply readLeb128_at. Qed.

Lemma leb128_roundtrip_witness :
  readLeb128U64 ([x07] ++ appendLeb128U32 [] 300 ++ [x09]) 1 = Ok (300, 3).
Proof. exact (leb128_roundtrip 300 [x07] [x09] ltac:(unfold is_u; lia)). Defined.

(** A record with a field left out, one with a default and an array of strings. *)
Definition sample_schema : RecordSchema :=
  mkRecordSchema (str "Point") (str "geo")
    [mkField 2 (str "y") (Nullable (Prim PhysicalInt64)) (Some NullValue);
     mkField 1 (str "x") (Prim PhysicalInt32) (Some (Int32Value 7));
     mkField 3 (str "tags") (Array (Prim PhysicalString)) None].
Definition sample_registry : Registry := mkRegistry {[ str "geo.Point" := sample_schema ]} ∅ ∅ true.
Definition sample_value : Value :=
  RecordValue [(1, Int32Value 7); (2, Int64Value (-5)); (3, ArrayValue [StringValue (str "a"); StringValue (str "bc")])].

Lemma sample_wt : wt sample_registry sample_value (Ref (str "geo.Point")).
Proof.
  unfold sample_value. cbn [wt].
  assert (Resolve (str "geo.Point") sample_registry = Some (NamedRecord sample_schema)) as -> by (by vm_compute).
  split; [split|].
  - by apply (bool_decide_unpack _).
  - repeat constructor; simpl; lia.
  - cbn. unfold is_s. repeat split; lia.
Qed.

Lemma wire_roundtrip_witness :
  exists b, wireEncode sample_registry sample_value (Ref (str "geo.Point")) = Ok b /\
    wireDecode sample_registry b (Ref (str "geo.Point")) = Ok sample_value.
Proof.
  destruct (wire_roundtrip sample_registry sample_value (Ref (str "geo.Point")) sample_wt) as (b & E & D).
  exists b. split; [exact E|]. apply D. vm_compute in E. injection E as <-. reflexivity.
Defined.

(** A nine-byte varint whose value is [2^63 - 1] passes the bounds check of
    [rawN], where [pos + n] wraps to a negative number, and decoding panics
    instead of reporting a malformed message. *)
Theorem hostile_length_panics reg :
  wireDecode reg [xff; xff; xff; xff; xff; xff; xff; xff; x7f] (Prim PhysicalString) = Panic.
Proof. reflexivity. Qed.

End CodecCorrect.
