(* ===== verification/Sha256.v ===== *)
(** SHA-256 of the Go standard library ([crypto/sha256]), as FIPS 180-4 defines
    it, so that commit and document hashes are computed. *)

From S2P Require Import Prelude Primitives.

Module Sha256.

(** ** Constants

    The round constants are the first 32 bits of the fractional parts of the cube
    roots of the first 64 primes, and the initial state those of the square roots
    of the first eight. *)

(** The largest [r] with [r ^ 3 <= n], among those that agree with [r] above its lowest [k] bits. *)
Fixpoint cube_root (k : nat) (n r : Z) : Z :=
  match k with
  | O => r
  | S k => let s := r + 2 ^ Z.of_nat k in cube_root k n (if s * s * s <=? n then s else r)
  end.

Definition is_prime (n : Z) : bool := forallb (fun d => negb (n mod d =? 0)) (seqZ 2 (n - 2)).
Definition primes : list Z := List.filter is_prime (seqZ 2 310).

(** The largest of them, 311, has a cube root below 8: 35 bits with the fraction. *)
Definition K : list Z := Eval vm_compute in map (fun p => cube_root 35 (p * 2 ^ 96) 0 mod 2 ^ 32) primes.
Definition roots : list Z := Eval vm_compute in map (fun p => Z.sqrt (p * 2 ^ 64) mod 2 ^ 32) (take 8 primes).

Example sixty_four_constants : length K = 64%nat.
Proof. reflexivity. Qed.

Record state := mkState { a : Z; b : Z; c : Z; d : Z; e : Z; f : Z; g : Z; h : Z }.

Definition init : state :=
  let r i := nth i roots 0 in mkState (r 0%nat) (r 1%nat) (r 2%nat) (r 3%nat) (r 4%nat) (r 5%nat) (r 6%nat) (r 7%nat).

Definition add32 (x y : Z) : Z := wrapu 32 (x + y).
Definition rotr (x n : Z) : Z := Z.lor (Z.shiftr x n) (wrapu 32 (Z.shiftl x (32 - n))).
Definition not32 (x : Z) : Z := Z.lxor x 0xffffffff.

Definition Ch (x y z : Z) : Z := Z.lxor (Z.land x y) (Z.land (not32 x) z).
Definition Maj (x y z : Z) : Z := Z.lxor (Z.lxor (Z.land x y) (Z.land x z)) (Z.land y z).
Definition Sigma0 (x : Z) : Z := Z.lxor (Z.lxor (rotr x 2) (rotr x 13)) (rotr x 22).
Definition Sigma1 (x : Z) : Z := Z.lxor (Z.lxor (rotr x 6) (rotr x 11)) (rotr x 25).
Definition sigma0 (x : Z) : Z := Z.lxor (Z.lxor (rotr x 7) (rotr x 18)) (Z.shiftr x 3).
Definition sigma1 (x : Z) : Z := Z.lxor (Z.lxor (rotr x 17) (rotr x 19)) (Z.shiftr x 10).

(** One round with the schedule's last sixteen words, oldest first. *)
Definition round (st : state) (w k : Z) : state :=
  let t1 := wrapu 32 (h st + Sigma1 (e st) + Ch (e st) (f st) (g st) + k + w) in
  let t2 := wrapu 32 (Sigma0 (a st) + Maj (a st) (b st) (c st)) in
  mkState (add32 t1 t2) (a st) (b st) (c st) (add32 (d st) t1) (e st) (f st) (g st).

Fixpoint rounds (ks : list Z) (w : list Z) (st : state) : state :=
  match ks, w with
  | k :: ks, w0 :: ws =>
    let next := wrapu 32 (sigma1 (nth 13 ws 0) + nth 8 ws 0 + sigma0 (nth 0 ws 0) + w0) in
    rounds ks (ws ++ [next]) (round st w0 k)
  | _, _ => st
  end.

Fixpoint words (n : nat) (m : bytes) : list Z :=
  match n with O => [] | S n => be_val (take 4 m) :: words n (drop 4 m) end.

Definition block (st : state) (m : bytes) : state :=
  let r := rounds K (words 16 m) st in
  mkState (add32 (a st) (a r)) (add32 (b st) (b r)) (add32 (c st) (c r)) (add32 (d st) (d r))
    (add32 (e st) (e r)) (add32 (f st) (f r)) (add32 (g st) (g r)) (add32 (h st) (h r)).

Fixpoint blocks (n : nat) (m : bytes) (st : state) : state :=
  match n with O => st | S n => blocks n (drop 64 m) (block st (take 64 m)) end.

Definition pad (m : bytes) : bytes :=
  m ++ x80 :: replicate (Z.to_nat ((55 - zlen m) mod 64)) x00 ++ be_bytes 8 (8 * zlen m).

Definition Sum256 (m : bytes) : bytes :=
  let p := pad m in
  let r := blocks (length p / 64) p init in
  concat (map (be_bytes 4) [a r; b r; c r; d r; e r; f r; g r; h r]).

Lemma Sum256_length m : length (Sum256 m) = 32%nat.
Proof. unfold Sum256. cbn [map concat]. rewrite !length_app, !be_bytes_length. done. Qed.

(** The test vectors of the standard: one block, and a message that needs two. *)
Example Sum256_abc :
  EncodeToString (Sum256 (str "abc")) = str "ba7816bf8f01cfea414140de5dae2223b00361a396177a9cb410ff61f20015ad".
Proof. vm_compute. reflexivity. Qed.

Example Sum256_two_blocks :
  EncodeToString (Sum256 (str "abcdbcdecdefdefgefghfghighijhijkijkljklmklmnlmnomnopnopq")) =
  str "248d6a61d20638b8e5c026930c3e6039a33ce45964ff2167f6ecedd419db06c1".
Proof. vm_compute. reflexivity. Qed.

End Sha256.
