(* ===== verification/Commit.v ===== *)
(** Commits and their operations as codec values: [document/wire.go],
    [document/kdb_op.go] and the generic half of [document/kdb_commit.go].  A
    commit is hashed over the bytes of its [CommitPayload] record, so every
    implementation of the format has to write the same bytes. *)

From S2P Require Import Prelude Primitives Schema KdbCodec Document Sha256.
Import Schema KdbCodec Document.

Module Commit.

(** ** The wire registry *)

Definition wireNS : bytes := str "dev.kdb.document".
Definition fq (name : bytes) : bytes := fqname wireNS name.

Definition uuidPrim : SType := Primitive PhysicalFixed (Some LogicalUUID).
Definition hashRef : SType := Ref (fq (str "Hash32")).
Definition tsPrim : SType := Primitive PhysicalInt64 (Some (LogicalTimestampMicros None)).
Definition stringPrim : SType := Prim PhysicalString.

Definition field (id : Z) (name : bytes) (typ : SType) : FieldSchema := mkField id name typ None.
Definition record (name : bytes) (fields : list FieldSchema) : RecordSchema := mkRecordSchema name wireNS fields.

Definition Hash32 : FixedSchema := mkFixedSchema (str "Hash32") wireNS 32 None.
Definition OpWrite : RecordSchema :=
  record (str "OpWrite") [field 1 (str "docId") uuidPrim; field 2 (str "patch") stringPrim].
Definition OpDelete : RecordSchema := record (str "OpDelete") [field 1 (str "docId") uuidPrim].
Definition OpFileWrite : RecordSchema :=
  record (str "OpFileWrite") [field 1 (str "path") stringPrim; field 2 (str "blobHash") hashRef].
Definition OpSchemaMigration : RecordSchema :=
  record (str "OpSchemaMigration")
    [field 1 (str "migrationId") uuidPrim; field 2 (str "migrationPayload") stringPrim].
Definition OpAttachmentPut : RecordSchema :=
  record (str "OpAttachmentPut")
    [field 1 (str "docId") uuidPrim; field 2 (str "attachmentId") uuidPrim; field 3 (str "name") stringPrim;
     field 4 (str "scheme") (Prim PhysicalInt32); field 5 (str "contentHash") hashRef;
     field 6 (str "size") (Prim PhysicalInt64); field 7 (str "mime") stringPrim].
Definition OpAttachmentDelete : RecordSchema :=
  record (str "OpAttachmentDelete") [field 1 (str "docId") uuidPrim; field 2 (str "attachmentId") uuidPrim].

Definition kdbOpWire : SType :=
  Union (map (fun name => Ref (fq name))
    [str "OpWrite"; str "OpDelete"; str "OpFileWrite"; str "OpSchemaMigration"; str "OpAttachmentPut";
     str "OpAttachmentDelete"]).

Definition DocumentBody : RecordSchema :=
  record (str "DocumentBody") [field 1 (str "id") uuidPrim; field 2 (str "json") stringPrim].
Definition DocumentTreeEntry : RecordSchema :=
  record (str "DocumentTreeEntry") [field 1 (str "docId") uuidPrim; field 2 (str "contentHash") hashRef].
Definition CommitPayload : RecordSchema :=
  record (str "CommitPayload")
    [field 1 (str "parentHashes") (Array hashRef); field 2 (str "namespaceId") stringPrim;
     field 3 (str "transactionId") uuidPrim; field 4 (str "timestamp") tsPrim;
     field 5 (str "authorNodeId") uuidPrim; field 6 (str "operations") (Array kdbOpWire);
     field 7 (str "documentTreeHash") hashRef;
     mkField 8 (str "schemaHash") (Nullable hashRef) (Some NullValue);
     field 9 (str "message") stringPrim;
     mkField 10 (str "attachmentTreeHash") (Nullable hashRef) (Some NullValue)].
Definition CommitStubWire : RecordSchema :=
  record (str "CommitStubWire")
    [field 1 (str "originalHash") hashRef; field 2 (str "archiveLocation") stringPrim;
     field 3 (str "stubbedAt") tsPrim].

(** The function passed to [wireOnce.Do]. *)
Definition buildRegistry {E} : go E Registry :=
  r ← RegisterFixed Hash32 NewRegistry;
  r ← RegisterRecord OpWrite r;
  r ← RegisterRecord OpDelete r;
  r ← RegisterRecord OpFileWrite r;
  r ← RegisterRecord OpSchemaMigration r;
  r ← RegisterRecord OpAttachmentPut r;
  r ← RegisterRecord OpAttachmentDelete r;
  r ← RegisterRecord DocumentBody r;
  r ← RegisterRecord DocumentTreeEntry r;
  r ← RegisterRecord CommitPayload r;
  r ← RegisterRecord CommitStubWire r;
  Ok (Freeze r).

Definition WireRegistry : Registry :=
  match buildRegistry (E:=codec_error) with Ok r => r | _ => NewRegistry end.

Definition DocumentBodyType : SType := Ref (fq (str "DocumentBody")).
Definition CommitPayloadType : SType := Ref (fq (str "CommitPayload")).

(** ** Values *)

Inductive commit_error :=
  | CommitDecode (msg : bytes) (cause : option codec_error)
  | CodecFailed (e : codec_error)
  | Errorf (msg : bytes)
  | BadHash (e : parse_error).
Abbreviation cres := (go commit_error).

Definition lift_codec {A} (r : res A) : cres A :=
  match r with Ok x => Ok x | Err e => Err (CodecFailed e) | Panic => Panic end.
Definition lift_hash {A} (r : go parse_error A) : cres A :=
  match r with Ok x => Ok x | Err e => Err (BadHash e) | Panic => Panic end.
(** [if err != nil { return ..., NewCommitDecodeError(msg, nil) }] *)
Definition or_decode {A} (msg : bytes) (r : cres A) : cres A :=
  match r with Ok x => Ok x | Err _ => Err (CommitDecode msg None) | Panic => Panic end.

Definition uuidVal (u : UUID) : Value := UUIDValue (MSB u) (LSB u).
Definition hashVal (h : Hash) : Value := FixedValue (HashBytes h).
Definition timestampVal (t : Timestamp) : Value := TimestampValue (EpochMicros t) None.

(** A field that is not in the map is a nil interface: the assertion fails. *)
Definition uuidFromVal (v : option Value) : cres UUID :=
  match v with Some (UUIDValue m l) => Ok (mkUUID m l) | _ => Err (Errorf (str "expected uuid")) end.
Definition hashFromVal (v : option Value) : cres Hash :=
  match v with
  | Some (FixedValue b) => if negb (zlen b =? 32) then Err (Errorf (str "expected hash32")) else lift_hash (HashFromBytes b)
  | _ => Err (Errorf (str "expected hash32"))
  end.
Definition timestampFromVal (v : option Value) : cres Timestamp :=
  match v with
  | Some (TimestampValue t _) => Ok (TimestampFromEpochMicros t)
  | _ => Err (Errorf (str "expected timestamp"))
  end.
Definition stringFrom (msg : bytes) (v : option Value) : cres bytes :=
  match v with Some (StringValue s) => Ok s | _ => Err (CommitDecode msg None) end.

(** ** Operations *)

Definition toValue (op : Op) : Value :=
  match op with
  | WriteOp id patch _ => UnionValue 0 (RecordValue [(1, uuidVal id); (2, StringValue patch)])
  | DeleteOp id => UnionValue 1 (RecordValue [(1, uuidVal id)])
  | FileWriteOp path h => UnionValue 2 (RecordValue [(1, StringValue path); (2, hashVal h)])
  | SchemaMigrationOp id payload => UnionValue 3 (RecordValue [(1, uuidVal id); (2, StringValue payload)])
  | AttachmentPutOp id att name scheme h size mime =>
    UnionValue 4 (RecordValue
      [(1, uuidVal id); (2, uuidVal att); (3, StringValue name); (4, Int32Value scheme); (5, hashVal h);
       (6, Int64Value size); (7, StringValue mime)])
  | AttachmentDeleteOp id att => UnionValue 5 (RecordValue [(1, uuidVal id); (2, uuidVal att)])
  end.

Definition attachmentPut (rec : list (Z * Value)) : cres Op :=
  id ← or_decode (str "OpAttachmentPut docId") (uuidFromVal (field_lookup 1 rec));
  att ← or_decode (str "OpAttachmentPut attachmentId") (uuidFromVal (field_lookup 2 rec));
  name ← stringFrom (str "OpAttachmentPut name") (field_lookup 3 rec);
  scheme ← match field_lookup 4 rec with
           | Some (Int32Value v) =>
             if (v <? 0) || (255 <? v) then Err (CommitDecode (str "OpAttachmentPut scheme") None) else Ok v
           | _ => Err (CommitDecode (str "OpAttachmentPut scheme") None)
           end;
  h ← or_decode (str "OpAttachmentPut contentHash") (hashFromVal (field_lookup 5 rec));
  size ← match field_lookup 6 rec with
         | Some (Int64Value v) => if v <? 0 then Err (CommitDecode (str "OpAttachmentPut size") None) else Ok v
         | _ => Err (CommitDecode (str "OpAttachmentPut size") None)
         end;
  mime ← stringFrom (str "OpAttachmentPut mime") (field_lookup 7 rec);
  Ok (AttachmentPutOp id att name scheme h size mime).

Definition OpFromValue (value : Value) : cres Op :=
  match value with
  | UnionValue branch (RecordValue rec) =>
    match branch with
    | 0 =>
      id ← or_decode (str "OpWrite docId") (uuidFromVal (field_lookup 1 rec));
      patch ← stringFrom (str "OpWrite patch") (field_lookup 2 rec);
      Ok (WriteOp id patch false)
    | 1 =>
      id ← or_decode (str "OpDelete docId") (uuidFromVal (field_lookup 1 rec));
      Ok (DeleteOp id)
    | 2 =>
      path ← stringFrom (str "OpFileWrite path") (field_lookup 1 rec);
      h ← hashFromVal (field_lookup 2 rec);
      Ok (FileWriteOp path h)
    | 3 =>
      id ← or_decode (str "OpSchemaMigration migrationId") (uuidFromVal (field_lookup 1 rec));
      payload ← stringFrom (str "OpSchemaMigration payload") (field_lookup 2 rec);
      Ok (SchemaMigrationOp id payload)
    | 4 => attachmentPut rec
    | 5 =>
      id ← or_decode (str "OpAttachmentDelete docId") (uuidFromVal (field_lookup 1 rec));
      att ← or_decode (str "OpAttachmentDelete attachmentId") (uuidFromVal (field_lookup 2 rec));
      Ok (AttachmentDeleteOp id att)
    | _ => Err (CommitDecode (str "unknown KdbOp branch") None)
    end
  | UnionValue _ _ => Err (CommitDecode (str "KdbOp: expected record") None)
  | _ => Err (CommitDecode (str "KdbOp: expected union") None)
  end.

(** ** Commits *)

Record Commit := mkCommit {
  CommitHash : Hash;
  ParentHashes : list Hash;
  NamespaceID : bytes;
  TransactionID : UUID;
  CommitTimestamp : Timestamp;
  AuthorNodeID : UUID;
  Operations : list Op;
  DocumentTreeHash : Hash;
  SchemaHash : option Hash;
  Message : bytes;
  AttachmentTreeHash : option Hash;
}.

Definition set_hash (c : Commit) (h : Hash) : Commit :=
  mkCommit h (ParentHashes c) (NamespaceID c) (TransactionID c) (CommitTimestamp c) (AuthorNodeID c)
    (Operations c) (DocumentTreeHash c) (SchemaHash c) (Message c) (AttachmentTreeHash c).

Definition optional (id : Z) (h : option Hash) : list (Z * Value) :=
  match h with Some h => [(id, hashVal h)] | None => [] end.

Definition commitPayloadRecord (c : Commit) : Value :=
  RecordValue
    ([(1, ArrayValue (map hashVal (ParentHashes c))); (2, StringValue (NamespaceID c));
      (3, uuidVal (TransactionID c)); (4, timestampVal (CommitTimestamp c)); (5, uuidVal (AuthorNodeID c));
      (6, ArrayValue (map toValue (Operations c))); (7, hashVal (DocumentTreeHash c))]
     ++ optional 8 (SchemaHash c) ++ [(9, StringValue (Message c))] ++ optional 10 (AttachmentTreeHash c)).

Definition ToCommitPayloadValue (c : Commit) : Value := commitPayloadRecord c.

(** A loop that stops at the first error. *)
Fixpoint each {A B} (f : A -> cres B) (l : list A) : cres (list B) :=
  match l with [] => Ok [] | x :: l => y ← f x; ys ← each f l; Ok (y :: ys) end.

Definition arrayFrom (msg : bytes) (v : option Value) : cres (list Value) :=
  match v with Some (ArrayValue els) => Ok els | _ => Err (CommitDecode msg None) end.

Definition optionalHash (msg : bytes) (v : option Value) : cres (option Hash) :=
  match v with
  | None | Some NullValue => Ok None
  | Some (FixedValue b) => h ← or_decode msg (lift_hash (HashFromBytes b)); Ok (Some h)
  | _ => Err (CommitDecode msg None)
  end.

Definition parseCommitFromRecord (rec : list (Z * Value)) (hash : Hash) : cres Commit :=
  parentsArr ← arrayFrom (str "parentHashes") (field_lookup 1 rec);
  parents ← each (fun el => or_decode (str "parent hash") (hashFromVal (Some el))) parentsArr;
  ns ← stringFrom (str "namespaceId") (field_lookup 2 rec);
  txID ← or_decode (str "transactionId") (uuidFromVal (field_lookup 3 rec));
  ts ← or_decode (str "timestamp") (timestampFromVal (field_lookup 4 rec));
  author ← or_decode (str "authorNodeId") (uuidFromVal (field_lookup 5 rec));
  opsArr ← arrayFrom (str "operations") (field_lookup 6 rec);
  ops ← each OpFromValue opsArr;
  docTreeH ← or_decode (str "documentTreeHash") (hashFromVal (field_lookup 7 rec));
  schemaH ← optionalHash (str "schemaHash") (field_lookup 8 rec);
  msg ← stringFrom (str "message") (field_lookup 9 rec);
  attachH ← optionalHash (str "attachmentTreeHash") (field_lookup 10 rec);
  Ok (mkCommit hash parents ns txID ts author ops docTreeH schemaH msg attachH).

Definition SHA256Digest (message : bytes) : bytes := Sha256.Sum256 message.

(** [ToPayloadBytes] and [FromPayloadBytes] without the direct codec they try first. *)
Definition generic_encode (c : Commit) : cres bytes :=
  lift_codec (wireEncode WireRegistry (ToCommitPayloadValue c) CommitPayloadType).

Definition generic_decode (b : bytes) : cres Commit :=
  match wireDecode WireRegistry b CommitPayloadType with
  | Panic => Panic
  | Err e => Err (CommitDecode (str "commit payload decode failed") (Some e))
  | Ok (RecordValue rec) =>
    h ← lift_hash (HashFromBytes (SHA256Digest b));
    parseCommitFromRecord rec h
  | Ok _ => Err (CommitDecode (str "commit payload: expected record") None)
  end.

(** ** Documents *)

Record Doc := mkDoc { DocumentID : UUID; JSON : bytes }.

Definition ToDocumentBodyValue (d : Doc) : Value :=
  RecordValue [(1, uuidVal (DocumentID d)); (2, StringValue (JSON d))].

Definition ComputeContentHash (doc : Doc) : cres Hash :=
  b ← lift_codec (wireEncode WireRegistry (ToDocumentBodyValue doc) DocumentBodyType);
  lift_hash (HashFromBytes (SHA256Digest b)).

End Commit.
