(* ===== verification/CommitDirect.v ===== *)
(** The direct commit codec and the commit scanner: [document/commit_direct.go],
    [document/commit_scan.go] and [document/content_hasher.go], and the entry
    points of [document/kdb_commit.go] that use them.  They read and write the
    [CommitPayload] layout by hand, without building a codec value. *)

From S2P Require Import Prelude Primitives Schema KdbCodec Document Sha256 Commit.
Import Schema KdbCodec Document Commit.

Module CommitDirect.

(** ** [encoding/binary] varints *)

Fixpoint uvarint_append (fuel : nat) (buf : bytes) (x : Z) : bytes :=
  match fuel with
  | O => buf
  | S fuel =>
    if 128 <=? x then uvarint_append fuel (buf ++ [z2b (Z.lor x 128)]) (Z.shiftr x 7) else buf ++ [z2b x]
  end.
(** A uint64 has at most ten groups of seven bits. *)
Definition AppendUvarint (buf : bytes) (x : Z) : bytes := uvarint_append 10 buf x.

Fixpoint uvarint_loop (buf : bytes) (i x s : Z) : Z * Z :=
  match buf with
  | [] => (0, 0)
  | b :: buf =>
    if i =? 10 then (0, - (i + 1))
    else if b2z b <? 128 then
      if (i =? 9) && (1 <? b2z b) then (0, - (i + 1))
      else (Z.lor x (wrapu 64 (Z.shiftl (b2z b) s)), i + 1)
    else uvarint_loop buf (i + 1) (Z.lor x (wrapu 64 (Z.shiftl (Z.land (b2z b) 127) s))) (s + 7)
  end.
Definition Uvarint (buf : bytes) : Z * Z := uvarint_loop buf 0 0 0.

(** ** The scanner *)

Record commitScanner := mkScan { sraw : bytes; spos : Z }.
Definition truncated {A} (what : bytes) : cres A := Err (CommitDecode (what ++ str ": truncated") None).
Definition left_over (s : commitScanner) : Z := zlen (sraw s) - spos s.

Definition uvarint (what : bytes) (s : commitScanner) : cres (Z * commitScanner) :=
  rest ← zslice (sraw s) (spos s) (zlen (sraw s));
  let '(v, n) := Uvarint rest in
  if n <=? 0 then Err (CommitDecode (what ++ str ": bad varint") None)
  else Ok (v, mkScan (sraw s) (spos s + n)).

Definition sbyte (what : bytes) (s : commitScanner) : cres (byte * commitScanner) :=
  if zlen (sraw s) <=? spos s then truncated what
  else b ← zindex (sraw s) (spos s); Ok (b, mkScan (sraw s) (spos s + 1)).

Definition skip (n : Z) (what : bytes) (s : commitScanner) : cres commitScanner :=
  if (n <? 0) || (left_over s <? n) then truncated what else Ok (mkScan (sraw s) (spos s + n)).

Definition lenPrefixed (what : bytes) (s : commitScanner) : cres (bytes * commitScanner) :=
  '(n, s) ← uvarint what s;
  if left_over s <? n then truncated what
  else b ← zslice (sraw s) (spos s) (spos s + n); Ok (b, mkScan (sraw s) (spos s + n)).

Definition expectTag (tag : byte) (want : PhysicalKind) : cres unit :=
  if negb (bool_decide (tag = Tag want)) then Err (CommitDecode (str "commit payload: record tag mismatch") None)
  else Ok tt.

Definition skipPrimitive (tag : byte) (s : commitScanner) : cres commitScanner :=
  match PhysicalFromTag tag with
  | None => Err (CommitDecode (str "commit payload: unknown record tag") None)
  | Some kind =>
    match kind with
    | PhysicalInt32 | PhysicalFloat32 => skip 4 (str "field") s
    | PhysicalInt64 | PhysicalFloat64 => skip 8 (str "field") s
    | PhysicalString | PhysicalBytes => '(_, s) ← lenPrefixed (str "field") s; Ok s
    | PhysicalBool | PhysicalInt8 => skip 1 (str "field") s
    | PhysicalInt16 => skip 2 (str "field") s
    | _ => Err (CommitDecode (str "commit payload: cannot skip unknown field") None)
    end
  end.

Definition uuidAt (b : bytes) : cres UUID := m ← readBE64 b 0; l ← readBE64 b 8; Ok (mkUUID m l).

(** ** Scanning writes *)

(** An iteration reads a field id, so the length of the body bounds their number. *)
Fixpoint opWrite_loop (fuel : nat) (r : commitScanner) (id : option UUID) (patch : option bytes)
    : cres (option UUID * option bytes) :=
  if zlen (sraw r) <=? spos r then Ok (id, patch)
  else
    match fuel with
    | O => Err (CodecFailed OutOfFuel)
    | S fuel =>
      '(fid, r) ← uvarint (str "OpWrite field id") r;
      '(tag, r) ← sbyte (str "OpWrite field tag") r;
      match fid with
      | 1 =>
        _ ← expectTag tag PhysicalFixed;
        r ← skip 16 (str "OpWrite docId") r;
        b ← zslice (sraw r) (spos r - 16) (spos r);
        u ← uuidAt b;
        opWrite_loop fuel r (Some u) patch
      | 2 =>
        _ ← expectTag tag PhysicalString;
        '(p, r) ← lenPrefixed (str "OpWrite patch") r;
        opWrite_loop fuel r id (Some p)
      | _ => r ← skipPrimitive tag r; opWrite_loop fuel r id patch
      end
    end.

Definition scanOpWrite (body : bytes) : cres (UUID * bytes) :=
  '(id, patch) ← opWrite_loop (length body) (mkScan body 0) None None;
  match id, patch with
  | Some id, Some patch => Ok (id, patch)
  | _, _ => Err (CommitDecode (str "OpWrite: missing field") None)
  end.

Section Scan.
(** The visitor: its state and whether to go on. *)
Context {A : Type} (fn : A -> UUID -> bytes -> A * bool).

(** The visitor's state and [*stopped]. *)
Abbreviation visit := (A * bool)%type.

Fixpoint scan_ops (n : nat) (s : commitScanner) (v : visit) : cres (commitScanner * visit) :=
  match n with
  | O => Ok (s, v)
  | S n =>
    '(branch, s) ← sbyte (str "operation branch") s;
    if 5 <? b2z branch then Err (CommitDecode (str "operation: unknown union branch") None)
    else
      '(body, s) ← lenPrefixed (str "operation") s;
      if negb (b2z branch =? 0) || v.2 then scan_ops n s v
      else
        '(id, patch) ← scanOpWrite body;
        let '(a, more) := fn v.1 id patch in
        scan_ops n s (a, v.2 || negb more)
  end.

Definition scanOperations (s : commitScanner) (v : visit) : cres (commitScanner * visit) :=
  '(n, s) ← uvarint (str "operation count") s;
  if left_over s <? n then Err (CommitDecode (str "operations") None)
  else scan_ops (Z.to_nat n) s v.

Definition nullableHash (what : bytes) (f : commitScanner) : cres commitScanner :=
  '(m, f) ← sbyte what f;
  if b2z m =? 0 then Ok f
  else if b2z m =? 1 then skip 32 what f
  else Err (CommitDecode what None).

Definition scan_field (id : Z) (tag : byte) (f : commitScanner) (v : visit) : cres (commitScanner * visit) :=
  let same (r : cres commitScanner) : cres (commitScanner * visit) := f ← r; Ok (f, v) in
  match id with
  | 1 =>
    _ ← expectTag tag PhysicalArray;
    '(n, f) ← uvarint (str "parent count") f;
    if left_over f / 32 <? n then Err (CommitDecode (str "parentHashes") None)
    else Ok (mkScan (sraw f) (spos f + n * 32), v)
  | 2 | 9 => _ ← expectTag tag PhysicalString; '(_, f) ← lenPrefixed (str "string field") f; Ok (f, v)
  | 3 | 5 => _ ← expectTag tag PhysicalFixed; same (skip 16 (str "uuid field") f)
  | 4 => _ ← expectTag tag PhysicalInt64; same (skip 8 (str "timestamp") f)
  | 6 => _ ← expectTag tag PhysicalArray; scanOperations f v
  | 7 => _ ← expectTag tag PhysicalFixed; same (skip 32 (str "documentTreeHash") f)
  | 8 => _ ← expectTag tag PhysicalUnion; same (nullableHash (str "schemaHash") f)
  | 10 => _ ← expectTag tag PhysicalUnion; same (nullableHash (str "attachmentTreeHash") f)
  | _ => same (skipPrimitive tag f)
  end.

(** [seen]: bit [i] is set when field [i] is present. *)
Fixpoint scan_fields (fuel : nat) (f : commitScanner) (seen : Z) (v : visit) : cres (Z * visit) :=
  if zlen (sraw f) <=? spos f then Ok (seen, v)
  else
    match fuel with
    | O => Err (CodecFailed OutOfFuel)
    | S fuel =>
      '(id, f) ← uvarint (str "field id") f;
      '(tag, f) ← sbyte (str "field tag") f;
      let seen := if id <? 16 then Z.lor seen (Z.shiftl 1 id) else seen in
      '(f, v) ← scan_field id tag f v;
      scan_fields fuel f seen v
    end.

(** Fields 1 to 7 and 9. *)
Definition required : Z := 0x2fe.

Definition scanWrites (payload : bytes) (a : A) : cres A :=
  '(slab, s) ← lenPrefixed (str "commit payload") (mkScan payload 0);
  if negb (spos s =? zlen payload) then Err (CommitDecode (str "commit payload: trailing bytes") None)
  else
    '(seen, v) ← scan_fields (length slab) (mkScan slab 0) 0 (a, false);
    if negb (Z.land seen required =? required) then Err (CommitDecode (str "commit payload: missing field") None)
    else Ok v.1.

End Scan.

Definition ScanAllCommitWrites {A} (payload : bytes) (fn : A -> UUID -> bytes -> A * bool) (a : A) : cres A :=
  scanWrites fn payload a.

Definition ScanCommitWrites {A} (payload : bytes) (docID : UUID) (fn : A -> bytes -> A * bool) (a : A) : cres A :=
  scanWrites (fun a id patch => if bool_decide (id = docID) then fn a patch else (a, true)) payload a.

(** ** The direct encoder *)

(** [lebLen]; a uint32 takes at most five rounds. *)
Fixpoint lebLen_loop (fuel : nat) (v n : Z) : Z :=
  match fuel with O => n | S fuel => if 128 <=? v then lebLen_loop fuel (Z.shiftr v 7) (n + 1) else n end.
Definition lebLen (v : Z) : Z := lebLen_loop 5 v 1.
Definition lebLenOf (v : Z) : Z := lebLen (wrapu 32 v).

Definition opBodyLen (op : Op) : option Z :=
  match op with
  | WriteOp _ patch _ => Some (2 + 16 + 2 + lebLenOf (zlen patch) + zlen patch)
  | DeleteOp _ => Some (2 + 16)
  | FileWriteOp path _ => Some (2 + lebLenOf (zlen path) + zlen path + 2 + 32)
  | SchemaMigrationOp _ payload => Some (2 + 16 + 2 + lebLenOf (zlen payload) + zlen payload)
  | _ => None
  end.

(** The operations' part of [commitBodyLen]. *)
Fixpoint opsLen (ops : list Op) (n : Z) : option Z :=
  match ops with
  | [] => Some n
  | op :: ops => b ← opBodyLen op; opsLen ops (n + (1 + lebLenOf b + b))
  end.

(** [None] is the -1 of the source. *)
Definition commitBodyLen (c : Commit) : option Z :=
  match AttachmentTreeHash c with
  | Some _ => None
  | None =>
    let n := 2 + lebLenOf (zlen (ParentHashes c)) + 32 * zlen (ParentHashes c) in
    let n := n + (2 + lebLenOf (zlen (NamespaceID c)) + zlen (NamespaceID c)) in
    let n := n + (2 + 16) + (2 + 8) + (2 + 16) in
    let n := n + (2 + lebLenOf (zlen (Operations c))) in
    n ← opsLen (Operations c) n;
    let n := n + (2 + 32) in
    let n := match SchemaHash c with Some _ => n + (2 + 1 + 32) | None => n end in
    Some (n + (2 + lebLenOf (zlen (Message c)) + zlen (Message c)))
  end.

Definition appendLeb (dst : bytes) (v : Z) : bytes := AppendUvarint dst (wrapu 32 v).
Definition appendUUID (dst : bytes) (u : UUID) : bytes := (dst ++ be_bytes 8 (MSB u)) ++ be_bytes 8 (LSB u).
Definition appendStr (dst s : bytes) : bytes := appendLeb dst (zlen s) ++ s.

Definition tagArray : byte := Tag PhysicalArray.
Definition tagString : byte := Tag PhysicalString.
Definition tagFixed : byte := Tag PhysicalFixed.
Definition tagInt64 : byte := Tag PhysicalInt64.
Definition tagUnion : byte := Tag PhysicalUnion.

(** An operation without a length has no case in the switch. *)
Definition appendOp (dst : bytes) (op : Op) : bytes :=
  let b := default (-1) (opBodyLen op) in
  match op with
  | WriteOp id patch _ =>
    appendStr (appendUUID (appendLeb (dst ++ [x00]) b ++ [x01; tagFixed]) id ++ [x02; tagString]) patch
  | DeleteOp id => appendUUID (appendLeb (dst ++ [x01]) b ++ [x01; tagFixed]) id
  | FileWriteOp path h =>
    (appendStr (appendLeb (dst ++ [x02]) b ++ [x01; tagString]) path ++ [x02; tagFixed]) ++ HashBytes h
  | SchemaMigrationOp id payload =>
    appendStr (appendUUID (appendLeb (dst ++ [x03]) b ++ [x01; tagFixed]) id ++ [x02; tagString]) payload
  | _ => dst
  end.

Definition appendCommitPayload (dst : bytes) (c : Commit) (body : Z) : bytes :=
  let dst := appendLeb dst body in
  let dst := appendLeb (dst ++ [x01; tagArray]) (zlen (ParentHashes c)) in
  let dst := foldl (fun dst h => dst ++ HashBytes h) dst (ParentHashes c) in
  let dst := appendStr (dst ++ [x02; tagString]) (NamespaceID c) in
  let dst := appendUUID (dst ++ [x03; tagFixed]) (TransactionID c) in
  let dst := (dst ++ [x04; tagInt64]) ++ le_bytes 8 (EpochMicros (CommitTimestamp c)) in
  let dst := appendUUID (dst ++ [x05; tagFixed]) (AuthorNodeID c) in
  let dst := appendLeb (dst ++ [x06; tagArray]) (zlen (Operations c)) in
  let dst := foldl appendOp dst (Operations c) in
  let dst := (dst ++ [x07; tagFixed]) ++ HashBytes (DocumentTreeHash c) in
  let dst := match SchemaHash c with
             | Some h => (dst ++ [x08; tagUnion; x01]) ++ HashBytes h
             | None => dst
             end in
  appendStr (dst ++ [x09; tagString]) (Message c).

Definition encodeCommitDirect (c : Commit) : option bytes :=
  body ← commitBodyLen c; Some (appendCommitPayload [] c body).

(** The pooled buffer is emptied before it is used. *)
Definition hashCommitDirect (c : Commit) : option Hash :=
  body ← commitBodyLen c; Some (mkHash (Sha256.Sum256 (appendCommitPayload [] c body))).

(** ** The direct decoder *)

(** Every way to fail is [ok = false]. *)
Definition not_ok {A} : cres A := Err (Errorf []).

Definition field_at (id : Z) (tag : byte) (r : commitScanner) : cres commitScanner :=
  '(fid, r) ← uvarint [] r;
  if negb (fid =? id) then not_ok
  else '(t, r) ← sbyte [] r; if negb (bool_decide (t = tag)) then not_ok else Ok r.

(** [copy(h.Bytes[:], b)] into a zeroed array. *)
Definition hashCopy (b : bytes) : Hash := mkHash (take 32 b ++ replicate (32 - length (take 32 b)) x00).

(** [uuidAt(r.raw[r.pos-16:])] after [r.skip(16, "")]. *)
Definition uuid_read (r : commitScanner) : cres (UUID * commitScanner) :=
  r ← skip 16 [] r;
  b ← zslice (sraw r) (spos r - 16) (zlen (sraw r));
  u ← uuidAt b;
  Ok (u, r).

Definition hash_read (r : commitScanner) : cres (Hash * commitScanner) :=
  r ← skip 32 [] r;
  b ← zslice (sraw r) (spos r - 32) (zlen (sraw r));
  Ok (hashCopy b, r).

Fixpoint parents_read (n : nat) (r : commitScanner) : cres (list Hash * commitScanner) :=
  match n with
  | O => Ok ([], r)
  | S n =>
    b ← zslice (sraw r) (spos r) (zlen (sraw r));
    '(hs, r) ← parents_read n (mkScan (sraw r) (spos r + 32));
    Ok (hashCopy b :: hs, r)
  end.

Definition decodeOpDirect (branch : byte) (body : bytes) : cres Op :=
  let r := mkScan body 0 in
  let uuid id r := r ← field_at id tagFixed r; uuid_read r in
  let text id r := r ← field_at id tagString r; lenPrefixed [] r in
  '(op, r) ←
    match b2z branch with
    | 0 => '(id, r) ← uuid 1 r; '(patch, r) ← text 2 r; Ok (WriteOp id patch false, r)
    | 1 => '(id, r) ← uuid 1 r; Ok (DeleteOp id, r)
    | 2 =>
      '(path, r) ← text 1 r;
      r ← field_at 2 tagFixed r;
      '(h, r) ← hash_read r;
      Ok (FileWriteOp path h, r)
    | 3 => '(id, r) ← uuid 1 r; '(payload, r) ← text 2 r; Ok (SchemaMigrationOp id payload, r)
    | _ => not_ok
    end;
  if negb (spos r =? zlen (sraw r)) then not_ok else Ok op.

Fixpoint ops_read (n : nat) (r : commitScanner) : cres (list Op * commitScanner) :=
  match n with
  | O => Ok ([], r)
  | S n =>
    '(branch, r) ← sbyte [] r;
    '(body, r) ← lenPrefixed [] r;
    op ← decodeOpDirect branch body;
    '(ops, r) ← ops_read n r;
    Ok (op :: ops, r)
  end.

(** schemaHash is read when the next byte is its field id. *)
Definition schema_read (r : commitScanner) : cres (option Hash * commitScanner) :=
  let absent := Ok (None, r) in
  if spos r <? zlen (sraw r) then
    b ← zindex (sraw r) (spos r);
    if b2z b =? 8 then
      r ← field_at 8 tagUnion r;
      '(m, r) ← sbyte [] r;
      if negb (b2z m =? 1) then not_ok
      else '(h, r) ← hash_read r; Ok (Some h, r)
    else absent
  else absent.

Definition decodeCommitDirect (payload : bytes) : cres Commit :=
  '(slab, s) ← lenPrefixed (str "commit payload") (mkScan payload 0);
  if negb (spos s =? zlen payload) then not_ok
  else
    r ← field_at 1 tagArray (mkScan slab 0);
    '(n, r) ← uvarint [] r;
    if left_over r / 32 <? n then not_ok
    else
      '(parents, r) ← parents_read (Z.to_nat n) r;
      r ← field_at 2 tagString r;
      '(ns, r) ← lenPrefixed [] r;
      r ← field_at 3 tagFixed r;
      '(txID, r) ← uuid_read r;
      r ← field_at 4 tagInt64 r;
      r ← skip 8 [] r;
      b ← zslice (sraw r) (spos r - 8) (zlen (sraw r));
      micros ← readLe64 b 0;
      r ← field_at 5 tagFixed r;
      '(author, r) ← uuid_read r;
      r ← field_at 6 tagArray r;
      '(n, r) ← uvarint [] r;
      if left_over r <? n then not_ok
      else
        '(ops, r) ← ops_read (Z.to_nat n) r;
        r ← field_at 7 tagFixed r;
        '(tree, r) ← hash_read r;
        '(sch, r) ← schema_read r;
        r ← field_at 9 tagString r;
        '(msg, r) ← lenPrefixed [] r;
        if negb (spos r =? zlen (sraw r)) then not_ok
        else Ok (mkCommit (mkHash (Sha256.Sum256 payload)) parents ns txID
               (TimestampFromEpochMicros (wraps 64 micros)) author ops tree sch msg None).

(** ** The entry points of [kdb_commit.go] *)

Definition ToPayloadBytes (c : Commit) : cres bytes :=
  match encodeCommitDirect c with Some b => Ok b | None => generic_encode c end.

Definition PayloadSize (c : Commit) : Z :=
  match commitBodyLen c with None => -1 | Some body => lebLenOf body + body end.

Definition AppendPayloadBytes (dst : bytes) (c : Commit) : cres bytes :=
  match commitBodyLen c with
  | Some body => Ok (appendCommitPayload dst c body)
  | None => b ← ToPayloadBytes c; Ok (dst ++ b)
  end.

Definition FromPayloadBytes (b : bytes) : cres Commit :=
  match decodeCommitDirect b with
  | Ok c => Ok c
  | Err _ => generic_decode b
  | Panic => Panic
  end.

Definition ComputeCommitHash (c : Commit) : cres Hash :=
  match hashCommitDirect c with
  | Some h => Ok h
  | None => b ← ToPayloadBytes c; lift_hash (HashFromBytes (SHA256Digest b))
  end.

(** The fields of the commit but for its hash are the arguments. *)
Definition BuildCommitWithAttachments (c : Commit) : cres Commit :=
  h ← ComputeCommitHash (set_hash c (mkHash (replicate 32 x00)));
  Ok (set_hash c h).

(** ** Content hashes *)

(** The scratch buffer is emptied before it is used. *)
Definition contentHash (id : UUID) (json : bytes) : Hash :=
  let bodyLen := 1 + 1 + 16 + 1 + 1 + lebLen (wrapu 32 (zlen json)) + zlen json in
  let b := AppendUvarint [] (wrapu 32 bodyLen) in
  let b := b ++ [x01; Tag PhysicalFixed] in
  let b := (b ++ be_bytes 8 (MSB id)) ++ be_bytes 8 (LSB id) in
  let b := b ++ [x02; Tag PhysicalString] in
  let b := AppendUvarint b (wrapu 32 (zlen json)) in
  mkHash (Sha256.Sum256 (b ++ json)).

End CommitDirect.
