(* ===== verification/CommitCorrect.v ===== *)
(** The direct commit codec against the generic one: the same bytes, and the
    same commit for every payload. *)

From S2P Require Import Prelude Primitives Schema KdbCodec CodecCorrect Document Sha256 Commit CommitDirect.
Import Schema KdbCodec CodecCorrect Document Commit CommitDirect.

Module CommitCorrect.

(** ** Varints of the standard library and of the codec *)

Definition leb32 (v : Z) : bytes := appendLeb128U32 [] (wrapu 32 v).

Lemma z2b_or_128 x : 0 <= x -> z2b (Z.lor x 128) = z2b (Z.lor (Z.land x 127) 128).
Proof.
  intros Hx. apply b2z_inj. rewrite chunk_cont by done. rewrite b2z_z2b.
  change 256 with (2 ^ 8). rewrite <- Z.land_ones by lia. change (Z.ones 8) with (Z.lor 127 128).
  rewrite Z.land_lor_distr_l, !Z.land_lor_distr_r. change (Z.land 128 127) with 0. change (Z.land 128 128) with 128.
  rewrite Z.lor_0_l, <- Z.lor_assoc.
  replace (Z.lor (Z.land x 128) 128) with 128.
  - rewrite land_127 by done. change 128 with (Z.shiftl 1 7) at 2. apply lor_shiftl_add; [lia|].
    change (2 ^ 7) with 128. apply Z.mod_pos_bound. lia.
  - apply Z.bits_inj. intros i. rewrite Z.lor_spec, Z.land_spec. by destruct (Z.testbit x i), (Z.testbit 128 i).
Qed.

Lemma pow_groups f : 2 ^ (7 * Z.of_nat (S f)) = 128 * 2 ^ (7 * Z.of_nat f).
Proof. replace (7 * Z.of_nat (S f)) with (7 + 7 * Z.of_nat f) by lia. rewrite Z.pow_add_r by lia. done. Qed.

Lemma uvarint_append_leb f1 f2 buf v :
  (f2 <= f1)%nat -> (0 < f2)%nat -> 0 <= v < 2 ^ (7 * Z.of_nat f2) -> uvarint_append f1 buf v = leb_loop f2 buf v.
Proof.
  revert f1 buf v. induction f2 as [|f2 IH]; intros f1 buf v Hf H0 Hv; [lia|]. destruct f1 as [|f1]; [lia|].
  cbn [uvarint_append leb_loop]. pose proof (pow_groups f2) as Hp7.
  assert (Hsh : Z.shiftr v 7 = v / 128) by (rewrite Z.shiftr_div_pow2 by lia; done).
  destruct (Z.leb_spec 128 v).
  - rewrite Hsh. destruct (Z.eqb_spec (v / 128) 0); [zdm|]. rewrite z2b_or_128 by lia.
    apply IH; [lia| |split; [apply Z.div_pos; lia|apply Z.div_lt_upper_bound; lia]].
    destruct f2; [|lia]. change (2 ^ (7 * Z.of_nat 0)) with 1 in Hp7. lia.
  - rewrite Hsh, Z.div_small by lia. cbn [Z.eqb]. by rewrite land_127, Z.mod_small by lia.
Qed.

Lemma appendLeb_spec dst v : appendLeb dst v = dst ++ leb32 v.
Proof.
  unfold appendLeb, AppendUvarint, leb32, appendLeb128U32. pose proof (wrapu_range 32 v ltac:(lia)) as Hr. unfold is_u in Hr.
  rewrite (uvarint_append_leb 10 5) by (simpl; lia). apply leb_loop_app.
Qed.

Lemma leb_loop_S n v : 0 <= v ->
  leb_loop (S n) [] v =
  if 128 <=? v then z2b (Z.lor (Z.land v 127) 128) :: leb_loop n [] (v / 128) else [z2b v].
Proof.
  intros Hv. cbn [leb_loop]. rewrite Z.shiftr_div_pow2 by lia. change (2 ^ 7) with 128.
  destruct (Z.leb_spec 128 v).
  - destruct (Z.eqb_spec (v / 128) 0); [zdm|]. by rewrite leb_loop_app.
  - rewrite Z.div_small by lia. cbn [Z.eqb]. by rewrite land_127, Z.mod_small by lia.
Qed.

Lemma lebLen_loop_leb f v n :
  0 <= v < 2 ^ (7 * Z.of_nat f) -> (0 < f)%nat -> lebLen_loop f v n = n - 1 + zlen (leb_loop f [] v).
Proof.
  revert v n. induction f as [|f IH]; intros v n Hv Hf; [lia|]. rewrite pow_groups in Hv.
  rewrite leb_loop_S by lia. cbn [lebLen_loop]. destruct (Z.leb_spec 128 v); [|change (zlen _) with 1; lia].
  destruct f as [|f]; [change (2 ^ (7 * Z.of_nat 0)) with 1 in Hv; lia|].
  rewrite Z.shiftr_div_pow2 by lia. change (2 ^ 7) with 128. rewrite IH, zlen_cons; [lia| |lia].
  split; [apply Z.div_pos; lia|apply Z.div_lt_upper_bound; lia].
Qed.

Lemma lebLenOf_spec v : lebLenOf v = zlen (leb32 v).
Proof.
  unfold lebLenOf, lebLen, leb32, appendLeb128U32. pose proof (wrapu_range 32 v ltac:(lia)) as Hr. unfold is_u in Hr.
  rewrite lebLen_loop_leb by (simpl; lia). lia.
Qed.

Lemma appendUUID_spec dst u : appendUUID dst u = dst ++ writeBE64 (MSB u) ++ writeBE64 (LSB u).
Proof. unfold appendUUID. by rewrite !writeBE64_spec, <- app_assoc. Qed.
Lemma appendStr_spec dst s : appendStr dst s = dst ++ appendLebString [] s.
Proof. unfold appendStr, appendLebString. by rewrite appendLeb_spec, <- app_assoc. Qed.

(** ** The layout *)

Definition uuid_bytes (u : UUID) : bytes := writeBE64 (MSB u) ++ writeBE64 (LSB u).
Definition prefixed (b : bytes) : bytes := leb32 (zlen b) ++ b.

Definition op_branch (op : Op) : Z :=
  match op with
  | WriteOp _ _ _ => 0 | DeleteOp _ => 1 | FileWriteOp _ _ => 2 | SchemaMigrationOp _ _ => 3
  | AttachmentPutOp _ _ _ _ _ _ _ => 4 | AttachmentDeleteOp _ _ => 5
  end.

Definition op_body (op : Op) : bytes :=
  match op with
  | WriteOp id text _ | SchemaMigrationOp id text =>
    [x01; tagFixed] ++ uuid_bytes id ++ [x02; tagString] ++ prefixed text
  | DeleteOp id => [x01; tagFixed] ++ uuid_bytes id
  | FileWriteOp path h => [x01; tagString] ++ prefixed path ++ [x02; tagFixed] ++ HashBytes h
  | AttachmentPutOp id att name scheme h size mime =>
    [x01; tagFixed] ++ uuid_bytes id ++ [x02; tagFixed] ++ uuid_bytes att ++ [x03; tagString] ++ prefixed name ++
    [x04; Tag PhysicalInt32] ++ putLe32s scheme ++ [x05; tagFixed] ++ HashBytes h ++
    [x06; tagInt64] ++ putLe64s size ++ [x07; tagString] ++ prefixed mime
  | AttachmentDeleteOp id att => [x01; tagFixed] ++ uuid_bytes id ++ [x02; tagFixed] ++ uuid_bytes att
  end.

Definition op_bytes (op : Op) : bytes := z2b (op_branch op) :: prefixed (op_body op).

Definition nullable_bytes (id : byte) (h : option Hash) : bytes :=
  match h with Some h => [id; tagUnion; x01] ++ HashBytes h | None => [] end.

Definition payload_body (c : Commit) : bytes :=
  [x01; tagArray] ++ leb32 (zlen (ParentHashes c)) ++ concat (map HashBytes (ParentHashes c)) ++
  [x02; tagString] ++ prefixed (NamespaceID c) ++
  [x03; tagFixed] ++ uuid_bytes (TransactionID c) ++
  [x04; tagInt64] ++ putLe64s (EpochMicros (CommitTimestamp c)) ++
  [x05; tagFixed] ++ uuid_bytes (AuthorNodeID c) ++
  [x06; tagArray] ++ leb32 (zlen (Operations c)) ++ concat (map op_bytes (Operations c)) ++
  [x07; tagFixed] ++ HashBytes (DocumentTreeHash c) ++
  nullable_bytes x08 (SchemaHash c) ++
  [x09; tagString] ++ prefixed (Message c) ++
  nullable_bytes x0a (AttachmentTreeHash c).

(** Hashes are arrays of 32 bytes. *)
Definition op_hashes (op : Op) : list Hash :=
  match op with FileWriteOp _ h | AttachmentPutOp _ _ _ _ h _ _ => [h] | _ => [] end.
Definition commit_hashes (c : Commit) : list Hash :=
  ParentHashes c ++ flat_map op_hashes (Operations c) ++
  DocumentTreeHash c :: option_list (SchemaHash c) ++ option_list (AttachmentTreeHash c).
Definition sized (c : Commit) : Prop := Forall hash_wf (commit_hashes c).

(** ** The generic encoder writes the layout *)

Lemma resolve_Hash32 : Resolve (fq (str "Hash32")) WireRegistry = Some (NamedFixed Hash32).
Proof. by vm_compute. Qed.
Lemma resolve_CommitPayload : Resolve (fq (str "CommitPayload")) WireRegistry = Some (NamedRecord CommitPayload).
Proof. by vm_compute. Qed.
Lemma resolve_DocumentBody : Resolve (fq (str "DocumentBody")) WireRegistry = Some (NamedRecord DocumentBody).
Proof. by vm_compute. Qed.

Definition op_schema (op : Op) : RecordSchema :=
  match op with
  | WriteOp _ _ _ => OpWrite | DeleteOp _ => OpDelete | FileWriteOp _ _ => OpFileWrite
  | SchemaMigrationOp _ _ => OpSchemaMigration | AttachmentPutOp _ _ _ _ _ _ _ => OpAttachmentPut
  | AttachmentDeleteOp _ _ => OpAttachmentDelete
  end.
Definition op_fields (op : Op) : list (Z * Value) :=
  match toValue op with UnionValue _ (RecordValue fs) => fs | _ => [] end.
Definition op_ref (op : Op) : SType := Ref (fq (RecordName (op_schema op))).
Definition op_types : list SType := match kdbOpWire with Union bs => bs | _ => [] end.

Lemma resolve_op op : Resolve (fq (RecordName (op_schema op))) WireRegistry = Some (NamedRecord (op_schema op)).
Proof. by destruct op; vm_compute. Qed.
Lemma op_ref_branch op : op_types !! Z.to_nat (op_branch op) = Some (op_ref op).
Proof. by destruct op. Qed.
Lemma op_schema_sorted op : isort field_ltb (SchemaFields (op_schema op)) = SchemaFields (op_schema op).
Proof. by destruct op. Qed.
Lemma toValue_fields op : toValue op = UnionValue (op_branch op) (RecordValue (op_fields op)).
Proof. by destruct op. Qed.

Lemma enc_hash h : hash_wf h -> encodeValue WireRegistry (hashVal h) hashRef = Ok (HashBytes h).
Proof.
  intros Hh. unfold hashVal, hashRef. cbn [encodeValue]. rewrite resolve_Hash32.
  unfold zlen. rewrite Hh. done.
Qed.

Lemma enc_record fields name s :
  Resolve name WireRegistry = Some (NamedRecord s) -> isort field_ltb (SchemaFields s) = SchemaFields s ->
  encodeValue WireRegistry (RecordValue fields) (Ref name) =
  body ← encode_fields WireRegistry (SchemaFields s) (map (fun '(id, x) => (id, (x, encodeValue WireRegistry x))) fields);
  Ok (prefixed body).
Proof. intros Hr Hs. cbn [encodeValue]. rewrite Hr. unfold encodeRecord. by rewrite Hs. Qed.

Lemma enc_uuid u : encodeValue WireRegistry (uuidVal u) uuidPrim = Ok (uuid_bytes u).
Proof. done. Qed.
Lemma enc_string t : encodeValue WireRegistry (StringValue t) stringPrim = Ok (prefixed t).
Proof. done. Qed.

(** One field that is written. *)
Lemma encode_fields_cons id name t fs rec v b rest :
  field_lookup id rec = Some (v, encodeValue WireRegistry v) -> 0 <= id < 128 ->
  encodeValue WireRegistry v t = Ok b -> encode_fields WireRegistry fs rec = Ok rest ->
  encode_fields WireRegistry (field id name t :: fs) rec = Ok ([z2b id; Tag (physicalTag t WireRegistry)] ++ b ++ rest).
Proof.
  intros Hl Hid Hb Hr. cbn [encode_fields field ID Default FieldType]. rewrite Hl. cbn [omitField]. rewrite Hb, Hr.
  cbn [mbind go_bind]. unfold appendLeb128U32. rewrite leb_loop_S by (apply wrapu_range; lia).
  rewrite wrapu_id by (unfold is_u; lia). destruct (Z.leb_spec 128 id); [lia|done].
Qed.

Lemma tag_hashRef : Tag (physicalTag hashRef WireRegistry) = tagFixed.
Proof. by vm_compute. Qed.

Ltac field_step :=
  eapply encode_fields_cons;
  [reflexivity|lia|first [apply enc_uuid|apply enc_string|by apply enc_hash|reflexivity]|].
Ltac encode_steps := eapply eq_trans; [repeat field_step; reflexivity|]; rewrite ?tag_hashRef.

Definition encoders (fields : list (Z * Value)) : list (Z * (Value * (SType -> res bytes))) :=
  map (fun '(id, x) => (id, (x, encodeValue WireRegistry x))) fields.

Lemma enc_op_body op : Forall hash_wf (op_hashes op) ->
  encode_fields WireRegistry (SchemaFields (op_schema op)) (encoders (op_fields op)) = Ok (op_body op).
Proof.
  intros Hh. destruct op; cbn [op_hashes] in Hh; try apply Forall_cons in Hh as [Hh _].
  all: encode_steps; unfold op_body; by rewrite ?app_nil_r.
Qed.

Lemma enc_op op : Forall hash_wf (op_hashes op) -> encodeValue WireRegistry (toValue op) kdbOpWire = Ok (op_bytes op).
Proof.
  intros Hh. rewrite toValue_fields. apply (enc_union _ op_types _ _ (op_ref op)); [by destruct op|apply op_ref_branch|].
  unfold op_ref. rewrite (enc_record _ _ _ (resolve_op op) (op_schema_sorted op)). fold (encoders (op_fields op)).
  by rewrite enc_op_body.
Qed.

Lemma enc_array {A} (f : A -> Value) (g : A -> bytes) t l :
  Forall (fun x => encodeValue WireRegistry (f x) t = Ok (g x)) l ->
  encodeValue WireRegistry (ArrayValue (map f l)) (Array t) = Ok (leb32 (zlen l) ++ concat (map g l)).
Proof.
  intros H. cbn [encodeValue]. unfold zlen. rewrite length_map. fold (zlen l).
  match goal with |- (b ← ?F _; _) = _ => assert (F (map f l) = Ok (concat (map g l))) as ->; [|done] end.
  induction H as [|x l Hx _ IH]; [done|]. cbn [map concat]. by rewrite Hx, IH.
Qed.

Definition optVal (h : option Hash) : Value := match h with Some h => hashVal h | None => NullValue end.

(** A nullable hash in a record: not there or null when it is nil. *)
Definition nullable_at (id : Z) (fields : list (Z * Value)) (h : option Hash) : Prop :=
  field_lookup id (encoders fields) = (fun h => (hashVal h, encodeValue WireRegistry (hashVal h))) <$> h \/
  field_lookup id (encoders fields) = Some (optVal h, encodeValue WireRegistry (optVal h)).

(** It is left out when it is nil. *)
Lemma encode_fields_nullable id name fs fields h rest :
  nullable_at id fields h -> 0 <= id < 128 ->
  Forall hash_wf (option_list h) -> encode_fields WireRegistry fs (encoders fields) = Ok rest ->
  encode_fields WireRegistry (mkField id name (Nullable hashRef) (Some NullValue) :: fs) (encoders fields) =
  Ok (nullable_bytes (z2b id) h ++ rest).
Proof.
  intros Hl Hid Hh Hr. cbn [encode_fields ID Default FieldType]. destruct h as [h|].
  - assert (Hl' : field_lookup id (encoders fields) = Some (hashVal h, encodeValue WireRegistry (hashVal h))) by (by destruct Hl).
    rewrite Hl'. apply Forall_cons in Hh as [Hh _]. cbn [omitField valuesEqual hashVal].
    rewrite enc_nullable by done. fold (hashVal h). rewrite enc_hash, Hr by done. cbn [mbind go_bind].
    unfold appendLeb128U32. rewrite leb_loop_S by (apply wrapu_range; lia).
    rewrite wrapu_id by (unfold is_u; lia). destruct (Z.leb_spec 128 id); [lia|done].
  - by destruct Hl as [-> | ->].
Qed.

Lemma sized_inv c : sized c ->
  Forall hash_wf (ParentHashes c) /\ Forall (fun op => Forall hash_wf (op_hashes op)) (Operations c) /\
  hash_wf (DocumentTreeHash c) /\ Forall hash_wf (option_list (SchemaHash c)) /\
  Forall hash_wf (option_list (AttachmentTreeHash c)).
Proof.
  unfold sized, commit_hashes. rewrite !Forall_app, Forall_cons, Forall_app. intros (H1 & H2 & H3 & H4 & H5). split_and!; try done.
  clear -H2. induction (Operations c) as [|op ops IH]; [done|]. cbn [flat_map] in H2. apply Forall_app in H2 as [? ?].
  constructor; auto.
Qed.

Definition payload_fields (c : Commit) : list (Z * Value) :=
  match commitPayloadRecord c with RecordValue fs => fs | _ => [] end.

(** The record as the decoder returns it: with every field. *)
Definition record_fields (c : Commit) (micros : Z) : list (Z * Value) :=
  [(1, ArrayValue (map hashVal (ParentHashes c))); (2, StringValue (NamespaceID c)); (3, uuidVal (TransactionID c));
   (4, TimestampValue micros None); (5, uuidVal (AuthorNodeID c)); (6, ArrayValue (map toValue (Operations c)));
   (7, hashVal (DocumentTreeHash c)); (8, optVal (SchemaHash c)); (9, StringValue (Message c));
   (10, optVal (AttachmentTreeHash c))].

Definition holds (fields : list (Z * Value)) (id : Z) (v : Value) : Prop :=
  field_lookup id (encoders fields) = Some (v, encodeValue WireRegistry v).

Lemma enc_payload_body c fields : sized c ->
  Forall (fun '(id, v) => id = 8 \/ id = 10 \/ holds fields id v) (record_fields c (EpochMicros (CommitTimestamp c))) ->
  nullable_at 8 fields (SchemaHash c) -> nullable_at 10 fields (AttachmentTreeHash c) ->
  encode_fields WireRegistry (SchemaFields CommitPayload) (encoders fields) = Ok (payload_body c).
Proof.
  intros (Hp & Ho & Ht & Hs & Ha)%sized_inv Hl L8 L10. rewrite Forall_forall in Hl.
  assert (L : forall id v, (id, v) ∈ record_fields c (EpochMicros (CommitTimestamp c)) -> id <> 8 -> id <> 10 -> holds fields id v).
  { intros id v Hin. specialize (Hl _ Hin). simpl in Hl. tauto. }
  assert (Hpe : encodeValue WireRegistry (ArrayValue (map hashVal (ParentHashes c))) (Array hashRef) =
    Ok (leb32 (zlen (ParentHashes c)) ++ concat (map HashBytes (ParentHashes c)))).
  { apply enc_array. eapply Forall_impl; [exact Hp|]. apply enc_hash. }
  assert (Hoe : encodeValue WireRegistry (ArrayValue (map toValue (Operations c))) (Array kdbOpWire) =
    Ok (leb32 (zlen (Operations c)) ++ concat (map op_bytes (Operations c)))).
  { apply enc_array. eapply Forall_impl; [exact Ho|]. apply enc_op. }
  eapply eq_trans.
  - unfold CommitPayload, record. cbn [SchemaFields].
    eapply encode_fields_cons; [apply L; [by left|done..]|lia|exact Hpe|].
    eapply encode_fields_cons; [apply L; [by do 1 right; left|done..]|lia|apply enc_string|].
    eapply encode_fields_cons; [apply L; [by do 2 right; left|done..]|lia|apply enc_uuid|].
    eapply encode_fields_cons; [apply L; [by do 3 right; left|done..]|lia|reflexivity|].
    eapply encode_fields_cons; [apply L; [by do 4 right; left|done..]|lia|apply enc_uuid|].
    eapply encode_fields_cons; [apply L; [by do 5 right; left|done..]|lia|exact Hoe|].
    eapply encode_fields_cons; [apply L; [by do 6 right; left|done..]|lia|by apply enc_hash|].
    eapply encode_fields_nullable; [exact L8|lia|done|].
    eapply encode_fields_cons; [apply L; [by do 8 right; left|done..]|lia|apply enc_string|].
    eapply encode_fields_nullable; [exact L10|lia|done|]. reflexivity.
  - rewrite tag_hashRef. unfold payload_body. by rewrite app_nil_r, <- !(app_assoc (leb32 _)).
Qed.

Lemma enc_payload_fields c : sized c ->
  encode_fields WireRegistry (SchemaFields CommitPayload) (encoders (payload_fields c)) = Ok (payload_body c).
Proof.
  intros Hs. apply enc_payload_body; [done| |left|left]; destruct c as [? ? ? ? ? ? ? ? [?|] ? [?|]]; try done.
  all: unfold record_fields, holds; repeat (apply Forall_cons; split; [first [by left|by right; left|by right; right]|]); constructor.
Qed.

Lemma enc_record_fields c : sized c ->
  encode_fields WireRegistry (SchemaFields CommitPayload) (encoders (record_fields c (EpochMicros (CommitTimestamp c)))) =
  Ok (payload_body c).
Proof.
  intros Hs. apply enc_payload_body; [done| |by right|by right].
  unfold record_fields, holds. repeat (apply Forall_cons; split; [by right; right|]). constructor.
Qed.

Lemma generic_encode_layout c : sized c -> generic_encode c = Ok (prefixed (payload_body c)).
Proof.
  intros Hs. unfold generic_encode, ToCommitPayloadValue, wireEncode, CommitPayloadType.
  change (commitPayloadRecord c) with (RecordValue (payload_fields c)).
  rewrite (enc_record _ _ _ resolve_CommitPayload) by reflexivity. fold (encoders (payload_fields c)).
  by rewrite enc_payload_fields.
Qed.

(** ** The direct encoder writes the layout *)

Lemma zlen_uuid_bytes u : zlen (uuid_bytes u) = 16.
Proof. unfold uuid_bytes. rewrite zlen_app, !zlen_writeBE64. done. Qed.
Lemma zlen_hash h : hash_wf h -> zlen (HashBytes h) = 32.
Proof. unfold hash_wf, zlen. lia. Qed.
Lemma zlen_pair {A} (x y : A) : zlen [x; y] = 2.
Proof. done. Qed.

Lemma opBodyLen_spec op n : Forall hash_wf (op_hashes op) -> opBodyLen op = Some n -> n = zlen (op_body op).
Proof.
  intros Hh H. destruct op; cbn [opBodyLen op_body op_hashes] in *; try discriminate; injection H as <-;
    unfold prefixed; rewrite ?lebLenOf_spec, !zlen_app, ?zlen_uuid_bytes, ?zlen_pair; try lia.
  apply Forall_cons in Hh as [Hh _]. rewrite (zlen_hash _ Hh). lia.
Qed.

Lemma opBodyLen_direct op : opBodyLen op = None <-> 3 < op_branch op.
Proof. destruct op; simpl; split; intros; first [done|lia]. Qed.

Lemma appendOp_spec dst op n :
  Forall hash_wf (op_hashes op) -> opBodyLen op = Some n -> appendOp dst op = dst ++ op_bytes op.
Proof.
  intros Hh H. assert (Hn := opBodyLen_spec op n Hh H). unfold appendOp. rewrite H. cbn [default from_option].
  unfold op_bytes, prefixed. rewrite <- Hn. unfold id.
  destruct op; try discriminate; cbn [op_branch op_body];
    rewrite ?appendStr_spec, ?appendUUID_spec, ?appendLeb_spec, <- ?app_assoc; done.
Qed.

Lemma appendOps_spec ops dst n m :
  Forall (fun op => Forall hash_wf (op_hashes op)) ops -> opsLen ops n = Some m ->
  foldl appendOp dst ops = dst ++ concat (map op_bytes ops) /\ m = n + zlen (concat (map op_bytes ops)).
Proof.
  intros Hh. revert dst n. induction Hh as [|op ops Hop Hops IH]; intros dst n H; cbn [opsLen foldl map concat] in *.
  - injection H as <-. rewrite app_nil_r. split; [done|]. change (zlen []) with 0. lia.
  - destruct (opBodyLen op) as [b|] eqn:E; [|discriminate]. cbn [mbind option_bind] in H. rewrite (appendOp_spec _ _ b) by done.
    assert (zlen (op_bytes op) = 1 + lebLenOf b + b).
    { unfold op_bytes, prefixed. rewrite zlen_cons, zlen_app, <- (opBodyLen_spec op b Hop E), lebLenOf_spec. lia. }
    destruct (IH (dst ++ op_bytes op) _ H) as [-> ->]. rewrite <- app_assoc, zlen_app. split; [done|lia].
Qed.

Lemma foldl_hashes hs dst : foldl (fun dst h => dst ++ HashBytes h) dst hs = dst ++ concat (map HashBytes hs).
Proof.
  revert dst. induction hs as [|h hs IH]; intros dst; cbn [foldl map concat]; [by rewrite app_nil_r|].
  by rewrite IH, <- app_assoc.
Qed.
Lemma zlen_hashes hs : Forall hash_wf hs -> zlen (concat (map HashBytes hs)) = 32 * zlen hs.
Proof.
  induction 1 as [|h hs Hh _ IH]; [done|]. cbn [map concat]. rewrite zlen_app, zlen_cons, IH, zlen_hash by done. lia.
Qed.

Lemma commitBodyLen_spec c n : sized c -> commitBodyLen c = Some n ->
  n = zlen (payload_body c) /\ AttachmentTreeHash c = None /\ exists k m, opsLen (Operations c) k = Some m.
Proof.
  intros (Hp & Ho & Ht & Hs & Ha)%sized_inv. unfold commitBodyLen. destruct (AttachmentTreeHash c) eqn:Ea; [discriminate|].
  match goal with |- context [opsLen _ ?k] => set (k0 := k) end.
  destruct (opsLen (Operations c) k0) as [m|] eqn:E; [|discriminate]. cbn [mbind option_bind]. intros [= <-].
  destruct (appendOps_spec (Operations c) [] k0 m Ho E) as [_ ->]. split_and!; [|done|by eauto].
  unfold payload_body. rewrite Ea. unfold prefixed. rewrite !zlen_app, !zlen_uuid_bytes, zlen_hashes, zlen_hash, !zlen_pair by done.
  unfold putLe64s. rewrite zlen_put64. change (zlen (nullable_bytes x0a None)) with 0.
  assert (zlen (nullable_bytes x08 (SchemaHash c)) = match SchemaHash c with Some _ => 35 | None => 0 end) as ->.
  { destruct (SchemaHash c) as [h|]; [|done]. apply Forall_cons in Hs as [Hh _]. cbn [nullable_bytes].
    rewrite zlen_app, zlen_hash by done. done. }
  unfold k0. rewrite <- !lebLenOf_spec. destruct (SchemaHash c); lia.
Qed.

Lemma appendCommitPayload_spec dst c n : sized c -> commitBodyLen c = Some n ->
  appendCommitPayload dst c n = dst ++ prefixed (payload_body c).
Proof.
  intros Hs Hn. destruct (commitBodyLen_spec c n Hs Hn) as (-> & Ha & k & m & E).
  apply sized_inv in Hs as (_ & Ho & _). unfold appendCommitPayload. rewrite foldl_hashes.
  match goal with |- context [foldl appendOp ?d _] => rewrite (proj1 (appendOps_spec (Operations c) d k m Ho E)) end.
  rewrite ?appendStr_spec, ?appendUUID_spec, ?appendLeb_spec.
  assert (le_bytes 8 (EpochMicros (CommitTimestamp c)) = putLe64s (EpochMicros (CommitTimestamp c))) as ->.
  { unfold putLe64s. rewrite putLe64_spec. symmetry. apply le_bytes_mod. }
  unfold prefixed. generalize (leb32 (zlen (payload_body c))). intros lb.
  unfold payload_body. rewrite Ha. cbn [nullable_bytes]. rewrite app_nil_r.
  destruct (SchemaHash c) as [h|]; cbn [nullable_bytes]; rewrite <- ?app_assoc; done.
Qed.

Lemma sha_hash b : lift_hash (HashFromBytes (SHA256Digest b)) = Ok (mkHash (Sha256.Sum256 b)).
Proof. unfold HashFromBytes, SHA256Digest, zlen. by rewrite Sha256.Sum256_length. Qed.

Lemma encoders_agree c :
  sized c ->
  exists b, generic_encode c = Ok b /\ ToPayloadBytes c = Ok b /\
    (forall dst, AppendPayloadBytes dst c = Ok (dst ++ b)) /\
    (PayloadSize c = -1 \/ PayloadSize c = zlen b) /\
    ComputeCommitHash c = Ok (mkHash (SHA256Digest b)).
Proof.
  intros Hs. exists (prefixed (payload_body c)). pose proof (generic_encode_layout c Hs) as G.
  unfold PayloadSize, AppendPayloadBytes, ComputeCommitHash, hashCommitDirect, ToPayloadBytes, encodeCommitDirect.
  destruct (commitBodyLen c) as [n|] eqn:E; cbn [mbind option_bind].
  - assert (A := fun dst => appendCommitPayload_spec dst c n Hs E). rewrite !A. split_and!; [done|done|intros; by rewrite A| |done].
    right. destruct (commitBodyLen_spec c n Hs E) as (-> & _). unfold prefixed. by rewrite zlen_app, lebLenOf_spec.
  - rewrite G. split_and!; [done..|by left|]. cbn [mbind go_bind]. apply sha_hash.
Qed.

(** The direct encoder, its size and hash computations and the generic
    encoder agree on every commit: all give the generic encoder's bytes, and
    encoding never fails. *)
Theorem direct_encoder_agrees c :
  sized c ->
  exists b, generic_encode c = Ok b /\ ToPayloadBytes c = Ok b /\
    (forall dst, AppendPayloadBytes dst c = Ok (dst ++ b)) /\
    (PayloadSize c = -1 \/ PayloadSize c = zlen b) /\
    ComputeCommitHash c = Ok (mkHash (SHA256Digest b)).
Proof. apply encoders_agree. Qed.

Definition sample_hash : Hash := mkHash (replicate 32 x07).
Definition sample_commit : Commit :=
  mkCommit sample_hash [sample_hash] (str "ns") (mkUUID 1 (-2)) (TimestampFromEpochMicros 1234567) (mkUUID 5 6)
    [WriteOp (mkUUID 1 2) (str "{}") false; DeleteOp (mkUUID 3 4);
     AttachmentPutOp (mkUUID 1 2) (mkUUID 8 9) (str "a.txt") 1 sample_hash 12 (str "text/plain")]
    sample_hash (Some sample_hash) (str "message") None.

Lemma sample_sized : sized sample_commit.
Proof. by repeat constructor. Qed.

Lemma direct_encoder_agrees_witness : exists b, generic_encode sample_commit = Ok b /\ ToPayloadBytes sample_commit = Ok b.
Proof. destruct (direct_encoder_agrees sample_commit sample_sized) as (b & G & T & _). exists b. exact (conj G T). Defined.

(** The hand-written content hasher computes the content hash. *)
Theorem contentHash_agrees id json : ComputeContentHash (mkDoc id json) = Ok (contentHash id json).
Proof.
  unfold ComputeContentHash, ToDocumentBodyValue, wireEncode, DocumentBodyType. cbn [DocumentID JSON].
  rewrite (enc_record _ _ _ resolve_DocumentBody) by reflexivity.
  fold (encoders [(1, uuidVal id); (2, StringValue json)]).
  assert (encode_fields WireRegistry (SchemaFields DocumentBody) (encoders [(1, uuidVal id); (2, StringValue json)]) =
    Ok (op_body (WriteOp id json false))) as -> by apply (enc_op_body (WriteOp id json false) ltac:(constructor)).
  cbn [mbind go_bind lift_codec]. rewrite sha_hash. do 3 f_equal. unfold contentHash. fold (lebLenOf (zlen json)).
  assert (1 + 1 + 16 + 1 + 1 + lebLenOf (zlen json) + zlen json = zlen (op_body (WriteOp id json false))) as ->
    by (apply (opBodyLen_spec (WriteOp id json false)); [constructor|cbn [opBodyLen]; f_equal; lia]).
  fold (appendLeb [] (zlen (op_body (WriteOp id json false)))). rewrite appendLeb_spec.
  match goal with |- context [AppendUvarint ?b (wrapu 32 (zlen json))] => fold (appendLeb b (zlen json)); rewrite (appendLeb_spec b) end.
  unfold prefixed. generalize (leb32 (zlen (op_body (WriteOp id json false)))). intros lb. cbn [op_body].
  unfold uuid_bytes, prefixed. rewrite !writeBE64_spec, <- ?app_assoc. done.
Qed.

End CommitCorrect.
