(* ===== verification/CommitDecode.v ===== *)
(** Decoding commits: on every payload the direct decoder accepts, the generic
    decoder gives the same commit, so trying it first changes no result; what
    the encoder writes decodes to the commit; and the scanner reports the
    writes of the commit. *)

From S2P Require Import Prelude Primitives Schema KdbCodec CodecCorrect Document Sha256 Commit CommitDirect CommitCorrect.
Import Schema KdbCodec CodecCorrect Document Commit CommitDirect CommitCorrect.

Module CommitDecode.

(** ** The scanner reads what the cursor reads *)

Lemma lor_u64 a b : is_u 64 a -> is_u 64 b -> is_u 64 (Z.lor a b).
Proof.
  unfold is_u. intros Ha Hb. split; [apply Z.lor_nonneg; lia|].
  destruct (Z.eq_dec (Z.lor a b) 0) as [->|Hn]; [lia|].
  apply Z.log2_lt_pow2; [assert (0 <= Z.lor a b) by (apply Z.lor_nonneg; lia); lia|].
  rewrite Z.log2_lor by lia. apply Z.max_lub_lt.
  - destruct (Z.eq_dec a 0) as [->|]; [simpl; lia|]. apply Z.log2_lt_pow2; lia.
  - destruct (Z.eq_dec b 0) as [->|]; [simpl; lia|]. apply Z.log2_lt_pow2; lia.
Qed.

Lemma high_bit x : 0 <= x < 256 -> Z.land x 127 = x mod 128 /\ (Z.land x 128 =? 0) = (x <? 128).
Proof.
  intros Hx. split; [apply land_127; lia|]. destruct (Z.ltb_spec x 128) as [H|H].
  - pose proof (proj2 (chunk_bits x ltac:(lia))) as C. rewrite Z.mod_small in C by lia. by rewrite C.
  - pose proof (proj2 (land_cont (x - 128) ltac:(lia))) as C. replace (x - 128 + 128) with x in C by lia. by rewrite C.
Qed.

Lemma uvarint_loop_leb buf i x p v n :
  uvarint_loop buf i x (7 * i) = (v, n) -> 0 < n -> 0 <= i <= 10 -> is_u 64 x ->
  readLeb_loop (Z.to_nat (11 - i)) (p ++ buf) (zlen p) x (7 * i) = Ok (v, zlen p + (n - i)) /\
  i < n <= i + zlen buf /\ is_u 64 v.
Proof.
  revert i x p. induction buf as [|b buf IH]; intros i x p H Hn Hi Hx; cbn [uvarint_loop] in H; [simplify_eq; lia|].
  destruct (Z.eqb_spec i 10); [simplify_eq; lia|]. pose proof (b2z_range b) as Hb.
  destruct (high_bit (b2z b) Hb) as [L1 L2].
  replace (Z.to_nat (11 - i)) with (S (Z.to_nat (11 - (i + 1)))) by lia. rewrite readLeb_step. cbv zeta.
  rewrite L2, zlen_cons. pose proof (zlen_nonneg buf).
  assert (Hw : forall y, is_u 64 (Z.lor x (wrapu 64 y))) by (intros y; apply lor_u64; [done|apply wrapu_range; lia]).
  destruct (Z.ltb_spec (b2z b) 128) as [Hs|Hs].
  - destruct ((i =? 9) && (1 <? b2z b)); simplify_eq; [lia|]. rewrite L1, Z.mod_small by lia.
    split_and!; [do 2 f_equal; lia|lia|lia|apply Hw].
  - destruct (Z.ltb_spec 63 (7 * i + 7)).
    { assert (i = 9) as -> by lia. change (9 + 1) with 10 in H. destruct buf; cbn in H; simplify_eq; lia. }
    replace (7 * i + 7) with (7 * (i + 1)) in * by lia.
    destruct (IH (i + 1) _ (p ++ [b]) H) as (E & ? & ?); [lia|lia|apply Hw|].
    rewrite <- app_assoc, zlen_app in E. change (zlen [b]) with 1 in E. cbn [app] in E. rewrite E.
    split_and!; [do 2 f_equal; lia|lia|lia|done].
Qed.

Definition wf (r : commitScanner) : Prop := 0 <= spos r <= zlen (sraw r) /\ slice_ok (sraw r).
Definition cur (r : commitScanner) : cursor := mkCursor (sraw r) (spos r) (zlen (sraw r)).
(** [r'] is [r] further on. *)
Definition moved (n : Z) (r r' : commitScanner) : Prop := r' = mkScan (sraw r) (spos r + n) /\ 0 <= n /\ wf r'.

Lemma split_at (b : bytes) i : 0 <= i <= zlen b -> exists p q, b = p ++ q /\ zlen p = i.
Proof.
  intros Hi. exists (take (Z.to_nat i) b), (drop (Z.to_nat i) b). split; [by rewrite take_drop|].
  unfold zlen in *. rewrite length_take. lia.
Qed.

Lemma uvarint_spec what r v r' : wf r -> uvarint what r = Ok (v, r') ->
  exists n, moved n r r' /\ 1 <= n /\ is_u 64 v /\ readLeb128U64 (sraw r) (spos r) = Ok (v, spos r').
Proof.
  intros [Hp Hs] H. unfold uvarint in H. destruct (split_at (sraw r) (spos r) Hp) as (p & q & E & Hz).
  rewrite E, <- Hz in H at 1. rewrite E, zlen_app in H. replace (zlen p) with (zlen p + 0) in H at 1 by lia.
  rewrite zslice_app_r in H by lia.
  assert (zslice (E:=commit_error) q 0 (zlen q) = Ok q) as Eq by (rewrite <- (app_nil_r q) at 1; apply zslice_prefix).
  rewrite Eq in H. cbn [mbind go_bind] in H. destruct (Uvarint q) as [v' n] eqn:U. destruct (Z.leb_spec n 0); [discriminate|].
  simplify_eq. unfold Uvarint in U. change 0 with (7 * 0) in U at 3.
  destruct (uvarint_loop_leb q 0 0 p v n U) as (R & ? & ?); [lia|lia|unfold is_u; lia|].
  exists n. unfold moved, wf. cbn [sraw spos]. rewrite E, zlen_app in *. split_and!; try done; try lia.
  unfold readLeb128U64. rewrite <- Hz. replace (n - 0) with n in R by lia. exact R.
Qed.

Lemma zindex_lookup {E A} (l : list A) i x : zindex (E:=E) l i = Ok x <-> 0 <= i /\ l !! Z.to_nat i = Some x.
Proof.
  unfold zindex. destruct (Z.ltb_spec i 0); [split; [discriminate|lia]|].
  destruct (l !! Z.to_nat i); split; intros; simplify_eq; naive_solver.
Qed.

Lemma sbyte_spec what r b r' : wf r -> sbyte what r = Ok (b, r') ->
  moved 1 r r' /\ u8 (cur r) = Ok (b, cur r') /\ sraw r !! Z.to_nat (spos r) = Some b.
Proof.
  intros [Hp Hs] H. unfold sbyte in H. destruct (Z.leb_spec (zlen (sraw r)) (spos r)); [discriminate|].
  apply go_bind_ok in H as (x & Hx & [= <- <-]). apply zindex_lookup in Hx as [_ Hx]. split_and!.
  - split_and!; [done|lia|split; cbn [sraw spos]; [lia|done]].
  - unfold u8, cur. cbn [limit pos raw]. destruct (Z.leb_spec (zlen (sraw r)) (spos r)); [lia|].
    by rewrite (proj2 (zindex_lookup (sraw r) (spos r) x)) by (split; [lia|done]).
  - done.
Qed.

Lemma skip_spec n what r r' : wf r -> skip n what r = Ok r' ->
  moved n r r' /\ rawN n (cur r) = Ok (sub (sraw r) (spos r) (Z.to_nat n), cur r').
Proof.
  intros [Hp Hs] H. unfold skip, left_over in H. destruct (Z.ltb_spec n 0); [discriminate|].
  destruct (Z.ltb_spec (zlen (sraw r) - spos r) n); [discriminate|]. simplify_eq/=. unfold slice_ok in Hs. split.
  - split_and!; [done|lia|split; cbn [sraw spos]; [lia|done]].
  - unfold rawN, cur. cbn [limit pos raw]. rewrite wraps_id by (unfold is_s; lia). destruct (Z.ltb_spec n 0); [lia|].
    destruct (Z.ltb_spec (zlen (sraw r)) (spos r + n)); [lia|]. cbn [orb]. rewrite zslice_sub by lia.
    by replace (spos r + n - spos r) with n by lia.
Qed.

Lemma moved_wf n r r' : moved n r r' -> wf r'.
Proof. by intros (_ & _ & H). Qed.
Lemma moved_raw n r r' : moved n r r' -> sraw r' = sraw r.
Proof. by intros (-> & _). Qed.
Lemma moved_pos n r r' : moved n r r' -> spos r' = spos r + n.
Proof. by intros (-> & _). Qed.
Lemma moved_trans n m r r1 r' : moved n r r1 -> moved m r1 r' -> moved (n + m) r r'.
Proof. intros (-> & H1 & _) (-> & H2 & H3). split_and!; [cbn; f_equal; lia|lia|done]. Qed.

Lemma leb_cur r v r' : sraw r' = sraw r -> readLeb128U64 (sraw r) (spos r) = Ok (v, spos r') -> leb (cur r) = Ok (v, cur r').
Proof. intros Hr H. unfold leb, cur. cbn [raw pos]. rewrite H. cbn [mbind go_bind]. unfold at_pos. cbn [raw limit]. by rewrite Hr. Qed.

Lemma lenPrefixed_spec what r b r' : wf r -> lenPrefixed what r = Ok (b, r') ->
  exists n, moved n r r' /\ 1 <= n /\ readLebBytes (cur r) = Ok (b, cur r') /\ zlen b < n.
Proof.
  intros Hw H. unfold lenPrefixed in H. apply go_bind_ok in H as ([n r1] & H1 & H).
  destruct (uvarint_spec _ _ _ _ Hw H1) as (k & M1 & Hk & Hn & R). pose proof (moved_wf _ _ _ M1) as Hw1.
  unfold left_over in H. destruct (Z.ltb_spec (zlen (sraw r1) - spos r1) n); [discriminate|].
  apply go_bind_ok in H as (b' & Hb & [= <- <-]). unfold is_u in Hn. pose proof Hw1 as [Hp1 Hs1]. unfold slice_ok in Hs1.
  rewrite zslice_sub in Hb by lia. injection Hb as <-. replace (spos r1 + n - spos r1) with n by lia.
  assert (skip n what r1 = Ok (mkScan (sraw r1) (spos r1 + n))) as Sk.
  { unfold skip, left_over. destruct (Z.ltb_spec n 0); [lia|]. by destruct (Z.ltb_spec (zlen (sraw r1) - spos r1) n); [lia|]. }
  destruct (skip_spec _ _ _ _ Hw1 Sk) as [M2 R2]. exists (k + n). split_and!.
  - by apply (moved_trans k n r r1).
  - lia.
  - unfold readLebBytes. rewrite (leb_cur r n r1) by (done || by apply (moved_raw k)). cbn [mbind go_bind].
    rewrite wraps_id by (unfold is_s; lia). done.
  - unfold sub, zlen. rewrite length_take, length_drop. lia.
Qed.

Lemma field_at_spec id tag r r' : wf r -> field_at id tag r = Ok r' ->
  exists n, moved (n + 1) r r' /\ 1 <= n /\ readLeb128U64 (sraw r) (spos r) = Ok (id, spos r + n) /\
    sraw r !! Z.to_nat (spos r + n) = Some tag /\ is_u 64 id.
Proof.
  intros Hw H. unfold field_at in H. apply go_bind_ok in H as ([fid r1] & H1 & H).
  destruct (uvarint_spec _ _ _ _ Hw H1) as (n & M1 & Hn & Hid & R).
  destruct (Z.eqb_spec fid id) as [->|]; cbn [negb] in H; [|discriminate].
  apply go_bind_ok in H as ([t r2] & H2 & H). case_bool_decide; cbn [negb] in H; [|discriminate]. simplify_eq.
  destruct (sbyte_spec _ _ _ _ (moved_wf _ _ _ M1) H2) as (M2 & _ & L). exists n.
  rewrite (moved_pos _ _ _ M1) in R, L. rewrite (moved_raw _ _ _ M1) in L.
  split_and!; [by apply (moved_trans n 1 r r1)|lia|done|done|apply Hid..].
Qed.

(** ** Fields of fixed size *)

Abbreviation dec := (decodeValue WireRegistry).

(** The bytes after the cursor, as [r.raw[r.pos-n:]] after a skip gives them. *)
Lemma slice_back {E} n r r' : wf r -> moved n r r' ->
  exists b, zslice (E:=E) (sraw r') (spos r' - n) (zlen (sraw r')) = Ok b /\
    sub (sraw r) (spos r) (Z.to_nat n) = take (Z.to_nat n) b /\ n <= zlen b.
Proof.
  intros [Hp Hs] (-> & Hn & [Hp' _]). cbn [sraw spos] in *. rewrite zslice_sub by lia.
  replace (spos r + n - n) with (spos r) by lia. eexists. split; [done|]. unfold sub, zlen in *.
  rewrite take_take, length_take, length_drop. split; [f_equal; lia|lia].
Qed.

Lemma readBE64_take {E} n b off : 0 <= off -> off + 8 <= Z.of_nat n -> Z.of_nat n <= zlen b ->
  readBE64 (E:=E) (take n b) off = readBE64 b off.
Proof.
  intros. unfold zlen in *. rewrite !readBE64_spec by (unfold zlen; rewrite ?length_take; lia).
  do 3 f_equal. unfold sub. rewrite skipn_firstn_comm, take_take. f_equal. lia.
Qed.
Lemma readLe64_take {E} n b : 8 <= Z.of_nat n -> Z.of_nat n <= zlen b -> readLe64 (E:=E) (take n b) 0 = readLe64 b 0.
Proof.
  intros. unfold zlen in *. rewrite !readLe64_spec by (unfold zlen; rewrite ?length_take; lia).
  do 2 f_equal. unfold sub. cbn [Z.to_nat]. rewrite !drop_0, take_take. f_equal. lia.
Qed.

Lemma uuid_read_spec r u r' : wf r -> uuid_read r = Ok (u, r') ->
  moved 16 r r' /\ forall fuel, dec fuel uuidPrim (cur r) = Ok (uuidVal u, cur r').
Proof.
  intros Hw H. unfold uuid_read in H. apply go_bind_ok in H as (r1 & H1 & H).
  destruct (skip_spec _ _ _ _ Hw H1) as [M R]. destruct (slice_back (E:=commit_error) 16 r r1 Hw M) as (b & Hb & Eb & Hl).
  rewrite Hb in H. cbn [mbind go_bind] in H. apply go_bind_ok in H as (u' & Hu & [= <- <-]). split; [done|]. intros fuel.
  unfold uuidPrim. rewrite dec_prim. unfold decodePrim. rewrite R, Eb. cbn [mbind go_bind]. rewrite !readBE64_take by lia.
  unfold uuidAt in Hu. rewrite !readBE64_spec in Hu by lia. rewrite !readBE64_spec by lia. cbn [mbind go_bind] in Hu |- *. by injection Hu as <-.
Qed.

Lemma hash_read_spec r h r' : wf r -> hash_read r = Ok (h, r') ->
  moved 32 r r' /\ hash_wf h /\ forall fuel, dec (S fuel) hashRef (cur r) = Ok (hashVal h, cur r').
Proof.
  intros Hw H. unfold hash_read in H. apply go_bind_ok in H as (r1 & H1 & H).
  destruct (skip_spec _ _ _ _ Hw H1) as [M R]. destruct (slice_back (E:=commit_error) 32 r r1 Hw M) as (b & Hb & Eb & Hl).
  rewrite Hb in H. cbn [mbind go_bind] in H. injection H as <- <-. unfold zlen in Hl.
  assert (hashCopy b = mkHash (take 32 b)) as ->.
  { unfold hashCopy. rewrite length_take, Nat.min_l by lia. cbn [Nat.sub replicate]. by rewrite app_nil_r. }
  assert (Hh : hash_wf (mkHash (take 32 b))) by (unfold hash_wf; cbn [HashBytes]; rewrite length_take; lia).
  split_and!; [done|done|]. intros fuel. unfold hashRef. rewrite dec_ref. unfold decodeNamed. rewrite resolve_Hash32.
  cbn [Size Hash32]. rewrite R, Eb. cbn [mbind go_bind]. unfold upliftFixed, zlen. unfold hash_wf in Hh. cbn [HashBytes] in Hh.
  change (Z.to_nat 32) with 32%nat. rewrite Hh. done.
Qed.

Lemma ts_read_spec what r r' b micros : wf r -> skip 8 what r = Ok r' ->
  zslice (E:=commit_error) (sraw r') (spos r' - 8) (zlen (sraw r')) = Ok b -> readLe64 (E:=commit_error) b 0 = Ok micros ->
  moved 8 r r' /\ forall fuel, dec fuel tsPrim (cur r) = Ok (TimestampValue (wraps 64 micros) None, cur r').
Proof.
  intros Hw H1 Hb Hm. destruct (skip_spec _ _ _ _ Hw H1) as [M R].
  destruct (slice_back (E:=commit_error) 8 r r' Hw M) as (b' & Hb' & Eb & Hl). rewrite Hb in Hb'. injection Hb' as <-.
  split; [done|]. intros fuel. unfold tsPrim. rewrite dec_prim. unfold decodePrim. rewrite R, Eb. cbn [mbind go_bind].
  rewrite readLe64_take by lia. rewrite readLe64_spec in Hm by lia. rewrite readLe64_spec by lia. cbn [mbind go_bind]. by injection Hm as <-.
Qed.

Lemma string_read_spec what r t r' : wf r -> lenPrefixed what r = Ok (t, r') ->
  exists n, moved n r r' /\ 1 <= n /\ forall fuel, dec fuel stringPrim (cur r) = Ok (StringValue t, cur r').
Proof.
  intros Hw H. destruct (lenPrefixed_spec _ _ _ _ Hw H) as (n & M & Hn & R & _). exists n. split_and!; [done|done|].
  intros fuel. unfold stringPrim, Prim. rewrite dec_prim. unfold decodePrim, decodePhysicalOnly, readLebString. by rewrite R.
Qed.

Lemma parents_read_spec n r hs r' : wf r -> 32 * Z.of_nat n <= left_over r -> parents_read n r = Ok (hs, r') ->
  moved (32 * Z.of_nat n) r r' /\ Forall hash_wf hs /\
  forall fuel, decode_many (dec (S fuel) hashRef) n (cur r) = Ok (map hashVal hs, cur r').
Proof.
  revert r hs r'. induction n as [|n IH]; intros r hs r' Hw Hl H; cbn [parents_read] in H.
  - injection H as <- <-. split_and!; [|constructor|done]. split_and!; [destruct r; cbn; f_equal; lia|lia|done].
  - apply go_bind_ok in H as (b & Hb & H). apply go_bind_ok in H as ([hs' r1] & H1 & [= <- <-]).
    unfold left_over in Hl. pose proof Hw as [Hp Hs]. set (r0 := mkScan (sraw r) (spos r + 32)) in *.
    assert (Hk : skip 32 [] r = Ok r0).
    { unfold skip, left_over. destruct (Z.ltb_spec 32 0); [lia|]. by destruct (Z.ltb_spec (zlen (sraw r) - spos r) 32); [lia|]. }
    destruct (hash_read_spec r (hashCopy b) r0) as (M & Hh & D); [done| |].
    { unfold hash_read. rewrite Hk. cbn [mbind go_bind]. unfold r0. cbn [sraw spos].
      replace (spos r + 32 - 32) with (spos r) by lia. by rewrite Hb. }
    destruct (IH r0 hs' r1 (moved_wf _ _ _ M)) as (M' & Hhs & D'); [unfold left_over, r0; cbn [sraw spos]; lia|done|].
    split_and!; [|by constructor|].
    + replace (32 * Z.of_nat (S n)) with (32 + 32 * Z.of_nat n) by lia. by apply (moved_trans _ _ r r0).
    + intros fuel. cbn [decode_many map]. rewrite D. cbn [mbind go_bind]. by rewrite D'.
Qed.

(** ** Records read field by field *)

(** The generic loop gets from [r] to [r'] with [acc'] collected.  The loop's
    bound is the number of bytes left, and a field takes at least two. *)
Definition reads (s : RecordSchema) (fuel : nat) (r : commitScanner) (acc : list (Z * Value))
    (r' : commitScanner) (acc' : list (Z * Value)) : Prop :=
  forall k, zlen (sraw r) <= Z.of_nat k + spos r ->
  exists k', zlen (sraw r) <= Z.of_nat k' + spos r' /\
    decode_fields WireRegistry (dec fuel) s k (sraw r) (spos r) acc =
    decode_fields WireRegistry (dec fuel) s k' (sraw r) (spos r') acc'.

Lemma reads_refl s fuel r acc : reads s fuel r acc r acc.
Proof. intros k Hk. by exists k. Qed.

Lemma reads_trans s fuel r acc n r1 acc1 r' acc' :
  moved n r r1 -> reads s fuel r acc r1 acc1 -> reads s fuel r1 acc1 r' acc' -> reads s fuel r acc r' acc'.
Proof.
  intros M R1 R2 k Hk. destruct (R1 k Hk) as (k1 & Hk1 & ->). rewrite <- (moved_raw _ _ _ M) in *.
  destruct (R2 k1 Hk1) as (k2 & Hk2 & ->). by exists k2.
Qed.

Lemma reads_field s fuel f r r1 n r' acc v :
  wf r -> field_at (ID f) (Tag (physicalTag (FieldType f) WireRegistry)) r = Ok r1 ->
  FieldByID s (ID f) = Some f -> 0 <= ID f < 2 ^ 31 -> moved n r1 r' ->
  dec fuel (FieldType f) (cur r1) = Ok (v, cur r') ->
  (exists m, moved m r r') /\ reads s fuel r acc r' (field_insert (ID f) v acc).
Proof.
  intros Hw Hf Hs Hid M D. destruct (field_at_spec _ _ _ _ Hw Hf) as (j & M1 & Hj & R & L & _). split.
  { eexists. exact (moved_trans _ _ _ _ _ M1 M). }
  pose proof (moved_pos _ _ _ M1) as P1. pose proof (moved_raw _ _ _ M1) as W1. pose proof (moved_pos _ _ _ M) as P.
  pose proof (moved_raw _ _ _ M) as W. destruct M as (_ & Hn & _). destruct M1 as (_ & _ & [Hp1 _]).
  intros k Hk. pose proof Hw as [Hp _]. rewrite W1 in Hp1. destruct k as [|k]; [lia|]. exists k. split; [lia|].
  cbn [decode_fields]. destruct (Z.leb_spec (zlen (sraw r)) (spos r)); [lia|]. rewrite R. cbn [mbind go_bind].
  rewrite wraps_id by (unfold is_s; lia). destruct (Z.leb_spec (zlen (sraw r)) (spos r + j)); [lia|].
  assert (Hi : 0 <= spos r + j) by lia. rewrite (proj2 (zindex_lookup (sraw r) (spos r + j) _) (conj Hi L)). cbn [mbind go_bind].
  rewrite PhysicalFromTag_Tag, Hs, bool_decide_true by done. cbn [negb].
  unfold cur in D. rewrite W, W1, P1, Z.add_assoc in D. rewrite D. cbn [mbind go_bind pos]. done.
Qed.

Lemma reads_end s fuel r acc : spos r = zlen (sraw r) -> forall k,
  decode_fields WireRegistry (dec fuel) s k (sraw r) (spos r) acc = Ok acc.
Proof. intros -> [|k]; cbn [decode_fields]; by rewrite Z.leb_refl. Qed.

(** ** Operations *)

Definition direct_op (op : Op) : Prop :=
  Forall hash_wf (op_hashes op) /\ op_branch op <= 3 /\ match op with WriteOp _ _ rep => rep = false | _ => True end.

(** From the start of the record to [r]. *)
Definition reached (s : RecordSchema) (fuel : nat) (r0 r : commitScanner) (acc : list (Z * Value)) : Prop :=
  wf r /\ (exists n, moved n r0 r) /\ reads s fuel r0 [] r acc.

Lemma reached_start s fuel r0 : wf r0 -> reached s fuel r0 r0 [].
Proof.
  intros Hw. split_and!; [done| |apply reads_refl]. exists 0. split_and!; [destruct r0; cbn; f_equal; lia|lia|done].
Qed.

Lemma reached_field s fuel r0 r acc f r1 n r' v :
  reached s fuel r0 r acc -> field_at (ID f) (Tag (physicalTag (FieldType f) WireRegistry)) r = Ok r1 ->
  FieldByID s (ID f) = Some f -> 0 <= ID f < 2 ^ 31 ->
  (wf r1 -> moved n r1 r' /\ dec fuel (FieldType f) (cur r1) = Ok (v, cur r')) ->
  reached s fuel r0 r' (field_insert (ID f) v acc).
Proof.
  intros (Hw & [m M] & R) Hf Hs Hid D. destruct (field_at_spec _ _ _ _ Hw Hf) as (j & M1 & _).
  destruct D as [M2 D]; [by apply (moved_wf _ _ _ M1)|].
  destruct (reads_field s fuel f r r1 n r' acc v Hw Hf Hs Hid M2 D) as [[j' M'] R'].
  split_and!; [by apply (moved_wf _ _ _ M2)|eexists; exact (moved_trans _ _ _ _ _ M M')|].
  exact (reads_trans _ _ _ _ _ _ _ _ _ M R R').
Qed.

Lemma reached_end s fuel body r acc :
  reached s fuel (mkScan body 0) r acc -> spos r = zlen (sraw r) ->
  decode_fields WireRegistry (dec fuel) s (length body) body 0 [] = Ok acc.
Proof.
  intros (_ & [n M] & R) Hend. destruct (R (length body)) as (k' & _ & E); [cbn; unfold zlen; lia|]. cbn [sraw spos] in E.
  rewrite E. pose proof (moved_raw _ _ _ M) as W. cbn [sraw] in W. rewrite <- W. by apply reads_end.
Qed.

(** The fields of the record schemas, by their kind. *)
Lemma reached_uuid s fuel r0 r acc id name r1 u r' :
  reached s fuel r0 r acc -> field_at id tagFixed r = Ok r1 -> uuid_read r1 = Ok (u, r') ->
  FieldByID s id = Some (field id name uuidPrim) -> 0 <= id < 2 ^ 31 ->
  reached s fuel r0 r' (field_insert id (uuidVal u) acc).
Proof.
  intros HR Hf Hu Hs Hid. apply (reached_field s fuel r0 r acc (field id name uuidPrim) r1 16); [done..|].
  intros Hw. destruct (uuid_read_spec _ _ _ Hw Hu) as [M D]. auto.
Qed.

Lemma reached_string s fuel r0 r acc id name r1 t r' :
  reached s fuel r0 r acc -> field_at id tagString r = Ok r1 -> lenPrefixed [] r1 = Ok (t, r') ->
  FieldByID s id = Some (field id name stringPrim) -> 0 <= id < 2 ^ 31 ->
  reached s fuel r0 r' (field_insert id (StringValue t) acc).
Proof.
  intros HR Hf Hu Hs Hid.
  assert (Hw1 : wf r1) by (destruct HR as (Hw & _); destruct (field_at_spec _ _ _ _ Hw Hf) as (j & M1 & _); by apply (moved_wf _ _ _ M1)).
  destruct (string_read_spec _ _ _ _ Hw1 Hu) as (n & M & _ & D).
  apply (reached_field s fuel r0 r acc (field id name stringPrim) r1 n); done.
Qed.

Lemma reached_hash s fuel r0 r acc id name r1 h r' :
  reached s (S fuel) r0 r acc -> field_at id tagFixed r = Ok r1 -> hash_read r1 = Ok (h, r') ->
  FieldByID s id = Some (field id name hashRef) -> 0 <= id < 2 ^ 31 ->
  hash_wf h /\ reached s (S fuel) r0 r' (field_insert id (hashVal h) acc).
Proof.
  intros HR Hf Hu Hs Hid.
  assert (Hw1 : wf r1) by (destruct HR as (Hw & _); destruct (field_at_spec _ _ _ _ Hw Hf) as (j & M1 & _); by apply (moved_wf _ _ _ M1)).
  destruct (hash_read_spec _ _ _ Hw1 Hu) as (M & Hh & D). split; [done|].
  apply (reached_field s (S fuel) r0 r acc (field id name hashRef) r1 32); [done|cbn [field FieldType]; by rewrite tag_hashRef|done..|]. auto.
Qed.

Lemma op_read_spec branch body op fuel : slice_ok body -> decodeOpDirect branch body = Ok op ->
  b2z branch = op_branch op /\ direct_op op /\
  decode_fields WireRegistry (dec (S fuel)) (op_schema op) (length body) body 0 [] = Ok (op_fields op).
Proof.
  intros Hs H. unfold decodeOpDirect in H. apply go_bind_ok in H as ([op' r'] & H & He).
  destruct (Z.eqb_spec (spos r') (zlen (sraw r'))) as [Hend|]; cbn [negb] in He; [|discriminate]. injection He as ->.
  assert (Hw : wf (mkScan body 0)) by (split; [cbn; pose proof (zlen_nonneg body); lia|done]).
  destruct (b2z branch) as [|[[?|?|]|[?|?|]|]|?]; try discriminate.
  - apply go_bind_ok in H as ([id r2] & H1 & H). apply go_bind_ok in H1 as (r1 & F1 & U1).
    apply go_bind_ok in H as ([patch r4] & H3 & [= <- <-]). apply go_bind_ok in H3 as (r3 & F2 & U2).
    split_and!; [done|by split_and!|]. apply (reached_end _ _ _ r4); [|done].
    apply (reached_string OpWrite _ _ r2 [(1, uuidVal id)] 2 (str "patch") r3 patch r4); [|done..].
    apply (reached_uuid OpWrite _ _ (mkScan body 0) [] 1 (str "docId") r1 id r2); [by apply reached_start|done..].
  - apply go_bind_ok in H as ([id r2] & H1 & H). apply go_bind_ok in H1 as (r1 & F1 & U1).
    apply go_bind_ok in H as ([patch r4] & H3 & [= <- <-]). apply go_bind_ok in H3 as (r3 & F2 & U2).
    split_and!; [done|by split_and!|]. apply (reached_end _ _ _ r4); [|done].
    apply (reached_string OpSchemaMigration _ _ r2 [(1, uuidVal id)] 2 (str "migrationPayload") r3 patch r4); [|done..].
    apply (reached_uuid OpSchemaMigration _ _ (mkScan body 0) [] 1 (str "migrationId") r1 id r2); [by apply reached_start|done..].
  - apply go_bind_ok in H as ([path r2] & H1 & H). apply go_bind_ok in H1 as (r1 & F1 & U1).
    apply go_bind_ok in H as (r3 & F2 & H). apply go_bind_ok in H as ([h r4] & U2 & [= <- <-]).
    destruct (reached_hash OpFileWrite fuel (mkScan body 0) r2 [(1, StringValue path)] 2 (str "blobHash") r3 h r4) as [Hh R];
      [|done..|split_and!; [done|split_and!; [by repeat constructor|done..]|by apply (reached_end _ _ _ r4)]].
    apply (reached_string OpFileWrite _ _ (mkScan body 0) [] 1 (str "path") r1 path r2); [by apply reached_start|done..].
  - apply go_bind_ok in H as ([id r2] & H1 & [= <- <-]). apply go_bind_ok in H1 as (r1 & F1 & U1).
    split_and!; [done|by split_and!|]. apply (reached_end _ _ _ r2); [|done].
    apply (reached_uuid OpDelete _ _ (mkScan body 0) [] 1 (str "docId") r1 id r2); [by apply reached_start|done..].
Qed.

(** ** Values back to operations and commits *)

Definition op_wf (op : Op) : Prop :=
  Forall hash_wf (op_hashes op) /\
  match op with
  | WriteOp _ _ rep => rep = false
  | AttachmentPutOp _ _ _ scheme _ size _ => 0 <= scheme < 256 /\ 0 <= size
  | _ => True
  end.

Lemma direct_op_wf op : direct_op op -> op_wf op.
Proof. intros (Hh & Hb & Hr). split; [done|]. destruct op; simpl in *; try done; lia. Qed.

Lemma hashFromVal_val h : hash_wf h -> hashFromVal (Some (hashVal h)) = Ok h.
Proof. intros Hh. unfold hashFromVal, hashVal, HashFromBytes, zlen. rewrite Hh. by destruct h. Qed.

Lemma OpFromValue_toValue op : op_wf op -> OpFromValue (toValue op) = Ok op.
Proof.
  assert (U : forall u, uuidFromVal (Some (uuidVal u)) = Ok u) by (by intros []).
  intros [Hh Hop]. destruct op; cbn [op_hashes] in Hh; try (apply Forall_cons in Hh as [Hh _]; pose proof (hashFromVal_val _ Hh) as E).
  all: unfold OpFromValue, toValue, attachmentPut; cbn [field_lookup Z.eqb Pos.eqb].
  all: rewrite ?U; cbn [or_decode mbind go_bind stringFrom].
  - by rewrite Hop.
  - done.
  - by rewrite E.
  - done.
  - destruct Hop as [Hs Hz]. destruct (Z.ltb_spec Scheme 0); [lia|]. destruct (Z.ltb_spec 255 Scheme); [lia|]. cbn [orb mbind go_bind].
    rewrite E. cbn [or_decode mbind go_bind]. by destruct (Z.ltb_spec Size0 0); [lia|].
  - done.
Qed.

Lemma each_map {A B} (f : A -> cres B) (g : B -> A) l : Forall (fun x => f (g x) = Ok x) l -> each f (map g l) = Ok l.
Proof. induction 1 as [|x l Hx _ IH]; [done|]. cbn [map each]. by rewrite Hx, IH. Qed.

Lemma optionalHash_val msg h : Forall hash_wf (option_list h) -> optionalHash msg (Some (optVal h)) = Ok h.
Proof.
  intros H. destruct h as [h|]; [|done]. apply Forall_cons in H as [Hh _]. unfold optionalHash, optVal, hashVal, HashFromBytes, zlen.
  rewrite Hh. by destruct h.
Qed.

Lemma parse_record_fields c micros h :
  sized c -> Forall op_wf (Operations c) -> TimestampFromEpochMicros micros = CommitTimestamp c ->
  parseCommitFromRecord (record_fields c micros) h = Ok (set_hash c h).
Proof.
  intros (Hp & _ & Ht & Hs & Ha)%sized_inv Ho Hts. unfold parseCommitFromRecord, record_fields.
  cbn [field_lookup Z.eqb Pos.eqb arrayFrom mbind go_bind].
  rewrite (each_map (fun el => or_decode (str "parent hash") (hashFromVal (Some el))) hashVal)
    by (eapply Forall_impl; [exact Hp|]; intros x Hx; by rewrite hashFromVal_val).
  cbn [mbind go_bind stringFrom or_decode uuidFromVal uuidVal timestampFromVal].
  rewrite (each_map OpFromValue toValue) by (eapply Forall_impl; [exact Ho|]; intros x Hx; by apply OpFromValue_toValue).
  cbn [mbind go_bind]. rewrite hashFromVal_val by done. cbn [or_decode mbind go_bind].
  rewrite !optionalHash_val by done. cbn [mbind go_bind]. rewrite Hts. unfold set_hash. by destruct (TransactionID c), (AuthorNodeID c).
Qed.

(** ** The direct decoder *)

Lemma decodeRecord_read d s c slab c' fields fields' :
  readLebBytes c = Ok (slab, c') -> decode_fields WireRegistry d s (length slab) slab 0 [] = Ok fields ->
  fill_defaults s fields = fields' -> decodeRecord WireRegistry d s c = Ok (RecordValue fields', c').
Proof.
  intros R D <-. unfold decodeRecord. unfold readLebBytes in R.
  destruct (leb c) as [[n c1]| |]; cbn [mbind go_bind] in R |- *; try discriminate. rewrite R. cbn [mbind go_bind]. by rewrite D.
Qed.

Lemma op_fill_defaults op : fill_defaults (op_schema op) (op_fields op) = op_fields op.
Proof. by destruct op. Qed.

Lemma lenPrefixed_ok what r b r' : wf r -> lenPrefixed what r = Ok (b, r') -> slice_ok b /\ wf r'.
Proof.
  intros Hw H. destruct (lenPrefixed_spec _ _ _ _ Hw H) as (n & M & _ & _ & Hb). pose proof (moved_pos _ _ _ M) as P.
  pose proof (moved_raw _ _ _ M) as W. pose proof (moved_wf _ _ _ M) as Hw'. split; [|done].
  destruct Hw as [[? ?] _], Hw' as [[? ?] Hs]. unfold slice_ok in *. rewrite W in *. lia.
Qed.

Lemma ops_read_spec n r ops r' fuel : wf r -> ops_read n r = Ok (ops, r') ->
  (exists m, moved m r r') /\ Forall direct_op ops /\
  decode_many (dec (S (S fuel)) kdbOpWire) n (cur r) = Ok (map toValue ops, cur r').
Proof.
  revert r ops r'. induction n as [|n IH]; intros r ops r' Hw H; cbn [ops_read] in H.
  - injection H as <- <-. split_and!; [|constructor|done]. exists 0. split_and!; [destruct r; cbn; f_equal; lia|lia|done].
  - apply go_bind_ok in H as ([branch r1] & H1 & H). apply go_bind_ok in H as ([body r2] & H2 & H).
    apply go_bind_ok in H as (op & H3 & H). apply go_bind_ok in H as ([ops' r3] & H4 & [= <- <-]).
    destruct (sbyte_spec _ _ _ _ Hw H1) as (M1 & U & _). pose proof (moved_wf _ _ _ M1) as Hw1.
    destruct (lenPrefixed_spec _ _ _ _ Hw1 H2) as (k & M2 & _ & R & _).
    destruct (lenPrefixed_ok _ _ _ _ Hw1 H2) as [Hb Hw2].
    destruct (op_read_spec branch body op fuel Hb H3) as (Eb & Hop & D).
    destruct (IH r2 ops' r3 Hw2 H4) as ([m M3] & Hops & D'). split_and!.
    + eexists. exact (moved_trans _ _ _ _ _ M1 (moved_trans _ _ _ _ _ M2 M3)).
    + by constructor.
    + cbn [decode_many map]. pose proof (dec_union WireRegistry (S (S fuel)) op_types (cur r)) as DU.
      change (Union op_types) with kdbOpWire in DU. rewrite DU, U. cbn [mbind go_bind].
      rewrite Eb, (pick_branch_lookup _ _ _ _ _ (op_ref_branch op)). unfold op_ref. rewrite dec_ref. unfold decodeNamed.
      rewrite resolve_op, (decodeRecord_read _ _ _ _ _ _ _ R D (op_fill_defaults op)). cbn [mbind go_bind].
      rewrite D'. cbn [mbind go_bind]. by rewrite <- toValue_fields.
Qed.

Lemma schema_read_spec r sch r' : wf r -> schema_read r = Ok (sch, r') ->
  (sch = None /\ r' = r) \/
  exists h r1 r2, sch = Some h /\ field_at 8 tagUnion r = Ok r1 /\ sbyte [] r1 = Ok (x01, r2) /\ hash_read r2 = Ok (h, r').
Proof.
  intros Hw H. unfold schema_read in H. destruct (spos r <? zlen (sraw r)); [|left; by simplify_eq].
  apply go_bind_ok in H as (b & _ & H). destruct (b2z b =? 8); [|left; by simplify_eq]. right.
  apply go_bind_ok in H as (r1 & F & H). apply go_bind_ok in H as ([m r2] & B & H).
  destruct (Z.eqb_spec (b2z m) 1) as [Em|]; cbn [negb] in H; [|discriminate].
  apply go_bind_ok in H as ([h r3] & Hh & [= <- <-]). exists h, r1, r2. split_and!; try done.
  assert (m = x01) as <- by (apply b2z_inj; by rewrite Em). done.
Qed.

Lemma reached_nullable s fuel r0 r acc id name r1 r2 h r' :
  reached s (S fuel) r0 r acc -> field_at id tagUnion r = Ok r1 -> sbyte [] r1 = Ok (x01, r2) -> hash_read r2 = Ok (h, r') ->
  FieldByID s id = Some (mkField id name (Nullable hashRef) (Some NullValue)) -> 0 <= id < 2 ^ 31 ->
  hash_wf h /\ reached s (S fuel) r0 r' (field_insert id (hashVal h) acc).
Proof.
  intros HR Hf Hb Hh Hs Hid.
  assert (Hw1 : wf r1) by (destruct HR as (Hw & _); destruct (field_at_spec _ _ _ _ Hw Hf) as (j & M1 & _); by apply (moved_wf _ _ _ M1)).
  destruct (sbyte_spec _ _ _ _ Hw1 Hb) as (M2 & U & _). destruct (hash_read_spec _ _ _ (moved_wf _ _ _ M2) Hh) as (M3 & Hwf & D).
  split; [done|]. apply (reached_field s (S fuel) r0 r acc (mkField id name (Nullable hashRef) (Some NullValue)) r1 (1 + 32)); [done..|].
  intros _. split; [by apply (moved_trans _ _ r1 r2)|]. cbn [FieldType]. rewrite dec_nullable, U. cbn [mbind go_bind].
  change (b2z x01 =? 0) with false. change (b2z x01 =? 1) with true. cbn iota. apply D.
Qed.

(** An array field whose count has passed a check at least as strict as the cursor's. *)
Lemma array_read fuel el r n r1 m r' xs : wf r -> uvarint [] r = Ok (n, r1) -> n <= left_over r1 -> moved m r1 r' ->
  decode_many (dec fuel el) (Z.to_nat n) (cur r1) = Ok (xs, cur r') ->
  exists k, moved k r r' /\ dec fuel (Array el) (cur r) = Ok (ArrayValue xs, cur r').
Proof.
  intros Hw H Hn M D. destruct (uvarint_spec _ _ _ _ Hw H) as (j & M1 & _ & Hu & R).
  eexists. split; [exact (moved_trans _ _ _ _ _ M1 M)|].
  rewrite dec_array, (leb_cur r n r1) by (done || by apply (moved_raw j)). cbn [mbind go_bind].
  unfold checkElementCount. cbn [cur limit pos]. unfold left_over, is_u in *.
  destruct (Z.ltb_spec (zlen (sraw r1) - spos r1) 0); [lia|]. destruct (Z.ltb_spec (zlen (sraw r1) - spos r1) n); [lia|].
  cbn [orb mbind go_bind]. fold (cur r1). by rewrite D.
Qed.

Lemma reached_parents s fuel r0 r acc id name r1 n r2 hs r' :
  reached s (S fuel) r0 r acc -> field_at id tagArray r = Ok r1 -> uvarint [] r1 = Ok (n, r2) -> n <= left_over r2 / 32 ->
  parents_read (Z.to_nat n) r2 = Ok (hs, r') ->
  FieldByID s id = Some (field id name (Array hashRef)) -> 0 <= id < 2 ^ 31 ->
  Forall hash_wf hs /\ reached s (S fuel) r0 r' (field_insert id (ArrayValue (map hashVal hs)) acc).
Proof.
  intros HR Hf Hu Hn Hp Hs Hid.
  assert (Hw1 : wf r1) by (destruct HR as (Hw & _); destruct (field_at_spec _ _ _ _ Hw Hf) as (j & M1 & _); by apply (moved_wf _ _ _ M1)).
  destruct (uvarint_spec _ _ _ _ Hw1 Hu) as (j & M1 & _ & Hun & _). pose proof (moved_wf _ _ _ M1) as Hw2. unfold is_u in Hun.
  assert (Hl : 0 <= left_over r2) by (destruct Hw2; unfold left_over; lia).
  destruct (parents_read_spec (Z.to_nat n) r2 hs r' Hw2) as (M2 & Hhs & D); [zdm|done|]. split; [done|].
  destruct (array_read (S fuel) hashRef r1 n r2 _ r' (map hashVal hs) Hw1 Hu ltac:(zdm) M2 (D fuel)) as (k & M & Da).
  by apply (reached_field s (S fuel) r0 r acc (field id name (Array hashRef)) r1 k).
Qed.

Lemma reached_ops s fuel r0 r acc id name r1 n r2 ops r' :
  reached s (S (S fuel)) r0 r acc -> field_at id tagArray r = Ok r1 -> uvarint [] r1 = Ok (n, r2) -> n <= left_over r2 ->
  ops_read (Z.to_nat n) r2 = Ok (ops, r') ->
  FieldByID s id = Some (field id name (Array kdbOpWire)) -> 0 <= id < 2 ^ 31 ->
  Forall direct_op ops /\ reached s (S (S fuel)) r0 r' (field_insert id (ArrayValue (map toValue ops)) acc).
Proof.
  intros HR Hf Hu Hn Hp Hs Hid.
  assert (Hw1 : wf r1) by (destruct HR as (Hw & _); destruct (field_at_spec _ _ _ _ Hw Hf) as (j & M1 & _); by apply (moved_wf _ _ _ M1)).
  destruct (uvarint_spec _ _ _ _ Hw1 Hu) as (j & M1 & _). pose proof (moved_wf _ _ _ M1) as Hw2.
  destruct (ops_read_spec (Z.to_nat n) r2 ops r' fuel Hw2 Hp) as ([m M2] & Hops & D). split; [done|].
  destruct (array_read (S (S fuel)) kdbOpWire r1 n r2 m r' _ Hw1 Hu Hn M2 D) as (k & M & Da).
  by apply (reached_field s (S (S fuel)) r0 r acc (field id name (Array kdbOpWire)) r1 k).
Qed.

(** The reads of a successful run of the direct decoder over the record's bytes. *)
Record direct_run (slab : bytes) (c : Commit) (r1 r2 r3 r4 r5 r6 r7 r8 r9 r10 r11 r12 r13 r14 r15 r16 r17 r18 r19 : commitScanner)
    (n n' micros : Z) (b : bytes) : Prop := {
  run_1 : field_at 1 tagArray (mkScan slab 0) = Ok r1;
  run_count : uvarint [] r1 = Ok (n, r2);
  run_bound : n <= left_over r2 / 32;
  run_parents : parents_read (Z.to_nat n) r2 = Ok (ParentHashes c, r3);
  run_2 : field_at 2 tagString r3 = Ok r4;
  run_ns : lenPrefixed [] r4 = Ok (NamespaceID c, r5);
  run_3 : field_at 3 tagFixed r5 = Ok r6;
  run_tx : uuid_read r6 = Ok (TransactionID c, r7);
  run_4 : field_at 4 tagInt64 r7 = Ok r8;
  run_skip : skip 8 [] r8 = Ok r9;
  run_slice : zslice (sraw r9) (spos r9 - 8) (zlen (sraw r9)) = (Ok b : cres bytes);
  run_micros : readLe64 b 0 = (Ok micros : cres Z);
  run_ts : TimestampFromEpochMicros (wraps 64 micros) = CommitTimestamp c;
  run_5 : field_at 5 tagFixed r9 = Ok r10;
  run_author : uuid_read r10 = Ok (AuthorNodeID c, r11);
  run_6 : field_at 6 tagArray r11 = Ok r12;
  run_opcount : uvarint [] r12 = Ok (n', r13);
  run_opbound : n' <= left_over r13;
  run_ops : ops_read (Z.to_nat n') r13 = Ok (Operations c, r14);
  run_7 : field_at 7 tagFixed r14 = Ok r15;
  run_tree : hash_read r15 = Ok (DocumentTreeHash c, r16);
  run_schema : schema_read r16 = Ok (SchemaHash c, r17);
  run_9 : field_at 9 tagString r17 = Ok r18;
  run_msg : lenPrefixed [] r18 = Ok (Message c, r19);
  run_end : spos r19 = zlen (sraw r19);
  run_att : AttachmentTreeHash c = None;
}.

Lemma decodeCommitDirect_run payload c : decodeCommitDirect payload = Ok c ->
  CommitHash c = mkHash (Sha256.Sum256 payload) /\
  exists slab s, lenPrefixed (str "commit payload") (mkScan payload 0) = Ok (slab, s) /\ spos s = zlen payload /\
  exists r1 r2 r3 r4 r5 r6 r7 r8 r9 r10 r11 r12 r13 r14 r15 r16 r17 r18 r19 n n' micros b,
    direct_run slab c r1 r2 r3 r4 r5 r6 r7 r8 r9 r10 r11 r12 r13 r14 r15 r16 r17 r18 r19 n n' micros b.
Proof.
  unfold decodeCommitDirect. intros H. apply go_bind_ok in H as ([slab s] & Hs & H).
  destruct (Z.eqb_spec (spos s) (zlen payload)); cbn [negb] in H; [|discriminate].
  apply go_bind_ok in H as (r1 & R1 & H). apply go_bind_ok in H as ([n r2] & R2 & H).
  destruct (Z.ltb_spec (left_over r2 / 32) n); [discriminate|].
  apply go_bind_ok in H as ([parents r3] & R3 & H). apply go_bind_ok in H as (r4 & R4 & H).
  apply go_bind_ok in H as ([ns r5] & R5 & H). apply go_bind_ok in H as (r6 & R6 & H).
  apply go_bind_ok in H as ([tx r7] & R7 & H). apply go_bind_ok in H as (r8 & R8 & H).
  apply go_bind_ok in H as (r9 & R9 & H). apply go_bind_ok in H as (b & Rb & H).
  apply go_bind_ok in H as (micros & Rm & H). apply go_bind_ok in H as (r10 & R10 & H).
  apply go_bind_ok in H as ([author r11] & R11 & H). apply go_bind_ok in H as (r12 & R12 & H).
  apply go_bind_ok in H as ([n' r13] & R13 & H). destruct (Z.ltb_spec (left_over r13) n'); [discriminate|].
  apply go_bind_ok in H as ([ops r14] & R14 & H). apply go_bind_ok in H as (r15 & R15 & H).
  apply go_bind_ok in H as ([tree r16] & R16 & H). apply go_bind_ok in H as ([sch r17] & R17 & H).
  apply go_bind_ok in H as (r18 & R18 & H). apply go_bind_ok in H as ([msg r19] & R19 & H).
  destruct (Z.eqb_spec (spos r19) (zlen (sraw r19))); cbn [negb] in H; [|discriminate]. injection H as <-.
  split; [done|]. exists slab, s. split_and!; [done|done|]. exists r1, r2, r3, r4, r5, r6, r7, r8, r9, r10, r11, r12, r13, r14, r15, r16, r17,
    r18, r19, n, n', micros, b. by split.
Qed.

Lemma direct_run_fields slab c r1 r2 r3 r4 r5 r6 r7 r8 r9 r10 r11 r12 r13 r14 r15 r16 r17 r18 r19 n n' micros b fuel :
  slice_ok slab ->
  direct_run slab c r1 r2 r3 r4 r5 r6 r7 r8 r9 r10 r11 r12 r13 r14 r15 r16 r17 r18 r19 n n' micros b ->
  sized c /\ Forall op_wf (Operations c) /\ exists fields,
    decode_fields WireRegistry (dec (S (S fuel))) CommitPayload (length slab) slab 0 [] = Ok fields /\
    fill_defaults CommitPayload fields = record_fields c (wraps 64 micros).
Proof.
  intros Hs R. destruct R as [R1 R2 Rn R3 R4 R5 R6 R7 R8 R9 Rb Rm Rt R10 R11 R12 R13 Rn' R14 R15 R16 R17 R18 R19 Re Ra].
  assert (Hw : wf (mkScan slab 0)) by (split; [cbn; pose proof (zlen_nonneg slab); lia|done]).
  pose proof (reached_start CommitPayload (S (S fuel)) _ Hw) as Q.
  destruct (reached_parents _ _ _ _ _ 1 (str "parentHashes") _ _ _ _ _ Q R1 R2 Rn R3 eq_refl ltac:(lia)) as [Hp Q1].
  pose proof (reached_string _ _ _ _ _ 2 (str "namespaceId") _ _ _ Q1 R4 R5 eq_refl ltac:(lia)) as Q2.
  pose proof (reached_uuid _ _ _ _ _ 3 (str "transactionId") _ _ _ Q2 R6 R7 eq_refl ltac:(lia)) as Q3.
  assert (Q4 : reached CommitPayload (S (S fuel)) (mkScan slab 0) r9 (field_insert 4 (TimestampValue (wraps 64 micros) None)
    (field_insert 3 (uuidVal (TransactionID c)) (field_insert 2 (StringValue (NamespaceID c))
      (field_insert 1 (ArrayValue (map hashVal (ParentHashes c))) []))))).
  { apply (reached_field _ _ _ _ _ (field 4 (str "timestamp") tsPrim) r8 8 _ _ Q3); [done|done|cbn; lia|].
    intros Hw8. destruct (ts_read_spec _ _ _ _ _ Hw8 R9 Rb Rm) as [M D]. auto. }
  pose proof (reached_uuid _ _ _ _ _ 5 (str "authorNodeId") _ _ _ Q4 R10 R11 eq_refl ltac:(lia)) as Q5.
  destruct (reached_ops _ _ _ _ _ 6 (str "operations") _ _ _ _ _ Q5 R12 R13 Rn' R14 eq_refl ltac:(lia)) as [Hops Q6].
  destruct (reached_hash _ _ _ _ _ 7 (str "documentTreeHash") _ _ _ Q6 R15 R16 eq_refl ltac:(lia)) as [Ht Q7].
  assert (Hopw : Forall op_wf (Operations c)) by (eapply Forall_impl; [exact Hops|]; apply direct_op_wf).
  assert (Hoh : Forall hash_wf (flat_map op_hashes (Operations c))).
  { clear -Hops. induction Hops as [|op ops [Ho _] _ IH]; [constructor|]. cbn [flat_map]. apply Forall_app. by split. }
  assert (Hsz : Forall hash_wf (option_list (SchemaHash c)) -> sized c).
  { intros Hsc. unfold sized, commit_hashes. rewrite Ra. cbn [option_list]. rewrite app_nil_r.
    rewrite !Forall_app, Forall_cons. by split_and!. }
  destruct (schema_read_spec _ _ _ (proj1 Q7) R17) as [[Esch ->]|(h & q1 & q2 & Esch & F8 & B8 & H8)]; rewrite Esch in *.
  - pose proof (reached_string _ _ _ _ _ 9 (str "message") _ _ _ Q7 R18 R19 eq_refl ltac:(lia)) as Q9.
    split_and!; [apply Hsz; constructor|done|]. eexists. split; [exact (reached_end _ _ _ _ _ Q9 Re)|].
    unfold record_fields. by rewrite Esch, Ra.
  - destruct (reached_nullable _ _ _ _ _ 8 (str "schemaHash") _ _ _ _ Q7 F8 B8 H8 eq_refl ltac:(lia)) as [Hh Q8].
    pose proof (reached_string _ _ _ _ _ 9 (str "message") _ _ _ Q8 R18 R19 eq_refl ltac:(lia)) as Q9.
    split_and!; [apply Hsz; by repeat constructor|done|]. eexists. split; [exact (reached_end _ _ _ _ _ Q9 Re)|].
    unfold record_fields. by rewrite Esch, Ra.
Qed.

Lemma decodeCommitDirect_sound payload c :
  slice_ok payload -> decodeCommitDirect payload = Ok c -> generic_decode payload = Ok c.
Proof.
  intros Hs H. destruct (decodeCommitDirect_run _ _ H) as (Hh & slab & s & Hl & Hend & r1 & r2 & r3 & r4 & r5 & r6 & r7 & r8 & r9 & r10 &
    r11 & r12 & r13 & r14 & r15 & r16 & r17 & r18 & r19 & n & n' & micros & b & R).
  assert (Hw : wf (mkScan payload 0)) by (split; [cbn; pose proof (zlen_nonneg payload); lia|done]).
  destruct (lenPrefixed_spec _ _ _ _ Hw Hl) as (k & M & Hk & Rl & Hb). destruct (lenPrefixed_ok _ _ _ _ Hw Hl) as [Hslab _].
  pose proof (moved_pos _ _ _ M) as P. pose proof (moved_raw _ _ _ M) as W. cbn [spos sraw] in P, W.
  assert (Hw0 : wf (mkScan slab 0)) by (split; [cbn; pose proof (zlen_nonneg slab); lia|done]).
  destruct (field_at_spec _ _ _ _ Hw0 (run_1 _ _ _ _ _ _ _ _ _ _ _ _ _ _ _ _ _ _ _ _ _ _ _ _ _ R)) as (j & (Er1 & _ & [Hp1 _]) & Hj & _).
  rewrite Er1 in Hp1. cbn [spos sraw] in Hp1.
  assert (exists fuel, length payload = S (S fuel)) as [fuel Ef] by (exists (length payload - 2)%nat; unfold zlen in *; lia).
  destruct (direct_run_fields _ _ _ _ _ _ _ _ _ _ _ _ _ _ _ _ _ _ _ _ _ _ _ _ _ fuel Hslab R) as (Hsz & Hops & fields & D & F).
  unfold generic_decode, wireDecode, wireDecodeFirst, CommitPayloadType. rewrite dec_ref. unfold decodeNamed.
  change (mkCursor payload 0 (zlen payload)) with (cur (mkScan payload 0)).
  rewrite resolve_CommitPayload, Ef, (decodeRecord_read _ _ _ _ _ _ _ Rl D F). cbn [mbind go_bind cur pos]. rewrite Hend, Z.eqb_refl.
  cbn [negb]. rewrite sha_hash. cbn [mbind go_bind].
  assert (parse := parse_record_fields c (wraps 64 micros) (mkHash (Sha256.Sum256 payload)) Hsz Hops (run_ts _ _ _ _ _ _ _ _ _ _ _ _ _ _ _ _ _ _ _ _ _ _ _ _ _ R)).
  rewrite parse, <- Hh. by destruct c.
Qed.

(** *** It does not panic *)

Lemma uvarint_np what r : wf r -> no_panic (uvarint what r) = true.
Proof.
  intros [Hp _]. unfold uvarint. rewrite zslice_sub by lia. cbn [mbind go_bind]. destruct (Uvarint _) as [v n]. by destruct (n <=? 0).
Qed.
Lemma sbyte_np what r : wf r -> no_panic (sbyte what r) = true.
Proof.
  intros [Hp _]. unfold sbyte. destruct (Z.leb_spec (zlen (sraw r)) (spos r)); [done|].
  destruct (zindex_ok (E:=commit_error) (sraw r) (spos r)) as (x & _ & ->); [lia|done].
Qed.
Lemma lenPrefixed_np what r : wf r -> no_panic (lenPrefixed what r) = true.
Proof.
  intros Hw. unfold lenPrefixed. apply no_panic_bind; [by apply uvarint_np|]. intros [n r1] H1.
  destruct (uvarint_spec _ _ _ _ Hw H1) as (k & M & _ & Hn & _). destruct (moved_wf _ _ _ M) as [Hp _]. unfold is_u, left_over in *.
  destruct (Z.ltb_spec (zlen (sraw r1) - spos r1) n); [done|]. by rewrite zslice_sub by lia.
Qed.
Lemma field_at_np id tag r : wf r -> no_panic (field_at id tag r) = true.
Proof.
  intros Hw. unfold field_at. apply no_panic_bind; [by apply uvarint_np|]. intros [n r1] H1.
  destruct (uvarint_spec _ _ _ _ Hw H1) as (k & M & _). destruct (negb _); [done|].
  apply no_panic_bind; [by apply sbyte_np, (moved_wf _ _ _ M)|]. intros [t r2] _. by destruct (negb _).
Qed.
Lemma skip_np n what r : no_panic (skip n what r) = true.
Proof. unfold skip. by destruct (_ || _). Qed.
Lemma uuid_read_np r : wf r -> no_panic (uuid_read r) = true.
Proof.
  intros Hw. unfold uuid_read. apply no_panic_bind; [apply skip_np|]. intros r1 H1.
  destruct (skip_spec _ _ _ _ Hw H1) as [M _]. destruct (slice_back (E:=commit_error) 16 r r1 Hw M) as (b & -> & _ & Hl).
  cbn [mbind go_bind]. unfold uuidAt. by rewrite !readBE64_spec by lia.
Qed.
Lemma hash_read_np r : wf r -> no_panic (hash_read r) = true.
Proof.
  intros Hw. unfold hash_read. apply no_panic_bind; [apply skip_np|]. intros r1 H1.
  destruct (skip_spec _ _ _ _ Hw H1) as [M _]. by destruct (slice_back (E:=commit_error) 32 r r1 Hw M) as (b & -> & _).
Qed.
Lemma parents_read_np n r : wf r -> 32 * Z.of_nat n <= left_over r -> no_panic (parents_read n r) = true.
Proof.
  revert r. induction n as [|n IH]; intros r [Hp Hs] Hl; [done|]. unfold left_over in Hl. cbn [parents_read].
  rewrite zslice_sub by lia. cbn [mbind go_bind]. apply no_panic_bind; [|by intros []].
  apply IH; [split; cbn [sraw spos]; [lia|done]|unfold left_over; cbn [sraw spos]; lia].
Qed.

Lemma uvarint_wf what r v r' : uvarint what r = Ok (v, r') -> wf r -> wf r'.
Proof. intros H Hw. destruct (uvarint_spec _ _ _ _ Hw H) as (k & M & _). exact (moved_wf _ _ _ M). Qed.
Lemma sbyte_wf what r v r' : sbyte what r = Ok (v, r') -> wf r -> wf r'.
Proof. intros H Hw. destruct (sbyte_spec _ _ _ _ Hw H) as (M & _). exact (moved_wf _ _ _ M). Qed.
Lemma lenPrefixed_wf what r v r' : lenPrefixed what r = Ok (v, r') -> wf r -> wf r'.
Proof. intros H Hw. by destruct (lenPrefixed_ok _ _ _ _ Hw H). Qed.
Lemma skip_wf n what r r' : skip n what r = Ok r' -> wf r -> wf r'.
Proof. intros H Hw. destruct (skip_spec _ _ _ _ Hw H) as (M & _). exact (moved_wf _ _ _ M). Qed.
Lemma field_at_wf id tag r r' : field_at id tag r = Ok r' -> wf r -> wf r'.
Proof. intros H Hw. destruct (field_at_spec _ _ _ _ Hw H) as (k & M & _). exact (moved_wf _ _ _ M). Qed.
Lemma uuid_read_wf r u r' : uuid_read r = Ok (u, r') -> wf r -> wf r'.
Proof. intros H Hw. destruct (uuid_read_spec _ _ _ Hw H) as (M & _). exact (moved_wf _ _ _ M). Qed.
Lemma hash_read_wf r u r' : hash_read r = Ok (u, r') -> wf r -> wf r'.
Proof. intros H Hw. destruct (hash_read_spec _ _ _ Hw H) as (M & _). exact (moved_wf _ _ _ M). Qed.
Lemma ops_read_wf n r ops r' : ops_read n r = Ok (ops, r') -> wf r -> wf r'.
Proof. intros H Hw. destruct (ops_read_spec n r ops r' 0 Hw H) as ([k M] & _). exact (moved_wf _ _ _ M). Qed.
Lemma schema_read_wf r h r' : schema_read r = Ok (h, r') -> wf r -> wf r'.
Proof.
  intros H Hw. destruct (schema_read_spec _ _ _ Hw H) as [[_ ->]|(? & ? & ? & _ & H1 & H2 & H3)]; [done|].
  eauto using field_at_wf, sbyte_wf, hash_read_wf.
Qed.
Lemma start_wf b : slice_ok b -> wf (mkScan b 0).
Proof. intros H. split; [cbn; pose proof (zlen_nonneg b); lia|done]. Qed.

Create HintDb scan.
#[local] Hint Resolve uvarint_np sbyte_np lenPrefixed_np field_at_np skip_np uuid_read_np hash_read_np start_wf : scan.
#[local] Hint Resolve uvarint_wf sbyte_wf lenPrefixed_wf skip_wf field_at_wf uuid_read_wf hash_read_wf ops_read_wf schema_read_wf : scan.

Ltac np_step :=
  apply no_panic_bind; [solve [eauto with scan]|];
  let x := fresh "s" in let E := fresh "E" in 
  lazymatch goal with |- forall _ : prod _ _, _ => intros [? x] E | _ => intros x E end;
  assert (wf x) by (eauto with scan).

Lemma decodeOpDirect_np branch body : slice_ok body -> no_panic (decodeOpDirect branch body) = true.
Proof.
  intros Hs. pose proof (start_wf _ Hs) as Hw. unfold decodeOpDirect. apply no_panic_bind; [|intros [op r] _; by destruct (negb _)].
  assert (U : forall id r, wf r -> no_panic (r ← field_at id tagFixed r; uuid_read r) = true)
    by (intros; np_step; eauto with scan).
  assert (T : forall id r, wf r -> no_panic (r ← field_at id tagString r; lenPrefixed [] r) = true)
    by (intros; np_step; eauto with scan).
  assert (Uw : forall id r u r', (r ← field_at id tagFixed r; uuid_read r) = Ok (u, r') -> wf r -> wf r').
  { intros ? ? ? ? (? & ? & ?)%go_bind_ok ?. eauto with scan. }
  assert (Tw : forall id r u r', (r ← field_at id tagString r; lenPrefixed [] r) = Ok (u, r') -> wf r -> wf r').
  { intros ? ? ? ? (? & ? & ?)%go_bind_ok ?. eauto with scan. }
  destruct (b2z branch) as [|[[?|?|]|[?|?|]|]|?]; try done.
  - apply no_panic_bind; [by apply U|]. intros [? ?] ?. apply no_panic_bind; [eauto|by intros [] _].
  - apply no_panic_bind; [by apply U|]. intros [? ?] ?. apply no_panic_bind; [eauto|by intros [] _].
  - apply no_panic_bind; [by apply T|]. intros [? ?] ?. apply no_panic_bind; [eauto with scan|]. intros ? ?.
    apply no_panic_bind; [eauto with scan|by intros [] _].
  - apply no_panic_bind; [by apply U|]. by intros [] _.
Qed.

Lemma ops_read_np n r : wf r -> no_panic (ops_read n r) = true.
Proof.
  revert r. induction n as [|n IH]; intros r Hw; [done|]. cbn [ops_read]. np_step. np_step.
  apply no_panic_bind; [apply decodeOpDirect_np|].
  - eapply lenPrefixed_ok; [|done]. eauto with scan.
  - intros op _. apply no_panic_bind; [|by intros []]. eauto with scan.
Qed.

Lemma schema_read_np r : wf r -> no_panic (schema_read r) = true.
Proof.
  intros Hw. unfold schema_read. destruct (Z.ltb_spec (spos r) (zlen (sraw r))); [|done].
  destruct (zindex_ok (E:=commit_error) (sraw r) (spos r)) as (x & _ & ->); [destruct Hw; lia|]. cbn [mbind go_bind].
  destruct (b2z x =? 8); [|done]. np_step. np_step. destruct (negb _); [done|]. np_step. done.
Qed.

Lemma decodeCommitDirect_np payload : slice_ok payload -> no_panic (decodeCommitDirect payload) = true.
Proof.
  intros Hs. pose proof (start_wf _ Hs) as Hw. unfold decodeCommitDirect. apply no_panic_bind; [eauto with scan|]. intros [slab s] E0.
  destruct (lenPrefixed_ok _ _ _ _ Hw E0) as [Hslab _]. destruct (negb _); [done|]. np_step. apply no_panic_bind; [eauto with scan|].
  intros [n r2] E2. assert (Hw2 : wf r2) by eauto with scan. destruct (Z.ltb_spec (left_over r2 / 32) n); [done|].
  assert (0 <= left_over r2) by (destruct Hw2; unfold left_over; lia).
  assert (Hb : 32 * Z.of_nat (Z.to_nat n) <= left_over r2) by zdm.
  apply no_panic_bind; [by apply parents_read_np|]. intros [parents r3] E3.
  assert (Hw3 : wf r3) by (destruct (parents_read_spec _ _ _ _ Hw2 Hb E3) as (M & _); exact (moved_wf _ _ _ M)).
  do 5 np_step. apply no_panic_bind; [apply skip_np|]. intros r9 E9.
  match goal with H : field_at 4 _ _ = Ok ?r |- _ => rename r into r8; assert (Hw8 : wf r8) by done end.
  destruct (skip_spec _ _ _ _ Hw8 E9) as [M9 _]. destruct (slice_back (E:=commit_error) 8 r8 r9 Hw8 M9) as (b & -> & _ & Hb8).
  cbn [mbind go_bind]. rewrite readLe64_spec by lia. cbn [mbind go_bind]. pose proof (moved_wf _ _ _ M9) as Hw9.
  do 3 np_step. apply no_panic_bind; [eauto with scan|]. intros [n' r13] E13. destruct (_ <? _); [done|].
  assert (Hw13 : wf r13) by eauto with scan.
  apply no_panic_bind; [by apply ops_read_np|]. intros [ops r14] E14. assert (Hw14 : wf r14) by eauto with scan.
  np_step. np_step. apply no_panic_bind; [apply schema_read_np; eauto with scan|]. intros [sch r17] E17.
  assert (Hw17 : wf r17) by eauto with scan. np_step. np_step. by destruct (negb _).
Qed.

(** ** The theorems *)

Lemma FromPayloadBytes_generic b : slice_ok b -> FromPayloadBytes b = generic_decode b.
Proof.
  intros Hs. unfold FromPayloadBytes. pose proof (decodeCommitDirect_np b Hs) as Hn.
  destruct (decodeCommitDirect b) as [c| |] eqn:E; [|done|done]. symmetry. by apply decodeCommitDirect_sound.
Qed.

(** C23. Trying the direct decoder first changes no result: on any bytes,
    [FromPayloadBytes] returns what the generic decoder alone returns, commit
    or error. *)
Theorem direct_decoder_agrees b : slice_ok b -> FromPayloadBytes b = generic_decode b.
Proof. apply FromPayloadBytes_generic. Qed.

Lemma direct_decoder_agrees_witness : FromPayloadBytes [x00] = generic_decode [x00].
Proof. apply direct_decoder_agrees. done. Defined.

(** Values of commits are well-typed. *)

Definition op_sized (op : Op) : Prop :=
  match op with
  | WriteOp id _ _ | DeleteOp id | SchemaMigrationOp id _ => uuid_wf id
  | FileWriteOp _ _ => True
  | AttachmentPutOp id att _ scheme _ size _ => uuid_wf id /\ uuid_wf att /\ size < 2 ^ 63
  | AttachmentDeleteOp id att => uuid_wf id /\ uuid_wf att
  end.

Definition commit_wf (c : Commit) : Prop :=
  sized c /\ Forall op_wf (Operations c) /\ Forall op_sized (Operations c) /\
  uuid_wf (TransactionID c) /\ uuid_wf (AuthorNodeID c) /\ ts_wf (CommitTimestamp c).

Lemma wt_hash h : hash_wf h -> wt WireRegistry (hashVal h) hashRef.
Proof. intros Hh. unfold hashVal, hashRef. cbn [wt]. rewrite resolve_Hash32. split; [by apply zlen_hash|done]. Qed.

Lemma wt_array {A} (f : A -> Value) t l :
  wide WireRegistry t = true -> Forall (fun x => wt WireRegistry (f x) t) l -> wt WireRegistry (ArrayValue (map f l)) (Array t).
Proof. intros Hw H. cbn [wt]. split; [done|]. induction H; [done|]. by split. Qed.

Lemma wt_optional h : Forall hash_wf (option_list h) -> wt WireRegistry (optVal h) (Nullable hashRef).
Proof.
  intros H. destruct h as [h|]; [|done]. apply Forall_cons in H as [Hh _]. unfold optVal. rewrite wt_nullable by done.
  by apply wt_hash.
Qed.

Lemma op_schema_ok op : schema_ok (op_schema op).
Proof. split; [by apply (bool_decide_unpack _); destruct op|]. destruct op; repeat constructor; simpl; lia. Qed.

Lemma wt_uuid u : uuid_wf u -> wt WireRegistry (uuidVal u) uuidPrim.
Proof. done. Qed.
Lemma wt_string t : wt WireRegistry (StringValue t) stringPrim.
Proof. exact I. Qed.
Lemma wt_record fields s name :
  Resolve name WireRegistry = Some (NamedRecord s) -> schema_ok s -> by_id s = SchemaFields s ->
  Forall2 (fun a f => a.1 = ID f /\ wt WireRegistry a.2 (FieldType f)) fields (SchemaFields s) ->
  wt WireRegistry (RecordValue fields) (Ref name).
Proof.
  intros Hr Hs Hb H. cbn [wt]. rewrite Hr. split; [done|]. rewrite Hb. clear Hr Hs Hb.
  induction H as [|[id x] f fields fs [H1 H2] _ IH]; [done|]. by split_and!.
Qed.

Create HintDb wire.
#[local] Hint Resolve wt_uuid wt_string wt_hash : wire.
#[local] Hint Constructors Forall2 : wire.

Lemma wt_op op : op_wf op -> op_sized op -> wt WireRegistry (toValue op) kdbOpWire.
Proof.
  intros [Hh Hop] Hz. rewrite toValue_fields. change kdbOpWire with (Union op_types). cbn [wt]. rewrite op_ref_branch.
  split; [destruct op; simpl; lia|]. apply (wt_record _ _ _ (resolve_op op)); [apply op_schema_ok|apply op_schema_sorted|].
  destruct op; cbn [op_hashes op_sized] in *; try apply Forall_cons in Hh as [Hh _];
    [..|destruct Hz as (Hz & Hz' & Hz'')|destruct Hz as [Hz Hz']].
  all: repeat (apply Forall2_cons; split; [split; [reflexivity|cbn [snd FieldType field]; try solve [auto with wire]]|]);
    try apply Forall2_nil_2.
  - unfold Prim. rewrite wt_prim. cbn [prim_wt]. unfold is_s. lia.
  - unfold Prim. rewrite wt_prim. cbn [prim_wt]. unfold is_s. lia.
Qed.

Lemma wt_payload c : commit_wf c ->
  wt WireRegistry (RecordValue (record_fields c (EpochMicros (CommitTimestamp c)))) CommitPayloadType.
Proof.
  intros (Hs & Ho & Hoz & Htx & Hau & Hts). apply sized_inv in Hs as (Hp & _ & Ht & Hsc & Ha).
  apply (wt_record _ _ _ resolve_CommitPayload).
  - split; [by apply (bool_decide_unpack _)|]. repeat constructor; simpl; lia.
  - done.
  - assert (Hops : Forall (fun op => wt WireRegistry (toValue op) kdbOpWire) (Operations c)).
    { clear -Ho Hoz. induction Ho; [constructor|]. apply Forall_cons in Hoz as [? ?]. constructor; [by apply wt_op|auto]. }
    unfold record_fields, CommitPayload, record. cbn [SchemaFields].
    repeat (apply Forall2_cons; split; [split; [reflexivity|]|]); try apply Forall2_nil_2; cbn [snd FieldType field];
      try solve [auto with wire | by apply wt_optional].
    + apply wt_array; [by vm_compute|]. eapply Forall_impl; [exact Hp|]. apply wt_hash.
    + unfold tsPrim. rewrite wt_prim. cbn [prim_wt]. rewrite EpochMicros_exact by done. apply Hts.
    + by apply wt_array.
Qed.

Lemma generic_decode_encode c b : commit_wf c -> generic_encode c = Ok b -> zlen b < 2 ^ 32 ->
  generic_decode b = Ok (set_hash c (mkHash (Sha256.Sum256 b))).
Proof.
  intros Hc Hb Hz. pose proof (wt_payload c Hc) as Hw. destruct Hc as (Hs & Ho & _ & _ & _ & Hts).
  rewrite generic_encode_layout in Hb by done. injection Hb as <-.
  assert (E : wireEncode WireRegistry (RecordValue (record_fields c (EpochMicros (CommitTimestamp c)))) CommitPayloadType =
    Ok (prefixed (payload_body c))).
  { unfold wireEncode, CommitPayloadType. rewrite (enc_record _ _ _ resolve_CommitPayload) by reflexivity.
    fold (encoders (record_fields c (EpochMicros (CommitTimestamp c)))). by rewrite enc_record_fields. }
  destruct (wire_decodes _ _ _ _ Hw E Hz) as [D _]. unfold generic_decode. rewrite D, sha_hash. cbn [mbind go_bind].
  apply parse_record_fields; [done|done|by apply FromEpochMicros_EpochMicros].
Qed.

Lemma ToPayloadBytes_layout c b : sized c -> ToPayloadBytes c = Ok b -> b = prefixed (payload_body c).
Proof.
  intros Hs Hb. destruct (encoders_agree c Hs) as (b' & G & T & _). rewrite generic_encode_layout in G by done. congruence.
Qed.

(** A commit that was built decodes from its payload bytes to itself, hash
    included. *)
Theorem commit_roundtrip c c' b :
  commit_wf c -> BuildCommitWithAttachments c = Ok c' -> ToPayloadBytes c' = Ok b -> zlen b < 2 ^ 32 ->
  FromPayloadBytes b = Ok c'.
Proof.
  intros Hc Hb Ht Hz. unfold BuildCommitWithAttachments in Hb. apply go_bind_ok in Hb as (h & Hh & [= <-]).
  assert (Hs : forall h, sized (set_hash c h)) by (intros; apply (proj1 Hc)).
  assert (Hc' : commit_wf (set_hash c h)) by exact Hc.
  destruct (encoders_agree _ (Hs (mkHash (replicate 32 x00)))) as (b' & G & _ & _ & _ & C). rewrite Hh in C. injection C as ->.
  rewrite generic_encode_layout in G by done. injection G as <-.
  pose proof (ToPayloadBytes_layout _ _ (Hs _) Ht) as Eb. rewrite FromPayloadBytes_generic by (unfold slice_ok; lia).
  rewrite (generic_decode_encode _ b Hc'); [|by rewrite generic_encode_layout, Eb|done].
  rewrite Eb. done.
Qed.

Lemma sample_commit_wf : commit_wf sample_commit.
Proof.
  split_and!; try (unfold uuid_wf, is_s; cbn; lia).
  - apply sample_sized.
  - repeat constructor; simpl; lia.
  - repeat constructor; unfold is_s; simpl; lia.
  - apply TimestampFromEpochMicros_wf. unfold is_s; lia.
Qed.

Definition sample_bytes : bytes :=
  Eval vm_compute in match ToPayloadBytes sample_commit with Ok b => b | _ => [] end.
Definition sample_built : Commit := Eval vm_compute in set_hash sample_commit (mkHash (Sha256.Sum256 sample_bytes)).

Lemma sample_builds : BuildCommitWithAttachments sample_commit = Ok sample_built.
Proof. by vm_compute. Qed.
Lemma sample_encodes : ToPayloadBytes sample_built = Ok sample_bytes.
Proof. by vm_compute. Qed.

Lemma commit_roundtrip_witness : FromPayloadBytes sample_bytes = Ok sample_built.
Proof.
  apply (commit_roundtrip sample_commit sample_built sample_bytes sample_commit_wf sample_builds sample_encodes). reflexivity.
Defined.

End CommitDecode.
