(* ===== verification/CommitScan.v ===== *)
(** Scanning a commit's payload for its writes: on what the encoder writes,
    [ScanAllCommitWrites] visits the writes of the commit in order. *)

From S2P Require Import Prelude Primitives Schema KdbCodec CodecCorrect Document Commit CommitDirect CommitCorrect CommitDecode.
Import Schema KdbCodec CodecCorrect Document Commit CommitDirect CommitCorrect CommitDecode.

Module CommitScan.

(** ** The scanner on written bytes *)

(** The scanner after [p], with [q] to come. *)
Definition here (p q : bytes) : commitScanner := mkScan (p ++ q) (zlen p).

Lemma here_raw p q : sraw (here p q) = p ++ q.
Proof. done. Qed.
Lemma here_pos p q : spos (here p q) = zlen p.
Proof. done. Qed.
Lemma here_move p e q : mkScan (p ++ e ++ q) (zlen p + zlen e) = here (p ++ e) q.
Proof. unfold here. by rewrite <- app_assoc, zlen_app. Qed.

Lemma here_left p q : left_over (here p q) = zlen q.
Proof. unfold left_over, here. cbn [sraw spos]. rewrite zlen_app. lia. Qed.

Lemma uvarint_loop_of_leb f i x v rest :
  (0 < f)%nat -> 0 <= i -> i + Z.of_nat f <= 9 -> 0 <= v < 2 ^ (7 * Z.of_nat f) -> 0 <= x < 2 ^ (7 * i) ->
  uvarint_loop (leb_loop f [] v ++ rest) i x (7 * i) = (x + v * 2 ^ (7 * i), i + zlen (leb_loop f [] v)).
Proof.
  revert i x v. induction f as [|f IH]; intros i x v Hf Hi Hif Hv Hx; [lia|]. rewrite pow_groups in Hv.
  rewrite leb_loop_S by lia.
  assert (Hbig : 128 * 2 ^ (7 * i) <= 2 ^ 63).
  { transitivity (2 ^ (7 + 7 * i)); [rewrite Z.pow_add_r by lia; lia|]. apply Z.pow_le_mono_r; lia. }
  pose proof (Z.mod_pos_bound v 128 ltac:(lia)) as Hm. pose proof (Z.div_mod v 128 ltac:(lia)) as Hdm.
  destruct (Z.leb_spec 128 v).
  - cbn [app uvarint_loop]. destruct (Z.eqb_spec i 10); [lia|]. rewrite chunk_cont by lia.
    destruct (Z.ltb_spec (v mod 128 + 128) 128); [lia|]. destruct (land_cont (v mod 128) Hm) as [-> _].
    rewrite wrap_shift, lor_shiftl_add by (lia || nia). replace (7 * i + 7) with (7 * (i + 1)) by lia.
    assert (E7 : 2 ^ (7 * (i + 1)) = 128 * 2 ^ (7 * i)).
    { replace (7 * (i + 1)) with (7 + 7 * i) by lia. rewrite Z.pow_add_r by lia. done. }
    destruct f as [|f]; [change (2 ^ (7 * Z.of_nat 0)) with 1 in Hv; lia|].
    rewrite IH; [|lia|lia|lia|split; [apply Z.div_pos; lia|apply Z.div_lt_upper_bound; lia]|rewrite E7; nia].
    rewrite zlen_cons, E7. f_equal; [nia|lia].
  - cbn [app uvarint_loop]. destruct (Z.eqb_spec i 10); [lia|]. rewrite b2z_z2b, Z.mod_small by lia.
    destruct (Z.ltb_spec v 128); [|lia]. destruct (Z.eqb_spec i 9); [lia|]. cbn [andb].
    rewrite wrap_shift, lor_shiftl_add by (lia || nia). change (zlen [z2b v]) with 1. done.
Qed.

Lemma uvarint_here w p v rest : is_u 32 v ->
  uvarint w (here p (appendLeb128U32 [] v ++ rest)) = Ok (v, here (p ++ appendLeb128U32 [] v) rest).
Proof.
  intros Hv. unfold uvarint. rewrite !here_raw, !here_pos, (zlen_app p).
  replace (zlen p) with (zlen p + 0) at 1 by lia. rewrite zslice_app_r by lia.
  match goal with |- context [zslice ?q 0 (zlen ?q)] => assert (zslice (E:=commit_error) q 0 (zlen q) = Ok q) as -> end.
  { rewrite <- (app_nil_r (_ ++ rest)) at 1. apply zslice_prefix. }
  cbn [mbind go_bind]. unfold Uvarint, appendLeb128U32. unfold is_u in Hv. pose proof (uvarint_loop_of_leb 5 0 0 v rest) as L.
  change (7 * 0) with 0 in L. rewrite L by (simpl; lia). rewrite Z.mul_1_r, !Z.add_0_l.
  pose proof (leb_loop_nonempty 4 v). destruct (Z.leb_spec (zlen (leb_loop 5 [] v)) 0); [lia|].
  by rewrite here_move.
Qed.

Lemma sbyte_here w p b rest : sbyte w (here p (b :: rest)) = Ok (b, here (p ++ [b]) rest).
Proof.
  unfold sbyte, here. cbn [sraw spos]. rewrite zlen_app, zlen_cons. pose proof (zlen_nonneg rest).
  destruct (Z.leb_spec (zlen p + (1 + zlen rest)) (zlen p)); [lia|].
  replace (zlen p) with (zlen p + 0) at 1 by lia. rewrite zindex_app_r by lia. cbn [mbind go_bind].
  rewrite zlen_app, <- app_assoc. done.
Qed.

Lemma skip_here n w p e rest : zlen e = n -> skip n w (here p (e ++ rest)) = Ok (here (p ++ e) rest).
Proof.
  intros <-. unfold skip. rewrite here_left, zlen_app. pose proof (zlen_nonneg e). pose proof (zlen_nonneg rest).
  destruct (Z.ltb_spec (zlen e) 0); [lia|]. destruct (Z.ltb_spec (zlen e + zlen rest) (zlen e)); [lia|].
  cbn [orb]. by rewrite here_raw, here_pos, here_move.
Qed.

Lemma lenPrefixed_here w p b rest : zlen b < 2 ^ 32 ->
  lenPrefixed w (here p (prefixed b ++ rest)) = Ok (b, here (p ++ prefixed b) rest).
Proof.
  intros Hb. pose proof (zlen_nonneg b). pose proof (zlen_nonneg rest). unfold lenPrefixed, prefixed, leb32.
  rewrite wrapu_id by (unfold is_u; lia). rewrite <- app_assoc, uvarint_here by (unfold is_u; lia). cbn [mbind go_bind].
  rewrite here_left, zlen_app. destruct (Z.ltb_spec (zlen b + zlen rest) (zlen b)); [lia|].
  set (q := p ++ appendLeb128U32 [] (zlen b)). rewrite !here_raw, !here_pos.
  replace (zlen q) with (zlen q + 0) at 1 by lia. rewrite zslice_app_r, zslice_prefix by lia. cbn [mbind go_bind].
  rewrite here_move. unfold q. by rewrite <- app_assoc.
Qed.

Lemma uvarint_small w p b rest : b2z b < 128 -> uvarint w (here p (b :: rest)) = Ok (b2z b, here (p ++ [b]) rest).
Proof.
  intros Hb. pose proof (b2z_range b). pose proof (uvarint_here w p (b2z b) rest ltac:(unfold is_u; lia)) as U.
  assert (appendLeb128U32 [] (b2z b) = [b]) as E.
  { unfold appendLeb128U32. rewrite leb_loop_S by lia. destruct (Z.leb_spec 128 (b2z b)); [lia|]. by rewrite z2b_b2z. }
  by rewrite E in U.
Qed.

Lemma uuidAt_bytes u : uuid_wf u -> uuidAt (uuid_bytes u) = Ok u.
Proof.
  intros [Hm Hl]. unfold uuidAt, uuid_bytes. destruct (readBE64_pair (E:=commit_error) _ _ Hm Hl) as [-> ->]. by destruct u.
Qed.

Lemma slice_behind {E} p e q n : zlen e = n ->
  zslice (E:=E) (sraw (here (p ++ e) q)) (spos (here (p ++ e) q) - n) (spos (here (p ++ e) q)) = Ok e.
Proof.
  intros <-. rewrite here_raw, here_pos, zlen_app, <- app_assoc. replace (zlen p + zlen e - zlen e) with (zlen p + 0) by lia.
  rewrite zslice_app_r by lia. apply zslice_prefix.
Qed.

Lemma here_more p b q : (zlen (sraw (here p (b :: q))) <=? spos (here p (b :: q))) = false.
Proof. rewrite here_raw, here_pos, zlen_app, zlen_cons. pose proof (zlen_nonneg q). apply Z.leb_gt. lia. Qed.
Lemma here_end p : (zlen (sraw (here p [])) <=? spos (here p [])) = true.
Proof. rewrite here_raw, here_pos, app_nil_r. apply Z.leb_refl. Qed.

Lemma scanOpWrite_body id patch rep : uuid_wf id -> zlen patch < 2 ^ 32 ->
  scanOpWrite (op_body (WriteOp id patch rep)) = Ok (id, patch).
Proof.
  intros Hu Hp. unfold scanOpWrite.
  assert (exists f, length (op_body (WriteOp id patch rep)) = S (S f)) as [f ->] by (cbn [op_body app length]; eauto).
  change (mkScan (op_body (WriteOp id patch rep)) 0) with (here [] (op_body (WriteOp id patch rep))). cbn [op_body].
  cbn [opWrite_loop]. change ([x01; tagFixed] ++ ?q) with (x01 :: tagFixed :: q).
  rewrite here_more, uvarint_small by done. cbn [mbind go_bind]. rewrite sbyte_here. cbn [mbind go_bind].
  change (b2z x01) with 1. cbn iota. change (expectTag tagFixed PhysicalFixed) with (Ok tt : cres unit). cbn [mbind go_bind].
  rewrite skip_here by apply zlen_uuid_bytes. cbn [mbind go_bind]. rewrite slice_behind by apply zlen_uuid_bytes. cbn [mbind go_bind].
  rewrite uuidAt_bytes by done. cbn [mbind go_bind]. change ([x02; tagString] ++ ?q) with (x02 :: tagString :: q).
  rewrite here_more, uvarint_small by done. cbn [mbind go_bind]. rewrite sbyte_here. cbn [mbind go_bind].
  change (b2z x02) with 2. cbn iota. change (expectTag tagString PhysicalString) with (Ok tt : cres unit). cbn [mbind go_bind].
  rewrite <- (app_nil_r (prefixed patch)), lenPrefixed_here by done. cbn [mbind go_bind].
  destruct f; cbn [opWrite_loop]; by rewrite here_end.
Qed.

(** ** The writes of a commit *)

Section Visit.
Context {A : Type} (fn : A -> UUID -> bytes -> A * bool).

(** What the visitor sees: the writes in order, until it asks to stop. *)
Fixpoint visit_ops (ops : list Op) (v : A * bool) : A * bool :=
  match ops with
  | [] => v
  | WriteOp id patch _ :: ops =>
    visit_ops ops (if v.2 then v else let '(a, more) := fn v.1 id patch in (a, negb more))
  | _ :: ops => visit_ops ops v
  end.

Lemma scan_ops_bytes ops p rest v :
  Forall op_sized ops -> Forall (fun op => zlen (op_body op) < 2 ^ 32) ops ->
  scan_ops fn (length ops) (here p (concat (map op_bytes ops) ++ rest)) v =
  Ok (here (p ++ concat (map op_bytes ops)) rest, visit_ops ops v).
Proof.
  intros Hs. revert p v. induction Hs as [|op ops Hop _ IH]; intros p v Hz; [by rewrite app_nil_r|].
  apply Forall_cons in Hz as [Hz Hzs]. cbn [length scan_ops map concat].
  unfold op_bytes at 1. cbn [app]. rewrite <- !app_assoc, sbyte_here. cbn [mbind go_bind].
  assert (Hb : 0 <= op_branch op <= 5) by (destruct op; simpl; lia). rewrite b2z_z2b, Z.mod_small by lia.
  destruct (Z.ltb_spec 5 (op_branch op)); [lia|]. rewrite lenPrefixed_here by done. cbn [mbind go_bind].
  assert (Ep : forall q, ((p ++ [z2b (op_branch op)]) ++ prefixed (op_body op)) ++ q = p ++ op_bytes op ++ q).
  { intros q. unfold op_bytes. by rewrite <- !app_assoc. }
  assert (K : forall v', scan_ops fn (length ops) (here ((p ++ [z2b (op_branch op)]) ++ prefixed (op_body op)) (concat (map op_bytes ops) ++ rest)) v'
    = Ok (here (p ++ op_bytes op ++ concat (map op_bytes ops)) rest, visit_ops ops v')) by (intros v'; by rewrite IH, Ep).
  destruct op; cbn [op_branch] in *; try (change (negb (_ =? 0)) with true; cbn [orb]; apply K).
  change (negb (0 =? 0)) with false. cbn [orb visit_ops]. destruct v as [a [|]]; cbn [fst snd]; [apply K|].
  rewrite scanOpWrite_body; [|done|].
  - cbn [mbind go_bind]. destruct (fn a DocID Patch) as [a' more]. apply K.
  - cbn [op_body] in Hz. rewrite !zlen_app in Hz. unfold prefixed in Hz. rewrite zlen_app in Hz.
    pose proof (zlen_nonneg (leb32 (zlen Patch))). pose proof (zlen_nonneg [x01; tagFixed]). pose proof (zlen_nonneg (uuid_bytes DocID)).
    pose proof (zlen_nonneg [x02; tagString]). lia.
Qed.

Lemma scan_step f p b tag e rest seen v v' :
  b2z b < 16 -> (forall p, scan_field fn (b2z b) tag (here p (e ++ rest)) v = Ok (here (p ++ e) rest, v')) ->
  scan_fields fn (S f) (here p ([b; tag] ++ e ++ rest)) seen v =
  scan_fields fn f (here (p ++ [b; tag] ++ e) rest) (Z.lor seen (Z.shiftl 1 (b2z b))) v'.
Proof.
  intros Hb H. cbn [scan_fields]. change ([b; tag] ++ e ++ rest) with (b :: tag :: e ++ rest).
  rewrite here_more, uvarint_small by lia. cbn [mbind go_bind]. rewrite sbyte_here. cbn [mbind go_bind].
  destruct (Z.ltb_spec (b2z b) 16); [|lia]. rewrite H. cbn [mbind go_bind]. by rewrite <- !app_assoc.
Qed.

Lemma scan_string p t rest id w v : zlen t < 2 ^ 32 -> id = 2 \/ id = 9 ->
  w = tagString -> scan_field fn id w (here p (prefixed t ++ rest)) v = Ok (here (p ++ prefixed t) rest, v).
Proof.
  intros Ht Hid ->. destruct Hid as [-> | ->]; cbn [scan_field]; change (expectTag tagString PhysicalString) with (Ok tt : cres unit);
    cbn [mbind go_bind]; by rewrite lenPrefixed_here.
Qed.

Lemma scan_uuid p u rest id v : id = 3 \/ id = 5 ->
  scan_field fn id tagFixed (here p (uuid_bytes u ++ rest)) v = Ok (here (p ++ uuid_bytes u) rest, v).
Proof.
  intros Hid. destruct Hid as [-> | ->]; cbn [scan_field]; change (expectTag tagFixed PhysicalFixed) with (Ok tt : cres unit);
    cbn [mbind go_bind]; by rewrite skip_here by apply zlen_uuid_bytes.
Qed.

Lemma scan_ts p m rest v :
  scan_field fn 4 tagInt64 (here p (putLe64s m ++ rest)) v = Ok (here (p ++ putLe64s m) rest, v).
Proof.
  cbn [scan_field]. change (expectTag tagInt64 PhysicalInt64) with (Ok tt : cres unit). cbn [mbind go_bind].
  by rewrite skip_here by apply zlen_put64s.
Qed.

Lemma scan_tree p h rest v : hash_wf h ->
  scan_field fn 7 tagFixed (here p (HashBytes h ++ rest)) v = Ok (here (p ++ HashBytes h) rest, v).
Proof.
  intros Hh. cbn [scan_field]. change (expectTag tagFixed PhysicalFixed) with (Ok tt : cres unit). cbn [mbind go_bind].
  by rewrite skip_here by by apply zlen_hash.
Qed.

Lemma scan_nullable p h rest id v : hash_wf h -> id = 8 \/ id = 10 ->
  scan_field fn id tagUnion (here p ((x01 :: HashBytes h) ++ rest)) v = Ok (here (p ++ x01 :: HashBytes h) rest, v).
Proof.
  intros Hh Hid. destruct Hid as [-> | ->]; cbn [scan_field app]; change (expectTag tagUnion PhysicalUnion) with (Ok tt : cres unit);
    cbn [mbind go_bind]; unfold nullableHash; rewrite sbyte_here; cbn [mbind go_bind];
    change (b2z x01 =? 0) with false; change (b2z x01 =? 1) with true; cbn iota;
    rewrite skip_here by (by apply zlen_hash); cbn [mbind go_bind]; by rewrite <- app_assoc.
Qed.

Lemma scan_parents p hs rest v : Forall hash_wf hs -> zlen hs < 2 ^ 32 ->
  scan_field fn 1 tagArray (here p ((leb32 (zlen hs) ++ concat (map HashBytes hs)) ++ rest)) v =
  Ok (here (p ++ leb32 (zlen hs) ++ concat (map HashBytes hs)) rest, v).
Proof.
  intros Hh Hz. pose proof (zlen_nonneg hs). pose proof (zlen_nonneg rest). cbn [scan_field].
  change (expectTag tagArray PhysicalArray) with (Ok tt : cres unit). cbn [mbind go_bind].
  unfold leb32. rewrite wrapu_id by (unfold is_u; lia). rewrite <- app_assoc, uvarint_here by (unfold is_u; lia). cbn [mbind go_bind].
  rewrite here_left, zlen_app, zlen_hashes by done.
  destruct (Z.ltb_spec ((32 * zlen hs + zlen rest) / 32) (zlen hs)); [zdm|].
  rewrite here_raw, here_pos, (app_assoc p), <- here_move, zlen_hashes by done. do 3 f_equal. lia.
Qed.

Lemma zlen_ops ops : zlen ops <= zlen (concat (map op_bytes ops)).
Proof.
  induction ops as [|op ops IH]; [done|]. cbn [map concat]. rewrite zlen_app, zlen_cons. unfold op_bytes at 1. rewrite zlen_cons.
  pose proof (zlen_nonneg (prefixed (op_body op))). lia.
Qed.

Lemma scan_operations p ops rest v : Forall op_sized ops -> Forall (fun op => zlen (op_body op) < 2 ^ 32) ops -> zlen ops < 2 ^ 32 ->
  scan_field fn 6 tagArray (here p ((leb32 (zlen ops) ++ concat (map op_bytes ops)) ++ rest)) v =
  Ok (here (p ++ leb32 (zlen ops) ++ concat (map op_bytes ops)) rest, visit_ops ops v).
Proof.
  intros Hs Hb Hz. pose proof (zlen_nonneg ops). cbn [scan_field].
  change (expectTag tagArray PhysicalArray) with (Ok tt : cres unit). cbn [mbind go_bind]. unfold scanOperations.
  unfold leb32. rewrite wrapu_id by (unfold is_u; lia). rewrite <- app_assoc, uvarint_here by (unfold is_u; lia). cbn [mbind go_bind].
  rewrite here_left, zlen_app. pose proof (zlen_ops ops). pose proof (zlen_nonneg rest).
  destruct (Z.ltb_spec (zlen (concat (map op_bytes ops)) + zlen rest) (zlen ops)); [lia|].
  unfold zlen at 1. rewrite Nat2Z.id. rewrite scan_ops_bytes by done. by rewrite <- app_assoc.
Qed.

Lemma zlen_op_bodies ops n : zlen (concat (map op_bytes ops)) < n -> Forall (fun op => zlen (op_body op) < n) ops.
Proof.
  induction ops as [|op ops IH]; intros H; [constructor|]. cbn [map concat] in H. rewrite zlen_app in H.
  pose proof (zlen_nonneg (op_bytes op)). pose proof (zlen_nonneg (concat (map op_bytes ops))).
  assert (zlen (op_body op) <= zlen (op_bytes op)).
  { unfold op_bytes, prefixed. rewrite zlen_cons, zlen_app. pose proof (zlen_nonneg (leb32 (zlen (op_body op)))). lia. }
  constructor; [lia|apply IH; lia].
Qed.

(** The sizes of the parts of a payload. *)
Lemma payload_parts c n : sized c -> zlen (payload_body c) < n ->
  zlen (ParentHashes c) < n /\ zlen (NamespaceID c) < n /\ zlen (Operations c) < n /\
  Forall (fun op => zlen (op_body op) < n) (Operations c) /\ zlen (Message c) < n.
Proof.
  intros Hs Hz. apply sized_inv in Hs as (Hp & _). unfold payload_body, prefixed in Hz. rewrite !zlen_app in Hz.
  rewrite zlen_hashes in Hz by done. pose proof (zlen_ops (Operations c)) as Hops.
  repeat match type of Hz with context [zlen ?l] =>
    lazymatch goal with H : 0 <= zlen l |- _ => fail | _ => pose proof (zlen_nonneg l) end end.
  split_and!; [lia|lia|lia|apply zlen_op_bodies; lia|lia].
Qed.

(** A nullable hash takes a step or none, and is not required. *)
Lemma scan_optional n p b h rest seen v : b = x08 \/ b = x0a -> Forall hash_wf (option_list h) ->
  exists n' p' seen', (n <= n')%nat /\ Z.land seen' required = Z.land seen required /\
    scan_fields fn (S n) (here p (nullable_bytes b h ++ rest)) seen v = scan_fields fn n' (here p' rest) seen' v.
Proof.
  intros Hb Hh. destruct h as [h|].
  - apply Forall_cons in Hh as [Hh _]. eexists n, _, (Z.lor seen (Z.shiftl 1 (b2z b))). split_and!; [done| |].
    + rewrite Z.land_lor_distr_l. destruct Hb as [-> | ->]; by rewrite Z.lor_0_r.
    + change (nullable_bytes b (Some h)) with ([b; tagUnion] ++ x01 :: HashBytes h). rewrite <- app_assoc.
      apply scan_step; [by destruct Hb as [-> | ->]|]. intros. apply scan_nullable; [done|]. destruct Hb as [-> | ->]; auto.
  - exists (S n), p, seen. split_and!; [lia|done|done].
Qed.

Lemma scan_tail c n p seen v :
  Forall hash_wf (option_list (SchemaHash c)) -> Forall hash_wf (option_list (AttachmentTreeHash c)) -> zlen (Message c) < 2 ^ 32 ->
  exists seen', Z.land seen' required = Z.land (Z.lor seen (Z.shiftl 1 9)) required /\
    scan_fields fn (S (S (S n))) (here p (nullable_bytes x08 (SchemaHash c) ++ [x09; tagString] ++ prefixed (Message c) ++
      nullable_bytes x0a (AttachmentTreeHash c))) seen v = Ok (seen', v).
Proof.
  intros Hs Ha Hm.
  edestruct (scan_optional (S (S n)) p x08 (SchemaHash c)) as (n1 & p1 & seen1 & Hn1 & L1 & ->); [auto|done|].
  destruct n1 as [|n1]; [lia|].
  rewrite (scan_step _ _ x09 _ _ _ _ _ v) by (done || intros; apply scan_string; auto). destruct n1 as [|n1]; [lia|].
  rewrite <- (app_nil_r (nullable_bytes x0a _)).
  edestruct (scan_optional n1) as (n2 & p2 & seen2 & Hn2 & L2 & ->); [auto|exact Ha|].
  exists seen2. split; [by rewrite L2, !Z.land_lor_distr_l, L1|]. destruct n2; cbn [scan_fields]; by rewrite here_end.
Qed.

Lemma scan_fields_payload c k v : sized c -> Forall op_sized (Operations c) -> zlen (payload_body c) < 2 ^ 32 -> (10 <= k)%nat ->
  exists seen, scan_fields fn k (here [] (payload_body c)) 0 v = Ok (seen, visit_ops (Operations c) v) /\
    Z.land seen required = required.
Proof.
  intros Hs Ho Hz Hk. destruct (payload_parts c _ Hs Hz) as (Z1 & Z2 & Z3 & Z4 & Z5).
  apply sized_inv in Hs as (Hp & _ & Ht & Hsc & Ha).
  assert (exists k', k = S (S (S (S (S (S (S (S (S (S k')))))))))) as [k' ->] by (exists (k - 10)%nat; lia).
  unfold payload_body. rewrite !(app_assoc (leb32 _)).
  rewrite (scan_step _ _ x01 _ _ _ _ _ v) by (done || intros; by apply scan_parents).
  rewrite (scan_step _ _ x02 _ _ _ _ _ v) by (done || intros; apply scan_string; auto).
  rewrite (scan_step _ _ x03 _ _ _ _ _ v) by (done || intros; apply scan_uuid; auto).
  rewrite (scan_step _ _ x04 _ _ _ _ _ v) by (done || intros; apply scan_ts).
  rewrite (scan_step _ _ x05 _ _ _ _ _ v) by (done || intros; apply scan_uuid; auto).
  rewrite (scan_step _ _ x06 _ _ _ _ _ (visit_ops (Operations c) v)) by (done || intros; by apply scan_operations).
  rewrite (scan_step _ _ x07 _ _ _ _ _ (visit_ops (Operations c) v)) by (done || intros; by apply scan_tree).
  edestruct (scan_tail c) as (seen & L & ->); [done..|]. exists seen. by split.
Qed.

Lemma scanWrites_payload c a : sized c -> Forall op_sized (Operations c) -> zlen (prefixed (payload_body c)) < 2 ^ 32 ->
  scanWrites fn (prefixed (payload_body c)) a = Ok (visit_ops (Operations c) (a, false)).1.
Proof.
  intros Hs Ho Hz. unfold prefixed in Hz. rewrite zlen_app in Hz. pose proof (zlen_nonneg (leb32 (zlen (payload_body c)))).
  unfold scanWrites. change (mkScan (prefixed (payload_body c)) 0) with (here [] (prefixed (payload_body c))).
  rewrite <- (app_nil_r (prefixed (payload_body c))) at 1. rewrite lenPrefixed_here by lia. cbn [mbind go_bind].
  rewrite here_pos, Z.eqb_refl. cbn [negb]. change (mkScan (payload_body c) 0) with (here [] (payload_body c)).
  destruct (scan_fields_payload c (length (payload_body c)) (a, false)) as (seen & -> & L); [done|done|lia| |].
  { unfold payload_body. rewrite !length_app. cbn [length]. lia. }
  cbn [mbind go_bind]. by rewrite L, Z.eqb_refl.
Qed.

End Visit.

(** The patches of one document, in order. *)
Definition patches_of (docID : UUID) (ops : list Op) : list bytes :=
  omap (fun op => match op with WriteOp id patch _ => if bool_decide (id = docID) then Some patch else None | _ => None end) ops.

Fixpoint visit_patches {A} (fn : A -> bytes -> A * bool) (ps : list bytes) (a : A) : A :=
  match ps with [] => a | p :: ps => let '(a, more) := fn a p in if more then visit_patches fn ps a else a end.

Lemma visit_ops_stopped {A} (fn : A -> UUID -> bytes -> A * bool) ops a : visit_ops fn ops (a, true) = (a, true).
Proof. induction ops as [|[] ops IH]; simpl; auto. Qed.

Lemma visit_ops_patches {A} (fn : A -> bytes -> A * bool) docID ops a :
  (visit_ops (fun a id patch => if bool_decide (id = docID) then fn a patch else (a, true)) ops (a, false)).1 =
  visit_patches fn (patches_of docID ops) a.
Proof.
  revert a. induction ops as [|op ops IH]; intros a; [done|]. destruct op; cbn [visit_ops patches_of omap list_omap]; try apply IH.
  cbn [fst snd]. case_bool_decide; [|apply IH]. cbn [visit_patches]. destruct (fn a Patch) as [a' [|]]; [apply IH|].
  by rewrite visit_ops_stopped.
Qed.

(** On the payload of a commit the scanner calls the visitor on every
    write, in order, until it asks to stop, and for one document on exactly
    that document's patches; it decodes nothing and never fails. *)
Theorem scan_visits_writes {A} (fn : A -> UUID -> bytes -> A * bool) (fn' : A -> bytes -> A * bool) docID c b a :
  commit_wf c -> ToPayloadBytes c = Ok b -> zlen b < 2 ^ 32 ->
  ScanAllCommitWrites b fn a = Ok (visit_ops fn (Operations c) (a, false)).1 /\
  ScanCommitWrites b docID fn' a = Ok (visit_patches fn' (patches_of docID (Operations c)) a).
Proof.
  intros (Hs & _ & Ho & _) Hb Hz. apply ToPayloadBytes_layout in Hb as ->; [|done].
  unfold ScanAllCommitWrites, ScanCommitWrites. rewrite !scanWrites_payload by done. by rewrite visit_ops_patches.
Qed.

Lemma scan_visits_writes_witness :
  ScanCommitWrites sample_bytes (mkUUID 1 2) (fun n p => (n + zlen p, true)) 0 = Ok 2.
Proof.
  exact (proj2 (scan_visits_writes (fun a _ _ => (a, true)) (fun n p => (n + zlen p, true)) (mkUUID 1 2) sample_built sample_bytes 0
    sample_commit_wf sample_encodes eq_refl)).
Defined.

(** A payload whose operations field is there twice: first with the writes of
    the sample, then empty. *)
Definition repeated_payload : bytes :=
  Eval vm_compute in prefixed (payload_body sample_built ++ [x06; tagArray] ++ leb32 0).

(** On a payload that repeats the operations field the scanner and the
    decoder disagree: the commit decoded has no operations, and the scanner
    reports a patch. *)
Theorem scan_sees_replaced_operations :
  match FromPayloadBytes repeated_payload with Ok c => bool_decide (patches_of (mkUUID 1 2) (Operations c) = []) | _ => false end = true /\
  match ScanCommitWrites repeated_payload (mkUUID 1 2) (fun n _ => (n + 1, true)) 0 with Ok n => n | _ => 0 end = 1.
Proof. vm_compute. split; reflexivity. Qed.

End CommitScan.
