(* ===== verification/KeyEnc.v ===== *)
(** Index keys: [index/key.go] (the key type and [CompareKeys]) and
    [index/keyenc.go] (the order-preserving byte encoding of keys).  A float is
    its IEEE bits. *)

From S2P Require Import Prelude Primitives.

Module KeyEnc.

Inductive Key :=
  | NullKey
  | BoolKey (Value : bool)
  | Int32Key (Value : Z)
  | Int64Key (Value : Z)
  | Float64Key (bits : Z)
  | TimestampKey (EpochMillis : Z)
  | StringKey (Value : bytes)
  | UUIDKey (ID : UUID)
  | VectorKey (embedding : list Z)
  | CompositeKey (Parts : list Key).

Definition keyTag (k : Key) : Z :=
  match k with
  | NullKey => 0 | BoolKey _ => 1 | Int32Key _ => 2 | Int64Key _ => 3 | Float64Key _ => 4
  | TimestampKey _ => 5 | StringKey _ => 6 | UUIDKey _ => 7 | VectorKey _ => 8 | CompositeKey _ => 9
  end.

(** ** Floats by their bits

    [w] is the width and [m] the bits of the mantissa: 64 and 52, or 32 and 23. *)

Definition magnitude (w b : Z) : Z := b mod 2 ^ (w - 1).
Definition negative (w b : Z) : bool := 2 ^ (w - 1) <=? b.
(** The exponent is all ones and the mantissa is not zero. *)
Definition isNaN (w m b : Z) : bool := 2 ^ (w - 1) - 2 ^ m <? magnitude w b.
(** The order of floats that are not NaN is that of their signed magnitudes. *)
Definition float_rank (w b : Z) : Z := if negative w b then - magnitude w b else magnitude w b.
Definition float_lt (w m a b : Z) : bool :=
  negb (isNaN w m a) && negb (isNaN w m b) && (float_rank w a <? float_rank w b).

Definition lt64 : Z -> Z -> bool := float_lt 64 52.
Definition lt32 : Z -> Z -> bool := float_lt 32 23.

(** [math.NaN()], and its conversion to float32. *)
Definition NaN64 : Z := 0x7FF8000000000001.
Definition NaN32 : Z := 0x7FC00000.

(** ** Comparison *)

(** [strings.Compare] and [bytes.Compare]. *)
Fixpoint bytes_compare (a b : bytes) : comparison :=
  match a, b with
  | [], [] => Eq
  | [], _ :: _ => Lt
  | _ :: _, [] => Gt
  | x :: a, y :: b => match b2z x ?= b2z y with Eq => bytes_compare a b | c => c end
  end.
Definition sign (c : comparison) : Z := match c with Lt => -1 | Eq => 0 | Gt => 1 end.

(** [if a < b { return -1 }; if a > b { return 1 }; return 0] *)
Definition three_way {A} (lt : A -> A -> bool) (a b : A) : Z := if lt a b then -1 else if lt b a then 1 else 0.

Fixpoint compare_vectors (a b : list Z) : Z :=
  match a, b with
  | [], [] => 0
  | [], _ :: _ => -1
  | _ :: _, [] => 1
  | x :: a, y :: b => if lt32 x y then -1 else if lt32 y x then 1 else compare_vectors a b
  end.

Fixpoint CompareKeys (a b : Key) {struct a} : Z :=
  if negb (keyTag a =? keyTag b) then keyTag a - keyTag b
  else
    match a, b with
    | BoolKey x, BoolKey y => if Bool.eqb x y then 0 else if x then 1 else -1
    | Int32Key x, Int32Key y => three_way Z.ltb x y
    | Int64Key x, Int64Key y => three_way Z.ltb x y
    | Float64Key x, Float64Key y => three_way lt64 x y
    | TimestampKey x, TimestampKey y => three_way Z.ltb x y
    | StringKey x, StringKey y => sign (bytes_compare x y)
    | UUIDKey x, UUIDKey y => sign (bytes_compare (UUIDString x) (UUIDString y))
    | VectorKey x, VectorKey y => compare_vectors x y
    | CompositeKey xs, CompositeKey ys =>
      (fix parts (xs ys : list Key) : Z :=
         match xs, ys with
         | [], [] => 0
         | [], _ :: _ => -1
         | _ :: _, [] => 1
         | x :: xs, y :: ys => let c := CompareKeys x y in if negb (c =? 0) then c else parts xs ys
         end) xs ys
    | _, _ => 0
    end.

(** ** Encoding *)

Definition order_float (w b : Z) : Z :=
  if negb (Z.land b (2 ^ (w - 1)) =? 0) then wrapu w (Z.lnot b) else Z.lor b (2 ^ (w - 1)).
Definition unorder_float (w u : Z) : Z :=
  if negb (Z.land u (2 ^ (w - 1)) =? 0) then Z.ldiff u (2 ^ (w - 1)) else wrapu w (Z.lnot u).

Definition orderFloat64 (b : Z) : Z := order_float 64 (if isNaN 64 52 b then NaN64 else b).
Definition unorderFloat64 (u : Z) : Z := unorder_float 64 u.
Definition orderFloat32 (b : Z) : Z := order_float 32 (if isNaN 32 23 b then NaN32 else b).
Definition unorderFloat32 (u : Z) : Z := unorder_float 32 u.

Fixpoint escape (s : bytes) : bytes :=
  match s with
  | [] => []
  | c :: s => if b2z c =? 0 then c :: xff :: escape s else c :: escape s
  end.

Fixpoint appendKeyEnc (k : Key) (dst : bytes) {struct k} : bytes :=
  match k with
  | BoolKey v => (dst ++ [x01]) ++ [if v then x01 else x00]
  | Int32Key v => (dst ++ [x02]) ++ be_bytes 4 (Z.lxor (wrapu 32 v) (2 ^ 31))
  | Int64Key v => (dst ++ [x03]) ++ be_bytes 8 (Z.lxor (wrapu 64 v) (2 ^ 63))
  | Float64Key b => (dst ++ [x04]) ++ be_bytes 8 (orderFloat64 b)
  | TimestampKey v => (dst ++ [x05]) ++ be_bytes 8 (Z.lxor (wrapu 64 v) (2 ^ 63))
  | StringKey s => ((dst ++ [x06]) ++ escape s) ++ [x00; x01]
  | UUIDKey u => ((dst ++ [x07]) ++ be_bytes 8 (MSB u)) ++ be_bytes 8 (LSB u)
  | VectorKey v =>
    foldl (fun dst f => (dst ++ [x01]) ++ be_bytes 4 (orderFloat32 f)) (dst ++ [x08]) v ++ [x00]
  | CompositeKey parts =>
    (fix all (ps : list Key) (dst : bytes) : bytes :=
       match ps with [] => dst | p :: ps => all ps (appendKeyEnc p (dst ++ [x01])) end) parts (dst ++ [x09]) ++ [x00]
  | NullKey => dst ++ [x00]
  end.

(** ** Decoding *)

Inductive key_error := errKeyEncoding | KeyOutOfFuel.
Abbreviation kres := (go key_error).

Definition need {A} (n : nat) (b : bytes) (k : kres A) : kres A :=
  if (length b <? n)%nat then Err errKeyEncoding else k.

(** The loop over an escaped string. *)
Fixpoint decode_string (b : bytes) (out : bytes) : kres (bytes * bytes) :=
  match b with
  | [] => Err errKeyEncoding
  | c :: b =>
    if negb (b2z c =? 0) then decode_string b (out ++ [c])
    else
      match b with
      | [] => Err errKeyEncoding
      | d :: b =>
        if b2z d =? 255 then decode_string b (out ++ [x00])
        else if b2z d =? 1 then Ok (out, b)
        else Err errKeyEncoding
      end
  end.

(** The loop over the elements of a vector; [n] bounds its rounds. *)
Fixpoint decode_vector (n : nat) (b : bytes) (vec : list Z) : kres (list Z * bytes) :=
  match n with
  | O => Err KeyOutOfFuel
  | S n =>
    match b with
    | [] => Err errKeyEncoding
    | c :: rest =>
      if b2z c =? 0 then Ok (vec, rest)
      else if negb (b2z c =? 1) || (length b <? 5)%nat then Err errKeyEncoding
      else decode_vector n (drop 4 rest) (vec ++ [unorderFloat32 (be_val (take 4 rest))])
    end
  end.

Section Parts.
Context (decodeKey : bytes -> kres (Key * bytes)).
(** The loop over the parts of a composite key. *)
Fixpoint decode_parts (n : nat) (b : bytes) (parts : list Key) : kres (list Key * bytes) :=
  match n with
  | O => Err KeyOutOfFuel
  | S n =>
    match b with
    | [] => Err errKeyEncoding
    | c :: rest =>
      if b2z c =? 0 then Ok (parts, rest)
      else if negb (b2z c =? 1) then Err errKeyEncoding
      else '(p, rest) ← decodeKey rest; decode_parts n rest (parts ++ [p])
    end
  end.
End Parts.

(** The recursion is on the bytes after a tag, so the length bounds its depth. *)
Fixpoint decode_key (fuel : nat) (b : bytes) : kres (Key * bytes) :=
  match fuel, b with
  | O, _ => Err KeyOutOfFuel
  | _, [] => Err errKeyEncoding
  | S fuel, tag :: b =>
    let u n := be_val (take n b) in
    match b2z tag with
    | 0 => Ok (NullKey, b)
    | 1 => need 1 b (Ok (BoolKey (bool_decide (take 1 b = [x01])), drop 1 b))
    | 2 => need 4 b (Ok (Int32Key (wraps 32 (Z.lxor (u 4%nat) (2 ^ 31))), drop 4 b))
    | 3 => need 8 b (Ok (Int64Key (wraps 64 (Z.lxor (u 8%nat) (2 ^ 63))), drop 8 b))
    | 4 => need 8 b (Ok (Float64Key (unorderFloat64 (u 8%nat)), drop 8 b))
    | 5 => need 8 b (Ok (TimestampKey (wraps 64 (Z.lxor (u 8%nat) (2 ^ 63))), drop 8 b))
    | 6 => '(s, rest) ← decode_string b []; Ok (StringKey s, rest)
    | 7 => need 16 b (Ok (UUIDKey (mkUUID (wraps 64 (u 8%nat)) (wraps 64 (be_val (take 8 (drop 8 b))))), drop 16 b))
    | 8 => '(v, rest) ← decode_vector (S (length b)) b []; Ok (VectorKey v, rest)
    | 9 => '(ps, rest) ← decode_parts (decode_key fuel) (S (length b)) b []; Ok (CompositeKey ps, rest)
    | _ => Err errKeyEncoding
    end
  end.

Definition decodeKeyEnc (b : bytes) : kres (Key * bytes) := decode_key (S (length b)) b.

End KeyEnc.
