(* ===== verification/KeyOrder.v ===== *)
(** The key encoding preserves the order of keys, and decodes to the key. *)

From S2P Require Import Prelude Primitives KeyEnc.
Import KeyEnc.

Module KeyOrder.

(** ** Lexicographic comparison *)

Definition after (c : comparison) (d : comparison) : comparison := match c with Eq => d | c => c end.

Lemma cmp_same x a b : bytes_compare (x :: a) (x :: b) = bytes_compare a b.
Proof. cbn [bytes_compare]. by rewrite Z.compare_refl. Qed.

Lemma cmp_refl a : bytes_compare a a = Eq.
Proof. induction a as [|x a IH]; [done|]. by rewrite cmp_same. Qed.

Lemma cmp_app a b r s : length a = length b -> bytes_compare (a ++ r) (b ++ s) = after (bytes_compare a b) (bytes_compare r s).
Proof.
  revert b. induction a as [|x a IH]; intros [|y b] Hl; try discriminate; [done|]. cbn [app bytes_compare].
  destruct (b2z x ?= b2z y); [|done|done]. apply IH. simpl in Hl. lia.
Qed.

Lemma le_bytes_snoc n v : le_bytes (S n) v = le_bytes n v ++ [z2b (v / 2 ^ (8 * Z.of_nat n))].
Proof.
  revert v. induction n as [|n IH]; intros v; [cbn; by rewrite Z.div_1_r|].
  change (le_bytes (S (S n)) v) with (z2b v :: le_bytes (S n) (v / 256)). rewrite IH. cbn [le_bytes app]. do 4 f_equal.
  replace (8 * Z.of_nat (S n)) with (8 + 8 * Z.of_nat n) by lia. rewrite Z.pow_add_r, Z.div_div by lia. done.
Qed.

Lemma be_bytes_cons n v : be_bytes (S n) v = z2b (v / 2 ^ (8 * Z.of_nat n)) :: be_bytes n v.
Proof. unfold be_bytes. by rewrite le_bytes_snoc, rev_app_distr. Qed.

Lemma be_bytes_mod n v : be_bytes n (v mod 2 ^ (8 * Z.of_nat n)) = be_bytes n v.
Proof. unfold be_bytes. by rewrite le_bytes_mod. Qed.

Lemma cmp_be_bytes n x y : 0 <= x < 2 ^ (8 * Z.of_nat n) -> 0 <= y < 2 ^ (8 * Z.of_nat n) ->
  bytes_compare (be_bytes n x) (be_bytes n y) = (x ?= y).
Proof.
  revert x y. induction n as [|n IH]; intros x y Hx Hy.
  { change (2 ^ (8 * Z.of_nat 0)) with 1 in *. assert (x = y) as -> by lia. by rewrite Z.compare_refl. }
  rewrite !be_bytes_cons. set (B := 2 ^ (8 * Z.of_nat n)). assert (HB : 0 < B) by (unfold B; lia).
  assert (HS : 2 ^ (8 * Z.of_nat (S n)) = 256 * B).
  { unfold B. replace (8 * Z.of_nat (S n)) with (8 + 8 * Z.of_nat n) by lia. rewrite Z.pow_add_r by lia. done. }
  rewrite HS in *. rewrite <- (be_bytes_mod n x), <- (be_bytes_mod n y). fold B. cbn [bytes_compare].
  assert (Hd : forall v, 0 <= v < 256 * B -> b2z (z2b (v / B)) = v / B).
  { intros v Hv. rewrite b2z_z2b. apply Z.mod_small. split; [apply Z.div_pos; lia|apply Z.div_lt_upper_bound; lia]. }
  rewrite !Hd by done. rewrite IH by (apply Z.mod_pos_bound; lia).
  pose proof (Z.div_mod x B ltac:(lia)) as Ex. pose proof (Z.div_mod y B ltac:(lia)) as Ey.
  pose proof (Z.mod_pos_bound x B HB). pose proof (Z.mod_pos_bound y B HB).
  destruct (Z.compare_spec (x / B) (y / B)) as [E|L|G].
  - rewrite E in Ex. destruct (Z.compare_spec (x mod B) (y mod B)), (Z.compare_spec x y); try done; lia.
  - symmetry. apply Z.compare_lt_iff. nia.
  - symmetry. apply Z.compare_gt_iff. nia.
Qed.

Lemma cmp_be n x y r s : 0 <= x < 2 ^ (8 * Z.of_nat n) -> 0 <= y < 2 ^ (8 * Z.of_nat n) ->
  bytes_compare (be_bytes n x ++ r) (be_bytes n y ++ s) = after (x ?= y) (bytes_compare r s).
Proof. intros Hx Hy. rewrite cmp_app by (by rewrite !be_bytes_length). by rewrite cmp_be_bytes. Qed.

Lemma cmp_escape a b r s :
  bytes_compare (escape a ++ [x00; x01] ++ r) (escape b ++ [x00; x01] ++ s) = after (bytes_compare a b) (bytes_compare r s).
Proof.
  revert b. induction a as [|x a IH]; intros [|y b]; cbn [escape app]; [done|..].
  - pose proof (b2z_range y). destruct (Z.eqb_spec (b2z y) 0) as [E|E]; cbn [app bytes_compare after].
    + rewrite E. done.
    + change (b2z x00) with 0. destruct (Z.compare_spec 0 (b2z y)); [lia|done|lia].
  - pose proof (b2z_range x). destruct (Z.eqb_spec (b2z x) 0) as [E|E]; cbn [app bytes_compare after].
    + rewrite E. done.
    + change (b2z x00) with 0. destruct (Z.compare_spec (b2z x) 0); [lia|lia|done].
  - pose proof (b2z_range x). pose proof (b2z_range y).
    destruct (Z.eqb_spec (b2z x) 0) as [E|E], (Z.eqb_spec (b2z y) 0) as [E'|E']; cbn [app bytes_compare after].
    + rewrite E, E'. cbn [Z.compare]. rewrite Z.compare_refl. apply IH.
    + rewrite E. destruct (Z.compare_spec 0 (b2z y)); [lia|done|lia].
    + rewrite E'. destruct (Z.compare_spec (b2z x) 0); [lia|lia|done].
    + destruct (b2z x ?= b2z y); [apply IH|done|done].
Qed.

(** ** Numbers *)

Lemma lxor_top u k : 0 <= k -> 0 <= u < 2 ^ k -> Z.lxor u (2 ^ k) = u + 2 ^ k.
Proof.
  intros Hk Hu. rewrite Z.add_nocarry_lxor; [done|]. apply Z.bits_inj_0. intros i. rewrite Z.land_spec.
  destruct (Z.testbit (2 ^ k) i) eqn:E; [|apply andb_false_r]. rewrite Z.pow2_bits_eqb in E by lia. apply Z.eqb_eq in E as <-.
  rewrite Z.testbit_eqb by lia. rewrite Z.div_small by lia. done.
Qed.

(** Flipping the sign bit of a two's-complement number moves it up by half the range. *)
Lemma flip_sign w v : 0 < w -> is_s w v -> Z.lxor (wrapu w v) (2 ^ (w - 1)) = v + 2 ^ (w - 1).
Proof.
  intros Hw Hv. unfold is_s in Hv. pose proof (pow2_split w ltac:(lia)). unfold wrapu. destruct (Z.le_gt_cases 0 v).
  - rewrite Z.mod_small by lia. apply lxor_top; lia.
  - assert (v mod 2 ^ w = v + 2 ^ w) as -> by (rewrite <- (Z.mod_add v 1) by lia; rewrite Z.mod_small; lia).
    replace (v + 2 ^ w) with ((v + 2 ^ (w - 1)) + 2 ^ (w - 1)) by lia.
    rewrite <- (lxor_top (v + 2 ^ (w - 1)) (w - 1)) by lia. rewrite Z.lxor_assoc, Z.lxor_nilpotent, Z.lxor_0_r. done.
Qed.

Lemma top_bit w u : 0 < w -> is_u w u -> (Z.land u (2 ^ (w - 1)) =? 0) = (u <? 2 ^ (w - 1)).
Proof.
  intros Hw Hu. unfold is_u in Hu. pose proof (pow2_split w ltac:(lia)). destruct (Z.ltb_spec u (2 ^ (w - 1))).
  - apply Z.eqb_eq. apply Z.bits_inj_0. intros i. rewrite Z.land_spec.
    destruct (Z.testbit (2 ^ (w - 1)) i) eqn:E; [|apply andb_false_r]. rewrite Z.pow2_bits_eqb in E by lia. apply Z.eqb_eq in E as <-.
    rewrite Z.testbit_eqb by lia. rewrite Z.div_small by lia. done.
  - apply Z.eqb_neq. intros E. assert (T : Z.testbit (Z.land u (2 ^ (w - 1))) (w - 1) = true); [|by rewrite E, Z.bits_0 in T].
    rewrite Z.land_spec, Z.pow2_bits_true, andb_true_r by lia. rewrite Z.testbit_eqb by lia.
    assert (u / 2 ^ (w - 1) = 1) as -> by (symmetry; apply Z.div_unique with (u - 2 ^ (w - 1)); lia). done.
Qed.

Lemma order_float_value w b : 0 < w -> is_u w b ->
  order_float w b = if negative w b then 2 ^ w - 1 - b else b + 2 ^ (w - 1).
Proof.
  intros Hw Hb. unfold order_float, negative. rewrite top_bit by done. unfold is_u in Hb. pose proof (pow2_split w ltac:(lia)).
  destruct (Z.ltb_spec b (2 ^ (w - 1))), (Z.leb_spec (2 ^ (w - 1)) b); try lia; cbn [negb].
  - rewrite <- (lxor_top b) by lia. symmetry. apply Z.lxor_lor. apply Z.bits_inj_0. intros i. rewrite Z.land_spec.
    destruct (Z.testbit (2 ^ (w - 1)) i) eqn:E; [|apply andb_false_r]. rewrite Z.pow2_bits_eqb in E by lia. apply Z.eqb_eq in E as <-.
    rewrite Z.testbit_eqb by lia. rewrite Z.div_small by lia. done.
  - unfold wrapu, Z.lnot. rewrite <- (Z.mod_add _ 1) by lia. rewrite Z.mod_small; lia.
Qed.

(** Floats whose order the encoding keeps: all but NaN and the negative zero. *)
Definition plain_float (w m b : Z) : Prop := is_u w b /\ isNaN w m b = false /\ b <> 2 ^ (w - 1).

Lemma order_float_compare w m a b : 0 < w -> plain_float w m a -> plain_float w m b ->
  (order_float w a ?= order_float w b) = (float_rank w a ?= float_rank w b).
Proof.
  intros Hw (Ha & _ & Na) (Hb & _ & Nb). rewrite !order_float_value by done. pose proof (pow2_split w ltac:(lia)).
  unfold float_rank, negative, magnitude, is_u in *.
  assert (M : forall x, 0 <= x < 2 ^ w -> 2 ^ (w - 1) <= x -> x mod 2 ^ (w - 1) = x - 2 ^ (w - 1)).
  { intros x Hx Hl. rewrite <- (Z.mod_add x (-1)) by lia. rewrite Z.mod_small; lia. }
  destruct (Z.leb_spec (2 ^ (w - 1)) a), (Z.leb_spec (2 ^ (w - 1)) b); rewrite ?(M a), ?(M b), ?(Z.mod_small a (2 ^ (w - 1))), ?(Z.mod_small b (2 ^ (w - 1))) by lia.
  - destruct (Z.compare_spec (2 ^ w - 1 - a) (2 ^ w - 1 - b)), (Z.compare_spec (- (a - 2 ^ (w - 1))) (- (b - 2 ^ (w - 1)))); try done; lia.
  - destruct (Z.compare_spec (2 ^ w - 1 - a) (b + 2 ^ (w - 1))), (Z.compare_spec (- (a - 2 ^ (w - 1))) b); try done; lia.
  - destruct (Z.compare_spec (a + 2 ^ (w - 1)) (2 ^ w - 1 - b)), (Z.compare_spec a (- (b - 2 ^ (w - 1)))); try done; lia.
  - destruct (Z.compare_spec (a + 2 ^ (w - 1)) (b + 2 ^ (w - 1))), (Z.compare_spec a b); try done; lia.
Qed.

Lemma order_float_range w b : 0 < w -> is_u w b -> 0 <= order_float w b < 2 ^ w.
Proof.
  intros Hw Hb. rewrite order_float_value by done. unfold is_u in Hb. pose proof (pow2_split w ltac:(lia)). unfold negative.
  destruct (Z.leb_spec (2 ^ (w - 1)) b); lia.
Qed.

Lemma float_three_way w m a b : plain_float w m a -> plain_float w m b ->
  (three_way (float_lt w m) a b ?= 0) = (float_rank w a ?= float_rank w b).
Proof.
  intros (_ & Na & _) (_ & Nb & _). unfold three_way, float_lt. rewrite Na, Nb. cbn [negb andb].
  destruct (Z.ltb_spec (float_rank w a) (float_rank w b)), (Z.ltb_spec (float_rank w b) (float_rank w a)),
    (Z.compare_spec (float_rank w a) (float_rank w b)); try done; lia.
Qed.

Lemma three_way_compare a b : (three_way Z.ltb a b ?= 0) = (a ?= b).
Proof. unfold three_way. destruct (Z.ltb_spec a b), (Z.ltb_spec b a), (Z.compare_spec a b); try done; lia. Qed.
Lemma sign_compare c : (sign c ?= 0) = c.
Proof. by destruct c. Qed.

(** ** UUIDs *)

Lemma hex_digit_compare m n : 0 <= m < 16 -> 0 <= n < 16 -> (b2z (hex_digit m) ?= b2z (hex_digit n)) = (m ?= n).
Proof.
  intros Hm Hn. unfold hex_digit.
  destruct (Z.ltb_spec m 10), (Z.ltb_spec n 10); rewrite !b2z_z2b, !Z.mod_small by lia;
    match goal with |- (?x ?= ?y) = _ => destruct (Z.compare_spec x y), (Z.compare_spec m n); try done; lia end.
Qed.

Lemma cmp_hex a b : length a = length b -> bytes_compare (EncodeToString a) (EncodeToString b) = bytes_compare a b.
Proof.
  revert b. induction a as [|x a IH]; intros [|y b] Hl; try discriminate; [done|]. cbn [EncodeToString bytes_compare].
  pose proof (b2z_range x). pose proof (b2z_range y).
  assert (0 <= b2z x / 16 < 16 /\ 0 <= b2z y / 16 < 16) as [Hx Hy] by zdm.
  rewrite !hex_digit_compare by (done || (apply Z.mod_pos_bound; lia)). rewrite IH by (simpl in Hl; lia).
  pose proof (Z.div_mod (b2z x) 16 ltac:(lia)). pose proof (Z.div_mod (b2z y) 16 ltac:(lia)).
  pose proof (Z.mod_pos_bound (b2z x) 16 ltac:(lia)). pose proof (Z.mod_pos_bound (b2z y) 16 ltac:(lia)).
  destruct (Z.compare_spec (b2z x / 16) (b2z y / 16)); [|destruct (Z.compare_spec (b2z x) (b2z y)); (done || lia)..].
  destruct (Z.compare_spec (b2z x mod 16) (b2z y mod 16)), (Z.compare_spec (b2z x) (b2z y)); try done; lia.
Qed.

Lemma cmp_group a b r s : length a = length b ->
  bytes_compare (EncodeToString a ++ str "-" ++ r) (EncodeToString b ++ str "-" ++ s) = after (bytes_compare a b) (bytes_compare r s).
Proof. intros Hl. rewrite cmp_app, cmp_hex by (rewrite ?EncodeToString_length; lia). done. Qed.

(** The text of a UUID orders as its bytes. *)
Lemma cmp_UUIDString u v : bytes_compare (UUIDString u) (UUIDString v) = bytes_compare (UUIDBytes u) (UUIDBytes v).
Proof.
  rewrite <- (sub_groups (UUIDBytes u)), <- (sub_groups (UUIDBytes v)) at 1 by apply UUIDBytes_length.
  unfold UUIDString. pose proof (UUIDBytes_length u) as Lu. pose proof (UUIDBytes_length v) as Lv.
  generalize dependent (UUIDBytes u). intros a La. generalize dependent (UUIDBytes v). intros b Lb.
  assert (L : forall off n, 0 <= off -> off + Z.of_nat n <= 16 -> length (sub a off n) = length (sub b off n))
    by (intros; rewrite !sub_length; unfold zlen; lia).
  rewrite !cmp_group by (apply L; lia). rewrite cmp_hex by (apply L; lia). rewrite !cmp_app by (apply L; lia). done.
Qed.

(** ** Keys *)

Section KeyInduction.
Context (P : Key -> Prop).
Context (Hnull : P NullKey) (Hbool : forall v, P (BoolKey v)) (Hint32 : forall v, P (Int32Key v)) (Hint64 : forall v, P (Int64Key v)).
Context (Hfloat : forall b, P (Float64Key b)) (Hts : forall v, P (TimestampKey v)) (Hstr : forall s, P (StringKey s)).
Context (Huuid : forall u, P (UUIDKey u)) (Hvec : forall v, P (VectorKey v)).
Context (Hcomp : forall ps, Forall P ps -> P (CompositeKey ps)).

Fixpoint Key_ind' (k : Key) : P k :=
  match k with
  | NullKey => Hnull | BoolKey v => Hbool v | Int32Key v => Hint32 v | Int64Key v => Hint64 v | Float64Key b => Hfloat b
  | TimestampKey v => Hts v | StringKey s => Hstr s | UUIDKey u => Huuid u | VectorKey v => Hvec v
  | CompositeKey ps =>
    Hcomp ps ((fix all (ps : list Key) : Forall P ps :=
        match ps with [] => List.Forall_nil P | p :: ps => @List.Forall_cons Key P p ps (Key_ind' p) (all ps) end) ps)
  end.
End KeyInduction.

(** The numbers of a key are in the range of their type, and its floats satisfy a predicate. *)
Fixpoint key_all (f64 f32 : Z -> Prop) (k : Key) : Prop :=
  match k with
  | NullKey | BoolKey _ | StringKey _ => True
  | Int32Key v => is_s 32 v
  | Int64Key v | TimestampKey v => is_s 64 v
  | Float64Key b => f64 b
  | UUIDKey u => uuid_wf u
  | VectorKey v => Forall f32 v
  | CompositeKey ps => (fix all ps := match ps with [] => True | p :: ps => key_all f64 f32 p /\ all ps end) ps
  end.

Definition key_wf : Key -> Prop := key_all (is_u 64) (is_u 32).
(** No NaN and no negative zero. *)
Definition plain_key : Key -> Prop := key_all (plain_float 64 52) (plain_float 32 23).

Lemma key_all_parts f64 f32 ps : key_all f64 f32 (CompositeKey ps) <-> Forall (key_all f64 f32) ps.
Proof. induction ps as [|p ps IH]; [done|]. rewrite Forall_cons, <- IH. done. Qed.

(** The encoding of a key alone. *)
Definition enc (k : Key) : bytes := appendKeyEnc k [].
Definition elements (v : list Z) : bytes := flat_map (fun f => x01 :: be_bytes 4 (orderFloat32 f)) v.
Definition items (ps : list Key) : bytes := flat_map (fun p => x01 :: enc p) ps.

Lemma append_elements v dst :
  foldl (fun dst f => (dst ++ [x01]) ++ be_bytes 4 (orderFloat32 f)) dst v = dst ++ elements v.
Proof.
  revert dst. induction v as [|f v IH]; intros dst; cbn [foldl elements flat_map]; [by rewrite app_nil_r|].
  rewrite IH. unfold elements. by rewrite <- !app_assoc.
Qed.

Fixpoint append_parts (ps : list Key) (dst : bytes) : bytes :=
  match ps with [] => dst | p :: ps => append_parts ps (appendKeyEnc p (dst ++ [x01])) end.

Lemma append_parts_items ps dst : Forall (fun p => forall dst, appendKeyEnc p dst = dst ++ enc p) ps ->
  append_parts ps dst = dst ++ items ps.
Proof.
  intros H. revert dst. induction H as [|p ps Hp _ IH]; intros dst; cbn [append_parts items flat_map]; [by rewrite app_nil_r|].
  rewrite IH, Hp. unfold items. by rewrite <- !app_assoc.
Qed.

Lemma appendKeyEnc_app k dst : appendKeyEnc k dst = dst ++ enc k.
Proof.
  revert dst. induction k using Key_ind'; intros dst; unfold enc; cbn [appendKeyEnc app]; rewrite <- ?app_assoc; try done.
  - rewrite !append_elements, <- !app_assoc. done.
  - change (append_parts ps (dst ++ [x09]) ++ [x00] = dst ++ append_parts ps [x09] ++ [x00]).
    rewrite !append_parts_items, <- !app_assoc by done. done.
Qed.

Lemma enc_vector v : enc (VectorKey v) = x08 :: elements v ++ [x00].
Proof. unfold enc. cbn [appendKeyEnc]. by rewrite append_elements. Qed.
Lemma enc_composite ps : enc (CompositeKey ps) = x09 :: items ps ++ [x00].
Proof.
  change (append_parts ps [x09] ++ [x00] = x09 :: items ps ++ [x00]). rewrite append_parts_items; [done|].
  apply Forall_forall. intros p _. apply appendKeyEnc_app.
Qed.

Lemma enc_tag k : exists body, enc k = z2b (keyTag k) :: body.
Proof. destruct k; [..|rewrite enc_vector; by eexists|rewrite enc_composite; by eexists]; by eexists. Qed.

(** ** The order *)

Lemma after_assoc c d e : after (after c d) e = after c (after d e).
Proof. by destruct c. Qed.

(** Keys of different types are told apart by their first byte. *)
Lemma tags_apart a b r s : keyTag a <> keyTag b ->
  bytes_compare (enc a ++ r) (enc b ++ s) = after (CompareKeys a b ?= 0) (bytes_compare r s).
Proof.
  intros Hne. assert (T : CompareKeys a b = keyTag a - keyTag b).
  { apply Z.eqb_neq in Hne. destruct a; cbn [CompareKeys]; by rewrite Hne. }
  destruct (enc_tag a) as [x ->], (enc_tag b) as [y ->]. rewrite T. cbn [app bytes_compare].
  assert (R : forall k, b2z (z2b (keyTag k)) = keyTag k) by (by intros []). rewrite !R.
  destruct (Z.compare_spec (keyTag a) (keyTag b)), (Z.compare_spec (keyTag a - keyTag b) 0); try done; lia.
Qed.

Lemma cmp_signed n w a b r s : w = 8 * Z.of_nat n -> 0 < w -> is_s w a -> is_s w b ->
  bytes_compare (be_bytes n (Z.lxor (wrapu w a) (2 ^ (w - 1))) ++ r) (be_bytes n (Z.lxor (wrapu w b) (2 ^ (w - 1))) ++ s)
  = after (three_way Z.ltb a b ?= 0) (bytes_compare r s).
Proof.
  intros -> Hw Ha Hb. rewrite !flip_sign by done. unfold is_s in *. pose proof (pow2_split (8 * Z.of_nat n) ltac:(lia)). rewrite cmp_be by lia.
  rewrite three_way_compare. f_equal.
  destruct (Z.compare_spec a b), (Z.compare_spec (a + 2 ^ (8 * Z.of_nat n - 1)) (b + 2 ^ (8 * Z.of_nat n - 1))); try done; lia.
Qed.

Lemma cmp_float n w m a b r s : w = 8 * Z.of_nat n -> 0 < w -> plain_float w m a -> plain_float w m b ->
  bytes_compare (be_bytes n (order_float w a) ++ r) (be_bytes n (order_float w b) ++ s)
  = after (three_way (float_lt w m) a b ?= 0) (bytes_compare r s).
Proof.
  intros -> Hw Ha Hb. rewrite cmp_be by (apply order_float_range; [done|apply Ha || apply Hb]).
  by rewrite (float_three_way _ m), (order_float_compare _ m).
Qed.

Lemma cmp_vector a b r s : Forall (plain_float 32 23) a -> Forall (plain_float 32 23) b ->
  bytes_compare ((elements a ++ [x00]) ++ r) ((elements b ++ [x00]) ++ s) = after (compare_vectors a b ?= 0) (bytes_compare r s).
Proof.
  intros Ha. revert b. induction Ha as [|x a Hx _ IH]; intros b Hb; destruct Hb as [|y b Hy Hb]; [done..|].
  cbn [elements flat_map app compare_vectors]. rewrite cmp_same, <- !app_assoc.
  unfold orderFloat32. rewrite (proj1 (proj2 Hx)), (proj1 (proj2 Hy)). rewrite (cmp_float 4 32 23) by done.
  fold (elements a) (elements b). rewrite !app_assoc, IH by done. unfold three_way. fold lt32.
  destruct (lt32 x y); [done|]. by destruct (lt32 y x).
Qed.

Fixpoint compare_parts (xs ys : list Key) : Z :=
  match xs, ys with
  | [], [] => 0
  | [], _ :: _ => -1
  | _ :: _, [] => 1
  | x :: xs, y :: ys => let c := CompareKeys x y in if negb (c =? 0) then c else compare_parts xs ys
  end.

Definition ordered (a : Key) : Prop := forall b r s, plain_key a -> plain_key b ->
  bytes_compare (enc a ++ r) (enc b ++ s) = after (CompareKeys a b ?= 0) (bytes_compare r s).

Lemma cmp_parts xs ys r s : Forall ordered xs -> Forall plain_key xs -> Forall plain_key ys ->
  bytes_compare ((items xs ++ [x00]) ++ r) ((items ys ++ [x00]) ++ s) = after (compare_parts xs ys ?= 0) (bytes_compare r s).
Proof.
  intros Ho. revert ys. induction Ho as [|x xs Hx _ IH]; intros ys Pa Pb; destruct Pb as [|y ys Py Pb]; [done..|].
  inversion Pa; subst. cbn [items flat_map app compare_parts]. rewrite cmp_same, <- !app_assoc, Hx by done.
  fold (items xs) (items ys). rewrite !app_assoc, IH by done.
  destruct (Z.eqb_spec (CompareKeys x y) 0) as [E|E]; cbn [negb]; [by rewrite E|].
  destruct (Z.compare_spec (CompareKeys x y) 0); done.
Qed.

Lemma keys_ordered a : ordered a.
Proof.
  induction a using Key_ind'; intros k r t Ha Hb;
    (destruct k; [try (apply tags_apart; discriminate)..]); cbn [CompareKeys keyTag Z.eqb Pos.eqb negb].
  - done.
  - unfold enc. cbn [appendKeyEnc app]. rewrite cmp_same. by destruct v, Value.
  - unfold enc. cbn [appendKeyEnc app]. rewrite cmp_same. by apply (cmp_signed 4 32).
  - unfold enc. cbn [appendKeyEnc app]. rewrite cmp_same. by apply (cmp_signed 8 64).
  - unfold enc. cbn [appendKeyEnc app]. rewrite cmp_same. unfold orderFloat64.
    rewrite (proj1 (proj2 Ha)), (proj1 (proj2 Hb)). by apply (cmp_float 8 64 52).
  - unfold enc. cbn [appendKeyEnc app]. rewrite cmp_same. by apply (cmp_signed 8 64).
  - unfold enc. cbn [appendKeyEnc app]. rewrite cmp_same, <- !app_assoc, cmp_escape, sign_compare. done.
  - unfold enc. cbn [appendKeyEnc app]. rewrite cmp_same, sign_compare, cmp_UUIDString. unfold UUIDBytes.
    rewrite !writeBE64_spec. apply cmp_app. by rewrite !length_app, !be_bytes_length.
  - rewrite !enc_vector. cbn [app]. rewrite cmp_same. by apply cmp_vector.
  - rewrite !enc_composite. cbn [app]. rewrite cmp_same. apply cmp_parts; [done|by apply key_all_parts..].
Qed.

(** ** Decoding *)

(** A key with each NaN replaced by the canonical one. *)
Fixpoint canon (k : Key) : Key :=
  match k with
  | Float64Key b => Float64Key (if isNaN 64 52 b then NaN64 else b)
  | VectorKey v => VectorKey (map (fun b => if isNaN 32 23 b then NaN32 else b) v)
  | CompositeKey ps => CompositeKey (map canon ps)
  | k => k
  end.

Lemma unorder_order w b : 0 < w -> is_u w b -> unorder_float w (order_float w b) = b.
Proof.
  intros Hw Hb. pose proof (order_float_range w b Hw Hb) as R. unfold unorder_float. rewrite top_bit by done.
  rewrite order_float_value in * by done. unfold negative, is_u in *. pose proof (pow2_split w ltac:(lia)).
  destruct (Z.leb_spec (2 ^ (w - 1)) b); cbn [negb].
  - destruct (Z.ltb_spec (2 ^ w - 1 - b) (2 ^ (w - 1))); [|lia]. cbn [negb]. unfold wrapu, Z.lnot.
    rewrite <- (Z.mod_add _ 1) by lia. rewrite Z.mod_small; lia.
  - destruct (Z.ltb_spec (b + 2 ^ (w - 1)) (2 ^ (w - 1))); [lia|]. cbn [negb].
    rewrite <- (lxor_top b) by lia. apply Z.bits_inj'. intros i Hi. rewrite Z.ldiff_spec, Z.lxor_spec, Z.pow2_bits_eqb by lia.
    destruct (Z.eqb_spec (w - 1) i) as [<-|]; cbn [negb]; [|by rewrite xorb_false_r, andb_true_r].
    rewrite andb_false_r. rewrite Z.testbit_eqb, Z.div_small by lia. done.
Qed.

Lemma unorderFloat_order n w m nan b : w = 8 * Z.of_nat n -> 0 < w -> is_u w nan -> is_u w b ->
  unorder_float w (be_val (be_bytes n (order_float w (if isNaN w m b then nan else b)))) = if isNaN w m b then nan else b.
Proof.
  intros -> Hw Hn Hb. assert (is_u (8 * Z.of_nat n) (if isNaN (8 * Z.of_nat n) m b then nan else b)) as H by (by destruct isNaN).
  rewrite be_val_bytes, Z.mod_small by (by apply order_float_range). by apply unorder_order.
Qed.

Lemma unflip n w v : w = 8 * Z.of_nat n -> 0 < w -> is_s w v ->
  wraps w (Z.lxor (be_val (be_bytes n (Z.lxor (wrapu w v) (2 ^ (w - 1))))) (2 ^ (w - 1))) = v.
Proof.
  intros E Hw Hv. assert (R : 0 <= Z.lxor (wrapu w v) (2 ^ (w - 1)) < 2 ^ w).
  { rewrite flip_sign by done. unfold is_s in Hv. pose proof (pow2_split w ltac:(lia)). lia. }
  rewrite be_val_bytes, <- E, Z.mod_small by done. rewrite Z.lxor_assoc, Z.lxor_nilpotent, Z.lxor_0_r.
  rewrite wraps_wrapu by lia. apply wraps_id; [lia|done].
Qed.

Lemma need_app {A} n p q (k : kres A) : length p = n -> need n (p ++ q) k = k.
Proof. intros <-. unfold need. rewrite length_app. destruct (Nat.ltb_spec (length p + length q) (length p)); [lia|done]. Qed.

Lemma decode_string_escape s rest out : decode_string (escape s ++ [x00; x01] ++ rest) out = Ok (out ++ s, rest).
Proof.
  revert out. induction s as [|c s IH]; intros out; [cbn; by rewrite app_nil_r|]. cbn [escape].
  destruct (Z.eqb_spec (b2z c) 0) as [E|E].
  - assert (c = x00) as -> by (by apply b2z_inj). cbn [app decode_string]. change (b2z x00) with 0. change (b2z xff) with 255.
    cbn [Z.eqb Pos.eqb negb]. fold ([x00; x01] ++ rest). rewrite IH, <- app_assoc. done.
  - cbn [app decode_string]. apply Z.eqb_neq in E. rewrite E. cbn [negb]. fold ([x00; x01] ++ rest).
    rewrite IH, <- app_assoc. done.
Qed.

Lemma decode_vector_elements n v rest acc : (length v < n)%nat -> Forall (is_u 32) v ->
  decode_vector n (elements v ++ x00 :: rest) acc = Ok (acc ++ map (fun b => if isNaN 32 23 b then NaN32 else b) v, rest).
Proof.
  revert n acc. induction v as [|f v IH]; intros [|n] acc Hn Hv; cbn [length] in Hn; try lia; [cbn; by rewrite app_nil_r|].
  inversion Hv; subst. cbn [elements flat_map app decode_vector]. change (b2z x01) with 1. cbn [Z.eqb Pos.eqb negb orb].
  rewrite <- app_assoc. assert (L := be_bytes_length 4 (orderFloat32 f)).
  assert ((length (x01 :: be_bytes 4 (orderFloat32 f) ++ flat_map (fun f => x01 :: be_bytes 4 (orderFloat32 f)) v ++ x00 :: rest) <? 5)%nat = false) as ->
    by (apply Nat.ltb_ge; cbn [length]; rewrite length_app; lia).
  rewrite drop_app_length', take_app_length' by done. rewrite (IH n) by (done || lia). rewrite <- app_assoc.
  unfold unorderFloat32, orderFloat32. rewrite (unorderFloat_order 4) by done. done.
Qed.

Definition decodes (k : Key) : Prop := forall fuel rest, key_wf k -> (length (enc k) < fuel)%nat ->
  decode_key fuel (enc k ++ rest) = Ok (canon k, rest).

Lemma decode_parts_items fuel n ps rest acc : Forall decodes ps -> Forall key_wf ps ->
  (length (items ps) < fuel)%nat -> (length ps < n)%nat ->
  decode_parts (decode_key fuel) n (items ps ++ x00 :: rest) acc = Ok (acc ++ map canon ps, rest).
Proof.
  intros Hd. revert n acc. induction Hd as [|p ps Hp _ IH]; intros [|n] acc Hw Hf Hn; cbn [length] in Hn; try lia; [cbn; by rewrite app_nil_r|].
  inversion Hw; subst. cbn [items flat_map app length] in Hf. rewrite length_app in Hf. fold (items ps) in Hf.
  cbn [items flat_map app decode_parts]. fold (items ps). change (b2z x01) with 1. cbn [Z.eqb Pos.eqb negb].
  rewrite <- app_assoc, Hp by (done || lia). cbn. rewrite IH by (done || lia). by rewrite <- app_assoc.
Qed.

Lemma length_elements v : length (elements v) = (5 * length v)%nat.
Proof. induction v as [|f v IH]; [done|]. cbn [elements flat_map length app]. rewrite length_app, be_bytes_length. fold (elements v). lia. Qed.

Lemma length_items ps : (length ps <= length (items ps))%nat.
Proof. induction ps as [|p ps IH]; [done|]. cbn [items flat_map length app]. rewrite length_app. fold (items ps). lia. Qed.

(** A field of fixed width read at the front. *)
Ltac fixed_width w :=
  rewrite need_app, take_app_length', drop_app_length' by (by rewrite ?length_app, ?be_bytes_length); w.

Lemma keys_decode k : decodes k.
Proof.
  induction k using Key_ind'; intros [|fuel] rest Hw Hf; try lia.
  - done.
  - by destruct v.
  - cbn -[Z.pow need take drop be_val be_bytes]. fixed_width ltac:(by rewrite (unflip 4 32)).
  - cbn -[Z.pow need take drop be_val be_bytes]. fixed_width ltac:(by rewrite (unflip 8 64)).
  - cbn -[Z.pow need take drop be_val be_bytes isNaN orderFloat64 unorderFloat64].
    fixed_width ltac:(unfold unorderFloat64, orderFloat64; by rewrite (unorderFloat_order 8 64)).
  - cbn -[Z.pow need take drop be_val be_bytes]. fixed_width ltac:(by rewrite (unflip 8 64)).
  - cbn -[decode_string escape]. rewrite <- app_assoc, decode_string_escape. done.
  - cbn -[Z.pow need take drop be_val be_bytes wraps]. rewrite need_app by (by rewrite length_app, !be_bytes_length).
    rewrite (drop_app_length' _ rest 16) by (by rewrite length_app, !be_bytes_length). rewrite <- !app_assoc.
    rewrite drop_app_length' by (by rewrite be_bytes_length). rewrite !take_app_length' by (by rewrite be_bytes_length).
    destruct Hw. rewrite !wraps_be_val by done. by destruct u.
  - rewrite enc_vector in *. cbn -[decode_vector isNaN]. rewrite <- app_assoc. cbn [app].
    rewrite decode_vector_elements; [done| |done]. rewrite length_app, length_elements. simpl. lia.
  - apply key_all_parts in Hw. rewrite enc_composite in *. cbn [app length decode_key] in *. rewrite length_app in Hf.
    change (b2z x09) with 9. cbv iota zeta. rewrite <- app_assoc. cbn [app].
    rewrite decode_parts_items; [done|done|done|lia|]. rewrite length_app. pose proof (length_items ps). simpl. lia.
Qed.

(** ** Any input

    The result is a refusal, or something with at most [n] bytes left over. *)
Definition settled {A} (r : kres (A * bytes)) (n : nat) : Prop :=
  match r with Ok (_, rest) => (length rest <= n)%nat | Err errKeyEncoding => True | _ => False end.

Lemma settled_le {A} (r : kres (A * bytes)) m n : (m <= n)%nat -> settled r m -> settled r n.
Proof. intros Hmn. destruct r as [[x rest]|[]|]; cbn; lia. Qed.

Lemma settled_bind {A B} (r : kres (A * bytes)) (f : A -> B) n :
  settled r n -> settled ('(x, rest) ← r; Ok (f x, rest)) n.
Proof. by destruct r as [[x rest]|[]|]. Qed.

Lemma settled_need {A} n b (k : A) : settled (need n b (Ok (k, drop n b))) (length b).
Proof. unfold need. destruct (Nat.ltb_spec (length b) n); [done|]. cbn. rewrite length_drop. lia. Qed.

Lemma decode_string_settled b out : settled (decode_string b out) (length b).
Proof.
  remember (length b) as n eqn:E. assert (length b <= n)%nat as H by lia. clear E. revert b out H.
  induction n as [|n IH]; intros [|c b] out Hb; cbn [length] in Hb; [done|lia|done|]. cbn [decode_string].
  destruct (b2z c =? 0); cbn [negb]; [|eapply settled_le, IH; lia]. destruct b as [|d b]; [done|]. cbn [length] in Hb.
  destruct (b2z d =? 255); [eapply settled_le, IH; lia|]. destruct (b2z d =? 1); [cbn; lia|done].
Qed.

Lemma decode_vector_settled n b acc : (length b < n)%nat -> settled (decode_vector n b acc) (length b).
Proof.
  revert b acc. induction n as [|n IH]; intros [|c b] acc Hn; cbn [length] in Hn; try lia; [done|]. cbn [decode_vector length].
  destruct (b2z c =? 0); [cbn; lia|]. destruct (negb (b2z c =? 1) || (S (length b) <? 5)%nat); [done|].
  eapply settled_le, IH; rewrite length_drop; lia.
Qed.

Lemma decode_parts_settled dk n b acc :
  (forall b' : bytes, (length b' < length b)%nat -> settled (dk b') (length b')) ->
  (length b < n)%nat -> settled (decode_parts dk n b acc) (length b).
Proof.
  revert b acc. induction n as [|n IH]; intros [|c b] acc Hd Hn; cbn [length] in Hn; try lia; [done|]. cbn [decode_parts length].
  destruct (b2z c =? 0); [cbn; lia|]. destruct (negb (b2z c =? 1)); [done|].
  specialize (Hd b ltac:(cbn; lia)) as S1. destruct (dk b) as [[p rest]|[]|]; cbn in S1 |- *; try done.
  eapply (settled_le _ (length rest)); [lia|]. apply IH; [|lia]. intros b' Hb'. apply Hd. cbn. lia.
Qed.

Lemma decode_key_settled fuel b : (length b < fuel)%nat -> settled (decode_key fuel b) (pred (length b)).
Proof.
  revert b. induction fuel as [|fuel IH]; intros [|tag b] Hf; cbn [length] in Hf; try lia; [done|]. cbn [decode_key length pred].
  assert (settled (Ok (NullKey, b)) (length b)) as Hn by (cbn; lia).
  destruct (b2z tag) as [|t|]; [done| |done]. do 4 (try destruct t as [t|t|]; try done);
    try apply settled_need; apply settled_bind.
  - apply decode_parts_settled; [|lia]. intros b' Hb'. eapply settled_le; [|apply IH; lia]. lia.
  - apply decode_string_settled.
  - apply decode_vector_settled. lia.
Qed.

(** ** The properties *)

(** C25. The encoding of index keys is memcomparable: for keys whose numbers are
    in range and whose floats are neither NaN nor a negative zero, nested in
    composite keys to any depth, [bytes.Compare] of the encodings has the sign
    of [CompareKeys], and it is 0 for the same keys. *)
Theorem encoding_preserves_order a b : plain_key a -> plain_key b ->
  sign (bytes_compare (appendKeyEnc a []) (appendKeyEnc b [])) = Z.sgn (CompareKeys a b).
Proof.
  intros Ha Hb. pose proof (keys_ordered a b [] [] Ha Hb) as H. rewrite !app_nil_r in H. unfold enc in H. rewrite H.
  by destruct (CompareKeys a b).
Qed.

Definition key_low : Key := CompositeKey [StringKey [x61; x00]; Int32Key (-5); VectorKey [0x3F800000; 0xBF800000]].
Definition key_high : Key := CompositeKey [StringKey [x61; x00]; Int32Key 3; VectorKey []].

Lemma encoding_preserves_order_witness :
  sign (bytes_compare (appendKeyEnc key_low []) (appendKeyEnc key_high [])) = Z.sgn (CompareKeys key_low key_high).
Proof.
  apply (encoding_preserves_order key_low key_high); cbn -[Z.pow plain_float];
    repeat split; repeat constructor; vm_compute; try discriminate; reflexivity.
Defined.

(** Decoding inverts the encoding and stops at its end: from the encoding of
    a key followed by any bytes, the decoder returns the key (each NaN as the
    canonical one) and those bytes.  So the encoding is injective on keys
    without a NaN, and no encoding is a prefix of another. *)
Theorem key_encoding_roundtrip k rest : key_wf k -> decodeKeyEnc (appendKeyEnc k [] ++ rest) = Ok (canon k, rest).
Proof. intros Hk. apply keys_decode; [done|]. unfold enc. rewrite length_app. lia. Qed.

Lemma key_encoding_roundtrip_witness :
  decodeKeyEnc (appendKeyEnc key_low [] ++ [x01]) = Ok (canon key_low, [x01]).
Proof.
  apply (key_encoding_roundtrip key_low [x01]). cbn -[Z.pow]; repeat split; repeat constructor; vm_compute; try discriminate; reflexivity.
Defined.

(** The decoder settles any bytes: it refuses them with [errKeyEncoding], or
    returns a key having consumed at least one byte.  It never panics, and the
    recursion bound of the model is never reached. *)
Theorem key_decoder_total b :
  decodeKeyEnc b = Err errKeyEncoding \/ exists k rest, decodeKeyEnc b = Ok (k, rest) /\ (length rest < length b)%nat.
Proof.
  destruct b as [|c b]; [by left|]. pose proof (decode_key_settled (S (length (c :: b))) (c :: b) ltac:(lia)) as H.
  fold (decodeKeyEnc (c :: b)) in H. destruct (decodeKeyEnc (c :: b)) as [[k rest]|[]|]; cbn in H; try done; [|by left].
  right. exists k, rest. split; [done|]. cbn. lia.
Qed.

(** Inside a composite key the sign of a zero outranks the later parts in
    the encoding but not in [CompareKeys]: the two disagree on keys that
    [CompareKeys] does tell apart. *)
Theorem signed_zero_reorders_composites :
  let a := CompositeKey [Float64Key (2 ^ 63); Int32Key 2] in
  let b := CompositeKey [Float64Key 0; Int32Key 1] in
  CompareKeys a b = 1 /\ bytes_compare (appendKeyEnc a []) (appendKeyEnc b []) = Lt.
Proof. vm_compute. done. Qed.

End KeyOrder.
