(* ===== verification/Walk.v ===== *)
(** Traversals of a graph with a work list.

    The walks of the commit graph ([dag/ancestry.go], [dag/merge_bases.go]) share
    one loop: take a node, skip it when it was seen, mark it, look at it, and add
    its parents.  This file has that loop, the relation it explores, and the
    facts that every walk needs: it ends, it reaches nothing else, and unless it
    was stopped it reaches everything. *)

From S2P Require Import Prelude.

Set Warnings "-clear-no-such-hyp".

Inductive verdict := Halt | Skip | Descend.

#[export] Instance verdict_eq_dec : EqDecision verdict.
Proof. solve_decision. Defined.

Module Walk.
Section Walk.
Context {H : Type} `{Countable H}.
(** The parents of a node, where new work goes, and a finite set all parents are in. *)
Context (succ : H -> list H) (push : list H -> list H -> list H) (universe : gset H).

Definition edge (x y : H) : Prop := y ∈ succ x.
(** [x] is [y] or a descendant of it. *)
Definition reach : H -> H -> Prop := rtc edge.

Section Loop.
(** What is done at a node seen for the first time. *)
Context {A : Type} (body : H -> A -> A * verdict).

Fixpoint walk (fuel : nat) (seen : gset H) (acc : A) (queue : list H) : option (gset H * A) :=
  match fuel with
  | O => None
  | S fuel =>
    match queue with
    | [] => Some (seen, acc)
    | h :: queue =>
      if bool_decide (h ∈ seen) then walk fuel seen acc queue
      else
        let seen := {[h]} ∪ seen in
        match body h acc with
        | (acc, Halt) => Some (seen, acc)
        | (acc, Skip) => walk fuel seen acc queue
        | (acc, Descend) => walk fuel seen acc (push queue (succ h))
        end
    end
  end.
End Loop.

(** Each node adds its parents once. *)
Definition load (s : gset H) : nat := sum_list_with (fun x => length (succ x)) (elements s).
Definition fuel_for (queue : list H) : nat := S (length queue + load (universe ∪ list_to_set queue)).

(** ** Lemmas *)

Lemma load_insert x s : x ∉ s -> load ({[x]} ∪ s) = (length (succ x) + load s)%nat.
Proof. intros Hx. unfold load. by rewrite elements_union_singleton. Qed.

Lemma load_delete x s : x ∈ s -> load s = (length (succ x) + load (s ∖ {[x]}))%nat.
Proof. intros Hx. rewrite <- load_insert by set_solver. f_equal. rewrite <- union_difference_singleton_L; done. Qed.

Section LoopFacts.
(** The verdict is a function of the node as long as the accumulator is valid. *)
Context {A : Type} (body : H -> A -> A * verdict) (look : H -> verdict) (valid : A -> Prop).
Hypothesis body_look : forall x a, valid a -> (body x a).2 = look x /\ valid (body x a).1.
Hypothesis push_perm : forall q ps, push q ps ≡ₚ ps ++ q.
Hypothesis closed : forall x y, y ∈ succ x -> y ∈ universe.

Lemma walk_ends fuel seen acc queue all :
  universe ⊆ all -> list_to_set queue ⊆ all -> (length queue + load (all ∖ seen) < fuel)%nat ->
  exists r, walk body fuel seen acc queue = Some r.
Proof.
  intros Hu. revert seen acc queue. induction fuel as [|fuel IH]; intros seen acc queue Hq Hf; [lia|].
  destruct queue as [|h q]; cbn [walk]; [by eexists|]. cbn [length] in Hf.
  case_bool_decide as Hs; [apply IH; [set_solver|lia]|].
  assert (L : (load (all ∖ seen) = length (succ h) + load (all ∖ ({[h]} ∪ seen)))%nat).
  { rewrite (load_delete h) by set_solver. do 2 f_equal. set_solver. }
  destruct (body h acc) as [acc' []]; [by eexists|apply IH; [set_solver|lia]|]. apply IH.
  - rewrite (push_perm q (succ h)), list_to_set_app_L. intros x [Hx%elem_of_list_to_set|Hx]%elem_of_union; [eauto|set_solver].
  - rewrite (push_perm q (succ h)), length_app. lia.
Qed.

(** What holds of the nodes seen and of the accumulator together. *)
Lemma walk_invariant (P : gset H -> A -> Prop) fuel seen acc queue r :
  (forall s a x, (x ∉ s) -> P s a -> P ({[x]} ∪ s) (body x a).1) -> P seen acc ->
  walk body fuel seen acc queue = Some r -> P r.1 r.2.
Proof.
  intros Hs. revert seen acc queue. induction fuel as [|fuel IH]; intros seen acc [|h q] Hp; cbn [walk]; [done|done|by intros [= <-]|].
  case_bool_decide as Hin; [by apply IH|]. pose proof (Hs seen acc h Hin Hp) as Hp'.
  destruct (body h acc) as [acc' []]; [by intros [= <-]|..]; intros E; (eapply IH; [|exact E]); done.
Qed.

(** A walk only sees what descends from where it started, along nodes it went through. *)
Definition via : H -> H -> Prop := rtc (fun x y => look x = Descend /\ edge x y).

Lemma walk_sound fuel seen acc queue r start : valid acc ->
  (forall x, x ∈ seen \/ x ∈ queue -> exists s, s ∈ start /\ via s x) ->
  walk body fuel seen acc queue = Some r -> forall x, x ∈ r.1 -> exists s, s ∈ (start : list H) /\ via s x.
Proof.
  revert seen acc queue. induction fuel as [|fuel IH]; intros seen acc [|h q] Hv Hi; cbn [walk]; [done|done|intros [= <-] x Hx; auto|].
  case_bool_decide as Hs; [apply IH; [done|set_solver]|].
  assert (Hh : exists s, s ∈ start /\ via s h) by (apply Hi; set_solver).
  assert (Hi' : forall x, x ∈ {[h]} ∪ seen \/ x ∈ q -> exists s, s ∈ start /\ via s x) by set_solver.
  destruct (body_look h acc Hv) as [El Hv']. destruct (body h acc) as [acc' []]; cbn in El, Hv';
    [intros [= <-] x Hx; apply Hi'; by left|by apply IH|]. apply IH; [done|].
  intros x [Hx|Hx]; [apply Hi'; by left|]. rewrite (push_perm q (succ h)) in Hx.
  apply elem_of_app in Hx as [Hx|Hx]; [|apply Hi'; by right].
  destruct Hh as (s & Hs1 & Hs2). exists s. split; [done|]. eapply rtc_r; [exact Hs2|]. done.
Qed.

(** Unless it was stopped, a walk has seen its starts and the parents of every node it went through. *)
Lemma walk_complete fuel seen acc queue r : valid acc ->
  (forall x y, x ∈ seen -> look x = Descend -> y ∈ succ x -> y ∈ seen \/ y ∈ queue) ->
  (forall x, x ∈ seen -> look x <> Halt) ->
  walk body fuel seen acc queue = Some r ->
  (exists x, x ∈ r.1 /\ look x = Halt) \/
  ((forall x, x ∈ seen \/ x ∈ queue -> x ∈ r.1) /\
   (forall x, x ∈ r.1 -> look x <> Halt) /\
   forall x y, x ∈ r.1 -> look x = Descend -> y ∈ succ x -> y ∈ r.1).
Proof.
  revert seen acc queue. induction fuel as [|fuel IH]; intros seen acc [|h q] Hv Hc Hh; cbn [walk]; [done|done| |].
  { intros [= <-]. right. set_solver. }
  case_bool_decide as Hs.
  - intros E. apply IH in E; [|done| |done].
    + destruct E as [E|(E1 & E2)]; [by left|right]. split; [|done]. intros x [Hx|[->|Hx]%elem_of_cons]; auto.
    + intros x y Hx Hl Hy. destruct (Hc x y Hx Hl Hy) as [|[->|]%elem_of_cons]; auto.
  - assert (Hin : forall x, x ∈ {[h]} ∪ seen <-> x = h \/ x ∈ seen) by set_solver.
    destruct (body_look h acc Hv) as [El Hv']. destruct (body h acc) as [acc' []]; cbn in El, Hv'; intros E.
    + simplify_eq. left. exists h. split; [apply Hin; by left|done].
    + apply IH in E as [E|(E1 & E2)]; [by left|right|done| |].
      * split; [|done]. intros x [Hx|[->|Hx]%elem_of_cons]; apply E1; rewrite Hin; auto.
      * intros x y. rewrite !Hin. intros [->|Hx] Hl Hy; [congruence|]. destruct (Hc x y Hx Hl Hy) as [|[->|]%elem_of_cons]; auto.
      * intros x. rewrite Hin. intros [->|Hx]; [congruence|auto].
    + apply IH in E as [E|(E1 & E2)]; [by left|right|done| |].
      * split; [|done]. intros x [Hx|[->|Hx]%elem_of_cons]; apply E1; rewrite Hin, (push_perm q (succ h)), elem_of_app; auto.
      * intros x y. rewrite !Hin, (push_perm q (succ h)), elem_of_app. intros [->|Hx] Hl Hy; [auto|].
        destruct (Hc x y Hx Hl Hy) as [|[->|]%elem_of_cons]; auto.
      * intros x. rewrite Hin. intros [->|Hx]; [congruence|auto].
Qed.

Lemma closed_under_via (s : gset H) :
  (forall x y, x ∈ s -> look x = Descend -> y ∈ succ x -> y ∈ s) -> forall x y, x ∈ s -> via x y -> y ∈ s.
Proof. intros Hc x y Hx. induction 1 as [|x z y [Hl He] _ IH]; eauto. Qed.

Lemma via_reach x y : via x y -> reach x y.
Proof. intros Hv. eapply rtc_subrel; [|exact Hv]. by intros ? ? [_ ?]. Qed.

(** The walk from [start] with enough fuel: it ends, and unless it was stopped it
    has seen exactly what descends from [start] along nodes it goes through. *)
Lemma walk_spec start acc : valid acc -> exists seen acc',
  walk body (fuel_for start) ∅ acc start = Some (seen, acc') /\
  (forall x, x ∈ seen -> exists s, s ∈ start /\ via s x) /\
  ((exists x, x ∈ seen /\ look x = Halt) \/
   (forall s x, s ∈ start -> via s x -> x ∈ seen) /\ forall x, x ∈ seen -> look x <> Halt).
Proof.
  intros Hv. destruct (walk_ends (fuel_for start) ∅ acc start (universe ∪ list_to_set start)) as [[seen acc'] E];
    [set_solver|set_solver|unfold fuel_for; rewrite difference_empty_L; lia|].
  exists seen, acc'. split; [done|]. split.
  - apply (walk_sound (fuel_for start) ∅ acc start (seen, acc') start); [done| |done]. intros x [Hx|Hx]; [set_solver|]. exists x. split; [done|constructor].
  - destruct (walk_complete (fuel_for start) ∅ acc start (seen, acc')) as [?|(E1 & E2 & E3)];
      [done|set_solver|set_solver|done|by left|right]. split; [|done]. intros s x Hs. apply (closed_under_via seen); [done|]. apply E1. by right.
Qed.
End LoopFacts.
End Walk.
End Walk.
