(* ===== verification/Numbering.v ===== *)
(** Generation numbers by an iterative depth-first walk.

    [recomputeGenerationsLocked] ([dag/generations.go]) and
    [MergeBaseFinder.generationLocked] ([dag/merge_bases.go]) number commits with
    the same loop: the top of a stack is dropped when it is numbered, settled when
    its parents are, and otherwise marked active with its parents pushed above it.
    The number of a commit is one more than the highest of its parents'. *)

From S2P Require Import Prelude.

Set Warnings "-clear-no-such-hyp".

Module Numbering.
Section Numbering.
Context {H : Type} `{Countable H}.
(** The parents of a node, the nodes that get no number, and a finite set all parents are in. *)
Context (parents : H -> list H) (absent : H -> bool) (universe : gset H).

Record dfs := mkDfs { gen : gmap H Z; settled : gset H; active : gset H; stack : list H }.

(** [if g, ok := gen[p]; ok && g > max { max = g }] *)
Definition max_gen (gen : gmap H Z) (ps : list H) : Z :=
  foldl (fun m p => let g := default 0 (gen !! p) in if m <? g then g else m) 0 ps.

Definition step (s : dfs) (x : H) (rest : list H) : dfs :=
  if bool_decide (x ∈ settled s) then mkDfs (gen s) (settled s) (active s) rest
  else if bool_decide (x ∈ active s) then
    mkDfs (<[x := wrapu 32 (max_gen (gen s) (parents x) + 1)]> (gen s)) ({[x]} ∪ settled s) (active s ∖ {[x]}) rest
  else if absent x then mkDfs (gen s) ({[x]} ∪ settled s) (active s) rest
  else
    let fresh := List.filter (fun p => negb (bool_decide (p ∈ settled s)) && negb (bool_decide (p ∈ {[x]} ∪ active s))) (parents x) in
    mkDfs (gen s) (settled s) ({[x]} ∪ active s) (rev fresh ++ x :: rest).

Fixpoint run (fuel : nat) (s : dfs) : option dfs :=
  match fuel with
  | O => None
  | S fuel => match stack s with [] => Some s | x :: rest => run fuel (step s x rest) end
  end.

(** A node is activated once, and pushes its parents then. *)
Definition weight (s : gset H) : nat := sum_list_with (fun x => S (length (parents x))) (elements s).

(** Numbers [root] and what is below it. *)
Definition number (root : H) (s : dfs) : dfs :=
  default s (run (S (S (weight (universe ∪ {[root]})))) (mkDfs (gen s) (settled s) (active s) [root])).

(** ** Facts *)

Section Facts.
Context (rank : H -> nat).
Hypothesis acyclic : forall x p, p ∈ parents x -> (rank p < rank x)%nat.
Hypothesis shallow_enough : forall x, Z.of_nat (rank x) < 2 ^ 32 - 1.
Hypothesis closed : forall x p, p ∈ parents x -> p ∈ universe.

Fixpoint depth (n : nat) (x : H) : Z :=
  match n with
  | O => 0
  | S n => if absent x then 0 else 1 + foldr Z.max 0 (map (depth n) (parents x))
  end.
(** The generation of a node: the longest path down from it. *)
Definition level (x : H) : Z := depth (S (rank x)) x.

Lemma depth_level n x : (rank x < n)%nat -> depth n x = level x.
Proof.
  enough (forall n m x, (rank x < n)%nat -> (rank x < m)%nat -> depth n x = depth m x) as E by (intros; apply E; lia).
  clear n x. induction n as [|n IH]; intros [|m] x Hn Hm; try lia. cbn [depth]. destruct (absent x); [done|]. do 2 f_equal.
  apply map_ext_in. intros p Hp%list_elem_of_In%acyclic. apply IH; lia.
Qed.

Lemma level_step x : level x = if absent x then 0 else 1 + foldr Z.max 0 (map level (parents x)).
Proof.
  unfold level at 1. cbn [depth]. destruct (absent x); [done|]. do 2 f_equal.
  apply map_ext_in. intros p Hp%list_elem_of_In%acyclic. by apply depth_level.
Qed.

Lemma elem_of_rev (x : H) l : x ∈ rev l <-> x ∈ l.
Proof. by rewrite !list_elem_of_In, <- in_rev. Qed.

Lemma max_le (l : list Z) x : x ∈ l -> x <= foldr Z.max 0 l.
Proof. induction l as [|y l IH]; [by intros ?%not_elem_of_nil|]. intros [->|Hx]%elem_of_cons; cbn; [lia|]. specialize (IH Hx). lia. Qed.

Lemma max_nonneg (l : list Z) : 0 <= foldr Z.max 0 l.
Proof. induction l; cbn; lia. Qed.

Lemma level_nonneg x : 0 <= level x.
Proof. rewrite level_step. destruct (absent x); [lia|]. pose proof (max_nonneg (map level (parents x))). lia. Qed.

Lemma level_mono x p : absent x = false -> p ∈ parents x -> level p < level x.
Proof.
  intros Ha Hp. rewrite (level_step x), Ha. enough (level p <= foldr Z.max 0 (map level (parents x))) by lia.
  apply max_le, list_elem_of_fmap. by exists p.
Qed.

Lemma level_rank x : level x <= Z.of_nat (rank x) + 1.
Proof.
  remember (rank x) as n eqn:E. assert (rank x <= n)%nat as Hn by lia. clear E. revert x Hn.
  induction n as [n IH] using lt_wf_ind. intros x Hn. rewrite level_step. destruct (absent x); [lia|].
  enough (foldr Z.max 0 (map level (parents x)) <= Z.of_nat n) by lia.
  assert (Forall (fun p => (rank p < n)%nat) (parents x)) as F
    by (apply Forall_forall; intros p Hp%acyclic; lia).
  induction F as [|p ps Hp _ IHF]; cbn -[level]; [lia|]. specialize (IH (rank p) ltac:(lia) p ltac:(lia)). lia.
Qed.

(** The numbers given so far are the levels. *)
Definition numbered (s : dfs) : Prop :=
  (forall x g, gen s !! x = Some g -> x ∈ settled s /\ absent x = false /\ g = level x) /\
  (forall x, x ∈ settled s -> absent x = false -> gen s !! x = Some (level x)).

(** An active node is on the stack, with those of its parents that are not settled above it. *)
Definition waiting (s : dfs) (x : H) : Prop :=
  (x ∉ settled s) /\ absent x = false /\
  exists above below, stack s = above ++ x :: below /\ (x ∉ above) /\
    (forall p, p ∈ parents x -> p ∈ settled s \/ p ∈ above) /\ forall y, y ∈ above -> (rank y < rank x)%nat.

Definition inv (s : dfs) : Prop := numbered s /\ forall x, x ∈ active s -> waiting s x.

Lemma max_gen_levels g ps : (forall p, p ∈ ps -> default 0 (g !! p) = level p) -> max_gen g ps = foldr Z.max 0 (map level ps).
Proof.
  intros Hg. unfold max_gen. enough (forall m, 0 <= m -> foldl (fun m p => let g := default 0 (g !! p) in if m <? g then g else m) m ps
    = Z.max m (foldr Z.max 0 (map level ps))) as -> by (try lia; pose proof (max_nonneg (map level ps)); lia).
  induction ps as [|p ps IH]; intros m Hm; cbn [foldl map foldr]; [lia|]. cbv zeta.
  rewrite Hg by set_solver. pose proof (level_nonneg p). rewrite IH; [|set_solver|destruct (m <? level p); lia].
  destruct (Z.ltb_spec m (level p)); lia.
Qed.

Lemma numbered_default s p : numbered s -> p ∈ settled s -> default 0 (gen s !! p) = level p.
Proof.
  intros [N1 N2] Hp. destruct (absent p) eqn:Ea; [|by rewrite N2].
  rewrite level_step, Ea. destruct (gen s !! p) as [g|] eqn:E; [|done]. apply N1 in E as (_ & ? & _). congruence.
Qed.

(** What is above an active node on the stack when the top is dropped or replaced. *)
Lemma waiting_below s x rest y :
  stack s = x :: rest -> y <> x -> waiting s y ->
  exists above below, rest = above ++ y :: below /\ (y ∉ above) /\
    (forall p, p ∈ parents y -> p ∈ settled s \/ p = x \/ p ∈ above) /\ (rank x < rank y)%nat /\ forall z, z ∈ above -> (rank z < rank y)%nat.
Proof.
  intros Es Hne (_ & _ & above & below & E & Hn & Hp & Hr). rewrite Es in E. destruct above as [|x' above]; [by simplify_list_eq|simplify_list_eq].
  exists above, below. split_and!; [done|set_solver|..].
  - intros p Hpp. destruct (Hp p Hpp) as [|[->|]%elem_of_cons]; auto.
  - apply Hr. set_solver.
  - intros z Hz. apply Hr. set_solver.
Qed.

(** Dropping the top, once it is settled. *)
Lemma waiting_drop s x rest y g st act : stack s = x :: rest -> y <> x -> waiting s y ->
  {[x]} ∪ settled s ⊆ st -> st ⊆ {[x]} ∪ settled s -> waiting (mkDfs g st act rest) y.
Proof.
  intros Es Hne Hw S1 S2. destruct (waiting_below s x rest y Es Hne Hw) as (above & below & E & Hn & Hp & _ & Hr).
  destruct Hw as (Hs & Ha & _). split_and!; cbn; [set_solver|done|]. exists above, below. split_and!; [done..| |done].
  intros p Hpp. destruct (Hp p Hpp) as [|[->|]]; set_solver.
Qed.

Lemma top_active s x rest : stack s = x :: rest -> waiting s x -> forall p, p ∈ parents x -> p ∈ settled s.
Proof.
  intros Es (_ & _ & above & below & E & Hn & Hp & _) p Hpp. rewrite Es in E.
  destruct above as [|x' above]; [|simplify_list_eq; set_solver]. destruct (Hp p Hpp); [done|set_solver].
Qed.

(** An active parent would be below its child on the stack, so older and younger. *)
Lemma parent_not_active s x rest p : inv s -> stack s = x :: rest -> x ∉ active s -> p ∈ parents x -> p ∉ active s.
Proof.
  intros [_ Hi] Es Hx Hp Ha. destruct (waiting_below s x rest p Es) as (_ & _ & _ & _ & _ & Hr & _); [set_solver|auto|].
  pose proof (acyclic x p Hp). lia.
Qed.

Lemma wrap_level x : absent x = false -> wrapu 32 (foldr Z.max 0 (map level (parents x)) + 1) = level x.
Proof.
  intros Ha. pose proof (level_rank x). pose proof (shallow_enough x). pose proof (level_nonneg x).
  rewrite level_step, Ha in *. rewrite Z.add_comm. apply wrapu_id. unfold is_u. lia.
Qed.

Lemma step_settle s x rest : inv s -> stack s = x :: rest -> x ∉ settled s -> x ∈ active s -> inv (step s x rest).
Proof.
  intros [Hn Hi] Es Hs Ha. unfold step. rewrite bool_decide_false, bool_decide_true by done.
  pose proof (Hi x Ha) as Hw. assert (Hab := proj1 (proj2 Hw)). pose proof (top_active s x rest Es Hw) as Hp.
  rewrite max_gen_levels by (intros p Hpp; apply numbered_default; auto). rewrite wrap_level by done. split.
  - destruct Hn as [N1 N2]. split; cbn; intros y.
    + intros g. destruct (decide (x = y)) as [<-|Hne].
      * rewrite lookup_insert_eq. intros [= <-]. set_solver.
      * rewrite lookup_insert_ne by done. intros E%N1. set_solver.
    + intros Hy Hya. destruct (decide (x = y)) as [<-|Hne]; [by rewrite lookup_insert_eq|].
      rewrite lookup_insert_ne by done. apply N2; set_solver.
  - cbn. intros y Hy. apply (waiting_drop s x); [done|set_solver|apply Hi; set_solver|done|done].
Qed.

Lemma step_skip s x rest : inv s -> stack s = x :: rest -> x ∉ active s -> x ∈ settled s \/ absent x = true ->
  inv (mkDfs (gen s) ({[x]} ∪ settled s) (active s) rest).
Proof.
  intros [[N1 N2] Hi] Es Ha Hor. split; [split; cbn|cbn].
  - intros y g E%N1. set_solver.
  - intros y Hy Hya. apply N2; [|done]. apply elem_of_union in Hy as [->%elem_of_singleton|]; [|done]. destruct Hor; [done|congruence].
  - intros y Hy. apply (waiting_drop s x); [done|set_solver|by apply Hi|done|done].
Qed.

Lemma step_open s x rest : inv s -> stack s = x :: rest -> x ∉ settled s -> x ∉ active s -> absent x = false -> inv (step s x rest).
Proof.
  intros Hinv Es Hs Ha Hab. unfold step. rewrite !bool_decide_false by done. rewrite Hab. cbv zeta.
  set (fresh := List.filter _ _). assert (F : forall p, p ∈ fresh <-> p ∈ parents x /\ (p ∉ settled s) /\ p ∉ {[x]} ∪ active s).
  { intros p. unfold fresh. rewrite !list_elem_of_In, filter_In, <- list_elem_of_In, andb_true_iff, !negb_true_iff, !bool_decide_eq_false. done. }
  pose proof (parent_not_active s x rest) as Hpa. destruct Hinv as [Hn Hi]. split; [exact Hn|]. cbn. intros y [->%elem_of_singleton|Hy]%elem_of_union.
  - split_and!; [done..|]. exists (rev fresh), rest. cbn. split_and!; [done|..].
    + rewrite elem_of_rev, F. set_solver.
    + intros p Hp. destruct (decide (p ∈ settled s)); [by left|right]. rewrite elem_of_rev, F.
      split_and!; [done..|]. pose proof (Hpa p (conj Hn Hi) Es Ha Hp). pose proof (acyclic x p Hp).
      intros [->%elem_of_singleton|]%elem_of_union; [lia|done].
    + intros p. rewrite elem_of_rev, F. intros [Hp _]. by apply acyclic.
  - assert (y <> x) as Hne by set_solver. pose proof (Hi y Hy) as Hw.
    destruct (waiting_below s x rest y Es Hne Hw) as (above & below & -> & Hnb & Hp & Hrx & Hr). destruct Hw as (Hys & Hya & _).
    split_and!; [done..|]. exists (rev fresh ++ x :: above), below. cbn. split_and!; [by rewrite <- app_assoc|..].
    + rewrite elem_of_app, elem_of_cons, elem_of_rev, F. set_solver.
    + intros p Hpp. rewrite elem_of_app, elem_of_cons. destruct (Hp p Hpp) as [|[|]]; auto.
    + intros z. rewrite elem_of_app, elem_of_cons, elem_of_rev, F.
      intros [[Hz%acyclic _]|[->|Hz]]; [lia|done|by apply Hr].
Qed.

Lemma step_inv s x rest : inv s -> stack s = x :: rest -> inv (step s x rest).
Proof.
  intros Hi Es. destruct (decide (x ∈ settled s)) as [Hs|Hs].
  - unfold step. rewrite bool_decide_true by done. destruct Hi as [Hn Hi].
    assert (x ∉ active s) as Ha by (intros (? & _)%Hi; done).
    replace (settled s) with ({[x]} ∪ settled s) by set_solver. apply (step_skip s x); [done|done|done|by left].
  - destruct (decide (x ∈ active s)); [by apply step_settle|]. destruct (absent x) eqn:Ea; [|by apply step_open].
    unfold step. rewrite !bool_decide_false, Ea by done. apply step_skip; auto.
Qed.

(** ** The loop ends *)

Lemma weight_delete x s : x ∈ s -> weight s = (S (length (parents x)) + weight (s ∖ {[x]}))%nat.
Proof.
  intros Hx. rewrite (union_difference_singleton_L x s) at 1 by done. unfold weight. rewrite elements_union_singleton by set_solver. done.
Qed.

Lemma weight_mono s t : s ⊆ t -> (weight s <= weight t)%nat.
Proof.
  intros Hst. rewrite (union_difference_L s t) by done. unfold weight. rewrite elements_disj_union by set_solver.
  rewrite sum_list_with_app. lia.
Qed.

Definition measure (all : gset H) (s : dfs) : nat := (length (stack s) + weight (all ∖ (settled s ∪ active s)))%nat.

Lemma step_measure all s x rest : universe ⊆ all -> x ∈ all -> inv s -> stack s = x :: rest ->
  (measure all (step s x rest) < measure all s)%nat.
Proof.
  intros Hu Hx Hi Es. unfold measure, step. rewrite Es. cbn [length].
  destruct (decide (x ∈ settled s)) as [Hs|Hs]; [rewrite bool_decide_true by done; cbn; lia|rewrite bool_decide_false by done].
  destruct (decide (x ∈ active s)) as [Ha|Ha]; [rewrite bool_decide_true by done; cbn|rewrite bool_decide_false by done].
  { assert (weight (all ∖ ({[x]} ∪ settled s ∪ active s ∖ {[x]})) <= weight (all ∖ (settled s ∪ active s)))%nat; [|lia].
    apply weight_mono. intros y. destruct (decide (y = x)); set_solver. }
  destruct (absent x); cbn.
  { assert (weight (all ∖ ({[x]} ∪ settled s ∪ active s)) <= weight (all ∖ (settled s ∪ active s)))%nat by (apply weight_mono; set_solver). lia. }
  rewrite length_app, length_rev. cbn [length]. rewrite (weight_delete x (all ∖ (settled s ∪ active s))) by set_solver.
  replace (all ∖ (settled s ∪ active s) ∖ {[x]}) with (all ∖ (settled s ∪ ({[x]} ∪ active s))) by set_solver.
  pose proof (filter_length_le (fun p => negb (bool_decide (p ∈ settled s)) && negb (bool_decide (p ∈ {[x]} ∪ active s))) (parents x)). lia.
Qed.

Lemma step_settled s x rest : settled s ⊆ settled (step s x rest).
Proof. unfold step. repeat case_bool_decide; cbn; [done|set_solver|]. destruct (absent x); cbn; set_solver. Qed.

Lemma step_stack all s x rest : universe ⊆ all -> x ∈ all -> stack s = x :: rest -> Forall (fun y => y ∈ all) rest -> Forall (fun y => y ∈ all) (stack (step s x rest)).
Proof.
  intros Hu Hx Es Hr. unfold step. repeat case_bool_decide; cbn; [done..|]. destruct (absent x); cbn; [done|].
  apply Forall_app. split; [|by constructor]. apply Forall_forall. intros p. rewrite elem_of_rev, list_elem_of_In, filter_In, <- list_elem_of_In.
  intros [Hp _]. apply Hu. by eapply closed.
Qed.

(** Everything that was on the stack gets settled. *)
Lemma step_keeps s x rest y : inv s -> stack s = x :: rest -> y ∈ stack s -> y ∈ stack (step s x rest) \/ y ∈ settled (step s x rest).
Proof.
  intros _ Es Hy. rewrite Es in Hy. unfold step. repeat case_bool_decide; cbn; [set_solver..|]. destruct (absent x); cbn; set_solver.
Qed.

Lemma run_spec all fuel s : universe ⊆ all -> inv s -> Forall (fun y => y ∈ all) (stack s) -> (measure all s < fuel)%nat ->
  exists s', run fuel s = Some s' /\ inv s' /\ stack s' = [] /\ active s' = ∅ /\ settled s ⊆ settled s' /\
    forall x, x ∈ stack s -> x ∈ settled s'.
Proof.
  intros Hu. revert s. induction fuel as [|fuel IH]; intros s Hi Hall Hf; [lia|]. cbn [run].
  destruct (stack s) as [|x rest] eqn:Es.
  - exists s. split_and!; [done..| |done|set_solver]. apply set_eq. intros x. split; [|set_solver].
    intros (_ & _ & above & below & E & _)%(proj2 Hi). rewrite Es in E. by destruct above.
  - apply Forall_cons in Hall as [Hx Hall].
    destruct (IH (step s x rest)) as (s' & E1 & E2 & E3 & E4 & E5 & E6);
      [by apply step_inv|by apply step_stack|pose proof (step_measure all s x rest Hu Hx Hi Es); lia|].
    exists s'. split_and!; [done..| |]; pose proof (step_settled s x rest); [set_solver|].
    intros y Hy. rewrite <- Es in Hy. destruct (step_keeps s x rest y Hi Es Hy); [auto|set_solver].
Qed.

(** Numbering a node gives it its level, keeps every number given before, and leaves nothing active. *)
Lemma number_spec root s : numbered s -> active s = ∅ ->
  let s' := number root s in numbered s' /\ active s' = ∅ /\ settled s ⊆ settled s' /\ root ∈ settled s'.
Proof.
  intros Hn Ha. unfold number.
  destruct (run_spec (universe ∪ {[root]}) (S (S (weight (universe ∪ {[root]})))) (mkDfs (gen s) (settled s) (active s) [root]))
    as (s' & -> & [E1 _] & _ & E2 & E3 & E4); [set_solver|split; [exact Hn|cbn; set_solver]|cbn; repeat constructor; set_solver| |].
  - unfold measure. cbn. assert (weight ((universe ∪ {[root]}) ∖ (settled s ∪ active s)) <= weight (universe ∪ {[root]}))%nat by (apply weight_mono; set_solver). lia.
  - cbn. split_and!; [done..|]. apply E4. cbn. set_solver.
Qed.
End Facts.
End Numbering.
End Numbering.
