(* ===== verification/Paint.v ===== *)
(** The search for common ancestors by generation: [paintDownToCommonLocked] of
    [dag/merge_bases.go].

    Commits are taken newest generation first, each carrying which side reaches
    it.  A commit both sides reach is a candidate, and everything below it is
    stale; the walk ends when only stale commits are queued. *)

From S2P Require Import Prelude Primitives Walk.

Set Warnings "-clear-no-such-hyp".

Module Paint.

Definition paintA : Z := 1.
Definition paintB : Z := 2.
Definition paintStale : Z := 4.

Record genItem := mkItem { ihash : Hash; igen : Z }.

(** [genQueue.Less]: higher generation first, then higher hash. *)
Definition Less (a b : genItem) : bool :=
  if negb (igen a =? igen b) then igen b <? igen a
  else negb (bytes_leb (HashBytes (ihash a)) (HashBytes (ihash b))).

Section Paint.
(** The parents of a commit, and its generation: a function that may remember what it computed. *)
Context (succ : Hash -> list Hash) {M : Type} (gen : Hash -> M -> Z * M) (universe : gset Hash).

(** The locals of the function.  [container/heap] pops a least element by [Less]; the queue is kept sorted. *)
Record painting := mkPaint {
  flags : gmap Hash Z;
  queued : gset Hash;
  heap : list genItem;
  live : Z;
  out : list Hash;
  memo : M;
}.

Definition flag (s : painting) (h : Hash) : Z := default 0 (flags s !! h).

Definition paint (f : Z) (s : painting) (h : Hash) : painting :=
  let old := flag s h in
  let now := Z.lor old f in
  if now =? old then s
  else
    let fl := <[h := now]> (flags s) in
    if bool_decide (h ∈ queued s) then
      mkPaint fl (queued s) (heap s)
        (if (Z.land old paintStale =? 0) && negb (Z.land now paintStale =? 0) then live s - 1 else live s) (out s) (memo s)
    else
      let '(g, m) := gen h (memo s) in
      mkPaint fl ({[h]} ∪ queued s) (sinsert Less (mkItem h g) (heap s))
        (if Z.land now paintStale =? 0 then live s + 1 else live s) (out s) m.

(** The body of the loop, for the commit taken off the queue. *)
Definition visit (s : painting) (h : Hash) (rest : list genItem) : painting :=
  let queued := queued s ∖ {[h]} in
  let f := flag s h in
  let '(s, f) :=
    if Z.land f paintStale =? 0 then
      if Z.land f (Z.lor paintA paintB) =? Z.lor paintA paintB then
        let f := Z.lor f paintStale in
        (mkPaint (<[h := f]> (flags s)) queued rest (live s - 1) (out s ++ [h]) (memo s), f)
      else (mkPaint (flags s) queued rest (live s - 1) (out s) (memo s), f)
    else (mkPaint (flags s) queued rest (live s) (out s) (memo s), f) in
  foldl (paint f) s (succ h).

Fixpoint paint_loop (fuel : nat) (s : painting) : option painting :=
  match fuel with
  | O => None
  | S fuel =>
    match heap s with
    | [] => Some s
    | it :: rest => if live s <=? 0 then Some s else paint_loop fuel (visit s (ihash it) rest)
    end
  end.

Definition start (xs ys : list Hash) (m : M) : painting :=
  foldl (paint paintB) (foldl (paint paintA) (mkPaint ∅ ∅ [] 0 [] m) xs) ys.

(** A commit is taken off the queue at most once. *)
Definition paintDownToCommon (xs ys : list Hash) (m : M) : list Hash * M :=
  let s := start xs ys m in
  match paint_loop (S (size (universe ∪ list_to_set (xs ++ ys)))) s with
  | Some s => (out s, memo s)
  | None => ([], m)
  end.

(** ** Facts *)

(** What the search needs of the generations: they are a function of the commit, higher than the parents'. *)
Class Generations (value : Hash -> Z) (valid : M -> Prop) := {
  gen_value : forall h m, valid m -> (gen h m).1 = value h;
  gen_valid : forall h m, valid m -> valid (gen h m).2;
  gen_mono : forall h p, p ∈ succ h -> value p < value h;
}.

Context {value : Hash -> Z} {valid : M -> Prop} `{!Generations value valid}.
Hypothesis closed : forall h p, p ∈ succ h -> p ∈ universe.

Abbreviation reach := (Walk.reach succ).

Lemma reach_value x y : reach x y -> x = y \/ value y < value x.
Proof.
  induction 1 as [|x z y He _ IH]; [by left|right]. apply gen_mono in He. destruct IH as [->|]; lia.
Qed.

Lemma bit_zero f k : 0 <= k -> (Z.land f (2 ^ k) =? 0) = negb (Z.testbit f k).
Proof.
  intros Hk. destruct (Z.testbit f k) eqn:E; cbn.
  - apply Z.eqb_neq. intros Z. apply (f_equal (fun z => Z.testbit z k)) in Z.
    rewrite Z.land_spec, Z.pow2_bits_true, E, Z.bits_0 in Z by lia. done.
  - apply Z.eqb_eq. apply Z.bits_inj_0. intros i. rewrite Z.land_spec, Z.pow2_bits_eqb by lia.
    destruct (Z.eqb_spec k i) as [<-|]; [by rewrite E|apply andb_false_r].
Qed.

Lemma both_bits f : (Z.land f (Z.lor paintA paintB) =? Z.lor paintA paintB) = Z.testbit f 0 && Z.testbit f 1.
Proof.
  change (Z.lor paintA paintB) with (Z.ones 2). rewrite Z.land_ones by lia. change (2 ^ 2) with 4. change (Z.ones 2) with 3.
  rewrite !Z.testbit_eqb by lia. change (2 ^ 0) with 1. change (2 ^ 1) with 2.
  destruct (Z.eqb_spec (f mod 4) 3), (Z.eqb_spec ((f / 1) mod 2) 1), (Z.eqb_spec ((f / 2) mod 2) 1); cbn; try done; zdm.
Qed.

(** ** The queue *)

Definition bit (s : painting) (k : Z) (h : Hash) : bool := Z.testbit (flag s h) k.
(** Commits taken off the queue. *)
Definition popped (s : painting) : gset Hash := dom (flags s) ∖ queued s.
(** Queued commits that are not stale. *)
Definition fresh (s : painting) : gset Hash := filter (fun h => bit s 2 h = false) (queued s).

Definition newer (a b : genItem) : Prop := igen b <= igen a.

Record heap_ok (s : painting) : Prop := {
  heap_gen : forall it, it ∈ heap s -> igen it = value (ihash it);
  heap_set : forall h, h ∈ queued s <-> h ∈ map ihash (heap s);
  heap_sorted : StronglySorted newer (heap s);
  heap_nodup : NoDup (map ihash (heap s));
  heap_live : live s = Z.of_nat (size (fresh s));
  heap_flagged : queued s ⊆ dom (flags s);
  heap_memo : valid (memo s);
  flags_nonzero : forall h f, flags s !! h = Some f -> f <> 0;
}.

Lemma push_newest x l : StronglySorted newer l -> StronglySorted newer (sinsert Less x l).
Proof.
  assert (L : forall a b, Less a b = false -> igen a <= igen b).
  { intros a b. unfold Less. destruct (Z.eqb_spec (igen a) (igen b)); cbn [negb]; [lia|]. intros ?%Z.ltb_ge. lia. }
  assert (G : forall a b, Less a b = true -> igen b <= igen a).
  { intros a b. unfold Less. destruct (Z.eqb_spec (igen a) (igen b)); cbn [negb]; [lia|]. intros ?%Z.ltb_lt. lia. }
  induction 1 as [|y l Hl IH Hy]; cbn [sinsert]; [repeat constructor|]. destruct (Less y x) eqn:E.
  - constructor; [done|]. rewrite sinsert_perm. constructor; [by apply G|done].
  - apply L in E. constructor; [by constructor|]. constructor; [done|]. eapply Forall_impl; [exact Hy|]. unfold newer. lia.
Qed.

Lemma flag_insert s h f q l lv o m x : flag (mkPaint (<[h := f]> (flags s)) q l lv o m) x = if decide (x = h) then f else flag s x.
Proof.
  unfold flag. cbn. case_decide as E; [by rewrite E, lookup_insert_eq|by rewrite lookup_insert_ne].
Qed.

Lemma flagged s h : heap_ok s -> h ∈ dom (flags s) <-> flag s h <> 0.
Proof.
  intros Ho. unfold flag. rewrite elem_of_dom. split.
  - intros [f E]. rewrite E. by eapply flags_nonzero.
  - destruct (flags s !! h); [by eexists|done].
Qed.

Lemma lor_nonzero a b : b <> 0 -> Z.lor a b <> 0.
Proof. intros Hb E. apply Z.lor_eq_0_iff in E. tauto. Qed.

(** The commits queued and not stale, when one commit was painted. *)
Lemma fresh_change s s' h : queued s' = {[h]} ∪ queued s -> (forall x, x <> h -> flag s' x = flag s x) ->
  fresh s' = if bit s' 2 h then fresh s ∖ {[h]} else {[h]} ∪ fresh s.
Proof.
  intros Hq Hf. apply set_eq. intros x. unfold fresh. rewrite elem_of_filter, Hq.
  assert (Hb : x <> h -> bit s' 2 x = bit s 2 x) by (intros; unfold bit; by rewrite Hf).
  destruct (decide (x = h)) as [->|Hne].
  - destruct (bit s' 2 h); set_solver.
  - rewrite Hb by done. destruct (bit s' 2 h); rewrite ?elem_of_difference, ?elem_of_union, elem_of_filter; set_solver.
Qed.

Lemma fresh_queued s h : h ∈ fresh s <-> h ∈ queued s /\ bit s 2 h = false.
Proof. unfold fresh. rewrite elem_of_filter. tauto. Qed.

Lemma size_delete (X : gset Hash) h : h ∈ X -> Z.of_nat (size (X ∖ {[h]})) = Z.of_nat (size X) - 1.
Proof.
  intros Hh. pose proof (size_union_alt {[h]} (X ∖ {[h]})) as E. rewrite <- union_difference_singleton_L, size_singleton in E by done.
  replace (X ∖ {[h]} ∖ {[h]}) with (X ∖ {[h]}) in E by set_solver. lia.
Qed.
Lemma size_insert (X : gset Hash) h : (h ∉ X) -> Z.of_nat (size ({[h]} ∪ X)) = Z.of_nat (size X) + 1.
Proof. intros. rewrite size_union, size_singleton by set_solver. lia. Qed.

Definition painted (f : Z) (s s' : painting) (h : Hash) : Prop :=
  heap_ok s' /\ queued s' = {[h]} ∪ queued s /\ out s' = out s /\ dom (flags s') = {[h]} ∪ dom (flags s) /\
  forall x, flag s' x = if decide (x = h) then Z.lor (flag s x) f else flag s x.

Lemma flags_still s h f : heap_ok s -> f <> 0 -> forall x g, <[h := Z.lor (flag s h) f]> (flags s) !! x = Some g -> g <> 0.
Proof.
  intros Ho Hf x g. destruct (decide (h = x)) as [->|Hne]; [rewrite lookup_insert_eq; intros [= <-]; by apply lor_nonzero|].
  rewrite lookup_insert_ne by done. by apply flags_nonzero.
Qed.

Lemma lor_bit2 s h f : bit s 2 h = true -> Z.testbit (Z.lor (flag s h) f) 2 = true.
Proof. unfold bit. intros E. by rewrite Z.lor_spec, E. Qed.

(** Painting a commit that is in the queue. *)
Lemma paint_again f s h : heap_ok s -> f <> 0 -> h ∈ queued s -> painted f s (paint f s h) h.
Proof.
  intros Ho Hf Hq. unfold paint, painted. cbv zeta. assert (Hd : h ∈ dom (flags s)) by (by apply Ho).
  destruct (Z.eqb_spec (Z.lor (flag s h) f) (flag s h)) as [E|E].
  { split_and!; [done|set_solver|done|set_solver|]. intros x. case_decide as Ex; [by rewrite Ex, E|done]. }
  rewrite bool_decide_true by done. match goal with |- heap_ok ?t /\ _ => set (s' := t) end.
  assert (Hs' : forall x, flag s' x = if decide (x = h) then Z.lor (flag s x) f else flag s x).
  { intros x. unfold s'. rewrite flag_insert. case_decide as Ex; [by rewrite Ex|done]. }
  assert (Hb : bit s' 2 h = Z.testbit (Z.lor (flag s h) f) 2) by (unfold bit; by rewrite Hs', decide_True).
  assert (Hqq : queued s' = {[h]} ∪ queued s) by (symmetry; apply subseteq_union_1_L, singleton_subseteq_l; done).
  split_and!; [|done|done|cbn; by rewrite dom_insert_L|done].
  constructor; cbn [heap live memo flags queued s']; try apply Ho.
  - rewrite !(bit_zero _ 2) by lia. rewrite (fresh_change s s' h Hqq) by (intros; by rewrite Hs', decide_False).
    rewrite Hb, (heap_live s Ho). fold (bit s 2 h). destruct (bit s 2 h) eqn:Eb.
    + rewrite (lor_bit2 s h f Eb). cbn. f_equal. f_equal. apply set_eq. intros x. rewrite elem_of_difference, elem_of_singleton.
      split; [|tauto]. intros Hx. split; [done|]. intros ->. apply fresh_queued in Hx as [_ ?]. congruence.
    + assert (h ∈ fresh s) by (by apply fresh_queued). destruct (Z.testbit (Z.lor (flag s h) f) 2); cbn.
      * by rewrite size_delete.
      * do 2 f_equal. set_solver.
  - rewrite dom_insert_L. pose proof (heap_flagged s Ho). set_solver.
  - by apply flags_still.
Qed.

(** Painting a commit for the first time. *)
Lemma paint_first f s h : heap_ok s -> f <> 0 -> (h ∉ dom (flags s)) -> painted f s (paint f s h) h.
Proof.
  intros Ho Hf Hd. assert (Hq : h ∉ queued s) by (intros ?%(heap_flagged s Ho); done).
  assert (Hz : flag s h = 0) by (unfold flag; by rewrite (not_elem_of_dom_1 _ _ Hd)).
  unfold paint, painted. cbv zeta. destruct (Z.eqb_spec (Z.lor (flag s h) f) (flag s h)) as [E|E].
  { exfalso. rewrite Hz in E. by apply lor_nonzero in E. }
  rewrite bool_decide_false by done. destruct (gen h (memo s)) as [g m] eqn:Eg.
  pose proof (gen_value h (memo s) (heap_memo s Ho)) as Hg. pose proof (gen_valid h (memo s) (heap_memo s Ho)) as Hm.
  rewrite Eg in Hg, Hm. cbn in Hg, Hm.
  match goal with |- heap_ok ?t /\ _ => set (s' := t) end.
  assert (Hs' : forall x, flag s' x = if decide (x = h) then Z.lor (flag s x) f else flag s x).
  { intros x. unfold s'. rewrite flag_insert. case_decide as Ex; [by rewrite Ex|done]. }
  assert (Hb : bit s' 2 h = Z.testbit (Z.lor (flag s h) f) 2) by (unfold bit; by rewrite Hs', decide_True).
  split_and!; [|done|done|cbn; by rewrite dom_insert_L|done].
  constructor; cbn [heap live memo flags queued s'].
  - intros it. rewrite sinsert_perm. intros [->|Hi]%elem_of_cons; [done|by apply Ho].
  - intros x. rewrite sinsert_perm. cbn. rewrite elem_of_cons, <- (heap_set s Ho). set_solver.
  - apply push_newest, Ho.
  - rewrite sinsert_perm. cbn. constructor; [by rewrite <- (heap_set s Ho)|apply Ho].
  - rewrite (bit_zero _ 2) by lia. rewrite (fresh_change s s' h) by (done || (intros; by rewrite Hs', decide_False)).
    assert (h ∉ fresh s) by (intros [? _]%fresh_queued; done).
    rewrite Hb, (heap_live s Ho). destruct (Z.testbit (Z.lor (flag s h) f) 2); cbn [negb].
    + do 2 f_equal. set_solver.
    + by rewrite size_insert.
  - rewrite dom_insert_L. pose proof (heap_flagged s Ho). set_solver.
  - done.
  - by apply flags_still.
Qed.

(** Painting the parents of a commit, none of which was taken off the queue. *)
Lemma paint_all f ps s : heap_ok s -> f <> 0 -> (forall p, p ∈ ps -> p ∉ popped s) ->
  let s' := foldl (paint f) s ps in
  heap_ok s' /\ queued s' = list_to_set ps ∪ queued s /\ out s' = out s /\ dom (flags s') = list_to_set ps ∪ dom (flags s) /\
  forall x, flag s' x = if decide (x ∈ ps) then Z.lor (flag s x) f else flag s x.
Proof.
  intros Ho Hf. revert s Ho. induction ps as [|p ps IH]; intros s Ho Hp; cbn [foldl].
  { split_and!; [done|set_solver|done|set_solver|]. intros x. rewrite decide_False; [done|apply not_elem_of_nil]. }
  assert (H1 : painted f s (paint f s p) p).
  { destruct (decide (p ∈ dom (flags s))) as [Hd|Hd]; [|by apply paint_first]. apply paint_again; [done..|].
    destruct (decide (p ∈ queued s)) as [|Hq]; [done|]. exfalso. apply (Hp p); [by left|]. unfold popped. set_solver. }
  destruct H1 as (O1 & Q1 & U1 & D1 & F1). destruct (IH (paint f s p) O1) as (O2 & Q2 & U2 & D2 & F2).
  { intros x Hx. unfold popped. rewrite D1, Q1. pose proof (Hp x ltac:(by right)) as Hx'. unfold popped in Hx'. set_solver. }
  cbn. split_and!; [done|rewrite Q2, Q1; set_solver|congruence|rewrite D2, D1; set_solver|].
  intros x. rewrite F2, F1. destruct (decide (x = p)) as [->|Hne].
  - rewrite (decide_True (P := p ∈ p :: ps)) by (by left). destruct (decide (p ∈ ps)); [|done]. by rewrite <- Z.lor_assoc, Z.lor_diag.
  - destruct (decide (x ∈ ps)) as [Hx|Hx]; [rewrite decide_True by (by right); done|].
    rewrite decide_False; [done|]. by intros [?|?]%elem_of_cons.
Qed.

(** ** One round *)

(** The commit taken off the queue, before its parents are painted. *)
Record taken (s s1 : painting) (h : Hash) (f : Z) : Prop := {
  taken_ok : heap_ok s1;
  taken_queued : queued s1 = queued s ∖ {[h]};
  taken_dom : dom (flags s1) = dom (flags s);
  taken_flag : forall x, flag s1 x = if decide (x = h) then f else flag s x;
  taken_f : f = if negb (bit s 2 h) && bit s 0 h && bit s 1 h then Z.lor (flag s h) paintStale else flag s h;
  taken_out : out s1 = if negb (bit s 2 h) && bit s 0 h && bit s 1 h then out s ++ [h] else out s;
}.

(** What stays of the queue when its head goes. *)
Lemma heap_rest s it rest fl lv o : heap_ok s -> heap s = it :: rest -> fl !! ihash it <> Some 0 -> dom fl = dom (flags s) ->
  (forall x, x <> ihash it -> fl !! x = flags s !! x) ->
  lv = (if bit s 2 (ihash it) then live s else live s - 1) ->
  heap_ok (mkPaint fl (queued s ∖ {[ihash it]}) rest lv o (memo s)).
Proof.
  intros Ho Eh Hz Hd Hfl ->. destruct Ho as [Hg Hs Hso Hn Hl Hq Hm Hnz]. rewrite Eh in *. cbn in Hs, Hn.
  inversion Hso as [|? ? Hso' _]. apply NoDup_cons in Hn as [Hnin Hn]. assert (Hh : ihash it ∈ queued s) by (apply Hs; by left).
  assert (Hfr : fresh (mkPaint fl (queued s ∖ {[ihash it]}) rest 0 o (memo s)) = fresh s ∖ {[ihash it]}).
  { apply set_eq. intros x. rewrite elem_of_difference, !fresh_queued. cbn. rewrite elem_of_difference, elem_of_singleton.
    destruct (decide (x = ihash it)) as [->|Hne]; [tauto|]. unfold bit, flag. cbn. rewrite Hfl by done. tauto. }
  constructor; cbn [heap queued flags live out memo].
  - intros j Hj. apply Hg. by right.
  - intros x. rewrite elem_of_difference, elem_of_singleton, Hs, elem_of_cons. split; [tauto|]. intros Hx. split; [by right|]. by intros ->.
  - done.
  - done.
  - change (fresh (mkPaint _ _ _ _ _ _)) with (fresh (mkPaint fl (queued s ∖ {[ihash it]}) rest 0 o (memo s))). rewrite Hfr, Hl.
    destruct (bit s 2 (ihash it)) eqn:Eb.
    + do 2 f_equal. apply set_eq. intros x. rewrite elem_of_difference, elem_of_singleton. split; [|tauto].
      intros Hx. split; [done|]. intros ->. apply fresh_queued in Hx as [_ ?]. congruence.
    + rewrite size_delete; [done|]. by apply fresh_queued.
  - rewrite Hd. set_solver.
  - done.
  - intros x g. destruct (decide (x = ihash it)) as [->|Hne]; [congruence|]. rewrite Hfl by done. apply Hnz.
Qed.

Lemma visit_taken s it rest : heap_ok s -> heap s = it :: rest ->
  exists s1 f, visit s (ihash it) rest = foldl (paint f) s1 (succ (ihash it)) /\ taken s s1 (ihash it) f.
Proof.
  intros Ho Eh. set (h := ihash it). assert (Hq : h ∈ queued s) by (apply (heap_set s Ho); rewrite Eh; by left).
  assert (Hd : h ∈ dom (flags s)) by (by apply Ho). pose proof Hd as [g Eg]%elem_of_dom.
  assert (Hg : flag s h = g) by (unfold flag; by rewrite Eg). assert (Hgz : g <> 0) by (by eapply flags_nonzero).
  unfold visit. rewrite both_bits, (bit_zero _ 2) by lia. fold (bit s 2 h) (bit s 0 h) (bit s 1 h).
  destruct (bit s 2 h) eqn:E2; cbn [negb].
  { eexists _, _. split; [done|]. split; cbn [heap queued flags live out memo]; fold h; rewrite ?E2; cbn [negb andb]; try done.
    - apply heap_rest; fold h; rewrite ?Eg; try done; [congruence|]. by rewrite E2.
    - intros x. unfold flag. cbn. case_decide as Ex; [by rewrite Ex|done]. }
  destruct (bit s 0 h && bit s 1 h) eqn:Eb.
  - eexists _, _. split; [done|]. split; cbn [heap queued flags live out memo]; fold h; rewrite ?E2; cbn [negb andb]; rewrite ?Eb; try done.
    + apply heap_rest; fold h; try done.
      * rewrite lookup_insert_eq. intros [= E]. by apply lor_nonzero in E.
      * rewrite dom_insert_L. set_solver.
      * intros x Hx. by rewrite lookup_insert_ne.
      * by rewrite E2.
    + rewrite dom_insert_L. set_solver.
    + intros x. by rewrite flag_insert.
  - eexists _, _. split; [done|]. split; cbn [heap queued flags live out memo]; fold h; rewrite ?E2; cbn [negb andb]; rewrite ?Eb; try done.
    + apply heap_rest; fold h; rewrite ?Eg; try done; [congruence|]. by rewrite E2.
    + intros x. unfold flag. cbn. case_decide as Ex; [by rewrite Ex|done].
Qed.

Definition is_stale (s : painting) (h : Hash) : bool := bit s 2 h || bit s 0 h && bit s 1 h.

(** No commit taken off the queue is older than one in it. *)
Definition in_order (s : painting) : Prop := forall x y, x ∈ popped s -> y ∈ queued s -> value y <= value x.

Lemma head_newest s it rest y : heap_ok s -> heap s = it :: rest -> y ∈ queued s -> value y <= value (ihash it).
Proof.
  intros Ho Eh Hy. apply (heap_set s Ho) in Hy. rewrite Eh in Hy. cbn in Hy. apply elem_of_cons in Hy as [->|Hy]; [done|].
  pose proof (heap_sorted s Ho) as Hs. rewrite Eh in Hs. inversion Hs as [|? ? _ Hf]; subst.
  apply list_elem_of_fmap in Hy as (j & -> & Hj). rewrite Forall_forall in Hf. specialize (Hf j Hj). unfold newer in Hf.
  rewrite <- !(heap_gen s Ho) by (rewrite Eh; first [by left|by right]). done.
Qed.

Record visited (s s' : painting) (h : Hash) : Prop := {
  visited_ok : heap_ok s';
  visited_popped : popped s' = {[h]} ∪ popped s;
  visited_queued : queued s' = list_to_set (succ h) ∪ queued s ∖ {[h]};
  visited_dom : dom (flags s') = list_to_set (succ h) ∪ dom (flags s);
  visited_side : forall k x, k = 0 \/ k = 1 -> bit s' k x = bit s k x || bool_decide (x ∈ succ h) && bit s k h;
  visited_stale : forall x, bit s' 2 x = bit s 2 x || bool_decide (x = h \/ x ∈ succ h) && is_stale s h;
  visited_out : out s' = if negb (bit s 2 h) && bit s 0 h && bit s 1 h then out s ++ [h] else out s;
}.

Lemma visit_visited s it rest : heap_ok s -> in_order s -> heap s = it :: rest -> visited s (visit s (ihash it) rest) (ihash it).
Proof.
  intros Ho Hord Eh. destruct (visit_taken s it rest Ho Eh) as (s1 & f & -> & [T1 T2 T3 T4 T5 T6]). set (h := ihash it) in *.
  assert (Hq : h ∈ queued s) by (apply (heap_set s Ho); rewrite Eh; by left). assert (Hd : h ∈ dom (flags s)) by (by apply Ho).
  assert (Hp1 : popped s1 = {[h]} ∪ popped s).
  { unfold popped. rewrite T2, T3. apply set_eq. intros x. destruct (decide (x = h)); set_solver. }
  assert (Hps : forall p, p ∈ succ h -> p ∉ popped s1).
  { intros p Hp%gen_mono. rewrite Hp1. intros [->%elem_of_singleton|Hx]%elem_of_union; [lia|]. specialize (Hord p h Hx Hq). lia. }
  assert (Hf : f <> 0) by (rewrite T5; destruct (_ && _ && _); [by apply lor_nonzero|by apply flagged]).
  assert (Hst : forall k, Z.testbit f k = if decide (k = 2) then is_stale s h else bit s k h).
  { intros k. rewrite T5. unfold is_stale, bit. destruct (Z.testbit (flag s h) 2) eqn:E2; cbn [negb andb orb].
    - case_decide as E; [by rewrite E|done].
    - destruct (Z.testbit (flag s h) 0 && Z.testbit (flag s h) 1); [rewrite Z.lor_spec|by case_decide as E; [rewrite E|]].
      change paintStale with (2 ^ 2). case_decide as E; [by rewrite E, orb_true_r|]. rewrite Z.pow2_bits_false by done. apply orb_false_r. }
  destruct (paint_all f (succ h) s1 T1 Hf Hps) as (O2 & Q2 & U2 & D2 & F2). cbv zeta in *.
  assert (Hbit : forall k x, bit (foldl (paint f) s1 (succ h)) k x =
    (if decide (x = h) then Z.testbit f k else bit s k x) || bool_decide (x ∈ succ h) && Z.testbit f k).
  { intros k x. unfold bit. rewrite F2, T4. destruct (decide (x ∈ succ h)) as [Hx|Hx].
    - rewrite bool_decide_true, Z.lor_spec by done. cbn [andb]. by destruct (decide (x = h)).
    - rewrite bool_decide_false, orb_false_r by done. by destruct (decide (x = h)). }
  split; [done|..].
  - rewrite <- Hp1. unfold popped in *. rewrite D2, Q2. set_solver.
  - by rewrite Q2, T2.
  - by rewrite D2, T3.
  - intros k x Hk. rewrite Hbit, Hst, (decide_False (P := k = 2)) by lia. destruct (decide (x = h)) as [->|]; done.
  - intros x. rewrite Hbit, Hst, (decide_True (P := 2 = 2)) by done. unfold is_stale. destruct (decide (x = h)) as [->|Hne].
    + rewrite (bool_decide_true (h = h \/ _)) by auto. destruct (bit s 2 h), (bit s 0 h), (bit s 1 h), (bool_decide (h ∈ succ h)); done.
    + rewrite (bool_decide_ext (x = h \/ x ∈ succ h) (x ∈ succ h)) by tauto. done.
  - by rewrite U2.
Qed.

(** ** The search *)

Section Search.
Context (xs ys : list Hash).

Definition from (l : list Hash) (h : Hash) : Prop := exists a, a ∈ l /\ reach a h.
Definition common (h : Hash) : Prop := from xs h /\ from ys h.
(** A common ancestor that is not an ancestor of another one. *)
Definition nearest (h : Hash) : Prop := common h /\ forall c, common c -> reach c h -> c = h.

Lemma from_down l x y : from l x -> reach x y -> from l y.
Proof. intros (a & Ha & Hr) H. exists a. split; [done|]. by etrans. Qed.
Lemma common_down x y : common x -> reach x y -> common y.
Proof. intros [Ha Hb] H. split; by eapply from_down. Qed.
Lemma succ_reach x y : y ∈ succ x -> reach x y.
Proof. intros. by apply rtc_once. Qed.

Record sem (s : painting) : Prop := {
  sem_start : forall a, (a ∈ xs -> bit s 0 a = true) /\ (a ∈ ys -> bit s 1 a = true);
  sem_down : forall k x y, k = 0 \/ k = 1 \/ k = 2 -> x ∈ popped s -> y ∈ succ x -> bit s k x = true -> bit s k y = true;
  sem_sound : forall y, (bit s 0 y = true -> from xs y) /\ (bit s 1 y = true -> from ys y);
  sem_stale : forall y, bit s 2 y = true -> exists c, common c /\ c ∈ popped s /\ reach c y;
  sem_mark : forall x, x ∈ popped s -> bit s 0 x = true -> bit s 1 x = true -> bit s 2 x = true;
  sem_order : in_order s;
  sem_out : forall y, y ∈ out s -> common y;
  sem_found : forall m, m ∈ popped s -> nearest m -> m ∈ out s;
}.

Lemma bit_flagged s k h : heap_ok s -> bit s k h = true -> h ∈ dom (flags s).
Proof. intros Ho Hb. apply flagged; [done|]. intros E. unfold bit in Hb. by rewrite E, Z.bits_0 in Hb. Qed.

(** A descendant of a start is painted, or below a painted commit in the queue. *)
Lemma painted_or_below s k l : heap_ok s -> sem s -> k = 0 \/ k = 1 -> (forall a, a ∈ l -> bit s k a = true) ->
  forall x, from l x -> (x ∈ popped s /\ bit s k x = true) \/ exists y, y ∈ queued s /\ bit s k y = true /\ reach y x.
Proof.
  intros Ho Hs Hk Hl x (a & Ha & Hr).
  assert (Hat : forall y, bit s k y = true -> (y ∈ popped s /\ bit s k y = true) \/ exists z, z ∈ queued s /\ bit s k z = true /\ reach z y).
  { intros y Hy. destruct (decide (y ∈ queued s)) as [Hq|Hq]; [right; exists y; split_and!; [done..|constructor]|left].
    split; [|done]. unfold popped. apply bit_flagged in Hy; [set_solver|done]. }
  revert x Hr. refine (rtc_ind_r _ _ _ _); [auto|]. intros x y Hr He IH. destruct IH as [[Hx Hb]|(z & Hz & Hb & Hrz)].
  - apply Hat. eapply sem_down; [done| |exact Hx|exact He|done]. tauto.
  - right. exists z. split_and!; [done..|]. eapply rtc_r; done.
Qed.

(** When a commit is the next to be taken, its paint is complete. *)
Lemma paint_complete s it rest : heap_ok s -> sem s -> heap s = it :: rest ->
  (from xs (ihash it) -> bit s 0 (ihash it) = true) /\ (from ys (ihash it) -> bit s 1 (ihash it) = true).
Proof.
  intros Ho Hs Eh. set (h := ihash it). assert (Hq : h ∈ queued s) by (apply (heap_set s Ho); rewrite Eh; by left).
  assert (Hy : forall y, y ∈ queued s -> reach y h -> y = h).
  { intros y Hy Hr. destruct (reach_value _ _ Hr) as [|Hlt]; [done|]. pose proof (head_newest s it rest y Ho Eh Hy). fold h in H. lia. }
  split; intros Hf.
  - destruct (painted_or_below s 0 xs Ho Hs ltac:(by left) ltac:(intros; by apply (sem_start s Hs)) h Hf) as [[Hp _]|(y & Hyq & Hb & Hr)].
    + unfold popped in Hp. set_solver.
    + by rewrite <- (Hy y Hyq Hr).
  - destruct (painted_or_below s 1 ys Ho Hs ltac:(by right) ltac:(intros; by apply (sem_start s Hs)) h Hf) as [[Hp _]|(y & Hyq & Hb & Hr)].
    + unfold popped in Hp. set_solver.
    + by rewrite <- (Hy y Hyq Hr).
Qed.

Lemma visit_sem s it rest : heap_ok s -> sem s -> heap s = it :: rest -> sem (visit s (ihash it) rest).
Proof.
  intros Ho Hs Eh. pose proof (visit_visited s it rest Ho (sem_order s Hs) Eh) as [V1 V2 V3 V4 V5 V6 V7].
  pose proof (paint_complete s it rest Ho Hs Eh) as [CA CB]. pose proof (head_newest s it rest) as Hnew.
  set (h := ihash it) in *. set (s' := visit s h rest) in *. destruct Hs as [Hst Hdn Hso Hsl Hmk Hor Hou Hfo].
  assert (Hq : h ∈ queued s) by (apply (heap_set s Ho); rewrite Eh; by left). assert (Hnp : h ∉ popped s) by (unfold popped; set_solver).
  assert (Hstale : is_stale s h = true -> common h).
  { unfold is_stale. rewrite orb_true_iff, andb_true_iff. intros [Hb|[B0 B1]].
    - destruct (Hsl h Hb) as (c & Hc & _ & Hr). by eapply common_down.
    - split; by apply Hso. }
  assert (Hself : forall k x, k = 0 \/ k = 1 -> x = h \/ x ∈ popped s -> bit s' k x = bit s k x).
  { intros k x Hk Hx. rewrite V5 by done. rewrite bool_decide_false, orb_false_r; [done|]. intros Hp%gen_mono.
    destruct Hx as [->|Hx]; [lia|]. specialize (Hor x h Hx Hq). lia. }
  assert (Hself2 : forall x, x ∈ popped s -> bit s' 2 x = bit s 2 x).
  { intros x Hx. rewrite V6. rewrite bool_decide_false, orb_false_r; [done|]. intros [->|Hp%gen_mono]; [done|]. specialize (Hor x h Hx Hq). lia. }
  split.
  - intros a. rewrite !V5 by auto. destruct (Hst a) as [Ha Hb]. split; intros H; [rewrite Ha|rewrite Hb]; done.
  - intros k x y Hk. rewrite V2. intros [->%elem_of_singleton|Hx]%elem_of_union Hy Hb.
    + destruct Hk as [->|[->| ->]]; [rewrite Hself in Hb by auto; rewrite V5, (bool_decide_true (y ∈ _)), Hb by auto; apply orb_true_r..|].
      rewrite V6 in Hb |- *. rewrite (bool_decide_true (h = h \/ _)) in Hb by auto. rewrite (bool_decide_true (y = h \/ _)) by auto.
      unfold is_stale in *. destruct (bit s 2 h), (bit s 0 h && bit s 1 h); cbn in Hb |- *; try done; apply orb_true_r.
    + destruct Hk as [->|[->| ->]]; [rewrite Hself in Hb by auto; rewrite V5 by auto; by rewrite (Hdn _ x y)by auto..|].
      rewrite Hself2 in Hb by done. rewrite V6. by rewrite (Hdn 2 x y) by auto.
  - intros y. destruct (Hso y) as [SA SB]. destruct (Hso h) as [HA HB].
    rewrite !V5, !orb_true_iff, !andb_true_iff, !bool_decide_eq_true by auto.
    split; (intros [|[Hy%succ_reach ?]]; [by auto|eapply from_down; [|exact Hy]; auto]).
  - intros y. rewrite V6, orb_true_iff, andb_true_iff, bool_decide_eq_true. intros [Hb|[Hy Hb]].
    + destruct (Hsl y Hb) as (c & Hc & Hcp & Hr). exists c. rewrite V2. set_solver.
    + exists h. split_and!; [auto|rewrite V2; set_solver|]. destruct Hy as [->|Hy]; [constructor|by apply succ_reach].
  - intros x. rewrite V2. intros [->%elem_of_singleton|Hx]%elem_of_union.
    + rewrite !Hself, V6, (bool_decide_true (h = h \/ _)) by auto. unfold is_stale. intros -> ->. by destruct (bit s 2 h).
    + rewrite !Hself, Hself2 by auto. by apply Hmk.
  - intros x y. rewrite V2, V3, !elem_of_union, elem_of_list_to_set, elem_of_difference, elem_of_singleton.
    assert (Hold : forall z, z ∈ queued s -> value z <= value h) by (intros; by apply Hnew).
    intros [->|Hx] [Hy%gen_mono|[Hy _]]; [lia|auto| |by apply Hor]. specialize (Hor x h Hx Hq). lia.
  - intros y. rewrite V7. destruct (negb (bit s 2 h) && bit s 0 h && bit s 1 h) eqn:E; [|auto].
    rewrite elem_of_app, list_elem_of_singleton. intros [Hy| ->]; [auto|]. apply Hstale. unfold is_stale.
    apply andb_true_iff in E as [E ->]. apply andb_true_iff in E as [_ ->]. by destruct (bit s 2 h).
  - intros m. rewrite V2, V7. intros [->%elem_of_singleton|Hm]%elem_of_union Hn.
    + destruct Hn as [[HA HB] Hmax]. rewrite CA, CB by done. destruct (bit s 2 h) eqn:E2; [|set_solver].
      destruct (Hsl h E2) as (c & Hc & Hcp & Hr). by rewrite (Hmax c Hc Hr) in Hcp.
    + specialize (Hfo m Hm Hn). destruct (_ && _ && _); set_solver.
Qed.

Lemma paint_loop_spec all fuel s : universe ⊆ all -> dom (flags s) ⊆ all -> heap_ok s -> sem s -> (size (all ∖ popped s) < fuel)%nat ->
  exists s', paint_loop fuel s = Some s' /\ heap_ok s' /\ sem s' /\ (heap s' = [] \/ live s' <= 0).
Proof.
  intros Hu. revert s. induction fuel as [|fuel IH]; intros s Hd Ho Hs Hf; [lia|]. cbn [paint_loop].
  destruct (heap s) as [|it rest] eqn:Eh; [exists s; split_and!; auto|].
  destruct (Z.leb_spec (live s) 0); [exists s; split_and!; auto|].
  pose proof (visit_visited s it rest Ho (sem_order s Hs) Eh) as [V1 V2 _ V4 _ _ _].
  assert (Hq : ihash it ∈ queued s) by (apply (heap_set s Ho); rewrite Eh; by left).
  apply IH; [|done|by apply visit_sem|].
  - rewrite V4. intros x [Hx%elem_of_list_to_set%closed|Hx]%elem_of_union; auto.
  - assert (size (all ∖ popped (visit s (ihash it) rest)) < size (all ∖ popped s))%nat; [|lia]. apply subset_size. rewrite V2.
    pose proof (heap_flagged s Ho _ Hq) as Hfl. apply Hd in Hfl. unfold popped. set_solver.
Qed.

(** When the loop ends, a nearest common ancestor has been found. *)
Lemma ended_found s m : heap_ok s -> sem s -> heap s = [] \/ live s <= 0 -> nearest m -> m ∈ out s.
Proof.
  intros Ho Hs Hend Hn. apply (sem_found s Hs); [|done]. destruct Hn as [[HA HB] Hmax].
  destruct (painted_or_below s 0 xs Ho Hs ltac:(by left) ltac:(intros; by apply (sem_start s Hs)) m HA) as [[Hp _]|(y & Hy & _ & Hr)]; [done|].
  exfalso. destruct Hend as [E|E]; [apply (heap_set s Ho) in Hy; rewrite E in Hy; by apply not_elem_of_nil in Hy|].
  assert (E2 : bit s 2 y = true).
  { destruct (bit s 2 y) eqn:E2; [done|]. assert (y ∈ fresh s) as Hfr by (by apply fresh_queued).
    rewrite (heap_live s Ho) in E. assert (size (fresh s) = 0)%nat as Hz by lia. apply size_empty_inv in Hz. set_solver. }
  destruct (sem_stale s Hs y E2) as (c & Hc & Hcp & Hrc). assert (c = m) as <- by (apply Hmax; [done|by etrans]).
  assert (y = c) as -> by (destruct (reach_value _ _ Hr) as [|L1], (reach_value _ _ Hrc) as [|L2]; congruence || lia).
  unfold popped in Hcp. set_solver.
Qed.

Lemma start_ok m : valid m -> heap_ok (start xs ys m) /\ sem (start xs ys m) /\ dom (flags (start xs ys m)) = list_to_set (xs ++ ys).
Proof.
  intros Hm. set (s0 := mkPaint ∅ ∅ [] 0 [] m).
  assert (H0 : heap_ok s0).
  { constructor; cbn; first [done|apply SSorted_nil|apply NoDup_nil_2|set_solver]. }
  destruct (paint_all paintA xs s0 H0 ltac:(done) ltac:(intros; unfold popped; cbn; set_solver)) as (O1 & Q1 & U1 & D1 & F1).
  set (s1 := foldl (paint paintA) s0 xs) in *. cbn in Q1, D1.
  destruct (paint_all paintB ys s1 O1 ltac:(done) ltac:(intros; unfold popped; rewrite Q1, D1; set_solver)) as (O2 & Q2 & U2 & D2 & F2).
  change (foldl (paint paintB) s1 ys) with (start xs ys m) in *. cbv zeta in *.
  assert (HD : dom (flags (start xs ys m)) = list_to_set (xs ++ ys)) by (rewrite D2, D1; set_solver).
  assert (HP : popped (start xs ys m) = ∅) by (unfold popped; rewrite D2, Q2, D1, Q1; set_solver).
  assert (HB : forall k x, bit (start xs ys m) k x = bool_decide (x ∈ xs) && Z.testbit paintA k || bool_decide (x ∈ ys) && Z.testbit paintB k).
  { intros k x. unfold bit. rewrite F2, F1. change (flag s0 x) with 0.
    destruct (decide (x ∈ xs)) as [Hx|Hx]; [rewrite (bool_decide_eq_true_2 _ Hx)|rewrite (bool_decide_eq_false_2 _ Hx)];
      (destruct (decide (x ∈ ys)) as [Hy|Hy]; [rewrite (bool_decide_eq_true_2 _ Hy)|rewrite (bool_decide_eq_false_2 _ Hy)]);
      rewrite ?Z.lor_spec, ?Z.bits_0; cbn [andb orb]; rewrite ?orb_false_r; done. }
  assert (HN : forall x, x ∈ popped (start xs ys m) -> False) by (rewrite HP; intros x; apply not_elem_of_empty).
  split_and!; [done| |done]. split.
  - intros a. rewrite !HB. split; intros Ha; rewrite (bool_decide_eq_true_2 _ Ha); [done|]. by rewrite andb_false_r.
  - intros k x y _ []%HN.
  - intros y. rewrite !HB. change (Z.testbit paintA 0) with true. change (Z.testbit paintA 1) with false.
    change (Z.testbit paintB 0) with false. change (Z.testbit paintB 1) with true. rewrite !andb_true_r, !andb_false_r, orb_false_r. cbn [orb].
    rewrite !bool_decide_eq_true. split; intros Hy; exists y; (split; [done|constructor]).
  - intros y. rewrite HB, !andb_false_r. done.
  - intros x []%HN.
  - intros x y []%HN.
  - intros y. rewrite U2, U1. cbn. by intros ?%not_elem_of_nil.
  - intros x []%HN.
Qed.

(** The candidates are common ancestors, and the nearest ones are among them. *)
Lemma paint_spec m : valid m ->
  let '(cands, m') := paintDownToCommon xs ys m in
  valid m' /\ (forall h, h ∈ cands -> common h) /\ forall h, nearest h -> h ∈ cands.
Proof.
  intros Hm. destruct (start_ok m Hm) as (Ho & Hs & Hd). unfold paintDownToCommon.
  destruct (paint_loop_spec (universe ∪ list_to_set (xs ++ ys)) (S (size (universe ∪ list_to_set (xs ++ ys)))) (start xs ys m))
    as (s' & -> & Ho' & Hs' & Hend); [set_solver|rewrite Hd; set_solver|done|done| |].
  - assert (size ((universe ∪ list_to_set (xs ++ ys)) ∖ popped (start xs ys m)) <= size (universe ∪ list_to_set (xs ++ ys)))%nat
      by (apply subseteq_size; set_solver). lia.
  - split_and!; [apply Ho'|apply Hs'|]. intros h. by apply ended_found.
Qed.
End Search.
End Paint.
End Paint.
