(* ===== verification/Strings.v ===== *)
(** The functions of Go's [strings] that names of revisions and tags go through.

    A string is its bytes.  [TrimSpace] removes the white space of
    [unicode.IsSpace]; each such rune is given by its UTF-8 encoding, which is
    matched at the front or, read backwards, at the end. *)

From S2P Require Import Prelude.

(** ** White space *)

(** [unicode.IsSpace], as UTF-8: the six ASCII ones, U+0085, U+00A0, U+1680, U+2000 to U+200A, U+2028, U+2029, U+202F, U+205F, U+3000. *)
Definition space_runes : list bytes :=
  map (fun z => [z2b z]) [9; 10; 11; 12; 13; 32] ++
  map (map z2b) ([[0xC2; 0x85]; [0xC2; 0xA0]; [0xE1; 0x9A; 0x80]] ++
    map (fun i => [0xE2; 0x80; 0x80 + i]) [0; 1; 2; 3; 4; 5; 6; 7; 8; 9; 10; 0x28; 0x29; 0x2F] ++
    [[0xE2; 0x81; 0x9F]; [0xE3; 0x80; 0x80]]).

Definition space_at (runes : list bytes) (s : bytes) : option nat := length <$> List.find (has_prefix s) runes.

(** One rune is taken at a time; no string has more runes than bytes. *)
Fixpoint trim_from (runes : list bytes) (fuel : nat) (s : bytes) : bytes :=
  match fuel with
  | O => s
  | S fuel => match space_at runes s with Some n => trim_from runes fuel (drop n s) | None => s end
  end.

Definition TrimLeft (s : bytes) : bytes := trim_from space_runes (length s) s.
Definition TrimRight (s : bytes) : bytes := rev (trim_from (map (@rev byte) space_runes) (length s) (rev s)).
Definition TrimSpace (s : bytes) : bytes := TrimRight (TrimLeft s).

(** ** Suffixes and prefixes *)

(** [strings.LastIndex(s, c)] for a one-byte [c], with the parts around it. *)
Fixpoint split_last (c : byte) (s : bytes) : option (bytes * bytes) :=
  match s with
  | [] => None
  | x :: s =>
    match split_last c s with
    | Some (before, after) => Some (x :: before, after)
    | None => if bool_decide (x = c) then Some ([], s) else None
    end
  end.

(** [for strings.HasSuffix(s, c) { n++; s = strings.TrimSuffix(s, c) }], on the reversed string. *)
Fixpoint strip (c : byte) (s : bytes) : nat * bytes :=
  match s with
  | x :: rest => if bool_decide (x = c) then let '(n, s) := strip c rest in (S n, s) else (O, s)
  | [] => (O, [])
  end.
Definition strip_suffix (c : byte) (s : bytes) : nat * bytes := let '(n, r) := strip c (rev s) in (n, rev r).

Definition TrimPrefix (s p : bytes) : bytes := if has_prefix s p then drop (length p) s else s.

(** [strings.EqualFold(s, t)] for a [t] of lower-case ASCII letters that no other letter folds to. *)
Definition lower (c : byte) : byte := if (65 <=? b2z c) && (b2z c <=? 90) then z2b (b2z c + 32) else c.
Definition EqualFold (s t : bytes) : bool := bool_decide (map lower s = t).

(** ** Facts *)

Definition starts_with_space (runes : list bytes) (s : bytes) : bool := bool_decide (is_Some (space_at runes s)).

Lemma trim_from_id runes fuel s : space_at runes s = None -> trim_from runes fuel s = s.
Proof. intros E. destruct fuel; cbn; [done|]. by rewrite E. Qed.

Lemma TrimSpace_id s : space_at space_runes s = None -> space_at (map (@rev byte) space_runes) (rev s) = None -> TrimSpace s = s.
Proof.
  intros H1 H2. unfold TrimSpace, TrimLeft, TrimRight. rewrite (trim_from_id _ _ s H1), (trim_from_id _ _ _ H2). apply rev_involutive.
Qed.

Lemma strip_app c n s : hd_error s <> Some c -> strip c (replicate n c ++ s) = (n, s).
Proof.
  intros Hs. induction n as [|n IH]; cbn.
  - destruct s as [|x s]; cbn; [done|]. rewrite bool_decide_false; [done|]. intros ->. done.
  - rewrite bool_decide_true by done. by rewrite IH.
Qed.

Lemma split_last_none c s : (c ∉ s) -> split_last c s = None.
Proof.
  induction s as [|x s IH]; cbn; [done|]. rewrite not_elem_of_cons. intros [Hx Hs]. rewrite IH by done. by rewrite bool_decide_false.
Qed.
Lemma split_last_app c s t : (c ∉ t) -> split_last c (s ++ c :: t) = Some (s, t).
Proof.
  intros Ht. induction s as [|x s IH]; cbn; [|by rewrite IH]. rewrite split_last_none by done. by rewrite bool_decide_true.
Qed.
