(* ===== verification/Dag.v ===== *)
(** The commit graph of a namespace: [dag/in_memory_commit_dag.go],
    [dag/generations.go], [dag/ancestry.go], [dag/merge_bases.go],
    [dag/retention.go] and the sorting of [dag/join.go].

    Commits are held as a map from hash to commit and generation, which is the
    node store of [dag/node_store.go] in its Go memory mode.  An operation takes
    the state and returns its outcome and the new state; the mutex makes it one
    step, and the clock is an argument.  Document trees and the tree index, the
    retention of operations, attachment tables and the step counter of the merge
    walks are left out: nothing here reads them. *)

From S2P Require Import Prelude Primitives Document Commit CommitDirect Walk Numbering Paint.
Import Commit CommitDirect.

Module Dag.

(** ** State *)

Record CommitStub := mkStub { OriginalHash : Hash; ArchiveLocation : bytes; StubbedAt : Timestamp }.
Record Branch := mkBranch { BranchName : bytes; HeadHash : Hash; CreatedAt : Timestamp; UpdatedAt : Timestamp }.
Record CommitTag := mkTag { TagName : bytes; TagCommit : Hash; TagCreatedAt : Timestamp; TagMessage : bytes }.

(** [goNode]. *)
Record goNode := mkNode { commit : Commit; generation : Z }.

Record headSnapshot := mkSnap { hasBranch : bool; snapHash : Hash; snapCommit : option Commit }.

Record InMemoryCommitDag := mkDag {
  dagNamespace : bytes;
  head : option headSnapshot;
  nodes : gmap Hash goNode;
  stubs : gmap Hash CommitStub;
  shallow : gset Hash;
  branches : gmap bytes Branch;
  tags : gmap bytes CommitTag;
  txIndex : gmap UUID Hash;
  pins : gmap Hash Z;
  ancestryVersion : Z;
  ancestryEpoch : Z;
  AncestryPruning : bool;
  genStale : bool;
  provisional : gset Hash;
  unlogged : gset Hash;
}.

(** The errors, by the type and message of the source. *)
Inductive dag_error :=
  | ConsistencyError (msg : bytes) (hash : option Hash)
  | BranchNotFound (msg name : bytes)
  | CompactionSafety (msg : bytes) (blocker : Hash)
  | HeadConflict (branch : bytes) (expected actual : Hash)
  | VersionNotFound (msg : bytes) (hash : Hash)
  | DagErrorf (msg : bytes)
  | CommitFailed (e : commit_error).

Abbreviation dres A := (go dag_error A * InMemoryCommitDag)%type.

Definition mainBranch : bytes := str "main".
Definition ZeroHash : Hash := mkHash (replicate 32 x00).

(** Field updates. *)
Definition set_nodes (n : gmap Hash goNode) (d : InMemoryCommitDag) : InMemoryCommitDag :=
  mkDag (dagNamespace d) (head d) n (stubs d) (shallow d) (branches d) (tags d) (txIndex d) (pins d)
    (ancestryVersion d) (ancestryEpoch d) (AncestryPruning d) (genStale d) (provisional d) (unlogged d).
Definition set_head (h : option headSnapshot) (d : InMemoryCommitDag) : InMemoryCommitDag :=
  mkDag (dagNamespace d) h (nodes d) (stubs d) (shallow d) (branches d) (tags d) (txIndex d) (pins d)
    (ancestryVersion d) (ancestryEpoch d) (AncestryPruning d) (genStale d) (provisional d) (unlogged d).
Definition set_stubs (s : gmap Hash CommitStub) (d : InMemoryCommitDag) : InMemoryCommitDag :=
  mkDag (dagNamespace d) (head d) (nodes d) s (shallow d) (branches d) (tags d) (txIndex d) (pins d)
    (ancestryVersion d) (ancestryEpoch d) (AncestryPruning d) (genStale d) (provisional d) (unlogged d).
Definition set_shallow (s : gset Hash) (d : InMemoryCommitDag) : InMemoryCommitDag :=
  mkDag (dagNamespace d) (head d) (nodes d) (stubs d) s (branches d) (tags d) (txIndex d) (pins d)
    (ancestryVersion d) (ancestryEpoch d) (AncestryPruning d) (genStale d) (provisional d) (unlogged d).
Definition set_branches (b : gmap bytes Branch) (d : InMemoryCommitDag) : InMemoryCommitDag :=
  mkDag (dagNamespace d) (head d) (nodes d) (stubs d) (shallow d) b (tags d) (txIndex d) (pins d)
    (ancestryVersion d) (ancestryEpoch d) (AncestryPruning d) (genStale d) (provisional d) (unlogged d).
Definition set_tags (t : gmap bytes CommitTag) (d : InMemoryCommitDag) : InMemoryCommitDag :=
  mkDag (dagNamespace d) (head d) (nodes d) (stubs d) (shallow d) (branches d) t (txIndex d) (pins d)
    (ancestryVersion d) (ancestryEpoch d) (AncestryPruning d) (genStale d) (provisional d) (unlogged d).
Definition set_txIndex (t : gmap UUID Hash) (d : InMemoryCommitDag) : InMemoryCommitDag :=
  mkDag (dagNamespace d) (head d) (nodes d) (stubs d) (shallow d) (branches d) (tags d) t (pins d)
    (ancestryVersion d) (ancestryEpoch d) (AncestryPruning d) (genStale d) (provisional d) (unlogged d).
Definition set_pins (p : gmap Hash Z) (d : InMemoryCommitDag) : InMemoryCommitDag :=
  mkDag (dagNamespace d) (head d) (nodes d) (stubs d) (shallow d) (branches d) (tags d) (txIndex d) p
    (ancestryVersion d) (ancestryEpoch d) (AncestryPruning d) (genStale d) (provisional d) (unlogged d).
Definition set_genStale (b : bool) (d : InMemoryCommitDag) : InMemoryCommitDag :=
  mkDag (dagNamespace d) (head d) (nodes d) (stubs d) (shallow d) (branches d) (tags d) (txIndex d) (pins d)
    (ancestryVersion d) (ancestryEpoch d) (AncestryPruning d) b (provisional d) (unlogged d).
Definition set_marks (p u : gset Hash) (d : InMemoryCommitDag) : InMemoryCommitDag :=
  mkDag (dagNamespace d) (head d) (nodes d) (stubs d) (shallow d) (branches d) (tags d) (txIndex d) (pins d)
    (ancestryVersion d) (ancestryEpoch d) (AncestryPruning d) (genStale d) p u.
(** [d.ancestryVersion++], and [d.ancestryEpoch++] when history below a commit may have changed. *)
Definition bump (epoch : bool) (d : InMemoryCommitDag) : InMemoryCommitDag :=
  mkDag (dagNamespace d) (head d) (nodes d) (stubs d) (shallow d) (branches d) (tags d) (txIndex d) (pins d)
    (wrapu 64 (ancestryVersion d + 1)) (if epoch then wrapu 64 (ancestryEpoch d + 1) else ancestryEpoch d)
    (AncestryPruning d) (genStale d) (provisional d) (unlogged d).

(** ** The node store *)

Definition has (d : InMemoryCommitDag) (h : Hash) : bool := bool_decide (is_Some (nodes d !! h)).
Definition is_stub (d : InMemoryCommitDag) (h : Hash) : bool := bool_decide (is_Some (stubs d !! h)).
Definition commitLocked (d : InMemoryCommitDag) (h : Hash) : option Commit := commit <$> nodes d !! h.
Definition generationLocked (d : InMemoryCommitDag) (h : Hash) : Z := default 0 (generation <$> nodes d !! h).
(** [nodeStore.forEachParent]. *)
Definition parentsOf (d : InMemoryCommitDag) (h : Hash) : list Hash :=
  match nodes d !! h with Some n => ParentHashes (commit n) | None => [] end.
(** Every hash that is some commit's parent. *)
Definition all_parents (d : InMemoryCommitDag) : gset Hash :=
  map_fold (fun _ n s => list_to_set (ParentHashes (commit n)) ∪ s) ∅ (nodes d).

Definition expandParentsLocked (d : InMemoryCommitDag) (h : Hash) : list Hash :=
  if is_stub d h then [] else if bool_decide (h ∈ shallow d) then [] else parentsOf d h.

(** ** Generations *)

Definition parentsResidentLocked (c : Commit) (d : InMemoryCommitDag) : bool :=
  if bool_decide (CommitHash c ∈ shallow d) then true
  else forallb (fun p => has d p || is_stub d p) (ParentHashes c).

Definition deriveGenerationLocked (c : Commit) (d : InMemoryCommitDag) : Z :=
  wrapu 32 (foldl (fun max p => let g := generationLocked d p in if has d p && (max <? g) then g else max) 0 (ParentHashes c) + 1).

Definition storeCommitLocked (c : Commit) (d : InMemoryCommitDag) : InMemoryCommitDag :=
  let gen := if AncestryPruning d then deriveGenerationLocked c d else 0 in
  let d := if AncestryPruning d && negb (parentsResidentLocked c d) then set_genStale true d else d in
  set_nodes (<[CommitHash c := mkNode c gen]> (nodes d)) d.

(** Each root is numbered with what is below it; a hash without a commit is settled without a number. *)
Definition number_roots (d : InMemoryCommitDag) (roots : list Hash) : Numbering.dfs :=
  foldl (fun s root =>
      if bool_decide (root ∈ Numbering.settled s) then s
      else Numbering.number (parentsOf d) (fun h => negb (has d h)) (all_parents d) root s)
    (Numbering.mkDfs ∅ ∅ ∅ []) roots.

Definition setGenerations (gen : gmap Hash Z) (d : InMemoryCommitDag) : InMemoryCommitDag :=
  set_nodes (map_imap (fun h n => Some (match gen !! h with Some g => mkNode (commit n) g | None => n end)) (nodes d)) d.

(** Go visits the commits in any order; the numbers do not depend on it. *)
Definition recomputeGenerationsLocked (d : InMemoryCommitDag) : InMemoryCommitDag :=
  set_genStale false (setGenerations (Numbering.gen (number_roots d (elements (dom (nodes d))))) d).

Definition ensureGenerationsLocked (d : InMemoryCommitDag) : bool * InMemoryCommitDag :=
  if negb (AncestryPruning d) then (false, d)
  else (true, if genStale d then recomputeGenerationsLocked d else d).

Definition GenerationDistance (ancestor descendant : Hash) (d : InMemoryCommitDag) : option Z * InMemoryCommitDag :=
  let '(ok, d) := ensureGenerationsLocked d in
  if negb ok then (None, d)
  else
    let ga := generationLocked d ancestor in
    let gd := generationLocked d descendant in
    (if (ga =? 0) || (gd =? 0) then None else Some (gd - ga), d).

(** ** Ancestry *)

Definition fifo (queue ps : list Hash) : list Hash := queue ++ ps.
Definition lifo (stack ps : list Hash) : list Hash := rev ps ++ stack.

(** One of the walks over parents; [body] is what it does at a commit not seen before. *)
Definition explore {A} (push : list Hash -> list Hash -> list Hash) (body : Hash -> A -> A * verdict)
    (d : InMemoryCommitDag) (start : list Hash) (a : A) : gset Hash * A :=
  default (∅, a) (Walk.walk (expandParentsLocked d) push body
    (Walk.fuel_for (expandParentsLocked d) (all_parents d) start) ∅ a start).

Definition AncestorSetOf (d : InMemoryCommitDag) (hashes : list Hash) : gset Hash :=
  (explore fifo (fun _ a => (a, Descend)) d hashes tt).1.
Definition ancestorClosureLocked (d : InMemoryCommitDag) (start : Hash) : gset Hash := AncestorSetOf d [start].

Definition isAncestorPrunedLocked (d : InMemoryCommitDag) (ancestor descendant : Hash) : bool :=
  if bool_decide (ancestor = descendant) then true
  else
    let floor := generationLocked d ancestor in
    (explore lifo (fun h found =>
        if bool_decide (h = ancestor) then (true, Halt)
        else if (0 <? floor) && (generationLocked d h <=? floor) then (found, Skip)
        else (found, Descend))
      d [descendant] false).2.

Definition IsAncestor (ancestor descendant : Hash) (d : InMemoryCommitDag) : bool * InMemoryCommitDag :=
  let '(ok, d) := ensureGenerationsLocked d in
  (if negb ok then bool_decide (ancestor ∈ ancestorClosureLocked d descendant)
   else isAncestorPrunedLocked d ancestor descendant, d).

Definition CommonAncestor (d : InMemoryCommitDag) (hashA hashB : Hash) : option Hash :=
  let setA := ancestorClosureLocked d hashA in
  (explore fifo (fun h r => if bool_decide (h ∈ setA) then (Some h, Halt) else (r, Descend)) d [hashB] None).2.

Definition CommitsSince (d : InMemoryCommitDag) (from : Hash) (exclude : gset Hash) : list Hash :=
  let reachable := ancestorClosureLocked d from in
  let excluded := set_fold (fun h s => ancestorClosureLocked d h ∪ s) ∅ exclude in
  isort (fun a b => negb (bytes_leb (Hex b) (Hex a))) (elements (reachable ∖ excluded)).

(** ** Merge bases *)

Definition SortHashes : list Hash -> list Hash := isort (fun a b => negb (bytes_leb (HashBytes b) (HashBytes a))).

(** [isCand] and [uniq] of [removeRedundantLocked]. *)
Definition uniq (cands : list Hash) : list Hash :=
  foldl (fun u h => if bool_decide (h ∈ u) then u else u ++ [h]) [] cands.

Definition commonByClosureLocked (d : InMemoryCommitDag) (xs ys : list Hash) : list Hash :=
  let setA := foldl (fun s a => s ∪ ancestorClosureLocked d a) ∅ xs in
  (explore fifo (fun h out => if bool_decide (h ∈ setA) then (out ++ [h], Skip) else (out, Descend)) d ys []).2.

(** The oldest generation among the candidates. *)
Definition floor_of {M} (gen : Hash -> M -> Z * M) (u : list Hash) (m : M) : Z * M :=
  match u with
  | [] => (0, m)
  | h :: rest =>
    foldl (fun '(fl, m) h => let '(g, m) := gen h m in (if g <? fl then g else fl, m)) (gen h m) rest
  end.

(** The walk down from the candidates: which of them it meets, without going below the oldest generation. *)
Definition redundant_body {M} (gen : option (Hash -> M -> Z * M)) (u : list Hash) (floor : Z)
    (h : Hash) (acc : gset Hash * M) : (gset Hash * M) * verdict :=
  let '(below, m) := acc in
  let below := if bool_decide (h ∈ u) then {[h]} ∪ below else below in
  match gen with
  | Some gen => let '(g, m) := gen h m in ((below, m), if g <=? floor then Skip else Descend)
  | None => ((below, m), Descend)
  end.

Definition removeRedundantLocked {M} (d : InMemoryCommitDag) (gen : option (Hash -> M -> Z * M)) (m : M) (cands : list Hash) : list Hash * M :=
  let u := uniq cands in
  if (length u <? 2)%nat then (u, m)
  else
    let '(floor, m) := match gen with Some gen => floor_of gen u m | None => (0, m) end in
    let start := foldl (fun st h => lifo st (expandParentsLocked d h)) [] u in
    let '(below, m) := (explore lifo (redundant_body gen u floor) d start (∅ : gset Hash, m)).2 in
    (List.filter (fun h => negb (bool_decide (h ∈ below))) u, m).

Definition dag_gen (d : InMemoryCommitDag) (h : Hash) (m : unit) : Z * unit := (generationLocked d h, m).

Definition MergeBases (xs ys : list Hash) (d : InMemoryCommitDag) : list Hash * InMemoryCommitDag :=
  let '(ok, d) := ensureGenerationsLocked d in
  (SortHashes
    (if ok then
       (removeRedundantLocked d (Some (dag_gen d)) tt
         (Paint.paintDownToCommon (expandParentsLocked d) (dag_gen d) (all_parents d) xs ys tt).1).1
     else (removeRedundantLocked d (None : option (Hash -> unit -> Z * unit)) tt (commonByClosureLocked d xs ys)).1), d).

(** [MergeBaseFinder.generationLocked]: the numbers given so far are the state. *)
Definition finder_gen (d : InMemoryCommitDag) (h : Hash) (m : gmap Hash Z) : Z * gmap Hash Z :=
  match m !! h with
  | Some g => (g, m)
  | None =>
    let s := Numbering.number (expandParentsLocked d) (fun _ => false) (all_parents d) h (Numbering.mkDfs m (dom m) ∅ []) in
    (default 0 (Numbering.gen s !! h), Numbering.gen s)
  end.

(** [MergeBaseFinder.MergeBases]. *)
Definition finder_MergeBases (xs ys : list Hash) (m : gmap Hash Z) (d : InMemoryCommitDag) : list Hash * gmap Hash Z * InMemoryCommitDag :=
  let '(ok, d) := ensureGenerationsLocked d in
  if ok then
    (SortHashes (removeRedundantLocked d (Some (dag_gen d)) tt
      (Paint.paintDownToCommon (expandParentsLocked d) (dag_gen d) (all_parents d) xs ys tt).1).1, m, d)
  else
    let '(cands, m) := Paint.paintDownToCommon (expandParentsLocked d) (finder_gen d) (all_parents d) xs ys m in
    let '(out, m) := removeRedundantLocked d (Some (finder_gen d)) m cands in
    (SortHashes out, m, d).

End Dag.
