(* ===== verification/DagOps.v ===== *)
(** The operations that change the commit graph: [dag/in_memory_commit_dag.go],
    [dag/retention.go], [dag/provisional.go] and [dag/unlogged.go].  Loops over
    branches and tags that only look for an offender are existence tests. *)

From S2P Require Import Prelude Primitives Document Commit CommitDirect Walk Numbering Paint Dag Strings.
Import Document Commit CommitDirect Dag.

Module DagOps.

(** ** The head snapshot *)

Definition snapshot (d : InMemoryCommitDag) : headSnapshot :=
  match branches d !! mainBranch with
  | Some b => mkSnap true (HeadHash b) (commitLocked d (HeadHash b))
  | None => mkSnap false ZeroHash None
  end.
Definition publishHeadLocked (d : InMemoryCommitDag) : InMemoryCommitDag := set_head (Some (snapshot d)) d.

Definition missing_branch : dag_error := ConsistencyError (str "missing default branch") None.

Definition HeadCommit (d : InMemoryCommitDag) : go dag_error (Hash * option Commit) :=
  match head d with
  | Some s => if negb (hasBranch s) then Err missing_branch else Ok (snapHash s, snapCommit s)
  | None =>
    match branches d !! mainBranch with
    | None => Err missing_branch
    | Some b => Ok (HeadHash b, commitLocked d (HeadHash b))
    end
  end.

Definition Head (d : InMemoryCommitDag) : go dag_error Hash := '(h, _) ← HeadCommit d; Ok h.
Definition HeadIs (h : Hash) (d : InMemoryCommitDag) : bool :=
  match Head d with Ok h' => bool_decide (h' = h) | _ => false end.

Definition GetCommit (hash : Hash) (d : InMemoryCommitDag) : option Commit :=
  match head d with
  | Some (mkSnap _ h (Some c)) => if bool_decide (h = hash) then Some c else commitLocked d hash
  | _ => commitLocked d hash
  end.

(** ** Admitting commits *)

(** The first parent that is neither resident nor a stub. *)
Definition missing_parent (c : Commit) (d : InMemoryCommitDag) : option Hash :=
  List.find (fun p => negb (has d p) && negb (is_stub d p)) (ParentHashes c).

Definition verify (c : Commit) : go dag_error unit :=
  match ComputeCommitHash c with
  | Ok h => if bool_decide (h = CommitHash c) then Ok tt else Err (ConsistencyError (str "commit hash mismatch") (Some (CommitHash c)))
  | Err e => Err (CommitFailed e)
  | Panic => Panic
  end.

Definition putCommitLocked (c : Commit) (requireParents verifyHash : bool) (d : InMemoryCommitDag) : dres unit :=
  if has d (CommitHash c) then (Ok tt, d)
  else
    match (if verifyHash then verify c else Ok tt) with
    | Err e => (Err e, d)
    | Panic => (Panic, d)
    | Ok _ =>
      match (if requireParents then missing_parent c d else None) with
      | Some p => (Err (ConsistencyError (str "missing parent " ++ Hex p) (Some (CommitHash c))), d)
      | None =>
        let d := bump (negb requireParents) (storeCommitLocked c d) in
        let d := match txIndex d !! TransactionID c with
                 | Some _ => d
                 | None => set_txIndex (<[TransactionID c := CommitHash c]> (txIndex d)) d
                 end in
        let d := match head d with
                 | Some s => if bool_decide (snapHash s = CommitHash c) then publishHeadLocked d else d
                 | None => publishHeadLocked d
                 end in
        (Ok tt, d)
      end
    end.

Definition PutCommit (c : Commit) (requireParents : bool) (d : InMemoryCommitDag) : dres unit :=
  putCommitLocked c requireParents true d.

Definition PutUnloggedCommit (c : Commit) (d : InMemoryCommitDag) : dres unit :=
  if has d (CommitHash c) then (Ok tt, d)
  else
    match putCommitLocked c true true (set_marks (provisional d) ({[CommitHash c]} ∪ unlogged d) d) with
    | (Ok _, d) => (Ok tt, d)
    | (r, d) => (r, set_marks (provisional d) (unlogged d ∖ {[CommitHash c]}) d)
    end.

Definition PutShallowCommit (c : Commit) (d : InMemoryCommitDag) : dres unit :=
  if has d (CommitHash c) then (Ok tt, d)
  else
    match putCommitLocked c false true d with
    | (Ok _, d) => (Ok tt, bump true (set_shallow ({[CommitHash c]} ∪ shallow d) d))
    | r => r
    end.

Definition PutUnloggedShallowCommit (c : Commit) (d : InMemoryCommitDag) : dres unit :=
  if has d (CommitHash c) then (Ok tt, d)
  else
    match putCommitLocked c false true (set_marks (provisional d) ({[CommitHash c]} ∪ unlogged d) d) with
    | (Ok _, d) => (Ok tt, bump true (set_shallow ({[CommitHash c]} ∪ shallow d) d))
    | (r, d) => (r, set_marks (provisional d) (unlogged d ∖ {[CommitHash c]}) d)
    end.

Definition MarkUnlogged (h : Hash) (d : InMemoryCommitDag) : InMemoryCommitDag :=
  if has d h then set_marks (provisional d) ({[h]} ∪ unlogged d) d else d.
Definition MarkLogged (h : Hash) (d : InMemoryCommitDag) : InMemoryCommitDag :=
  if bool_decide (h ∈ unlogged d) then set_marks (provisional d) (unlogged d ∖ {[h]}) d else d.

Definition MarkShallow (h : Hash) (d : InMemoryCommitDag) : InMemoryCommitDag :=
  if negb (has d h) then d else bump true (set_shallow ({[h]} ∪ shallow d) d).

Definition Unshallow (h : Hash) (d : InMemoryCommitDag) : dres unit :=
  if negb (bool_decide (h ∈ shallow d)) then (Ok tt, d)
  else
    match commitLocked d h with
    | None => (Err (DagErrorf (str "not resident")), d)
    | Some c =>
      if negb (parentsResidentLocked c d) then (Err (DagErrorf (str "its parents are not all here")), d)
      else (Ok tt, bump true (set_genStale true (set_shallow (shallow d ∖ {[h]}) d)))
    end.

Definition InvalidateGenerations (d : InMemoryCommitDag) : InMemoryCommitDag := bump true (set_genStale true d).

Definition PutStub (s : CommitStub) (d : InMemoryCommitDag) : InMemoryCommitDag :=
  if has d (OriginalHash s) then d
  else if is_stub d (OriginalHash s) then d
  else bump true (set_stubs (<[OriginalHash s := s]> (stubs d)) d).

(** ** Retention *)

Definition Pin (h : Hash) (d : InMemoryCommitDag) : InMemoryCommitDag :=
  set_pins (<[h := default 0 (pins d !! h) + 1]> (pins d)) d.
(** The release a pin returns; its [sync.Once] lets it run once. *)
Definition release (h : Hash) (d : InMemoryCommitDag) : InMemoryCommitDag :=
  match pins d !! h with
  | None => d
  | Some n => set_pins (if n <=? 1 then delete h (pins d) else <[h := n - 1]> (pins d)) d
  end.

Definition pinned (d : InMemoryCommitDag) (h : Hash) : bool := bool_decide (is_Some (pins d !! h)).
Definition pinned_error (h : Hash) : dag_error := CompactionSafety (str "commit is pinned by a live reader") h.

Definition delete_node (h : Hash) (d : InMemoryCommitDag) : InMemoryCommitDag := set_nodes (delete h (nodes d)) d.
Definition unlog (h : Hash) (d : InMemoryCommitDag) : InMemoryCommitDag := set_marks (provisional d) (unlogged d ∖ {[h]}) d.

Definition StubCommit (h : Hash) (location : bytes) (now : Timestamp) (d : InMemoryCommitDag) : dres CommitStub :=
  if negb (has d h) then (Err (ConsistencyError (str "cannot stub unknown commit") (Some h)), d)
  else if pinned d h then (Err (pinned_error h), d)
  else
    let stub := mkStub h location now in
    let d := bump true (unlog h (delete_node h d)) in
    (Ok stub, publishHeadLocked (set_stubs (<[h := stub]> (stubs d)) d)).

(** Some branch head among [hs]; Go visits the branches in any order. *)
Definition branch_at (d : InMemoryCommitDag) (hs : list Hash) : option Hash :=
  List.find (fun h => bool_decide (h ∈ hs)) (map (fun p => HeadHash p.2) (map_to_list (branches d))).
Definition tag_at (d : InMemoryCommitDag) (h : Hash) : bool := bool_decide (map_Exists (fun _ t => TagCommit t = h) (tags d)).
Definition has_child (d : InMemoryCommitDag) (h : Hash) : bool :=
  bool_decide (map_Exists (fun k n => k <> h /\ h ∈ ParentHashes (commit n)) (nodes d)).

Definition DropShallowCommit (h : Hash) (d : InMemoryCommitDag) : dres unit :=
  match commitLocked d h with
  | None => (Ok tt, d)
  | Some c =>
    if negb (bool_decide (h ∈ shallow d)) then (Err (ConsistencyError (str "cannot drop a commit that is not a shallow root") (Some h)), d)
    else if pinned d h then (Err (pinned_error h), d)
    else if bool_decide (is_Some (branch_at d [h])) then (Err (CompactionSafety (str "shallow root is a branch head") h), d)
    else if tag_at d h then (Err (CompactionSafety (str "shallow root is tagged") h), d)
    else if has_child d h then (Err (CompactionSafety (str "shallow root has a resident child") h), d)
    else
      let d := delete_node h d in
      let d := set_marks (provisional d ∖ {[h]}) (unlogged d ∖ {[h]}) (set_shallow (shallow d ∖ {[h]}) d) in
      let d := if bool_decide (txIndex d !! TransactionID c = Some h) then set_txIndex (delete (TransactionID c) (txIndex d)) d else d in
      (Ok tt, publishHeadLocked (bump true d))
  end.

(** ** Branches *)

Definition requireCommitPresentLocked (h : Hash) (d : InMemoryCommitDag) : go dag_error unit :=
  if negb (has d h) && negb (is_stub d h) then Err (ConsistencyError (str "missing commit " ++ Hex h) (Some h)) else Ok tt.

Definition move (b : Branch) (h : Hash) (now : Timestamp) : Branch := mkBranch (BranchName b) h (CreatedAt b) now.

Definition SetHead (name : bytes) (h : Hash) (now : Timestamp) (d : InMemoryCommitDag) : dres unit :=
  match branches d !! name with
  | None => (Err (BranchNotFound (str "branch not found") name), d)
  | Some b =>
    match requireCommitPresentLocked h d with
    | Ok _ => (Ok tt, publishHeadLocked (set_branches (<[name := move b h now]> (branches d)) d))
    | r => (r, d)
    end
  end.

Definition CreateBranch (name : bytes) (from : Hash) (now : Timestamp) (d : InMemoryCommitDag) : dres Branch :=
  match branches d !! name with
  | Some _ => (Err (ConsistencyError (str "branch exists") None), d)
  | None =>
    match requireCommitPresentLocked from d with
    | Ok _ =>
      let b := mkBranch name from now now in
      (Ok b, publishHeadLocked (set_branches (<[name := b]> (branches d)) d))
    | Err e => (Err e, d)
    | Panic => (Panic, d)
    end
  end.

Definition DeleteBranch (name : bytes) (d : InMemoryCommitDag) : dres unit :=
  if bool_decide (name = mainBranch) then (Err (BranchNotFound (str "cannot delete default branch") name), d)
  else
    match branches d !! name with
    | None => (Err (BranchNotFound (str "branch not found") name), d)
    | Some _ => (Ok tt, publishHeadLocked (set_branches (delete name (branches d)) d))
    end.

(** ** Tags *)

Definition tag_taken (name : bytes) : dag_error := DagErrorf (str "tag already names another commit: " ++ name).

Definition CreateTag (name : bytes) (h : Hash) (msg : bytes) (now : Timestamp) (d : InMemoryCommitDag) : dres CommitTag :=
  if bool_decide (TrimSpace name = []) then (Err (DagErrorf (str "tag name must not be empty")), d)
  else
    match requireCommitPresentLocked h d with
    | Err e => (Err e, d)
    | Panic => (Panic, d)
    | Ok _ =>
      match tags d !! name with
      | Some t => (if bool_decide (TagCommit t = h) then Ok t else Err (tag_taken name), d)
      | None =>
        let t := mkTag name h now msg in
        (Ok t, set_tags (<[name := t]> (tags d)) d)
      end
    end.

Definition DeleteTag (name : bytes) (d : InMemoryCommitDag) : bool * InMemoryCommitDag :=
  match tags d !! name with
  | None => (false, d)
  | Some _ => (true, set_tags (delete name (tags d)) d)
  end.

(** ** Appending *)

(** The first parent that is not present. *)
Fixpoint requireAll (ps : list Hash) (d : InMemoryCommitDag) : go dag_error unit :=
  match ps with [] => Ok tt | p :: ps => _ ← requireCommitPresentLocked p d; requireAll ps d end.

Definition causalTimestampLocked (ts : Timestamp) (parents : list Hash) (d : InMemoryCommitDag) : Timestamp :=
  let micros := foldl (fun micros p =>
      match commitLocked d p with
      | Some c => let pm := EpochMicros (CommitTimestamp c) in if micros <=? pm then wraps 64 (pm + 1) else micros
      | None => micros
      end) (EpochMicros ts) parents in
  if micros =? EpochMicros ts then ts else TimestampFromEpochMicros micros.

(** The transaction's part of a commit: [tx], with the attachment operations a
    merge adds, the tree, the schema, the message and the attachment root. *)
Record payload := mkPayload {
  txID : UUID; txTimestamp : Timestamp; txAuthor : UUID; txOps : list Op;
  treeHash : Hash; schemaHash : option Hash; message : bytes; attachRoot : option Hash;
}.

Definition build (p : payload) (parents : list Hash) (d : InMemoryCommitDag) : cres Commit :=
  BuildCommitWithAttachments (mkCommit ZeroHash parents (dagNamespace d) (txID p)
    (causalTimestampLocked (txTimestamp p) parents d) (txAuthor p) (txOps p) (treeHash p) (schemaHash p) (message p) (attachRoot p)).

Definition check_head (branch : bytes) (expected : option Hash) (d : InMemoryCommitDag) : go dag_error unit :=
  match expected with
  | None => Ok tt
  | Some h =>
    match branches d !! branch with
    | None => Err (BranchNotFound (str "branch not found") branch)
    | Some b => if bool_decide (HeadHash b = h) then Ok tt else Err (HeadConflict branch h (HeadHash b))
    end
  end.

Definition appendCommitLocked (p : payload) (parents : list Hash) (branch : bytes) (expectedHead : option Hash)
    (now : Timestamp) (d : InMemoryCommitDag) : dres Commit :=
  match (_ ← requireAll parents d; check_head branch expectedHead d) with
  | Err e => (Err e, d)
  | Panic => (Panic, d)
  | Ok _ =>
    match build p parents d with
    | Err e => (Err (CommitFailed e), d)
    | Panic => (Panic, d)
    | Ok c =>
      match putCommitLocked c true false d with
      | (Err e, d) => (Err e, d)
      | (Panic, d) => (Panic, d)
      | (Ok _, d) =>
        match branches d !! branch with
        | None => (Err (ConsistencyError (str "branch missing") (Some (CommitHash c))), d)
        | Some b => (Ok c, publishHeadLocked (set_branches (<[branch := move b (CommitHash c) now]> (branches d)) d))
        end
      end
    end
  end.

Definition AppendCommit (p : payload) (parent : Hash) (now : Timestamp) (d : InMemoryCommitDag) : dres Commit :=
  appendCommitLocked p [parent] mainBranch (Some parent) now d.
Definition AppendCommitDetached (p : payload) (parent : Hash) (now : Timestamp) (d : InMemoryCommitDag) : dres Commit :=
  appendCommitLocked p [parent] mainBranch None now d.
Definition AppendMergeCommitOnto (expected : option Hash) (p : payload) (primary merged : Hash) (now : Timestamp) (d : InMemoryCommitDag) : dres Commit :=
  appendCommitLocked p [primary; merged] mainBranch expected now d.
Definition AppendMergeCommit (p : payload) (primary merged : Hash) (now : Timestamp) (d : InMemoryCommitDag) : dres Commit :=
  AppendMergeCommitOnto (Some primary) p primary merged now d.

Definition AppendCommitOnto (expected : option Hash) (p : payload) (parents : list Hash) (now : Timestamp) (d : InMemoryCommitDag) : dres Commit :=
  appendCommitLocked p parents mainBranch expected now d.

Definition AppendCommitWith (p : payload) (parent : Hash) (detached prov : bool) (now : Timestamp) (d : InMemoryCommitDag) : dres Commit :=
  match appendCommitLocked p [parent] mainBranch (if detached then None else Some parent) now d with
  | (Ok c, d) => (Ok c, if prov then set_marks ({[CommitHash c]} ∪ provisional d) (unlogged d) d else d)
  | r => r
  end.
Definition SettleProvisional (h : Hash) (d : InMemoryCommitDag) : InMemoryCommitDag := set_marks (provisional d ∖ {[h]}) (unlogged d) d.

(** ** Squashing *)

Definition syntheticTx : UUID := mkUUID 0x4000 (wraps 64 0x8000000000000003).
Definition syntheticAuthor : UUID := mkUUID 0x4000 (wraps 64 0x8000000000000004).

(** The checks of each commit of the window, in order. *)
Fixpoint squash_window (hs : list Hash) (d : InMemoryCommitDag) : go dag_error unit :=
  match hs with
  | [] => Ok tt
  | h :: hs =>
    match commitLocked d h with
    | None => Err (ConsistencyError (str "squash target missing") (Some h))
    | Some c =>
      match AttachmentTreeHash c with
      | Some _ => Err (CompactionSafety (str "squash window holds commits with attachments") h)
      | None => squash_window hs d
      end
    end
  end.

Definition Squash (hs : list Hash) (boundary tree : Hash) (schema : option Hash) (msg : bytes) (now : Timestamp) (d : InMemoryCommitDag) : dres Commit :=
  if negb (has d boundary) then (Err (VersionNotFound (str "boundary missing") boundary), d)
  else
    match squash_window hs d with
    | Err e => (Err e, d)
    | Panic => (Panic, d)
    | Ok _ =>
      match branch_at d hs with
      | Some h => (Err (CompactionSafety (str "branch head inside squash window") h), d)
      | None =>
        match List.find (pinned d) hs with
        | Some h => (Err (pinned_error h), d)
        | None =>
          match BuildCommitWithAttachments (mkCommit ZeroHash [] (dagNamespace d) syntheticTx now syntheticAuthor [] tree schema msg None) with
          | Err e => (Err (CommitFailed e), d)
          | Panic => (Panic, d)
          | Ok synthetic =>
            let d := set_tags ((fun t => if bool_decide (TagCommit t ∈ hs) then mkTag (TagName t) (CommitHash synthetic) (TagCreatedAt t) (TagMessage t) else t) <$> tags d) d in
            let d := foldl (fun d h => unlog h (set_stubs (delete h (stubs d)) (delete_node h d))) d hs in
            (Ok synthetic, publishHeadLocked (bump true (storeCommitLocked synthetic d)))
          end
        end
      end
    end.

(** ** Creation *)

Definition genesis (ns : bytes) (emptyTree : Hash) : cres Commit :=
  BuildCommitWithAttachments (mkCommit ZeroHash [] ns (mkUUID 0x4000 (wraps 64 0x8000000000000001)) (mkTs 0 0)
    (mkUUID 0x4000 (wraps 64 0x8000000000000002)) [] emptyTree None (str "genesis") None).

(** The graph of one commit, with the default branch at it. *)
Definition dag_of (ns : bytes) (g : Commit) (now : Timestamp) : InMemoryCommitDag :=
  let d := mkDag ns None ∅ ∅ ∅ ∅ ∅ ∅ ∅ 0 0 false false ∅ ∅ in
  let d := storeCommitLocked g d in
  let d := set_txIndex {[TransactionID g := CommitHash g]} d in
  let d := set_branches {[mainBranch := mkBranch mainBranch (CommitHash g) now now]} d in
  publishHeadLocked d.

(** The hash of the empty document tree is an argument. *)
Definition NewInMemoryCommitDag (ns : bytes) (emptyTree : Hash) (now : Timestamp) : cres InMemoryCommitDag :=
  g ← genesis ns emptyTree; Ok (dag_of ns g now).

(** The part of [SetGraphSettings] that concerns generations. *)
Definition SetAncestryPruning (on : bool) (d : InMemoryCommitDag) : InMemoryCommitDag :=
  let was := AncestryPruning d in
  let d := mkDag (dagNamespace d) (head d) (nodes d) (stubs d) (shallow d) (branches d) (tags d) (txIndex d) (pins d)
    (ancestryVersion d) (ancestryEpoch d) on (genStale d) (provisional d) (unlogged d) in
  if on && negb was then recomputeGenerationsLocked d else d.

End DagOps.
