(* ===== verification/DagAncestry.v ===== *)
(** What the walks of the commit graph compute: the ancestor closure, and that
    generation numbers, kept or recomputed, do not change any answer; and a small
    history for the theorems on the graph to be evaluated on. *)

From S2P Require Import Prelude Primitives Document Commit CommitDirect Walk Numbering Paint Dag DagOps.
Import Commit Dag.

Set Warnings "-clear-no-such-hyp".

Module DagAncestry.

(** [reach d x h]: [h] is [x] or an ancestor of it that walks can get to. *)
Definition reach (d : InMemoryCommitDag) : Hash -> Hash -> Prop := Walk.reach (expandParentsLocked d).

(** Hash links cannot form a cycle; and no path is longer than a uint32 counts. *)
Definition acyclic (d : InMemoryCommitDag) : Prop :=
  exists rank : Hash -> nat, (forall h p, p ∈ parentsOf d h -> (rank p < rank h)%nat) /\ forall h, Z.of_nat (rank h) < 2 ^ 32 - 1.

(** Every commit a walk goes through has a higher generation than its parents. *)
Definition gens_ok (d : InMemoryCommitDag) : Prop :=
  forall h p, p ∈ expandParentsLocked d h -> generationLocked d p < generationLocked d h.

(** The invariant of the numbers: with pruning on they are in order or known to be stale. *)
Definition gen_inv (d : InMemoryCommitDag) : Prop := AncestryPruning d = true -> genStale d = true \/ gens_ok d.

(** ** Parents *)

Lemma has_lookup d h : has d h = true <-> is_Some (nodes d !! h).
Proof. apply bool_decide_eq_true. Qed.
Lemma has_not d h : has d h = false <-> nodes d !! h = None.
Proof. unfold has. rewrite bool_decide_eq_false, eq_None_not_Some. done. Qed.

Lemma expand_parents d h p : p ∈ expandParentsLocked d h -> p ∈ parentsOf d h.
Proof. unfold expandParentsLocked. destruct (is_stub d h); [by intros ?%not_elem_of_nil|]. case_bool_decide; [by intros ?%not_elem_of_nil|done]. Qed.

Lemma parents_resident d h p : p ∈ parentsOf d h -> is_Some (nodes d !! h).
Proof. unfold parentsOf. destruct (nodes d !! h); [by eexists|by intros ?%not_elem_of_nil]. Qed.

Lemma all_parents_spec d p : p ∈ all_parents d <-> exists h, p ∈ parentsOf d h.
Proof.
  unfold all_parents, parentsOf.
  apply (map_fold_weak_ind (fun s m => p ∈ s <-> exists h, p ∈ match m !! h with Some n => ParentHashes (commit n) | None => [] end)).
  - split; [set_solver|]. intros [h Hh]. rewrite lookup_empty in Hh. by apply not_elem_of_nil in Hh.
  - intros k n m s Hk IH. rewrite elem_of_union, elem_of_list_to_set, IH. split.
    + intros [Hp|[h Hh]]; [exists k; by rewrite lookup_insert_eq|]. exists h. rewrite lookup_insert_ne; [done|].
      intros ->. rewrite Hk in Hh. by apply not_elem_of_nil in Hh.
    + intros [h Hh]. destruct (decide (k = h)) as [->|Hne]; [rewrite lookup_insert_eq in Hh; by left|].
      rewrite lookup_insert_ne in Hh by done. right. by exists h.
Qed.

Lemma parents_closed d h p : p ∈ parentsOf d h -> p ∈ all_parents d.
Proof. intros Hp. apply all_parents_spec. by exists h. Qed.
Lemma expand_closed d h p : p ∈ expandParentsLocked d h -> p ∈ all_parents d.
Proof. intros ?%expand_parents. by eapply parents_closed. Qed.

Lemma fifo_perm q ps : fifo q ps ≡ₚ ps ++ q.
Proof. unfold fifo. by rewrite Permutation_app_comm. Qed.
Lemma lifo_perm q ps : lifo q ps ≡ₚ ps ++ q.
Proof. unfold lifo. by rewrite <- Permutation_rev. Qed.

(** ** The walks *)

(** A walk whose verdict is a function of the commit: it ends, sees what it can
    get to, and what holds of the accumulator holds of the result. *)
Lemma explore_spec {A} push body look (valid : A -> Prop) (P : gset Hash -> A -> Prop) d start a :
  (forall q ps, push q ps ≡ₚ ps ++ q) ->
  (forall x a, valid a -> (body x a).2 = look x /\ valid (body x a).1) -> valid a ->
  (forall s a x, (x ∉ s) -> P s a -> P ({[x]} ∪ s) (body x a).1) -> P ∅ a ->
  let '(seen, r) := explore push body d start a in
  P seen r /\ (forall x, x ∈ seen -> exists s, s ∈ start /\ Walk.via (expandParentsLocked d) look s x) /\
  ((exists x, x ∈ seen /\ look x = Halt) \/
   (forall s x, s ∈ start -> Walk.via (expandParentsLocked d) look s x -> x ∈ seen) /\ forall x, x ∈ seen -> look x <> Halt).
Proof.
  intros Hp Hb Hv HP H0. unfold explore.
  destruct (Walk.walk_spec (expandParentsLocked d) push (all_parents d) body look valid Hb Hp (expand_closed d) start a Hv)
    as (seen & r & E & Hs & Hc). rewrite E. cbn. split; [|done].
  exact (Walk.walk_invariant (expandParentsLocked d) push body P _ _ _ _ (seen, r) HP H0 E).
Qed.

Lemma via_all d x y : Walk.via (expandParentsLocked d) (fun _ => Descend) x y <-> reach d x y.
Proof. split; intros H; eapply rtc_subrel; [|exact H| |exact H]; [by intros ? ? []|done]. Qed.

Lemma AncestorSetOf_spec d hs x : x ∈ AncestorSetOf d hs <-> exists s, s ∈ hs /\ reach d s x.
Proof.
  unfold AncestorSetOf. pose proof (explore_spec fifo (fun _ a => (a, Descend)) (fun _ => Descend) (fun _ => True) (fun _ _ => True) d hs tt
    fifo_perm ltac:(done) ltac:(done) ltac:(done) ltac:(done)) as H.
  destruct (explore _ _ _ _ _) as [seen r]. destruct H as (_ & Hs & Hc). cbn. split.
  - intros Hx. destruct (Hs x Hx) as (s & Hin & Hv). exists s. by rewrite <- via_all.
  - intros (s & Hin & Hr). destruct Hc as [(y & _ & ?)|[Hc _]]; [done|]. apply (Hc s); [done|]. by apply via_all.
Qed.

Lemma closure_spec d s x : x ∈ ancestorClosureLocked d s <-> reach d s x.
Proof. unfold ancestorClosureLocked. rewrite AncestorSetOf_spec. set_solver. Qed.

(** ** Recomputed numbers *)

Lemma setGenerations_lookup g d h :
  nodes (setGenerations g d) !! h = (fun n => mkNode (commit n) (default (generation n) (g !! h))) <$> nodes d !! h.
Proof.
  unfold setGenerations. cbn. rewrite map_lookup_imap. destruct (nodes d !! h) as [[c n]|]; [|done]. cbn. by destruct (g !! h).
Qed.

(** Changing numbers changes no edge. *)
Definition same_graph (d d' : InMemoryCommitDag) : Prop :=
  (forall h, commitLocked d' h = commitLocked d h) /\ stubs d' = stubs d /\ shallow d' = shallow d.

Lemma same_graph_trans d1 d2 d3 : same_graph d1 d2 -> same_graph d2 d3 -> same_graph d1 d3.
Proof. intros (C1 & S1 & H1) (C2 & S2 & H2). split_and!; [intros h; by rewrite C2, C1|congruence..]. Qed.
Lemma same_parents d d' h : same_graph d d' -> parentsOf d' h = parentsOf d h.
Proof.
  intros (Hc & _). specialize (Hc h). unfold commitLocked, parentsOf in *.
  destruct (nodes d !! h), (nodes d' !! h); simplify_option_eq; congruence.
Qed.
Lemma same_expand d d' h : same_graph d d' -> expandParentsLocked d' h = expandParentsLocked d h.
Proof.
  intros Hg. unfold expandParentsLocked, is_stub. rewrite (same_parents d d' h Hg). destruct Hg as (_ & -> & ->). done.
Qed.
Lemma same_has d d' h : same_graph d d' -> has d' h = has d h.
Proof.
  intros (Hc & _). specialize (Hc h). unfold commitLocked in Hc. unfold has. apply bool_decide_ext.
  destruct (nodes d !! h), (nodes d' !! h); simplify_option_eq; split; intros []; eauto; done.
Qed.
Lemma same_reach d d' x y : same_graph d d' -> reach d' x y <-> reach d x y.
Proof.
  intros Hg. unfold reach, Walk.reach. split; intros H; (eapply rtc_subrel; [|exact H]); unfold Walk.edge; intros a b; by rewrite (same_expand d d' a Hg).
Qed.
Lemma same_acyclic d d' : same_graph d d' -> acyclic d -> acyclic d'.
Proof. intros Hg (rank & R1 & R2). exists rank. split; [|done]. intros h p. rewrite (same_parents d d' h Hg). apply R1. Qed.

Section Recompute.
Context (d : InMemoryCommitDag) (rank : Hash -> nat).
Hypothesis rank_mono : forall h p, p ∈ parentsOf d h -> (rank p < rank h)%nat.
Hypothesis rank_bound : forall h, Z.of_nat (rank h) < 2 ^ 32 - 1.

Abbreviation absent := (fun h => negb (has d h)).
Definition true_gen (h : Hash) : Z := Numbering.level (parentsOf d) absent rank h.

(** Whatever the order of the roots, every commit gets its level. *)
Lemma number_roots_spec roots h :
  (h ∈ roots) -> has d h = true -> Numbering.gen (number_roots d roots) !! h = Some (true_gen h).
Proof.
  intros Hin Hh. unfold number_roots. set (f := fun s root => _).
  assert (Hf : forall rs s, Numbering.numbered (parentsOf d) absent rank s -> Numbering.active s = ∅ ->
    let s' := foldl f s rs in Numbering.numbered (parentsOf d) absent rank s' /\ Numbering.settled s ⊆ Numbering.settled s' /\
      forall r, r ∈ rs -> r ∈ Numbering.settled s').
  { induction rs as [|r rs IH]; intros s Hn Ha; cbn [foldl]; [split_and!; [done..|by intros ? ?%not_elem_of_nil]|].
    assert (Hs : Numbering.numbered (parentsOf d) absent rank (f s r) /\ Numbering.active (f s r) = ∅ /\
      Numbering.settled s ⊆ Numbering.settled (f s r) /\ r ∈ Numbering.settled (f s r)).
    { unfold f. case_bool_decide; [done|]. apply (Numbering.number_spec (parentsOf d) absent (all_parents d) rank rank_mono rank_bound (parents_closed d) r s Hn Ha). }
    destruct Hs as (S1 & S2 & S3 & S4). destruct (IH (f s r) S1 S2) as (I1 & I2 & I3). cbn.
    split_and!; [done|set_solver|]. intros x [->|Hx]%elem_of_cons; [by apply I2|by apply I3]. }
  destruct (Hf roots (Numbering.mkDfs ∅ ∅ ∅ [])) as ([_ N2] & _ & N3); [split; cbn; set_solver|done|]. apply N2; [by apply N3|]. by rewrite Hh.
Qed.

Lemma recompute_generation h : generationLocked (recomputeGenerationsLocked d) h = true_gen h.
Proof.
  unfold recomputeGenerationsLocked, generationLocked. cbn [set_genStale nodes]. rewrite setGenerations_lookup.
  destruct (nodes d !! h) as [n|] eqn:E; cbn -[true_gen].
  - rewrite number_roots_spec; [done| |apply has_lookup; by eexists]. rewrite elem_of_elements, elem_of_dom. by eexists.
  - unfold true_gen. rewrite Numbering.level_step by done. by rewrite (proj2 (has_not d h) E).
Qed.

Lemma true_gen_mono h p : p ∈ parentsOf d h -> true_gen p < true_gen h.
Proof.
  intros Hp. apply Numbering.level_mono; [done| |done]. apply negb_false_iff, has_lookup. by eapply parents_resident.
Qed.
End Recompute.

Lemma recompute_graph d : same_graph d (recomputeGenerationsLocked d).
Proof.
  split_and!; [|done..]. intros h. unfold recomputeGenerationsLocked, commitLocked. cbn [set_genStale nodes].
  rewrite setGenerations_lookup. by destruct (nodes d !! h).
Qed.

Lemma recompute_ok d : acyclic d -> gens_ok (recomputeGenerationsLocked d).
Proof.
  intros (rank & R1 & R2) h p Hp. rewrite (same_expand d _ h (recompute_graph d)) in Hp. apply expand_parents in Hp.
  rewrite !(recompute_generation d rank) by done. by apply true_gen_mono.
Qed.

Lemma ensure_spec d : acyclic d -> gen_inv d ->
  let '(ok, d') := ensureGenerationsLocked d in same_graph d d' /\ acyclic d' /\ ok = AncestryPruning d /\ (ok = true -> gens_ok d').
Proof.
  intros Ha Hi. unfold ensureGenerationsLocked. destruct (AncestryPruning d) eqn:Ep; cbn; [|done].
  destruct (genStale d) eqn:Es.
  - pose proof (recompute_graph d) as Hg. split_and!; [done|by eapply same_acyclic|done|]. intros _. by apply recompute_ok.
  - split_and!; [done..|]. intros _. destruct (Hi Ep); [congruence|done].
Qed.

End DagAncestry.

(** * A history to evaluate on

    A small history with two criss-cross merges, built with the operations of the
    graph, for the theorems to be evaluated on; and a test for acyclicity. *)

Import CommitDirect DagOps DagAncestry.

Module DagDemo.

Definition ok_or {E A} (x : A) (r : go E A) : A := match r with Ok y => y | _ => x end.
Definition is_ok {E A} (r : go E A) : bool := match r with Ok _ => true | _ => false end.

Lemma is_ok_or {E A} (x : A) (r : go E A) : is_ok r = true -> r = Ok (ok_or x r).
Proof. by destruct r. Qed.

Definition demo_payload (i : Z) : payload := mkPayload (mkUUID 1 i) (mkTs i 0) (mkUUID 2 2) [] ZeroHash None [] None.
Definition demo_commit (i : Z) (ps : list Hash) : Commit :=
  let c := mkCommit ZeroHash ps (str "demo") (mkUUID 1 i) (mkTs i 0) (mkUUID 2 2) [] ZeroHash None [] None in
  ok_or c (BuildCommitWithAttachments c).

(** The commits are evaluated here, so that their hashes are computed once. *)
Definition demo_genesis : Commit := Eval vm_compute in ok_or (demo_commit 0 []) (genesis (str "demo") ZeroHash).
Definition demo_root : Hash := CommitHash demo_genesis.
Definition demo_dag : InMemoryCommitDag := dag_of (str "demo") demo_genesis (mkTs 0 0).

Lemma demo_new : NewInMemoryCommitDag (str "demo") ZeroHash (mkTs 0 0) = Ok demo_dag.
Proof.
  assert (E : genesis (str "demo") ZeroHash = Ok demo_genesis) by (vm_compute; reflexivity). unfold NewInMemoryCommitDag. by rewrite E.
Qed.

Definition commit_a : Commit := Eval vm_compute in demo_commit 1 [demo_root].
Definition commit_b : Commit := Eval vm_compute in demo_commit 2 [CommitHash commit_a].
Definition commit_c : Commit := Eval vm_compute in demo_commit 3 [CommitHash commit_b].
Definition commit_x : Commit := Eval vm_compute in demo_commit 4 [demo_root].
Definition merge_1 : Commit := Eval vm_compute in demo_commit 5 [CommitHash commit_a; CommitHash commit_x].
Definition merge_2 : Commit := Eval vm_compute in demo_commit 6 [CommitHash commit_x; CommitHash commit_a].

(** [PutCommit] of commits with the right hash. *)
Definition put_all (cs : list Commit) (d : InMemoryCommitDag) : InMemoryCommitDag := foldl (fun d c => (putCommitLocked c true false d).2) d cs.

Definition verified (c : Commit) : bool := is_ok (verify c).

Lemma put_verified c r d : verified c = true -> PutCommit c r d = putCommitLocked c r false d.
Proof. unfold verified, PutCommit, putCommitLocked. by destruct (verify c). Qed.
Lemma put_all_verified cs d : forallb verified cs = true -> foldl (fun d c => (PutCommit c true d).2) d cs = put_all cs d.
Proof. revert d. induction cs as [|c cs IH]; intros d H; [done|]. apply andb_prop in H as [Hc H]. cbn. rewrite put_verified by done. by apply IH. Qed.

Definition demo_commits : list Commit := [commit_a; commit_b; commit_c; commit_x; merge_1; merge_2].
Lemma demo_verified : forallb verified demo_commits = true.
Proof. vm_compute. reflexivity. Qed.
Lemma demo_put i c r d : demo_commits !! i = Some c -> PutCommit c r d = putCommitLocked c r false d.
Proof.
  intros E%list_elem_of_lookup_2. apply put_verified. pose proof demo_verified as H. rewrite forallb_forall in H. by apply H, list_elem_of_In.
Qed.

(** [a] and [x] on the root, and two merges of them; the numbers are still to be computed. *)
Definition demo_merges : InMemoryCommitDag :=
  InvalidateGenerations (SetAncestryPruning true (put_all [commit_a; commit_x; merge_1; merge_2] demo_dag)).

(** ** Acyclicity of a given graph *)

(** The position of a hash in a list of ancestors before descendants. *)
Definition position (l : list Hash) (h : Hash) : nat := match list_find (eq h) l with Some (i, _) => i | None => length l end.

Lemma position_bound l h : (position l h <= length l)%nat.
Proof. unfold position. destruct (list_find (eq h) l) as [[i x]|] eqn:E; [|done]. apply list_find_Some in E as (E & _). apply lookup_lt_Some in E. lia. Qed.

Definition ordered_by (l : list Hash) (d : InMemoryCommitDag) : bool :=
  bool_decide (map_Forall (fun h n => Forall (fun p => (position l p < position l h)%nat) (ParentHashes (commit n))) (nodes d)).

Lemma ordered_acyclic l d : ordered_by l d = true -> (length l < 1000)%nat -> acyclic d.
Proof.
  intros Ho%bool_decide_eq_true Hl. exists (position l). split.
  - intros h p. unfold parentsOf. destruct (nodes d !! h) as [n|] eqn:E; [|by intros ?%not_elem_of_nil]. intros Hp.
    specialize (Ho h n E). cbn in Ho. rewrite Forall_forall in Ho. auto.
  - intros h. pose proof (position_bound l h). lia.
Qed.

Definition demo_order : list Hash := [demo_root; CommitHash commit_a; CommitHash commit_x; CommitHash merge_1; CommitHash merge_2].

Lemma demo_merges_acyclic : acyclic demo_merges.
Proof. apply (ordered_acyclic demo_order); [vm_compute; reflexivity|cbn; lia]. Qed.
Lemma demo_merges_inv : gen_inv demo_merges.
Proof. intros _. by left. Qed.
Lemma demo_dag_acyclic : acyclic demo_dag.
Proof. apply (ordered_acyclic [demo_root]); [vm_compute; reflexivity|cbn; lia]. Qed.

End DagDemo.
