(* ===== verification/DagMerge.v ===== *)
(** Ancestry tests and merge bases, with and without generation numbers. *)

From S2P Require Import Prelude Primitives Commit Document CommitDirect Walk Numbering Paint Dag DagOps DagAncestry.
Import Commit Dag DagAncestry DagDemo.

Set Warnings "-clear-no-such-hyp".

Module DagMerge.

(** ** The pruned ancestry test *)

Lemma reach_gen d x y : gens_ok d -> reach d x y -> x = y \/ generationLocked d y < generationLocked d x.
Proof. intros Hg. induction 1 as [|x z y He _ IH]; [by left|right]. apply Hg in He. destruct IH as [->|]; lia. Qed.

(** A path to [a] on which the walk goes through everything but [a]. *)
Lemma reach_via d look x a : (forall y, reach d y a -> y <> a -> look y = Descend) -> reach d x a -> Walk.via (expandParentsLocked d) look x a.
Proof.
  intros Hl Hr. induction Hr as [|x z a He Hr IH]; [constructor|]. destruct (decide (x = a)) as [->|Hne]; [constructor|].
  econstructor; [|by apply IH]. split; [|done]. apply Hl; [by econstructor|done].
Qed.

(** What the pruned test finds it got to along parents; it finds an ancestor when the walk goes
    through everything between the two. *)
Lemma pruned_walk d a x : (isAncestorPrunedLocked d a x = true -> reach d x a) /\ (gens_ok d -> reach d x a -> isAncestorPrunedLocked d a x = true).
Proof.
  unfold isAncestorPrunedLocked. case_bool_decide as E; [subst; split; [constructor|done]|].
  set (body := fun (h : Hash) (found : bool) => _).
  set (look := fun h => if bool_decide (h = a) then Halt else if (0 <? generationLocked d a) && (generationLocked d h <=? generationLocked d a) then Skip else Descend).
  pose proof (explore_spec lifo body look (fun _ => True) (fun seen found => found = true <-> a ∈ seen) d [x] false lifo_perm) as H.
  destruct (explore lifo body d [x] false) as [seen r]. destruct H as (Hr & Hs & Hc); [|done| | |].
  - intros h found _. unfold body, look. case_bool_decide; [done|]. by destruct (_ && _).
  - intros s f y Hy Hf. unfold body. case_bool_decide as Ey; [subst; set_solver|]. destruct (_ && _); set_solver.
  - set_solver.
  - cbn. rewrite Hr. split.
    + intros Ha. destruct (Hs a Ha) as (s & ->%list_elem_of_singleton & Hv). by eapply Walk.via_reach.
    + intros Hg Hra. destruct Hc as [(y & Hy & El)|[Hc _]].
      * unfold look in El. case_bool_decide as Ey; [by subst|]. by destruct (_ && _).
      * apply (Hc x); [set_solver|]. apply reach_via; [|done]. intros y Hy Hne. unfold look. rewrite bool_decide_false by done.
        destruct (reach_gen d y a Hg Hy) as [|Hlt]; [done|]. destruct (Z.leb_spec (generationLocked d y) (generationLocked d a)); [lia|]. by rewrite andb_false_r.
Qed.

Lemma pruned_spec d a x : gens_ok d -> isAncestorPrunedLocked d a x = true <-> reach d x a.
Proof. intros Hg. destruct (pruned_walk d a x). split; auto. Qed.

(** ** Common ancestors *)

Abbreviation common d := (Paint.common (expandParentsLocked d)).
Abbreviation nearest d := (Paint.nearest (expandParentsLocked d)).

Section Nearest.
Context (d : InMemoryCommitDag) (xs ys : list Hash).

Definition commons : gset Hash := AncestorSetOf d xs ∩ AncestorSetOf d ys.
Lemma commons_spec h : h ∈ commons <-> common d xs ys h.
Proof. unfold commons. rewrite elem_of_intersection, !AncestorSetOf_spec. done. Qed.

Lemma strict_above h : (exists c, common d xs ys c /\ reach d c h /\ c <> h) \/ forall c, common d xs ys c -> reach d c h -> c = h.
Proof.
  destruct (decide (set_Exists (fun c => h ∈ ancestorClosureLocked d c /\ c <> h) commons)) as [(c & Hc & Hr & Hne)|Hn].
  - left. exists c. rewrite <- commons_spec, <- closure_spec. done.
  - right. intros c Hc Hr. destruct (decide (c = h)); [done|]. exfalso. apply Hn. exists c. rewrite commons_spec, closure_spec. done.
Qed.

Lemma reach_rank rank x y : (forall h p, p ∈ parentsOf d h -> (rank p < rank h)%nat) -> reach d x y -> x = y \/ (rank y < rank x)%nat.
Proof. intros Hm. induction 1 as [|x z y He _ IH]; [by left|right]. apply expand_parents, Hm in He. destruct IH as [->|]; lia. Qed.

(** Above every common ancestor there is a nearest one. *)
Lemma nearest_above h : acyclic d -> common d xs ys h -> exists n, nearest d xs ys n /\ reach d n h.
Proof.
  intros (rank & Hm & Hb). remember (Z.to_nat (2 ^ 32) - rank h)%nat as k eqn:E. assert (Z.to_nat (2 ^ 32) - rank h <= k)%nat as Hk by lia.
  clear E. revert h Hk. induction k as [|k IH]; intros h Hk Hh; pose proof (Hb h); [lia|].
  destruct (strict_above h) as [(c & Hc & Hr & Hne)|Hmax]; [|exists h; split; [done|constructor]].
  destruct (reach_rank rank c h Hm Hr) as [|Hlt]; [done|]. destruct (IH c) as (n & Hn & Hnr); [lia|done|].
  exists n. split; [done|]. by etrans.
Qed.

(** ** Candidates without generations *)

Lemma closure_candidates :
  (forall h, h ∈ commonByClosureLocked d xs ys -> common d xs ys h) /\ forall h, nearest d xs ys h -> h ∈ commonByClosureLocked d xs ys.
Proof.
  unfold commonByClosureLocked. set (setA := foldl _ _ _).
  assert (HA : forall h, h ∈ setA <-> exists a, a ∈ xs /\ reach d a h).
  { unfold setA. enough (forall l s h, h ∈ foldl (fun s a => s ∪ ancestorClosureLocked d a) s l <-> h ∈ s \/ exists a, a ∈ l /\ reach d a h) as E
      by (intros h; rewrite E; set_solver).
    induction l as [|a l IH]; intros s h; cbn [foldl]; [set_solver|]. rewrite IH, elem_of_union, closure_spec. set_solver. }
  set (body := fun (h : Hash) (out : list Hash) => _). set (look := fun h => if bool_decide (h ∈ setA) then Skip else Descend).
  pose proof (explore_spec fifo body look (fun _ => True) (fun seen out => forall h, h ∈ out <-> h ∈ seen /\ h ∈ setA) d ys [] fifo_perm) as H.
  destruct (explore fifo body d ys []) as [seen r]. destruct H as (Hr & Hs & Hc); [|done| | |].
  - intros h o _. unfold body, look. by case_bool_decide.
  - intros s o y Hy Ho h. unfold body. case_bool_decide; cbn; rewrite ?elem_of_app, ?list_elem_of_singleton, Ho; set_solver.
  - intros h. split; [by intros ?%not_elem_of_nil|set_solver].
  - cbn. split; intros h.
    + rewrite Hr. intros [Hx Ha%HA]. split; [done|]. destruct (Hs h Hx) as (s & Hin & Hv%Walk.via_reach). by exists s.
    + intros [[Ha (b & Hb & Hbr)] Hmax]. apply Hr. split; [|by apply HA]. destruct Hc as [(y & _ & El)|[Hc _]]; [unfold look in El; by case_bool_decide|].
      apply (Hc b); [done|]. clear Hc Hs Hr. assert (Hy : Paint.from (expandParentsLocked d) ys b) by (exists b; split; [done|constructor]). clear Hb. revert Hy.
      induction Hbr as [|x z h He Hr IH]; [constructor|]. intros Hx. destruct (decide (x = h)) as [->|Hne]; [constructor|].
      assert (Hz : Paint.from (expandParentsLocked d) ys z) by (eapply Paint.from_down; [exact Hx|by apply rtc_once]).
      econstructor; [|by apply IH]. split; [|done]. unfold look. rewrite bool_decide_false; [done|].
      intros Hxa%HA. apply Hne. apply Hmax; [done|]. by econstructor.
Qed.

(** ** Dropping redundant candidates *)

Lemma uniq_spec cands : NoDup (uniq cands) /\ forall h, h ∈ uniq cands <-> h ∈ cands.
Proof.
  unfold uniq. enough (forall (l u : list Hash), NoDup u -> NoDup (foldl (fun u h => if bool_decide (h ∈ u) then u else u ++ [h]) u l) /\
    forall h, h ∈ foldl (fun u h => if bool_decide (h ∈ u) then u else u ++ [h]) u l <-> h ∈ u \/ h ∈ l) as E.
  { destruct (E cands [] (NoDup_nil_2)) as [E1 E2]. split; [done|]. intros h. rewrite E2. set_solver. }
  induction l as [|x l IH]; intros u Hu; cbn [foldl]; [set_solver|]. case_bool_decide as Hx.
  - destruct (IH u Hu) as [I1 I2]. split; [done|]. intros h. rewrite I2. set_solver.
  - destruct (IH (u ++ [x])) as [I1 I2].
    + apply NoDup_app. split_and!; [done|set_solver|apply NoDup_singleton].
    + split; [done|]. intros h. rewrite I2. set_solver.
Qed.

Section Redundant.
Context {M : Type} (gen : option (Hash -> M -> Z * M)) (value : Hash -> Z) (valid : M -> Prop).
Hypothesis gen_good : forall g, gen = Some g -> Paint.Generations (expandParentsLocked d) g value valid.

Lemma floor_of_spec g u m : Paint.Generations (expandParentsLocked d) g value valid -> valid m ->
  valid (floor_of g u m).2 /\ forall h, h ∈ u -> (floor_of g u m).1 <= value h.
Proof.
  intros Hg Hm. destruct u as [|h u]; cbn [floor_of]; [split; [done|]; by intros ? ?%not_elem_of_nil|].
  set (f := fun '(fl, m) h => _).
  enough (forall l fl m, valid m -> valid (foldl f (fl, m) l).2 /\ (foldl f (fl, m) l).1 <= fl /\ forall x, x ∈ l -> (foldl f (fl, m) l).1 <= value x) as E.
  { pose proof (Paint.gen_value _ g h m Hm) as Ev. pose proof (Paint.gen_valid _ g h m Hm) as Hv. destruct (g h m) as [fl m']. cbn in Ev, Hv.
    destruct (E u fl m' Hv) as (E1 & E2 & E3). split; [done|]. intros x [->|Hx]%elem_of_cons; [lia|auto]. }
  clear h u m Hm. induction l as [|x l IH]; intros fl m Hm; cbn [foldl]; [split_and!; [done|done|]; by intros ? ?%not_elem_of_nil|].
  pose proof (Paint.gen_value _ g x m Hm) as Ev. pose proof (Paint.gen_valid _ g x m Hm) as Hv. unfold f at 2 4 6. destruct (g x m) as [gx m']. cbn in Ev, Hv.
  destruct (IH (if gx <? fl then gx else fl) m' Hv) as (E1 & E2 & E3). destruct (Z.ltb_spec gx fl); split_and!; try done; try lia;
    intros y [->|Hy]%elem_of_cons; [lia|auto|lia|auto].
Qed.

Lemma start_spec u x : x ∈ foldl (fun st h => lifo st (expandParentsLocked d h)) [] u <-> exists c, c ∈ u /\ x ∈ expandParentsLocked d c.
Proof.
  enough (forall l st, x ∈ foldl (fun st h => lifo st (expandParentsLocked d h)) st l <-> x ∈ st \/ exists c, c ∈ l /\ x ∈ expandParentsLocked d c) as E
    by (rewrite E; set_solver).
  induction l as [|c l IH]; intros st; cbn [foldl]; [set_solver|]. rewrite IH, (lifo_perm st (expandParentsLocked d c)). set_solver.
Qed.

(** What is kept of the candidates, when there are several: those that are not below another. *)
Definition below_another (u : list Hash) (h : Hash) : Prop := exists c p, c ∈ u /\ p ∈ expandParentsLocked d c /\ reach d p h.

Lemma redundant_walk u floor m : valid m -> (forall g, gen = Some g -> forall h, h ∈ u -> floor <= value h) ->
  let '(below, m') := (explore lifo (redundant_body gen u floor) d (foldl (fun st h => lifo st (expandParentsLocked d h)) [] u) (∅, m)).2 in
  valid m' /\ forall h, h ∈ below <-> h ∈ u /\ below_another u h.
Proof.
  intros Hm Hfl. set (start := foldl _ _ _).
  set (look := fun h => match gen with Some _ => if value h <=? floor then Skip else Descend | None => Descend end).
  assert (Hbody : forall x (a : gset Hash * M), valid a.2 -> (redundant_body gen u floor x a).2 = look x /\ valid (redundant_body gen u floor x a).1.2).
  { intros x [below m0] Hv. unfold redundant_body, look. cbn in Hv. destruct gen as [g|]; [|done]. specialize (gen_good g eq_refl).
    pose proof (Paint.gen_value _ g x m0 Hv) as Ev. pose proof (Paint.gen_valid _ g x m0 Hv) as Hv'. destruct (g x m0) as [gx m1]. cbn in *. by rewrite Ev. }
  pose proof (explore_spec lifo (redundant_body gen u floor) look (fun a : gset Hash * M => valid a.2)
    (fun seen a => valid a.2 /\ forall h, h ∈ a.1 <-> h ∈ seen /\ h ∈ u) d start (∅, m) lifo_perm Hbody Hm) as H.
  destruct (explore lifo (redundant_body gen u floor) d start (∅, m)) as [seen [below m']]. cbn.
  destruct H as ([Hv Hb] & Hs & Hc); [|split; [done|cbn; set_solver]|].
  { intros s [below0 m0] y Hy [Hv0 Hb0]. split; [by apply Hbody|]. intros h. cbn in Hb0. unfold redundant_body.
    assert (Hn : h ∈ (if bool_decide (y ∈ u) then {[y]} ∪ below0 else below0) <-> h ∈ {[y]} ∪ s /\ h ∈ u) by (case_bool_decide; set_solver).
    destruct gen as [g|]; [destruct (g y m0)|]; exact Hn. }
  cbn in Hv, Hb. split; [done|]. intros h. rewrite Hb. split.
  - intros [Hx Hu]. split; [done|]. destruct (Hs h Hx) as (p & (c & Hcu & Hp)%start_spec & Hr%Walk.via_reach). by exists c, p.
  - intros [Hu (c & p & Hcu & Hp & Hr)]. split; [|done]. destruct Hc as [(y & _ & El)|[Hc _]].
    { unfold look in El. destruct gen; [by destruct (_ <=? _)|done]. }
    apply (Hc p); [apply start_spec; by exists c|]. apply reach_via; [|done]. intros y Hy Hne. unfold look.
    destruct gen as [g|] eqn:Eg; [|done]. pose proof (gen_good g eq_refl) as Gg. pose proof (Hfl g eq_refl h Hu).
    destruct (Paint.reach_value (expandParentsLocked d) g (value := value) (valid := valid) y h Hy) as [|Hlt]; [done|].
    destruct (Z.leb_spec (value y) floor); [lia|done].
Qed.

(** From candidates that are common ancestors and have the nearest among them, the nearest are kept. *)
Lemma removeRedundant_spec cands m : acyclic d -> valid m ->
  (forall h, h ∈ cands -> common d xs ys h) -> (forall h, nearest d xs ys h -> h ∈ cands) ->
  let '(out, m') := removeRedundantLocked d gen m cands in valid m' /\ NoDup out /\ forall h, h ∈ out <-> nearest d xs ys h.
Proof.
  intros Ha Hm Hcom Hnear. unfold removeRedundantLocked. destruct (uniq_spec cands) as [Un Ue]. set (u := uniq cands) in *.
  assert (Hu1 : forall h, h ∈ u -> exists n, n ∈ u /\ nearest d xs ys n /\ reach d n h).
  { intros h Hh%Ue%Hcom. destruct (nearest_above h Ha Hh) as (n & Hn & Hr). exists n. rewrite Ue. auto. }
  destruct (Nat.ltb_spec (length u) 2) as [Hlen|Hlen].
  { split_and!; [done..|]. intros h. split; [|intros Hn; apply Ue; auto]. intros Hh. destruct (Hu1 h Hh) as (n & Hnu & Hn & _).
    destruct u as [|a [|b u]]; cbn in Hlen; [by apply not_elem_of_nil in Hh| |lia]. apply list_elem_of_singleton in Hh as ->, Hnu as ->. done. }
  assert (Hf : let '(floor, m') := match gen with Some g => floor_of g u m | None => (0, m) end in
    valid m' /\ forall g, gen = Some g -> forall h, h ∈ u -> floor <= value h).
  { destruct gen as [g|]; [|done]. pose proof (floor_of_spec g u m (gen_good g eq_refl) Hm) as Hfl. destruct (floor_of g u m). naive_solver. }
  destruct (match gen with Some g => floor_of g u m | None => (0, m) end) as [floor m1]. destruct Hf as [Hm1 Hfl].
  pose proof (redundant_walk u floor m1 Hm1 Hfl) as Hw. destruct (_.2) as [below m2]. destruct Hw as [Hm2 Hb].
  split; [done|]. split; [by apply NoDup_ListNoDup, List.NoDup_filter, NoDup_ListNoDup|].
  intros h. rewrite list_elem_of_In, filter_In, <- list_elem_of_In, negb_true_iff, bool_decide_eq_false, Hb. split.
  - intros [Hh Hnb]. destruct (Hu1 h Hh) as (n & Hnu & Hn & Hr). destruct Hr as [|n p h He Hr]; [done|]. exfalso. apply Hnb. split; [done|]. by exists n, p.
  - intros Hn. split; [apply Ue; auto|]. intros [_ (c & p & Hc%Ue%Hcom & Hp & Hr)]. assert (c = h) as -> by (apply Hn; [done|by econstructor]).
    destruct Ha as (rank & Hmono & _). pose proof (Hmono h p (expand_parents d h p Hp)). destruct (reach_rank rank p h Hmono Hr) as [->|]; lia.
Qed.
End Redundant.
End Nearest.

(** ** Generations, kept and lazy *)

Lemma dag_gen_good d : gens_ok d -> Paint.Generations (expandParentsLocked d) (dag_gen d) (generationLocked d) (fun _ => True).
Proof. intros Hg. constructor; [done..|exact Hg]. Qed.

Section Finder.
Context (d : InMemoryCommitDag) (rank : Hash -> nat).
Hypothesis rank_mono : forall h p, p ∈ parentsOf d h -> (rank p < rank h)%nat.
Hypothesis rank_bound : forall h, Z.of_nat (rank h) < 2 ^ 32 - 1.

Abbreviation lvl := (Numbering.level (expandParentsLocked d) (fun _ => false) rank).
Definition memo_ok (m : gmap Hash Z) : Prop := forall h g, m !! h = Some g -> g = lvl h.

Lemma expand_mono h p : p ∈ expandParentsLocked d h -> (rank p < rank h)%nat.
Proof. intros ?%expand_parents. by apply rank_mono. Qed.

Lemma finder_gen_spec h m : memo_ok m -> (finder_gen d h m).1 = lvl h /\ memo_ok (finder_gen d h m).2.
Proof.
  intros Hm. unfold finder_gen. destruct (m !! h) as [g|] eqn:E; [split; [by apply Hm|done]|].
  pose proof (Numbering.number_spec (expandParentsLocked d) (fun _ => false) (all_parents d) rank expand_mono rank_bound (expand_closed d)
    h (Numbering.mkDfs m (dom m) ∅ [])) as H. cbv zeta in H. destruct H as ([N1 N2] & _ & _ & Hs); [|done|].
  - split; cbn; intros x; [intros g Hg; split_and!; [by apply elem_of_dom_2 in Hg|done|by apply Hm]|].
    intros [g Hg]%elem_of_dom _. by rewrite Hg, (Hm x g Hg).
  - cbn -[Numbering.level]. split; [by rewrite N2|]. intros x g Hg. by apply N1 in Hg as (_ & _ & ?).
Qed.

Lemma finder_gen_good : Paint.Generations (expandParentsLocked d) (finder_gen d) lvl memo_ok.
Proof.
  constructor; [intros; by apply finder_gen_spec..|]. intros h p Hp. apply Numbering.level_mono; [exact expand_mono|done|done].
Qed.
End Finder.

(** ** Merge bases *)

Lemma SortHashes_sorted l : StronglySorted (before HashBytes) (SortHashes l).
Proof. by apply isort_bytes. Qed.
Lemma SortHashes_unique l l' : l ≡ₚ l' -> SortHashes l = SortHashes l'.
Proof. apply (isort_bytes_unique _ HashBytes); [done|]. intros [a] [b]. cbn. by intros ->. Qed.

(** The nearest common ancestors, in the order of their hashes. *)
Definition bases_spec (d : InMemoryCommitDag) (xs ys bs : list Hash) : Prop :=
  NoDup bs /\ StronglySorted (before HashBytes) bs /\ forall h, h ∈ bs <-> nearest d xs ys h.

Lemma bases_unique d xs ys bs bs' : bases_spec d xs ys bs -> bases_spec d xs ys bs' -> bs = bs'.
Proof.
  intros (N & S & H) (N' & S' & H'). apply (StronglySorted_unique_strong (before HashBytes)); [|done|done|].
  - intros [a] [b] _ _ L1 L2. f_equal. by apply bytes_leb_antisymm.
  - apply NoDup_Permutation; [done..|]. intros h. by rewrite H, H'.
Qed.

Lemma SortHashes_bases d xs ys out : NoDup out -> (forall h, h ∈ out <-> nearest d xs ys h) -> bases_spec d xs ys (SortHashes out).
Proof.
  intros Hn Hs. unfold bases_spec, SortHashes. split_and!; [by rewrite isort_perm|apply SortHashes_sorted|]. intros h. by rewrite isort_perm.
Qed.

Lemma same_nearest d d' xs ys h : same_graph d d' -> nearest d' xs ys h <-> nearest d xs ys h.
Proof.
  intros Hg. unfold Paint.nearest, Paint.common, Paint.from. repeat setoid_rewrite (fun x y => same_reach d d' x y Hg : Walk.reach _ x y <-> Walk.reach _ x y). done.
Qed.

Lemma same_bases d d' xs ys bs : same_graph d d' -> bases_spec d' xs ys bs -> bases_spec d xs ys bs.
Proof. intros Hg (? & ? & H). split_and!; [done..|]. intros h. by rewrite H, (same_nearest d d'). Qed.

Lemma painted_bases {M} d (gen : Hash -> M -> Z * M) value valid xs ys m : acyclic d ->
  Paint.Generations (expandParentsLocked d) gen value valid -> valid m ->
  let '(cands, m1) := Paint.paintDownToCommon (expandParentsLocked d) gen (all_parents d) xs ys m in
  let '(out, m2) := removeRedundantLocked d (Some gen) m1 cands in valid m2 /\ bases_spec d xs ys (SortHashes out).
Proof.
  intros Ha Hg Hm. pose proof (Paint.paint_spec (expandParentsLocked d) gen (all_parents d) (expand_closed d) xs ys m Hm) as Hp.
  destruct (Paint.paintDownToCommon _ _ _ _ _ _) as [cands m1]. destruct Hp as (Hm1 & Hc & Hn).
  pose proof (removeRedundant_spec d xs ys (Some gen) value valid ltac:(by intros ? [= <-]) cands m1 Ha Hm1 Hc Hn) as Hr.
  destruct (removeRedundantLocked _ _ _ _) as [out m2]. destruct Hr as (? & ? & ?). split; [done|]. by apply SortHashes_bases.
Qed.

Lemma MergeBases_bases d xs ys : acyclic d -> gen_inv d -> bases_spec d xs ys (MergeBases xs ys d).1.
Proof.
  intros Ha Hi. unfold MergeBases. pose proof (ensure_spec d Ha Hi) as He. destruct (ensureGenerationsLocked d) as [ok d'].
  destruct He as (Hg & Ha' & _ & Hok). cbn [fst]. apply (same_bases d d' xs ys); [done|]. destruct ok.
  - pose proof (painted_bases d' (dag_gen d') (generationLocked d') (fun _ => True) xs ys tt Ha' (dag_gen_good d' (Hok eq_refl)) I) as H.
    destruct (Paint.paintDownToCommon _ _ _ _ _ _) as [cands []]. cbn. destruct (removeRedundantLocked _ _ _ _). apply H.
  - pose proof (removeRedundant_spec d' xs ys None (fun _ => 0) (fun _ : unit => True) ltac:(done) (commonByClosureLocked d' xs ys) tt Ha' I) as H.
    destruct (closure_candidates d' xs ys) as [C1 C2]. specialize (H C1 C2). destruct (removeRedundantLocked _ _ _ _) as [out []].
    apply SortHashes_bases; apply H.
Qed.

Lemma finder_step d rank xs ys m : (forall h p, p ∈ parentsOf d h -> (rank p < rank h)%nat) -> (forall h, Z.of_nat (rank h) < 2 ^ 32 - 1) ->
  gen_inv d -> (AncestryPruning d = false -> memo_ok d rank m) ->
  let '(bs, m', d') := finder_MergeBases xs ys m d in
  bases_spec d xs ys bs /\ same_graph d d' /\ gen_inv d' /\ AncestryPruning d' = AncestryPruning d /\ (AncestryPruning d = false -> d' = d /\ memo_ok d rank m').
Proof.
  intros R1 R2 Hi Hm. assert (Ha : acyclic d) by (by exists rank). unfold finder_MergeBases.
  pose proof (ensure_spec d Ha Hi) as He. unfold ensureGenerationsLocked in *. destruct (AncestryPruning d) eqn:Ep; cbn [negb] in *.
  - set (d' := if genStale d then _ else d) in *. destruct He as (Hg & Ha' & _ & Hok). specialize (Hok eq_refl).
    pose proof (painted_bases d' (dag_gen d') (generationLocked d') (fun _ => True) xs ys tt Ha' (dag_gen_good d' Hok) I) as H.
    destruct (Paint.paintDownToCommon _ _ _ _ _ _) as [cands []]. cbn [fst]. destruct (removeRedundantLocked _ _ _ _) as [out []]. cbn [fst].
    split_and!; [by apply (same_bases d d'), H|done|by right| |done]. unfold d'. by destruct (genStale d).
  - pose proof (painted_bases d (finder_gen d) _ (memo_ok d rank) xs ys m Ha (finder_gen_good d rank R1 R2) (Hm eq_refl)) as H.
    destruct (Paint.paintDownToCommon _ _ _ _ _ _) as [cands m1]. destruct (removeRedundantLocked _ _ _ _) as [out m2]. destruct H as [H1 H2].
    split_and!; [done..|intros E; congruence|done|done].
Qed.

(** A finder asked one question after another. *)
Fixpoint finder_answers (qs : list (list Hash * list Hash)) (m : gmap Hash Z) (d : InMemoryCommitDag) : list (list Hash) :=
  match qs with
  | [] => []
  | (xs, ys) :: qs => let '(bs, m, d) := finder_MergeBases xs ys m d in bs :: finder_answers qs m d
  end.

Lemma finder_run d rank qs m d0 : (forall h p, p ∈ parentsOf d h -> (rank p < rank h)%nat) -> (forall h, Z.of_nat (rank h) < 2 ^ 32 - 1) ->
  same_graph d0 d -> acyclic d0 -> gen_inv d0 -> gen_inv d -> (AncestryPruning d = false -> memo_ok d rank m) ->
  finder_answers qs m d = map (fun '(xs, ys) => (MergeBases xs ys d0).1) qs.
Proof.
  intros R1 R2 Hg Ha0 Hi0 Hi Hm. revert m d R1 Hg Hi Hm. induction qs as [|[xs ys] qs IH]; intros m d R1 Hg Hi Hm; [done|]. cbn [finder_answers map].
  pose proof (finder_step d rank xs ys m R1 R2 Hi Hm) as H. destruct (finder_MergeBases xs ys m d) as [[bs m'] d'].
  destruct H as (Hb & Hg' & Hi' & Hp & Hm'). f_equal.
  - apply (bases_unique d0 xs ys); [by apply (same_bases d0 d)|by apply MergeBases_bases].
  - apply IH; [|by eapply same_graph_trans|done|].
    + intros h p. rewrite (same_parents d d' h Hg'). apply R1.
    + rewrite Hp. intros E. by destruct (Hm' E) as [-> ?].
Qed.

(** ** The answers of the graph *)

Lemma IsAncestor_reach a x d : acyclic d -> gen_inv d -> (IsAncestor a x d).1 = true <-> reach d x a.
Proof.
  intros Ha Hi. unfold IsAncestor. pose proof (ensure_spec d Ha Hi) as He. destruct (ensureGenerationsLocked d) as [ok d'].
  destruct He as (Hg & _ & _ & Hok). cbn [fst]. rewrite <- (same_reach d d' x a Hg). destruct ok; cbn [negb].
  - apply pruned_spec. by apply Hok.
  - rewrite bool_decide_eq_true. apply closure_spec.
Qed.

(** Whatever the generations are, what is found is an ancestor. *)
Lemma IsAncestor_sound a x d : (IsAncestor a x d).1 = true -> reach d x a.
Proof.
  unfold IsAncestor. assert (Hg : same_graph d (ensureGenerationsLocked d).2).
  { unfold ensureGenerationsLocked. destruct (negb (AncestryPruning d)); [done|]. cbn [snd]. destruct (genStale d); [apply recompute_graph|done]. }
  destruct (ensureGenerationsLocked d) as [ok d']. cbn [fst snd] in *. rewrite <- (same_reach d d' x a Hg). destruct ok; cbn [negb]; [apply pruned_walk|]. rewrite bool_decide_eq_true. apply closure_spec.
Qed.



(** A merge base finder numbers what it meets as it goes and keeps the numbers
    between questions; to any sequence of questions it gives the answers of [MergeBases]. *)
Theorem finder_agrees d qs : acyclic d -> gen_inv d -> finder_answers qs ∅ d = map (fun '(xs, ys) => (MergeBases xs ys d).1) qs.
Proof.
  intros Ha Hi. pose proof Ha as (rank & R1 & R2). by apply (finder_run d rank).
Qed.

Lemma finder_agrees_witness :
  let qs := [([CommitHash merge_1], [CommitHash merge_2]); ([CommitHash commit_a], [CommitHash merge_2])] in
  finder_answers qs ∅ demo_merges = map (fun '(xs, ys) => (MergeBases xs ys demo_merges).1) qs.
Proof. apply (finder_agrees demo_merges); [exact demo_merges_acyclic|exact demo_merges_inv]. Defined.

Lemma excluded_spec d (s : gset Hash) h :
  h ∈ set_fold (fun h s => ancestorClosureLocked d h ∪ s) (∅ : gset Hash) s <-> exists x, x ∈ s /\ reach d x h.
Proof.
  apply (set_fold_ind_L (fun r X => h ∈ r <-> exists x, x ∈ X /\ reach d x h)); [set_solver|].
  intros x X r Hx IH. rewrite elem_of_union, closure_spec, IH. set_solver.
Qed.

(** The commits reachable from [from] and not from an excluded one, each once, in the order of their hexadecimal names. *)
Theorem CommitsSince_spec d from exclude :
  let out := CommitsSince d from exclude in
  NoDup out /\ StronglySorted (before Hex) out /\
  forall h, h ∈ out <-> reach d from h /\ ~ exists x, x ∈ exclude /\ reach d x h.
Proof.
  cbv zeta. unfold CommitsSince. split_and!.
  - rewrite isort_perm. apply NoDup_elements.
  - by apply isort_bytes.
  - intros h. rewrite isort_perm, elem_of_elements, elem_of_difference, closure_spec, excluded_spec. done.
Qed.
End DagMerge.
