(* ===== verification/DagHistory.v ===== *)
(** Reading history: [Walk], [Horizon] and the lookups of
    [dag/in_memory_commit_dag.go], and [dag/history_nav.go], which lists commits
    and resolves the names of revisions.  Operations are never evicted here. *)

From S2P Require Import Prelude Strconv Primitives Document Wal Commit CommitDirect Walk Sha256 Strings Dag DagOps.
Import Commit CommitDirect Dag DagOps.

Set Warnings "-clear-no-such-hyp".

Module DagHistory.

(** ** The walk over history *)

Inductive TraversalEntry := FullEntry (c : Commit) | StubbedEntry (s : CommitStub).

(** [frontierItem]. *)
Record frontierItem := mkItem { itemHash : Hash; itemTs : Timestamp }.
Definition micros (i : frontierItem) : Z := EpochMicros (itemTs i).

Definition enqueue (d : InMemoryCommitDag) (h : Hash) : frontierItem :=
  mkItem h
    match commitLocked d h with
    | Some c => CommitTimestamp c
    | None => match stubs d !! h with Some s => StubbedAt s | None => mkTs 0 0 end
    end.

(** The index of the first item with the latest time: [i] is the index of the head of [l]. *)
Fixpoint best_index (l : list frontierItem) (i best : nat) (m : Z) : nat :=
  match l with
  | [] => best
  | x :: l => if m <? micros x then best_index l (S i) i (micros x) else best_index l (S i) best m
  end.

Record walkState := mkWalk { frontier : list frontierItem; visited : gset Hash; out : list TraversalEntry }.

(** What the loop does with the item it took. *)
Definition look (d : InMemoryCommitDag) (until : option Hash) (h : Hash) (rest : list frontierItem) (s : walkState) : walkState :=
  if bool_decide (until = Some h) then mkWalk rest ({[h]} ∪ visited s) (out s)
  else if bool_decide (h ∈ visited s) then mkWalk rest (visited s) (out s)
  else
    let seen := {[h]} ∪ visited s in
    match stubs d !! h with
    | Some stub => mkWalk rest seen (out s ++ [StubbedEntry stub])
    | None =>
      match commitLocked d h with
      | None => mkWalk rest seen (out s)
      | Some c =>
        let out := out s ++ [FullEntry c] in
        if bool_decide (h ∈ shallow d) then mkWalk rest seen out
        else mkWalk (rest ++ map (enqueue d) (ParentHashes c)) seen out
      end
    end.

Definition walk_step (d : InMemoryCommitDag) (until : option Hash) (x : frontierItem) (l : list frontierItem) (s : walkState) : walkState :=
  let best := best_index l 1 0 (micros x) in
  match (x :: l) !! best with
  | Some item => look d until (itemHash item) (take best (x :: l) ++ drop (S best) (x :: l)) s
  | None => s
  end.

Fixpoint walk_loop (fuel : nat) (d : InMemoryCommitDag) (until : option Hash) (limit : Z) (s : walkState) : option walkState :=
  match fuel with
  | O => None
  | S fuel =>
    match frontier s with
    | [] => Some s
    | x :: l => if zlen (out s) <? limit then walk_loop fuel d until limit (walk_step d until x l s) else Some s
    end
  end.

Definition walk_start (d : InMemoryCommitDag) (from : Hash) : walkState := mkWalk [enqueue d from] ∅ [].
Definition walk_fuel (d : InMemoryCommitDag) (from : Hash) : nat := S (Walk.fuel_for (expandParentsLocked d) (all_parents d) [from]).

Definition WalkHistory (d : InMemoryCommitDag) (from : Hash) (until : option Hash) (limit : Z) : list TraversalEntry :=
  match walk_loop (walk_fuel d from) d until limit (walk_start d from) with Some s => out s | None => [] end.

(** ** Listing *)

Record CommitInfo := mkInfo {
  InfoHash : Hash; InfoParents : list Hash; InfoTx : UUID; InfoTimestamp : Timestamp; InfoAuthor : UUID;
  InfoTree : Hash; InfoMessage : bytes; OperationCount : Z; Stubbed : bool;
}.

Definition zeroUUID : UUID := mkUUID 0 0.

Definition describe (e : TraversalEntry) : CommitInfo :=
  match e with
  | FullEntry c =>
    mkInfo (CommitHash c) (ParentHashes c) (TransactionID c) (CommitTimestamp c) (AuthorNodeID c) (DocumentTreeHash c) (Message c)
      (zlen (Operations c)) false
  | StubbedEntry s => mkInfo (OriginalHash s) [] zeroUUID (StubbedAt s) zeroUUID ZeroHash (str "(archived)") (-1) true
  end.

Definition ListCommits (d : InMemoryCommitDag) (from : Hash) (skip limit : Z) : list CommitInfo :=
  if limit <=? 0 then []
  else
    let skip := if skip <? 0 then 0 else skip in
    let entries := WalkHistory d from None (wraps 64 (skip + limit)) in
    if zlen entries <=? skip then [] else map describe (drop (Z.to_nat skip) entries).

(** ** First parents *)

Inductive reason := Archived | HistoryEnds (steps : Z) | OnlyAncestors (steps : Z) | NoneThatOld | FirstIsNewer | NotAHash | NotRetained.
Inductive spec := SpecText (s : bytes) | SpecTime (micros : Z).
Inductive nav_error :=
  | NegativeDistance (n : Z)
  | RevisionNotFound (s : spec) (r : reason)
  | TagNotFound (name : bytes)
  | NavDag (e : dag_error)
  | EmptyRevision
  | Unparseable (s : bytes) (digits : option bytes)
  | IceStorage (h : Hash) (location : bytes).
Abbreviation nres A := (go nav_error A).

Fixpoint nth_from (d : InMemoryCommitDag) (from : Hash) (steps : nat) (i : Z) (current : Hash) : nres Hash :=
  match steps with
  | O => Ok current
  | S steps =>
    match commitLocked d current with
    | None => Err (RevisionNotFound (SpecText (Hex current)) (if is_stub d current then Archived else HistoryEnds i))
    | Some c =>
      match ParentHashes c with
      | [] => Err (RevisionNotFound (SpecText (Hex from)) (OnlyAncestors i))
      | p :: _ => nth_from d from steps (i + 1) p
      end
    end
  end.
Definition NthAncestor (d : InMemoryCommitDag) (from : Hash) (n : Z) : nres Hash :=
  if n <? 0 then Err (NegativeDistance n) else nth_from d from (Z.to_nat n) 0 from.

Fixpoint at_or_before (fuel : nat) (d : InMemoryCommitDag) (ts : Z) (current : Hash) : option (nres Hash) :=
  match fuel with
  | O => None
  | S fuel =>
    match commitLocked d current with
    | None => Some (Err (RevisionNotFound (SpecTime ts) NoneThatOld))
    | Some c =>
      if EpochMicros (CommitTimestamp c) <=? ts then Some (Ok current)
      else
        match ParentHashes c with
        | [] => Some (Err (RevisionNotFound (SpecTime ts) FirstIsNewer))
        | p :: _ => at_or_before fuel d ts p
        end
    end
  end.
(** No chain of resident commits is longer than their number. *)
Definition CommitAtOrBefore (d : InMemoryCommitDag) (from : Hash) (ts : Timestamp) : option (nres Hash) :=
  at_or_before (S (size (nodes d))) d (EpochMicros ts) from.

(** ** References *)

Inductive CommitRef := RefByHash (hex : bytes) | RefByBranch (name : bytes) | RefByTag (name : bytes) | RefByTime (ts : Timestamp).

Definition of_dag {A} (r : go dag_error A) : nres A :=
  match r with Ok x => Ok x | Err e => Err (NavDag e) | Panic => Panic end.

Definition GetTag (d : InMemoryCommitDag) (name : bytes) : option CommitTag := tags d !! name.
Definition GetBranch (d : InMemoryCommitDag) (name : bytes) : option Branch := branches d !! name.

(** [None] when the walk to a time does not end. *)
Definition ResolveRef (d : InMemoryCommitDag) (ref : option CommitRef) : option (nres Hash) :=
  match ref with
  | None => Some (of_dag (Head d))
  | Some (RefByHash hex) =>
    Some match HashFromHex (TrimSpace hex) with
         | Ok h => if negb (has d h) && negb (is_stub d h) then Err (RevisionNotFound (SpecText hex) NotRetained) else Ok h
         | Err _ => Err (RevisionNotFound (SpecText hex) NotAHash)
         | Panic => Panic
         end
  | Some (RefByBranch name) =>
    Some match GetBranch d name with
         | Some b => Ok (HeadHash b)
         | None => Err (NavDag (BranchNotFound (str "branch not found") name))
         end
  | Some (RefByTag name) => Some match GetTag d name with Some t => Ok (TagCommit t) | None => Err (TagNotFound name) end
  | Some (RefByTime ts) =>
    match Head d with
    | Ok h => CommitAtOrBefore d h ts
    | Err e => Some (Err (NavDag e))
    | Panic => Some Panic
    end
  end.

Definition caret : byte := z2b 94.
Definition tilde : byte := z2b 126.

(** The step count after the last tilde. *)
Definition steps_of (rev digits : bytes) : nres Z :=
  if bool_decide (digits = []) then Ok 1
  else match Strconv.ParseInt digits with
       | Some n => if n <? 0 then Err (Unparseable rev (Some digits)) else Ok n
       | None => Err (Unparseable rev (Some digits))
       end.

Definition ref_of (rev s : bytes) (back : Z) : nres (CommitRef * Z) :=
  if bool_decide (s = []) then Err (Unparseable rev None)
  else if EqualFold s (str "head") then Ok (RefByBranch mainBranch, back)
  else if has_prefix s (str "tag:") then Ok (RefByTag (TrimPrefix s (str "tag:")), back)
  else if has_prefix s (str "branch:") then Ok (RefByBranch (TrimPrefix s (str "branch:")), back)
  else Ok (RefByHash s, back).

Definition ParseRevision (rev : bytes) : nres (CommitRef * Z) :=
  let s := TrimSpace rev in
  if bool_decide (s = []) then Err EmptyRevision
  else
    let '(n, s) := strip_suffix caret s in
    let back := wraps 64 (Z.of_nat n) in
    match split_last tilde s with
    | Some (before, digits) => k ← steps_of rev digits; ref_of rev (TrimSpace before) (wraps 64 (back + k))
    | None => ref_of rev (TrimSpace s) back
    end.

Definition ResolveRevision (d : InMemoryCommitDag) (rev : bytes) : option (nres Hash) :=
  match ParseRevision rev with
  | Err e => Some (Err e)
  | Panic => Some Panic
  | Ok (ref, back) =>
    match ResolveRef d (Some ref) with
    | Some (Ok base) => Some (if back =? 0 then Ok base else NthAncestor d base back)
    | r => r
    end
  end.

(** ** Lookups *)

Definition GetCommitOrThrow (h : Hash) (d : InMemoryCommitDag) : nres Commit :=
  match stubs d !! h with
  | Some s => Err (IceStorage h (ArchiveLocation s))
  | None =>
    match commitLocked d h with
    | Some c => Ok c
    | None => Err (NavDag (VersionNotFound (str "commit not found") h))
    end
  end.

Definition GetCommitByTransactionID (tx : UUID) (d : InMemoryCommitDag) : option Commit :=
  match txIndex d !! tx with Some h => GetCommit h d | None => None end.

Definition LookupHashPrefix (p : bytes) (d : InMemoryCommitDag) : list Hash :=
  isort (fun a b => negb (bytes_leb (Hex b) (Hex a)))
    (List.filter (fun h => has_prefix (Hex h) (map lower p)) (elements (dom (nodes d)))).

Definition Horizon (d : InMemoryCommitDag) : gset Hash :=
  shallow d ∪ filter (fun h => existsb (fun p => negb (has d p || is_stub d p)) (parentsOf d h) = true) (dom (nodes d)).

Definition HistoryFloor (d : InMemoryCommitDag) : Hash :=
  let horizon := isort (fun a b => negb (bytes_leb (Hex b) (Hex a))) (elements (Horizon d)) in
  mkHash (Sha256.Sum256 (str "kdb-history-floor" ++ mjoin (map HashBytes horizon) ++ be_bytes 8 (wrapu 64 (Z.of_nat (size (stubs d)))))).

(** ** Differences of trees *)

Inductive DiffEntry :=
  | DiffAdded (id : UUID) (content : Hash)
  | DiffRemoved (id : UUID) (content : Hash)
  | DiffModified (id : UUID) (fromContent toContent : Hash).

(** The entries of the two trees; Go visits them in any order. *)
Definition DiffTrees (fromEntries toEntries : gmap UUID Hash) : list DiffEntry :=
  omap (fun '(id, h) =>
      match fromEntries !! id with
      | None => Some (DiffAdded id h)
      | Some oh => if bool_decide (oh = h) then None else Some (DiffModified id oh h)
      end) (map_to_list toEntries) ++
  omap (fun '(id, h) => match toEntries !! id with None => Some (DiffRemoved id h) | Some _ => None end) (map_to_list fromEntries).

End DagHistory.
