(* ===== verification/DagWalk.v ===== *)
(** What reading history gives: the walk visits every commit it can get to once,
    newest first, pages of a listing tile the walk, and names of revisions
    resolve to what they name. *)

From S2P Require Import Prelude Strconv Primitives Document Wal WalCorrect Commit CommitDirect Walk Sha256 Strings Dag Numbering Paint DagOps DagAncestry DagHistory.
Import Commit CommitDirect Dag DagOps DagAncestry DagDemo DagHistory.

Set Warnings "-clear-no-such-hyp".

Module DagWalk.

(** ** Picking the latest item *)

Lemma best_index_spec l pre b m : (b < length pre)%nat -> (forall y, y ∈ pre -> micros y <= m) ->
  (exists item, pre !! b = Some item /\ micros item = m) ->
  exists item, (pre ++ l) !! best_index l (length pre) b m = Some item /\ forall y, y ∈ pre ++ l -> micros y <= micros item.
Proof.
  revert pre b m. induction l as [|x l IH]; intros pre b m Hb Hm (item & Hi & Em); cbn [best_index].
  { exists item. rewrite app_nil_r. split; [done|]. intros y Hy. rewrite Em. auto. }
  replace (S (length pre)) with (length (pre ++ [x])) by (rewrite length_app; cbn; lia).
  replace (pre ++ x :: l) with ((pre ++ [x]) ++ l) by (by rewrite <- app_assoc).
  assert (Hx : forall k, m <= k -> micros x <= k -> forall y, y ∈ pre ++ [x] -> micros y <= k).
  { intros k Hk Hxk y [Hy| ->%list_elem_of_singleton]%elem_of_app; [specialize (Hm y Hy)|]; lia. }
  destruct (Z.ltb_spec m (micros x)); apply IH; try (rewrite length_app; cbn; lia); try (apply Hx; lia).
  - exists x. split; [by apply list_lookup_middle|done].
  - exists item. split; [by apply lookup_app_l_Some|done].
Qed.

(** The step takes some item no other is later than. *)
Lemma walk_step_spec d until x l s : exists item rest, x :: l ≡ₚ item :: rest /\ (forall y, y ∈ rest -> micros y <= micros item) /\
  walk_step d until x l s = look d until (itemHash item) rest s.
Proof.
  destruct (best_index_spec l [x] 0 (micros x)) as (item & Hi & Hm); [cbn; lia|by intros y ->%list_elem_of_singleton|by exists x|].
  cbn [app length] in Hi, Hm. unfold walk_step. rewrite Hi. eexists item, _. split_and!; [| |done].
  - rewrite <- delete_take_drop. by apply delete_Permutation.
  - intros y Hy. apply Hm. rewrite <- delete_take_drop in Hy. rewrite (delete_Permutation _ _ _ Hi). by right.
Qed.

(** ** The walk *)

Section History.
Context (d : InMemoryCommitDag) (until : option Hash).
Abbreviation succ := (expandParentsLocked d).

Definition entry (h : Hash) : option TraversalEntry :=
  match stubs d !! h with Some s => Some (StubbedEntry s) | None => FullEntry <$> commitLocked d h end.
Definition passes (h : Hash) : verdict := if bool_decide (until = Some h) then Skip else Descend.
Abbreviation via := (Walk.via succ passes).

Lemma look_spec h rest s : look d until h rest s =
  if bool_decide (until = Some h) then mkWalk rest ({[h]} ∪ visited s) (out s)
  else if bool_decide (h ∈ visited s) then mkWalk rest (visited s) (out s)
  else mkWalk (rest ++ map (enqueue d) (succ h)) ({[h]} ∪ visited s) (out s ++ option_list (entry h)).
Proof.
  unfold look, entry, expandParentsLocked, is_stub. repeat case_bool_decide; try done; destruct (stubs d !! h) eqn:Es; cbn; rewrite ?app_nil_r; try done.
  all: try (exfalso; eauto; fail). all: unfold commitLocked, parentsOf; destruct (nodes d !! h) as [n|]; cbn; rewrite ?app_nil_r; try done.
  all: by match goal with H : is_Some None |- _ => destruct H end.
Qed.

(** Those of them with an entry, the time the walk gives a commit, and that no commit is older than its parents. *)
Definition emitted (hs : list Hash) : list Hash := List.filter (fun h => bool_decide (is_Some (entry h))) hs.
Definition time (h : Hash) : Z := micros (enqueue d h).
Definition causal : Prop := forall h p, p ∈ succ h -> is_Some (entry p) -> time p <= time h.

Lemma emitted_spec hs h : h ∈ emitted hs <-> h ∈ hs /\ is_Some (entry h).
Proof. unfold emitted. rewrite list_elem_of_In, filter_In, <- list_elem_of_In, bool_decide_eq_true. done. Qed.
Lemma emitted_entries hs : map Some (omap entry hs) = map entry (emitted hs).
Proof.
  induction hs as [|h hs IH]; [done|]. unfold emitted in *. cbn. destruct (entry h) eqn:E; cbn; [|done]. by rewrite E, IH.
Qed.

(** The hashes taken so far, in order, without [until]. *)
Record walked (from : Hash) (s : walkState) (hs : list Hash) : Prop := {
  walked_out : out s = omap entry hs;
  walked_nodup : NoDup hs;
  walked_visited : forall h, h ∈ hs -> h ∈ visited s /\ until <> Some h;
  walked_all : forall h, h ∈ visited s -> until = Some h \/ h ∈ hs;
  walked_sound : forall h, h ∈ hs \/ h ∈ map itemHash (frontier s) -> via from h;
  walked_from : from ∈ visited s \/ from ∈ map itemHash (frontier s);
  walked_closed : forall h p, h ∈ hs -> p ∈ succ h -> p ∈ visited s \/ p ∈ map itemHash (frontier s);
  walked_items : forall i, i ∈ frontier s -> i = enqueue d (itemHash i);
  walked_sorted : causal -> StronglySorted (fun a b => time b <= time a) (emitted hs);
  walked_older : causal -> forall h i, h ∈ emitted hs -> i ∈ frontier s -> is_Some (entry (itemHash i)) -> micros i <= time h;
}.

Lemma succ_entry h p : p ∈ succ h -> is_Some (entry h).
Proof.
  intros Hp%expand_parents%parents_resident. unfold entry, commitLocked. destruct (stubs d !! h); [by eexists|]. destruct Hp as [n ->]. by eexists.
Qed.

Lemma map_enqueue l : map itemHash (map (enqueue d) l) = l.
Proof. rewrite map_map. apply map_id. Qed.

Lemma look_walked from s hs item rest : walked from s hs -> frontier s ≡ₚ item :: rest -> (forall y, y ∈ rest -> micros y <= micros item) ->
  exists more, walked from (look d until (itemHash item) rest s) (hs ++ more) /\ more ⊆ [itemHash item].
Proof.
  intros [Ho Hn Hv Ha Hs Hf Hc Hi Hso Hol] Hp Hmax. set (h := itemHash item). rewrite look_spec.
  assert (Hfr : forall k, k ∈ map itemHash (frontier s) <-> k = h \/ k ∈ map itemHash rest) by (intros k; rewrite Hp; cbn; apply elem_of_cons).
  assert (Hir : forall i, i ∈ rest -> i = enqueue d (itemHash i)) by (intros i Hr; apply Hi; rewrite Hp; by right).
  assert (Hor : causal -> forall k i, k ∈ emitted hs -> i ∈ rest -> is_Some (entry (itemHash i)) -> micros i <= time k).
  { intros Hca k i Hk Hr. apply Hol; [done|done|]. rewrite Hp. by right. }
  assert (Hin : item ∈ frontier s) by (rewrite Hp; by left). assert (Ht : micros item = time h) by (unfold h, time; f_equal; by apply Hi).
  assert (Hvh : via from h) by (apply Hs; right; apply Hfr; by left).
  case_bool_decide as Eu; [|case_bool_decide as Ev].
  - exists []. split; [|set_solver]. rewrite app_nil_r. constructor; cbn [frontier visited out]; try done.
    + set_solver.
    + intros k [->%elem_of_singleton|Hk]%elem_of_union; [by left|auto].
    + intros k [Hk|Hk]; apply Hs; [by left|right; apply Hfr; by right].
    + rewrite Hfr in Hf. set_solver.
    + intros k p Hk Hpp. specialize (Hc k p Hk Hpp). rewrite Hfr in Hc. set_solver.
  - exists []. split; [|set_solver]. rewrite app_nil_r. constructor; cbn [frontier visited out]; try done.
    + intros k [Hk|Hk]; apply Hs; [by left|right; apply Hfr; by right].
    + rewrite Hfr in Hf. destruct Hf as [|[->|]]; auto.
    + intros k p Hk Hpp. specialize (Hc k p Hk Hpp). rewrite Hfr in Hc. destruct Hc as [|[->|]]; auto.
  - exists [h]. split; [|done]. constructor; cbn [frontier visited out].
    + rewrite Ho, omap_app. by destruct (entry h) eqn:Ee; cbn; rewrite Ee.
    + apply NoDup_app. split_and!; [done| |apply NoDup_singleton]. intros k Hk ->%list_elem_of_singleton. by apply Hv in Hk as [].
    + intros k [Hk| ->%list_elem_of_singleton]%elem_of_app; [apply Hv in Hk; set_solver|set_solver].
    + intros k [->%elem_of_singleton|Hk]%elem_of_union; [right; set_solver|]. apply Ha in Hk. set_solver.
    + intros k. rewrite map_app, map_enqueue, !elem_of_app, list_elem_of_singleton. intros [[Hk| ->]|[Hk|Hk]]; [auto|done|apply Hs; right; apply Hfr; by right|].
      eapply rtc_r; [exact Hvh|]. split; [unfold passes; by rewrite bool_decide_false|done].
    + rewrite map_app, map_enqueue. rewrite Hfr in Hf. set_solver.
    + intros k p [Hk| ->%list_elem_of_singleton]%elem_of_app Hpp; rewrite map_app, map_enqueue; [|set_solver].
      specialize (Hc k p Hk Hpp). rewrite Hfr in Hc. set_solver.
    + intros i [Hr|(k & -> & Hk)%list_elem_of_fmap]%elem_of_app; [auto|done].
    + intros Hca. unfold emitted. rewrite List.filter_app. apply StronglySorted_app. split_and!; [|by apply Hso|cbn; case_bool_decide; repeat constructor].
      intros a b Ha' [->%list_elem_of_singleton Eh]%emitted_spec. rewrite <- Ht. by apply Hol.
    + intros Hca k i [[Hk|Ek%list_elem_of_singleton]%elem_of_app Ek']%emitted_spec Hir' Ei; apply elem_of_app in Hir'.
      * assert (Hk' : k ∈ emitted hs) by (by apply emitted_spec). destruct Hir' as [Hr|(p & -> & Hpp)%list_elem_of_fmap]; [by apply Hor|].
        cbn in Ei. pose proof (Hca h p Hpp Ei). pose proof (Hol Hca k item Hk' Hin (succ_entry h p Hpp)). unfold time in *. lia.
      * subst k. destruct Hir' as [Hr|(p & -> & Hpp)%list_elem_of_fmap]; [rewrite <- Ht; auto|]. by apply Hca.
Qed.

Lemma step_walked from s hs x l : walked from s hs -> frontier s = x :: l -> exists hs', walked from (walk_step d until x l s) hs'.
Proof.
  intros Hw E. destruct (walk_step_spec d until x l s) as (item & rest & Hp & Hm & ->).
  destruct (look_walked from s hs item rest Hw) as (more & H & _); [by rewrite E|done|]. by eexists.
Qed.

Lemma start_walked from : walked from (walk_start d from) [].
Proof.
  assert (Hn : forall h : Hash, ~ h ∈ @nil Hash) by (intros h; apply not_elem_of_nil).
  constructor; cbn; try done; try (by intros h ?%Hn); try (by intros _ h i ?%Hn).
  - apply NoDup_nil_2.
  - intros h [Hh%Hn|Hh]; [done|]. apply list_elem_of_singleton in Hh as ->. constructor.
  - right. by left.
  - intros h p Hh. by apply Hn in Hh.
  - by intros i ->%list_elem_of_singleton.
  - constructor.
Qed.

(** ** The loop ends *)

Definition work (all : gset Hash) (s : walkState) : nat := (length (frontier s) + Walk.load succ (all ∖ visited s))%nat.

Lemma load_mono (a b : gset Hash) : a ⊆ b -> (Walk.load succ a <= Walk.load succ b)%nat.
Proof.
  intros Hab. rewrite (union_difference_L a b) by done. unfold Walk.load. rewrite elements_disj_union by set_solver. rewrite sum_list_with_app. lia.
Qed.

Lemma step_work all s x l : all_parents d ⊆ all -> frontier s = x :: l -> (forall i, i ∈ frontier s -> itemHash i ∈ all) ->
  (work all (walk_step d until x l s) < work all s)%nat /\ forall i, i ∈ frontier (walk_step d until x l s) -> itemHash i ∈ all.
Proof.
  intros Hu E Hin. destruct (walk_step_spec d until x l s) as (item & rest & Hp & _ & ->). rewrite <- E in Hp.
  assert (Hr : forall i, i ∈ rest -> itemHash i ∈ all) by (intros i Hi; apply Hin; rewrite Hp; by right).
  assert (Hh : itemHash item ∈ all) by (apply Hin; rewrite Hp; by left). rewrite look_spec. unfold work. rewrite Hp. cbn [length].
  repeat case_bool_decide; cbn [frontier visited]; split; try done.
  - assert (Walk.load succ (all ∖ ({[itemHash item]} ∪ visited s)) <= Walk.load succ (all ∖ visited s))%nat by (apply load_mono; set_solver). lia.
  - lia.
  - rewrite (Walk.load_delete succ fifo (itemHash item) (all ∖ visited s)) by set_solver. rewrite length_app, length_map.
    replace (all ∖ visited s ∖ {[itemHash item]}) with (all ∖ ({[itemHash item]} ∪ visited s)) by set_solver. lia.
  - intros i [Hi|(p & -> & Hpp)%list_elem_of_fmap]%elem_of_app; [auto|]. cbn. apply Hu. by eapply expand_closed.
Qed.

Lemma loop_spec all fuel limit from s hs : all_parents d ⊆ all -> (forall i, i ∈ frontier s -> itemHash i ∈ all) -> (work all s < fuel)%nat -> walked from s hs ->
  exists s' hs', walk_loop fuel d until limit s = Some s' /\ walked from s' hs' /\ (frontier s' = [] \/ limit <= zlen (out s')).
Proof.
  intros Hu. revert s hs. induction fuel as [|fuel IH]; intros s hs Hin Hf Hw; [lia|]. cbn [walk_loop]. destruct (frontier s) as [|x l] eqn:E.
  { exists s, hs. auto. }
  destruct (Z.ltb_spec (zlen (out s)) limit); [|exists s, hs; auto].
  destruct (step_work all s x l Hu E) as [Hlt Hin']; [by rewrite E|]. destruct (step_walked from s hs x l Hw E) as [hs' Hw'].
  apply (IH _ hs'); [done|lia|done].
Qed.

Lemma walk_runs from limit : exists s hs, walk_loop (walk_fuel d from) d until limit (walk_start d from) = Some s /\
  walked from s hs /\ (frontier s = [] \/ limit <= zlen (out s)).
Proof.
  apply (loop_spec (all_parents d ∪ {[from]}) _ _ _ _ []); [set_solver| | |apply start_walked].
  - intros i Hi. cbn in Hi. apply list_elem_of_singleton in Hi as ->. cbn. set_solver.
  - unfold work, walk_fuel, Walk.fuel_for. cbn [walk_start frontier visited length list_to_set foldr].
    assert (Walk.load succ ((all_parents d ∪ {[from]}) ∖ ∅) <= Walk.load succ (all_parents d ∪ list_to_set [from]))%nat by (apply load_mono; set_solver).
    cbn in *. lia.
Qed.

Lemma finished_complete from s hs h : walked from s hs -> frontier s = [] -> via from h -> until <> Some h -> h ∈ hs.
Proof.
  intros Hw Ef Hv Hn. assert (E : forall x y, x ∈ visited s -> via x y -> y ∈ visited s).
  { intros x y Hx Hxy. revert Hx. induction Hxy as [|x z y [Hp He] _ IH]; [done|]. intros Hx. apply IH.
    destruct (walked_all _ _ _ Hw x Hx) as [Eu|Hin]; [unfold passes in Hp; by rewrite bool_decide_true in Hp|].
    destruct (walked_closed _ _ _ Hw x z Hin He) as [|Hz]; [done|]. rewrite Ef in Hz. by apply not_elem_of_nil in Hz. }
  destruct (walked_from _ _ _ Hw) as [Hf|Hf]; [|rewrite Ef in Hf; by apply not_elem_of_nil in Hf].
  by destruct (walked_all _ _ _ Hw h (E _ _ Hf Hv)).
Qed.
End History.

(** ** Limits *)

Lemma step_grows d until x l s : exists o, out (walk_step d until x l s) = out s ++ o /\ zlen o <= 1.
Proof.
  destruct (walk_step_spec d until x l s) as (item & rest & _ & _ & ->). rewrite look_spec.
  case_bool_decide; [|case_bool_decide]; cbn [out]; [exists []; by rewrite app_nil_r..|]. eexists. split; [done|]. by destruct (entry d _).
Qed.

Lemma loop_grows fuel d until limit s s' : walk_loop fuel d until limit s = Some s' ->
  exists o, out s' = out s ++ o /\ zlen (out s') <= Z.max limit (zlen (out s)).
Proof.
  revert s. induction fuel as [|fuel IH]; intros s; cbn [walk_loop]; [done|].
  assert (E0 : exists o, out s = out s ++ o /\ zlen (out s) <= Z.max limit (zlen (out s))) by (exists []; rewrite app_nil_r; split; [done|lia]).
  destruct (frontier s) as [|x l]; [by intros [= <-]|]. destruct (Z.ltb_spec (zlen (out s)) limit); [|by intros [= <-]].
  intros (o & Eo & Hl)%IH. destruct (step_grows d until x l s) as (o' & Eo' & Hl'). exists (o' ++ o). rewrite Eo, Eo' at 1. rewrite <- app_assoc.
  split; [done|]. rewrite Eo' in Hl. unfold zlen in *. rewrite length_app in Hl. lia.
Qed.

(** Stopping at a smaller limit gives the beginning of what a larger one gives. *)
Lemma loop_prefix fuel d until n m s s' : walk_loop fuel d until m s = Some s' -> zlen (out s) <= n -> n <= m ->
  exists s'', walk_loop fuel d until n s = Some s'' /\ out s'' = take (Z.to_nat n) (out s').
Proof.
  revert s. induction fuel as [|fuel IH]; intros s; [done|]. intros Hm Hn Hnm. pose proof (loop_grows _ _ _ _ _ _ Hm) as (o & Eo & _). cbn [walk_loop] in *.
  assert (Et : zlen (out s) = n -> out s = take (Z.to_nat n) (out s')) by (intros E; rewrite Eo, take_app_length'; [done|unfold zlen in E; lia]).
  destruct (frontier s) as [|x l] eqn:Ef.
  - injection Hm as <-. exists s. split; [done|]. rewrite take_ge; [done|]. unfold zlen in Hn. lia.
  - destruct (Z.ltb_spec (zlen (out s)) n).
    + destruct (Z.ltb_spec (zlen (out s)) m); [|lia]. apply (IH _ Hm); [|done].
      destruct (step_grows d until x l s) as (o' & Eo' & Hl'). rewrite Eo'. unfold zlen in *. rewrite length_app. lia.
    + exists s. split; [done|]. apply Et. lia.
Qed.

Lemma WalkHistory_prefix d from until n m : 0 <= n <= m -> WalkHistory d from until n = take (Z.to_nat n) (WalkHistory d from until m).
Proof.
  intros [H0 Hnm]. destruct (walk_runs d until from m) as (s & hs & E & _). unfold WalkHistory.
  destruct (loop_prefix _ _ _ n m _ _ E) as (s' & E' & Eo); [done|done|]. by rewrite E, E', Eo.
Qed.

(** ** Claims *)

(** C40. The walk over history ends.  It lists commits and stubs that are reached from
    [from] without going through [until], each once, and no more than [limit]; when it
    lists fewer it lists them all; and when no commit is older than its parents they
    come newest first. *)
Theorem WalkHistory_spec d from until limit :
  exists hs, map Some (WalkHistory d from until limit) = map (entry d) hs /\ NoDup hs /\ zlen hs <= Z.max 0 limit /\
    (forall h, h ∈ hs -> Walk.via (expandParentsLocked d) (passes until) from h /\ until <> Some h) /\
    (zlen hs < limit -> forall h, Walk.via (expandParentsLocked d) (passes until) from h -> until <> Some h -> is_Some (entry d h) -> h ∈ hs) /\
    (causal d -> StronglySorted (fun a b => time d b <= time d a) hs).
Proof.
  destruct (walk_runs d until from limit) as (s & hs & E & Hw & Hend). unfold WalkHistory. rewrite E. exists (emitted d hs).
  assert (Em : map Some (out s) = map (entry d) (emitted d hs)) by (rewrite (walked_out _ _ _ _ _ Hw); apply emitted_entries).
  assert (El : zlen (emitted d hs) = zlen (out s)) by (apply (f_equal length) in Em; rewrite !length_map in Em; unfold zlen; by rewrite Em).
  rewrite El. split_and!; [done|apply NoDup_ListNoDup, List.NoDup_filter, NoDup_ListNoDup, Hw| |..].
  - destruct (loop_grows _ _ _ _ _ _ E) as (o & Eo & Hl). cbn in Hl. unfold zlen in Hl at 2. cbn in Hl. lia.
  - intros h [Hh _]%emitted_spec. split; [by apply (walked_sound _ _ _ _ _ Hw); left|by apply (walked_visited _ _ _ _ _ Hw)].
  - intros Hl h Hv Hn He. apply emitted_spec. split; [|done]. eapply finished_complete; [done| |done|done]. destruct Hend; [done|lia].
  - apply (walked_sorted _ _ _ _ _ Hw).
Qed.

(** Pages of a listing are consecutive slices of one walk, as long as [skip] plus
    [limit] does not exceed the largest int. *)
Theorem ListCommits_pages d from skip limit n : 0 <= skip -> 0 < limit -> skip + limit < 2 ^ 63 -> skip + limit <= n ->
  ListCommits d from skip limit = map describe (take (Z.to_nat limit) (drop (Z.to_nat skip) (WalkHistory d from None n))).
Proof.
  intros Hs Hl Hb Hn. unfold ListCommits. destruct (Z.leb_spec limit 0); [lia|]. destruct (Z.ltb_spec skip 0); [lia|].
  rewrite wraps_id by (unfold is_s; lia). rewrite (WalkHistory_prefix d from None (skip + limit) n) by lia. set (l := WalkHistory d from None n).
  rewrite Z2Nat.inj_add by lia. rewrite take_drop_commute. destruct (Z.leb_spec (zlen (take (Z.to_nat skip + Z.to_nat limit) l)) skip); [|done].
  rewrite drop_ge; [done|]. unfold zlen in *. lia.
Qed.

Lemma ListCommits_pages_witness :
  ListCommits demo_merges (CommitHash merge_1) 1 2 =
    map describe (take 2 (drop 1 (WalkHistory demo_merges (CommitHash merge_1) None 100))) /\
  map InfoHash (ListCommits demo_merges (CommitHash merge_1) 1 2) = [CommitHash commit_x; CommitHash commit_a].
Proof. split; [apply (ListCommits_pages demo_merges (CommitHash merge_1) 1 2 100); lia|vm_compute; reflexivity]. Defined.

(** When [skip] plus [limit] wraps, the listing is empty, whatever the history. *)
Theorem ListCommits_overflow d from skip limit : 0 <= skip < 2 ^ 63 -> 0 < limit < 2 ^ 63 -> 2 ^ 63 <= skip + limit -> ListCommits d from skip limit = [].
Proof.
  intros Hs Hl Ho. unfold ListCommits. destruct (Z.leb_spec limit 0); [lia|]. destruct (Z.ltb_spec skip 0); [lia|].
  replace (WalkHistory d from None _) with (@nil TraversalEntry); [by destruct (Z.leb_spec (zlen (@nil TraversalEntry)) skip); [|unfold zlen in *; cbn in *; lia]|].
  unfold WalkHistory, walk_fuel. cbn. replace (wraps 64 (skip + limit)) with (skip + limit - 2 ^ 64) by (unfold wraps; cbn; zdm).
  destruct (Z.ltb_spec (zlen (@nil TraversalEntry)) (skip + limit - 2 ^ 64)); [unfold zlen in *; cbn in *; lia|done].
Qed.

Lemma ListCommits_overflow_witness : ListCommits demo_merges (CommitHash merge_1) 1 (2 ^ 63 - 1) = [].
Proof. apply (ListCommits_overflow demo_merges (CommitHash merge_1) 1 (2 ^ 63 - 1)); lia. Defined.

(** ** First parents *)

Definition first_parent (d : InMemoryCommitDag) (x y : Hash) : Prop := exists c ps, commitLocked d x = Some c /\ ParentHashes c = y :: ps.
(** The commits from [x] back that are resident. *)
Definition on_line (d : InMemoryCommitDag) : Hash -> Hash -> Prop := rtc (first_parent d).

Lemma first_parent_rank d rank x y : (forall h p, p ∈ parentsOf d h -> (rank p < rank h)%nat) -> first_parent d x y -> (rank y < rank x)%nat.
Proof.
  intros Hm (c & ps & Ec & Ep). apply Hm. unfold commitLocked, parentsOf in *. destruct (nodes d !! x) as [n|]; [|done].
  cbn in Ec. injection Ec as Ec. rewrite Ec, Ep. by left.
Qed.

(** What the walk to a time answers: the first commit of the line that is old enough, or that there is none. *)
Definition time_answer (d : InMemoryCommitDag) (ts : Z) (from : Hash) (r : nres Hash) : Prop :=
  let old h := exists c, commitLocked d h = Some c /\ EpochMicros (CommitTimestamp c) <= ts in
  match r with
  | Ok h => on_line d from h /\ old h /\ forall k, on_line d from k -> old k -> on_line d h k
  | Err (RevisionNotFound (SpecTime t) why) => t = ts /\ (why = NoneThatOld \/ why = FirstIsNewer) /\ forall k, on_line d from k -> ~ old k
  | _ => False
  end.

Lemma line_cons d x y k : first_parent d x y -> on_line d x k -> k = x \/ on_line d y k.
Proof.
  intros (c & ps & Ec & Ep) Hk. destruct Hk as [|x z k (c' & ps' & Ec' & Ep') Hk]; [by left|right]. assert (c' = c) as -> by congruence. assert (z = y) as -> by congruence. done.
Qed.
Lemma line_end d x k : (forall y, ~ first_parent d x y) -> on_line d x k -> k = x.
Proof. intros Hn Hk. destruct Hk as [|x z k Hf _]; [done|]. by destruct (Hn z). Qed.

Lemma at_or_before_spec d ts rank fuel x : (forall h p, p ∈ parentsOf d h -> (rank p < rank h)%nat) ->
  (size (filter (fun h => (rank h <= rank x)%nat) (dom (nodes d))) < fuel)%nat ->
  exists r, at_or_before fuel d ts x = Some r /\ time_answer d ts x r.
Proof.
  intros Hm. revert x. induction fuel as [|fuel IH]; intros x Hf; [lia|]. cbn [at_or_before]. destruct (commitLocked d x) as [c|] eqn:Ec.
  2:{ eexists. split; [done|]. split_and!; [done|by left|]. intros k Hk (c & Ec' & _). apply line_end in Hk as ->; [congruence|]. intros y (c' & ps & E & _). congruence. }
  destruct (Z.leb_spec (EpochMicros (CommitTimestamp c)) ts) as [Hle|Hgt].
  { eexists. split; [done|]. split_and!; [constructor|by exists c|done]. }
  destruct (ParentHashes c) as [|p ps] eqn:Ep.
  { eexists. split; [done|]. split_and!; [done|by right|]. intros k Hk (c' & Ec' & Hle). apply line_end in Hk as ->; [assert (c' = c) as -> by congruence; lia|].
    intros y (c'' & ps & E & E'). congruence. }
  assert (Hfp : first_parent d x p) by (by exists c, ps). pose proof (first_parent_rank d rank x p Hm Hfp) as Hr.
  destruct (IH p) as (r & E & Ha).
  { assert (size (filter (fun h => (rank h <= rank p)%nat) (dom (nodes d))) < size (filter (fun h => (rank h <= rank x)%nat) (dom (nodes d))))%nat; [|lia].
    apply subset_size. apply (strict_spec_alt). split.
    - intros h. rewrite !elem_of_filter. intros [? ?]. split; [lia|done].
    - intros Eq. assert (Hx : x ∈ filter (fun h => (rank h <= rank x)%nat) (dom (nodes d))).
      { apply elem_of_filter. split; [lia|]. apply elem_of_dom. unfold commitLocked in Ec. by destruct (nodes d !! x). }
      rewrite <- Eq in Hx. apply elem_of_filter in Hx as [? _]. lia. }
  exists r. split; [done|]. assert (Hnew : forall k, on_line d x k -> (exists c, commitLocked d k = Some c /\ EpochMicros (CommitTimestamp c) <= ts) -> on_line d p k).
  { intros k Hk (c' & E' & Hle). destruct (line_cons d x p k Hfp Hk) as [->|]; [assert (c' = c) as -> by congruence; lia|done]. }
  destruct r as [h|[]|]; try done.
  - destruct Ha as (H1 & H2 & H3). split_and!; [by econstructor|done|]. intros k Hk Ho. apply H3; auto.
  - destruct s; [done|]. destruct Ha as (H1 & H2 & H3). split_and!; [done..|]. intros k Hk Ho. eapply H3; eauto.
Qed.

(** On an acyclic graph the walk back to a point in time ends: at the first commit
    of the first-parent line that is no later, or with an error that says there is none. *)
Theorem CommitAtOrBefore_spec d from ts : acyclic d -> exists r, CommitAtOrBefore d from ts = Some r /\ time_answer d (EpochMicros ts) from r.
Proof.
  intros (rank & Hm & _). apply (at_or_before_spec d _ rank); [done|]. rewrite <- (size_dom (nodes d)).
  assert (size (filter (fun h => (rank h <= rank from)%nat) (dom (nodes d))) <= size (dom (nodes d)))%nat; [|lia].
  apply subseteq_size. intros h [_ ?]%elem_of_filter. done.
Qed.

Lemma CommitAtOrBefore_spec_witness :
  (exists r, CommitAtOrBefore demo_merges (CommitHash merge_1) (mkTs 2 0) = Some r /\
     time_answer demo_merges (EpochMicros (mkTs 2 0)) (CommitHash merge_1) r) /\
  CommitAtOrBefore demo_merges (CommitHash merge_1) (mkTs 2 0) = Some (Ok (CommitHash commit_a)).
Proof. split; [apply (CommitAtOrBefore_spec demo_merges (CommitHash merge_1) (mkTs 2 0)); exact demo_merges_acyclic|vm_compute; reflexivity]. Defined.

(** ** Names of revisions *)

(** A byte no rune of [runes] begins with. *)
Definition no_start (runes : list bytes) (c : byte) : bool := forallb (fun r => negb (bool_decide (hd_error r = Some c))) runes.

Lemma space_at_none runes c s : forallb (fun r => negb (bool_decide (r = []))) runes = true -> no_start runes c = true -> space_at runes (c :: s) = None.
Proof.
  intros Hn Hs. unfold space_at. enough (List.find (has_prefix (c :: s)) runes = None) as -> by done. unfold no_start in Hs.
  induction runes as [|r runes IH]; [done|]. cbn in Hn, Hs |- *. apply andb_true_iff in Hn as [Hr Hn], Hs as [Hc Hs].
  rewrite (IH Hn Hs). unfold has_prefix. rewrite bool_decide_false; [done|]. intros E. apply negb_true_iff, bool_decide_eq_false in Hr, Hc.
  destruct r as [|x r]; [done|]. cbn in E. injection E as -> _. done.
Qed.

Lemma TrimLeft_start c s : no_start space_runes c = true -> TrimLeft (c :: s) = c :: s.
Proof. intros Hc. apply trim_from_id. apply space_at_none; [by vm_compute|done]. Qed.
Lemma TrimRight_end c s : no_start (map (@rev byte) space_runes) c = true -> TrimRight (s ++ [c]) = s ++ [c].
Proof.
  intros Hc. unfold TrimRight. rewrite rev_app_distr. cbn [rev app]. rewrite trim_from_id; [cbn; by rewrite rev_involutive|].
  apply space_at_none; [by vm_compute|done].
Qed.

Lemma hex_range n : 0 <= n < 16 -> exists k, hex_digit n = z2b k /\ k ∈ [48; 49; 50; 51; 52; 53; 54; 55; 56; 57; 97; 98; 99; 100; 101; 102].
Proof.
  intros Hn. assert (In n [0; 1; 2; 3; 4; 5; 6; 7; 8; 9; 10; 11; 12; 13; 14; 15]) as Hi by (cbn; lia).
  unfold hex_digit. repeat (destruct Hi as [<-|Hi]; [eexists; split; [reflexivity|set_solver]|]). done.
Qed.

Definition digit_byte (c : byte) : Prop := exists k, c = z2b (48 + k) /\ 0 <= k < 10.
Lemma dec_digits_bytes n z c : c ∈ Strconv.dec_digits n z -> digit_byte c.
Proof.
  revert z. induction n as [|n IH]; intros z; cbn; [by intros ?%not_elem_of_nil|]. intros [Hc|Hc]%elem_of_app; [eauto|].
  apply list_elem_of_singleton in Hc as ->. eexists. split; [done|]. apply Z.mod_pos_bound. lia.
Qed.
Lemma digit_cases (P : byte -> bool) : forallb (fun k => P (z2b (48 + k))) [0; 1; 2; 3; 4; 5; 6; 7; 8; 9] = true -> forall c, digit_byte c -> P c = true.
Proof.
  intros H c (k & -> & Hk). rewrite forallb_forall in H. apply H. cbn. lia.
Qed.

Lemma hex_not k c : k ∈ [48; 49; 50; 51; 52; 53; 54; 55; 56; 57; 97; 98; 99; 100; 101; 102] -> 103 <= b2z c -> z2b k <> c.
Proof.
  intros Hk Hc <-. rewrite b2z_z2b in Hc. apply list_elem_of_In in Hk. cbn in Hk. assert (48 <= k <= 102) by lia. rewrite Z.mod_small in Hc by (cbn; lia). lia.
Qed.

(** How a reference is written. *)
Definition spell (r : CommitRef) : option bytes :=
  match r with
  | RefByHash hex => Some hex
  | RefByBranch name => Some (str "branch:" ++ name)
  | RefByTag name => Some (str "tag:" ++ name)
  | RefByTime _ => None
  end.
(** A hash is written in hexadecimal; names are any text. *)
Definition proper (r : CommitRef) : Prop := match r with RefByHash hex => exists h, hash_wf h /\ hex = Hex h | _ => True end.

Lemma spell_start r s : proper r -> spell r = Some s -> exists c s', s = c :: s' /\ no_start space_runes c = true.
Proof.
  destruct r as [hex|name|name|ts]; cbn; [|by intros _ [= <-]; eexists _, _..|done].
  intros (h & Hw & ->) [= <-]. unfold Hex, hash_wf in *. destruct (HashBytes h) as [|x bs]; [done|]. cbn. eexists _, _. split; [done|].
  destruct (hex_range (b2z x / 16)) as (k & -> & Hk); [pose proof (b2z_range x); zdm|].
  repeat (apply elem_of_cons in Hk as [->|Hk]; [by vm_compute|]). by apply not_elem_of_nil in Hk.
Qed.

Lemma spell_ref rev back r s : proper r -> spell r = Some s -> ref_of rev s back = Ok (r, back).
Proof.
  destruct r as [hex|name|name|ts]; cbn [spell proper]; [| | |done].
  - intros (h & Hw & ->) [= <-]. unfold Hex, hash_wf in *. destruct (HashBytes h) as [|x [|y bs]]; [done..|]. unfold ref_of.
    destruct (hex_range (b2z x / 16)) as (k & E & Hk); [pose proof (b2z_range x); zdm|].
    destruct (hex_range (b2z x mod 16)) as (k' & E' & Hk'); [zdm|]. cbn [EncodeToString]. rewrite E, E'. rewrite bool_decide_false by done.
    assert (EqualFold (z2b k :: z2b k' :: hex_digit (b2z y / 16) :: hex_digit (b2z y mod 16) :: EncodeToString bs) (str "head") = false) as ->.
    { apply bool_decide_eq_false. intros Eq. apply (f_equal length) in Eq. cbn in Eq. rewrite length_map in Eq.
      pose proof (EncodeToString_length bs). cbn in Hw. lia. }
    assert (Ht : z2b k <> x74) by (by apply (hex_not k)). assert (Hr : z2b k' <> x72) by (by apply (hex_not k')).
    assert (Hp : forall rest, has_prefix (z2b k :: z2b k' :: rest) (str "tag:") = false) by (intros; apply bool_decide_eq_false; intros [=]; done).
    assert (Hb : forall rest, has_prefix (z2b k :: z2b k' :: rest) (str "branch:") = false) by (intros; apply bool_decide_eq_false; intros [=]; done).
    by rewrite Hp, Hb.
  - intros _ [= <-]. done.
  - intros _ [= <-]. done.
Qed.

Lemma rev_replicate {A} n (x : A) : rev (replicate n x) = replicate n x.
Proof. induction n as [|n IH]; [done|]. rewrite replicate_S_end at 2. cbn. by rewrite IH. Qed.

Definition numbered_spec (s : bytes) (k : Z) (n : nat) : bytes := s ++ tilde :: Wal.fmt020d k ++ replicate n caret.

Lemma digits_end k : 0 <= k -> exists ds c, Wal.fmt020d k = ds ++ [c] /\ digit_byte c.
Proof.
  intros Hk. unfold Wal.fmt020d. destruct (Z.ltb_spec k 0); [lia|]. eexists (Strconv.dec_digits 19 (k / 10)), _. split; [done|].
  eexists. split; [done|]. apply Z.mod_pos_bound. lia.
Qed.

Lemma trim_numbered r s k n : proper r -> spell r = Some s -> 0 <= k -> TrimSpace (numbered_spec s k n) = numbered_spec s k n.
Proof.
  intros Hp Hs Hk. destruct (spell_start r s Hp Hs) as (c & s' & -> & Hc). unfold TrimSpace, numbered_spec. cbn [app]. rewrite TrimLeft_start by done.
  destruct (digits_end k Hk) as (ds & e & -> & He).
  assert (E : exists l e', c :: s' ++ tilde :: (ds ++ [e]) ++ replicate n caret = l ++ [e'] /\ no_start (map (@rev byte) space_runes) e' = true).
  { destruct n as [|n].
    - exists (c :: s' ++ tilde :: ds), e. split; [cbn; rewrite app_nil_r; by rewrite <- app_assoc|].
      revert e He. apply (digit_cases (no_start (map (@rev byte) space_runes))). by vm_compute.
    - exists (c :: s' ++ tilde :: (ds ++ [e]) ++ replicate n caret), caret. split; [|by vm_compute].
      rewrite replicate_S_end. cbn. rewrite <- !app_assoc. cbn. by rewrite <- !app_assoc. }
  destruct E as (l & e' & -> & He'). by apply TrimRight_end.
Qed.

Lemma strip_numbered s k n : 0 <= k -> strip_suffix caret (numbered_spec s k n) = (n, s ++ tilde :: Wal.fmt020d k).
Proof.
  intros Hk. unfold strip_suffix, numbered_spec. destruct (digits_end k Hk) as (ds & e & -> & He).
  replace (s ++ tilde :: (ds ++ [e]) ++ replicate n caret) with ((s ++ tilde :: ds ++ [e]) ++ replicate n caret) by (by rewrite <- app_assoc).
  rewrite rev_app_distr, rev_replicate, strip_app; [by rewrite rev_involutive|].
  rewrite app_comm_cons, app_assoc, rev_app_distr. cbn. intros [= ->].
  pose proof (digit_cases (fun c => negb (bool_decide (c = caret))) ltac:(by vm_compute) caret He) as Hn. cbn in Hn. by rewrite bool_decide_true in Hn.
Qed.

(** Reading back a spelled revision: a hash, branch or tag followed by a step count
    and any number of carets parses to that reference and the total of the steps. *)
Theorem ParseRevision_spelled r s k n : proper r -> spell r = Some s -> TrimRight s = s -> 0 <= k -> k + Z.of_nat n < 2 ^ 63 ->
  ParseRevision (numbered_spec s k n) = Ok (r, k + Z.of_nat n).
Proof.
  intros Hp Hs Ht Hk Hb. unfold ParseRevision. rewrite (trim_numbered r) by done.
  rewrite bool_decide_false by (unfold numbered_spec; by destruct s). rewrite strip_numbered by done.
  rewrite split_last_app by (intros Hin; unfold Wal.fmt020d in Hin; destruct (Z.ltb_spec k 0); [lia|]; apply dec_digits_bytes in Hin;
    pose proof (digit_cases (fun c => negb (bool_decide (c = tilde))) ltac:(by vm_compute) tilde Hin) as Hn; cbn in Hn; by rewrite bool_decide_true in Hn).
  unfold steps_of. rewrite bool_decide_false by (destruct (digits_end k Hk) as (? & ? & -> & _); by destruct x).
  rewrite WalCorrect.ParseInt_fmt020d by lia. destruct (Z.ltb_spec k 0); [lia|]. cbn [mbind go_bind].
  assert (TrimSpace s = s) as ->.
  { destruct (spell_start r s Hp Hs) as (c & s' & -> & Hc). unfold TrimSpace. by rewrite TrimLeft_start. }
  rewrite (wraps_id 64 (Z.of_nat n)) by (unfold is_s; lia). rewrite wraps_id by (unfold is_s; lia). rewrite Z.add_comm. by apply spell_ref.
Qed.

Lemma ParseRevision_spelled_witness :
  ParseRevision (numbered_spec (str "branch:dev") 10 2) = Ok (RefByBranch (str "dev"), 12) /\
  numbered_spec (str "branch:dev") 10 2 = str "branch:dev~00000000000000000010^^".
Proof.
  split; [|vm_compute; reflexivity].
  apply (ParseRevision_spelled (RefByBranch (str "dev")) (str "branch:dev") 10 2); [exact I|reflexivity|vm_compute; reflexivity|lia|lia].
Defined.
End DagWalk.
