(* ===== verification/DagJoin.v ===== *)
(** Content-free merges and the history they stand for: [dag/join.go], and
    [codec/derived_uuid.go] for the author of such merges.  The ancestry tests
    may renumber the graph, so it is threaded through. *)

From S2P Require Import Prelude Primitives Document Commit CommitDirect Walk Sha256 Numbering Paint Dag DagOps DagAncestry DagMerge.
Import Commit CommitDirect Dag DagOps DagAncestry DagDemo DagMerge.

Set Warnings "-clear-no-such-hyp".

Module DagJoin.

(** ** Derived identifiers *)

Definition DocIDNamespace : bytes :=
  map z2b [0x6f; 0x5b; 0x9a; 0x1c; 0x2d; 0x3e; 0x4f; 0x70; 0x8a; 0x9b; 0x1c; 0x2d; 0x3e; 0x4f; 0x5a; 0x6b].

(** [b[i] = f(b[i])] for an index within the 16 bytes. *)
Definition set_bits (i : nat) (mask bits : Z) (b : bytes) : bytes := alter (fun x => z2b (Z.lor (Z.land (b2z x) mask) bits)) i b.

Definition DerivedUUID (s : bytes) : UUID :=
  let b := set_bits 8 0x3f 0x80 (set_bits 6 0x0f 0x80 (take 16 (Sha256.Sum256 (DocIDNamespace ++ s)))) in
  match UUIDFromBytes b with Ok id => id | _ => mkUUID 0 0 end.

Definition MergeAuthorNodeID : UUID := DerivedUUID (str "kdb:merge-author/1").
Definition MergeMessage : bytes := str "kdb:merge/1".

(** ** Merges without content *)

(** [sameSchemaHash] is equality. *)
Definition same_content (pc c : Commit) : bool :=
  bool_decide (DocumentTreeHash pc = DocumentTreeHash c) && bool_decide (SchemaHash pc = SchemaHash c).

Definition IsContentFreeMerge (d : InMemoryCommitDag) (c : Commit) : bool :=
  if negb (bool_decide (AuthorNodeID c = MergeAuthorNodeID)) || negb (bool_decide (Message c = MergeMessage)) || bool_decide (ParentHashes c = []) then false
  else forallb (fun p => if is_stub d p then false else match GetCommit p d with Some pc => same_content pc c | None => false end) (ParentHashes c).

Definition parents_got (d : InMemoryCommitDag) (h : Hash) : list Hash :=
  match GetCommit h d with Some c => ParentHashes c | None => [] end.
Definition content_free (d : InMemoryCommitDag) (h : Hash) : bool :=
  match GetCommit h d with Some c => IsContentFreeMerge d c | None => false end.

(** The parents of the graph's commits and of the commit of the head snapshot. *)
Definition known_parents (d : InMemoryCommitDag) : gset Hash :=
  all_parents d ∪ match head d with Some (mkSnap _ _ (Some c)) => list_to_set (ParentHashes c) | _ => ∅ end.

Definition contentTips (d : InMemoryCommitDag) (heads : list Hash) : list Hash :=
  match Walk.walk (parents_got d) fifo (fun h out => if content_free d h then (out, Descend) else (out ++ [h], Skip))
    (Walk.fuel_for (parents_got d) (known_parents d) heads) ∅ [] heads with
  | Some (_, out) => out
  | None => []
  end.

(** ** Maximal commits *)

(** Whether [h] is an ancestor of one of the others; [uniq] has each hash once, so another index is another hash. *)
Fixpoint below_any (h : Hash) (os : list Hash) (d : InMemoryCommitDag) : bool * InMemoryCommitDag :=
  match os with
  | [] => (false, d)
  | o :: os =>
    if bool_decide (h = o) then below_any h os d
    else let '(b, d) := IsAncestor h o d in if b : bool then (true, d) else below_any h os d
  end.
Fixpoint keep_maximal (hs all : list Hash) (d : InMemoryCommitDag) : list Hash * InMemoryCommitDag :=
  match hs with
  | [] => ([], d)
  | h :: hs =>
    let '(below, d) := below_any h all d in
    let '(out, d) := keep_maximal hs all d in
    (if below : bool then out else h :: out, d)
  end.
Definition MaximalOf (hs : list Hash) (d : InMemoryCommitDag) : list Hash * InMemoryCommitDag :=
  let '(out, d) := keep_maximal (uniq hs) (uniq hs) d in (SortHashes out, d).

Definition FrontierOf (heads : list Hash) (d : InMemoryCommitDag) : list Hash * InMemoryCommitDag := MaximalOf (contentTips d heads) d.
Definition Frontier (head : Hash) (d : InMemoryCommitDag) : list Hash * InMemoryCommitDag := FrontierOf [head] d.

(** [for _, f := range fs { if f != head && !d.IsAncestor(f, head) { return false } }; return true] *)
Fixpoint all_within (fs : list Hash) (head : Hash) (d : InMemoryCommitDag) : bool * InMemoryCommitDag :=
  match fs with
  | [] => (true, d)
  | f :: fs =>
    if bool_decide (f = head) then all_within fs head d
    else let '(b, d) := IsAncestor f head d in if b : bool then all_within fs head d else (false, d)
  end.

Definition Incorporates (x head : Hash) (d : InMemoryCommitDag) : bool * InMemoryCommitDag :=
  if bool_decide (x = head) then (true, d)
  else
    let '(b, d) := IsAncestor x head d in
    if b : bool then (true, d)
    else if negb (has d x) then (false, d)
    else let '(fs, d) := Frontier x d in all_within fs head d.

(** Whether [f] is one of [ps] or below one. *)
Fixpoint covered_by (f : Hash) (ps : list Hash) (d : InMemoryCommitDag) : bool * InMemoryCommitDag :=
  match ps with
  | [] => (false, d)
  | p :: ps =>
    if bool_decide (f = p) then (true, d)
    else let '(b, d) := IsAncestor f p d in if b : bool then (true, d) else covered_by f ps d
  end.
Fixpoint all_covered (fs : list Hash) (c : Commit) (d : InMemoryCommitDag) : bool * InMemoryCommitDag :=
  match fs with
  | [] => (true, d)
  | f :: fs =>
    let '(b, d) := if bool_decide (f = CommitHash c) then (true, d) else covered_by f (ParentHashes c) d in
    if b : bool then all_covered fs c d else (false, d)
  end.
Definition SupersedesHead (c : Commit) (head : Hash) (d : InMemoryCommitDag) : bool * InMemoryCommitDag :=
  match GetCommit head d with
  | Some hc => if same_content hc c then let '(fs, d) := Frontier head d in all_covered fs c d else (false, d)
  | None => (false, d)
  end.


(** The vectors the other implementation of the identifiers is pinned to. *)
Example DerivedUUID_vectors :
  map (fun s => UUIDString (DerivedUUID s)) [str "order-1"; str "hello world"; str "not-a-uuid-but-32-hex-chars-longg"] =
  [str "54d100db-b8d0-8b38-8755-264670b3fc47"; str "9a539ef2-89c8-8c13-ad83-8a44424f7dda"; str "d5b9c948-8700-86ca-aa15-70943b61fd2a"].
Proof. vm_compute. reflexivity. Qed.

(** ** What a question does to the graph *)

Definition ready (d : InMemoryCommitDag) : Prop := acyclic d /\ gen_inv d.
(** At most its generations are recomputed. *)
Definition asked (d d' : InMemoryCommitDag) : Prop := same_graph d d' /\ head d' = head d /\ ready d'.

Lemma asked_refl d : ready d -> asked d d.
Proof. intros [? ?]. by split_and!. Qed.
Lemma asked_trans d1 d2 d3 : asked d1 d2 -> asked d2 d3 -> asked d1 d3.
Proof. intros (G1 & H1 & _) (G2 & H2 & R). split_and!; [by eapply same_graph_trans|congruence|done..]. Qed.

Lemma IsAncestor_asked a x d : ready d -> let '(b, d') := IsAncestor a x d in asked d d' /\ (b = true <-> reach d x a).
Proof.
  intros [Ha Hi]. pose proof (IsAncestor_reach a x d Ha Hi) as Hr. unfold IsAncestor in *. pose proof (ensure_spec d Ha Hi) as He.
  unfold ensureGenerationsLocked in *. destruct (AncestryPruning d) eqn:Ep; cbn [negb fst] in *.
  - destruct He as (Hg & Ha' & _ & Hok). split; [|done]. split_and!; [done|by destruct (genStale d)|split; [done|]]. right. by apply Hok.
  - split; [by apply asked_refl|done].
Qed.

Lemma asked_reach d d' x y : asked d d' -> reach d' x y <-> reach d x y.
Proof. intros (Hg & _). by apply same_reach. Qed.

(** ** Maximal commits *)

Lemma below_any_spec h os d : ready d ->
  let '(b, d') := below_any h os d in asked d d' /\ (b = true <-> exists o, o ∈ os /\ o <> h /\ reach d o h).
Proof.
  revert d. induction os as [|o os IH]; intros d Hd; cbn [below_any]; [split; [by apply asked_refl|set_solver]|].
  case_bool_decide as E; [subst o; specialize (IH d Hd); destruct (below_any h os d) as [b d']; destruct IH as [A B]; split; [done|]; rewrite B; set_solver|].
  pose proof (IsAncestor_asked h o d Hd) as H. destruct (IsAncestor h o d) as [b d1]. destruct H as [A B]. destruct b.
  - split; [done|]. split; [intros _|done]. exists o. split_and!; [by left|done|by apply B].
  - specialize (IH d1 (proj2 (proj2 A))). destruct (below_any h os d1) as [b d2]. destruct IH as [A' B']. split; [by eapply asked_trans|].
    rewrite B'. setoid_rewrite (asked_reach d d1 _ _ A). split; intros (o' & Ho & Hn & Hr); exists o'; (split; [|done]); [by right|].
    apply elem_of_cons in Ho as [->|]; [|done]. apply B in Hr. done.
Qed.

Lemma keep_maximal_spec hs all d : ready d ->
  let '(out, d') := keep_maximal hs all d in
  asked d d' /\ out `sublist_of` hs /\ forall h, h ∈ out <-> h ∈ hs /\ forall o, o ∈ all -> reach d o h -> o = h.
Proof.
  revert d. induction hs as [|h hs IH]; intros d Hd; cbn [keep_maximal]; [split; [by apply asked_refl|split; [done|set_solver]]|].
  pose proof (below_any_spec h all d Hd) as H. destruct (below_any h all d) as [b d1]. destruct H as [A B].
  specialize (IH d1 (proj2 (proj2 A))). destruct (keep_maximal hs all d1) as [out d2]. destruct IH as (A' & S & C).
  setoid_rewrite (asked_reach d d1 _ _ A) in C. split; [by eapply asked_trans|].
  assert (Hm : b = false <-> forall o, o ∈ all -> reach d o h -> o = h).
  { destruct b; split; try done.
    - intros Hm. destruct (proj1 B eq_refl) as (o & Ho & Hn & Hr). by specialize (Hm o Ho Hr).
    - intros _ o Ho Hr. destruct (decide (o = h)); [done|]. assert (false = true); [|done]. apply B. by exists o. }
  destruct b.
  - split; [by apply sublist_cons|]. intros k. rewrite C, elem_of_cons. split; [tauto|]. intros [[->|Hk] Hall]; [by apply Hm in Hall|done].
  - split; [by apply sublist_skip|]. intros k. rewrite !elem_of_cons, C. split; [|tauto]. intros [->|]; [split; [by left|by apply Hm]|tauto].
Qed.

(** The members of a list that are below no other. *)
Definition maximal_in (d : InMemoryCommitDag) (P : Hash -> Prop) (h : Hash) : Prop := P h /\ forall o, P o -> reach d o h -> o = h.
Definition maximal_list (d : InMemoryCommitDag) (P : Hash -> Prop) (out : list Hash) : Prop :=
  NoDup out /\ StronglySorted (before HashBytes) out /\ forall h, h ∈ out <-> maximal_in d P h.

Lemma MaximalOf_max hs d : ready d -> let '(out, d') := MaximalOf hs d in asked d d' /\ maximal_list d (fun h => h ∈ hs) out.
Proof.
  intros Hd. unfold MaximalOf. destruct (uniq_spec hs) as [Un Ue]. pose proof (keep_maximal_spec (uniq hs) (uniq hs) d Hd) as H.
  destruct (keep_maximal _ _ d) as [out d']. destruct H as (A & S & C). split; [done|]. unfold maximal_list, SortHashes. split_and!.
  - rewrite isort_perm. by eapply sublist_NoDup.
  - apply SortHashes_sorted.
  - intros h. rewrite isort_perm, C. unfold maximal_in. rewrite Ue. by setoid_rewrite Ue.
Qed.

Lemma maximal_unique d P Q out out' : (forall h, P h <-> Q h) -> maximal_list d P out -> maximal_list d Q out' -> out = out'.
Proof.
  intros HPQ (N & S & H) (N' & S' & H'). apply (StronglySorted_unique_strong (before HashBytes)); [|done|done|].
  - intros [a] [b] _ _ L1 L2. f_equal. by apply bytes_leb_antisymm.
  - apply NoDup_Permutation; [done..|]. intros h. rewrite H, H'. unfold maximal_in. rewrite HPQ. by setoid_rewrite HPQ.
Qed.

Lemma maximal_above d (hs : list Hash) h : acyclic d -> h ∈ hs -> exists m, maximal_in d (fun h => h ∈ hs) m /\ reach d m h.
Proof.
  intros (rank & Hm & Hb). remember (Z.to_nat (2 ^ 32) - rank h)%nat as k eqn:E. assert (Z.to_nat (2 ^ 32) - rank h <= k)%nat as Hk by lia.
  clear E. revert h Hk. induction k as [|k IH]; intros h Hk Hh; pose proof (Hb h); [lia|].
  destruct (decide (Exists (fun o => h ∈ ancestorClosureLocked d o /\ o <> h) hs)) as [(o & Ho & Hr & Hne)%Exists_exists|Hn].
  - apply closure_spec in Hr. destruct (reach_rank d rank o h Hm Hr) as [|Hlt]; [done|].
    destruct (IH o) as (n & Hn & Hnr); [lia|done|]. exists n. split; [done|]. by etrans.
  - exists h. split; [|constructor]. split; [done|]. intros o Ho Hr. destruct (decide (o = h)); [done|]. exfalso. apply Hn, Exists_exists.
    exists o. rewrite closure_spec. done.
Qed.

(** ** Looking through merges *)

(** [h] is on a path down from [x] that goes through content-free merges only. *)
Definition looks (d : InMemoryCommitDag) (h : Hash) : verdict := if content_free d h then Descend else Skip.
Definition through (d : InMemoryCommitDag) : Hash -> Hash -> Prop := Walk.via (parents_got d) (looks d).
(** The commits with content that [x] stands for. *)
Definition tip (d : InMemoryCommitDag) (x h : Hash) : Prop := through d x h /\ content_free d h = false.

Lemma got_known d h p : p ∈ parents_got d h -> p ∈ known_parents d.
Proof.
  unfold parents_got, known_parents, GetCommit. assert (Hl : p ∈ match commitLocked d h with Some c => ParentHashes c | None => [] end -> p ∈ all_parents d).
  { intros Hp. apply all_parents_spec. exists h. unfold commitLocked, parentsOf in *. destruct (nodes d !! h); [done|by apply not_elem_of_nil in Hp]. }
  destruct (head d) as [[? h' [c|]]|]; [case_bool_decide; set_solver|set_solver..].
Qed.

Lemma contentTips_spec d heads h : h ∈ contentTips d heads <-> exists x, x ∈ heads /\ tip d x h.
Proof.
  unfold contentTips. set (body := fun (h : Hash) (out : list Hash) => _).
  assert (Hb : forall x a, True -> (body x a).2 = looks d x /\ True) by (intros x a _; unfold body, looks; by destruct (content_free d x)).
  destruct (Walk.walk_spec (parents_got d) fifo (known_parents d) body (looks d) (fun _ => True) Hb fifo_perm (got_known d) heads [] I)
    as (seen & out & E & Hs & Hc). rewrite E.
  pose proof (Walk.walk_invariant (parents_got d) fifo body (fun seen out => forall h, h ∈ out <-> h ∈ seen /\ content_free d h = false)
    (Walk.fuel_for (parents_got d) (known_parents d) heads) ∅ [] heads (seen, out)) as Hinv. cbn [fst snd] in Hinv.
  assert (Ho : forall h, h ∈ out <-> h ∈ seen /\ content_free d h = false).
  { apply Hinv; [|intros k; split; [by intros ?%not_elem_of_nil|by intros [?%elem_of_empty _]]|exact E].
    intros s a x Hx Ha k. unfold body. destruct (content_free d x) eqn:Ec; cbn [fst]; rewrite elem_of_union, elem_of_singleton.
    - rewrite Ha. split; [tauto|]. intros [[->|Hk] Hf]; [congruence|done].
    - rewrite elem_of_app, Ha, list_elem_of_singleton. split; [intros [[? ?]| ->]; auto|tauto]. }
  rewrite Ho. destruct Hc as [(x & _ & El)|[Hc _]]; [unfold looks in El; by destruct (content_free d x)|]. split.
  - intros [Hx Hf]. destruct (Hs h Hx) as (x & Hxh & Hv). by exists x.
  - intros (x & Hx & Hv & Hf). split; [by apply (Hc x)|done].
Qed.

Lemma asked_got d d' h : asked d d' -> GetCommit h d' = GetCommit h d.
Proof. intros ((Hc & _) & Hh & _). unfold GetCommit. by rewrite Hh, Hc. Qed.
Lemma forallb_congr {A} (f g : A -> bool) l : (forall x, f x = g x) -> forallb f l = forallb g l.
Proof. intros E. induction l as [|x l IH]; cbn; [done|]. by rewrite E, IH. Qed.
Lemma asked_tip d d' x t : asked d d' -> tip d' x t <-> tip d x t.
Proof.
  intros Ha. assert (Ef : forall h, content_free d' h = content_free d h).
  { intros h. unfold content_free, IsContentFreeMerge. rewrite (asked_got d d' h Ha). destruct (GetCommit h d) as [c|]; [|done].
    destruct (_ || _); [done|]. apply forallb_congr. intros p. unfold is_stub. rewrite (asked_got d d' p Ha). by destruct Ha as ((_ & -> & _) & _). }
  unfold tip, through, Walk.via, Walk.edge, looks, parents_got. rewrite Ef. split; intros [Hr Hf]; (split; [|done]); eapply rtc_subrel; [|exact Hr| |exact Hr].
  all: intros a b [H1 H2]; by rewrite ?Ef, ?(asked_got d d' a Ha) in *.
Qed.

Lemma FrontierOf_max heads d : ready d ->
  let '(out, d') := FrontierOf heads d in asked d d' /\ maximal_list d (fun h => exists x, x ∈ heads /\ tip d x h) out.
Proof.
  intros Hd. unfold FrontierOf. pose proof (MaximalOf_max (contentTips d heads) d Hd) as H. destruct (MaximalOf _ d) as [out d'].
  destruct H as (A & N & S & C). split; [done|]. split_and!; [done..|]. intros h. rewrite C. unfold maximal_in.
  setoid_rewrite contentTips_spec. done.
Qed.

Lemma tips_covered x d : ready d -> forall t, tip d x t -> exists f, f ∈ (Frontier x d).1 /\ reach d f t.
Proof.
  intros Hd t Ht. destruct (maximal_above d (contentTips d [x]) t) as (m & [Hm Hmax] & Hr); [apply Hd|apply contentTips_spec; set_solver|].
  pose proof (FrontierOf_max [x] d Hd) as H. unfold Frontier. destruct (FrontierOf [x] d) as [out d']. destruct H as (_ & _ & _ & C).
  exists m. split; [|done]. apply C. split; [by apply contentTips_spec|]. intros o Ho. apply Hmax. by apply contentTips_spec.
Qed.

Lemma all_within_spec fs h d : ready d -> let '(b, d') := all_within fs h d in asked d d' /\ (b = true <-> forall f, f ∈ fs -> reach d h f).
Proof.
  revert d. induction fs as [|f fs IH]; intros d Hd; cbn [all_within]; [split; [by apply asked_refl|split; [by intros _ f ?%not_elem_of_nil|done]]|].
  case_bool_decide as E.
  - subst f. specialize (IH d Hd). destruct (all_within fs h d) as [b d']. destruct IH as [A B]. split; [done|]. rewrite B. setoid_rewrite elem_of_cons.
    split; [intros Ha f [->|Hf]; [constructor|auto]|auto].
  - pose proof (IsAncestor_asked f h d Hd) as H. destruct (IsAncestor f h d) as [b d1]. destruct H as [A B]. destruct b.
    + specialize (IH d1 (proj2 (proj2 A))). destruct (all_within fs h d1) as [b d2]. destruct IH as [A' B']. split; [by eapply asked_trans|].
      rewrite B'. setoid_rewrite (asked_reach d d1 _ _ A). setoid_rewrite elem_of_cons. split; [|auto].
      intros Ha g [->|Hg]; [by apply B|auto].
    + split; [done|]. split; [done|]. intros Ha. apply B. apply Ha. by left.
Qed.

(** ** Claims *)

(** The members of a list that are below no other, each once, sorted; and every member is below one of them. *)
Theorem MaximalOf_spec hs d : acyclic d -> gen_inv d ->
  let out := (MaximalOf hs d).1 in
  NoDup out /\ StronglySorted (before HashBytes) out /\
  (forall h, h ∈ out <-> h ∈ hs /\ forall o, o ∈ hs -> reach d o h -> o = h) /\ forall h, h ∈ hs -> exists m, m ∈ out /\ reach d m h.
Proof.
  intros Ha Hi. pose proof (MaximalOf_max hs d (conj Ha Hi)) as H. destruct (MaximalOf hs d) as [out d']. destruct H as (_ & N & S & C).
  cbn. split_and!; [done..|]. intros h Hh. destruct (maximal_above d hs h Ha Hh) as (m & Hm & Hr). exists m. split; [by apply C|done].
Qed.

Lemma MaximalOf_spec_witness :
  let hs := [CommitHash commit_a; demo_root; CommitHash merge_1; CommitHash merge_2; CommitHash merge_1] in
  let out := (MaximalOf hs demo_merges).1 in
  (NoDup out /\ StronglySorted (before HashBytes) out /\
   (forall h, h ∈ out <-> h ∈ hs /\ forall o, o ∈ hs -> reach demo_merges o h -> o = h) /\ forall h, h ∈ hs -> exists m, m ∈ out /\ reach demo_merges m h) /\
  out = SortHashes [CommitHash merge_2; CommitHash merge_1].
Proof. split; [apply (MaximalOf_spec _ demo_merges); [exact demo_merges_acyclic|exact demo_merges_inv]|vm_compute; reflexivity]. Defined.

(** A merge that only joins its parents. *)
Definition join (ps : list Hash) : Commit :=
  let c := mkCommit ZeroHash ps (str "demo") (mkUUID 1 7) (mkTs 9 0) MergeAuthorNodeID [] ZeroHash None MergeMessage None in
  ok_or c (BuildCommitWithAttachments c).
Definition commit_y : Commit := Eval vm_compute in demo_commit 8 [demo_root].
Definition join_ax : Commit := Eval vm_compute in join [CommitHash commit_a; CommitHash commit_x].
Definition join_ay : Commit := Eval vm_compute in join [CommitHash commit_a; CommitHash commit_y].
(** The same three commits, joined in two ways. *)
Definition join_1 : Commit := Eval vm_compute in join [CommitHash join_ax; CommitHash commit_y].
Definition join_2 : Commit := Eval vm_compute in join [CommitHash join_ay; CommitHash commit_x].
Definition demo_joins : InMemoryCommitDag :=
  put_all [commit_a; commit_x; commit_y; join_ax; join_ay; join_1; join_2] demo_dag.

Lemma joins_verified : forallb verified [commit_y; join_ax; join_ay; join_1; join_2] = true.
Proof. vm_compute. reflexivity. Qed.

Lemma demo_joins_acyclic : acyclic demo_joins.
Proof.
  apply (ordered_acyclic [demo_root; CommitHash commit_a; CommitHash commit_x; CommitHash commit_y; CommitHash join_ax; CommitHash join_ay; CommitHash join_1; CommitHash join_2]);
    [vm_compute; reflexivity|cbn; lia].
Qed.
Lemma demo_joins_inv : gen_inv demo_joins.
Proof. intros H. assert (E : AncestryPruning demo_joins = false) by (vm_compute; reflexivity). congruence. Qed.

(** A head incorporates [x] exactly when it reaches [x], or [x] is resident and the
    head reaches every commit with content that [x] stands for. *)
Theorem Incorporates_spec x h d : acyclic d -> gen_inv d ->
  (Incorporates x h d).1 = true <-> reach d h x \/ has d x = true /\ forall t, tip d x t -> reach d h t.
Proof.
  intros Ha Hi. assert (Hd : ready d) by done. unfold Incorporates. case_bool_decide as E; [subst; split; [by left; constructor|done]|].
  pose proof (IsAncestor_asked x h d Hd) as H. destruct (IsAncestor x h d) as [b d1]. destruct H as [A B]. destruct b.
  { split; [intros _; left; by apply B|done]. }
  rewrite (same_has d d1 x (proj1 A)). destruct (has d x); cbn [negb fst].
  2:{ split; [done|]. intros [Hr|[? _]]; [by apply B in Hr|done]. }
  assert (Hd1 : ready d1) by apply A. pose proof (FrontierOf_max [x] d1 Hd1) as HF. pose proof (tips_covered x d1 Hd1) as HT. unfold Frontier in *.
  destruct (FrontierOf [x] d1) as [fs d2]. destruct HF as [A2 (_ & _ & C)]. cbn [fst] in HT.
  assert (Htip : forall t, tip d1 x t <-> tip d x t) by (intros t; by apply asked_tip).
  pose proof (all_within_spec fs h d2 (proj2 (proj2 A2))) as HA. destruct (all_within fs h d2) as [b d3]. destruct HA as [_ HB]. cbn [fst]. rewrite HB.
  assert (Hr : forall a b, reach d2 a b <-> reach d a b) by (intros a b'; rewrite (asked_reach d1 d2 a b' A2); by apply asked_reach).
  setoid_rewrite Hr. split.
  - intros Hall. right. split; [done|]. intros t Ht%Htip. destruct (HT t Ht) as (f & Hf & Hft). etrans; [by apply Hall|]. by apply (asked_reach d d1).
  - intros [Hx|[_ Hall]]; [by apply B in Hx|]. intros f [[x' [->%list_elem_of_singleton Ht]] _]%C. apply Hall. by apply Htip.
Qed.

Lemma Incorporates_spec_witness :
  ((Incorporates (CommitHash join_1) (CommitHash join_2) demo_joins).1 = true <->
   reach demo_joins (CommitHash join_2) (CommitHash join_1) \/
   has demo_joins (CommitHash join_1) = true /\ forall t, tip demo_joins (CommitHash join_1) t -> reach demo_joins (CommitHash join_2) t) /\
  (Incorporates (CommitHash join_1) (CommitHash join_2) demo_joins).1 = true.
Proof. split; [apply (Incorporates_spec _ _ demo_joins); [exact demo_joins_acyclic|exact demo_joins_inv]|vm_compute; reflexivity]. Defined.

(** Heads that stand for the same commits with content have the same frontier,
    in whatever order and however often they were joined. *)
Theorem FrontierOf_confluent heads heads' d : acyclic d -> gen_inv d ->
  (forall t, (exists x, x ∈ heads /\ tip d x t) <-> exists x, x ∈ heads' /\ tip d x t) -> (FrontierOf heads d).1 = (FrontierOf heads' d).1.
Proof.
  intros Ha Hi Ht. pose proof (FrontierOf_max heads d (conj Ha Hi)) as H. pose proof (FrontierOf_max heads' d (conj Ha Hi)) as H'.
  destruct (FrontierOf heads d) as [out d1], (FrontierOf heads' d) as [out' d2]. destruct H as [_ H], H' as [_ H']. by apply (maximal_unique d _ _ _ _ Ht).
Qed.

Lemma same_tips d xs ys : SortHashes (contentTips d xs) = SortHashes (contentTips d ys) ->
  forall t, (exists x, x ∈ xs /\ tip d x t) <-> exists x, x ∈ ys /\ tip d x t.
Proof.
  intros E t. rewrite <- !contentTips_spec. assert (P : contentTips d xs ≡ₚ contentTips d ys) by (unfold SortHashes in E; by erewrite <- (isort_perm _ (contentTips d xs)), E, isort_perm). by rewrite P.
Qed.
Lemma demo_joins_tips t : (exists x, x ∈ [CommitHash join_1] /\ tip demo_joins x t) <-> exists x, x ∈ [CommitHash join_2] /\ tip demo_joins x t.
Proof. apply same_tips. vm_compute. reflexivity. Qed.

Lemma FrontierOf_confluent_witness : (FrontierOf [CommitHash join_1] demo_joins).1 = (FrontierOf [CommitHash join_2] demo_joins).1 /\ CommitHash join_1 <> CommitHash join_2.
Proof.
  split; [apply (FrontierOf_confluent [CommitHash join_1] [CommitHash join_2] demo_joins); [exact demo_joins_acyclic|exact demo_joins_inv|exact demo_joins_tips]|].
  vm_compute. discriminate.
Defined.
End DagJoin.
