(* ===== verification/DagInvariant.v ===== *)
(** The invariants of the commit graph, kept by every operation: the published
    head snapshot is current, the default branch exists, branches and tags name
    commits that are there, and generation numbers are in order or known stale. *)

From S2P Require Import Prelude Primitives Document Commit CommitDirect Walk Numbering Paint Strings Dag DagOps DagAncestry.
Import Document Commit CommitDirect Dag DagOps DagAncestry.

Set Warnings "-clear-no-such-hyp".

Module DagInvariant.

Definition present (d : InMemoryCommitDag) (h : Hash) : Prop := is_Some (nodes d !! h) \/ is_Some (stubs d !! h).

(** A commit may be admitted when no commit of the graph already counts on its
    absence: else its generation may not fit below its children's. *)
Definition fresh (c : Commit) (d : InMemoryCommitDag) : Prop :=
  AncestryPruning d = true -> genStale d = false ->
  (CommitHash c ∉ ParentHashes c) /\ (forall h, CommitHash c ∉ parentsOf d h) /\
  forall p, p ∈ ParentHashes c -> generationLocked d p < 2 ^ 32 - 1.

(** Commits may arrive in any order, also after their children.  The order of the
    generations needs that they do not; all else holds regardless.  [ordered] says
    which of the two a history is. *)
Section invariant.
Context {ordered : bool}.

Definition when_ordered (Q : Prop) : Prop := if ordered then Q else True.
Lemma ordered_all (Q : Prop) : Q -> when_ordered Q.
Proof. unfold when_ordered. by destruct ordered. Qed.

(** Everything but the snapshot. *)
Record coreb (d : InMemoryCommitDag) : Prop := {
  core_main : is_Some (branches d !! mainBranch);
  core_keys : forall h n, nodes d !! h = Some n -> CommitHash (commit n) = h;
  core_gens : forall h n, nodes d !! h = Some n -> is_u 32 (generation n);
  core_branches : forall name b, branches d !! name = Some b -> BranchName b = name /\ present d (HeadHash b);
  core_tags : forall name t, tags d !! name = Some t -> TagName t = name /\ present d (TagCommit t);
  core_pins : forall h n, pins d !! h = Some n -> 1 <= n;
  core_unlogged : forall h, h ∈ unlogged d -> is_Some (nodes d !! h);
  core_order : when_ordered (gen_inv d);
}.

Record wfb (d : InMemoryCommitDag) : Prop := {
  wf_core : coreb d;
  wf_head : head d = Some (snapshot d);
}.

Lemma publish_wf d : coreb d -> wfb (publishHeadLocked d).
Proof. intros [H1 H2 H3 H4 H5 H6 H7 H8]. by constructor. Qed.

(** ** Generations *)

Lemma gen_nonneg d h : coreb d -> 0 <= generationLocked d h < 2 ^ 32.
Proof.
  intros Hc. unfold generationLocked. destruct (nodes d !! h) as [n|] eqn:E; cbn; [|lia]. by pose proof (core_gens d Hc h n E) as H.
Qed.

Definition admissible (c : Commit) (d : InMemoryCommitDag) : Prop := when_ordered (fresh c d).

Lemma derive_max d ps m : 0 <= m < 2 ^ 32 - 1 -> (forall p, p ∈ ps -> 0 <= generationLocked d p < 2 ^ 32 - 1) ->
  let g := foldl (fun max p => let g := generationLocked d p in if has d p && (max <? g) then g else max) m ps in
  m <= g < 2 ^ 32 - 1 /\ forall p, p ∈ ps -> generationLocked d p <= g.
Proof.
  revert m. induction ps as [|p ps IH]; intros m Hm Hps; cbn [foldl]; [split; [lia|]; by intros p ?%not_elem_of_nil|]. cbv zeta in *.
  pose proof (Hps p ltac:(by left)) as Hp. set (m' := if has d p && (m <? generationLocked d p) then generationLocked d p else m).
  assert (Hm' : m <= m' < 2 ^ 32 - 1 /\ generationLocked d p <= m').
  { unfold m'. destruct (has d p) eqn:E; cbn [andb]; [destruct (Z.ltb_spec m (generationLocked d p)); lia|].
    apply has_not in E. unfold generationLocked. rewrite E. cbn. lia. }
  destruct (IH m' ltac:(lia)) as [I1 I2]; [intros q Hq; apply Hps; by right|]. split; [lia|]. intros q [->|Hq]%elem_of_cons; [|auto]. etrans; [apply Hm'|apply I1].
Qed.

Lemma derive_spec d c : coreb d -> (forall p, p ∈ ParentHashes c -> generationLocked d p < 2 ^ 32 - 1) ->
  forall p, p ∈ ParentHashes c -> generationLocked d p < deriveGenerationLocked c d.
Proof.
  intros Hc Hp p Hin. unfold deriveGenerationLocked. cbv zeta. destruct (derive_max d (ParentHashes c) 0) as [I1 I2]; [lia| |cbv zeta in *].
  - intros q Hq. split; [apply (gen_nonneg d q Hc)|auto].
  - specialize (I2 p Hin). set (g := foldl _ 0 _) in *. rewrite wrapu_id by (unfold is_u; lia). lia.
Qed.

Lemma store_lookup c d h : nodes (storeCommitLocked c d) !! h =
  if bool_decide (h = CommitHash c) then Some (mkNode c (if AncestryPruning d then deriveGenerationLocked c d else 0)) else nodes d !! h.
Proof.
  unfold storeCommitLocked. cbn [nodes set_nodes]. case_bool_decide as E; [subst; by rewrite lookup_insert_eq|]. rewrite lookup_insert_ne by done.
  by destruct (AncestryPruning d && _).
Qed.

Lemma store_fields c d : let d' := storeCommitLocked c d in
  branches d' = branches d /\ tags d' = tags d /\ stubs d' = stubs d /\ shallow d' = shallow d /\ pins d' = pins d /\ unlogged d' = unlogged d /\
  head d' = head d /\ AncestryPruning d' = AncestryPruning d /\ txIndex d' = txIndex d /\ (genStale d' = false -> genStale d = false).
Proof. unfold storeCommitLocked. by destruct (AncestryPruning d && _). Qed.

Lemma store_order c d : coreb d -> admissible c d -> when_ordered (gen_inv (storeCommitLocked c d)).
Proof.
  unfold admissible, when_ordered. intros Hc Hf. pose proof (core_order d Hc) as Hord. unfold when_ordered in Hord. destruct ordered; [|done]. destruct (store_fields c d) as (_ & _ & Es & Esh & _ & _ & _ & Ep & _ & Eg). intros Hp. rewrite Ep in Hp.
  destruct (genStale (storeCommitLocked c d)) eqn:Est; [by left|right]. specialize (Eg eq_refl). destruct (Hf Hp Eg) as (F1 & F2 & F3).
  destruct (Hord Hp) as [|Hg]; [congruence|]. intros h p. unfold expandParentsLocked, is_stub, parentsOf, generationLocked.
  rewrite Es, Esh, !store_lookup. case_bool_decide as E1; [by intros ?%not_elem_of_nil|]. case_bool_decide as E2; [by intros ?%not_elem_of_nil|].
  case_bool_decide as E3; [subst h|]; cbn.
  - intros Hin. rewrite bool_decide_false by (intros ->; done). rewrite Hp. by apply (derive_spec d c Hc F3).
  - intros Hin. rewrite bool_decide_false by (intros ->; by apply (F2 h)). apply Hg. unfold expandParentsLocked, is_stub.
    rewrite bool_decide_false, bool_decide_false by done. done.
Qed.

Lemma store_present c d h : present d h -> present (storeCommitLocked c d) h.
Proof.
  unfold present. rewrite store_lookup. destruct (store_fields c d) as (_ & _ & -> & _). intros [H|H]; [left|by right]. case_bool_decide; [by eexists|done].
Qed.

Lemma store_core c d : coreb d -> admissible c d -> coreb (storeCommitLocked c d).
Proof.
  intros Hc Hf. pose proof (store_order c d Hc Hf) as Ho. pose proof (store_present c d) as Hpr.
  destruct (store_fields c d) as (Eb & Et & _ & _ & Ep & Eu & _). constructor; rewrite ?Eb, ?Et, ?Ep, ?Eu; [apply Hc|..|done].
  - intros h n. rewrite store_lookup. case_bool_decide; [by intros [= <-]|by apply core_keys].
  - intros h n. rewrite store_lookup. case_bool_decide; [intros [= <-]|by apply core_gens]. cbn. destruct (AncestryPruning d); [apply wrapu_range; lia|unfold is_u; lia].
  - intros name b Hb. destruct (core_branches d Hc name b Hb). auto.
  - intros name t Ht. destruct (core_tags d Hc name t Ht). auto.
  - apply Hc.
  - intros h Hu%(core_unlogged d Hc). rewrite store_lookup. case_bool_decide; [by eexists|done].
Qed.

(** Taking commits or edges away, or changing neither, keeps the order. *)
Lemma shrink_order d d' : coreb d -> nodes d' ⊆ nodes d -> (forall h p, p ∈ expandParentsLocked d' h -> p ∈ expandParentsLocked d h) ->
  AncestryPruning d' = AncestryPruning d -> (genStale d = true -> genStale d' = true) -> when_ordered (gen_inv d').
Proof.
  intros Hc Hn He Ep Eg. pose proof (core_order d Hc) as Hord. unfold when_ordered in *. destruct ordered; [|done]. intros Hp. rewrite Ep in Hp. destruct (Hord Hp) as [|Hg]; [left; auto|right]. intros h p Hin.
  pose proof (Hg h p (He h p Hin)) as Hlt. pose proof (gen_nonneg d p Hc).
  assert (Eh : generationLocked d' h = generationLocked d h).
  { destruct (parents_resident d' h p) as [n E]; [by apply expand_parents|]. unfold generationLocked. by rewrite E, (lookup_weaken _ _ _ _ E Hn). }
  rewrite Eh. unfold generationLocked in *. destruct (nodes d' !! p) as [n|] eqn:E; cbn; [by rewrite (lookup_weaken _ _ _ _ E Hn) in Hlt|lia].
Qed.

Lemma shrink_nodes d d' : coreb d -> nodes d' ⊆ nodes d ->
  (forall h n, nodes d' !! h = Some n -> CommitHash (commit n) = h) /\ (forall h n, nodes d' !! h = Some n -> is_u 32 (generation n)).
Proof. intros Hc Hn. split; intros h n E; [apply (core_keys d Hc)|apply (core_gens d Hc h)]; by eapply lookup_weaken. Qed.

(** ** Operations that leave the commits alone *)

(** Every field but the counters and the index of transactions. *)
Lemma same_core d d' : coreb d -> nodes d' = nodes d -> stubs d' = stubs d -> branches d' = branches d -> tags d' = tags d ->
  (forall h n, pins d' !! h = Some n -> 1 <= n) -> (forall h, h ∈ unlogged d' -> is_Some (nodes d !! h)) ->
  (forall h p, p ∈ expandParentsLocked d' h -> p ∈ expandParentsLocked d h) ->
  AncestryPruning d' = AncestryPruning d -> (genStale d = true -> genStale d' = true) -> coreb d'.
Proof.
  intros Hc En Es Eb Et Hp Hu He Ea Eg. assert (Hpr : forall h, present d h -> present d' h) by (intros h; unfold present; by rewrite En, Es).
  constructor; rewrite ?En, ?Eb, ?Et; try done; try apply Hc.
  - intros name b Hb. destruct (core_branches d Hc name b Hb). auto.
  - intros name t Ht. destruct (core_tags d Hc name t Ht). auto.
  - apply (shrink_order d); [done|by rewrite En|done..].
Qed.

Lemma same_snapshot d d' : (forall h, commitLocked d' h = commitLocked d h) -> branches d' = branches d -> snapshot d' = snapshot d.
Proof. intros Ec Eb. unfold snapshot. rewrite Eb. destruct (branches d !! mainBranch); [|done]. by rewrite Ec. Qed.

Lemma same_wf d d' : wfb d -> nodes d' = nodes d -> stubs d' = stubs d -> branches d' = branches d -> tags d' = tags d -> head d' = head d ->
  (forall h n, pins d' !! h = Some n -> 1 <= n) -> (forall h, h ∈ unlogged d' -> is_Some (nodes d !! h)) ->
  (forall h p, p ∈ expandParentsLocked d' h -> p ∈ expandParentsLocked d h) ->
  AncestryPruning d' = AncestryPruning d -> (genStale d = true -> genStale d' = true) -> wfb d'.
Proof.
  intros [Hc Hh] En Es Eb Et Ehd Hp Hu He Ea Eg. split; [by apply (same_core d)|]. rewrite Ehd, Hh. f_equal. symmetry. apply same_snapshot; [|done].
  intros h. unfold commitLocked. by rewrite En.
Qed.

Ltac same d Hd := apply (same_wf d _ Hd); try done; try apply (core_pins d (wf_core d Hd)); try apply (core_unlogged d (wf_core d Hd)).

Lemma bump_wf e d : wfb d -> wfb (bump e d).
Proof. intros Hd. same d Hd. Qed.
Lemma set_txIndex_wf t d : wfb d -> wfb (set_txIndex t d).
Proof. intros Hd. same d Hd. Qed.

Lemma shallow_wf h d : wfb d -> wfb (set_shallow ({[h]} ∪ shallow d) d).
Proof.
  intros Hd. same d Hd. intros x p. unfold expandParentsLocked, is_stub, parentsOf. cbn [stubs set_shallow shallow nodes].
  repeat case_bool_decide; try done; [by intros ?%not_elem_of_nil|set_solver].
Qed.

Lemma MarkShallow_wf h d : wfb d -> wfb (MarkShallow h d).
Proof. intros Hd. unfold MarkShallow. destruct (has d h); cbn [negb]; [|done]. by apply bump_wf, shallow_wf. Qed.

Lemma stale_wf d : wfb d -> wfb (set_genStale true d).
Proof. intros Hd. same d Hd. Qed.

Lemma Unshallow_wf h d : wfb d -> wfb (Unshallow h d).2.
Proof.
  intros Hd. unfold Unshallow. destruct (negb (bool_decide _)); [done|]. destruct (commitLocked d h) as [c|]; [|done].
  destruct (negb (parentsResidentLocked c d)); [done|]. cbn [snd]. apply bump_wf. destruct Hd as [[H1 H2 H3 H4 H5 H6 H7 H8] Hh].
  split; [constructor; try done|exact Hh]. apply ordered_all. by left.
Qed.

Lemma InvalidateGenerations_wf d : wfb d -> wfb (InvalidateGenerations d).
Proof. intros Hd. by apply bump_wf, stale_wf. Qed.

Lemma marks_wf p u d : wfb d -> (forall h, h ∈ u -> is_Some (nodes d !! h)) -> wfb (set_marks p u d).
Proof. intros Hd Hu. same d Hd. Qed.

Lemma MarkUnlogged_wf h d : wfb d -> wfb (MarkUnlogged h d).
Proof.
  intros Hd. unfold MarkUnlogged. destruct (has d h) eqn:E; [|done]. apply marks_wf; [done|]. apply has_lookup in E.
  intros x [->%elem_of_singleton|Hx]%elem_of_union; [done|by apply (core_unlogged d (wf_core d Hd))].
Qed.
Lemma unlog_less (d : InMemoryCommitDag) u : wfb d -> forall h, h ∈ unlogged d ∖ u -> is_Some (nodes d !! h).
Proof. intros Hd h [Hh _]%elem_of_difference. by apply (core_unlogged d (wf_core d Hd)). Qed.
Lemma MarkLogged_wf h d : wfb d -> wfb (MarkLogged h d).
Proof. intros Hd. unfold MarkLogged. case_bool_decide; [|done]. apply marks_wf; [done|by apply unlog_less]. Qed.
Lemma SettleProvisional_wf h d : wfb d -> wfb (SettleProvisional h d).
Proof. intros Hd. apply marks_wf; [done|]. apply (core_unlogged d (wf_core d Hd)). Qed.

Lemma Pin_wf h d : wfb d -> wfb (Pin h d).
Proof.
  intros Hd. pose proof (core_pins d (wf_core d Hd)) as Hp. same d Hd. intros x n. cbn. destruct (decide (h = x)) as [->|].
  - rewrite lookup_insert_eq. intros [= <-]. destruct (pins d !! x) eqn:E; cbn; [apply Hp in E|]; lia.
  - rewrite lookup_insert_ne by done. apply Hp.
Qed.
Lemma release_wf h d : wfb d -> wfb (release h d).
Proof.
  intros Hd. pose proof (core_pins d (wf_core d Hd)) as Hp. unfold release. destruct (pins d !! h) as [k|] eqn:Ek; [|done]. same d Hd. intros x n. cbn.
  destruct (Z.leb_spec k 1); [rewrite lookup_delete_Some; intros [_ E]; by apply Hp in E|]. destruct (decide (h = x)) as [->|].
  - rewrite lookup_insert_eq. intros [= <-]. lia.
  - rewrite lookup_insert_ne by done. apply Hp.
Qed.

(** ** Tags *)

Lemma tags_core t d : coreb d -> (forall name x, t !! name = Some x -> TagName x = name /\ present d (TagCommit x)) -> coreb (set_tags t d).
Proof. intros [H1 H2 H3 H4 H5 H6 H7 H8] Ht. by constructor. Qed.
Lemma tags_wf t d : wfb d -> (forall name x, t !! name = Some x -> TagName x = name /\ present d (TagCommit x)) -> wfb (set_tags t d).
Proof. intros [[H1 H2 H3 H4 H5 H6 H7 H8] Hh] Ht. by split; [constructor|]. Qed.

Lemma required_present h d : requireCommitPresentLocked h d = Ok tt -> present d h.
Proof.
  unfold requireCommitPresentLocked, has, is_stub, present. repeat case_bool_decide; cbn; try done; auto.
Qed.
Lemma required_ok h d r : requireCommitPresentLocked h d = Ok r -> present d h.
Proof. destruct r. apply required_present. Qed.

Lemma CreateTag_wf name h msg now d : wfb d -> wfb (CreateTag name h msg now d).2.
Proof.
  intros Hd. unfold CreateTag. case_bool_decide; [done|]. destruct (requireCommitPresentLocked h d) as [[]|e|] eqn:Er; [|done..].
  destruct (tags d !! name); [done|]. cbn [snd]. apply tags_wf; [done|]. intros x t Ht. apply lookup_insert_Some in Ht as [[<- <-]|[_ Ht]].
  - split; [done|]. by apply required_present.
  - by apply (core_tags d (wf_core d Hd)).
Qed.
Lemma DeleteTag_wf name d : wfb d -> wfb (DeleteTag name d).2.
Proof.
  intros Hd. unfold DeleteTag. destruct (tags d !! name); [|done]. apply tags_wf; [done|]. intros x t [_ Ht]%lookup_delete_Some.
  by apply (core_tags d (wf_core d Hd)).
Qed.

(** ** Branches *)

Lemma branches_core bs d : coreb d -> is_Some (bs !! mainBranch) -> (forall name b, bs !! name = Some b -> BranchName b = name /\ present d (HeadHash b)) -> coreb (set_branches bs d).
Proof. intros [H1 H2 H3 H4 H5 H6 H7 H8] Hm Hb. by constructor. Qed.

Lemma branch_insert name b d : coreb d -> BranchName b = name -> present d (HeadHash b) -> coreb (set_branches (<[name := b]> (branches d)) d).
Proof.
  intros Hc Hn Hp. apply branches_core; [done| |].
  - rewrite lookup_insert_is_Some. destruct (decide (name = mainBranch)); [by left|right]. split; [done|apply Hc].
  - intros x b' Hb. apply lookup_insert_Some in Hb as [[<- <-]|[_ Hb]]; [done|by apply (core_branches d Hc)].
Qed.

Lemma SetHead_wf name h now d : wfb d -> wfb (SetHead name h now d).2.
Proof.
  intros Hd. unfold SetHead. destruct (branches d !! name) as [b|] eqn:Eb; [|done]. destruct (requireCommitPresentLocked h d) as [[]|e|] eqn:Er; [|done..].
  cbn [snd]. apply publish_wf, branch_insert; [apply Hd|by apply (core_branches d (wf_core d Hd) name b)|by apply required_present].
Qed.
Lemma CreateBranch_wf name h now d : wfb d -> wfb (CreateBranch name h now d).2.
Proof.
  intros Hd. unfold CreateBranch. destruct (branches d !! name) as [b|]; [done|]. destruct (requireCommitPresentLocked h d) as [[]|e|] eqn:Er; [|done..].
  cbn [snd]. apply publish_wf, branch_insert; [apply Hd|done|by apply required_present].
Qed.
Lemma DeleteBranch_wf name d : wfb d -> wfb (DeleteBranch name d).2.
Proof.
  intros Hd. unfold DeleteBranch. case_bool_decide as En; [done|]. destruct (branches d !! name) as [b|]; [|done]. cbn [snd].
  apply publish_wf, branches_core; [apply Hd|rewrite lookup_delete_ne by done; apply Hd|].
  intros x b' [_ Hb]%lookup_delete_Some. by apply (core_branches d (wf_core d Hd)).
Qed.

(** ** Admitting commits *)

Lemma bump_core e d : coreb d -> coreb (bump e d).
Proof. intros [H1 H2 H3 H4 H5 H6 H7 H8]. by constructor. Qed.
Lemma set_txIndex_core t d : coreb d -> coreb (set_txIndex t d).
Proof. intros [H1 H2 H3 H4 H5 H6 H7 H8]. by constructor. Qed.

Lemma store_snapshot c d : coreb d -> snapHash (snapshot d) <> CommitHash c -> snapshot (storeCommitLocked c d) = snapshot d.
Proof.
  intros Hc. unfold snapshot. destruct (store_fields c d) as (-> & _). destruct (core_main d Hc) as [b ->]. cbn. intros Hn.
  unfold commitLocked. rewrite store_lookup, bool_decide_false by done. done.
Qed.

(** The commit is in the graph, or nothing has changed. *)
Lemma put_spec c rp v d : wfb d -> admissible c d ->
  let '(r, d') := putCommitLocked c rp v d in
  wfb d' /\ (d' = d \/ has d (CommitHash c) = false /\ (forall h, nodes d' !! h = nodes (storeCommitLocked c d) !! h) /\ branches d' = branches d /\
    stubs d' = stubs d /\ shallow d' = shallow d) /\
  (r = Ok tt -> is_Some (nodes d' !! CommitHash c)) /\ (r <> Ok tt -> d' = d).
Proof.
  intros Hd Hf. unfold putCommitLocked. destruct (has d (CommitHash c)) eqn:Eh; [apply has_lookup in Eh; by split_and!; [|left|..]|].
  destruct (if v then verify c else Ok tt) as [[]|e|]; [|by split_and!; [|left|..]..].
  destruct (if rp then missing_parent c d else None) as [p|]; [by split_and!; [|left|..]|].
  set (d1 := bump _ (storeCommitLocked c d)). set (d2 := match txIndex d1 !! TransactionID c with Some _ => d1 | None => _ end).
  assert (Hc2 : coreb d2) by (unfold d2; destruct (txIndex d1 !! _); [|apply set_txIndex_core]; by apply bump_core, store_core; [apply Hd|]).
  assert (H2 : nodes d2 = nodes (storeCommitLocked c d) /\ branches d2 = branches (storeCommitLocked c d) /\ head d2 = head (storeCommitLocked c d) /\
    stubs d2 = stubs (storeCommitLocked c d) /\ shallow d2 = shallow (storeCommitLocked c d)) by (unfold d2; by destruct (txIndex d1 !! _)).
  destruct H2 as (En & Eb & Ehd & Est & Esh). destruct (store_fields c d) as (Eb' & _ & Est' & Esh' & _ & _ & Ehd' & _).
  rewrite Ehd, Ehd', (wf_head d Hd).
  assert (Hin : is_Some (nodes d2 !! CommitHash c)) by (rewrite En, store_lookup, bool_decide_true by done; by eexists).
  assert (Hfin : wfb (if bool_decide (snapHash (snapshot d) = CommitHash c) then publishHeadLocked d2 else d2)).
  { case_bool_decide as Es; [by apply publish_wf|]. split; [done|]. rewrite Ehd, Ehd', (wf_head d Hd). f_equal.
    rewrite <- (store_snapshot c d); [|apply Hd|done]. unfold snapshot, commitLocked. by rewrite En, Eb. }
  split; [done|]. assert (Hsame : forall d3 : InMemoryCommitDag, d3 = d2 \/ d3 = publishHeadLocked d2 -> nodes d3 = nodes d2 /\ branches d3 = branches d2 /\ stubs d3 = stubs d2 /\ shallow d3 = shallow d2)
    by (by intros d3 [->| ->]).
  destruct (Hsame (if bool_decide (snapHash (snapshot d) = CommitHash c) then publishHeadLocked d2 else d2)) as (-> & -> & -> & ->); [case_bool_decide; auto|].
  split; [right; split_and!; [done|intros h; by rewrite En|congruence..]|]. split; [done|by intros []].
Qed.

Lemma put_wf c rp v d : wfb d -> admissible c d -> wfb (putCommitLocked c rp v d).2.
Proof. intros Hd Hf. pose proof (put_spec c rp v d Hd Hf) as H. destruct (putCommitLocked c rp v d). apply H. Qed.

(** Marks play no part in it. *)
Lemma put_marks c rp v p u d :
  putCommitLocked c rp v (set_marks p u d) = ((putCommitLocked c rp v d).1, set_marks p u (putCommitLocked c rp v d).2).
Proof.
  unfold putCommitLocked. change (has (set_marks p u d) (CommitHash c)) with (has d (CommitHash c)). destruct (has d (CommitHash c)); [done|].
  destruct (if v then verify c else Ok tt) as [[]|e|]; [|done..]. change (missing_parent c (set_marks p u d)) with (missing_parent c d).
  destruct (if rp then missing_parent c d else None) as [q|]; [done|]. unfold storeCommitLocked.
  change (AncestryPruning (set_marks p u d)) with (AncestryPruning d). change (parentsResidentLocked c (set_marks p u d)) with (parentsResidentLocked c d).
  change (deriveGenerationLocked c (set_marks p u d)) with (deriveGenerationLocked c d).
  destruct (AncestryPruning d && negb (parentsResidentLocked c d)); cbn; destruct (txIndex d !! TransactionID c); cbn;
    (destruct (head d) as [s|]; [case_bool_decide|]); done.
Qed.

Lemma put_failed c rp v d : wfb d -> admissible c d -> (putCommitLocked c rp v d).1 <> Ok tt -> (putCommitLocked c rp v d).2 = d.
Proof. intros Hd Hf. pose proof (put_spec c rp v d Hd Hf) as H. destruct (putCommitLocked c rp v d). apply H. Qed.

Lemma set_marks_id d : set_marks (provisional d) (unlogged d) d = d.
Proof. by destruct d. Qed.

Lemma put_keeps c rp v d h : wfb d -> admissible c d -> is_Some (nodes d !! h) -> is_Some (nodes (putCommitLocked c rp v d).2 !! h).
Proof.
  intros Hd Hf Hh. pose proof (put_spec c rp v d Hd Hf) as H. destruct (putCommitLocked c rp v d) as [r d']. destruct H as (_ & [->|(_ & En & _)] & _); [done|].
  cbn. rewrite En, store_lookup. case_bool_decide; [by eexists|done].
Qed.

(** Marked before it is stored, and unmarked when it is not. *)
Lemma unlogged_wf c rp d : wfb d -> admissible c d ->
  let '(r, d') := putCommitLocked c rp true (set_marks (provisional d) ({[CommitHash c]} ∪ unlogged d) d) in
  wfb (match r with Ok _ => d' | _ => set_marks (provisional d') (unlogged d' ∖ {[CommitHash c]}) d' end).
Proof.
  intros Hd Hf. rewrite put_marks. pose proof (put_spec c rp true d Hd Hf) as H. pose proof (fun h => put_keeps c rp true d h Hd Hf) as Hk.
  destruct (putCommitLocked c rp true d) as [r d']. destruct H as (Hw & _ & Hok & Hbad). cbn [fst snd] in *.
  assert (Hu : forall h, h ∈ unlogged d -> is_Some (nodes d' !! h)) by (intros h Hh; apply Hk, (core_unlogged d (wf_core d Hd) h Hh)).
  destruct r as [[]|e|].
  - apply marks_wf; [done|]. intros h [->%elem_of_singleton|Hh]%elem_of_union; auto.
  - apply (marks_wf _ _ d' Hw). intros h [[?|Hh]%elem_of_union ?]%elem_of_difference; [done|auto].
  - apply (marks_wf _ _ d' Hw). intros h [[?|Hh]%elem_of_union ?]%elem_of_difference; [done|auto].
Qed.

Lemma PutUnloggedCommit_wf c d : wfb d -> admissible c d -> wfb (PutUnloggedCommit c d).2.
Proof.
  intros Hd Hf. unfold PutUnloggedCommit. destruct (has d (CommitHash c)); [done|]. pose proof (unlogged_wf c true d Hd Hf) as H.
  destruct (putCommitLocked _ _ _ _) as [[[]|e|] d']; exact H.
Qed.

Lemma PutShallowCommit_wf c d : wfb d -> admissible c d -> wfb (PutShallowCommit c d).2.
Proof.
  intros Hd Hf. unfold PutShallowCommit. destruct (has d (CommitHash c)); [done|]. pose proof (put_wf c false true d Hd Hf) as Hw.
  destruct (putCommitLocked c false true d) as [[[]|e|] d']; cbn [snd] in *; [by apply bump_wf, shallow_wf|done..].
Qed.

Lemma PutUnloggedShallowCommit_wf c d : wfb d -> admissible c d -> wfb (PutUnloggedShallowCommit c d).2.
Proof.
  intros Hd Hf. unfold PutUnloggedShallowCommit. destruct (has d (CommitHash c)); [done|]. pose proof (unlogged_wf c false d Hd Hf) as H.
  destruct (putCommitLocked _ _ _ _) as [[[]|e|] d']; cbn [snd] in *; [by apply bump_wf, shallow_wf|done..].
Qed.

(** ** Taking commits away *)

(** Commits may go that no branch or tag names, and edges with them. *)
Lemma shrink_core d d' : coreb d -> nodes d' ⊆ nodes d -> (forall h p, p ∈ expandParentsLocked d' h -> p ∈ expandParentsLocked d h) ->
  AncestryPruning d' = AncestryPruning d -> (genStale d = true -> genStale d' = true) -> branches d' = branches d -> pins d' = pins d ->
  (forall h, h ∈ unlogged d' -> is_Some (nodes d' !! h)) ->
  (forall name b, branches d !! name = Some b -> present d' (HeadHash b)) ->
  (forall name t, tags d' !! name = Some t -> TagName t = name /\ present d' (TagCommit t)) -> coreb d'.
Proof.
  intros Hc Hn He Ea Eg Eb Ep Hu Hbr Ht. destruct (shrink_nodes d d' Hc Hn) as [Hk Hg]. constructor; rewrite ?Eb, ?Ep; try done; try apply Hc.
  - intros name b Hb. split; [by apply (core_branches d Hc)|by eapply Hbr].
  - by apply (shrink_order d).
Qed.

(** Fewer parents of fewer commits, when the stubs that are gone were of commits that are gone. *)
Lemma expand_less d d' h p : nodes d' ⊆ nodes d -> (forall x, is_Some (nodes d' !! x) -> x ∈ shallow d -> x ∈ shallow d') ->
  (forall x, is_Some (nodes d' !! x) -> is_Some (stubs d !! x) -> is_Some (stubs d' !! x)) -> p ∈ expandParentsLocked d' h -> p ∈ expandParentsLocked d h.
Proof.
  intros Hn Hsh Hst. unfold expandParentsLocked, is_stub, parentsOf. case_bool_decide as H1; [by intros ?%not_elem_of_nil|].
  case_bool_decide as H2; [by intros ?%not_elem_of_nil|]. destruct (nodes d' !! h) as [n|] eqn:E; [|by intros ?%not_elem_of_nil].
  rewrite (lookup_weaken _ _ _ _ E Hn). rewrite !bool_decide_false; [done|..]; [intros Hs; apply H2, Hsh; [by rewrite E|done]|intros Hs; apply H1, Hst; [by rewrite E|done]].
Qed.

Lemma PutStub_wf s d : wfb d -> wfb (PutStub s d).
Proof.
  intros Hd. unfold PutStub. destruct (has d (OriginalHash s)) eqn:Eh; [done|]. destruct (is_stub d (OriginalHash s)) eqn:Es; [done|]. apply bump_wf.
  assert (Hpr : forall h, present d h -> present (set_stubs (<[OriginalHash s := s]> (stubs d)) d) h).
  { intros h [H|H]; [by left|right]. cbn. apply lookup_insert_is_Some'. by right. }
  destruct Hd as [Hc Hh]. split; [apply (shrink_core d); try done|exact Hh].
  - intros h p. apply expand_less; [done|done|]. intros x _ Hx. cbn. apply lookup_insert_is_Some'. by right.
  - apply Hc.
  - intros name b Hb. by apply Hpr, (core_branches d Hc name b).
  - intros name t Ht. destruct (core_tags d Hc name t Ht). auto.
Qed.

Lemma StubCommit_wf h loc now d : wfb d -> wfb (StubCommit h loc now d).2.
Proof.
  intros [Hc Hh]. unfold StubCommit. destruct (negb (has d h)); [by split|]. destruct (pinned d h); [by split|]. cbn [snd]. apply publish_wf.
  set (d' := set_stubs _ _). assert (Hpr : forall x, present d x -> present d' x).
  { intros x Hx. unfold present, d'. cbn. destruct (decide (x = h)) as [->|]; [right; rewrite lookup_insert_eq; by eexists|].
    rewrite lookup_delete_ne, lookup_insert_ne by done. exact Hx. }
  apply (shrink_core d); try done.
  - apply delete_subseteq.
  - intros x p. apply expand_less; [apply delete_subseteq|done|]. intros y _ Hy. cbn. apply lookup_insert_is_Some'. by right.
  - intros x [Hx Hne%not_elem_of_singleton]%elem_of_difference. cbn. rewrite lookup_delete_ne by done. by apply (core_unlogged d Hc).
  - intros name b Hb. by apply Hpr, (core_branches d Hc name b).
  - intros name t Ht. destruct (core_tags d Hc name t Ht). auto.
Qed.

Lemma branch_at_none d hs name b : branch_at d hs = None -> branches d !! name = Some b -> HeadHash b ∉ hs.
Proof.
  intros Hn Hb Hin. unfold branch_at in Hn. pose proof (List.find_none _ _ Hn (HeadHash b)) as H. cbv beta in H. rewrite bool_decide_true in H by done.
  assert (true = false); [|done]. apply H. apply in_map_iff. exists (name, b). split; [done|]. apply list_elem_of_In. by apply elem_of_map_to_list.
Qed.

Lemma DropShallowCommit_wf h d : wfb d -> wfb (DropShallowCommit h d).2.
Proof.
  intros Hd. unfold DropShallowCommit. destruct (commitLocked d h) as [c|]; [|done]. destruct (negb _); [done|]. destruct (pinned d h); [done|].
  case_bool_decide as Eb; [done|]. destruct (tag_at d h) eqn:Et; [done|]. destruct (has_child d h); [done|]. cbn [snd]. apply publish_wf, bump_core.
  destruct Hd as [Hc _]. set (d' := set_marks _ _ _).
  assert (Hpr : forall x, x <> h -> present d x -> present d' x) by (intros x Hne; unfold present, d'; cbn; by rewrite lookup_delete_ne).
  enough (coreb d') by (case_bool_decide; [by apply set_txIndex_core|done]). apply (shrink_core d); try done.
  - apply delete_subseteq.
  - intros x p. apply expand_less; [apply delete_subseteq| |done]. intros y Hy Hs. cbn. apply elem_of_difference. split; [done|].
    intros ->%elem_of_singleton. cbn in Hy. rewrite lookup_delete_eq in Hy. by destruct Hy.
  - intros x [Hx Hne%not_elem_of_singleton]%elem_of_difference. cbn. rewrite lookup_delete_ne by done. by apply (core_unlogged d Hc).
  - intros name b Hb. apply Hpr; [|by apply (core_branches d Hc name b)]. intros Eq. apply eq_None_not_Some in Eb.
    apply (branch_at_none d _ name b Eb Hb). rewrite Eq. by left.
  - intros name t Ht. destruct (core_tags d Hc name t Ht) as [? Hp]. split; [done|]. apply Hpr; [|done]. intros <-.
    apply bool_decide_eq_false in Et. apply Et. by exists name, t.
Qed.

(** ** Appending *)

Lemma built_hash c c' : BuildCommitWithAttachments c = Ok c' -> c' = set_hash c (CommitHash c').
Proof. unfold BuildCommitWithAttachments. destruct (ComputeCommitHash _) as [h|e|]; [|done..]. by intros [= <-]. Qed.

Lemma append_wf p parents branch expected now d : wfb d -> (forall c, build p parents d = Ok c -> admissible c d) ->
  wfb (appendCommitLocked p parents branch expected now d).2.
Proof.
  intros Hd Hf. unfold appendCommitLocked. destruct (_ ← requireAll parents d; _) as [[]|e|]; [|done..].
  destruct (build p parents d) as [c|e|] eqn:Eb; [|done..]. pose proof (put_spec c true false d Hd (Hf c eq_refl)) as H.
  destruct (putCommitLocked c true false d) as [[[]|e|] d']; destruct H as (Hw & _ & Hok & _); cbn [snd]; [|done..].
  destruct (branches d' !! branch) as [b|] eqn:Ebr; [|done]. apply publish_wf, branch_insert; [apply Hw| |].
  - by apply (core_branches d' (wf_core d' Hw) branch b).
  - left. by apply Hok.
Qed.

Lemma AppendCommitWith_wf p parent detached prov now d : wfb d -> (forall c, build p [parent] d = Ok c -> admissible c d) ->
  wfb (AppendCommitWith p parent detached prov now d).2.
Proof.
  intros Hd Hf. unfold AppendCommitWith. pose proof (append_wf p [parent] mainBranch (if detached then None else Some parent) now d Hd Hf) as Hw.
  destruct (appendCommitLocked _ _ _ _ _ _) as [[c|e|] d']; cbn [snd] in *; [|done..]. destruct prov; [|done].
  apply marks_wf; [done|]. apply (core_unlogged d' (wf_core d' Hw)).
Qed.

(** ** Squashing *)

Definition squash_gone (hs : list Hash) (d : InMemoryCommitDag) : InMemoryCommitDag :=
  foldl (fun d h => unlog h (set_stubs (delete h (stubs d)) (delete_node h d))) d hs.

Lemma gone_lookup {A} (m : gmap Hash A) x hs h :
  (if bool_decide (h ∈ hs) then None else delete x m !! h) = if bool_decide (h ∈ x :: hs) then None else m !! h.
Proof.
  destruct (decide (h = x)) as [->|Hne].
  - rewrite lookup_delete_eq, (bool_decide_true (x ∈ x :: hs)) by (by left). by case_bool_decide.
  - rewrite lookup_delete_ne by done. erewrite (bool_decide_ext (h ∈ x :: hs) (h ∈ hs)); [done|]. rewrite elem_of_cons. tauto.
Qed.

Lemma squash_gone_spec hs d : let d' := squash_gone hs d in
  (forall h, nodes d' !! h = if bool_decide (h ∈ hs) then None else nodes d !! h) /\ (forall h, stubs d' !! h = if bool_decide (h ∈ hs) then None else stubs d !! h) /\
  (forall h, h ∈ unlogged d' <-> h ∈ unlogged d /\ h ∉ hs) /\ branches d' = branches d /\ tags d' = tags d /\ pins d' = pins d /\ shallow d' = shallow d /\
  AncestryPruning d' = AncestryPruning d /\ genStale d' = genStale d.
Proof.
  revert d. induction hs as [|x hs IH]; intros d; cbn [squash_gone foldl].
  { split_and!; try done; intros h; [by rewrite bool_decide_false by apply not_elem_of_nil..|]. split; [intros Hh; split; [done|apply not_elem_of_nil]|tauto]. }
  destruct (IH (unlog x (set_stubs (delete x (stubs d)) (delete_node x d)))) as (I1 & I2 & I3 & I4). unfold squash_gone in *.
  split_and!; [| | |apply I4..].
  - intros h. rewrite I1. apply gone_lookup.
  - intros h. rewrite I2. apply gone_lookup.
  - intros h. rewrite I3, not_elem_of_cons. cbn. rewrite elem_of_difference, elem_of_singleton. tauto.
Qed.

Lemma store_tags c t d : storeCommitLocked c (set_tags t d) = set_tags t (storeCommitLocked c d).
Proof. unfold storeCommitLocked. cbn. by destruct (AncestryPruning d && _). Qed.
Lemma set_tags_back d : set_tags (tags d) (set_tags ∅ d) = d.
Proof. by destruct d. Qed.

Lemma Squash_wf hs boundary tree schema msg now d : wfb d ->
  (forall c, BuildCommitWithAttachments (mkCommit ZeroHash [] (dagNamespace d) syntheticTx now syntheticAuthor [] tree schema msg None) = Ok c ->
    when_ordered (AncestryPruning d = true -> genStale d = false -> forall h, CommitHash c ∉ parentsOf d h)) ->
  wfb (Squash hs boundary tree schema msg now d).2.
Proof.
  intros Hd Hf. unfold Squash. destruct (negb (has d boundary)); [done|]. destruct (squash_window hs d) as [[]|e|]; [|done..].
  destruct (branch_at d hs) as [h|] eqn:Eb; [done|]. destruct (List.find (pinned d) hs); [done|].
  destruct (BuildCommitWithAttachments _) as [c|e|] eqn:Ec; [|done..]. specialize (Hf c eq_refl). cbn [snd]. apply publish_wf, bump_core.
  fold (squash_gone hs (set_tags ((fun t => if bool_decide (TagCommit t ∈ hs) then mkTag (TagName t) (CommitHash c) (TagCreatedAt t) (TagMessage t) else t) <$> tags d) d)).
  set (d1 := set_tags _ d). destruct (squash_gone_spec hs d1) as (Gn & Gs & Gu & Gb & Gt & Gp & Gsh & Ga & Gg). set (d2 := squash_gone hs d1) in *.
  rewrite <- (set_tags_back d2), store_tags. rewrite Gt. apply tags_core.
  - apply store_core.
    + destruct Hd as [Hc _]. apply (shrink_core d); try done.
      * apply map_subseteq_spec. intros h n. cbn. rewrite Gn. by case_bool_decide.
      * intros h p. apply expand_less; [|cbn; by rewrite Gsh|].
        -- apply map_subseteq_spec. intros x n. cbn. rewrite Gn. by case_bool_decide.
        -- intros x. cbn. rewrite Gn, Gs. by case_bool_decide; [intros []|].
      * cbn. by rewrite Gg.
      * intros h [Hh Hn]%Gu. cbn. rewrite Gn, bool_decide_false by done. by apply (core_unlogged d Hc).
      * intros name b Hb. destruct (core_branches d Hc name b Hb) as [_ Hp]. unfold present. cbn.
        rewrite Gn, Gs, bool_decide_false by (by eapply branch_at_none). done.
    + unfold admissible, when_ordered in *. destruct ordered; [|done]. intros Hp Hg. cbn in Hp, Hg. rewrite Ga in Hp. rewrite Gg in Hg. apply built_hash in Ec. rewrite Ec. cbn. split_and!; [by apply not_elem_of_nil| |by intros p ?%not_elem_of_nil].
      intros h Hin. apply (Hf Hp Hg h). unfold parentsOf in *. cbn in Hin. rewrite Gn in Hin. case_bool_decide; [by apply not_elem_of_nil in Hin|done].
  - intros name x Hx. unfold d1 in Hx; cbn in Hx; apply lookup_fmap_Some in Hx. destruct Hx as (t & <- & Ht). destruct (core_tags d (wf_core d Hd) name t Ht) as [Hn Hp].
    unfold present. rewrite store_lookup. case_bool_decide as Hin; cbn [TagName TagCommit].
    + split; [done|left]. rewrite bool_decide_true by done. by eexists.
    + split; [done|]. case_bool_decide; [left; by eexists|]. destruct (store_fields c (set_tags ∅ d2)) as (_ & _ & -> & _). cbn.
      rewrite Gn, Gs, bool_decide_false by done. exact Hp.
Qed.

(** ** Numbering anew *)

Lemma recompute_wf d : wfb d -> acyclic d -> wfb (recomputeGenerationsLocked d).
Proof.
  intros [Hc Hh] Ha. pose proof (recompute_graph d) as Hg. pose proof (recompute_ok d Ha) as Ho. destruct Ha as (rank & R1 & R2).
  assert (Hl : forall h, is_Some (nodes (recomputeGenerationsLocked d) !! h) <-> is_Some (nodes d !! h)).
  { intros h. rewrite <- !has_lookup. by rewrite (same_has d _ h Hg). }
  assert (Hpr : forall h, present d h -> present (recomputeGenerationsLocked d) h) by (intros h; unfold present; by rewrite Hl).
  split; [constructor; try apply Hc|].
  - intros h n E. destruct Hg as [Hg _]. specialize (Hg h). unfold commitLocked in Hg. rewrite E in Hg. destruct (nodes d !! h) as [n'|] eqn:E'; [|done].
    cbn in Hg. injection Hg as ->. by apply (core_keys d Hc).
  - intros h n E. pose proof (recompute_generation d rank R1 R2 h) as Eg. unfold generationLocked in Eg. rewrite E in Eg.
    change (generation n = true_gen d rank h) in Eg. rewrite Eg. pose proof (Numbering.level_nonneg (parentsOf d) (fun h => negb (has d h)) rank R1 h).
    pose proof (Numbering.level_rank (parentsOf d) (fun h => negb (has d h)) rank R1 h). specialize (R2 h). unfold true_gen, is_u. lia.
  - intros name b Hb. destruct (core_branches d Hc name b Hb). auto.
  - intros name t Ht. destruct (core_tags d Hc name t Ht). auto.
  - intros h Hu. apply Hl. by apply (core_unlogged d Hc).
  - apply ordered_all. by right.
  - transitivity (head d); [done|]. rewrite Hh. f_equal. symmetry. apply same_snapshot; [apply Hg|done].
Qed.

(** The questions that use generations. *)
Lemma ensure_wf d : wfb d -> acyclic d -> wfb (ensureGenerationsLocked d).2.
Proof.
  intros Hd Ha. unfold ensureGenerationsLocked. destruct (negb (AncestryPruning d)); [done|]. cbn. destruct (genStale d); [by apply recompute_wf|done].
Qed.

Definition with_pruning (on : bool) (d : InMemoryCommitDag) : InMemoryCommitDag :=
  mkDag (dagNamespace d) (head d) (nodes d) (stubs d) (shallow d) (branches d) (tags d) (txIndex d) (pins d)
    (ancestryVersion d) (ancestryEpoch d) on (genStale d) (provisional d) (unlogged d).

Lemma with_pruning_wf on d : wfb d -> when_ordered (gen_inv (with_pruning on d)) -> wfb (with_pruning on d).
Proof. intros [[H1 H2 H3 H4 H5 H6 H7 H8] Hh] Ho. by split; [constructor|]. Qed.

Lemma with_pruning_gens on d : gens_ok d -> gens_ok (with_pruning on d).
Proof. intros H h p. exact (H h p). Qed.

Lemma SetAncestryPruning_wf on d : wfb d -> acyclic d -> wfb (SetAncestryPruning on d).
Proof.
  intros Hd Ha. unfold SetAncestryPruning. fold (with_pruning on d). destruct on; cbn [andb]; [|apply with_pruning_wf; [done|by apply ordered_all]].
  destruct (AncestryPruning d) eqn:E; cbn [negb].
  - replace (with_pruning true d) with d by (destruct d; cbn in E; by subst). done.
  - change (wfb (with_pruning true (recomputeGenerationsLocked d))). apply with_pruning_wf; [by apply recompute_wf|]. apply ordered_all. right. apply with_pruning_gens. by apply recompute_ok.
Qed.

(** ** Creation *)

Lemma dag_of_wf ns g now : wfb (dag_of ns g now).
Proof.
  apply publish_wf. constructor.
  - eexists. apply lookup_singleton_eq.
  - intros h n. cbn. intros [[<- <-]|[_ H]]%lookup_insert_Some; [done|by rewrite lookup_empty in H].
  - intros h n. cbn. intros [[<- <-]|[_ H]]%lookup_insert_Some; [unfold is_u; cbn; lia|by rewrite lookup_empty in H].
  - intros name b Hb. cbn [branches set_branches] in Hb. apply lookup_singleton_Some in Hb as [<- <-]. split; [done|left]. eexists. apply lookup_insert_eq.
  - intros name t H. cbn in H. by rewrite lookup_empty in H.
  - intros h n H. cbn in H. by rewrite lookup_empty in H.
  - intros h Hh. by apply elem_of_empty in Hh.
  - by apply ordered_all.
Qed.

Lemma NewInMemoryCommitDag_wf ns tree now d : NewInMemoryCommitDag ns tree now = Ok d -> wfb d.
Proof. unfold NewInMemoryCommitDag. destruct (genesis ns tree) as [g|e|]; [|done..]. cbn [mbind go_bind]. intros [= <-]. apply dag_of_wf. Qed.

End invariant.

Arguments coreb : clear implicits.
Arguments wfb : clear implicits.
Arguments admissible : clear implicits.

(** The invariants of a history in which no commit came after its children. *)
Abbreviation core := (coreb true).
Abbreviation wf := (wfb true).

End DagInvariant.
