(* ===== verification/DagReachable.v ===== *)
(** The states the commit graph can be in, and what holds of all of them: the
    operations as the steps of a relation, the head that readers see without a
    lock, appending as compare-and-swap, and two places where the code and its
    comments part. *)

From S2P Require Import Prelude Primitives Document Commit CommitDirect Walk Numbering Paint Strings Dag DagOps DagAncestry DagMerge DagInvariant.
Import Document Commit CommitDirect Dag DagOps DagAncestry DagDemo DagMerge DagInvariant.

Set Warnings "-clear-no-such-hyp".

Module DagReachable.

(** ** Steps *)

(** In an [ordered] history what is appended is not yet counted on by another commit; otherwise
    there is no such condition. *)
Definition admissible_append (ordered : bool) (p : payload) (parents : list Hash) (d : InMemoryCommitDag) : Prop := forall c, build p parents d = Ok c -> admissible ordered c d.
Definition admissible_squash (ordered : bool) (tree : Hash) (schema : option Hash) (msg : bytes) (now : Timestamp) (d : InMemoryCommitDag) : Prop :=
  forall c, BuildCommitWithAttachments (mkCommit ZeroHash [] (dagNamespace d) syntheticTx now syntheticAuthor [] tree schema msg None) = Ok c ->
  when_ordered (ordered := ordered) (AncestryPruning d = true -> genStale d = false -> forall h, CommitHash c ∉ parentsOf d h).

Inductive step (ordered : bool) (d : InMemoryCommitDag) : InMemoryCommitDag -> Prop :=
  | s_put c rp : admissible ordered c d -> step ordered d (PutCommit c rp d).2
  | s_put_unlogged c : admissible ordered c d -> step ordered d (PutUnloggedCommit c d).2
  | s_put_shallow c : admissible ordered c d -> step ordered d (PutShallowCommit c d).2
  | s_put_unlogged_shallow c : admissible ordered c d -> step ordered d (PutUnloggedShallowCommit c d).2
  | s_put_stub s : step ordered d (PutStub s d)
  | s_mark_shallow h : step ordered d (MarkShallow h d)
  | s_unshallow h : step ordered d (Unshallow h d).2
  | s_invalidate : step ordered d (InvalidateGenerations d)
  | s_mark_unlogged h : step ordered d (MarkUnlogged h d)
  | s_mark_logged h : step ordered d (MarkLogged h d)
  | s_settle h : step ordered d (SettleProvisional h d)
  | s_pin h : step ordered d (Pin h d)
  | s_release h : step ordered d (release h d)
  | s_stub h loc now : step ordered d (StubCommit h loc now d).2
  | s_drop h : step ordered d (DropShallowCommit h d).2
  | s_set_head name h now : step ordered d (SetHead name h now d).2
  | s_create_branch name h now : step ordered d (CreateBranch name h now d).2
  | s_delete_branch name : step ordered d (DeleteBranch name d).2
  | s_create_tag name h msg now : step ordered d (CreateTag name h msg now d).2
  | s_delete_tag name : step ordered d (DeleteTag name d).2
  | s_append p parent now : admissible_append ordered p [parent] d -> step ordered d (AppendCommit p parent now d).2
  | s_append_detached p parent now : admissible_append ordered p [parent] d -> step ordered d (AppendCommitDetached p parent now d).2
  | s_append_merge expected p primary merged now : admissible_append ordered p [primary; merged] d -> step ordered d (AppendMergeCommitOnto expected p primary merged now d).2
  | s_append_onto expected p parents now : admissible_append ordered p parents d -> step ordered d (AppendCommitOnto expected p parents now d).2
  | s_append_with p parent detached prov now : admissible_append ordered p [parent] d -> step ordered d (AppendCommitWith p parent detached prov now d).2
  | s_squash hs boundary tree schema msg now : admissible_squash ordered tree schema msg now d -> step ordered d (Squash hs boundary tree schema msg now d).2
  | s_question : acyclic d -> step ordered d (ensureGenerationsLocked d).2
  | s_pruning on : acyclic d -> step ordered d (SetAncestryPruning on d).

Definition reached_by (ordered : bool) (d : InMemoryCommitDag) : Prop :=
  exists ns tree now d0, NewInMemoryCommitDag ns tree now = Ok d0 /\ rtc (step ordered) d0 d.

(** What any operations reach, and what they reach while no commit comes after its children. *)
Abbreviation reachable := (reached_by false).
Abbreviation reachable_in_order := (reached_by true).

Lemma step_wf o d d' : wfb o d -> step o d d' -> wfb o d'.
Proof.
  intros Hd Hs. destruct Hs; first [by apply put_wf|by apply PutUnloggedCommit_wf|by apply PutShallowCommit_wf|by apply PutUnloggedShallowCommit_wf
    |by apply PutStub_wf|by apply MarkShallow_wf|by apply Unshallow_wf|by apply InvalidateGenerations_wf|by apply MarkUnlogged_wf|by apply MarkLogged_wf
    |by apply SettleProvisional_wf|by apply Pin_wf|by apply release_wf|by apply StubCommit_wf|by apply DropShallowCommit_wf|by apply SetHead_wf
    |by apply CreateBranch_wf|by apply DeleteBranch_wf|by apply CreateTag_wf|by apply DeleteTag_wf|by apply append_wf|by apply AppendCommitWith_wf
    |by apply Squash_wf|by apply ensure_wf|by apply SetAncestryPruning_wf].
Qed.

Lemma steps_wf o d d' : wfb o d -> rtc (step o) d d' -> wfb o d'.
Proof. intros Hd Hs. induction Hs; [done|]. apply IHHs. by eapply step_wf. Qed.

(** ** The head *)

Lemma snapshot_main o d : wfb o d -> exists b, branches d !! mainBranch = Some b /\ head d = Some (mkSnap true (HeadHash b) (commitLocked d (HeadHash b))).
Proof.
  intros [Hc Hh]. destruct (core_main d Hc) as [b Eb]. exists b. split; [done|]. rewrite Hh. unfold snapshot. by rewrite Eb.
Qed.

Lemma GetCommit_locked o d h : wfb o d -> GetCommit h d = commitLocked d h.
Proof.
  intros Hd. destruct (snapshot_main o d Hd) as (b & _ & E). unfold GetCommit. rewrite E. destruct (commitLocked d (HeadHash b)) as [c|] eqn:Ec; [|done].
  case_bool_decide as Eh; [by subst|done].
Qed.

(** ** Appending *)

Lemma requireAll_present ps d r : requireAll ps d = Ok r -> forall p, p ∈ ps -> present d p.
Proof.
  induction ps as [|q ps IH]; cbn; [by intros _ p ?%not_elem_of_nil|]. destruct (requireCommitPresentLocked q d) as [[]|e|] eqn:E; cbn; [|done..].
  intros Hr p [->|Hp]%elem_of_cons; [by apply required_present|auto].
Qed.

Lemma present_required h d : present d h -> requireCommitPresentLocked h d = Ok tt.
Proof.
  unfold present, requireCommitPresentLocked, has, is_stub. intros [H|H]; rewrite (bool_decide_eq_true_2 _ H); cbn; [done|]. by rewrite andb_false_r.
Qed.

Lemma build_parents p parents d c : build p parents d = Ok c ->
  ParentHashes c = parents /\ CommitTimestamp c = causalTimestampLocked (txTimestamp p) parents d.
Proof. unfold build. intros E%built_hash. by rewrite E. Qed.

(** An append to a branch either gives up without a trace or moves it to the commit it built. *)
Lemma append_spec o p parents branch expected now d : wfb o d -> admissible_append o p parents d -> is_Some (branches d !! branch) ->
  let '(r, d') := appendCommitLocked p parents branch expected now d in
  match r with
  | Ok c => (forall q, q ∈ parents -> present d q) /\ check_head branch expected d = Ok tt /\ build p parents d = Ok c /\
      (exists b, branches d !! branch = Some b /\ branches d' = <[branch := move b (CommitHash c) now]> (branches d)) /\
      is_Some (nodes d' !! CommitHash c) /\ (has d (CommitHash c) = false -> commitLocked d' (CommitHash c) = Some c) /\
      forall h, is_Some (nodes d !! h) -> commitLocked d' h = commitLocked d h
  | _ => d' = d
  end.
Proof.
  intros Hd Hf [b0 Hbr]. unfold appendCommitLocked. destruct (requireAll parents d) as [[]|e|] eqn:Er; cbn [mbind go_bind]; [|done..].
  destruct (check_head branch expected d) as [[]|e|] eqn:Ech; [|done..]. destruct (build p parents d) as [c|e|] eqn:Eb; [|done..].
  pose proof (put_spec c true false d Hd (Hf c Eb)) as H. destruct (putCommitLocked c true false d) as [[[]|e|] d'].
  2,3: destruct H as (_ & _ & _ & Hbad); by apply Hbad.
  destruct H as (Hw & Hcase & Hok & _). assert (Ebr : branches d' = branches d) by (destruct Hcase as [->|(_ & _ & E & _)]; done).
  rewrite Ebr, Hbr. split_and!.
  - by eapply requireAll_present.
  - done.
  - done.
  - by exists b0.
  - cbn. by apply Hok.
  - intros Hn. destruct Hcase as [->|(_ & En & _)]; [apply has_not in Hn; by rewrite Hn in Hok; destruct (Hok eq_refl)|].
    unfold commitLocked. cbn. rewrite En, store_lookup, bool_decide_true by done. done.
  - intros h Hh. destruct Hcase as [->|(Hn & En & _)]; [done|]. unfold commitLocked. cbn. rewrite En, store_lookup, bool_decide_false; [done|].
    intros ->. apply has_not in Hn. rewrite Hn in Hh. by destruct Hh.
Qed.

(** ** Timestamps *)

Lemma EpochMicros_From m : is_s 64 m -> EpochMicros (TimestampFromEpochMicros m) = m.
Proof.
  intros Hm. rewrite EpochMicros_exact by (by apply TimestampFromEpochMicros_wf). unfold TimestampFromEpochMicros. cbv zeta.
  pose proof (Z.quot_rem' m 1000). destruct ((m <? 0) && negb (Z.rem m 1000 =? 0)); cbn [EpochMillis MicroRemainder]; lia.
Qed.

Lemma EpochMicros_range t : is_s 64 (EpochMicros t).
Proof. apply wraps_range. lia. Qed.

Definition micros_of (d : InMemoryCommitDag) (p : Hash) : option Z := (fun c => EpochMicros (CommitTimestamp c)) <$> commitLocked d p.

Lemma causal_fold d ps m : is_s 64 m -> (forall p t, p ∈ ps -> micros_of d p = Some t -> t < 2 ^ 63 - 1) ->
  let r := foldl (fun micros p =>
      match commitLocked d p with
      | Some c => let pm := EpochMicros (CommitTimestamp c) in if micros <=? pm then wraps 64 (pm + 1) else micros
      | None => micros
      end) m ps in
  is_s 64 r /\ m <= r /\ forall p t, p ∈ ps -> micros_of d p = Some t -> t < r.
Proof.
  revert m. induction ps as [|q ps IH]; intros m Hm Hb; cbn [foldl]; [split_and!; [done|lia|by intros ? ? ?%not_elem_of_nil]|]. cbv zeta in *.
  set (m' := match commitLocked d q with Some _ => _ | None => m end).
  assert (Hm' : is_s 64 m' /\ m <= m' /\ forall t, micros_of d q = Some t -> t < m').
  { unfold m'. pose proof (Hb q) as Hq. unfold micros_of in *. destruct (commitLocked d q) as [c|]; cbn in *; [|split_and!; [done|lia|done]].
    specialize (Hq _ ltac:(by left) eq_refl). pose proof (EpochMicros_range (CommitTimestamp c)) as Hr. unfold is_s in *.
    destruct (Z.leb_spec m (EpochMicros (CommitTimestamp c))); [rewrite wraps_id by (unfold is_s; lia)|]; (split_and!; try lia; intros t [= <-]; lia). }
  destruct Hm' as (M1 & M2 & M3). destruct (IH m' M1) as (I1 & I2 & I3); [intros p t Hp; apply Hb; by right|].
  split_and!; [done|lia|]. intros p t [->|Hp]%elem_of_cons Et; [specialize (M3 t Et); lia|eauto].
Qed.

Lemma causal_after ts ps d : (forall p t, p ∈ ps -> micros_of d p = Some t -> t < 2 ^ 63 - 1) ->
  let m := EpochMicros (causalTimestampLocked ts ps d) in
  EpochMicros ts <= m /\ forall p t, p ∈ ps -> micros_of d p = Some t -> t < m.
Proof.
  intros Hb. destruct (causal_fold d ps (EpochMicros ts) (EpochMicros_range ts) Hb) as (I1 & I2 & I3). unfold causalTimestampLocked. cbv zeta in *.
  set (r := foldl _ _ _) in *. destruct (Z.eqb_spec r (EpochMicros ts)) as [E|_]; [rewrite <- E at 1 2; rewrite E in *; split; [lia|done]|].
  rewrite EpochMicros_From by done. done.
Qed.

(** ** Claims *)

Lemma step_reachable_inv o d : reached_by o d -> wfb o d.
Proof. intros (ns & tree & now & d0 & E & Hs). eapply steps_wf; [|exact Hs]. by eapply NewInMemoryCommitDag_wf. Qed.

(** The demonstration history is such a state. *)
Lemma demo_unpruned : AncestryPruning demo_dag = false.
Proof. vm_compute. reflexivity. Qed.
Lemma demo_reachable o : reached_by o demo_dag.
Proof. exists (str "demo"), ZeroHash, (mkTs 0 0), demo_dag. split; [exact demo_new|constructor]. Qed.
Lemma demo_fresh o i ps : admissible_append o (demo_payload i) ps demo_dag.
Proof. intros c _. apply ordered_all. intros H. rewrite demo_unpruned in H. discriminate. Qed.

(** Nothing is asked of an append to a history in any order. *)
Lemma any_append p parents d : admissible_append false p parents d.
Proof. by intros c _. Qed.

Lemma step_any d d' : step true d d' -> step false d d'.
Proof. intros []; by constructor. Qed.
Lemma in_order_reachable d : reachable_in_order d -> reachable d.
Proof. intros (ns & tree & now & d0 & E & Hs). exists ns, tree, now, d0. split; [done|]. clear E. induction Hs; [constructor|]. econstructor; [by apply step_any|done]. Qed.

(** C2. In every state that the operations can reach, in whatever order commits arrive: the
    published head snapshot is the current one, the default branch exists, branches and tags
    name commits or stubs that are there, commits are stored under their own hashes with 32-bit
    generations, pins are counted from one, and commits marked unlogged are resident.  And in
    the states reached while no commit arrives after a commit that names it as a parent, nor on
    a parent with the last 32-bit generation, the generations fall from child to parent with pruning on, unless they are known to be stale.
    (A commit that comes after its child can be numbered above it: [late_parent_is_missed].) *)
Theorem reachable_wf d : reachable d ->
  head d = Some (snapshot d) /\ is_Some (branches d !! mainBranch) /\
  (forall name b, branches d !! name = Some b -> BranchName b = name /\ present d (HeadHash b)) /\
  (forall name t, tags d !! name = Some t -> TagName t = name /\ present d (TagCommit t)) /\
  (forall h n, nodes d !! h = Some n -> CommitHash (commit n) = h /\ is_u 32 (generation n)) /\
  (forall h n, pins d !! h = Some n -> 1 <= n) /\ (forall h, h ∈ unlogged d -> is_Some (nodes d !! h)) /\
  (reachable_in_order d -> AncestryPruning d = true -> genStale d = true \/ forall h p, p ∈ expandParentsLocked d h -> generationLocked d p < generationLocked d h).
Proof.
  intros Hr%step_reachable_inv. destruct Hr as [[H1 H2 H3 H4 H5 H6 H7 _] Hh]. split_and!; try done.
  - intros h n E. split; [by apply H2|by eapply H3].
  - intros [Hc _]%step_reachable_inv. exact (core_order d Hc).
Qed.

(** An ordinary append, and the history in which ancestors come after their descendant. *)
Lemma reachable_wf_witness :
  (let d := (AppendCommit (demo_payload 5) demo_root (mkTs 9 0) demo_dag).2 in
   reachable_in_order d /\ head d = Some (snapshot d) /\ is_Some (branches d !! mainBranch)) /\
  let d := (PutCommit commit_a true (PutCommit commit_b false (SetAncestryPruning true demo_dag)).2).2 in
  reachable d /\ head d = Some (snapshot d).
Proof.
  split; intros d.
  - assert (Hr : reachable_in_order d).
    { exists (str "demo"), ZeroHash, (mkTs 0 0), demo_dag. split; [exact demo_new|]. apply rtc_once. apply s_append, demo_fresh. }
    split; [exact Hr|]. destruct (reachable_wf d (in_order_reachable d Hr)) as (H1 & H2 & _). split; [exact H1|exact H2].
  - assert (Hr : reachable d).
    { exists (str "demo"), ZeroHash, (mkTs 0 0), demo_dag. split; [exact demo_new|]. eapply rtc_l; [apply s_pruning, demo_dag_acyclic|]. eapply rtc_l; [by apply (s_put _ _ commit_b false)|]. apply rtc_once. by apply s_put. }
    split; [exact Hr|]. apply (reachable_wf d Hr).
Defined.

(** What is read without the lock, from the published snapshot, is what is read under it. *)
Theorem readers_see_head d : reachable d -> exists b, branches d !! mainBranch = Some b /\
  HeadCommit d = Ok (HeadHash b, commitLocked d (HeadHash b)) /\ forall h, GetCommit h d = commitLocked d h.
Proof.
  intros Hr%step_reachable_inv. destruct (snapshot_main _ d Hr) as (b & Eb & Eh). exists b. split_and!; [done|unfold HeadCommit; by rewrite Eh|].
  intros h. by eapply GetCommit_locked.
Qed.

Lemma readers_see_head_witness : exists b, branches demo_dag !! mainBranch = Some b /\
  HeadCommit demo_dag = Ok (HeadHash b, commitLocked demo_dag (HeadHash b)) /\ forall h, GetCommit h demo_dag = commitLocked demo_dag h.
Proof. apply (readers_see_head demo_dag). apply demo_reachable. Defined.

(** C4. [IsAncestor] answers reachability along parents.  Whatever it finds is an ancestor, in any
    state of the graph.  In a history without a cycle it finds every ancestor when pruning is
    off, when the generations are known to be stale, and in every state reached while no commit
    arrives after a commit that names it as a parent or has a parent with the last 32-bit
    generation.  (In the states that leaves out it misses
    ancestors: [late_parent_is_missed].) *)
Theorem IsAncestor_spec a x d :
  ((IsAncestor a x d).1 = true -> reach d x a) /\
  (acyclic d -> AncestryPruning d = false \/ genStale d = true \/ reachable_in_order d -> reach d x a -> (IsAncestor a x d).1 = true).
Proof.
  split; [apply IsAncestor_sound|]. intros Ha Hd. apply IsAncestor_reach; [done|]. destruct Hd as [E|[E|Hr%step_reachable_inv]]; [by intros E'; congruence|by left|]. exact (core_order d (wf_core d Hr)).
Qed.

(** With pruning on, a commit that arrives after its parent. *)
Definition pruned_demo : InMemoryCommitDag := (PutCommit commit_a true (SetAncestryPruning true demo_dag)).2.
Lemma pruned_demo_put : pruned_demo = (putCommitLocked commit_a true false (SetAncestryPruning true demo_dag)).2.
Proof. unfold pruned_demo. by rewrite (demo_put 0 commit_a) by reflexivity. Qed.

Lemma pruned_demo_fresh : fresh commit_a (SetAncestryPruning true demo_dag).
Proof.
  intros _ _. split_and!; [by apply (bool_decide_unpack _); vm_compute| |].
  - intros h. unfold parentsOf. assert (H : bool_decide (map_Forall (fun _ n => CommitHash commit_a ∉ ParentHashes (commit n)) (nodes (SetAncestryPruning true demo_dag))) = true) by (vm_compute; reflexivity).
    apply bool_decide_eq_true in H. destruct (nodes _ !! h) as [n|] eqn:E; [by apply (H h n)|apply not_elem_of_nil].
  - intros p ->%list_elem_of_singleton. vm_compute. reflexivity.
Qed.

Lemma IsAncestor_spec_witness : AncestryPruning pruned_demo = true /\ reach pruned_demo (CommitHash commit_a) demo_root /\ (IsAncestor demo_root (CommitHash commit_a) pruned_demo).1 = true.
Proof.
  assert (Hr : reachable_in_order pruned_demo). { exists (str "demo"), ZeroHash, (mkTs 0 0), demo_dag. split; [exact demo_new|]. eapply rtc_l; [apply s_pruning, demo_dag_acyclic|]. apply rtc_once, s_put, pruned_demo_fresh. }
  assert (Ha : acyclic pruned_demo) by (rewrite pruned_demo_put; apply (ordered_acyclic demo_order); [vm_compute; reflexivity|cbn; lia]).
  assert (Hp : reach pruned_demo (CommitHash commit_a) demo_root). { apply rtc_once. unfold Walk.edge. rewrite pruned_demo_put. apply (bool_decide_unpack _). vm_compute. exact I. }
  split; [rewrite pruned_demo_put; vm_compute; reflexivity|]. split; [exact Hp|].
  apply (IsAncestor_spec demo_root (CommitHash commit_a) pruned_demo); [exact Ha|right; right; exact Hr|exact Hp].
Defined.

(** What an append to the default branch may do: it succeeds only while the branch
    is at [parent], and then the branch is at the new commit, a child of [parent],
    and nothing else has changed; or it fails and leaves no trace. *)
Definition cas_outcome (d : InMemoryCommitDag) (parent : Hash) (now : Timestamp) (r : go dag_error Commit) (d' : InMemoryCommitDag) : Prop :=
  match r with
  | Ok c => (exists b, branches d !! mainBranch = Some b /\ HeadHash b = parent /\ branches d' = <[mainBranch := move b (CommitHash c) now]> (branches d)) /\
      ParentHashes c = [parent] /\ HeadCommit d' = Ok (CommitHash c, commitLocked d' (CommitHash c)) /\ is_Some (commitLocked d' (CommitHash c)) /\
      (has d (CommitHash c) = false -> commitLocked d' (CommitHash c) = Some c) /\ forall h, has d h = true -> commitLocked d' h = commitLocked d h
  | _ => d' = d
  end /\
  forall b, branches d !! mainBranch = Some b -> present d parent -> HeadHash b <> parent -> r = Err (HeadConflict mainBranch parent (HeadHash b)).

(** C5. Appending is compare-and-swap on the default branch: nothing that was committed is lost. *)
Theorem AppendCommit_cas p parent now d : reachable d ->
  cas_outcome d parent now (AppendCommit p parent now d).1 (AppendCommit p parent now d).2.
Proof.
  intros Hr%step_reachable_inv. unfold AppendCommit, cas_outcome. pose proof (any_append p [parent] d) as Hf.
  pose proof (append_spec false p [parent] mainBranch (Some parent) now d Hr Hf (core_main d (wf_core d Hr))) as H.
  pose proof (append_wf p [parent] mainBranch (Some parent) now d Hr Hf) as Hw. assert (Hconf : forall b, branches d !! mainBranch = Some b -> present d parent -> HeadHash b <> parent ->
    (appendCommitLocked p [parent] mainBranch (Some parent) now d).1 = Err (HeadConflict mainBranch parent (HeadHash b))).
  { intros b Eb Hp Hne. unfold appendCommitLocked. cbn [requireAll]. rewrite present_required by done. cbn [mbind go_bind check_head]. by rewrite Eb, bool_decide_false. }
  destruct (appendCommitLocked p [parent] mainBranch (Some parent) now d) as [r d']. cbn [fst snd] in *. split; [|exact Hconf]. destruct r as [c|e|]; [|done..].
  destruct H as (Hp & Hch & Eb & (b & Ebr & Ebr') & Hin & Hnew & Hold). cbn [check_head] in Hch. rewrite Ebr in Hch. case_bool_decide as Ehd; [|done].
  destruct (snapshot_main _ d' Hw) as (b' & Eb' & Eh'). rewrite Ebr', lookup_insert_eq in Eb'. injection Eb' as <-. cbn [move HeadHash] in Eh'.
  split_and!; [by exists b|by apply (build_parents p [parent] d)|unfold HeadCommit; by rewrite Eh'| |done|].
  - unfold commitLocked. destruct Hin as [n ->]. by eexists.
  - intros h Hh%has_lookup. by apply Hold.
Qed.

Lemma AppendCommit_cas_witness :
  cas_outcome demo_dag demo_root (mkTs 9 0) (AppendCommit (demo_payload 5) demo_root (mkTs 9 0) demo_dag).1 (AppendCommit (demo_payload 5) demo_root (mkTs 9 0) demo_dag).2 /\
  is_ok (AppendCommit (demo_payload 5) demo_root (mkTs 9 0) demo_dag).1 = true.
Proof.
  split; [apply (AppendCommit_cas (demo_payload 5) demo_root (mkTs 9 0) demo_dag); apply demo_reachable|vm_compute; reflexivity].
Defined.

(** An appended commit has a later time than each of its parents, whatever the clock
    of the transaction says, unless a parent has the last time there is. *)
Theorem append_after_parents p parents branch expected now d c : reachable d -> is_Some (branches d !! branch) ->
  (forall q t, q ∈ parents -> micros_of d q = Some t -> t < 2 ^ 63 - 1) ->
  (appendCommitLocked p parents branch expected now d).1 = Ok c ->
  forall q t, q ∈ parents -> micros_of d q = Some t -> t < EpochMicros (CommitTimestamp c).
Proof.
  intros Hr%step_reachable_inv Hb Ht E. pose proof (append_spec false p parents branch expected now d Hr (any_append p parents d) Hb) as H.
  destruct (appendCommitLocked _ _ _ _ _ _) as [r d']. cbn in E. subst r. destruct H as (_ & _ & Eb & _).
  destruct (build_parents p parents d c Eb) as [_ ->]. by apply causal_after.
Qed.

(** A transaction with an older clock than its parent's. *)
Definition appended : Commit := ok_or commit_a (appendCommitLocked (demo_payload (-5)) [demo_root] mainBranch None (mkTs 9 0) demo_dag).1.
Lemma append_after_parents_witness : micros_of demo_dag demo_root = Some 0 /\ 0 < EpochMicros (CommitTimestamp appended).
Proof.
  assert (Er : micros_of demo_dag demo_root = Some 0) by (vm_compute; reflexivity). split; [exact Er|].
  apply (append_after_parents (demo_payload (-5)) [demo_root] mainBranch None (mkTs 9 0) demo_dag appended) with (q := demo_root);
    [apply demo_reachable|apply (core_main (ordered := false) demo_dag), step_reachable_inv, demo_reachable| |apply is_ok_or; vm_compute; reflexivity|by left|exact Er].
  intros q t ->%list_elem_of_singleton. rewrite Er. intros [= <-]. lia.
Defined.

(** A squash drops a tagged commit of its window and points the tag at the commit it made. *)
Theorem Squash_drops_tagged hs boundary tree schema msg now d s d' name t : Squash hs boundary tree schema msg now d = (Ok s, d') ->
  tags d !! name = Some t -> TagCommit t ∈ hs -> TagCommit t <> CommitHash s ->
  commitLocked d' (TagCommit t) = None /\ exists t', tags d' !! name = Some t' /\ TagCommit t' = CommitHash s.
Proof.
  unfold Squash. intros E Ht Hin Hne. destruct (negb (has d boundary)); [done|]. destruct (squash_window hs d) as [[]|e|]; [|done..].
  destruct (branch_at d hs); [done|]. destruct (List.find (pinned d) hs); [done|]. destruct (BuildCommitWithAttachments _) as [c|e|]; [|done..].
  injection E as -> <-. set (d1 := set_tags _ d). fold (squash_gone hs d1). destruct (squash_gone_spec hs d1) as (Gn & _ & _ & _ & Gt & _). split.
  - unfold commitLocked. cbn [bump publishHeadLocked set_head nodes]. rewrite store_lookup, bool_decide_false by done. rewrite Gn, bool_decide_true by done. done.
  - destruct (store_fields s (squash_gone hs d1)) as (_ & Et & _). cbn [publishHeadLocked set_head tags bump]. rewrite Et, Gt. unfold d1. cbn [set_tags tags].
    rewrite lookup_fmap, Ht. cbn. rewrite bool_decide_true by done. by eexists.
Qed.

(** The demonstration history with its root tagged and the branch moved off it. *)
Definition tagged_dag : InMemoryCommitDag :=
  (CreateTag (str "v1") demo_root [] (mkTs 9 0) (AppendCommit (demo_payload 5) demo_root (mkTs 9 0) demo_dag).2).2.
Definition tagged_head : Hash := ok_or ZeroHash (Head tagged_dag).
Definition squashed : dres Commit := Squash [demo_root] tagged_head ZeroHash None [] (mkTs 10 0) tagged_dag.
Definition squashed_commit : Commit := ok_or commit_a squashed.1.

Lemma squashed_ok : squashed = (Ok squashed_commit, squashed.2).
Proof.
  assert (E : squashed.1 = Ok squashed_commit) by (apply is_ok_or; vm_compute; reflexivity). rewrite <- E. apply surjective_pairing.
Qed.

Lemma Squash_drops_tagged_witness :
  commitLocked squashed.2 demo_root = None /\ exists t', tags squashed.2 !! str "v1" = Some t' /\ TagCommit t' = CommitHash squashed_commit.
Proof.
  apply (Squash_drops_tagged [demo_root] tagged_head ZeroHash None [] (mkTs 10 0) tagged_dag squashed_commit squashed.2 (str "v1") (mkTag (str "v1") demo_root (mkTs 9 0) [])).
  - exact squashed_ok.
  - vm_compute. reflexivity.
  - cbn. by left.
  - vm_compute. discriminate.
Defined.

(** ** A commit before its ancestors *)

(** With pruning on, [c] arrives before its ancestors, a question numbers the graph, and then they arrive. *)
Definition late_dag : InMemoryCommitDag :=
  let d := (PutCommit commit_c false (SetAncestryPruning true demo_dag)).2 in
  let d := (IsAncestor demo_root (CommitHash commit_c) d).2 in
  (PutCommit commit_b true (PutCommit commit_a true d).2).2.

(** The pruned test misses a parent that arrived after the graph was numbered; the
    closure finds it, and so does the pruned test once it is told to renumber. *)
Theorem late_parent_is_missed :
  (IsAncestor (CommitHash commit_b) (CommitHash commit_c) late_dag).1 = false /\
  (IsAncestor (CommitHash commit_b) (CommitHash commit_c) (SetAncestryPruning false late_dag)).1 = true /\
  (IsAncestor (CommitHash commit_b) (CommitHash commit_c) (InvalidateGenerations late_dag)).1 = true.
Proof.
  unfold late_dag. rewrite (demo_put 0 commit_a), (demo_put 1 commit_b), (demo_put 2 commit_c) by reflexivity.
  vm_compute. split_and!; reflexivity.
Qed.
End DagReachable.
