(* ===== verification/Utf8.v ===== *)
(** UTF-8 as Go's [unicode/utf8] and [range] over a string have it: a byte that
    starts no well-formed sequence is the replacement rune, one byte wide. *)

From S2P Require Import Prelude.

Module Utf8.

Definition RuneError : Z := 0xFFFD.

Definition between (lo x hi : Z) : bool := (lo <=? x) && (x <=? hi).
Definition cont (c : byte) : bool := between 0x80 (b2z c) 0xBF.

(** The range of the second byte after first byte [c], and the number of bytes after it; [None] for a byte that starts no sequence. *)
Definition accept (c : Z) : option (Z * Z * nat) :=
  if between 0xC2 c 0xDF then Some (0x80, 0xBF, 0%nat)
  else if c =? 0xE0 then Some (0xA0, 0xBF, 1%nat)
  else if c =? 0xED then Some (0x80, 0x9F, 1%nat)
  else if between 0xE1 c 0xEF then Some (0x80, 0xBF, 1%nat)
  else if c =? 0xF0 then Some (0x90, 0xBF, 2%nat)
  else if c =? 0xF4 then Some (0x80, 0x8F, 2%nat)
  else if between 0xF1 c 0xF3 then Some (0x80, 0xBF, 2%nat)
  else None.

(** [utf8.DecodeRuneInString]: the rune and its width. *)
Definition DecodeRune (s : bytes) : Z * nat :=
  match s with
  | [] => (RuneError, 0%nat)
  | c :: s =>
    if b2z c <? 0x80 then (b2z c, 1%nat)
    else match accept (b2z c), s with
    | Some (lo, hi, n), d :: s =>
      if between lo (b2z d) hi then
        match n, s with
        | 0%nat, _ => (64 * (b2z c - 0xC0) + (b2z d - 0x80), 2%nat)
        | 1%nat, e :: _ => if cont e then (4096 * (b2z c - 0xE0) + 64 * (b2z d - 0x80) + (b2z e - 0x80), 3%nat) else (RuneError, 1%nat)
        | 2%nat, e :: f :: _ =>
          if cont e && cont f then (262144 * (b2z c - 0xF0) + 4096 * (b2z d - 0x80) + 64 * (b2z e - 0x80) + (b2z f - 0x80), 4%nat)
          else (RuneError, 1%nat)
        | _, _ => (RuneError, 1%nat)
        end
      else (RuneError, 1%nat)
    | _, _ => (RuneError, 1%nat)
    end
  end.

Definition surrogate (r : Z) : bool := between 0xD800 r 0xDFFF.
Definition valid_rune (r : Z) : Prop := 0 <= r <= 0x10FFFF /\ surrogate r = false.

Definition encode3 (r : Z) : bytes := [z2b (0xE0 + r / 4096); z2b (0x80 + r / 64 mod 64); z2b (0x80 + r mod 64)].

(** [utf8.EncodeRune]: a number that is no rune is encoded as the replacement rune. *)
Definition EncodeRune (r : Z) : bytes :=
  if r <? 0 then encode3 RuneError
  else if r <=? 0x7F then [z2b r]
  else if r <=? 0x7FF then [z2b (0xC0 + r / 64); z2b (0x80 + r mod 64)]
  else if surrogate r then encode3 RuneError
  else if r <=? 0xFFFF then encode3 r
  else if r <=? 0x10FFFF then [z2b (0xF0 + r / 262144); z2b (0x80 + r / 4096 mod 64); z2b (0x80 + r / 64 mod 64); z2b (0x80 + r mod 64)]
  else encode3 RuneError.

(** The runes of [for _, c := range s]; every one is at least a byte wide. *)
Fixpoint runes_in (fuel : nat) (s : bytes) : list Z :=
  match fuel, s with
  | S fuel, _ :: _ => let '(r, n) := DecodeRune s in r :: runes_in fuel (drop n s)
  | _, _ => []
  end.
Definition runes (s : bytes) : list Z := runes_in (length s) s.

(** A string with every malformed byte replaced. *)
Definition to_valid (s : bytes) : bytes := concat (map EncodeRune (runes s)).

(** [utf8.ValidString]. *)
Definition valid (s : bytes) : bool := bool_decide (to_valid s = s).

(** ** Decoding and encoding *)

Lemma between_spec lo x hi : between lo x hi = true <-> lo <= x <= hi.
Proof. unfold between. lia. Qed.

Lemma z2b_eq z c : z = b2z c -> z2b z = c.
Proof. intros ->. apply z2b_b2z. Qed.

Lemma accept_cases c lo hi n : accept c = Some (lo, hi, n) ->
  0x80 <= lo /\ hi <= 0xBF /\
  (n = 0%nat /\ 0xC2 <= c <= 0xDF \/
   n = 1%nat /\ 0xE0 <= c <= 0xEF /\ (c = 0xE0 -> lo = 0xA0) /\ (c = 0xED -> hi = 0x9F) \/
   n = 2%nat /\ 0xF0 <= c <= 0xF4 /\ (c = 0xF0 -> lo = 0x90) /\ (c = 0xF4 -> hi = 0x8F)).
Proof.
  unfold accept. repeat (case_match; [intros [= <- <- <-]; rewrite ?between_spec, ?Z.eqb_eq in *; split_and!; [lia..|]; (by left; lia) || (right; left; lia) || (right; right; lia)|]). done.
Qed.

Lemma encode2 r c d : r = 64 * (b2z c - 0xC0) + (b2z d - 0x80) -> 0xC2 <= b2z c <= 0xDF -> 0x80 <= b2z d <= 0xBF ->
  valid_rune r /\ EncodeRune r = [c; d].
Proof.
  intros E Hc Hd. assert (H : 0x80 <= r <= 0x7FF) by lia. split; [split; [lia|unfold surrogate, between; lia]|]. unfold EncodeRune.
  destruct (Z.ltb_spec r 0); [lia|]. destruct (Z.leb_spec r 0x7F); [lia|]. destruct (Z.leb_spec r 0x7FF); [|lia].
  f_equal; [|f_equal]; apply z2b_eq; zdm.
Qed.

Lemma encode_three r c d e : r = 4096 * (b2z c - 0xE0) + 64 * (b2z d - 0x80) + (b2z e - 0x80) ->
  0xE0 <= b2z c <= 0xEF -> 0x80 <= b2z d <= 0xBF -> 0x80 <= b2z e <= 0xBF -> 0x7FF < r -> surrogate r = false ->
  valid_rune r /\ EncodeRune r = [c; d; e].
Proof.
  intros E Hc Hd He H1 H2. assert (H : 0x7FF < r <= 0xFFFF) by lia. split; [split; [lia|done]|]. unfold EncodeRune.
  destruct (Z.ltb_spec r 0); [lia|]. destruct (Z.leb_spec r 0x7F); [lia|]. destruct (Z.leb_spec r 0x7FF); [lia|]. rewrite H2.
  destruct (Z.leb_spec r 0xFFFF); [|lia]. unfold encode3. f_equal; [|f_equal; [|f_equal]]; apply z2b_eq; zdm.
Qed.

Lemma encode4 r c d e f : r = 262144 * (b2z c - 0xF0) + 4096 * (b2z d - 0x80) + 64 * (b2z e - 0x80) + (b2z f - 0x80) ->
  0xF0 <= b2z c <= 0xF4 -> 0x80 <= b2z d <= 0xBF -> 0x80 <= b2z e <= 0xBF -> 0x80 <= b2z f <= 0xBF -> 0xFFFF < r <= 0x10FFFF ->
  valid_rune r /\ EncodeRune r = [c; d; e; f].
Proof.
  intros E Hc Hd He Hf H. assert (Hs : surrogate r = false) by (unfold surrogate, between; lia). split; [split; [lia|done]|]. unfold EncodeRune.
  destruct (Z.ltb_spec r 0); [lia|]. destruct (Z.leb_spec r 0x7F); [lia|]. destruct (Z.leb_spec r 0x7FF); [lia|]. rewrite Hs.
  destruct (Z.leb_spec r 0xFFFF); [lia|]. destruct (Z.leb_spec r 0x10FFFF); [|lia]. f_equal; [|f_equal; [|f_equal; [|f_equal]]]; apply z2b_eq; zdm.
Qed.

Lemma ascii_rune c : b2z c < 0x80 -> valid_rune (b2z c) /\ EncodeRune (b2z c) = [c].
Proof.
  intros H. pose proof (b2z_range c). split; [split; [lia|unfold surrogate, between; lia]|]. unfold EncodeRune.
  destruct (Z.ltb_spec (b2z c) 0); [lia|]. destruct (Z.leb_spec (b2z c) 0x7F); [|lia]. by rewrite z2b_b2z.
Qed.

Lemma RuneError_valid : valid_rune RuneError.
Proof. split; done. Qed.

(** A decoded rune is valid, and is either the replacement of one byte or encoded as the bytes it was read from. *)
Lemma DecodeRune_cases c s r n : DecodeRune (c :: s) = (r, n) ->
  valid_rune r /\ (r = RuneError /\ n = 1%nat \/ EncodeRune r = take n (c :: s) /\ (1 <= n <= length (c :: s))%nat).
Proof.
  assert (Hbad : (RuneError, 1%nat) = (r, n) -> valid_rune r /\ (r = RuneError /\ n = 1%nat \/ EncodeRune r = take n (c :: s) /\ (1 <= n <= length (c :: s))%nat)).
  { intros [= <- <-]. split; [apply RuneError_valid|by left]. }
  cbn [DecodeRune]. destruct (Z.ltb_spec (b2z c) 0x80) as [Ha|Ha].
  { intros [= <- <-]. destruct (ascii_rune c Ha) as [H1 H2]. split; [done|right]. split; [done|cbn; lia]. }
  destruct (accept (b2z c)) as [[[lo hi] k]|] eqn:E; [|done]. apply accept_cases in E as (Hlo & Hhi & Hk). destruct s as [|d s]; [done|].
  destruct (between lo (b2z d) hi) eqn:Hd; [apply between_spec in Hd|done]. destruct Hk as [[-> Hc]|[(-> & Hc & Hc1 & Hc2)|(-> & Hc & Hc1 & Hc2)]].
  - intros [= <- <-]. destruct (encode2 _ c d eq_refl) as [H1 H2]; [lia..|]. split; [done|right]. split; [done|cbn; lia].
  - destruct s as [|e s]; [done|]. destruct (cont e) eqn:He; [|done]. apply between_spec in He. intros [= <- <-].
    destruct (encode_three _ c d e eq_refl) as [H1 H2]; [lia..|unfold surrogate, between; lia|]. split; [done|right]. split; [done|cbn; lia].
  - destruct s as [|e [|f s]]; [done..|]. destruct (cont e && cont f) eqn:He; [|done]. apply andb_prop in He as [He%between_spec Hf%between_spec]. intros [= <- <-].
    destruct (encode4 _ c d e f eq_refl) as [H1 H2]; [lia..|]. split; [done|right]. split; [done|cbn; lia].
Qed.

Lemma DecodeRune_width c s r n : DecodeRune (c :: s) = (r, n) -> (1 <= n <= length (c :: s))%nat.
Proof. intros [_ [[_ ->]|[_ H]]]%DecodeRune_cases; [cbn; lia|done]. Qed.

(** An encoded rune is read back. *)
Lemma DecodeRune_Encode r s : valid_rune r -> DecodeRune (EncodeRune r ++ s) = (r, length (EncodeRune r)).
Proof.
  intros [Hr Hs]. unfold EncodeRune. destruct (Z.ltb_spec r 0); [lia|].
  assert (B : forall z, 0 <= z < 256 -> b2z (z2b z) = z) by (intros z Hz; rewrite b2z_z2b; by apply Z.mod_small).
  destruct (Z.leb_spec r 0x7F). { cbn. rewrite B by lia. destruct (Z.ltb_spec r 0x80); [done|lia]. }
  pose proof (Z.mod_pos_bound r 64 ltac:(lia)). pose proof (Z.mod_pos_bound (r / 64) 64 ltac:(lia)). pose proof (Z.mod_pos_bound (r / 4096) 64 ltac:(lia)).
  destruct (Z.leb_spec r 0x7FF).
  { assert (2 <= r / 64 <= 31) by zdm. cbn [app DecodeRune]. rewrite !B by lia. destruct (Z.ltb_spec (0xC0 + r / 64) 0x80); [lia|]. unfold accept.
    replace (between 0xC2 (0xC0 + r / 64) 0xDF) with true by (symmetry; apply between_spec; lia).
    replace (between 0x80 (0x80 + r mod 64) 0xBF) with true by (symmetry; apply between_spec; lia). cbn [length]. f_equal. zdm. }
  rewrite Hs. assert (Hc : forall x, cont (z2b (0x80 + x mod 64)) = true).
  { intros x. unfold cont. pose proof (Z.mod_pos_bound x 64 ltac:(lia)). rewrite B by lia. apply between_spec. lia. }
  unfold surrogate, between in Hs. destruct (Z.leb_spec r 0xFFFF).
  - assert (0 <= r / 4096 <= 15) by zdm. unfold encode3. cbn [app DecodeRune]. rewrite Hc, !B by lia.
    destruct (Z.ltb_spec (0xE0 + r / 4096) 0x80); [lia|]. unfold accept.
    assert (E : forall lo hi, lo <= 0x80 + r / 64 mod 64 <= hi -> between lo (0x80 + r / 64 mod 64) hi = true) by (intros; by apply between_spec).
    destruct (between 0xC2 (0xE0 + r / 4096) 0xDF) eqn:A1; [apply between_spec in A1; lia|].
    destruct (Z.eqb_spec (0xE0 + r / 4096) 0xE0); [rewrite E by zdm; cbn; f_equal; zdm|].
    destruct (Z.eqb_spec (0xE0 + r / 4096) 0xED); [rewrite E by zdm; cbn; f_equal; zdm|].
    replace (between 0xE1 (0xE0 + r / 4096) 0xEF) with true by (symmetry; apply between_spec; lia). rewrite E by lia. cbn. f_equal. zdm.
  - destruct (Z.leb_spec r 0x10FFFF); [|lia]. assert (0 <= r / 262144 <= 4) by zdm. cbn [app DecodeRune]. rewrite !Hc, !B by lia.
    destruct (Z.ltb_spec (0xF0 + r / 262144) 0x80); [lia|]. unfold accept.
    assert (E : forall lo hi, lo <= 0x80 + r / 4096 mod 64 <= hi -> between lo (0x80 + r / 4096 mod 64) hi = true) by (intros; by apply between_spec).
    destruct (between 0xC2 (0xF0 + r / 262144) 0xDF) eqn:A1; [apply between_spec in A1; lia|].
    destruct (Z.eqb_spec (0xF0 + r / 262144) 0xE0); [lia|]. destruct (Z.eqb_spec (0xF0 + r / 262144) 0xED); [lia|].
    destruct (between 0xE1 (0xF0 + r / 262144) 0xEF) eqn:A2; [apply between_spec in A2; lia|].
    destruct (Z.eqb_spec (0xF0 + r / 262144) 0xF0); [rewrite E by zdm; cbn; f_equal; zdm|].
    destruct (Z.eqb_spec (0xF0 + r / 262144) 0xF4); [rewrite E by zdm; cbn; f_equal; zdm|].
    replace (between 0xF1 (0xF0 + r / 262144) 0xF3) with true by (symmetry; apply between_spec; lia). rewrite E by lia. cbn. f_equal. zdm.
Qed.

(** ** Strings *)

Lemma runes_in_valid fuel s : Forall valid_rune (runes_in fuel s).
Proof.
  revert s. induction fuel as [|fuel IH]; intros [|c s]; cbn [runes_in]; try constructor. destruct (DecodeRune (c :: s)) as [r n] eqn:E.
  constructor; [exact (proj1 (DecodeRune_cases c s r n E))|apply IH].
Qed.
Lemma runes_valid s : Forall valid_rune (runes s).
Proof. apply runes_in_valid. Qed.

Lemma EncodeRune_length r : (1 <= length (EncodeRune r))%nat.
Proof. unfold EncodeRune, encode3. repeat case_match; cbn; lia. Qed.

Lemma runes_in_encode rs fuel : Forall valid_rune rs -> (length (concat (map EncodeRune rs)) <= fuel)%nat -> runes_in fuel (concat (map EncodeRune rs)) = rs.
Proof.
  intros H. revert fuel. induction H as [|r rs Hr _ IH]; intros fuel Hf; [by destruct fuel|]. cbn [map concat] in *. rewrite length_app in Hf.
  pose proof (EncodeRune_length r). pose proof (DecodeRune_Encode r (concat (map EncodeRune rs)) Hr) as E. destruct fuel as [|fuel]; [lia|].
  destruct (EncodeRune r ++ concat (map EncodeRune rs)) as [|c s] eqn:Es; [destruct (EncodeRune r); [cbn in *; lia|done]|].
  cbn [runes_in]. rewrite E, <- Es, drop_app_length. f_equal. apply IH. lia.
Qed.
Lemma runes_encode rs : Forall valid_rune rs -> runes (concat (map EncodeRune rs)) = rs.
Proof. intros H. by apply runes_in_encode. Qed.

Lemma runes_to_valid s : runes (to_valid s) = runes s.
Proof. apply runes_encode, runes_valid. Qed.
Lemma to_valid_idem s : to_valid (to_valid s) = to_valid s.
Proof. unfold to_valid at 1. by rewrite runes_to_valid. Qed.

Lemma valid_spec s : valid s = true <-> to_valid s = s.
Proof. apply bool_decide_eq_true. Qed.

End Utf8.
