(* ===== verification/Float64.v ===== *)
(** Double-precision numbers as their 64 bits, with the conversions of Go's
    [strconv] between them and decimal numbers: [ParseFloat] rounds to the nearest
    number, ties to even, and [FormatFloat] gives the shortest decimal that rounds
    back.

    The magnitude of a number is its bits without the sign; the magnitudes order
    the numbers, and [inf_bits] is the first that is not finite.  [Float64Correct] proves the
    conversions: rounding finds the magnitude whose interval holds the number, and the shortest
    decimal exists and rounds back. *)

From S2P Require Import Prelude Strconv.
Import Strconv.

Module Float64.

Definition inf_bits : Z := 2047 * 2 ^ 52.
Definition sign_bit : Z := 2 ^ 63.

(** The value of a magnitude, in units of [1/scale]. *)
Definition scale : Z := 2 ^ 1074.
Definition fval (b : Z) : Z :=
  let e := b / 2 ^ 52 in let m := b mod 2 ^ 52 in
  if e =? 0 then m else (2 ^ 52 + m) * 2 ^ (e - 1).

(** ** Rounding *)

(** The largest magnitude with a value of at most [q] units. *)
Definition floor_bits (q : Z) : Z :=
  if q <? 2 ^ 53 then q
  else let e := Z.log2 q - 51 in e * 2 ^ 52 + (q / 2 ^ (e - 1) - 2 ^ 52).

(** Twice the value halfway to the next magnitude. *)
Definition mid (b : Z) : Z := fval b + fval (b + 1).

(** The magnitude nearest to [num / den], the even one of two. *)
Definition nearest (num den : Z) : Z :=
  let n := scale * num in
  let b := floor_bits (n / den) in
  match mid b * den ?= 2 * n with
  | Gt => b
  | Lt => b + 1
  | Eq => if Z.even b then b else b + 1
  end.

(** The interval of the decimals that round to [b]. *)
Definition rounds_to (b num den : Z) : bool :=
  let n := scale * num in
  match mid b * den ?= 2 * n with Gt => true | Eq => Z.even b | Lt => false end &&
  ((b =? 0) || match mid (b - 1) * den ?= 2 * n with Lt => true | Eq => Z.even b | Gt => false end).

(** [10 ^ k] as a fraction. *)
Definition pow10 (k : Z) : Z * Z := if 0 <=? k then (10 ^ k, 1) else (1, 10 ^ (- k)).

(** ** The shortest decimal *)

(** The position [p] with [10 ^ (p - 1) <= value < 10 ^ p]. *)
Definition ndig (z : Z) : Z := Z.of_nat (ndigits (Z.to_nat (Z.log2 z)) z).
Definition dec_exp (b : Z) : Z :=
  if scale <=? fval b then ndig (fval b / scale) else 1 - ndig ((scale - 1) / fval b).

(** The multiple of [10 ^ k] next to the value, below or above, that rounds to [b];
    the nearer one, and the even one, when both do. *)
Definition digit_at (b k : Z) : option Z :=
  let '(p, q) := pow10 k in
  let n := fval b * q in let d := scale * p in
  let c := n / d in let r := n mod d in
  match rounds_to b (c * p) q, rounds_to b ((c + 1) * p) q with
  | true, true => Some (match 2 * r ?= d with Lt => c | Gt => c + 1 | Eq => if Z.even c then c else c + 1 end)
  | true, false => Some c
  | false, true => Some (c + 1)
  | false, false => None
  end.

Fixpoint search (n : nat) (b k : Z) : option (Z * Z) :=
  match digit_at b k, n with
  | Some d, _ => Some (d, k)
  | None, S n => search n b (k - 1)
  | None, O => None
  end.

(** The decimal [d * 10 ^ k] with the fewest digits that rounds to [b]; seventeen digits are always enough. *)
Definition shortest (b : Z) : Z * Z := default (0, 0) (search 17 b (dec_exp b)).

(** ** Text *)

Definition magnitude (b : Z) : Z := b mod 2 ^ 63.
Definition negative (b : Z) : bool := sign_bit <=? b.
Definition IsNaN (b : Z) : bool := inf_bits <? magnitude b.
Definition IsInf (b : Z) : bool := magnitude b =? inf_bits.
Definition finite (b : Z) : Prop := is_u 64 b /\ magnitude b < inf_bits.
Definition with_sign (neg : bool) (m : Z) : Z := if neg then sign_bit + m else m.

Definition is_digit (c : byte) : bool := (48 <=? b2z c) && (b2z c <=? 57).

(** The digits a text starts with, and the rest. *)
Fixpoint span_digits (s : bytes) : bytes * bytes :=
  match s with
  | c :: s' => if is_digit c then let '(ds, r) := span_digits s' in (c :: ds, r) else ([], s)
  | [] => ([], [])
  end.

Definition digits_value (ds : bytes) : Z := foldl (fun v c => 10 * v + (b2z c - 48)) 0 ds.

(** An exponent grows no further once it has five digits. *)
Definition exp_value (ds : bytes) : Z := foldl (fun e c => if e <? 10000 then 10 * e + (b2z c - 48) else e) 0 ds.

Definition take_sign (s : bytes) : bool * bytes :=
  match s with
  | x2d :: r => (true, r)
  | x2b :: r => (false, r)
  | _ => (false, s)
  end.

(** The magnitude of [m * 10 ^ e]. *)
Definition decimal (m e : Z) : Z := let '(p, q) := pow10 e in Z.min inf_bits (nearest (m * p) q).

Definition in_range (neg : bool) (m : Z) : option Z := if m =? inf_bits then None else Some (with_sign neg m).

(** [strconv.ParseFloat(s, 64)] of a decimal number; out of range is an error. *)
Definition ParseFloat (s : bytes) : option Z :=
  let '(neg, s) := take_sign s in
  let '(ip, s) := span_digits s in
  let '(fp, s) := match s with x2e :: r => span_digits r | _ => ([], s) end in
  let m := digits_value (ip ++ fp) in
  if bool_decide (ip ++ fp = []) then None
  else match s with
  | [] => in_range neg (decimal m (- zlen fp))
  | c :: r =>
    if bool_decide (c = x65 \/ c = x45) then
      let '(eneg, r) := take_sign r in
      let '(es, r) := span_digits r in
      if bool_decide (es = [] \/ r <> []) then None
      else let e := exp_value es in in_range neg (decimal m ((if eneg then - e else e) - zlen fp))
    else None
  end.

Definition zeros (n : Z) : bytes := replicate (Z.to_nat n) x30.

(** Digits [ds] of a decimal with [dp] of them before the point, with an exponent. *)
Definition fmtE (ds : bytes) (dp : Z) : bytes :=
  let exp := dp - 1 in
  take 1 ds ++ (if (length ds <=? 1)%nat then [] else x2e :: drop 1 ds) ++
  x65 :: (if exp <? 0 then x2d else x2b) :: (if Z.abs exp <? 10 then x30 :: digits (Z.abs exp) else digits (Z.abs exp)).

(** The same without an exponent. *)
Definition fmtF (ds : bytes) (dp : Z) : bytes :=
  let nd := zlen ds in
  (if 0 <? dp then take (Z.to_nat dp) ds ++ zeros (dp - nd) else [x30]) ++
  (if nd <=? dp then [] else x2e :: zeros (- dp) ++ drop (Z.to_nat dp) ds).

(** [strconv.FormatFloat(v, 'g', -1, 64)]. *)
Definition format_mag (m : Z) : bytes :=
  if m =? 0 then str "0"
  else
    let '(d, k) := shortest m in
    let ds := digits d in
    let dp := zlen ds + k in
    if (dp - 1 <? -4) || (6 <=? dp - 1) then fmtE ds dp else fmtF ds dp.

Definition FormatFloat (b : Z) : bytes :=
  if IsNaN b then str "NaN"
  else if IsInf b then (if negative b then str "-Inf" else str "+Inf")
  else (if negative b then str "-" else []) ++ format_mag (magnitude b).

(** [float64(z)] of an int64. *)
Definition of_int (z : Z) : Z := with_sign (z <? 0) (nearest (Z.abs z) 1).

(** Equality of floats as Go has it. *)
Definition feq (a b : Z) : bool := negb (IsNaN a) && negb (IsNaN b) && ((a =? b) || ((magnitude a =? 0) && (magnitude b =? 0))).

(** ** Magnitudes and values *)

Definition gap (b : Z) : Z := 2 ^ (Z.max 1 (b / 2 ^ 52) - 1).

Lemma gap_pos b : 0 < gap b.
Proof. apply Z.pow_pos_nonneg; lia. Qed.

(** The fields of a magnitude. *)
Lemma bits_split b : 0 <= b -> exists e m, b = e * 2 ^ 52 + m /\ 0 <= e /\ 0 <= m < 2 ^ 52 /\ b / 2 ^ 52 = e /\ b mod 2 ^ 52 = m.
Proof. intros Hb. exists (b / 2 ^ 52), (b mod 2 ^ 52). split_and!; zdm. Qed.

Lemma bits_join e m : 0 <= m < 2 ^ 52 -> (e * 2 ^ 52 + m) / 2 ^ 52 = e /\ (e * 2 ^ 52 + m) mod 2 ^ 52 = m.
Proof. intros Hm. split; zdm. Qed.

Lemma fval_join e m : 0 <= m < 2 ^ 52 -> fval (e * 2 ^ 52 + m) = if e =? 0 then m else (2 ^ 52 + m) * 2 ^ (e - 1).
Proof. intros Hm. unfold fval. destruct (bits_join e m Hm) as [-> ->]. done. Qed.

Lemma fval_succ b : 0 <= b -> fval (b + 1) = fval b + gap b.
Proof.
  intros Hb. destruct (bits_split b Hb) as (e & m & -> & He & Hm & E1 & _). unfold gap. rewrite E1, fval_join by done.
  destruct (Z.eq_dec (m + 1) (2 ^ 52)) as [Hl|Hl].
  - replace (e * 2 ^ 52 + m + 1) with ((e + 1) * 2 ^ 52 + 0) by lia. rewrite fval_join by lia. destruct (Z.eqb_spec (e + 1) 0); [lia|].
    destruct (Z.eqb_spec e 0) as [->|Hne]; [change (Z.max 1 0 - 1) with 0; change (0 + 1 - 1) with 0; lia|].
    replace (Z.max 1 e) with e by lia. replace (e + 1 - 1) with (Z.succ (e - 1)) by lia. rewrite Z.pow_succ_r by lia. nia.
  - replace (e * 2 ^ 52 + m + 1) with (e * 2 ^ 52 + (m + 1)) by lia. rewrite fval_join by lia.
    destruct (Z.eqb_spec e 0) as [->|Hne]; [change (Z.max 1 0 - 1) with 0; lia|]. replace (Z.max 1 e) with e by lia. nia.
Qed.

Lemma gap_mono a b : 0 <= a <= b -> gap a <= gap b.
Proof. intros H. apply Z.pow_le_mono_r; [lia|]. assert (a / 2 ^ 52 <= b / 2 ^ 52) by (apply Z.div_le_mono; lia). lia. Qed.

Lemma fval_nonneg b : 0 <= b -> 0 <= fval b.
Proof.
  intros Hb. destruct (bits_split b Hb) as (e & m & -> & He & Hm & _). rewrite fval_join by done. destruct (e =? 0); [lia|].
  pose proof (Z.pow_nonneg 2 (e - 1)). nia.
Qed.

Lemma fval_add a n : 0 <= a -> 0 <= n -> fval a + n <= fval (a + n).
Proof.
  intros Ha Hn. revert n Hn. apply natlike_ind; [rewrite !Z.add_0_r; lia|]. intros n Hn IH. replace (a + Z.succ n) with (a + n + 1) by lia.
  rewrite fval_succ by lia. pose proof (gap_pos (a + n)). lia.
Qed.
Lemma fval_mono a b : 0 <= a <= b -> fval a <= fval b.
Proof. intros H. pose proof (fval_add a (b - a)). replace (a + (b - a)) with b in * by lia. lia. Qed.
Lemma fval_lt a b : 0 <= a < b -> fval a < fval b.
Proof. intros H. pose proof (fval_add a (b - a)). replace (a + (b - a)) with b in * by lia. lia. Qed.
Lemma fval_inj a b : 0 <= a -> 0 <= b -> fval a = fval b -> a = b.
Proof. intros Ha Hb E. destruct (Z.lt_trichotomy a b) as [H|[H|H]]; [pose proof (fval_lt a b)|done|pose proof (fval_lt b a)]; lia. Qed.

(** A number has at most 53 significant bits. *)
Lemma fval_gap b : 1 <= b -> fval b <= 2 ^ 53 * gap (b - 1).
Proof.
  intros Hb. destruct (bits_split b ltac:(lia)) as (e & m & -> & He & Hm & _). rewrite fval_join by done.
  destruct (Z.eqb_spec e 0) as [->|Hne]; [pose proof (gap_pos (0 * 2 ^ 52 + m - 1)); lia|]. unfold gap.
  destruct (Z.eq_dec m 0) as [->|Hm0].
  - replace (e * 2 ^ 52 + 0 - 1) with ((e - 1) * 2 ^ 52 + (2 ^ 52 - 1)) by lia. destruct (bits_join (e - 1) (2 ^ 52 - 1) ltac:(lia)) as [-> _].
    destruct (Z.eq_dec e 1) as [->|He1]; [change (Z.max 1 (1 - 1) - 1) with 0; change (1 - 1) with 0; lia|].
    replace (Z.max 1 (e - 1)) with (e - 1) by lia. replace (e - 1) with (Z.succ (e - 1 - 1)) at 1 by lia. rewrite Z.pow_succ_r by lia. lia.
  - replace (e * 2 ^ 52 + m - 1) with (e * 2 ^ 52 + (m - 1)) by lia. destruct (bits_join e (m - 1) ltac:(lia)) as [-> _].
    replace (Z.max 1 e) with e by lia. pose proof (Z.pow_pos_nonneg 2 (e - 1)). nia.
Qed.

Lemma floor_bits_spec q : 0 <= q -> 0 <= floor_bits q /\ fval (floor_bits q) <= q < fval (floor_bits q + 1).
Proof.
  intros Hq. unfold floor_bits. destruct (Z.ltb_spec q (2 ^ 53)) as [Hs|Hs].
  - split; [done|]. rewrite fval_succ by done. enough (fval q = q) as -> by (pose proof (gap_pos q); lia).
    destruct (bits_split q Hq) as (e & m & -> & He & Hm & _). rewrite fval_join by done. assert (e = 0 \/ e = 1) as [-> | ->] by lia; cbn; lia.
  - pose proof (Z.log2_spec q ltac:(lia)) as [L1 L2]. assert (HL : 53 <= Z.log2 q) by (apply Z.log2_le_pow2; lia).
    set (e := Z.log2 q - 51). assert (Eu : 2 ^ Z.log2 q = 2 ^ 52 * 2 ^ (e - 1)) by (rewrite <- Z.pow_add_r by lia; f_equal; lia).
    rewrite Z.pow_succ_r in L2 by lia. set (u := 2 ^ (e - 1)) in *. assert (Hu : 0 < u) by (apply Z.pow_pos_nonneg; lia).
    assert (Hd : 2 ^ 52 <= q / u < 2 ^ 53) by (split; [apply Z.div_le_lower_bound|apply Z.div_lt_upper_bound]; lia).
    assert (Hm : 0 <= q / u - 2 ^ 52 < 2 ^ 52) by lia. split; [lia|]. rewrite fval_succ by lia. unfold gap.
    rewrite fval_join by done. destruct (bits_join e _ Hm) as [-> _]. destruct (Z.eqb_spec e 0); [lia|]. replace (Z.max 1 e) with e by lia. fold u. zdm.
Qed.

End Float64.

(** * The conversions are right

    The conversions are right: rounding finds the magnitude whose
    interval holds the number, and the shortest decimal exists and rounds back. *)

Import Float64.

Module Float64Correct.

(** [scale] is opaque to arithmetic. *)
#[local] Opaque scale.

Lemma scale_pos : 0 < scale.
Proof. Transparent scale. unfold scale. apply Z.pow_pos_nonneg; lia. Qed.
#[local] Opaque scale.

(** ** Rounding *)

(** What the comparisons of [nearest] and [rounds_to] say, with [x = 2 * scale * num]. *)
Definition below (b den x : Z) : Prop := x < mid b * den \/ mid b * den = x /\ Z.even b = true.
Definition above (b den x : Z) : Prop := b = 0 \/ mid (b - 1) * den < x \/ mid (b - 1) * den = x /\ Z.even b = true.

Lemma rounds_to_spec b num den : rounds_to b num den = true <-> below b den (2 * (scale * num)) /\ above b den (2 * (scale * num)).
Proof.
  unfold rounds_to, below, above. cbv zeta. rewrite andb_true_iff, orb_true_iff, Z.eqb_eq.
  destruct (Z.compare_spec (mid b * den) (2 * (scale * num))), (Z.compare_spec (mid (b - 1) * den) (2 * (scale * num))); intuition (try lia; try congruence).
Qed.

Lemma mid_between b : 0 <= b -> 2 * fval b < mid b < 2 * fval (b + 1).
Proof. intros Hb. unfold mid. pose proof (fval_lt b (b + 1)). lia. Qed.
Lemma mid_mono a b : 0 <= a <= b -> mid a <= mid b.
Proof. intros H. unfold mid. pose proof (fval_mono a b). pose proof (fval_mono (a + 1) (b + 1)). lia. Qed.

(** The intervals of two magnitudes do not meet. *)
Lemma interval_unique a b den x : 0 < den -> 0 <= a -> 0 <= b -> below a den x -> above a den x -> below b den x -> above b den x -> a = b.
Proof.
  assert (H : forall a b, 0 < den -> 0 <= a < b -> below a den x -> above b den x -> False).
  { intros c d Hden Hcd Hc Hd. unfold below, above in *. assert (Hm : mid c * den <= mid (d - 1) * den) by (apply Z.mul_le_mono_nonneg_r; [lia|apply mid_mono; lia]).
    destruct Hd as [->|Hd]; [lia|]. assert (Hx : mid c * den = x /\ mid (d - 1) * den = x /\ Z.even c = true /\ Z.even d = true) by (intuition lia).
    destruct Hx as (E1 & E2 & Ec & Ed). assert (mid c = mid (d - 1)) by nia.
    destruct (Z.eq_dec c (d - 1)) as [->|Hne]; [rewrite Z.even_sub, Ed in Ec; done|].
    pose proof (mid_between c ltac:(lia)). pose proof (mid_between (d - 1) ltac:(lia)). pose proof (fval_mono (c + 1) (d - 1)). lia. }
  intros Hden Ha Hb A1 A2 B1 B2. destruct (Z.lt_trichotomy a b) as [L|[E|L]]; [|done|]; exfalso; [apply (H a b)|apply (H b a)]; done || lia.
Qed.

Lemma nearest_in num den : 0 <= num -> 0 < den ->
  0 <= nearest num den /\ rounds_to (nearest num den) num den = true.
Proof.
  intros Hn Hden. pose proof scale_pos. rewrite rounds_to_spec. unfold nearest. cbv zeta. set (n := scale * num). assert (H0 : 0 <= n) by nia.
  pose proof (floor_bits_spec (n / den) ltac:(apply Z.div_pos; lia)) as (Hb & F1 & F2). set (b := floor_bits (n / den)) in *.
  assert (G1 : fval b * den <= n) by (pose proof (Z.mul_div_le n den Hden); nia). assert (G2 : n < fval (b + 1) * den) by (pose proof (Z.mul_succ_div_gt n den Hden); nia).
  pose proof (mid_between b Hb) as [M1 M2]. pose proof (mid_between (b + 1) ltac:(lia)) as [M3 _].
  assert (Hlow : above b den (2 * n)).
  { unfold above. destruct (Z.eq_dec b 0) as [->|Hne]; [by left|right; left]. pose proof (mid_between (b - 1) ltac:(lia)) as [_ M]. replace (b - 1 + 1) with b in M by lia. nia. }
  assert (Hup : below (b + 1) den (2 * n)) by (left; nia).
  assert (Hodd : Z.even b = false -> Z.even (b + 1) = true) by (intros E; rewrite Z.even_add, E; done).
  destruct (Z.compare_spec (mid b * den) (2 * n)) as [E|L|G]; [destruct (Z.even b) eqn:Ev| |]; (split; [lia|]); split; try done.
  - right. done.
  - right; right. replace (b + 1 - 1) with b by lia. auto.
  - right; left. by replace (b + 1 - 1) with b by lia.
  - left. lia.
Qed.

Lemma nearest_iff b num den : 0 <= num -> 0 < den -> 0 <= b -> rounds_to b num den = true <-> nearest num den = b.
Proof.
  intros Hn Hden Hb. destruct (nearest_in num den Hn Hden) as [H0 H1]. split; [|by intros <-].
  intros H. apply rounds_to_spec in H as [A1 A2], H1 as [B1 B2]. by eapply interval_unique.
Qed.

(** ** The shortest decimal *)

Lemma pow10_pos k : 0 < (pow10 k).1 /\ 0 < (pow10 k).2.
Proof. unfold pow10. destruct (Z.leb_spec 0 k); cbn; split; try lia; apply Z.pow_pos_nonneg; lia. Qed.

Lemma pow10_shift k n : 0 <= n -> (pow10 (k + n)).1 * (pow10 k).2 = 10 ^ n * (pow10 k).1 * (pow10 (k + n)).2.
Proof.
  intros Hn. unfold pow10. destruct (Z.leb_spec 0 k), (Z.leb_spec 0 (k + n)); cbn [fst snd]; try lia.
  - rewrite Z.pow_add_r by lia. lia.
  - replace n with (k + n + - k) at 2 by lia. rewrite (Z.pow_add_r 10 (k + n) (- k)) by lia. lia.
  - replace (- k) with (n + - (k + n)) by lia. rewrite Z.pow_add_r by lia. lia.
Qed.

Lemma ndig_spec z : 0 < z -> 1 <= ndig z /\ 10 ^ (ndig z - 1) <= z < 10 ^ ndig z.
Proof. intros Hz. pose proof (ndigits_log z). unfold ndig. lia. Qed.

Lemma fval_pos b : 1 <= b -> 0 < fval b.
Proof. intros Hb. pose proof (fval_lt 0 b ltac:(lia)). pose proof (fval_nonneg 0). lia. Qed.

(** The value has a digit before position [dec_exp]. *)
Lemma dec_exp_low b : 1 <= b -> scale * (pow10 (dec_exp b - 1)).1 <= fval b * (pow10 (dec_exp b - 1)).2.
Proof.
  intros Hb. pose proof (fval_pos b Hb) as Hf. pose proof scale_pos as Hs. unfold dec_exp. destruct (Z.leb_spec scale (fval b)) as [H|H].
  - assert (Hq : 0 < fval b / scale) by (apply Z.div_str_pos; lia). destruct (ndig_spec _ Hq) as (N1 & N2 & _). unfold pow10.
    destruct (Z.leb_spec 0 (ndig (fval b / scale) - 1)); [|lia]. cbn. pose proof (Z.mul_div_le (fval b) scale Hs). nia.
  - assert (Hq : 0 < (scale - 1) / fval b) by (apply Z.div_str_pos; lia). destruct (ndig_spec _ Hq) as (N1 & _ & N2). unfold pow10.
    destruct (Z.leb_spec 0 (1 - ndig ((scale - 1) / fval b) - 1)); [lia|]. cbn [fst snd].
    replace (- (1 - ndig ((scale - 1) / fval b) - 1)) with (ndig ((scale - 1) / fval b)) by lia.
    pose proof (Z.mul_succ_div_gt (scale - 1) (fval b) Hf). nia.
Qed.

(** A decimal within half a gap of the value rounds to it. *)
Lemma close_rounds b num den : 1 <= b -> 0 < den -> 2 * Z.abs (scale * num - fval b * den) < gap (b - 1) * den -> rounds_to b num den = true.
Proof.
  intros Hb Hd H. apply rounds_to_spec. pose proof (fval_succ (b - 1) ltac:(lia)) as E1. replace (b - 1 + 1) with b in E1 by lia.
  pose proof (fval_succ b ltac:(lia)) as E2. assert (Hg : gap (b - 1) * den <= gap b * den) by (apply Z.mul_le_mono_nonneg_r; [lia|apply gap_mono; lia]).
  assert (M1 : mid b * den = 2 * (fval b * den) + gap b * den) by (unfold mid; rewrite E2; ring).
  assert (M2 : mid (b - 1) * den = 2 * (fval b * den) - gap (b - 1) * den) by (unfold mid; replace (b - 1 + 1) with b by lia; rewrite E1; ring).
  split; [left|right; left]; lia.
Qed.

(** Where the unit is below a gap, one of the neighbours rounds to the value. *)
Lemma digit_at_some b k : 1 <= b -> scale * (pow10 k).1 < gap (b - 1) * (pow10 k).2 -> is_Some (digit_at b k).
Proof.
  intros Hb Hg. unfold digit_at. pose proof (pow10_pos k) as [Hp Hq]. destruct (pow10 k) as [p q]. cbn [fst snd] in *. pose proof scale_pos as Hs.
  set (n := fval b * q) in *. set (d := scale * p) in *. assert (Hd : 0 < d) by (unfold d; nia). pose proof (Z.div_mod n d ltac:(lia)) as E.
  pose proof (Z.mod_pos_bound n d Hd) as Hr.
  enough (H : rounds_to b (n / d * p) q = true \/ rounds_to b ((n / d + 1) * p) q = true).
  { destruct (rounds_to b (n / d * p) q), (rounds_to b ((n / d + 1) * p) q); try (by eexists); by destruct H. }
  destruct (Z.lt_ge_cases (2 * (n mod d)) (gap (b - 1) * q)) as [Hl|Hl]; [left|right]; apply close_rounds; try done; fold n.
  - replace (scale * (n / d * p)) with (d * (n / d)) by (unfold d; ring). lia.
  - replace (scale * ((n / d + 1) * p)) with (d * (n / d) + d) by (unfold d; ring). lia.
Qed.

Lemma seventeen_digits b : 1 <= b -> is_Some (digit_at b (dec_exp b - 17)).
Proof.
  intros Hb. apply digit_at_some; [done|]. pose proof (dec_exp_low b Hb) as Hl. pose proof (fval_gap b Hb) as Hg. pose proof scale_pos.
  pose proof (pow10_shift (dec_exp b - 17) 16 ltac:(lia)) as E. replace (dec_exp b - 17 + 16) with (dec_exp b - 1) in E by lia.
  pose proof (pow10_pos (dec_exp b - 17)) as [P1 Q1]. pose proof (pow10_pos (dec_exp b - 1)) as [P2 Q2]. pose proof (gap_pos (b - 1)).
  set (p := (pow10 (dec_exp b - 17)).1) in *. set (q := (pow10 (dec_exp b - 17)).2) in *.
  set (p' := (pow10 (dec_exp b - 1)).1) in *. set (q' := (pow10 (dec_exp b - 1)).2) in *. set (g := gap (b - 1)) in *.
  assert (H1 : scale * p' <= 2 ^ 53 * g * q') by nia. assert (H2 : scale * p' * q <= 2 ^ 53 * g * q' * q) by nia.
  assert (H3 : 10 ^ 16 * (scale * p) * q' <= 2 ^ 53 * (g * q) * q') by nia.
  assert (H4 : 10 ^ 16 * (scale * p) <= 2 ^ 53 * (g * q)) by nia. assert (0 < g * q) by nia. lia.
Qed.

Lemma search_found n b k d j : search n b k = Some (d, j) -> digit_at b j = Some d.
Proof. revert k. induction n as [|n IH]; intros k; cbn; destruct (digit_at b k) as [x|] eqn:E; (discriminate || (intros [= <- <-]; done) || apply IH). Qed.
Lemma search_some n b k : is_Some (digit_at b (k - Z.of_nat n)) -> is_Some (search n b k).
Proof.
  revert k. induction n as [|n IH]; intros k H; cbn; destruct (digit_at b k) eqn:E; try (by eexists).
  - replace (k - Z.of_nat 0) with k in H by lia. rewrite E in H. by destruct H.
  - apply IH. by replace (k - 1 - Z.of_nat n) with (k - Z.of_nat (S n)) by lia.
Qed.

Lemma digit_at_rounds b k d : digit_at b k = Some d -> rounds_to b (d * (pow10 k).1) (pow10 k).2 = true.
Proof.
  unfold digit_at. destruct (pow10 k) as [p q]. cbn [fst snd]. set (c := fval b * q / (scale * p)).
  destruct (rounds_to b (c * p) q) eqn:E1, (rounds_to b ((c + 1) * p) q) eqn:E2; intros [= <-]; try done.
  destruct (_ ?= _); [destruct (Z.even c)|..]; done.
Qed.

Lemma digit_at_nonneg b k d : 0 <= b -> digit_at b k = Some d -> 0 <= d.
Proof.
  intros Hb. unfold digit_at. pose proof (pow10_pos k) as [Hp Hq]. destruct (pow10 k) as [p q]. cbn [fst snd] in *. pose proof (fval_nonneg b Hb). pose proof scale_pos.
  assert (0 <= fval b * q / (scale * p)) by (apply Z.div_pos; nia). set (c := fval b * q / (scale * p)) in *.
  destruct (rounds_to _ _ _), (rounds_to _ _ _); intros [= <-]; try lia. destruct (_ ?= _); [destruct (Z.even c)|..]; lia.
Qed.

Lemma zero_rounds b den : 1 <= b -> 0 < den -> rounds_to b 0 den = false.
Proof.
  intros Hb Hd. apply not_true_is_false. intros H. apply rounds_to_spec in H as [_ H]. unfold above in H.
  pose proof (mid_between (b - 1) ltac:(lia)) as [M _]. pose proof (fval_nonneg (b - 1) ltac:(lia)). nia.
Qed.

Lemma shortest_rounds b : 1 <= b -> 0 < (shortest b).1 /\ rounds_to b ((shortest b).1 * (pow10 (shortest b).2).1) (pow10 (shortest b).2).2 = true.
Proof.
  intros Hb. destruct (search_some 17 b (dec_exp b) (seventeen_digits b Hb)) as [[d k] E]. unfold shortest. rewrite E. cbn [default from_option id fst snd].
  apply search_found in E. pose proof (digit_at_nonneg b k d ltac:(lia) E). apply digit_at_rounds in E. split; [|done].
  enough (d <> 0) by lia. intros ->. rewrite Z.mul_0_l, zero_rounds in E by (done || apply pow10_pos). done.
Qed.

Lemma decimal_iff m e b : 0 <= m -> 0 <= b < inf_bits -> rounds_to b (m * (pow10 e).1) (pow10 e).2 = true <-> decimal m e = b.
Proof.
  intros Hm Hb. unfold decimal. pose proof (pow10_pos e) as [Hp Hq]. destruct (pow10 e) as [p q]. cbn [fst snd] in *.
  rewrite nearest_iff by (nia || lia). lia.
Qed.

Lemma decimal_shortest b : 1 <= b < inf_bits -> decimal (shortest b).1 (shortest b).2 = b.
Proof. intros Hb. destruct (shortest_rounds b ltac:(lia)) as [Hd Hr]. apply decimal_iff; [lia..|done]. Qed.

(** ** How long the shortest decimal is *)

Lemma dec_exp_high b : 1 <= b -> fval b * (pow10 (dec_exp b)).2 < scale * (pow10 (dec_exp b)).1.
Proof.
  intros Hb. pose proof (fval_pos b Hb) as Hf. pose proof scale_pos as Hs. unfold dec_exp. destruct (Z.leb_spec scale (fval b)) as [H|H].
  - assert (Hq : 0 < fval b / scale) by (apply Z.div_str_pos; lia). destruct (ndig_spec _ Hq) as (N1 & _ & N2). unfold pow10.
    destruct (Z.leb_spec 0 (ndig (fval b / scale))); [|lia]. cbn [fst snd]. pose proof (Z.mul_succ_div_gt (fval b) scale Hs). nia.
  - assert (Hq : 0 < (scale - 1) / fval b) by (apply Z.div_str_pos; lia). destruct (ndig_spec _ Hq) as (N1 & N2 & _). unfold pow10.
    pose proof (Z.mul_div_le (scale - 1) (fval b) Hf). destruct (Z.leb_spec 0 (1 - ndig ((scale - 1) / fval b))).
    + replace (1 - ndig ((scale - 1) / fval b)) with 0 by lia. cbn. lia.
    + cbn [fst snd]. replace (- (1 - ndig ((scale - 1) / fval b))) with (ndig ((scale - 1) / fval b) - 1) by lia. nia.
Qed.

Lemma pow10_lt_inv a b : 0 <= b -> 10 ^ a < 10 ^ b -> a < b.
Proof. intros Hb H. apply (Z.pow_lt_mono_r_iff 10); lia. Qed.

Lemma scale_value : scale = 2 ^ 1074.
Proof. Transparent scale. reflexivity. Qed.
#[local] Opaque scale.

Lemma dec_exp_bound b : 1 <= b < inf_bits -> -323 <= dec_exp b <= 309.
Proof.
  intros Hb. pose proof (fval_pos b ltac:(lia)) as Hf. pose proof scale_pos as Hs. pose proof (fval_lt b inf_bits ltac:(lia)) as Hi.
  replace (fval inf_bits) with (2 ^ 1024 * scale) in Hi by (rewrite scale_value; vm_compute; reflexivity).
  assert (B1 : 2 ^ 1024 < 10 ^ 309) by (apply Z.ltb_lt; vm_compute; reflexivity). assert (B2 : scale < 10 ^ 324) by (rewrite scale_value; apply Z.ltb_lt; vm_compute; reflexivity).
  unfold dec_exp. destruct (Z.leb_spec scale (fval b)) as [H|H].
  - assert (Hq : 0 < fval b / scale) by (apply Z.div_str_pos; lia). destruct (ndig_spec _ Hq) as (N1 & N2 & _).
    assert (fval b / scale < 2 ^ 1024) by (apply Z.div_lt_upper_bound; lia). pose proof (pow10_lt_inv (ndig (fval b / scale) - 1) 309). lia.
  - assert (Hq : 0 < (scale - 1) / fval b) by (apply Z.div_str_pos; lia). destruct (ndig_spec _ Hq) as (N1 & N2 & _).
    assert ((scale - 1) / fval b <= scale - 1) by (apply Z.div_le_upper_bound; nia). pose proof (pow10_lt_inv (ndig ((scale - 1) / fval b) - 1) 324). lia.
Qed.

Lemma search_range n b k d j : search n b k = Some (d, j) -> k - Z.of_nat n <= j <= k.
Proof.
  revert k. induction n as [|n IH]; intros k; cbn; destruct (digit_at b k) as [x|] eqn:E; try discriminate; try (intros [= <- <-]; lia). intros H%IH. lia.
Qed.

Lemma digit_at_small b i d : 1 <= b -> 0 <= i -> digit_at b (dec_exp b - i) = Some d -> d <= 10 ^ i.
Proof.
  intros Hb Hi. pose proof (dec_exp_high b Hb) as Hh. pose proof (pow10_shift (dec_exp b - i) i Hi) as E. replace (dec_exp b - i + i) with (dec_exp b) in E by lia.
  pose proof (pow10_pos (dec_exp b - i)) as [P1 Q1]. pose proof (pow10_pos (dec_exp b)) as [P2 Q2]. pose proof scale_pos as Hs. pose proof (fval_pos b Hb).
  unfold digit_at. destruct (pow10 (dec_exp b - i)) as [p q]. destruct (pow10 (dec_exp b)) as [p' q']. cbn [fst snd] in *.
  assert (H1 : fval b * q < 10 ^ i * (scale * p)).
  { enough (fval b * q * q' < 10 ^ i * (scale * p) * q') by nia. replace (10 ^ i * (scale * p) * q') with (scale * (10 ^ i * p * q')) by ring. rewrite <- E. nia. }
  assert (Hc : fval b * q / (scale * p) < 10 ^ i) by (apply Z.div_lt_upper_bound; nia). set (c := fval b * q / (scale * p)) in *.
  destruct (rounds_to _ _ _), (rounds_to _ _ _); intros [= <-]; try lia. destruct (_ ?= _); [destruct (Z.even c)|..]; lia.
Qed.

Lemma shortest_bounds b : 1 <= b < inf_bits -> (shortest b).1 <= 10 ^ 17 /\ -340 <= (shortest b).2 <= 309.
Proof.
  intros Hb. destruct (search_some 17 b (dec_exp b) (seventeen_digits b ltac:(lia))) as [[d k] E]. unfold shortest. rewrite E. cbn [default from_option id fst snd].
  pose proof (search_range _ _ _ _ _ E) as Hr. apply search_found in E. pose proof (dec_exp_bound b Hb). split; [|lia].
  replace k with (dec_exp b - (dec_exp b - k)) in E by lia. apply digit_at_small in E; [|lia..]. etrans; [exact E|]. apply Z.pow_le_mono_r; lia.
Qed.

Lemma shortest_width b : 1 <= b < inf_bits -> 1 <= zlen (digits (shortest b).1) <= 18.
Proof.
  intros Hb. destruct (shortest_bounds b Hb) as [H _]. destruct (shortest_rounds b ltac:(lia)) as [Hp _].
  unfold zlen, digits. rewrite dec_digits_length. pose proof (ndigits_log (shortest b).1 ltac:(lia)) as (N1 & _ & N2). specialize (N2 Hp).
  set (n := ndigits _ _) in *. pose proof (pow10_lt_inv (Z.of_nat n - 1) 18). assert (10 ^ 17 < 10 ^ 18) by lia. lia.
Qed.

End Float64Correct.
