(* ===== verification/Json.v ===== *)
(** JSON values, their text and their parser: [json/value.go], [json/writer.go] and
    [json/parser.go].

    Strings are bytes, as in Go; a float is its 64 bits.  A Go map is an association
    list with one entry per key.  The parser's string and index are the index and
    the text from there on. *)

From S2P Require Import Prelude Strconv Utf8 Float64 Schema.
Import Strconv.

Module Json.

Inductive Value :=
  | StringValue (V : bytes)
  | NumberValue (bits : Z)
  | IntValue (V : Z)
  | BoolValue (V : bool)
  | NullValue
  | ObjectValue (Keys : list bytes) (Fields : list (bytes * Value))
  | ArrayValue (Elements : list Value).

Record JsonPathError := mkJsonError { ErrMsg : bytes; ErrExpr : bytes }.
Abbreviation jres := (go JsonPathError).
Definition fail {A} (msg : bytes) : jres A := Err (mkJsonError msg (str "$")).

(** ** Maps *)

(** [f] of the value of a key, or [d] when there is none. *)
Definition field_with {A} (f : Value -> A) (d : A) (k : bytes) : list (bytes * Value) -> A :=
  fix go m := match m with [] => d | (k', v) :: m => if bool_decide (k' = k) then f v else go m end.
Definition get (k : bytes) (m : list (bytes * Value)) : option Value := field_with Some None k m.

(** [m[k] = v]. *)
Fixpoint put (k : bytes) (v : Value) (m : list (bytes * Value)) : list (bytes * Value) :=
  match m with
  | [] => [(k, v)]
  | (k', v') :: m => if bool_decide (k' = k) then (k, v) :: m else (k', v') :: put k v m
  end.

(** ** Writer *)

(** [b.WriteString(fmt.Sprintf(`\u%04x`, c))] for a rune below 32. *)
Definition hex2 (c : Z) : bytes := [if c <? 16 then x30 else x31; (if c mod 16 <? 10 then z2b (48 + c mod 16) else z2b (87 + c mod 16))].

Definition escape (c : Z) : bytes :=
  if c =? 34 then [x5c; x22]
  else if c =? 92 then [x5c; x5c]
  else if c =? 8 then [x5c; x62]
  else if c =? 12 then [x5c; x66]
  else if c =? 10 then [x5c; x6e]
  else if c =? 13 then [x5c; x72]
  else if c =? 9 then [x5c; x74]
  else if c <? 0x20 then x5c :: x75 :: x30 :: x30 :: hex2 c
  else Utf8.EncodeRune c.

Definition appendString (s : bytes) : bytes := x22 :: concat (map escape (Utf8.runes s)) ++ [x22].

Definition commas (l : list bytes) : bytes :=
  match l with [] => [] | x :: l => x ++ concat (map (cons x2c) l) end.

(** A key without a value writes nothing after its colon. *)
Fixpoint appendValue (v : Value) : bytes :=
  match v with
  | StringValue s => appendString s
  | NumberValue b => Float64.FormatFloat b
  | IntValue z => FormatInt z
  | BoolValue b => if b then str "true" else str "false"
  | NullValue => str "null"
  | ArrayValue els => x5b :: commas (map appendValue els) ++ [x5d]
  | ObjectValue ks m => x7b :: commas (map (fun k => appendString k ++ x3a :: field_with appendValue [] k m) ks) ++ [x7d]
  end.

Definition ToJSONString (v : Value) : bytes := appendValue v.

(** ** Parser *)

Record parser := mkParser { pos : Z; rest : bytes }.

Definition newParser (s : bytes) : parser := mkParser 0 s.

(** [p.i += n]. *)
Definition adv (n : nat) (p : parser) : parser := mkParser (pos p + Z.of_nat n) (drop n (rest p)).

Fixpoint skip_ws (i : Z) (s : bytes) : parser :=
  match s with
  | c :: s' => if bool_decide (c = x20 \/ c = x0a \/ c = x0d \/ c = x09) then skip_ws (i + 1) s' else mkParser i s
  | [] => mkParser i []
  end.
Definition skipWS (p : parser) : parser := skip_ws (pos p) (rest p).

Definition peek (p : parser) : byte := match rest p with c :: _ => c | [] => x00 end.

Definition expectCh (ch : byte) (p : parser) : jres parser :=
  match rest p with
  | c :: _ => if bool_decide (c = ch) then Ok (adv 1 p) else fail (str "expected " ++ [ch])
  | [] => fail (str "expected " ++ [ch])
  end.

Definition expectLit (lit : bytes) (p : parser) : jres parser :=
  if has_prefix (rest p) lit then Ok (adv (length lit) p) else fail (str "expected " ++ lit).

Definition hex_value (c : byte) : option Z :=
  let z := b2z c in
  if Utf8.between 48 z 57 then Some (z - 48)
  else if Utf8.between 97 z 102 then Some (10 + (z - 97))
  else if Utf8.between 65 z 70 then Some (10 + (z - 65))
  else None.

Fixpoint hex_digits (k : nat) (v : Z) (p : parser) : jres (Z * parser) :=
  match k with
  | O => Ok (v, p)
  | S k =>
    match rest p with
    | [] => fail (str "bad \u")
    | ch :: _ => match hex_value ch with Some d => hex_digits k (v * 16 + d) (adv 1 p) | None => fail (str "bad \u") end
    end
  end.
Definition parseHex4 (p : parser) : jres (Z * parser) := hex_digits 4 0 p.

Definition isHighSurrogate (r : Z) : bool := Utf8.between 0xD800 r 0xDBFF.
Definition isLowSurrogate (r : Z) : bool := Utf8.between 0xDC00 r 0xDFFF.
Definition combineSurrogates (high low : Z) : Z := 0x10000 + Z.shiftl (high - 0xD800) 10 + (low - 0xDC00).

Definition peekUnicodeEscape (p : parser) : option Z :=
  match rest p with
  | x5c :: x75 :: _ =>
    if (length (rest p) <? 6)%nat then None
    else match parseHex4 (adv 2 p) with Ok (r, _) => Some r | _ => None end
  | _ => None
  end.

(** A code unit, joined with the low half that follows a high one. *)
Definition unicode_escape (p : parser) : jres (bytes * parser) :=
  '(ch, p) ← parseHex4 p;
  Ok (if isHighSurrogate ch then
        match peekUnicodeEscape p with
        | Some low => if isLowSurrogate low then (Utf8.EncodeRune (combineSurrogates ch low), adv 6 p) else (Utf8.EncodeRune ch, p)
        | None => (Utf8.EncodeRune ch, p)
        end
      else (Utf8.EncodeRune ch, p)).

Definition unescape (e : byte) (p : parser) : jres (bytes * parser) :=
  match e with
  | x22 => Ok ([x22], p) | x5c => Ok ([x5c], p) | x2f => Ok ([x2f], p) | x62 => Ok ([x08], p) | x66 => Ok ([x0c], p)
  | x6e => Ok ([x0a], p) | x72 => Ok ([x0d], p) | x74 => Ok ([x09], p)
  | x75 => unicode_escape p
  | _ => fail (str "bad escape")
  end.

(** The loop of [parseStringLit]; every round takes a byte. *)
Fixpoint string_body (fuel : nat) (sb : bytes) (p : parser) : jres (bytes * parser) :=
  match fuel with
  | O => Panic
  | S fuel =>
    match rest p with
    | [] => fail (str "unclosed string")
    | c :: _ =>
      let p := adv 1 p in
      if bool_decide (c = x22) then Ok (sb, p)
      else if bool_decide (c <> x5c) then string_body fuel (sb ++ [c]) p
      else match rest p with
      | [] => fail (str "bad escape")
      | e :: _ => '(b, p) ← unescape e (adv 1 p); string_body fuel (sb ++ b) p
      end
    end
  end.

Definition parseStringLit (p : parser) : jres (bytes * parser) :=
  p ← expectCh x22 p; string_body (S (length (rest p))) [] p.

Definition skip_digits (p : parser) : parser := adv (length (Float64.span_digits (rest p)).1) p.

Definition require_digits (p : parser) : jres parser :=
  if Float64.is_digit (peek p) then Ok (skip_digits p) else fail (str "digit needed").

Definition number_int (p : parser) : jres parser := if bool_decide (peek p = x30) then Ok (adv 1 p) else require_digits p.

Definition number_frac (p : parser) : jres (bool * parser) :=
  if bool_decide (peek p = x2e) then p ← require_digits (adv 1 p); Ok (true, p) else Ok (false, p).

Definition number_exp (p : parser) : jres (bool * parser) :=
  if bool_decide (peek p = x65 \/ peek p = x45) then
    let p := adv 1 p in
    p ← require_digits (if bool_decide (peek p = x2b \/ peek p = x2d) then adv 1 p else p); Ok (true, p)
  else Ok (false, p).

Definition float_value (txt : bytes) : jres Value :=
  match Float64.ParseFloat txt with
  | None => fail (str "bad number")
  | Some d => if Float64.IsInf d || Float64.IsNaN d then fail (str "non-finite number") else Ok (NumberValue d)
  end.

Definition number_value (isFloat : bool) (txt : bytes) : jres Value :=
  if isFloat || existsb (fun c => bool_decide (c ∈ [x65; x45; x2e])) txt then float_value txt
  else match ParseInt txt with
  | Some iv => Ok (IntValue iv)
  | None => match Float64.ParseFloat txt with Some d => Ok (NumberValue d) | None => fail (str "bad number") end
  end.

Definition parseNumber (start : parser) : jres (Value * parser) :=
  p ← number_int (if bool_decide (peek start = x2d) then adv 1 start else start);
  '(frac, p) ← number_frac p;
  '(exp, p) ← number_exp p;
  v ← number_value (frac || exp) (take (Z.to_nat (pos p - pos start)) (rest start));
  Ok (v, p).

(** The loops of [parseObject] and [parseArray]; [frag] parses a value. *)
Fixpoint members (frag : parser -> jres (Value * parser)) (n : nat) (keys : list bytes) (m : list (bytes * Value)) (p : parser) : jres (Value * parser) :=
  match n with
  | O => Panic
  | S n =>
    let p := skipWS p in
    if bool_decide (peek p <> x22) then fail (str "expected string key")
    else
      '(key, p) ← parseStringLit p;
      p ← expectCh x3a (skipWS p);
      '(val, p) ← frag (skipWS p);
      let m := put key val m in let keys := keys ++ [key] in
      let p := skipWS p in
      if bool_decide (peek p = x2c) then members frag n keys m (adv 1 p)
      else if bool_decide (peek p = x7d) then Ok (ObjectValue keys m, adv 1 p)
      else fail (str "expected , or }")
  end.

Definition parseObject (frag : parser -> jres (Value * parser)) (n : nat) (p : parser) : jres (Value * parser) :=
  p ← expectCh x7b p;
  let p := skipWS p in
  if bool_decide (peek p = x7d) then Ok (ObjectValue [] [], adv 1 p) else members frag n [] [] p.

Fixpoint elements (frag : parser -> jres (Value * parser)) (n : nat) (l : list Value) (p : parser) : jres (Value * parser) :=
  match n with
  | O => Panic
  | S n =>
    '(el, p) ← frag (skipWS p);
    let l := l ++ [el] in
    let p := skipWS p in
    if bool_decide (peek p = x2c) then elements frag n l (adv 1 p)
    else if bool_decide (peek p = x5d) then Ok (ArrayValue l, adv 1 p)
    else fail (str "expected , or ]")
  end.

Definition parseArray (frag : parser -> jres (Value * parser)) (n : nat) (p : parser) : jres (Value * parser) :=
  p ← expectCh x5b p;
  let p := skipWS p in
  if bool_decide (peek p = x5d) then Ok (ArrayValue [], adv 1 p) else elements frag n [] p.

Definition literal (lit : bytes) (v : Value) (p : parser) : jres (Value * parser) := p ← expectLit lit p; Ok (v, p).

Fixpoint parseValueFragment (fuel : nat) (p : parser) : jres (Value * parser) :=
  match fuel with
  | O => Panic
  | S fuel =>
    let p := skipWS p in
    match rest p with
    | [] => fail (str "invalid JSON at EOF")
    | x7b :: _ => parseObject (parseValueFragment fuel) (S fuel) p
    | x5b :: _ => parseArray (parseValueFragment fuel) (S fuel) p
    | x22 :: _ => '(s, p) ← parseStringLit p; Ok (StringValue s, p)
    | x74 :: _ => literal (str "true") (BoolValue true) p
    | x66 :: _ => literal (str "false") (BoolValue false) p
    | x6e :: _ => literal (str "null") NullValue p
    | c :: _ =>
      if bool_decide (c = x2d) || Float64.is_digit c then parseNumber p
      else fail (str "invalid JSON at " ++ FormatInt (pos p))
    end
  end.

(** Nesting and the members of a container take a byte each. *)
Definition ParseValue (json : bytes) : jres Value :=
  '(v, p) ← parseValueFragment (S (length json)) (skipWS (newParser json));
  if bool_decide (rest (skipWS p) = []) then Ok v else fail (str "trailing data").

(** ** Codec values *)

Fixpoint FromKdbValue (value : Schema.Value) : jres Value :=
  match value with
  | Schema.NullValue => Ok NullValue
  | Schema.BoolValue b => Ok (BoolValue b)
  | Schema.Int64Value z => Ok (IntValue z)
  | Schema.Float64Value b => Ok (NumberValue b)
  | Schema.StringValue s => Ok (StringValue s)
  | Schema.ArrayValue els =>
    els ← (fix go l := match l with [] => Ok [] | e :: l => v ← FromKdbValue e; vs ← go l; Ok (v :: vs) end) els;
    Ok (ArrayValue els)
  | Schema.MapValue es =>
    (fix go ks m l :=
      match l with
      | [] => Ok (ObjectValue ks m)
      | (Schema.StringValue k, e) :: l => v ← FromKdbValue e; go (ks ++ [k]) (put k v m) l
      | _ => fail (str "Map key must be string")
      end) [] [] es
  | _ => fail (str "unsupported KdbValue for JSON subtree")
  end.

Fixpoint ToKdbValue (v : Value) : jres Schema.Value :=
  match v with
  | StringValue s => Ok (Schema.StringValue s)
  | NumberValue b => Ok (Schema.Float64Value b)
  | IntValue z => Ok (Schema.Int64Value z)
  | BoolValue b => Ok (Schema.BoolValue b)
  | NullValue => Ok Schema.NullValue
  | ObjectValue ks m =>
    es ← (fix go l := match l with
      | [] => Ok []
      | k :: l => vv ← field_with ToKdbValue (fail (str "unknown json value")) k m; es ← go l; Ok ((Schema.StringValue k, vv) :: es)
      end) ks;
    Ok (Schema.MapValue es)
  | ArrayValue els =>
    els ← (fix go l := match l with [] => Ok [] | e :: l => v ← ToKdbValue e; vs ← go l; Ok (v :: vs) end) els;
    Ok (Schema.ArrayValue els)
  end.

End Json.
