(* ===== verification/JsonRoundTrip.v ===== *)
(** JSON text is read back: [ParseValue] of what [ToJSONString] writes is the value
    in its normal form, and the parser ends on any text. *)

From S2P Require Import Prelude Strconv Utf8 Float64 Schema Json.
Import Strconv Float64 Float64Correct Json.

(** * Numbers

    Numbers in JSON text: a number that was printed is read back, as an integer
    when it was printed without a point and an exponent. *)

Module JsonNumber.

(** ** Digits *)

Lemma is_digit_spec c : is_digit c = true <-> digit c.
Proof. unfold is_digit, digit. lia. Qed.

(** The text after a number ends it. *)
Definition stop (t : bytes) : bool := match t with [] => true | c :: _ => bool_decide (c ∈ [x2c; x7d; x5d]) end.

Lemma stop_cases t : stop t = true -> t = [] \/ exists c r, t = c :: r /\ (c = x2c \/ c = x7d \/ c = x5d).
Proof. destruct t as [|c r]; [by left|]. intros H%bool_decide_eq_true. right. exists c, r. split; [done|]. set_solver. Qed.

Definition not_digit_head (t : bytes) : Prop := match t with [] => True | c :: _ => is_digit c = false end.

Lemma span_app ds t : Forall digit ds -> not_digit_head t -> span_digits (ds ++ t) = (ds, t).
Proof.
  intros H Ht. induction H as [|c ds Hc _ IH]; cbn [app span_digits].
  - destruct t as [|c t]; [done|]. cbn in *. by rewrite Ht.
  - apply is_digit_spec in Hc. by rewrite Hc, IH.
Qed.

Lemma parse_digits_value acc s : Forall digit s -> parse_digits acc s = Some (foldl (fun v c => 10 * v + (b2z c - 48)) acc s).
Proof. intros H. revert acc. induction H as [|c s Hc _ IH]; intros acc; cbn; [done|]. apply is_digit_spec in Hc. unfold is_digit in Hc. by rewrite Hc. Qed.

Lemma digits_value_digits z : 0 <= z -> digits_value (digits z) = z.
Proof. intros Hz. pose proof (parse_digits_digits z Hz) as E. rewrite parse_digits_value in E by apply digits_digit. by injection E. Qed.

Lemma foldl_zeros acc n : foldl (fun v c => 10 * v + (b2z c - 48)) acc (replicate n x30) = acc * 10 ^ Z.of_nat n.
Proof. revert acc. induction n as [|n IH]; intros acc; cbn [replicate foldl]; [cbn; lia|]. rewrite IH. change (b2z x30) with 48. rewrite Nat2Z.inj_succ, Z.pow_succ_r by lia. ring. Qed.

Lemma zeros_digit n : Forall digit (zeros n).
Proof. apply Forall_replicate. unfold digit. by change (b2z x30) with 48. Qed.
Lemma zlen_zeros n : 0 <= n -> zlen (zeros n) = n.
Proof. intros H. unfold zlen, zeros. rewrite length_replicate. lia. Qed.

Lemma foldl_digits_ge acc ds : Forall digit ds -> 0 <= acc -> acc <= foldl (fun v c => 10 * v + (b2z c - 48)) acc ds.
Proof. intros H. revert acc. induction H as [|c ds Hc _ IH]; intros acc Ha; cbn; [lia|]. unfold digit in Hc. etrans; [|apply IH; lia]. lia. Qed.

(** An exponent of at most five digits is read exactly. *)
Lemma exp_fold_digits acc ds : Forall digit ds -> 0 <= acc -> foldl (fun v c => 10 * v + (b2z c - 48)) acc ds < 100000 ->
  foldl (fun e c => if e <? 10000 then 10 * e + (b2z c - 48) else e) acc ds = foldl (fun v c => 10 * v + (b2z c - 48)) acc ds.
Proof.
  intros H. revert acc. induction H as [|c ds Hc Hds IH]; intros acc Ha Hv; cbn in *; [done|]. unfold digit in Hc.
  pose proof (foldl_digits_ge (10 * acc + (b2z c - 48)) ds Hds). destruct (Z.ltb_spec acc 10000); [|lia]. apply IH; lia.
Qed.
Lemma exp_value_digits ds : Forall digit ds -> digits_value ds < 100000 -> exp_value ds = digits_value ds.
Proof. intros H Hv. by apply exp_fold_digits. Qed.

(** ** The text of a number *)

Definition num_text (neg : bool) (ip fp : bytes) (ex : option (byte * bytes)) : bytes :=
  (if neg then [x2d] else []) ++ ip ++ (if bool_decide (fp = []) then [] else x2e :: fp) ++
  match ex with Some (sg, es) => x65 :: sg :: es | None => [] end.

Record num_ok (ip fp : bytes) (ex : option (byte * bytes)) : Prop := {
  ok_ip : Forall digit ip;
  ok_head : ip = [x30] \/ exists c r, ip = c :: r /\ c <> x30;
  ok_fp : Forall digit fp;
  ok_ex : forall sg es, ex = Some (sg, es) -> (sg = x2b \/ sg = x2d) /\ Forall digit es /\ es <> [];
}.

Definition is_float (fp : bytes) (ex : option (byte * bytes)) : bool := negb (bool_decide (fp = [])) || bool_decide (is_Some ex).

Lemma require_digits_app i ds t : ds <> [] -> Forall digit ds -> not_digit_head t -> require_digits (mkParser i (ds ++ t)) = Ok (mkParser (i + zlen ds) t).
Proof.
  intros Hne Hd Ht. unfold require_digits, skip_digits. cbn [rest]. rewrite span_app by done. unfold peek. cbn [rest].
  destruct ds as [|c ds]; [done|]. inversion Hd as [|? ? Hc]; subst. cbn [app]. apply is_digit_spec in Hc. rewrite Hc.
  f_equal. unfold adv. cbn [pos rest fst]. f_equal. apply (drop_app_length (c :: ds)).
Qed.

Lemma adv_cons i c s : adv 1 (mkParser i (c :: s)) = mkParser (i + 1) s.
Proof. done. Qed.

(** What follows the digits before the point. *)
Definition num_tail (fp : bytes) (ex : option (byte * bytes)) : bytes :=
  (if bool_decide (fp = []) then [] else x2e :: fp) ++ match ex with Some (sg, es) => x65 :: sg :: es | None => [] end.

Lemma stop_head t : stop t = true -> not_digit_head t /\ forall i, peek (mkParser i t) ∉ [x2e; x65; x45; x2b; x2d].
Proof.
  assert (Hne : forall c, b2z c ∈ [0; 0x2c; 0x7d; 0x5d] -> c ∉ [x2e; x65; x45; x2b; x2d]).
  { intros c Hc. rewrite !elem_of_cons, elem_of_nil. intros H. destruct_or! H; subst; cbn in Hc; set_solver. }
  intros [->|(c & r & -> & H)]%stop_cases; [split; [done|intros i; apply Hne; cbn; set_solver]|].
  split; [|intros i; apply Hne; cbn]; destruct_or! H; subst; cbn; (done || set_solver).
Qed.

Lemma number_int_app i ip fp ex t : num_ok ip fp ex -> stop t = true ->
  number_int (mkParser i (ip ++ num_tail fp ex ++ t)) = Ok (mkParser (i + zlen ip) (num_tail fp ex ++ t)).
Proof.
  intros [H1 H2 H3 H4] Ht. assert (Hnd : not_digit_head (num_tail fp ex ++ t)).
  { unfold num_tail. case_bool_decide; [|done]. destruct ex as [[sg es]|]; [done|]. by apply stop_head. }
  unfold number_int. destruct H2 as [->|(c & r & -> & Hc)]; [by rewrite bool_decide_true by done|].
  rewrite bool_decide_false by done. by apply require_digits_app.
Qed.

Lemma number_frac_app i ip fp ex t : num_ok ip fp ex -> stop t = true ->
  number_frac (mkParser i (num_tail fp ex ++ t)) =
  Ok (negb (bool_decide (fp = [])), mkParser (i + zlen (if bool_decide (fp = []) then [] else x2e :: fp)) (num_tail [] ex ++ t)).
Proof.
  intros [H1 H2 H3 H4] Ht. destruct (stop_head t Ht) as [Hn Hp]. unfold number_frac, num_tail. rewrite (bool_decide_true ([] = [])) by done.
  destruct (decide (fp = [])) as [->|E]; [rewrite !(bool_decide_true ([] = [])) by done|rewrite !(bool_decide_false (fp = [])) by done].
  - cbn [negb app]. rewrite bool_decide_false; [unfold zlen; cbn; repeat f_equal; lia|].
    destruct ex as [[sg es]|]; [done|]. intros E. apply (Hp i). cbn in E. rewrite E. set_solver.
  - cbn [app]. rewrite bool_decide_true by done. rewrite adv_cons, <- app_assoc, require_digits_app; [|done|done|].
    + cbn. rewrite zlen_cons. do 3 f_equal. lia.
    + destruct ex as [[sg es]|]; done.
Qed.

Lemma number_exp_app i ip fp ex t : num_ok ip fp ex -> stop t = true ->
  number_exp (mkParser i (num_tail [] ex ++ t)) = Ok (bool_decide (is_Some ex), mkParser (i + zlen (num_tail [] ex)) t).
Proof.
  intros [H1 H2 H3 H4] Ht. destruct (stop_head t Ht) as [Hn Hp]. unfold number_exp, num_tail. rewrite !(bool_decide_true ([] = [])) by done. cbn [app].
  destruct ex as [[sg es]|].
  - destruct (H4 sg es eq_refl) as (Hsg & Hes & Hne). rewrite (bool_decide_true (_ \/ _)) by (by left). cbv zeta. cbn [app]. rewrite !adv_cons.
    rewrite bool_decide_true by (unfold peek; cbn; destruct Hsg; auto). rewrite require_digits_app by (done || by apply stop_head). cbn. rewrite !zlen_cons. do 3 f_equal. lia.
  - rewrite (bool_decide_false (_ \/ _)); [unfold zlen; cbn; repeat f_equal; lia|]. intros E. apply (Hp i). cbn in E. set_solver.
Qed.

(** The parser takes exactly the text of the number. *)
Lemma parseNumber_text i neg ip fp ex t : num_ok ip fp ex -> stop t = true ->
  parseNumber (mkParser i (num_text neg ip fp ex ++ t)) =
  (v ← number_value (is_float fp ex) (num_text neg ip fp ex); Ok (v, mkParser (i + zlen (num_text neg ip fp ex)) t)).
Proof.
  intros Hok Ht. assert (E : num_text neg ip fp ex = (if neg then [x2d] else []) ++ ip ++ num_tail fp ex) by done.
  assert (Hst : (if bool_decide (peek (mkParser i (num_text neg ip fp ex ++ t)) = x2d) then adv 1 (mkParser i (num_text neg ip fp ex ++ t)) else mkParser i (num_text neg ip fp ex ++ t)) =
    mkParser (i + (if neg then 1 else 0)) (ip ++ num_tail fp ex ++ t)).
  { rewrite E, <- app_assoc, <- app_assoc. destruct neg; cbn [app]; [by rewrite bool_decide_true|]. rewrite Z.add_0_r, bool_decide_false; [done|].
    destruct Hok as [H1 H2 _ _]. destruct H2 as [->|(c & r & -> & Hc)]; [done|]. inversion H1 as [|? ? Hd]; subst. cbn. intros ->. by destruct Hd. }
  unfold parseNumber. rewrite Hst, (number_int_app _ ip fp ex t Hok Ht). cbn [mbind go_bind]. rewrite (number_frac_app _ ip fp ex t Hok Ht). cbn [mbind go_bind].
  rewrite (number_exp_app _ ip fp ex t Hok Ht). cbn [mbind go_bind pos rest]. unfold is_float.
  assert (Hlen : i + (if neg then 1 else 0) + zlen ip + zlen (if bool_decide (fp = []) then [] else x2e :: fp) + zlen (num_tail [] ex) = i + zlen (num_text neg ip fp ex)).
  { rewrite E. unfold num_tail. rewrite !zlen_app. rewrite (bool_decide_true ([] = [])) by done. destruct neg; unfold zlen; cbn [length app]; lia. }
  rewrite Hlen. replace (i + zlen (num_text neg ip fp ex) - i) with (zlen (num_text neg ip fp ex)) by lia.
  replace (Z.to_nat (zlen (num_text neg ip fp ex))) with (length (num_text neg ip fp ex)) by (unfold zlen; lia). by rewrite take_app_length.
Qed.

Lemma take_sign_digit ds : (forall c r, ds = c :: r -> digit c) -> take_sign ds = (false, ds).
Proof. destruct ds as [|c r]; [done|]. intros H. specialize (H c r eq_refl). unfold digit in H. destruct c; try done; cbn in H; lia. Qed.

Definition exponent (ex : option (byte * bytes)) : Z := match ex with Some (sg, es) => if bool_decide (sg = x2d) then - exp_value es else exp_value es | None => 0 end.

Lemma ParseFloat_text neg ip fp ex : num_ok ip fp ex ->
  ParseFloat (num_text neg ip fp ex) = in_range neg (decimal (digits_value (ip ++ fp)) (exponent ex - zlen fp)).
Proof.
  intros [H1 H2 H3 H4]. assert (Hip : ip <> []) by (destruct H2 as [->|(c & r & -> & _)]; done).
  assert (Hs : take_sign (num_text neg ip fp ex) = (neg, ip ++ num_tail fp ex)).
  { unfold num_text. fold (num_tail fp ex). destruct neg; [done|]. cbn [app]. apply take_sign_digit. intros c r E.
    destruct ip as [|c' ip]; [done|]. injection E as -> _. by inversion H1. }
  unfold ParseFloat. rewrite Hs, span_app by (done || (unfold num_tail; case_bool_decide; [destruct ex as [[sg es]|]|]; done)).
  assert (Hf : (match num_tail fp ex with x2e :: r => span_digits r | _ => ([], num_tail fp ex) end) = (fp, num_tail [] ex)).
  { unfold num_tail. rewrite (bool_decide_true ([] = [])) by done. case_bool_decide as E; [subst; destruct ex as [[sg es]|]; done|]. cbn [app].
    apply span_app; [done|]. destruct ex as [[sg es]|]; done. }
  rewrite Hf, bool_decide_false by (destruct ip; done). unfold num_tail. rewrite (bool_decide_true ([] = [])) by done. cbn [app].
  destruct ex as [[sg es]|]; [|done]. destruct (H4 sg es eq_refl) as (Hsg & Hes & Hne). rewrite (bool_decide_true (_ \/ _)) by (by left).
  assert (Hspan : span_digits es = (es, [])) by (rewrite <- (app_nil_r es) at 1; by apply span_app).
  destruct Hsg as [-> | ->]; cbn [take_sign]; rewrite Hspan, bool_decide_false by (intros [?|?]; done); done.
Qed.

(** ** Printed numbers *)

(** The integer a magnitude is printed as, if it is printed as one. *)
Definition plain (m : Z) : option Z :=
  if m =? 0 then Some 0
  else let '(d, k) := shortest m in if (0 <=? k) && (zlen (digits d) + k <=? 6) then Some (d * 10 ^ k) else None.

(** What a printed number is read as. *)
Definition read_back (b : Z) : Value :=
  match plain (magnitude b) with
  | Some z => IntValue (if negative b then - z else z)
  | None => NumberValue b
  end.

(** The text of a magnitude: the digits of an integer, or a decimal that rounds to it. *)
Definition mag_text (m : Z) (s : bytes) : Prop := exists ip fp ex, num_ok ip fp ex /\ s = num_text false ip fp ex /\
  match plain m with
  | Some z => fp = [] /\ ex = None /\ digits_value ip = z /\ 0 <= z < 10 ^ 6
  | None => is_float fp ex = true /\ decimal (digits_value (ip ++ fp)) (exponent ex - zlen fp) = m
  end.

Lemma exp_digits_value e : 0 <= e -> digits_value (if e <? 10 then x30 :: digits e else digits e) = e.
Proof. intros He. destruct (e <? 10); [|by apply digits_value_digits]. unfold digits_value. cbn. by apply digits_value_digits. Qed.

Lemma fmtE_text m d k ds : 1 <= m < inf_bits -> shortest m = (d, k) -> ds = digits d -> zlen ds + k - 1 < -4 \/ 6 <= zlen ds + k - 1 -> mag_text m (fmtE ds (zlen ds + k)).
Proof.
  intros Hm Es -> He. pose proof (shortest_width m Hm) as Hw. pose proof (shortest_bounds m Hm) as [_ Hk]. pose proof (decimal_shortest m Hm) as Hd.
  destruct (shortest_rounds m ltac:(lia)) as [Hp _]. rewrite Es in *. cbn [fst snd] in *. pose proof (digits_value_digits d ltac:(lia)) as Hv.
  pose proof (digits_digit d) as Hf. destruct (digits d) as [|c r] eqn:Eds; [unfold zlen in Hw; cbn in Hw; lia|]. apply Forall_cons in Hf as [Hc Hr].
  set (exp := zlen (c :: r) + k - 1) in *.
  exists [c], r, (Some (if exp <? 0 then x2d else x2b, if Z.abs exp <? 10 then x30 :: digits (Z.abs exp) else digits (Z.abs exp))). split_and!.
  - constructor; [by constructor|destruct (decide (c = x30)) as [->|]; [by left|right; by exists c, []]|done|]. intros sg es [= <- <-].
    split; [destruct (exp <? 0); auto|]. destruct (digits_head (Z.abs exp) ltac:(lia)) as (c' & r' & E' & _). pose proof (digits_digit (Z.abs exp)).
    destruct (Z.abs exp <? 10); (split; [|by rewrite E']); [constructor; [|done]; unfold digit; by change (b2z x30) with 48|done].
  - unfold fmtE, num_text. cbn [take drop app length]. fold exp. destruct r; cbn; done.
  - unfold plain. destruct (Z.eqb_spec m 0); [lia|]. rewrite Es, Eds. replace ((0 <=? k) && _) with false by (unfold exp in He; lia).
    split; [unfold is_float; by rewrite orb_comm|]. cbn [app]. rewrite Hv. rewrite <- Hd. f_equal. unfold exponent.
    assert (Hx : exp_value (if Z.abs exp <? 10 then x30 :: digits (Z.abs exp) else digits (Z.abs exp)) = Z.abs exp).
    { pose proof (exp_digits_value (Z.abs exp) ltac:(lia)) as Ev. rewrite exp_value_digits; [done| |lia]. destruct (Z.abs exp <? 10); [|apply digits_digit].
      constructor; [unfold digit; by change (b2z x30) with 48|apply digits_digit]. }
    rewrite Hx. destruct (Z.ltb_spec exp 0); [rewrite bool_decide_true by done|rewrite bool_decide_false by done]; unfold exp in *; rewrite zlen_cons in *; lia.
Qed.

Lemma fmtF_text m d k ds : 1 <= m < inf_bits -> shortest m = (d, k) -> ds = digits d -> -4 <= zlen ds + k - 1 < 6 -> mag_text m (fmtF ds (zlen ds + k)).
Proof.
  intros Hm Es -> He. pose proof (shortest_width m Hm) as Hw. pose proof (decimal_shortest m Hm) as Hd.
  destruct (shortest_rounds m ltac:(lia)) as [Hp _]. rewrite Es in *. cbn [fst snd] in *. pose proof (digits_value_digits d ltac:(lia)) as Hv.
  pose proof (digits_digit d) as Hf. destruct (digits_head d ltac:(lia)) as (c & r & Eds & Hc & Hc0). set (ds := digits d) in *. set (dp := zlen ds + k) in *.
  assert (Hc1 : c <> x30). { intros ->. rewrite Hc0 in Eds by done. rewrite Eds in Hv. cbn in Hv. lia. }
  unfold fmtF. unfold mag_text, plain. destruct (Z.eqb_spec m 0); [lia|]. rewrite Es. fold ds dp. destruct (Z.leb_spec 0 k) as [Hk|Hk].
  - assert (Hle : (zlen ds <=? dp) = true) by lia. rewrite Hle. destruct (Z.ltb_spec 0 dp); [|lia]. rewrite take_ge, app_nil_r by (unfold dp, zlen; lia).
    assert (Hdp : (dp <=? 6) = true) by lia. rewrite Hdp. cbn [andb]. exists (ds ++ zeros (dp - zlen ds)), [], None. split_and!.
    + constructor; [apply Forall_app; split; [done|apply zeros_digit]|right|done|done]. exists c, (r ++ zeros (dp - zlen ds)). by rewrite Eds.
    + unfold num_text. rewrite bool_decide_true by done. cbn [app]. by rewrite app_nil_r.
    + done. + done.
    + unfold digits_value, zeros. rewrite foldl_app, foldl_zeros. change (digits_value ds * 10 ^ Z.of_nat (Z.to_nat (dp - zlen ds)) = d * 10 ^ k). rewrite Hv. do 2 f_equal. unfold dp. lia.
    + pose proof (Z.pow_pos_nonneg 10 k). nia.
    + unfold dp, zlen, ds, digits in *. rewrite dec_digits_length in *. pose proof (ndigits_log d ltac:(lia)) as (_ & N & _). set (nd := ndigits _ d) in *.
      assert (d * 10 ^ k < 10 ^ (Z.of_nat nd + k)) by (rewrite Z.pow_add_r by lia; pose proof (Z.pow_pos_nonneg 10 k); nia).
      assert (10 ^ (Z.of_nat nd + k) <= 10 ^ 6) by (apply Z.pow_le_mono_r; lia). lia.
  - assert (Hgt : (zlen ds <=? dp) = false) by lia. rewrite Hgt. cbn [andb]. destruct (Z.ltb_spec 0 dp).
    + replace (zeros (dp - zlen ds)) with (@nil byte) by (unfold zeros; by replace (Z.to_nat (dp - zlen ds)) with 0%nat by lia).
      replace (zeros (- dp)) with (@nil byte) by (unfold zeros; by replace (Z.to_nat (- dp)) with 0%nat by lia). rewrite app_nil_r. cbn [app].
      assert (Hl : (Z.to_nat dp < length ds)%nat) by (unfold zlen in *; lia). exists (take (Z.to_nat dp) ds), (drop (Z.to_nat dp) ds), None.
      assert (Hne : drop (Z.to_nat dp) ds <> []) by (intros E; apply (f_equal length) in E; rewrite length_drop in E; cbn in E; lia). split_and!.
      * constructor; [by apply Forall_take|right|by apply Forall_drop|done]. rewrite Eds. destruct (Z.to_nat dp) eqn:En; [lia|]. by exists c, (take n0 r).
      * unfold num_text. rewrite bool_decide_false by done. cbn [app]. by rewrite app_nil_r.
      * unfold is_float. by rewrite bool_decide_false.
      * rewrite take_drop, Hv, <- Hd. f_equal. cbn [exponent]. unfold zlen. rewrite length_drop. unfold dp, zlen in *. lia.
    + replace (Z.to_nat dp) with 0%nat by lia. rewrite drop_0. exists [x30], (zeros (- dp) ++ ds), None. assert (Hne : zeros (- dp) ++ ds <> []) by (rewrite Eds; by destruct (zeros (- dp))). split_and!.
      * constructor; [constructor; [unfold digit; by change (b2z x30) with 48|done]|by left|apply Forall_app; split; [apply zeros_digit|done]|done].
      * unfold num_text. rewrite bool_decide_false by done. cbn [app]. by rewrite app_nil_r.
      * unfold is_float. by rewrite bool_decide_false.
      * rewrite <- Hd. f_equal; [|cbn [exponent]; rewrite zlen_app, zlen_zeros by lia; unfold dp; lia].
        unfold digits_value, zeros. cbn [app foldl]. rewrite foldl_app, foldl_zeros. exact Hv.
Qed.

Lemma format_mag_text m : 0 <= m < inf_bits -> mag_text m (format_mag m).
Proof.
  intros Hm. unfold format_mag. destruct (Z.eqb_spec m 0) as [->|Hne].
  - exists [x30], [], None. split_and!; try done. constructor; [constructor; [unfold digit; by change (b2z x30) with 48|done]|by left|done|done].
  - destruct (shortest m) as [d k] eqn:E. cbv zeta. destruct (_ || _) eqn:Ee; [eapply fmtE_text|eapply fmtF_text]; try done; lia.
Qed.

(** ** Reading them back *)

Lemma int_text_plain neg ip : Forall digit ip -> existsb (fun c => bool_decide (c ∈ [x65; x45; x2e])) (num_text neg ip [] None) = false.
Proof.
  intros H. apply not_true_is_false. rewrite existsb_exists. intros (c & Hin & Hc%bool_decide_eq_true).
  assert (Hd : c = x2d \/ digit c).
  { unfold num_text in Hin. rewrite bool_decide_true, !app_nil_r in Hin by done. apply in_app_iff in Hin as [Hin|Hin]; [destruct neg; [destruct Hin as [<-|[]]; by left|done]|].
    right. rewrite Forall_forall in H. by apply H, list_elem_of_In. }
  rewrite !elem_of_cons, elem_of_nil in Hc. destruct_or! Hc; subst; destruct Hd as [|Hd]; try done; unfold digit in Hd; vm_compute in Hd; by destruct Hd.
Qed.

Lemma ParseInt_text (neg : bool) ip : num_ok ip [] None -> is_s 64 (if neg then - digits_value ip else digits_value ip) ->
  ParseInt (num_text neg ip [] None) = Some (if neg then - digits_value ip else digits_value ip).
Proof.
  intros [H1 H2 _ _] Hr. assert (E : num_text neg ip [] None = (if neg then [x2d] else []) ++ ip) by (unfold num_text; rewrite bool_decide_true by done; by rewrite !app_nil_r).
  assert (Hd : exists c r, ip = c :: r /\ digit c) by (destruct ip as [|c r]; [destruct H2 as [?|(? & ? & ? & _)]; done|]; exists c, r; split; [done|by inversion H1]).
  destruct Hd as (c & r & -> & Hc). unfold digit in Hc. pose proof (parse_digits_value 0 (c :: r) H1) as HP. rewrite E. unfold is_s in Hr. unfold ParseInt. destruct neg; cbn [app].
  - change (b2z x2d =? 43) with false. change (b2z x2d =? 45) with true. cbv iota. rewrite HP. cbn [mbind option_bind]. change (foldl _ 0 (c :: r)) with (digits_value (c :: r)).
    replace ((_ <=? _) && _) with true by lia. done.
  - destruct (Z.eqb_spec (b2z c) 43); [lia|]. destruct (Z.eqb_spec (b2z c) 45); [lia|]. rewrite HP. cbn [mbind option_bind]. change (foldl _ 0 (c :: r)) with (digits_value (c :: r)).
    replace ((_ <=? _) && _) with true by lia. done.
Qed.

Lemma number_value_int (neg : bool) ip : num_ok ip [] None -> is_s 64 (if neg then - digits_value ip else digits_value ip) ->
  number_value false (num_text neg ip [] None) = Ok (IntValue (if neg then - digits_value ip else digits_value ip)).
Proof. intros Hok Hr. unfold number_value. rewrite int_text_plain, ParseInt_text by (done || apply Hok). done. Qed.

Lemma sign_magnitude b : is_u 64 b -> with_sign (negative b) (magnitude b) = b.
Proof. unfold is_u, with_sign, negative, magnitude, sign_bit. intros H. destruct (Z.leb_spec (2 ^ 63) b); zdm. Qed.

Lemma number_value_float neg ip fp ex m : num_ok ip fp ex -> is_float fp ex = true -> 0 <= m < inf_bits ->
  decimal (digits_value (ip ++ fp)) (exponent ex - zlen fp) = m -> number_value true (num_text neg ip fp ex) = Ok (NumberValue (with_sign neg m)).
Proof.
  intros Hok Hf Hm E. unfold number_value, float_value. cbn [orb]. rewrite ParseFloat_text, E by done. unfold in_range. destruct (Z.eqb_spec m inf_bits); [lia|].
  assert (Hmag : magnitude (with_sign neg m) = m) by (unfold magnitude, with_sign, sign_bit, inf_bits in *; destruct neg; zdm).
  unfold IsInf, IsNaN. rewrite Hmag. destruct (Z.eqb_spec m inf_bits); [lia|]. destruct (Z.ltb_spec inf_bits m); [lia|]. done.
Qed.

Lemma finite_text b : finite b -> FormatFloat b = (if negative b then [x2d] else []) ++ format_mag (magnitude b) /\ 0 <= magnitude b < inf_bits.
Proof.
  intros [Hu Hm]. split; [|unfold magnitude in *; pose proof (Z.mod_pos_bound b (2 ^ 63)); lia]. unfold FormatFloat, IsNaN, IsInf.
  destruct (Z.ltb_spec inf_bits (magnitude b)); [lia|]. destruct (Z.eqb_spec (magnitude b) inf_bits); [lia|]. by destruct (negative b).
Qed.

Lemma num_text_sign (neg : bool) ip fp ex : (if neg then [x2d] else []) ++ num_text false ip fp ex = num_text neg ip fp ex.
Proof. done. Qed.

Lemma printed_float b : finite b -> exists ip fp ex, num_ok ip fp ex /\ FormatFloat b = num_text (negative b) ip fp ex /\
  number_value (is_float fp ex) (FormatFloat b) = Ok (read_back b).
Proof.
  intros Hb. destruct (finite_text b Hb) as [Et Hm]. destruct (format_mag_text _ Hm) as (ip & fp & ex & Hok & E & Hv). exists ip, fp, ex.
  rewrite E, num_text_sign in Et. split_and!; [done..|]. rewrite Et. unfold read_back. destruct (plain (magnitude b)) as [z|].
  - destruct Hv as (-> & -> & <- & Hz). change (10 ^ 6) with 1000000 in Hz. unfold is_float. rewrite bool_decide_true, bool_decide_false by (done || by intros []). cbn [negb orb].
    apply number_value_int; [done|]. unfold is_s. destruct (negative b); lia.
  - destruct Hv as [Hf Hd]. rewrite Hf. rewrite (number_value_float _ _ _ _ (magnitude b)) by done. by rewrite sign_magnitude by apply Hb.
Qed.

Lemma printed_int z : is_s 64 z -> exists ip, num_ok ip [] None /\ FormatInt z = num_text (z <? 0) ip [] None /\ number_value false (FormatInt z) = Ok (IntValue z).
Proof.
  intros Hz. destruct (digits_head (Z.abs z) ltac:(lia)) as (c & r & E & Hc & H0). exists (digits (Z.abs z)).
  assert (Hok : num_ok (digits (Z.abs z)) [] None).
  { constructor; [apply digits_digit| |done|done]. rewrite E. destruct (decide (c = x30)) as [->|]; [left; by rewrite H0|right; by exists c, r]. }
  assert (Et : FormatInt z = num_text (z <? 0) (digits (Z.abs z)) [] None).
  { unfold FormatInt, num_text. rewrite bool_decide_true by done. rewrite !app_nil_r. destruct (Z.ltb_spec z 0); [by rewrite Z.abs_neq by lia|by rewrite Z.abs_eq]. }
  split_and!; [done..|]. assert (Ev : (if z <? 0 then - digits_value (digits (Z.abs z)) else digits_value (digits (Z.abs z))) = z) by (rewrite digits_value_digits by lia; destruct (Z.ltb_spec z 0); lia).
  rewrite Et, number_value_int; [by rewrite Ev|done|by rewrite Ev].
Qed.

(** The first byte of a number. *)
Definition num_start (c : byte) : bool := bool_decide (c = x2d) || is_digit c.
Lemma num_text_start neg ip fp ex : num_ok ip fp ex -> exists c r, num_text neg ip fp ex = c :: r /\ num_start c = true.
Proof.
  intros [H1 H2 _ _]. unfold num_text, num_start. destruct neg; [by exists x2d, (ip ++ num_tail fp ex)|]. destruct H2 as [->|(c & r & -> & _)]; [by exists x30, (num_tail fp ex)|].
  exists c, (r ++ num_tail fp ex). split; [done|]. inversion H1 as [|? ? Hc]; subst. apply is_digit_spec in Hc. rewrite Hc. by rewrite orb_comm.
Qed.

Lemma parse_printed_float i b t : finite b -> stop t = true -> parseNumber (mkParser i (FormatFloat b ++ t)) = Ok (read_back b, mkParser (i + zlen (FormatFloat b)) t).
Proof. intros Hb Ht. destruct (printed_float b Hb) as (ip & fp & ex & Hok & E & Hv). rewrite E in *. rewrite parseNumber_text, Hv by done. done. Qed.
Lemma parse_printed_int i z t : is_s 64 z -> stop t = true -> parseNumber (mkParser i (FormatInt z ++ t)) = Ok (IntValue z, mkParser (i + zlen (FormatInt z)) t).
Proof.
  intros Hb Ht. destruct (printed_int z Hb) as (ip & Hok & E & Hv). rewrite E in *. rewrite parseNumber_text by done.
  unfold is_float. rewrite bool_decide_true, bool_decide_false by (done || by intros []). cbn [negb orb]. by rewrite Hv.
Qed.

End JsonNumber.

(** * Values *)

Import Utf8 JsonNumber.
Set Warnings "-clear-no-such-hyp".

Module JsonRoundTrip.

(** ** Values *)

Lemma field_with_get {A} (f : Value -> A) d k m : field_with f d k m = match get k m with Some v => f v | None => d end.
Proof. induction m as [|[k' v] m IH]; cbn; [done|]. case_bool_decide; [done|exact IH]. Qed.

Section value_ind.
Context (P : Value -> Prop).
Hypotheses (Hs : forall s, P (StringValue s)) (Hn : forall b, P (NumberValue b)) (Hi : forall z, P (IntValue z))
  (Hb : forall b, P (BoolValue b)) (Hnull : P NullValue)
  (Ho : forall ks m, Forall (fun kv => P kv.2) m -> P (ObjectValue ks m)) (Ha : forall els, Forall P els -> P (ArrayValue els)).
Fixpoint Value_nested (v : Value) : P v :=
  match v with
  | StringValue s => Hs s | NumberValue b => Hn b | IntValue z => Hi z | BoolValue b => Hb b | NullValue => Hnull
  | ObjectValue ks m => Ho ks m ((fix go l : Forall (fun kv => P kv.2) l := match l with [] => Forall_nil_2 _ | kv :: l => Forall_cons_2 _ _ _ (Value_nested kv.2) (go l) end) m)
  | ArrayValue els => Ha els ((fix go l : Forall P l := match l with [] => Forall_nil_2 _ | v :: l => Forall_cons_2 _ _ _ (Value_nested v) (go l) end) els)
  end.
End value_ind.

Lemma get_in k m v : get k m = Some v -> (k, v) ∈ m.
Proof. induction m as [|[k' v'] m IH]; cbn; [done|]. case_bool_decide as E; [intros [= ->]; subst; by left|intros H; right; by apply IH]. Qed.
Lemma get_Forall (P : Value -> Prop) k m v : Forall (fun kv => P kv.2) m -> get k m = Some v -> P v.
Proof. intros H Hg%get_in. rewrite Forall_forall in H. exact (H _ Hg). Qed.

Lemma get_put k k' v m : get k (put k' v m) = if bool_decide (k' = k) then Some v else get k m.
Proof.
  induction m as [|[k0 v0] m IH]; cbn; [done|]. repeat case_bool_decide; subst; cbn in *; rewrite ?bool_decide_true, ?bool_decide_false by done; try done.
  all: rewrite IH; rewrite ?bool_decide_true, ?bool_decide_false by done; done.
Qed.

(** ** Strings *)

Definition plain_byte (c : byte) : Prop := c <> x22 /\ c <> x5c.

Lemma body_plain bs fuel sb i s : Forall plain_byte bs ->
  string_body (length bs + fuel) sb (mkParser i (bs ++ s)) = string_body fuel (sb ++ bs) (mkParser (i + zlen bs) s).
Proof.
  intros H. revert sb i. induction H as [|c bs [H1 H2] _ IH]; intros sb i; [cbn; rewrite zlen_nil, Z.add_0_r, app_nil_r; done|].
  cbn [length plus app string_body rest]. rewrite bool_decide_false, bool_decide_true by done. rewrite adv_cons, IH, zlen_cons, <- app_assoc. do 2 f_equal. lia.
Qed.

Lemma high_byte_plain z : 0x80 <= z < 256 -> plain_byte (z2b z).
Proof. intros Hz. assert (E : b2z (z2b z) = z) by (rewrite b2z_z2b; apply Z.mod_small; lia). split; intros H; rewrite H in E; vm_compute in E; lia. Qed.

Lemma EncodeRune_plain c : valid_rune c -> 0x20 <= c -> c <> 34 -> c <> 92 -> Forall plain_byte (EncodeRune c).
Proof.
  intros [Hc Hs] H1 H2 H3. unfold EncodeRune. destruct (Z.ltb_spec c 0); [lia|]. destruct (Z.leb_spec c 0x7F).
  { constructor; [|done]. assert (E : b2z (z2b c) = c) by (rewrite b2z_z2b; apply Z.mod_small; lia). split; intros H4; rewrite H4 in E; vm_compute in E; lia. }
  pose proof (Z.mod_pos_bound c 64 ltac:(lia)). pose proof (Z.mod_pos_bound (c / 64) 64 ltac:(lia)). pose proof (Z.mod_pos_bound (c / 4096) 64 ltac:(lia)).
  rewrite Hs. repeat case_match; rewrite ?Z.leb_le, ?Z.leb_gt in *; unfold encode3; repeat (apply Forall_cons; split); try apply Forall_nil; try done; apply high_byte_plain; try lia; zdm.
Qed.

Lemma hex2_values c : 0 <= c < 0x20 -> exists a b, hex2 c = [a; b] /\ hex_value a = Some (c / 16) /\ hex_value b = Some (c mod 16).
Proof.
  intros Hc. eexists _, _. split; [reflexivity|]. split.
  - destruct (Z.ltb_spec c 16); [replace (c / 16) with 0 by zdm|replace (c / 16) with 1 by zdm]; done.
  - pose proof (Z.mod_pos_bound c 16 ltac:(lia)). set (x := c mod 16) in *. unfold hex_value. destruct (Z.ltb_spec x 10).
    + rewrite b2z_z2b, Z.mod_small by lia. replace (between 48 (48 + x) 57) with true by (symmetry; apply between_spec; lia). f_equal. lia.
    + rewrite b2z_z2b, Z.mod_small by lia. replace (between 48 (87 + x) 57) with false by (unfold between; lia).
      replace (between 97 (87 + x) 102) with true by (symmetry; apply between_spec; lia). f_equal. lia.
Qed.

Lemma hex_step k v i c d s : hex_value c = Some d -> hex_digits (S k) v (mkParser i (c :: s)) = hex_digits k (v * 16 + d) (mkParser (i + 1) s).
Proof. intros E. cbn [hex_digits rest]. by rewrite E. Qed.

Lemma control_escape c i s : 0 <= c < 0x20 -> unescape x75 (mkParser i (x30 :: x30 :: hex2 c ++ s)) = Ok (EncodeRune c, mkParser (i + 4) s).
Proof.
  intros Hc. destruct (hex2_values c Hc) as (a & b & -> & Ha & Hb). cbn [unescape app]. unfold unicode_escape, parseHex4.
  rewrite (hex_step _ _ _ x30 0), (hex_step _ _ _ x30 0), (hex_step _ _ _ a (c / 16)), (hex_step _ _ _ b (c mod 16)) by done. cbn [hex_digits mbind go_bind].
  replace ((((0 * 16 + 0) * 16 + 0) * 16 + c / 16) * 16 + c mod 16) with c by zdm. unfold isHighSurrogate. replace (between 0xD800 c 0xDBFF) with false by (unfold between; lia).
  do 3 f_equal. lia.
Qed.

(** A written rune is read in at least one round. *)
Lemma escape_read c : valid_rune c -> exists n, (1 <= n <= length (escape c))%nat /\ forall fuel sb i s,
  string_body (n + fuel) sb (mkParser i (escape c ++ s)) = string_body fuel (sb ++ EncodeRune c) (mkParser (i + zlen (escape c)) s).
Proof.
  intros Hc. pose proof Hc as [Hr _].
  assert (Hsimple : forall e b, escape c = [x5c; e] -> EncodeRune c = [b] -> (forall p, unescape e p = Ok ([b], p)) ->
    exists n, (1 <= n <= length (escape c))%nat /\ forall fuel sb i s, string_body (n + fuel) sb (mkParser i (escape c ++ s)) = string_body fuel (sb ++ EncodeRune c) (mkParser (i + zlen (escape c)) s)).
  { intros e b E1 E2 E3. exists 1%nat. rewrite E1, E2. split; [cbn; lia|]. intros fuel sb i s. cbn [plus string_body app rest].
    rewrite bool_decide_false by done. rewrite bool_decide_false by (intros []; done). rewrite adv_cons. cbn [rest]. rewrite adv_cons, E3. cbn [mbind go_bind]. do 2 f_equal. unfold zlen. cbn. lia. }
  unfold escape in *.
  destruct (Z.eqb_spec c 34) as [->|N1]; [by apply (Hsimple x22 x22)|]. destruct (Z.eqb_spec c 92) as [->|N2]; [by apply (Hsimple x5c x5c)|].
  destruct (Z.eqb_spec c 8) as [->|N3]; [by apply (Hsimple x62 x08)|]. destruct (Z.eqb_spec c 12) as [->|N4]; [by apply (Hsimple x66 x0c)|].
  destruct (Z.eqb_spec c 10) as [->|N5]; [by apply (Hsimple x6e x0a)|]. destruct (Z.eqb_spec c 13) as [->|N6]; [by apply (Hsimple x72 x0d)|].
  destruct (Z.eqb_spec c 9) as [->|N7]; [by apply (Hsimple x74 x09)|]. destruct (Z.ltb_spec c 0x20) as [Hl|Hl].
  - exists 1%nat. split; [cbn; lia|]. intros fuel sb i s. cbn [plus string_body app rest]. rewrite bool_decide_false by done. rewrite bool_decide_false by (intros []; done).
    rewrite adv_cons. cbn [rest]. rewrite adv_cons. change ((x30 :: x30 :: hex2 c) ++ s) with (x30 :: x30 :: hex2 c ++ s). rewrite control_escape by lia. cbn [mbind go_bind].
    do 2 f_equal. unfold zlen. cbn. lia.
  - exists (length (EncodeRune c)). pose proof (EncodeRune_length c). split; [lia|]. intros fuel sb i s. by apply body_plain, EncodeRune_plain.
Qed.

Lemma body_runes rs fuel sb i t : Forall valid_rune rs -> (length (concat (map escape rs)) < fuel)%nat ->
  string_body fuel sb (mkParser i (concat (map escape rs) ++ x22 :: t)) =
  Ok (sb ++ concat (map EncodeRune rs), mkParser (i + zlen (concat (map escape rs)) + 1) t).
Proof.
  intros H. revert fuel sb i. induction H as [|c rs Hc _ IH]; intros fuel sb i Hf; cbn [map concat app] in *.
  - destruct fuel as [|fuel]; [lia|]. cbn [string_body rest]. rewrite bool_decide_true by done. rewrite adv_cons, app_nil_r, zlen_nil. do 2 f_equal. f_equal. lia.
  - rewrite length_app in Hf. destruct (escape_read c Hc) as (n & Hn & E). replace fuel with (n + (fuel - n))%nat by lia. rewrite <- app_assoc, E, IH by lia.
    rewrite <- app_assoc, zlen_app. do 2 f_equal. f_equal. lia.
Qed.

Lemma parse_printed_string i s t : parseStringLit (mkParser i (appendString s ++ t)) = Ok (to_valid s, mkParser (i + zlen (appendString s)) t).
Proof.
  unfold parseStringLit, appendString, expectCh. cbn [app rest]. rewrite bool_decide_true by done. cbn [mbind go_bind]. rewrite adv_cons. cbn [rest].
  rewrite <- app_assoc. cbn [app]. rewrite body_runes; [|apply runes_valid|rewrite length_app; cbn; lia]. cbn [app]. do 2 f_equal. f_equal. rewrite zlen_cons, zlen_app. unfold zlen. cbn. lia.
Qed.

(** ** Values and their text *)

(** A value that JSON can express: numbers are finite, integers have 64 bits, every key has a value, and every
    field a key and one entry in the map. *)
Fixpoint printable (v : Value) : bool :=
  match v with
  | NumberValue b => (0 <=? b) && (b <? 2 ^ 64) && (Float64.magnitude b <? Float64.inf_bits)
  | IntValue z => (- 2 ^ 63 <=? z) && (z <? 2 ^ 63)
  | ObjectValue ks m => forallb (fun k => field_with printable false k m) ks && (forallb (fun kv => bool_decide (kv.1 ∈ ks)) m && bool_decide (NoDup m.*1))
  | ArrayValue els => forallb printable els
  | _ => true
  end.

(** What a value is read as: malformed bytes are replaced, and a float that is printed as an integer is one. *)
Fixpoint norm (v : Value) : Value :=
  match v with
  | StringValue s => StringValue (to_valid s)
  | NumberValue b => read_back b
  | ObjectValue ks m => ObjectValue (map to_valid ks) (foldl (fun acc k => put (to_valid k) (field_with norm NullValue k m) acc) [] ks)
  | ArrayValue els => ArrayValue (map norm els)
  | v => v
  end.

Definition ws (c : byte) : bool := bool_decide (c = x20 \/ c = x0a \/ c = x0d \/ c = x09).

Lemma skipWS_cons i c s : ws c = false -> skipWS (mkParser i (c :: s)) = mkParser i (c :: s).
Proof. intros H. unfold skipWS. cbn. unfold ws in H. by rewrite H. Qed.
Lemma skipWS_stop i t : stop t = true -> skipWS (mkParser i t) = mkParser i t.
Proof. intros [->|(c & r & -> & H)]%stop_cases; [done|]. apply skipWS_cons. destruct_or! H; by subst. Qed.

(** How the text of a value starts. *)
Definition value_start (c : byte) : bool := negb (ws c) && negb (bool_decide (c ∈ [x5d; x7d])).

Lemma num_start_value c : num_start c = true -> value_start c = true.
Proof. destruct c; done. Qed.

Lemma appendValue_start v : printable v = true -> exists c r, appendValue v = c :: r /\ value_start c = true.
Proof.
  destruct v as [s|b|z|b| |ks m|els]; cbn; intros Hp; try (by eexists _, _); [| |by destruct b; eexists _, _].
  - destruct (printed_float b) as (ip & fp & ex & Hok & E & _); [unfold Float64.finite, is_u; lia|]. destruct (num_text_start (Float64.negative b) ip fp ex Hok) as (c & r & E' & Hc).
    exists c, r. rewrite E, E'. split; [done|by apply num_start_value].
  - destruct (printed_int z) as (ip & Hok & E & _); [unfold is_s; lia|]. destruct (num_text_start (z <? 0) ip [] None Hok) as (c & r & E' & Hc).
    exists c, r. rewrite E, E'. split; [done|by apply num_start_value].
Qed.

Lemma value_start_ws c : value_start c = true -> ws c = false /\ c <> x5d /\ c <> x7d.
Proof. unfold value_start. intros [H1%negb_true_iff H2%negb_true_iff]%andb_prop. apply bool_decide_eq_false in H2. split; [done|]. set_solver. Qed.

(** ** Containers *)

(** [frag] reads the text [s] of [v]. *)
Definition reads (frag : parser -> jres (Value * parser)) (s : bytes) (v : Value) : Prop :=
  forall i t, stop t = true -> frag (mkParser i (s ++ t)) = Ok (v, mkParser (i + zlen s) t).

Lemma commas_cons x y l : commas (x :: y :: l) = x ++ x2c :: commas (y :: l).
Proof. done. Qed.
Lemma commas_length l : (length l <= S (length (commas l)))%nat.
Proof. destruct l as [|x l]; cbn; [lia|]. rewrite length_app. induction l as [|y l IH]; cbn; [lia|]. rewrite length_app. lia. Qed.
Lemma commas_in x l : x ∈ l -> (length x <= length (commas l))%nat.
Proof.
  destruct l as [|y l]; [by intros ?%not_elem_of_nil|]. intros [->|H]%elem_of_cons; cbn; rewrite length_app; [lia|].
  induction l as [|z l IH]; [by apply not_elem_of_nil in H|]. cbn. rewrite length_app. apply elem_of_cons in H as [->|H]; [lia|]. specialize (IH H). lia.
Qed.

Lemma elements_read frag n els l i t : els <> [] -> (length els <= n)%nat ->
  Forall (fun e => reads frag (appendValue e) (norm e) /\ exists c r, appendValue e = c :: r /\ value_start c = true) els ->
  elements frag n l (mkParser i (commas (map appendValue els) ++ x5d :: t)) =
  Ok (ArrayValue (l ++ map norm els), mkParser (i + zlen (commas (map appendValue els)) + 1) t).
Proof.
  intros Hne Hn H. revert n l i Hne Hn. induction H as [|e els (Hr & c & r & Ec & Hs) Hels IH]; intros n l i Hne Hn; [done|].
  destruct n as [|n]; [cbn in Hn; lia|]. cbn [elements map]. apply value_start_ws in Hs as (Hw & _).
  assert (Hskip : forall s, skipWS (mkParser i (appendValue e ++ s)) = mkParser i (appendValue e ++ s)) by (intros s'; rewrite Ec; by apply skipWS_cons).
  destruct els as [|e' els].
  - cbn [map commas concat]. rewrite app_nil_r, Hskip, Hr by done. cbn [mbind go_bind]. rewrite skipWS_stop by done. cbn [peek rest].
    rewrite bool_decide_false, bool_decide_true by done. rewrite adv_cons. done.
  - cbn [map]. rewrite commas_cons, <- app_assoc, Hskip. cbn [app]. rewrite Hr by done. cbn [mbind go_bind]. rewrite skipWS_stop by done. cbn [peek rest].
    rewrite bool_decide_true by done. rewrite adv_cons. change (appendValue e' :: map appendValue els) with (map appendValue (e' :: els)).
    rewrite IH by (done || (cbn in Hn |- *; lia)). rewrite <- app_assoc. do 2 f_equal. f_equal. rewrite zlen_app, zlen_cons. lia.
Qed.

(** The text of a member. *)
Definition member (m : list (bytes * Value)) (k : bytes) : bytes := appendString k ++ x3a :: field_with appendValue [] k m.

Lemma members_read frag n ks keys m acc i t : ks <> [] -> (length ks <= n)%nat ->
  Forall (fun k => reads frag (field_with appendValue [] k m) (field_with norm NullValue k m) /\ exists c r, field_with appendValue [] k m = c :: r /\ value_start c = true) ks ->
  members frag n keys acc (mkParser i (commas (map (member m) ks) ++ x7d :: t)) =
  Ok (ObjectValue (keys ++ map to_valid ks) (foldl (fun acc k => put (to_valid k) (field_with norm NullValue k m) acc) acc ks),
      mkParser (i + zlen (commas (map (member m) ks)) + 1) t).
Proof.
  intros Hne Hn H. revert n keys acc i Hne Hn. induction H as [|k ks (Hr & c & r & Ec & Hs) Hks IH]; intros n keys acc i Hne Hn; [done|].
  destruct n as [|n]; [cbn in Hn; lia|]. cbn [members]. apply value_start_ws in Hs as (Hw & _). set (txt := field_with appendValue [] k m) in *. set (val := field_with norm NullValue k m) in *.
  assert (Hkey : forall s, skipWS (mkParser i (appendString k ++ s)) = mkParser i (appendString k ++ s)) by done.
  assert (Hskip : forall j s, skipWS (mkParser j (txt ++ s)) = mkParser j (txt ++ s)) by (intros j s'; rewrite Ec; by apply skipWS_cons).
  assert (Hcolon : forall j s, (p ← expectCh x3a (skipWS (mkParser j (x3a :: s))); Ok p : jres parser) = Ok (mkParser (j + 1) s)) by done.
  assert (Hstep : forall s, commas (map (member m) (k :: ks)) ++ x7d :: t = appendString k ++ x3a :: txt ++ s -> stop s = true ->
    members frag (S n) keys acc (mkParser i (commas (map (member m) (k :: ks)) ++ x7d :: t)) =
    let p := mkParser (i + zlen (appendString k) + 1 + zlen txt) s in
    if bool_decide (peek p = x2c) then members frag n (keys ++ [to_valid k]) (put (to_valid k) val acc) (adv 1 p)
    else if bool_decide (peek p = x7d) then Ok (ObjectValue (keys ++ [to_valid k]) (put (to_valid k) val acc), adv 1 p) else fail (str "expected , or }")).
  { intros s' E Hs. rewrite E. cbn [members]. rewrite Hkey. rewrite bool_decide_false by (intros []; done). rewrite parse_printed_string. cbn [mbind go_bind].
    change (skipWS (mkParser (i + zlen (appendString k)) (x3a :: txt ++ s'))) with (mkParser (i + zlen (appendString k)) (x3a :: txt ++ s')).
    unfold expectCh. cbn [rest]. rewrite bool_decide_true by done. cbn [mbind go_bind]. rewrite adv_cons, Hskip, Hr by done. cbn [mbind go_bind]. by rewrite skipWS_stop. }
  change (members frag (S n) keys acc (mkParser i (commas (map (member m) (k :: ks)) ++ x7d :: t)) =
    Ok (ObjectValue (keys ++ map to_valid (k :: ks)) (foldl (fun acc k => put (to_valid k) (field_with norm NullValue k m) acc) acc (k :: ks)), mkParser (i + zlen (commas (map (member m) (k :: ks))) + 1) t)).
  destruct ks as [|k' ks].
  - rewrite (Hstep (x7d :: t)); [|cbn; unfold member; by rewrite app_nil_r, <- app_assoc|done]. cbv zeta. cbn [peek rest].
    rewrite bool_decide_false, bool_decide_true by done. rewrite adv_cons. cbn [map commas concat foldl]. unfold member. fold txt. rewrite app_nil_r, zlen_app, zlen_cons. do 2 f_equal. f_equal. lia.
  - rewrite (Hstep (x2c :: commas (map (member m) (k' :: ks)) ++ x7d :: t)); [|cbn [map]; rewrite commas_cons; unfold member at 1; fold txt; by rewrite <- !app_assoc|done].
    cbv zeta. cbn [peek rest]. rewrite bool_decide_true by done. rewrite adv_cons, IH by (done || (cbn in Hn |- *; lia)). cbn [map foldl]. rewrite <- app_assoc.
    do 2 f_equal. f_equal. rewrite commas_cons. set (more := commas (_ :: _)). unfold member. fold txt. rewrite !zlen_app, !zlen_cons. lia.
Qed.

(** ** Whole values *)

Lemma fragment_number f i c s : num_start c = true -> parseValueFragment (S f) (mkParser i (c :: s)) = parseNumber (mkParser i (c :: s)).
Proof. destruct c; (discriminate || reflexivity). Qed.

Lemma has_prefix_literal (lit t : bytes) v i : literal lit v (mkParser i (lit ++ t)) = Ok (v, mkParser (i + zlen lit) t).
Proof. unfold literal, expectLit. cbn [rest]. rewrite has_prefix_app. cbn [mbind go_bind]. unfold adv. cbn [pos rest]. by rewrite drop_app_length. Qed.

Lemma fragment_array f i els t : els <> [] ->
  parseValueFragment (S f) (mkParser i (appendValue (ArrayValue els) ++ t)) =
  (if bool_decide (peek (skipWS (mkParser (i + 1) (commas (map appendValue els) ++ x5d :: t))) = x5d)
   then Ok (ArrayValue [], adv 1 (skipWS (mkParser (i + 1) (commas (map appendValue els) ++ x5d :: t))))
   else elements (parseValueFragment f) (S f) [] (skipWS (mkParser (i + 1) (commas (map appendValue els) ++ x5d :: t)))).
Proof. intros Hne. cbn [appendValue app]. rewrite <- app_assoc. reflexivity. Qed.

Lemma fragment_object f i ks m t :
  parseValueFragment (S f) (mkParser i (appendValue (ObjectValue ks m) ++ t)) =
  (if bool_decide (peek (skipWS (mkParser (i + 1) (commas (map (member m) ks) ++ x7d :: t))) = x7d)
   then Ok (ObjectValue [] [], adv 1 (skipWS (mkParser (i + 1) (commas (map (member m) ks) ++ x7d :: t))))
   else members (parseValueFragment f) (S f) [] [] (skipWS (mkParser (i + 1) (commas (map (member m) ks) ++ x7d :: t)))).
Proof. cbn [appendValue app]. rewrite <- app_assoc. reflexivity. Qed.

Lemma fragment_reads v : printable v = true -> forall fuel, (length (appendValue v) < fuel)%nat -> reads (parseValueFragment fuel) (appendValue v) (norm v).
Proof.
  induction v as [s|b|z|b| |ks m IH|els IH] using Value_nested; intros Hp fuel Hf i t Ht; (destruct fuel as [|f]; [lia|]).
  - cbn [appendValue norm]. change (parseValueFragment (S f) (mkParser i (appendString s ++ t))) with ('(s, p) ← parseStringLit (mkParser i (appendString s ++ t)); Ok (StringValue s, p)).
    by rewrite parse_printed_string.
  - assert (Hb : Float64.finite b) by (cbn in Hp; unfold Float64.finite, is_u; lia). destruct (printed_float b Hb) as (ip & fp & ex & Hok & E & _).
    destruct (num_text_start (Float64.negative b) ip fp ex Hok) as (c & r & E' & Hc). cbn [appendValue norm]. pose proof (parse_printed_float i b t Hb Ht) as HP.
    rewrite E, E' in *. cbn [app] in *. by rewrite fragment_number.
  - assert (Hz : is_s 64 z) by (cbn in Hp; unfold is_s; lia). destruct (printed_int z Hz) as (ip & Hok & E & _).
    destruct (num_text_start (z <? 0) ip [] None Hok) as (c & r & E' & Hc). cbn [appendValue norm]. pose proof (parse_printed_int i z t Hz Ht) as HP.
    rewrite E, E' in *. cbn [app] in *. by rewrite fragment_number.
  - destruct b; [exact (has_prefix_literal (str "true") t (BoolValue true) i)|exact (has_prefix_literal (str "false") t (BoolValue false) i)].
  - exact (has_prefix_literal (str "null") t NullValue i).
  - rewrite fragment_object. cbn [norm]. destruct ks as [|k ks]; [change (Ok (ObjectValue [] [], mkParser (i + 1 + 1) t) = (Ok (ObjectValue [] [], mkParser (i + 2) t) : jres _)); do 3 f_equal; lia|]. pose proof (commas_length (map (member m) (k :: ks))) as HL. rewrite length_map in HL.
    assert (HE : appendValue (ObjectValue (k :: ks) m) = x7b :: commas (map (member m) (k :: ks)) ++ [x7d]) by done.
    rewrite HE in Hf. cbn [length] in Hf. rewrite length_app in Hf. cbn [length] in Hf.
    assert (Hskip : skipWS (mkParser (i + 1) (commas (map (member m) (k :: ks)) ++ x7d :: t)) = mkParser (i + 1) (commas (map (member m) (k :: ks)) ++ x7d :: t)) by done.
    rewrite Hskip. rewrite bool_decide_false by done. rewrite members_read; [|done|cbn in *; lia|].
    + rewrite HE, zlen_cons, zlen_app. cbn [app]. do 3 f_equal. unfold zlen. cbn. lia.
    + cbn [printable] in Hp. apply andb_prop in Hp as [Hp _]. rewrite forallb_forall in Hp. apply Forall_forall. intros k' Hk'. specialize (Hp k' ltac:(by apply list_elem_of_In)). rewrite !field_with_get in *.
      destruct (get k' m) as [v|] eqn:Eg; [|done]. split; [|by apply appendValue_start]. pose proof (get_Forall (fun v => printable v = true -> forall fuel, (length (appendValue v) < fuel)%nat -> reads (parseValueFragment fuel) (appendValue v) (norm v)) k' m v IH Eg Hp) as Hv. apply Hv.
      assert (Hle : (length (member m k') <= length (commas (map (member m) (k :: ks))))%nat) by (apply commas_in, list_elem_of_fmap; by exists k').
      assert (Hm : length (member m k') = (length (appendString k') + S (length (appendValue v)))%nat) by (unfold member; by rewrite length_app, field_with_get, Eg). lia.
  - destruct els as [|e els]; [change (Ok (ArrayValue [], mkParser (i + 1 + 1) t) = (Ok (ArrayValue [], mkParser (i + 2) t) : jres _)); do 3 f_equal; lia|]. rewrite fragment_array by done. cbn [norm]. pose proof (commas_length (map appendValue (e :: els))) as HL. rewrite length_map in HL.
    assert (HE : appendValue (ArrayValue (e :: els)) = x5b :: commas (map appendValue (e :: els)) ++ [x5d]) by done.
    rewrite HE in Hf. cbn [length] in Hf. rewrite length_app in Hf. cbn [length] in Hf. cbn [printable] in Hp. rewrite forallb_forall in Hp.
    destruct (appendValue_start e) as (c & r & Ec & Hs); [apply Hp; by left|]. pose proof (value_start_ws c Hs) as (Hw & Hn & _).
    assert (Hc : exists r', commas (map appendValue (e :: els)) ++ x5d :: t = c :: r') by (cbn [map commas]; rewrite Ec; by eexists). destruct Hc as [r' Hc].
    assert (Hskip : skipWS (mkParser (i + 1) (commas (map appendValue (e :: els)) ++ x5d :: t)) = mkParser (i + 1) (commas (map appendValue (e :: els)) ++ x5d :: t)) by (rewrite Hc; by apply skipWS_cons).
    rewrite Hskip. rewrite bool_decide_false by (by rewrite Hc). rewrite elements_read; [|done|cbn in *; lia|].
    + rewrite HE, zlen_cons, zlen_app. cbn [app]. do 3 f_equal. unfold zlen. cbn. lia.
    + rewrite Forall_forall in *. intros e' He'. specialize (Hp e' ltac:(by apply list_elem_of_In)). split; [|by apply appendValue_start]. apply IH; [done..|].
      assert (Hle : (length (appendValue e') <= length (commas (map appendValue (e :: els))))%nat) by (apply commas_in, list_elem_of_fmap; by exists e'). lia.
Qed.

Lemma print_value v : printable v = true -> ParseValue (ToJSONString v) = Ok (norm v).
Proof.
  intros Hp. unfold ParseValue, ToJSONString, newParser. destruct (appendValue_start v Hp) as (c & r & Ec & Hs). apply value_start_ws in Hs as (Hw & _).
  pose proof (fragment_reads v Hp (S (length (appendValue v))) ltac:(lia) 0 [] eq_refl) as HF. rewrite app_nil_r in HF.
  assert (Hskip : skipWS (mkParser 0 (appendValue v)) = mkParser 0 (appendValue v)) by (rewrite Ec; by apply skipWS_cons).
  rewrite Hskip, HF. done.
Qed.

(** C18. What [ToJSONString] writes for a value, [ParseValue] reads as the value in its normal form. *)
Theorem print_parse v : printable v = true -> ParseValue (ToJSONString v) = Ok (norm v).
Proof. apply print_value. Qed.

(** [{"a":[null,7],"<tab>":"x"}]. *)
Definition demo_value : Value :=
  ObjectValue [str "a"; [x09]] [(str "a", ArrayValue [NullValue; IntValue 7]); ([x09], StringValue (str "x"))].

Lemma print_parse_witness : ParseValue (ToJSONString demo_value) = Ok demo_value.
Proof. apply (print_parse demo_value). reflexivity. Defined.

End JsonRoundTrip.
