(* ===== verification/JsonParser.v ===== *)
(** The JSON parser ends on any text, without panicking, and what it returns can be
    written: integers have 64 bits, floats are finite and every key has a value. *)

From S2P Require Import Prelude Strconv Utf8 Float64 Schema Json JsonRoundTrip.
Import Strconv Utf8 Json JsonNumber JsonRoundTrip.
Set Warnings "-clear-no-such-hyp".

Module JsonParser.

(** The bytes left. *)
Definition left (p : parser) : nat := length (rest p).

#[local] Arguments left : simpl never.
#[local] Arguments adv : simpl never.

(** A call that ends, with a result that satisfies [P] and at most [n] bytes left. *)
Definition ends {A} (P : A -> Prop) (n : nat) (r : jres (A * parser)) : Prop :=
  match r with Ok (a, p) => P a /\ (left p <= n)%nat | Err _ => True | Panic => False end.
Definition moves (n : nat) (r : jres parser) : Prop := match r with Ok p => (left p <= n)%nat | Err _ => True | Panic => False end.

Lemma ends_bind {A B} (P : A -> Prop) (Q : B -> Prop) n k (m : jres (A * parser)) (f : A * parser -> jres (B * parser)) :
  ends P n m -> (forall a p, P a -> (left p <= n)%nat -> ends Q k (f (a, p))) -> ends Q k (m ≫= f).
Proof. destruct m as [[a p]|e|]; cbn; [|done..]. intros [H1 H2] Hf. by apply Hf. Qed.
Lemma moves_bind {B} (Q : B -> Prop) n k (m : jres parser) (f : parser -> jres (B * parser)) :
  moves n m -> (forall p, (left p <= n)%nat -> ends Q k (f p)) -> ends Q k (m ≫= f).
Proof. destruct m as [p|e|]; cbn; [|done..]. intros H Hf. by apply Hf. Qed.
Lemma ends_weaken {A} (P Q : A -> Prop) n k (r : jres (A * parser)) : ends P n r -> (forall a, P a -> Q a) -> (n <= k)%nat -> ends Q k r.
Proof. destruct r as [[a p]|e|]; cbn; [|done..]. intros [H1 H2] H ?. split; [by apply H|lia]. Qed.

(** ** Small steps *)

Lemma left_adv n p : left (adv n p) = (left p - n)%nat.
Proof. unfold left, adv. cbn. by rewrite length_drop. Qed.

Lemma left_skipWS p : (left (skipWS p) <= left p)%nat.
Proof.
  unfold left, skipWS. generalize (pos p). induction (rest p) as [|c s IH]; intros i; cbn [skip_ws]; [done|]. case_bool_decide; [|done]. etrans; [apply IH|]. cbn. lia.
Qed.

Lemma expectCh_moves ch p : moves (left p - 1) (expectCh ch p).
Proof. unfold expectCh. destruct (rest p) as [|c r] eqn:E; [done|]. case_bool_decide; [|done]. unfold moves. by rewrite left_adv. Qed.

Lemma peek_left p c : peek p = c -> c <> x00 -> (1 <= left p)%nat.
Proof. unfold peek, left. destruct (rest p); [by intros <-|cbn; lia]. Qed.

Lemma hex_digits_ends k v p : ends (fun _ => True) (left p) (hex_digits k v p).
Proof.
  revert v p. induction k as [|k IH]; intros v p; cbn; [done|]. destruct (rest p) as [|c r]; [done|]. destruct (hex_value c) as [d|]; [|done].
  eapply ends_weaken; [apply IH|done|]. rewrite left_adv. lia.
Qed.

Lemma unescape_ends e p : ends (fun _ => True) (left p) (unescape e p).
Proof.
  assert (Hs : forall b : bytes, ends (fun _ => True) (left p) (Ok (b, p))) by done.
  assert (Hu : ends (fun _ => True) (left p) (unicode_escape p)).
  { unfold unicode_escape, parseHex4. eapply ends_bind; [apply hex_digits_ends|]. intros ch p' _ Hp. destruct (isHighSurrogate ch); [|done]. destruct (peekUnicodeEscape p') as [low|]; [|done]. destruct (isLowSurrogate low); [|done]. cbn. rewrite left_adv. split; [done|lia]. }
  destruct e; (exact Hu || exact (Hs _) || exact I).
Qed.

Lemma string_body_ends fuel sb p : (left p < fuel)%nat -> ends (fun _ => True) (left p - 1) (string_body fuel sb p).
Proof.
  revert sb p. induction fuel as [|fuel IH]; intros sb p Hf; [lia|]. cbn [string_body]. destruct (rest p) as [|c r] eqn:E; [done|].
  assert (Hl : left p = S (length r)) by (unfold left; by rewrite E). case_bool_decide; [cbn; rewrite left_adv; split; [done|lia]|].
  case_bool_decide; [eapply ends_weaken; [apply IH|done|]; rewrite left_adv; lia|].
  destruct (rest (adv 1 p)) as [|e r'] eqn:E'; [done|]. assert (Hl' : left (adv 1 p) = S (length r')) by (unfold left; by rewrite E'). rewrite left_adv in Hl'.
  eapply ends_bind; [apply unescape_ends|]. intros b p' _ Hp. rewrite !left_adv in Hp. eapply ends_weaken; [apply IH|done|]; lia.
Qed.

Lemma parseStringLit_ends p : ends (fun _ => True) (left p - 1) (parseStringLit p).
Proof.
  unfold parseStringLit. eapply moves_bind; [apply expectCh_moves|]. intros p' Hp. eapply ends_weaken; [apply string_body_ends|done|]; unfold left in *; lia.
Qed.

(** ** Numbers *)

Lemma require_digits_moves p : moves (left p - 1) (require_digits p).
Proof.
  unfold require_digits, skip_digits. destruct (Float64.is_digit (peek p)) eqn:E; [|done]. unfold moves. rewrite left_adv. unfold peek in E.
  destruct (rest p) as [|c r]; [done|]. cbn. rewrite E. destruct (Float64.span_digits r). cbn. lia.
Qed.

Lemma span_digits_digit s : Forall digit (Float64.span_digits s).1.
Proof.
  induction s as [|c s IH]; cbn; [constructor|]. destruct (Float64.is_digit c) eqn:E; [|constructor]. destruct (Float64.span_digits s). constructor; [by apply is_digit_spec|done].
Qed.

Lemma ParseFloat_finite s d : Float64.ParseFloat s = Some d -> Float64.finite d.
Proof.
  assert (H : forall neg ds e, Forall digit ds -> Float64.in_range neg (Float64.decimal (Float64.digits_value ds) e) = Some d -> Float64.finite d).
  { intros neg ds e Hd. unfold Float64.in_range. destruct (Z.eqb_spec (Float64.decimal (Float64.digits_value ds) e) Float64.inf_bits) as [|Hne]; [done|]. intros [= <-].
    assert (Hb : 0 <= Float64.decimal (Float64.digits_value ds) e < Float64.inf_bits).
    { unfold Float64.decimal in *. pose proof (Float64Correct.pow10_pos e) as [P Q]. destruct (Float64.pow10 e) as [p q]. cbn [fst snd] in *.
      pose proof (foldl_digits_ge 0 ds Hd ltac:(lia)) as Hv. destruct (Float64Correct.nearest_in (Float64.digits_value ds * p) q) as [Hn _]; [unfold Float64.digits_value; nia|done|].
      unfold Float64.inf_bits in *. lia. }
    set (m := Float64.decimal _ _) in *. unfold Float64.finite, is_u, Float64.magnitude, Float64.with_sign, Float64.sign_bit, Float64.inf_bits in *. destruct neg; split; zdm. }
  unfold Float64.ParseFloat. destruct (Float64.take_sign s) as [neg s1]. pose proof (span_digits_digit s1) as H1. destruct (Float64.span_digits s1) as [ip s2]. cbn [fst] in H1.
  assert (H2 : Forall digit (match s2 with x2e :: r => Float64.span_digits r | _ => ([], s2) end).1) by (repeat case_match; try constructor; apply span_digits_digit).
  destruct (match s2 with x2e :: r => Float64.span_digits r | _ => ([], s2) end) as [fp s3]. cbn [fst] in H2. assert (H3 : Forall digit (ip ++ fp)) by (by apply Forall_app).
  case_bool_decide; [done|]. destruct s3 as [|c r]; [by apply H|]. case_bool_decide; [|done]. destruct (Float64.take_sign r) as [eneg r1]. destruct (Float64.span_digits r1) as [es r2].
  case_bool_decide; [done|]. by apply H.
Qed.

Lemma finite_printable d : Float64.finite d -> printable (NumberValue d) = true.
Proof. unfold Float64.finite, is_u. cbn. lia. Qed.

Lemma ParseInt_range s z : ParseInt s = Some z -> printable (IntValue z) = true.
Proof.
  unfold ParseInt. destruct (match s with [] => _ | _ => _ end) as [neg ds]. destruct ds; [done|]. destruct (parse_digits 0 _) as [v|]; [|done]. cbn [mbind option_bind printable].
  destruct (_ && _) eqn:E; [|done]. by intros [= <-].
Qed.

Lemma number_value_ok f txt : match number_value f txt with Ok v => printable v = true | Err _ => True | Panic => False end.
Proof.
  unfold number_value, float_value. destruct (_ || _).
  - destruct (Float64.ParseFloat txt) as [d|] eqn:E; [|done]. destruct (_ || _); [done|]. by apply finite_printable, (ParseFloat_finite txt).
  - destruct (ParseInt txt) as [z|] eqn:E; [by apply (ParseInt_range txt)|]. destruct (Float64.ParseFloat txt) as [d|] eqn:E'; [|done]. by apply finite_printable, (ParseFloat_finite txt).
Qed.

Lemma number_frac_ends p : ends (fun _ => True) (left p) (number_frac p).
Proof.
  unfold number_frac. case_bool_decide; [|done]. eapply moves_bind; [apply require_digits_moves|]. intros p' Hp. rewrite left_adv in Hp. split; [done|lia].
Qed.
Lemma number_exp_ends p : ends (fun _ => True) (left p) (number_exp p).
Proof.
  unfold number_exp. case_bool_decide; [|done]. eapply moves_bind; [apply require_digits_moves|]. intros p' Hp. split; [done|]. case_bool_decide; rewrite !left_adv in Hp; lia.
Qed.

Lemma parseNumber_ends p : ends (fun v => printable v = true) (left p - 1) (parseNumber p).
Proof.
  unfold parseNumber. set (p0 := if bool_decide (peek p = x2d) then adv 1 p else p). assert (H0 : (left p0 <= left p)%nat) by (unfold p0; case_match; rewrite ?left_adv; lia).
  eapply moves_bind; [instantiate (1 := (left p - 1)%nat)|].
  - unfold number_int. case_bool_decide; [unfold moves; rewrite left_adv; lia|]. pose proof (require_digits_moves p0) as Hm. destruct (require_digits p0); cbn in *; (done || lia).
  - intros p1 H1. eapply ends_bind; [apply number_frac_ends|]. intros frac p2 _ H2. eapply ends_bind; [apply number_exp_ends|]. intros exp p3 _ H3.
    pose proof (number_value_ok (frac || exp) (take (Z.to_nat (pos p3 - pos p)) (rest p))) as Hv. destruct (number_value _ _); [|done..]. split; [done|lia].
Qed.

(** ** Containers *)

Definition fields_ok (keys : list bytes) (m : list (bytes * Value)) : Prop := printable (ObjectValue keys m) = true.

Lemma put_keys k v m k' : k' ∈ (put k v m).*1 -> k' = k \/ k' ∈ m.*1.
Proof.
  induction m as [|[k0 v0] m IH]; cbn; [set_solver|]. case_bool_decide as E; cbn; rewrite !elem_of_cons; [naive_solver|]. intros [->|H]; [by right; left|]. apply IH in H. naive_solver.
Qed.

Lemma put_NoDup k v m : NoDup m.*1 -> NoDup (put k v m).*1.
Proof.
  induction m as [|[k' v'] m IH]; cbn; [intros _; apply NoDup_singleton|]. intros [Hn H]%NoDup_cons. case_bool_decide as E; cbn; apply NoDup_cons; [by subst|].
  split; [|by apply IH]. intros [->|Hk]%put_keys; done.
Qed.

Lemma object_printable keys m : printable (ObjectValue keys m) = true <->
  (forall k, k ∈ keys -> exists v, get k m = Some v /\ printable v = true) /\ (forall k, k ∈ m.*1 -> k ∈ keys) /\ NoDup m.*1.
Proof.
  cbn [printable]. rewrite !andb_true_iff, !forallb_forall, bool_decide_eq_true. split.
  - intros (H1 & H2 & H3). split_and!; [| |done].
    + intros k Hk. specialize (H1 k ltac:(by apply list_elem_of_In)). rewrite field_with_get in H1. destruct (get k m) as [v|]; [by exists v|done].
    + intros k ([k' v] & -> & Hin)%list_elem_of_fmap. specialize (H2 (k', v) ltac:(by apply list_elem_of_In)). by apply bool_decide_eq_true in H2.
  - intros (H1 & H2 & H3). split_and!; [| |done].
    + intros k Hk%list_elem_of_In. destruct (H1 k Hk) as (v & E & Hv). by rewrite field_with_get, E.
    + intros kv Hin%list_elem_of_In. apply bool_decide_eq_true, H2, list_elem_of_fmap. by exists kv.
Qed.

Lemma fields_ok_put keys m k v : fields_ok keys m -> printable v = true -> fields_ok (keys ++ [k]) (put k v m).
Proof.
  unfold fields_ok. rewrite !object_printable. intros (H1 & H2 & H3) Hv. split_and!; [| |by apply put_NoDup].
  - intros k' Hk'. rewrite get_put. case_bool_decide as E; [by exists v|]. apply elem_of_app in Hk' as [Hk'|Hk']; [by apply H1|]. by apply list_elem_of_singleton in Hk'.
  - intros k' [->|Hk']%put_keys; apply elem_of_app; [right; by left|left; by apply H2].
Qed.

(** [frag] reads values, from texts of up to [n] bytes. *)
Definition reader (frag : parser -> jres (Value * parser)) (n : nat) : Prop :=
  forall p, (left p <= n)%nat -> ends (fun v => printable v = true) (left p - 1) (frag p).

Lemma members_ends frag n keys m p : reader frag (left p) -> fields_ok keys m -> (left p < n)%nat ->
  ends (fun v => printable v = true) (left p - 1) (members frag n keys m p).
Proof.
  intros Hfrag. assert (Hle : (left p <= left p)%nat) by done. revert Hle Hfrag. generalize (left p) at 2 3 as k. intros k Hle Hfrag. revert keys m p Hle. induction n as [|n IH]; intros keys m p Hle Hf Hn; [lia|].
  cbn [members]. pose proof (left_skipWS p) as Hs. case_bool_decide as Hq; [done|].
  assert (Hnz : (1 <= left (skipWS p))%nat) by (apply (peek_left _ x22); [by destruct (decide (peek (skipWS p) = x22))|done]).
  eapply ends_bind; [apply parseStringLit_ends|]. intros key p1 _ H1. eapply moves_bind; [apply expectCh_moves|]. intros p2 H2. pose proof (left_skipWS p1). pose proof (left_skipWS p2).
  eapply ends_bind; [apply Hfrag; lia|]. intros v p3 Hv H3. cbv zeta. pose proof (left_skipWS p3). pose proof (fields_ok_put keys m key v Hf Hv) as Hf'.
  case_bool_decide; [eapply ends_weaken; [apply IH|done|]; rewrite ?left_adv; [lia|done|lia|lia]|]. case_bool_decide; [|done]. cbn. rewrite left_adv. split; [exact Hf'|lia].
Qed.

Lemma elements_ends frag n l p : reader frag (left p) -> Forall (fun v => printable v = true) l -> (left p < n)%nat ->
  ends (fun v => printable v = true) (left p - 1) (elements frag n l p).
Proof.
  intros Hfrag. assert (Hle : (left p <= left p)%nat) by done. revert Hle Hfrag. generalize (left p) at 2 3 as k. intros k Hle Hfrag. revert l p Hle. induction n as [|n IH]; intros l p Hle Hf Hn; [lia|].
  cbn [elements]. pose proof (left_skipWS p) as Hs. eapply ends_bind; [apply Hfrag; lia|]. intros v p3 Hv H3. cbv zeta. pose proof (left_skipWS p3).
  assert (Hf' : Forall (fun v => printable v = true) (l ++ [v])) by (apply Forall_app; split; [done|by constructor]).
  case_bool_decide as Hc.
  - assert (1 <= left (skipWS p3))%nat by (by apply (peek_left _ x2c)). eapply ends_weaken; [apply IH|done|]; rewrite ?left_adv; [lia|done|lia|lia].
  - case_bool_decide as Hd; [|done]. assert (1 <= left (skipWS p3))%nat by (by apply (peek_left _ x5d)). cbn. rewrite left_adv. split; [|lia]. apply forallb_forall. rewrite Forall_forall in Hf'. intros x Hx. by apply Hf', list_elem_of_In.
Qed.

Lemma literal_ends lit v p : lit <> [] -> printable v = true -> ends (fun v => printable v = true) (left p - 1) (literal lit v p).
Proof. intros Hl Hv. unfold literal, expectLit. destruct (has_prefix _ _); [|done]. cbn. rewrite left_adv. split; [done|]. destruct lit; [done|cbn; lia]. Qed.

Lemma fragment_ends fuel p : (left p < fuel)%nat -> ends (fun v => printable v = true) (left p - 1) (parseValueFragment fuel p).
Proof.
  revert p. induction fuel as [|f IH]; intros p Hf; [lia|]. pose proof (left_skipWS p) as Hs. set (q := skipWS p) in *.
  assert (Hfrag : forall k, (k < f)%nat -> reader (parseValueFragment f) k) by (intros k Hk p' Hp; apply IH; lia).
  assert (Hempty : left q = 0%nat -> forall ch, expectCh ch q = fail (str "expected " ++ [ch])) by (unfold left, expectCh; intros E ch; by destruct (rest q)).
  assert (Hobj : ends (fun v => printable v = true) (left q - 1) (parseObject (parseValueFragment f) (S f) q)).
  { unfold parseObject. destruct (decide (left q = 0%nat)) as [E|]; [by rewrite Hempty|]. eapply moves_bind; [apply expectCh_moves|]. intros p1 H1. pose proof (left_skipWS p1). case_bool_decide; [cbn; rewrite left_adv; split; [done|lia]|].
    eapply ends_weaken; [apply members_ends; [apply Hfrag; lia|constructor|lia]|done|lia]. }
  assert (Harr : ends (fun v => printable v = true) (left q - 1) (parseArray (parseValueFragment f) (S f) q)).
  { unfold parseArray. destruct (decide (left q = 0%nat)) as [E|]; [by rewrite Hempty|]. eapply moves_bind; [apply expectCh_moves|]. intros p1 H1. pose proof (left_skipWS p1). case_bool_decide; [cbn; rewrite left_adv; split; [done|lia]|].
    eapply ends_weaken; [apply elements_ends; [apply Hfrag; lia|constructor|lia]|done|lia]. }
  assert (Hstr : ends (fun v => printable v = true) (left q - 1) ('(s, p) ← parseStringLit q; Ok (StringValue s, p))).
  { eapply ends_bind; [apply parseStringLit_ends|]. intros s p1 _ H1. split; [done|lia]. }
  assert (Hnum := parseNumber_ends q). assert (Hlit := fun lit v => literal_ends lit v q).
  apply (ends_weaken (fun v => printable v = true) _ (left q - 1)); [|done|lia]. cbn [parseValueFragment]. fold q.
  destruct (rest q) as [|c r]; [done|]. destruct c; (exact I || exact Hnum || exact Hobj || exact Harr || exact Hstr || by apply Hlit).
Qed.

Lemma parse_outcome s : match ParseValue s with Ok v => printable v = true | Err _ => True | Panic => False end.
Proof.
  unfold ParseValue. pose proof (left_skipWS (newParser s)) as H. assert (Hl : left (newParser s) = length s) by done.
  pose proof (fragment_ends (S (length s)) (skipWS (newParser s)) ltac:(lia)) as HF. destruct (parseValueFragment _ _) as [[v p]|e|]; [|done..].
  cbn. case_bool_decide; [|done]. apply HF.
Qed.
Lemma parsed_printable s v : ParseValue s = Ok v -> printable v = true.
Proof. intros E. pose proof (parse_outcome s) as H. by rewrite E in H. Qed.

(** C19. On any text the parser returns an error or a value that can be written; it never panics or runs forever. *)
Theorem ParseValue_typed s : match ParseValue s with Ok v => printable v = true | Err _ => True | Panic => False end.
Proof. apply parse_outcome. Qed.

End JsonParser.
