(* ===== verification/JsonPath.v ===== *)
(** Paths into JSON values: [json/path.go], [json/api.go] and [json/candidates.go].

    A [range] over a Go map visits its entries in the order that the argument
    [order] gives them. *)

From S2P Require Import Prelude Strconv Utf8 Float64 Schema Json.
Import Strconv Json.

Module JsonPath.

(** ** Paths *)

Inductive pathSeg :=
  | rootSeg
  | fieldSeg (name : bytes)
  | idxSeg (index : Z)
  | wildcardElemSeg
  | wildcardFieldSeg.

Record Path := mkPath { Expression : bytes; segments : list pathSeg }.

Definition is_wildcard (s : pathSeg) : bool := match s with wildcardElemSeg | wildcardFieldSeg => true | _ => false end.
Definition HasWildcards (p : Path) : bool := existsb is_wildcard (segments p).

Definition path_error {A} (msg expr : bytes) : jres A := Err (mkJsonError msg expr).

(** The bytes of a field name: up to the next dot or bracket. *)
Fixpoint span_name (s : bytes) : bytes * bytes :=
  match s with
  | c :: s' => if bool_decide (c = x2e \/ c = x5b) then ([], s) else let '(n, r) := span_name s' in (c :: n, r)
  | [] => ([], [])
  end.

Definition parseNameOrStar (expr s : bytes) : jres (pathSeg * bytes) :=
  match s with
  | x2a :: s => Ok (wildcardFieldSeg, s)
  | _ =>
    let '(name, r) := span_name s in
    if bool_decide (name = []) then path_error (str "field name expected") expr else Ok (fieldSeg name, r)
  end.

(** [strconv.Atoi] of digits, with its value on overflow; the error is dropped. *)
Definition Atoi (ds : bytes) : Z := Z.min (Float64.digits_value ds) (2 ^ 63 - 1).

(** Whether [s] starts with [c]. *)
Definition starts (c : byte) (s : bytes) : bool := bool_decide (hd_error s = Some c).

(** [s] follows the opening bracket. *)
Definition parseBracket (expr s : bytes) : jres (pathSeg * bytes) :=
  if starts x2a s then
    if starts x5d (drop 1 s) then Ok (wildcardElemSeg, drop 2 s) else path_error (str "expected ] after *") expr
  else
    let neg := starts x2d s in
    let '(ds, r) := Float64.span_digits (if neg then drop 1 s else s) in
    if bool_decide (ds = []) then path_error (str "index expected") expr
    else if starts x5d r then Ok (idxSeg (if neg then - Atoi ds else Atoi ds), drop 1 r)
    else path_error (str "expected ]") expr.

(** The loop of [parsePath]; every round takes a byte. *)
Fixpoint path_rest (fuel : nat) (expr : bytes) (out : list pathSeg) (s : bytes) : jres (list pathSeg) :=
  match fuel with
  | O => Panic
  | S fuel =>
    match s with
    | [] => Ok out
    | x2e :: s => '(seg, r) ← parseNameOrStar expr s; path_rest fuel expr (out ++ [seg]) r
    | x5b :: s => '(seg, r) ← parseBracket expr s; path_rest fuel expr (out ++ [seg]) r
    | c :: _ => path_error (str "unexpected '" ++ Utf8.EncodeRune (b2z c) ++ str "'") expr
    end
  end.

Definition parsePath (expr : bytes) : jres (list pathSeg) :=
  match expr with
  | [x24] => Ok [rootSeg]
  | x24 :: x2e :: s => '(seg, r) ← parseNameOrStar expr s; path_rest (S (length r)) expr [rootSeg; seg] r
  | x24 :: _ => path_error (str "expected . after $") expr
  | _ => path_error (str "path must start with $") expr
  end.

(** The cache of compiled paths; [victim] is the entry a full cache gives up. *)
Definition CompilePath (victim : gmap bytes Path -> option bytes) (expression : bytes) (cache : gmap bytes Path) : jres Path * gmap bytes Path :=
  match cache !! expression with
  | Some p => (Ok p, cache)
  | None =>
    match parsePath expression with
    | Ok segs =>
      let p := mkPath expression segs in
      let cache := if (256 <=? Z.of_nat (size cache)) then match victim cache with Some k => delete k cache | None => cache end else cache in
      (Ok p, <[expression := p]> cache)
    | Err e => (Err e, cache)
    | Panic => (Panic, cache)
    end
  end.

Definition CompilePathOrNil (victim : gmap bytes Path -> option bytes) (expression : bytes) (cache : gmap bytes Path) : option Path * gmap bytes Path :=
  let '(r, cache) := CompilePath victim expression cache in (match r with Ok p => Some p | _ => None end, cache).

(** ** Reading *)

Definition normalizeIndex (index len : Z) (expr : bytes) (forGet : bool) : jres Z :=
  if index =? -1 then Ok (if len =? 0 then -1 else len - 1)
  else if index <? -1 then path_error (str "bad array index") expr
  else if negb forGet && (index <? 0) then path_error (str "bad array index") expr
  else Ok index.

(** The element at a normalised index, if there is one. *)
Definition elem_at (els : list Value) (ix : Z) : option Value := if (ix <? 0) || (zlen els <=? ix) then None else els !! Z.to_nat ix.

Fixpoint navigateGet (expr : bytes) (cur : Value) (segs : list pathSeg) : jres (option Value) :=
  match segs with
  | [] => Ok (Some cur)
  | seg :: segs =>
    match seg with
    | rootSeg => Ok None
    | fieldSeg name =>
      match cur with
      | ObjectValue _ m => match get name m with Some next => navigateGet expr next segs | None => Ok None end
      | _ => path_error (str "not object") expr
      end
    | idxSeg index =>
      match cur with
      | ArrayValue els =>
        ix ← normalizeIndex index (zlen els) expr true;
        match elem_at els ix with Some next => navigateGet expr next segs | None => Ok None end
      | _ => path_error (str "not array") expr
      end
    | _ => path_error (str "wildcard in Get") expr
    end
  end.

(** The results of a call per element, up to the first error. *)
Fixpoint collect {A B} (f : A -> jres (list B)) (l : list A) : jres (list B) :=
  match l with [] => Ok [] | x :: l => a ← f x; b ← collect f l; Ok (a ++ b) end.

Definition range_order := list (bytes * Value) -> list (bytes * Value).

Fixpoint collectAll (order : range_order) (expr : bytes) (cur : Value) (segs : list pathSeg) : jres (list Value) :=
  match segs with
  | [] => Ok [cur]
  | seg :: segs =>
    match seg with
    | rootSeg => collectAll order expr cur segs
    | fieldSeg name =>
      match cur with
      | ObjectValue _ m => match get name m with Some next => collectAll order expr next segs | None => Ok [] end
      | _ => path_error (str "not object") expr
      end
    | idxSeg index =>
      match cur with
      | ArrayValue els =>
        ix ← normalizeIndex index (zlen els) expr true;
        match elem_at els ix with Some next => collectAll order expr next segs | None => Ok [] end
      | _ => path_error (str "not array") expr
      end
    | wildcardElemSeg =>
      match cur with
      | ArrayValue els => collect (fun e => collectAll order expr e segs) els
      | _ => path_error (str "not array") expr
      end
    | wildcardFieldSeg =>
      match cur with
      | ObjectValue _ m => collect (fun e => collectAll order expr e.2 segs) (order m)
      | _ => path_error (str "not object") expr
      end
    end
  end.

Definition no_wildcards (p : Path) (name : bytes) : jres unit :=
  if HasWildcards p then path_error (str "wildcards not allowed in " ++ name) (Expression p) else Ok tt.

Definition Get (jsonText : bytes) (path : Path) : jres (option Value) :=
  _ ← no_wildcards path (str "Get");
  root ← ParseValue jsonText;
  navigateGet (Expression path) root (drop 1 (segments path)).

Definition GetString (victim : gmap bytes Path -> option bytes) (jsonText pathExpr : bytes) (cache : gmap bytes Path) : jres (option Value) * gmap bytes Path :=
  let '(r, cache) := CompilePath victim pathExpr cache in (p ← r; Get jsonText p, cache).

Definition GetAll (order : range_order) (jsonText : bytes) (path : Path) : jres (list Value) :=
  root ← ParseValue jsonText;
  if negb (HasWildcards path) then
    v ← navigateGet (Expression path) root (drop 1 (segments path));
    Ok (match v with Some v => [v] | None => [] end)
  else collectAll order (Expression path) root (drop 1 (segments path)).

(** The value a path of one segment or more leads to. *)
Definition target (name jsonText : bytes) (path : Path) : jres (option Value) :=
  _ ← no_wildcards path name;
  root ← ParseValue jsonText;
  if bool_decide (length (segments path) = 1%nat) then Ok (Some root) else navigateGet (Expression path) root (drop 1 (segments path)).

Definition KeysAt (jsonText : bytes) (path : Path) : jres (option (list bytes)) :=
  t ← target (str "Keys") jsonText path;
  match t with
  | None => Ok None
  | Some (ObjectValue ks _) => Ok (Some ks)
  | Some _ => path_error (str "not object") (Expression path)
  end.

Definition jsonTypeName (v : Value) : bytes :=
  match v with
  | StringValue _ => str "string"
  | NumberValue _ | IntValue _ => str "number"
  | BoolValue _ => str "boolean"
  | NullValue => str "null"
  | ObjectValue _ _ => str "object"
  | ArrayValue _ => str "array"
  end.

Definition TypeName (jsonText : bytes) (path : Path) : jres bytes :=
  t ← target (str "TypeName") jsonText path;
  Ok (match t with Some v => jsonTypeName v | None => [] end).

Definition ArrayLength (jsonText : bytes) (path : Path) : jres (option Z) :=
  t ← target (str "ArrayLength") jsonText path;
  match t with
  | None | Some NullValue => Ok None
  | Some (ArrayValue els) => Ok (Some (zlen els))
  | Some _ => path_error (str "not array") (Expression path)
  end.

(** ** Equality *)

Definition numericEquals (a b : Value) : bool :=
  match a, b with
  | IntValue x, NumberValue y => Float64.feq (Float64.of_int x) y
  | NumberValue x, IntValue y => Float64.feq x (Float64.of_int y)
  | _, _ => false
  end.

(** A missing field equals nothing, not even another missing one. *)
Fixpoint deepEqual (a b : Value) : bool :=
  match a, b with
  | StringValue x, StringValue y => bool_decide (x = y)
  | BoolValue x, BoolValue y => Bool.eqb x y
  | NullValue, NullValue => true
  | IntValue x, IntValue y => x =? y
  | NumberValue x, NumberValue y => Float64.feq x y
  | ArrayValue xs, ArrayValue ys =>
    (fix go xs ys := match xs, ys with [], [] => true | x :: xs, y :: ys => deepEqual x y && go xs ys | _, _ => false end) xs ys
  | ObjectValue ks m, ObjectValue ks' m' =>
    (fix go ks ks' :=
      match ks, ks' with
      | [], [] => true
      | k :: ks, k' :: ks' => bool_decide (k = k') && field_with (fun v => field_with (deepEqual v) false k m') false k m && go ks ks'
      | _, _ => false
      end) ks ks'
  | _, _ => numericEquals a b
  end.

Definition DeepEqual (a b : option Value) : bool :=
  match a, b with Some a, Some b => deepEqual a b | None, None => true | _, _ => false end.

Definition Contains (jsonText : bytes) (path : Path) (value : Value) : jres bool :=
  _ ← no_wildcards path (str "Contains");
  root ← ParseValue jsonText;
  t ← navigateGet (Expression path) root (drop 1 (segments path));
  match t with
  | None | Some NullValue => Ok false
  | Some (ArrayValue els) => Ok (existsb (fun el => deepEqual el value) els)
  | Some _ => path_error (str "not array") (Expression path)
  end.

(** ** Writing *)

Definition newObject : Value := ObjectValue [] [].

(** [for len(list) <= ix { list = append(list, NullValue{}) }]. *)
Definition pad (els : list Value) (ix : Z) : list Value := els ++ replicate (Z.to_nat (ix + 1 - zlen els)) NullValue.

Fixpoint jsonSet (expr : bytes) (newVal cur : Value) (segs : list pathSeg) : jres Value :=
  match segs with
  | [] => Panic
  | fieldSeg name :: segs =>
    match cur with
    | ObjectValue keys m =>
      let keys' := match get name m with Some _ => keys | None => keys ++ [name] end in
      if bool_decide (segs = []) then Ok (ObjectValue keys' (put name newVal m))
      else
        updated ← jsonSet expr newVal (default newObject (get name m)) segs;
        Ok (ObjectValue keys' (put name updated m))
    | _ => path_error (str "not object") expr
    end
  | idxSeg index :: segs =>
    match cur with
    | ArrayValue els =>
      ix ← normalizeIndex index (zlen els) expr false;
      if ix <? 0 then path_error (str "bad array index") expr
      else
        let list := pad els ix in
        if bool_decide (segs = []) then Ok (ArrayValue (<[Z.to_nat ix := newVal]> list))
        else
          let old := match list !! Z.to_nat ix with Some NullValue | None => newObject | Some v => v end in
          updated ← jsonSet expr newVal old segs;
          Ok (ArrayValue (<[Z.to_nat ix := updated]> list))
    | _ => path_error (str "not array") expr
    end
  | _ => path_error (str "invalid segment for set") expr
  end.

Definition Set_ (jsonText : bytes) (path : Path) (value : Value) : jres bytes :=
  _ ← no_wildcards path (str "Set");
  root ← ParseValue jsonText;
  match root with
  | ObjectValue _ _ =>
    if (length (segments path) <? 2)%nat then path_error (str "cannot set root") (Expression path)
    else updated ← jsonSet (Expression path) value root (drop 1 (segments path)); Ok (ToJSONString updated)
  | _ => path_error (str "root must be JSON object") (Expression path)
  end.

(** The fields that are left in [keys], each with its value. *)
Definition keep_fields (keys : list bytes) (m : list (bytes * Value)) : list (bytes * Value) :=
  foldl (fun acc k => match get k m with Some v => put k v acc | None => acc end) [] keys.

Fixpoint jsonDelete (expr : bytes) (cur : Value) (segs : list pathSeg) : jres Value :=
  match segs with
  | [] => Panic
  | fieldSeg name :: segs =>
    match cur with
    | ObjectValue keys m =>
      match get name m with
      | None => Ok cur
      | Some child =>
        if bool_decide (segs = []) then
          let keys' := filter (fun k => k <> name) keys in Ok (ObjectValue keys' (keep_fields keys' m))
        else newChild ← jsonDelete expr child segs; Ok (ObjectValue keys (put name newChild m))
      end
    | _ => path_error (str "not object") expr
    end
  | idxSeg index :: segs =>
    match cur with
    | ArrayValue els =>
      ix ← normalizeIndex index (zlen els) expr true;
      match elem_at els ix with
      | None => Ok cur
      | Some child =>
        if bool_decide (segs = []) then Ok (ArrayValue (take (Z.to_nat ix) els ++ drop (S (Z.to_nat ix)) els))
        else updated ← jsonDelete expr child segs; Ok (ArrayValue (<[Z.to_nat ix := updated]> els))
      end
    | _ => path_error (str "not array") expr
    end
  | _ => path_error (str "invalid segment for delete") expr
  end.

Definition Delete (jsonText : bytes) (path : Path) : jres bytes :=
  _ ← no_wildcards path (str "Delete");
  if (length (segments path) <? 2)%nat then Ok jsonText
  else
    root ← ParseValue jsonText;
    updated ← jsonDelete (Expression path) root (drop 1 (segments path));
    Ok (ToJSONString updated).

(** The fields of the patch, in the order of [range], over those of the base. *)
Definition merge_field (acc : list bytes * list (bytes * Value)) (kv : bytes * Value) : list bytes * list (bytes * Value) :=
  (match get kv.1 acc.2 with Some _ => acc.1 | None => acc.1 ++ [kv.1] end, put kv.1 kv.2 acc.2).

Definition Merge (order : range_order) (jsonText patchJSON : bytes) : jres bytes :=
  base ← ParseValue jsonText;
  patch ← ParseValue patchJSON;
  match base, patch with
  | ObjectValue bk bm, ObjectValue _ pm => let '(keys, m) := foldl merge_field (bk, bm) (order pm) in Ok (ToJSONString (ObjectValue keys m))
  | ObjectValue _ _, _ => fail (str "patch must be JSON object")
  | _, _ => fail (str "left must be JSON object")
  end.

(** ** Candidates *)

(** [strings.Split(s, ".")] of a text that is not empty. *)
Fixpoint split_dots (cur s : bytes) : list bytes :=
  match s with
  | [] => [cur]
  | c :: s => if bool_decide (c = x2e) then cur :: split_dots [] s else split_dots (cur ++ [c]) s
  end.
Definition SplitDotted (dotted : bytes) : list bytes := match dotted with [] => [] | _ => split_dots [] dotted end.

Fixpoint CandidatesOf (root : Value) (expandFinal : bool) (segs : list bytes) : list Value :=
  match root, segs with
  | ArrayValue els, [] => if expandFinal then els else [root]
  | _, [] => [root]
  | ObjectValue _ m, k :: segs => field_with (fun next => CandidatesOf next expandFinal segs) [] k m
  | ArrayValue els, _ => concat (map (fun el => CandidatesOf el expandFinal segs) els)
  | _, _ => []
  end.

Definition Candidates (jsonText dotted : bytes) : jres (list Value) :=
  root ← ParseValue jsonText; Ok (CandidatesOf root true (SplitDotted dotted)).
Definition PathValues (jsonText dotted : bytes) : jres (list Value) :=
  root ← ParseValue jsonText; Ok (CandidatesOf root false (SplitDotted dotted)).

End JsonPath.
