(* ===== verification/JsonPathCorrect.v ===== *)
(** What a path was set to is what it reads, and nothing apart from it changes; a
    deleted field is gone; compiled paths are those the cache was asked for. *)

From S2P Require Import Prelude Strconv Utf8 Float64 Schema Json JsonRoundTrip JsonParser JsonPath.
Import Strconv Utf8 Json JsonNumber JsonRoundTrip JsonParser JsonPath.
Set Warnings "-clear-no-such-hyp".

Module JsonPathCorrect.

(** ** Indices *)

Lemma elem_at_ok els ix : 0 <= ix < zlen els -> elem_at els ix = els !! Z.to_nat ix.
Proof. intros H. unfold elem_at. replace ((ix <? 0) || (zlen els <=? ix)) with false by lia. done. Qed.
Lemma elem_at_some els ix v : elem_at els ix = Some v -> 0 <= ix < zlen els /\ els !! Z.to_nat ix = Some v.
Proof. unfold elem_at. destruct (_ || _) eqn:E; [done|]. intros H. split; [lia|done]. Qed.

Lemma pad_length els ix : 0 <= ix -> zlen (pad els ix) = Z.max (zlen els) (ix + 1).
Proof. intros H. unfold pad, zlen. rewrite length_app, length_replicate. lia. Qed.
Lemma pad_old els ix j v : els !! j = Some v -> pad els ix !! j = Some v.
Proof. intros H. unfold pad. by apply lookup_app_l_Some. Qed.
Lemma pad_id els ix : ix < zlen els -> pad els ix = els.
Proof. intros H. unfold pad. replace (Z.to_nat (ix + 1 - zlen els)) with 0%nat by lia. apply app_nil_r. Qed.

(** An index that was normalised to write is normalised to the same to read. *)
Lemma normalize_again index len expr expr' ix : 0 <= len -> normalizeIndex index len expr false = Ok ix -> 0 <= ix ->
  normalizeIndex index (Z.max len (ix + 1)) expr' true = Ok ix /\ normalizeIndex index len expr' true = Ok ix.
Proof.
  intros Hl. unfold normalizeIndex. destruct (Z.eqb_spec index (-1)).
  - destruct (Z.eqb_spec len 0); intros [= <-] H; [lia|]. replace (Z.max len (len - 1 + 1)) with len by lia. destruct (Z.eqb_spec len 0); [lia|done].
  - destruct (Z.ltb_spec index (-1)); [done|]. destruct (Z.ltb_spec index 0); [done|]. cbn. intros [= <-]. done.
Qed.

(** ** Setting *)

Lemma jsonSet_get expr expr' x segs : forall v v', jsonSet expr x v segs = Ok v' -> navigateGet expr' v' segs = Ok (Some x).
Proof.
  induction segs as [|seg segs IH]; intros v v'; cbn [jsonSet]; [done|]. destruct seg as [|name|index| |]; try done.
  - destruct v as [| | | | |keys m|]; try done. case_bool_decide as E.
    + intros [= <-]. subst segs. cbn. by rewrite get_put, bool_decide_true.
    + destruct (jsonSet expr x _ segs) as [u|e|] eqn:Es; [|done..]. cbn. intros [= <-]. cbn. rewrite get_put, bool_decide_true by done. by eapply IH.
  - destruct v as [| | | | | |els]; try done. destruct (normalizeIndex index (zlen els) expr false) as [ix|e|] eqn:En; [|done..]. cbn [mbind go_bind].
    destruct (Z.ltb_spec ix 0) as [|Hix]; [done|]. pose proof (zlen_nonneg els) as Hl. pose proof (pad_length els ix Hix) as Hp.
    destruct (normalize_again index (zlen els) expr expr' ix Hl En Hix) as [E1 _].
    assert (Hget : forall w, navigateGet expr' (ArrayValue (<[Z.to_nat ix := w]> (pad els ix))) (idxSeg index :: segs) = navigateGet expr' w segs).
    { intros w. cbn [navigateGet]. assert (Hz : zlen (<[Z.to_nat ix := w]> (pad els ix)) = zlen (pad els ix)) by (unfold zlen; by rewrite length_insert).
      rewrite Hz, Hp, E1. cbn [mbind go_bind]. rewrite elem_at_ok by lia. rewrite list_lookup_insert_eq by (unfold zlen in *; lia). done. }
    case_bool_decide as E; [intros [= <-]; subst segs; apply Hget|].
    destruct (jsonSet expr x _ segs) as [u|e|] eqn:Es; [|done..]. cbn [mbind go_bind]. intros [= <-]. rewrite Hget. by eapply IH.
Qed.

(** Paths that part at a field name or at an index. *)
Inductive apart : list pathSeg -> list pathSeg -> Prop :=
  | apart_field a b p q : a <> b -> apart (fieldSeg a :: p) (fieldSeg b :: q)
  | apart_index i j p q : 0 <= i -> 0 <= j -> i <> j -> apart (idxSeg i :: p) (idxSeg j :: q)
  | apart_next s p q : apart p q -> apart (s :: p) (s :: q).

Lemma apart_nonempty p q : apart p q -> p <> [] /\ q <> [].
Proof. by destruct 1. Qed.

Lemma navigate_scalar expr v q w : navigateGet expr v q = Ok (Some w) -> q <> [] -> v <> NullValue.
Proof. intros H Hq ->. destruct q as [|[]]; done. Qed.

Lemma normalize_nonneg index len expr g : 0 <= index -> normalizeIndex index len expr g = Ok index.
Proof. intros H. unfold normalizeIndex. destruct (Z.eqb_spec index (-1)); [lia|]. destruct (Z.ltb_spec index (-1)); [lia|]. destruct (Z.ltb_spec index 0); [lia|]. by rewrite andb_false_r. Qed.

Lemma jsonSet_frame expr expr' x p q : apart p q -> forall v v' w, jsonSet expr x v p = Ok v' -> navigateGet expr' v q = Ok (Some w) -> navigateGet expr' v' q = Ok (Some w).
Proof.
  induction 1 as [a b p q Hab|i j p q Hi Hj Hij|s p q Hpq IH]; intros v v' w; cbn [jsonSet].
  - destruct v as [| | | | |keys m|]; try done. intros H Hg. cbn [navigateGet] in *.
    assert (E : exists ks u, v' = ObjectValue ks (put a u m)) by (case_bool_decide; [injection H as <-; by eexists _, _|destruct (jsonSet expr x _ p); [|done..]; injection H as <-; by eexists _, _]).
    destruct E as (ks & u & ->). cbn [navigateGet]. by rewrite get_put, bool_decide_false.
  - destruct v as [| | | | | |els]; try done. rewrite normalize_nonneg by done. cbn [mbind go_bind]. destruct (Z.ltb_spec i 0) as [|_]; [lia|]. intros H Hg. cbn [navigateGet] in Hg.
    rewrite normalize_nonneg in Hg by done. cbn [mbind go_bind] in Hg. destruct (elem_at els j) as [n|] eqn:Ee; [|done]. apply elem_at_some in Ee as [Hjl Ee].
    assert (E : exists u, v' = ArrayValue (<[Z.to_nat i := u]> (pad els i))) by (case_bool_decide; [injection H as <-; by eexists|destruct (jsonSet expr x _ p); [|done..]; injection H as <-; by eexists]).
    destruct E as (u & ->). cbn [navigateGet]. rewrite normalize_nonneg by done. cbn [mbind go_bind].
    assert (Hz : zlen (<[Z.to_nat i := u]> (pad els i)) = Z.max (zlen els) (i + 1)) by (rewrite <- pad_length by done; unfold zlen; by rewrite length_insert).
    rewrite elem_at_ok by lia. rewrite list_lookup_insert_ne by lia. by rewrite (pad_old els i _ n).
  - destruct (apart_nonempty p q Hpq) as [Hp Hq]. rewrite !(bool_decide_false (p = [])) by done. destruct s as [|name|index| |]; try done.
    + destruct v as [| | | | |keys m|]; try done. intros H Hg. cbn [navigateGet] in Hg. destruct (get name m) as [old|] eqn:Eo; [|done]. cbn [default from_option id] in H.
      destruct (jsonSet expr x old p) as [u|e|] eqn:Es; [|done..]. injection H as <-. cbn [navigateGet]. rewrite get_put, bool_decide_true by done. by eapply IH.
    + destruct v as [| | | | | |els]; try done. destruct (normalizeIndex index (zlen els) expr false) as [ix|e|] eqn:En; [|done..]. cbn [mbind go_bind].
      destruct (Z.ltb_spec ix 0) as [|Hix]; [done|]. destruct (normalize_again index (zlen els) expr expr' ix (zlen_nonneg els) En Hix) as [E1 E2]. intros H Hg.
      cbn [navigateGet] in Hg. rewrite E2 in Hg. cbn [mbind go_bind] in Hg. destruct (elem_at els ix) as [old|] eqn:Ee; [|done]. apply elem_at_some in Ee as [Hl Ee].
      rewrite pad_id, Ee in H by lia. pose proof (navigate_scalar _ _ _ _ Hg Hq) as Hn.
      assert (Es : exists u, jsonSet expr x old p = Ok u /\ v' = ArrayValue (<[Z.to_nat ix := u]> els)).
      { destruct old; try done; (destruct (jsonSet expr x _ p) as [u|e|]; [|done..]; injection H as <-; by exists u). }
      destruct Es as (u & Es & ->). cbn [navigateGet]. replace (Z.max (zlen els) (ix + 1)) with (zlen els) in E1 by lia.
      assert (Hz : zlen (<[Z.to_nat ix := u]> els) = zlen els) by (unfold zlen; by rewrite length_insert). rewrite Hz, E1. cbn [mbind go_bind].
      rewrite elem_at_ok by lia. rewrite list_lookup_insert_eq by (unfold zlen in *; lia). by eapply IH.
Qed.

(** A path that reads no value: it leads nowhere, or it is refused. *)
Definition unread expr (v : Value) (q : list pathSeg) : Prop := forall w, navigateGet expr v q <> Ok (Some w).

Lemma unread_new expr q : q <> [] -> unread expr newObject q.
Proof. intros Hq w. by destruct q as [|[]]. Qed.
Lemma read_null expr q w : navigateGet expr NullValue q = Ok (Some w) -> w = NullValue.
Proof. destruct q as [|[]]; [|done..]. by intros [= <-]. Qed.

(** Such a path can come to read only the null that pads an array. *)
Lemma jsonSet_fresh expr expr' x p q : apart p q -> forall v v' w, jsonSet expr x v p = Ok v' -> unread expr' v q -> navigateGet expr' v' q = Ok (Some w) -> w = NullValue.
Proof.
  induction 1 as [a b p q Hab|i j p q Hi Hj Hij|s p q Hpq IH]; intros v v' w; cbn [jsonSet].
  - destruct v as [| | | | |keys m|]; try done. intros H Hu Hg.
    assert (E : exists ks u, v' = ObjectValue ks (put a u m)) by (case_bool_decide; [injection H as <-; by eexists _, _|destruct (jsonSet expr x _ p); [|done..]; injection H as <-; by eexists _, _]).
    destruct E as (ks & u & ->). cbn [navigateGet] in Hg. rewrite get_put, bool_decide_false in Hg by done. by destruct (Hu w).
  - destruct v as [| | | | | |els]; try done. rewrite normalize_nonneg by done. cbn [mbind go_bind]. destruct (Z.ltb_spec i 0) as [|_]; [lia|]. intros H Hu Hg.
    assert (E : exists u, v' = ArrayValue (<[Z.to_nat i := u]> (pad els i))) by (case_bool_decide; [injection H as <-; by eexists|destruct (jsonSet expr x _ p); [|done..]; injection H as <-; by eexists]).
    destruct E as (u & ->). cbn [navigateGet] in Hg. rewrite normalize_nonneg in Hg by done. cbn [mbind go_bind] in Hg. destruct (elem_at _ j) as [n|] eqn:Ee; [|done]. apply elem_at_some in Ee as [_ Ee].
    rewrite list_lookup_insert_ne in Ee by lia. unfold pad in Ee. apply lookup_app_Some in Ee as [Ee|[_ Ee]]; [|apply lookup_replicate in Ee as [-> _]; by apply read_null in Hg].
    destruct (Hu w). cbn [navigateGet]. rewrite normalize_nonneg by done. cbn [mbind go_bind]. apply lookup_lt_Some in Ee as Hlt. rewrite elem_at_ok by (unfold zlen; lia). by rewrite Ee.
  - destruct (apart_nonempty p q Hpq) as [Hp Hq]. rewrite !(bool_decide_false (p = [])) by done. destruct s as [|name|index| |]; try done.
    + destruct v as [| | | | |keys m|]; try done. intros H Hu Hg. destruct (jsonSet expr x _ p) as [u|e|] eqn:Es in H; [|done..]. injection H as <-. cbn [navigateGet] in Hg. rewrite get_put, bool_decide_true in Hg by done.
      eapply IH; [exact Es| |exact Hg]. unfold unread in Hu. cbn [navigateGet] in Hu. destruct (get name m); [exact Hu|by apply unread_new].
    + destruct v as [| | | | | |els]; try done. destruct (normalizeIndex index (zlen els) expr false) as [ix|e|] eqn:En; [|done..]. cbn [mbind go_bind].
      destruct (Z.ltb_spec ix 0) as [|Hix]; [done|]. destruct (normalize_again index (zlen els) expr expr' ix (zlen_nonneg els) En Hix) as [E1 E2]. intros H Hu Hg.
      destruct (jsonSet expr x _ p) as [u|e|] eqn:Es in H; [|done..]. injection H as <-. pose proof (pad_length els ix Hix) as Hz. cbn [navigateGet] in Hg.
      assert (Hz' : zlen (<[Z.to_nat ix := u]> (pad els ix)) = zlen (pad els ix)) by (unfold zlen; by rewrite length_insert). rewrite Hz', Hz, E1 in Hg. cbn [mbind go_bind] in Hg.
      rewrite elem_at_ok in Hg by lia. rewrite list_lookup_insert_eq in Hg by (unfold zlen in *; lia). eapply IH; [exact Es| |exact Hg].
      unfold unread in Hu. cbn [navigateGet] in Hu. rewrite E2 in Hu. cbn [mbind go_bind] in Hu. destruct (pad els ix !! Z.to_nat ix) as [old|] eqn:Eo; [|by apply unread_new].
      unfold pad in Eo. apply lookup_app_Some in Eo as [Eo|[_ Eo]]; [|apply lookup_replicate in Eo as [-> _]; by apply unread_new].
      apply lookup_lt_Some in Eo as Hlt. rewrite elem_at_ok, Eo in Hu by (unfold zlen; lia). destruct old; try exact Hu. by apply unread_new.
Qed.

(** ** Deleting *)

Lemma get_keep k keys m : get k (keep_fields keys m) = if bool_decide (k ∈ keys) then get k m else None.
Proof.
  unfold keep_fields. assert (H : forall acc, get k (foldl (fun acc k => match get k m with Some v => put k v acc | None => acc end) acc keys) =
    if bool_decide (k ∈ keys) then match get k m with Some v => Some v | None => get k acc end else get k acc).
  { induction keys as [|k' keys IH]; intros acc; cbn [foldl]; [by rewrite bool_decide_false by set_solver|]. rewrite IH. destruct (decide (k = k')) as [->|Hne].
    - rewrite (bool_decide_true (k' ∈ k' :: keys)) by set_solver. destruct (get k' m) as [v|]; [rewrite get_put, (bool_decide_true (k' = k')) by done|]; by case_bool_decide.
    - assert (E : get k (match get k' m with Some v => put k' v acc | None => acc end) = get k acc) by (destruct (get k' m); [by rewrite get_put, bool_decide_false|done]).
      rewrite E. destruct (decide (k ∈ keys)); [rewrite !bool_decide_true by set_solver|rewrite !bool_decide_false by set_solver]; done. }
  rewrite H. cbn. repeat case_match; done.
Qed.

Definition ends_in_field (p : list pathSeg) : Prop := exists p0 name, p = p0 ++ [fieldSeg name].

Lemma ends_in_field_next s p : p <> [] -> ends_in_field (s :: p) -> ends_in_field p.
Proof. intros Hp (p0 & name & E). destruct p0 as [|s' p0]; [by injection E as _ ->|]. injection E as _ ->. by exists p0, name. Qed.

Lemma jsonDelete_gone expr expr' p : forall v v', ends_in_field p -> jsonDelete expr v p = Ok v' -> navigateGet expr' v' p = Ok None.
Proof.
  induction p as [|seg p IH]; intros v v' Hf; [done|]. cbn [jsonDelete]. destruct seg as [|name|index| |]; try done.
  - destruct v as [| | | | |keys m|]; try done. destruct (get name m) as [child|] eqn:Ec; [|intros [= <-]; cbn; by rewrite Ec]. case_bool_decide as E.
    + intros [= <-]. cbn. rewrite get_keep, bool_decide_false; [done|]. rewrite list_elem_of_filter. naive_solver.
    + destruct (jsonDelete expr child p) as [u|e|] eqn:Es; [|done..]. cbn. intros [= <-]. cbn. rewrite get_put, bool_decide_true by done. eapply IH; [|done]. by eapply ends_in_field_next.
  - assert (Hp : p <> []) by (destruct Hf as (p0 & name & E); intros ->; destruct p0 as [|? [|]]; done).
    destruct v as [| | | | | |els]; try done. destruct (normalizeIndex index (zlen els) expr true) as [ix|e|] eqn:En; [|done..]. cbn [mbind go_bind].
    assert (En' : normalizeIndex index (zlen els) expr' true = Ok ix) by (revert En; unfold normalizeIndex; destruct (index =? -1); [done|]; destruct (index <? -1); [done|]; destruct (_ && _); done).
    destruct (elem_at els ix) as [child|] eqn:Ee; [|intros [= <-]; cbn; rewrite En'; cbn; by rewrite Ee]. apply elem_at_some in Ee as [Hl Ee]. rewrite bool_decide_false by done.
    destruct (jsonDelete expr child p) as [u|e|] eqn:Es; [|done..]. cbn [mbind go_bind]. intros [= <-]. cbn [navigateGet].
    assert (Hz : zlen (<[Z.to_nat ix := u]> els) = zlen els) by (unfold zlen; by rewrite length_insert). rewrite Hz, En'. cbn [mbind go_bind].
    rewrite elem_at_ok by lia. rewrite list_lookup_insert_eq by (unfold zlen in *; lia). eapply IH; [|done]. by eapply ends_in_field_next.
Qed.

(** ** Texts *)

(** Every string and key is well-formed UTF-8. *)
Fixpoint clean (v : Value) : bool :=
  match v with
  | StringValue s => valid s
  | ObjectValue ks m => forallb valid ks && forallb (fun kv => clean kv.2) m
  | ArrayValue els => forallb clean els
  | _ => true
  end.
Definition clean_seg (s : pathSeg) : bool := match s with fieldSeg name => valid name | _ => true end.

Definition both (v : Value) : Prop := printable v = true /\ clean v = true.

Lemma get_clean k m v : forallb (fun kv => clean kv.2) m = true -> get k m = Some v -> clean v = true.
Proof. intros H Hg%get_in. rewrite forallb_forall in H. apply (H (k, v)). by apply list_elem_of_In. Qed.

Lemma both_object ks m : both (ObjectValue ks m) <->
  (forall k, k ∈ ks -> valid k = true /\ exists v, get k m = Some v /\ printable v = true) /\ (forall k, k ∈ m.*1 -> k ∈ ks) /\ forallb (fun kv => clean kv.2) m = true /\ NoDup m.*1.
Proof.
  unfold both. rewrite object_printable. cbn [clean]. rewrite andb_true_iff, forallb_forall. split.
  - intros [(H1 & H2 & H5) [H3 H4]]. split_and!; [|done..]. intros k Hk. split; [by apply H3, list_elem_of_In|by apply H1].
  - intros (H1 & H2 & H3 & H5). split_and!; [by intros k Hk; apply H1|done|done| |done]. intros k Hk%list_elem_of_In. by apply H1.
Qed.

Lemma get_none k m : get k m = None <-> k ∉ m.*1.
Proof.
  induction m as [|[k' v] m IH]; cbn; [split; [intros _; apply not_elem_of_nil|done]|]. rewrite not_elem_of_cons. case_bool_decide as E; [split; [done|naive_solver]|]. fold (get k m). rewrite IH. naive_solver.
Qed.

Lemma both_get ks m k v : both (ObjectValue ks m) -> get k m = Some v -> both v.
Proof.
  rewrite both_object. intros (H1 & H2 & H3 & _) Hg. assert (Hk : k ∈ ks) by (apply H2; destruct (decide (k ∈ m.*1)) as [|Hn]; [done|]; apply get_none in Hn; congruence).
  destruct (H1 k Hk) as (_ & v' & E & Hp). rewrite Hg in E. injection E as <-. split; [done|by eapply get_clean].
Qed.

Lemma forallb_clean_put k v m : forallb (fun kv => clean kv.2) m = true -> clean v = true -> forallb (fun kv => clean kv.2) (put k v m) = true.
Proof. intros H Hv. induction m as [|[k' v'] m IH]; cbn in *; [by rewrite Hv|]. apply andb_prop in H as [H1 H2]. case_bool_decide; cbn; rewrite ?Hv, ?H1; [done|]. by apply IH. Qed.

Lemma both_put ks m k v : both (ObjectValue ks m) -> valid k = true -> both v -> both (ObjectValue (match get k m with Some _ => ks | None => ks ++ [k] end) (put k v m)).
Proof.
  rewrite !both_object. intros (H1 & H2 & H3 & H4) Hk [Hp Hc]. split_and!; [| |by apply forallb_clean_put|by apply put_NoDup].
  - intros k' Hk'. rewrite get_put. case_bool_decide as E; [subst; by eauto|]. apply H1. destruct (get k m); [done|]. apply elem_of_app in Hk' as [?|Hk']; [done|]. by apply list_elem_of_singleton in Hk'.
  - intros k' [->|Hk']%put_keys; [|destruct (get k m); [by apply H2|apply elem_of_app; left; by apply H2]].
    destruct (get k m) as [w|] eqn:E; [|apply elem_of_app; right; by left]. apply H2. destruct (decide (k ∈ m.*1)) as [|Hn]; [done|]. apply get_none in Hn. congruence.
Qed.

Lemma both_array els : both (ArrayValue els) <-> Forall both els.
Proof. unfold both. cbn. rewrite !forallb_forall, Forall_forall. split; [intros [H1 H2] x Hx; split; [apply H1|apply H2]; by apply list_elem_of_In|]. intros H. split; intros x Hx%list_elem_of_In; by apply H. Qed.

Lemma both_pad els ix : both (ArrayValue els) -> Forall both (pad els ix).
Proof. rewrite both_array. intros H. apply Forall_app. split; [done|]. by apply Forall_replicate. Qed.

Lemma jsonSet_both expr x segs : both x -> forallb clean_seg segs = true -> forall v v', both v -> jsonSet expr x v segs = Ok v' -> both v'.
Proof.
  intros Hx. induction segs as [|seg segs IH]; intros Hs v v' Hv; cbn [jsonSet]; [done|]. cbn in Hs. apply andb_prop in Hs as [Hs Hss]. specialize (IH Hss).
  assert (Hnew : both newObject) by done. destruct seg as [|name|index| |]; try done.
  - destruct v as [| | | | |keys m|]; try done. case_bool_decide as E; [intros [= <-]; by apply both_put|].
    destruct (jsonSet expr x _ segs) as [u|e|] eqn:Es; [|done..]. cbn. intros [= <-]. apply both_put; [done..|]. eapply IH; [|exact Es].
    destruct (get name m) as [old|] eqn:Eo; [exact (both_get _ _ _ _ Hv Eo)|done].
  - destruct v as [| | | | | |els]; try done. destruct (normalizeIndex index (zlen els) expr false) as [ix|e|]; [|done..]. cbn [mbind go_bind]. destruct (ix <? 0); [done|].
    pose proof (both_pad els ix Hv) as Hp. case_bool_decide as E; [intros [= <-]; apply both_array; by apply Forall_insert|].
    destruct (jsonSet expr x _ segs) as [u|e|] eqn:Es; [|done..]. cbn. intros [= <-]. apply both_array, Forall_insert; [done|]. eapply IH; [|exact Es].
    destruct (pad els ix !! Z.to_nat ix) as [old|] eqn:Eo; [|done]. rewrite Forall_lookup in Hp. specialize (Hp _ _ Eo). by destruct old.
Qed.

Lemma get_fold_put (f : bytes -> bytes) (g : bytes -> Value) ks acc k : (forall k, k ∈ ks -> f k = k) ->
  get k (foldl (fun acc k => put (f k) (g k) acc) acc ks) = if bool_decide (k ∈ ks) then Some (g k) else get k acc.
Proof.
  revert acc. induction ks as [|k' ks IH]; intros acc Hf; cbn [foldl]; [by rewrite bool_decide_false by set_solver|]. rewrite IH by (intros; apply Hf; set_solver). rewrite (Hf k') by set_solver.
  rewrite get_put. destruct (decide (k ∈ ks)) as [Hin|Hn]; [rewrite !bool_decide_true by set_solver; done|]. rewrite (bool_decide_false (k ∈ ks)) by done.
  destruct (decide (k = k')) as [->|Hne]; [rewrite !bool_decide_true by set_solver; done|rewrite !bool_decide_false by set_solver; done].
Qed.

Lemma get_norm ks m k : both (ObjectValue ks m) ->
  get k (foldl (fun acc k => put (to_valid k) (field_with norm NullValue k m) acc) [] ks) = norm <$> get k m.
Proof.
  intros H. apply both_object in H as (H1 & H2 & _). rewrite get_fold_put by (intros k' Hk'; apply valid_spec, H1; done). case_bool_decide as E.
  - destruct (H1 k E) as (_ & v & Eg & _). by rewrite field_with_get, Eg.
  - destruct (get k m) as [v|] eqn:Eg; [|done]. destruct E. apply H2. destruct (decide (k ∈ m.*1)) as [|Hn]; [done|]. apply get_none in Hn. congruence.
Qed.

(** Reading a path commutes with the normal form. *)
Lemma navigate_norm expr segs : forall v, both v -> navigateGet expr (norm v) segs = (r ← navigateGet expr v segs; Ok (option_map norm r)).
Proof.
  induction segs as [|seg segs IH]; intros v Hv; [done|]. destruct seg as [|name|index| |]; [done| | |done..].
  - destruct v as [s|b|z|b| |ks m|els]; try done; [cbn [norm navigateGet]; unfold read_back; by destruct (plain _)|].
    cbn [norm navigateGet]. rewrite get_norm by done. destruct (get name m) as [next|] eqn:E; [|done]. cbn. apply IH. by eapply both_get.
  - destruct v as [s|b|z|b| |ks m|els]; try done; [cbn [norm navigateGet]; unfold read_back; by destruct (plain _)|].
    cbn [norm navigateGet]. assert (Hz : zlen (map norm els) = zlen els) by (unfold zlen; by rewrite length_map). rewrite Hz.
    destruct (normalizeIndex index (zlen els) expr true) as [ix|e|]; [|done..]. cbn [mbind go_bind]. unfold elem_at. rewrite Hz. destruct (_ || _); [done|].
    rewrite list_lookup_fmap. destruct (els !! Z.to_nat ix) as [next|] eqn:E; [|done]. cbn. apply IH. apply both_array in Hv. rewrite Forall_lookup in Hv. by eapply Hv.
Qed.

(** The path segments after the root. *)
Definition steps_of (p : Path) : list pathSeg := drop 1 (segments p).

Lemma Set_outcome json p x txt : Set_ json p x = Ok txt ->
  HasWildcards p = false /\ exists v v', ParseValue json = Ok v /\ jsonSet (Expression p) x v (steps_of p) = Ok v' /\ txt = ToJSONString v'.
Proof.
  unfold Set_, no_wildcards. destruct (HasWildcards p); [done|]. cbn [mbind go_bind]. destruct (ParseValue json) as [v|e|]; [|done..]. cbn [mbind go_bind].
  destruct v as [| | | | |ks m|]; try done. destruct (length (segments p) <? 2)%nat; [done|]. destruct (jsonSet _ _ _ _) as [v'|e|] eqn:E; [|done..]. cbn. intros [= <-].
  split; [done|]. by exists (ObjectValue ks m), v'.
Qed.

(** C20. On a document in well-formed UTF-8, with a path and a value in it: what [Set] puts at a
    path is what [Get] reads there in the new text, in its normal form.  Along a path that parts
    from it at a field or at two indices from the front, a value that was read before is read
    again, in its normal form; and where no value was read before, none is read but the null
    that pads an array up to the index that was set. *)
Theorem Set_then_Get json p x txt : Set_ json p x = Ok txt -> both x -> forallb clean_seg (steps_of p) = true ->
  (forall v, ParseValue json = Ok v -> clean v = true) ->
  Get txt p = Ok (Some (norm x)) /\
  forall q, apart (steps_of p) (steps_of q) ->
    (forall w, Get json q = Ok (Some w) -> Get txt q = Ok (Some (norm w))) /\
    ((forall w, Get json q <> Ok (Some w)) -> forall w, Get txt q = Ok (Some w) -> w = NullValue).
Proof.
  intros Hset Hx Hp Hc. apply Set_outcome in Hset as (Hw & v & v' & Ev & Es & ->). assert (Hv : both v) by (split; [by eapply parsed_printable|by apply Hc]).
  assert (Hv' : both v') by exact (jsonSet_both _ _ _ Hx Hp _ _ Hv Es). assert (Hparse : ParseValue (ToJSONString v') = Ok (norm v')) by (apply print_value, Hv').
  unfold Get, no_wildcards. fold (steps_of p). rewrite Hw, Hparse. cbn [mbind go_bind]. split.
  - rewrite navigate_norm by done. by rewrite (jsonSet_get _ _ _ _ _ _ Es).
  - intros q Hap. destruct (HasWildcards q); [done|]. cbn [mbind go_bind]. rewrite Ev. cbn [mbind go_bind]. fold (steps_of q). rewrite navigate_norm by done. split.
    + intros w Hq. by rewrite (jsonSet_frame _ _ _ _ _ Hap _ _ _ Es Hq).
    + intros Hu w. destruct (navigateGet (Expression q) v' (steps_of q)) as [[w'|]|e|] eqn:Eq; [|done..]. cbn. intros [= <-]. by rewrite (jsonSet_fresh _ _ _ _ _ Hap _ _ _ Es Hu Eq).
Qed.

Definition demo_path : Path := mkPath (str "$.a[1].b") [rootSeg; fieldSeg (str "a"); idxSeg 1; fieldSeg (str "b")].
Definition demo_other : Path := mkPath (str "$.a[0]") [rootSeg; fieldSeg (str "a"); idxSeg 0].
(** The text [{"a":[true]}]. *)
Definition demo_text : bytes := ToJSONString (ObjectValue [str "a"] [(str "a", ArrayValue [BoolValue true])]).
Definition demo_set : bytes := match Set_ demo_text demo_path (IntValue 7) with Ok t => t | _ => [] end.

(** Setting [$.a[3]] pads [$.a[2]], which read nothing, with a null. *)
Definition demo_far : Path := mkPath (str "$.a[3]") [rootSeg; fieldSeg (str "a"); idxSeg 3].
Definition demo_padded : Path := mkPath (str "$.a[2]") [rootSeg; fieldSeg (str "a"); idxSeg 2].
Definition demo_wide : bytes := match Set_ demo_text demo_far (IntValue 7) with Ok t => t | _ => [] end.

Lemma demo_text_clean v : ParseValue demo_text = Ok v -> clean v = true.
Proof.
  intros E. assert (Ed : ParseValue demo_text = Ok (ObjectValue [str "a"] [(str "a", ArrayValue [BoolValue true])])) by (vm_compute; reflexivity).
  rewrite Ed in E. injection E as <-. reflexivity.
Qed.

Lemma Set_then_Get_witness : (Get demo_set demo_path = Ok (Some (IntValue 7)) /\ Get demo_set demo_other = Ok (Some (BoolValue true))) /\
  Get demo_text demo_padded = Ok None /\ forall w, Get demo_wide demo_padded = Ok (Some w) -> w = NullValue.
Proof.
  assert (Hset : Set_ demo_text demo_path (IntValue 7) = Ok demo_set) by (vm_compute; reflexivity). assert (Hwide : Set_ demo_text demo_far (IntValue 7) = Ok demo_wide) by (vm_compute; reflexivity).
  assert (Hnone : Get demo_text demo_padded = Ok None) by (vm_compute; reflexivity). split.
  - destruct (Set_then_Get demo_text demo_path (IntValue 7) demo_set Hset) as [H1 H2]; [split; reflexivity|reflexivity|exact demo_text_clean|].
    split; [exact H1|]. destruct (H2 demo_other) as [H3 _]; [apply apart_next, apart_index; lia|]. apply (H3 (BoolValue true)). vm_compute. reflexivity.
  - destruct (Set_then_Get demo_text demo_far (IntValue 7) demo_wide Hwide) as [_ H2]; [split; reflexivity|reflexivity|exact demo_text_clean|].
    split; [exact Hnone|]. destruct (H2 demo_padded) as [_ H3]; [apply apart_next, apart_index; lia|]. apply H3. intros w. rewrite Hnone. discriminate.
Defined.

(** ** Deleting from a text *)

Lemma elem_at_both els ix child : both (ArrayValue els) -> elem_at els ix = Some child -> both child.
Proof. rewrite both_array, Forall_lookup. intros H [_ E]%elem_at_some. by eapply H. Qed.

Lemma both_keep keys m name : both (ObjectValue keys m) -> both (ObjectValue (filter (fun k => k <> name) keys) (keep_fields (filter (fun k => k <> name) keys) m)).
Proof.
  rewrite !both_object. intros (H1 & H2 & H3 & _). set (ks := filter _ keys). assert (Hin : forall k, k ∈ ks -> k ∈ keys) by (intros k [_ H]%list_elem_of_filter; done). split_and!.
  - intros k Hk. destruct (H1 k (Hin k Hk)) as (Hv & v & E & Hp). split; [done|]. exists v. by rewrite get_keep, bool_decide_true.
  - intros k Hk. destruct (decide (k ∈ ks)) as [|Hn]; [done|]. exfalso. assert (E : get k (keep_fields ks m) = None) by (by rewrite get_keep, bool_decide_false). by apply get_none in E.
  - unfold keep_fields. assert (Hacc : forallb (fun kv => clean kv.2) (@nil (bytes * Value)) = true) by done. revert Hacc. generalize (@nil (bytes * Value)). clear H1 H2 Hin. induction ks as [|k ks IH]; intros acc Ha; cbn; [done|].
    apply IH. destruct (get k m) as [v|] eqn:E; [|done]. apply forallb_clean_put; [done|]. exact (get_clean k m v H3 E).
  - unfold keep_fields. assert (Hacc : NoDup (@nil (bytes * Value)).*1) by constructor. revert Hacc. generalize (@nil (bytes * Value)). clear H1 H2 Hin. induction ks as [|k ks IH]; intros acc Ha; cbn; [done|].
    apply IH. destruct (get k m); [by apply put_NoDup|done].
Qed.

Lemma both_replace keys m k v old : both (ObjectValue keys m) -> get k m = Some old -> both v -> both (ObjectValue keys (put k v m)).
Proof.
  intros H E Hv. pose proof H as Ho. apply both_object in H as (H1 & H2 & _). assert (Hk : k ∈ keys) by (apply H2; destruct (decide (k ∈ m.*1)) as [|Hn]; [done|]; apply get_none in Hn; congruence).
  pose proof (both_put keys m k v Ho (proj1 (H1 k Hk)) Hv) as Hp. by rewrite E in Hp.
Qed.

Lemma jsonDelete_both expr p : forall v v', both v -> jsonDelete expr v p = Ok v' -> both v'.
Proof.
  induction p as [|seg p IH]; intros v v' Hv; cbn [jsonDelete]; [done|]. destruct seg as [|name|index| |]; try done.
  - destruct v as [| | | | |keys m|]; try done. destruct (get name m) as [child|] eqn:Ec; [|by intros [= <-]]. case_bool_decide; [intros [= <-]; by apply both_keep|].
    destruct (jsonDelete expr child p) as [u|e|] eqn:Es; [|done..]. cbn. intros [= <-]. eapply both_replace; [done..|]. eapply IH; [|done]. by eapply both_get.
  - destruct v as [| | | | | |els]; try done. destruct (normalizeIndex index (zlen els) expr true) as [ix|e|]; [|done..]. cbn [mbind go_bind].
    destruct (elem_at els ix) as [child|] eqn:Ee; [|by intros [= <-]]. pose proof (elem_at_both els ix child Hv Ee) as Hc. apply both_array in Hv. case_bool_decide.
    + intros [= <-]. apply both_array, Forall_app. split; [by apply Forall_take|by apply Forall_drop].
    + destruct (jsonDelete expr child p) as [u|e|] eqn:Es; [|done..]. cbn. intros [= <-]. apply both_array, Forall_insert; [done|]. by eapply IH.
Qed.

Lemma jsonDelete_frame expr expr' p q : apart p q -> ends_in_field p -> forall v v' w, both v -> jsonDelete expr v p = Ok v' ->
  navigateGet expr' v q = Ok (Some w) -> navigateGet expr' v' q = Ok (Some w).
Proof.
  induction 1 as [a b p q Hab|i j p q Hi Hj Hij|s p q Hpq IH]; intros Hf v v' w Hv; cbn [jsonDelete].
  - destruct v as [| | | | |keys m|]; try done. intros H Hg. cbn [navigateGet] in Hg. destruct (get a m) as [child|] eqn:Ea; [|injection H as <-; done]. case_bool_decide.
    + injection H as <-. cbn [navigateGet]. destruct (get b m) as [next|] eqn:Eb; [|done]. rewrite get_keep, bool_decide_true; [by rewrite Eb|].
      apply list_elem_of_filter. split; [done|]. apply both_object in Hv as (_ & H2 & _). apply H2. destruct (decide (b ∈ m.*1)) as [|Hn]; [done|]. apply get_none in Hn. congruence.
    + destruct (jsonDelete expr child p) as [u|e|]; [|done..]. injection H as <-. cbn [navigateGet]. by rewrite get_put, bool_decide_false.
  - assert (Hp : p <> []) by (destruct Hf as (p0 & name & E); intros ->; destruct p0 as [|? [|]]; done).
    destruct v as [| | | | | |els]; try done. rewrite normalize_nonneg by done. cbn [mbind go_bind]. intros H Hg. destruct (elem_at els i) as [child|] eqn:Ee; [|by injection H as <-].
    rewrite bool_decide_false in H by done. destruct (jsonDelete expr child p) as [u|e|]; [|done..]. injection H as <-. cbn [navigateGet] in *. rewrite normalize_nonneg in * by done. cbn [mbind go_bind] in *.
    unfold elem_at in *. rewrite list_lookup_insert_ne by lia. unfold zlen in *. rewrite length_insert. exact Hg.
  - destruct (apart_nonempty p q Hpq) as [Hp Hq]. apply (ends_in_field_next s p Hp) in Hf. specialize (IH Hf). rewrite !(bool_decide_false (p = [])) by done. destruct s as [|name|index| |]; try done.
    + destruct v as [| | | | |keys m|]; try done. intros H Hg. cbn [navigateGet] in Hg. destruct (get name m) as [child|] eqn:Ec; [|done].
      destruct (jsonDelete expr child p) as [u|e|] eqn:Es; [|done..]. injection H as <-. cbn [navigateGet]. rewrite get_put, bool_decide_true by done. eapply IH; [|done..]. by eapply both_get.
    + destruct v as [| | | | | |els]; try done. destruct (normalizeIndex index (zlen els) expr true) as [ix|e|] eqn:En; [|done..]. cbn [mbind go_bind]. intros H Hg. cbn [navigateGet] in *.
      assert (En' : normalizeIndex index (zlen els) expr' true = Ok ix) by (revert En; unfold normalizeIndex; destruct (index =? -1); [done|]; destruct (index <? -1); [done|]; destruct (_ && _); done).
      rewrite En' in Hg. cbn [mbind go_bind] in Hg. destruct (elem_at els ix) as [child|] eqn:Ee; [|done]. pose proof (elem_at_both els ix child Hv Ee) as Hc. apply elem_at_some in Ee as [Hl Ee].
      destruct (jsonDelete expr child p) as [u|e|] eqn:Es; [|done..]. injection H as <-. cbn [navigateGet].
      assert (Hz : zlen (<[Z.to_nat ix := u]> els) = zlen els) by (unfold zlen; by rewrite length_insert). rewrite Hz, En'. cbn [mbind go_bind].
      rewrite elem_at_ok by lia. rewrite list_lookup_insert_eq by (unfold zlen in *; lia). by eapply IH.
Qed.

(** A deleted field is gone from the new text, and a path that parts from it reads what it read before. *)
Theorem Delete_then_Get json p txt : Delete json p = Ok txt -> ends_in_field (steps_of p) -> (forall v, ParseValue json = Ok v -> clean v = true) ->
  Get txt p = Ok None /\ forall q w, apart (steps_of p) (steps_of q) -> Get json q = Ok (Some w) -> Get txt q = Ok (Some (norm w)).
Proof.
  unfold Delete, no_wildcards. destruct (HasWildcards p) eqn:Hw; [done|]. cbn [mbind go_bind]. intros H Hf Hc. destruct (Nat.ltb_spec (length (segments p)) 2) as [Hl|_].
  { destruct Hf as (p0 & name & E). unfold steps_of in E. apply (f_equal length) in E. rewrite length_drop, length_app in E. cbn in E. lia. }
  destruct (ParseValue json) as [v|e|] eqn:Ev; [|done..]. cbn [mbind go_bind] in H. destruct (jsonDelete _ _ _) as [v'|e|] eqn:Es; [|done..]. injection H as <-. fold (steps_of p) in Es.
  assert (Hv : both v) by (split; [by eapply parsed_printable|by apply Hc]). assert (Hv' : both v') by (by eapply jsonDelete_both).
  assert (Hparse : ParseValue (ToJSONString v') = Ok (norm v')) by (apply print_value, Hv'). unfold Get, no_wildcards. fold (steps_of p). rewrite Hw, Hparse. cbn [mbind go_bind]. split.
  - rewrite navigate_norm by done. by rewrite (jsonDelete_gone _ _ _ _ _ Hf Es).
  - intros q w Hap. destruct (HasWildcards q); [done|]. cbn [mbind go_bind]. rewrite Ev. cbn [mbind go_bind]. fold (steps_of q). intros Hq.
    rewrite navigate_norm by done. by rewrite (jsonDelete_frame _ _ _ _ Hap Hf _ _ _ Hv Es Hq).
Qed.

End JsonPathCorrect.
