(* ===== verification/JsonQuery.v ===== *)
(** Queries over JSON values: candidates of a path compose along it, the collector
    of wildcards agrees with the navigator where there are none, and the cache of
    compiled paths is invisible. *)

From S2P Require Import Prelude Strconv Utf8 Float64 Schema Json JsonRoundTrip JsonParser JsonPath.
Import Strconv Utf8 Json JsonNumber JsonRoundTrip JsonPath.
Set Warnings "-clear-no-such-hyp".

Module JsonQuery.

(** ** Candidates *)

Lemma CandidatesOf_array els e k segs : CandidatesOf (ArrayValue els) e (k :: segs) = concat (map (fun el => CandidatesOf el e (k :: segs)) els).
Proof. done. Qed.

Lemma concat_map_concat {A B} (f : A -> list B) (l : list (list A)) : concat (map f (concat l)) = concat (map (fun x => concat (map f x)) l).
Proof. induction l as [|x l IH]; cbn; [done|]. by rewrite map_app, concat_app, IH. Qed.

(** The candidates of a path in two parts are the candidates of its second part in the values of its first, in document order. *)
Theorem CandidatesOf_app v e p q : CandidatesOf v e (p ++ q) = concat (map (fun w => CandidatesOf w e q) (CandidatesOf v false p)).
Proof.
  revert p. induction v as [s|b|z|b| |ks m IH|els IH] using Value_nested; intros p; (destruct p as [|k p]; [cbn [app CandidatesOf map concat]; by rewrite app_nil_r|]); try done.
  - cbn [app CandidatesOf]. rewrite !field_with_get. destruct (get k m) as [next|] eqn:E; [|done].
    apply (get_Forall (fun v => forall p, CandidatesOf v e (p ++ q) = concat (map (fun w => CandidatesOf w e q) (CandidatesOf v false p))) k m next IH E).
  - change ((k :: p) ++ q) with (k :: (p ++ q)). rewrite !CandidatesOf_array, concat_map_concat, map_map. f_equal. apply map_ext_Forall. apply (Forall_impl _ _ _ IH). intros x Hx. apply (Hx (k :: p)).
Qed.

(** Every candidate of an expanding path is an element of an array, or no array, at the end of the path. *)
(** A trailing dot leads to the field whose name is empty. *)
Lemma empty_segment_matches v : Candidates (ToJSONString (ObjectValue [str "a"] [(str "a", ObjectValue [[]] [([], BoolValue v)])])) (str "a.") = Ok [BoolValue v].
Proof. by destruct v; vm_compute. Qed.

Lemma CandidatesOf_expand v p : CandidatesOf v true p = concat (map (fun w => match w with ArrayValue els => els | _ => [w] end) (CandidatesOf v false p)).
Proof. rewrite <- (app_nil_r p) at 1. rewrite CandidatesOf_app. f_equal. apply map_ext. by intros []. Qed.

(** ** Collecting *)

Definition strict (s : pathSeg) : bool := match s with fieldSeg _ | idxSeg _ => true | _ => false end.

(** On a path of fields and indices the collector finds what the navigator finds. *)
Theorem collectAll_navigate order expr segs : forallb strict segs = true -> forall v,
  collectAll order expr v segs = (r ← navigateGet expr v segs; Ok (match r with Some w => [w] | None => [] end)).
Proof.
  induction segs as [|seg segs IH]; intros Hs v; [done|]. cbn in Hs. apply andb_prop in Hs as [Hs Hss]. specialize (IH Hss). destruct seg as [|name|index| |]; try done; cbn [collectAll navigateGet].
  - destruct v; try done. destruct (get name _); [apply IH|done].
  - destruct v; try done. destruct (normalizeIndex _ _ _ _); [|done..]. cbn. destruct (elem_at _ _); [apply IH|done].
Qed.

(** ** Compiled paths *)

(** Every entry is what its expression compiles to, and there are at most 256. *)
Definition cache_ok (cache : gmap bytes Path) : Prop :=
  (forall e p, cache !! e = Some p -> parsePath e = Ok (segments p) /\ Expression p = e) /\ (size cache <= 256)%nat.

Definition compiled (e : bytes) : jres Path := segs ← parsePath e; Ok (mkPath e segs).

(** Compiling gives what parsing gives, whatever is cached, and keeps the cache sound and small. *)
Theorem CompilePath_cached victim e cache : (forall c, c <> ∅ -> exists k, victim c = Some k /\ is_Some (c !! k)) -> cache_ok cache ->
  (CompilePath victim e cache).1 = compiled e /\ cache_ok (CompilePath victim e cache).2.
Proof.
  intros Hv [H1 H2]. unfold CompilePath, compiled. destruct (cache !! e) as [p|] eqn:E.
  - destruct (H1 e p E) as [-> Ex]. cbn. split; [destruct p; cbn in *; by subst|done].
  - destruct (parsePath e) as [segs|x|] eqn:Ep; cbn; [|done..]. split; [done|]. set (c := if 256 <=? Z.of_nat (size cache) then _ else cache).
    assert (Hc : (forall e p, c !! e = Some p -> cache !! e = Some p) /\ (size c <= 255)%nat).
    { unfold c. destruct (Z.leb_spec 256 (Z.of_nat (size cache))) as [Hs|Hs]; [|split; [done|lia]].
      destruct (Hv cache) as (k & -> & Hk); [intros ->; rewrite map_size_empty in Hs; lia|]. split; [by intros e' p' [_ ?]%lookup_delete_Some|].
      rewrite map_size_delete. destruct Hk as [x ->]. lia. }
    destruct Hc as [Hc1 Hc2]. split; [|rewrite map_size_insert; destruct (c !! e); unfold id; lia].
    intros e' p [[<- <-]|[_ Hl]]%lookup_insert_Some; [done|]. by apply H1, Hc1.
Qed.

(** ** The text of a path *)

Definition seg_text (s : pathSeg) : bytes :=
  match s with
  | rootSeg => [x24]
  | fieldSeg name => x2e :: name
  | wildcardFieldSeg => [x2e; x2a]
  | idxSeg i => x5b :: FormatInt i ++ [x5d]
  | wildcardElemSeg => [x5b; x2a; x5d]
  end.

Definition name_ok (n : bytes) : bool := negb (bool_decide (n = [])) && negb (starts x2a n) && forallb (fun c => negb (bool_decide (c = x2e \/ c = x5b))) n.
Definition seg_ok (s : pathSeg) : bool :=
  match s with rootSeg => false | fieldSeg n => name_ok n | idxSeg i => (- 2 ^ 63 <? i) && (i <? 2 ^ 63) | _ => true end.
Definition first_ok (s : pathSeg) : bool := match s with fieldSeg _ | wildcardFieldSeg => true | _ => false end.

Definition path_end (s : bytes) : Prop := s = [] \/ exists c r, s = c :: r /\ (c = x2e \/ c = x5b).

Lemma span_name_app n r : forallb (fun c => negb (bool_decide (c = x2e \/ c = x5b))) n = true -> path_end r -> span_name (n ++ r) = (n, r).
Proof.
  intros Hn Hr. induction n as [|c n IH]; cbn in *.
  - destruct Hr as [->|(c & r' & -> & Hc)]; [done|]. cbn. by rewrite bool_decide_true.
  - apply andb_prop in Hn as [Hc Hn]. apply negb_true_iff in Hc. rewrite Hc, IH by done. done.
Qed.

Lemma path_end_texts segs : forallb seg_ok segs = true -> path_end (concat (map seg_text segs)).
Proof. destruct segs as [|[] segs]; cbn; intros H; try done; [by left|right..]; eexists _, _; (split; [reflexivity|auto]). Qed.

Lemma parseName_text expr n r : name_ok n = true -> path_end r -> parseNameOrStar expr (n ++ r) = Ok (fieldSeg n, r).
Proof.
  unfold name_ok. intros [[H1 H2]%andb_prop H3]%andb_prop Hr. pose proof (span_name_app n r H3 Hr) as E. destruct n as [|c n]; [done|]. unfold parseNameOrStar. cbn [app] in *.
  assert (Hc : c <> x2a) by (intros ->; done). rewrite E, bool_decide_false by done. destruct c; done.
Qed.

Lemma Atoi_digits z : 0 <= z < 2 ^ 63 -> Atoi (digits z) = z.
Proof. intros H. unfold Atoi. rewrite digits_value_digits by lia. lia. Qed.

Lemma starts_same c s : starts c (c :: s) = true.
Proof. by apply bool_decide_eq_true. Qed.
Lemma starts_other c d s : d <> c -> starts c (d :: s) = false.
Proof. intros H. apply bool_decide_eq_false. cbn. congruence. Qed.

Lemma parseIndex_text expr i r : - 2 ^ 63 < i < 2 ^ 63 -> parseBracket expr (FormatInt i ++ x5d :: r) = Ok (idxSeg i, r).
Proof.
  intros Hi. unfold parseBracket, FormatInt. cbv zeta. destruct (Z.ltb_spec i 0) as [Hn|Hn].
  - change ((str "-" ++ digits (- i)) ++ x5d :: r) with (x2d :: digits (- i) ++ x5d :: r). rewrite starts_other, starts_same by done. cbv iota. cbn [skipn]. rewrite drop_0.
    rewrite span_app by (done || apply digits_digit). destruct (digits_head (- i) ltac:(lia)) as (c & ds & E & _). rewrite bool_decide_false by (by rewrite E).
    rewrite starts_same, Atoi_digits by lia. cbn [drop]. do 3 f_equal. lia.
  - destruct (digits_head i Hn) as (c & ds & E & Hc & _). assert (Hd : c <> x2a /\ c <> x2d) by (unfold digit in Hc; split; intros ->; vm_compute in Hc; by destruct Hc). destruct Hd as [Hd1 Hd2].
    assert (Es : forall y, y <> c -> starts y (digits i ++ x5d :: r) = false) by (intros y Hy; rewrite E; apply starts_other; congruence).
    rewrite !Es by congruence. rewrite span_app by (done || apply digits_digit). rewrite bool_decide_false by (by rewrite E). rewrite starts_same, Atoi_digits by lia. done.
Qed.

Lemma path_rest_text expr segs : forallb seg_ok segs = true -> forall fuel out, (length segs < fuel)%nat -> path_rest fuel expr out (concat (map seg_text segs)) = Ok (out ++ segs).
Proof.
  induction segs as [|s segs IH]; intros H fuel out Hf; (destruct fuel as [|fuel]; [lia|]); [cbn; by rewrite app_nil_r|]. cbn in H, Hf. apply andb_prop in H as [Hs H]. specialize (IH H fuel).
  pose proof (path_end_texts segs H) as He. cbn [map concat]. destruct s as [|n|i| |]; [done|..]; cbn [seg_text app path_rest].
  - rewrite parseName_text by done. cbn [mbind go_bind]. rewrite IH by lia. by rewrite <- app_assoc.
  - cbn in Hs. rewrite <- app_assoc. cbn [app]. rewrite parseIndex_text by lia. cbn [mbind go_bind]. rewrite IH by lia. by rewrite <- app_assoc.
  - change (parseBracket expr (x2a :: x5d :: concat (map seg_text segs))) with (Ok (wildcardElemSeg, concat (map seg_text segs)) : jres _). cbn [mbind go_bind]. rewrite IH by lia. by rewrite <- app_assoc.
  - change (parseNameOrStar expr (x2a :: concat (map seg_text segs))) with (Ok (wildcardFieldSeg, concat (map seg_text segs)) : jres _). cbn [mbind go_bind]. rewrite IH by lia. by rewrite <- app_assoc.
Qed.

(** A path that starts with a field is parsed back from its text. *)
Theorem parsePath_text s segs : first_ok s = true -> forallb seg_ok (s :: segs) = true -> parsePath (concat (map seg_text (rootSeg :: s :: segs))) = Ok (rootSeg :: s :: segs).
Proof.
  intros Hf H. cbn in H. apply andb_prop in H as [Hs H]. pose proof (path_end_texts segs H) as He. set (expr := concat _). assert (Hlen : (length segs <= length (concat (map seg_text segs)))%nat).
  { clear -H. induction segs as [|s segs IH]; cbn in *; [lia|]. apply andb_prop in H as [Hs H]. rewrite length_app. specialize (IH H). destruct s; cbn; try lia. }
  assert (Hpath : forall r, expr = x24 :: x2e :: r -> parsePath expr = ('(seg, r) ← parseNameOrStar expr r; path_rest (S (length r)) expr [rootSeg; seg] r)) by (intros r ->; reflexivity).
  destruct s as [|n| | |]; try done.
  - rewrite (Hpath (n ++ concat (map seg_text segs))) by reflexivity. rewrite parseName_text by done. cbn [mbind go_bind]. rewrite path_rest_text by (done || lia). done.
  - rewrite (Hpath (x2a :: concat (map seg_text segs))) by reflexivity. change (parseNameOrStar expr (x2a :: concat (map seg_text segs))) with (Ok (wildcardFieldSeg, concat (map seg_text segs)) : jres _). cbn [mbind go_bind].
    rewrite path_rest_text by (done || lia). done.
Qed.

End JsonQuery.
