(* ===== verification/JsonDiff.v ===== *)
(** The three-way field diff of [json/diff.go]: which fields two sides of a conflict
    changed, and how.  A value that may be absent is an option, as the value and its
    [Present] flag are in the code. *)

From S2P Require Import Prelude Strconv Utf8 Float64 Schema Json JsonRoundTrip JsonParser JsonPath JsonPathCorrect.
Import Utf8 Json JsonNumber JsonRoundTrip JsonParser JsonPathCorrect.

Module JsonDiff.

Inductive change_kind := ChangeLocal | ChangeRemote | ChangeBoth | ChangeSame.

Record FieldChange := mkFieldChange { Path : bytes; Base : option Value; Local : option Value; Remote : option Value; Kind : change_kind }.

(** [sort.Strings]. *)
Definition sort_strings : list bytes -> list bytes := isort (fun a b => negb (bytes_leb b a)).

Fixpoint appendCanonical (v : Value) : bytes :=
  match v with
  | ObjectValue ks m => x7b :: commas (map (fun k => appendString k ++ x3a :: field_with appendCanonical [] k m) (sort_strings ks)) ++ [x7d]
  | ArrayValue els => x5b :: commas (map appendCanonical els) ++ [x5d]
  | v => appendValue v
  end.

Definition CanonicalText (v : Value) : bytes := appendCanonical v.

Definition sameValue (a b : option Value) : bool :=
  match a, b with
  | None, None => true
  | Some a, Some b => bool_decide (CanonicalText a = CanonicalText b)
  | _, _ => false
  end.

Definition classify (base local remote : option Value) : change_kind :=
  let lc := negb (sameValue base local) in
  let rc := negb (sameValue base remote) in
  if lc && rc && sameValue local remote then ChangeSame
  else if lc && rc then ChangeBoth
  else if lc then ChangeLocal
  else ChangeRemote.

(** [strings.ReplaceAll] of one byte. *)
Definition replace_byte (c : byte) (by_ : bytes) (s : bytes) : bytes := concat (map (fun x => if bool_decide (x = c) then by_ else [x]) s).
Definition escapePointer (k : bytes) : bytes := replace_byte x2f (str "~1") (replace_byte x7e (str "~0") k).

(** The keys of [ks] that were not seen, in their order. *)
Definition add_keys (keys ks : list bytes) : list bytes := foldl (fun keys k => if bool_decide (k ∈ keys) then keys else keys ++ [k]) keys ks.
Definition unionKeys (b l r : list bytes) : list bytes := add_keys (add_keys (add_keys [] l) r) b.

Definition emit (path : bytes) (base local remote : option Value) : list FieldChange :=
  [mkFieldChange path base local remote (classify base local remote)].

(** The walk below a local value, and below none. *)
Definition walk_absent (path : bytes) (base remote : option Value) : list FieldChange :=
  if sameValue None remote && sameValue base None then [] else emit path base None remote.
Fixpoint walk_present (path : bytes) (base : option Value) (local : Value) (remote : option Value) {struct local} : list FieldChange :=
  if sameValue (Some local) remote && sameValue base (Some local) then []
  else
    let walk_fields bk bm lk lm rk rm :=
      concat (map (fun k =>
        let path := path ++ x2f :: escapePointer k in
        field_with (fun lv => walk_present path (get k bm) lv (get k rm)) (walk_absent path (get k bm) (get k rm)) k lm)
        (unionKeys bk lk rk)) in
    match local, remote, base with
    | ObjectValue lk lm, Some (ObjectValue rk rm), None => walk_fields [] [] lk lm rk rm
    | ObjectValue lk lm, Some (ObjectValue rk rm), Some (ObjectValue bk bm) => walk_fields bk bm lk lm rk rm
    | _, _, _ => emit path base (Some local) remote
    end.
Definition walkConflict (path : bytes) (base local remote : option Value) : list FieldChange :=
  match local with Some local => walk_present path base local remote | None => walk_absent path base remote end.

Definition DiffConflict (base local remote : option Value) : list FieldChange :=
  isort (fun a b => negb (bytes_leb (Path b) (Path a))) (walkConflict [] base local remote).

(** ** Canonical text *)

(** A value with the keys of every object sorted. *)
Fixpoint canon (v : Value) : Value :=
  match v with
  | ObjectValue ks m => ObjectValue (sort_strings ks) (map (fun kv => (kv.1, canon kv.2)) m)
  | ArrayValue els => ArrayValue (map canon els)
  | v => v
  end.

Lemma sort_strings_perm ks : sort_strings ks ≡ₚ ks.
Proof. apply isort_perm. Qed.
Lemma elem_of_sort_strings k ks : k ∈ sort_strings ks <-> k ∈ ks.
Proof. by rewrite sort_strings_perm. Qed.

Lemma get_map (f : Value -> Value) k m : get k (map (fun kv => (kv.1, f kv.2)) m) = f <$> get k m.
Proof. unfold get. induction m as [|[k' v] m IH]; cbn; [done|]. by case_bool_decide. Qed.

Lemma appendCanonical_canon v : appendCanonical v = appendValue (canon v).
Proof.
  induction v as [s|b|z|b| |ks m IH|els IH] using Value_nested; try done; cbn [appendCanonical appendValue canon].
  - do 3 f_equal. apply map_ext_in. intros k _. do 2 f_equal. rewrite !field_with_get, get_map. destruct (get k m) as [v|] eqn:E; [|done]. cbn.
    exact (get_Forall (fun v => appendCanonical v = appendValue (canon v)) k m v IH E).
  - do 3 f_equal. rewrite map_map. apply map_ext_in. intros e He. rewrite Forall_forall in IH. apply IH. by apply list_elem_of_In.
Qed.

Lemma canon_printable v : printable v = true -> printable (canon v) = true.
Proof.
  induction v as [s|b|z|b| |ks m IH|els IH] using Value_nested; try done; cbn [canon].
  - rewrite !object_printable. intros (H1 & H2 & H3). split_and!; [| |by rewrite <- list_fmap_compose].
    + intros k Hk. rewrite elem_of_sort_strings in Hk. destruct (H1 k Hk) as (v & E & Hp). exists (canon v). rewrite get_map, E. split; [done|].
      by apply (get_Forall (fun v => printable v = true -> printable (canon v) = true) k m v IH E).
    + intros k Hk. apply elem_of_sort_strings, H2. apply list_elem_of_fmap in Hk as ([k0 v0] & -> & Hk). change (k0 ∈ m.*1).
      apply list_elem_of_fmap in Hk as ([k1 v1] & [= -> ->] & Hk). apply list_elem_of_fmap. by exists (k1, v1).
  - cbn. rewrite !forallb_forall. rewrite Forall_forall in IH. intros H x (e & <- & He)%in_map_iff. apply IH; [by apply list_elem_of_In|by apply H].
Qed.

(** Two written values at the head of one text are written alike. *)
Lemma text_cut x y s t : printable x = true -> printable y = true -> stop s = true -> stop t = true ->
  appendValue x ++ s = appendValue y ++ t -> appendValue x = appendValue y /\ s = t.
Proof.
  intros Hx Hy Hs Ht E. set (fuel := S (length (appendValue x) + length (appendValue y))).
  pose proof (fragment_reads x Hx fuel ltac:(lia) 0 s Hs) as Rx. pose proof (fragment_reads y Hy fuel ltac:(lia) 0 t Ht) as Ry. rewrite E, Ry in Rx.
  injection Rx as _ _ ->. by apply app_inv_tail in E.
Qed.
Lemma string_cut k k' s t : valid k = true -> valid k' = true -> appendString k ++ s = appendString k' ++ t -> k = k' /\ s = t.
Proof.
  intros Hk Hk' E. pose proof (parse_printed_string 0 k s) as Rk. pose proof (parse_printed_string 0 k' t) as Rk'. rewrite E, Rk' in Rk.
  apply valid_spec in Hk, Hk'. rewrite Hk, Hk' in Rk. by injection Rk as <- _ <-.
Qed.

Lemma members_cut m m' ks ks' : Forall (fun k => valid k = true /\ exists v, get k m = Some v /\ printable v = true) ks ->
  Forall (fun k => valid k = true /\ exists v, get k m' = Some v /\ printable v = true) ks' ->
  commas (map (member m) ks) ++ [x7d] = commas (map (member m') ks') ++ [x7d] ->
  ks = ks' /\ Forall (fun k => field_with appendValue [] k m = field_with appendValue [] k m') ks.
Proof.
  assert (Htail : forall m k ks, exists t, commas (map (member m) (k :: ks)) ++ [x7d] = appendString k ++ x3a :: field_with appendValue [] k m ++ t /\
    stop t = true /\ t = match ks with [] => [x7d] | _ => x2c :: commas (map (member m) ks) ++ [x7d] end).
  { intros m0 k ks0. exists (match ks0 with [] => [x7d] | _ => x2c :: commas (map (member m0) ks0) ++ [x7d] end).
    destruct ks0 as [|k' ks0]; (split; [|by split]); [cbn; unfold member; by rewrite app_nil_r, <- app_assoc|].
    cbn [map]. rewrite commas_cons. unfold member at 1. by rewrite <- !app_assoc. }
  intros H. revert ks'. induction H as [|k ks (Hk & v & Ev & Hv) _ IH]; intros ks' H' E; destruct H' as [|k' ks' (Hk' & v' & Ev' & Hv') H']; [done| | |].
  - destruct (Htail m' k' ks') as (t & Et & _). rewrite Et in E. done.
  - destruct (Htail m k ks) as (t & Et & _). rewrite Et in E. done.
  - destruct (Htail m k ks) as (t & Et & Hst & Ht). destruct (Htail m' k' ks') as (t' & Et' & Hst' & Ht'). rewrite Et, Et' in E.
    apply string_cut in E as [<- E]; [|done..]. injection E as E. rewrite !field_with_get, Ev, Ev' in E. apply text_cut in E as [E1 E2]; [|done..].
    assert (Hks : ks = ks' /\ Forall (fun k => field_with appendValue [] k m = field_with appendValue [] k m') ks).
    { destruct ks as [|k1 ks], ks' as [|k1' ks']; rewrite Ht, Ht' in E2; try done.
      apply (f_equal tail) in E2. cbn [tail] in E2. exact (IH _ H' E2). }
    destruct Hks as [-> Hf]. split; [done|]. constructor; [by rewrite !field_with_get, Ev, Ev'|done].
Qed.

(** ** Fields *)

Definition child (k : bytes) (v : option Value) : option Value := match v with Some (ObjectValue _ m) => get k m | _ => None end.
Definition fields_of (v : option Value) : list bytes := match v with Some (ObjectValue ks _) => ks | _ => [] end.

(** Both sides hold an object, and the base holds one or nothing. *)
Definition descends (base local remote : option Value) : bool :=
  match local, remote, base with
  | Some (ObjectValue _ _), Some (ObjectValue _ _), (None | Some (ObjectValue _ _)) => true
  | _, _, _ => false
  end.
(** The sides and the base are not all the same. *)
Definition differs (base local remote : option Value) : bool := negb (sameValue local remote && sameValue base local).

Lemma walkConflict_eq path b l r : walkConflict path b l r =
  if differs b l r then
    if descends b l r then concat (map (fun k => walkConflict (path ++ x2f :: escapePointer k) (child k b) (child k l) (child k r)) (unionKeys (fields_of b) (fields_of l) (fields_of r)))
    else emit path b l r
  else [].
Proof.
  unfold differs, walkConflict at 1, walk_absent. destruct l as [l|]; [|by destruct (_ && _)]. destruct l as [s|n|z|f| |lk lm|els]; cbn [walk_present descends]; (destruct (_ && _); [done|]); try done.
  destruct r as [[| | | | |rk rm|]|]; try done. cbn [negb]. destruct b as [[| | | | |bk bm|]|]; try done.
  all: f_equal; apply map_ext; intros k; cbn [child]; rewrite field_with_get; by destruct (get k lm).
Qed.

(** The value of a document, if any, is one that JSON text can hold. *)
Definition doc (v : option Value) : Prop := match v with Some v => both v | None => True end.

Lemma doc_child k v : doc v -> doc (child k v).
Proof. destruct v as [[| | | | |ks m|]|]; try done. intros H. cbn. destruct (get k m) as [w|] eqn:E; [|done]. by eapply both_get. Qed.
Lemma doc_fields k v : doc v -> child k v <> None -> k ∈ fields_of v.
Proof. destruct v as [[| | | | |ks m|]|]; try done. cbn. rewrite both_object. intros (_ & H & _) Hn. apply H. destruct (decide (k ∈ m.*1)) as [|Hk]; [done|]. by apply get_none in Hk. Qed.

Lemma is_object v : (exists ks m, v = ObjectValue ks m) \/ forall k, child k (Some v) = None.
Proof. destruct v; [by right..|left; by eexists _, _|by right]. Qed.
Lemma norm_object v ks m : norm v = ObjectValue ks m -> exists ks' m', v = ObjectValue ks' m'.
Proof. destruct v; try done; [cbn; unfold read_back; by destruct (plain _)|by eexists _, _]. Qed.
Lemma canon_object v ks m : canon v = ObjectValue ks m -> exists ks' m', v = ObjectValue ks' m'.
Proof. destruct v; try done. by eexists _, _. Qed.

(** A value that is written like an object is an object. *)
Lemma same_object v ks m : printable v = true -> printable (ObjectValue ks m) = true -> CanonicalText v = CanonicalText (ObjectValue ks m) -> exists ks' m', v = ObjectValue ks' m'.
Proof.
  unfold CanonicalText. rewrite !appendCanonical_canon. intros H1 H2 E. pose proof (print_value _ (canon_printable _ H1)) as P1. pose proof (print_value _ (canon_printable _ H2)) as P2.
  unfold ToJSONString in *. rewrite E, P2 in P1. injection P1 as P1. cbn [canon norm] in P1. symmetry in P1. apply norm_object in P1 as (? & ? & P1). by eapply canon_object.
Qed.

Lemma same_kind k a b : printable a = true -> printable b = true -> CanonicalText a = CanonicalText b ->
  (exists ks m ks' m', a = ObjectValue ks m /\ b = ObjectValue ks' m') \/ child k (Some a) = None /\ child k (Some b) = None.
Proof.
  intros Ha Hb E. destruct (is_object a) as [(ks & m & ->)|Na].
  { destruct (same_object b ks m Hb Ha (eq_sym E)) as (ks' & m' & ->). left. by eexists _, _, _, _. }
  destruct (is_object b) as [(ks & m & ->)|Nb]; [|by auto]. destruct (same_object a ks m Ha Hb E) as (ks' & m' & ->). left. by eexists _, _, _, _.
Qed.

Lemma sameValue_sym a b : sameValue a b = sameValue b a.
Proof. destruct a, b; try done. cbn. apply bool_decide_ext. naive_solver. Qed.
Lemma sameValue_refl a : sameValue a a = true.
Proof. destruct a; [|done]. cbn. by apply bool_decide_true. Qed.
Lemma sameValue_trans a b c : sameValue a b = true -> sameValue b c = true -> sameValue a c = true.
Proof. destruct a, b, c; try done. cbn. rewrite !bool_decide_eq_true. congruence. Qed.

Lemma sorted_members ks m : both (ObjectValue ks m) ->
  Forall (fun k => valid k = true /\ exists v, get k (map (fun kv => (kv.1, canon kv.2)) m) = Some v /\ printable v = true) (sort_strings ks).
Proof.
  intros (H & _)%both_object. apply Forall_forall. intros k Hk. rewrite elem_of_sort_strings in Hk. destruct (H k Hk) as (Hv & v & Eg & Hp).
  split; [done|]. exists (canon v). rewrite get_map, Eg. split; [done|by apply canon_printable].
Qed.

(** Values that are the same have the same fields. *)
Lemma same_child k a b : doc a -> doc b -> sameValue a b = true -> sameValue (child k a) (child k b) = true.
Proof.
  destruct a as [a|], b as [b|]; try done. cbn [doc sameValue]. rewrite bool_decide_eq_true. intros Ha Hb E.
  assert (Hab : (exists ks m ks' m', a = ObjectValue ks m /\ b = ObjectValue ks' m') \/ child k (Some a) = None /\ child k (Some b) = None) by (apply same_kind; [apply Ha|apply Hb|done]).
  destruct Hab as [(ks & m & ks' & m' & -> & ->)|[-> ->]]; [|done]. pose proof Ha as Ha'. pose proof Hb as Hb'. apply both_object in Ha as (A1 & A2 & _), Hb as (B1 & B2 & _).
  cbn [child]. unfold CanonicalText in E. rewrite !appendCanonical_canon in E. cbn [canon appendValue] in E. injection E as E.
  apply members_cut in E as [Ek Ef]; [|by apply sorted_members..].
  assert (Hin : forall x, x ∈ ks <-> x ∈ ks') by (intros x; by rewrite <- (elem_of_sort_strings x ks), Ek, elem_of_sort_strings).
  destruct (decide (k ∈ ks)) as [Hk|Hk].
  - rewrite Forall_forall in Ef. specialize (Ef k ltac:(by apply elem_of_sort_strings)). rewrite !field_with_get, !get_map in Ef.
    destruct (A1 k Hk) as (_ & v & Eg & _), (B1 k ltac:(by apply Hin)) as (_ & v' & Eg' & _). rewrite Eg, Eg' in *. cbn in *. apply bool_decide_true. unfold CanonicalText. by rewrite !appendCanonical_canon.
  - assert (G : get k m = None /\ get k m' = None). { rewrite !get_none. split; intros H; [by apply A2 in H|]. apply B2 in H. by apply Hin in H. }
    by destruct G as [-> ->].
Qed.

(** ** The walk *)

(** The field that a list of keys leads to. *)
Definition at_keys (ks : list bytes) (v : option Value) : option Value := foldl (fun v k => child k v) v ks.
Definition pointer (ks : list bytes) : bytes := concat (map (fun k => x2f :: escapePointer k) ks).

(** On the way along the keys both sides hold objects. *)
Fixpoint through_objects (ks : list bytes) (base local remote : option Value) : Prop :=
  match ks with
  | [] => True
  | k :: ks => descends base local remote = true /\ through_objects ks (child k base) (child k local) (child k remote)
  end.

(** The change at the end of some keys, when it is one that the walk must report: the values there are not all the
    same, and the walk cannot go further. *)
Definition change_at (ks : list bytes) (base local remote : option Value) : FieldChange :=
  let b := at_keys ks base in let l := at_keys ks local in let r := at_keys ks remote in
  mkFieldChange (pointer ks) b l r (classify b l r).
Definition conflicting (ks : list bytes) (base local remote : option Value) : Prop :=
  through_objects ks base local remote /\ differs (at_keys ks base) (at_keys ks local) (at_keys ks remote) = true /\
  descends (at_keys ks base) (at_keys ks local) (at_keys ks remote) = false.

Lemma differs_child k b l r : doc b -> doc l -> doc r -> differs (child k b) (child k l) (child k r) = true -> differs b l r = true.
Proof.
  intros Hb Hl Hr. unfold differs. rewrite !negb_true_iff, !andb_false_iff. intros [H|H]; [left|right]; (destruct (sameValue _ _) eqn:E in |- *; [|done]); by rewrite same_child in H.
Qed.
Lemma differs_at ks b l r : doc b -> doc l -> doc r -> differs (at_keys ks b) (at_keys ks l) (at_keys ks r) = true -> differs b l r = true.
Proof.
  revert b l r. induction ks as [|k ks IH]; intros b l r Hb Hl Hr H; [done|]. apply (differs_child k); [done..|]. apply IH; [by apply doc_child..|done].
Qed.
Lemma differs_none : differs None None None = false.
Proof. done. Qed.

Lemma elem_of_add_keys k keys ks : k ∈ add_keys keys ks <-> k ∈ keys \/ k ∈ ks.
Proof.
  unfold add_keys. revert keys. induction ks as [|k' ks IH]; intros keys; cbn [foldl]; [set_solver|]. rewrite IH. case_bool_decide; set_solver.
Qed.
Lemma elem_of_unionKeys k b l r : k ∈ unionKeys b l r <-> k ∈ b \/ k ∈ l \/ k ∈ r.
Proof. unfold unionKeys. rewrite !elem_of_add_keys. set_solver. Qed.
Lemma add_keys_NoDup keys ks : NoDup keys -> NoDup (add_keys keys ks).
Proof.
  unfold add_keys. revert keys. induction ks as [|k ks IH]; intros keys H; cbn [foldl]; [done|]. apply IH. case_bool_decide; [done|].
  apply NoDup_app. split_and!; [done|set_solver|apply NoDup_singleton].
Qed.
Lemma unionKeys_NoDup b l r : NoDup (unionKeys b l r).
Proof. unfold unionKeys. do 3 apply add_keys_NoDup. constructor. Qed.

(** A key that is in no side has no field. *)
Lemma key_known k b l r : doc b -> doc l -> doc r -> differs (child k b) (child k l) (child k r) = true -> k ∈ unionKeys (fields_of b) (fields_of l) (fields_of r).
Proof.
  intros Hb Hl Hr H. rewrite elem_of_unionKeys. destruct (child k b) eqn:Eb; [left; apply doc_fields; by rewrite ?Eb|]. destruct (child k l) eqn:El; [right; left; apply doc_fields; by rewrite ?El|].
  destruct (child k r) eqn:Er; [right; right; apply doc_fields; by rewrite ?Er|]. by rewrite differs_none in H.
Qed.

(** Along the keys a walk that starts at [path] finds the change. *)
Definition found (path : bytes) (b l r : option Value) (ks : list bytes) (c : FieldChange) : Prop :=
  conflicting ks b l r /\ Path c = path ++ pointer ks /\ c = mkFieldChange (Path c) (at_keys ks b) (at_keys ks l) (at_keys ks r) (classify (at_keys ks b) (at_keys ks l) (at_keys ks r)).

Lemma found_step path b l r k ks c : found path b l r (k :: ks) c <->
  descends b l r = true /\ found (path ++ x2f :: escapePointer k) (child k b) (child k l) (child k r) ks c.
Proof. unfold found, conflicting. cbn [through_objects at_keys foldl pointer map concat]. fold (pointer ks). rewrite <- app_assoc. tauto. Qed.

Lemma walk_finds ks path b l r c : doc b -> doc l -> doc r -> found path b l r ks c -> c ∈ walkConflict path b l r.
Proof.
  revert path b l r. induction ks as [|k ks IH]; intros path b l r Hb Hl Hr.
  - intros ((_ & Hd & Hn) & Hp & Hc). cbn in Hp, Hc, Hd, Hn. rewrite app_nil_r in Hp. rewrite walkConflict_eq, Hd, Hn. rewrite Hc, Hp. apply list_elem_of_singleton. done.
  - intros [Hd Hf]%found_step. assert (Hdf : differs (child k b) (child k l) (child k r) = true) by (destruct Hf as ((_ & Hdf & _) & _); by apply differs_at in Hdf; [|apply doc_child..]).
    rewrite walkConflict_eq, Hd, (differs_child k b l r) by done. apply elem_of_concat_map. exists k. split; [by apply key_known|]. apply IH; [by apply doc_child..|exact Hf].
Qed.

Lemma found_here path b l r c : differs b l r = true -> descends b l r = false -> c ∈ emit path b l r -> found path b l r [] c.
Proof. intros Hd Hn Hc%list_elem_of_singleton. subst c. split; [done|]. cbn. by rewrite app_nil_r. Qed.

Lemma walk_found l : forall path b r c, c ∈ walkConflict path b l r -> exists ks, found path b l r ks c.
Proof.
  assert (Hnone : forall path b r c, c ∈ walkConflict path b None r -> exists ks, found path b None r ks c).
  { intros path b r c. rewrite walkConflict_eq. destruct (differs b None r) eqn:Hd; [|by intros ?%not_elem_of_nil]. exists []. by apply found_here. }
  destruct l as [l|]; [|exact Hnone]. induction l as [s|n|z|f| |ks m IH|els IH] using Value_nested; intros path b r c; rewrite walkConflict_eq;
    (destruct (differs _ _ _) eqn:Hd; [|by intros ?%not_elem_of_nil]); (destruct (descends _ _ _) eqn:Hn; [|exists []; by apply found_here]); try done.
  rewrite elem_of_concat_map. intros (k & _ & Hc). assert (Hk : exists ks', found (path ++ x2f :: escapePointer k) (child k b) (get k m) (child k r) ks' c).
  { cbn [child] in Hc. destruct (get k m) as [v|] eqn:E; [|by apply Hnone]. exact (get_Forall (fun v => forall path b r c, c ∈ walkConflict path b (Some v) r -> exists ks, found path b (Some v) r ks c) k m v IH E _ _ _ _ Hc). }
  destruct Hk as [ks' Hk]. exists (k :: ks'). apply found_step. by split.
Qed.

(** ** Paths *)

Definition escape_byte (c : byte) : bytes := if bool_decide (c = x7e) then str "~0" else if bool_decide (c = x2f) then str "~1" else [c].
Lemma escapePointer_bytes k : escapePointer k = concat (map escape_byte k).
Proof.
  unfold escapePointer, replace_byte. induction k as [|c k IH]; [done|]. cbn [map concat]. rewrite map_app, concat_app, IH. f_equal. unfold escape_byte.
  destruct (decide (c = x7e)) as [->|H1]; [done|]. rewrite !(bool_decide_false (c = x7e)) by done. cbn. destruct (decide (c = x2f)) as [->|H2]; [done|]. by rewrite bool_decide_false.
Qed.

(** Where a reference token ends. *)
Definition token_end (s : bytes) : bool := match s with [] => true | c :: _ => bool_decide (c = x2f) end.

Lemma escape_byte_cut c d s t : escape_byte c ++ s = escape_byte d ++ t -> c = d /\ s = t.
Proof. unfold escape_byte. repeat case_bool_decide; subst; cbn; intros [=]; subst; done. Qed.
Lemma escape_byte_head c s : token_end (escape_byte c ++ s) = false.
Proof. unfold escape_byte. repeat case_bool_decide; [done..|]. cbn. by apply bool_decide_false. Qed.

Lemma token_cut k k' s t : token_end s = true -> token_end t = true -> escapePointer k ++ s = escapePointer k' ++ t -> k = k' /\ s = t.
Proof.
  rewrite !escapePointer_bytes. intros Hs Ht. revert k'. induction k as [|c k IH]; intros [|c' k']; cbn [map concat app]; rewrite <- ?app_assoc; intros E; [done| | |].
  - by rewrite E, escape_byte_head in Hs.
  - by rewrite <- E, escape_byte_head in Ht.
  - apply escape_byte_cut in E as [-> E]. by apply IH in E as [-> ->].
Qed.

Lemma pointer_end ks : token_end (pointer ks) = true.
Proof. by destruct ks. Qed.
Lemma pointer_inj ks ks' : pointer ks = pointer ks' -> ks = ks'.
Proof.
  revert ks'. induction ks as [|k ks IH]; intros [|k' ks']; try done. cbn [pointer map concat app]. fold (pointer ks) (pointer ks'). intros [= E].
  apply token_cut in E as [-> E]; [|apply pointer_end..]. by rewrite (IH _ E).
Qed.

Lemma NoDup_keys_concat {A B C} (key : B -> C) (f : A -> list B) l : NoDup l -> (forall x, x ∈ l -> NoDup (map key (f x))) ->
  (forall x y a b, a ∈ f x -> b ∈ f y -> key a = key b -> x = y) -> NoDup (map key (concat (map f l))).
Proof.
  intros Hl Hn Hd. induction Hl as [|x l Hx Hl IH]; cbn; [constructor|]. rewrite map_app. apply NoDup_app. split_and!; [apply Hn; set_solver| |apply IH; set_solver].
  intros c (a & -> & Ha)%list_elem_of_fmap (b & E & (y & Hy & Hb)%elem_of_concat_map)%list_elem_of_fmap. by rewrite (Hd x y a b Ha Hb E) in Hx.
Qed.

Lemma walk_paths l : forall path b r, NoDup (map Path (walkConflict path b l r)).
Proof.
  assert (Hnone : forall path b r, NoDup (map Path (walkConflict path b None r))) by (intros path b r; rewrite walkConflict_eq; destruct (differs b None r); [apply NoDup_singleton|constructor]).
  destruct l as [l|]; [|exact Hnone]. induction l as [s|n|z|f| |ks m IH|els IH] using Value_nested; intros path b r; rewrite walkConflict_eq;
    (destruct (differs _ _ _); [|constructor]); (destruct (descends _ _ _) eqn:Hn; [|apply NoDup_singleton]); try done.
  apply NoDup_keys_concat; [apply unionKeys_NoDup| |].
  - intros k _. cbn [child]. destruct (get k m) as [v|] eqn:E; [|apply Hnone]. exact (get_Forall (fun v => forall path b r, NoDup (map Path (walkConflict path b (Some v) r))) k m v IH E _ _ _).
  - intros k k' c c' (ks1 & _ & E1 & _)%walk_found (ks2 & _ & E2 & _)%walk_found E. rewrite E1, E2, <- !app_assoc in E. apply app_inv_head in E.
    change (pointer (k :: ks1) = pointer (k' :: ks2)) in E. apply pointer_inj in E. by injection E.
Qed.

(** C21. [DiffConflict] lists, once each and in the order of their paths, exactly the fields at which the walk along
    objects of both sides ends with values that are not all the same, each with its three values and the kind of its
    change. *)
Theorem DiffConflict_spec base local remote : doc base -> doc local -> doc remote ->
  (forall c, c ∈ DiffConflict base local remote <-> exists ks, conflicting ks base local remote /\ c = change_at ks base local remote) /\
  StronglySorted (before Path) (DiffConflict base local remote) /\ NoDup (map Path (DiffConflict base local remote)).
Proof.
  intros Hb Hl Hr. unfold DiffConflict. split_and!; [|by apply isort_bytes|rewrite isort_perm; apply walk_paths]. intros c. rewrite isort_perm. split.
  - intros (ks & Hc & Hp & E)%walk_found. exists ks. split; [done|]. rewrite E, Hp. done.
  - intros (ks & Hc & ->). by apply (walk_finds ks).
Qed.

Definition demo_doc (a : Z) (c : bool) : option Value :=
  Some (ObjectValue [str "a"; str "b"] [(str "a", IntValue a); (str "b", ObjectValue [str "c"] [(str "c", BoolValue c)])]).

Lemma DiffConflict_spec_witness :
  mkFieldChange (str "/b/c") (Some (BoolValue true)) (Some (BoolValue true)) (Some (BoolValue false)) ChangeRemote ∈ DiffConflict (demo_doc 1 true) (demo_doc 2 true) (demo_doc 1 false).
Proof.
  apply (DiffConflict_spec (demo_doc 1 true) (demo_doc 2 true) (demo_doc 1 false)); [split; reflexivity..|].
  exists [str "b"; str "c"]. split; [|reflexivity]. split; [split; [|split]; reflexivity|split; reflexivity].
Defined.

(** ** What is not reported *)

(** No object that the walk may enter has a key twice. *)
Fixpoint unique (v : Value) : bool :=
  match v with ObjectValue ks m => bool_decide (NoDup ks) && forallb (fun kv => unique kv.2) m | _ => true end.
Definition unique_doc (v : option Value) : Prop := match v with Some v => unique v = true | None => True end.

Lemma unique_child k v : unique_doc v -> unique_doc (child k v).
Proof.
  destruct v as [[| | | | |ks m|]|]; try done. cbn. intros [_ H]%andb_prop. destruct (get k m) as [v|] eqn:E; [|done]. apply get_in in E. rewrite forallb_forall in H. apply (H (k, v)). by apply list_elem_of_In.
Qed.

(** Objects whose fields are the same are the same. *)
Lemma same_children ks m ks' m' : both (ObjectValue ks m) -> both (ObjectValue ks' m') -> NoDup ks -> NoDup ks' ->
  (forall k, sameValue (get k m) (get k m') = true) -> CanonicalText (ObjectValue ks m) = CanonicalText (ObjectValue ks' m').
Proof.
  intros (A1 & A2 & _)%both_object (B1 & B2 & _)%both_object Hn Hn' H. assert (Hp : ks ≡ₚ ks').
  { apply NoDup_Permutation; [done..|]. intros k. specialize (H k). split; intros Hk.
    - destruct (A1 k Hk) as (_ & v & E & _). rewrite E in H. destruct (get k m') as [v'|] eqn:E'; [|done]. apply get_in in E'. apply B2, list_elem_of_fmap. by exists (k, v').
    - destruct (B1 k Hk) as (_ & v & E & _). rewrite E in H. destruct (get k m) as [v'|] eqn:E'; [|done]. apply get_in in E'. apply A2, list_elem_of_fmap. by exists (k, v'). }
  unfold CanonicalText. cbn [appendCanonical]. unfold sort_strings. rewrite (isort_bytes_unique _ id ks ks'); [|done|done|done]. do 3 f_equal. apply map_ext. intros k. do 2 f_equal.
  rewrite !field_with_get. specialize (H k). destruct (get k m), (get k m'); try done. by apply bool_decide_eq_true in H.
Qed.

Lemma silent_same l : forall path b r, doc l -> doc r -> unique_doc l -> unique_doc r -> walkConflict path b l r = [] -> sameValue l r = true.
Proof.
  assert (Hd : forall b l r, differs b l r = false -> sameValue l r = true) by (intros b l0 r; unfold differs; rewrite negb_false_iff; by intros [? _]%andb_prop).
  assert (Hnone : forall path b r, walkConflict path b None r = [] -> sameValue None r = true).
  { intros path b r. rewrite walkConflict_eq. destruct (differs b None r) eqn:E; [done|]. intros _. by eapply Hd. }
  destruct l as [l|]; [|intros path b r _ _ _ _; apply Hnone]. induction l as [s|n|z|f| |ks m IH|els IH] using Value_nested; intros path b r Hl Hr Ul Ur; rewrite walkConflict_eq;
    (destruct (differs _ _ _) eqn:E; [|intros _; by eapply Hd]); try done. destruct (descends _ _ _) eqn:Hn; [|done].
  destruct r as [[| | | | |rk rm|]|]; try done. intros Hw. cbn [sameValue]. apply bool_decide_true. pose proof Ul as [Uk _]%andb_prop. pose proof Ur as [Uk' _]%andb_prop.
  apply same_children; [done..|by apply bool_decide_eq_true in Uk|by apply bool_decide_eq_true in Uk'|]. intros k.
  destruct (decide (k ∈ unionKeys (fields_of b) ks rk)) as [Hk|Hk].
  - assert (Hwk : walkConflict (path ++ x2f :: escapePointer k) (child k b) (get k m) (get k rm) = []).
    { destruct (walkConflict _ _ _ _) as [|c t] eqn:Ew; [done|]. exfalso. apply (not_elem_of_nil c). rewrite <- Hw. apply elem_of_concat_map. exists k. split; [done|]. cbn [child]. rewrite Ew. by left. }
    pose proof (doc_child k _ Hl) as Dl. pose proof (doc_child k _ Hr) as Dr. pose proof (unique_child k _ Ul) as Cl. pose proof (unique_child k _ Ur) as Cr. cbn [child] in *.
    destruct (get k m) as [v|] eqn:Ev; [|by eapply Hnone]. eapply (get_Forall (fun v => forall path b r, doc (Some v) -> doc r -> unique_doc (Some v) -> unique_doc r -> walkConflict path b (Some v) r = [] -> sameValue (Some v) r = true) k m v IH Ev); done.
  - rewrite elem_of_unionKeys in Hk. assert (G : child k (Some (ObjectValue ks m)) = None /\ child k (Some (ObjectValue rk rm)) = None).
    { split; [destruct (child k (Some (ObjectValue ks m))) eqn:G|destruct (child k (Some (ObjectValue rk rm))) eqn:G]; try done; exfalso; apply Hk.
      - right; left. apply (doc_fields k (Some (ObjectValue ks m))); [done|by rewrite G].
      - right; right. apply (doc_fields k (Some (ObjectValue rk rm))); [done|by rewrite G]. }
    cbn [child] in G. by destruct G as [-> ->].
Qed.

(** When no change is reported, the two sides are the same document. *)
Theorem DiffConflict_silent base local remote : doc local -> doc remote -> unique_doc local -> unique_doc remote ->
  DiffConflict base local remote = [] -> sameValue local remote = true.
Proof.
  intros Hl Hr Ul Ur H. apply (silent_same local [] base remote); [done..|]. unfold DiffConflict in H. apply Permutation_nil_r. rewrite <- H. symmetry. apply isort_perm.
Qed.

(** An empty object that both sides added is not reported, though both moved away from the base to the same value. *)
Lemma empty_object_unreported :
  let added := Some (ObjectValue [str "x"] [(str "x", ObjectValue [] [])]) in
  DiffConflict (Some (ObjectValue [] [])) added added = [] /\
  classify (child (str "x") (Some (ObjectValue [] []))) (child (str "x") added) (child (str "x") added) = ChangeSame.
Proof. split; reflexivity. Qed.

End JsonDiff.
