(* ===== verification/DocumentMerge.v ===== *)
(** Documents and their merges: [document/kdb_document.go] over the JSON values.  A patch
    is laid over the root of a document, and the change that a write made is carried
    over to another version of the document. *)

From S2P Require Import Prelude Primitives Strconv Utf8 Float64 Schema Commit Json JsonRoundTrip JsonParser JsonPath JsonPathCorrect.
Import Primitives Commit Utf8 Json JsonRoundTrip JsonParser JsonPathCorrect.

Module DocumentMerge.

Record DecodeError := mkDecodeError { DecodeMsg : bytes; DecodeDoc : option UUID; DecodeCause : option JsonPathError }.
Abbreviation dres := (go DecodeError).

Definition wrap {A} (msg : bytes) (id : UUID) (r : jres A) : dres A :=
  match r with Ok x => Ok x | Err e => Err (mkDecodeError msg (Some id) (Some e)) | Panic => Panic end.

(** An object: its keys and its fields. *)
Definition object : Type := list bytes * list (bytes * Value).

Definition Merge (order : JsonPath.range_order) (d : Doc) (patchJSON : bytes) : dres Doc :=
  _ ← wrap (str "invalid document json") (DocumentID d) (ParseValue (JSON d));
  _ ← wrap (str "invalid patch json") (DocumentID d) (ParseValue patchJSON);
  out ← wrap (str "merge failed") (DocumentID d) (JsonPath.Merge order (JSON d) patchJSON);
  Ok (mkDoc (DocumentID d) out).

Definition rootObject (jsonText : bytes) (id : UUID) : dres object :=
  v ← wrap (str "invalid document json") id (ParseValue jsonText);
  match v with
  | ObjectValue keys fields => Ok (keys, fields)
  | _ => Err (mkDecodeError (str "document root must be a JSON object") (Some id) None)
  end.

Definition rootObject_or_empty (d : option Doc) (id : UUID) : dres object :=
  match d with Some d => rootObject (JSON d) id | None => Ok ([], []) end.

Definition changed (after prev : object) (k : bytes) : bool :=
  match get k after.2, get k prev.2 with
  | Some a, Some b => negb (bool_decide (ToJSONString a = ToJSONString b))
  | None, None => false
  | _, _ => true
  end.

(** [put(k, v)]; a value that is nil is not stored as a field here. *)
Definition put_field (out : object) (k : bytes) (v : option Value) : object :=
  (out.1 ++ [k], match v with Some v => put k v out.2 | None => out.2 end).

Definition rebase_kept (after prev target : object) (out : object) (k : bytes) : object :=
  match get k after.2, get k prev.2 with
  | None, None => put_field out k (get k target.2)
  | None, Some _ => out
  | Some a, _ => if changed after prev k then put_field out k (Some a) else put_field out k (get k target.2)
  end.
Definition rebase_new (after prev target : object) (out : object) (k : bytes) : object :=
  match get k target.2 with
  | None => if changed after prev k then put_field out k (get k after.2) else out
  | Some _ => out
  end.
Definition rebase (after prev target : object) : object :=
  foldl (rebase_new after prev target) (foldl (rebase_kept after prev target) ([], []) target.1) after.1.

Definition RebasedOnto (d : Doc) (before onto : option Doc) : dres Doc :=
  after ← rootObject (JSON d) (DocumentID d);
  prev ← rootObject_or_empty before (DocumentID d);
  target ← rootObject_or_empty onto (DocumentID d);
  let out := rebase after prev target in
  Ok (mkDoc (DocumentID d) (ToJSONString (ObjectValue out.1 out.2))).

(** ** Laying one object over another *)

Definition wf (o : object) : Prop := both (ObjectValue o.1 o.2).

Lemma wf_get o k v : wf o -> get k o.2 = Some v -> both v.
Proof. apply both_get. Qed.
Lemma wf_key o k : wf o -> get k o.2 <> None <-> k ∈ o.1.
Proof.
  intros (H1 & H2 & _)%both_object. rewrite get_none. split; [intros H; apply H2; destruct (decide (k ∈ o.2.*1)); [done|tauto]|].
  intros Hk Hn. destruct (H1 k Hk) as (_ & v & E & _). apply get_none in Hn. congruence.
Qed.

(** Appending a key again does not hurt. *)
Lemma wf_put o k v : wf o -> valid k = true -> both v -> wf (o.1 ++ [k], put k v o.2).
Proof.
  unfold wf. cbn. rewrite !both_object. intros (H1 & H2 & H3 & H4) Hk [Hp Hc]. split_and!; [| |by apply forallb_clean_put|by apply put_NoDup].
  - intros k' Hk'. rewrite get_put. case_bool_decide as E; [subst; by eauto|]. apply H1. apply elem_of_app in Hk' as [?|Hk']; [done|]. by apply list_elem_of_singleton in Hk'.
  - intros k' [->|Hk']%put_keys; apply elem_of_app; [right; by left|left; by apply H2].
Qed.

Lemma wf_valid o k : wf o -> k ∈ o.1 -> valid k = true.
Proof. intros (H & _)%both_object Hk. by apply H. Qed.

(** Taking a key with the value that is chosen for it, if any. *)
Definition take_key (chosen : bytes -> option Value) (out : object) (k : bytes) : object :=
  match chosen k with Some v => (out.1 ++ [k], put k v out.2) | None => out end.
Definition chosen_keys (chosen : bytes -> option Value) : list bytes -> list bytes := List.filter (fun k => match chosen k with Some _ => true | None => false end).

Lemma take_keys chosen ks out : wf out -> (forall k, k ∈ ks -> valid k = true) -> (forall k v, chosen k = Some v -> both v) ->
  let out' := foldl (take_key chosen) out ks in
  wf out' /\ out'.1 = out.1 ++ chosen_keys chosen ks /\
  forall k, get k out'.2 = if bool_decide (k ∈ ks) then match chosen k with Some v => Some v | None => get k out.2 end else get k out.2.
Proof.
  cbn. intros Hw Hk Hc. revert out Hw. induction ks as [|k ks IH]; intros out Hw; cbn [foldl]; [rewrite app_nil_r; split_and!; [done..|]; intros k; by rewrite bool_decide_false by set_solver|].
  assert (Hs : wf (take_key chosen out k)) by (unfold take_key; destruct (chosen k) as [v|] eqn:E; [apply wf_put; [done|apply Hk; set_solver|by eapply Hc]|done]).
  destruct (IH (fun k' H => Hk k' ltac:(set_solver)) _ Hs) as (W & K & G). split_and!; [done| |].
  - rewrite K. unfold chosen_keys, take_key. cbn [List.filter]. destruct (chosen k); [cbn; by rewrite <- app_assoc|done].
  - intros k'. rewrite G. assert (E : get k' (take_key chosen out k).2 = if bool_decide (k' = k) then match chosen k with Some v => Some v | None => get k' out.2 end else get k' out.2).
    { unfold take_key. destruct (chosen k) as [v|] eqn:E; cbn; [rewrite get_put; repeat case_bool_decide; by subst|by case_bool_decide]. }
    rewrite E. destruct (decide (k' = k)) as [->|Hne]; [rewrite (bool_decide_true (k = k)), (bool_decide_true (k ∈ k :: ks)) by set_solver; destruct (chosen k), (bool_decide (k ∈ ks)); done|].
    rewrite (bool_decide_false (k' = k)) by done. destruct (decide (k' ∈ ks)); [rewrite !bool_decide_true by set_solver|rewrite !bool_decide_false by set_solver]; done.
Qed.

Lemma foldl_eq {A B} (f g : A -> B -> A) l a : (forall a b, b ∈ l -> f a b = g a b) -> foldl f a l = foldl g a l.
Proof. revert a. induction l as [|b l IH]; intros a H; cbn; [done|]. rewrite H by set_solver. apply IH. set_solver. Qed.

(** ** Carrying a change over *)

Section rebase.
Context (after prev target : object).
Hypotheses (Ha : wf after) (Ht : wf target).

(** What the carried-over document has at a key, and what it has there that the target has not. *)
Definition carried (k : bytes) : option Value := if changed after prev k then get k after.2 else get k target.2.
Definition fresh (k : bytes) : option Value := match get k target.2 with None => carried k | Some _ => None end.

Lemma kept_step out k : k ∈ target.1 -> rebase_kept after prev target out k = take_key carried out k.
Proof.
  intros Hk. apply (wf_key _ _ Ht) in Hk. destruct (get k target.2) as [v|] eqn:Ev; [|done]. unfold rebase_kept, take_key, carried, changed, put_field. rewrite Ev.
  destruct (get k after.2), (get k prev.2); try done. by destruct (negb _).
Qed.
Lemma new_step out k : k ∈ after.1 -> rebase_new after prev target out k = take_key fresh out k.
Proof.
  intros Hk. apply (wf_key _ _ Ha) in Hk. destruct (get k after.2) as [v|] eqn:Ev; [|done]. unfold rebase_new, take_key, fresh, carried, put_field.
  destruct (get k target.2); [done|]. rewrite Ev. by destruct (changed after prev k).
Qed.

Lemma carried_both k v : carried k = Some v -> both v.
Proof. unfold carried. destruct (changed _ _ _); by apply wf_get. Qed.
Lemma fresh_both k v : fresh k = Some v -> both v.
Proof. unfold fresh. destruct (get k target.2); [done|]. apply carried_both. Qed.

Lemma rebase_spec : let out := rebase after prev target in
  wf out /\ out.1 = chosen_keys carried target.1 ++ chosen_keys fresh after.1 /\ forall k, get k out.2 = carried k.
Proof.
  cbn. unfold rebase. rewrite (foldl_eq (rebase_kept after prev target) (take_key carried)) by (intros; by apply kept_step).
  rewrite (foldl_eq (rebase_new after prev target) (take_key fresh)) by (intros; by apply new_step).
  destruct (take_keys carried target.1 ([], [])) as (W1 & K1 & G1); [done|intros; by apply (wf_valid target)|apply carried_both|].
  destruct (take_keys fresh after.1 (foldl (take_key carried) ([], []) target.1)) as (W2 & K2 & G2); [done|intros; by apply (wf_valid after)|apply fresh_both|].
  split_and!; [done|by rewrite K2, K1|]. intros k. rewrite G2, G1. unfold fresh. cbn [get field_with snd].
  destruct (get k target.2) as [t|] eqn:Et.
  - assert (Hk : k ∈ target.1) by (apply (wf_key _ _ Ht); by rewrite Et). rewrite (bool_decide_true (k ∈ target.1)) by done. case_bool_decide; by destruct (carried k).
  - assert (Hk : k ∉ target.1) by (intros Hk; by apply (wf_key _ _ Ht) in Hk). rewrite (bool_decide_false (k ∈ target.1)) by done. case_bool_decide as Hka; [by destruct (carried k)|].
    unfold carried. rewrite Et. destruct (get k after.2) as [a|] eqn:Ea; [|by destruct (changed _ _ _)]. destruct Hka. apply (wf_key _ _ Ha). by rewrite Ea.
Qed.
End rebase.

(** ** Documents *)

(** The object that a document holds; no document is an empty one. *)
Definition object_of (text : bytes) : option object :=
  match ParseValue text with Ok (ObjectValue ks m) => Some (ks, m) | _ => None end.
Definition view (d : option Doc) : option object := match d with Some d => object_of (JSON d) | None => Some ([], []) end.
(** The strings and keys of a text are well-formed UTF-8. *)
Definition clean_text (text : bytes) : Prop := forall v, ParseValue text = Ok v -> clean v = true.
Definition clean_doc (d : option Doc) : Prop := match d with Some d => clean_text (JSON d) | None => True end.

Lemma rootObject_view text id : match object_of text with Some o => rootObject text id = Ok o | None => exists e, rootObject text id = Err e end.
Proof.
  unfold object_of, rootObject. pose proof (parse_outcome text) as H. destruct (ParseValue text) as [v|e|]; [|by eexists|done]. destruct v; cbn; by eexists.
Qed.
Lemma rootObject_or_empty_view d id : match view d with Some o => rootObject_or_empty d id = Ok o | None => exists e, rootObject_or_empty d id = Err e end.
Proof. destruct d as [d|]; [apply rootObject_view|done]. Qed.

Lemma object_of_wf text o : clean_text text -> object_of text = Some o -> wf o.
Proof. unfold object_of. intros Hc. destruct (ParseValue text) as [[| | | | |ks m|]|e|] eqn:E; try done. intros [= <-]. split; [by eapply parsed_printable|by apply Hc]. Qed.
Lemma view_wf d o : clean_doc d -> view d = Some o -> wf o.
Proof. destruct d as [d|]; [apply object_of_wf|]. intros _ [= <-]. by split. Qed.

(** The object is read back from its text, field by field. *)
Lemma wf_read ks m : wf (ks, m) -> exists m', ParseValue (ToJSONString (ObjectValue ks m)) = Ok (ObjectValue ks m') /\ forall k, get k m' = option_map norm (get k m).
Proof.
  intros Hw. eexists. split; [rewrite print_value by apply Hw; cbn [norm]; do 2 f_equal|intros k; exact (get_norm ks m k Hw)].
  pose proof (proj1 (both_object _ _) Hw) as (H & _). rewrite <- map_id. apply map_ext_in. intros k Hk%list_elem_of_In. by apply valid_spec, H.
Qed.

Lemma rebased_fields d before onto : clean_doc (Some d) -> clean_doc onto ->
  match view (Some d), view before, view onto with
  | Some after, Some prev, Some target => exists d' m, RebasedOnto d before onto = Ok d' /\ DocumentID d' = DocumentID d /\
      ParseValue (JSON d') = Ok (ObjectValue (chosen_keys (carried after prev target) target.1 ++ chosen_keys (fresh after prev target) after.1) m) /\
      forall k, get k m = option_map norm (carried after prev target k)
  | _, _, _ => exists e, RebasedOnto d before onto = Err e
  end.
Proof.
  intros Hd Ho. unfold RebasedOnto. pose proof (rootObject_view (JSON d) (DocumentID d)) as Ra. pose proof (rootObject_or_empty_view before (DocumentID d)) as Rb.
  pose proof (rootObject_or_empty_view onto (DocumentID d)) as Rt. cbn [view]. destruct (object_of (JSON d)) as [after|] eqn:Ea; [|destruct Ra as [e ->]; by eexists]. rewrite Ra. cbn [mbind go_bind].
  destruct (view before) as [prev|]; [|destruct Rb as [e ->]; by eexists]. rewrite Rb. cbn [mbind go_bind].
  destruct (view onto) as [target|] eqn:Et; [|destruct Rt as [e ->]; by eexists]. rewrite Rt. cbn [mbind go_bind].
  pose proof (object_of_wf _ _ Hd Ea) as Wa. pose proof (view_wf _ _ Ho Et) as Wt. destruct (rebase_spec after prev target Wa Wt) as (W & K & G).
  destruct (rebase after prev target) as [ks m]. cbn [fst snd] in *. destruct (wf_read ks m W) as (m' & E & Hm). eexists _, m'. split_and!; [done|done|cbn [JSON]; by rewrite E, K|].
  intros k. by rewrite Hm, G.
Qed.

(** C22. Carrying the change from [before] to [d] over to [onto]: at every key the result has the value of [d] where
    that differs from the one in [before], and the value of [onto] elsewhere.  The keys of [onto] come first, in their
    order, then the new ones in the order of [d].  A document that is not an object is an error. *)
Theorem RebasedOnto_carries d before onto : clean_doc (Some d) -> clean_doc onto ->
  match view (Some d), view before, view onto with
  | Some after, Some prev, Some target => exists d' m, RebasedOnto d before onto = Ok d' /\ DocumentID d' = DocumentID d /\
      ParseValue (JSON d') = Ok (ObjectValue (chosen_keys (carried after prev target) target.1 ++ chosen_keys (fresh after prev target) after.1) m) /\
      forall k, get k m = option_map norm (carried after prev target k)
  | _, _, _ => exists e, RebasedOnto d before onto = Err e
  end.
Proof. apply rebased_fields. Qed.

Definition demo_id : UUID := mkUUID 1 2.
Definition demo_object (l : list (bytes * Z)) : object := (l.*1, map (fun kv => (kv.1, IntValue kv.2)) l).
Definition demo_fields (l : list (bytes * Z)) : Doc := mkDoc demo_id (ToJSONString (ObjectValue (demo_object l).1 (demo_object l).2)).
Definition demo_after : list (bytes * Z) := [(str "a", 5); (str "b", 2); (str "c", 3)].
Definition demo_before : list (bytes * Z) := [(str "a", 1); (str "b", 2)].
Definition demo_onto : list (bytes * Z) := [(str "b", 9); (str "a", 1)].

Lemma RebasedOnto_carries_witness : exists d' m,
  RebasedOnto (demo_fields demo_after) (Some (demo_fields demo_before)) (Some (demo_fields demo_onto)) = Ok d' /\
  ParseValue (JSON d') = Ok (ObjectValue [str "b"; str "a"; str "c"] m) /\ get (str "a") m = Some (IntValue 5) /\ get (str "b") m = Some (IntValue 9).
Proof.
  assert (P : forall l, both (ObjectValue (demo_object l).1 (demo_object l).2) -> ParseValue (JSON (demo_fields l)) = Ok (norm (ObjectValue (demo_object l).1 (demo_object l).2))) by (intros l H; apply print_value, H).
  assert (Pa := P demo_after ltac:(split; reflexivity)). assert (Pb := P demo_before ltac:(split; reflexivity)). assert (Pt := P demo_onto ltac:(split; reflexivity)).
  assert (Ha : clean_doc (Some (demo_fields demo_after))) by (intros v; rewrite Pa; intros [= <-]; reflexivity).
  assert (Ht : clean_doc (Some (demo_fields demo_onto))) by (intros v; rewrite Pt; intros [= <-]; reflexivity).
  pose proof (RebasedOnto_carries (demo_fields demo_after) (Some (demo_fields demo_before)) (Some (demo_fields demo_onto)) Ha Ht) as H.
  unfold view, object_of in H. rewrite Pa, Pb, Pt in H. destruct H as (d' & m & H1 & _ & H2 & H3).
  exists d', m. split_and!; [exact H1|exact H2|rewrite H3; reflexivity|rewrite H3; reflexivity].
Defined.

(** Onto the version that it was made from, a change gives back the document it led to. *)
Theorem RebasedOnto_same d before after prev : clean_doc (Some d) -> clean_doc before -> view (Some d) = Some after -> view before = Some prev ->
  exists d' ks m, RebasedOnto d before before = Ok d' /\ ParseValue (JSON d') = Ok (ObjectValue ks m) /\ forall k, get k m = option_map norm (get k after.2).
Proof.
  intros Hd Hb Va Vb. pose proof (rebased_fields d before before Hd Hb) as H. rewrite Va, Vb in H. destruct H as (d' & m & H1 & _ & H2 & H3). eexists d', _, m. split_and!; [done..|].
  intros k. rewrite H3. unfold carried, changed. pose proof (view_wf _ _ Hd Va) as Wa. pose proof (view_wf _ _ Hb Vb) as Wp.
  destruct (get k after.2) as [a|] eqn:Ea, (get k prev.2) as [b|] eqn:Eb; try done. case_bool_decide as E; [|done]. cbn. f_equal.
  pose proof (print_value a (proj1 (wf_get _ _ _ Wa Ea))) as Pa. pose proof (print_value b (proj1 (wf_get _ _ _ Wp Eb))) as Pb. rewrite E in Pa. congruence.
Qed.

(** ** Patches *)

Lemma get_iff k m v : NoDup m.*1 -> get k m = Some v <-> (k, v) ∈ m.
Proof.
  intros Hn. split; [apply get_in|]. induction m as [|[k' v'] m IH]; [by intros ?%not_elem_of_nil|]. cbn in *. apply NoDup_cons in Hn as [H1 H2].
  intros [[= -> ->]|Hin]%elem_of_cons; [by rewrite bool_decide_true|]. case_bool_decide as E; [|by apply IH]. subst k'. destruct H1. apply list_elem_of_fmap. by exists (k, v).
Qed.
Lemma get_perm k m m' : NoDup m.*1 -> m ≡ₚ m' -> get k m = get k m'.
Proof.
  intros Hn Hp. assert (Hn' : NoDup m'.*1) by (by rewrite <- Hp). apply option_eq. intros v. rewrite !get_iff by done. by rewrite Hp.
Qed.

Definition merged (base patch : object) (k : bytes) : option Value := match get k patch.2 with Some v => Some v | None => get k base.2 end.

Lemma merge_fields_spec o l : wf o -> NoDup l.*1 -> (forall k v, (k, v) ∈ l -> valid k = true /\ both v) ->
  let o' := foldl JsonPath.merge_field o l in wf o' /\ o.1 `prefix_of` o'.1 /\ forall k, get k o'.2 = match get k l with Some v => Some v | None => get k o.2 end.
Proof.
  cbn. revert o. induction l as [|[k v] l IH]; intros o Hw Hn Hl; cbn [foldl]; [done|]. apply NoDup_cons in Hn as [Hk Hn]. destruct (Hl k v ltac:(by left)) as [Hv Hb].
  destruct (IH (JsonPath.merge_field o (k, v))) as (W & [ks K] & G); [unfold JsonPath.merge_field, wf; cbn; by apply both_put|done|intros k' v' Hin; apply (Hl k' v'); by right|].
  split_and!; [done| |].
  - rewrite K. unfold JsonPath.merge_field. cbn. destruct (get k o.2); [by apply prefix_app_r|]. rewrite <- app_assoc. by apply prefix_app_r.
  - intros k'. rewrite G. unfold JsonPath.merge_field. cbn [fst snd]. rewrite get_put. cbn [get field_with]. case_bool_decide as E; [|done].
    subst k'. assert (En : get k l = None) by (by apply get_none). fold (get k l). by rewrite En.
Qed.

(** Whatever order the map of the patch is visited in, the result has the fields of the patch and those of the
    document that the patch leaves alone; the keys of the document stay first. *)
Theorem Merge_fields order d patchJSON : (forall m, order m ≡ₚ m) -> clean_doc (Some d) -> clean_text patchJSON ->
  match object_of (JSON d), object_of patchJSON with
  | Some base, Some patch => exists d' ks m, Merge order d patchJSON = Ok d' /\ DocumentID d' = DocumentID d /\ ParseValue (JSON d') = Ok (ObjectValue ks m) /\
      base.1 `prefix_of` ks /\ forall k, get k m = option_map norm (merged base patch k)
  | _, _ => exists e, Merge order d patchJSON = Err e
  end.
Proof.
  intros Ho Hd Hp. pose proof (object_of_wf (JSON d)) as Wd. pose proof (object_of_wf patchJSON) as Wp. unfold Merge, JsonPath.Merge, object_of in *.
  pose proof (parse_outcome (JSON d)) as Od. pose proof (parse_outcome patchJSON) as Op.
  destruct (ParseValue (JSON d)) as [v|e|]; [|by eexists|done]. destruct (ParseValue patchJSON) as [w|e|]; [|destruct v; by eexists|done]. cbn [mbind go_bind wrap].
  destruct v as [| | | | |bk bm|]; try (by eexists). destruct w as [| | | | |pk pm|]; try (by eexists). specialize (Wd (bk, bm) Hd eq_refl). specialize (Wp (pk, pm) Hp eq_refl).
  pose proof (proj1 (both_object _ _) Wp) as (P1 & P2 & _ & P4). cbn [fst snd] in *. assert (Hn : NoDup (order pm).*1) by (by rewrite Ho).
  destruct (merge_fields_spec (bk, bm) (order pm) Wd Hn) as (W & K & G).
  { intros k v Hin. rewrite Ho in Hin. assert (Hk : k ∈ pk) by (apply P2, list_elem_of_fmap; by exists (k, v)). split; [by apply P1|]. apply (wf_get (pk, pm) k v Wp). cbn [snd].
    by apply get_iff. }
  destruct (foldl JsonPath.merge_field (bk, bm) (order pm)) as [ks m]. cbn [mbind go_bind wrap fst snd] in *. destruct (wf_read ks m W) as (m' & E & Hm). eexists _, ks, m'. split_and!; [done|done|exact E|exact K|].
  intros k. rewrite Hm, G. unfold merged. cbn [snd]. by rewrite (get_perm k (order pm) pm Hn (Ho pm)).
Qed.

(** Two visits of one patch write its new keys in different orders, so that the texts, and with them the content
    hashes, of one merge differ. *)
Lemma Merge_order_visible : exists order order' d patchJSON d1 d2, (forall m, order m ≡ₚ m) /\ (forall m, order' m ≡ₚ m) /\
  Merge order d patchJSON = Ok d1 /\ Merge order' d patchJSON = Ok d2 /\ JSON d1 <> JSON d2.
Proof.
  exists id, (@reverse _), (demo_fields []), (JSON (demo_fields demo_before)). eexists _, _. split_and!; [done|intros m; apply reverse_Permutation|vm_compute; reflexivity|vm_compute; reflexivity|].
  vm_compute. done.
Qed.

End DocumentMerge.
