(* ===== verification/TrieHash.v ===== *)
(** The hashes of the document tree: [document/document_tree_trie.go] down to the
    single-child spine, which resumes SHA-256 from a state computed once per slot.

    A digest of the Go standard library is its state after whole blocks, the bytes
    that do not fill a block yet, and the length so far; that is also what its
    marshalled form holds. *)

From S2P Require Import Prelude Primitives Sha256.
Import Primitives Sha256.

Module TrieHash.

(** ** Digests *)

Record digest := mkDigest { st : state; pending : bytes; written : Z }.

Definition New : digest := mkDigest init [] 0.
Definition Write (p : bytes) (d : digest) : digest :=
  let m := pending d ++ p in
  let n := (length m / 64)%nat in
  mkDigest (blocks n m (st d)) (drop (64 * n) m) (written d + zlen p).
Definition output (r : state) : bytes := concat (map (be_bytes 4) [a r; b r; c r; Sha256.d r; e r; f r; g r; h r]).
Definition Sum (d : digest) : bytes :=
  let m := pending d ++ x80 :: replicate (Z.to_nat ((55 - written d) mod 64)) x00 ++ be_bytes 8 (8 * written d) in
  output (blocks (length m / 64) m (st d)).

#[local] Opaque block.

Lemma blocks_app n k m m' s : length m = (64 * n)%nat -> blocks (n + k) (m ++ m') s = blocks k m' (blocks n m s).
Proof.
  revert m s. induction n as [|n IH]; intros m s Hm; [by destruct m|]. cbn [blocks Nat.add]. rewrite take_app_le, drop_app_le by lia. apply IH. rewrite length_drop. lia.
Qed.

(** The first [n] blocks do not look further. *)
Lemma blocks_prefix n m m' s : length m = (64 * n)%nat -> blocks n (m ++ m') s = blocks n m s.
Proof. intros H. rewrite <- (Nat.add_0_r n) at 1. by rewrite blocks_app. Qed.

Lemma whole_blocks (m : bytes) : exists w r, m = w ++ r /\ length w = (64 * (length m / 64))%nat /\ (length r < 64)%nat.
Proof.
  exists (take (64 * (length m / 64)) m), (drop (64 * (length m / 64)) m). rewrite take_drop, length_take, length_drop.
  pose proof (Nat.div_mod_eq (length m) 64). pose proof (Nat.mod_upper_bound (length m) 64 ltac:(lia)). split_and!; [done|lia|lia].
Qed.

(** A digest of a message. *)
Definition digests (m : bytes) (d : digest) : Prop :=
  exists w r, m = w ++ r /\ length w = (64 * (length w / 64))%nat /\ (length r < 64)%nat /\ d = mkDigest (blocks (length w / 64) w init) r (zlen m).

Lemma New_digests : digests [] New.
Proof. exists [], []. split_and!; cbn; [done..|lia|done]. Qed.

Lemma Write_digests m p d : digests m d -> digests (m ++ p) (Write p d).
Proof.
  intros (w & r & -> & Hw & Hr & ->). destruct (whole_blocks (r ++ p)) as (w' & r' & E & Hw' & Hr'). exists (w ++ w'), r'. unfold Write. cbn [pending st written].
  set (n := (length (r ++ p) / 64)%nat) in *. assert (Hn : (length (w ++ w') / 64)%nat = (length w / 64 + n)%nat).
  { assert (L : length (w ++ w') = ((length w / 64 + n) * 64)%nat) by (rewrite length_app; lia). rewrite L. apply Nat.div_mul. lia. }
  split_and!; [by rewrite <- !app_assoc, E|rewrite Hn, length_app; lia|done|]. rewrite Hn, blocks_app by done. f_equal; [by rewrite E, blocks_prefix|by rewrite E, drop_app_length'|rewrite !zlen_app; lia].
Qed.

Lemma Sum_digests m d : digests m d -> Sum d = Sum256 m.
Proof.
  intros (w & r & -> & Hw & Hr & ->). unfold Sum, Sum256, output. cbn [pending st written]. unfold pad. rewrite <- app_assoc. set (t := r ++ _).
  assert (E : (length (w ++ t) / 64)%nat = (length w / 64 + length t / 64)%nat). { assert (L : length (w ++ t) = (length w / 64 * 64 + length t)%nat) by (rewrite length_app; lia). rewrite L. apply Nat.div_add_l. lia. }
  rewrite E, blocks_app by done. done.
Qed.

(** ** Nibbles *)

Definition trieDepth : nat := 32.
Definition trieZero : bytes := replicate 32 x00.

Definition nibbleAt (k : bytes) (depth : nat) : nat :=
  let b := b2z (nth (depth / 2) k x00) in
  Z.to_nat (if Nat.even depth then Z.shiftr b 4 else Z.land b 0x0f).

(** ** Node hashes *)

Definition leafHash (k : bytes) (content : Hash) : bytes := Sum256 (x00 :: k ++ HashBytes content).

(** The preimage of a node: a tag and sixteen slots. *)
Definition preimage (slots : list bytes) : bytes := x01 :: concat slots.
Definition nodeHash (slots : list bytes) : bytes := Sum256 (preimage slots).

Definition onlyChildSkip (nib : nat) : nat := (1 + nib * 32) / 64 * 64.
Definition onlyChildMidstate (nib : nat) : digest :=
  let skip := onlyChildSkip nib in Write (match skip with O => [] | _ => x01 :: replicate (skip - 1) x00 end) New.

(** [copy(buf[off:], src)] into a buffer of [n] zeros. *)
Definition zeros_with (n off : nat) (src : bytes) : bytes := replicate off x00 ++ src ++ replicate (n - off - length src) x00.

Definition onlyChild (nib : nat) (childHash : bytes) : bytes :=
  let skip := onlyChildSkip nib in
  match skip with
  | O => Sum256 (x01 :: zeros_with (16 * 32) (nib * 32) childHash)
  | _ => Sum (Write (zeros_with (1 + 16 * 32 - skip) (1 + nib * 32 - skip) childHash) (onlyChildMidstate nib))
  end.

(** The loop of [foldLeaf]: the [n] levels from [depth] on, innermost first. *)
Fixpoint spine (k : bytes) (n depth : nat) (h : bytes) : bytes :=
  match n with O => h | S n => onlyChild (nibbleAt k depth) (spine k n (S depth) h) end.
Definition foldLeaf (k : bytes) (content : Hash) (depth : nat) : bytes := spine k (trieDepth - depth) depth (leafHash k content).

(** ** Lemmas *)

Definition only (nib : nat) (childHash : bytes) : list bytes := <[nib := childHash]> (replicate 16 trieZero).

Lemma concat_replicate_zero n : concat (replicate n trieZero) = replicate (32 * n) x00.
Proof. induction n as [|n IH]; [done|]. cbn [replicate concat]. rewrite IH. unfold trieZero. rewrite <- replicate_add. f_equal. lia. Qed.

Lemma preimage_only nib ch : (nib < 16)%nat -> length ch = 32%nat -> preimage (only nib ch) = x01 :: zeros_with (16 * 32) (nib * 32) ch.
Proof.
  intros Hn Hc. unfold preimage, only, zeros_with. f_equal. rewrite insert_replicate_lt by done. rewrite concat_app. cbn [concat]. rewrite !concat_replicate_zero, Hc. do 2 f_equal; [lia|]. f_equal. f_equal. lia.
Qed.

(** Skipping the constant blocks gives the hash of the whole preimage. *)
Lemma onlyChild_full nib ch : (nib < 16)%nat -> length ch = 32%nat -> onlyChild nib ch = nodeHash (only nib ch).
Proof.
  intros Hn Hc. unfold onlyChild, nodeHash. rewrite preimage_only by done. set (skip := onlyChildSkip nib). destruct skip as [|s] eqn:Es; [done|].
  assert (Hs : (skip <= 1 + nib * 32)%nat) by (unfold skip, onlyChildSkip; rewrite Nat.mul_comm; apply Nat.Div0.mul_div_le). rewrite <- Es in *.
  erewrite Sum_digests by (apply Write_digests, Write_digests, New_digests). f_equal. unfold onlyChildMidstate. fold skip. rewrite Es at 1. cbn [app]. f_equal.
  unfold zeros_with. rewrite app_assoc, <- replicate_add, Hc. do 2 f_equal; [lia|]. f_equal. f_equal. lia.
Qed.

Lemma nodeHash_length l : length (nodeHash l) = 32%nat.
Proof. apply Sum256_length. Qed.
Lemma leafHash_length k c : length (leafHash k c) = 32%nat.
Proof. apply Sum256_length. Qed.

Lemma foldLeaf_bottom k c : foldLeaf k c trieDepth = leafHash k c.
Proof. unfold foldLeaf. by rewrite Nat.sub_diag. Qed.
Lemma foldLeaf_step k c d : (d < trieDepth)%nat -> foldLeaf k c d = onlyChild (nibbleAt k d) (foldLeaf k c (S d)).
Proof. intros H. unfold foldLeaf. replace (trieDepth - d)%nat with (S (trieDepth - S d)) by lia. done. Qed.

Lemma nibbleAt_bound k d : (nibbleAt k d < 16)%nat.
Proof.
  unfold nibbleAt. pose proof (b2z_range (nth (d / 2) k x00)) as Hb. destruct (Nat.even d).
  - rewrite Z.shiftr_div_pow2 by lia. assert (b2z (nth (d / 2) k x00) / 2 ^ 4 < 16) by (apply Z.div_lt_upper_bound; lia). assert (0 <= b2z (nth (d / 2) k x00) / 2 ^ 4) by (apply Z.div_pos; lia). lia.
  - change 0x0f with (Z.ones 4). rewrite Z.land_ones by lia. pose proof (Z.mod_pos_bound (b2z (nth (d / 2) k x00)) (2 ^ 4) ltac:(lia)). lia.
Qed.

Lemma foldLeaf_length k c d : length (foldLeaf k c d) = 32%nat.
Proof.
  unfold foldLeaf. generalize (trieDepth - d)%nat as n. intros n. revert d. induction n as [|n IH]; intros d; cbn [spine]; [apply leafHash_length|].
  rewrite onlyChild_full; [apply nodeHash_length|apply nibbleAt_bound|apply IH].
Qed.
Lemma foldLeaf_node k c d : (d < trieDepth)%nat -> foldLeaf k c d = nodeHash (only (nibbleAt k d) (foldLeaf k c (S d))).
Proof. intros H. rewrite foldLeaf_step by done. apply onlyChild_full; [apply nibbleAt_bound|apply foldLeaf_length]. Qed.

End TrieHash.
