(* ===== verification/Trie.v ===== *)
(** The trie of a document tree as a value: [document/document_tree_trie.go].

    A leaf stands for the whole subtree below its position when that holds one
    entry.  Reads are as the code has them; updates are the reference that the
    updates over shared records (in TreeSlab) are held to. *)

From S2P Require Import Prelude Primitives Sha256 TrieHash.
Import Primitives TrieHash.

Module Trie.

(** ** Keys *)

(** The bytes of an identifier, and the identifier of sixteen bytes. *)
Definition uuidKey (id : UUID) : bytes := be_bytes 8 (MSB id) ++ be_bytes 8 (LSB id).
Definition keyUUID (k : bytes) : UUID := mkUUID (wraps 64 (be_val (take 8 k))) (wraps 64 (be_val (drop 8 k))).

Definition uuidAfter (a b : UUID) : bool :=
  if bool_decide (MSB a <> MSB b) then wrapu 64 (MSB b) <? wrapu 64 (MSB a) else wrapu 64 (LSB b) <? wrapu 64 (LSB a).

(** ** Records *)

Inductive trie :=
  | Empty
  | Leaf (hash : bytes) (id : bytes) (content : Hash)
  | Node (hash : bytes) (child : list trie).

Definition hash_of (t : trie) : bytes := match t with Empty => trieZero | Leaf h _ _ | Node h _ => h end.

Definition newLeaf (k : bytes) (c : Hash) (depth : nat) : trie := Leaf (foldLeaf k c depth) k c.
Definition newNode (ch : list trie) : trie := Node (nodeHash (map hash_of ch)) ch.

Definition child (ch : list trie) (nib : nat) : trie := nth nib ch Empty.
Definition no_children : list trie := replicate 16 Empty.

(** ** Reads *)

(** [n] levels are left below [depth]. *)
Fixpoint get_at (n depth : nat) (t : trie) (k : bytes) : option Hash :=
  match t with
  | Empty => None
  | Leaf _ id c => if bool_decide (id = k) then Some c else None
  | Node _ ch => match n with O => None | S n => get_at n (S depth) (child ch (nibbleAt k depth)) k end
  end.
Definition get (t : trie) (k : bytes) : option Hash := get_at trieDepth 0 t k.

(** The entries in the order a walk visits them. *)
Fixpoint walk (t : trie) : list (bytes * Hash) :=
  match t with
  | Empty => []
  | Leaf _ id c => [(id, c)]
  | Node _ ch => concat (map walk ch)
  end.

(** [walk] with a visitor that keeps a state and stops the walk by returning false. *)
Fixpoint walk_until {S} (visit : S -> bytes * Hash -> S * bool) (s : S) (t : trie) : S * bool :=
  match t with
  | Empty => (s, true)
  | Leaf _ id c => visit s (id, c)
  | Node _ ch => (fix go s l := match l with [] => (s, true) | t :: l => let '(s, more) := walk_until visit s t in if more then go s l else (s, false) end) s ch
  end.

(** The children in turn, as long as the visitor wants more. *)
Fixpoint walk_children {S} (visit : S -> bytes * Hash -> S * bool) (s : S) (l : list trie) : S * bool :=
  match l with [] => (s, true) | t :: l => let '(s, more) := walk_until visit s t in if more then walk_children visit s l else (s, false) end.

(** [walkAfter]: only entries whose id sorts after [after], descending along its path. *)
Fixpoint walk_after {S} (visit : S -> bytes * Hash -> S * bool) (n depth : nat) (key : bytes) (after : UUID) (s : S) (t : trie) : S * bool :=
  match t with
  | Empty => (s, true)
  | Leaf _ id c => if uuidAfter (keyUUID id) after then visit s (id, c) else (s, true)
  | Node _ ch =>
    match n with
    | O => (s, true)
    | Datatypes.S n =>
      let nib := nibbleAt key depth in
      let '(s, more) := walk_after visit n (Datatypes.S depth) key after s (child ch nib) in
      if more then walk_children visit s (drop (nib + 1) ch) else (s, false)
    end
  end.

(** ** Updates *)

(** Two keys below one position, with the nodes for the nibbles they share. *)
Fixpoint split_at (n depth : nat) (id : bytes) (c0 : Hash) (k : bytes) (c : Hash) : trie :=
  match n with
  | O => newLeaf k c depth
  | S n =>
    if bool_decide (nibbleAt id depth = nibbleAt k depth)
    then newNode (<[nibbleAt k depth := split_at n (S depth) id c0 k c]> no_children)
    else newNode (<[nibbleAt k depth := newLeaf k c (S depth)]> (<[nibbleAt id depth := newLeaf id c0 (S depth)]> no_children))
  end.

Fixpoint insert_at (n depth : nat) (t : trie) (k : bytes) (c : Hash) : trie :=
  match t with
  | Empty => newLeaf k c depth
  | Leaf _ id c0 => if bool_decide (id = k) then newLeaf k c depth else split_at n depth id c0 k c
  | Node _ ch =>
    match n with
    | O => newLeaf k c depth
    | S n => let nib := nibbleAt k depth in newNode (<[nib := insert_at n (S depth) (child ch nib) k c]> ch)
    end
  end.

(** A node over these children, or what stands for them when at most one entry is left. *)
Definition shrink (depth : nat) (ch : list trie) : trie :=
  match List.filter (fun t => match t with Empty => false | _ => true end) ch with
  | [] => Empty
  | [Leaf _ id c] => newLeaf id c depth
  | _ => newNode ch
  end.

Fixpoint delete_at (n depth : nat) (t : trie) (k : bytes) : trie :=
  match t with
  | Empty => Empty
  | Leaf _ id _ => if bool_decide (id = k) then Empty else t
  | Node _ ch =>
    match n with
    | O => t
    | S n => let nib := nibbleAt k depth in shrink depth (<[nib := delete_at n (S depth) (child ch nib) k]> ch)
    end
  end.

(** ** Equations *)

Lemma get_empty n d k : get_at n d Empty k = None.
Proof. by destruct n. Qed.
Lemma get_leaf n d h id c k : get_at n d (Leaf h id c) k = if bool_decide (id = k) then Some c else None.
Proof. by destruct n. Qed.
Lemma get_node n d h ch k : get_at (S n) d (Node h ch) k = get_at n (S d) (child ch (nibbleAt k d)) k.
Proof. done. Qed.
Lemma insert_empty n d k c : insert_at n d Empty k c = newLeaf k c d.
Proof. by destruct n. Qed.
Lemma insert_leaf n d h id c0 k c : insert_at n d (Leaf h id c0) k c = if bool_decide (id = k) then newLeaf k c d else split_at n d id c0 k c.
Proof. by destruct n. Qed.
Lemma delete_empty n d k : delete_at n d Empty k = Empty.
Proof. by destruct n. Qed.
Lemma delete_leaf n d h id c k : delete_at n d (Leaf h id c) k = if bool_decide (id = k) then Empty else Leaf h id c.
Proof. by destruct n. Qed.

Create Rewrite HintDb trie.
#[export] Hint Rewrite get_empty get_leaf get_node insert_empty insert_leaf delete_empty delete_leaf : trie.

(** ** Paths *)

(** The key starts with these nibbles. *)
Definition under (pre : list nat) (k : bytes) : Prop := forall i x, pre !! i = Some x -> nibbleAt k i = x.

Lemma under_nil k : under [] k.
Proof. intros i x. by rewrite lookup_nil. Qed.
Lemma under_snoc pre x k : under (pre ++ [x]) k <-> under pre k /\ nibbleAt k (length pre) = x.
Proof.
  unfold under. split.
  - intros H. split; [intros i y Hi; apply H; by apply lookup_app_l_Some|]. apply H. by rewrite lookup_app_r, Nat.sub_diag.
  - intros [H Hx] i y [Hi|[Hi1 Hi2]]%lookup_app_Some; [by apply H|]. apply list_lookup_singleton_Some in Hi2 as [Hi2 <-]. by replace i with (length pre) by lia.
Qed.
Lemma under_nibble k : under (map (nibbleAt k) (seq 0 trieDepth)) k.
Proof. intros i x. rewrite list_lookup_fmap. intros (j & Hj & ->)%fmap_Some. apply lookup_seq in Hj. f_equal. lia. Qed.

Lemma byte_nibbles a b : Z.shiftr (b2z a) 4 = Z.shiftr (b2z b) 4 -> Z.land (b2z a) 15 = Z.land (b2z b) 15 -> a = b.
Proof.
  change 15 with (Z.ones 4). rewrite !Z.land_ones, !Z.shiftr_div_pow2 by lia. intros H1 H2. apply b2z_inj. rewrite (Z.div_mod (b2z a) (2 ^ 4)), (Z.div_mod (b2z b) (2 ^ 4)) by lia. congruence.
Qed.

(** Keys that agree on every nibble are the same. *)
Lemma nibbles_inj k k' : length k = 16%nat -> length k' = 16%nat -> (forall i, (i < trieDepth)%nat -> nibbleAt k i = nibbleAt k' i) -> k = k'.
Proof.
  intros Hk Hk' H. apply list_eq_same_length with 16%nat; [done..|]. intros i x y Hi Hx Hy.
  assert (E : forall l z, l !! i = Some z -> nth i l x00 = z) by (intros l z; apply nth_lookup_Some). apply E in Hx, Hy.
  assert (Hb : forall b, 0 <= Z.shiftr (b2z b) 4 /\ 0 <= Z.land (b2z b) 15) by (intros b; pose proof (b2z_range b); split; [apply Z.shiftr_nonneg; lia|apply Z.land_nonneg; lia]).
  pose proof (H (2 * i)%nat ltac:(unfold trieDepth; lia)) as H1. pose proof (H (2 * i + 1)%nat ltac:(unfold trieDepth; lia)) as H2. unfold nibbleAt in H1, H2.
  replace (2 * i / 2)%nat with i in H1 by (rewrite Nat.mul_comm, Nat.div_mul; lia). replace ((2 * i + 1) / 2)%nat with i in H2 by (rewrite Nat.mul_comm, Nat.div_add_l by lia; cbn; lia).
  rewrite Hx, Hy in *. rewrite Nat.even_mul in H1. replace (Nat.even (2 * i + 1)) with false in H2 by (symmetry; rewrite Nat.even_add, Nat.even_mul; done). cbn [Nat.even orb] in H1.
  pose proof (Hb x). pose proof (Hb y). apply byte_nibbles; lia.
Qed.
Lemma under_inj pre k k' : length pre = trieDepth -> length k = 16%nat -> length k' = 16%nat -> under pre k -> under pre k' -> k = k'.
Proof.
  intros Hp Hk Hk' H H'. apply nibbles_inj; [done..|]. intros i Hi. destruct (lookup_lt_is_Some_2 pre i ltac:(lia)) as [x Hx]. by rewrite (H i x Hx), (H' i x Hx).
Qed.

End Trie.
