(* ===== verification/TrieCorrect.v ===== *)
(** The trie of a document tree holds a finite map, in exactly one shape per map: its
    hash depends on the entries alone, and is the one of the uncompressed tree. *)

From S2P Require Import Prelude Primitives Sha256 TrieHash Trie.
Import Primitives TrieHash Trie.

Module TrieCorrect.

(** ** Well-formed tries *)

(** More than one entry is below the children. *)
Definition crowded (ch : list trie) : Prop :=
  (exists i j t u, i <> j /\ ch !! i = Some t /\ ch !! j = Some u /\ t <> Empty /\ u <> Empty) \/ exists i h c, ch !! i = Some (Node h c).

(** A trie with [n] levels left below the position that the nibbles lead to. *)
Inductive wf : nat -> list nat -> trie -> Prop :=
  | wf_empty n pre : wf n pre Empty
  | wf_leaf n pre id c : length id = 16%nat -> hash_wf c -> under pre id -> wf n pre (newLeaf id c (length pre))
  | wf_node n pre ch : length ch = 16%nat -> crowded ch -> (forall i t, ch !! i = Some t -> wf n (pre ++ [i]) t) -> wf (S n) pre (newNode ch).

Definition levels (n : nat) (pre : list nat) : Prop := (length pre + n = trieDepth)%nat.

Lemma levels_snoc n pre i : levels (S n) pre -> levels n (pre ++ [i]).
Proof. unfold levels. rewrite length_app. cbn. lia. Qed.
Lemma length_snoc (pre : list nat) i : length (pre ++ [i]) = S (length pre).
Proof. rewrite length_app. cbn. lia. Qed.

Lemma child_lookup ch nib : length ch = 16%nat -> (nib < 16)%nat -> ch !! nib = Some (child ch nib).
Proof. intros Hl Hn. destruct (lookup_lt_is_Some_2 ch nib ltac:(lia)) as [t Ht]. rewrite Ht. f_equal. unfold child. by rewrite (nth_lookup_Some ch nib Empty t Ht). Qed.
Lemma child_nibble ch k d : length ch = 16%nat -> ch !! nibbleAt k d = Some (child ch (nibbleAt k d)).
Proof. intros Hl. apply child_lookup; [done|apply nibbleAt_bound]. Qed.
Lemma child_insert ch nib t i : length ch = 16%nat -> (nib < 16)%nat -> (i < 16)%nat -> child (<[nib := t]> ch) i = if bool_decide (i = nib) then t else child ch i.
Proof.
  intros Hl Hn Hi. assert (E : <[nib := t]> ch !! i = Some (child (<[nib := t]> ch) i)) by (apply child_lookup; [by rewrite length_insert|done]).
  case_bool_decide as H; [subst i; rewrite list_lookup_insert_eq in E by lia; congruence|]. rewrite list_lookup_insert_ne in E by done. rewrite (child_lookup ch i) in E by done. congruence.
Qed.

(** ** What a trie holds *)

Lemma get_under n pre t k c : wf n pre t -> levels n pre -> get_at n (length pre) t k = Some c -> under pre k /\ length k = 16%nat /\ hash_wf c.
Proof.
  induction 1 as [|n pre id c0 Hl Hc Hu|n pre ch Hl _ Hch IH]; intros HL; unfold newLeaf, newNode; autorewrite with trie; [done|case_bool_decide; [|done]; intros [= <-]; by subst|].
  intros Hg. pose proof (child_nibble ch k (length pre) Hl) as Hi. destruct (IH _ _ Hi (levels_snoc _ _ _ HL)) as (H1 & H2); [by rewrite length_snoc|]. by apply under_snoc in H1 as [? _].
Qed.

Lemma wf_entry n pre t : wf n pre t -> levels n pre -> t <> Empty -> exists k c, get_at n (length pre) t k = Some c.
Proof.
  induction 1 as [|n pre id c0 Hl Hc Hu|n pre ch Hl Hcr Hch IH]; intros HL Hne; [done|exists id, c0; unfold newLeaf; autorewrite with trie; by rewrite bool_decide_true by done|].
  assert (Hi : exists i t, ch !! i = Some t /\ t <> Empty) by (destruct Hcr as [(i & j & t & u & _ & Hi & _ & Ht & _)|(i & h & c & Hi)]; [by exists i, t|by eexists i, _]).
  destruct Hi as (i & t & Hi & Ht). destruct (IH i t Hi (levels_snoc _ _ _ HL) Ht) as (k & c & Hg). rewrite length_snoc in Hg. exists k, c. cbn [get_at newNode].
  destruct (get_under _ _ _ _ _ (Hch i t Hi) (levels_snoc _ _ _ HL) ltac:(by rewrite length_snoc)) as ([_ Hn]%under_snoc & _). rewrite Hn. unfold child. by rewrite (nth_lookup_Some ch i Empty t Hi).
Qed.

(** An entry of a child is one of the node. *)
Lemma get_child n pre ch i t k c : wf n (pre ++ [i]) t -> levels (S n) pre -> ch !! i = Some t -> get_at n (S (length pre)) t k = Some c ->
  nibbleAt k (length pre) = i /\ get_at (S n) (length pre) (newNode ch) k = Some c.
Proof.
  intros Hw HL Hi Hg. rewrite <- (length_snoc pre i) in Hg. destruct (get_under _ _ _ _ _ Hw (levels_snoc _ _ _ HL) Hg) as ([_ Hn]%under_snoc & _). split; [done|].
  cbn [get_at newNode]. rewrite Hn. unfold child. rewrite (nth_lookup_Some ch i Empty t Hi). by rewrite <- (length_snoc pre i).
Qed.

Lemma wf_two n pre t : wf n pre t -> levels n pre -> (exists h ch, t = Node h ch) -> exists k k' c c', k <> k' /\ get_at n (length pre) t k = Some c /\ get_at n (length pre) t k' = Some c'.
Proof.
  induction 1 as [|n pre id c0 Hl Hc Hu|n pre ch Hl Hcr Hch IH]; intros HL (h & ch' & Hn); [done..|]. clear Hn. destruct Hcr as [(i & j & t & u & Hij & Hi & Hj & Ht & Hu)|(i & h' & c' & Hi)].
  - destruct (wf_entry _ _ _ (Hch i t Hi) (levels_snoc _ _ _ HL) Ht) as (k & c & Hk). destruct (wf_entry _ _ _ (Hch j u Hj) (levels_snoc _ _ _ HL) Hu) as (k' & c' & Hk'). rewrite length_snoc in Hk, Hk'.
    destruct (get_child _ _ ch _ _ _ _ (Hch i t Hi) HL Hi Hk) as [N1 G1]. destruct (get_child _ _ ch _ _ _ _ (Hch j u Hj) HL Hj Hk') as [N2 G2]. exists k, k', c, c'. split_and!; [congruence|done..].
  - destruct (IH i _ Hi (levels_snoc _ _ _ HL) ltac:(by eexists _, _)) as (k & k' & c1 & c2 & Hne & H1 & H2). rewrite length_snoc in H1, H2.
    destruct (get_child _ _ ch _ _ _ _ (Hch i _ Hi) HL Hi H1) as [_ G1]. destruct (get_child _ _ ch _ _ _ _ (Hch i _ Hi) HL Hi H2) as [_ G2]. by exists k, k', c1, c2.
Qed.

(** ** One shape *)

(** Two tries at one position that hold the same entries are the same. *)
Lemma canonical_at n pre t t' : wf n pre t -> wf n pre t' -> levels n pre -> (forall k, get_at n (length pre) t k = get_at n (length pre) t' k) -> t = t'.
Proof.
  intros H. revert t'. induction H as [n pre|n pre id c Hl Hc Hu|n pre ch Hl Hcr Hch IH]; intros t' H' HL Hg.
  - destruct t' as [|h id c|h ch]; [done|..]; (destruct (wf_entry _ _ _ H' HL ltac:(done)) as (k & c' & Hk); by rewrite <- Hg, get_empty in Hk).
  - inversion H' as [|? ? id' c' Hl' Hc' Hu'|? ? ch' Hl' Hcr' Hch']; subst.
    + specialize (Hg id). unfold newLeaf in Hg. autorewrite with trie in Hg. by rewrite bool_decide_true in Hg by done.
    + specialize (Hg id). unfold newLeaf in Hg. autorewrite with trie in Hg. rewrite bool_decide_true in Hg by done. case_bool_decide; [|done]. by simplify_eq.
    + destruct (wf_two _ _ _ H' HL ltac:(by eexists _, _)) as (k & k' & c1 & c2 & Hne & H1 & H2). rewrite <- Hg in H1, H2. unfold newLeaf in H1, H2. autorewrite with trie in H1, H2. repeat case_bool_decide; congruence.
  - inversion H' as [|? ? id' c' Hl' Hc' Hu'|? ? ch' Hl' Hcr' Hch']; subst.
    + destruct (wf_entry _ _ _ (wf_node _ _ _ Hl Hcr Hch) HL ltac:(done)) as (k & c & Hk). by rewrite Hg, get_empty in Hk.
    + destruct (wf_two _ _ _ (wf_node _ _ _ Hl Hcr Hch) HL ltac:(by eexists _, _)) as (k & k' & c1 & c2 & Hne & H1 & H2). rewrite Hg in H1, H2. unfold newLeaf in H1, H2. autorewrite with trie in H1, H2. repeat case_bool_decide; congruence.
    + f_equal. apply list_eq_same_length with 16%nat; [done..|]. intros i t u Hi Ht Hu. apply (IH i t Ht u (Hch' i u Hu) (levels_snoc _ _ _ HL)). intros k. rewrite length_snoc.
      assert (Hall : forall ch t, (forall i t, ch !! i = Some t -> wf n (pre ++ [i]) t) -> ch !! i = Some t -> get_at n (S (length pre)) t k = if bool_decide (nibbleAt k (length pre) = i) then get_at (S n) (length pre) (newNode ch) k else None).
      { intros ch0 t0 H0 Hi0. case_bool_decide as E; [cbn [get_at newNode]; rewrite E; unfold child; by rewrite (nth_lookup_Some ch0 i Empty t0 Hi0)|].
        destruct (get_at n (S (length pre)) t0 k) as [c|] eqn:Eg; [|done]. by destruct (get_child _ _ ch0 _ _ _ _ (H0 i t0 Hi0) HL Hi0 Eg). }
      rewrite (Hall ch t Hch Ht), (Hall ch' u Hch' Hu). case_bool_decide; [apply Hg|done].
Qed.

(** ** Updates *)

Lemma no_children_length : length no_children = 16%nat.
Proof. done. Qed.
Lemma child_none i : child no_children i = Empty.
Proof. unfold child, no_children. destruct (nth_in_or_default i (replicate 16 Empty) Empty) as [H|H]; [|done]. apply list_elem_of_In, elem_of_replicate in H. by destruct H. Qed.

(** Children that are well-formed where they stand. *)
Definition wf_children (n : nat) (pre : list nat) (ch : list trie) : Prop := length ch = 16%nat /\ forall i t, ch !! i = Some t -> wf n (pre ++ [i]) t.

Lemma wf_no_children n pre : wf_children n pre no_children.
Proof. split; [done|]. intros i t Ht. unfold no_children in Ht. apply lookup_replicate in Ht as [-> _]. constructor. Qed.
Lemma wf_children_insert n pre ch nib t : wf_children n pre ch -> wf n (pre ++ [nib]) t -> wf_children n pre (<[nib := t]> ch).
Proof.
  intros [Hl H] Ht. split; [by rewrite length_insert|]. intros i u Hu. destruct (decide (i = nib)) as [->|Hne]; [|rewrite list_lookup_insert_ne in Hu by done; by apply H].
  apply list_lookup_insert_Some in Hu as [(_ & <- & _)|[]]; done.
Qed.
Lemma wf_child n pre ch nib : wf_children n pre ch -> (nib < 16)%nat -> wf n (pre ++ [nib]) (child ch nib).
Proof. intros [Hl H] Hn. apply H. by apply child_lookup. Qed.
Lemma wf_newNode n pre ch : wf_children n pre ch -> crowded ch -> wf (S n) pre (newNode ch).
Proof. intros [Hl H] Hc. by constructor. Qed.
Lemma wf_children_of n pre h ch : wf n pre (Node h ch) -> exists n', n = S n' /\ wf_children n' pre ch /\ crowded ch.
Proof. inversion 1; subst. eexists. split; [done|]. by repeat split. Qed.

(** What a node holds after one child was replaced. *)
Lemma get_newNode_insert n d ch nib t k : length ch = 16%nat -> (nib < 16)%nat ->
  get_at (S n) d (newNode (<[nib := t]> ch)) k = if bool_decide (nibbleAt k d = nib) then get_at n (S d) t k else get_at n (S d) (child ch (nibbleAt k d)) k.
Proof. intros Hl Hn. unfold newNode. rewrite get_node, child_insert by (done || apply nibbleAt_bound). by case_bool_decide. Qed.

Definition is_node (t : trie) : Prop := exists h ch, t = Node h ch.

Lemma split_spec n : forall pre id c0 k c, levels n pre -> id <> k -> length id = 16%nat -> length k = 16%nat -> hash_wf c0 -> hash_wf c -> under pre id -> under pre k ->
  let t := split_at n (length pre) id c0 k c in
  wf n pre t /\ is_node t /\ forall k', get_at n (length pre) t k' = if bool_decide (k' = k) then Some c else if bool_decide (k' = id) then Some c0 else None.
Proof.
  cbn. induction n as [|n IH]; intros pre id c0 k c HL Hne Hid Hk Hc0 Hc Ui Uk.
  { destruct Hne. apply (under_inj pre); [unfold levels in HL; lia|done..]. }
  cbn [split_at]. pose proof (nibbleAt_bound k (length pre)) as Bk. pose proof (nibbleAt_bound id (length pre)) as Bi. case_bool_decide as E.
  - assert (Ui' : under (pre ++ [nibbleAt k (length pre)]) id) by (by apply under_snoc). assert (Uk' : under (pre ++ [nibbleAt k (length pre)]) k) by (by apply under_snoc).
    destruct (IH _ id c0 k c (levels_snoc _ _ _ HL) Hne Hid Hk Hc0 Hc Ui' Uk') as (W & (h & ch & N) & G). rewrite length_snoc in W, N, G. split_and!; [|by eexists _, _|].
    + apply wf_newNode; [by apply wf_children_insert, W; apply wf_no_children|]. right. exists (nibbleAt k (length pre)), h, ch. by rewrite list_lookup_insert_eq, N.
    + intros k'. rewrite get_newNode_insert by done. rewrite child_none, get_empty, G. case_bool_decide as E'; [done|]. repeat case_bool_decide; congruence.
  - assert (Hw : wf_children n pre (<[nibbleAt k (length pre) := newLeaf k c (S (length pre))]> (<[nibbleAt id (length pre) := newLeaf id c0 (S (length pre))]> no_children))).
    { apply wf_children_insert; [apply wf_children_insert; [apply wf_no_children|]|].
      - rewrite <- (length_snoc pre (nibbleAt id (length pre))). apply wf_leaf; [done..|]. by apply under_snoc.
      - rewrite <- (length_snoc pre (nibbleAt k (length pre))). apply wf_leaf; [done..|]. by apply under_snoc. }
    split_and!; [|by eexists _, _|].
    + apply wf_newNode; [exact Hw|]. left. exists (nibbleAt id (length pre)), (nibbleAt k (length pre)), (newLeaf id c0 (S (length pre))), (newLeaf k c (S (length pre))). split_and!; [done| | |done..].
      * rewrite list_lookup_insert_ne by done. by rewrite list_lookup_insert_eq.
      * by rewrite list_lookup_insert_eq by (rewrite length_insert; exact Bk).
    + intros k'. rewrite get_newNode_insert by (rewrite ?length_insert; done). unfold newLeaf at 1. rewrite get_leaf, child_insert by (done || apply nibbleAt_bound). rewrite child_none.
      repeat case_bool_decide; try congruence; unfold newLeaf; rewrite ?get_leaf, ?get_empty; repeat case_bool_decide; congruence.
Qed.

Lemma crowded_insert n pre ch nib t : wf_children n pre ch -> crowded ch -> (nib < 16)%nat -> t <> Empty -> (is_node (child ch nib) -> is_node t) -> crowded (<[nib := t]> ch).
Proof.
  intros [Hl _] Hc Hn Ht Hnode. destruct Hc as [(i & j & u & v & Hij & Hi & Hj & Hu & Hv)|(i & h & c & Hi)].
  - left. exists i, j. assert (Hx : forall i u, ch !! i = Some u -> u <> Empty -> exists u', <[nib := t]> ch !! i = Some u' /\ u' <> Empty).
    { intros i0 u0 H0 Hu0. destruct (decide (i0 = nib)) as [->|]; [exists t; by rewrite list_lookup_insert_eq by lia|exists u0; by rewrite list_lookup_insert_ne]. }
    destruct (Hx i u Hi Hu) as (u' & ? & ?), (Hx j v Hj Hv) as (v' & ? & ?). by exists u', v'.
  - right. destruct (decide (i = nib)) as [->|]; [|exists i, h, c; by rewrite list_lookup_insert_ne]. destruct Hnode as (h' & c' & ->); [rewrite (child_lookup ch nib) in Hi by done; injection Hi as ->; by eexists _, _|].
    exists nib, h', c'. by rewrite list_lookup_insert_eq by lia.
Qed.

(** The trie with a key set, at the position that the nibbles lead to. *)
Definition sets (n : nat) (pre : list nat) (t : trie) (k : bytes) (c : Hash) (t' : trie) : Prop :=
  wf n pre t' /\ t' <> Empty /\ (is_node t -> is_node t') /\ forall k', get_at n (length pre) t' k' = if bool_decide (k' = k) then Some c else get_at n (length pre) t k'.

Lemma newLeaf_sets n pre k c : length k = 16%nat -> hash_wf c -> under pre k -> sets n pre Empty k c (newLeaf k c (length pre)).
Proof. intros. split_and!; [by apply wf_leaf|done|by intros (? & ? & ?)|]. intros k'. unfold newLeaf. rewrite get_leaf, get_empty. repeat case_bool_decide; congruence. Qed.

Lemma insert_leaf_sets n pre h id c0 k c : wf n pre (Leaf h id c0) -> levels n pre -> length k = 16%nat -> hash_wf c -> under pre k ->
  sets n pre (Leaf h id c0) k c (insert_at n (length pre) (Leaf h id c0) k c).
Proof.
  intros Hw HL Hk Hc Hu. rewrite insert_leaf. inversion Hw as [|? ? ? ? Hid Hc0 Hui|]; subst. case_bool_decide as E.
  - subst id. split_and!; [by apply wf_leaf|done|by intros (? & ? & ?)|]. intros k'. unfold newLeaf. rewrite !get_leaf. repeat case_bool_decide; congruence.
  - destruct (split_spec n pre id c0 k c HL E Hid Hk Hc0 Hc Hui Hu) as (W & N & G). split_and!; [exact W|by destruct N as (? & ? & ->)|done|].
    intros k'. rewrite G, get_leaf. repeat case_bool_decide; congruence.
Qed.

Lemma insert_spec n : forall pre t k c, wf n pre t -> levels n pre -> length k = 16%nat -> hash_wf c -> under pre k -> sets n pre t k c (insert_at n (length pre) t k c).
Proof.
  induction n as [|n IH]; intros pre t k c Hw HL Hk Hc Hu; (destruct t as [|h id c0|h ch]; [rewrite insert_empty; by apply newLeaf_sets|by apply insert_leaf_sets|]).
  - apply wf_children_of in Hw as (n' & [=] & _).
  - apply wf_children_of in Hw as (n' & [= <-] & Hch & Hcr). cbn [insert_at]. pose proof (nibbleAt_bound k (length pre)) as Bk. set (nib := nibbleAt k (length pre)) in *.
    destruct (IH (pre ++ [nib]) (child ch nib) k c) as (W & N1 & N2 & G); [by apply wf_child|by apply levels_snoc|done..|by apply under_snoc|]. rewrite length_snoc in *.
    split_and!; [|done|by intros _; eexists _, _|].
    + apply wf_newNode; [by apply wf_children_insert|by eapply crowded_insert].
    + intros k'. rewrite get_newNode_insert by (done || apply Hch). rewrite G, get_node. case_bool_decide as E; [by rewrite E|]. rewrite bool_decide_false; [done|]. by intros ->.
Qed.

Definition occupied (t : trie) : bool := match t with Empty => false | _ => true end.

(** The children that are not empty: none, one, or more. *)
Lemma occupied_cases ch : 
  (forall i t, ch !! i = Some t -> t = Empty) /\ List.filter occupied ch = [] \/
  (exists i t, ch !! i = Some t /\ t <> Empty /\ List.filter occupied ch = [t] /\ forall j u, ch !! j = Some u -> j <> i -> u = Empty) \/
  (exists i j t u r, i <> j /\ ch !! i = Some t /\ ch !! j = Some u /\ t <> Empty /\ u <> Empty /\ List.filter occupied ch = t :: u :: r).
Proof.
  induction ch as [|t ch IH]; [left; split; [intros i t; by rewrite lookup_nil|done]|]. cbn [List.filter]. destruct (occupied t) eqn:Et.
  - assert (Ht : t <> Empty) by (by intros ->). right. destruct IH as [[H E]|[(i & u & Hi & Hu & E & H)|(i & j & u & v & r & Hij & Hi & Hj & Hu & Hv & E)]]; rewrite E.
    + left. exists 0%nat, t. split_and!; [done..|]. intros [|j] u Hu Hj; [done|by eapply H].
    + right. exists 0%nat, (S i), t, u, []. by split_and!.
    + right. exists 0%nat, (S i), t, u, (v :: r). by split_and!.
  - assert (t = Empty) as -> by (by destruct t). destruct IH as [[H E]|[(i & u & Hi & Hu & E & H)|(i & j & u & v & r & Hij & Hi & Hj & Hu & Hv & E)]]; rewrite E.
    + left. split; [|done]. intros [|i] u; [by intros [= <-]|apply H].
    + right; left. exists (S i), u. split_and!; [done..|]. intros [|j] v Hv Hj; [by injection Hv|]. apply (H j); [done|congruence].
    + right; right. exists (S i), (S j), u, v, r. split_and!; [congruence|done..].
Qed.

Lemma shrink_spec n pre ch : levels (S n) pre -> wf_children n pre ch ->
  wf (S n) pre (shrink (length pre) ch) /\ forall k, get_at (S n) (length pre) (shrink (length pre) ch) k = get_at n (S (length pre)) (child ch (nibbleAt k (length pre))) k.
Proof.
  intros HL Hw. pose proof Hw as [Hl Hch]. unfold shrink. fold occupied. destruct (occupied_cases ch) as [[H E]|[(i & t & Hi & Ht & E & H)|(i & j & t & u & r & Hij & Hi & Hj & Ht & Hu & E)]]; rewrite E.
  - split; [constructor|]. intros k. rewrite get_empty. by rewrite (H _ _ (child_nibble ch k (length pre) Hl)), get_empty.
  - destruct t as [|h id c|h ch']; [done| |].
    + pose proof (Hch i _ Hi) as Hwl. inversion Hwl as [|? ? ? ? Hid Hc Hu|]; subst. apply under_snoc in Hu as [Hu Hn]. split; [by apply wf_leaf|]. intros k. unfold newLeaf at 1. rewrite get_leaf.
      pose proof (child_nibble ch k (length pre) Hl) as Hk. destruct (decide (nibbleAt k (length pre) = i)) as [Ek|Ek].
      * rewrite Ek, Hi in Hk. injection Hk as Hk. rewrite Ek, <- Hk. by rewrite get_leaf.
      * rewrite (H _ _ Hk Ek), get_empty. rewrite bool_decide_false; [done|]. intros ->. by apply Ek.
    + split; [|done]. apply wf_newNode; [done|]. right. by exists i, h, ch'.
  - assert (Hc : crowded ch) by (left; by exists i, j, t, u). destruct t as [|h id c|h ch']; [done|..]; (split; [by apply wf_newNode|done]).
Qed.

Lemma delete_spec n : forall pre t k, wf n pre t -> levels n pre -> under pre k ->
  wf n pre (delete_at n (length pre) t k) /\ forall k', get_at n (length pre) (delete_at n (length pre) t k) k' = if bool_decide (k' = k) then None else get_at n (length pre) t k'.
Proof.
  assert (Hleaf : forall n pre h id c k, wf n pre (Leaf h id c) -> wf n pre (delete_at n (length pre) (Leaf h id c) k) /\
    forall k', get_at n (length pre) (delete_at n (length pre) (Leaf h id c) k) k' = if bool_decide (k' = k) then None else get_at n (length pre) (Leaf h id c) k').
  { intros m pre h id c k Hw. rewrite delete_leaf. case_bool_decide; (split; [by constructor || done|]); intros k'; autorewrite with trie; repeat case_bool_decide; congruence. }
  induction n as [|n IH]; intros pre t k Hw HL Hu; (destruct t as [|h id c0|h ch]; [rewrite delete_empty; split; [done|]; intros k'; autorewrite with trie; by case_bool_decide|by apply Hleaf|]).
  - apply wf_children_of in Hw as (n' & [=] & _).
  - apply wf_children_of in Hw as (n' & [= <-] & Hch & Hcr). cbn [delete_at]. pose proof (nibbleAt_bound k (length pre)) as Bk. set (nib := nibbleAt k (length pre)) in *.
    destruct (IH (pre ++ [nib]) (child ch nib) k) as (W & G); [by apply wf_child|by apply levels_snoc|by apply under_snoc|]. rewrite length_snoc in *.
    destruct (shrink_spec n pre (<[nib := delete_at n (S (length pre)) (child ch nib) k]> ch) HL) as [W' G']; [by apply wf_children_insert|]. split; [done|].
    intros k'. rewrite G', get_node, child_insert by (apply Hch || apply nibbleAt_bound). case_bool_decide as E; [by rewrite E, G|]. rewrite bool_decide_false; [done|]. by intros ->.
Qed.

End TrieCorrect.
