(* ===== verification/TrieWalk.v ===== *)
(** Walks over a trie visit its entries in the order of their identifiers, and its hash
    is that of the uncompressed tree of those entries. *)

From S2P Require Import Prelude Primitives Sha256 KeyEnc KeyOrder TrieHash Trie TrieCorrect.
Import Primitives TrieHash Trie TrieCorrect.

Module TrieWalk.

(** ** Order of keys *)

Definition key_lt (a b : bytes) : Prop := bytes_leb b a = false.

Lemma leb_app p a b : bytes_leb (p ++ a) (p ++ b) = bytes_leb a b.
Proof. induction p as [|x p IH]; cbn; [done|]. by rewrite Z.ltb_irrefl. Qed.

Lemma leb_compare a b : bytes_leb a b = match KeyEnc.bytes_compare a b with Gt => false | _ => true end.
Proof. revert b. induction a as [|x a IH]; intros [|y b]; cbn; [done..|]. destruct (Z.compare_spec (b2z x) (b2z y)) as [E|E|E]; destruct (Z.ltb_spec (b2z x) (b2z y)), (Z.ltb_spec (b2z y) (b2z x)); try lia; done. Qed.

(** Keys that part at a nibble compare as the nibbles do. *)
Lemma nibble_byte k d : nibbleAt k d = Z.to_nat (if Nat.even d then b2z (nth (d / 2) k x00) / 16 else b2z (nth (d / 2) k x00) mod 16).
Proof. unfold nibbleAt. rewrite Z.shiftr_div_pow2 by lia. change 0x0f with (Z.ones 4). by rewrite Z.land_ones by lia. Qed.

Lemma nibble_lt k k' d : length k = 16%nat -> length k' = 16%nat -> (d < trieDepth)%nat -> (forall i, (i < d)%nat -> nibbleAt k i = nibbleAt k' i) -> (nibbleAt k d < nibbleAt k' d)%nat -> key_lt k k'.
Proof.
  intros Hk Hk' Hd He Hlt. set (j := (d / 2)%nat). assert (Hj : (j < 16)%nat) by (unfold j, trieDepth in *; apply Nat.Div0.div_lt_upper_bound; lia).
  assert (Hpre : take j k = take j k').
  { apply list_eq_same_length with j; [rewrite length_take; lia..|]. intros i x y Hi Hx Hy. rewrite lookup_take_lt in Hx, Hy by done. apply (nth_lookup_Some k i x00 x) in Hx. apply (nth_lookup_Some k' i x00 y) in Hy.
    assert (Hdiv : (2 * i / 2 = i)%nat /\ ((2 * i + 1) / 2 = i)%nat) by (rewrite (Nat.mul_comm 2), Nat.div_mul, Nat.div_add_l by lia; cbn; lia). destruct Hdiv as [D1 D2].
    assert (H2j : (2 * j <= d)%nat) by (unfold j; apply Nat.Div0.mul_div_le).
    pose proof (He (2 * i)%nat ltac:(lia)) as H1. pose proof (He (2 * i + 1)%nat ltac:(lia)) as H2. rewrite !nibble_byte, D1, Hx, Hy in H1. rewrite !nibble_byte, D2, Hx, Hy in H2.
    rewrite Nat.even_mul in H1. rewrite Nat.even_add, Nat.even_mul in H2. cbn in H1, H2. apply b2z_inj. pose proof (b2z_range x). pose proof (b2z_range y). zdm. }
  rewrite <- (take_drop j k), <- (take_drop j k'), Hpre. unfold key_lt. rewrite leb_app.
  destruct (drop j k) as [|x r] eqn:Ek; [exfalso; assert (L : length (drop j k) = 0%nat) by (by rewrite Ek); rewrite length_drop in L; lia|]. destruct (drop j k') as [|y r'] eqn:Ek'; [exfalso; assert (L : length (drop j k') = 0%nat) by (by rewrite Ek'); rewrite length_drop in L; lia|].
  assert (Hx : nth j k x00 = x) by (rewrite <- (Nat.add_0_r j), <- nth_skipn; by rewrite Ek). assert (Hy : nth j k' x00 = y) by (rewrite <- (Nat.add_0_r j), <- nth_skipn; by rewrite Ek').
  rewrite !nibble_byte in Hlt. fold j in Hlt. rewrite Hx, Hy in Hlt. cbn [bytes_leb]. pose proof (b2z_range x). pose proof (b2z_range y).
  assert (b2z x < b2z y).
  { destruct (Nat.even d) eqn:Ev; [zdm|]. assert (Hodd : d = (2 * j + 1)%nat). { unfold j. rewrite (Nat.div_mod_eq d 2) at 1. pose proof (Nat.mod_upper_bound d 2 ltac:(lia)). destruct (decide (d mod 2 = 0)%nat) as [E|]; [|lia]. apply Nat.Div0.mod_divides in E as [c ->]. by rewrite Nat.even_mul in Ev. }
    pose proof (He (2 * j)%nat ltac:(lia)) as H1. rewrite !nibble_byte in H1. replace (2 * j / 2)%nat with j in H1 by (rewrite Nat.mul_comm, Nat.div_mul; lia). rewrite Hx, Hy, Nat.even_mul in H1. cbn in H1. zdm. }
  replace (b2z y <? b2z x) with false by lia. by replace (b2z x <? b2z y) with true by lia.
Qed.

(** ** Identifiers *)

Lemma uuidKey_length id : length (uuidKey id) = 16%nat.
Proof. unfold uuidKey. by rewrite length_app, !be_bytes_length. Qed.
Lemma keyUUID_wf k : uuid_wf (keyUUID k).
Proof. split; apply wraps_range; lia. Qed.
Lemma keyUUID_uuidKey id : uuid_wf id -> keyUUID (uuidKey id) = id.
Proof.
  intros [H1 H2]. unfold keyUUID, uuidKey. rewrite take_app_length', drop_app_length' by (by rewrite be_bytes_length). rewrite !wraps_be_val by done. by destruct id.
Qed.

Lemma be_bytes_wraps v : be_bytes 8 (wraps 64 v) = be_bytes 8 v.
Proof. rewrite <- (KeyOrder.be_bytes_mod 8 (wraps 64 v)), <- (KeyOrder.be_bytes_mod 8 v). f_equal. unfold wraps. change (8 * Z.of_nat 8) with 64. rewrite Zminus_mod_idemp_l. f_equal. lia. Qed.
Lemma uuidKey_keyUUID k : length k = 16%nat -> uuidKey (keyUUID k) = k.
Proof.
  intros Hk. unfold uuidKey, keyUUID. cbn [MSB LSB]. rewrite !be_bytes_wraps.
  assert (H1 : length (take 8 k) = 8%nat) by (rewrite length_take; lia). assert (H2 : length (drop 8 k) = 8%nat) by (rewrite length_drop; lia).
  pose proof (be_bytes_val (take 8 k)) as E1. pose proof (be_bytes_val (drop 8 k)) as E2. rewrite H1 in E1. rewrite H2 in E2. rewrite E1, E2. apply take_drop.
Qed.

Lemma uuidAfter_spec a b : uuid_wf a -> uuid_wf b -> uuidAfter a b = negb (bytes_leb (uuidKey a) (uuidKey b)).
Proof.
  intros [Ha1 Ha2] [Hb1 Hb2]. unfold uuidKey, uuidAfter. rewrite <- (KeyOrder.be_bytes_mod 8 (MSB a)), <- (KeyOrder.be_bytes_mod 8 (LSB a)), <- (KeyOrder.be_bytes_mod 8 (MSB b)), <- (KeyOrder.be_bytes_mod 8 (LSB b)).
  change (8 * Z.of_nat 8) with 64. fold (wrapu 64 (MSB a)) (wrapu 64 (MSB b)) (wrapu 64 (LSB a)) (wrapu 64 (LSB b)).
  rewrite leb_compare, KeyOrder.cmp_be, KeyOrder.cmp_be_bytes by (apply wrapu_range; lia). 
  assert (Hm : MSB a = MSB b <-> wrapu 64 (MSB a) = wrapu 64 (MSB b)). { split; [congruence|]. intros E. rewrite <- (wraps_id 64 (MSB a)), <- (wraps_id 64 (MSB b)) by (done || lia). rewrite <- (wraps_wrapu 64 (MSB a)), <- (wraps_wrapu 64 (MSB b)) by lia. by rewrite E. }
  case_bool_decide as E.
  - destruct (Z.compare_spec (wrapu 64 (MSB a)) (wrapu 64 (MSB b))) as [E'|E'|E']; [by rewrite Hm in E|cbn; lia|cbn; lia].
  - assert (Em : wrapu 64 (MSB a) = wrapu 64 (MSB b)) by (apply Hm; destruct (decide (MSB a = MSB b)); [done|tauto]). rewrite Em, Z.compare_refl. cbn.
    destruct (Z.compare_spec (wrapu 64 (LSB a)) (wrapu 64 (LSB b))); cbn; lia.
Qed.

(** ** Walks *)

Lemma walk_get n pre t : wf n pre t -> levels n pre -> forall k c, (k, c) ∈ walk t <-> get_at n (length pre) t k = Some c.
Proof.
  induction 1 as [n pre|n pre id c0 Hl Hc Hu|n pre ch Hl Hcr Hch IH]; intros HL k c; cbn [walk].
  - rewrite get_empty. split; [by intros ?%not_elem_of_nil|done].
  - unfold newLeaf. rewrite get_leaf. cbn [walk]. rewrite list_elem_of_singleton. case_bool_decide; naive_solver.
  - unfold newNode at 1. cbn [walk]. rewrite elem_of_concat_map. split.
    + intros (t & [i Hi]%list_elem_of_lookup & Hin). apply (IH i t Hi (levels_snoc _ _ _ HL)) in Hin. rewrite length_snoc in Hin. by destruct (get_child _ _ ch _ _ _ _ (Hch i t Hi) HL Hi Hin).
    + unfold newNode. rewrite get_node. intros Hg. pose proof (child_nibble ch k (length pre) Hl) as Hi. exists (child ch (nibbleAt k (length pre))). split; [by eapply list_elem_of_lookup_2|].
      apply (IH _ _ Hi (levels_snoc _ _ _ HL)). by rewrite length_snoc.
Qed.

Lemma walk_under n pre t k c : wf n pre t -> levels n pre -> (k, c) ∈ walk t -> under pre k /\ length k = 16%nat /\ hash_wf c.
Proof. intros Hw HL Hin. apply (walk_get n pre t Hw HL) in Hin. by eapply get_under. Qed.

Definition entry_lt (a b : bytes * Hash) : Prop := key_lt a.1 b.1.

(** Entries of children in order are in order. *)
Lemma under_lt pre i j k k' : (length pre < trieDepth)%nat -> (i < j)%nat -> length k = 16%nat -> length k' = 16%nat -> under (pre ++ [i]) k -> under (pre ++ [j]) k' -> key_lt k k'.
Proof.
  intros HL Hij Hk Hk' [Hu Hi]%under_snoc [Hu' Hj]%under_snoc. apply (nibble_lt k k' (length pre)); [done..| |by rewrite Hi, Hj].
  intros x Hx. destruct (lookup_lt_is_Some_2 pre x Hx) as [y Hy]. by rewrite (Hu x y Hy), (Hu' x y Hy).
Qed.

Lemma walk_sorted n pre t : wf n pre t -> levels n pre -> StronglySorted entry_lt (walk t).
Proof.
  induction 1 as [n pre|n pre id c0 Hl Hc Hu|n pre ch Hl Hcr Hch IH]; intros HL; cbn [walk newLeaf newNode]; [constructor|repeat constructor|].
  apply StronglySorted_concat.
  - intros i l Hi. apply list_lookup_fmap_Some in Hi as (t & -> & Ht). exact (IH i t Ht (levels_snoc _ _ _ HL)).
  - intros i j l l' [k c] [k' c'] Hij Hi Hj Hx Hy. apply list_lookup_fmap_Some in Hi as (t & -> & Ht), Hj as (t' & -> & Ht').
    destruct (walk_under _ _ _ _ _ (Hch i t Ht) (levels_snoc _ _ _ HL) Hx) as (U & L & _). destruct (walk_under _ _ _ _ _ (Hch j t' Ht') (levels_snoc _ _ _ HL) Hy) as (U' & L' & _).
    apply (under_lt pre i j); [unfold levels in HL; lia|done..].
Qed.

(** Visiting a list until the visitor has had enough. *)
Fixpoint fold_until {S A} (visit : S -> A -> S * bool) (s : S) (l : list A) : S * bool :=
  match l with [] => (s, true) | x :: l => let '(s, more) := visit s x in if more then fold_until visit s l else (s, false) end.

Lemma fold_until_app {S A} (visit : S -> A -> S * bool) s l l' :
  fold_until visit s (l ++ l') = let '(s, more) := fold_until visit s l in if more then fold_until visit s l' else (s, false).
Proof. revert s. induction l as [|x l IH]; intros s; cbn; [done|]. destruct (visit s x) as [s1 []]; [apply IH|done]. Qed.

Section trie_ind.
Context (P : trie -> Prop).
Hypotheses (He : P Empty) (Hl : forall h id c, P (Leaf h id c)) (Hn : forall h ch, Forall P ch -> P (Node h ch)).
Fixpoint trie_nested (t : trie) : P t :=
  match t with
  | Empty => He | Leaf h id c => Hl h id c
  | Node h ch => Hn h ch ((fix go l : Forall P l := match l with [] => Forall_nil_2 _ | t :: l => Forall_cons_2 _ _ _ (trie_nested t) (go l) end) ch)
  end.
End trie_ind.

Lemma walk_children_list {S} (visit : S -> bytes * Hash -> S * bool) l :
  Forall (fun t => forall s, walk_until visit s t = fold_until visit s (walk t)) l -> forall s, walk_children visit s l = fold_until visit s (concat (map walk l)).
Proof. induction 1 as [|t l Ht _ IH]; intros s; cbn [walk_children map concat]; [done|]. rewrite fold_until_app, Ht. destruct (fold_until visit s (walk t)) as [s1 []]; [apply IH|done]. Qed.

Lemma walk_until_list {S} (visit : S -> bytes * Hash -> S * bool) t : forall s, walk_until visit s t = fold_until visit s (walk t).
Proof.
  induction t as [|h id c|h ch IH] using trie_nested; intros s; cbn [walk]; [done|cbn; by destruct (visit s (id, c)) as [s1 []]|].
  rewrite <- (walk_children_list visit ch IH s). clear IH. cbn [walk_until]. revert s. induction ch as [|t ch IH]; intros s; cbn [walk_children]; [done|]. destruct (walk_until visit s t) as [s1 []]; [apply IH|done].
Qed.
Lemma walk_children_walks {S} (visit : S -> bytes * Hash -> S * bool) l s : walk_children visit s l = fold_until visit s (concat (map walk l)).
Proof. apply walk_children_list. apply Forall_forall. intros t _. apply walk_until_list. Qed.

(** The entries after an identifier. *)
Definition after_id (after : UUID) (e : bytes * Hash) : bool := uuidAfter (keyUUID e.1) after.

Lemma after_id_lt after k c : uuid_wf after -> length k = 16%nat -> (key_lt (uuidKey after) k -> after_id after (k, c) = true) /\ (key_lt k (uuidKey after) -> after_id after (k, c) = false).
Proof.
  intros Ha Hk. unfold after_id. cbn [fst]. rewrite uuidAfter_spec by (done || apply keyUUID_wf). rewrite uuidKey_keyUUID by done. unfold key_lt. split; [by intros ->|].
  intros H. apply bytes_leb_total in H. by rewrite H.
Qed.

Lemma filter_none {A} (f : A -> bool) l : (forall x, x ∈ l -> f x = false) -> List.filter f l = [].
Proof. induction l as [|x l IH]; intros H; cbn; [done|]. rewrite (H x) by (by left). apply IH. intros y Hy. apply H. by right. Qed.
Lemma filter_all {A} (f : A -> bool) l : (forall x, x ∈ l -> f x = true) -> List.filter f l = l.
Proof. induction l as [|x l IH]; intros H; cbn; [done|]. rewrite (H x) by (by left). f_equal. apply IH. intros y Hy. apply H. by right. Qed.

Lemma walk_after_spec {S} (visit : S -> bytes * Hash -> S * bool) after : uuid_wf after -> forall n pre t s, wf n pre t -> levels n pre -> under pre (uuidKey after) ->
  walk_after visit n (length pre) (uuidKey after) after s t = fold_until visit s (List.filter (after_id after) (walk t)).
Proof.
  intros Ha. assert (Hleaf : forall n d h id c s, walk_after visit n d (uuidKey after) after s (Leaf h id c) = fold_until visit s (List.filter (after_id after) (walk (Leaf h id c)))).
  { intros n d h id c s. destruct n; cbn; unfold after_id; cbn [fst]; (destruct (uuidAfter _ _); cbn; [by destruct (visit s (id, c)) as [? []]|done]). }
  induction n as [|n IH]; intros pre t s Hw HL Hu; (destruct t as [|h id c|h ch]; [done|apply Hleaf|]); apply wf_children_of in Hw as (n' & [=] & Hch & _); subst n'. pose proof Hch as [Hl Hc].
  set (nib := nibbleAt (uuidKey after) (length pre)). assert (Bn : (nib < 16)%nat) by apply nibbleAt_bound. cbn [walk_after walk]. fold nib.
  rewrite <- (length_snoc pre nib), (IH (pre ++ [nib]) (child ch nib)); [|by apply wf_child|by apply levels_snoc|by apply under_snoc].
  assert (Hlt : (length pre < trieDepth)%nat) by (unfold levels in HL; lia).
  assert (E : List.filter (after_id after) (concat (map walk ch)) = List.filter (after_id after) (walk (child ch nib)) ++ concat (map walk (drop (nib + 1) ch))).
  { rewrite <- (take_drop_middle ch nib (child ch nib)) at 1 by (by apply child_lookup). rewrite map_app, concat_app, List.filter_app. cbn [map concat]. rewrite List.filter_app, <- (Nat.add_1_r nib).
    assert (Hlo : List.filter (after_id after) (concat (map walk (take nib ch))) = []).
    { apply filter_none. intros [k c] (t & Ht & Hin)%elem_of_concat_map. apply list_elem_of_lookup in Ht as [i Hi]. apply lookup_take_Some in Hi as [Hi Hlti].
      destruct (walk_under _ _ _ _ _ (Hc i t Hi) (levels_snoc _ _ _ HL) Hin) as (U & L & _). apply after_id_lt; [done..|]. apply (under_lt pre i nib); [done..|apply uuidKey_length|done|by apply under_snoc]. }
    assert (Hhi : List.filter (after_id after) (concat (map walk (drop (nib + 1) ch))) = concat (map walk (drop (nib + 1) ch))).
    { apply filter_all. intros [k c] (t & Ht & Hin)%elem_of_concat_map. apply list_elem_of_lookup in Ht as [i Hi]. rewrite lookup_drop in Hi.
      destruct (walk_under _ _ _ _ _ (Hc _ t Hi) (levels_snoc _ _ _ HL) Hin) as (U & L & _). apply after_id_lt; [done..|]. apply (under_lt pre nib (nib + 1 + i)); [done|lia|apply uuidKey_length|done|by apply under_snoc|done]. }
    by rewrite Hlo, Hhi. }
  rewrite E, fold_until_app. destruct (fold_until visit s (List.filter (after_id after) (walk (child ch nib)))) as [s1 []]; [apply walk_children_walks|done].
Qed.

(** ** The uncompressed tree *)

(** The hash of the full-depth tree over some entries: every entry at the bottom, sixteen slots at every node. *)
Fixpoint merkle (n depth : nat) (es : list (bytes * Hash)) : bytes :=
  match es with
  | [] => trieZero
  | (k, c) :: _ =>
    match n with
    | O => leafHash k c
    | S n => nodeHash (map (fun i => merkle n (S depth) (List.filter (fun e => bool_decide (nibbleAt e.1 depth = i)) es)) (seq 0 16))
    end
  end.

Lemma merkle_nil n d : merkle n d [] = trieZero.
Proof. by destruct n. Qed.

Lemma only_slots nib h : (nib < 16)%nat -> only nib h = map (fun i => if bool_decide (nib = i) then h else trieZero) (seq 0 16).
Proof.
  intros Hn. unfold only. apply list_eq. intros i. rewrite list_lookup_fmap. destruct (decide (i < 16)%nat) as [Hi|Hi].
  - rewrite lookup_seq_lt by done. cbn [fmap option_fmap option_map Nat.add]. destruct (decide (nib = i)) as [->|Hne].
    + rewrite list_lookup_insert_eq by (by rewrite length_replicate). cbn. by rewrite bool_decide_true.
    + rewrite list_lookup_insert_ne by done. rewrite lookup_replicate_2 by done. cbn. by rewrite bool_decide_false.
  - rewrite (lookup_ge_None_2 (seq 0 16)) by (rewrite length_seq; lia). apply lookup_ge_None_2. rewrite length_insert, length_replicate. lia.
Qed.

Lemma merkle_leaf n pre k c : levels n pre -> merkle n (length pre) [(k, c)] = foldLeaf k c (length pre).
Proof.
  revert pre. induction n as [|n IH]; intros pre HL; cbn [merkle].
  { replace (length pre) with trieDepth by (unfold levels in HL; lia). by rewrite foldLeaf_bottom. }
  rewrite foldLeaf_node by (unfold levels in HL; lia). f_equal. rewrite only_slots by apply nibbleAt_bound. apply map_ext. intros i. cbn [List.filter fst]. case_bool_decide; [|apply merkle_nil].
  rewrite <- (length_snoc pre i), IH by (by apply levels_snoc). done.
Qed.

(** The entries of one child are those with its nibble. *)
Lemma filter_child n pre ch i : wf_children n pre ch -> levels (S n) pre -> (i < 16)%nat ->
  List.filter (fun e => bool_decide (nibbleAt e.1 (length pre) = i)) (concat (map walk ch)) = walk (child ch i).
Proof.
  intros [Hl Hc] HL Hi. rewrite <- (take_drop_middle ch i (child ch i)) at 1 by (by apply child_lookup). rewrite map_app, concat_app, List.filter_app. cbn [map concat]. rewrite List.filter_app.
  assert (Hnib : forall j t k c, ch !! j = Some t -> (k, c) ∈ walk t -> nibbleAt k (length pre) = j) by (intros j t k c Hj Hin; by destruct (walk_under _ _ _ _ _ (Hc j t Hj) (levels_snoc _ _ _ HL) Hin) as ([_ ?]%under_snoc & _)).
  rewrite (filter_none _ (concat (map walk (take i ch)))), (filter_none _ (concat (map walk (drop (S i) ch)))), (filter_all _ (walk (child ch i))), app_nil_r; [done| | |].
  - intros [k c] Hin. apply bool_decide_true. cbn. by eapply Hnib; [by apply child_lookup|].
  - intros [k c] (t & [j Hj]%list_elem_of_lookup & Hin)%elem_of_concat_map. rewrite lookup_drop in Hj. apply bool_decide_false. cbn. rewrite (Hnib _ _ _ _ Hj Hin). lia.
  - intros [k c] (t & [j Hj]%list_elem_of_lookup & Hin)%elem_of_concat_map. apply lookup_take_Some in Hj as [Hj Hlt]. apply bool_decide_false. cbn. rewrite (Hnib _ _ _ _ Hj Hin). lia.
Qed.

Lemma walk_nonempty n pre t : wf n pre t -> levels n pre -> t <> Empty -> walk t <> [].
Proof. intros Hw HL Ht E. destruct (wf_entry _ _ _ Hw HL Ht) as (k & c & Hg). apply (walk_get _ _ _ Hw HL) in Hg. rewrite E in Hg. by apply not_elem_of_nil in Hg. Qed.

(** The compressed trie has the hash of the uncompressed tree. *)
Lemma hash_merkle n pre t : wf n pre t -> levels n pre -> hash_of t = merkle n (length pre) (walk t).
Proof.
  induction 1 as [n pre|n pre id c0 Hl Hc Hu|n pre ch Hl Hcr Hch IH]; intros HL; [by rewrite merkle_nil|cbn [walk newLeaf hash_of]; by rewrite merkle_leaf|]. pose proof (wf_node _ _ _ Hl Hcr Hch) as Hw.
  assert (Hne := walk_nonempty _ _ _ Hw HL ltac:(done)). cbn [walk newNode hash_of] in *. destruct (concat (map walk ch)) as [|[k c] es] eqn:E; [done|]. cbn [merkle]. rewrite <- E. f_equal.
  apply list_eq_same_length with 16%nat; [by rewrite length_map, length_seq|by rewrite length_map|]. intros i x y Hi Hx Hy. apply list_lookup_fmap_Some in Hx as (t & -> & Ht), Hy as (j & -> & Hj). apply lookup_seq in Hj as [-> _]. cbn [Nat.add].
  rewrite (IH i t Ht (levels_snoc _ _ _ HL)), length_snoc. f_equal. rewrite (filter_child n pre ch i) by done. f_equal. rewrite (child_lookup ch i) in Ht by done. by injection Ht.
Qed.

End TrieWalk.
