(* ===== verification/TrieBulk.v ===== *)
(** Many entries at once: the bulk build and the batch update of
    [document/document_tree_trie.go], which make the trie that inserting the entries one
    by one would make. *)

From S2P Require Import Prelude Primitives Sha256 TrieHash Trie TrieCorrect TrieWalk.
Import Primitives TrieHash Trie TrieCorrect TrieWalk.

Module TrieBulk.

Definition trieItem : Type := bytes * Hash.

(** The runs of items that share the nibble at [depth], in the order [forEachRun] hands them on. *)
Fixpoint runs (depth : nat) (items : list trieItem) : list (nat * list trieItem) :=
  match items with
  | [] => []
  | it :: items =>
    let nib := nibbleAt it.1 depth in
    match runs depth items with
    | (nib', run) :: more => if bool_decide (nib' = nib) then (nib, it :: run) :: more else (nib, [it]) :: (nib', run) :: more
    | [] => [(nib, [it])]
    end
  end.

Definition leaf_of_last (items : list trieItem) (depth : nat) : trie :=
  let it := List.last items ([], mkHash []) in newLeaf it.1 it.2 depth.

(** The subtree of sorted items, with [n] levels left. *)
Fixpoint build (n depth : nat) (items : list trieItem) : trie :=
  match n with
  | O => leaf_of_last items depth
  | S n =>
    if (length items =? 1)%nat then leaf_of_last items depth
    else newNode (foldl (fun ch r => <[r.1 := build n (S depth) r.2]> ch) no_children (runs depth items))
  end.

(** [trieBuildItems]: large inputs build the top level's subtrees apart from each other. *)
Definition trieBuildItems (items : list trieItem) : trie :=
  match items with
  | [] => Empty
  | _ =>
    if (4096 <=? length items)%nat then newNode (foldl (fun ch r => <[r.1 := build 31 1 r.2]> ch) no_children (runs 0 items))
    else build trieDepth 0 items
  end.

(** The items before the first whose key is not below [id], and the others. *)
Fixpoint search (id : bytes) (items : list trieItem) : list trieItem * list trieItem :=
  match items with
  | [] => ([], [])
  | it :: items' => if bytes_leb id it.1 then ([], items) else let '(lo, hi) := search id items' in (it :: lo, hi)
  end.

Fixpoint insertMany (n depth : nat) (t : trie) (items : list trieItem) : trie :=
  match items with
  | [it] => insert_at n depth t it.1 it.2
  | _ =>
    match t with
    | Empty => build n depth items
    | Leaf _ id c =>
      let '(lo, hi) := search id items in
      match hi with
      | it :: _ => if bool_decide (it.1 = id) then build n depth items else build n depth (lo ++ (id, c) :: hi)
      | [] => build n depth (lo ++ [(id, c)])
      end
    | Node _ ch =>
      match n with
      | O => t
      | S n => newNode (foldl (fun ch r => <[r.1 := insertMany n (S depth) (child ch r.1) r.2]> ch) ch (runs depth items))
      end
    end
  end.

(** ** Runs *)

Lemma runs_concat d items : concat (map snd (runs d items)) = items.
Proof.
  induction items as [|it items IH]; [done|]. cbn [runs]. destruct (runs d items) as [|[nib run] more]; cbn in *; [by rewrite <- IH|]. case_bool_decide; cbn; by rewrite <- IH.
Qed.
Lemma runs_nibble d items nib run : (nib, run) ∈ runs d items -> run <> [] /\ forall it, it ∈ run -> nibbleAt it.1 d = nib.
Proof.
  revert nib run. induction items as [|it items IH]; intros nib run; cbn [runs]; [by intros ?%not_elem_of_nil|]. destruct (runs d items) as [|[nib' run'] more].
  - intros [= -> ->]%list_elem_of_singleton. split; [done|]. by intros x ->%list_elem_of_singleton.
  - case_bool_decide as E; rewrite !elem_of_cons.
    + intros [[= -> ->]|H]; [|apply IH; by right]. split; [done|]. intros x [->|Hx]%elem_of_cons; [done|]. subst nib'. by apply (IH _ run'); [left|].
    + intros [[= -> ->]|[[= -> ->]|H]]; [split; [done|]; by intros x ->%list_elem_of_singleton|apply IH; by left|apply IH; by right].
Qed.
Lemma elem_of_runs d items it : it ∈ items <-> exists nib run, (nib, run) ∈ runs d items /\ it ∈ run.
Proof.
  rewrite <- (runs_concat d items) at 1. rewrite elem_of_concat_map. split; [intros ([nib run] & H1 & H2); by exists nib, run|intros (nib & run & H1 & H2); by exists (nib, run)].
Qed.

(** When the nibbles do not fall, every run has its own. *)
Lemma runs_increasing d items : StronglySorted (fun a b : trieItem => (nibbleAt a.1 d <= nibbleAt b.1 d)%nat) items -> StronglySorted lt (runs d items).*1.
Proof.
  induction 1 as [|it items Hs IH Hit]; [constructor|]. cbn [runs]. destruct (runs d items) as [|[nib run] more] eqn:E; [repeat constructor|]. cbn in IH.
  assert (Hle : (nibbleAt it.1 d <= nib)%nat).
  { rewrite Forall_forall in Hit. destruct (runs_nibble d items nib run ltac:(rewrite E; by left)) as [Hne Hr]. destruct run as [|x run]; [done|]. rewrite <- (Hr x ltac:(by left)). apply Hit. apply (elem_of_runs d). exists nib, (x :: run). rewrite E. split; by left. }
  case_bool_decide as En; cbn [fmap list_fmap]; [by rewrite <- En|]. constructor; [done|]. constructor; [cbn; lia|]. apply StronglySorted_inv in IH as [_ IH]. eapply Forall_impl; [exact IH|]. cbn. lia.
Qed.

Lemma key_lt_irrefl a : ~ key_lt a a.
Proof. unfold key_lt. by rewrite bytes_leb_refl. Qed.
Lemma key_lt_trans a b c : key_lt a b -> key_lt b c -> key_lt a c.
Proof.
  unfold key_lt. intros H1 H2. destruct (bytes_leb c a) eqn:E; [|done]. apply bytes_leb_total in H1. pose proof (bytes_leb_trans _ _ _ E H1) as H. congruence.
Qed.

(** Items below one position: distinct keys of sixteen bytes, in order. *)
Definition batch (pre : list nat) (items : list trieItem) : Prop :=
  StronglySorted entry_lt items /\ forall k c, (k, c) ∈ items -> under pre k /\ length k = 16%nat /\ hash_wf c.

Lemma batch_nibbles pre items : (length pre < trieDepth)%nat -> batch pre items -> StronglySorted (fun a b : trieItem => (nibbleAt a.1 (length pre) <= nibbleAt b.1 (length pre))%nat) items.
Proof.
  intros HL [Hs Hb]. induction Hs as [|[k c] items Hs IH Hit]; constructor; [apply IH; intros; apply Hb; by right|]. rewrite Forall_forall in *. intros [k' c'] Hin. specialize (Hit _ Hin). unfold entry_lt in Hit. cbn in *.
  destruct (Nat.le_gt_cases (nibbleAt k (length pre)) (nibbleAt k' (length pre))) as [|Hgt]; [done|]. destruct (Hb k c ltac:(by left)) as (U & L & _), (Hb k' c' ltac:(by right)) as (U' & L' & _).
  exfalso. apply (key_lt_irrefl k), (key_lt_trans k k' k); [done|]. apply (under_lt pre _ _ k' k HL Hgt L' L); by apply under_snoc.
Qed.

Lemma batch_run pre items nib run : batch pre items -> (nib, run) ∈ runs (length pre) items -> batch (pre ++ [nib]) run.
Proof.
  intros [Hs Hb] Hr. destruct (runs_nibble _ _ _ _ Hr) as [_ Hn]. split.
  - apply list_elem_of_split in Hr as (l1 & l2 & E). pose proof (runs_concat (length pre) items) as Hc. rewrite E, map_app, concat_app in Hc. cbn in Hc. rewrite <- Hc in Hs.
    apply StronglySorted_app in Hs as (_ & _ & Hs). by apply StronglySorted_app in Hs as (_ & Hs & _).
  - intros k c Hin. assert (Hit : (k, c) ∈ items) by (apply (elem_of_runs (length pre)); by exists nib, run). destruct (Hb k c Hit) as (U & L & W). split_and!; [|done..]. apply under_snoc. split; [done|]. by apply (Hn (k, c)).
Qed.

(** Filling children from runs with distinct nibbles: [f] makes a child from the old one and the run. *)
Definition fill (f : trie -> list trieItem -> trie) (ch : list trie) (l : list (nat * list trieItem)) : list trie :=
  foldl (fun ch r => <[r.1 := f (child ch r.1) r.2]> ch) ch l.

Lemma fill_child f l : forall ch, length ch = 16%nat -> StronglySorted lt l.*1 -> (forall nib run, (nib, run) ∈ l -> (nib < 16)%nat) ->
  length (fill f ch l) = 16%nat /\ (forall nib run, (nib, run) ∈ l -> child (fill f ch l) nib = f (child ch nib) run) /\ (forall i, (i < 16)%nat -> i ∉ l.*1 -> child (fill f ch l) i = child ch i).
Proof.
  induction l as [|[nib run] l IH]; intros ch Hl Hs Hb; [split_and!; [done|by intros ? ? ?%not_elem_of_nil|done]|]. cbn [fmap list_fmap fst] in Hs. apply StronglySorted_inv in Hs as [Hs Hlt]. rewrite Forall_forall in Hlt.
  pose proof (Hb nib run ltac:(by left)) as Bn. destruct (IH (<[nib := f (child ch nib) run]> ch)) as (L & H1 & H2); [by rewrite length_insert|done|intros ? ? ?; eapply Hb; by right|]. cbn [fill foldl fst snd] in *. fold (fill f (<[nib := f (child ch nib) run]> ch) l).
  assert (Hnot : nib ∉ l.*1) by (intros H; specialize (Hlt _ H); lia). split_and!; [done| |].
  - intros nib' run' [[= -> ->]|Hin]%elem_of_cons; [by rewrite H2, child_insert, bool_decide_true by done|]. rewrite (H1 _ _ Hin), child_insert by (done || eapply Hb; by right). rewrite bool_decide_false; [done|].
    intros ->. apply Hnot, list_elem_of_fmap. by exists (nib, run').
  - intros i Hi Hn. apply not_elem_of_cons in Hn as [Hne Hn]. rewrite H2, child_insert by done. by rewrite bool_decide_false.
Qed.

(** ** Building *)

(** The trie at a position that holds exactly these items. *)
Definition holds (n : nat) (pre : list nat) (t : trie) (items : list trieItem) : Prop :=
  wf n pre t /\ t <> Empty /\ (is_node t <-> (2 <= length items)%nat) /\ forall k c, get_at n (length pre) t k = Some c <-> (k, c) ∈ items.

Lemma leaf_holds n pre k c : length k = 16%nat -> hash_wf c -> under pre k -> holds n pre (newLeaf k c (length pre)) [(k, c)].
Proof.
  intros Hk Hc Hu. split_and!; [by apply wf_leaf|done|split; [by intros (? & ? & ?)|cbn; lia]|]. intros k' c'. unfold newLeaf. rewrite get_leaf, list_elem_of_singleton. case_bool_decide; naive_solver.
Qed.

(** Two items cannot be at the bottom. *)
Lemma batch_bottom pre items : length pre = trieDepth -> batch pre items -> (length items <= 1)%nat.
Proof.
  intros HL [Hs Hb]. destruct items as [|[k c] [|[k' c'] items]]; cbn; try lia. destruct (Hb k c ltac:(by left)) as (U & L & _), (Hb k' c' ltac:(by right; left)) as (U' & L' & _).
  assert (k = k') as -> by (by apply (under_inj pre)). apply StronglySorted_inv in Hs as [_ Hs]. apply Forall_cons in Hs as [Hs _]. by apply key_lt_irrefl in Hs.
Qed.

Lemma runs_bound d items nib run : (nib, run) ∈ runs d items -> (nib < 16)%nat.
Proof. intros Hr. destruct (runs_nibble _ _ _ _ Hr) as [Hne Hn]. destruct run as [|it run]; [done|]. rewrite <- (Hn it) by (by left). apply nibbleAt_bound. Qed.

(** Children filled from the runs of several items. *)
Lemma runs_crowded d (items : list trieItem) ch : (2 <= length items)%nat -> length ch = 16%nat -> StronglySorted lt (runs d items).*1 ->
  (forall nib run, (nib, run) ∈ runs d items -> child ch nib <> Empty /\ ((2 <= length run)%nat -> is_node (child ch nib))) -> crowded ch.
Proof.
  intros Hlen Hl Hs H. pose proof (runs_concat d items) as Hc. pose proof (runs_bound d items) as Hb. destruct (runs d items) as [|[i r] [|[j r'] more]]; [by rewrite <- Hc in Hlen; cbn in Hlen; lia| |].
  - cbn in Hc. rewrite app_nil_r in Hc. subst r. destruct (H i items ltac:(by left)) as [_ N]. destruct (N Hlen) as (h & c & N'). right. exists i, h, c. rewrite <- N'. apply child_lookup; [done|]. apply (Hb i items). by left.
  - apply StronglySorted_inv in Hs as [_ Hs]. apply Forall_cons in Hs as [Hij _]. cbn in Hij. pose proof (Hb i r ltac:(by left)). pose proof (Hb j r' ltac:(by right; left)).
    left. exists i, j, (child ch i), (child ch j). split_and!; [lia|by apply child_lookup|by apply child_lookup|by apply (H i r); left|by apply (H j r'); right; left].
Qed.

Lemma batch_increasing pre items : (length pre < trieDepth)%nat -> batch pre items -> StronglySorted lt (runs (length pre) items).*1.
Proof. intros HL Hb. by apply runs_increasing, batch_nibbles. Qed.

Lemma increasing_fun {A} (l : list (nat * A)) x r r' : StronglySorted lt l.*1 -> (x, r) ∈ l -> (x, r') ∈ l -> r = r'.
Proof.
  induction l as [|[y s] l IH]; [by intros _ ?%not_elem_of_nil|]. cbn. intros [Hs Hlt]%StronglySorted_inv. rewrite Forall_forall in Hlt.
  assert (Hy : forall z t, (z, t) ∈ l -> z <> y) by (intros z t Ht ->; assert (y < y)%nat; [apply Hlt, list_elem_of_fmap; by exists (y, t)|lia]).
  intros [H1|H1]%elem_of_cons [H2|H2]%elem_of_cons; [congruence|injection H1 as -> _; by apply Hy in H2|injection H2 as -> _; by apply Hy in H1|by apply IH].
Qed.

(** An item is in the run of its nibble. *)
Lemma run_member d items nib run k c : StronglySorted lt (runs d items).*1 -> (nib, run) ∈ runs d items -> nibbleAt k d = nib -> (k, c) ∈ items -> (k, c) ∈ run.
Proof.
  intros Hs Hr Hk Hin. apply (elem_of_runs d) in Hin as (nib' & run' & Hr' & Hin). destruct (runs_nibble _ _ _ _ Hr') as [_ Hn]. specialize (Hn _ Hin). cbn in Hn.
  assert (En : nib' = nib) by congruence. rewrite En in Hr'. by rewrite (increasing_fun _ _ _ _ Hs Hr Hr').
Qed.

Lemma fill_build_holds n pre items (f : list trieItem -> trie) : levels (S n) pre -> batch pre items -> (2 <= length items)%nat ->
  (forall nib run, (nib, run) ∈ runs (length pre) items -> holds n (pre ++ [nib]) (f run) run) ->
  holds (S n) pre (newNode (fill (fun _ => f) no_children (runs (length pre) items))) items.
Proof.
  intros HL Hb Hlen Hf. assert (HLt : (length pre < trieDepth)%nat) by (unfold levels in HL; lia). pose proof (batch_increasing pre items HLt Hb) as Hs.
  destruct (fill_child (fun _ => f) (runs (length pre) items) no_children no_children_length Hs (runs_bound _ _)) as (L & H1 & H2). set (ch := fill _ _ _) in *.
  assert (Hch : wf_children n pre ch).
  { split; [done|]. intros i t Hi. assert (Bi : (i < 16)%nat) by (rewrite <- L; by eapply lookup_lt_Some). rewrite (child_lookup ch i L Bi) in Hi. injection Hi as <-.
    destruct (decide (i ∈ (runs (length pre) items).*1)) as [Hin|Hn]; [|rewrite H2, child_none by done; constructor]. apply list_elem_of_fmap in Hin as ([nib run] & -> & Hin). cbn in *. rewrite (H1 _ _ Hin). by apply (Hf nib run). }
  split_and!; [apply wf_newNode; [done|]|done|split; [done|by eexists _, _]|].
  - apply (runs_crowded (length pre) items); [done..|]. intros nib run Hr. rewrite (H1 _ _ Hr). destruct (Hf nib run Hr) as (_ & Hne & Hnode & _). split; [done|]. by apply Hnode.
  - intros k c. unfold newNode. rewrite get_node. set (nib := nibbleAt k (length pre)). assert (Bn : (nib < 16)%nat) by apply nibbleAt_bound. destruct (decide (nib ∈ (runs (length pre) items).*1)) as [Hin|Hn].
    + apply list_elem_of_fmap in Hin as ([nib' run] & E & Hin). cbn in E. subst nib'. rewrite (H1 _ _ Hin). destruct (Hf nib run Hin) as (_ & _ & _ & G). rewrite length_snoc in G. rewrite G. split; [|by apply (run_member (length pre) items nib run)].
      intros Hr. apply (elem_of_runs (length pre)). by exists nib, run.
    + rewrite H2, child_none, get_empty by done. split; [done|]. intros (nib' & run & Hr & Hin)%(elem_of_runs (length pre)). destruct Hn. destruct (runs_nibble _ _ _ _ Hr) as [_ Hnn]. specialize (Hnn _ Hin). cbn in Hnn. apply list_elem_of_fmap. by exists (nib', run).
Qed.

Lemma build_spec n : forall pre items, levels n pre -> batch pre items -> items <> [] -> holds n pre (build n (length pre) items) items.
Proof.
  assert (Hone : forall m pre items, batch pre items -> length items = 1%nat -> holds m pre (leaf_of_last items (length pre)) items).
  { intros m pre items [_ Hb] Hl. destruct items as [|[k c] [|]]; try done. unfold leaf_of_last. cbn [List.last fst snd]. destruct (Hb k c ltac:(by left)) as (U & L & W). by apply leaf_holds. }
  induction n as [|n IH]; intros pre items HL Hb Hne; cbn [build].
  - apply Hone; [done|]. pose proof (batch_bottom pre items ltac:(unfold levels in HL; lia) Hb). destruct items; [done|cbn in *; lia].
  - destruct (Nat.eqb_spec (length items) 1) as [El|El]; [by apply Hone|]. apply (fill_build_holds n pre items (build n (S (length pre)))); [done..|destruct items; [done|cbn in *; lia]|].
    intros nib run Hr. rewrite <- (length_snoc pre nib). apply IH; [by apply levels_snoc|by eapply batch_run|]. by destruct (runs_nibble _ _ _ _ Hr).
Qed.

(** ** Updating *)

Lemma search_spec id items : let '(lo, hi) := search id items in items = lo ++ hi /\ Forall (fun it : trieItem => key_lt it.1 id) lo /\ forall it r, hi = it :: r -> bytes_leb id it.1 = true.
Proof.
  induction items as [|it items IH]; cbn [search]; [by split_and!|]. destruct (bytes_leb id it.1) eqn:E; [split_and!; [done..|]; by intros ? ? [= <- <-]|].
  destruct (search id items) as [lo hi]. destruct IH as (-> & H1 & H2). split_and!; [done|by constructor|done].
Qed.

Lemma key_lt_or k k' : bytes_leb k k' = true -> k = k' \/ key_lt k k'.
Proof. unfold key_lt. intros H. destruct (bytes_leb k' k) eqn:E; [left; by apply bytes_leb_antisymm|by right]. Qed.

(** An entry joins sorted items at the place the search finds. *)
Lemma batch_join pre items id c lo hi : batch pre items -> search id items = (lo, hi) -> under pre id -> length id = 16%nat -> hash_wf c -> (forall it r, hi = it :: r -> it.1 <> id) ->
  batch pre (lo ++ (id, c) :: hi) /\ id ∉ items.*1.
Proof.
  intros [Hs Hb] Es Hu Hl Hc Hne. pose proof (search_spec id items) as H. rewrite Es in H. destruct H as (-> & Hlo & Hhi). apply StronglySorted_app in Hs as (Hx & Hs1 & Hs2).
  assert (Hgt : Forall (fun it : trieItem => key_lt id it.1) hi).
  { destruct hi as [|it r]; [constructor|]. assert (Hit : key_lt id it.1) by (destruct (key_lt_or id it.1 (Hhi _ _ eq_refl)) as [E|]; [by destruct (Hne _ _ eq_refl)|done]).
    constructor; [done|]. apply StronglySorted_inv in Hs2 as [_ Hs2]. eapply Forall_impl; [exact Hs2|]. intros x Hx'. by eapply key_lt_trans. }
  rewrite Forall_forall in Hlo, Hgt. split; [split|].
  - apply StronglySorted_app. split_and!; [|done|constructor; [done|by apply Forall_forall]]. intros x y Hx1 [->|Hy]%elem_of_cons; [by apply Hlo|by apply Hx].
  - intros k c'. rewrite elem_of_app, elem_of_cons. intros [H|[[= -> ->]|H]]; [apply Hb, elem_of_app; by left|done|apply Hb, elem_of_app; by right].
  - rewrite list_elem_of_fmap. intros ([k c'] & -> & [H|H]%elem_of_app); [apply Hlo in H|apply Hgt in H]; by apply key_lt_irrefl in H.
Qed.

(** The trie with every item set. *)
Definition sets_all (n : nat) (pre : list nat) (t : trie) (items : list trieItem) (t' : trie) : Prop :=
  wf n pre t' /\ t' <> Empty /\ (is_node t -> is_node t') /\ ((2 <= length items)%nat -> is_node t') /\
  forall k c, get_at n (length pre) t' k = Some c <-> (k, c) ∈ items \/ k ∉ items.*1 /\ get_at n (length pre) t k = Some c.

Lemma holds_sets_all n pre t items : ~ is_node t -> (forall k c, get_at n (length pre) t k = Some c -> k ∈ items.*1) -> forall t', holds n pre t' items -> sets_all n pre t items t'.
Proof.
  intros Hn Hk t' (W & N & Hnode & G). split_and!; [done..|by apply Hnode|]. intros k c. rewrite G. split; [by left|]. intros [H|[H1 H2]]; [done|]. by apply Hk in H2.
Qed.

Lemma batch_single pre it : batch pre [it] -> under pre it.1 /\ length it.1 = 16%nat /\ hash_wf it.2.
Proof. intros [_ Hb]. apply Hb. destruct it. by left. Qed.

Lemma insertMany_one n pre t it : wf n pre t -> levels n pre -> batch pre [it] -> sets_all n pre t [it] (insert_at n (length pre) t it.1 it.2).
Proof.
  intros Hw HL Hb. destruct (batch_single pre it Hb) as (U & L & C). destruct it as [k0 c0]. destruct (insert_spec n pre t k0 c0 Hw HL L C U) as (W & N & Hn & G). split_and!; [done..|cbn; lia|].
  cbn. intros k c. rewrite G, !list_elem_of_singleton. case_bool_decide; naive_solver.
Qed.

Lemma insertMany_leaf n pre h id c items : wf n pre (Leaf h id c) -> levels n pre -> batch pre items -> items <> [] -> length items <> 1%nat ->
  sets_all n pre (Leaf h id c) items (insertMany n (length pre) (Leaf h id c) items).
Proof.
  intros Hw HL Hb Hne Hlen. inversion Hw as [|? ? ? ? Hid Hc Hu|]; subst. assert (E : insertMany n (length pre) (Leaf (foldLeaf id c (length pre)) id c) items = let '(lo, hi) := search id items in
    match hi with it :: _ => if bool_decide (it.1 = id) then build n (length pre) items else build n (length pre) (lo ++ (id, c) :: hi) | [] => build n (length pre) (lo ++ [(id, c)]) end)
    by (by destruct n, items as [|? [|]]). rewrite E. clear E. pose proof (search_spec id items) as Hs. destruct (search id items) as [lo hi] eqn:Es.
  assert (Hdec : (exists it r, hi = it :: r /\ it.1 = id) \/ ~ exists it r, hi = it :: r /\ it.1 = id) by (destruct hi as [|it r]; [|destruct (decide (it.1 = id))]; naive_solver).
  destruct Hdec as [(it & r & -> & Hit)|Hnone].
  - rewrite bool_decide_true by done. apply holds_sets_all; [by intros (? & ? & ?)| |by apply build_spec]. intros k c'. rewrite get_leaf. case_bool_decide as Ek; [|done]. intros _. subst k.
    destruct Hs as (-> & _ & _). apply list_elem_of_fmap. exists it. split; [done|]. apply elem_of_app. right. by left.
  - destruct (batch_join pre items id c lo hi Hb Es Hu Hid Hc) as [Hj Hn]; [intros it r -> E; apply Hnone; by exists it, r|]. set (items' := lo ++ (id, c) :: hi) in *.
    assert (Hb' : holds n pre (build n (length pre) items') items') by (apply build_spec; [done..|by destruct lo]).
    assert (E : match hi with it :: _ => if bool_decide (it.1 = id) then build n (length pre) items else build n (length pre) items' | [] => build n (length pre) (lo ++ [(id, c)]) end = build n (length pre) items').
    { destruct hi as [|it r]; [done|]. rewrite bool_decide_false; [done|]. intros ?. apply Hnone. by exists it, r. }
    rewrite E. destruct Hb' as (W & N & Hnode & G). destruct Hs as (-> & _ & _). unfold items' in *. rewrite length_app in *. cbn [length] in *.
    split_and!; [done..|by intros (? & ? & ?)|intros Hx; apply Hnode; rewrite ?length_app in *; cbn; lia|].
    intros k c'. rewrite G, get_leaf, fmap_app, !elem_of_app, elem_of_cons in *. split.
    + intros [H|[[= -> ->]|H]]; [by left; left| |by left; right]. right. rewrite bool_decide_true by done. split; [tauto|done].
    + intros [[H|H]|[_ H]]; [by left|by right; right|]. case_bool_decide; [|done]. right. left. congruence.
Qed.

Lemma insertMany_eq n d t items : length items <> 1%nat -> (forall h id c, t <> Leaf h id c) -> insertMany (S n) d t items =
  match t with Node _ ch => newNode (fill (insertMany n (S d)) ch (runs d items)) | _ => build (S n) d items end.
Proof. intros Hl Ht. destruct items as [|? [|]], t; try done; by destruct (Ht hash id content). Qed.

Lemma insertMany_node n pre ch items : levels (S n) pre -> wf_children n pre ch -> crowded ch -> batch pre items ->
  (forall nib run, (nib, run) ∈ runs (length pre) items -> sets_all n (pre ++ [nib]) (child ch nib) run (insertMany n (S (length pre)) (child ch nib) run)) ->
  (2 <= length items)%nat -> sets_all (S n) pre (newNode ch) items (newNode (fill (insertMany n (S (length pre))) ch (runs (length pre) items))).
Proof.
  intros HL Hch Hcr Hb Hsets Hlen. assert (HLt : (length pre < trieDepth)%nat) by (unfold levels in HL; lia). pose proof (batch_increasing pre items HLt Hb) as Hs. pose proof Hch as [Hl Hwf].
  destruct (fill_child (insertMany n (S (length pre))) (runs (length pre) items) ch Hl Hs (runs_bound _ _)) as (L & H1 & H2). set (ch' := fill _ _ _) in *.
  assert (Hch' : wf_children n pre ch').
  { split; [done|]. intros i t Hi. assert (Bi : (i < 16)%nat) by (rewrite <- L; by eapply lookup_lt_Some). rewrite (child_lookup ch' i L Bi) in Hi. injection Hi as <-.
    destruct (decide (i ∈ (runs (length pre) items).*1)) as [Hin|Hn]; [|rewrite H2 by done; by apply wf_child]. apply list_elem_of_fmap in Hin as ([nib run] & -> & Hin). cbn in *. rewrite (H1 _ _ Hin). by apply (Hsets nib run). }
  split_and!; [apply wf_newNode; [done|]|done|by intros _; eexists _, _|by intros _; eexists _, _|].
  - apply (runs_crowded (length pre) items); [done..|]. intros nib run Hr. rewrite (H1 _ _ Hr). destruct (Hsets nib run Hr) as (_ & Hne & _ & Hnode & _). by split.
  - intros k c. unfold newNode. rewrite !get_node. set (nib := nibbleAt k (length pre)). assert (Bn : (nib < 16)%nat) by apply nibbleAt_bound. destruct (decide (nib ∈ (runs (length pre) items).*1)) as [Hin|Hn].
    + apply list_elem_of_fmap in Hin as ([nib' run] & E & Hin). cbn in E. subst nib'. rewrite (H1 _ _ Hin). destruct (Hsets nib run Hin) as (_ & _ & _ & _ & G). rewrite length_snoc in G. rewrite G.
      assert (Hiff : forall c, (k, c) ∈ run <-> (k, c) ∈ items) by (intros c'; split; [intros Hr; apply (elem_of_runs (length pre)); by exists nib, run|by apply (run_member (length pre) items nib run)]).
      assert (Hk : k ∈ run.*1 <-> k ∈ items.*1) by (rewrite !list_elem_of_fmap; split; intros ([k' c'] & E & Hr); cbn in E; subst k'; exists (k, c'); (split; [done|]); by apply Hiff). by rewrite Hiff, Hk.
    + rewrite H2 by done. assert (Hno : k ∉ items.*1).
      { intros ([k' c'] & E & Hr)%list_elem_of_fmap. cbn in E. subst k'. apply (elem_of_runs (length pre)) in Hr as (nib' & run & Hr & Hin). apply Hn, list_elem_of_fmap. exists (nib', run). split; [|done]. destruct (runs_nibble _ _ _ _ Hr) as [_ Hnn]. by apply (Hnn (k, c')). }
      split; [by right|]. intros [H|[_ H]]; [|done]. destruct Hno. apply list_elem_of_fmap. by exists (k, c).
Qed.

Lemma insertMany_single n d t it : insertMany n d t [it] = insert_at n d t it.1 it.2.
Proof. by destruct n. Qed.
Lemma insertMany_empty n d items : length items <> 1%nat -> insertMany n d Empty items = build n d items.
Proof. intros Hl. by destruct n, items as [|? [|]]. Qed.

Lemma insertMany_spec n : forall pre t items, wf n pre t -> levels n pre -> batch pre items -> items <> [] -> sets_all n pre t items (insertMany n (length pre) t items).
Proof.
  induction n as [|n IH]; intros pre t items Hw HL Hb Hne; (destruct (decide (length items = 1%nat)) as [E|E]; [destruct items as [|it [|]]; try done; rewrite insertMany_single; by apply insertMany_one|]);
    (destruct t as [|h id c|h ch]; [rewrite insertMany_empty by done; apply holds_sets_all; [by intros (? & ? & ?)|intros k c; by rewrite get_empty|by apply build_spec]|by apply insertMany_leaf|]).
  - apply wf_children_of in Hw as (n' & [=] & _).
  - pose proof Hw as Hn. inversion Hn; subst. apply wf_children_of in Hw as (n' & [= <-] & Hch & Hcr). rewrite insertMany_eq by done. apply insertMany_node; [done..| |destruct items; [done|cbn in *; lia]].
    intros nib run Hr. rewrite <- (length_snoc pre nib). apply IH; [apply wf_child; [done|by eapply runs_bound]|by apply levels_snoc|by eapply batch_run|]. by destruct (runs_nibble _ _ _ _ Hr).
Qed.

(** ** Whole trees *)

Lemma trieBuildItems_build items : items <> [] -> trieBuildItems items = build trieDepth 0 items.
Proof.
  intros Hne. unfold trieBuildItems. destruct items as [|it items]; [done|]. destruct (4096 <=? length (it :: items))%nat eqn:E; [|done]. apply Nat.leb_le in E. cbn [build trieDepth].
  by rewrite (proj2 (Nat.eqb_neq _ _)) by lia.
Qed.

#[local] Opaque trieDepth.

(** One item after another. *)
Definition insertAll (t : trie) (items : list trieItem) : trie := foldl (fun t it => insert_at trieDepth 0 t it.1 it.2) t items.

Lemma batch_prefix pre items items' : batch pre (items ++ items') -> batch pre items.
Proof. intros [Hs Hb]. split; [by apply StronglySorted_app in Hs as (_ & ? & _)|]. intros k c H. apply Hb, elem_of_app. by left. Qed.
Lemma batch_last pre items k c : batch pre (items ++ [(k, c)]) -> k ∉ items.*1 /\ under pre k /\ length k = 16%nat /\ hash_wf c.
Proof.
  intros [Hs Hb]. split; [|apply Hb, elem_of_app; right; by left]. apply StronglySorted_app in Hs as (Hlast & _). intros ([k' c'] & E & Hin)%list_elem_of_fmap. cbn in E. subst k'.
  specialize (Hlast _ (k, c) Hin ltac:(by left)). by apply key_lt_irrefl in Hlast.
Qed.

Lemma insertAll_spec t items : wf trieDepth [] t -> batch [] items ->
  wf trieDepth [] (insertAll t items) /\ forall k c, get (insertAll t items) k = Some c <-> (k, c) ∈ items \/ k ∉ items.*1 /\ get t k = Some c.
Proof.
  intros Ht. induction items as [|[k0 c0] items IH] using rev_ind; intros Hb; [split; [done|]; intros k c; cbn [insertAll foldl fmap list_fmap]; rewrite !elem_of_nil; naive_solver|].
  destruct (IH (batch_prefix _ _ _ Hb)) as [W G]. destruct (batch_last _ _ _ _ Hb) as (Hno & U & L & C). unfold insertAll. rewrite foldl_app. fold (insertAll t items). cbn [foldl fst snd].
  destruct (insert_spec trieDepth [] _ k0 c0 W eq_refl L C U) as (W' & _ & _ & G'). split; [done|]. intros k c. unfold get in *. cbn [length] in G'. rewrite G', fmap_app, !elem_of_app. cbn [fmap list_fmap fst]. rewrite !list_elem_of_singleton.
  case_bool_decide as E; [subst k|rewrite G; naive_solver]. split; [naive_solver|]. intros [[H|H]|[H _]]; [destruct Hno; apply list_elem_of_fmap; by exists (k0, c)|congruence|destruct H; by right].
Qed.

(** A batch is set as its items are one after another. *)
Lemma insertMany_foldl t items : wf trieDepth [] t -> batch [] items -> items <> [] -> insertMany trieDepth 0 t items = insertAll t items.
Proof.
  intros Hw Hb Hne. destruct (insertMany_spec trieDepth [] t items Hw eq_refl Hb Hne) as (W & _ & _ & _ & G). destruct (insertAll_spec t items Hw Hb) as [W' G'].
  apply (canonical_at trieDepth [] _ _ W W' eq_refl). intros k. apply option_eq. intros c. unfold get in G'. cbn [length] in *. by rewrite G, G'.
Qed.

(** So is a tree built from its entries. *)
Lemma trieBuildItems_foldl items : batch [] items -> trieBuildItems items = insertAll Empty items.
Proof.
  intros Hb. destruct items as [|it items]; [done|]. set (l := it :: items) in *. assert (Hne : l <> []) by done. rewrite trieBuildItems_build by done. destruct (build_spec trieDepth [] l eq_refl Hb Hne) as (W & _ & _ & G).
  destruct (insertAll_spec Empty l (wf_empty _ _) Hb) as [W' G']. apply (canonical_at trieDepth [] _ _ W W' eq_refl). intros k. apply option_eq. intros c. unfold get in G'. cbn [length] in *. rewrite G, G', get_empty. naive_solver.
Qed.

End TrieBulk.
