(* ===== verification/DocumentTree.v ===== *)
(** The document tree: [document/document_tree.go], a map from document identifiers to
    content hashes, kept as a flat map, as a trie, or as both.

    A handle that is nil is the empty trie.  Ranging over a Go map takes an order of its
    entries as an argument where the result could depend on it. *)

From S2P Require Import Prelude Primitives Schema KdbCodec Document Sha256 Commit TrieHash Trie TrieCorrect TrieWalk TrieBulk.
Import Primitives Schema KdbCodec Commit TrieHash Trie TrieCorrect TrieWalk TrieBulk.

Module DocumentTree.

Record DocumentTree := mkTree {
  TreeHash : Hash;
  Entries : option (gmap UUID Hash);
  size : Z;
  root : trie;
}.

(** ** The trie of a tree *)

Definition rootHash (t : trie) : Hash := mkHash (hash_of t).

Definition trie_get (t : trie) (id : UUID) : option Hash := get t (uuidKey id).

Definition walkUntil {S} (visit : S -> UUID * Hash -> S * bool) (s : S) (t : trie) : S * bool :=
  walk_until (fun s e => visit s (keyUUID e.1, e.2)) s t.
Definition walkAfter {S} (visit : S -> UUID * Hash -> S * bool) (after : UUID) (s : S) (t : trie) : S :=
  (walk_after (fun s e => visit s (keyUUID e.1, e.2)) trieDepth 0 (uuidKey after) after s t).1.

Definition entries (t : trie) : gmap UUID Hash :=
  (walkUntil (fun out e => (<[e.1 := e.2]> out, true)) ∅ t).1.

Definition key_ltb (a b : trieItem) : bool := negb (bytes_leb b.1 a.1).

(** [slices.SortFunc] on distinct keys, which have one order. *)
Definition trieBuild (m : gmap UUID Hash) : trie :=
  trieBuildItems (isort key_ltb (map (fun e => (uuidKey e.1, e.2)) (map_to_list m))).

Definition trieWith (t : trie) (id : UUID) (contentHash : Hash) : trie := insert_at trieDepth 0 t (uuidKey id) contentHash.
Definition trieWithAll (t : trie) (items : list trieItem) : trie := insertMany trieDepth 0 t items.
Definition trieWithout (t : trie) (id : UUID) : trie := delete_at trieDepth 0 t (uuidKey id).

Definition trieRootOrBuild (t : DocumentTree) : trie :=
  match root t, Entries t with
  | Empty, Some m => if bool_decide (m = ∅) then Empty else trieBuild m
  | h, _ => h
  end.

(** ** Reads *)

Definition Size (t : DocumentTree) : Z := match Entries t with Some m => Z.of_nat (base.size m) | None => size t end.
Definition HashFor (t : DocumentTree) (docID : UUID) : option Hash :=
  match Entries t with Some m => m !! docID | None => trie_get (root t) docID end.
Definition Contains (t : DocumentTree) (docID : UUID) : bool :=
  match Entries t with Some m => bool_decide (is_Some (m !! docID)) | None => bool_decide (is_Some (trie_get (root t) docID)) end.
Definition MaterializedEntries (t : DocumentTree) : gmap UUID Hash :=
  match Entries t with Some m => m | None => entries (root t) end.

(** [order] is the order in which the flat map is ranged over. *)
Definition Walk {S} (order : list (UUID * Hash)) (visit : S -> UUID * Hash -> S * bool) (s : S) (t : DocumentTree) : S :=
  match Entries t with Some _ => (fold_until visit s order).1 | None => (walkUntil visit s (root t)).1 end.
Definition WalkOrdered {S} (visit : S -> UUID * Hash -> S * bool) (s : S) (t : DocumentTree) : S := (walkUntil visit s (trieRootOrBuild t)).1.
Definition WalkAfter {S} (visit : S -> UUID * Hash -> S * bool) (after : UUID) (s : S) (t : DocumentTree) : S := walkAfter visit after s (trieRootOrBuild t).

(** ** Updates *)

Definition With (t : DocumentTree) (docID : UUID) (contentHash : Hash) : DocumentTree :=
  let h := trieRootOrBuild t in
  let existed := trie_get h docID in
  let nh := trieWith h docID contentHash in
  let newSize := Size t in
  let newSize := match existed with None => newSize + 1 | Some _ => newSize end in
  mkTree (rootHash nh) None newSize nh.

(** Equal keys are next to each other: the last one is kept. *)
Definition compact (items : list trieItem) : list trieItem :=
  rev (foldl (fun acc it => match acc with a :: r => if bool_decide (a.1 = it.1) then it :: r else it :: acc | [] => [it] end) [] items).

Definition WithAll (t : DocumentTree) (es : list (UUID * Hash)) : DocumentTree :=
  match es with
  | [] => t
  | _ =>
    let items := compact (isort key_ltb (map (fun e => (uuidKey e.1, e.2)) es)) in
    let h := trieRootOrBuild t in
    let newSize := foldl (fun n (it : trieItem) => match trie_get h (keyUUID it.1) with None => n + 1 | Some _ => n end) (Size t) items in
    let nh := trieWithAll h items in
    mkTree (rootHash nh) None newSize nh
  end.

Definition Without (t : DocumentTree) (docID : UUID) : DocumentTree :=
  let h := trieRootOrBuild t in
  let existed := trie_get h docID in
  let nh := trieWithout h docID in
  let newSize := Size t in
  let newSize := match existed with Some _ => newSize - 1 | None => newSize end in
  mkTree (rootHash nh) None newSize nh.

(** ** Construction *)

Definition BuildDocumentTree (m : gmap UUID Hash) : DocumentTree :=
  let h := trieBuild m in mkTree (rootHash h) (Some m) 0 h.
Definition EmptyDocumentTree : DocumentTree := BuildDocumentTree ∅.
Definition BuildTrieDocumentTree (m : gmap UUID Hash) : DocumentTree :=
  let h := trieBuild m in mkTree (rootHash h) None (Z.of_nat (base.size m)) h.

(** ** The packed form *)

Definition PackedTreeEntrySize : nat := 16 + 32.

Definition packEntry (dst : bytes) (e : UUID * Hash) : bytes := AppendBytes dst e.1 ++ HashBytes e.2.

(** The whole entries of a packed tree. *)
Fixpoint entry_chunks (n : nat) (packed : bytes) : list bytes :=
  match n with O => [] | S n => take PackedTreeEntrySize packed :: entry_chunks n (drop PackedTreeEntrySize packed) end.

Definition AppendPacked (order : list (UUID * Hash)) (dst : bytes) (t : DocumentTree) : bytes :=
  let start := length dst in
  let dst := Walk order (fun dst e => (packEntry dst e, true)) dst t in
  match Entries t with
  | Some _ =>
    let packed := drop start dst in
    let n := (length packed / PackedTreeEntrySize)%nat in
    let sorted := isort (fun a b => negb (bytes_leb (take 16 b) (take 16 a))) (entry_chunks n packed) in
    take start dst ++ concat sorted
  | None => dst
  end.

(** [WritePacked] into a writer that keeps a state and says how much it took, and what went wrong. *)
Section WritePacked.
Context {W E : Type} (write : W -> bytes -> W * Z * option E).

Definition flushAt : Z := Z.shiftl 64 10.

Record packing := mkPacking { out : W; buf : bytes; written : Z; werr : option E }.

Definition pack_visit (p : packing) (e : UUID * Hash) : packing * bool :=
  let b := packEntry (buf p) e in
  if flushAt <=? zlen b then
    match write (out p) b with
    | (w, n, Some err) => (mkPacking w b (written p + n) (Some err), false)
    | (w, n, None) => (mkPacking w [] (written p + n) None, true)
    end
  else (mkPacking (out p) b (written p) (werr p), true).

Definition WritePacked (order : list (UUID * Hash)) (w : W) (t : DocumentTree) : W * Z * option E :=
  match Entries t with
  | Some _ => write w (AppendPacked order [] t)
  | None =>
    let p := Walk order pack_visit (mkPacking w [] 0 None) t in
    match werr p with
    | Some err => (out p, written p, Some err)
    | None => let '(w, n, err) := write (out p) (buf p) in (w, written p + n, err)
    end
  end.
End WritePacked.

Inductive tree_error := NotWholeEntries (n : Z) | EntriesOutOfOrder (i : Z).

Definition packedItems (packed : bytes) : list trieItem :=
  map (fun e => (take 16 e, mkHash (drop 16 e))) (entry_chunks (length packed / PackedTreeEntrySize) packed).

(** The first entry that does not follow the one before it. *)
Fixpoint misordered (i : Z) (items : list trieItem) : option Z :=
  match items with
  | a :: (b :: _) as r => if bytes_leb b.1 a.1 then Some i else misordered (i + 1) r
  | _ => None
  end.

Definition BuildTrieDocumentTreePacked (packed : bytes) : go tree_error DocumentTree :=
  if negb (zlen packed mod Z.of_nat PackedTreeEntrySize =? 0) then Err (NotWholeEntries (zlen packed))
  else
    let items := packedItems packed in
    match misordered 1 items with
    | Some i => Err (EntriesOutOfOrder i)
    | None => let h := trieBuildItems items in Ok (mkTree (rootHash h) None (Z.of_nat (length items)) h)
    end.

(** ** The wire form *)

Definition entriesToArrayValue (m : gmap UUID Hash) : Value :=
  ArrayValue (map (fun e => RecordValue [(1, uuidVal e.1); (2, hashVal e.2)])
    (isort (fun a b : UUID * Hash => negb (bytes_leb (UUIDString b.1) (UUIDString a.1))) (map_to_list m))).

Definition decode_entry (m : gmap UUID Hash) (e : Value) : cres (gmap UUID Hash) :=
  match e with
  | RecordValue rec =>
    id ← or_decode (str "DocumentTree: docId") (uuidFromVal (field_lookup 1 rec));
    h ← hashFromVal (field_lookup 2 rec);
    Ok (<[id := h]> m)
  | _ => Err (CommitDecode (str "DocumentTree: entry record") None)
  end.

Definition DocumentTreeFromValue (value : Value) : cres DocumentTree :=
  match value with
  | ArrayValue els =>
    m ← foldl (fun m e => m ← m; decode_entry m e) (Ok ∅) els;
    Ok (BuildDocumentTree m)
  | _ => Err (CommitDecode (str "DocumentTree: expected array") None)
  end.

End DocumentTree.
