(* ===== verification/TreeMap.v ===== *)
(** A document tree is a finite map: every read of a tree gives what the map holds, every
    update gives the tree of the updated map, and the tree hash depends on the map alone. *)

From S2P Require Import Prelude Primitives Schema KdbCodec Document Sha256 Commit TrieHash Trie TrieCorrect TrieWalk TrieBulk DocumentTree.
Import Primitives Schema KdbCodec Commit TrieHash Trie TrieCorrect TrieWalk TrieBulk DocumentTree.

Module TreeMap.

#[local] Opaque trieDepth uuidKey keyUUID.

(** ** Maps and tries *)

Definition map_wf (m : gmap UUID Hash) : Prop := map_Forall (fun id h => uuid_wf id /\ hash_wf h) m.

(** The entries of a map by key, and the hash of its uncompressed Merkle tree. *)
Definition items_of (m : gmap UUID Hash) : list trieItem := isort key_ltb (map (fun e => (uuidKey e.1, e.2)) (map_to_list m)).
Definition tree_hash (m : gmap UUID Hash) : Hash := mkHash (merkle trieDepth 0 (items_of m)).

Definition holds_map (t : trie) (m : gmap UUID Hash) : Prop :=
  wf trieDepth [] t /\ map_wf m /\ forall id, uuid_wf id -> trie_get t id = m !! id.

Lemma uuidKey_inj a b : uuid_wf a -> uuid_wf b -> uuidKey a = uuidKey b -> a = b.
Proof. intros Ha Hb E. rewrite <- (keyUUID_uuidKey a Ha), <- (keyUUID_uuidKey b Hb). by rewrite E. Qed.

Lemma items_elem m k c : map_wf m -> (k, c) ∈ items_of m <-> length k = 16%nat /\ m !! keyUUID k = Some c.
Proof.
  intros Hm. unfold items_of. rewrite isort_perm, list_elem_of_fmap. split.
  - intros ([id h] & [= -> ->] & Hin%elem_of_map_to_list). destruct (Hm id h Hin) as [Hid _]. cbn [fst snd]. split; [apply uuidKey_length|by rewrite keyUUID_uuidKey].
  - intros [Hk Hl]. exists (keyUUID k, c). cbn [fst snd]. rewrite uuidKey_keyUUID by done. split; [done|]. by apply elem_of_map_to_list.
Qed.

Lemma sorted_unique (l l' : list trieItem) : StronglySorted entry_lt l -> StronglySorted entry_lt l' -> (forall e, e ∈ l <-> e ∈ l') -> l = l'.
Proof.
  assert (Hnd : forall l : list trieItem, StronglySorted entry_lt l -> NoDup l).
  { induction 1 as [|e r _ IH Hall]; constructor; [|done]. rewrite Forall_forall in Hall. intros Hin. by apply Hall, key_lt_irrefl in Hin. }
  intros H H' E. apply (StronglySorted_unique_strong entry_lt); [|done..|apply NoDup_Permutation; auto]. intros x y _ _ H1 H2. destruct (key_lt_irrefl x.1). by eapply key_lt_trans.
Qed.

(** Sorted by key, elements with distinct keys are strictly increasing. *)
Lemma isort_strict_key {A} (ltb : A -> A -> bool) (key : A -> bytes) l : (forall a b, ltb a b = negb (bytes_leb (key b) (key a))) -> NoDup (map key l) -> StronglySorted (fun a b => key_lt (key a) (key b)) (isort ltb l).
Proof.
  intros Hk Hn. pose proof (isort_bytes ltb key l Hk) as Hs. assert (Hn' : NoDup (map key (isort ltb l))) by (by rewrite isort_perm).
  induction Hs as [|x l' Hs IH Hx]; constructor; cbn in Hn'; apply NoDup_cons in Hn' as [Hni Hn']; [auto|]. rewrite Forall_forall in Hx |- *. intros y Hy.
  destruct (key_lt_or (key x) (key y) (Hx y Hy)) as [E|]; [|done]. destruct Hni. rewrite E. by apply (list_elem_of_fmap_2 key).
Qed.

Lemma items_NoDup m : map_wf m -> NoDup (map (fun e : UUID * Hash => (uuidKey e.1, e.2)) (map_to_list m)).*1.
Proof.
  intros Hm. rewrite <- list_fmap_compose. assert (Hl : forall e, e ∈ map_to_list m -> uuid_wf e.1) by (intros [id h] Hin%elem_of_map_to_list; by apply (Hm id h)).
  pose proof (NoDup_fst_map_to_list m) as Hn. induction (map_to_list m) as [|e l IH]; cbn in *; [constructor|]. apply NoDup_cons in Hn as [Hni Hn]. constructor; [|apply IH; [intros; apply Hl; by right|done]].
  intros (e' & E & Hin)%list_elem_of_fmap. cbn [compose fst] in E. apply Hni, list_elem_of_fmap. exists e'. split; [|done]. apply uuidKey_inj; [apply Hl; by left|apply Hl; by right|done].
Qed.

Lemma items_batch m : map_wf m -> batch [] (items_of m).
Proof.
  intros Hm. split; [by apply (isort_strict_key key_ltb fst), items_NoDup|]. intros k c [Hk Hc]%items_elem; [|done]. split_and!; [apply under_nil|done|]. by apply (Hm _ _ Hc).
Qed.

(** A key of sixteen bytes with a hash. *)
Definition item_wf (e : trieItem) : Prop := length e.1 = 16%nat /\ hash_wf e.2.

Lemma items_wf m : map_wf m -> Forall item_wf (items_of m).
Proof. intros Hm. apply Forall_forall. intros [k c] Hin. by apply (items_batch m Hm) in Hin as (_ & ? & ?). Qed.

Lemma holds_get t m k c : holds_map t m -> get t k = Some c <-> length k = 16%nat /\ m !! keyUUID k = Some c.
Proof.
  intros (W & Hm & G). split.
  - intros Hg. assert (Hk : length k = 16%nat) by (by destruct (get_under _ _ _ _ _ W eq_refl Hg) as (_ & ? & _)). split; [done|]. rewrite <- G by apply keyUUID_wf. unfold trie_get. by rewrite uuidKey_keyUUID.
  - intros [Hk Hl]. rewrite <- G in Hl by apply keyUUID_wf. unfold trie_get in Hl. by rewrite uuidKey_keyUUID in Hl.
Qed.

Lemma walk_items t m : holds_map t m -> walk t = items_of m.
Proof.
  intros H. pose proof H as (W & Hm & _). apply sorted_unique; [by apply (walk_sorted _ _ _ W)|by apply items_batch|]. intros [k c]. rewrite (walk_get _ _ _ W eq_refl), items_elem by done. by apply holds_get.
Qed.

(** The root hash of a trie is that of the map it holds, and one map has one trie. *)
Lemma rootHash_map t m : holds_map t m -> rootHash t = tree_hash m.
Proof. intros H. pose proof H as (W & _). unfold rootHash, tree_hash. by rewrite <- (walk_items t m H), (hash_merkle _ _ _ W eq_refl). Qed.
Lemma holds_unique t t' m : holds_map t m -> holds_map t' m -> t = t'.
Proof.
  intros H H'. pose proof H as (W & _). pose proof H' as (W' & _). apply (canonical_at trieDepth [] _ _ W W' eq_refl). intros k. apply option_eq. intros c. change (get t k = Some c <-> get t' k = Some c). by rewrite !holds_get.
Qed.

Lemma holds_empty : holds_map Empty ∅.
Proof. split_and!; [constructor|apply map_Forall_empty|]. intros id _. unfold trie_get, get. by rewrite get_empty, lookup_empty. Qed.

(** ** Operations on tries *)

Lemma trieBuild_holds m : map_wf m -> holds_map (trieBuild m) m.
Proof.
  intros Hm. unfold trieBuild. fold (items_of m). rewrite trieBuildItems_foldl by (by apply items_batch). destruct (insertAll_spec Empty (items_of m) (wf_empty _ _) (items_batch m Hm)) as [W G]. split_and!; [done..|].
  intros id Hid. apply option_eq. intros c. unfold trie_get. rewrite G, items_elem, uuidKey_length, keyUUID_uuidKey by done. unfold get. rewrite get_empty. naive_solver.
Qed.

Lemma map_wf_insert m id h : map_wf m -> uuid_wf id -> hash_wf h -> map_wf (<[id := h]> m).
Proof. intros Hm Hi Hh. by apply map_Forall_insert_2. Qed.

Lemma trieWith_holds t m id h : holds_map t m -> uuid_wf id -> hash_wf h -> holds_map (trieWith t id h) (<[id := h]> m).
Proof.
  intros (W & Hm & G) Hid Hh. destruct (insert_spec trieDepth [] t (uuidKey id) h W eq_refl (uuidKey_length id) Hh (under_nil _)) as (W' & _ & _ & G'). split_and!; [done|by apply map_wf_insert|].
  intros id' Hid'. unfold trie_get, get, trieWith. rewrite G'. case_bool_decide as E; [apply uuidKey_inj in E as ->; [|done..]; by rewrite lookup_insert_eq|]. rewrite lookup_insert_ne by (by intros ->). exact (G id' Hid').
Qed.

Lemma trieWithout_holds t m id : holds_map t m -> uuid_wf id -> holds_map (trieWithout t id) (delete id m).
Proof.
  intros (W & Hm & G) Hid. destruct (delete_spec trieDepth [] t (uuidKey id) W eq_refl (under_nil _)) as (W' & G'). split_and!; [done|by apply map_Forall_delete|].
  intros id' Hid'. unfold trie_get, get, trieWithout. rewrite G'. case_bool_decide as E; [apply uuidKey_inj in E as ->; [|done..]; by rewrite lookup_delete_eq|]. rewrite lookup_delete_ne by (by intros ->). exact (G id' Hid').
Qed.

Lemma fold_until_all {S A} (f : S -> A -> S) s l : fold_until (fun s a => (f s a, true)) s l = (foldl f s l, true).
Proof. revert s. induction l as [|a l IH]; intros s; [done|]. cbn. apply IH. Qed.

Lemma walkUntil_items {S} (visit : S -> UUID * Hash -> S * bool) s t : walkUntil visit s t = fold_until (fun s e => visit s (keyUUID e.1, e.2)) s (walk t).
Proof. apply walk_until_list. Qed.

Lemma foldl_insert_elem (l : list trieItem) (m : gmap UUID Hash) : NoDup l.*1 -> (forall e, e ∈ l -> length e.1 = 16%nat) ->
  forall id h, foldl (fun m e => <[keyUUID e.1 := e.2]> m) m l !! id = Some h <-> (exists k, (k, h) ∈ l /\ id = keyUUID k) \/ (forall e, e ∈ l -> id <> keyUUID e.1) /\ m !! id = Some h.
Proof.
  revert m. induction l as [|[k c] l IH]; intros m Hn Hl id h; cbn [foldl].
  - split; [intros H; right; split; [|done]; by intros e ?%not_elem_of_nil|]. by intros [(k & ?%not_elem_of_nil & _)|[_ ?]].
  - cbn in Hn. apply NoDup_cons in Hn as [Hni Hn]. rewrite IH by (done || intros; apply Hl; by right). cbn. assert (Hkey : forall k', (k', h) ∈ l -> keyUUID k' <> keyUUID k).
    { intros k' Hin E. apply Hni, list_elem_of_fmap. exists (k', h). split; [|done]. cbn [fst]. pose proof (Hl (k, c) ltac:(by left)) as L1. pose proof (Hl (k', h) ltac:(by right)) as L2. cbn in L1, L2. rewrite <- (uuidKey_keyUUID k L1), <- (uuidKey_keyUUID k' L2). by rewrite E. }
    assert (Hall : (forall e, e ∈ (k, c) :: l -> id <> keyUUID e.1) <-> id <> keyUUID k /\ forall e, e ∈ l -> id <> keyUUID e.1) by (split; [intros H; split; [by apply (H (k, c)); left|intros e He; apply H; by right]|intros [H1 H2] e [->|He]%elem_of_cons; [done|by apply H2]]).
    rewrite Hall, lookup_insert_Some. split.
    + intros [(k' & Hin & ->)|[H1 [[<- ->]|[Hne H2]]]]; [left; exists k'; split; [by right|done]|left; exists k; split; [by left|done]|by right].
    + intros [(k' & [[= -> ->]|Hin]%elem_of_cons & ->)|[[Hne H1] H2]]; [|left; by exists k'|right; split; [done|by right]].
      right. split; [|by left]. intros e He E. apply Hni. apply list_elem_of_fmap. exists e. split; [|done]. pose proof (Hl e ltac:(by right)) as L1. pose proof (Hl (k, c) ltac:(by left)) as L2. cbn in L2.
      rewrite <- (uuidKey_keyUUID k L2), <- (uuidKey_keyUUID e.1 L1). by rewrite E.
Qed.

Lemma batch_NoDup pre items : batch pre items -> NoDup items.*1.
Proof.
  intros [Hs _]. induction Hs as [|e l _ IH Hall]; cbn; constructor; [|done]. rewrite Forall_forall in Hall. intros (e' & E & Hin)%list_elem_of_fmap. apply Hall in Hin. unfold entry_lt in Hin. rewrite E in Hin. by apply key_lt_irrefl in Hin.
Qed.

Lemma entries_map t m : holds_map t m -> entries t = m.
Proof.
  intros H. pose proof H as (_ & Hm & _). unfold entries. rewrite walkUntil_items, (walk_items t m H). rewrite (fold_until_all (fun (s : gmap UUID Hash) (e : trieItem) => <[keyUUID e.1 := e.2]> s)). cbn [fst].
  pose proof (items_batch m Hm) as Hb. apply map_eq. intros id. apply option_eq. intros h. rewrite foldl_insert_elem; [|by apply (batch_NoDup [])|intros [k c] Hin; by apply Hb in Hin as (_ & ? & _)].
  rewrite lookup_empty. split; [intros [(k & [_ Hk]%items_elem & ->)|[_ [=]]]; done|]. intros Hl. left. exists (uuidKey id). destruct (Hm _ _ Hl) as [Hid _]. rewrite items_elem by done. by rewrite uuidKey_length, keyUUID_uuidKey.
Qed.

(** ** Batches *)

(** One entry after another; the last entry of an identifier counts. *)
Definition set_all (m : gmap UUID Hash) (es : list (UUID * Hash)) : gmap UUID Hash := foldl (fun m e => <[e.1 := e.2]> m) m es.

Lemma set_all_lookup es : forall m id, set_all m es !! id = match last (List.filter (fun e => bool_decide (e.1 = id)) es) with Some e => Some e.2 | None => m !! id end.
Proof.
  induction es as [|[id' h] es IH] using rev_ind; intros m id; [done|]. unfold set_all. rewrite foldl_app, List.filter_app. fold (set_all m es). cbn. case_bool_decide as E; [subst id'; by rewrite lookup_insert_eq, last_snoc|].
  rewrite lookup_insert_ne by done. by rewrite app_nil_r, IH.
Qed.

Definition at_key (k : bytes) (e : trieItem) : bool := bool_decide (e.1 = k).

(** Sorting keeps the order of equal keys. *)
Lemma isort_stable (l : list trieItem) k : List.filter (at_key k) (isort key_ltb l) = List.filter (at_key k) l.
Proof.
  induction l as [|x l IH]; [done|]. cbn [isort]. transitivity (List.filter (at_key k) (x :: isort key_ltb l)); [|cbn; by rewrite IH].
  clear IH. induction (isort key_ltb l) as [|y r IH]; [done|]. cbn [sinsert]. destruct (key_ltb y x) eqn:E; [|done]. cbn [List.filter] in *. rewrite IH.
  unfold at_key. destruct (bool_decide_reflect (x.1 = k)) as [Ex|]; [|done]. destruct (bool_decide_reflect (y.1 = k)) as [Ey|]; [|done]. unfold key_ltb in E. by rewrite Ex, Ey, bytes_leb_refl in E.
Qed.

(** The list [compact] builds, last element first. *)
Definition compacted (l : list trieItem) : list trieItem :=
  foldl (fun (acc : list trieItem) (it : trieItem) => match acc with a :: r => if bool_decide (a.1 = it.1) then it :: r else it :: acc | [] => [it] end) [] l.

Lemma compacted_snoc l x : compacted (l ++ [x]) = match compacted l with a :: r => if bool_decide (a.1 = x.1) then x :: r else x :: a :: r | [] => [x] end.
Proof. unfold compacted. rewrite foldl_app. fold (compacted l). cbn [foldl]. by destruct (compacted l). Qed.
Lemma compacted_head l : head (compacted l) = last l.
Proof.
  induction l as [|x l _] using rev_ind; [done|]. rewrite compacted_snoc, last_snoc. destruct (compacted l) as [|a r]; [done|]. by case_bool_decide.
Qed.

Lemma compacted_spec l : StronglySorted (before fst) l ->
  StronglySorted (fun a b => entry_lt b a) (compacted l) /\ forall k c, (k, c) ∈ compacted l <-> last (List.filter (at_key k) l) = Some (k, c).
Proof.
  induction l as [|x l IH] using rev_ind; intros Hs; [split; [constructor|]; intros k c; by rewrite elem_of_nil|]. apply StronglySorted_app in Hs as (Hx & Hs & _). destruct (IH Hs) as [S M]. clear IH.
  assert (Hle : forall e, e ∈ compacted l -> e.1 = x.1 \/ key_lt e.1 x.1).
  { intros [k c] Hin%M. apply key_lt_or. apply (Hx (k, c) x); [|by left]. apply last_Some_elem_of in Hin. by apply list_elem_of_In, filter_In in Hin as [Hin%list_elem_of_In _]. }
  assert (Hlast : forall k, last (List.filter (at_key k) (l ++ [x])) = if bool_decide (x.1 = k) then Some x else last (List.filter (at_key k) l)).
  { intros k. rewrite List.filter_app. cbn. unfold at_key at 2. case_bool_decide; [by rewrite last_snoc|by rewrite app_nil_r]. }
  rewrite compacted_snoc. destruct (compacted l) as [|a r].
  - split; [repeat constructor|]. intros k c. rewrite Hlast, list_elem_of_singleton. case_bool_decide as E; [split; congruence|]. rewrite <- M, elem_of_nil. split; [|done]. intros <-. by cbn in E.
  - apply StronglySorted_inv in S as [S Ha]. rewrite Forall_forall in Ha. assert (Hr : forall e, e ∈ r -> key_lt e.1 x.1).
    { intros e He. destruct (Hle a ltac:(by left)) as [<-|]; [by apply Ha|]. eapply key_lt_trans; [by apply Ha|done]. }
    case_bool_decide as E; (split; [constructor; [|apply Forall_forall; intros e]|intros k c; rewrite Hlast, elem_of_cons]).
    + done.
    + apply Hr.
    + case_bool_decide as Ek; [|rewrite <- M, elem_of_cons; split; (intros [H|H]; [destruct Ek; first [by rewrite <- H|by rewrite <- E, <- H]|by right])].
      split; [|intros [= ->]; by left]. intros [H|Hin]; [by rewrite H|]. apply Hr in Hin. cbn in Hin. rewrite Ek in Hin. by apply key_lt_irrefl in Hin.
    + constructor; [done|]. by apply Forall_forall.
    + intros [->|He]%elem_of_cons; [by destruct (Hle a ltac:(by left))|by apply Hr].
    + case_bool_decide as Ek; [|rewrite <- M; split; [intros [H|H]; [destruct Ek; by rewrite <- H|done]|by right]]. split; [|intros [= ->]; by left].
      intros [H|[H|Hin]%elem_of_cons]; [by rewrite H|destruct E; by rewrite <- H|]. apply Hr in Hin. cbn in Hin. rewrite Ek in Hin. by apply key_lt_irrefl in Hin.
Qed.

Lemma StronglySorted_rev {A} (R : A -> A -> Prop) l : StronglySorted (fun a b => R b a) l -> StronglySorted R (rev l).
Proof.
  induction 1 as [|x l _ IH Hx]; cbn; [constructor|]. apply StronglySorted_app. split_and!; [|done|repeat constructor]. rewrite Forall_forall in Hx. intros a b Ha ->%list_elem_of_singleton. apply Hx. by rewrite list_elem_of_In, in_rev, <- list_elem_of_In.
Qed.

Lemma compact_spec l : StronglySorted (before fst) l ->
  StronglySorted entry_lt (compact l) /\ forall k c, (k, c) ∈ compact l <-> last (List.filter (at_key k) l) = Some (k, c).
Proof.
  intros Hl. destruct (compacted_spec l Hl) as [S M]. change (compact l) with (rev (compacted l)). split; [by apply StronglySorted_rev|]. intros k c. by rewrite list_elem_of_In, <- in_rev, <- list_elem_of_In.
Qed.

Definition entries_wf (es : list (UUID * Hash)) : Prop := forall e, e ∈ es -> uuid_wf e.1 /\ hash_wf e.2.
Definition batch_items (es : list (UUID * Hash)) : list trieItem := compact (isort key_ltb (map (fun e => (uuidKey e.1, e.2)) es)).

Lemma batch_items_key es id : entries_wf es -> uuid_wf id ->
  last (List.filter (at_key (uuidKey id)) (map (fun e => (uuidKey e.1, e.2)) es)) = option_map (fun e => (uuidKey e.1, e.2)) (last (List.filter (fun e => bool_decide (e.1 = id)) es)).
Proof.
  intros Hes Hid. assert (E : List.filter (at_key (uuidKey id)) (map (fun e => (uuidKey e.1, e.2)) es) = map (fun e => (uuidKey e.1, e.2)) (List.filter (fun e => bool_decide (e.1 = id)) es)).
  { induction es as [|e es IH]; [done|]. cbn [map List.filter]. rewrite IH by (intros e' He'; apply Hes; by right). unfold at_key. cbn [fst]. destruct (Hes e ltac:(by left)) as [He _].
    destruct (bool_decide_reflect (e.1 = id)) as [<-|Hne]; [by rewrite bool_decide_true|]. rewrite bool_decide_false; [done|]. intros E. by apply Hne, uuidKey_inj. }
  rewrite E. apply fmap_last.
Qed.

Lemma batch_items_elem es k c : entries_wf es -> (k, c) ∈ batch_items es <-> exists id, k = uuidKey id /\ uuid_wf id /\ hash_wf c /\ last (List.filter (fun e => bool_decide (e.1 = id)) es) = Some (id, c).
Proof.
  intros Hes. unfold batch_items. destruct (compact_spec _ (isort_bytes key_ltb fst (map (fun e => (uuidKey e.1, e.2)) es) ltac:(done))) as [_ M]. rewrite M, isort_stable. split.
  - intros Hl. pose proof Hl as Hin. apply last_Some_elem_of, list_elem_of_In, filter_In in Hin as [Hin%list_elem_of_In _]. apply list_elem_of_fmap in Hin as ([id h] & [= -> ->] & Hin). destruct (Hes _ Hin) as [Hid Hh]. cbn [fst snd] in *.
    exists id. split_and!; [done..|]. rewrite batch_items_key in Hl by done. destruct (last _) as [[id' h']|] eqn:El; [|done]. cbn in Hl. apply (inj Some), pair_equal_spec in Hl as [Hk ->].
    apply last_Some_elem_of, list_elem_of_In, filter_In in El as [_ El]. cbn in El. apply bool_decide_eq_true in El as ->. done.
  - intros (id & -> & Hid & _ & Hl). by rewrite batch_items_key, Hl.
Qed.

Lemma batch_items_batch es : entries_wf es -> batch [] (batch_items es).
Proof.
  intros Hes. split; [apply compact_spec, isort_bytes; done|]. intros k c (id & -> & Hid & Hc & _)%batch_items_elem; [|done]. split_and!; [apply under_nil|apply uuidKey_length|done].
Qed.

Lemma batch_items_nonempty es : entries_wf es -> es <> [] -> batch_items es <> [].
Proof.
  intros Hes Hne. destruct es as [|[id h] es]; [done|]. intros E. destruct (last (List.filter (fun e => bool_decide (e.1 = id)) ((id, h) :: es))) as [[id' h']|] eqn:El.
  - pose proof El as Hin. apply last_Some_elem_of, list_elem_of_In, filter_In in Hin as [Hin%list_elem_of_In Hb]. cbn in Hb. apply bool_decide_eq_true in Hb as ->. destruct (Hes _ Hin) as [H1 H2].
    assert (Hx : (uuidKey id, h') ∈ batch_items ((id, h) :: es)) by (apply batch_items_elem; [done|]; by exists id). rewrite E in Hx. by apply not_elem_of_nil in Hx.
  - apply last_None in El. cbn in El. by rewrite bool_decide_true in El.
Qed.

Lemma map_wf_set_all m es : map_wf m -> entries_wf es -> map_wf (set_all m es).
Proof.
  revert m. induction es as [|e es IH]; intros m Hm Hes; [done|]. unfold set_all. cbn [foldl]. apply IH; [|intros e' He'; apply Hes; by right]. destruct (Hes e ltac:(by left)). by apply map_wf_insert.
Qed.

Lemma trieWithAll_holds t m es : holds_map t m -> entries_wf es -> es <> [] -> holds_map (trieWithAll t (batch_items es)) (set_all m es).
Proof.
  intros (W & Hm & G) Hes Hne. destruct (insertMany_spec trieDepth [] t (batch_items es) W eq_refl (batch_items_batch es Hes) (batch_items_nonempty es Hes Hne)) as (W' & _ & _ & _ & G'). split_and!; [done|by apply map_wf_set_all|].
  intros id Hid. apply option_eq. intros c. unfold trie_get, get, trieWithAll. cbn [length] in G'. rewrite G'. clear G'. rewrite (batch_items_elem es), set_all_lookup by done. fold (get t (uuidKey id)). change (get t (uuidKey id)) with (trie_get t id). rewrite (G id Hid).
  assert (Hmem : uuidKey id ∈ (batch_items es).*1 <-> exists h, last (List.filter (fun e => bool_decide (e.1 = id)) es) = Some (id, h)).
  { rewrite list_elem_of_fmap. split.
    - intros ([k h] & E & (id' & E' & Hid' & _ & Hl)%batch_items_elem); [|done]. cbn in E. subst k. apply uuidKey_inj in E' as ->; [by exists h|done..].
    - intros (h & Hl). exists (uuidKey id, h). split; [done|]. apply batch_items_elem; [done|]. exists id. split_and!; [done..| |done]. apply last_Some_elem_of, list_elem_of_In, filter_In in Hl as [Hin%list_elem_of_In _]. by apply (Hes _ Hin). }
  rewrite Hmem. split.
  - intros [(id' & E & Hid' & _ & Hl)|[Hn Hl]]; [apply uuidKey_inj in E as ->; [by rewrite Hl|done..]|]. destruct (last _) as [[id' h]|] eqn:El; [|done]. destruct Hn. exists h.
    pose proof El as Hin. apply last_Some_elem_of, list_elem_of_In, filter_In in Hin as [_ Hb]. cbn in Hb. by apply bool_decide_eq_true in Hb as ->.
  - destruct (last _) as [[id' h]|] eqn:El; [|intros Hl; right; split; [by intros (? & ?)|done]]. pose proof El as Hin. apply last_Some_elem_of, list_elem_of_In, filter_In in Hin as [Hin%list_elem_of_In Hb]. cbn in Hb. apply bool_decide_eq_true in Hb as ->.
    cbn. intros [= ->]. left. exists id. split_and!; [done..|by apply (Hes _ Hin)|done].
Qed.

(** A batch adds as many entries as it has new keys. *)
Lemma count_new (items : list trieItem) : forall (m : gmap UUID Hash) (g : trieItem -> option Hash) n, NoDup items.*1 -> (forall it, it ∈ items -> length it.1 = 16%nat /\ g it = m !! keyUUID it.1) ->
  foldl (fun n it => match g it with None => n + 1 | Some _ => n end) n items = n + Z.of_nat (base.size (foldl (fun m it => <[keyUUID it.1 := it.2]> m) m items)) - Z.of_nat (base.size m).
Proof.
  induction items as [|[k c] items IH]; intros m g n Hn Hg; cbn [foldl]; [lia|]. cbn in Hn. apply NoDup_cons in Hn as [Hni Hn]. destruct (Hg (k, c) ltac:(by left)) as [Hk Hgk]. cbn [fst snd] in *.
  rewrite (IH (<[keyUUID k := c]> m) g).
  - rewrite Hgk. destruct (m !! keyUUID k) as [h|] eqn:El; [rewrite (map_size_insert_Some (keyUUID k) c m) by (by eexists)|rewrite (map_size_insert_None (keyUUID k) c m) by done]; lia.
  - done.
  - intros [k' c'] Hin. destruct (Hg (k', c') ltac:(by right)) as [Hk' Hg']. split; [done|]. rewrite Hg'. cbn [fst]. rewrite lookup_insert_ne; [done|]. intros E. apply Hni, list_elem_of_fmap. exists (k', c'). split; [|done]. cbn [fst]. cbn [fst] in Hk'.
    rewrite <- (uuidKey_keyUUID k Hk), <- (uuidKey_keyUUID k' Hk'). by rewrite E.
Qed.

(** ** Trees *)

(** A tree stands for a map: by its flat map, by its trie, or by both. *)
Definition represents (t : DocumentTree) (m : gmap UUID Hash) : Prop :=
  map_wf m /\ TreeHash t = tree_hash m /\
  match Entries t with
  | Some m' => m' = m /\ (holds_map (root t) m \/ root t = Empty)
  | None => holds_map (root t) m /\ size t = Z.of_nat (base.size m)
  end.

Lemma trieRootOrBuild_holds t m : represents t m -> holds_map (trieRootOrBuild t) m.
Proof.
  intros (Hm & _ & H). unfold trieRootOrBuild. destruct (Entries t) as [m'|]; [|destruct H as [H _]; by destruct (root t)]. destruct H as [-> H]. destruct (root t) as [|h id c|h ch] eqn:E; [|by destruct H..].
  case_bool_decide as Em; [subst m; apply holds_empty|by apply trieBuild_holds].
Qed.

(** A tree that is backed by its trie alone. *)
Lemma trie_represents t m n : holds_map t m -> n = Z.of_nat (base.size m) -> represents (mkTree (rootHash t) None n t) m.
Proof. intros H ->. pose proof H as (_ & Hm & _). split_and!; [done|by apply rootHash_map|done..]. Qed.

Lemma BuildDocumentTree_represents m : map_wf m -> represents (BuildDocumentTree m) m.
Proof. intros Hm. pose proof (trieBuild_holds m Hm) as H. split_and!; [done|by apply rootHash_map|]. split; [done|by left]. Qed.
Lemma BuildTrieDocumentTree_represents m : map_wf m -> represents (BuildTrieDocumentTree m) m.
Proof. intros Hm. by apply trie_represents; [apply trieBuild_holds|]. Qed.

Lemma represents_reads t m : represents t m ->
  Size t = Z.of_nat (base.size m) /\ MaterializedEntries t = m /\ forall id, uuid_wf id -> HashFor t id = m !! id /\ Contains t id = bool_decide (is_Some (m !! id)).
Proof.
  intros (Hm & _ & H). unfold Size, MaterializedEntries, HashFor, Contains. destruct (Entries t) as [m'|]; [by destruct H as [-> _]|]. destruct H as [H ->]. split_and!; [done|by apply entries_map|].
  destruct H as (_ & _ & G). intros id Hid. by rewrite G.
Qed.

Lemma With_represents t m id h : represents t m -> uuid_wf id -> hash_wf h -> represents (With t id h) (<[id := h]> m).
Proof.
  intros Ht Hid Hh. pose proof (trieRootOrBuild_holds t m Ht) as H. destruct (represents_reads t m Ht) as (Hs & _). unfold With. apply trie_represents; [by apply trieWith_holds|]. destruct H as (_ & _ & G). rewrite Hs, G by done.
  destruct (m !! id) as [h'|] eqn:El; [rewrite map_size_insert_Some by (by eexists)|rewrite map_size_insert_None by done]; lia.
Qed.

Lemma Without_represents t m id : represents t m -> uuid_wf id -> represents (Without t id) (delete id m).
Proof.
  intros Ht Hid. pose proof (trieRootOrBuild_holds t m Ht) as H. destruct (represents_reads t m Ht) as (Hs & _). unfold Without. apply trie_represents; [by apply trieWithout_holds|]. destruct H as (_ & _ & G). rewrite Hs, G by done.
  destruct (m !! id) as [h'|] eqn:El; [|by rewrite map_size_delete_None]. assert (base.size m <> 0)%nat by (intros E%map_size_empty_inv; by subst; rewrite lookup_empty in El). rewrite map_size_delete_Some by (by eexists). lia.
Qed.

Lemma set_all_items m es : map_wf m -> entries_wf es -> foldl (fun m (it : trieItem) => <[keyUUID it.1 := it.2]> m) m (batch_items es) = set_all m es.
Proof.
  intros Hm Hes. apply map_eq. intros id. apply option_eq. intros h. pose proof (batch_items_batch es Hes) as Hb. rewrite foldl_insert_elem by (first [by apply (batch_NoDup [])|intros [k c] Hin; by apply Hb in Hin as (_ & ? & _)]).
  rewrite set_all_lookup. assert (Hmem : forall h, (exists k, (k, h) ∈ batch_items es /\ id = keyUUID k) <-> last (List.filter (fun e => bool_decide (e.1 = id)) es) = Some (id, h)).
  { intros h0. split.
    - intros (k & (id' & -> & Hid & _ & Hl)%batch_items_elem & ->); [|done]. by rewrite keyUUID_uuidKey.
    - intros Hl. pose proof Hl as Hin. apply last_Some_elem_of, list_elem_of_In, filter_In in Hin as [Hin%list_elem_of_In _]. destruct (Hes _ Hin) as [H1 H2]. exists (uuidKey id). rewrite keyUUID_uuidKey by done. split; [|done]. apply batch_items_elem; [done|]. by exists id. }
  rewrite Hmem. destruct (last _) as [[id' h']|] eqn:El.
  - pose proof El as Hin. apply last_Some_elem_of, list_elem_of_In, filter_In in Hin as [Hin%list_elem_of_In Hb']. cbn in Hb'. apply bool_decide_eq_true in Hb' as ->. cbn. split; [|intros [= ->]; by left]. intros [[= ->]|[Hno _]]; [done|].
    destruct (proj2 (Hmem h') eq_refl) as (k & Hk & E). by destruct (Hno _ Hk).
  - split; [by intros [[=]|[_ ?]]|]. intros Hl. right. split; [|done]. intros [k c] Hk E. cbn in E. discriminate (proj1 (Hmem c) (ex_intro _ k (conj Hk E))).
Qed.

Lemma WithAll_represents t m es : represents t m -> entries_wf es -> represents (WithAll t es) (set_all m es).
Proof.
  intros Ht Hes. destruct es as [|e es]; [done|]. set (l := e :: es) in *. pose proof (trieRootOrBuild_holds t m Ht) as H. destruct (represents_reads t m Ht) as (Hs & _). pose proof H as (_ & Hm & G).
  change (WithAll t l) with (mkTree (rootHash (trieWithAll (trieRootOrBuild t) (batch_items l))) None
    (foldl (fun n (it : trieItem) => match trie_get (trieRootOrBuild t) (keyUUID it.1) with None => n + 1 | Some _ => n end) (Size t) (batch_items l)) (trieWithAll (trieRootOrBuild t) (batch_items l))).
  apply trie_represents; [by apply trieWithAll_holds|]. pose proof (batch_items_batch l Hes) as Hb.
  rewrite (count_new (batch_items l) m (fun it => trie_get (trieRootOrBuild t) (keyUUID it.1))); [|by apply (batch_NoDup [])|].
  - rewrite set_all_items by done. lia.
  - intros [k c] Hin. split; [by apply Hb in Hin as (_ & ? & _)|]. apply G, keyUUID_wf.
Qed.

(** A map with one entry, and a tree of it. *)
Definition sample_id : UUID := mkUUID 1 2.
Definition sample : gmap UUID Hash := {[sample_id := mkHash trieZero]}.

Lemma sample_id_wf : uuid_wf sample_id.
Proof. split; unfold is_s; cbn; lia. Qed.
Lemma sample_represents : represents (BuildDocumentTree sample) sample.
Proof. apply BuildDocumentTree_represents, map_Forall_singleton. split; [apply sample_id_wf|done]. Qed.

(** C8. A document tree refines a finite map from identifiers to hashes, whether it is backed
    by a flat map, by a trie, or both: [Size], [HashFor], [Contains] and
    [MaterializedEntries] give what the map gives, [With], [Without] and [WithAll] give a
    tree of the updated map - in a batch the last entry of an identifier counts - and the
    tree hash is that of the uncompressed 32-level Merkle tree of the map's entries, so it
    depends neither on the order of the updates nor on how the tree is stored. *)
Theorem DocumentTree_refines t m (Ht : represents t m) :
  TreeHash t = tree_hash m /\ Size t = Z.of_nat (base.size m) /\ MaterializedEntries t = m /\
  (forall id, uuid_wf id -> HashFor t id = m !! id /\ Contains t id = bool_decide (is_Some (m !! id))) /\
  (forall id h, uuid_wf id -> hash_wf h -> represents (With t id h) (<[id := h]> m)) /\
  (forall id, uuid_wf id -> represents (Without t id) (delete id m)) /\
  (forall es, entries_wf es -> represents (WithAll t es) (set_all m es)).
Proof.
  destruct (represents_reads t m Ht) as (Hs & He & Hr). split_and!; [apply Ht|done..|by intros; apply With_represents|by intros; apply Without_represents|by intros; apply WithAll_represents].
Qed.

Lemma DocumentTree_refines_witness : represents (BuildDocumentTree sample) sample /\ Size (BuildDocumentTree sample) = 1 /\ represents (Without (BuildDocumentTree sample) sample_id) (delete sample_id sample).
Proof.
  pose proof sample_represents as H. destruct (DocumentTree_refines (BuildDocumentTree sample) sample H) as (_ & Hs & _ & _ & _ & Hw & _). split_and!; [exact H|exact Hs|]. apply Hw, sample_id_wf.
Defined.

End TreeMap.
