(* ===== verification/TreePacked.v ===== *)
(** Walks over a document tree and its two serialised forms: the packed entries of a
    checkpoint and the array of the wire. *)

From S2P Require Import Prelude Primitives Schema KdbCodec Document Sha256 Commit CommitDecode TrieHash Trie TrieCorrect TrieWalk TrieBulk DocumentTree TreeMap.
Import Primitives Schema KdbCodec Commit CommitDecode TrieHash Trie TrieCorrect TrieWalk TrieBulk DocumentTree TreeMap.

Module TreePacked.

Lemma packEntry_key dst e : packEntry dst e = dst ++ uuidKey e.1 ++ HashBytes e.2.
Proof. unfold packEntry, AppendBytes, uuidKey. by rewrite !app_assoc. Qed.

#[local] Opaque trieDepth uuidKey keyUUID.

(** ** Walks *)

(** The entries of a map in ascending order of their identifiers. *)
Definition ordered (m : gmap UUID Hash) : list (UUID * Hash) := map (fun e => (keyUUID e.1, e.2)) (items_of m).

Lemma ordered_perm m : map_wf m -> ordered m ≡ₚ map_to_list m.
Proof.
  intros Hm. unfold ordered, items_of. rewrite isort_perm, map_map. cbn [fst snd]. assert (E : map (fun e : UUID * Hash => (keyUUID (uuidKey e.1), e.2)) (map_to_list m) = map_to_list m); [|by rewrite E].
  rewrite <- (map_id (map_to_list m)) at 2. apply map_ext_in. intros [id h] Hin%list_elem_of_In%elem_of_map_to_list. cbn. destruct (Hm id h Hin). by rewrite keyUUID_uuidKey.
Qed.

Lemma fold_until_map {S A B} (f : A -> B) (visit : S -> B -> S * bool) s l : fold_until (fun s a => visit s (f a)) s l = fold_until visit s (map f l).
Proof. revert s. induction l as [|a l IH]; intros s; [done|]. cbn. destruct (visit s (f a)) as [s' []]; [apply IH|done]. Qed.

Lemma WalkOrdered_spec {S} (visit : S -> UUID * Hash -> S * bool) s t m : represents t m -> WalkOrdered visit s t = (fold_until visit s (ordered m)).1.
Proof. intros Ht. unfold WalkOrdered. rewrite walkUntil_items, (walk_items _ m) by (by apply trieRootOrBuild_holds). by rewrite (fold_until_map (fun e : trieItem => (keyUUID e.1, e.2))). Qed.

Lemma Walk_trie {S} order (visit : S -> UUID * Hash -> S * bool) s t m : represents t m -> Entries t = None -> Walk order visit s t = (fold_until visit s (ordered m)).1.
Proof.
  intros (_ & _ & H) E. unfold Walk. rewrite E in *. destruct H as [H _]. rewrite walkUntil_items, (walk_items _ m) by done. by rewrite (fold_until_map (fun e : trieItem => (keyUUID e.1, e.2))).
Qed.

Lemma filter_map_comm {A B} (p : B -> bool) (f : A -> B) l : List.filter p (map f l) = map f (List.filter (fun a => p (f a)) l).
Proof. induction l as [|a l IH]; [done|]. cbn. rewrite IH. by destruct (p (f a)). Qed.

Lemma WalkAfter_ordered {S} (visit : S -> UUID * Hash -> S * bool) after s t m : represents t m -> uuid_wf after ->
  WalkAfter visit after s t = (fold_until visit s (List.filter (fun e => uuidAfter e.1 after) (ordered m))).1.
Proof.
  intros Ht Ha. pose proof (trieRootOrBuild_holds t m Ht) as H. pose proof H as (W & _). unfold WalkAfter, walkAfter. rewrite (walk_after_spec _ after Ha trieDepth [] _ _ W eq_refl (under_nil _)), (walk_items _ m H).
  unfold ordered. rewrite filter_map_comm. by rewrite (fold_until_map (fun e : trieItem => (keyUUID e.1, e.2))).
Qed.

(** ** Packed trees *)

Definition pack_item (e : trieItem) : bytes := e.1 ++ HashBytes e.2.
Definition packed_of (m : gmap UUID Hash) : bytes := concat (map pack_item (items_of m)).

Lemma pack_item_length e : item_wf e -> length (pack_item e) = PackedTreeEntrySize.
Proof. intros [Hk Hc]. unfold pack_item. rewrite length_app, Hk, Hc. done. Qed.

Lemma entry_chunks_concat (l : list bytes) r : Forall (fun e => length e = PackedTreeEntrySize) l -> entry_chunks (length l) (concat l ++ r) = l.
Proof.
  induction 1 as [|e l He _ IH]; [done|]. cbn [length entry_chunks concat]. rewrite <- app_assoc, take_app_length', drop_app_length' by done. by rewrite IH.
Qed.
Lemma concat_length_chunks (l : list bytes) : Forall (fun e => length e = PackedTreeEntrySize) l -> length (concat l) = (length l * PackedTreeEntrySize)%nat.
Proof. induction 1 as [|e l He _ IH]; [done|]. cbn [concat length]. rewrite length_app, IH, He. lia. Qed.
Lemma entry_chunks_whole (l : list bytes) : Forall (fun e => length e = PackedTreeEntrySize) l -> entry_chunks (length (concat l) / PackedTreeEntrySize) (concat l) = l.
Proof. intros H. rewrite concat_length_chunks, Nat.div_mul by done. rewrite <- (app_nil_r (concat l)). by apply entry_chunks_concat. Qed.

Lemma chunks_of_packed n packed : length packed = (n * PackedTreeEntrySize)%nat -> Forall (fun e => length e = PackedTreeEntrySize) (entry_chunks n packed) /\ concat (entry_chunks n packed) = packed.
Proof.
  revert packed. induction n as [|n IH]; intros packed Hl; cbn [entry_chunks]; [by destruct packed|]. destruct (IH (drop PackedTreeEntrySize packed)) as [H1 H2]; [rewrite length_drop; lia|].
  split; [constructor; [rewrite length_take; lia|done]|]. cbn [concat]. by rewrite H2, take_drop.
Qed.

Lemma foldl_packEntry es : forall dst, foldl packEntry dst es = dst ++ concat (map (fun e => pack_item (uuidKey e.1, e.2)) es).
Proof. induction es as [|e es IH]; intros dst; cbn [foldl map concat]; [by rewrite app_nil_r|]. rewrite IH, packEntry_key. unfold pack_item. cbn [fst snd]. by rewrite <- !app_assoc. Qed.

Lemma packed_ordered m : map_wf m -> concat (map (fun e => pack_item (uuidKey e.1, e.2)) (ordered m)) = packed_of m.
Proof.
  intros Hm. unfold ordered, packed_of. rewrite map_map. cbn [fst snd]. f_equal. apply map_ext_in. intros [k c] Hin%list_elem_of_In. cbn [fst snd]. pose proof (items_wf m Hm) as Hw. rewrite Forall_forall in Hw. destruct (Hw _ Hin) as [Hk _]. by rewrite uuidKey_keyUUID.
Qed.

Lemma isort_unique_key {A} (ltb : A -> A -> bool) (key : A -> bytes) l l' : (forall a b, ltb a b = negb (bytes_leb (key b) (key a))) ->
  l ≡ₚ l' -> StronglySorted (fun a b => key_lt (key a) (key b)) l' -> isort ltb l = l'.
Proof.
  intros Hk Hp Hs. assert (Hnd : forall a b, a ∈ l' -> b ∈ l' -> key a = key b -> a = b).
  { clear Hp. induction Hs as [|x r _ IH Hx]; [by intros a b ?%not_elem_of_nil|]. rewrite Forall_forall in Hx. intros a b Ha Hb E. apply elem_of_cons in Ha, Hb. destruct Ha as [->|Ha], Hb as [->|Hb]; [done|apply Hx in Hb; rewrite E in Hb; by apply key_lt_irrefl in Hb|apply Hx in Ha; rewrite E in Ha; by apply key_lt_irrefl in Ha|by apply IH]. }
  apply (StronglySorted_unique_strong (before key)); [|by apply isort_bytes| |by rewrite isort_perm].
  - intros a b Ha Hb H1 H2. apply Hnd; [by rewrite <- Hp, <- (isort_perm ltb l)|done|]. by apply bytes_leb_antisymm.
  - clear Hp Hnd. induction Hs as [|x r _ IH Hx]; constructor; [done|]. eapply Forall_impl; [exact Hx|]. intros b. apply bytes_leb_total.
Qed.

Lemma AppendPacked_spec order dst t m : represents t m -> (Entries t <> None -> order ≡ₚ map_to_list m) -> AppendPacked order dst t = dst ++ packed_of m.
Proof.
  intros Ht Ho. pose proof Ht as (Hm & _). unfold AppendPacked. destruct (Entries t) as [m'|] eqn:E.
  - specialize (Ho ltac:(done)). unfold Walk. rewrite E, (fold_until_all packEntry). cbn [fst]. rewrite foldl_packEntry, take_app_length', drop_app_length' by done. f_equal.
    assert (Hw : Forall (fun e => length e = PackedTreeEntrySize) (map (fun e => pack_item (uuidKey e.1, e.2)) order)).
    { apply Forall_map, Forall_forall. intros [id h] Hin. rewrite Ho in Hin. apply elem_of_map_to_list in Hin. apply pack_item_length. split; [apply uuidKey_length|]. by apply (Hm id h). }
    rewrite entry_chunks_whole by done. unfold packed_of. f_equal. apply (isort_unique_key _ (take 16)); [done| |].
    + unfold items_of. rewrite isort_perm, map_map, Ho. done.
    + pose proof (items_batch m Hm) as [Hs _]. pose proof (items_wf m Hm) as Hi. induction Hs as [|e l _ IH He]; [constructor|]. apply Forall_cons in Hi as [[Hk _] Hi]. cbn [map]. constructor; [by apply IH|].
      apply Forall_map. rewrite Forall_forall in He, Hi |- *. intros e' Hin. specialize (He _ Hin). destruct (Hi _ Hin) as [Hk' _]. unfold pack_item. rewrite !take_app_length' by done. exact He.
  - rewrite (Walk_trie _ _ _ t m Ht E), (fold_until_all packEntry). cbn [fst]. by rewrite foldl_packEntry, packed_ordered.
Qed.

(** A writer that takes everything gets the bytes that [AppendPacked] appends. *)
Definition append_all (w b : bytes) : bytes * Z * option unit := (w ++ b, zlen b, None).

Lemma pack_visits es : forall w b n, n = zlen w -> exists w' b' n', fold_until (pack_visit append_all) (mkPacking w b n None) es = (mkPacking w' b' n' None, true) /\
  w' ++ b' = foldl packEntry (w ++ b) es /\ n' = zlen w'.
Proof.
  induction es as [|e es IH]; intros w b n Hn; [by exists w, b, n|]. cbn [fold_until foldl]. unfold pack_visit at 1. cbn [buf out written werr]. rewrite !packEntry_key, <- !app_assoc. destruct (flushAt <=? _) eqn:E; cbn [append_all].
  - destruct (IH (w ++ b ++ uuidKey e.1 ++ HashBytes e.2) [] (n + zlen (b ++ uuidKey e.1 ++ HashBytes e.2))) as (w' & b' & n' & H1 & H2 & H3); [rewrite (zlen_app w); lia|]. exists w', b', n'. by rewrite app_nil_r in H2.
  - destruct (IH w (b ++ uuidKey e.1 ++ HashBytes e.2) n Hn) as (w' & b' & n' & H1 & H2 & H3). by exists w', b', n'.
Qed.

Lemma WritePacked_append order t m : represents t m -> (Entries t <> None -> order ≡ₚ map_to_list m) ->
  WritePacked append_all order [] t = (AppendPacked order [] t, zlen (AppendPacked order [] t), None).
Proof.
  intros Ht Ho. unfold WritePacked. destruct (Entries t) as [m'|] eqn:E; [done|]. rewrite (Walk_trie _ _ _ t m Ht E). destruct (pack_visits (ordered m) [] [] 0 eq_refl) as (w' & b' & n' & -> & H2 & ->). cbn.
  rewrite <- zlen_app. rewrite H2. unfold AppendPacked. rewrite E, (Walk_trie _ _ _ t m Ht E), (fold_until_all packEntry). done.
Qed.

(** ** Reading packed trees *)

Lemma misordered_cons i a b r : misordered i (a :: b :: r) = if bytes_leb b.1 a.1 then Some i else misordered (i + 1) (b :: r).
Proof. done. Qed.
Lemma misordered_None items : forall i, misordered i items = None <-> StronglySorted entry_lt items.
Proof.
  induction items as [|a items IH]; intros i; [split; [constructor|done]|]. destruct items as [|b r]; [split; [repeat constructor|done]|]. rewrite misordered_cons. destruct (bytes_leb b.1 a.1) eqn:E.
  - split; [done|]. intros [_ H]%StronglySorted_inv. apply Forall_cons in H as [H _]. unfold entry_lt, key_lt in H. congruence.
  - rewrite IH. split; [|by intros [? _]%StronglySorted_inv]. intros Hs. constructor; [done|]. constructor; [done|]. apply StronglySorted_inv in Hs as [_ Hb]. eapply Forall_impl; [exact Hb|]. intros c Hc. by apply (key_lt_trans _ b.1).
Qed.

(** The map of sorted items. *)
Definition map_of (items : list trieItem) : gmap UUID Hash := foldl (fun m e => <[keyUUID e.1 := e.2]> m) ∅ items.

Lemma map_of_items items : StronglySorted entry_lt items -> Forall item_wf items -> map_wf (map_of items) /\ items_of (map_of items) = items.
Proof.
  intros Hs Hw. rewrite Forall_forall in Hw. assert (Hb : batch [] items) by (split; [done|]; intros k c Hin; split; [apply under_nil|by apply (Hw (k, c))]).
  assert (Hl : forall id h, map_of items !! id = Some h <-> exists k, (k, h) ∈ items /\ id = keyUUID k).
  { intros id h. unfold map_of. rewrite foldl_insert_elem, lookup_empty by (first [by apply (batch_NoDup [])|intros e He; by apply Hw]). naive_solver. }
  assert (Hm : map_wf (map_of items)) by (intros id h (k & Hin & ->)%Hl; split; [apply keyUUID_wf|by apply (Hw (k, h))]). split; [done|].
  apply sorted_unique; [by apply items_batch|done|]. intros [k c]. rewrite items_elem, Hl by done. split.
  - intros (Hk & k' & Hin & E). pose proof (Hw _ Hin) as [Hk' _]. cbn in Hk'. by rewrite <- (uuidKey_keyUUID k Hk), E, (uuidKey_keyUUID k' Hk').
  - intros Hin. split; [by apply (Hw (k, c))|by exists k].
Qed.

Lemma items_length m : length (items_of m) = base.size m.
Proof. unfold items_of. by rewrite isort_perm, length_map, length_map_to_list. Qed.

Lemma packedItems_of items : Forall item_wf items -> packedItems (concat (map pack_item items)) = items.
Proof.
  intros Hw. unfold packedItems. rewrite entry_chunks_whole by (apply Forall_map; eapply Forall_impl; [exact Hw|apply pack_item_length]). rewrite map_map. rewrite <- (map_id items) at 2. apply map_ext_in. intros [k [c]] Hin%list_elem_of_In.
  rewrite Forall_forall in Hw. destruct (Hw _ Hin) as [Hk _]. unfold pack_item. cbn in *. by rewrite take_app_length', drop_app_length'.
Qed.

Lemma packed_items packed : zlen packed mod Z.of_nat PackedTreeEntrySize = 0 -> Forall item_wf (packedItems packed) /\ concat (map pack_item (packedItems packed)) = packed.
Proof.
  intros Hd. assert (Hl : length packed = (length packed / PackedTreeEntrySize * PackedTreeEntrySize)%nat).
  { pose proof (Nat.div_mod_eq (length packed) PackedTreeEntrySize) as E. unfold zlen in Hd. rewrite <- Nat2Z.inj_mod in Hd. lia. }
  destruct (chunks_of_packed _ _ Hl) as [Hc E]. unfold packedItems. split.
  - apply Forall_map. eapply Forall_impl; [exact Hc|]. intros e He. split; cbn; [rewrite length_take, He; done|unfold hash_wf; cbn; rewrite length_drop, He; done].
  - rewrite <- E at 3. f_equal. rewrite map_map. rewrite <- (map_id (entry_chunks _ packed)) at 2. apply map_ext. intros e. unfold pack_item. cbn. apply take_drop.
Qed.

(** Exactly the packed forms of maps are accepted. *)
Lemma BuildPacked_exact packed t : BuildTrieDocumentTreePacked packed = Ok t <-> exists m, map_wf m /\ packed = packed_of m /\ t = BuildTrieDocumentTree m.
Proof.
  unfold BuildTrieDocumentTreePacked. split.
  - destruct (Z.eqb_spec (zlen packed mod Z.of_nat PackedTreeEntrySize) 0) as [Hd|]; [|done]. cbn [negb]. destruct (packed_items packed Hd) as [Hw Hp]. destruct (misordered 1 (packedItems packed)) eqn:Em; [done|]. apply misordered_None in Em.
    intros [= <-]. destruct (map_of_items _ Em Hw) as [Hm Hi]. exists (map_of (packedItems packed)). split_and!; [done|unfold packed_of; by rewrite Hi|]. unfold BuildTrieDocumentTree, trieBuild. fold (items_of (map_of (packedItems packed))). by rewrite <- items_length, Hi.
  - intros (m & Hm & -> & ->). pose proof (items_wf m Hm) as Hw. unfold packed_of. rewrite packedItems_of by done. assert (Hd : zlen (concat (map pack_item (items_of m))) mod Z.of_nat PackedTreeEntrySize = 0).
    { unfold zlen. rewrite concat_length_chunks by (apply Forall_map; eapply Forall_impl; [exact Hw|apply pack_item_length]). rewrite Nat2Z.inj_mul. apply Z.mod_mul. done. }
    rewrite Hd. cbn [negb Z.eqb]. rewrite (proj2 (misordered_None _ 1) (proj1 (items_batch m Hm))). unfold BuildTrieDocumentTree, trieBuild. fold (items_of m). by rewrite items_length.
Qed.

(** C15. The packed form of a tree loses nothing and admits nothing else.  Packing any tree of
    a map and building from the bytes gives the trie-backed tree of that map, streaming the
    bytes through a writer writes the same ones, and every input that is accepted is exactly
    what packing the tree built from it gives back: entries that are truncated, repeated or
    out of order are errors, never a different tree. *)
Theorem packed_roundtrip t m order (Ht : represents t m) (Ho : Entries t <> None -> order ≡ₚ map_to_list m) :
  BuildTrieDocumentTreePacked (AppendPacked order [] t) = Ok (BuildTrieDocumentTree m) /\
  WritePacked append_all order [] t = (AppendPacked order [] t, zlen (AppendPacked order [] t), None) /\
  forall packed t', BuildTrieDocumentTreePacked packed = Ok t' -> AppendPacked order [] t' = packed /\ exists m', represents t' m'.
Proof.
  pose proof Ht as (Hm & _). split_and!; [|by apply (WritePacked_append order t m)|].
  - rewrite (AppendPacked_spec order [] t m Ht Ho). apply BuildPacked_exact. by exists m.
  - intros packed t' (m' & Hm' & -> & ->)%BuildPacked_exact. pose proof (BuildTrieDocumentTree_represents m' Hm') as Ht'. split; [by rewrite (AppendPacked_spec order [] _ m' Ht') by done|by exists m'].
Qed.

Lemma packed_roundtrip_witness : represents (BuildDocumentTree sample) sample /\
  BuildTrieDocumentTreePacked (AppendPacked [(sample_id, mkHash trieZero)] [] (BuildDocumentTree sample)) = Ok (BuildTrieDocumentTree sample).
Proof.
  split; [exact sample_represents|]. apply (packed_roundtrip _ _ [(sample_id, mkHash trieZero)] sample_represents). intros _. unfold sample. by rewrite map_to_list_singleton.
Defined.

(** A walk after an identifier visits, in ascending order and until it is stopped, exactly the
    entries whose identifier sorts after it. *)
Theorem WalkAfter_spec {S} (visit : S -> UUID * Hash -> S * bool) after s t m (Ht : represents t m) (Ha : uuid_wf after) :
  WalkAfter visit after s t = (fold_until visit s (List.filter (fun e => uuidAfter e.1 after) (ordered m))).1 /\
  ordered m ≡ₚ map_to_list m /\ StronglySorted (fun a b => uuidAfter b.1 a.1 = true) (ordered m).
Proof.
  pose proof Ht as (Hm & _). split_and!; [by apply WalkAfter_ordered|by apply ordered_perm|]. unfold ordered. pose proof (items_batch m Hm) as [Hs Hb]. induction Hs as [|[k c] l _ IH Hx]; [constructor|]. cbn [map]. constructor; [apply IH; intros; apply Hb; by right|].
  apply Forall_map. rewrite Forall_forall in Hx |- *. intros [k' c'] Hin. cbn [fst]. rewrite uuidAfter_spec by apply keyUUID_wf. destruct (Hb k c ltac:(by left)) as (_ & Hk & _), (Hb k' c' ltac:(by right)) as (_ & Hk' & _). rewrite !uuidKey_keyUUID by done.
  specialize (Hx _ Hin). unfold entry_lt, key_lt in Hx. cbn in Hx. by rewrite Hx.
Qed.

(** ** The wire array *)

Lemma decode_entries es : forall m, (forall e, e ∈ es -> hash_wf e.2) ->
  foldl (fun m e => m ← m; decode_entry m e) (Ok m) (map (fun e => RecordValue [(1, uuidVal e.1); (2, hashVal e.2)]) es) = Ok (set_all m es).
Proof.
  induction es as [|[id h] es IH]; intros m Hes; [done|]. cbn [map foldl]. assert (E : decode_entry m (RecordValue [(1, uuidVal id); (2, hashVal h)]) = Ok (<[id := h]> m)).
  { unfold decode_entry. cbn [field_lookup Z.eqb Pos.eqb]. rewrite hashFromVal_val by (by apply (Hes (id, h)); left). by destruct id. }
  cbn [fst snd]. cbn [mbind go_bind]. rewrite E. apply IH. intros e He. apply Hes. by right.
Qed.

Lemma set_all_perm es m : es ≡ₚ map_to_list m -> set_all ∅ es = m.
Proof.
  intros Hp. assert (E : set_all ∅ es = list_to_map (rev es)) by (clear Hp; induction es as [|e es IH] using rev_ind; [done|]; unfold set_all; rewrite foldl_app, rev_app_distr; cbn; f_equal; apply IH).
  rewrite E. assert (Hr : rev es ≡ₚ map_to_list m) by (by rewrite <- Hp, <- Permutation_rev). rewrite <- (list_to_map_to_list m). apply list_to_map_proper; [|done]. rewrite Hr. apply NoDup_fst_map_to_list.
Qed.

(** Decoding the array of a map's entries gives the tree of the map. *)
Theorem DocumentTreeFromValue_entries m (Hm : map_wf m) : DocumentTreeFromValue (entriesToArrayValue m) = Ok (BuildDocumentTree m).
Proof.
  unfold DocumentTreeFromValue, entriesToArrayValue. set (es := isort _ _). assert (Hp : es ≡ₚ map_to_list m) by apply isort_perm. rewrite decode_entries; [cbn; by rewrite (set_all_perm es m)|].
  intros [id h] Hin. rewrite Hp in Hin. apply elem_of_map_to_list in Hin. by apply (Hm id h).
Qed.

End TreePacked.
