(* ===== verification/TreeProof.v ===== *)
(** Proofs of what a document tree holds: [document/document_tree_proof.go].

    A proof is checked against a tree hash alone.  What it says is then true of the tree
    with that hash, unless the tree and the proof open a hash in two different ways: the
    places to look at are listed, so a wrong answer exhibits a collision of SHA-256 (or a
    preimage of the all-zero hash, which stands for an empty subtree). *)

From S2P Require Import Prelude Primitives Schema KdbCodec Document Sha256 Commit TrieHash Trie TrieCorrect TrieWalk TrieBulk DocumentTree TreeMap.
Import Primitives TrieHash Trie TrieCorrect TrieWalk TrieBulk DocumentTree TreeMap.

Module TreeProof.

Definition zeroHash : Hash := mkHash trieZero.

Record TreeProof := mkProof {
  DocID : UUID;
  Levels : list (list Hash);
  HasLeaf : bool;
  LeafID : UUID;
  LeafHash : Hash;
}.

(** The path from a position towards the key, with [n] levels left. *)
Fixpoint proof_at (n depth : nat) (t : trie) (key : bytes) : list (list Hash) * option (UUID * Hash) :=
  match t with
  | Empty => ([], None)
  | Leaf _ id c => ([], Some (keyUUID id, c))
  | Node _ ch =>
    let level := map (fun c => mkHash (hash_of c)) ch in
    match n with
    | O => ([level], None)
    | S n => let '(ls, leaf) := proof_at n (S depth) (child ch (nibbleAt key depth)) key in (level :: ls, leaf)
    end
  end.

Definition Proof_of (t : DocumentTree) (id : UUID) : TreeProof :=
  let '(ls, leaf) := proof_at trieDepth 0 (trieRootOrBuild t) (uuidKey id) in
  match leaf with
  | Some (lid, lh) => mkProof id ls true lid lh
  | None => mkProof id ls false (mkUUID 0 0) zeroHash
  end.

Inductive proof_error := TooManyLevels (n : Z) | LeafOffPath (leaf doc : UUID) | ErrProofMismatch.

Definition internalHashOfHashes (children : list Hash) : bytes := Sha256.Sum256 (x01 :: concat (map HashBytes children)).

(** From the end of the path up to its start at [d], checking the slot the path goes through. *)
Fixpoint climb (idBytes : bytes) (d : nat) (levels : list (list Hash)) (h : bytes) : option bytes :=
  match levels with
  | [] => Some h
  | level :: levels =>
    match climb idBytes (S d) levels h with
    | Some h => if bool_decide (HashBytes (nth (nibbleAt idBytes d) level zeroHash) = h) then Some (internalHashOfHashes level) else None
    | None => None
    end
  end.

Definition VerifyTreeProof (root : Hash) (p : TreeProof) : go proof_error (Hash * bool) :=
  if (trieDepth <? length (Levels p))%nat then Err (TooManyLevels (zlen (Levels p)))
  else
    let idBytes := UUIDBytes (DocID p) in
    let depth := length (Levels p) in
    let leafBytes := UUIDBytes (LeafID p) in
    if HasLeaf p && negb (forallb (fun d => Nat.eqb (nibbleAt leafBytes d) (nibbleAt idBytes d)) (seq 0 depth)) then Err (LeafOffPath (LeafID p) (DocID p))
    else
      let h := if HasLeaf p then foldLeaf leafBytes (LeafHash p) depth else trieZero in
      let present := HasLeaf p && bool_decide (LeafID p = DocID p) in
      let content := if present then LeafHash p else zeroHash in
      match climb idBytes 0 (Levels p) h with
      | Some h => if bool_decide (h = HashBytes root) then Ok (content, present) else Err ErrProofMismatch
      | None => Err ErrProofMismatch
      end.

Lemma UUIDBytes_key u : UUIDBytes u = uuidKey u.
Proof. unfold UUIDBytes, uuidKey. by rewrite !writeBE64_spec. Qed.

(** ** Opening hashes *)

Definition slot (es : list trieItem) (depth i : nat) : list trieItem := List.filter (fun e => bool_decide (nibbleAt e.1 depth = i)) es.

(** What the hash of the uncompressed tree over some entries is a hash of; nothing for no entries. *)
Definition opened (n depth : nat) (es : list trieItem) : option bytes :=
  match es with
  | [] => None
  | (k, c) :: _ => Some match n with O => x00 :: k ++ HashBytes c | S n => preimage (map (fun i => merkle n (S depth) (slot es depth i)) (seq 0 16)) end
  end.
Definition image (o : option bytes) : bytes := match o with Some b => Sha256.Sum256 b | None => trieZero end.

(** One hash opened in two ways. *)
Definition clash (p : option bytes * option bytes) : Prop := p.1 <> p.2 /\ image p.1 = image p.2.

Lemma merkle_image n d es : merkle n d es = image (opened n d es).
Proof. destruct n, es as [|[k c] es]; done. Qed.

Lemma merkle_length n d es : length (merkle n d es) = 32%nat.
Proof. rewrite merkle_image. destruct (opened n d es); [apply Sha256.Sum256_length|done]. Qed.

Lemma concat_inj (l l' : list bytes) : length l = length l' -> Forall (fun b => length b = 32%nat) l -> Forall (fun b => length b = 32%nat) l' -> concat l = concat l' -> l = l'.
Proof.
  revert l'. induction l as [|b l IH]; intros [|b' l'] Hl H H' E; try done. apply Forall_cons in H as [Hb H], H' as [Hb' H']. cbn in E. apply app_inj_1 in E as [-> E]; [|congruence]. f_equal. apply IH; [by injection Hl|done..].
Qed.
Lemma preimage_inj l l' : length l = length l' -> Forall (fun b => length b = 32%nat) l -> Forall (fun b => length b = 32%nat) l' -> preimage l = preimage l' -> l = l'.
Proof. intros Hl H H' [= E]. by apply concat_inj. Qed.

(** Entries below the position that the first [d] nibbles of a key lead to. *)
Definition below (d : nat) (k : bytes) (es : list trieItem) : Prop :=
  NoDup es.*1 /\ forall e, e ∈ es -> item_wf e /\ forall i, (i < d)%nat -> nibbleAt e.1 i = nibbleAt k i.

Lemma elem_of_slot e es d i : e ∈ slot es d i <-> e ∈ es /\ nibbleAt e.1 d = i.
Proof. unfold slot. by rewrite list_elem_of_In, filter_In, <- list_elem_of_In, bool_decide_eq_true. Qed.
Lemma slot_NoDup es d i : NoDup es.*1 -> NoDup (slot es d i).*1.
Proof.
  induction es as [|e es IH]; intros H; [done|]. cbn in H. apply NoDup_cons in H as [Hn H]. unfold slot in *. cbn [List.filter]. case_bool_decide; [|by apply IH]. cbn. constructor; [|by apply IH].
  intros (e' & E & Hin)%list_elem_of_fmap. apply Hn, list_elem_of_fmap. exists e'. split; [done|]. fold (slot es d i) in Hin. by apply elem_of_slot in Hin as [? _].
Qed.
Lemma below_slot d k es : below d k es -> below (S d) k (slot es d (nibbleAt k d)).
Proof.
  intros [Hn Hb]. split; [by apply slot_NoDup|]. intros e [He Hd]%elem_of_slot. destruct (Hb e He) as [Hw Hi]. split; [done|]. intros i Hlt. destruct (decide (i = d)) as [->|]; [done|]. apply Hi. lia.
Qed.

(** At the bottom at most the entry of the key is left. *)
Lemma below_bottom k es : length k = 16%nat -> below trieDepth k es -> es = [] \/ exists c, es = [(k, c)].
Proof.
  intros Hk [Hn Hb]. assert (Hall : forall e, e ∈ es -> e.1 = k) by (intros e He; destruct (Hb e He) as [[Hl _] Hi]; by apply nibbles_inj). destruct es as [|[k1 c1] [|[k2 c2] es]]; [by left| |].
  - right. exists c1. by rewrite <- (Hall (k1, c1)) by (by left).
  - exfalso. cbn in Hn. apply NoDup_cons in Hn as [Hn _]. apply Hn. pose proof (Hall (k1, c1) ltac:(by left)) as E1. pose proof (Hall (k2, c2) ltac:(by right; left)) as E2. cbn in E1, E2. subst. by left.
Qed.

(** ** Two trees with one hash *)

(** What two trees open along the path to a key. *)
Fixpoint path_pairs (n d : nat) (k : bytes) (es es' : list trieItem) : list (option bytes * option bytes) :=
  (opened n d es, opened n d es') ::
  match n with O => [] | S n => path_pairs n (S d) k (slot es d (nibbleAt k d)) (slot es' d (nibbleAt k d)) end.

Definition slots_of (n d : nat) (es : list trieItem) : list bytes := map (fun i => merkle n (S d) (slot es d i)) (seq 0 16).

Lemma opened_node n d es : es <> [] -> opened (S n) d es = Some (preimage (slots_of n d es)).
Proof. destruct es as [|[k c] es]; done. Qed.
Lemma slots_of_wf n d es : length (slots_of n d es) = 16%nat /\ Forall (fun b => length b = 32%nat) (slots_of n d es).
Proof. split; [done|]. apply Forall_map, Forall_forall. intros i _. apply merkle_length. Qed.
Lemma slots_of_nth n d es i : (i < 16)%nat -> nth i (slots_of n d es) trieZero = merkle n (S d) (slot es d i).
Proof. intros Hi. apply nth_lookup_Some. unfold slots_of. rewrite list_lookup_fmap, lookup_seq_lt by done. done. Qed.

Lemma slots_inj n d es l : length l = 16%nat -> Forall (fun b => length b = 32%nat) l -> es <> [] -> opened (S n) d es = Some (preimage l) -> slots_of n d es = l.
Proof. intros Hl Hf Hne. rewrite opened_node by done. intros [= E]. destruct (slots_of_wf n d es) as [L F]. by apply concat_inj; [congruence|..]. Qed.

Lemma path_sound n : forall d k es es', (d + n = trieDepth)%nat -> length k = 16%nat -> below d k es -> below d k es' -> merkle n d es = merkle n d es' ->
  (forall c, (k, c) ∈ es <-> (k, c) ∈ es') \/ Exists clash (path_pairs n d k es es').
Proof.
  induction n as [|n IH]; intros d k es es' Hd Hk Hb Hb' E; rewrite !merkle_image in E; (match type of E with image ?x = image ?y => destruct (decide (x = y)) as [Eo|Hne] end; [|right; by left]).
  - left. replace d with trieDepth in * by lia. destruct (below_bottom k es Hk Hb) as [->|[c ->]], (below_bottom k es' Hk Hb') as [->|[c' ->]]; [done..|]. injection Eo as Eo. apply app_inj_2 in Eo as [_ Eo].
    + destruct c as [c], c' as [c']. cbn in Eo. by subst.
    + destruct Hb as [_ Hb], Hb' as [_ Hb']. destruct (Hb (k, c) ltac:(by left)) as [[_ H1] _], (Hb' (k, c') ltac:(by left)) as [[_ H2] _]. cbn in *. congruence.
  - destruct es as [|e es0]; [destruct es' as [|[]]; [left; done|done]|]. destruct es' as [|e' es0']; [by destruct e|]. set (es := e :: es0) in *. set (es' := e' :: es0') in *.
    rewrite (opened_node n d es') in Eo by done. destruct (slots_of_wf n d es') as [L' F']. apply slots_inj in Eo; [|done..].
    pose proof (nibbleAt_bound k d) as Bk. assert (Es : merkle n (S d) (slot es d (nibbleAt k d)) = merkle n (S d) (slot es' d (nibbleAt k d))) by (by rewrite <- !slots_of_nth, Eo).
    destruct (IH (S d) k _ _ ltac:(lia) Hk (below_slot _ _ _ Hb) (below_slot _ _ _ Hb') Es) as [H|H]; [left|right; by right].
    intros c. specialize (H c). rewrite !elem_of_slot in H. cbn in H. naive_solver.
Qed.

(** ** Soundness *)

#[local] Opaque trieDepth uuidKey keyUUID.

Definition level_wf (l : list Hash) : Prop := length l = 16%nat /\ Forall hash_wf l.
Definition proof_wf (p : TreeProof) : Prop := uuid_wf (DocID p) /\ uuid_wf (LeafID p) /\ hash_wf (LeafHash p) /\ Forall level_wf (Levels p).

(** The entry at the end of a proof's path. *)
Definition leaf_items (p : TreeProof) : list trieItem := if HasLeaf p then [(uuidKey (LeafID p), LeafHash p)] else [].

(** What a tree and a proof open along the path to a key. *)
Fixpoint proof_pairs (n d : nat) (k : bytes) (es : list trieItem) (levels : list (list Hash)) (leaf : list trieItem) : list (option bytes * option bytes) :=
  match levels, n with
  | [], _ => path_pairs n d k es leaf
  | l :: ls, S n' => (opened n d es, Some (preimage (map HashBytes l))) :: proof_pairs n' (S d) k (slot es d (nibbleAt k d)) ls leaf
  | _, O => []
  end.
Definition evidence (m : gmap UUID Hash) (p : TreeProof) : list (option bytes * option bytes) :=
  proof_pairs trieDepth 0 (uuidKey (DocID p)) (items_of m) (Levels p) (leaf_items p).

Lemma level_slot l i : level_wf l -> (i < 16)%nat -> nth i (map HashBytes l) trieZero = HashBytes (nth i l zeroHash).
Proof. intros [Hl _] Hi. change trieZero with (HashBytes zeroHash). by rewrite map_nth. Qed.
Lemma level_bytes l : level_wf l -> Forall (fun b => length b = 32%nat) (map HashBytes l).
Proof. intros [_ H]. by apply Forall_map. Qed.

Lemma climb_sound levels : forall n d k es leaf h r, (d + n = trieDepth)%nat -> length k = 16%nat -> (length levels <= n)%nat -> Forall level_wf levels -> below d k es -> below (d + length levels) k leaf ->
  h = merkle (n - length levels) (d + length levels) leaf -> climb k d levels h = Some r -> r = merkle n d es ->
  (forall c, (k, c) ∈ es <-> (k, c) ∈ leaf) \/ Exists clash (proof_pairs n d k es levels leaf).
Proof.
  induction levels as [|l ls IH]; intros n d k es leaf h r Hd Hk Hn Hw Hb Hb' Hh Hc Hr; cbn [length] in *.
  - cbn [climb] in Hc. injection Hc as ->. rewrite Nat.sub_0_r, Nat.add_0_r in *. replace (proof_pairs n d k es [] leaf) with (path_pairs n d k es leaf) by (by destruct n). apply path_sound; [done..|]. congruence.
  - destruct n as [|n]; [lia|]. apply Forall_cons in Hw as [Hl Hw]. cbn [climb] in Hc. destruct (climb k (S d) ls h) as [h'|] eqn:Ec; [|done]. case_bool_decide as Eh; [|done]. injection Hc as <-.
    cbn [proof_pairs]. rewrite merkle_image in Hr. destruct (decide (opened (S n) d es = Some (preimage (map HashBytes l)))) as [Eo|Hne]; [|right; left; split; [done|]; symmetry; exact Hr].
    assert (Hes : es <> []) by (by intros ->). apply slots_inj in Eo; [|rewrite length_map; apply Hl|by apply level_bytes|done].
    pose proof (nibbleAt_bound k d) as Bk. assert (Es : h' = merkle n (S d) (slot es d (nibbleAt k d))) by (rewrite <- slots_of_nth, Eo, level_slot by done; done).
    destruct (IH n (S d) k (slot es d (nibbleAt k d)) leaf h h' ltac:(lia) Hk ltac:(lia) Hw (below_slot _ _ _ Hb)) as [H|H]; [by replace (S d + length ls)%nat with (d + S (length ls))%nat by lia|by replace (S d + length ls)%nat with (d + S (length ls))%nat by lia|done..| |right; by right].
    left. intros c. rewrite <- H, elem_of_slot. cbn. split; [by intros|by intros [? _]].
Qed.

Lemma items_below m k : map_wf m -> below 0 k (items_of m).
Proof. intros Hm. split; [by apply (batch_NoDup []), items_batch|]. pose proof (items_wf m Hm) as H. rewrite Forall_forall in H. intros e He. split; [by apply H|lia]. Qed.

Lemma foldLeaf_merkle k c d : (d <= trieDepth)%nat -> foldLeaf k c d = merkle (trieDepth - d) d [(k, c)].
Proof.
  intros Hd. pose proof (merkle_leaf (trieDepth - d) (replicate d 0%nat) k c) as H. rewrite length_replicate in H. symmetry. apply H. unfold levels. rewrite length_replicate. lia.
Qed.

Lemma items_answer m id c : map_wf m -> uuid_wf id -> (uuidKey id, c) ∈ items_of m <-> m !! id = Some c.
Proof. intros Hm Hid. rewrite items_elem, keyUUID_uuidKey by done. pose proof (uuidKey_length id). naive_solver. Qed.

Lemma verify_sound m p c b : map_wf m -> proof_wf p -> VerifyTreeProof (tree_hash m) p = Ok (c, b) ->
  m !! DocID p = (if b then Some c else None) \/ Exists clash (evidence m p).
Proof.
  intros Hm (Hd & Hl & Hh & Hw). unfold VerifyTreeProof. destruct (Nat.ltb_spec trieDepth (length (Levels p))) as [|Hlen]; [done|]. rewrite !UUIDBytes_key. set (k := uuidKey (DocID p)).
  assert (Hk : length k = 16%nat) by apply uuidKey_length. destruct (HasLeaf p && _) eqn:Eoff; [done|]. destruct (climb _ _ _ _) as [r|] eqn:Ec; [|done]. case_bool_decide as Er; [|done]. intros [= Hc Hb]. unfold tree_hash in Er. cbn [HashBytes] in Er.
  assert (Hleaf : below (0 + length (Levels p)) k (leaf_items p)).
  { unfold leaf_items. destruct (HasLeaf p); [|split; [constructor|by intros e ?%not_elem_of_nil]]. cbn in Eoff. apply negb_false_iff in Eoff. rewrite forallb_forall in Eoff. split; [apply NoDup_singleton|].
    intros e ->%list_elem_of_singleton. split; [split; [apply uuidKey_length|done]|]. intros i Hi. apply Nat.eqb_eq, Eoff, in_seq. lia. }
  edestruct (climb_sound (Levels p) trieDepth 0 k (items_of m) (leaf_items p)) as [H|H]; [done|exact Hk|done|exact Hw|by apply items_below|exact Hleaf|reflexivity|rewrite <- Ec; f_equal|exact Er| |by right].
  - unfold leaf_items. destruct (HasLeaf p); [|by rewrite merkle_nil]. by rewrite <- foldLeaf_merkle.
  - left. unfold leaf_items in H. destruct (HasLeaf p); cbn in Hb, Hc.
    + case_bool_decide as E; subst b; cbn in Hc; subst.
      * apply items_answer; [done..|]. apply H. unfold k. rewrite <- E. by left.
      * apply eq_None_not_Some. intros (h & Hx). apply items_answer in Hx; [|done..]. apply H, list_elem_of_singleton in Hx. apply pair_equal_spec in Hx as [Hx _]. apply E. symmetry. by apply uuidKey_inj.
    + subst. apply eq_None_not_Some. intros (h & Hx). apply items_answer in Hx; [|done..]. apply H in Hx. by apply not_elem_of_nil in Hx.
Qed.

(** ** Completeness *)

(** The end of a path, as an item. *)
Definition end_hash (leaf : option (UUID * Hash)) (depth : nat) : bytes := match leaf with Some (id, c) => foldLeaf (uuidKey id) c depth | None => trieZero end.

Lemma climb_node k d ls h ch l : length ch = 16%nat -> l = map (fun c => mkHash (hash_of c)) ch -> climb k (S d) ls h = Some (hash_of (child ch (nibbleAt k d))) -> climb k d (l :: ls) h = Some (hash_of (newNode ch)).
Proof.
  intros Hl -> Hc. cbn [climb]. rewrite Hc. pose proof (nibbleAt_bound k d) as Bk. assert (E : nth (nibbleAt k d) (map (fun c => mkHash (hash_of c)) ch) zeroHash = mkHash (hash_of (child ch (nibbleAt k d)))).
  { apply nth_lookup_Some. by rewrite list_lookup_fmap, child_lookup. }
  rewrite E. cbn [HashBytes]. rewrite bool_decide_true by done. unfold internalHashOfHashes. rewrite map_map. done.
Qed.

Lemma proof_at_spec n : forall pre t k, wf n pre t -> levels n pre -> under pre k -> length k = 16%nat ->
  let '(ls, leaf) := proof_at n (length pre) t k in
  (length ls <= n)%nat /\ climb k (length pre) ls (end_hash leaf (length pre + length ls)) = Some (hash_of t) /\
  (forall id c, leaf = Some (id, c) -> uuid_wf id /\ hash_wf c /\ forall d, (d < length pre + length ls)%nat -> nibbleAt (uuidKey id) d = nibbleAt k d) /\
  Forall level_wf ls /\ get_at n (length pre) t k = match leaf with Some (id, c) => if bool_decide (uuidKey id = k) then Some c else None | None => None end.
Proof.
  assert (Hleaf : forall n pre h id c k, wf n pre (Leaf h id c) -> under pre k -> length k = 16%nat -> let leaf := Some (keyUUID id, c) in
    climb k (length pre) [] (end_hash leaf (length pre + 0)) = Some h /\
    (forall id' c', leaf = Some (id', c') -> uuid_wf id' /\ hash_wf c' /\ forall d, (d < length pre + 0)%nat -> nibbleAt (uuidKey id') d = nibbleAt k d) /\
    get_at n (length pre) (Leaf h id c) k = if bool_decide (uuidKey (keyUUID id) = k) then Some c else None).
  { intros n0 pre h id c k Hw Hu Hk. inversion Hw as [|? ? ? ? Hid Hc Hui|]; subst. cbn [climb end_hash]. rewrite get_leaf, Nat.add_0_r, uuidKey_keyUUID by done. split_and!; [done| |done].
    intros id' c' [= <- <-]. split_and!; [apply keyUUID_wf|done|]. intros d Hd. rewrite uuidKey_keyUUID by done. destruct (lookup_lt_is_Some_2 pre d Hd) as [x Hx]. by rewrite (Hui d x Hx), (Hu d x Hx). }
  induction n as [|n IH]; intros pre t k Hw HL Hu Hk; (destruct t as [|h id c|h ch]; [cbn; rewrite ?get_empty; split_and!; done || lia|destruct (Hleaf _ _ _ _ _ k Hw Hu Hk) as (H1 & H2 & H3); cbn [proof_at length]; split_and!; [lia|done..]|]).
  - apply wf_children_of in Hw as (n' & [=] & _).
  - pose proof Hw as Hn. inversion Hn as [| |? ? ? HA HB HC]; subst. clear HA HB HC. apply wf_children_of in Hw as (n' & [= <-] & Hch & Hcr). pose proof Hch as [Hl Hwf]. cbn [proof_at]. pose proof (nibbleAt_bound k (length pre)) as Bk. set (nib := nibbleAt k (length pre)) in *.
    pose proof (IH (pre ++ [nib]) (child ch nib) k (wf_child _ _ _ _ Hch Bk) (levels_snoc _ _ _ HL) ltac:(by apply under_snoc) Hk) as H. rewrite length_snoc in H. destruct (proof_at n (S (length pre)) (child ch nib) k) as [ls leaf]. destruct H as (H1 & H2 & H3 & H4 & H5). cbn [length].
    replace (length pre + S (length ls))%nat with (S (length pre) + length ls)%nat by lia. split_and!; [lia|by apply (climb_node k (length pre) ls _ ch)|done| |by rewrite get_node].
    constructor; [|done]. split; [by rewrite length_map|]. apply Forall_map, Forall_forall. intros t [i Hi]%list_elem_of_lookup. unfold hash_wf. cbn [HashBytes]. rewrite (hash_merkle _ _ _ (Hwf i t Hi) (levels_snoc _ _ _ HL)). apply merkle_length.
Qed.

Lemma verify_complete t m id : represents t m -> uuid_wf id ->
  proof_wf (Proof_of t id) /\ VerifyTreeProof (TreeHash t) (Proof_of t id) = Ok match m !! id with Some c => (c, true) | None => (zeroHash, false) end.
Proof.
  intros Ht Hid. pose proof (trieRootOrBuild_holds t m Ht) as H. pose proof H as (W & Hm & G). destruct Ht as (_ & -> & _). rewrite <- (rootHash_map _ m H), <- G by done. unfold Proof_of. set (k := uuidKey id).
  assert (Hk : length k = 16%nat) by apply uuidKey_length. pose proof (proof_at_spec trieDepth [] (trieRootOrBuild t) k W eq_refl (under_nil _) Hk) as Hp. cbn [length] in Hp.
  destruct (proof_at trieDepth 0 (trieRootOrBuild t) k) as [ls leaf]. destruct Hp as (Hn & Hc & Hl & Hw & Hg). change (trie_get (trieRootOrBuild t) id) with (get_at trieDepth 0 (trieRootOrBuild t) k). rewrite Hg. clear Hg.
  destruct leaf as [[lid lc]|].
  - destruct (Hl lid lc eq_refl) as (H1 & H2 & H3). split; [done|]. unfold VerifyTreeProof. cbn [Levels DocID LeafID LeafHash HasLeaf andb]. rewrite (proj2 (Nat.ltb_ge _ _) Hn), !UUIDBytes_key. fold k.
    assert (Hoff : forallb (fun d => Nat.eqb (nibbleAt (uuidKey lid) d) (nibbleAt k d)) (seq 0 (length ls)) = true) by (apply forallb_forall; intros d [_ Hd]%in_seq; apply Nat.eqb_eq, H3; lia).
    rewrite Hoff. cbn [negb]. cbn [end_hash Nat.add] in Hc. rewrite Hc. rewrite bool_decide_true by done. destruct (bool_decide_reflect (lid = id)) as [->|Hne]; [by rewrite bool_decide_true|]. rewrite bool_decide_false; [done|]. intros E. by apply Hne, uuidKey_inj.
  - split; [split_and!; [done|split; unfold is_s; cbn; lia|done|done]|]. unfold VerifyTreeProof. cbn [Levels DocID LeafID LeafHash HasLeaf andb]. rewrite (proj2 (Nat.ltb_ge _ _) Hn), !UUIDBytes_key. fold k. cbn [end_hash Nat.add] in Hc. rewrite Hc. by rewrite bool_decide_true.
Qed.

(** Proofs work: the proof a tree gives for an identifier, present or absent, verifies
    against the tree's hash and reports exactly what the tree holds. *)
Theorem Proof_verifies t m id (Ht : represents t m) (Hid : uuid_wf id) :
  VerifyTreeProof (TreeHash t) (Proof_of t id) = Ok match m !! id with Some c => (c, true) | None => (zeroHash, false) end.
Proof. by apply verify_complete. Qed.

Lemma Proof_verifies_witness : represents (BuildDocumentTree sample) sample /\ uuid_wf sample_id /\
  VerifyTreeProof (TreeHash (BuildDocumentTree sample)) (Proof_of (BuildDocumentTree sample) sample_id) = Ok (mkHash trieZero, true).
Proof. split_and!; [exact sample_represents|exact sample_id_wf|]. exact (Proof_verifies (BuildDocumentTree sample) sample sample_id sample_represents sample_id_wf). Defined.

(** C13. Proofs cannot lie: whatever proof is checked against the hash of a tree, by whoever
    made it, the answer that is accepted is what the tree holds for the identifier - its
    hash, or its absence - unless one of the hashes on the path to the identifier is opened
    in two ways, by the tree and by the proof ([evidence] lists the at most 33 pairs), which
    is a collision of SHA-256 or a preimage of the all-zero hash. *)
Theorem VerifyTreeProof_sound t m p c b (Ht : represents t m) (Hp : proof_wf p) (Hv : VerifyTreeProof (TreeHash t) p = Ok (c, b)) :
  m !! DocID p = (if b then Some c else None) \/ Exists clash (evidence m p).
Proof. destruct Ht as (Hm & E & _). rewrite E in Hv. by apply verify_sound. Qed.

Lemma VerifyTreeProof_sound_witness : proof_wf (Proof_of (BuildDocumentTree sample) sample_id) /\
  (sample !! sample_id = Some (mkHash trieZero) \/ Exists clash (evidence sample (Proof_of (BuildDocumentTree sample) sample_id))).
Proof.
  destruct (verify_complete (BuildDocumentTree sample) sample sample_id sample_represents sample_id_wf) as [Hp Hv]. split; [exact Hp|]. assert (E : DocID (Proof_of (BuildDocumentTree sample) sample_id) = sample_id) by (unfold Proof_of; destruct (proof_at _ _ _ _) as [? [[]|]]; reflexivity).
  pose proof (VerifyTreeProof_sound (BuildDocumentTree sample) sample (Proof_of (BuildDocumentTree sample) sample_id) (mkHash trieZero) true sample_represents Hp Hv) as H. rewrite E in H. exact H.
Defined.

End TreeProof.
