(* ===== verification/TreeNodes.v ===== *)
(** Merkle views of a document tree and the comparison of two trees by them:
    [document/document_tree_node.go].

    A position is a prefix of the 32 hexadecimal digits of an identifier.  The comparison
    is over two sources of nodes, each of which may be a peer; a source that fails stops it. *)

From S2P Require Import Prelude Primitives Schema KdbCodec Document Sha256 Commit TrieHash Trie TrieCorrect TrieWalk TrieBulk DocumentTree TreeMap TreePacked TreeProof.
Import Primitives TrieHash Trie TrieCorrect TrieWalk TrieBulk DocumentTree TreeMap TreePacked TreeProof.

Module TreeNodes.

Record TreeNode := mkNode {
  Prefix : bytes;
  NodeHash : Hash;
  Children : list Hash;
  Listed : option (gmap UUID Hash);
}.

Definition no_hashes : list Hash := replicate 16 zeroHash.

(** A rune that is not one byte is outside both ranges. *)
Definition hex_lower (c : byte) : bool := ((48 <=? b2z c) && (b2z c <=? 57)) || ((97 <=? b2z c) && (b2z c <=? 102)).
Definition ValidTreePrefix (p : bytes) : bool := (length p <=? trieDepth)%nat && forallb hex_lower p.

Definition hexNibble (c : byte) : nat := Z.to_nat (wrapu 8 (if b2z c <=? 57 then b2z c - 48 else b2z c - 97 + 10)).

(** Down the digits of a prefix, to a leaf at the latest. *)
Fixpoint descend (t : trie) (prefix : bytes) : trie :=
  match prefix, t with
  | c :: prefix, Node _ ch => descend (child ch (hexNibble c)) prefix
  | _, _ => t
  end.

Inductive node_error := NotANibblePrefix (p : bytes).

Definition NodeAt (t : DocumentTree) (prefix : bytes) (entryLimit : Z) : go node_error TreeNode :=
  if negb (ValidTreePrefix prefix) then Err (NotANibblePrefix prefix)
  else
    let depth := length prefix in
    Ok match descend (trieRootOrBuild t) prefix with
    | Empty => mkNode prefix zeroHash no_hashes None
    | Leaf _ id c =>
      if negb (has_prefix (EncodeToString id) prefix) then mkNode prefix zeroHash no_hashes None
      else
        mkNode prefix (mkHash (foldLeaf id c depth))
          (if (depth <? trieDepth)%nat then <[nibbleAt id depth := mkHash (foldLeaf id c (depth + 1))]> no_hashes else no_hashes)
          (if 1 <=? entryLimit then Some {[keyUUID id := c]} else None)
    | Node h ch as r =>
      mkNode prefix (mkHash h) (map (fun c => mkHash (hash_of c)) ch)
        (if 0 <? entryLimit then
           let '(es, small) := walkUntil (fun es e => let es := <[e.1 := e.2]> es in (es, Z.of_nat (base.size es) <=? entryLimit)) (∅ : gmap UUID Hash) r in
           if small then Some es else None
         else None)
    end.

(** ** Comparing two trees *)

Record TreeDifference := mkDiff { DiffID : UUID; Local : Hash; Remote : Hash }.

Section DiffTrees.
Context {E : Type}.

Definition NodeSource : Type := list bytes -> go E (list TreeNode).

Inductive diff_error := SourceFailed (e : E) | WrongCount (asked got_local got_remote : Z) | ListsNoEntries (prefix : bytes).

(** Ranging over the maps: the order is lost when the result is sorted. *)
Definition diffEntries (l r : gmap UUID Hash) : list TreeDifference :=
  concat (map (fun e : UUID * Hash => let rh := default zeroHash (r !! e.1) in if bool_decide (rh = e.2) then [] else [mkDiff e.1 e.2 rh]) (map_to_list l)) ++
  concat (map (fun e : UUID * Hash => match l !! e.1 with None => [mkDiff e.1 zeroHash e.2] | Some _ => [] end) (map_to_list r)).

Definition hex_char (nib : nat) : byte := hex_digit (Z.of_nat nib).

(** One batch: what differs at the prefixes of the frontier, and where to look next. *)
Fixpoint diff_level (frontier : list bytes) (ln rn : list TreeNode) (out : list TreeDifference) (next : list bytes) : go diff_error (list TreeDifference * list bytes) :=
  match frontier, ln, rn with
  | prefix :: frontier, l :: ln, r :: rn =>
    if bool_decide (NodeHash l = NodeHash r) then diff_level frontier ln rn out next
    else if (bool_decide (Listed l <> None) || bool_decide (NodeHash l = zeroHash)) && (bool_decide (Listed r <> None) || bool_decide (NodeHash r = zeroHash))
    then diff_level frontier ln rn (out ++ diffEntries (default ∅ (Listed l)) (default ∅ (Listed r))) next
    else if (length prefix =? trieDepth)%nat then Err (ListsNoEntries prefix)
    else
      let down := List.filter (fun nib => bool_decide (nth nib (Children l) zeroHash <> nth nib (Children r) zeroHash)) (seq 0 16) in
      diff_level frontier ln rn out (next ++ map (fun nib => prefix ++ [hex_char nib]) down)
  | _, _, _ => Ok (out, next)
  end.

Definition from_source {A} (r : go E A) : go diff_error A := match r with Ok x => Ok x | Err e => Err (SourceFailed e) | Panic => Panic end.

(** At most [n] batches. *)
Fixpoint diff_rounds (n : nat) (local remote : NodeSource) (frontier : list bytes) (out : list TreeDifference) : option (go diff_error (list TreeDifference)) :=
  match frontier with
  | [] => Some (Ok out)
  | _ =>
    match n with
    | O => None
    | S n =>
      let step :=
        ln ← from_source (local frontier);
        rn ← from_source (remote frontier);
        if negb (length ln =? length frontier)%nat || negb (length rn =? length frontier)%nat
        then Err (WrongCount (zlen frontier) (zlen ln) (zlen rn))
        else diff_level frontier ln rn out [] in
      match step with
      | Ok (out, next) => diff_rounds n local remote next out
      | Err e => Some (Err e)
      | Panic => Some Panic
      end
    end
  end.

(** The result is sorted by identifier; 33 batches are enough. *)
Definition DiffTrees (local remote : NodeSource) : option (go diff_error (list TreeDifference)) :=
  match diff_rounds (S trieDepth) local remote [[]] [] with
  | Some (Ok out) => Some (Ok (isort (fun a b => negb (bytes_leb (UUIDString (DiffID b)) (UUIDString (DiffID a)))) out))
  | r => r
  end.
End DiffTrees.
#[global] Arguments NodeSource : clear implicits.
#[global] Arguments diff_error : clear implicits.

(** A source over a tree. *)
Fixpoint LocalNodes (t : DocumentTree) (entryLimit : Z) (prefixes : list bytes) : go node_error (list TreeNode) :=
  match prefixes with
  | [] => Ok []
  | p :: prefixes => n ← NodeAt t p entryLimit; ns ← LocalNodes t entryLimit prefixes; Ok (n :: ns)
  end.

(** ** Positions *)

Definition nibs (p : bytes) : list nat := map hexNibble p.

(** The entries below a position. *)
Fixpoint sub_at (d : nat) (es : list trieItem) (q : list nat) : list trieItem :=
  match q with [] => es | x :: q => sub_at (S d) (slot es d x) q end.

(** Down nibbles, as [descend] does down their digits. *)
Fixpoint down (t : trie) (q : list nat) : trie :=
  match q, t with
  | x :: q, Node _ ch => down (child ch x) q
  | _, _ => t
  end.
Lemma descend_down p : forall t, descend t p = down t (nibs p).
Proof. induction p as [|c p IH]; intros t; [done|]. destruct t; [done..|]. apply IH. Qed.

Lemma sub_at_nil d q : sub_at d [] q = [].
Proof. revert d. induction q as [|x q IH]; intros d; [done|]. apply IH. Qed.

Fixpoint passes (d : nat) (q : list nat) (k : bytes) : bool :=
  match q with [] => true | x :: q => Nat.eqb (nibbleAt k d) x && passes (S d) q k end.

Lemma sub_at_filter d q es : sub_at d es q = List.filter (fun e : trieItem => passes d q e.1) es.
Proof.
  revert d es. induction q as [|x q IH]; intros d es; cbn [sub_at]; [symmetry; by apply filter_all|]. rewrite IH. unfold slot. induction es as [|e es IHe]; [done|]. cbn [List.filter passes].
  destruct (bool_decide_reflect (nibbleAt e.1 d = x)) as [<-|Hne]; [rewrite Nat.eqb_refl; cbn; by rewrite IHe|]. rewrite (proj2 (Nat.eqb_neq _ _) Hne). cbn. apply IHe.
Qed.

Lemma passes_spec d q k : passes d q k = true <-> forall i x, q !! i = Some x -> nibbleAt k (d + i) = x.
Proof.
  revert d. induction q as [|y q IH]; intros d; cbn [passes]; [split; [intros _ i x; by rewrite lookup_nil|done]|]. rewrite andb_true_iff, Nat.eqb_eq, IH. split.
  - intros [<- H] [|i] x; [intros [= <-]; by rewrite Nat.add_0_r|]. intros Hi. rewrite <- (H i x Hi). f_equal. lia.
  - intros H. split; [rewrite <- (Nat.add_0_r d); by apply (H 0%nat)|]. intros i x Hi. rewrite <- (H (S i) x Hi). f_equal. lia.
Qed.

(** ** Digits *)

Lemma hexNibble_digit z : 0 <= z < 16 -> hexNibble (hex_digit z) = Z.to_nat z /\ hex_lower (hex_digit z) = true.
Proof.
  intros Hz. unfold hex_digit, hexNibble, hex_lower, wrapu. assert (Hb : forall y, 0 <= y < 256 -> b2z (z2b y) = y) by (intros; by rewrite b2z_z2b, Z.mod_small). destruct (Z.ltb_spec z 10); rewrite !Hb by lia.
  - replace (48 + z <=? 57) with true by lia. split; [rewrite Z.mod_small by lia; f_equal; lia|]. replace (48 <=? 48 + z) with true by lia. done.
  - replace (87 + z <=? 57) with false by lia. split; [rewrite Z.mod_small by lia; f_equal; lia|]. replace (97 <=? 87 + z) with true by lia. replace (87 + z <=? 102) with true by lia. by rewrite orb_true_r.
Qed.

Lemma hex_lower_digit c : hex_lower c = true -> c = hex_digit (Z.of_nat (hexNibble c)) /\ (hexNibble c < 16)%nat.
Proof.
  unfold hex_lower, hexNibble, hex_digit, wrapu. intros H. destruct (Z.leb_spec (b2z c) 57) as [H1|H1].
  - assert (48 <= b2z c) by (destruct (Z.leb_spec 48 (b2z c)), (Z.leb_spec 97 (b2z c)); cbn in H; (done || lia)). rewrite Z.mod_small by lia. rewrite Z2Nat.id by lia. replace (b2z c - 48 <? 10) with true by lia. split; [|lia]. replace (48 + (b2z c - 48)) with (b2z c) by lia. by rewrite z2b_b2z.
  - assert (97 <= b2z c <= 102) by (rewrite andb_false_r in H; cbn in H; apply andb_true_iff in H as [? ?]; lia). rewrite Z.mod_small by lia. rewrite Z2Nat.id by lia. replace (b2z c - 97 + 10 <? 10) with false by lia. split; [|lia]. replace (87 + (b2z c - 97 + 10)) with (b2z c) by lia. by rewrite z2b_b2z.
Qed.

Lemma valid_prefix p : ValidTreePrefix p = true <-> (length p <= trieDepth)%nat /\ Forall (fun c => hex_lower c = true) p.
Proof. unfold ValidTreePrefix. rewrite andb_true_iff, Nat.leb_le, forallb_forall, Forall_forall. by setoid_rewrite list_elem_of_In. Qed.

Lemma EncodeToString_nibbles k : EncodeToString k = map (fun i => hex_digit (Z.of_nat (nibbleAt k i))) (seq 0 (2 * length k)).
Proof.
  induction k as [|x k IH]; [done|]. cbn [EncodeToString length]. replace (2 * S (length k))%nat with (S (S (2 * length k))) by lia. cbn [seq map]. pose proof (b2z_range x). rewrite !nibble_byte. change (0 / 2)%nat with 0%nat. change (1 / 2)%nat with 0%nat. cbn [nth Nat.even].
  rewrite !Z2Nat.id by zdm. do 2 f_equal. rewrite IH, <- !seq_shift, !map_map. apply map_ext. intros i. do 2 f_equal. rewrite !nibble_byte. replace (S (S i) / 2)%nat with (S (i / 2)) by (replace (S (S i)) with (i + 1 * 2)%nat by lia; rewrite Nat.div_add by lia; lia). cbn [nth]. by cbn [Nat.even].
Qed.

(** An identifier's digits start with a prefix when its nibbles are those of the prefix. *)
Lemma has_prefix_passes k p : length k = 16%nat -> ValidTreePrefix p = true -> has_prefix (EncodeToString k) p = passes 0 (nibs p) k.
Proof.
  intros Hk [Hlen Hp]%valid_prefix. apply eq_true_iff_eq. unfold has_prefix. rewrite bool_decide_eq_true, passes_spec, EncodeToString_nibbles, Hk. change (2 * 16)%nat with trieDepth. rewrite Forall_lookup in Hp. split.
  - intros E i x Hi. unfold nibs in Hi. apply list_lookup_fmap_Some in Hi as (c & -> & Hi). rewrite <- E in Hi at 1. rewrite lookup_take_lt in Hi by (by eapply lookup_lt_Some; rewrite <- E; eauto).
    apply list_lookup_fmap_Some in Hi as (j & -> & Hj). apply lookup_seq in Hj as [-> _]. cbn [Nat.add]. pose proof (nibbleAt_bound k i). destruct (hexNibble_digit (Z.of_nat (nibbleAt k i)) ltac:(lia)) as [-> _]. lia.
  - intros H. apply list_eq_same_length with (length p); [done|rewrite length_take, length_map, length_seq; lia|]. intros i x y Hi Hx Hy. rewrite lookup_take_lt in Hx by done. apply list_lookup_fmap_Some in Hx as (j & -> & Hj). apply lookup_seq in Hj as [-> _]. cbn [Nat.add].
    specialize (H i (hexNibble y)). cbn [Nat.add] in H. rewrite H by (unfold nibs; by rewrite list_lookup_fmap, Hy). symmetry. by apply hex_lower_digit, (Hp i).
Qed.

(** ** Nodes *)

#[local] Opaque trieDepth uuidKey keyUUID.

Lemma nibs_length p : length (nibs p) = length p.
Proof. apply length_map. Qed.
Lemma nibs_bound p : ValidTreePrefix p = true -> Forall (fun x => (x < 16)%nat) (nibs p).
Proof. intros [_ H]%valid_prefix. apply Forall_map. eapply Forall_impl; [exact H|]. intros c Hc. by apply hex_lower_digit. Qed.

Definition at_position (n : nat) (pre : list nat) (es : list trieItem) (q : list nat) (t : trie) : Prop :=
  match t with
  | Leaf _ id c => es = (if passes (length pre) q id then [(id, c)] else []) /\ length id = 16%nat /\ hash_wf c
  | _ => wf (n - length q) (pre ++ q) t /\ es = walk t
  end.

Lemma down_spec q : forall n pre t, wf n pre t -> levels n pre -> (length q <= n)%nat -> Forall (fun x => (x < 16)%nat) q -> at_position n pre (sub_at (length pre) (walk t) q) q (down t q).
Proof.
  induction q as [|x q IH]; intros n pre t Hw HL Hn Hq; cbn [down sub_at].
  - unfold at_position. rewrite app_nil_r, Nat.sub_0_r. destruct t as [|h id c|h ch]; [done| |done]. inversion Hw; subst. done.
  - apply Forall_cons in Hq as [Hx Hq]. cbn [length] in Hn. destruct t as [|h id c|h ch].
    + cbn [at_position walk slot List.filter]. rewrite sub_at_nil. split; [constructor|done].
    + cbn [at_position walk]. inversion Hw; subst. split; [|done]. cbn [passes slot List.filter fst]. destruct (bool_decide_reflect (nibbleAt id (length pre) = x)) as [<-|Hne]; [|rewrite (proj2 (Nat.eqb_neq _ _) Hne); apply sub_at_nil].
      rewrite Nat.eqb_refl. cbn [andb]. rewrite sub_at_filter. cbn [List.filter fst]. by destruct (passes _ q id).
    + apply wf_children_of in Hw as (n' & -> & Hch & Hcr). cbn [walk]. unfold slot. rewrite (filter_child n' pre ch x Hch HL Hx). pose proof (IH n' (pre ++ [x]) (child ch x) (wf_child _ _ _ _ Hch Hx) (levels_snoc _ _ _ HL) ltac:(lia) Hq) as H. rewrite length_snoc in H.
      unfold at_position in *. rewrite <- app_assoc in H. cbn [app length] in *. replace (S n' - S (length q))%nat with (n' - length q)%nat by lia. destruct (down (child ch x) q) as [|h' id c|h' ch']; [done| |done].
      destruct H as (E & H1 & H2). split; [|done]. rewrite E. cbn [passes]. rewrite length_snoc in *. destruct (Nat.eqb_spec (nibbleAt id (length pre)) x) as [En|En]; cbn [andb]; [done|]. destruct (passes (S (length pre)) q id) eqn:Ep; [|done]. exfalso.
      assert (Hin : (id, c) ∈ walk (child ch x)) by (assert (H : (id, c) ∈ sub_at (S (length pre)) (walk (child ch x)) q) by (rewrite E; by left); rewrite sub_at_filter in H; by apply list_elem_of_In, filter_In in H as [H%list_elem_of_In _]).
      destruct (walk_under _ _ _ _ _ (wf_child _ _ _ _ Hch Hx) (levels_snoc _ _ _ HL) Hin) as ([_ Hx']%under_snoc & _). done.
Qed.

(** Sixteen hashes of the subtrees below a position. *)
Definition child_hashes (d : nat) (es : list trieItem) : list Hash := if (d <? trieDepth)%nat then map mkHash (slots_of (trieDepth - d - 1) d es) else no_hashes.

Definition node_of (m : gmap UUID Hash) (lim : Z) (p : bytes) : TreeNode :=
  let es := sub_at 0 (items_of m) (nibs p) in
  let d := length p in
  mkNode p (mkHash (merkle (trieDepth - d) d es)) (child_hashes d es) (if bool_decide (es = []) then None else if zlen es <=? lim then Some (map_of es) else None).

Lemma child_hashes_nil d : child_hashes d [] = no_hashes.
Proof.
  unfold child_hashes. destruct (_ <? _)%nat; [|done]. unfold slots_of. rewrite map_map. transitivity (map (fun _ : nat => zeroHash) (seq 0 16)); [|done]. apply map_ext. intros i. cbn [slot List.filter]. by rewrite merkle_nil.
Qed.

Lemma child_hashes_leaf d id c : child_hashes d [(id, c)] = if (d <? trieDepth)%nat then <[nibbleAt id d := mkHash (foldLeaf id c (d + 1))]> no_hashes else no_hashes.
Proof.
  unfold child_hashes. destruct (Nat.ltb_spec d trieDepth) as [Hd|]; [|done]. assert (E : slots_of (trieDepth - d - 1) d [(id, c)] = only (nibbleAt id d) (foldLeaf id c (S d))).
  { rewrite only_slots by apply nibbleAt_bound. apply map_ext. intros i. cbn [slot List.filter fst]. case_bool_decide; [|apply merkle_nil]. rewrite (foldLeaf_merkle id c (S d)) by lia. f_equal. lia. }
  rewrite E. unfold only, no_hashes. rewrite Nat.add_1_r. by rewrite list_fmap_insert, fmap_replicate.
Qed.

(** Counting up to a limit while filling a map. *)
Lemma fill_limit lim (l : list trieItem) : forall m : gmap UUID Hash, NoDup l.*1 -> (forall e, e ∈ l -> length e.1 = 16%nat /\ m !! keyUUID e.1 = None) -> Z.of_nat (base.size m) <= lim ->
  let '(es, small) := fold_until (fun es (e : trieItem) => let es := <[keyUUID e.1 := e.2]> es in (es, Z.of_nat (base.size es) <=? lim)) m l in
  small = (Z.of_nat (base.size m) + zlen l <=? lim) /\ (small = true -> es = foldl (fun m e => <[keyUUID e.1 := e.2]> m) m l).
Proof.
  induction l as [|[k c] l IH]; intros m Hn Hl Hm; cbn [fold_until foldl]; [rewrite zlen_nil; split; [lia|done]|]. cbn in Hn. apply NoDup_cons in Hn as [Hni Hn]. destruct (Hl (k, c) ltac:(by left)) as [Hk Hf]. cbn [fst snd] in *.
  rewrite zlen_cons. destruct (Z.leb_spec (Z.of_nat (base.size (<[keyUUID k := c]> m))) lim) as [Hs|Hs]; rewrite map_size_insert_None in Hs by done; [|split; [|done]; pose proof (zlen_nonneg l); lia].
  assert (Hl' : forall e, e ∈ l -> length e.1 = 16%nat /\ <[keyUUID k := c]> m !! keyUUID e.1 = None).
  { intros [k' c'] Hin. destruct (Hl (k', c') ltac:(by right)) as [Hk' Hf']. cbn [fst] in *. split; [done|]. rewrite lookup_insert_ne; [done|]. intros E. apply Hni, list_elem_of_fmap. exists (k', c'). split; [|done]. cbn [fst]. rewrite <- (uuidKey_keyUUID k Hk), <- (uuidKey_keyUUID k' Hk'). by rewrite E. }
  specialize (IH (<[keyUUID k := c]> m) Hn Hl'). rewrite map_size_insert_None in IH by done. specialize (IH ltac:(lia)). destruct (fold_until _ _ l) as [es small]. destruct IH as [-> H]. split; [f_equal; lia|done].
Qed.

Lemma items_nodup_sub m q d : map_wf m -> NoDup (sub_at d (items_of m) q).*1 /\ Forall item_wf (sub_at d (items_of m) q).
Proof.
  intros Hm. pose proof (items_wf m Hm) as Hw. pose proof (batch_NoDup [] _ (items_batch m Hm)) as Hn. revert d Hw Hn. generalize (items_of m) as es. induction q as [|x q IH]; intros es d Hw Hn; [done|]. cbn [sub_at].
  apply IH; [|by apply slot_NoDup]. rewrite Forall_forall in *. intros e [He _]%elem_of_slot. by apply Hw.
Qed.

Lemma NodeAt_spec t m p lim : represents t m -> ValidTreePrefix p = true -> 1 <= lim -> NodeAt t p lim = Ok (node_of m lim p).
Proof.
  intros Ht Hp Hlim. pose proof (trieRootOrBuild_holds t m Ht) as H. pose proof H as (W & Hm & _). unfold NodeAt. rewrite Hp. cbn [negb]. f_equal. rewrite descend_down. pose proof Hp as [Hlen _]%valid_prefix.
  pose proof (down_spec (nibs p) trieDepth [] (trieRootOrBuild t) W eq_refl ltac:(unfold nibs; by rewrite length_map) (nibs_bound p Hp)) as Hd. rewrite (walk_items _ m H) in Hd. cbn [length app] in Hd. unfold node_of. set (es := sub_at 0 (items_of m) (nibs p)) in *.
  unfold at_position in Hd. rewrite (nibs_length p) in Hd. destruct (down (trieRootOrBuild t) (nibs p)) as [|h id c|h ch].
  - destruct Hd as [_ ->]. cbn [walk]. by rewrite merkle_nil, child_hashes_nil.
  - destruct Hd as (-> & Hid & Hc). rewrite (has_prefix_passes id p Hid Hp). cbn [length] in *. destruct (passes 0 (nibs p) id); cbn [negb]; [|by rewrite merkle_nil, child_hashes_nil].
    rewrite child_hashes_leaf, foldLeaf_merkle by done. replace (1 <=? lim) with true by lia. rewrite bool_decide_false by done. change (zlen [(id, c)]) with 1. by replace (1 <=? lim) with true by lia.
  - cbn [app] in Hd. destruct Hd as [Wn Es]. pose proof (items_nodup_sub m (nibs p) 0 Hm) as [Hnd Hwf]. fold es in Hnd, Hwf. assert (HL : levels (trieDepth - length p) (nibs p)) by (unfold levels, nibs; rewrite length_map; lia).
    assert (Hne : es <> []) by (unfold es in *; rewrite Es; by apply (walk_nonempty _ _ _ Wn HL)).
    pose proof (hash_merkle _ _ _ Wn HL) as Eh. cbn [hash_of] in Eh. rewrite <- Es in Eh. rewrite (nibs_length p) in Eh. rewrite Eh. rewrite bool_decide_false by done. replace (0 <? lim) with true by lia. f_equal.
    + apply wf_children_of in Wn as (n' & En & Hch & _). unfold child_hashes. replace (length p <? trieDepth)%nat with true by (symmetry; apply Nat.ltb_lt; lia). replace (trieDepth - length p - 1)%nat with n' by lia. unfold slots_of. rewrite map_map.
      pose proof Hch as [Hl Hc]. apply list_eq_same_length with 16%nat; [by rewrite length_map, length_seq|by rewrite length_map|]. intros i x y Hi Hx Hy. apply list_lookup_fmap_Some in Hx as (t' & -> & Ht'), Hy as (j & -> & Hj). apply lookup_seq in Hj as [-> _]. cbn [Nat.add]. f_equal.
      rewrite (hash_merkle _ _ _ (Hc i t' Ht') (levels_snoc n' (nibs p) i ltac:(by rewrite <- En))), length_snoc, (nibs_length p). f_equal. fold es. rewrite Es. cbn [walk]. unfold slot. rewrite <- (nibs_length p).
      rewrite (filter_child n' (nibs p) ch i Hch) by (by rewrite <- En || done). rewrite (child_lookup ch i) in Ht' by done. by injection Ht' as ->.
    + rewrite walkUntil_items. cbn [walk] in Es |- *. rewrite <- Es. pose proof (fill_limit lim es ∅ Hnd) as Hf. rewrite map_size_empty in Hf. rewrite Forall_forall in Hwf. specialize (Hf ltac:(intros e He; split; [by apply Hwf|apply lookup_empty]) ltac:(lia)).
      match goal with |- context [fold_until ?f ∅ es] => match type of Hf with context [fold_until ?g ∅ es] => change (fold_until f ∅ es) with (fold_until g ∅ es) end end.
      destruct (fold_until _ _ es) as [es' small]. destruct Hf as [-> Hf]. change (Z.of_nat 0) with 0 in *. rewrite Z.add_0_l in *. destruct (zlen es <=? lim) eqn:El; [|done]. f_equal. by apply Hf.
Qed.

End TreeNodes.
