(* ===== verification/TreeDiff.v ===== *)
(** Comparing two trees by their Merkle views finds exactly the documents they hold
    differently, and ends after at most 33 batches whatever the two sources answer. *)

From S2P Require Import Prelude Primitives Schema KdbCodec Document Sha256 Commit KeyEnc KeyOrder TrieHash Trie TrieCorrect TrieWalk TrieBulk DocumentTree TreeMap TreePacked TreeProof TreeNodes.
Import Primitives TrieHash Trie TrieCorrect TrieWalk TrieBulk DocumentTree TreeMap TreePacked TreeProof TreeNodes.

Module TreeDiff.

#[local] Opaque trieDepth uuidKey keyUUID.

(** ** Termination *)

Lemma diff_level_next {E} d frontier : forall ln rn out next out' next', Forall (fun p : bytes => length p = d) frontier -> Forall (fun p : bytes => length p = S d /\ d <> trieDepth) next ->
  @diff_level E frontier ln rn out next = Ok (out', next') -> Forall (fun p : bytes => length p = S d /\ d <> trieDepth) next'.
Proof.
  induction frontier as [|p frontier IH]; intros ln rn out next out' next' Hf Hn; [by intros [= <- <-]|]. apply Forall_cons in Hf as [Hp Hf]. destruct ln as [|l ln]; [by intros [= <- <-]|]. destruct rn as [|r rn]; [by intros [= <- <-]|]. cbn [diff_level].
  case_bool_decide; [by apply IH|]. destruct (_ && _); [by apply IH|]. destruct (Nat.eqb_spec (length p) trieDepth) as [|Hne]; [done|]. apply IH; [done|]. apply Forall_app. split; [done|].
  apply Forall_map, Forall_forall. intros nib _. rewrite length_app. cbn. split; [lia|congruence].
Qed.

Lemma diff_rounds_ends {E} n local remote : forall d frontier out, (d + n = S trieDepth)%nat -> Forall (fun p : bytes => length p = d) frontier -> (n = 0%nat -> frontier = []) -> @diff_rounds E n local remote frontier out <> None.
Proof.
  induction n as [|n IH]; intros d frontier out Hd Hf H0; [by rewrite (H0 eq_refl)|]. destruct frontier as [|p frontier]; [done|]. cbn [diff_rounds]. set (F := p :: frontier) in *.
  destruct (from_source (local F)) as [ln| |]; [|done..]. cbn [mbind go_bind]. destruct (from_source (remote F)) as [rn| |]; [|done..]. cbn [mbind go_bind]. destruct (_ || _); [done|]. destruct (diff_level F ln rn out []) as [[out' next]| |] eqn:El; [|done..].
  pose proof (diff_level_next d F ln rn out [] out' next Hf ltac:(constructor) El) as Hn. apply (IH (S d)); [lia|by eapply Forall_impl; [exact Hn|]; intros q [? _]|]. intros ->. destruct next as [|q next]; [done|]. apply Forall_cons in Hn as [[_ Hq] _]. lia.
Qed.

Lemma DiffTrees_ends {E} (local remote : NodeSource E) : DiffTrees local remote <> None.
Proof.
  unfold DiffTrees. pose proof (diff_rounds_ends (S trieDepth) local remote 0 [[]] [] eq_refl ltac:(by repeat constructor) ltac:(done)) as H. destruct (diff_rounds _ _ _ _ _) as [[]|]; done.
Qed.

(** ** Where hashes may clash *)

(** What two trees open, everywhere one of them has entries. *)
Fixpoint tree_pairs (n d : nat) (es es' : list trieItem) : list (option bytes * option bytes) :=
  [(opened n d es, opened n d es'); (opened n d es, None); (opened n d es', None)] ++
  match es, es', n with
  | [], [], _ | _, _, O => []
  | _, _, S n => concat (map (fun i => tree_pairs n (S d) (slot es d i) (slot es' d i)) (seq 0 16))
  end.

Lemma clash_refl x : ~ clash (x, x).
Proof. by intros [? _]. Qed.
Lemma no_clash_nil n d : ~ Exists clash (tree_pairs n d [] []).
Proof. destruct n; intros H; (apply Exists_cons in H as [H|H]; [by apply clash_refl in H|]; apply Exists_cons in H as [H|H]; [by apply clash_refl in H|]; apply Exists_cons in H as [H|H]; [by apply clash_refl in H|by apply Exists_nil in H]). Qed.

Lemma clash_down n d es es' i : (i < 16)%nat -> Exists clash (tree_pairs n (S d) (slot es d i) (slot es' d i)) -> Exists clash (tree_pairs (S n) d es es').
Proof.
  intros Hi H. destruct (decide (es = [] /\ es' = [])) as [[-> ->]|Hne]; [by apply no_clash_nil in H|].
  assert (E : tree_pairs (S n) d es es' = [(opened (S n) d es, opened (S n) d es'); (opened (S n) d es, None); (opened (S n) d es', None)] ++ concat (map (fun i => tree_pairs n (S d) (slot es d i) (slot es' d i)) (seq 0 16))) by (destruct es, es'; [naive_solver|done..]).
  rewrite E. apply Exists_app. right. rewrite Exists_exists in H |- *. destruct H as (x & Hx & Hc). exists x. split; [|done]. apply elem_of_concat_map. exists i. split; [|done]. apply elem_of_seq. lia.
Qed.

Lemma clash_path n : forall d k es es', Exists clash (path_pairs n d k es es') -> Exists clash (tree_pairs n d es es').
Proof.
  induction n as [|n IH]; intros d k es es' H; cbn [path_pairs] in H; apply Exists_cons in H as [H|H]; [by left|by apply Exists_nil in H|by left|]. apply (clash_down n d es es' (nibbleAt k d)); [apply nibbleAt_bound|by eapply IH].
Qed.

Lemma sub_at_snoc d es q x : sub_at d es (q ++ [x]) = slot (sub_at d es q) (d + length q) x.
Proof. revert d es. induction q as [|y q IH]; intros d es; cbn [app sub_at length]; [by rewrite Nat.add_0_r|]. rewrite IH. f_equal. lia. Qed.

Lemma clash_sub q : forall n d es es', (length q <= n)%nat -> Forall (fun x => (x < 16)%nat) q -> Exists clash (tree_pairs (n - length q) (d + length q) (sub_at d es q) (sub_at d es' q)) -> Exists clash (tree_pairs n d es es').
Proof.
  induction q as [|x q IH]; intros n d es es' Hn Hq H; cbn [sub_at length] in *; [by rewrite Nat.sub_0_r, Nat.add_0_r in H|]. apply Forall_cons in Hq as [Hx Hq]. destruct n as [|n]; [lia|]. apply (clash_down n d es es' x Hx), IH; [lia|done|]. cbn in H. by replace (S d + length q)%nat with (d + S (length q))%nat by lia.
Qed.

(** ** Differences *)

(** What two maps hold differently. *)
Definition differs (m1 m2 : gmap UUID Hash) (x : TreeDifference) : Prop :=
  m1 !! DiffID x <> m2 !! DiffID x /\ Local x = default zeroHash (m1 !! DiffID x) /\ Remote x = default zeroHash (m2 !! DiffID x).

Definition nonzero (m : gmap UUID Hash) : Prop := map_Forall (fun _ h => h <> zeroHash) m.

Lemma diffEntries_spec l r x : nonzero l -> x ∈ diffEntries l r <-> differs l r x.
Proof.
  intros Hl. unfold diffEntries, differs. destruct x as [id a b]. cbn [DiffID Local Remote]. rewrite elem_of_app, !elem_of_concat_map. split.
  - intros [([id' h] & Hin%elem_of_map_to_list & Hx)|([id' h] & Hin%elem_of_map_to_list & Hx)]; cbn [fst snd] in Hx.
    + case_bool_decide as E; [by apply not_elem_of_nil in Hx|]. apply list_elem_of_singleton in Hx as [= -> -> ->]. rewrite Hin. split_and!; [|done..]. intros E'. rewrite <- E' in E. by cbn in E.
    + destruct (l !! id') eqn:El; [by apply not_elem_of_nil in Hx|]. apply list_elem_of_singleton in Hx as [= -> -> ->]. by rewrite El, Hin.
  - intros (Hne & -> & ->). destruct (l !! id) as [h|] eqn:El.
    + left. exists (id, h). split; [by apply elem_of_map_to_list|]. cbn [fst snd]. rewrite bool_decide_false; [by left|]. intros E. destruct (r !! id) as [h'|] eqn:Er; cbn in E; [by subst|]. by apply (Hl id h El).
    + right. destruct (r !! id) as [h|] eqn:Er; [|done]. exists (id, h). split; [by apply elem_of_map_to_list|]. cbn [fst snd]. rewrite El. by left.
Qed.

Lemma NoDup_concat_map {A B} (f : A -> list B) l : NoDup l -> (forall a, a ∈ l -> NoDup (f a)) -> (forall a a' b, a ∈ l -> a' ∈ l -> b ∈ f a -> b ∈ f a' -> a = a') -> NoDup (concat (map f l)).
Proof.
  induction 1 as [|a l Hni Hn IH]; intros Hf Hd; [constructor|]. cbn. apply NoDup_app. split_and!; [apply Hf; by left| |apply IH; [intros; apply Hf; by right|intros ? ? ? ? ?; apply Hd; by right]].
  intros b Hb (a' & Ha' & Hb')%elem_of_concat_map. apply Hni. by rewrite (Hd a a' b ltac:(by left) ltac:(by right) Hb Hb').
Qed.

Lemma diffEntries_NoDup l r : NoDup (map DiffID (diffEntries l r)).
Proof.
  unfold diffEntries. rewrite map_app, !concat_map, !map_map. apply NoDup_app. split_and!.
  - apply NoDup_concat_map; [apply NoDup_map_to_list|intros [id h] _; cbn [fst snd]; case_bool_decide; cbn; repeat constructor; by apply not_elem_of_nil|].
    intros [id h] [id' h'] b H1%elem_of_map_to_list H2%elem_of_map_to_list Hb Hb'. cbn [fst snd] in *. repeat case_bool_decide; cbn in Hb, Hb'; try by apply not_elem_of_nil in Hb || apply not_elem_of_nil in Hb'. apply list_elem_of_singleton in Hb, Hb'. subst. congruence.
  - intros b Hb Hb'. apply elem_of_concat_map in Hb as ([id h] & H1%elem_of_map_to_list & Hb), Hb' as ([id' h'] & H2%elem_of_map_to_list & Hb'). cbn [fst snd] in *. case_bool_decide; [by apply not_elem_of_nil in Hb|]. cbn in Hb. apply list_elem_of_singleton in Hb as ->.
    destruct (l !! id') eqn:E; [by apply not_elem_of_nil in Hb'|]. cbn in Hb'. apply list_elem_of_singleton in Hb'. congruence.
  - apply NoDup_concat_map; [apply NoDup_map_to_list|intros [id h] _; cbn [fst snd]; destruct (l !! id); cbn; repeat constructor; by apply not_elem_of_nil|].
    intros [id h] [id' h'] b H1%elem_of_map_to_list H2%elem_of_map_to_list Hb Hb'. cbn [fst snd] in *. destruct (l !! id), (l !! id'); cbn in Hb, Hb'; try by apply not_elem_of_nil in Hb || apply not_elem_of_nil in Hb'. apply list_elem_of_singleton in Hb, Hb'. subst. congruence.
Qed.

(** ** One position *)

Definition at_prefix (m : gmap UUID Hash) (p : bytes) : list trieItem := sub_at 0 (items_of m) (nibs p).
Definition below_prefix (p : bytes) (id : UUID) : Prop := passes 0 (nibs p) (uuidKey id) = true.

Lemma at_prefix_elem m p k c : map_wf m -> (k, c) ∈ at_prefix m p <-> length k = 16%nat /\ m !! keyUUID k = Some c /\ passes 0 (nibs p) k = true.
Proof. intros Hm. unfold at_prefix. rewrite sub_at_filter, list_elem_of_In, filter_In, <- list_elem_of_In, items_elem by done. cbn [fst]. tauto. Qed.

Lemma at_prefix_below m p k : map_wf m -> passes 0 (nibs p) k = true -> below (length p) k (at_prefix m p).
Proof.
  intros Hm Hk. destruct (items_nodup_sub m (nibs p) 0 Hm) as [Hn Hw]. split; [exact Hn|]. fold (at_prefix m p) in Hw. rewrite Forall_forall in Hw. intros [k' c] He. split; [by apply Hw|]. apply at_prefix_elem in He as (_ & _ & Hk'); [|done]. intros i Hi.
  rewrite passes_spec in Hk, Hk'. destruct (lookup_lt_is_Some_2 (nibs p) i ltac:(by rewrite nibs_length)) as [x Hx]. transitivity x; [exact (Hk' i x Hx)|symmetry; exact (Hk i x Hx)].
Qed.

(** The entries below a position, as a map. *)
Lemma listed_lookup m p id c : map_wf m -> map_of (at_prefix m p) !! id = Some c <-> m !! id = Some c /\ below_prefix p id.
Proof.
  intros Hm. destruct (items_nodup_sub m (nibs p) 0 Hm) as [Hn Hw]. fold (at_prefix m p) in Hn, Hw. rewrite Forall_forall in Hw. unfold map_of. rewrite foldl_insert_elem, lookup_empty by (done || intros e He; by apply Hw). unfold below_prefix. split.
  - intros [(k & (Hk & Hl & Hp)%at_prefix_elem & ->)|[_ [=]]]; [|done]. by rewrite uuidKey_keyUUID.
  - intros [Hl Hp]. left. exists (uuidKey id). destruct (Hm _ _ Hl) as [Hid _]. rewrite at_prefix_elem by done. by rewrite keyUUID_uuidKey, uuidKey_length.
Qed.

(** ** One batch *)

Section Batch.
Context (m1 m2 : gmap UUID Hash) (lim1 lim2 : Z).
Context (Hm1 : map_wf m1) (Hm2 : map_wf m2) (Hz1 : nonzero m1) (Hl1 : 1 <= lim1) (Hl2 : 1 <= lim2).
Context (Hno : ~ Exists clash (tree_pairs trieDepth 0 (items_of m1) (items_of m2))).

Lemma no_clash_at p : ValidTreePrefix p = true -> ~ Exists clash (tree_pairs (trieDepth - length p) (length p) (at_prefix m1 p) (at_prefix m2 p)).
Proof.
  intros Hp H. pose proof Hp as [Hlen _]%valid_prefix. apply Hno, (clash_sub (nibs p)); [by rewrite nibs_length|by apply nibs_bound|]. by rewrite nibs_length.
Qed.

Lemma same_hash p : ValidTreePrefix p = true -> merkle (trieDepth - length p) (length p) (at_prefix m1 p) = merkle (trieDepth - length p) (length p) (at_prefix m2 p) ->
  forall id, below_prefix p id -> uuid_wf id -> m1 !! id = m2 !! id.
Proof.
  intros Hp E id Hid Hw. pose proof Hp as [Hlen _]%valid_prefix. destruct (path_sound (trieDepth - length p) (length p) (uuidKey id) (at_prefix m1 p) (at_prefix m2 p) ltac:(lia) (uuidKey_length id) (at_prefix_below m1 p _ Hm1 Hid) (at_prefix_below m2 p _ Hm2 Hid) E) as [H|H].
  - apply option_eq. intros c. specialize (H c). rewrite !at_prefix_elem, keyUUID_uuidKey in H by done. unfold below_prefix in Hid. pose proof (uuidKey_length id). tauto.
  - destruct (no_clash_at p Hp). by eapply clash_path.
Qed.

(** A position with the hash of no entries has none. *)
Lemma zero_hash p : ValidTreePrefix p = true -> (merkle (trieDepth - length p) (length p) (at_prefix m1 p) = trieZero -> at_prefix m1 p = []) /\ (merkle (trieDepth - length p) (length p) (at_prefix m2 p) = trieZero -> at_prefix m2 p = []).
Proof.
  intros Hp. pose proof (no_clash_at p Hp) as Hn. set (n := (trieDepth - length p)%nat) in *. set (es := at_prefix m1 p) in *. set (es' := at_prefix m2 p) in *.
  assert (Hc : forall x, x = (opened n (length p) es, None) \/ x = (opened n (length p) es', None) -> ~ clash x) by (intros x Hx Hc; apply Hn; destruct n; cbn [tree_pairs app]; destruct Hx as [-> | ->]; [right; by left|right; right; by left|right; by left|right; right; by left]).
  rewrite !merkle_image. split; intros E; [specialize (Hc _ (or_introl eq_refl)); destruct es as [|[] ?]|specialize (Hc _ (or_intror eq_refl)); destruct es' as [|[] ?]]; try done; by destruct Hc.
Qed.

(** What a batch finds at one prefix, and where it goes on. *)
Definition resolved (p : bytes) : bool :=
  let l := node_of m1 lim1 p in let r := node_of m2 lim2 p in
  (bool_decide (Listed l <> None) || bool_decide (NodeHash l = zeroHash)) && (bool_decide (Listed r <> None) || bool_decide (NodeHash r = zeroHash)).
Definition found (p : bytes) : list TreeDifference :=
  let l := node_of m1 lim1 p in let r := node_of m2 lim2 p in
  if bool_decide (NodeHash l = NodeHash r) then [] else if resolved p then diffEntries (default ∅ (Listed l)) (default ∅ (Listed r)) else [].
Definition deeper (p : bytes) : list bytes :=
  let l := node_of m1 lim1 p in let r := node_of m2 lim2 p in
  if bool_decide (NodeHash l = NodeHash r) then [] else if resolved p then [] else
  map (fun nib => p ++ [hex_char nib]) (List.filter (fun nib => bool_decide (nth nib (Children l) zeroHash <> nth nib (Children r) zeroHash)) (seq 0 16)).

(** At full length every position is listed or empty. *)
Lemma bottom_listed m lim p : map_wf m -> 1 <= lim -> length p = trieDepth -> Listed (node_of m lim p) <> None \/ at_prefix m p = [].
Proof.
  intros Hm Hlim Hp. cbn [node_of Listed]. fold (at_prefix m p). destruct (at_prefix m p) as [|[k c] es] eqn:E; [by right|left]. rewrite bool_decide_false by done.
  assert (Hin : (k, c) ∈ at_prefix m p) by (rewrite E; by left). apply at_prefix_elem in Hin as (Hk & _ & Hpass); [|done]. pose proof (at_prefix_below m p k Hm Hpass) as Hb. rewrite Hp in Hb. destruct (below_bottom k _ Hk Hb) as [E'|[c' E']]; rewrite E' in E; [done|]. injection E as -> <-.
  change (zlen [(k, c)]) with 1. by replace (1 <=? lim) with true by lia.
Qed.

Lemma bottom_resolved p : length p = trieDepth -> resolved p = true.
Proof.
  intros Hp. unfold resolved. apply andb_true_iff. split; apply orb_true_iff.
  - destruct (bottom_listed m1 lim1 p Hm1 Hl1 Hp) as [H|H]; [left; by apply bool_decide_eq_true|right]. apply bool_decide_eq_true. cbn [node_of NodeHash]. fold (at_prefix m1 p). by rewrite H, merkle_nil.
  - destruct (bottom_listed m2 lim2 p Hm2 Hl2 Hp) as [H|H]; [left; by apply bool_decide_eq_true|right]. apply bool_decide_eq_true. cbn [node_of NodeHash]. fold (at_prefix m2 p). by rewrite H, merkle_nil.
Qed.

Lemma diff_level_spec {E} frontier : forall out next,
  @diff_level E frontier (map (node_of m1 lim1) frontier) (map (node_of m2 lim2) frontier) out next = Ok (out ++ concat (map found frontier), next ++ concat (map deeper frontier)).
Proof.
  induction frontier as [|p frontier IH]; intros out next; [cbn; by rewrite !app_nil_r|]. cbn [map diff_level concat]. fold (resolved p). unfold found at 1, deeper at 1. case_bool_decide; [by rewrite IH|]. destruct (resolved p) eqn:Er; [by rewrite IH, <- app_assoc|].
  destruct (Nat.eqb_spec (length p) trieDepth) as [Hp|]; [by rewrite (bottom_resolved p Hp) in Er|]. by rewrite IH, <- app_assoc.
Qed.

Lemma listed_value m q id : map_wf m -> map_of (at_prefix m q) !! id = if passes 0 (nibs q) (uuidKey id) then m !! id else None.
Proof.
  intros Hm. apply option_eq. intros c. rewrite listed_lookup by done. unfold below_prefix. destruct (passes _ _ _); naive_solver.
Qed.

Lemma listed_map m lim q : (Listed (node_of m lim q) <> None \/ at_prefix m q = []) -> default ∅ (Listed (node_of m lim q)) = map_of (at_prefix m q).
Proof.
  cbn [node_of Listed]. fold (at_prefix m q). case_bool_decide as E; [by rewrite E|]. destruct (_ <=? _); [done|]. by intros [[]|].
Qed.

Lemma resolved_maps q : ValidTreePrefix q = true -> resolved q = true -> default ∅ (Listed (node_of m1 lim1 q)) = map_of (at_prefix m1 q) /\ default ∅ (Listed (node_of m2 lim2 q)) = map_of (at_prefix m2 q).
Proof.
  intros Hq [H1 H2]%andb_true_iff. destruct (zero_hash q Hq) as [Z1 Z2]. apply orb_true_iff in H1, H2. rewrite !bool_decide_eq_true in H1, H2. split; apply listed_map; [destruct H1 as [|H]|destruct H2 as [|H]]; [by left|right|by left|right]; injection H as H; auto.
Qed.

Lemma found_sound q x : ValidTreePrefix q = true -> x ∈ found q -> differs m1 m2 x /\ below_prefix q (DiffID x).
Proof.
  intros Hq. unfold found. case_bool_decide; [by intros ?%not_elem_of_nil|]. destruct (resolved q) eqn:Er; [|by intros ?%not_elem_of_nil]. destruct (resolved_maps q Hq Er) as [-> ->].
  rewrite diffEntries_spec by (intros id h Hl; apply listed_lookup in Hl as [Hl _]; [by apply (Hz1 id)|done]). unfold differs, below_prefix. rewrite !listed_value by done. destruct (passes _ _ _); [tauto|by intros [? _]].
Qed.

Lemma found_NoDup q : NoDup (map DiffID (found q)).
Proof. unfold found. case_bool_decide; [constructor|]. destruct (resolved q); [apply diffEntries_NoDup|constructor]. Qed.

Lemma passes_snoc d q x k : passes d (q ++ [x]) k = passes d q k && Nat.eqb (nibbleAt k (d + length q)) x.
Proof. revert d. induction q as [|y q IH]; intros d; cbn [app passes length]; [by rewrite Nat.add_0_r, andb_true_r|]. rewrite IH, andb_assoc. do 3 f_equal. lia. Qed.

Lemma nibs_snoc q nib : (nib < 16)%nat -> nibs (q ++ [hex_char nib]) = nibs q ++ [nib].
Proof. intros Hn. unfold nibs. rewrite map_app. cbn [map]. unfold hex_char. destruct (hexNibble_digit (Z.of_nat nib) ltac:(lia)) as [-> _]. by rewrite Nat2Z.id. Qed.

Lemma child_hash_nth m lim q nib : (length q < trieDepth)%nat -> (nib < 16)%nat -> 
  nth nib (Children (node_of m lim q)) zeroHash = mkHash (merkle (trieDepth - length (q ++ [hex_char nib])) (length (q ++ [hex_char nib])) (at_prefix m (q ++ [hex_char nib]))).
Proof.
  intros Hq Hn. cbn [node_of Children]. fold (at_prefix m q). unfold child_hashes. rewrite (proj2 (Nat.ltb_lt _ _) Hq). change zeroHash with (mkHash trieZero). rewrite map_nth, slots_of_nth by done. unfold at_prefix. rewrite nibs_snoc, sub_at_snoc, nibs_length, length_app by done. cbn [length Nat.add]. f_equal. f_equal; lia.
Qed.

Lemma deeper_elem q q' : ValidTreePrefix q = true -> q' ∈ deeper q -> exists nib, (nib < 16)%nat /\ q' = q ++ [hex_char nib] /\ (length q < trieDepth)%nat /\ ValidTreePrefix q' = true.
Proof.
  intros Hq. unfold deeper. case_bool_decide; [by intros ?%not_elem_of_nil|]. destruct (resolved q) eqn:Er; [by intros ?%not_elem_of_nil|]. intros (nib & -> & Hin)%list_elem_of_fmap. apply list_elem_of_In, filter_In in Hin as [Hin _]. apply in_seq in Hin.
  pose proof Hq as [Hlen Hx]%valid_prefix. assert (Hlt : (length q < trieDepth)%nat) by (destruct (decide (length q = trieDepth)) as [E|]; [by rewrite (bottom_resolved q E) in Er|lia]). exists nib. split_and!; [lia|done..|]. apply valid_prefix. rewrite length_app. cbn [length]. split; [lia|].
  apply Forall_app. split; [done|]. constructor; [|constructor]. by apply hexNibble_digit; lia.
Qed.

Lemma cover q id : ValidTreePrefix q = true -> uuid_wf id -> m1 !! id <> m2 !! id -> below_prefix q id -> (exists x, x ∈ found q /\ DiffID x = id) \/ exists q', q' ∈ deeper q /\ below_prefix q' id.
Proof.
  intros Hq Hid Hne Hb. unfold found, deeper. case_bool_decide as E.
  { destruct Hne. apply (same_hash q Hq); [|done..]. by injection E. }
  destruct (resolved q) eqn:Er.
  - left. exists (mkDiff id (default zeroHash (m1 !! id)) (default zeroHash (m2 !! id))). split; [|done]. destruct (resolved_maps q Hq Er) as [-> ->].
    apply diffEntries_spec; [intros id' h Hl; apply listed_lookup in Hl as [Hl _]; [by apply (Hz1 id')|done]|]. unfold differs. cbn [DiffID Local Remote]. rewrite !listed_value by done. unfold below_prefix in Hb. by rewrite Hb.
  - right. pose proof Hq as [Hlen _]%valid_prefix. assert (Hlt : (length q < trieDepth)%nat) by (destruct (decide (length q = trieDepth)) as [E'|]; [by rewrite (bottom_resolved q E') in Er|lia]).
    set (nib := nibbleAt (uuidKey id) (length q)). pose proof (nibbleAt_bound (uuidKey id) (length q)) as Bn. fold nib in Bn. assert (Hb' : below_prefix (q ++ [hex_char nib]) id).
    { unfold below_prefix in *. rewrite nibs_snoc, passes_snoc, Hb, nibs_length by done. cbn [andb Nat.add]. apply Nat.eqb_refl. }
    exists (q ++ [hex_char nib]). split; [|done]. apply list_elem_of_fmap. exists nib. split; [done|]. apply list_elem_of_In, filter_In. split; [apply in_seq; lia|]. apply bool_decide_eq_true. rewrite !child_hash_nth by done. intros E'. destruct Hne. apply (same_hash (q ++ [hex_char nib])); [|by injection E'|done..].
    apply valid_prefix. rewrite length_app. cbn [length]. split; [lia|]. apply Forall_app. split; [by apply valid_prefix|]. constructor; [|constructor]. apply hexNibble_digit. lia.
Qed.

(** Prefixes of one length that an identifier has are the same. *)
Lemma prefix_unique q q' id : ValidTreePrefix q = true -> ValidTreePrefix q' = true -> length q = length q' -> below_prefix q id -> below_prefix q' id -> q = q'.
Proof.
  intros [_ Hq]%valid_prefix [_ Hq']%valid_prefix Hl Hb Hb'. unfold below_prefix in *. rewrite passes_spec in Hb, Hb'. apply list_eq_same_length with (length q'); [done..|]. intros i x y _ Hx Hy. rewrite Forall_lookup in Hq, Hq'.
  destruct (hex_lower_digit x (Hq i x Hx)) as [-> _]. destruct (hex_lower_digit y (Hq' i y Hy)) as [-> _]. specialize (Hb i (hexNibble x)). specialize (Hb' i (hexNibble y)). cbn [Nat.add] in *.
  rewrite <- Hb, <- Hb'; [done|unfold nibs; by rewrite list_lookup_fmap, Hy|unfold nibs; by rewrite list_lookup_fmap, Hx].
Qed.

(** Between batches: prefixes of one length are left; what was found is right, distinct, and not below them; and every difference was found or is below one. *)
Record between (d : nat) (F : list bytes) (out : list TreeDifference) : Prop := {
  left_prefixes : forall q, q ∈ F -> ValidTreePrefix q = true /\ length q = d;
  left_distinct : NoDup F;
  found_right : forall x, x ∈ out -> differs m1 m2 x;
  found_distinct : NoDup (map DiffID out);
  found_done : forall x q, x ∈ out -> q ∈ F -> ~ below_prefix q (DiffID x);
  all_covered : forall id, uuid_wf id -> m1 !! id <> m2 !! id -> (exists x, x ∈ out /\ DiffID x = id) \/ exists q, q ∈ F /\ below_prefix q id;
}.

Lemma deeper_NoDup q : ValidTreePrefix q = true -> NoDup (deeper q).
Proof.
  intros Hq. unfold deeper. case_bool_decide; [constructor|]. destruct (resolved q); [constructor|]. apply NoDup_fmap_2_strong; [|apply NoDup_ListNoDup, List.NoDup_filter, NoDup_ListNoDup, NoDup_seq].
  intros x y Hx Hy E. apply list_elem_of_In, filter_In in Hx as [Hx%in_seq _], Hy as [Hy%in_seq _]. assert (En : nibs (q ++ [hex_char x]) = nibs (q ++ [hex_char y])) by (by rewrite E). rewrite !nibs_snoc in En by lia. by apply app_inj_2 in En as [_ [= ->]].
Qed.

Lemma deeper_below q q' id : ValidTreePrefix q = true -> q' ∈ deeper q -> below_prefix q' id -> below_prefix q id.
Proof. intros Hq Hin Hb. destruct (deeper_elem q q' Hq Hin) as (nib & Hn & -> & _). unfold below_prefix in *. rewrite nibs_snoc, passes_snoc in Hb by done. by apply andb_true_iff in Hb as [? _]. Qed.

(** A part of the frontier goes on in other places than the rest. *)
Lemma deeper_apart (F : list bytes) d q q' r : (forall q, q ∈ F -> ValidTreePrefix q = true /\ length q = d) -> q ∈ F -> q' ∈ F -> r ∈ deeper q -> r ∈ deeper q' -> q = q'.
Proof.
  intros HF Hq Hq' Hr Hr'. destruct (HF q Hq) as [V L], (HF q' Hq') as [V' L']. destruct (deeper_elem q r V Hr) as (x & Hx & -> & _), (deeper_elem q' _ V' Hr') as (y & Hy & E & _). by apply app_inj_1 in E as [-> _]; [|congruence].
Qed.

Lemma between_step d F out : between d F out -> between (S d) (concat (map deeper F)) (out ++ concat (map found F)).
Proof.
  intros [HF HN HR HD HA HC]. split.
  - intros r (q & Hq & Hr)%elem_of_concat_map. destruct (HF q Hq) as [V L]. destruct (deeper_elem q r V Hr) as (nib & _ & -> & _ & V'). split; [done|]. rewrite length_app. cbn. lia.
  - apply NoDup_concat_map; [done|intros q Hq; apply deeper_NoDup, HF, Hq|]. intros q q' r Hq Hq' Hr Hr'. by apply (deeper_apart F d q q' r).
  - intros x [Hx|(q & Hq & Hx)%elem_of_concat_map]%elem_of_app; [by apply HR|]. apply (found_sound q); [apply HF, Hq|done].
  - rewrite map_app, concat_map, map_map. apply NoDup_app. split_and!; [done| |].
    + intros id (x & -> & Hx)%list_elem_of_fmap (q & Hq & (y & E & Hy)%list_elem_of_fmap)%elem_of_concat_map. apply (HA x q Hx Hq). rewrite E. by apply (found_sound q); [apply HF, Hq|].
    + apply NoDup_concat_map; [done|intros q _; apply found_NoDup|]. intros q q' id Hq Hq' (x & -> & Hx)%list_elem_of_fmap (y & E & Hy)%list_elem_of_fmap. destruct (HF q Hq) as [V L], (HF q' Hq') as [V' L']. apply (prefix_unique q q' (DiffID x)); [done..|congruence|by apply found_sound|]. rewrite E. by apply found_sound.
  - intros x r [Hx|(q & Hq & Hx)%elem_of_concat_map]%elem_of_app (q' & Hq' & Hr)%elem_of_concat_map Hb; (destruct (HF q' Hq') as [V' L']; apply (deeper_below q' r _ V' Hr) in Hb).
    + by apply (HA x q').
    + destruct (HF q Hq) as [V L]. assert (q = q') as <- by (apply (prefix_unique q q' (DiffID x)); [done..|congruence|by apply found_sound|done]). unfold found in Hx. unfold deeper in Hr. case_bool_decide; [by apply not_elem_of_nil in Hx|]. destruct (resolved q); [by apply not_elem_of_nil in Hr|by apply not_elem_of_nil in Hx].
  - intros id Hid Hne. destruct (HC id Hid Hne) as [(x & Hx & E)|(q & Hq & Hb)]; [left; exists x; split; [apply elem_of_app; by left|done]|]. destruct (HF q Hq) as [V _]. destruct (cover q id V Hid Hne Hb) as [(x & Hx & E)|(r & Hr & Hb')].
    + left. exists x. split; [|done]. apply elem_of_app. right. apply elem_of_concat_map. by exists q.
    + right. exists r. split; [|done]. apply elem_of_concat_map. by exists q.
Qed.

Lemma LocalNodes_spec t m lim F : represents t m -> 1 <= lim -> (forall q, q ∈ F -> ValidTreePrefix q = true) -> LocalNodes t lim F = Ok (map (node_of m lim) F).
Proof.
  intros Ht Hlim. induction F as [|q F IH]; intros HF; [done|]. cbn [LocalNodes map]. rewrite (NodeAt_spec t m q lim Ht) by (done || apply HF; by left). cbn [mbind go_bind]. rewrite IH by (intros; apply HF; by right). done.
Qed.

Lemma rounds_exact t1 t2 n : represents t1 m1 -> represents t2 m2 -> forall d F out, (d + n = S trieDepth)%nat -> between d F out ->
  exists out' d', diff_rounds n (LocalNodes t1 lim1) (LocalNodes t2 lim2) F out = Some (Ok out') /\ between d' [] out'.
Proof.
  intros H1 H2. induction n as [|n IH]; intros d F out Hd Hb.
  - assert (F = []) as ->; [|by exists out, d]. destruct F as [|q F]; [done|]. destruct (left_prefixes _ _ _ Hb q ltac:(by left)) as [[Hq _]%valid_prefix L]. lia.
  - destruct F as [|q F]; [by exists out, d|]. set (G := q :: F) in *. assert (HG : forall q, q ∈ G -> ValidTreePrefix q = true) by (intros r Hr; by apply (left_prefixes _ _ _ Hb)).
    cbn [diff_rounds]. fold G. rewrite (LocalNodes_spec t1 m1 lim1 G H1 Hl1 HG), (LocalNodes_spec t2 m2 lim2 G H2 Hl2 HG). cbn [from_source mbind go_bind]. rewrite !length_map, Nat.eqb_refl. cbn [negb orb]. rewrite diff_level_spec. cbn [app].
    apply (IH (S d)); [lia|by apply between_step].
Qed.

End Batch.

(** ** Whole trees *)

#[export] Instance clash_dec p : Decision (clash p).
Proof. unfold clash. apply _. Defined.

Lemma between_start m1 m2 : between m1 m2 0 [[]] [].
Proof.
  split; [intros q ->%list_elem_of_singleton; split; [by apply valid_prefix; split; [cbn; lia|]|done]|apply NoDup_singleton|by intros x ?%not_elem_of_nil|constructor|by intros x q ?%not_elem_of_nil|].
  intros id _ _. right. exists []. split; [by left|done].
Qed.

Lemma UUIDString_inj a b : uuid_wf a -> uuid_wf b -> UUIDString a = UUIDString b -> a = b.
Proof. intros Ha Hb E. pose proof (UUID_text a Ha) as H1. pose proof (UUID_text b Hb) as H2. rewrite E in H1. congruence. Qed.

Lemma differs_wf m1 m2 x : map_wf m1 -> map_wf m2 -> differs m1 m2 x -> uuid_wf (DiffID x).
Proof. intros H1 H2 (Hne & _). destruct (m1 !! DiffID x) as [h|] eqn:E; [by apply (H1 _ _ E)|]. destruct (m2 !! DiffID x) as [h|] eqn:E'; [by apply (H2 _ _ E')|done]. Qed.

Lemma map_inj_NoDup {A B C} (f : A -> B) (g : A -> C) l : (forall x y, x ∈ l -> y ∈ l -> g x = g y -> f x = f y) -> NoDup (map f l) -> NoDup (map g l).
Proof.
  intros H. induction l as [|x l IH]; cbn; [constructor|]. intros [Hn Hl]%NoDup_cons. constructor; [|apply IH; [intros; apply H; by right || done|done]].
  intros (y & E & Hy)%list_elem_of_fmap. apply Hn, list_elem_of_fmap. exists y. split; [|done]. apply H; [by left|by right|done].
Qed.

Lemma diff_exact t1 t2 m1 m2 lim1 lim2 : represents t1 m1 -> represents t2 m2 -> nonzero m1 -> 1 <= lim1 -> 1 <= lim2 -> ~ Exists clash (tree_pairs trieDepth 0 (items_of m1) (items_of m2)) ->
  exists out, DiffTrees (LocalNodes t1 lim1) (LocalNodes t2 lim2) = Some (Ok out) /\
    StronglySorted (fun a b => key_lt (UUIDString (DiffID a)) (UUIDString (DiffID b))) out /\ forall x, x ∈ out <-> differs m1 m2 x.
Proof.
  intros H1 H2 Hz Hl1 Hl2 Hno. pose proof H1 as (Hm1 & _). pose proof H2 as (Hm2 & _).
  destruct (rounds_exact m1 m2 lim1 lim2 Hm1 Hm2 Hz Hl1 Hl2 Hno t1 t2 (S trieDepth) H1 H2 0 [[]] [] eq_refl (between_start m1 m2)) as (out & d & E & [_ _ HR HD _ HC]). unfold DiffTrees. rewrite E.
  eexists. split; [reflexivity|]. split.
  - apply (isort_strict_key _ (fun x => UUIDString (DiffID x))); [done|]. apply (map_inj_NoDup DiffID); [|done]. intros x y Hx Hy. apply UUIDString_inj; by eapply differs_wf, HR.
  - intros x. rewrite isort_perm. split; [apply HR|]. intros Hx. destruct (HC (DiffID x) (differs_wf _ _ _ Hm1 Hm2 Hx) (proj1 Hx)) as [(y & Hy & Ey)|(q & Hq & _)]; [|by apply not_elem_of_nil in Hq].
    assert (y = x) as <-; [|done]. destruct (HR y Hy) as (_ & L1 & R1), Hx as (_ & L2 & R2). rewrite Ey in L1, R1. clear E HC. destruct x, y. cbn [DiffID Local Remote] in *. congruence.
Qed.

(** C14. Comparing two trees by their Merkle views is exact.  Over two local trees, each listing
    a subtree's documents when they are few enough, [DiffTrees] returns the documents that the
    trees hold differently - with the hash on each side, zero where a document is absent - all of
    them, nothing else, and in ascending order; unless two subtrees with different documents
    have the same hash ([tree_pairs] lists where to look), which is a collision of SHA-256 or a
    preimage of the all-zero hash. *)
Theorem DiffTrees_exact t1 t2 m1 m2 lim1 lim2 (H1 : represents t1 m1) (H2 : represents t2 m2) (Hz : nonzero m1) (Hl1 : 1 <= lim1) (Hl2 : 1 <= lim2) :
  (exists out, DiffTrees (LocalNodes t1 lim1) (LocalNodes t2 lim2) = Some (Ok out) /\
     StronglySorted (fun a b => key_lt (UUIDString (DiffID a)) (UUIDString (DiffID b))) out /\ forall x, x ∈ out <-> differs m1 m2 x) \/
  Exists clash (tree_pairs trieDepth 0 (items_of m1) (items_of m2)).
Proof. destruct (decide (Exists clash (tree_pairs trieDepth 0 (items_of m1) (items_of m2)))) as [H|H]; [by right|left]. by apply diff_exact. Qed.

Lemma DiffTrees_exact_witness : represents EmptyDocumentTree ∅ /\ represents (BuildDocumentTree sample) sample /\
  ((exists out, DiffTrees (LocalNodes EmptyDocumentTree 1) (LocalNodes (BuildDocumentTree sample) 1) = Some (Ok out) /\
     StronglySorted (fun a b => key_lt (UUIDString (DiffID a)) (UUIDString (DiffID b))) out /\ forall x, x ∈ out <-> differs ∅ sample x) \/
   Exists clash (tree_pairs trieDepth 0 (items_of ∅) (items_of sample))).
Proof.
  assert (H : represents EmptyDocumentTree ∅) by (apply BuildDocumentTree_represents, map_Forall_empty). split_and!; [exact H|exact sample_represents|].
  apply (DiffTrees_exact EmptyDocumentTree (BuildDocumentTree sample) ∅ sample 1 1 H sample_represents); [apply map_Forall_empty|lia|lia].
Defined.

(** C16. Comparing two trees always ends: whatever two sources of nodes answer - a peer's answers
    need not make sense - there are at most 33 batches, one for each length of a prefix. *)
Theorem DiffTrees_terminates {E} (local remote : NodeSource E) : DiffTrees local remote <> None.
Proof. apply DiffTrees_ends. Qed.

End TreeDiff.
