(* ===== verification/TreeSlab.v ===== *)
(** The slab that the records of tries live in: [document/document_tree_slab.go] and the
    updates of [document/document_tree_trie.go] over it.

    Records are addressed by references and shared between trees.  Every record counts the
    references to it, from parent records and from tree handles; a record whose count drops
    to zero goes on a free list and its slot is handed out again.  An update first assembles
    its new records beside the slab, reading the tree it starts from, and then places them.

    A reference is zero, a node or a leaf with its index; references into mapped tree files
    are left out, and so is the pacing of the garbage collector, which changes no record.
    Reference counts are unbounded: a slab has fewer than 2^29 records of each kind. *)

From S2P Require Import Prelude Primitives Sha256 TrieHash Trie TrieCorrect TrieWalk TrieBulk.
Import Primitives TrieHash Trie TrieBulk.

Module TreeSlab.

Inductive tref := Zero | NodeRef (i : Z) | LeafRef (i : Z).

#[export] Instance tref_eq_dec : EqDecision tref.
Proof. solve_decision. Defined.
#[export] Instance tref_countable : Countable tref :=
  inj_countable' (fun r => match r with Zero => None | NodeRef i => Some (inl i) | LeafRef i => Some (inr i) end)
    (fun o => match o with None => Zero | Some (inl i) => NodeRef i | Some (inr i) => LeafRef i end)
    (fun r => match r with Zero => eq_refl | NodeRef _ => eq_refl | LeafRef _ => eq_refl end).

Record nodeRec := mkNodeRec { node_hash : bytes; node_child : list tref }.
Record leafRec := mkLeafRec { leaf_hash : bytes; leaf_id : bytes; leaf_content : Hash }.

(** ** Slots *)

Definition slabMinShift : Z := 3.
Definition slabMaxShift : Z := 14.
Definition slabGeomChunks : Z := slabMaxShift - slabMinShift + 1.
Definition slabGeomSlots : Z := Z.shiftl 1 slabMinShift * (Z.shiftl 1 slabGeomChunks - 1).
Definition slabMaxIndex : Z := Z.shiftl 1 29 - 1.

(** [bits.Len32]. *)
Definition Len32 (x : Z) : Z := if x =? 0 then 0 else Z.log2 x + 1.

Definition slabLocate (i : Z) : Z * Z :=
  if i <? slabGeomSlots then
    let k := Len32 (Z.shiftr i slabMinShift + 1) - 1 in (k, i - Z.shiftl 1 slabMinShift * (Z.shiftl 1 k - 1))
  else
    let j := i - slabGeomSlots in (slabGeomChunks + Z.shiftr j slabMaxShift, Z.land j (Z.shiftl 1 slabMaxShift - 1)).

Definition slabChunkLen (k : Z) : Z := if slabGeomChunks <=? k then Z.shiftl 1 slabMaxShift else Z.shiftl 1 (slabMinShift + k).

(** The directory of a pool: the lengths of its chunks, and the slots they have. *)
Record chunkDir := mkDir { chunks : list Z; cap : Z }.
Fixpoint grow_loop (fuel : nat) (n : Z) (d : chunkDir) : chunkDir :=
  if cap d <? n then
    match fuel with
    | O => d
    | S fuel => let l := slabChunkLen (zlen (chunks d)) in grow_loop fuel n (mkDir (chunks d ++ [l]) (cap d + l))
    end
  else d.
Definition grow (n : Z) (d : chunkDir) : chunkDir := grow_loop (Z.to_nat (n - cap d)) n d.

(** A pool of records: what is written in each slot, its count, how many slots were handed
    out, and those that are free again, last freed first. *)
Record slabPool (R : Type) := mkPool { recs : gmap Z R; counts : gmap Z Z; used : Z; free : list Z }.
#[global] Arguments mkPool {R}.
#[global] Arguments recs {R}.
#[global] Arguments counts {R}.
#[global] Arguments used {R}.
#[global] Arguments free {R}.

Definition no_pool {R} : slabPool R := mkPool ∅ ∅ 0 [].

Definition count {R} (p : slabPool R) (i : Z) : Z := default 0 (counts p !! i).
Definition set_count {R} (i n : Z) (p : slabPool R) : slabPool R := mkPool (recs p) (<[i := n]> (counts p)) (used p) (free p).

(** [n] slots that were never handed out; nothing when the slab is exhausted. *)
Definition reserve {R} (n : Z) (p : slabPool R) : option (Z * slabPool R) :=
  let start := if used p =? 0 then 1 else used p in
  if slabMaxIndex <? start + n then None else Some (start, mkPool (recs p) (counts p) (start + n) (free p)).

(** [allocNode] and [allocLeaf]. *)
Definition alloc {R} (p : slabPool R) : option (Z * slabPool R) :=
  match free p with
  | i :: free => Some (i, mkPool (recs p) (counts p) (used p) free)
  | [] => reserve 1 p
  end.
Definition write {R} (i : Z) (r : R) (p : slabPool R) : slabPool R := mkPool (<[i := r]> (recs p)) (counts p) (used p) (free p).
Definition give_back {R} (i : Z) (p : slabPool R) : slabPool R := mkPool (recs p) (counts p) (used p) (i :: free p).

Record trieSlab := mkSlab { nodes : slabPool nodeRec; leaves : slabPool leafRec; pending : list tref }.

Definition newTrieSlab : trieSlab := mkSlab no_pool no_pool [].

Definition node (s : trieSlab) (i : Z) : nodeRec := default (mkNodeRec trieZero (replicate 16 Zero)) (recs (nodes s) !! i).
Definition leaf (s : trieSlab) (i : Z) : leafRec := default (mkLeafRec trieZero [] (mkHash trieZero)) (recs (leaves s) !! i).

Definition view_hash (s : trieSlab) (r : tref) : bytes :=
  match r with Zero => trieZero | LeafRef i => leaf_hash (leaf s i) | NodeRef i => node_hash (node s i) end.

Definition retain (r : tref) (s : trieSlab) : trieSlab :=
  match r with
  | Zero => s
  | LeafRef i => mkSlab (nodes s) (set_count i (count (leaves s) i + 1) (leaves s)) (pending s)
  | NodeRef i => mkSlab (set_count i (count (nodes s) i + 1) (nodes s)) (leaves s) (pending s)
  end.

(** A release that was not retained panics: [None].  [n] bounds the levels it goes down. *)
Fixpoint release (n : nat) (r : tref) (s : trieSlab) : option trieSlab :=
  match r with
  | Zero => Some s
  | LeafRef i =>
    let rc := count (leaves s) i in
    if rc =? 0 then None
    else
      let l := set_count i (rc - 1) (leaves s) in
      Some (mkSlab (nodes s) (if rc - 1 =? 0 then give_back i l else l) (pending s))
  | NodeRef i =>
    let rc := count (nodes s) i in
    if rc =? 0 then None
    else
      let ns := set_count i (rc - 1) (nodes s) in
      if rc - 1 =? 0 then
        match n with
        | O => None
        | S n => foldl (fun s c => s ← s; release n c s) (Some (mkSlab (give_back i ns) (leaves s) (pending s))) (node_child (node s i))
        end
      else Some (mkSlab ns (leaves s) (pending s))
  end.

(** ** Reads *)

Definition child_ref (l : list tref) (nib : nat) : tref := nth nib l Zero.

(** [n] levels are left below [depth]. *)
Fixpoint get_ref (n depth : nat) (s : trieSlab) (r : tref) (key : bytes) : option Hash :=
  match r with
  | Zero => None
  | LeafRef i => if bool_decide (leaf_id (leaf s i) = key) then Some (leaf_content (leaf s i)) else None
  | NodeRef i => match n with O => None | S n => get_ref n (S depth) s (child_ref (node_child (node s i)) (nibbleAt key depth)) key end
  end.

(** [walk] with a visitor that keeps a state and stops the walk by returning false; [n] bounds the levels. *)
Fixpoint walk_ref {A} (visit : A -> bytes * Hash -> A * bool) (n : nat) (s : trieSlab) (a : A) (r : tref) : A * bool :=
  match r with
  | Zero => (a, true)
  | LeafRef i => visit a (leaf_id (leaf s i), leaf_content (leaf s i))
  | NodeRef i =>
    match n with
    | O => (a, true)
    | S n => (fix go a l := match l with [] => (a, true) | c :: l => let '(a, more) := walk_ref visit n s a c in if more then go a l else (a, false) end) a (node_child (node s i))
    end
  end.

(** [walkAfter]: only entries whose id sorts after [after], descending along its path. *)
Fixpoint walk_refs {A} (visit : A -> bytes * Hash -> A * bool) (n : nat) (s : trieSlab) (a : A) (l : list tref) : A * bool :=
  match l with [] => (a, true) | c :: l => let '(a, more) := walk_ref visit n s a c in if more then walk_refs visit n s a l else (a, false) end.
Fixpoint walkAfter_ref {A} (visit : A -> bytes * Hash -> A * bool) (n depth : nat) (key : bytes) (after : UUID) (s : trieSlab) (a : A) (r : tref) : A * bool :=
  match r with
  | Zero => (a, true)
  | LeafRef i => if uuidAfter (keyUUID (leaf_id (leaf s i))) after then visit a (leaf_id (leaf s i), leaf_content (leaf s i)) else (a, true)
  | NodeRef i =>
    match n with
    | O => (a, true)
    | S n =>
      let children := node_child (node s i) in
      let nib := nibbleAt key depth in
      let '(a, more) := walkAfter_ref visit n (S depth) key after s a (child_ref children nib) in
      if more then walk_refs visit n s a (drop (nib + 1) children) else (a, false)
    end
  end.

(** ** Updates *)

(** A reference that an update works with: to a record of the slab, or a record that it made. *)
Inductive edited :=
  | Old (r : tref)
  | NewLeaf (hash id : bytes) (content : Hash)
  | NewNode (hash : bytes) (child : list edited).

Definition edit_isLeaf (e : edited) : bool := match e with Old (LeafRef _) | NewLeaf _ _ _ => true | _ => false end.
Definition edit_hash (s : trieSlab) (e : edited) : bytes := match e with Old r => view_hash s r | NewLeaf h _ _ | NewNode h _ => h end.
Definition edit_leafEntry (s : trieSlab) (e : edited) : bytes * Hash :=
  match e with
  | Old (LeafRef i) => (leaf_id (leaf s i), leaf_content (leaf s i))
  | NewLeaf _ id c => (id, c)
  | _ => ([], mkHash trieZero)
  end.

Definition edit_newLeaf (key : bytes) (content : Hash) (depth : nat) : edited := NewLeaf (foldLeaf key content depth) key content.
Definition edit_newNode (s : trieSlab) (children : list edited) : edited := NewNode (nodeHash (map (edit_hash s) children)) children.

Definition no_edits : list edited := replicate 16 (Old Zero).

(** Whether a child is still the one it was. *)
Definition same (e : edited) (r : tref) : bool := match e with Old r' => bool_decide (r' = r) | _ => false end.

(** The depth at which two keys part. *)
Fixpoint parting (n d : nat) (id key : bytes) : nat :=
  match n with O => d | S n => if Nat.eqb (nibbleAt id d) (nibbleAt key d) then parting n (S d) id key else d end.

Definition split (s : trieSlab) (exID : bytes) (exContent : Hash) (key : bytes) (content : Hash) (depth : nat) : edited :=
  let d := parting (trieDepth - depth) depth exID key in
  if Nat.eqb d trieDepth then edit_newLeaf key content depth
  else
    let children := <[nibbleAt key d := edit_newLeaf key content (d + 1)]> (<[nibbleAt exID d := edit_newLeaf exID exContent (d + 1)]> no_edits) in
    foldl (fun node k => edit_newNode s (<[nibbleAt key k := node]> no_edits)) (edit_newNode s children) (rev (seq depth (d - depth))).

Fixpoint insert (n depth : nat) (s : trieSlab) (r : tref) (key : bytes) (content : Hash) : edited :=
  match r with
  | Zero => edit_newLeaf key content depth
  | LeafRef i =>
    if bool_decide (leaf_id (leaf s i) = key)
    then if bool_decide (leaf_content (leaf s i) = content) then Old r else edit_newLeaf key content depth
    else split s (leaf_id (leaf s i)) (leaf_content (leaf s i)) key content depth
  | NodeRef i =>
    match n with
    | O => edit_newLeaf key content depth
    | S n =>
      let children := node_child (node s i) in
      let nib := nibbleAt key depth in
      let nc := insert n (S depth) s (child_ref children nib) key content in
      if same nc (child_ref children nib) then Old r else edit_newNode s (<[nib := nc]> (map Old children))
    end
  end.

Definition not_zero (e : edited) : bool := match e with Old Zero => false | _ => true end.

Fixpoint delete (n depth : nat) (s : trieSlab) (r : tref) (key : bytes) : edited :=
  match r with
  | Zero => Old Zero
  | LeafRef i => if bool_decide (leaf_id (leaf s i) = key) then Old Zero else Old r
  | NodeRef i =>
    match n with
    | O => Old r
    | S n =>
      let children := node_child (node s i) in
      let nib := nibbleAt key depth in
      let nc := delete n (S depth) s (child_ref children nib) key in
      if same nc (child_ref children nib) then Old r
      else
        let children := <[nib := nc]> (map Old children) in
        match List.filter not_zero children with
        | [] => Old Zero
        | [only] => if edit_isLeaf only then let '(id, c) := edit_leafEntry s only in edit_newLeaf id c depth else edit_newNode s children
        | _ => edit_newNode s children
        end
    end
  end.

(** The subtree that holds exactly the items. *)
Fixpoint buildMany (n depth : nat) (s : trieSlab) (items : list trieItem) : edited :=
  let last := List.last items ([], mkHash []) in
  match n with
  | O => edit_newLeaf last.1 last.2 depth
  | S n =>
    if (length items =? 1)%nat then edit_newLeaf last.1 last.2 depth
    else edit_newNode s (foldl (fun ch r => <[r.1 := buildMany n (S depth) s r.2]> ch) no_edits (runs depth items))
  end.

(** The children after one run of items, and whether any of them changed. *)
Definition fill_step (f : tref -> list trieItem -> edited) (children : list tref) (acc : list edited * bool) (r : nat * list trieItem) : list edited * bool :=
  let nc := f (child_ref children r.1) r.2 in if same nc (child_ref children r.1) then acc else (<[r.1 := nc]> acc.1, true).

Fixpoint insertMany_ref (n depth : nat) (s : trieSlab) (r : tref) (items : list trieItem) : edited :=
  match items with
  | [it] => insert n depth s r it.1 it.2
  | _ =>
    match r with
    | Zero => buildMany n depth s items
    | LeafRef i =>
      let id := leaf_id (leaf s i) in
      let '(lo, hi) := search id items in
      match hi with
      | it :: _ => if bool_decide (it.1 = id) then buildMany n depth s items else buildMany n depth s (lo ++ (id, leaf_content (leaf s i)) :: hi)
      | [] => buildMany n depth s (lo ++ [(id, leaf_content (leaf s i))])
      end
    | NodeRef i =>
      match n with
      | O => Old r
      | S n =>
        let children := node_child (node s i) in
        let '(ch, changed) := foldl (fill_step (insertMany_ref n (S depth) s) children) (map Old children, false) (runs depth items) in
        if changed then edit_newNode s ch else Old r
      end
    end
  end.

(** ** Placing *)

(** The records of an edit go into the slab, children first; a parent counts its children. *)
Fixpoint place (e : edited) (s : trieSlab) : option (trieSlab * tref) :=
  match e with
  | Old r => Some (s, r)
  | NewLeaf h id c =>
    '(i, l) ← alloc (leaves s);
    Some (mkSlab (nodes s) (write i (mkLeafRec h id c) l) (pending s), LeafRef i)
  | NewNode h ch =>
    '(s, refs) ← (fix go (ch : list edited) (s : trieSlab) : option (trieSlab * list tref) :=
      match ch with
      | [] => Some (s, [])
      | c :: ch =>
        if not_zero c then
          '(s, p) ← place c s;
          '(s, refs) ← go ch (retain p s);
          Some (s, p :: refs)
        else '(s, refs) ← go ch s; Some (s, Zero :: refs)
      end) ch s;
    '(i, ns) ← alloc (nodes s);
    Some (mkSlab (write i (mkNodeRec h refs) ns) (leaves s) (pending s), NodeRef i)
  end.

(** Roots of dropped trees are released later, the last ones first. *)
Definition release_all (rs : list tref) (s : trieSlab) : option trieSlab := foldl (fun s r => s ← s; release (S trieDepth) r s) (Some s) rs.

(** [drain]: up to [limit] roots, all of them when it is negative, in batches of at most 64; [n] bounds the batches. *)
Fixpoint drain (n : nat) (limit : Z) (s : trieSlab) : option trieSlab :=
  if (limit =? 0) || (length (pending s) =? 0)%nat then Some s
  else
    match n with
    | O => None
    | S n =>
      let k := if (0 <? limit) && (limit <? 64) then limit else 64 in
      let k := Z.min k (zlen (pending s)) in
      let keep := (length (pending s) - Z.to_nat k)%nat in
      s' ← release_all (drop keep (pending s)) (mkSlab (nodes s) (leaves s) (take keep (pending s)));
      drain n (if 0 <? limit then limit - k else limit) s'
    end.
Definition drain_now (limit : Z) (s : trieSlab) : option trieSlab := drain (S (length (pending s))) limit s.

Definition drainPerUpdate : Z := 4.

(** [commit]: the handle of the new tree, [Zero] for the empty tree, which has none. *)
Definition commit (e : edited) (s : trieSlab) : option (trieSlab * tref) :=
  match e with
  | Old Zero => Some (s, Zero)
  | _ =>
    s ← drain_now drainPerUpdate s;
    '(s, r) ← place e s;
    Some (retain r s, r)
  end.

(** [dropTrieRoot]: a handle is gone; its root is queued, and the queue drained when the slab is not in use. *)
Definition dropTrieRoot (root : tref) (idle : bool) (s : trieSlab) : option trieSlab :=
  let s := mkSlab (nodes s) (leaves s) (pending s ++ [root]) in
  if idle then drain_now (-1) s else Some s.

(** ** Bulk builds *)

(** A builder writes into blocks of slots that it reserved and that nobody else uses. *)
Record trieBulk := mkBulk { bulk_s : trieSlab; nodeNext : Z; nodeEnd : Z; leafNext : Z; leafEnd : Z }.

Definition trieBulkBlock : Z := 256.

Definition reserveLeaves (n : Z) (b : trieBulk) : option trieBulk :=
  let s := bulk_s b in
  '(start, l) ← reserve n (leaves s);
  Some (mkBulk (mkSlab (nodes s) l (pending s)) (nodeNext b) (nodeEnd b) start (start + n)).
Definition reserveNodes (n : Z) (b : trieBulk) : option trieBulk :=
  let s := bulk_s b in
  '(start, ns) ← reserve n (nodes s);
  Some (mkBulk (mkSlab ns (leaves s) (pending s)) start (start + n) (leafNext b) (leafEnd b)).

(** [newLeaf] and [newNode] with the record that is written into the slot. *)
Definition bulk_newLeaf (l : leafRec) (b : trieBulk) : option (trieBulk * tref) :=
  b ← (if leafNext b =? leafEnd b then reserveLeaves trieBulkBlock b else Some b);
  let s := bulk_s b in
  Some (mkBulk (mkSlab (nodes s) (write (leafNext b) l (leaves s)) (pending s)) (nodeNext b) (nodeEnd b) (leafNext b + 1) (leafEnd b), LeafRef (leafNext b)).
Definition bulk_newNode (n : nodeRec) (b : trieBulk) : option (trieBulk * tref) :=
  b ← (if nodeNext b =? nodeEnd b then reserveNodes trieBulkBlock b else Some b);
  let s := bulk_s b in
  Some (mkBulk (mkSlab (write (nodeNext b) n (nodes s)) (leaves s) (pending s)) (nodeNext b + 1) (nodeEnd b) (leafNext b) (leafEnd b), NodeRef (nodeNext b)).

(** The slots that were not used become free. *)
Definition give_block {R} (next stop : Z) (p : slabPool R) : slabPool R := mkPool (recs p) (counts p) (used p) (rev (seqZ next (stop - next)) ++ free p).
Definition finish (b : trieBulk) : trieSlab :=
  let s := bulk_s b in mkSlab (give_block (nodeNext b) (nodeEnd b) (nodes s)) (give_block (leafNext b) (leafEnd b) (leaves s)) (pending s).

Definition no_refs : list tref := replicate 16 Zero.

(** The node over children, counting a reference to each. *)
Definition bulk_node (children : list tref) (b : trieBulk) : option (trieBulk * tref) :=
  let s := foldl (fun s c => retain c s) (bulk_s b) children in
  bulk_newNode (mkNodeRec (nodeHash (map (view_hash (bulk_s b)) children)) children) (mkBulk s (nodeNext b) (nodeEnd b) (leafNext b) (leafEnd b)).

Definition bulk_leaf (items : list trieItem) (depth : nat) (b : trieBulk) : option (trieBulk * tref) :=
  let it := List.last items ([], mkHash []) in bulk_newLeaf (mkLeafRec (foldLeaf it.1 it.2 depth) it.1 it.2) b.

Fixpoint bulk_build (n depth : nat) (items : list trieItem) (b : trieBulk) : option (trieBulk * tref) :=
  match n with
  | O => bulk_leaf items depth b
  | S n =>
    if (length items =? 1)%nat then bulk_leaf items depth b
    else
      '(b, children) ← foldl (fun acc r =>
        '(b, ch) ← acc;
        '(b, c) ← bulk_build n (S depth) r.2 b;
        Some (b, <[r.1 := c]> ch)) (Some (b, no_refs)) (runs depth items);
      bulk_node children b
  end.

Definition new_builder (s : trieSlab) : trieBulk := mkBulk s 0 0 0 0.

(** The subtree of one run, by a builder of its own. *)
Definition build_run (r : nat * list trieItem) (s : trieSlab) : option (trieSlab * tref) :=
  b ← reserveLeaves (zlen r.2) (new_builder s);
  '(b, c) ← bulk_build (trieDepth - 1) 1 r.2 b;
  Some (finish b, c).

(** A new slab with the tree of the items, and its root; the builders of a large tree, which
    run at once and share nothing but the slots that they reserve, take turns. *)
Definition trieBuildItems_ref (items : list trieItem) : option (trieSlab * tref) :=
  match items with
  | [] => Some (newTrieSlab, Zero)
  | _ =>
    '(b, root) ← (if 4096 <=? zlen items then
      '(s, children) ← foldl (fun acc r => '(s, ch) ← acc; '(s, c) ← build_run r s; Some (s, <[r.1 := c]> ch)) (Some (newTrieSlab, no_refs)) (runs 0 items);
      bulk_node children (new_builder s)
    else b ← reserveLeaves (zlen items) (new_builder newTrieSlab); bulk_build trieDepth 0 items b);
    Some (retain root (finish b), root)
  end.

End TreeSlab.
