(* ===== verification/SlabChunks.v ===== *)
(** The slots of a pool live in chunks: eight records, then twice as many each time up to
    16384, which the chunks after that have too.  Every slot has a place of its own in a chunk
    that the directory has. *)

From S2P Require Import Prelude Primitives Sha256 TrieHash Trie TrieCorrect TrieWalk TrieBulk TreeSlab.
Import TreeSlab.

Module SlabChunks.

(** Where a chunk starts. *)
Definition chunk_start (k : Z) : Z := if k <? slabGeomChunks then 8 * (2 ^ k - 1) else slabGeomSlots + 2 ^ 14 * (k - slabGeomChunks).

Lemma slabChunkLen_pow k : 0 <= k -> slabChunkLen k = if slabGeomChunks <=? k then 2 ^ 14 else 8 * 2 ^ k.
Proof. intros Hk. unfold slabChunkLen. destruct (Z.leb_spec slabGeomChunks k) as [|Hlt]; [done|]. rewrite Z.shiftl_1_l. unfold slabMinShift. rewrite Z.pow_add_r by lia. lia. Qed.
Lemma chunk_start_next k : 0 <= k -> chunk_start (k + 1) = chunk_start k + slabChunkLen k.
Proof.
  intros Hk. rewrite slabChunkLen_pow by done. unfold chunk_start. assert (Eg : slabGeomChunks = 12) by done. assert (Es : slabGeomSlots = 32760) by done. rewrite Eg, Es. destruct (Z.leb_spec 12 k); [rewrite !(proj2 (Z.ltb_ge _ _)) by lia; lia|]. rewrite (proj2 (Z.ltb_lt k 12)) by lia. destruct (Z.ltb_spec (k + 1) 12); [rewrite Z.pow_add_r by lia; lia|]. replace k with 11 by lia. done.
Qed.
Lemma slabChunkLen_large k : 0 <= k -> 8 <= slabChunkLen k <= 2 ^ 14.
Proof. intros Hk. rewrite slabChunkLen_pow by done. assert (Eg : slabGeomChunks = 12) by done. rewrite Eg. destruct (Z.leb_spec 12 k); [lia|]. pose proof (Z.pow_le_mono_r 2 k 11 ltac:(lia) ltac:(lia)). pose proof (Z.pow_pos_nonneg 2 k ltac:(lia) Hk). lia. Qed.

Lemma slabLocate_spec i : 0 <= i -> let '(k, off) := slabLocate i in 0 <= k /\ i = chunk_start k + off /\ 0 <= off < slabChunkLen k.
Proof.
  intros Hi. unfold slabLocate. assert (Eg : slabGeomChunks = 12) by done. assert (Es : slabGeomSlots = 32760) by done. rewrite Es, Eg. destruct (Z.ltb_spec i 32760) as [Hlt|Hge].
  - set (x := Z.shiftr i slabMinShift + 1). assert (Hx : x = i / 8 + 1) by (unfold x, slabMinShift; by rewrite Z.shiftr_div_pow2 by lia). assert (Hpos : 0 < x) by (rewrite Hx; pose proof (Z.div_pos i 8); lia). unfold Len32. rewrite (proj2 (Z.eqb_neq x 0)) by lia. replace (Z.log2 x + 1 - 1) with (Z.log2 x) by lia. set (k := Z.log2 x).
    destruct (Z.log2_spec x Hpos) as [L1 L2]. fold k in L1, L2. pose proof (Z.log2_nonneg x) as Hk. fold k in Hk. assert (Hk12 : k < 12) by (apply Z.log2_lt_pow2; [done|]; rewrite Hx; pose proof (Z.div_lt_upper_bound i 8 4095); lia).
    rewrite !Z.shiftl_1_l. change (2 ^ slabMinShift) with 8. rewrite slabChunkLen_pow by done. unfold chunk_start. rewrite Eg, (proj2 (Z.ltb_lt k 12)), (proj2 (Z.leb_gt 12 k)) by lia. rewrite Z.pow_succ_r in L2 by done. pose proof (Z.div_mod i 8 ltac:(lia)). pose proof (Z.mod_pos_bound i 8 ltac:(lia)). lia.
  - set (j := i - 32760). change (Z.shiftl 1 slabMaxShift - 1) with (Z.ones 14). rewrite Z.land_ones, Z.shiftr_div_pow2 by (unfold slabMaxShift; lia). change (2 ^ slabMaxShift) with (2 ^ 14). pose proof (Z.div_pos j (2 ^ 14) ltac:(lia) ltac:(lia)) as Hq. pose proof (Z.mod_pos_bound j (2 ^ 14) ltac:(lia)). pose proof (Z.div_mod j (2 ^ 14) ltac:(lia)).
    rewrite slabChunkLen_pow by lia. unfold chunk_start. rewrite Eg, Es, (proj2 (Z.ltb_ge _ 12)), (proj2 (Z.leb_le 12 _)) by lia. lia.
Qed.

(** ** Growing *)

Definition dir_ok (d : chunkDir) : Prop := cap d = chunk_start (zlen (chunks d)) /\ forall k l, chunks d !! k = Some l -> l = slabChunkLen (Z.of_nat k).

Lemma dir_append d : dir_ok d -> dir_ok (mkDir (chunks d ++ [slabChunkLen (zlen (chunks d))]) (cap d + slabChunkLen (zlen (chunks d)))).
Proof.
  intros [Hc Hl]. split; cbn [cap chunks].
  - rewrite Hc. unfold zlen. rewrite length_app, Nat2Z.inj_add. cbn [length]. rewrite chunk_start_next by lia. done.
  - intros k l [Hk|[Hge Hk]]%lookup_app_Some; [by apply Hl|]. apply list_lookup_singleton_Some in Hk as [Hk <-]. unfold zlen. f_equal. lia.
Qed.

(** Growing to [n] stops at the first chunk that reaches it. *)
Definition grown_to (n : Z) (d d' : chunkDir) : Prop :=
  if n <=? cap d then d' = d else exists new l, chunks d' = chunks d ++ new ++ [l] /\ cap d' - l < n <= cap d'.

Lemma grow_loop_spec fuel : forall n d, dir_ok d -> (Z.to_nat (n - cap d) <= fuel)%nat -> dir_ok (grow_loop fuel n d) /\ grown_to n d (grow_loop fuel n d).
Proof.
  unfold grown_to. induction fuel as [|fuel IH]; intros n d Hd Hf; cbn [grow_loop]; destruct (Z.ltb_spec (cap d) n) as [Hlt|Hge]; [lia|by rewrite (proj2 (Z.leb_le _ _))| |by rewrite (proj2 (Z.leb_le _ _))]. pose proof (slabChunkLen_large (zlen (chunks d)) ltac:(unfold zlen; lia)) as Hl.
  destruct (IH n _ (dir_append d Hd)) as (H1 & H2); [cbn [cap]; lia|]. split; [done|]. rewrite (proj2 (Z.leb_gt _ _)) by lia. cbn [cap chunks] in *. destruct (Z.leb_spec n (cap d + slabChunkLen (zlen (chunks d)))).
  - rewrite H2. exists [], (slabChunkLen (zlen (chunks d))). cbn [chunks cap app]. split; [done|lia].
  - destruct H2 as (new & l & E & Hb). exists (slabChunkLen (zlen (chunks d)) :: new), l. rewrite E, <- app_assoc. done.
Qed.

Lemma chunk_start_mono j k : 0 <= j <= k -> chunk_start j <= chunk_start k.
Proof.
  intros [Hj Hk]. replace k with (j + Z.of_nat (Z.to_nat (k - j))) by lia. induction (Z.to_nat (k - j)) as [|n IH]; [rewrite Z.add_0_r; lia|]. rewrite Nat2Z.inj_succ, Z.add_succ_r, <- Z.add_1_r, chunk_start_next by lia. pose proof (slabChunkLen_large (j + Z.of_nat n) ltac:(lia)). lia.
Qed.

Lemma dir_lookup d i : dir_ok d -> 0 <= i < cap d -> exists l, chunks d !! Z.to_nat (slabLocate i).1 = Some l /\ 0 <= (slabLocate i).2 < l.
Proof.
  intros [Hc Hl] Hi. pose proof (slabLocate_spec i ltac:(lia)) as H. destruct (slabLocate i) as [k off]. destruct H as (Hk & Ei & Ho). cbn [fst snd]. assert (Hlt : k < zlen (chunks d)).
  { destruct (Z.lt_ge_cases k (zlen (chunks d))) as [|Hge]; [done|]. pose proof (chunk_start_mono (zlen (chunks d)) k ltac:(unfold zlen in *; lia)). lia. }
  destruct (lookup_lt_is_Some_2 (chunks d) (Z.to_nat k) ltac:(unfold zlen in Hlt; lia)) as [l E]. exists l. split; [done|]. rewrite (Hl _ _ E), Z2Nat.id by done. done.
Qed.

(** The directory after any number of growths. *)
Definition grown (ns : list Z) : chunkDir := foldl (fun d n => grow n d) (mkDir [] 0) ns.

Lemma grown_ok ns : dir_ok (grown ns).
Proof.
  unfold grown. assert (H : dir_ok (mkDir [] 0)) by (split; [done|by intros [|k] l]). revert H. generalize (mkDir [] 0). induction ns as [|n ns IH]; intros d Hd; [done|]. cbn [foldl]. apply IH. by apply grow_loop_spec.
Qed.

Lemma grow_grown n d : dir_ok d -> dir_ok (grow n d) /\ grown_to n d (grow n d).
Proof. intros Hd. by apply grow_loop_spec. Qed.

Lemma grown_bound ns b : 0 <= b -> Forall (fun n => n <= b) ns -> cap (grown ns) < b + 2 ^ 14.
Proof.
  intros Hb Hns. unfold grown. assert (H : dir_ok (mkDir [] 0) /\ cap (mkDir [] 0) < b + 2 ^ 14) by (split; [split; [done|by intros [|k] l]|cbn; lia]). revert H. generalize (mkDir [] 0). induction Hns as [|n ns Hn Hns IH]; intros d [Hd Hc]; [done|]. cbn [foldl]. apply IH.
  destruct (grow_grown n d Hd) as [Hg Ht]. split; [done|]. unfold grown_to in Ht. destruct (Z.leb_spec n (cap d)); [by rewrite Ht|]. destruct Ht as (new & l & E & Hl). destruct Hg as [_ Hg].
  specialize (Hg (length (chunks d ++ new)) l). rewrite E, app_assoc, lookup_app_r, Nat.sub_diag in Hg by done. specialize (Hg eq_refl). pose proof (slabChunkLen_large (Z.of_nat (length (chunks d ++ new))) ltac:(lia)). lia.
Qed.

(** C12. Growing a pool to [n] slots, however it grew before, leaves it as it is when it has them,
    and otherwise appends chunks of which the last is the first to reach [n]: less than that
    chunk is to spare.  Each slot below the capacity lies inside a chunk of the directory, and
    no two slots share a place.  While no more than 2^32 - 2^14 slots are asked for, the 32-bit
    capacity does not wrap. *)
Theorem slab_addresses ns n :
  (let d := grown ns in let d' := grow n d in if n <=? cap d then d' = d else exists new l, chunks d' = chunks d ++ new ++ [l] /\ cap d' - l < n <= cap d') /\
  (forall i, 0 <= i < cap (grow n (grown ns)) -> exists l, chunks (grow n (grown ns)) !! Z.to_nat (slabLocate i).1 = Some l /\ 0 <= (slabLocate i).2 < l) /\
  (forall i j, 0 <= i -> 0 <= j -> slabLocate i = slabLocate j -> i = j) /\
  (Forall (fun m => m <= 2 ^ 32 - 2 ^ 14) (ns ++ [n]) -> cap (grow n (grown ns)) < 2 ^ 32).
Proof.
  destruct (grow_grown n (grown ns) (grown_ok ns)) as [H1 H2]. split_and!; [exact H2|intros i Hi; by apply dir_lookup| |].
  - intros i j Hi Hj E. pose proof (slabLocate_spec i Hi) as Li. pose proof (slabLocate_spec j Hj) as Lj. rewrite E in Li. destruct (slabLocate j) as [k off]. lia.
  - intros Hns%(grown_bound _ (2 ^ 32 - 2 ^ 14)); [|lia]. unfold grown in Hns at 1. rewrite foldl_app in Hns. cbn [foldl] in Hns. unfold grown. lia.
Qed.

(** Growing an empty pool to one slot, to nine and to three. *)
Lemma slab_addresses_witness : cap (grow 3 (grown [1; 9])) < 2 ^ 32 /\ chunks (grown [1; 9]) = [8; 16].
Proof. split; [|reflexivity]. apply (slab_addresses [1; 9] 3). repeat constructor; lia. Defined.

End SlabChunks.
