(* ===== verification/SlabEdit.v ===== *)
(** The updates over shared records make the tries that the updates of values make.

    [den] says which trie a reference stands for, given the records that are in use. *)

From S2P Require Import Prelude Primitives Sha256 TrieHash Trie TrieCorrect TrieWalk TrieBulk TreeSlab.
Import Primitives TrieHash Trie TrieCorrect TrieWalk TrieBulk TreeSlab.

Module SlabEdit.

(** ** Records in use *)

Inductive record := RNode (hash : bytes) (child : list tref) | RLeaf (hash id : bytes) (content : Hash).

Definition live {R} (p : slabPool R) : gmap Z R := filter (fun e => e.1 ∉ free p) (recs p).
Definition of_node (n : nodeRec) : record := RNode (node_hash n) (node_child n).
Definition of_leaf (l : leafRec) : record := RLeaf (leaf_hash l) (leaf_id l) (leaf_content l).

(** The records of a slab that are not on a free list. *)
Definition mem (s : trieSlab) : gmap tref record := kmap NodeRef (of_node <$> live (nodes s)) ∪ kmap LeafRef (of_leaf <$> live (leaves s)).

#[export] Instance NodeRef_inj : Inj (=) (=) NodeRef.
Proof. by intros ? ? [= ->]. Qed.
#[export] Instance LeafRef_inj : Inj (=) (=) LeafRef.
Proof. by intros ? ? [= ->]. Qed.

Lemma mem_node s i : mem s !! NodeRef i = of_node <$> live (nodes s) !! i.
Proof.
  unfold mem. rewrite lookup_union, (lookup_kmap NodeRef), lookup_fmap. assert (E : kmap LeafRef (of_leaf <$> live (leaves s)) !! NodeRef i = None) by (apply (lookup_kmap_None LeafRef); by intros). rewrite E. by destruct (of_node <$> _).
Qed.
Lemma mem_leaf s i : mem s !! LeafRef i = of_leaf <$> live (leaves s) !! i.
Proof.
  unfold mem. rewrite lookup_union, (lookup_kmap LeafRef), lookup_fmap. assert (E : kmap NodeRef (of_node <$> live (nodes s)) !! LeafRef i = None) by (apply (lookup_kmap_None NodeRef); by intros). rewrite E. by destruct (of_leaf <$> _).
Qed.
Lemma mem_zero s : mem s !! Zero = None.
Proof. unfold mem. apply lookup_union_None. split; [apply (lookup_kmap_None NodeRef)|apply (lookup_kmap_None LeafRef)]; by intros. Qed.

Lemma node_of_mem s i h ch : mem s !! NodeRef i = Some (RNode h ch) -> node s i = mkNodeRec h ch.
Proof. rewrite mem_node. intros ([h' ch'] & Hl & [= -> ->])%fmap_Some. apply map_lookup_filter_Some in Hl as [Hl _]. unfold node. by rewrite Hl. Qed.
Lemma leaf_of_mem s i h id c : mem s !! LeafRef i = Some (RLeaf h id c) -> leaf s i = mkLeafRec h id c.
Proof. rewrite mem_leaf. intros ([h' id' c'] & Hl & [= -> -> ->])%fmap_Some. apply map_lookup_filter_Some in Hl as [Hl _]. unfold leaf. by rewrite Hl. Qed.

(** ** Denotation *)

Inductive den (M : gmap tref record) : tref -> trie -> Prop :=
  | den_empty : den M Zero Empty
  | den_leaf i h id c : M !! LeafRef i = Some (RLeaf h id c) -> den M (LeafRef i) (Leaf h id c)
  | den_node i h refs ch : M !! NodeRef i = Some (RNode h refs) -> length refs = length ch -> (forall j r t, refs !! j = Some r -> ch !! j = Some t -> den M r t) -> den M (NodeRef i) (Node h ch).

Lemma den_fun M r t t' : den M r t -> den M r t' -> t = t'.
Proof.
  intros H. revert t'. induction H as [|i h id c H|i h refs ch H Hl Hd IH]; intros t' H'; inversion H' as [|? ? ? ? E|? ? refs' ch' E Hl' Hd']; subst; [done|rewrite H in E; by simplify_eq|].
  rewrite H in E. injection E as -> <-. f_equal. apply list_eq_same_length with (length ch'); [done|congruence|]. intros j t u Hj Ht Hu. destruct (lookup_lt_is_Some_2 refs j ltac:(lia)) as [r Hr]. by apply (IH j r t Hr Ht), (Hd' j r u).
Qed.

Lemma den_mono M M' r t : M ⊆ M' -> den M r t -> den M' r t.
Proof.
  intros HM. induction 1 as [|i h id c H|i h refs ch H Hl Hd IH]; [constructor|constructor; by eapply lookup_weaken|]. eapply den_node; [by eapply lookup_weaken|done|done].
Qed.

(** References that can be reached from a root. *)
Inductive below (M : gmap tref record) (root : tref) : tref -> Prop :=
  | below_root : below M root root
  | below_child i h refs r : below M root (NodeRef i) -> M !! NodeRef i = Some (RNode h refs) -> r ∈ refs -> below M root r.

(** What an edit of a tree stands for: its new records over records of the tree. *)
Inductive eden (M : gmap tref record) (root : tref) : edited -> trie -> Prop :=
  | eden_zero : eden M root (Old Zero) Empty
  | eden_old r t : den M r t -> below M root r -> eden M root (Old r) t
  | eden_leaf h id c : eden M root (NewLeaf h id c) (Leaf h id c)
  | eden_node h es ch : length es = length ch -> (forall j e t, es !! j = Some e -> ch !! j = Some t -> eden M root e t) -> eden M root (NewNode h es) (Node h ch).

Definition pointwise (M : gmap tref record) (root : tref) (es : list edited) (ch : list trie) : Prop :=
  length es = length ch /\ forall j e t, es !! j = Some e -> ch !! j = Some t -> eden M root e t.

Section Edit.
Context (s : trieSlab) (root : tref).
Notation M := (mem s).

Lemma view_hash_den r t : den M r t -> view_hash s r = hash_of t.
Proof. destruct 1 as [|i h id c H|i h refs ch H Hl Hd]; cbn; [done|by rewrite (leaf_of_mem s i h id c H)|by rewrite (node_of_mem s i h refs H)]. Qed.
Lemma edit_hash_eden e t : eden M root e t -> edit_hash s e = hash_of t.
Proof. destruct 1 as [|r t H _| |]; [done|by apply view_hash_den|done..]. Qed.

Lemma pointwise_insert es ch nib e t : pointwise M root es ch -> eden M root e t -> pointwise M root (<[nib := e]> es) (<[nib := t]> ch).
Proof.
  intros [Hl H] He. split; [by rewrite !length_insert|]. intros j e' t' Hj Hj'. apply list_lookup_insert_Some in Hj as [(<- & -> & Hn)|[Hne Hj]].
  - by rewrite list_lookup_insert_eq in Hj' by lia; injection Hj' as <-.
  - rewrite list_lookup_insert_ne in Hj' by done. by eapply H.
Qed.
Lemma pointwise_none : pointwise M root no_edits no_children.
Proof. split; [done|]. intros j e t He Ht. apply lookup_replicate in He as [-> _], Ht as [-> _]. constructor. Qed.

Lemma newNode_eden es ch : pointwise M root es ch -> eden M root (edit_newNode s es) (newNode ch).
Proof.
  intros [Hl H]. unfold edit_newNode, newNode. assert (E : map (edit_hash s) es = map hash_of ch); [|rewrite E; by constructor].
  apply list_eq_same_length with (length ch); [by rewrite length_map|rewrite length_map; lia|]. intros j x y _ Hx Hy. apply list_lookup_fmap_Some in Hx as (e & -> & He), Hy as (t & -> & Ht). apply edit_hash_eden. by eapply H.
Qed.
Lemma newLeaf_eden k c d : eden M root (edit_newLeaf k c d) (newLeaf k c d).
Proof. constructor. Qed.

(** The children of a record in use. *)
Lemma den_node_inv i h ch : den M (NodeRef i) (Node h ch) -> exists refs, M !! NodeRef i = Some (RNode h refs) /\ node_child (node s i) = refs /\ length refs = length ch /\ forall j r t, refs !! j = Some r -> ch !! j = Some t -> den M r t.
Proof. inversion 1; subst. eexists. split; [done|]. split_and!; [|done..]. by erewrite node_of_mem. Qed.

Lemma pointwise_old i h refs ch : below M root (NodeRef i) -> M !! NodeRef i = Some (RNode h refs) -> length refs = length ch -> (forall j r t, refs !! j = Some r -> ch !! j = Some t -> den M r t) -> pointwise M root (map Old refs) ch.
Proof.
  intros Hb Hm Hl Hd. split; [by rewrite length_map|]. intros j e t He Ht. apply list_lookup_fmap_Some in He as (r & -> & Hr). apply eden_old; [by eapply Hd|]. eapply below_child; [done..|]. by eapply list_elem_of_lookup_2.
Qed.

Lemma child_ref_den refs ch nib : length refs = 16%nat -> length ch = 16%nat -> (nib < 16)%nat -> (forall j r t, refs !! j = Some r -> ch !! j = Some t -> den M r t) -> refs !! nib = Some (child_ref refs nib) /\ den M (child_ref refs nib) (child ch nib).
Proof.
  intros Hl Hl' Hn Hd. destruct (lookup_lt_is_Some_2 refs nib ltac:(lia)) as [r Hr]. assert (E : child_ref refs nib = r) by (by apply nth_lookup_Some). rewrite E. split; [done|]. apply (Hd nib); [done|]. by apply child_lookup.
Qed.

(** A child that an update left alone stands for what it stood for. *)
Lemma same_den e r t u : same e r = true -> eden M root e t -> den M r u -> t = u.
Proof.
  destruct e as [r'| |]; cbn; [|done..]. intros ->%bool_decide_eq_true He Hd. inversion He; subst; [by inversion Hd|by eapply den_fun].
Qed.

(** ** Splitting *)

Lemma parting_range n d id k : (d <= parting n d id k <= d + n)%nat.
Proof. revert d. induction n as [|n IH]; intros d; cbn; [lia|]. destruct (Nat.eqb _ _); [specialize (IH (S d)); lia|lia]. Qed.
Lemma parting_same n d id k i : (d <= i < parting n d id k)%nat -> nibbleAt id i = nibbleAt k i.
Proof.
  revert d. induction n as [|n IH]; intros d; cbn; [lia|]. destruct (Nat.eqb_spec (nibbleAt id d) (nibbleAt k d)) as [E|]; [|lia]. intros Hi. destruct (decide (i = d)) as [->|]; [done|]. apply (IH (S d)). lia.
Qed.

Lemma split_same id c0 k c d : (d < trieDepth)%nat -> nibbleAt id d = nibbleAt k d -> parting (trieDepth - d) d id k <> trieDepth ->
  split s id c0 k c d = edit_newNode s (<[nibbleAt k d := split s id c0 k c (S d)]> no_edits).
Proof.
  intros Hd E Hp. unfold split. replace (trieDepth - d)%nat with (S (trieDepth - S d)) in * by lia. cbn [parting] in *. rewrite E, Nat.eqb_refl in *. pose proof (parting_range (trieDepth - S d) (S d) id k) as Hr. set (p := parting _ _ _ _) in *.
  rewrite (proj2 (Nat.eqb_neq _ _) Hp). replace (p - d)%nat with (S (p - S d)) by lia. cbn [seq rev]. by rewrite foldl_app.
Qed.
Lemma split_parts id c0 k c d : (d < trieDepth)%nat -> nibbleAt id d <> nibbleAt k d ->
  split s id c0 k c d = edit_newNode s (<[nibbleAt k d := edit_newLeaf k c (S d)]> (<[nibbleAt id d := edit_newLeaf id c0 (S d)]> no_edits)).
Proof.
  intros Hd Hne. unfold split. replace (trieDepth - d)%nat with (S (trieDepth - S d)) by lia. cbn [parting]. rewrite (proj2 (Nat.eqb_neq _ _) Hne), Nat.sub_diag, Nat.add_1_r. by rewrite (proj2 (Nat.eqb_neq _ _)) by lia.
Qed.

Lemma split_eden n : forall pre id c0 k c, levels n pre -> id <> k -> length id = 16%nat -> length k = 16%nat -> under pre id -> under pre k ->
  eden M root (split s id c0 k c (length pre)) (split_at n (length pre) id c0 k c).
Proof.
  induction n as [|n IH]; intros pre id c0 k c HL Hne Hid Hk Ui Uk; [destruct Hne; apply (under_inj pre); [unfold levels in HL; lia|done..]|]. assert (Hd : (length pre < trieDepth)%nat) by (unfold levels in HL; lia). cbn [split_at]. case_bool_decide as E.
  - rewrite split_same; [|done..|].
    + apply newNode_eden, pointwise_insert; [apply pointwise_none|]. rewrite <- (length_snoc pre (nibbleAt k (length pre))). apply IH; [by apply levels_snoc|done..|by apply under_snoc|by apply under_snoc].
    + intros Hp. apply Hne, nibbles_inj; [done..|]. intros i Hi. destruct (decide (i < length pre)%nat) as [Hlt|]; [destruct (lookup_lt_is_Some_2 pre i Hlt) as [x Hx]; by rewrite (Ui i x Hx), (Uk i x Hx)|]. apply (parting_same (trieDepth - length pre) (length pre)). lia.
  - rewrite split_parts by done. apply newNode_eden, pointwise_insert; [apply pointwise_insert; [apply pointwise_none|]|]; apply newLeaf_eden.
Qed.

(** ** Inserting *)

Lemma wf_node_eq n pre h ch : wf n pre (Node h ch) -> Node h ch = newNode ch /\ length ch = 16%nat.
Proof. by inversion 1. Qed.

Lemma insert_eden n : forall pre r t k c, den M r t -> below M root r -> wf n pre t -> levels n pre -> length k = 16%nat -> under pre k ->
  eden M root (insert n (length pre) s r k c) (insert_at n (length pre) t k c).
Proof.
  assert (Hleaf : forall n pre i h id c0 k c, den M (LeafRef i) (Leaf h id c0) -> below M root (LeafRef i) -> wf n pre (Leaf h id c0) -> levels n pre -> length k = 16%nat -> under pre k ->
    eden M root (if bool_decide (leaf_id (leaf s i) = k) then if bool_decide (leaf_content (leaf s i) = c) then Old (LeafRef i) else edit_newLeaf k c (length pre) else split s (leaf_id (leaf s i)) (leaf_content (leaf s i)) k c (length pre)) (insert_at n (length pre) (Leaf h id c0) k c)).
  { intros n0 pre i h id c0 k c Hd Hb Hw HL Hk Hu. inversion Hd as [|? ? ? ? Hm|]; subst. rewrite (leaf_of_mem s i h id c0 Hm). cbn [leaf_id leaf_content]. rewrite insert_leaf. inversion Hw as [|? ? ? ? Hid Hc0 Hui|]; subst. case_bool_decide as E; [subst k|].
    - case_bool_decide as Ec; [subst c; by apply eden_old|apply newLeaf_eden].
    - by apply split_eden. }
  induction n as [|n IH]; intros pre r t k c Hd Hb Hw HL Hk Hu; (destruct t as [|h id c0|h ch]; [inversion Hd; subst; rewrite insert_empty; apply newLeaf_eden|inversion Hd; subst; by apply Hleaf|]).
  - apply wf_children_of in Hw as (n' & [=] & _).
  - destruct (wf_node_eq _ _ _ _ Hw) as [Et Hl]. apply wf_children_of in Hw as (n' & [= <-] & Hch & Hcr). inversion Hd as [| |i ? refs ? Hm Hlr Hdc]; subst. cbn [insert insert_at]. rewrite (node_of_mem s i h refs Hm). cbn [node_child].
    pose proof (nibbleAt_bound k (length pre)) as Bk. set (nib := nibbleAt k (length pre)) in *. destruct (child_ref_den refs ch nib ltac:(congruence) Hl Bk Hdc) as [Hr Hdn].
    assert (Hbn : below M root (child_ref refs nib)) by (eapply below_child; [exact Hb|exact Hm|by eapply list_elem_of_lookup_2]).
    pose proof (IH (pre ++ [nib]) (child_ref refs nib) (child ch nib) k c Hdn Hbn (wf_child _ _ _ _ Hch Bk) (levels_snoc _ _ _ HL) Hk ltac:(by apply under_snoc)) as He. rewrite length_snoc in He. destruct (same _ _) eqn:Es.
    + rewrite (same_den _ _ _ _ Es He Hdn). assert (Ei : <[nib := child ch nib]> ch = ch) by (apply list_insert_id; by apply child_lookup). rewrite Ei, <- Et. by apply eden_old.
    + apply newNode_eden, pointwise_insert; [|done]. by eapply pointwise_old.
Qed.

(** ** Deleting *)

Lemma shrink_crowded d ch : crowded ch -> shrink d ch = newNode ch.
Proof.
  intros Hc. unfold shrink. fold occupied. destruct (occupied_cases ch) as [[H E]|[(i & t & Hi & Ht & E & H)|(i & j & t & u & r & Hij & Hi & Hj & Ht & Hu & E)]]; rewrite E.
  - destruct Hc as [(i & j & t & u & _ & Hi & _ & Ht & _)|(i & h & c & Hi)]; [by apply H in Hi|by apply H in Hi].
  - destruct t as [|h id c|]; [done| |done]. exfalso. destruct Hc as [(i1 & i2 & t1 & t2 & Hne & H1 & H2 & Ht1 & Ht2)|(i1 & h1 & c1 & H1)].
    + destruct (decide (i1 = i)) as [->|]; [|by apply Ht1, (H i1)]. by apply Ht2, (H i2).
    + destruct (decide (i1 = i)) as [->|Hne]; [congruence|]. by discriminate (H i1 _ H1 Hne).
  - by destruct t.
Qed.

Lemma eden_occupied e t : eden M root e t -> not_zero e = occupied t.
Proof. destruct 1 as [|r t Hd _| |]; [done|by destruct Hd|done..]. Qed.

Lemma filter_eden es ch : pointwise M root es ch -> Forall2 (eden M root) (List.filter not_zero es) (List.filter occupied ch).
Proof.
  revert ch. induction es as [|e es IH]; intros [|t ch] [Hl H]; try done. cbn [List.filter]. assert (He : eden M root e t) by (by apply (H 0%nat)). rewrite (eden_occupied e t He).
  assert (Hr : Forall2 (eden M root) (List.filter not_zero es) (List.filter occupied ch)) by (apply IH; split; [by injection Hl|intros j; apply (H (S j))]). destruct (occupied t); [by constructor|done].
Qed.

Lemma leaf_eden e h id c : eden M root e (Leaf h id c) -> edit_isLeaf e = true /\ edit_leafEntry s e = (id, c).
Proof. inversion 1 as [|? ? Hd _| |]; subst; [|done]. inversion Hd as [|? ? ? ? Hm|]; subst. cbn. by rewrite (leaf_of_mem s _ _ _ _ Hm). Qed.
Lemma node_eden e h ch : eden M root e (Node h ch) -> edit_isLeaf e = false.
Proof. inversion 1 as [|? ? Hd _| |]; subst; [|done]. by inversion Hd. Qed.

Lemma empty_eden e : eden M root e Empty -> edit_isLeaf e = false.
Proof. inversion 1 as [|? ? Hd _| |]; subst; [done|]. by inversion Hd. Qed.

Lemma shrink_eden d es ch : pointwise M root es ch ->
  eden M root (match List.filter not_zero es with [] => Old Zero | [only] => if edit_isLeaf only then let '(id, c) := edit_leafEntry s only in edit_newLeaf id c d else edit_newNode s es | _ => edit_newNode s es end) (shrink d ch).
Proof.
  intros H. unfold shrink. fold occupied. pose proof (filter_eden es ch H) as Hf. pose proof (newNode_eden es ch H) as Hn. destruct Hf as [|e t fe ft He Hf]; [constructor|]. destruct Hf as [|e2 t2 fe ft He2 Hf].
  - destruct t as [|h id c|h ch']; [by rewrite (empty_eden e He)| |by rewrite (node_eden e h ch' He)]. destruct (leaf_eden e h id c He) as [-> ->]. apply newLeaf_eden.
  - by destruct t.
Qed.

Lemma delete_eden n : forall pre r t k, den M r t -> below M root r -> wf n pre t -> levels n pre -> under pre k ->
  eden M root (delete n (length pre) s r k) (delete_at n (length pre) t k).
Proof.
  assert (Hleaf : forall n d i h id c0 k, den M (LeafRef i) (Leaf h id c0) -> below M root (LeafRef i) -> eden M root (if bool_decide (leaf_id (leaf s i) = k) then Old Zero else Old (LeafRef i)) (delete_at n d (Leaf h id c0) k)).
  { intros n0 d i h id c0 k Hd Hb. inversion Hd as [|? ? ? ? Hm|]; subst. rewrite (leaf_of_mem s i h id c0 Hm), delete_leaf. cbn [leaf_id]. case_bool_decide; [constructor|by apply eden_old]. }
  induction n as [|n IH]; intros pre r t k Hd Hb Hw HL Hu; (destruct t as [|h id c0|h ch]; [inversion Hd; subst; rewrite delete_empty; constructor|inversion Hd; subst; by apply Hleaf|]).
  - apply wf_children_of in Hw as (n' & [=] & _).
  - destruct (wf_node_eq _ _ _ _ Hw) as [Et Hl]. apply wf_children_of in Hw as (n' & [= <-] & Hch & Hcr). inversion Hd as [| |i ? refs ? Hm Hlr Hdc]; subst. cbn [delete delete_at]. rewrite (node_of_mem s i h refs Hm). cbn [node_child].
    pose proof (nibbleAt_bound k (length pre)) as Bk. set (nib := nibbleAt k (length pre)) in *. destruct (child_ref_den refs ch nib ltac:(congruence) Hl Bk Hdc) as [Hr Hdn].
    assert (Hbn : below M root (child_ref refs nib)) by (eapply below_child; [exact Hb|exact Hm|by eapply list_elem_of_lookup_2]).
    pose proof (IH (pre ++ [nib]) (child_ref refs nib) (child ch nib) k Hdn Hbn (wf_child _ _ _ _ Hch Bk) (levels_snoc _ _ _ HL) ltac:(by apply under_snoc)) as He. rewrite length_snoc in He. destruct (same _ _) eqn:Es.
    + rewrite (same_den _ _ _ _ Es He Hdn). assert (Ei : <[nib := child ch nib]> ch = ch) by (apply list_insert_id; by apply child_lookup). rewrite Ei, shrink_crowded, <- Et by done. by apply eden_old.
    + apply shrink_eden, pointwise_insert; [|done]. by eapply pointwise_old.
Qed.

(** ** Batches *)

Lemma fill_pointwise (f : list trieItem -> edited) (g : list trieItem -> trie) l : forall es ch, pointwise M root es ch -> (forall nib run, (nib, run) ∈ l -> eden M root (f run) (g run)) ->
  pointwise M root (foldl (fun ch r => <[r.1 := f r.2]> ch) es l) (foldl (fun ch r => <[r.1 := g r.2]> ch) ch l).
Proof.
  induction l as [|[nib run] l IH]; intros es ch Hp Hf; [done|]. cbn [foldl fst snd]. apply IH; [|intros nib' run' Hin; apply (Hf nib'); by right]. apply pointwise_insert; [done|]. apply (Hf nib). by left.
Qed.

Lemma buildMany_eden n : forall d items, eden M root (buildMany n d s items) (build n d items).
Proof.
  induction n as [|n IH]; intros d items; cbn [buildMany build]; [apply newLeaf_eden|]. destruct (_ =? _)%nat; [apply newLeaf_eden|]. apply newNode_eden, fill_pointwise; [apply pointwise_none|]. intros nib run _. apply IH.
Qed.

Lemma fill_steps (f : tref -> list trieItem -> edited) (g : trie -> list trieItem -> trie) refs ch l : length refs = 16%nat -> length ch = 16%nat -> (forall j r t, refs !! j = Some r -> ch !! j = Some t -> den M r t) ->
  StronglySorted lt l.*1 -> (forall nib run, (nib, run) ∈ l -> (nib < 16)%nat /\ eden M root (f (child_ref refs nib) run) (g (child ch nib) run)) ->
  forall es acc b, pointwise M root es acc -> length acc = 16%nat -> (forall nib run, (nib, run) ∈ l -> child acc nib = child ch nib) -> (b = false -> acc = ch) ->
  let '(es', b') := foldl (fill_step f refs) (es, b) l in pointwise M root es' (fill g acc l) /\ (b' = false -> fill g acc l = ch).
Proof.
  intros Hlr Hl Hd. induction l as [|[nib run] l IH]; intros Hs Hf es acc b Hp Hla Hacc Hb; [done|]. cbn [fmap list_fmap fst] in Hs. apply StronglySorted_inv in Hs as [Hs Hlt]. rewrite Forall_forall in Hlt. destruct (Hf nib run ltac:(by left)) as [Bn He].
  pose proof (Hacc nib run ltac:(by left)) as Ea. destruct (child_ref_den refs ch nib Hlr Hl Bn Hd) as [_ Hdn]. cbn [foldl fill fst snd]. fold (fill g). rewrite Ea. unfold fill_step at 2. cbn [fst snd].
  assert (Hacc' : forall nib' run', (nib', run') ∈ l -> child (<[nib := g (child ch nib) run]> acc) nib' = child ch nib').
  { intros nib' run' Hin. destruct (Hf nib' run' ltac:(by right)) as [Bn' _]. rewrite child_insert by done. rewrite bool_decide_false; [apply (Hacc nib' run'); by right|]. intros ->. assert (nib < nib)%nat; [|lia]. apply Hlt, list_elem_of_fmap. by exists (nib, run'). }
  destruct (same _ _) eqn:Es.
  - assert (Eg : g (child ch nib) run = child acc nib) by (rewrite Ea; by eapply same_den). assert (Ei : <[nib := g (child ch nib) run]> acc = acc) by (rewrite Eg; apply list_insert_id; by apply child_lookup).
    specialize (IH Hs ltac:(intros; apply Hf; by right) es acc b Hp Hla ltac:(intros; eapply Hacc; by right) Hb). rewrite Ei. exact IH.
  - apply IH; [done|intros; apply Hf; by right|by apply pointwise_insert|by rewrite length_insert|done|done].
Qed.

Lemma insertMany_single_ref n d r it : insertMany_ref n d s r [it] = insert n d s r it.1 it.2.
Proof. by destruct n. Qed.

Lemma insertMany_eden n : forall pre r t items, den M r t -> below M root r -> wf n pre t -> levels n pre -> batch pre items -> items <> [] ->
  eden M root (insertMany_ref n (length pre) s r items) (insertMany n (length pre) t items).
Proof.
  induction n as [|n IH]; intros pre r t items Hd Hb Hw HL Hbt Hne;
    (destruct (decide (length items = 1%nat)) as [E|E]; [destruct items as [|it [|]]; try done; rewrite insertMany_single, insertMany_single_ref; destruct (batch_single _ _ Hbt) as (U & L & C); by apply insert_eden|]);
    (destruct t as [|h id c0|h ch]; [inversion Hd; subst; destruct items as [|? [|]]; try done; apply buildMany_eden|inversion Hd as [|i ? ? ? Hm|]; subst; destruct items as [|? [|]]; try done; cbn [insertMany_ref insertMany]; rewrite (leaf_of_mem s i h id c0 Hm); cbn [leaf_id leaf_content]; destruct (search id _) as [lo [|it hi]]; [|case_bool_decide]; apply buildMany_eden|]).
  - apply wf_children_of in Hw as (n' & [=] & _).
  - destruct (wf_node_eq _ _ _ _ Hw) as [Et Hl]. apply wf_children_of in Hw as (n' & [= <-] & Hch & Hcr). inversion Hd as [| |i ? refs ? Hm Hlr Hdc]; subst.
    assert (Ev : insertMany (S n) (length pre) (Node h ch) items = newNode (fill (insertMany n (S (length pre))) ch (runs (length pre) items))) by (by destruct items as [|? [|]]).
    assert (Er : insertMany_ref (S n) (length pre) s (NodeRef i) items = let '(es, changed) := foldl (fill_step (insertMany_ref n (S (length pre)) s) refs) (map Old refs, false) (runs (length pre) items) in if changed then edit_newNode s es else Old (NodeRef i)).
    { destruct items as [|? [|]]; [done..|]. cbn [insertMany_ref]. rewrite (node_of_mem s i h refs Hm). done. }
    rewrite Ev, Er. assert (HLt : (length pre < trieDepth)%nat) by (unfold levels in HL; lia).
    pose proof (fill_steps (insertMany_ref n (S (length pre)) s) (insertMany n (S (length pre))) refs ch (runs (length pre) items) ltac:(congruence) Hl Hdc (batch_increasing _ _ HLt Hbt)) as Hf.
    assert (Hrun : forall nib run, (nib, run) ∈ runs (length pre) items -> (nib < 16)%nat /\ eden M root (insertMany_ref n (S (length pre)) s (child_ref refs nib) run) (insertMany n (S (length pre)) (child ch nib) run)).
    { intros nib run Hr. pose proof (runs_bound _ _ _ _ Hr) as Bn. split; [done|]. destruct (child_ref_den refs ch nib ltac:(congruence) Hl Bn Hdc) as [Hr' Hdn]. rewrite <- (length_snoc pre nib).
      apply IH; [done|eapply below_child; [exact Hb|exact Hm|by eapply list_elem_of_lookup_2]|by apply wf_child|by apply levels_snoc|by eapply batch_run|by destruct (runs_nibble _ _ _ _ Hr)]. }
    specialize (Hf Hrun (map Old refs) ch false ltac:(by eapply pointwise_old) Hl ltac:(done) ltac:(done)). destruct (foldl _ _ _) as [es [|]]; destruct Hf as [Hp Hc]; [by apply newNode_eden|]. rewrite (Hc eq_refl), <- Et. by apply eden_old.
Qed.

End Edit.

(** ** Reading *)

Lemma node_children n pre s i h ch : den (mem s) (NodeRef i) (Node h ch) -> wf n pre (Node h ch) -> exists n' refs, n = S n' /\ node_child (node s i) = refs /\ length refs = 16%nat /\ length ch = 16%nat /\
  forall j, (j < 16)%nat -> refs !! j = Some (child_ref refs j) /\ den (mem s) (child_ref refs j) (child ch j) /\ wf n' (pre ++ [j]) (child ch j).
Proof.
  intros D W. destruct (wf_node_eq _ _ _ _ W) as [_ Hl]. apply wf_children_of in W as (n' & -> & Hch & _). destruct (den_node_inv s i h ch D) as (refs & Hm & E & Hlr & Hd). exists n', refs. split_and!; [done|done|congruence|done|]. intros j Hj.
  destruct (child_ref_den s refs ch j ltac:(congruence) Hl Hj Hd). split_and!; [done|done|by apply wf_child].
Qed.

Lemma get_ref_den n : forall pre s r t k, den (mem s) r t -> wf n pre t -> get_ref n (length pre) s r k = get_at n (length pre) t k.
Proof.
  induction n as [|n IH]; intros pre s r t k D W; (destruct t as [|h id c|h ch]; [inversion D; subst; done|inversion D as [|? ? ? ? Hm|]; subst; cbn; by rewrite (leaf_of_mem s _ _ _ _ Hm)|inversion D; subst; destruct (node_children _ _ _ _ _ _ D W) as (n' & rs & En & Er & _ & _ & Hc)]); [done|].
  injection En as <-. cbn [get_ref get_at]. rewrite Er. destruct (Hc (nibbleAt k (length pre)) (nibbleAt_bound _ _)) as (_ & D' & W'). rewrite <- (length_snoc pre (nibbleAt k (length pre))). by apply IH.
Qed.

Lemma walk_refs_children {A} (visit : A -> bytes * Hash -> A * bool) n s refs ch : Forall2 (fun r t => forall a, walk_ref visit n s a r = walk_until visit a t) refs ch -> forall a, walk_refs visit n s a refs = walk_children visit a ch.
Proof. induction 1 as [|r t refs ch H _ IH]; intros a; [done|]. cbn [walk_refs walk_children]. rewrite H. destruct (walk_until visit a t) as [a' []]; [apply IH|done]. Qed.

Lemma walk_ref_node {A} (visit : A -> bytes * Hash -> A * bool) n s a i : walk_ref visit (S n) s a (NodeRef i) = walk_refs visit n s a (node_child (node s i)).
Proof. cbn [walk_ref]. revert a. by induction (node_child (node s i)) as [|c l IH]; intros a; cbn; [|destruct (walk_ref visit n s a c) as [a' []]; [apply IH|]]. Qed.
Lemma walk_until_node {A} (visit : A -> bytes * Hash -> A * bool) a h ch : walk_until visit a (Node h ch) = walk_children visit a ch.
Proof. cbn [walk_until]. revert a. by induction ch as [|c l IH]; intros a; cbn; [|destruct (walk_until visit a c) as [a' []]; [apply IH|]]. Qed.

Lemma children_pointwise {A B} (P : A -> B -> Prop) (d : A) (e : B) l l' : length l = length l' -> (forall j, (j < length l)%nat -> P (nth j l d) (nth j l' e)) -> Forall2 P l l'.
Proof.
  revert l'. induction l as [|x l IH]; intros [|y l'] Hl H; try done; constructor; [apply (H 0%nat); cbn; lia|]. apply IH; [by injection Hl|]. intros j Hj. apply (H (S j)). cbn. lia.
Qed.

Lemma walk_ref_den {A} (visit : A -> bytes * Hash -> A * bool) n : forall pre s r t a, den (mem s) r t -> wf n pre t -> walk_ref visit n s a r = walk_until visit a t.
Proof.
  induction n as [|n IH]; intros pre s r t a D W; (destruct t as [|h id c|h ch]; [inversion D; subst; done|inversion D as [|? ? ? ? Hm|]; subst; cbn; by rewrite (leaf_of_mem s _ _ _ _ Hm)|inversion D; subst; destruct (node_children _ _ _ _ _ _ D W) as (n' & rs & En & Er & Hlr & Hlc & Hc)]); [done|].
  injection En as <-. rewrite walk_ref_node, walk_until_node, Er. apply walk_refs_children, (children_pointwise _ Zero Empty); [congruence|]. intros j Hj a'. destruct (Hc j ltac:(lia)) as (_ & D' & W'). by eapply IH.
Qed.

Lemma walkAfter_ref_den {A} (visit : A -> bytes * Hash -> A * bool) key after n : forall pre s r t a, den (mem s) r t -> wf n pre t -> walkAfter_ref visit n (length pre) key after s a r = walk_after visit n (length pre) key after a t.
Proof.
  induction n as [|n IH]; intros pre s r t a D W; (destruct t as [|h id c|h ch]; [inversion D; subst; done|inversion D as [|? ? ? ? Hm|]; subst; cbn; by rewrite (leaf_of_mem s _ _ _ _ Hm)|inversion D; subst; destruct (node_children _ _ _ _ _ _ D W) as (n' & rs & En & Er & Hlr & Hlc & Hc)]); [done|].
  injection En as <-. cbn [walkAfter_ref walk_after]. rewrite Er. set (nib := nibbleAt key (length pre)). destruct (Hc nib (nibbleAt_bound _ _)) as (_ & D' & W'). rewrite <- (length_snoc pre nib), (IH _ _ _ _ _ D' W'). destruct (walk_after _ _ _ _ _ _ _) as [a' []]; [|done].
  apply walk_refs_children, Forall2_drop, (children_pointwise _ Zero Empty); [congruence|]. intros j Hj a0. destruct (Hc j ltac:(lia)) as (_ & D1 & W1). by eapply walk_ref_den.
Qed.

End SlabEdit.
