(* ===== verification/SlabMemory.v ===== *)
(** Reference counting keeps the records of every tree in use, and only those.

    [counted] is the invariant of a slab between two operations: counts are the references
    from records and from outside, no record in use refers to a freed one, and every record
    in use is the root of a well-formed trie. *)

From S2P Require Import Prelude Primitives Sha256 TrieHash Trie TrieCorrect TrieWalk TrieBulk TreeSlab SlabEdit.
Import Primitives TrieHash Trie TrieCorrect TrieWalk TrieBulk TreeSlab SlabEdit.

Module SlabMemory.

#[local] Opaque trieDepth.

(** ** Pools *)

Definition pool_ok {R} (p : slabPool R) : Prop :=
  NoDup (free p) /\ 0 <= used p <= slabMaxIndex /\ (forall i, 1 <= i < used p <-> is_Some (recs p !! i) \/ i ∈ free p).

(** How many more records fit. *)
Definition avail {R} (p : slabPool R) : Z := zlen (free p) + (slabMaxIndex - Z.max 1 (used p)).

Lemma live_lookup {R} (p : slabPool R) i : live p !! i = if decide (i ∈ free p) then None else recs p !! i.
Proof.
  unfold live. case_decide as H.
  - apply map_lookup_filter_None. right. intros x _ Hn. by apply Hn.
  - apply option_eq. intros x. rewrite map_lookup_filter_Some. naive_solver.
Qed.

Lemma no_pool_ok {R} : pool_ok (@no_pool R).
Proof. split_and!; [constructor|done|done|]. intros i. cbn. rewrite lookup_empty, elem_of_nil. split; [lia|]. by intros [[? [=]]|]. Qed.

Lemma alloc_avail {R} (p : slabPool R) : 0 < avail p -> is_Some (alloc p).
Proof. unfold avail, alloc, reserve, zlen. destruct (free p) as [|i l]; [|done]. intros H. rewrite (proj2 (Z.ltb_ge _ _)); [done|]. cbn in H. destruct (Z.eqb_spec (used p) 0); lia. Qed.

(** A record written into the slot that is handed out. *)
Lemma alloc_write {R} (p : slabPool R) i p' r : pool_ok p -> alloc p = Some (i, p') ->
  live p !! i = None /\ pool_ok (write i r p') /\ live (write i r p') = <[i := r]> (live p) /\ counts p' = counts p /\ avail (write i r p') = avail p - 1.
Proof.
  intros (Hn & Hu & Hr) Ha. unfold alloc in Ha. destruct (free p) as [|i0 l] eqn:Ef; [|injection Ha as -> <-].
  - unfold reserve in Ha. destruct (_ <? _) eqn:E; [done|]. injection Ha as <- <-. apply Z.ltb_ge in E. set (st := if used p =? 0 then 1 else used p) in *. assert (Hst : st = Z.max 1 (used p) /\ (used p = 0 \/ st = used p)) by (subst st; destruct (Z.eqb_spec (used p) 0); lia).
    assert (Hno : recs p !! st = None) by (apply eq_None_not_Some; intros Hs; assert (1 <= st < used p) by (apply Hr; by left); lia). split_and!.
    + by rewrite live_lookup, Ef, Hno, decide_False by apply not_elem_of_nil.
    + split_and!; cbn; [by rewrite Ef; constructor|lia|lia|]. intros i. rewrite Ef, lookup_insert_is_Some'. specialize (Hr i). rewrite elem_of_nil in *. split; [intros Hi; destruct (decide (i = st)) as [->|]; [by left; left|left; right; destruct (proj1 Hr); [lia|done|done]]|intros [[->|Hi]|[]]; [lia|]; assert (1 <= i < used p) by (apply Hr; by left); lia].
    + apply map_eq. intros j. rewrite live_lookup. cbn [free write recs]. rewrite Ef, decide_False by apply not_elem_of_nil. destruct (decide (st = j)) as [<-|]; [by rewrite !lookup_insert_eq|]. rewrite !lookup_insert_ne, live_lookup, Ef, decide_False by (done || apply not_elem_of_nil). done.
    + done.
    + unfold avail, zlen. cbn. rewrite Ef. lia.
  - apply NoDup_cons in Hn as [Hni Hn]. split_and!.
    + rewrite live_lookup, Ef, decide_True by (by left). done.
    + split_and!; cbn; [done|lia|lia|]. intros j. rewrite Hr, lookup_insert_is_Some', elem_of_cons. naive_solver.
    + apply map_eq. intros j. rewrite live_lookup. cbn [free write recs]. destruct (decide (i = j)) as [<-|]; [by rewrite !lookup_insert_eq, decide_False|]. rewrite !lookup_insert_ne, live_lookup, Ef by done. repeat case_decide; set_solver.
    + done.
    + unfold avail, zlen. cbn. rewrite Ef. cbn. lia.
Qed.

Lemma alloc_room {R} (p : slabPool R) i p' : 0 <= used p <= slabMaxIndex -> alloc p = Some (i, p') -> 1 <= avail p /\ avail p' = avail p - 1 /\ 0 <= used p' <= slabMaxIndex.
Proof.
  intros Hu Ha. unfold alloc, reserve in Ha. unfold avail, zlen. assert (1 <= slabMaxIndex) by done. destruct (free p) as [|i0 l] eqn:Ef; [|injection Ha as <- <-; cbn; lia].
  destruct (_ <? _) eqn:E; [done|]. injection Ha as <- <-. apply Z.ltb_ge in E. revert E. cbn [free used]. destruct (Z.eqb_spec (used p) 0); cbn [length]; lia.
Qed.

Lemma give_back_live {R} (p : slabPool R) i : pool_ok p -> is_Some (live p !! i) -> pool_ok (give_back i p) /\ live (give_back i p) = base.delete i (live p) /\ avail (give_back i p) = avail p + 1.
Proof.
  intros (Hn & Hu & Hr) [r Hl]. rewrite live_lookup in Hl. case_decide as Hi; [done|]. split_and!.
  - split_and!; cbn; [by constructor|lia|lia|]. intros j. rewrite Hr, elem_of_cons. split; [naive_solver|]. intros [?|[->|?]]; [by left|left; by eexists|by right].
  - apply map_eq. intros j. rewrite live_lookup. cbn [free give_back recs]. destruct (decide (i = j)) as [<-|]; [rewrite lookup_delete_eq, decide_True; [done|by left]|]. rewrite lookup_delete_ne, live_lookup by done. repeat case_decide; set_solver.
  - unfold avail, zlen. cbn. lia.
Qed.

Lemma set_count_pool {R} (p : slabPool R) i n : (pool_ok (set_count i n p) <-> pool_ok p) /\ live (set_count i n p) = live p /\ avail (set_count i n p) = avail p.
Proof. done. Qed.
Lemma count_set {R} (p : slabPool R) i n j : count (set_count i n p) j = if bool_decide (i = j) then n else count p j.
Proof. unfold count. cbn. case_bool_decide; [subst; by rewrite lookup_insert_eq|by rewrite lookup_insert_ne]. Qed.

(** ** References *)

Definition kids (r : record) : list tref := match r with RNode _ ch => ch | RLeaf _ _ _ => [] end.

(** The references that records hold. *)
Definition edges (M : gmap tref record) : list tref := concat (map (fun e => kids e.2) (map_to_list M)).

Definition occ (r : tref) (l : list tref) : Z := Z.of_nat (count_occ tref_eq_dec l r).
Definition cnt (s : trieSlab) (r : tref) : Z := match r with Zero => 0 | NodeRef i => count (nodes s) i | LeafRef i => count (leaves s) i end.
Definition present (M : gmap tref record) (r : tref) : Prop := r = Zero \/ is_Some (M !! r).

#[global] Instance occ_perm r : Proper ((≡ₚ) ==> (=)) (occ r).
Proof. intros l l' H. unfold occ. f_equal. by apply Permutation_count_occ. Qed.
Lemma occ_app r l l' : occ r (l ++ l') = occ r l + occ r l'.
Proof. unfold occ. rewrite count_occ_app. lia. Qed.
Lemma occ_cons r x l : occ r (x :: l) = occ r l + if bool_decide (x = r) then 1 else 0.
Proof. unfold occ. case_bool_decide; [subst; rewrite count_occ_cons_eq by done; lia|rewrite count_occ_cons_neq by done; lia]. Qed.
Lemma occ_pos r l : 0 <= occ r l.
Proof. unfold occ. lia. Qed.
Lemma occ_elem r l : r ∈ l <-> 0 < occ r l.
Proof. unfold occ. rewrite list_elem_of_In, (count_occ_In tref_eq_dec). lia. Qed.

Lemma edges_insert M r x : M !! r = None -> edges (<[r := x]> M) ≡ₚ kids x ++ edges M.
Proof. intros H. unfold edges. by rewrite (map_to_list_insert M r x H). Qed.
Lemma edges_delete M r x : M !! r = Some x -> edges M ≡ₚ kids x ++ edges (base.delete r M).
Proof. intros H. rewrite <- (insert_delete_id M r x H) at 1. apply edges_insert, lookup_delete_eq. Qed.
Lemma elem_of_edges M c : c ∈ edges M <-> exists r x, M !! r = Some x /\ c ∈ kids x.
Proof.
  unfold edges. rewrite list_elem_of_In, in_concat. split.
  - intros (l & ([r x] & <- & Hin)%in_map_iff & Hc). exists r, x. apply list_elem_of_In in Hc, Hin. by apply elem_of_map_to_list in Hin.
  - intros (r & x & Hr & Hc). exists (kids x). split; [|by apply list_elem_of_In]. apply in_map_iff. exists (r, x). split; [done|]. by apply list_elem_of_In, elem_of_map_to_list.
Qed.

(** The references are those of the list [X], one for each tree handle, and those of the
    records; the records of [P] may have no reference yet. *)
Record counted (s : trieSlab) (X P : list tref) : Prop := mkCounted {
  inv_nodes : pool_ok (nodes s);
  inv_leaves : pool_ok (leaves s);
  inv_closed : forall r x c, mem s !! r = Some x -> c ∈ kids x -> present (mem s) c;
  inv_refs : forall r, r ∈ X -> present (mem s) r;
  inv_count : forall r, r <> Zero -> cnt s r = occ r (X ++ edges (mem s));
  inv_den : forall r x, mem s !! r = Some x -> exists n pre t, den (mem s) r t /\ wf n pre t /\ (n <= trieDepth)%nat;
  inv_held : forall r x, mem s !! r = Some x -> r ∈ P \/ cnt s r <> 0 }.

#[global] Instance counted_perm s : Proper ((≡ₚ) ==> (=) ==> iff) (counted s).
Proof.
  assert (H : forall X X' P, X ≡ₚ X' -> counted s X P -> counted s X' P); [|intros X X' HX P _ <-; split; by apply H].
  intros X X' P HX [H1 H2 H3 H4 H5 H6 H7]. split; [done..| | |done|done]; [intros r; rewrite <- HX; apply H4|intros r; rewrite <- HX; apply H5].
Qed.

Lemma den_present M r t : den M r t -> present M r.
Proof. destruct 1; [by left|right; by eexists..]. Qed.

(** Nothing refers to a record that is not in use. *)
Lemma counted_absent s X P r : counted s X P -> mem s !! r = None -> r <> Zero -> cnt s r = 0 /\ occ r X = 0 /\ occ r (edges (mem s)) = 0.
Proof.
  intros H Hr Hz. rewrite (inv_count _ _ _ H) by done. rewrite occ_app. assert (H1 : ~ 0 < occ r X).
  { intros Hin%occ_elem. destruct (inv_refs _ _ _ H r Hin) as [|[x Hx]]; congruence. }
  assert (H2 : ~ 0 < occ r (edges (mem s))). { intros (r' & x & Hx & Hin)%occ_elem%elem_of_edges. destruct (inv_closed _ _ _ H r' x r Hx Hin) as [|[y Hy]]; congruence. }
  pose proof (occ_pos r X). pose proof (occ_pos r (edges (mem s))). lia.
Qed.

Lemma counted_weaken s X p P : counted s X P -> counted s X (p :: P).
Proof. intros [H1 H2 H3 H4 H5 H6 H7]. split; [done..|]. intros r x Hx. destruct (H7 r x Hx); [left; by right|by right]. Qed.

Lemma counted_start : counted newTrieSlab [] [].
Proof.
  assert (E : mem newTrieSlab = ∅) by (apply map_eq; intros [|i|i]; rewrite lookup_empty; [apply mem_zero|rewrite mem_node|rewrite mem_leaf]; by rewrite live_lookup; cbn; rewrite lookup_empty; case_decide).
  split; rewrite ?E; [apply no_pool_ok|apply no_pool_ok|intros r x c; by rewrite lookup_empty|intros r Hr; by apply not_elem_of_nil in Hr| |intros r x; by rewrite lookup_empty|intros r x; by rewrite lookup_empty]. by intros [|i|i].
Qed.

(** ** Counting up *)

Lemma mem_retain r s : mem (retain r s) = mem s.
Proof. by destruct r. Qed.
Lemma cnt_retain r s r' : r' <> Zero -> cnt (retain r s) r' = cnt s r' + if bool_decide (r = r') then 1 else 0.
Proof.
  destruct r as [|i|i], r' as [|j|j]; intros Hz; cbn [cnt retain nodes leaves]; rewrite ?count_set; try done; try (rewrite (bool_decide_false (_ = _)) by congruence; lia).
  - repeat case_bool_decide; simplify_eq; lia.
  - repeat case_bool_decide; simplify_eq; lia.
Qed.
Lemma pools_retain r s : pending (retain r s) = pending s /\ avail (nodes (retain r s)) = avail (nodes s) /\ avail (leaves (retain r s)) = avail (leaves s).
Proof. by destruct r. Qed.

Lemma counted_retain s X r P : counted s X (r :: P) -> present (mem s) r -> counted (retain r s) (r :: X) P.
Proof.
  intros [H1 H2 H3 H4 H5 H6 H7] Hr. split; rewrite ?mem_retain; [by destruct r; cbn|by destruct r; cbn|done| | |done|].
  - intros r' [->|Hin]%elem_of_cons; [done|by apply H4].
  - intros r' Hz. rewrite cnt_retain, H5 by done. cbn [app]. by rewrite occ_cons.
  - intros r' x Hx. assert (Hz : r' <> Zero) by (intros ->; by rewrite mem_zero in Hx). rewrite cnt_retain, H5 by done. pose proof (occ_pos r' (X ++ edges (mem s))). case_bool_decide; [lia|]. destruct (H7 r' x Hx) as [[->|Hc]%elem_of_cons|Hc]; [done|by left|]. right. rewrite H5 in Hc by done. lia.
Qed.

(** ** Counting down *)

(** A reference less, and a slot given back. *)
Definition lower (r : tref) (s : trieSlab) : trieSlab :=
  match r with
  | Zero => s
  | LeafRef i => mkSlab (nodes s) (set_count i (count (leaves s) i - 1) (leaves s)) (pending s)
  | NodeRef i => mkSlab (set_count i (count (nodes s) i - 1) (nodes s)) (leaves s) (pending s)
  end.
Definition unlink (r : tref) (s : trieSlab) : trieSlab :=
  match r with
  | Zero => s
  | LeafRef i => mkSlab (nodes s) (give_back i (leaves s)) (pending s)
  | NodeRef i => mkSlab (give_back i (nodes s)) (leaves s) (pending s)
  end.
Definition release_refs (n : nat) (l : list tref) (s : trieSlab) : option trieSlab := foldl (fun s c => s ← s; release n c s) (Some s) l.

Lemma release_node n i s : release (S n) (NodeRef i) s =
  if cnt s (NodeRef i) =? 0 then None else if cnt s (NodeRef i) - 1 =? 0 then release_refs n (node_child (node s i)) (unlink (NodeRef i) (lower (NodeRef i) s)) else Some (lower (NodeRef i) s).
Proof. done. Qed.
Lemma release_leaf n i s : release n (LeafRef i) s =
  if cnt s (LeafRef i) =? 0 then None else if cnt s (LeafRef i) - 1 =? 0 then Some (unlink (LeafRef i) (lower (LeafRef i) s)) else Some (lower (LeafRef i) s).
Proof. destruct n; cbn; by repeat destruct (_ =? _). Qed.
Lemma release_zero n s : release n Zero s = Some s.
Proof. by destruct n. Qed.

Lemma mem_lower r s : mem (lower r s) = mem s.
Proof. by destruct r. Qed.
Lemma cnt_lower r s r' : r' <> Zero -> cnt (lower r s) r' = cnt s r' - if bool_decide (r = r') then 1 else 0.
Proof.
  destruct r as [|i|i], r' as [|j|j]; intros Hz; cbn [cnt lower nodes leaves]; rewrite ?count_set; try done; try (rewrite (bool_decide_false (_ = _)) by congruence; lia); repeat case_bool_decide; simplify_eq; lia.
Qed.

(** A slab with fewer records and at least as much room. *)
Definition shrinks (s s' : trieSlab) : Prop :=
  mem s' ⊆ mem s /\ pending s' = pending s /\ avail (nodes s) <= avail (nodes s') /\ avail (leaves s) <= avail (leaves s').

#[global] Instance shrinks_preorder : PreOrder shrinks.
Proof. split; [intros s; by split_and!|]. intros s1 s2 s3 (A1 & B1 & C1 & D1) (A2 & B2 & C2 & D2). split_and!; [by etrans|congruence|lia|lia]. Qed.

Lemma unlink_spec r s x : pool_ok (nodes s) -> pool_ok (leaves s) -> mem s !! r = Some x ->
  pool_ok (nodes (unlink r s)) /\ pool_ok (leaves (unlink r s)) /\ mem (unlink r s) = base.delete r (mem s) /\ shrinks s (unlink r s) /\ forall r', cnt (unlink r s) r' = cnt s r'.
Proof.
  intros Hn Hl Hx. assert (Hd : forall s', mem s' = base.delete r (mem s) -> mem s' ⊆ mem s) by (intros s' ->; apply delete_subseteq). destruct r as [|i|i]; [by rewrite mem_zero in Hx|rewrite mem_node in Hx|rewrite mem_leaf in Hx]; apply fmap_Some in Hx as (y & Hy & ->).
  - destruct (give_back_live (nodes s) i Hn ltac:(by eexists)) as (P & L & A). assert (E : mem (unlink (NodeRef i) s) = base.delete (NodeRef i) (mem s)).
    { apply map_eq. intros [|j|j]; [by rewrite lookup_delete_ne, !mem_zero|rewrite mem_node|by rewrite lookup_delete_ne, !mem_leaf by done]. cbn [unlink nodes]. rewrite L. destruct (decide (i = j)) as [<-|]; [by rewrite !lookup_delete_eq|]. by rewrite !lookup_delete_ne, mem_node by congruence. }
    split_and!; [done|done|done|split_and!; [by apply Hd|done|cbn; lia|cbn; lia]|by intros []].
  - destruct (give_back_live (leaves s) i Hl ltac:(by eexists)) as (P & L & A). assert (E : mem (unlink (LeafRef i) s) = base.delete (LeafRef i) (mem s)).
    { apply map_eq. intros [|j|j]; [by rewrite lookup_delete_ne, !mem_zero|by rewrite lookup_delete_ne, !mem_node by done|rewrite mem_leaf]. cbn [unlink leaves]. rewrite L. destruct (decide (i = j)) as [<-|]; [by rewrite !lookup_delete_eq|]. by rewrite !lookup_delete_ne, mem_leaf by congruence. }
    split_and!; [done|done|done|split_and!; [by apply Hd|done|cbn; lia|cbn; lia]|by intros []].
Qed.

(** A trie survives when its root does, and no record left refers to one that is gone. *)
Lemma den_shrink M M' r t : M' ⊆ M -> (forall r x c, M' !! r = Some x -> c ∈ kids x -> present M' c) -> den M r t -> present M' r -> den M' r t.
Proof.
  intros HM Hc. induction 1 as [|i h id c H|i h refs ch H Hl Hd IH]; intros Hp; [constructor| |]; (destruct Hp as [?|[x Hx]]; [done|]; assert (E : M !! _ = Some x) by (by eapply lookup_weaken); rewrite H in E; injection E as <-); [by constructor|].
  eapply den_node; [done..|]. intros j r t Hj Ht. eapply IH; [done..|]. apply (Hc _ _ r Hx). by eapply list_elem_of_lookup_2.
Qed.

Lemma counted_lower s X r : counted s (r :: X) [] -> cnt s r <> 1 -> counted (lower r s) X [].
Proof.
  intros [H1 H2 H3 H4 H5 H6 H7] Hr. split; rewrite ?mem_lower; [by destruct r|by destruct r|done|intros; apply H4; by right| |done|].
  - intros r' Hz. rewrite cnt_lower, H5 by done. cbn [app]. rewrite occ_cons. lia.
  - intros r' x Hx. right. assert (Hz : r' <> Zero) by (intros ->; by rewrite mem_zero in Hx). rewrite cnt_lower by done. destruct (H7 r' x Hx) as [?%not_elem_of_nil|Hc]; [done|]. case_bool_decide; [subst; lia|lia].
Qed.

Lemma counted_unlink s X r x : counted s (r :: X) [] -> mem s !! r = Some x -> cnt s r = 1 ->
  counted (unlink r (lower r s)) (kids x ++ X) [] /\ shrinks s (unlink r (lower r s)).
Proof.
  intros H Hx Hc. pose proof H as [H1 H2 H3 H4 H5 H6 H7]. assert (Hz : r <> Zero) by (intros ->; by rewrite mem_zero in Hx).
  destruct (unlink_spec r (lower r s) x) as (U1 & U2 & U3 & U4 & U5); [by destruct r|by destruct r|by rewrite mem_lower|]. rewrite mem_lower in U3. pose proof (edges_delete _ _ _ Hx) as He.
  assert (H0 : occ r X = 0 /\ occ r (edges (mem s)) = 0) by (pose proof (H5 r Hz) as E; cbn [app] in E; rewrite occ_cons, occ_app, bool_decide_true in E by done; pose proof (occ_pos r X); pose proof (occ_pos r (edges (mem s))); lia).
  assert (Hp : forall c, present (mem s) c -> c ∈ X \/ c ∈ edges (mem s) -> present (base.delete r (mem s)) c).
  { intros c [->|Hc'] Hin; [by left|]. right. rewrite lookup_delete_ne; [done|]. intros <-. rewrite !occ_elem in Hin. lia. }
  assert (Hcl : forall r' x' c, base.delete r (mem s) !! r' = Some x' -> c ∈ kids x' -> present (base.delete r (mem s)) c).
  { intros r' x' c [_ Hr']%lookup_delete_Some Hin. apply Hp; [by eapply H3|]. right. apply elem_of_edges. by exists r', x'. }
  split; [|by etrans; [|exact U4]; destruct r; cbn]. split; rewrite ?U3; [done|done|exact Hcl| | | |].
  - intros r' [Hin|Hin]%elem_of_app; (apply Hp; [|]); [by eapply H3|right; apply elem_of_edges; by exists r, x|apply H4; by right|by left].
  - intros r' Hz'. rewrite U5, cnt_lower, H5 by done. cbn [app]. rewrite occ_cons, !occ_app, He, !occ_app. lia.
  - intros r' x' Hr'. pose proof Hr' as [_ Hr'']%lookup_delete_Some. destruct (H6 r' x' Hr'') as (n & pre & t & D & W & L). exists n, pre, t. split; [|done]. apply (den_shrink (mem s)); [apply delete_subseteq|exact Hcl|done|right; by eexists].
  - intros r' x' [Hne Hr']%lookup_delete_Some. right. rewrite U5, cnt_lower, bool_decide_false by (done || intros ->; by rewrite mem_zero in Hr'). destruct (H7 r' x' Hr') as [?%not_elem_of_nil|]; [done|lia].
Qed.

Lemma wf_more n m pre t : wf n pre t -> (n <= m)%nat -> wf m pre t.
Proof. intros H. revert m. induction H as [|n pre id c|n pre ch Hl Hc Hw IH]; intros m Hm; [constructor|by constructor|]. destruct m as [|m]; [lia|]. constructor; [done|done|]. intros i t Ht. apply (IH i t Ht). lia. Qed.

(** Releasing a reference succeeds, and frees what no other reference needs. *)
Definition releases (n : nat) : Prop := forall r t pre s X, counted s (r :: X) [] -> den (mem s) r t -> wf n pre t ->
  exists s', release n r s = Some s' /\ counted s' X [] /\ shrinks s s'.

Lemma release_refs_spec n l : releases n -> forall s X, counted s (l ++ X) [] -> (forall c, c ∈ l -> exists t pre, den (mem s) c t /\ wf n pre t) ->
  exists s', release_refs n l s = Some s' /\ counted s' X [] /\ shrinks s s'.
Proof.
  intros Hn. induction l as [|c l IH]; intros s X H Hl; [by exists s|]. destruct (Hl c ltac:(by left)) as (t & pre & D & W). destruct (Hn c t pre s (l ++ X) H D W) as (s1 & E1 & C1 & S1). unfold release_refs. cbn [foldl mbind option_bind]. rewrite E1. fold (release_refs n l s1).
  destruct (IH s1 X C1) as (s2 & E2 & C2 & S2).
  { intros c' Hc'. destruct (Hl c' ltac:(by right)) as (t' & pre' & D' & W'). exists t', pre'. split; [|done]. apply (den_shrink (mem s)); [apply S1|apply C1|done|]. apply (inv_refs _ _ _ C1). apply elem_of_app. by left. }
  exists s2. split_and!; [done|done|by etrans].
Qed.

Lemma counted_own s X r : counted s (r :: X) [] -> r <> Zero -> exists x, mem s !! r = Some x /\ 1 <= cnt s r.
Proof.
  intros H Hz. destruct (inv_refs _ _ _ H r ltac:(by left)) as [|[x Hx]]; [done|]. exists x. split; [done|]. rewrite (inv_count _ _ _ H) by done. cbn [app]. rewrite occ_cons, bool_decide_true by done. pose proof (occ_pos r (X ++ edges (mem s))). lia.
Qed.

Lemma shrinks_lower r s : shrinks s (lower r s).
Proof. split_and!; [by rewrite mem_lower|by destruct r..]. Qed.

Lemma counted_zero s X P : counted s (Zero :: X) P <-> counted s X P.
Proof.
  split; intros [H1 H2 H3 H4 H5 H6 H7]; (split; [done..| | |done|done]).
  - intros r Hr. apply H4. by right.
  - intros r Hz. rewrite H5 by done. cbn [app]. rewrite occ_cons, bool_decide_false by done. lia.
  - intros r [->|Hr]%elem_of_cons; [by left|by apply H4].
  - intros r Hz. rewrite H5 by done. cbn [app]. rewrite occ_cons, bool_decide_false by done. lia.
Qed.

Lemma release_spec n : releases n.
Proof.
  induction n as [|n IH]; intros r t pre s X H D W; (destruct (decide (r = Zero)) as [->|Hz]; [rewrite release_zero; exists s; split; [done|]; split; [by apply counted_zero|done]|]);
    destruct (counted_own s X r H Hz) as (x & Hx & Hc); (destruct r as [|i|i]; [done| |rewrite release_leaf, (proj2 (Z.eqb_neq _ _)) by lia; destruct (Z.eqb_spec (cnt s (LeafRef i) - 1) 0) as [E|E]; [destruct (counted_unlink s X (LeafRef i) x H Hx ltac:(lia)) as [C S]; eexists; split; [done|]; split; [|done]; rewrite mem_leaf in Hx; apply fmap_Some in Hx as (y & _ & ->); done|eexists; split; [done|]; split; [apply counted_lower; [done|lia]|apply shrinks_lower]]]).
  - inversion D; subst. inversion W.
  - rewrite release_node, (proj2 (Z.eqb_neq _ _)) by lia. destruct (Z.eqb_spec (cnt s (NodeRef i) - 1) 0) as [E|E]; [|eexists; split; [done|]; split; [apply counted_lower; [done|lia]|apply shrinks_lower]].
    destruct (counted_unlink s X (NodeRef i) x H Hx ltac:(lia)) as [C S]. inversion D as [| |? h refs ch Hm Hl Hd]; subst. rewrite Hm in Hx. injection Hx as <-. rewrite (node_of_mem s i h refs Hm). cbn [node_child kids] in *. apply wf_children_of in W as (n' & [= <-] & [Hl' Hch] & _).
    destruct (release_refs_spec n refs IH _ X C) as (s' & E' & C' & S'); [|exists s'; split_and!; [done|done|by etrans]].
    intros c [j Hj]%list_elem_of_lookup. destruct (lookup_lt_is_Some_2 ch j ltac:(rewrite <- Hl; by eapply lookup_lt_Some)) as [u Hu]. exists u, (pre ++ [j]). split; [|by apply Hch]. apply (den_shrink (mem s)); [apply S|apply C|by eapply Hd|]. apply (inv_refs _ _ _ C). apply elem_of_app. left. by eapply list_elem_of_lookup_2.
Qed.

(** ** Queued roots *)

Lemma counted_den s X P r : counted s X P -> present (mem s) r -> exists pre t, den (mem s) r t /\ wf trieDepth pre t.
Proof. intros H [->|[x Hx]]; [exists [], Empty; split; constructor|]. destruct (inv_den _ _ _ H r x Hx) as (n & pre & t & D & W & L). exists pre, t. split; [done|by eapply wf_more]. Qed.

Lemma release_all_spec l s X : counted s (l ++ X) [] -> exists s', release_all l s = Some s' /\ counted s' X [] /\ shrinks s s'.
Proof.
  intros H. change (release_all l s) with (release_refs (S trieDepth) l s). apply release_refs_spec; [apply release_spec|done|]. intros c Hc. destruct (counted_den _ _ _ c H) as (pre & t & D & W); [apply (inv_refs _ _ _ H), elem_of_app; by left|]. exists t, pre. split; [done|]. eapply wf_more; [done|lia].
Qed.

(** The queue is no part of the records. *)
Lemma counted_queue ns ls q q' X P : counted (mkSlab ns ls q) X P -> counted (mkSlab ns ls q') X P.
Proof. intros [H1 H2 H3 H4 H5 H6 H7]. by split. Qed.

(** A slab with the handles of [X] open and the queued roots not yet released. *)
Definition sound (s : trieSlab) (X : list tref) : Prop := counted s (pending s ++ X) [].

(** Fewer records, more room, and any prefix of the queue. *)
Definition drains (s s' : trieSlab) : Prop := mem s' ⊆ mem s /\ avail (nodes s) <= avail (nodes s') /\ avail (leaves s) <= avail (leaves s').

Lemma drain_spec n : forall limit s X, sound s X -> (length (pending s) < n)%nat -> exists s', drain n limit s = Some s' /\ sound s' X /\ drains s s' /\ (limit < 0 -> pending s' = []).
Proof.
  induction n as [|n IH]; intros limit s X H Hn; [lia|]. cbn [drain]. destruct (Z.eqb_spec limit 0) as [El|El]; [exists s; split_and!; [done|done|done..|lia]|]. cbn [orb]. destruct (Nat.eqb_spec (length (pending s)) 0) as [Ep|Ep]; [exists s; split_and!; [done|done|done..|intros _; by apply nil_length_inv]|].
  set (k := Z.min _ _). assert (Hk : 1 <= k <= zlen (pending s)) by (unfold k, zlen; destruct (_ && _) eqn:E; [apply andb_prop in E as [?%Z.ltb_lt ?%Z.ltb_lt]|]; lia). unfold zlen in Hk. set (keep := (length (pending s) - Z.to_nat k)%nat).
  destruct (release_all_spec (drop keep (pending s)) (mkSlab (nodes s) (leaves s) (take keep (pending s))) (take keep (pending s) ++ X)) as (s1 & E1 & C1 & S1 & P1 & A1 & B1).
  { unfold sound in H. rewrite <- (take_drop keep (pending s)) in H at 1. rewrite <- app_assoc, (Permutation_app_comm (take _ _)), <- app_assoc, (Permutation_app_comm X) in H. destruct s. by eapply counted_queue. }
  rewrite E1. cbn [mbind option_bind]. cbn [pending] in P1. destruct (IH (if 0 <? limit then limit - k else limit) s1 X) as (s2 & E2 & C2 & (M2 & A2 & B2) & P2); [unfold sound; by rewrite P1|rewrite P1, length_take; lia|].
  exists s2. split_and!; [done|done|split_and!; [by etrans|cbn in A1; lia|cbn in B1; lia]|]. intros Hlim. apply P2. destruct (Z.ltb_spec 0 limit); lia.
Qed.

End SlabMemory.
