(* ===== verification/SlabPlace.v ===== *)
(** Placing the records of an update: the slab then holds the trie that the update made, and
    every trie it held before. *)

From S2P Require Import Prelude Primitives Sha256 TrieHash Trie TrieCorrect TrieWalk TrieBulk TreeSlab SlabEdit SlabMemory.
Import Primitives TrieHash Trie TrieCorrect TrieWalk TrieBulk TreeSlab SlabEdit SlabMemory.

Module SlabPlace.

#[local] Opaque trieDepth.

(** ** Edits as the slab changes *)

Lemma pool_below_mono M M' root r : M ⊆ M' -> below M root r -> below M' root r.
Proof. intros HM. induction 1 as [|i h refs r Hb IH Hm Hr]; [constructor|]. eapply below_child; [done| |done]. by eapply lookup_weaken. Qed.
Lemma eden_mono M M' root e t : M ⊆ M' -> eden M root e t -> eden M' root e t.
Proof. intros HM. induction 1 as [|r t Hd Hb|h id c|h es ch Hl He IH]; [constructor|constructor; [by eapply den_mono|by eapply pool_below_mono]|constructor|by constructor]. Qed.

(** An edit of a tree that is held outlives every other tree. *)
Lemma below_shrink M M' root r : M' ⊆ M -> (forall r x c, M' !! r = Some x -> c ∈ kids x -> present M' c) -> present M' root -> below M root r -> below M' root r /\ present M' r.
Proof.
  intros HM Hc Hp. induction 1 as [|i h refs r Hb [IH1 IH2] Hm Hr]; [by split; [constructor|]|]. destruct IH2 as [?|[x Hx]]; [done|]. assert (E : M !! NodeRef i = Some x) by (by eapply lookup_weaken). rewrite Hm in E. injection E as <-. split; [by eapply below_child|]. by apply (Hc _ _ r Hx).
Qed.
Lemma eden_shrink M M' root e t : M' ⊆ M -> (forall r x c, M' !! r = Some x -> c ∈ kids x -> present M' c) -> present M' root -> eden M root e t -> eden M' root e t.
Proof.
  intros HM Hc Hp. induction 1 as [|r t Hd Hb|h id c|h es ch Hl He IH]; [constructor| |constructor|by constructor]. destruct (below_shrink M M' root r HM Hc Hp Hb) as [Hb' Hp']. constructor; [|done]. by apply (den_shrink M).
Qed.

(** ** Records that an edit adds *)

Fixpoint new_nodes (e : edited) : Z := match e with NewNode _ ch => 1 + foldr (fun c n => new_nodes c + n) 0 ch | _ => 0 end.
Fixpoint new_leaves (e : edited) : Z := match e with NewNode _ ch => foldr (fun c n => new_leaves c + n) 0 ch | NewLeaf _ _ _ => 1 | _ => 0 end.

Fixpoint place_list (ch : list edited) (s : trieSlab) : option (trieSlab * list tref) :=
  match ch with
  | [] => Some (s, [])
  | c :: ch =>
    if not_zero c then
      '(s, p) ← place c s;
      '(s, refs) ← place_list ch (retain p s);
      Some (s, p :: refs)
    else '(s, refs) ← place_list ch s; Some (s, Zero :: refs)
  end.
Lemma place_node h ch s : place (NewNode h ch) s =
  '(s, refs) ← place_list ch s; '(i, ns) ← alloc (nodes s); Some (mkSlab (write i (mkNodeRec h refs) ns) (leaves s) (pending s), NodeRef i).
Proof. done. Qed.

(** A record in a slot that nothing refers to, over references that are accounted for. *)
Lemma counted_write s s' X P r x n pre t : counted s (kids x ++ X) P -> pool_ok (nodes s') -> pool_ok (leaves s') -> mem s !! r = None -> mem s' = <[r := x]> (mem s) -> (forall r', cnt s' r' = cnt s r') ->
  den (mem s') r t -> wf n pre t -> (n <= trieDepth)%nat -> counted s' X (r :: P).
Proof.
  intros [H1 H2 H3 H4 H5 H6 H7] P1 P2 Hr HM Hc D W L. assert (Hsub : mem s ⊆ mem s') by (rewrite HM; by apply insert_subseteq).
  assert (Hp : forall c, present (mem s) c -> present (mem s') c) by (intros c [->|[y Hy]]; [by left|right; exists y; by eapply lookup_weaken]). split; [done|done| | | | |].
  - intros r' x' c. rewrite HM at 1. intros [[<- <-]|[_ Hx']]%lookup_insert_Some Hin; apply Hp; [apply H4, elem_of_app; by left|by eapply H3].
  - intros r' Hin. apply Hp, H4, elem_of_app. by right.
  - intros r' Hz. rewrite Hc, H5, HM, !occ_app, edges_insert, occ_app by done. lia.
  - intros r' x'. rewrite HM at 1. intros [[<- <-]|[_ Hx']]%lookup_insert_Some; [by exists n, pre, t|]. destruct (H6 r' x' Hx') as (n' & pre' & t' & D' & W' & L'). exists n', pre', t'. split; [by eapply den_mono|done].
  - intros r' x'. rewrite HM, Hc. intros [[<- <-]|[_ Hx']]%lookup_insert_Some; [left; by left|]. destruct (H7 r' x' Hx'); [left; by right|by right].
Qed.

Lemma alloc_node s i ns h refs : pool_ok (nodes s) -> alloc (nodes s) = Some (i, ns) -> let s' := mkSlab (write i (mkNodeRec h refs) ns) (leaves s) (pending s) in
  mem s !! NodeRef i = None /\ mem s' = <[NodeRef i := RNode h refs]> (mem s) /\ pool_ok (nodes s') /\ (forall r, cnt s' r = cnt s r) /\ avail (nodes s') = avail (nodes s) - 1.
Proof.
  intros Hp Ha s'. destruct (alloc_write (nodes s) i ns (mkNodeRec h refs) Hp Ha) as (A1 & A2 & A3 & A4 & A5). split_and!; [by rewrite mem_node, A1| |done| |done].
  - apply map_eq. intros [|j|j]; [by rewrite lookup_insert_ne, !mem_zero|rewrite mem_node|by rewrite lookup_insert_ne, !mem_leaf by done]. cbn [s' nodes]. rewrite A3. destruct (decide (i = j)) as [<-|]; [by rewrite !lookup_insert_eq|]. by rewrite !lookup_insert_ne, mem_node by congruence.
  - intros [|j|j]; [done| |done]. unfold cnt, count. cbn. by rewrite A4.
Qed.
Lemma alloc_leaf s i ls h id c : pool_ok (leaves s) -> alloc (leaves s) = Some (i, ls) -> let s' := mkSlab (nodes s) (write i (mkLeafRec h id c) ls) (pending s) in
  mem s !! LeafRef i = None /\ mem s' = <[LeafRef i := RLeaf h id c]> (mem s) /\ pool_ok (leaves s') /\ (forall r, cnt s' r = cnt s r) /\ avail (leaves s') = avail (leaves s) - 1.
Proof.
  intros Hp Ha s'. destruct (alloc_write (leaves s) i ls (mkLeafRec h id c) Hp Ha) as (A1 & A2 & A3 & A4 & A5). split_and!; [by rewrite mem_leaf, A1| |done| |done].
  - apply map_eq. intros [|j|j]; [by rewrite lookup_insert_ne, !mem_zero|by rewrite lookup_insert_ne, !mem_node by done|rewrite mem_leaf]. cbn [s' leaves]. rewrite A3. destruct (decide (i = j)) as [<-|]; [by rewrite !lookup_insert_eq|]. by rewrite !lookup_insert_ne, mem_leaf by congruence.
  - intros [|j|j]; [done|done|]. unfold cnt, count. cbn. by rewrite A4.
Qed.

(** ** Placing *)

(** The slab grows by the records of an edit. *)
Definition grows (s s' : trieSlab) (ns ls : Z) : Prop :=
  mem s ⊆ mem s' /\ pending s' = pending s /\ avail (nodes s') = avail (nodes s) - ns /\ avail (leaves s') = avail (leaves s) - ls.
Definition room (s : trieSlab) (ns ls : Z) : Prop := ns <= avail (nodes s) /\ ls <= avail (leaves s).

Definition placeable (M : gmap tref record) (e : edited) (t : trie) : Prop := forall s X P n pre, M ⊆ mem s -> counted s X P -> wf n pre t -> (n <= trieDepth)%nat -> room s (new_nodes e) (new_leaves e) ->
  exists s' r, place e s = Some (s', r) /\ counted s' X (r :: P) /\ grows s s' (new_nodes e) (new_leaves e) /\ den (mem s') r t.

Lemma new_pos e : 0 <= new_nodes e /\ 0 <= new_leaves e.
Proof.
  revert e. fix IH 1. intros [r|h id c|h ch]; cbn; [lia|lia|]. assert (H : 0 <= foldr (fun c n => new_nodes c + n) 0 ch /\ 0 <= foldr (fun c n => new_leaves c + n) 0 ch); [|lia]. induction ch as [|c ch IHch]; cbn; [lia|]. destruct (IH c). lia.
Qed.

Lemma grows_retain s p : grows s (retain p s) 0 0.
Proof. pose proof (pools_retain p s) as (E1 & E2 & E3). split_and!; [by rewrite mem_retain|done|lia|lia]. Qed.
Lemma pool_grows_trans s1 s2 s3 a b c d : grows s1 s2 a b -> grows s2 s3 c d -> grows s1 s3 (a + c) (b + d).
Proof. intros (A1 & B1 & C1 & D1) (A2 & B2 & C2 & D2). split_and!; [by etrans|congruence|lia|lia]. Qed.
Lemma pool_grows_refl s : grows s s 0 0.
Proof. split_and!; [done|done|lia|lia]. Qed.

Lemma place_list_spec M n es : forall ch s X P, length es = length ch -> (forall j e t, es !! j = Some e -> ch !! j = Some t -> placeable M e t /\ (not_zero e = false -> t = Empty) /\ exists pre, wf n pre t) ->
  M ⊆ mem s -> counted s X P -> (n <= trieDepth)%nat -> room s (foldr (fun c n => new_nodes c + n) 0 es) (foldr (fun c n => new_leaves c + n) 0 es) ->
  exists s' refs, place_list es s = Some (s', refs) /\ counted s' (refs ++ X) P /\ grows s s' (foldr (fun c n => new_nodes c + n) 0 es) (foldr (fun c n => new_leaves c + n) 0 es) /\
    length refs = length ch /\ forall j r t, refs !! j = Some r -> ch !! j = Some t -> den (mem s') r t.
Proof.
  induction es as [|e es IH]; intros [|t ch] s X P Hl He HM HC Hn HR; try done; [exists s, []; split_and!; [done|done|apply pool_grows_refl|done|by intros j ? ?]|]. injection Hl as Hl. destruct (He 0%nat e t eq_refl eq_refl) as (Hp & Hz & pre & W). cbn [foldr] in HR |- *. destruct (new_pos e) as [Pn Pl]. cbn [place_list].
  assert (Hs : forall j e t, es !! j = Some e -> ch !! j = Some t -> placeable M e t /\ (not_zero e = false -> t = Empty) /\ exists pre, wf n pre t) by (intros j; apply (He (S j))). destruct HR as [R1 R2].
  assert (P2 : 0 <= foldr (fun c n => new_nodes c + n) 0 es /\ 0 <= foldr (fun c n => new_leaves c + n) 0 es) by (clear; induction es as [|e es IH]; cbn; [lia|]; destruct (new_pos e); lia).
  destruct (not_zero e) eqn:Ez.
  - destruct (Hp s X P n pre HM HC W Hn ltac:(split; lia)) as (s1 & p & E1 & C1 & G1 & D1). rewrite E1. cbn [mbind option_bind]. apply counted_retain in C1; [|by eapply den_present]. pose proof (pool_grows_trans _ _ _ _ _ _ _ G1 (grows_retain s1 p)) as G1'. rewrite !Z.add_0_r in G1'. pose proof G1' as (A1 & A2 & A3 & A4).
    destruct (IH ch (retain p s1) (p :: X) P Hl Hs) as (s2 & refs & E2 & C2 & G2 & L2 & D2); [by etrans|done|done|split; lia|]. rewrite E2. cbn [mbind option_bind]. exists s2, (p :: refs). split_and!; [done| |by eapply pool_grows_trans|cbn; lia|].
    + cbn [app]. by rewrite Permutation_middle.
    + intros [|j] r u; [intros [= <-] [= <-]|apply D2]. eapply den_mono; [apply G2|by rewrite mem_retain].
  - destruct (IH ch s X P Hl Hs HM HC Hn) as (s2 & refs & E2 & C2 & G2 & L2 & D2); [split; lia|]. rewrite E2. cbn [mbind option_bind]. rewrite (Hz eq_refl) in *. destruct e as [[]| |]; try done. exists s2, (Zero :: refs). split_and!; [done|by apply counted_zero|done|cbn; lia|].
    intros [|j] r u; [intros [= <-] [= <-]; constructor|apply D2].
Qed.

Lemma wf_child_of n pre h ch j t : wf n pre (Node h ch) -> ch !! j = Some t -> exists n', n = S n' /\ wf n' (pre ++ [j]) t.
Proof. intros (n' & -> & [_ Hw] & _)%wf_children_of Ht. exists n'. split; [done|by apply Hw]. Qed.

Lemma place_spec M root e t : eden M root e t -> placeable M e t.
Proof.
  induction 1 as [|r t Hd Hb|h id c|h es ch Hl He IH]; intros s X P n pre HM HC W Hn HR.
  - exists s, Zero. split_and!; [done|by apply counted_weaken|apply pool_grows_refl|constructor].
  - exists s, r. split_and!; [done|by apply counted_weaken|apply pool_grows_refl|by eapply den_mono].
  - cbn [new_nodes new_leaves] in *. destruct HR as [_ R]. destruct (alloc_avail (leaves s) ltac:(lia)) as [[i ls] Ha]. destruct (alloc_leaf s i ls h id c (inv_leaves _ _ _ HC) Ha) as (A1 & A2 & A3 & A4 & A5). cbn [place]. rewrite Ha. cbn [mbind option_bind].
    set (s' := mkSlab _ _ _) in *. assert (D : den (mem s') (LeafRef i) (Leaf h id c)) by (constructor; rewrite A2; apply lookup_insert_eq). exists s', (LeafRef i). split_and!; [done|exact (counted_write s s' X P (LeafRef i) (RLeaf h id c) n pre (Leaf h id c) HC (inv_nodes _ _ _ HC) A3 A1 A2 A4 D W Hn)|split_and!; [rewrite A2; by apply insert_subseteq|done|cbn; lia|done]|done].
  - rewrite place_node. cbn [new_nodes new_leaves] in *. destruct HR as [R1 R2]. destruct (wf_children_of _ _ _ _ W) as (n' & -> & [_ Hw] & _).
    destruct (place_list_spec M n' es ch s X P Hl) as (s1 & refs & E1 & C1 & G1 & L1 & D1); [|done|done|lia|split; lia|].
    { intros j e t Hj Ht. split_and!; [by eapply IH| |exists (pre ++ [j]); by apply Hw]. intros Hz. pose proof (He j e t Hj Ht) as Hj'. destruct e as [[]| |]; try done. inversion Hj' as [|? ? Hd| |]; subst; [done|]. by inversion Hd. }
    rewrite E1. cbn [mbind option_bind]. pose proof G1 as (B1 & B2 & B3 & B4). destruct (alloc_avail (nodes s1) ltac:(lia)) as [[i ns] Ha]. rewrite Ha. cbn [mbind option_bind]. destruct (alloc_node s1 i ns h refs (inv_nodes _ _ _ C1) Ha) as (A1 & A2 & A3 & A4 & A5). set (s' := mkSlab _ _ _) in *.
    assert (Hsub : mem s1 ⊆ mem s') by (rewrite A2; by apply insert_subseteq). assert (D : den (mem s') (NodeRef i) (Node h ch)) by (eapply den_node; [rewrite A2; apply lookup_insert_eq|done|]; intros j r u Hj Hu; eapply den_mono; [done|by eapply D1]).
    exists s', (NodeRef i). split_and!; [done|exact (counted_write s1 s' X P (NodeRef i) (RNode h refs) (S n') pre (Node h ch) C1 A3 (inv_leaves _ _ _ C1) A1 A2 A4 D W Hn)|split_and!; [by etrans|done|lia|cbn; lia]|done].
Qed.

(** Placing succeeds only when there is room. *)
Definition fit (s : trieSlab) : Prop := 0 <= used (nodes s) <= slabMaxIndex /\ 0 <= used (leaves s) <= slabMaxIndex.
Lemma fit_room s : fit s -> 0 <= avail (nodes s) /\ 0 <= avail (leaves s).
Proof. intros [H1 H2]. unfold avail, zlen. assert (1 <= slabMaxIndex) by done. lia. Qed.

Definition takes (e : edited) : Prop := forall s s' r, fit s -> place e s = Some (s', r) -> fit s' /\ avail (nodes s') = avail (nodes s) - new_nodes e /\ avail (leaves s') = avail (leaves s) - new_leaves e.

Lemma place_list_takes es : Forall takes es -> forall s s' refs, fit s -> place_list es s = Some (s', refs) ->
  fit s' /\ avail (nodes s') = avail (nodes s) - foldr (fun c n => new_nodes c + n) 0 es /\ avail (leaves s') = avail (leaves s) - foldr (fun c n => new_leaves c + n) 0 es.
Proof.
  induction 1 as [|e es He _ IH]; intros s s' refs Hf H; [injection H as <- <-; cbn; split; [done|lia]|]. cbn [place_list foldr] in *. destruct (not_zero e) eqn:Ez.
  - destruct (place e s) as [[s1 p]|] eqn:E1; [|done]. cbn [mbind option_bind] in H. destruct (place_list es (retain p s1)) as [[s2 refs2]|] eqn:E2; [|done]. injection H as <- <-. destruct (He s s1 p Hf E1) as (F1 & N1 & L1). destruct (pools_retain p s1) as (_ & N & L).
    destruct (IH (retain p s1) s2 refs2 ltac:(by destruct p) E2) as (F2 & N2 & L2). split; [done|lia].
  - destruct (place_list es s) as [[s2 refs2]|] eqn:E2; [|done]. injection H as <- <-. destruct (IH s s2 refs2 Hf E2) as (F2 & N2 & L2). by destruct e as [[]| |].
Qed.

Lemma place_takes e : takes e.
Proof.
  revert e. fix IH 1. intros [r|h id c|h ch] s s' r'; [cbn; intros Hf [= <- <-]; split; [done|lia]| |].
  - cbn. intros [F1 F2] H. destruct (alloc (leaves s)) as [[i ls]|] eqn:Ea; [|done]. injection H as <- <-. destruct (alloc_room _ _ _ F2 Ea) as (A1 & A2 & A3). split; [done|]. unfold avail in *. cbn in *. lia.
  - rewrite place_node. intros Hf H. destruct (place_list ch s) as [[s1 refs]|] eqn:E1; [|done]. cbn [mbind option_bind] in H. destruct (alloc (nodes s1)) as [[i ns]|] eqn:Ea; [|done]. injection H as <- <-.
    assert (Hch : Forall takes ch) by (clear -IH; induction ch as [|c ch IHch]; constructor; [apply IH|apply IHch]). destruct (place_list_takes ch Hch s s1 refs Hf E1) as ([F1 F2] & N1 & L1). destruct (alloc_room _ _ _ F1 Ea) as (A1 & A2 & A3). split; [done|]. unfold avail in *. cbn in *. lia.
Qed.

Lemma place_room e s s' r : fit s -> place e s = Some (s', r) -> room s (new_nodes e) (new_leaves e).
Proof. intros Hf H. destruct (place_takes e s s' r Hf H) as (F & N & L). pose proof (fit_room s' F). split; lia. Qed.

(** ** Commits and drops *)

(** The trees of [X] stay as they are: some records of theirs are never touched. *)
Definition keeps (s s' : trieSlab) (X : list tref) : Prop :=
  exists M, M ⊆ mem s /\ M ⊆ mem s' /\ (forall r x c, M !! r = Some x -> c ∈ kids x -> present M c) /\ forall r, r ∈ X -> present M r.

Lemma keeps_den s s' X r t : keeps s s' X -> r ∈ X -> den (mem s) r t -> den (mem s') r t.
Proof. intros (M & H1 & H2 & H3 & H4) Hr D. eapply den_mono; [exact H2|]. apply (den_shrink (mem s)); auto. Qed.
Lemma keeps_eden s s' X root e t : keeps s s' X -> root ∈ X \/ root = Zero -> eden (mem s) root e t -> eden (mem s') root e t.
Proof. intros (M & H1 & H2 & H3 & H4) Hr D. eapply eden_mono; [exact H2|]. apply (eden_shrink (mem s)); [done|done| |done]. destruct Hr as [Hr | ->]; [auto|by left]. Qed.

Lemma sound_keeps s s1 s' X : sound s1 X -> mem s1 ⊆ mem s -> mem s1 ⊆ mem s' -> keeps s s' X.
Proof. intros H H1 H2. exists (mem s1). split_and!; [done|done|apply H|]. intros r Hr. apply (inv_refs _ _ _ H), elem_of_app. by right. Qed.

Lemma sound_zero s X : sound s (Zero :: X) <-> sound s X.
Proof. unfold sound. by rewrite <- Permutation_middle, counted_zero. Qed.

(** There is room for an edit once the queue is drained. *)
Definition commits (e : edited) (s : trieSlab) : Prop := not_zero e = true -> forall s', drain_now drainPerUpdate s = Some s' -> room s' (new_nodes e) (new_leaves e).

Lemma commit_commits s X e p : sound s X -> commit e s = Some p -> commits e s.
Proof.
  intros H Hc Hz s1 E1. assert (E : commit e s = (s ← drain_now drainPerUpdate s; '(s, r) ← place e s; Some (retain r s, r))) by (by destruct e as [[]| |]). rewrite E, E1 in Hc. cbn [mbind option_bind] in Hc. destruct (place e s1) as [[s2 r]|] eqn:E2; [|done]. eapply place_room; [|done].
  destruct (drain_spec (S (length (pending s))) drainPerUpdate s X H ltac:(lia)) as (s1' & E1' & H1 & _). unfold drain_now in E1. rewrite E1 in E1'. injection E1' as <-. split; [apply (inv_nodes _ _ _ H1)|apply (inv_leaves _ _ _ H1)].
Qed.

Lemma commit_spec s X root e t : sound s X -> root ∈ X \/ root = Zero -> eden (mem s) root e t -> wf trieDepth [] t -> commits e s ->
  exists s' r, commit e s = Some (s', r) /\ sound s' (r :: X) /\ keeps s s' X /\ den (mem s') r t.
Proof.
  intros H Hroot He W HR. destruct (not_zero e) eqn:Hz; [|destruct e as [[]| |]; try done].
  2: { exists s, Zero. split_and!; [done|by apply sound_zero|by apply (sound_keeps s s)|]. inversion He as [|? ? Hd| |]; subst; [constructor|]. exact Hd. }
  destruct (drain_spec (S (length (pending s))) drainPerUpdate s X H ltac:(lia)) as (s1 & E1 & H1 & (M1 & A1 & B1) & _).
    assert (He1 : eden (mem s1) root e t) by (apply (keeps_eden s s1 X root); [by apply (sound_keeps s s1)|done|done]).
    destruct (place_spec _ _ _ _ He1 s1 (pending s1 ++ X) [] trieDepth [] ltac:(done) H1 W ltac:(done)) as (s2 & r & E2 & H2 & (M2 & P2 & _) & D2); [by apply (HR Hz)|].
    exists (retain r s2), r. split_and!.
    + assert (E : commit e s = (s ← drain_now drainPerUpdate s; '(s, r) ← place e s; Some (retain r s, r))) by (by destruct e as [[]| |]). rewrite E. unfold drain_now. rewrite E1. cbn [mbind option_bind]. by rewrite E2.
    + apply counted_retain in H2; [|by eapply den_present]. unfold sound. destruct (pools_retain r s2) as [-> _]. rewrite P2. by rewrite <- Permutation_middle.
    + apply (sound_keeps s s1); [done|done|by rewrite mem_retain].
    + by rewrite mem_retain.
Qed.

Lemma drop_spec s X root idle : sound s (root :: X) -> exists s', dropTrieRoot root idle s = Some s' /\ sound s' X /\ keeps s s' X /\ (idle = true -> pending s' = []).
Proof.
  intros H. unfold dropTrieRoot. set (s0 := mkSlab _ _ _). assert (H0 : sound s0 X).
  { unfold sound in *. cbn [pending s0]. rewrite <- app_assoc. destruct s. eapply counted_queue. exact H. }
  destruct idle; [|exists s0; split_and!; [done|done|by apply (sound_keeps s s0)|done]]. destruct (drain_spec (S (length (pending s0))) (-1) s0 X H0 ltac:(lia)) as (s1 & E1 & H1 & (M1 & _) & P1). exists s1. split_and!; [done|done|by apply (sound_keeps s s1)|intros _; by apply P1].
Qed.

End SlabPlace.
