(* ===== verification/SlabBulk.v ===== *)
(** A bulk build leaves a slab with the tree of its items and nothing else in use. *)

From S2P Require Import Prelude Primitives Sha256 TrieHash Trie TrieCorrect TrieWalk TrieBulk TreeSlab SlabEdit SlabMemory SlabPlace.
Import Primitives TrieHash Trie TrieCorrect TrieWalk TrieBulk TreeSlab SlabEdit SlabMemory SlabPlace.

Module SlabBulk.

#[local] Opaque trieDepth.

(** ** The slots of a builder *)

(** The slab in which the slots that a builder holds count as free. *)
Definition with_free {R} (l : list Z) (p : slabPool R) : slabPool R := mkPool (recs p) (counts p) (used p) (l ++ free p).
Definition block (next stop : Z) : list Z := seqZ next (stop - next).
Definition whole (b : trieBulk) : trieSlab :=
  let s := bulk_s b in mkSlab (with_free (block (nodeNext b) (nodeEnd b)) (nodes s)) (with_free (block (leafNext b) (leafEnd b)) (leaves s)) (pending s).

(** The slots that a builder can still use. *)
Definition slack {R} (next stop : Z) (p : slabPool R) : Z := stop - next + (slabMaxIndex - Z.max 1 (used p)).
Definition node_slack (b : trieBulk) : Z := slack (nodeNext b) (nodeEnd b) (nodes (bulk_s b)).
Definition leaf_slack (b : trieBulk) : Z := slack (leafNext b) (leafEnd b) (leaves (bulk_s b)).

Lemma live_perm {R} (p : slabPool R) l l' : l ≡ₚ l' -> live (mkPool (recs p) (counts p) (used p) l) = live (mkPool (recs p) (counts p) (used p) l').
Proof. intros H. apply map_eq. intros i. rewrite !live_lookup. cbn. repeat case_decide; [done|by rewrite H in *..|done]. Qed.
Lemma pool_ok_perm {R} (p : slabPool R) l l' : l ≡ₚ l' -> pool_ok (mkPool (recs p) (counts p) (used p) l) -> pool_ok (mkPool (recs p) (counts p) (used p) l').
Proof. intros H (H1 & H2 & H3). split_and!; cbn in *; [by rewrite <- H|lia|lia|]. intros i. by rewrite H3, H. Qed.

(** A block reserved for a builder that has used up its last one. *)
Lemma reserve_block {R} (p : slabPool R) n : pool_ok p -> 0 < n -> Z.max 1 (used p) + n <= slabMaxIndex -> exists st p', reserve n p = Some (st, p') /\
  pool_ok (with_free (block st (st + n)) p') /\ live (with_free (block st (st + n)) p') = live p /\ counts p' = counts p /\ slack st (st + n) p' = slabMaxIndex - Z.max 1 (used p).
Proof.
  intros (Hn & Hu & Hr) Hpos Hfit. unfold reserve. set (st := if used p =? 0 then 1 else used p). assert (Hst : st = Z.max 1 (used p) /\ (used p = 0 \/ st = used p)) by (subst st; destruct (Z.eqb_spec (used p) 0); lia). cbv zeta. clearbody st. rewrite (proj2 (Z.ltb_ge _ _)) by lia. eexists st, _. split; [done|].
  assert (Hb : forall i, i ∈ block st (st + n) <-> st <= i < st + n) by (intros i; unfold block; rewrite elem_of_seqZ; lia). assert (Hno : forall i, st <= i -> recs p !! i = None /\ i ∉ free p).
  { intros i Hi. split; [apply eq_None_not_Some; intros Hs; assert (1 <= i < used p) by (apply Hr; by left); lia|intros Hs; assert (1 <= i < used p) by (apply Hr; by right); lia]. }
  split_and!; [split_and!; cbn; [|lia|lia|]| |done|].
  - apply NoDup_app. split_and!; [apply NoDup_seqZ|intros i Hi%Hb; by apply Hno; lia|done].
  - intros i. rewrite elem_of_app, Hb. specialize (Hr i). split; [intros Hi; destruct (decide (st <= i)); [right; left; lia|destruct (proj1 Hr); [lia|by left|right; by right]]|]. intros [Hs|[Hs|Hs]]; [assert (1 <= i < used p) by (apply Hr; by left)| |assert (1 <= i < used p) by (apply Hr; by right)]; lia.
  - apply map_eq. intros i. rewrite !live_lookup. cbn. destruct (decide (i ∈ free p)) as [Hf|Hf]; [rewrite decide_True; [done|apply elem_of_app; by right]|]. case_decide as Hi; [|done]. apply elem_of_app in Hi as [Hi|]; [|done]. apply Hb in Hi. symmetry. apply Hno. lia.
  - unfold slack. cbn. lia.
Qed.

(** The next slot of a block. *)
Lemma block_next next stop : next < stop -> block next stop = next :: block (next + 1) stop.
Proof. intros H. unfold block. rewrite seqZ_cons by lia. f_equal. f_equal; lia. Qed.
Lemma block_empty next stop : stop <= next -> block next stop = [].
Proof. intros H. unfold block. by rewrite seqZ_nil by lia. Qed.

Lemma alloc_block {R} (p : slabPool R) next stop : next < stop -> alloc (with_free (block next stop) p) = Some (next, with_free (block (next + 1) stop) p).
Proof. intros H. rewrite block_next by done. done. Qed.

(** The invariant of a build; no block of leaves is larger than [K]. *)
Record bulked (K : Z) (b : trieBulk) (X P : list tref) : Prop := mkBulked {
  bulked_counted : counted (whole b) X P;
  bulked_nodes : nodeNext b <= nodeEnd b <= nodeNext b + trieBulkBlock;
  bulked_leaves : leafNext b <= leafEnd b <= leafNext b + K;
  bulked_block : trieBulkBlock <= K }.

Lemma counted_same s s' X P : mem s' = mem s -> (forall r, cnt s' r = cnt s r) -> pool_ok (nodes s') -> pool_ok (leaves s') -> counted s X P -> counted s' X P.
Proof. intros HM Hc P1 P2 [H1 H2 H3 H4 H5 H6 H7]. split; rewrite ?HM; [done..| |done|]; [intros r Hz; by rewrite Hc, H5|intros r x Hx; rewrite Hc; by eapply H7]. Qed.

Lemma counted_more s X P P' : (forall r, r ∈ P -> r ∈ P' \/ r = Zero) -> counted s X P -> counted s X P'.
Proof. intros HP [H1 H2 H3 H4 H5 H6 H7]. split; [done..|]. intros r x Hx. destruct (H7 r x Hx) as [Hr|]; [|by right]. destruct (HP r Hr) as [|Hz]; [by left|]. by rewrite Hz, mem_zero in Hx. Qed.

Lemma mem_pools s s' : live (nodes s') = live (nodes s) -> live (leaves s') = live (leaves s) -> mem s' = mem s.
Proof. intros H1 H2. unfold mem. by rewrite H1, H2. Qed.
Lemma cnt_pools s s' : counts (nodes s') = counts (nodes s) -> counts (leaves s') = counts (leaves s) -> forall r, cnt s' r = cnt s r.
Proof. intros H1 H2 []; cbn; unfold count; by rewrite ?H1, ?H2. Qed.

(** What a builder does keeps the records that were there. *)
Definition builds (b b' : trieBulk) (ns ls : Z) : Prop :=
  mem (whole b) ⊆ mem (whole b') /\ pending (bulk_s b') = pending (bulk_s b) /\ node_slack b - ns <= node_slack b' /\ leaf_slack b - ls <= leaf_slack b'.

Lemma builds_refl b : builds b b 0 0.
Proof. split_and!; [done|done|lia|lia]. Qed.
Lemma builds_trans b1 b2 b3 n l n' l' : builds b1 b2 n l -> builds b2 b3 n' l' -> builds b1 b3 (n + n') (l + l').
Proof. intros (A1 & B1 & C1 & D1) (A2 & B2 & C2 & D2). split_and!; [by etrans|congruence|lia|lia]. Qed.

(** ** Slots handed out *)

Lemma with_free_nil {R} (p : slabPool R) : with_free [] p = p.
Proof. by destruct p. Qed.

Lemma reserveNodes_spec K n b X P : bulked K b X P -> nodeNext b = nodeEnd b -> 0 < n <= node_slack b -> n <= trieBulkBlock ->
  exists b', reserveNodes n b = Some b' /\ bulked K b' X P /\ nodeNext b' < nodeEnd b' /\ mem (whole b') = mem (whole b) /\ builds b b' 0 0.
Proof.
  intros [HC Hn Hl HK] E [Hpos Hfit] Hle. unfold node_slack, slack in Hfit. pose proof (inv_nodes _ _ _ HC) as Hp. cbn [whole nodes] in Hp. rewrite block_empty, with_free_nil in Hp by lia.
  destruct (reserve_block (nodes (bulk_s b)) n Hp Hpos ltac:(lia)) as (st & p' & Er & R1 & R2 & R3 & R4). unfold reserveNodes. rewrite Er. cbn [mbind option_bind]. eexists. split; [done|]. set (b' := mkBulk _ _ _ _ _).
  assert (HM : mem (whole b') = mem (whole b)) by (apply mem_pools; [cbn [whole nodes b' bulk_s nodeNext nodeEnd]; by rewrite R2, (block_empty (nodeNext b)), with_free_nil by lia|done]).
  split_and!; [split; [|cbn; lia|done|done]|cbn; lia|done|]; [apply (counted_same (whole b)); [done| |exact R1|apply HC|done]|split_and!; [by rewrite HM|done| |unfold leaf_slack; cbn; lia]].
  - apply cnt_pools; [exact R3|done].
  - unfold node_slack. cbn [b' nodeNext nodeEnd bulk_s nodes]. rewrite R4. unfold slack. lia.
Qed.
Lemma reserveLeaves_spec K n b X P : bulked K b X P -> leafNext b = leafEnd b -> 0 < n <= leaf_slack b -> n <= K ->
  exists b', reserveLeaves n b = Some b' /\ bulked K b' X P /\ leafNext b' < leafEnd b' /\ mem (whole b') = mem (whole b) /\ builds b b' 0 0.
Proof.
  intros [HC Hn Hl HK] E [Hpos Hfit] Hle. unfold leaf_slack, slack in Hfit. pose proof (inv_leaves _ _ _ HC) as Hp. cbn [whole leaves] in Hp. rewrite block_empty, with_free_nil in Hp by lia.
  destruct (reserve_block (leaves (bulk_s b)) n Hp Hpos ltac:(lia)) as (st & p' & Er & R1 & R2 & R3 & R4). unfold reserveLeaves. rewrite Er. cbn [mbind option_bind]. eexists. split; [done|]. set (b' := mkBulk _ _ _ _ _).
  assert (HM : mem (whole b') = mem (whole b)) by (apply mem_pools; [done|cbn [whole leaves b' bulk_s leafNext leafEnd]; by rewrite R2, (block_empty (leafNext b)), with_free_nil by lia]).
  split_and!; [split; [|done|cbn; lia|done]|cbn; lia|done|]; [apply (counted_same (whole b)); [done| |apply HC|exact R1|done]|split_and!; [by rewrite HM|done|unfold node_slack; cbn; lia|]].
  - apply cnt_pools; [done|exact R3].
  - unfold leaf_slack. cbn [b' leafNext leafEnd bulk_s leaves]. rewrite R4. unfold slack. lia.
Qed.

Lemma block_nodes K b X P : bulked K b X P -> 256 <= node_slack b ->
  exists b', (if nodeNext b =? nodeEnd b then reserveNodes trieBulkBlock b else Some b) = Some b' /\ bulked K b' X P /\ nodeNext b' < nodeEnd b' /\ mem (whole b') = mem (whole b) /\ builds b b' 0 0.
Proof.
  intros H Hs. destruct (Z.eqb_spec (nodeNext b) (nodeEnd b)) as [E|E]; [by apply reserveNodes_spec|]. exists b. pose proof (bulked_nodes _ _ _ _ H). split_and!; [done|done|lia|done|apply builds_refl].
Qed.
Lemma block_leaves K b X P : bulked K b X P -> 256 <= leaf_slack b ->
  exists b', (if leafNext b =? leafEnd b then reserveLeaves trieBulkBlock b else Some b) = Some b' /\ bulked K b' X P /\ leafNext b' < leafEnd b' /\ mem (whole b') = mem (whole b) /\ builds b b' 0 0.
Proof.
  intros H Hs. destruct (Z.eqb_spec (leafNext b) (leafEnd b)) as [E|E]; [apply reserveLeaves_spec; [done|done|done|apply H]|]. exists b. pose proof (bulked_leaves _ _ _ _ H). split_and!; [done|done|lia|done|apply builds_refl].
Qed.

Lemma bulk_newNode_spec K b X P h refs ch n pre : bulked K b (refs ++ X) P -> 256 <= node_slack b -> length refs = length ch -> (forall j r t, refs !! j = Some r -> ch !! j = Some t -> den (mem (whole b)) r t) -> wf n pre (Node h ch) -> (n <= trieDepth)%nat ->
  exists b' r, bulk_newNode (mkNodeRec h refs) b = Some (b', r) /\ bulked K b' X (r :: P) /\ builds b b' 1 0 /\ den (mem (whole b')) r (Node h ch) /\ r <> Zero.
Proof.
  intros H Hs Hl Hd W L. destruct (block_nodes K b _ P H Hs) as (b1 & E1 & H1 & Hlt & M1 & B1). unfold bulk_newNode. rewrite E1. cbn [mbind option_bind]. eexists _, (NodeRef (nodeNext b1)). split; [done|]. set (b' := mkBulk _ _ _ _ _). set (i := nodeNext b1) in *.
  destruct (alloc_node (whole b1) i _ h refs (inv_nodes _ _ _ (bulked_counted _ _ _ _ H1)) (alloc_block (nodes (bulk_s b1)) i (nodeEnd b1) Hlt)) as (A1 & A2 & A3 & A4 & _). match type of A2 with mem ?s = _ => change s with (whole b') in * end.
  assert (Hsub : mem (whole b1) ⊆ mem (whole b')) by (rewrite A2; by apply insert_subseteq). assert (D : den (mem (whole b')) (NodeRef i) (Node h ch)).
  { eapply den_node; [rewrite A2; apply lookup_insert_eq|done|]. intros j r t Hj Ht. apply (den_mono (mem (whole b1))); [done|]. rewrite M1. by eapply Hd. }
  split_and!; [pose proof (bulked_nodes _ _ _ _ H1); split; [|cbn; lia|apply H1|apply H1]|destruct B1 as (Q1 & Q2 & Q3 & Q4); split_and!; [rewrite <- M1; exact Hsub|done| |]|done|done].
  - exact (counted_write (whole b1) (whole b') X P (NodeRef i) (RNode h refs) n pre (Node h ch) (bulked_counted _ _ _ _ H1) A3 (inv_leaves _ _ _ (bulked_counted _ _ _ _ H1)) A1 A2 A4 D W L).
  - unfold node_slack, slack in *. cbn. lia.
  - unfold leaf_slack, slack in *. cbn. lia.
Qed.
Lemma bulk_newLeaf_spec K b X P h id c n pre : bulked K b X P -> 256 <= leaf_slack b -> wf n pre (Leaf h id c) -> (n <= trieDepth)%nat ->
  exists b' r, bulk_newLeaf (mkLeafRec h id c) b = Some (b', r) /\ bulked K b' X (r :: P) /\ builds b b' 0 1 /\ den (mem (whole b')) r (Leaf h id c) /\ r <> Zero.
Proof.
  intros H Hs W L. destruct (block_leaves K b _ P H Hs) as (b1 & E1 & H1 & Hlt & M1 & B1). unfold bulk_newLeaf. rewrite E1. cbn [mbind option_bind]. eexists _, (LeafRef (leafNext b1)). split; [done|]. set (b' := mkBulk _ _ _ _ _). set (i := leafNext b1) in *.
  destruct (alloc_leaf (whole b1) i _ h id c (inv_leaves _ _ _ (bulked_counted _ _ _ _ H1)) (alloc_block (leaves (bulk_s b1)) i (leafEnd b1) Hlt)) as (A1 & A2 & A3 & A4 & _). match type of A2 with mem ?s = _ => change s with (whole b') in * end.
  assert (Hsub : mem (whole b1) ⊆ mem (whole b')) by (rewrite A2; by apply insert_subseteq). assert (D : den (mem (whole b')) (LeafRef i) (Leaf h id c)) by (constructor; rewrite A2; apply lookup_insert_eq).
  split_and!; [pose proof (bulked_leaves _ _ _ _ H1); split; [|apply H1|cbn; lia|apply H1]|destruct B1 as (Q1 & Q2 & Q3 & Q4); split_and!; [rewrite <- M1; exact Hsub|done| |]|done|done].
  - exact (counted_write (whole b1) (whole b') X P (LeafRef i) (RLeaf h id c) n pre (Leaf h id c) (bulked_counted _ _ _ _ H1) (inv_nodes _ _ _ (bulked_counted _ _ _ _ H1)) A3 A1 A2 A4 D W L).
  - unfold node_slack, slack in *. cbn. lia.
  - unfold leaf_slack, slack in *. cbn. lia.
Qed.

(** ** Children in turn *)

Section Children.
Context {St : Type} (M : St -> gmap tref record) (ok : St -> list tref -> Prop) (enough : St -> Z -> Z -> Prop).
Context (cn cl : list trieItem -> Z) (f : nat * list trieItem -> St -> option (St * tref)) (g : list trieItem -> trie) (good : nat * list trieItem -> Prop).
Hypothesis costs : forall l, 0 <= cn l /\ 0 <= cl l.
Hypothesis ok_more : forall s P P', (forall r, r ∈ P -> r ∈ P' \/ r = Zero) -> ok s P -> ok s P'.
Hypothesis one : forall r s P a c, good r -> ok s P -> 0 <= a -> 0 <= c -> enough s (cn r.2 + a) (cl r.2 + c) ->
  exists s' x, f r s = Some (s', x) /\ ok s' (x :: P) /\ M s ⊆ M s' /\ enough s' a c /\ den (M s') x (g r.2).

Definition total (k : list trieItem -> Z) (l : list (nat * list trieItem)) : Z := foldr (fun r n => k r.2 + n) 0 l.
Lemma total_pos l : 0 <= total cn l /\ 0 <= total cl l.
Proof. induction l as [|r l IH]; cbn; [lia|]. pose proof (costs r.2). unfold total in IH. lia. Qed.

Lemma children_spec l : forall s refs ch P a c, StronglySorted lt l.*1 -> (forall r, r ∈ l -> good r /\ refs !! r.1 = Some Zero) -> length refs = length ch -> (forall j r t, refs !! j = Some r -> ch !! j = Some t -> den (M s) r t) ->
  ok s (refs ++ P) -> 0 <= a -> 0 <= c -> enough s (total cn l + a) (total cl l + c) ->
  exists s' refs', foldl (fun acc r => '(s, ch) ← acc; '(s, x) ← f r s; Some (s, <[r.1 := x]> ch)) (Some (s, refs)) l = Some (s', refs') /\ length refs' = length (foldl (fun ch r => <[r.1 := g r.2]> ch) ch l) /\
    (forall j r t, refs' !! j = Some r -> foldl (fun ch r => <[r.1 := g r.2]> ch) ch l !! j = Some t -> den (M s') r t) /\ ok s' (refs' ++ P) /\ M s ⊆ M s' /\ enough s' a c.
Proof.
  induction l as [|[nib run] l IH]; intros s refs ch P a c Hs Hg Hl Hd Hok Ha Hc He; [by exists s, refs|]. apply StronglySorted_inv in Hs as [Hs Hlt]. rewrite Forall_forall in Hlt. destruct (Hg (nib, run) ltac:(by left)) as [Hgr Hz]. cbn [fst] in Hz. pose proof (total_pos l) as [T1 T2].
  destruct (one (nib, run) s (refs ++ P) (total cn l + a) (total cl l + c) Hgr Hok ltac:(lia) ltac:(lia)) as (s1 & x & E1 & Hok1 & M1 & He1 & D1); [cbn in He |- *; by rewrite !Z.add_assoc|]. cbn [foldl mbind option_bind]. rewrite E1. cbn [mbind option_bind fst snd].
  destruct (IH s1 (<[nib := x]> refs) (<[nib := g run]> ch) P a c Hs) as (s2 & refs2 & E2 & L2 & D2 & Hok2 & M2 & He2); [| |intros j r t Hj Ht| |done|done|done|].
  - intros r Hr. destruct (Hg r ltac:(by right)) as [Hgr' Hz']. split; [done|]. rewrite list_lookup_insert_ne; [done|]. intros E. assert (nib < r.1)%nat; [|lia]. apply Hlt, list_elem_of_fmap. by exists r.
  - by rewrite !length_insert.
  - apply list_lookup_insert_Some in Hj as [(<- & -> & Hn)|[Hne Hj]]; [rewrite list_lookup_insert_eq in Ht by lia; injection Ht as <-; done|]. rewrite list_lookup_insert_ne in Ht by done. eapply den_mono; [done|by eapply Hd].
  - eapply ok_more; [|done]. intros r [->|[[j Hj]%list_elem_of_lookup|Hr]%elem_of_app]%elem_of_cons; [left; apply elem_of_app; left; apply list_elem_of_lookup; exists nib; apply list_lookup_insert_eq; by eapply lookup_lt_Some| |left; apply elem_of_app; by right].
    destruct (decide (j = nib)) as [->|]; [right; congruence|]. left. apply elem_of_app. left. apply list_elem_of_lookup. exists j. by rewrite list_lookup_insert_ne.
  - exists s2, refs2. split_and!; [done|done|done|done|by etrans|done].
Qed.

End Children.

(** ** Nodes and subtrees *)

Lemma whole_retain l : forall s a b c d, whole (mkBulk (foldl (fun s c => retain c s) s l) a b c d) = foldl (fun s c => retain c s) (whole (mkBulk s a b c d)) l.
Proof. induction l as [|r l IH]; intros s a b c d; [done|]. cbn [foldl]. rewrite IH. by destruct r. Qed.
Lemma retain_all l : forall s X P, counted s X (l ++ P) -> (forall r, r ∈ l -> present (mem s) r) -> let s' := foldl (fun s c => retain c s) s l in counted s' (l ++ X) P /\ mem s' = mem s.
Proof.
  induction l as [|r l IH]; intros s X P H Hp; [done|]. cbn [foldl app] in *. destruct (IH (retain r s) (r :: X) P) as [C E]; [apply counted_retain; [done|apply Hp; by left]|intros r' Hr'; rewrite mem_retain; apply Hp; by right|]. split; [by rewrite Permutation_middle|]. by rewrite E, mem_retain.
Qed.
Lemma retain_all_used l : forall s, let s' := foldl (fun s c => retain c s) s l in used (nodes s') = used (nodes s) /\ used (leaves s') = used (leaves s) /\ pending s' = pending s.
Proof. induction l as [|r l IH]; intros s; [done|]. cbn [foldl]. destruct (IH (retain r s)) as (-> & -> & ->). by destruct r. Qed.

Lemma bulk_node_spec K b X P refs ch n pre : bulked K b X (refs ++ P) -> 256 <= node_slack b -> length refs = length ch -> (forall j r t, refs !! j = Some r -> ch !! j = Some t -> den (mem (whole b)) r t) -> wf n pre (newNode ch) -> (n <= trieDepth)%nat ->
  exists b' r, bulk_node refs b = Some (b', r) /\ bulked K b' X (r :: P) /\ builds b b' 1 0 /\ den (mem (whole b')) r (newNode ch).
Proof.
  intros [HC Hn Hl HK] Hs Hlen Hd W L. unfold bulk_node. set (b1 := mkBulk _ _ _ _ _). destruct (retain_all refs (whole b) X P HC) as [C1 M1].
  { intros r [j Hj]%list_elem_of_lookup. destruct (lookup_lt_is_Some_2 ch j ltac:(rewrite <- Hlen; by eapply lookup_lt_Some)) as [t Ht]. by eapply den_present, Hd. }
  assert (E1 : whole b1 = foldl (fun s c => retain c s) (whole b) refs) by (unfold b1; rewrite whole_retain; by destruct b). rewrite <- E1 in C1, M1. destruct (retain_all_used refs (bulk_s b)) as (U1 & U2 & U3).
  assert (Eh : map (view_hash (bulk_s b)) refs = map hash_of ch).
  { apply list_eq_same_length with (length ch); [by rewrite length_map|by rewrite length_map|]. intros j x y _ Hx Hy. apply list_lookup_fmap_Some in Hx as (r & -> & Hr), Hy as (t & -> & Ht). exact (view_hash_den (whole b) r t (Hd j r t Hr Ht)). }
  rewrite Eh. destruct (bulk_newNode_spec K b1 X P (nodeHash (map hash_of ch)) refs ch n pre) as (b' & r & E & H' & B & D & _); [by split|unfold node_slack, slack in *; cbn; rewrite U1; lia|done|by rewrite M1|exact W|done|].
  exists b', r. split_and!; [done|done| |done]. destruct B as (Q1 & Q2 & Q3 & Q4). split_and!; [by rewrite <- M1|rewrite Q2; exact U3|unfold node_slack, slack in *; cbn in *; rewrite U1 in *; lia|unfold leaf_slack, slack in *; cbn in *; rewrite U2 in *; lia].
Qed.

(** Room for records, with a block to spare. *)
Definition enough (b : trieBulk) (ns ls : Z) : Prop := ns + trieBulkBlock <= node_slack b /\ ls + trieBulkBlock <= leaf_slack b.

Lemma enough_builds b b' n l ns ls : builds b b' n l -> enough b (n + ns) (l + ls) -> enough b' ns ls.
Proof. intros (_ & _ & H1 & H2) [E1 E2]. split; lia. Qed.
Lemma enough_less b ns ls ns' ls' : enough b ns ls -> ns' <= ns -> ls' <= ls -> enough b ns' ls'.
Proof. intros [E1 E2] H1 H2. split; lia. Qed.

Lemma total_concat k l : total (fun items => k * zlen items) l = k * zlen (concat (map snd l)).
Proof. induction l as [|r l IH]; cbn; [unfold zlen; cbn; lia|]. unfold total in IH. rewrite IH. unfold zlen. rewrite length_app. lia. Qed.
Lemma total_runs k d items : total (fun items => k * zlen items) (TrieBulk.runs d items) = k * zlen items.
Proof. by rewrite total_concat, runs_concat. Qed.
Lemma total_ext k k' l : (forall r, r ∈ l -> k r.2 = k' r.2) -> total k l = total k' l.
Proof. induction l as [|r l IH]; intros H; [done|]. cbn. rewrite (H r ltac:(by left)). f_equal. apply IH. intros; apply H; by right. Qed.

(** What a builder promises of a subtree. *)
Definition built (K : Z) (q : list tref) (X P : list tref) (b : trieBulk) : Prop := bulked K b X P /\ pending (bulk_s b) = q.

Lemma built_builds K q X P b b' ns ls : built K q X P b -> bulked K b' X P -> builds b b' ns ls -> built K q X P b'.
Proof. intros [_ Hq] H (_ & Hq' & _). split; [done|congruence]. Qed.

Lemma zlen_pos {A} (l : list A) : l <> [] -> 1 <= zlen l.
Proof. destruct l; [done|]. intros _. unfold zlen. cbn. lia. Qed.

Lemma built_more K q X P P' b : (forall r, r ∈ P -> r ∈ P' \/ r = Zero) -> built K q X P b -> built K q X P' b.
Proof. intros HP [[H1 H2 H3 H4] Hq]. split; [|done]. split; [by eapply counted_more|done..]. Qed.

Lemma no_refs_lookup nib : (nib < 16)%nat -> no_refs !! nib = Some Zero.
Proof. intros H. by apply lookup_replicate_2. Qed.
Lemma no_refs_den M j r t : no_refs !! j = Some r -> no_children !! j = Some t -> den M r t.
Proof. intros [-> _]%lookup_replicate [-> _]%lookup_replicate. constructor. Qed.

Lemma bulk_leaf_spec K q X P b n pre items a c : wf n pre (leaf_of_last items (length pre)) -> (n <= trieDepth)%nat -> built K q X P b -> 0 <= a -> 0 <= c -> enough b a (1 + c) ->
  exists b' r, bulk_leaf items (length pre) b = Some (b', r) /\ built K q X (r :: P) b' /\ mem (whole b) ⊆ mem (whole b') /\ enough b' a c /\ den (mem (whole b')) r (leaf_of_last items (length pre)).
Proof.
  intros W L [H Hq] Ha Hc He. unfold bulk_leaf, leaf_of_last in *. destruct (bulk_newLeaf_spec K b X P _ _ _ n pre H ltac:(destruct He; unfold trieBulkBlock in *; lia) W L) as (b' & r & E & H' & B & D & _). exists b', r. split_and!; [done|split; [done|]|apply B| |done]; [destruct B as (_ & -> & _); done|]. by eapply (enough_builds b b' 0 1).
Qed.

Lemma bulk_build_spec K q X n : forall pre items P b a c, levels n pre -> batch pre items -> items <> [] -> built K q X P b -> 0 <= a -> 0 <= c -> enough b (Z.of_nat n * zlen items + a) (1 * zlen items + c) ->
  exists b' r, bulk_build n (length pre) items b = Some (b', r) /\ built K q X (r :: P) b' /\ mem (whole b) ⊆ mem (whole b') /\ enough b' a c /\ den (mem (whole b')) r (build n (length pre) items).
Proof.
  induction n as [|n IH]; intros pre items P b a c HL Hb Hne H Ha Hc He; pose proof (build_spec _ pre items HL Hb Hne) as [W _]; pose proof (zlen_pos items Hne) as Hlen; cbn [bulk_build build] in *.
  { apply (bulk_leaf_spec K q X P b 0 pre); [done|lia|done..|]. eapply enough_less; [done|lia|lia]. }
  assert (Hn : (S n <= trieDepth)%nat) by (unfold levels in HL; lia). destruct (length items =? 1)%nat eqn:E1; [apply (bulk_leaf_spec K q X P b (S n) pre); [done..|]; eapply enough_less; [done|lia|lia]|]. apply Nat.eqb_neq in E1. assert (Hlen2 : 2 <= zlen items) by (unfold zlen in *; lia).
  assert (HLt : (length pre < trieDepth)%nat) by (unfold levels in HL; lia).
  destruct (children_spec (fun b => mem (whole b)) (fun b P => built K q X P b) enough (fun l => Z.of_nat n * zlen l) (fun l => 1 * zlen l) (fun r b => bulk_build n (S (length pre)) r.2 b) (build n (S (length pre))) (fun r => batch (pre ++ [r.1]) r.2 /\ r.2 <> [])) with (l := TrieBulk.runs (length pre) items) (s := b) (refs := no_refs) (ch := no_children) (P := P) (a := 1 + a) (c := c) as (b1 & refs & Ef & Lf & Df & H1 & M1 & He1).
  - intros l. unfold zlen. lia.
  - intros b0 P0 P0'. apply built_more.
  - intros [nib run] b0 P0 a0 c0 [Hbr Hnr] H0 Ha0 Hc0 He0. cbn [fst snd] in *. rewrite <- (length_snoc pre nib). apply IH; [by apply levels_snoc|done..].
  - by apply batch_increasing.
  - intros [nib run] Hr. cbn [fst snd]. split; [split; [by eapply batch_run|by destruct (runs_nibble _ _ _ _ Hr)]|]. apply no_refs_lookup. by eapply runs_bound.
  - done.
  - apply no_refs_den.
  - eapply built_more; [|exact H]. intros r Hr. left. apply elem_of_app. by right.
  - lia.
  - done.
  - rewrite !total_runs. eapply enough_less; [done|lia|lia].
  - rewrite Ef. cbn [mbind option_bind]. destruct H1 as [H1 Hq1]. destruct (bulk_node_spec K b1 X P refs _ (S n) pre H1 ltac:(destruct He1; unfold trieBulkBlock in *; lia) Lf Df W Hn) as (b2 & r & E2 & H2 & B2 & D2).
    exists b2, r. split_and!; [done|split; [done|]; destruct B2 as (_ & -> & _); done|etrans; [exact M1|apply B2]|by eapply (enough_builds b1 b2 1 0)|done].
Qed.

(** ** Whole builds *)

Lemma finish_spec K b X P : bulked K b X P -> counted (finish b) X P /\ mem (finish b) = mem (whole b) /\ pending (finish b) = pending (bulk_s b).
Proof.
  intros [HC Hn Hl HK]. assert (Hb : forall R (p : slabPool R) next stop, block next stop ++ free p ≡ₚ rev (seqZ next (stop - next)) ++ free p) by (intros R p next stop; by rewrite <- Permutation_rev).
  assert (HM : mem (finish b) = mem (whole b)) by (apply mem_pools; symmetry; apply live_perm, Hb). split_and!; [|done|done]. apply (counted_same (whole b)); [done|by apply cnt_pools| | |done]; eapply pool_ok_perm; [apply Hb|apply HC|apply Hb|apply HC].
Qed.

Lemma new_builder_whole s : whole (new_builder s) = s.
Proof. unfold whole, new_builder. cbn [bulk_s nodeNext nodeEnd leafNext leafEnd]. rewrite !block_empty, !with_free_nil by lia. by destruct s. Qed.
Lemma new_builder_built K q X P s : trieBulkBlock <= K -> counted s X P -> pending s = q -> built K q X P (new_builder s).
Proof. intros HK HC Hq. split; [|done]. split; [by rewrite new_builder_whole|cbn; unfold trieBulkBlock; lia|cbn; unfold trieBulkBlock in HK; lia|done]. Qed.

(** A builder that reserves its leaves first. *)
Lemma reserve_first q X P s k : 0 < k -> counted s X P -> pending s = q -> forall ns ls, 0 <= ls -> enough (new_builder s) ns (k + ls) ->
  exists b, reserveLeaves k (new_builder s) = Some b /\ built (trieBulkBlock + k) q X P b /\ mem (whole b) = mem s /\ enough b ns (k + ls).
Proof.
  intros Hk HC Hq ns ls Hls He. destruct (new_builder_built (trieBulkBlock + k) q X P s ltac:(lia) HC Hq) as [H0 _]. destruct (reserveLeaves_spec (trieBulkBlock + k) k (new_builder s) X P H0 eq_refl) as (b & E & H & _ & HM & B); [destruct He; unfold trieBulkBlock in *; lia|unfold trieBulkBlock; lia|].
  exists b. split_and!; [done|split; [done|]; destruct B as (_ & -> & _); done|by rewrite HM, new_builder_whole|]. eapply (enough_builds _ b 0 0); [done|]. by rewrite !Z.add_0_l.
Qed.

(** The slots that a finished builder leaves. *)
Lemma finish_enough K q X P b ns ls : built K q X P b -> enough b (trieBulkBlock + ns) (K + ls) -> enough (new_builder (finish b)) ns ls.
Proof.
  intros [[_ Hn Hl _] _] [E1 E2]. unfold enough, node_slack, leaf_slack, slack in *. cbn. lia.
Qed.

Lemma depth_split : trieDepth = S (trieDepth - 1).
Proof. Transparent trieDepth. reflexivity. Opaque trieDepth. Qed.

Definition run_nodes (l : list trieItem) : Z := Z.of_nat (trieDepth - 1) * zlen l + trieBulkBlock.
Definition run_leaves (l : list trieItem) : Z := 2 * zlen l + trieBulkBlock.

Lemma build_run_spec q X P s nib run a c : batch [nib] run -> run <> [] -> counted s X P -> pending s = q -> 0 <= a -> 0 <= c -> enough (new_builder s) (run_nodes run + a) (run_leaves run + c) ->
  exists s' x, build_run (nib, run) s = Some (s', x) /\ (counted s' X (x :: P) /\ pending s' = q) /\ mem s ⊆ mem s' /\ enough (new_builder s') a c /\ den (mem s') x (build (trieDepth - 1) 1 run).
Proof.
  intros Hb Hne HC Hq Ha Hc He. unfold run_nodes, run_leaves in He. pose proof (zlen_pos run Hne) as Hlen. pose proof (eq_refl : trieBulkBlock = 256) as Eb.
  destruct (reserve_first q X P s (zlen run) ltac:(lia) HC Hq (Z.of_nat (trieDepth - 1) * zlen run + (trieBulkBlock + a)) (zlen run + (trieBulkBlock + c)) ltac:(lia)) as (b & E & H & HM & He1); [eapply enough_less; [exact He|lia|lia]|].
  assert (HL : levels (trieDepth - 1) [nib]) by (unfold levels; rewrite depth_split at 2; cbn [length]; lia).
  destruct (bulk_build_spec _ q X (trieDepth - 1) [nib] run P b (trieBulkBlock + a) (trieBulkBlock + zlen run + c) HL Hb Hne H ltac:(lia) ltac:(lia)) as (b1 & x & E1 & H1 & M1 & He2 & D1); [eapply enough_less; [exact He1|lia|lia]|].
  unfold build_run. cbn [snd]. rewrite E. cbn [mbind option_bind]. cbn [length] in E1. rewrite E1. cbn [mbind option_bind]. destruct (finish_spec _ _ _ _ (proj1 H1)) as (C1 & F1 & P1). exists (finish b1), x. split_and!; [done|done|rewrite P1; apply H1|by rewrite F1, <- HM| |by rewrite F1].
  eapply finish_enough; [exact H1|exact He2].
Qed.

Lemma increasing_length (l : list nat) : StronglySorted lt l -> (forall x, x ∈ l -> (x < 16)%nat) -> (length l <= 16)%nat.
Proof.
  intros Hs Hb. rewrite <- (length_seq 16 0). apply submseteq_length, NoDup_submseteq; [|intros x Hx; apply elem_of_seq; specialize (Hb x Hx); lia].
  clear Hb. induction Hs as [|x l _ IH Hx]; constructor; [|done]. rewrite Forall_forall in Hx. intros Hin. specialize (Hx x Hin). lia.
Qed.

Lemma total_affine k d l : total (fun items => k * zlen items + d) l = k * zlen (concat (map snd l)) + d * Z.of_nat (length l).
Proof. induction l as [|r l IH]; cbn; [unfold zlen; cbn; lia|]. unfold total in IH. rewrite IH. unfold zlen. rewrite length_app. lia. Qed.

(** Items that fit into the slots of a slab, whichever way they are built. *)
Definition fits_slab (items : list trieItem) : Prop := 32 * zlen items + 32 * trieBulkBlock <= slabMaxIndex.

Lemma start_enough ns ls : ns + trieBulkBlock + 1 <= slabMaxIndex -> ls + trieBulkBlock + 1 <= slabMaxIndex -> enough (new_builder newTrieSlab) ns ls.
Proof. intros H1 H2. unfold enough, node_slack, leaf_slack, slack. cbn [new_builder nodeNext nodeEnd leafNext leafEnd bulk_s newTrieSlab nodes leaves no_pool used]. lia. Qed.

Lemma fan_out_spec items : batch [] items -> items <> [] -> fits_slab items ->
  exists s refs, foldl (fun acc r => '(s, ch) ← acc; '(s, c) ← build_run r s; Some (s, <[r.1 := c]> ch)) (Some (newTrieSlab, no_refs)) (TrieBulk.runs 0 items) = Some (s, refs) /\
    built trieBulkBlock [] [] (refs ++ []) (new_builder s) /\ enough (new_builder s) 1 0 /\ length refs = length (foldl (fun ch r => <[r.1 := build (trieDepth - 1) 1 r.2]> ch) no_children (TrieBulk.runs 0 items)) /\
    forall j r t, refs !! j = Some r -> foldl (fun ch r => <[r.1 := build (trieDepth - 1) 1 r.2]> ch) no_children (TrieBulk.runs 0 items) !! j = Some t -> den (mem s) r t.
Proof.
  intros Hb Hne Hf. assert (Hs : StronglySorted lt (TrieBulk.runs 0 items).*1) by (apply (batch_increasing []); [rewrite depth_split; cbn [length]; lia|done]). pose proof (increasing_length _ Hs ltac:(intros x ([nib run] & -> & Hr)%list_elem_of_fmap; by eapply runs_bound)) as H16. rewrite length_fmap in H16.
  destruct (children_spec mem (fun s P => counted s [] P /\ pending s = []) (fun s => enough (new_builder s)) run_nodes run_leaves build_run (build (trieDepth - 1) 1) (fun r => batch [r.1] r.2 /\ r.2 <> [])) with (l := TrieBulk.runs 0 items) (s := newTrieSlab) (refs := no_refs) (ch := no_children) (P := @nil tref) (a := 1) (c := 0) as (s & refs & E & L & D & [HC Hq] & _ & He).
  - intros l. unfold run_nodes, run_leaves, zlen, trieBulkBlock. nia.
  - intros s P P' HP [HC Hq]. split; [by eapply counted_more|done].
  - intros [nib run] s P a c [Hbr Hnr] [HC Hq] Ha Hc He. by apply build_run_spec.
  - done.
  - intros [nib run] Hr. cbn [fst snd]. split; [split; [by apply (batch_run [] items)|by destruct (runs_nibble _ _ _ _ Hr)]|]. apply no_refs_lookup. by eapply runs_bound.
  - done.
  - apply no_refs_den.
  - split; [|done]. eapply counted_more; [|exact counted_start]. intros r Hr. by apply not_elem_of_nil in Hr.
  - lia.
  - lia.
  - unfold run_nodes, run_leaves. rewrite !total_affine, runs_concat. unfold fits_slab in Hf. assert (E31 : Z.of_nat (trieDepth - 1) = 31) by done. rewrite E31. unfold zlen in *. pose proof (eq_refl : trieBulkBlock = 256). apply start_enough; nia.
  - exists s, refs. split_and!; [done| |done|done|done]. apply new_builder_built; [done|by rewrite app_nil_r in *|done].
Qed.

(** A bulk build succeeds, and its slab holds the tree of the items and nothing else. *)
Lemma trieBuildItems_ref_spec items : batch [] items -> fits_slab items -> exists s r, trieBuildItems_ref items = Some (s, r) /\ sound s [r] /\ den (mem s) r (trieBuildItems items).
Proof.
  intros Hb Hf. destruct (decide (items = [])) as [->|Hne]; [exists newTrieSlab, Zero; split_and!; [done|by apply sound_zero, counted_start|constructor]|].
  assert (W : wf trieDepth [] (trieBuildItems items)) by (rewrite trieBuildItems_build by done; by apply (build_spec trieDepth [])). pose proof (zlen_pos items Hne) as Hlen.
  assert (Hbuild : exists b r, (if 4096 <=? zlen items then
      '(s, children) ← foldl (fun acc r => '(s, ch) ← acc; '(s, c) ← build_run r s; Some (s, <[r.1 := c]> ch)) (Some (newTrieSlab, no_refs)) (TrieBulk.runs 0 items);
      bulk_node children (new_builder s)
    else b ← reserveLeaves (zlen items) (new_builder newTrieSlab); bulk_build trieDepth 0 items b) = Some (b, r) /\ (exists K, bulked K b [] [r]) /\ pending (bulk_s b) = [] /\ den (mem (whole b)) r (trieBuildItems items)).
  { destruct (Z.leb_spec 4096 (zlen items)) as [Hbig|Hsmall].
    - destruct (fan_out_spec items Hb Hne Hf) as (s & refs & E & [H Hq] & He & L & D). rewrite E. cbn [mbind option_bind]. assert (Et : trieBuildItems items = newNode (foldl (fun ch r => <[r.1 := build (trieDepth - 1) 1 r.2]> ch) no_children (TrieBulk.runs 0 items))).
      { unfold trieBuildItems. destruct items; [done|]. rewrite (proj2 (Nat.leb_le _ _)); [done|]. unfold zlen in Hbig. lia. }
      rewrite Et in W |- *. destruct (bulk_node_spec trieBulkBlock (new_builder s) [] [] refs _ trieDepth [] H ltac:(destruct He; unfold trieBulkBlock in *; lia) L ltac:(by rewrite new_builder_whole) W ltac:(done)) as (b & r & Eb & Hb' & B & Db). exists b, r. split_and!; [done|by exists trieBulkBlock|destruct B as (_ & -> & _); done|done].
    - destruct (reserve_first [] [] [] newTrieSlab (zlen items) ltac:(lia) counted_start eq_refl (32 * zlen items) 0 ltac:(lia)) as (b & E & H & HM & He); [apply start_enough; unfold fits_slab, trieBulkBlock in *; lia|]. rewrite E. cbn [mbind option_bind].
      destruct (bulk_build_spec _ [] [] trieDepth [] items [] b 0 0 eq_refl Hb Hne H ltac:(lia) ltac:(lia)) as (b1 & r & E1 & H1 & _ & _ & D1); [eapply enough_less; [exact He|change (Z.of_nat trieDepth) with 32; lia|lia]|]. exists b1, r. split_and!; [done|eexists; apply H1|apply H1|]. by rewrite trieBuildItems_build. }
  destruct Hbuild as (b & r & E & [K H] & Hq & D). destruct (finish_spec _ _ _ _ H) as (C1 & F1 & P1). exists (retain r (finish b)), r. split_and!.
  - unfold trieBuildItems_ref. destruct items; [done|]. by rewrite E.
  - apply counted_retain in C1; [|rewrite F1; by eapply den_present]. unfold sound. destruct (pools_retain r (finish b)) as (-> & _ & _). by rewrite P1, Hq.
  - by rewrite mem_retain, F1.
Qed.

End SlabBulk.
