(* ===== verification/SlabFamily.v ===== *)
(** A family of trees over one slab: trees derived from each other share records, updates of
    several of them may be under way at once, and trees are dropped in any order.

    An update reads the slab without its lock when it starts, and places its records under
    the lock when it finishes; other updates and drops may come in between.  It keeps the
    handle of the tree it started from.  The abstract view of a family is a finite map of
    handles to the maps that their trees hold. *)

From S2P Require Import Prelude Primitives Schema KdbCodec Document Sha256 Commit TrieHash Trie TrieCorrect TrieWalk TrieBulk DocumentTree TreeMap TreeSlab SlabEdit SlabMemory SlabPlace SlabBulk.
Import Primitives TrieHash Trie TrieCorrect TrieWalk TrieBulk DocumentTree TreeMap TreeSlab SlabEdit SlabMemory SlabPlace SlabBulk.

Module SlabFamily.

#[local] Opaque trieDepth uuidKey keyUUID.

(** ** Updates and drops *)

Inductive request := AskWith (id : UUID) (h : Hash) | AskWithAll (es : list (UUID * Hash)) | AskWithout (id : UUID).
Inductive action := Start (j h : nat) (q : request) | Finish (j h : nat) | Drop (h : nat) (idle : bool).

(** The handles in use, with their roots, and the updates under way, each with the handle it
    started from; the first update of a slab starts from no tree. *)
Record family := mkFamily { slab : trieSlab; held : gmap nat tref; edits : gmap nat (option nat * edited) }.

(** What an update reads and makes before it takes the lock. *)
Definition edit_of (q : request) (s : trieSlab) (root : tref) : edited :=
  match q with
  | AskWith id h => insert trieDepth 0 s root (uuidKey id) h
  | AskWithAll es => insertMany_ref trieDepth 0 s root (batch_items es)
  | AskWithout id => TreeSlab.delete trieDepth 0 s root (uuidKey id)
  end.
Definition base_root (f : family) (b : option nat) : option tref := match b with None => Some Zero | Some h => held f !! h end.

(** The family after an action; nothing when it panics.  An update that changes nothing
    answers with the handle it started from, and the empty tree has no handle. *)
Definition perform (a : action) (f : family) : option family :=
  match a with
  | Start j h q => root ← held f !! h; Some (mkFamily (slab f) (held f) (<[j := (Some h, edit_of q (slab f) root)]> (edits f)))
  | Finish j h =>
    '(b, e) ← edits f !! j;
    root ← base_root f b;
    if same e root then Some (mkFamily (slab f) (held f) (base.delete j (edits f)))
    else
      '(s, r) ← commit e (slab f);
      Some (mkFamily s (if bool_decide (r = Zero) then held f else <[h := r]> (held f)) (base.delete j (edits f)))
  | Drop h idle =>
    root ← held f !! h;
    s ← dropTrieRoot root idle (slab f);
    Some (mkFamily s (base.delete h (held f)) (edits f))
  end.

Definition request_wf (q : request) : Prop :=
  match q with
  | AskWith id h => uuid_wf id /\ hash_wf h
  | AskWithAll es => entries_wf es /\ es <> []
  | AskWithout id => uuid_wf id
  end.

(** A handle is dropped only when no update uses it. *)
Definition enabled (f : family) (a : action) : Prop :=
  match a with
  | Start j h q => is_Some (held f !! h) /\ edits f !! j = None /\ request_wf q
  | Finish j h => is_Some (edits f !! j) /\ held f !! h = None
  | Drop h _ => is_Some (held f !! h) /\ map_Forall (fun _ e => e.1 <> Some h) (edits f)
  end.

(** There is room for the records of the update that finishes. *)
Definition fits (f : family) (a : action) : Prop :=
  match a with
  | Finish j _ => forall b e root, edits f !! j = Some (b, e) -> base_root f b = Some root -> same e root = false -> commits e (slab f)
  | _ => True
  end.

(** The family that the first update of a new slab opens. *)
Definition opened (q : request) : family := mkFamily newTrieSlab ∅ {[0%nat := (None, edit_of q newTrieSlab Zero)]}.

Inductive executes (f : family) : list action -> family -> Prop :=
  | executes_nil : executes f [] f
  | executes_snoc l f1 a f2 : executes f l f1 -> enabled f1 a -> perform a f1 = Some f2 -> executes f (l ++ [a]) f2.

(** ** The maps that trees stand for *)

Record trees := mkTrees { maps : gmap nat (gmap UUID Hash); drafts : gmap nat (option nat * gmap UUID Hash) }.

Definition apply (q : request) (m : gmap UUID Hash) : gmap UUID Hash :=
  match q with AskWith id h => <[id := h]> m | AskWithAll es => set_all m es | AskWithout id => base.delete id m end.
Definition base_map (a : trees) (b : option nat) : option (gmap UUID Hash) := match b with None => Some ∅ | Some h => maps a !! h end.

Inductive acts (a : trees) : action -> trees -> Prop :=
  | acts_start j h q m : maps a !! h = Some m -> acts a (Start j h q) (mkTrees (maps a) (<[j := (Some h, apply q m)]> (drafts a)))
  | acts_unchanged j h b m : drafts a !! j = Some (b, m) -> base_map a b = Some m -> acts a (Finish j h) (mkTrees (maps a) (base.delete j (drafts a)))
  | acts_emptied j h b : drafts a !! j = Some (b, ∅) -> acts a (Finish j h) (mkTrees (maps a) (base.delete j (drafts a)))
  | acts_finish j h b m : drafts a !! j = Some (b, m) -> m <> ∅ -> acts a (Finish j h) (mkTrees (<[h := m]> (maps a)) (base.delete j (drafts a)))
  | acts_drop h idle : acts a (Drop h idle) (mkTrees (base.delete h (maps a)) (drafts a)).

Inductive acts_all (a : trees) : list action -> trees -> Prop :=
  | acts_all_nil : acts_all a [] a
  | acts_all_snoc l a1 x a2 : acts_all a l a1 -> acts a1 x a2 -> acts_all a (l ++ [x]) a2.

Definition opened_trees (q : request) : trees := mkTrees ∅ {[0%nat := (None, apply q ∅)]}.

(** ** Simulation *)

Definition roots (f : family) : list tref := (map_to_list (held f)).*2.

(** The tree with this root holds the map. *)
Definition stands (s : trieSlab) (r : tref) (m : gmap UUID Hash) : Prop := exists t, den (mem s) r t /\ holds_map t m.
Definition drafted (s : trieSlab) (root : tref) (e : edited) (m : gmap UUID Hash) : Prop := exists t, eden (mem s) root e t /\ holds_map t m.

Record linked (f : family) (a : trees) : Prop := mkLinked {
  linked_dom : dom (held f) = dom (maps a);
  linked_held : forall h r m, held f !! h = Some r -> maps a !! h = Some m -> r <> Zero /\ stands (slab f) r m;
  linked_edits : dom (edits f) = dom (drafts a);
  linked_drafts : forall j b e b' m, edits f !! j = Some (b, e) -> drafts a !! j = Some (b', m) -> b' = b /\ exists root, base_root f b = Some root /\ drafted (slab f) root e m }.
Definition agrees (f : family) (a : trees) : Prop := sound (slab f) (roots f) /\ linked f a.

Lemma elem_of_roots f h r : held f !! h = Some r -> r ∈ roots f.
Proof. intros H. apply list_elem_of_fmap. exists (h, r). split; [done|by apply elem_of_map_to_list]. Qed.

(** The edit of a request makes the tree of the updated map. *)
Lemma edit_of_drafted q s root m : stands s root m -> request_wf q -> drafted s root (edit_of q s root) (apply q m).
Proof.
  intros (t & D & H) Hq. pose proof H as (W & _). destruct q as [id h|es|id]; cbn [edit_of apply request_wf] in *.
  - destruct Hq as [Hid Hh]. exists (trieWith t id h). split; [|by apply trieWith_holds]. exact (insert_eden s root trieDepth [] root t (uuidKey id) h D (below_root _ _) W eq_refl (uuidKey_length id) (under_nil _)).
  - destruct Hq as [Hes Hne]. exists (trieWithAll t (batch_items es)). split; [|by apply trieWithAll_holds]. exact (insertMany_eden s root trieDepth [] root t (batch_items es) D (below_root _ _) W eq_refl (batch_items_batch es Hes) (batch_items_nonempty es Hes Hne)).
  - exists (trieWithout t id). split; [|by apply trieWithout_holds]. exact (delete_eden s root trieDepth [] root t (uuidKey id) D (below_root _ _) W eq_refl (under_nil _)).
Qed.

Lemma stands_empty s : stands s Zero ∅.
Proof. exists Empty. split; [constructor|apply holds_empty]. Qed.

Lemma opened_agrees q : request_wf q -> agrees (opened q) (opened_trees q).
Proof.
  intros Hq. split; [exact counted_start|]. split; cbn; [by rewrite !dom_empty_L|by intros h r m; rewrite lookup_empty|by rewrite !dom_singleton_L|].
  intros j b e b' m [<- E1]%lookup_singleton_Some [_ E2]%lookup_singleton_Some. injection E1 as <- <-. injection E2 as <- <-. split; [done|]. exists Zero. split; [done|]. apply edit_of_drafted; [apply stands_empty|done].
Qed.

(** What a change of the slab that keeps the trees in use leaves in place. *)
Lemma keeps_stands s s' X r m : keeps s s' X -> r ∈ X -> stands s r m -> stands s' r m.
Proof. intros K Hr (t & D & H). exists t. split; [by eapply keeps_den|done]. Qed.
Lemma keeps_drafted s s' X root e m : keeps s s' X -> root ∈ X \/ root = Zero -> drafted s root e m -> drafted s' root e m.
Proof. intros K Hr (t & D & H). exists t. split; [by eapply keeps_eden|done]. Qed.

Lemma base_root_in f b root : base_root f b = Some root -> root ∈ roots f \/ root = Zero.
Proof. destruct b as [h|]; cbn; [intros H; left; by eapply elem_of_roots|intros [= <-]; by right]. Qed.

Lemma stands_unique s r m m' : stands s r m -> stands s r m' -> m = m'.
Proof. intros (t & D & H) (t' & D' & H'). rewrite <- (entries_map t m H), <- (entries_map t' m' H'). by rewrite (den_fun _ _ _ _ D D'). Qed.

(** Other trees and updates after a change of the slab. *)
Lemma linked_keep f a s : linked f a -> keeps (slab f) s (roots f) -> linked (mkFamily s (held f) (edits f)) a.
Proof.
  intros [H2 H3 H4 H5] K. split; cbn [slab held edits]; [done| |done|].
  - intros h r m Hr Hm. destruct (H3 h r m Hr Hm) as [Hz S]. split; [done|]. eapply keeps_stands; [done|by eapply elem_of_roots|done].
  - intros j b e b' m He Hm. destruct (H5 j b e b' m He Hm) as (E & root & Hr & D). split; [done|]. exists root. split; [done|]. eapply keeps_drafted; [done|by eapply base_root_in|done].
Qed.

Lemma linked_held_some f a h r : linked f a -> held f !! h = Some r -> exists m, maps a !! h = Some m /\ r <> Zero /\ stands (slab f) r m.
Proof. intros H Hr. assert (Hm : h ∈ dom (maps a)) by (rewrite <- (linked_dom _ _ H); by eapply elem_of_dom_2). apply elem_of_dom in Hm as [m Hm]. exists m. split; [done|by eapply linked_held]. Qed.
Lemma linked_edit_some f a j b e : linked f a -> edits f !! j = Some (b, e) -> exists m root, drafts a !! j = Some (b, m) /\ base_root f b = Some root /\ drafted (slab f) root e m.
Proof.
  intros H He. assert (Hm : j ∈ dom (drafts a)) by (rewrite <- (linked_edits _ _ H); by eapply elem_of_dom_2). apply elem_of_dom in Hm as [[b' m] Hm]. destruct (linked_drafts _ _ H j b e b' m He Hm) as (-> & root & Hr & D). by exists m, root.
Qed.
Lemma linked_base f a b root : linked f a -> base_root f b = Some root -> exists m, base_map a b = Some m /\ stands (slab f) root m.
Proof. intros H. destruct b as [h|]; cbn; [|intros [= <-]; exists ∅; split; [done|apply stands_empty]]. intros Hr. destruct (linked_held_some f a h root H Hr) as (m & Hm & _ & S). by exists m. Qed.

Lemma linked_start f a j h q root m : linked f a -> held f !! h = Some root -> maps a !! h = Some m -> request_wf q ->
  linked (mkFamily (slab f) (held f) (<[j := (Some h, edit_of q (slab f) root)]> (edits f))) (mkTrees (maps a) (<[j := (Some h, apply q m)]> (drafts a))).
Proof.
  intros [H2 H3 H4 H5] Hr Hm Hq. split; cbn [slab held edits maps drafts]; [done|done|by rewrite !dom_insert_L, H4|]. intros j' b e b' m' [[<- E1]|[Hne He]]%lookup_insert_Some Hm'.
  - rewrite lookup_insert_eq in Hm'. injection E1 as <- <-. injection Hm' as <- <-. split; [done|]. exists root. split; [done|]. apply edit_of_drafted; [|done]. by eapply H3.
  - rewrite lookup_insert_ne in Hm' by done. exact (H5 j' b e b' m' He Hm').
Qed.

Lemma linked_done f a j : linked f a -> linked (mkFamily (slab f) (held f) (base.delete j (edits f))) (mkTrees (maps a) (base.delete j (drafts a))).
Proof. intros [H2 H3 H4 H5]. split; cbn [slab held edits maps drafts]; [done..|by rewrite !dom_delete_L, H4|]. intros j' b e b' m [_ He]%lookup_delete_Some [_ Hm]%lookup_delete_Some. exact (H5 j' b e b' m He Hm). Qed.

Lemma linked_new f a h r m : linked f a -> held f !! h = None -> r <> Zero -> stands (slab f) r m -> linked (mkFamily (slab f) (<[h := r]> (held f)) (edits f)) (mkTrees (<[h := m]> (maps a)) (drafts a)).
Proof.
  intros [H2 H3 H4 H5] Hh Hz S. split; cbn [slab held edits maps drafts]; [by rewrite !dom_insert_L, H2| |done|].
  - intros h' r' m' [[<- <-]|[Hne Hr']]%lookup_insert_Some Hm'; [rewrite lookup_insert_eq in Hm'; by injection Hm' as <-|]. rewrite lookup_insert_ne in Hm' by done. by eapply H3.
  - intros j b e b' m' He Hm'. destruct (H5 j b e b' m' He Hm') as (-> & root & Hr & D). split; [done|]. exists root. split; [|done]. destruct b as [h'|]; [|done]. cbn in *. rewrite lookup_insert_ne; [done|]. intros <-. congruence.
Qed.

Lemma linked_drop f a h : linked f a -> map_Forall (fun _ e => e.1 <> Some h) (edits f) -> linked (mkFamily (slab f) (base.delete h (held f)) (edits f)) (mkTrees (base.delete h (maps a)) (drafts a)).
Proof.
  intros [H2 H3 H4 H5] Hd. split; cbn [slab held edits maps drafts]; [by rewrite !dom_delete_L, H2| |done|].
  - intros h' r m [_ Hr]%lookup_delete_Some [_ Hm]%lookup_delete_Some. by eapply H3.
  - intros j b e b' m He Hm. destruct (H5 j b e b' m He Hm) as (-> & root & Hr & D). split; [done|]. exists root. split; [|done]. pose proof (Hd j _ He) as Hb. destruct b as [h'|]; [|done]. cbn in *. rewrite lookup_delete_ne; [done|]. by intros ->.
Qed.

Lemma sound_perm s X X' : X ≡ₚ X' -> sound s X -> sound s X'.
Proof. intros HX. unfold sound. by rewrite HX. Qed.
Lemma den_zero M r : den M r Empty -> r = Zero.
Proof. by inversion 1. Qed.

(** A tree is empty exactly when its root is zero. *)
Lemma stands_zero s r m : stands s r m -> r = Zero <-> m = ∅.
Proof. intros S. split; [intros ->; eapply stands_unique; [done|apply stands_empty]|]. intros ->. destruct S as (t & D & H). rewrite (holds_unique t Empty ∅ H holds_empty) in D. by eapply den_zero. Qed.

Lemma finish_agrees f a j h : agrees f a -> enabled f (Finish j h) -> fits f (Finish j h) -> exists f' a', perform (Finish j h) f = Some f' /\ acts a (Finish j h) a' /\ agrees f' a'.
Proof.
  intros [Hs H] ([[b e] He] & Hh) Hf. destruct (linked_edit_some f a j b e H He) as (m & root & Hm & Hr & t & D & Ht). cbn [perform]. rewrite He. cbn [mbind option_bind]. rewrite Hr. cbn [mbind option_bind]. specialize (Hf b e root He Hr). destruct (linked_base f a b root H Hr) as (m0 & Hm0 & t0 & D0 & Ht0). destruct (same e root) eqn:Es.
  - eexists _, _. split_and!; [done| |split; [exact Hs|by apply linked_done]]. eapply acts_unchanged; [done|]. rewrite Hm0. f_equal. rewrite (same_den (slab f) root e root t t0 Es D D0) in Ht. by rewrite <- (entries_map t0 m Ht), <- (entries_map t0 m0 Ht0).
  - destruct (commit_spec (slab f) (roots f) root e t Hs (base_root_in f b root Hr) D (proj1 Ht) (Hf eq_refl)) as (s' & r & E & Hs' & K & D'). rewrite E. cbn [mbind option_bind]. assert (S : stands s' r m) by (by exists t). pose proof (linked_done _ _ j (linked_keep f a s' H K)) as L. cbn [slab held edits] in L.
    case_bool_decide as Ez; (eexists _, _; split; [done|]).
    + subst r. assert (Em : m = ∅) by (by apply (stands_zero s' Zero m S)). subst m. split; [by eapply acts_emptied|]. split; [|done]. by apply sound_zero.
    + split; [eapply acts_finish; [done|]; by rewrite <- (stands_zero s' r m S)|]. split; [|by apply (linked_new _ _ h r m L)]. unfold roots. cbn [slab held]. eapply sound_perm; [|exact Hs']. by rewrite (map_to_list_insert (held f) h r Hh).
Qed.

Lemma drop_agrees f a h idle : agrees f a -> enabled f (Drop h idle) -> exists f' a', perform (Drop h idle) f = Some f' /\ acts a (Drop h idle) a' /\ agrees f' a'.
Proof.
  intros [Hs H] ([root Hr] & Hd). cbn [perform]. rewrite Hr. cbn [mbind option_bind]. assert (Hp : roots f ≡ₚ root :: (map_to_list (base.delete h (held f))).*2) by (unfold roots; by rewrite <- (map_to_list_delete (held f) h root Hr)).
  destruct (drop_spec (slab f) (map_to_list (base.delete h (held f))).*2 root idle ltac:(by eapply sound_perm)) as (s' & E & Hs' & K & _). rewrite E. cbn [mbind option_bind]. eexists _, _. split_and!; [done|apply acts_drop|]. split; [exact Hs'|].
  exact (linked_keep (mkFamily (slab f) (base.delete h (held f)) (edits f)) _ s' (linked_drop f a h H Hd) K).
Qed.

(** Every action of a family that agrees with its maps goes through and keeps them in agreement. *)
Lemma perform_agrees f a x : agrees f a -> enabled f x -> fits f x -> exists f' a', perform x f = Some f' /\ acts a x a' /\ agrees f' a'.
Proof.
  intros H. destruct x as [j h q|j h|h idle]; [intros ([root Hr] & Hj & Hq) _|by apply finish_agrees|intros He _; by apply drop_agrees].
  destruct H as [Hs H]. destruct (linked_held_some f a h root H Hr) as (m & Hm & _). cbn [perform]. rewrite Hr. cbn [mbind option_bind]. eexists _, _. split_and!; [done|by apply acts_start|split; [exact Hs|by apply linked_start]].
Qed.

Lemma perform_fits f a x f' : agrees f a -> perform x f = Some f' -> fits f x.
Proof.
  intros [Hs _]. destruct x as [j h q|j h|h idle]; [done| |done]. cbn [perform]. intros H b e root He Hr Es. rewrite He in H. cbn [mbind option_bind] in H. rewrite Hr in H. cbn [mbind option_bind] in H. rewrite Es in H. destruct (commit e (slab f)) as [p|] eqn:E; [|done]. by eapply commit_commits.
Qed.

(** A slab begins with a first update, or with a bulk build. *)
Inductive begins : family -> trees -> Prop :=
  | begins_update q : request_wf q -> begins (opened q) (opened_trees q)
  | begins_build m s r : map_wf m -> m <> ∅ -> fits_slab (items_of m) -> trieBuildItems_ref (items_of m) = Some (s, r) -> begins (mkFamily s {[0%nat := r]} ∅) (mkTrees {[0%nat := m]} ∅).

Lemma build_stands m : map_wf m -> fits_slab (items_of m) -> exists s r, trieBuildItems_ref (items_of m) = Some (s, r) /\ sound s [r] /\ stands s r m.
Proof. intros Hm Hf. destruct (trieBuildItems_ref_spec (items_of m) (items_batch m Hm) Hf) as (s & r & E & Hs & D). exists s, r. split_and!; [done|done|]. exists (trieBuildItems (items_of m)). split; [done|]. exact (trieBuild_holds m Hm). Qed.

Lemma begins_agrees f a : begins f a -> agrees f a.
Proof.
  intros [q Hq|m s r Hm Hne Hf E]; [by apply opened_agrees|]. destruct (build_stands m Hm Hf) as (s' & r' & E' & Hs & S). rewrite E in E'. injection E' as <- <-. split; [unfold roots; cbn [held slab]; by rewrite map_to_list_singleton|].
  split; cbn [slab held edits maps drafts]; [by rewrite !dom_singleton_L| |by rewrite !dom_empty_L|by intros j b e b' m'; rewrite lookup_empty]. intros h r0 m0 [<- <-]%lookup_singleton_Some [_ <-]%lookup_singleton_Some. split; [|done]. by rewrite (stands_zero s r m S).
Qed.

Lemma executes_agrees f0 a0 l f : begins f0 a0 -> executes f0 l f -> exists a, acts_all a0 l a /\ agrees f a.
Proof.
  intros Hb. induction 1 as [|l f1 x f2 _ (a1 & A1 & H1) Hen Hp]; [exists a0; split; [constructor|by apply begins_agrees]|].
  destruct (perform_agrees f1 a1 x H1 Hen (perform_fits _ _ _ _ H1 Hp)) as (f' & a' & Hp' & A' & H'). rewrite Hp in Hp'. injection Hp' as <-. exists a'. split; [by eapply acts_all_snoc|done].
Qed.

(** ** Reads *)

(** Every read of a tree gives what its map holds. *)
Definition reads (s : trieSlab) (r : tref) (m : gmap UUID Hash) : Prop :=
  mkHash (view_hash s r) = tree_hash m /\
  (forall id, uuid_wf id -> get_ref trieDepth 0 s r (uuidKey id) = m !! id) /\
  (forall A (visit : A -> bytes * Hash -> A * bool) a, walk_ref visit trieDepth s a r = fold_until visit a (items_of m)).

Lemma stands_reads s r m : stands s r m -> reads s r m.
Proof.
  intros (t & D & H). pose proof H as (W & _ & G). split_and!.
  - rewrite (view_hash_den s r t D). exact (rootHash_map t m H).
  - intros id Hid. rewrite <- (G id Hid). exact (get_ref_den trieDepth [] s r t (uuidKey id) D W).
  - intros A visit a. rewrite (walk_ref_den visit trieDepth [] s r t a D W), walk_until_list. by rewrite (walk_items t m H).
Qed.

(** ** Reclamation *)

Fixpoint height (t : trie) : nat := match t with Node _ ch => S (foldr (fun c n => Nat.max (height c) n) 0%nat ch) | _ => 0%nat end.

Lemma height_child ch j t : ch !! j = Some t -> (height t <= foldr (fun c n => Nat.max (height c) n) 0 ch)%nat.
Proof. revert j. induction ch as [|c ch IH]; intros [|j]; cbn; [done..|intros [= ->]; lia|]. intros Hj. specialize (IH j Hj). lia. Qed.
Lemma wf_height n pre t : wf n pre t -> (height t <= n)%nat.
Proof.
  induction 1 as [| |n pre ch Hl Hc Hw IH]; [cbn; lia|cbn; lia|]. cbn. apply le_n_S. clear Hl Hc Hw. assert (H : forall c, c ∈ ch -> (height c <= n)%nat) by (intros c [j Hj]%list_elem_of_lookup; by eapply IH). clear IH. induction ch as [|c ch IH]; cbn; [lia|]. pose proof (H c ltac:(by left)). specialize (IH ltac:(intros; apply H; by right)). lia.
Qed.

(** Records that only other records refer to cannot be: there would be one above any height. *)
Lemma counted_empty s : counted s [] [] -> mem s = ∅.
Proof.
  intros H. apply map_empty. intros r0. apply eq_None_not_Some. intros [x0 Hx0]. assert (Hup : forall k, exists r x t, mem s !! r = Some x /\ den (mem s) r t /\ (k <= height t)%nat).
  { induction k as [|k (r & x & t & Hx & D & Hk)]; [destruct (inv_den _ _ _ H r0 x0 Hx0) as (n & pre & t & D & _); exists r0, x0, t; split_and!; [done|done|lia]|].
    destruct (inv_held _ _ _ H r x Hx) as [?%not_elem_of_nil|Hc]; [done|]. rewrite (inv_count _ _ _ H) in Hc by (intros ->; by rewrite mem_zero in Hx). cbn [app] in Hc. pose proof (occ_pos r (edges (mem s))). assert (Hin : r ∈ edges (mem s)) by (apply occ_elem; lia).
    apply elem_of_edges in Hin as (r' & x' & Hx' & Hin). destruct (inv_den _ _ _ H r' x' Hx') as (n & pre & t' & D' & _). exists r', x', t'. split_and!; [done|done|]. inversion D' as [|? ? ? ? Hm|? h refs ch Hm Hl Hd]; subst; rewrite Hm in Hx' || rewrite mem_zero in Hx'; [done|injection Hx' as <-; by apply not_elem_of_nil in Hin|]. injection Hx' as <-.
    apply list_elem_of_lookup in Hin as [j Hj]. destruct (lookup_lt_is_Some_2 ch j ltac:(rewrite <- Hl; by eapply lookup_lt_Some)) as [u Hu]. pose proof (den_fun _ _ _ _ D (Hd j r u Hj Hu)) as ->. cbn. apply le_n_S. etrans; [exact Hk|by eapply height_child]. }
  destruct (Hup (S trieDepth)) as (r & x & t & Hx & D & Hk). destruct (inv_den _ _ _ H r x Hx) as (n & pre & t' & D' & W & L). rewrite (den_fun _ _ _ _ D D') in Hk. pose proof (wf_height _ _ _ W). lia.
Qed.

(** All slots that were handed out are free. *)
Definition all_free (s : trieSlab) : Prop :=
  (forall i, 1 <= i < used (nodes s) -> i ∈ free (nodes s)) /\ (forall i, 1 <= i < used (leaves s) -> i ∈ free (leaves s)).

Lemma empty_free s : counted s [] [] -> all_free s.
Proof.
  intros H. pose proof (counted_empty s H) as E. split; intros i Hi.
  - destruct (inv_nodes _ _ _ H) as (_ & _ & Hr). destruct (proj1 (Hr i) Hi) as [[x Hx]|]; [|done]. destruct (decide (i ∈ free (nodes s))); [done|]. assert (Hm : mem s !! NodeRef i = Some (of_node x)) by (by rewrite mem_node, live_lookup, decide_False, Hx by done). by rewrite E, lookup_empty in Hm.
  - destruct (inv_leaves _ _ _ H) as (_ & _ & Hr). destruct (proj1 (Hr i) Hi) as [[x Hx]|]; [|done]. destruct (decide (i ∈ free (leaves s))); [done|]. assert (Hm : mem s !! LeafRef i = Some (of_leaf x)) by (by rewrite mem_leaf, live_lookup, decide_False, Hx by done). by rewrite E, lookup_empty in Hm.
Qed.

(** ** A small family *)

Definition demo_request : request := AskWith sample_id (mkHash trieZero).
Definition demo_held (h k : bytes) (c : Hash) : family := mkFamily (mkSlab no_pool (mkPool {[1 := mkLeafRec h k c]} {[1 := 1]} 2 []) []) {[0%nat := LeafRef 1]} ∅.
Definition demo_gone (h k : bytes) (c : Hash) : family := mkFamily (mkSlab no_pool (mkPool {[1 := mkLeafRec h k c]} {[1 := 0]} 2 [1]) []) ∅ ∅.

Lemma demo_opened : opened demo_request = mkFamily newTrieSlab ∅ {[0%nat := (None, edit_newLeaf (uuidKey sample_id) (mkHash trieZero) 0)]}.
Proof. unfold opened, demo_request, edit_of. by rewrite depth_split. Qed.
Lemma demo_finish h k c : perform (Finish 0 0) (mkFamily newTrieSlab ∅ {[0%nat := (None, NewLeaf h k c)]}) = Some (demo_held h k c).
Proof. reflexivity. Qed.
Lemma demo_drop h k c : perform (Drop 0 true) (demo_held h k c) = Some (demo_gone h k c).
Proof. reflexivity. Qed.

Lemma demo_begins : begins (opened demo_request) (opened_trees demo_request).
Proof. constructor. split; [apply sample_id_wf|done]. Qed.

Lemma demo_run : executes (opened demo_request) [Finish 0 0] (demo_held (foldLeaf (uuidKey sample_id) (mkHash trieZero) 0) (uuidKey sample_id) (mkHash trieZero)).
Proof. apply (executes_snoc _ [] (opened demo_request)); [constructor|split; [by eexists|done]|]. rewrite demo_opened. apply demo_finish. Qed.
Lemma demo_drops h k c : enabled (demo_held h k c) (Drop 0 true).
Proof. split; [by eexists|apply map_Forall_empty]. Qed.

(** ** What holds of every family *)

(** C9. Whatever updates of its trees are started, interleaved and finished, and whichever
    trees are dropped in between, the trees of a slab that are still held are the maps that
    the same actions give on finite maps: the root hash, every lookup and every walk of a tree
    read its map, although records are shared, freed and reused. *)
Theorem slab_refines f0 a0 l f (Hb : begins f0 a0) (He : executes f0 l f) :
  exists a, acts_all a0 l a /\ dom (held f) = dom (maps a) /\ forall h r m, held f !! h = Some r -> maps a !! h = Some m -> reads (slab f) r m.
Proof. destruct (executes_agrees f0 a0 l f Hb He) as (a & A & [_ L]). exists a. split_and!; [done|apply L|]. intros h r m Hr Hm. apply stands_reads. by apply (linked_held _ _ L h). Qed.

Lemma slab_refines_witness : exists f a, executes (opened demo_request) [Finish 0 0] f /\ acts_all (opened_trees demo_request) [Finish 0 0] a /\ dom (maps a) = {[0%nat]}.
Proof. eexists. destruct (slab_refines _ _ _ _ demo_begins demo_run) as (a & A & D & _). exists a. split_and!; [apply demo_run|exact A|]. rewrite <- D. apply dom_singleton_L. Defined.

(** No action on a slab panics while it has slots left: in every state that a family can
    reach, releasing the queued roots, placing an update and dropping a tree all go through. *)
Theorem slab_progress f0 a0 l f x (Hb : begins f0 a0) (He : executes f0 l f) (Hx : enabled f x) (Hf : fits f x) : is_Some (perform x f).
Proof. destruct (executes_agrees f0 a0 l f Hb He) as (a & _ & H). destruct (perform_agrees f a x H Hx Hf) as (f' & _ & E & _). by exists f'. Qed.

Lemma slab_progress_witness : exists f, executes (opened demo_request) [Finish 0 0] f /\ is_Some (perform (Drop 0 true) f).
Proof. eexists. split; [apply demo_run|]. exact (slab_progress _ _ _ _ (Drop 0 true) demo_begins demo_run (demo_drops _ _ _) I). Defined.

(** C11. A slab leaks nothing: when no tree is held any more and the queue of dropped roots is
    drained, every slot that was ever handed out is free again. *)
Theorem slab_reclaims f0 a0 l f (Hb : begins f0 a0) (He : executes f0 l f) (Hh : held f = ∅) (Hp : pending (slab f) = []) : all_free (slab f).
Proof. destruct (executes_agrees f0 a0 l f Hb He) as (a & _ & [Hs _]). apply empty_free. unfold sound, roots in Hs. by rewrite Hh, Hp, map_to_list_empty in Hs. Qed.

Lemma slab_reclaims_witness : exists f, executes (opened demo_request) [Finish 0 0; Drop 0 true] f /\ used (leaves (slab f)) = 2 /\ all_free (slab f).
Proof.
  assert (He : executes (opened demo_request) [Finish 0 0; Drop 0 true] (demo_gone (foldLeaf (uuidKey sample_id) (mkHash trieZero) 0) (uuidKey sample_id) (mkHash trieZero))) by exact (executes_snoc _ [Finish 0 0] _ _ _ demo_run (demo_drops _ _ _) (demo_drop _ _ _)).
  eexists. split_and!; [exact He|done|]. exact (slab_reclaims _ _ _ _ demo_begins He eq_refl eq_refl).
Defined.

(** Building a slab in bulk from a map, with one builder or with a builder for each nibble,
    never runs out of the slots that it reserves; the tree it returns reads back the map, and
    once it is dropped every slot is free again. *)
Theorem bulk_builds m (Hm : map_wf m) (Hf : fits_slab (items_of m)) :
  exists s r, trieBuildItems_ref (items_of m) = Some (s, r) /\ reads s r m /\ exists s', dropTrieRoot r true s = Some s' /\ all_free s'.
Proof.
  destruct (build_stands m Hm Hf) as (s & r & E & Hs & S). exists s, r. split_and!; [done|by apply stands_reads|]. destruct (drop_spec s [] r true Hs) as (s' & E' & Hs' & _ & Hq). exists s'. split; [done|]. apply empty_free. unfold sound in Hs'. by rewrite (Hq eq_refl) in Hs'.
Qed.

Lemma bulk_builds_witness : map_wf sample /\ exists s r, trieBuildItems_ref (items_of sample) = Some (s, r) /\ reads s r sample.
Proof.
  assert (Hm : map_wf sample) by (apply map_Forall_singleton; split; [apply sample_id_wf|done]). assert (Hf : fits_slab (items_of sample)) by (unfold fits_slab, items_of, sample; by rewrite map_to_list_singleton). split; [done|]. destruct (bulk_builds sample Hm Hf) as (s & r & E & R & _). by exists s, r.
Defined.

End SlabFamily.
