(* ===== verification/AttachmentHash.v ===== *)
(** Attachment content hashes: [document/attachment_hash.go].

    An attachment is identified by the root of the RFC 6962 Merkle tree over its chunks,
    computed in four ways: recursively, while streaming (a stack of perfect subtrees), from
    all the levels, and from one leaf and its audit path.  The four agree, an audit path is
    accepted exactly when it is the path of the leaf, and two attachments with one content
    hash are the same bytes - unless two of the messages hashed on the way, both listed,
    are a collision of SHA-256. *)

From S2P Require Import Prelude Primitives Schema KdbCodec Document Sha256.
Import Primitives.

Module AttachmentHash.

Definition AttachmentHashSchemeChunked1 : Z := 1.
Definition AttachmentChunkBytes : Z := Z.shiftl 1 20.

(** ** The three kinds of message hashed, and their hashes *)

Definition leaf_msg (chunk : bytes) : bytes := x00 :: chunk.
Definition node_msg (left right : Hash) : bytes := x01 :: HashBytes left ++ HashBytes right.
Definition identity_msg (tree : Hash) (size : Z) : bytes := x02 :: be_bytes 8 size ++ HashBytes tree.

Definition ChunkLeafHash (chunk : bytes) : Hash := mkHash (Sha256.Sum256 (leaf_msg chunk)).
Definition merkleNode (left right : Hash) : Hash := mkHash (Sha256.Sum256 (node_msg left right)).
Definition AttachmentIdentity (tree : Hash) (size : Z) : Hash := mkHash (Sha256.Sum256 (identity_msg tree size)).

(** ** Streaming: the builder

    The two slices grow and shrink at their end, which is the head of the lists here. *)
Record MerkleBuilder := mkBuilder { stack : list Hash; sizes : list Z; n : Z }.

Definition new_builder : MerkleBuilder := mkBuilder [] [] 0.

(** The loop of [Add]: the last subtree [h] of [s] leaves, and those before it. *)
Fixpoint combine (s : Z) (h : Hash) (ss : list Z) (hs : list Hash) : list Z * list Hash :=
  match ss, hs with
  | s' :: ss', h' :: hs' => if s =? s' then combine (wrapu 64 (s * 2)) (merkleNode h' h) ss' hs' else (s :: ss, h :: hs)
  | _, _ => (s :: ss, h :: hs)
  end.

Definition Add (m : MerkleBuilder) (leaf : Hash) : MerkleBuilder :=
  let '(ss, hs) := combine 1 leaf (sizes m) (stack m) in mkBuilder hs ss (wrapu 64 (n m + 1)).

Definition Leaves (m : MerkleBuilder) : Z := n m.

Definition Root (m : MerkleBuilder) : Hash :=
  match stack m with
  | [] => ChunkLeafHash []
  | h :: rest => fold_left (fun h l => merkleNode l h) rest h
  end.

(** The chunks of the loop of [AttachmentContentHash]: at least one, the last one short. *)
Fixpoint chunks (fuel : nat) (data : bytes) : list bytes :=
  match fuel with
  | O => []
  | S fuel =>
    if zlen data <=? AttachmentChunkBytes then [data]
    else take (Z.to_nat AttachmentChunkBytes) data :: chunks fuel (drop (Z.to_nat AttachmentChunkBytes) data)
  end.
Definition chunks_of (data : bytes) : list bytes := chunks (S (length data)) data.

Definition AttachmentContentHash (data : bytes) : Hash :=
  AttachmentIdentity (Root (fold_left (fun m chunk => Add m (ChunkLeafHash chunk)) (chunks_of data) new_builder)) (zlen data).

Definition AttachmentChunkCount (size : Z) : Z :=
  if size <=? 0 then 1 else Z.quot (wraps 64 (size + AttachmentChunkBytes - 1)) AttachmentChunkBytes.

(** ** Recursively, and the audit path *)

Definition bits_Len (x : nat) : nat := match x with O => O | _ => S (Nat.log2 x) end.
Definition split_point (count : nat) : nat := Nat.shiftl 1 (bits_Len (count - 1) - 1).

Fixpoint tree_hash (fuel : nat) (leaves : list Hash) : Hash :=
  match fuel, leaves with
  | _, [] => ChunkLeafHash []
  | _, [h] => h
  | O, _ => ChunkLeafHash []
  | S fuel, _ =>
    let k := split_point (length leaves) in
    merkleNode (tree_hash fuel (take k leaves)) (tree_hash fuel (drop k leaves))
  end.
Definition MerkleTreeHash (leaves : list Hash) : Hash := tree_hash (length leaves) leaves.

Fixpoint inclusion (fuel : nat) (leaves : list Hash) (index : Z) : list Hash :=
  match fuel with
  | O => []
  | S fuel =>
    if (length leaves <=? 1)%nat then [] else
    let k := split_point (length leaves) in
    if index <? Z.of_nat k then inclusion fuel (take k leaves) index ++ [MerkleTreeHash (drop k leaves)]
    else inclusion fuel (drop k leaves) (index - Z.of_nat k) ++ [MerkleTreeHash (take k leaves)]
  end.
Definition MerkleInclusionProof (leaves : list Hash) (index : Z) : list Hash := inclusion (length leaves) leaves index.

(** ** Checking an audit path *)

(** The inner loop: [for fn&1 == 0 && fn != 0], at most one turn per bit. *)
Fixpoint to_odd (fuel : nat) (fn sn : Z) : Z * Z :=
  match fuel with
  | O => (fn, sn)
  | S fuel => if (Z.land fn 1 =? 0) && negb (fn =? 0) then to_odd fuel (Z.shiftr fn 1) (Z.shiftr sn 1) else (fn, sn)
  end.

Fixpoint verify_loop (proof : list Hash) (fn sn : Z) (r : Hash) : option (Z * Hash) :=
  match proof with
  | [] => Some (sn, r)
  | p :: proof =>
    if sn =? 0 then None else
    if (Z.land fn 1 =? 1) || (fn =? sn) then
      let '(fn, sn) := to_odd 64 fn sn in verify_loop proof (Z.shiftr fn 1) (Z.shiftr sn 1) (merkleNode p r)
    else verify_loop proof (Z.shiftr fn 1) (Z.shiftr sn 1) (merkleNode r p)
  end.

Definition VerifyMerkleInclusion (leaf : Hash) (index count : Z) (proof : list Hash) (tree : Hash) : bool :=
  if (index <? 0) || (count <=? index) then false else
  match verify_loop proof index (count - 1) leaf with
  | Some (sn, r) => (sn =? 0) && bool_decide (r = tree)
  | None => false
  end.

(** ** From all the levels *)

(** One level up: neighbours paired, an unpaired last node carried up. *)
Fixpoint pair_up (level : list Hash) : list Hash :=
  match level with
  | l :: r :: rest => merkleNode l r :: pair_up rest
  | rest => rest
  end.

Fixpoint build_levels (fuel : nat) (level : list Hash) : list (list Hash) :=
  match fuel with
  | O => [level]
  | S fuel => if (1 <? length level)%nat then level :: build_levels fuel (pair_up level) else [level]
  end.

Record MerkleTree := mkMerkle { levels : list (list Hash) }.

Definition NewMerkleTree (leaves : list Hash) : MerkleTree :=
  let leaves := match leaves with [] => [ChunkLeafHash []] | _ => leaves end in
  mkMerkle (build_levels (length leaves) leaves).

Definition tree_leaves (t : MerkleTree) : Z := zlen (hd [] (levels t)).
Definition tree_root (t : MerkleTree) : Hash := hd (ChunkLeafHash []) (List.last (levels t) []).

Fixpoint sibling_path (ls : list (list Hash)) (index : Z) : go Empty_set (list Hash) :=
  match ls with
  | [] => Ok []
  | level :: rest =>
    let sib := Z.lxor index 1 in
    if sib <? zlen level then
      h ← zindex level sib; path ← sibling_path rest (Z.shiftr index 1); Ok (h :: path)
    else sibling_path rest (Z.shiftr index 1)
  end.
Definition Proof_at (t : MerkleTree) (index : Z) : go Empty_set (list Hash) := sibling_path (removelast (levels t)) index.

#[local] Opaque Sha256.Sum256.

(** ** The recursive tree *)

Lemma split_point_spec c : (2 <= c)%nat -> exists k, split_point c = (2 ^ k)%nat /\ (2 ^ k < c <= 2 * 2 ^ k)%nat.
Proof.
  intros H. exists (Nat.log2 (c - 1)). unfold split_point, bits_Len. destruct (c - 1)%nat as [|m] eqn:E; [lia|].
  replace (S (Nat.log2 (S m)) - 1)%nat with (Nat.log2 (S m)) by lia. rewrite Nat.shiftl_1_l.
  destruct (Nat.log2_spec (S m) ltac:(lia)) as [L U]. rewrite Nat.pow_succ_r' in U. split; [done|lia].
Qed.

Lemma split_pow k a : (0 < a <= 2 ^ k)%nat -> split_point (2 ^ k + a) = (2 ^ k)%nat.
Proof.
  intros H. pose proof (Nat.pow_nonzero 2 k ltac:(lia)). destruct (split_point_spec (2 ^ k + a)) as (j & -> & Hj); [lia|].
  f_equal. destruct (lt_eq_lt_dec j k) as [[L|]|L]; [|done|].
  - pose proof (Nat.pow_le_mono_r 2 (S j) k ltac:(lia) ltac:(lia)). rewrite Nat.pow_succ_r' in *. lia.
  - pose proof (Nat.pow_le_mono_r 2 (S k) j ltac:(lia) ltac:(lia)). rewrite Nat.pow_succ_r' in *. lia.
Qed.

(** Leaves are split at the largest power of two below their count. *)
Lemma merkle_ind (P : list Hash -> Prop) :
  P [] -> (forall h, P [h]) ->
  (forall k l r, length l = (2 ^ k)%nat -> (0 < length r <= 2 ^ k)%nat -> P l -> P r -> P (l ++ r)) -> forall l, P l.
Proof.
  intros H0 H1 Hs l. remember (length l) as m eqn:E. revert l E. induction (lt_wf m) as [m _ IH]. intros l ->.
  destruct l as [|a [|b l]]; [done|done|]. set (ls := a :: b :: l) in *.
  destruct (split_point_spec (length ls)) as (k & _ & Hk); [simpl; lia|]. pose proof (Nat.pow_nonzero 2 k ltac:(lia)).
  rewrite <- (take_drop (2 ^ k) ls). apply (Hs k); [rewrite length_take; lia|rewrite length_drop; lia|eapply IH; [|done]|eapply IH; [|done]].
  - rewrite length_take. lia.
  - rewrite length_drop. lia.
Qed.

Lemma tree_hash_fuel f f' l : (length l <= f)%nat -> (length l <= f')%nat -> tree_hash f l = tree_hash f' l.
Proof.
  revert f' l. induction f as [|f IH]; intros f' l; [destruct l; [by destruct f'|simpl; lia]|].
  destruct l as [|a [|b l]]; [by destruct f'|by destruct f'|]. destruct f' as [|f']; [simpl; lia|]. intros Hf Hf'.
  set (ls := a :: b :: l) in *. destruct (split_point_spec (length ls)) as (k & E & Hk); [simpl; lia|]. pose proof (Nat.pow_nonzero 2 k ltac:(lia)).
  change (merkleNode (tree_hash f (take (split_point (length ls)) ls)) (tree_hash f (drop (split_point (length ls)) ls)) =
    merkleNode (tree_hash f' (take (split_point (length ls)) ls)) (tree_hash f' (drop (split_point (length ls)) ls))).
  rewrite E. f_equal; apply IH; rewrite ?length_take, ?length_drop; lia.
Qed.

Lemma MerkleTreeHash_app k l r : length l = (2 ^ k)%nat -> (0 < length r <= 2 ^ k)%nat ->
  MerkleTreeHash (l ++ r) = merkleNode (MerkleTreeHash l) (MerkleTreeHash r).
Proof.
  intros Hl Hr. pose proof (Nat.pow_nonzero 2 k ltac:(lia)). unfold MerkleTreeHash at 1.
  assert (E : length (l ++ r) = (2 ^ k + length r)%nat) by (rewrite length_app; lia).
  destruct (l ++ r) as [|a [|b ls]] eqn:El; [simpl in E; lia|simpl in E; lia|]. rewrite <- El in *.
  rewrite E. destruct (2 ^ k + length r)%nat as [|f] eqn:Ef; [lia|]. rewrite El. cbn [tree_hash]. rewrite <- El.
  rewrite E, <- Ef, split_pow by done. rewrite <- Hl, take_app_length, drop_app_length.
  f_equal; apply tree_hash_fuel; lia.
Qed.

Lemma inclusion_fuel f f' l i : (length l <= f)%nat -> (length l <= f')%nat -> inclusion f l i = inclusion f' l i.
Proof.
  revert f' l i. induction f as [|f IH]; intros f' l i Hf Hf'.
  { destruct f'; [done|]. cbn. case (Nat.leb_spec (length l) 1); [done|lia]. }
  destruct f' as [|f']; [cbn; case (Nat.leb_spec (length l) 1); [done|lia]|]. cbn [inclusion].
  case (Nat.leb_spec (length l) 1); [done|]. intros Hm. destruct (split_point_spec (length l)) as (k & -> & Hk); [lia|].
  pose proof (Nat.pow_nonzero 2 k ltac:(lia)).
  rewrite (IH f' (take _ l)), (IH f' (drop _ l)); rewrite ?length_take, ?length_drop; (done || lia).
Qed.

Lemma MerkleInclusionProof_app k l r i : length l = (2 ^ k)%nat -> (0 < length r <= 2 ^ k)%nat ->
  MerkleInclusionProof (l ++ r) i = if i <? zlen l then MerkleInclusionProof l i ++ [MerkleTreeHash r]
    else MerkleInclusionProof r (i - zlen l) ++ [MerkleTreeHash l].
Proof.
  intros Hl Hr. pose proof (Nat.pow_nonzero 2 k ltac:(lia)). unfold MerkleInclusionProof at 1.
  assert (E : length (l ++ r) = (2 ^ k + length r)%nat) by (rewrite length_app; lia). rewrite E.
  destruct (2 ^ k + length r)%nat as [|f] eqn:Ef; [lia|]. cbn [inclusion]. rewrite E.
  case (Nat.leb_spec (S f) 1); [lia|]. intros _. rewrite <- Ef, split_pow by done.
  rewrite <- Hl, take_app_length, drop_app_length. unfold zlen, MerkleInclusionProof.
  by rewrite (inclusion_fuel f (length l)), (inclusion_fuel f (length r)) by lia.
Qed.

(** ** One level up *)

Lemma pair_up_app l r : Nat.Even (length l) -> pair_up (l ++ r) = pair_up l ++ pair_up r.
Proof.
  intros [k Hk]. revert l Hk. induction k as [|k IH]; intros l Hk; [by destruct l|].
  destruct l as [|a [|b l]]; [simpl in Hk; lia|simpl in Hk; lia|]. simpl. f_equal. apply IH. simpl in Hk. lia.
Qed.

Lemma pair_up_length l : length (pair_up l) = Nat.div2 (S (length l)).
Proof.
  enough (forall m l, (length l <= m)%nat -> length (pair_up l) = Nat.div2 (S (length l))) as H by by eapply H. clear l.
  induction m as [|m IH]; intros l Hm; [destruct l; [done|simpl in Hm; lia]|]. destruct l as [|a [|b l]]; [done|done|].
  cbn [pair_up length]. rewrite IH by (simpl in Hm; lia). done.
Qed.

Lemma pair_up_pow k l : length l = (2 ^ S k)%nat -> length (pair_up l) = (2 ^ k)%nat.
Proof. intros H. rewrite pair_up_length, H, Nat.pow_succ_r', Nat.div2_succ_double. done. Qed.

Lemma pair_up_half k r : (0 < length r <= 2 ^ S k)%nat -> (0 < length (pair_up r) <= 2 ^ k)%nat.
Proof.
  rewrite pair_up_length, Nat.pow_succ_r'. intros H. rewrite Nat.div2_div. split; [apply Nat.div_str_pos; lia|].
  enough (S (length r) / 2 < S (2 ^ k))%nat by lia. apply Nat.Div0.div_lt_upper_bound. lia.
Qed.

Lemma even_pow k (l : list Hash) : length l = (2 ^ S k)%nat -> Nat.Even (length l).
Proof. intros ->. exists (2 ^ k)%nat. by rewrite Nat.pow_succ_r'. Qed.

(** The tree of a level is the tree of the level above it. *)
Lemma MerkleTreeHash_pair l : MerkleTreeHash (pair_up l) = MerkleTreeHash l.
Proof.
  induction l as [|h|k l r Hl Hr IHl IHr] using merkle_ind; [done|done|]. destruct k as [|k].
  - destruct l as [|a [|]]; [done| |done]. destruct r as [|b [|]]; [simpl in Hr; lia| |simpl in Hr; lia]. done.
  - rewrite pair_up_app by by eapply even_pow. rewrite (MerkleTreeHash_app (S k) l r) by done.
    rewrite (MerkleTreeHash_app k) by eauto using pair_up_pow, pair_up_half. by rewrite IHl, IHr.
Qed.

(** ** The streaming builder *)

(** What the builder holds after some leaves: blocks of [2 ^ k] leaves, the last and
    smallest first. *)
Inductive blocks : list Hash -> list nat -> list Hash -> Prop :=
  | blocks_nil : blocks [] [] []
  | blocks_snoc k pre block ks hs :
      blocks pre ks hs -> length block = (2 ^ k)%nat -> Forall (lt k) (take 1 ks) ->
      blocks (pre ++ block) (k :: ks) (MerkleTreeHash block :: hs).

Definition powers (ks : list nat) : list Z := map (fun k => 2 ^ Z.of_nat k) ks.
Definition holds (m : MerkleBuilder) (leaves : list Hash) : Prop :=
  exists ks, blocks leaves ks (stack m) /\ sizes m = powers ks /\ n m = zlen leaves.

Lemma zlen_pow k (l : list Hash) : length l = (2 ^ k)%nat -> zlen l = 2 ^ Z.of_nat k.
Proof. unfold zlen. intros ->. rewrite Nat2Z.inj_pow. done. Qed.

Lemma combine_blocks k pre block ks hs : blocks pre ks hs -> length block = (2 ^ k)%nat ->
  Forall (le k) (take 1 ks) -> zlen (pre ++ block) < 2 ^ 64 ->
  exists ks' hs', combine (2 ^ Z.of_nat k) (MerkleTreeHash block) (powers ks) hs = (powers ks', hs') /\ blocks (pre ++ block) ks' hs'.
Proof.
  intros H. revert k block. induction H as [|k' pre block' ks hs H IH Hl Hs]; intros k block Hb Hle Hz; simpl.
  { exists [k], [MerkleTreeHash block]. split; [done|]. apply (blocks_snoc k [] block); [constructor|done|constructor]. }
  cbn [take] in Hle. apply Forall_cons in Hle as [Hle _]. case (Z.eqb_spec (2 ^ Z.of_nat k) (2 ^ Z.of_nat k')); intros E.
  - assert (k = k') as -> by (apply Z.pow_inj_r in E; lia).
    rewrite <- (MerkleTreeHash_app k') by (rewrite ?Hb; pose proof (Nat.pow_nonzero 2 k' ltac:(lia)); done || lia).
    rewrite <- app_assoc in Hz |- *. assert (Hlen : length (block' ++ block) = (2 ^ S k')%nat) by (rewrite length_app, Nat.pow_succ_r'; lia).
    pose proof (zlen_pow _ _ Hlen) as Hz'. rewrite zlen_app, Hz' in Hz. pose proof (zlen_nonneg pre).
    replace (wrapu 64 (2 ^ Z.of_nat k' * 2)) with (2 ^ Z.of_nat (S k')).
    2:{ rewrite wrapu_id; rewrite Nat2Z.inj_succ, Z.pow_succ_r in * by lia; [lia|]. split; lia. }
    apply IH; [done| |by rewrite zlen_app, Hz']. by eapply Forall_impl; [exact Hs|].
  - exists (k :: k' :: ks), (MerkleTreeHash block :: MerkleTreeHash block' :: hs). split; [done|].
    apply (blocks_snoc k (pre ++ block') block); [by constructor|done|]. assert (k <> k') by congruence.
    constructor; [lia|constructor].
Qed.

Lemma Add_holds m leaves leaf : holds m leaves -> zlen leaves + 1 < 2 ^ 64 -> holds (Add m leaf) (leaves ++ [leaf]).
Proof.
  intros (ks & Hb & Hs & Hn) Hz. unfold Add. rewrite Hs.
  destruct (combine_blocks 0 leaves [leaf] ks (stack m) Hb) as (ks' & hs' & E & Hb'); [done| |by rewrite zlen_app|].
  { apply Forall_forall. lia. }
  change (2 ^ Z.of_nat 0) with 1 in E. change (MerkleTreeHash [leaf]) with leaf in E. rewrite E. exists ks'. split_and!; [done|done|].
  cbn [n]. rewrite Hn, zlen_app, wrapu_id by (pose proof (zlen_nonneg leaves); split; lia). done.
Qed.

Lemma blocks_fold leaves ks hs last k : blocks leaves ks hs -> Forall (lt k) (take 1 ks) -> (0 < length last < 2 * 2 ^ k)%nat ->
  fold_left (fun h l => merkleNode l h) hs (MerkleTreeHash last) = MerkleTreeHash (leaves ++ last).
Proof.
  intros H. revert last k. induction H as [|k' pre block ks hs H IH Hl Hs]; intros last k Hk Hlast; [done|].
  cbn [fold_left take] in *. apply Forall_cons in Hk as [Hk _].
  assert (2 * 2 ^ k <= 2 ^ k')%nat by (rewrite <- Nat.pow_succ_r'; apply Nat.pow_le_mono_r; lia).
  rewrite <- (MerkleTreeHash_app k') by (done || lia). rewrite <- app_assoc. eapply (IH _ k'); [done|]. rewrite length_app. lia.
Qed.

Lemma Root_holds m leaves : holds m leaves -> Root m = MerkleTreeHash leaves.
Proof.
  intros (ks & Hb & _ & _). unfold Root. destruct Hb as [|k pre block ks hs Hb Hl Hs]; [done|].
  eapply blocks_fold; [done|done|]. pose proof (Nat.pow_nonzero 2 k ltac:(lia)). lia.
Qed.

Lemma adds_holds leaves m pre : holds m pre -> zlen (pre ++ leaves) < 2 ^ 64 -> holds (fold_left Add leaves m) (pre ++ leaves).
Proof.
  revert m pre. induction leaves as [|leaf leaves IH]; intros m pre Hm Hz; [by rewrite app_nil_r|]. cbn [fold_left].
  rewrite zlen_app, zlen_cons in Hz. pose proof (zlen_nonneg leaves).
  change (leaf :: leaves) with ([leaf] ++ leaves). rewrite app_assoc. apply IH; [apply Add_holds; [done|lia]|].
  rewrite !zlen_app. change (zlen [leaf]) with 1. lia.
Qed.

Lemma new_holds : holds new_builder [].
Proof. exists []. split_and!; [constructor|done|done]. Qed.

(** ** The levels *)

(** The other node of the pair of node [j]. *)
Definition sib (j : nat) : nat := if Nat.even j then S j else pred j.

Lemma lxor_sib j : Z.lxor (Z.of_nat j) 1 = Z.of_nat (sib j).
Proof.
  unfold sib. rewrite <- Nat.negb_odd. destruct (Nat.odd j) eqn:O; simpl.
  - apply Nat.odd_spec in O as [m ->]. replace (Z.of_nat (2 * m + 1)) with (2 * Z.of_nat m + 1) by lia.
    replace (Z.of_nat (pred (2 * m + 1))) with (2 * Z.of_nat m) by lia. by destruct (Z.of_nat m) as [|q|q] eqn:Eq; [| |lia].
  - pose proof (Nat.negb_odd j) as E. rewrite O in E. symmetry in E. apply Nat.even_spec in E as [m ->].
    replace (Z.of_nat (2 * m)) with (2 * Z.of_nat m) by lia.
    replace (Z.of_nat (S (2 * m))) with (2 * Z.of_nat m + 1) by lia. by destruct (Z.of_nat m) as [|q|q] eqn:Eq; [| |lia].
Qed.

Lemma shiftr_half j : Z.shiftr (Z.of_nat j) 1 = Z.of_nat (j / 2).
Proof. rewrite Z.shiftr_div_pow2 by lia. by rewrite Nat2Z.inj_div. Qed.

Lemma sib_add l j : Nat.Even l -> sib (l + j) = (l + sib j)%nat.
Proof.
  intros [m ->]. unfold sib. rewrite (Nat.add_comm (2 * m) j), Nat.even_add_mul_2. destruct (Nat.even j) eqn:E; [lia|]. destruct j; [done|simpl; lia].
Qed.

Lemma sib_lt l j : Nat.Even l -> (j < l)%nat -> (sib j < l)%nat.
Proof.
  intros [m ->] H. unfold sib. destruct (Nat.even j) eqn:E; [|lia]. apply Nat.even_spec in E as [q ->]. lia.
Qed.

Lemma half_add l j : Nat.Even l -> ((l + j) / 2 = Nat.div2 l + j / 2)%nat.
Proof. intros [m ->]. rewrite Nat.div2_double, Nat.mul_comm, Nat.div_add_l by lia. done. Qed.

(** An audit path is the sibling of the leaf, if it has one, and the path one level up. *)
Lemma MerkleInclusionProof_up l j : (j < length l)%nat ->
  MerkleInclusionProof l (Z.of_nat j) = option_list (l !! sib j) ++ MerkleInclusionProof (pair_up l) (Z.of_nat (j / 2)).
Proof.
  revert j. induction l as [|h|k l r Hl Hr IHl IHr] using merkle_ind; intros j Hj; [simpl in Hj; lia|by destruct j; [|simpl in Hj; lia]|].
  destruct k as [|k].
  { destruct l as [|a [|]]; [done| |done]. destruct r as [|b [|]]; [simpl in Hr; lia| |simpl in Hr; lia].
    destruct j as [|[|j]]; [done|done|simpl in Hj; lia]. }
  pose proof (even_pow _ _ Hl) as He. pose proof (pair_up_pow _ _ Hl) as Hp.
  rewrite pair_up_app, (MerkleInclusionProof_app (S k)), (MerkleInclusionProof_app k) by eauto using pair_up_half.
  rewrite !MerkleTreeHash_pair. rewrite length_app in Hj. unfold zlen. rewrite Hl, Hp.
  assert (E2 : (2 ^ S k = 2 * 2 ^ k)%nat) by apply Nat.pow_succ_r'.
  case (Z.ltb_spec (Z.of_nat j) (Z.of_nat (2 ^ S k))); intros Hlt.
  - assert (j / 2 < 2 ^ k)%nat by (apply Nat.Div0.div_lt_upper_bound; lia).
    case (Z.ltb_spec (Z.of_nat (j / 2)) (Z.of_nat (2 ^ k))); [|lia]. intros _.
    rewrite IHl by lia. rewrite lookup_app_l by (apply sib_lt; [done|lia]). by rewrite app_assoc.
  - assert (exists j', j = (length l + j')%nat) as [j' ->] by (exists (j - length l)%nat; lia).
    rewrite half_add, sib_add, lookup_app_r by (done || lia). rewrite Hl, E2, Nat.div2_double, <- E2, <- Hl.
    case (Z.ltb_spec (Z.of_nat (2 ^ k + j' / 2)) (Z.of_nat (2 ^ k))); [lia|]. intros _.
    replace (Z.of_nat (length l + j') - Z.of_nat (length l)) with (Z.of_nat j') by lia.
    replace (Z.of_nat (2 ^ k + j' / 2) - Z.of_nat (2 ^ k)) with (Z.of_nat (j' / 2)) by lia.
    replace (length l + sib j' - length l)%nat with (sib j') by lia. rewrite IHr by lia. by rewrite app_assoc.
Qed.

Lemma pair_up_shrinks l : (1 < length l)%nat -> (0 < length (pair_up l) < length l)%nat.
Proof.
  intros H. rewrite pair_up_length, Nat.div2_div. split; [apply Nat.div_str_pos; lia|]. apply Nat.Div0.div_lt_upper_bound; lia.
Qed.

Lemma build_levels_cons fuel l : exists rest, build_levels fuel l = l :: rest.
Proof. destruct fuel as [|f]; simpl; [by exists []|]. destruct (_ <? _)%nat; eauto. Qed.

Lemma build_levels_root fuel l : (0 < length l <= fuel)%nat -> List.last (build_levels fuel l) [] = [MerkleTreeHash l].
Proof.
  revert l. induction fuel as [|f IH]; intros l Hl; [lia|]. cbn [build_levels]. case (Nat.ltb_spec 1 (length l)); intros H.
  - pose proof (pair_up_shrinks l H). destruct (build_levels_cons f (pair_up l)) as [rest E]. pose proof (IH (pair_up l)) as IH'.
    rewrite E in *. rewrite <- MerkleTreeHash_pair, <- IH' by lia. done.
  - by destruct l as [|h [|]]; [simpl in Hl; lia| |simpl in H; lia].
Qed.

Lemma build_levels_path fuel l j : (j < length l <= fuel)%nat ->
  sibling_path (removelast (build_levels fuel l)) (Z.of_nat j) = Ok (MerkleInclusionProof l (Z.of_nat j)).
Proof.
  revert l j. induction fuel as [|f IH]; intros l j Hl; [lia|]. cbn [build_levels]. case (Nat.ltb_spec 1 (length l)); intros H.
  - pose proof (pair_up_shrinks l H). destruct (build_levels_cons f (pair_up l)) as [rest E]. pose proof (IH (pair_up l) (j / 2)%nat) as IH'.
    assert (j / 2 < length (pair_up l))%nat.
    { rewrite pair_up_length, Nat.div2_div. pose proof (Nat.Div0.div_mod (S (length l)) 2). pose proof (Nat.mod_upper_bound (S (length l)) 2).
      apply Nat.Div0.div_lt_upper_bound; lia. }
    rewrite E in IH' |- *. change (removelast (l :: pair_up l :: rest)) with (l :: removelast (pair_up l :: rest)). cbn [sibling_path].
    rewrite lxor_sib, shiftr_half, IH', (MerkleInclusionProof_up l j) by lia. unfold zlen. case (Z.ltb_spec (Z.of_nat (sib j)) (Z.of_nat (length l))); intros Hs.
    + destruct (lookup_lt_is_Some_2 l (sib j)) as [h Eh]; [lia|]. unfold zindex. rewrite Nat2Z.id, Eh. by case (Z.ltb_spec (Z.of_nat (sib j)) 0); [lia|].
    + by rewrite lookup_ge_None_2 by lia.
  - destruct l as [|h [|]]; [simpl in Hl; lia| |simpl in H; lia]. by destruct j; [|simpl in Hl; lia].
Qed.

Lemma NewMerkleTree_root leaves : tree_root (NewMerkleTree leaves) = MerkleTreeHash leaves.
Proof.
  unfold tree_root, NewMerkleTree. cbn [levels]. destruct leaves as [|h leaves]; [done|].
  by rewrite build_levels_root by (simpl; lia).
Qed.

Lemma NewMerkleTree_proof leaves j : (j < length leaves)%nat -> Proof_at (NewMerkleTree leaves) (Z.of_nat j) = Ok (MerkleInclusionProof leaves (Z.of_nat j)).
Proof.
  intros Hj. unfold Proof_at, NewMerkleTree. cbn [levels]. destruct leaves as [|h leaves]; [simpl in Hj; lia|]. apply build_levels_path. lia.
Qed.

(** ** The check, one level at a time *)

(** The messages hashed by the check. *)
Fixpoint path_msgs (proof : list Hash) (fn sn : Z) (r : Hash) : list bytes :=
  match proof with
  | [] => []
  | p :: proof =>
    if (Z.land fn 1 =? 1) || (fn =? sn) then
      let '(fn, sn) := to_odd 64 fn sn in node_msg p r :: path_msgs proof (Z.shiftr fn 1) (Z.shiftr sn 1) (merkleNode p r)
    else node_msg r p :: path_msgs proof (Z.shiftr fn 1) (Z.shiftr sn 1) (merkleNode r p)
  end.

Lemma to_odd_fuel f fn sn : 0 <= fn < 2 ^ Z.of_nat f -> to_odd (S f) fn sn = to_odd f fn sn.
Proof.
  revert fn sn. induction f as [|f IH]; intros fn sn H.
  - assert (fn = 0) as -> by (change (2 ^ Z.of_nat 0) with 1 in H; lia). done.
  - change (to_odd (S (S f)) fn sn) with (if (Z.land fn 1 =? 0) && negb (fn =? 0) then to_odd (S f) (Z.shiftr fn 1) (Z.shiftr sn 1) else (fn, sn)).
    cbn [to_odd]. destruct (_ && _); [|done]. apply IH. rewrite Nat2Z.inj_succ, Z.pow_succ_r in H by lia.
    rewrite Z.shiftr_div_pow2, Z.pow_1_r by lia. split; [apply Z.div_pos; lia|apply Z.div_lt_upper_bound; lia].
Qed.

Lemma land_one j : Z.land (Z.of_nat j) 1 = if Nat.even j then 0 else 1.
Proof.
  change 1 with (Z.ones 1) at 1. rewrite Z.land_ones by lia. change (2 ^ 1) with (Z.of_nat 2). rewrite <- Nat2Z.inj_mod, <- Nat.bit0_mod, Nat.bit0_odd, <- Nat.negb_even. by destruct (Nat.even j).
Qed.

Lemma to_odd_odd fuel j sn : Nat.even j = false -> to_odd fuel (Z.of_nat j) sn = (Z.of_nat j, sn).
Proof. intros E. destruct fuel; [done|]. cbn [to_odd]. by rewrite land_one, E. Qed.

(** A node with a sibling takes it from the path. *)
Lemma verify_pair p proof j c r : (sib j < c)%nat -> (j < c)%nat -> (2 <= c)%nat ->
  verify_loop (p :: proof) (Z.of_nat j) (Z.of_nat c - 1) r =
    verify_loop proof (Z.of_nat (j / 2)) (Z.of_nat (Nat.div2 (S c)) - 1) (if Nat.even j then merkleNode r p else merkleNode p r) /\
  path_msgs (p :: proof) (Z.of_nat j) (Z.of_nat c - 1) r = (if Nat.even j then node_msg r p else node_msg p r) ::
    path_msgs proof (Z.of_nat (j / 2)) (Z.of_nat (Nat.div2 (S c)) - 1) (if Nat.even j then merkleNode r p else merkleNode p r).
Proof.
  intros Hs Hj Hc. assert (E : Z.shiftr (Z.of_nat c - 1) 1 = Z.of_nat (Nat.div2 (S c)) - 1).
  { destruct c as [|c]; [lia|]. replace (Z.of_nat (S c) - 1) with (Z.of_nat c) by lia. rewrite shiftr_half, <- Nat.div2_div. change (Nat.div2 (S (S c))) with (S (Nat.div2 c)). lia. }
  cbn [verify_loop path_msgs]. case (Z.eqb_spec (Z.of_nat c - 1) 0); [lia|]. intros _. rewrite land_one. unfold sib in Hs. destruct (Nat.even j) eqn:Ej.
  - case (Z.eqb_spec (Z.of_nat j) (Z.of_nat c - 1)); [lia|]. intros _. cbn [orb Z.eqb]. by rewrite E, shiftr_half.
  - cbn [orb Z.eqb Pos.eqb]. by rewrite to_odd_odd, E, shiftr_half.
Qed.

(** A node without one is carried up. *)
Lemma verify_carry p proof j r : Nat.even j = true -> (0 < j)%nat -> Z.of_nat j < 2 ^ 64 ->
  verify_loop (p :: proof) (Z.of_nat j) (Z.of_nat (S j) - 1) r =
    verify_loop (p :: proof) (Z.of_nat (j / 2)) (Z.of_nat (Nat.div2 (S (S j))) - 1) r /\
  path_msgs (p :: proof) (Z.of_nat j) (Z.of_nat (S j) - 1) r = path_msgs (p :: proof) (Z.of_nat (j / 2)) (Z.of_nat (Nat.div2 (S (S j))) - 1) r.
Proof.
  intros Ej Hj Hb. replace (Z.of_nat (S j) - 1) with (Z.of_nat j) by lia.
  replace (Z.of_nat (Nat.div2 (S (S j))) - 1) with (Z.of_nat (j / 2)) by (change (Nat.div2 (S (S j))) with (S (Nat.div2 j)); rewrite Nat.div2_div; lia).
  assert (0 < j / 2)%nat by (apply Nat.even_spec in Ej as [m ->]; rewrite Nat.mul_comm, Nat.div_mul; lia).
  cbn [verify_loop path_msgs]. rewrite !Z.eqb_refl, !orb_true_r. case (Z.eqb_spec (Z.of_nat j) 0); [lia|]. case (Z.eqb_spec (Z.of_nat (j / 2)) 0); [lia|]. intros _ _.
  assert (E : to_odd 64 (Z.of_nat j) (Z.of_nat j) = to_odd 64 (Z.of_nat (j / 2)) (Z.of_nat (j / 2))); [|by rewrite E].
  rewrite (to_odd_fuel 63 (Z.of_nat (j / 2))).
  - change (to_odd 64 (Z.of_nat j) (Z.of_nat j)) with (if (Z.land (Z.of_nat j) 1 =? 0) && negb (Z.of_nat j =? 0) then to_odd 63 (Z.shiftr (Z.of_nat j) 1) (Z.shiftr (Z.of_nat j) 1) else (Z.of_nat j, Z.of_nat j)).
    rewrite land_one, Ej. case (Z.eqb_spec (Z.of_nat j) 0); [lia|]. intros _. cbn [andb negb Z.eqb]. by rewrite shiftr_half.
  - rewrite Nat2Z.inj_div. change (Z.of_nat 2) with 2. split; [apply Z.div_pos; lia|]. apply Z.div_lt_upper_bound; [lia|]. change (2 * 2 ^ Z.of_nat 63) with (2 ^ 64). lia.
Qed.

(** ** The messages that are hashed *)

Fixpoint pair_msgs (level : list Hash) : list bytes :=
  match level with
  | l :: r :: rest => node_msg l r :: pair_msgs rest
  | _ => []
  end.

Fixpoint level_msgs (fuel : nat) (level : list Hash) : list bytes :=
  match fuel with
  | O => []
  | S fuel => if (1 <? length level)%nat then pair_msgs level ++ level_msgs fuel (pair_up level) else []
  end.

(** Those of the tree over some leaves, level by level. *)
Definition tree_msgs (leaves : list Hash) : list bytes := level_msgs (length leaves) leaves.

(** Two different messages, one of each list, with one SHA-256 hash. *)
Definition collide (ms ms' : list bytes) : Prop :=
  exists m m', m ∈ ms /\ m' ∈ ms' /\ m <> m' /\ Sha256.Sum256 m = Sha256.Sum256 m'.

Lemma collide_mono ms ns ms' ns' : ms ⊆ ns -> ms' ⊆ ns' -> collide ms ms' -> collide ns ns'.
Proof. intros H H' (m & m' & Hm & Hm' & Hd). exists m, m'. auto. Qed.

Lemma collide_or ms ms' m m' : m ∈ ms -> m' ∈ ms' -> mkHash (Sha256.Sum256 m) = mkHash (Sha256.Sum256 m') -> m = m' \/ collide ms ms'.
Proof. intros Hm Hm' E. apply (f_equal HashBytes) in E. cbn [HashBytes] in E. destruct (decide (m = m')) as [|Hd]; [by left|]. right. by exists m, m'. Qed.

Lemma node_msg_inj a b a' b' : hash_wf a -> hash_wf a' -> node_msg a b = node_msg a' b' -> a = a' /\ b = b'.
Proof.
  unfold node_msg, hash_wf. destruct a as [a], b as [b], a' as [a'], b' as [b']. cbn [HashBytes]. intros Ha Ha' [= E].
  apply app_inj_1 in E as [-> ->]; [done|congruence].
Qed.

Lemma tree_msgs_up l : (1 < length l)%nat -> pair_msgs l ⊆ tree_msgs l /\ tree_msgs (pair_up l) ⊆ tree_msgs l.
Proof.
  intros H. pose proof (pair_up_shrinks l H). unfold tree_msgs. destruct (length l) as [|f] eqn:E; [lia|].
  cbn [level_msgs]. rewrite E. case (Nat.ltb_spec 1 (S f)); [|lia]. intros _. split; [set_solver|].
  assert (M : forall f f' l, (length l <= f)%nat -> (f <= f')%nat -> level_msgs f l ⊆ level_msgs f' l).
  { clear. induction f as [|f IH]; intros f' l Hl Hf; [set_solver|]. destruct f' as [|f']; [lia|]. cbn [level_msgs].
    case (Nat.ltb_spec 1 (length l)); [|set_solver]. intros H. pose proof (pair_up_shrinks l H). pose proof (IH f' (pair_up l) ltac:(lia) ltac:(lia)). set_solver. }
  pose proof (M (length (pair_up l)) f (pair_up l) ltac:(lia) ltac:(lia)). set_solver.
Qed.

(** What the level above holds over node [j]. *)
Lemma pair_up_lookup l j x : l !! j = Some x ->
  pair_up l !! (j / 2)%nat = Some match l !! sib j with Some s => if Nat.even j then merkleNode x s else merkleNode s x | None => x end /\
  forall s, l !! sib j = Some s -> (if Nat.even j then node_msg x s else node_msg s x) ∈ pair_msgs l.
Proof.
  enough (forall m l j, (length l <= m)%nat -> l !! j = Some x ->
    pair_up l !! (j / 2)%nat = Some match l !! sib j with Some s => if Nat.even j then merkleNode x s else merkleNode s x | None => x end /\
    forall s, l !! sib j = Some s -> (if Nat.even j then node_msg x s else node_msg s x) ∈ pair_msgs l) as H by by eapply H. clear l j.
  induction m as [|m IH]; intros l j Hm Hl; [destruct l; [done|simpl in Hm; lia]|]. destruct l as [|a [|b l]]; [done| |].
  { destruct j; [|done]. cbn in Hl. simplify_eq. done. }
  destruct j as [|[|j]].
  - cbn in Hl. simplify_eq. cbn. split; [done|]. intros s [= ->]. by left.
  - cbn in Hl. simplify_eq. cbn. split; [done|]. intros s [= ->]. by left.
  - destruct (IH l j) as [IH1 IH2]; [simpl in Hm; lia|done|]. change (S (S j)) with (2 + j)%nat. rewrite half_add, sib_add by by exists 1%nat.
    change (Nat.even (2 + j)) with (Nat.even j). change (Nat.div2 2 + j / 2)%nat with (S (j / 2)). change ((a :: b :: l) !! (2 + sib j)%nat) with (l !! sib j).
    split; [done|]. intros s Hs. right. by apply IH2.
Qed.

Lemma pair_up_wf l : Forall hash_wf l -> Forall hash_wf (pair_up l).
Proof.
  enough (forall m l, (length l <= m)%nat -> Forall hash_wf l -> Forall hash_wf (pair_up l)) as H by by eapply H. clear l.
  induction m as [|m IH]; intros l Hm Hl; [destruct l; [done|simpl in Hm; lia]|]. destruct l as [|a [|b l]]; [done|done|].
  cbn [pair_up]. constructor; [apply Sha256.Sum256_length|]. apply IH; [simpl in Hm; lia|]. by do 2 apply Forall_inv_tail in Hl.
Qed.

Definition in_range (l : list Hash) : Prop := zlen l <= 2 ^ 64.

Lemma unpaired (l : list Hash) j : (j < length l)%nat -> l !! sib j = None -> length l = S j /\ Nat.even j = true.
Proof. intros Hj H%lookup_ge_None. unfold sib in H. destruct (Nat.even j); [split; [lia|done]|lia]. Qed.

Lemma half_lt l j : (j < length l)%nat -> (j / 2 < length (pair_up l))%nat.
Proof.
  intros H. rewrite pair_up_length, Nat.div2_div. pose proof (Nat.Div0.div_mod (S (length l)) 2). pose proof (Nat.mod_upper_bound (S (length l)) 2).
  apply Nat.Div0.div_lt_upper_bound. lia.
Qed.

Lemma in_range_up l : in_range l -> (1 < length l)%nat -> in_range (pair_up l).
Proof. unfold in_range, zlen. intros Hr H. pose proof (pair_up_shrinks l H). lia. Qed.

Lemma inclusion_complete m l j x : (length l <= m)%nat -> in_range l -> l !! j = Some x ->
  verify_loop (MerkleInclusionProof l (Z.of_nat j)) (Z.of_nat j) (Z.of_nat (length l) - 1) x = Some (0, MerkleTreeHash l).
Proof.
  revert l j x. induction m as [|m IH]; intros l j x Hm Hr Hx; [destruct l; [done|simpl in Hm; lia]|].
  destruct (decide (length l <= 1)%nat) as [H1|H1].
  { destruct l as [|a [|]]; [done| |simpl in H1; lia]. destruct j; [|done]. by injection Hx as ->. }
  pose proof (lookup_lt_Some _ _ _ Hx) as Hj. pose proof (pair_up_shrinks l ltac:(lia)). destruct (pair_up_lookup l j x Hx) as [Hup _].
  rewrite MerkleInclusionProof_up by done. pose proof (IH (pair_up l) (j / 2)%nat _ ltac:(lia) (in_range_up l Hr ltac:(lia)) Hup) as IH'.
  rewrite MerkleTreeHash_pair, pair_up_length in IH'. destruct (l !! sib j) as [s|] eqn:Es; [change (option_list (Some s)) with [s]|change (option_list (@None Hash)) with (@nil Hash)]; cbn [app].
  - destruct (verify_pair s (MerkleInclusionProof (pair_up l) (Z.of_nat (j / 2))) j (length l) x) as [-> _]; [by eapply lookup_lt_Some|done|lia|done].
  - destruct (unpaired l j Hj Es) as [El Ej]. unfold in_range, zlen in Hr. rewrite El in *.
    destruct (MerkleInclusionProof (pair_up l) (Z.of_nat (j / 2))) as [|p q] eqn:Ep.
    + exfalso. cbn in IH'. injection IH' as IH' _. change (Nat.div2 (S (S j))) with (S (Nat.div2 j)) in IH'. rewrite Nat.div2_div in IH'.
      assert (1 <= j / 2)%nat; [|lia]. apply Nat.div_le_lower_bound; [lia|]. destruct j as [|[|]]; [lia|done|lia].
    + destruct (verify_carry p q j x Ej ltac:(lia) ltac:(lia)) as [-> _]. done.
Qed.

Lemma inclusion_sound m l j r proof : (length l <= m)%nat -> in_range l -> (j < length l)%nat ->
  Forall hash_wf l -> hash_wf r -> Forall hash_wf proof ->
  verify_loop proof (Z.of_nat j) (Z.of_nat (length l) - 1) r = Some (0, MerkleTreeHash l) ->
  (l !! j = Some r /\ proof = MerkleInclusionProof l (Z.of_nat j)) \/
  collide (path_msgs proof (Z.of_nat j) (Z.of_nat (length l) - 1) r) (tree_msgs l).
Proof.
  revert l j r proof. induction m as [|m IH]; intros l j r proof Hm Hg Hj Hl Hr Hp Hv; [lia|].
  destruct (decide (length l <= 1)%nat) as [H1|H1].
  { destruct l as [|a [|]]; [simpl in Hj; lia| |simpl in H1; lia]. destruct j; [|simpl in Hj; lia]. left.
    destruct proof; [by injection Hv as ->|done]. }
  pose proof (pair_up_shrinks l ltac:(lia)). destruct proof as [|p q]; [injection Hv as Hv _; lia|]. destruct (tree_msgs_up l ltac:(lia)) as [Hms Hup].
  destruct (lookup_lt_is_Some_2 l j Hj) as [x Hx]. destruct (pair_up_lookup l j x Hx) as [Hu Hin].
  rewrite MerkleInclusionProof_up by done. rewrite <- MerkleTreeHash_pair in Hv. apply Forall_cons in Hp as [Hwp Hq].
  destruct (l !! sib j) as [s|] eqn:Es; [change (option_list (Some s)) with [s]|change (option_list (@None Hash)) with (@nil Hash)]; cbn [app].
  - destruct (verify_pair p q j (length l) r) as [E Em]; [by eapply lookup_lt_Some|done|lia|]. rewrite E in Hv. rewrite Em, <- pair_up_length in *.
    assert (Hn : hash_wf (if Nat.even j then merkleNode r p else merkleNode p r)) by (destruct (Nat.even j); apply Sha256.Sum256_length).
    destruct (IH (pair_up l) (j / 2)%nat _ q ltac:(lia) (in_range_up l Hg ltac:(lia)) (half_lt l j Hj) (pair_up_wf l Hl) Hn Hq Hv) as [[Hv' ->]|Hc].
    2:{ right. eapply collide_mono; [|exact Hup|exact Hc]. intros y Hy. by right. }
    clear Hv. rename Hv' into Hv.
    rewrite Hu in Hv. injection Hv as Hv. pose proof (Hin s eq_refl) as Hi. apply (Forall_lookup_1 _ _ _ _ Hl) in Hx as Hwx. apply (Forall_lookup_1 _ _ _ _ Hl) in Es as Hws.
    destruct (Nat.even j).
    + destruct (collide_or (node_msg r p :: path_msgs (MerkleInclusionProof (pair_up l) (Z.of_nat (j / 2))) (Z.of_nat (j / 2)) (Z.of_nat (length (pair_up l)) - 1) (merkleNode r p)) (tree_msgs l) (node_msg r p) (node_msg x s)) as [Eq|Hc]; [by left|by apply Hms|by symmetry|left|by right].
      apply node_msg_inj in Eq as [-> ->]; done.
    + destruct (collide_or (node_msg p r :: path_msgs (MerkleInclusionProof (pair_up l) (Z.of_nat (j / 2))) (Z.of_nat (j / 2)) (Z.of_nat (length (pair_up l)) - 1) (merkleNode p r)) (tree_msgs l) (node_msg p r) (node_msg s x)) as [Eq|Hc]; [by left|by apply Hms|by symmetry|left|by right].
      apply node_msg_inj in Eq as [-> ->]; done.
  - destruct (unpaired l j Hj Es) as [El Ej]. unfold in_range, zlen in Hg. rewrite El in *.
    destruct (verify_carry p q j r Ej ltac:(lia) ltac:(lia)) as [E Em]. rewrite E in Hv. rewrite Em. rewrite <- El, <- pair_up_length in Hv |- *.
    destruct (IH (pair_up l) (j / 2)%nat r (p :: q) ltac:(lia) ltac:(unfold in_range, zlen; lia) (half_lt l j ltac:(lia)) (pair_up_wf l Hl) Hr ltac:(by constructor) Hv) as [[Hv' ->]|Hc].
    + rewrite Hu in Hv'. injection Hv' as ->. by left.
    + right. by eapply collide_mono; [|exact Hup|exact Hc].
Qed.

(** ** Trees with one hash *)

Lemma pair_up_inj l l' : length l = length l' -> Forall hash_wf l -> Forall hash_wf l' -> pair_up l = pair_up l' ->
  l = l' \/ collide (pair_msgs l) (pair_msgs l').
Proof.
  enough (forall m l l', (length l <= m)%nat -> length l = length l' -> Forall hash_wf l -> Forall hash_wf l' -> pair_up l = pair_up l' ->
    l = l' \/ collide (pair_msgs l) (pair_msgs l')) as H by by eapply H. clear l l'.
  induction m as [|m IH]; intros l l' Hm El Hl Hl' E; [left; destruct l; [by destruct l'|cbn [length] in Hm; lia]|].
  destruct l as [|a [|b l]], l' as [|a' [|b' l']]; try done; [by left|by left|]. cbn [pair_up pair_msgs] in *.
  apply Forall_cons in Hl as [Wa [Wb Hl]%Forall_cons], Hl' as [Wa' [Wb' Hl']%Forall_cons].
  assert (E1 : merkleNode a b = merkleNode a' b') by congruence. assert (E2 : pair_up l = pair_up l') by congruence.
  destruct (collide_or (node_msg a b :: pair_msgs l) (node_msg a' b' :: pair_msgs l') _ _ ltac:(by left) ltac:(by left) E1) as [Em|]; [|by right].
  apply node_msg_inj in Em as [-> ->]; [|done|done]. simpl in El, Hm. destruct (IH l l' ltac:(lia) ltac:(lia) Hl Hl' E2) as [->|Hc]; [by left|right].
  eapply collide_mono; [| |exact Hc]; intros y Hy; by right.
Qed.

Lemma tree_inj m l l' : (length l <= m)%nat -> length l = length l' -> Forall hash_wf l -> Forall hash_wf l' ->
  MerkleTreeHash l = MerkleTreeHash l' -> l = l' \/ collide (tree_msgs l) (tree_msgs l').
Proof.
  revert l l'. induction m as [|m IH]; intros l l' Hm El Hl Hl' E; [left; destruct l; [by destruct l'|cbn [length] in Hm; lia]|].
  destruct (decide (length l <= 1)%nat) as [H1|H1].
  { left. destruct l as [|a [|]]; [by destruct l'| |cbn [length] in H1; lia]. destruct l' as [|a' [|]]; [done| |done]. change (a = a') in E. by subst. }
  pose proof (pair_up_shrinks l ltac:(lia)). destruct (tree_msgs_up l ltac:(lia)) as [Hms Hup]. destruct (tree_msgs_up l' ltac:(lia)) as [Hms' Hup'].
  rewrite <- (MerkleTreeHash_pair l), <- (MerkleTreeHash_pair l') in E.
  destruct (IH (pair_up l) (pair_up l') ltac:(lia) ltac:(by rewrite !pair_up_length, El) (pair_up_wf l Hl) (pair_up_wf l' Hl') E) as [E'|Hc];
    [|right; exact (collide_mono _ _ _ _ Hup Hup' Hc)].
  destruct (pair_up_inj l l' El Hl Hl' E') as [->|Hc]; [by left|right; exact (collide_mono _ _ _ _ Hms Hms' Hc)].
Qed.

Lemma leaves_inj cs cs' : map ChunkLeafHash cs = map ChunkLeafHash cs' -> cs = cs' \/ collide (map leaf_msg cs) (map leaf_msg cs').
Proof.
  revert cs'. induction cs as [|c cs IH]; intros [|c' cs'] E; try done; [by left|]. cbn [map] in *.
  assert (E1 : ChunkLeafHash c = ChunkLeafHash c') by congruence. assert (E2 : map ChunkLeafHash cs = map ChunkLeafHash cs') by congruence.
  destruct (collide_or (leaf_msg c :: map leaf_msg cs) (leaf_msg c' :: map leaf_msg cs') _ _ ltac:(by left) ltac:(by left) E1) as [Em|]; [|by right].
  assert (c = c') as -> by (unfold leaf_msg in Em; congruence). destruct (IH cs' E2) as [->|Hc]; [by left|right].
  eapply collide_mono; [| |exact Hc]; intros y Hy; by right.
Qed.

(** ** Chunks *)

#[local] Opaque AttachmentChunkBytes.

Lemma chunk_bytes : AttachmentChunkBytes = 1048576.
Proof. reflexivity. Qed.

(** How many chunks there are, with no overflow. *)
Definition chunk_count (size : Z) : Z := if size <=? 0 then 1 else (size + AttachmentChunkBytes - 1) / AttachmentChunkBytes.

Lemma AttachmentChunkCount_exact size : size + AttachmentChunkBytes <= 2 ^ 63 -> AttachmentChunkCount size = chunk_count size.
Proof.
  unfold AttachmentChunkCount, chunk_count. rewrite chunk_bytes. intros Hs. case (Z.leb_spec size 0); [done|]. intros H0. by rewrite wraps_id, Z.quot_div_nonneg by (unfold is_s; lia).
Qed.

(** A size within a chunk of the largest int64 overflows: the count is negative. *)
Theorem AttachmentChunkCount_overflows : AttachmentChunkCount (2 ^ 63 - 1) = - 2 ^ 43 + 1.
Proof. reflexivity. Qed.

Lemma chunks_spec fuel data : (length data < fuel)%nat -> concat (chunks fuel data) = data /\
  (length (chunks fuel data) <= fuel)%nat /\ zlen (chunks fuel data) = chunk_count (zlen data).
Proof.
  revert data. induction fuel as [|f IH]; intros data Hf; [lia|]. cbn [chunks]. rewrite chunk_bytes in *. unfold chunk_count. rewrite chunk_bytes.
  case (Z.leb_spec (zlen data) 1048576); intros H.
  - split_and!; [by rewrite concat_cons, app_nil_r|simpl; lia|]. change (zlen [data]) with 1. case (Z.leb_spec (zlen data) 0); [done|]. intros H0.
    replace (zlen data + 1048576 - 1) with (zlen data - 1 + 1 * 1048576) by lia. rewrite Z.div_add, Z.div_small by lia. done.
  - set (k := Z.to_nat 1048576). assert (Hk : Z.of_nat k = 1048576) by (unfold k; lia). unfold zlen in H.
    destruct (IH (drop k data)) as (Hc & Hn & Hz); [rewrite length_drop; lia|]. rewrite concat_cons, Hc, take_drop. split_and!; [done|simpl; lia|].
    rewrite zlen_cons, Hz. unfold chunk_count, zlen. rewrite length_drop, chunk_bytes.
    case (Z.leb_spec (Z.of_nat (length data)) 0); [lia|]. case (Z.leb_spec (Z.of_nat (length data - k)) 0); [lia|]. intros _ _.
    replace (Z.of_nat (length data) + 1048576 - 1) with (Z.of_nat (length data - k) + 1048576 - 1 + 1 * 1048576) by lia. rewrite Z.div_add by lia. lia.
Qed.

(** The messages hashed for the content hash of some bytes. *)
Definition content_leaves (data : bytes) : list Hash := map ChunkLeafHash (chunks_of data).
Definition content_msgs (data : bytes) : list bytes :=
  identity_msg (MerkleTreeHash (content_leaves data)) (zlen data) :: map leaf_msg (chunks_of data) ++ tree_msgs (content_leaves data).

Lemma fold_add cs m : fold_left (fun m chunk => Add m (ChunkLeafHash chunk)) cs m = fold_left Add (map ChunkLeafHash cs) m.
Proof. revert m. induction cs as [|c cs IH]; intros m; [done|]. apply IH. Qed.

Lemma content_hash_tree data : slice_ok data ->
  AttachmentContentHash data = AttachmentIdentity (MerkleTreeHash (content_leaves data)) (zlen data).
Proof.
  intros Hs. unfold AttachmentContentHash. rewrite fold_add. destruct (chunks_spec (S (length data)) data ltac:(lia)) as (_ & Hn & _).
  rewrite (Root_holds _ (content_leaves data)); [done|]. apply (adds_holds _ _ []); [exact new_holds|]. cbn [app]. unfold slice_ok, zlen in *.
  rewrite length_map. fold (chunks_of data) in Hn. lia.
Qed.

Lemma content_leaves_wf data : Forall hash_wf (content_leaves data).
Proof. apply Forall_map, Forall_forall. intros c _. apply Sha256.Sum256_length. Qed.

(** ** The theorems *)

(** The ways of computing an attachment's Merkle tree agree: the hash the streaming
    builder gives after any leaves, with its stack of perfect subtrees, and the root of the
    tree built level by level are the recursive RFC 6962 tree hash of the leaves, and the
    audit path read off the levels is the recursively computed one. *)
Theorem merkle_trees_agree leaves (Hn : zlen leaves < 2 ^ 64) :
  Root (fold_left Add leaves new_builder) = MerkleTreeHash leaves /\
  Leaves (fold_left Add leaves new_builder) = zlen leaves /\
  tree_root (NewMerkleTree leaves) = MerkleTreeHash leaves /\
  forall i, 0 <= i < zlen leaves -> Proof_at (NewMerkleTree leaves) i = Ok (MerkleInclusionProof leaves i).
Proof.
  pose proof (adds_holds leaves new_builder [] new_holds Hn) as H. split_and!; [by apply Root_holds|by destruct H as (ks & _ & _ & H)|apply NewMerkleTree_root|].
  intros i Hi. rewrite <- (Z2Nat.id i) by lia. apply NewMerkleTree_proof. unfold zlen in Hi. lia.
Qed.

Definition demo_leaves : list Hash := map (fun c => ChunkLeafHash [c]) [x01; x02; x03].

Lemma merkle_trees_agree_witness : zlen demo_leaves < 2 ^ 64 /\
  Root (fold_left Add demo_leaves new_builder) = MerkleTreeHash demo_leaves /\
  Proof_at (NewMerkleTree demo_leaves) 2 = Ok (MerkleInclusionProof demo_leaves 2).
Proof.
  split; [reflexivity|]. destruct (merkle_trees_agree demo_leaves ltac:(reflexivity)) as (H & _ & _ & P). split; [exact H|].
  apply P. split; [discriminate|reflexivity].
Defined.

(** C30. An audit path proves exactly what it says.  The path of a leaf is accepted for the
    leaf at its index against the tree's hash; and whatever path is accepted, for whatever
    leaf and by whoever made it, the leaf is the one at that index and the path is its audit
    path - unless a message hashed by the check and one hashed for the tree collide. *)
Theorem inclusion_exact leaves leaf i proof (Hs : slice_ok leaves) (Hl : Forall hash_wf leaves) (Hf : hash_wf leaf) (Hp : Forall hash_wf proof) :
  (0 <= i -> leaves !! Z.to_nat i = Some leaf -> proof = MerkleInclusionProof leaves i ->
   VerifyMerkleInclusion leaf i (zlen leaves) proof (MerkleTreeHash leaves) = true) /\
  (VerifyMerkleInclusion leaf i (zlen leaves) proof (MerkleTreeHash leaves) = true ->
   (0 <= i /\ leaves !! Z.to_nat i = Some leaf /\ proof = MerkleInclusionProof leaves i) \/
   collide (path_msgs proof i (zlen leaves - 1) leaf) (tree_msgs leaves)).
Proof.
  assert (Hr : in_range leaves) by (unfold in_range, slice_ok in *; lia). unfold VerifyMerkleInclusion. split.
  - intros Hi Hx ->. pose proof (lookup_lt_Some _ _ _ Hx) as Hj. unfold zlen.
    case (Z.ltb_spec i 0); [lia|]. case (Z.leb_spec (Z.of_nat (length leaves)) i); [lia|]. intros _ _. cbn [orb].
    pose proof (inclusion_complete _ leaves (Z.to_nat i) leaf (le_n _) Hr Hx) as V. rewrite Z2Nat.id in V by done. rewrite V.
    rewrite bool_decide_eq_true_2 by done. done.
  - case (Z.ltb_spec i 0); [done|]. unfold zlen. case (Z.leb_spec (Z.of_nat (length leaves)) i); [done|]. intros Hi Hi'. cbn [orb].
    destruct (verify_loop _ _ _ _) as [[sn r]|] eqn:V; [|done]. intros [->%Z.eqb_eq ->%bool_decide_eq_true]%andb_prop.
    pose proof (inclusion_sound _ leaves (Z.to_nat i) leaf proof (le_n _) Hr ltac:(lia) Hl Hf Hp) as S. rewrite Z2Nat.id in S by done.
    destruct (S V) as [[? ?]|Hc]; [by left|by right].
Qed.

Lemma demo_leaves_wf : Forall hash_wf demo_leaves.
Proof. repeat constructor; apply Sha256.Sum256_length. Qed.

Lemma inclusion_exact_witness : slice_ok demo_leaves /\
  VerifyMerkleInclusion (ChunkLeafHash [x02]) 1 3 [ChunkLeafHash [x01]; ChunkLeafHash [x03]] (MerkleTreeHash demo_leaves) = true.
Proof.
  split; [reflexivity|].
  destruct (inclusion_exact demo_leaves (ChunkLeafHash [x02]) 1 [ChunkLeafHash [x01]; ChunkLeafHash [x03]] eq_refl demo_leaves_wf (Sha256.Sum256_length _)
    ltac:(repeat constructor; apply Sha256.Sum256_length)) as [H _].
  apply H; [discriminate|reflexivity|reflexivity].
Defined.

(** A content hash identifies the bytes of an attachment: two attachments with the same
    content hash are the same bytes - unless two of the messages hashed for them, of the
    chunks, of the tree nodes or of the sizes, collide. *)
Theorem content_hash_identifies a b (Ha : slice_ok a) (Hb : slice_ok b) (E : AttachmentContentHash a = AttachmentContentHash b) :
  a = b \/ collide (content_msgs a) (content_msgs b).
Proof.
  rewrite !content_hash_tree in E by done. destruct (collide_or (content_msgs a) (content_msgs b) _ _ ltac:(by left) ltac:(by left) E) as [Em|]; [|by right].
  assert (Hz : be_bytes 8 (zlen a) = be_bytes 8 (zlen b) /\ HashBytes (MerkleTreeHash (content_leaves a)) = HashBytes (MerkleTreeHash (content_leaves b))).
  { unfold identity_msg in Em. assert (Em' : be_bytes 8 (zlen a) ++ HashBytes (MerkleTreeHash (content_leaves a)) = be_bytes 8 (zlen b) ++ HashBytes (MerkleTreeHash (content_leaves b))) by congruence.
    apply app_inj_1 in Em'; [done|]. by rewrite !be_bytes_length. }
  destruct Hz as [Hz Ht]. apply (f_equal be_val) in Hz. unfold slice_ok in *. pose proof (zlen_nonneg a). pose proof (zlen_nonneg b). rewrite !be_val_bytes, !Z.mod_small in Hz by (change (8 * Z.of_nat 8) with 64; lia).
  destruct (chunks_spec (S (length a)) a ltac:(lia)) as (Ca & _ & Na). destruct (chunks_spec (S (length b)) b ltac:(lia)) as (Cb & _ & Nb).
  fold (chunks_of a) in Ca, Na. fold (chunks_of b) in Cb, Nb.
  destruct (tree_inj _ (content_leaves a) (content_leaves b) (le_n _)) as [El|Hc]; [|apply content_leaves_wf|apply content_leaves_wf| | |].
  - unfold content_leaves. rewrite !length_map. rewrite Hz in Na. unfold zlen in Na, Nb. lia.
  - by destruct (MerkleTreeHash (content_leaves a)), (MerkleTreeHash (content_leaves b)); cbn in Ht; subst.
  - destruct (leaves_inj _ _ El) as [Ec|Hc]; [left; by rewrite <- Ca, <- Cb, Ec|right]. eapply collide_mono; [| |exact Hc]; intros y Hy; right; apply elem_of_app; by left.
  - right. eapply collide_mono; [| |exact Hc]; intros y Hy; right; apply elem_of_app; by right.
Qed.

Lemma content_hash_identifies_witness : slice_ok (str "ab") /\ (str "ab" = [x61; x62] \/ collide (content_msgs (str "ab")) (content_msgs [x61; x62])).
Proof. split; [reflexivity|]. exact (content_hash_identifies (str "ab") [x61; x62] eq_refl eq_refl eq_refl). Defined.

End AttachmentHash.
