(* ===== verification/AttachmentSet.v ===== *)
(** A document's attachments: [AttachmentRef], [AttachmentSet] and [AttachmentSetOps] of
    [document/attachment_table.go], and the encoding of sets of
    [document/attachment_set_pool.go].

    A set is a sorted slice that behaves as a finite map from attachment ids with the names
    kept unique; its encoding round-trips; and its hash identifies it, unless two of the
    messages hashed for two sets collide. *)

From S2P Require Import Prelude Primitives Schema KdbCodec CodecCorrect Document Sha256 Commit CommitDirect CommitCorrect Utf8 AttachmentHash.
Import Primitives Document CommitDirect AttachmentHash.

Module AttachmentSet.

(** ** Attachments *)

Record AttachmentRef := mkRef { Scheme : Z; ContentHash : Hash; Size : Z; Mime : bytes }.
Record Attachment := mkAttachment { ID : UUID; Name : bytes; Ref : AttachmentRef }.

#[export] Instance ref_eq_dec : EqDecision AttachmentRef.
Proof. solve_decision. Defined.
#[export] Instance attachment_eq_dec : EqDecision Attachment.
Proof. solve_decision. Defined.

Abbreviation AttachmentSet := (list Attachment).

Inductive parse_fault :=
  | UnknownEncoding | MalformedLength (off : Z) | StringTruncated (off : Z) | EntryTruncated (off : Z)
  | CountExceeds (n : Z) | OutOfOrder | NameRepeated (name : bytes) | TrailingBytes (n : Z).

Inductive attach_error :=
  | NameEmpty | NameTooLong (n : Z) | NameNotUtf8 | NameControl
  | NameUsed (name : bytes) (other : UUID)
  | NoID (doc : UUID) | NegativeSize (id doc : UUID) (size : Z) | UnknownScheme (id doc : UUID) (scheme : Z)
  | ErrAttachmentSetMissing (h : Hash) | ErrAttachmentSetCorrupt (h : Hash)
  | ReadingStore (h : Hash) (cause : bytes) | SpillingStore (h : Hash) (cause : bytes)
  | ParseFailed (e : parse_fault)
  | AttachmentsOf (doc : UUID) (e : attach_error).

Definition ares : Type -> Type := go attach_error.

Definition MaxAttachmentNameBytes : Z := 255.

Definition ValidateAttachmentName (name : bytes) : option attach_error :=
  if zlen name =? 0 then Some NameEmpty
  else if MaxAttachmentNameBytes <? zlen name then Some (NameTooLong (zlen name))
  else if negb (Utf8.valid name) then Some NameNotUtf8
  else if existsb (fun r => (r <? 0x20) || (r =? 0x7f)) (Utf8.runes name) then Some NameControl
  else None.

(** ** Hashes *)

Definition ref_msg (r : AttachmentRef) : bytes :=
  x41 :: z2b (Scheme r) :: HashBytes (ContentHash r) ++ be_bytes 8 (Size r) ++ be_bytes 4 (zlen (Mime r)) ++ Mime r.
Definition ref_Hash (r : AttachmentRef) : Hash := mkHash (Sha256.Sum256 (ref_msg r)).

Definition entry_msg (a : Attachment) : bytes :=
  be_bytes 8 (MSB (ID a)) ++ be_bytes 8 (LSB (ID a)) ++ be_bytes 4 (zlen (Name a)) ++ Name a ++ HashBytes (ref_Hash (Ref a)).
Definition set_msg (s : AttachmentSet) : bytes := x53 :: concat (map entry_msg s).
Definition set_Hash (s : AttachmentSet) : Hash := mkHash (Sha256.Sum256 (set_msg s)).

(** ** Sets *)

Definition uuidLess (a b : UUID) : bool :=
  if negb (MSB a =? MSB b) then wrapu 64 (MSB a) <? wrapu 64 (MSB b) else wrapu 64 (LSB a) <? wrapu 64 (LSB b).

(** [sort.Search]: the binary search for the first index where [f] holds. *)
Fixpoint search (fuel : nat) (f : nat -> bool) (i j : nat) : nat :=
  match fuel with
  | O => i
  | S fuel =>
    if (i <? j)%nat then
      let h := ((i + j) / 2)%nat in
      if f h then search fuel f i h else search fuel f (S h) j
    else i
  end.
Definition Search (n : nat) (f : nat -> bool) : nat := search n f 0 n.

Definition find (s : AttachmentSet) (id : UUID) : nat * bool :=
  let i := Search (length s) (fun i => match s !! i with Some a => negb (uuidLess (ID a) id) | None => true end) in
  (i, match s !! i with Some a => bool_decide (ID a = id) | None => false end).

Definition ByName (s : AttachmentSet) (name : bytes) : option Attachment :=
  List.find (fun a => bool_decide (Name a = name)) s.

Definition set_with (s : AttachmentSet) (a : Attachment) : ares AttachmentSet :=
  match ByName s (Name a) with
  | Some other => if negb (bool_decide (ID other = ID a)) then Err (NameUsed (Name a) (ID other)) else
      let '(i, found) := find s (ID a) in Ok (take i s ++ a :: drop (if found then S i else i) s)
  | None => let '(i, found) := find s (ID a) in Ok (take i s ++ a :: drop (if found then S i else i) s)
  end.

Definition set_without (s : AttachmentSet) (id : UUID) : AttachmentSet * bool :=
  let '(i, found) := find s id in
  if found then (take i s ++ drop (S i) s, true) else (s, false).

Definition get (s : AttachmentSet) (id : UUID) : option Attachment :=
  let '(i, ok) := find s id in if ok then s !! i else None.

(** ** The encoding of a set *)

Definition append_fields (dst : bytes) (a : Attachment) : bytes :=
  let dst := AppendUvarint dst (zlen (Name a)) ++ Name a in
  let dst := dst ++ z2b (Scheme (Ref a)) :: HashBytes (ContentHash (Ref a)) ++ be_bytes 8 (Size (Ref a)) in
  AppendUvarint dst (zlen (Mime (Ref a))) ++ Mime (Ref a).

Definition append_attachment (dst : bytes) (a : Attachment) : bytes :=
  append_fields (dst ++ be_bytes 8 (MSB (ID a)) ++ be_bytes 8 (LSB (ID a))) a.

Definition AppendAttachmentSet (dst : bytes) (s : AttachmentSet) : bytes :=
  fold_left append_attachment s (AppendUvarint (dst ++ [x01]) (zlen s)).

(** The reader: what is left of the bytes, and how much was read. *)
Record reader := mkReader { rest : bytes; off : Z }.
Definition advance (n : Z) (c : reader) : reader := mkReader (drop (Z.to_nat n) (rest c)) (off c + n).

Definition uv (c : reader) : ares (Z * reader) :=
  let '(v, n) := Uvarint (rest c) in
  if n <=? 0 then Err (ParseFailed (MalformedLength (off c))) else Ok (v, advance n c).

Definition read_str (c : reader) : ares (bytes * reader) :=
  '(l, c) ← uv c;
  if zlen (rest c) <? l then Err (ParseFailed (StringTruncated (off c)))
  else Ok (take (Z.to_nat l) (rest c), advance l c).

(** [int64(binary.BigEndian.Uint64(b[off:]))] at an offset from the reader's place. *)
Definition read_int64 (c : reader) (at_ : Z) : Z := wraps 64 (be_val (sub (rest c) at_ 8)).
Definition read_uuid (c : reader) (at_ : Z) : UUID := mkUUID (read_int64 c at_) (read_int64 c (at_ + 8)).

Definition read_fields (c : reader) : ares (bytes * AttachmentRef * reader) :=
  '(name, c) ← read_str c;
  if zlen (rest c) <? 1 + 32 + 8 then Err (ParseFailed (EntryTruncated (off c)))
  else
    scheme ← zindex (rest c) 0;
    let hash := mkHash (sub (rest c) 1 32) in
    let size := read_int64 c 33 in
    '(mime, c) ← read_str (advance 41 c);
    Ok (name, mkRef (b2z scheme) hash size mime, c).

Fixpoint parse_entries (fuel : nat) (n : Z) (out : AttachmentSet) (names : gset bytes) (c : reader) : ares (AttachmentSet * reader) :=
  match fuel with
  | O => Panic
  | S fuel =>
    if n =? 0 then Ok (out, c) else
    if zlen (rest c) <? 16 then Err (ParseFailed (EntryTruncated (off c))) else
    let id := read_uuid c 0 in
    '(name, ref, c) ← read_fields (advance 16 c);
    let a := mkAttachment id name ref in
    if match last out with Some b => negb (uuidLess (ID b) id) | None => false end then Err (ParseFailed OutOfOrder)
    else if bool_decide (name ∈ names) then Err (ParseFailed (NameRepeated name))
    else parse_entries fuel (n - 1) (out ++ [a]) ({[name]} ∪ names) c
  end.

Definition ParseAttachmentSet (b : bytes) : ares AttachmentSet :=
  match b with
  | [] => Err (ParseFailed UnknownEncoding)
  | v :: rest_ =>
    if negb (bool_decide (v = x01)) then Err (ParseFailed UnknownEncoding) else
    '(n, c) ← uv (mkReader rest_ 1);
    if zlen b <? n then Err (ParseFailed (CountExceeds n)) else
    '(out, c) ← parse_entries (S (length b)) n [] ∅ c;
    if negb (off c =? zlen b) then Err (ParseFailed (TrailingBytes (zlen b - off c))) else Ok out
  end.

(** ** The operations between two sets *)

Definition put_op (doc : UUID) (a : Attachment) : Op :=
  AttachmentPutOp doc (ID a) (Name a) (Scheme (Ref a)) (ContentHash (Ref a)) (Size (Ref a)) (Mime (Ref a)).

(** The map a loop over a set builds, the last of an id winning. *)
Definition by_id (s : AttachmentSet) : gmap UUID Attachment := fold_left (fun m a => <[ID a := a]> m) s ∅.

Definition AttachmentSetOps (doc : UUID) (before after : AttachmentSet) : list Op :=
  let next := by_id after in
  let prev := by_id before in
  let dels := omap (fun a => match next !! ID a with
    | Some n => if bool_decide (Name n = Name a) then None else Some (AttachmentDeleteOp doc (ID a))
    | None => Some (AttachmentDeleteOp doc (ID a))
    end) before in
  let sorted := isort (fun a b => uuidLess (ID a) (ID b)) after in
  let puts := omap (fun a => match prev !! ID a with
    | Some p => if bool_decide (p = a) then None else Some (put_op doc a)
    | None => Some (put_op doc a)
    end) sorted in
  dels ++ puts.

#[local] Opaque Sha256.Sum256.

(** ** The order of ids *)

Definition ukey (u : UUID) : Z := wrapu 64 (MSB u) * 2 ^ 64 + wrapu 64 (LSB u).

Lemma wrapu_inj a b : is_s 64 a -> is_s 64 b -> wrapu 64 a = wrapu 64 b -> a = b.
Proof.
  unfold is_s. intros Ha Hb E. rewrite <- (wraps_id 64 a), <- (wraps_id 64 b) by (done || lia).
  by rewrite <- (wraps_wrapu 64 a), <- (wraps_wrapu 64 b), E by lia.
Qed.

Lemma ukey_inj a b : uuid_wf a -> uuid_wf b -> ukey a = ukey b -> a = b.
Proof.
  intros [Ma La] [Mb Lb] E. unfold ukey in E. pose proof (wrapu_range 64 (LSB a) ltac:(lia)) as Ra. pose proof (wrapu_range 64 (LSB b) ltac:(lia)) as Rb.
  unfold is_u in *. assert (wrapu 64 (MSB a) = wrapu 64 (MSB b)) by nia. assert (wrapu 64 (LSB a) = wrapu 64 (LSB b)) by nia.
  destruct a, b. cbn in *. f_equal; by apply wrapu_inj.
Qed.

Lemma uuidLess_spec a b : uuid_wf a -> uuid_wf b -> uuidLess a b = (ukey a <? ukey b).
Proof.
  intros [Ma La] [Mb Lb]. unfold uuidLess, ukey. pose proof (wrapu_range 64 (LSB a) ltac:(lia)) as Ra. pose proof (wrapu_range 64 (LSB b) ltac:(lia)) as Rb. unfold is_u in *.
  case (Z.eqb_spec (MSB a) (MSB b)); cbn [negb].
  - intros ->. apply eq_bool_prop_intro. rewrite !Is_true_true, !Z.ltb_lt. lia.
  - intros Hd. assert (wrapu 64 (MSB a) <> wrapu 64 (MSB b)) by (intros E; by apply Hd, wrapu_inj). apply eq_bool_prop_intro. rewrite !Is_true_true, !Z.ltb_lt. nia.
Qed.

(** ** The search *)

Lemma set_search_spec fuel f n i j : (j - i <= fuel)%nat -> (i <= j <= n)%nat ->
  (forall x y, (x <= y < n)%nat -> f x = true -> f y = true) ->
  (forall x, (x < i)%nat -> f x = false) -> (forall x, (j <= x < n)%nat -> f x = true) ->
  let k := search fuel f i j in (k <= n)%nat /\ (forall x, (x < k)%nat -> f x = false) /\ (forall x, (k <= x < n)%nat -> f x = true).
Proof.
  revert i j. induction fuel as [|fuel IH]; intros i j Hf Hij Hm Hi Hj; cbn [search].
  { assert (i = j) as -> by lia. split_and!; [lia|done|done]. }
  case (Nat.ltb_spec i j); intros H; [|assert (i = j) as -> by lia; split_and!; [lia|done|done]].
  set (h := ((i + j) / 2)%nat). assert (Hh : (i <= h < j)%nat).
  { split; [apply Nat.div_le_lower_bound; lia|apply Nat.Div0.div_lt_upper_bound; lia]. }
  destruct (f h) eqn:E.
  - apply IH; [lia|lia|done|done|]. intros x Hx. apply (Hm h); [lia|done].
  - apply IH; [lia|lia|done| |done]. intros x Hx. destruct (f x) eqn:Ex; [|done]. by rewrite (Hm x h) in E by (done || lia).
Qed.

Lemma Search_spec n f : (forall x y, (x <= y < n)%nat -> f x = true -> f y = true) ->
  (Search n f <= n)%nat /\ (forall x, (x < Search n f)%nat -> f x = false) /\ (forall x, (Search n f <= x < n)%nat -> f x = true).
Proof. intros Hm. apply set_search_spec; [lia|lia|done|lia|lia]. Qed.

(** ** Sets as maps *)

Definition att_lt (a b : Attachment) : Prop := ukey (ID a) < ukey (ID b).
#[export] Instance att_lt_trans : Transitive att_lt.
Proof. unfold att_lt. intros a b c. lia. Qed.

Definition ref_ok (r : AttachmentRef) : Prop := 0 <= Scheme r < 256 /\ hash_wf (ContentHash r) /\ is_s 64 (Size r) /\ slice_ok (Mime r).
Definition att_ok (a : Attachment) : Prop := uuid_wf (ID a) /\ slice_ok (Name a) /\ ref_ok (Ref a).

(** Sorted by id, and the names are different. *)
Definition set_ok (s : AttachmentSet) : Prop := StronglySorted att_lt s /\ Forall att_ok s /\ NoDup (map Name s).

Lemma by_id_fold s m : fold_left (fun m a => <[ID a := a]> m) s m = by_id s ∪ m.
Proof.
  unfold by_id. revert m. induction s as [|a s IH]; intros m; cbn [fold_left]; [by rewrite left_id_L by apply _|].
  rewrite (IH (<[ID a := a]> m)), (IH (<[ID a := a]> ∅)). rewrite <- (map_union_assoc _ _ m). f_equal. by rewrite insert_union_singleton_l, (insert_empty (ID a) a).
Qed.

Lemma by_id_cons a s : by_id (a :: s) = by_id s ∪ {[ID a := a]}.
Proof. unfold by_id at 1. cbn [fold_left]. by rewrite by_id_fold, insert_empty. Qed.

Lemma by_id_app s r : by_id (s ++ r) = by_id r ∪ by_id s.
Proof. unfold by_id at 1. rewrite fold_left_app. apply by_id_fold. Qed.

Lemma by_id_elem s id a : by_id s !! id = Some a -> a ∈ s /\ ID a = id.
Proof.
  induction s as [|b s IH]; [done|]. rewrite by_id_cons, lookup_union_Some_raw. intros [H|[_ H]].
  - destruct (IH H). split; [by right|done].
  - apply lookup_singleton_Some in H as [<- <-]. split; [by left|done].
Qed.

Lemma by_id_None s id : by_id s !! id = None <-> Forall (fun a => ID a <> id) s.
Proof.
  induction s as [|b s IH]; [split; [constructor|done]|]. rewrite by_id_cons, lookup_union_None, IH, lookup_singleton_None, Forall_cons. tauto.
Qed.

Lemma sorted_lookup s i j a b : StronglySorted att_lt s -> (i < j)%nat -> s !! i = Some a -> s !! j = Some b -> att_lt a b.
Proof.
  intros Hs. revert i j. induction Hs as [|c s Hs IH Hc]; intros [|i] [|j] Hij Ha Hb; try (done || lia); cbn in *; simplify_eq.
  - rewrite Forall_forall in Hc. by eapply Hc, list_elem_of_lookup_2.
  - by eapply IH; [|done|done]; lia.
Qed.

(** The place of an id: where it is, or between what is below it and what is above. *)
Lemma find_cases s id : StronglySorted att_lt s -> Forall att_ok s -> uuid_wf id ->
  (exists l a r, s = l ++ a :: r /\ ID a = id /\ find s id = (length l, true)) \/
  (exists l r, s = l ++ r /\ find s id = (length l, false) /\
     Forall (fun a => ukey (ID a) < ukey id) l /\ Forall (fun a => ukey id < ukey (ID a)) r).
Proof.
  intros Hs Ho Hid. set (f := fun i => match s !! i with Some a => negb (uuidLess (ID a) id) | None => true end).
  assert (Hf : forall i a, s !! i = Some a -> f i = (ukey id <=? ukey (ID a))).
  { intros i a E. unfold f. rewrite E, uuidLess_spec, Z.ltb_antisym, negb_involutive; [done| |done]. by apply (Forall_lookup_1 _ _ _ _ Ho E). }
  assert (Hlt : forall i j a b, (i < j)%nat -> s !! i = Some a -> s !! j = Some b -> ukey (ID a) < ukey (ID b)).
  { intros i j a b Hij Ha Hb. exact (sorted_lookup s i j a b Hs Hij Ha Hb). }
  destruct (Search_spec (length s) f) as (Hk & Hl & Hr).
  { intros x y Hxy Hx. destruct (lookup_lt_is_Some_2 s x) as [a Ea]; [lia|]. destruct (lookup_lt_is_Some_2 s y) as [b Eb]; [lia|].
    rewrite (Hf _ _ Ea) in Hx. rewrite (Hf _ _ Eb). apply Z.leb_le in Hx. apply Z.leb_le. destruct (decide (x = y)) as [->|]; [by simplify_eq|].
    pose proof (Hlt x y a b ltac:(lia) Ea Eb). lia. }
  set (k := Search (length s) f) in *.
  assert (Ef : find s id = (k, match s !! k with Some a => bool_decide (ID a = id) | None => false end)) by reflexivity. rewrite Ef. assert (Hlen : length (take k s) = k) by (rewrite length_take; lia).
  assert (HL : Forall (fun a => ukey (ID a) < ukey id) (take k s)).
  { apply Forall_lookup_2. intros i a E. apply lookup_take_Some in E as [E Hi]. pose proof (Hl i Hi) as F. rewrite (Hf _ _ E) in F. apply Z.leb_gt in F. lia. }
  destruct (s !! k) as [a|] eqn:Ea.
  - pose proof (lookup_lt_Some _ _ _ Ea) as Hkl. pose proof (Hr k ltac:(lia)) as F. rewrite (Hf _ _ Ea) in F. apply Z.leb_le in F.
    pose proof (take_drop_middle s k a Ea) as E. destruct (decide (ID a = id)) as [Hd|Hd].
    + left. exists (take k s), a, (drop (S k) s). by rewrite Hlen, bool_decide_eq_true_2.
    + right. rewrite bool_decide_eq_false_2 by done. exists (take k s), (drop k s). rewrite take_drop, Hlen. split_and!; [done|done|done|].
      apply Forall_lookup_2. intros i b Eb. rewrite lookup_drop in Eb. assert (ukey id <> ukey (ID a)).
      { intros Eq. apply Hd. symmetry. apply ukey_inj; [done|by apply (Forall_lookup_1 _ _ _ _ Ho Ea)|done]. }
      destruct i as [|i]; [rewrite Nat.add_0_r in Eb; simplify_eq; lia|]. pose proof (Hlt k (k + S i)%nat a b ltac:(lia) Ea Eb). lia.
  - apply lookup_ge_None in Ea. right. exists s, []. rewrite app_nil_r. rewrite take_ge in HL by lia. replace (length s) with k by lia. by split_and!.
Qed.

Lemma sorted_app l r : StronglySorted att_lt (l ++ r) <-> StronglySorted att_lt l /\ StronglySorted att_lt r /\ forall a b, a ∈ l -> b ∈ r -> att_lt a b.
Proof.
  induction l as [|c l IH]; cbn [app].
  - split; [intros H; split_and!; [constructor|done|set_solver]|tauto].
  - rewrite !StronglySorted_cons, IH, !Forall_forall. set_solver.
Qed.

Lemma sorted_ids s : StronglySorted att_lt s -> NoDup (map ID s).
Proof.
  induction 1 as [|a s Hs IH Ha]; cbn; constructor; [|done]. rewrite list_elem_of_fmap. intros (b & E & Hb). rewrite Forall_forall in Ha. pose proof (Ha b Hb) as L.
  unfold att_lt in L. rewrite E in L. lia.
Qed.

Lemma by_id_Some s id a : NoDup (map ID s) -> by_id s !! id = Some a <-> a ∈ s /\ ID a = id.
Proof.
  intros Hn. split; [apply by_id_elem|]. revert Hn. induction s as [|b s IH]; intros Hn [Hin <-]; [set_solver|]. cbn in Hn. apply NoDup_cons in Hn as [Hni Hn].
  rewrite by_id_cons, lookup_union_Some_raw. apply elem_of_cons in Hin as [->|Hin].
  - right. split; [|apply lookup_singleton_eq]. apply by_id_None, Forall_forall. intros c Hc E. apply Hni, list_elem_of_fmap. by exists c.
  - left. apply IH; [done|]. done.
Qed.

Lemma set_elem s id a : set_ok s -> by_id s !! id = Some a <-> a ∈ s /\ ID a = id.
Proof. intros (Hs & _ & _). by apply by_id_Some, sorted_ids. Qed.

(** One map, one set. *)
Lemma set_ext s s' : set_ok s -> set_ok s' -> by_id s = by_id s' -> s = s'.
Proof.
  intros H H' E. pose proof H as (Hs & _). pose proof H' as (Hs' & _). apply (StronglySorted_unique_strong att_lt); [|done|done|].
  - intros x y _ _ Hx Hy. unfold att_lt in *. lia.
  - apply NoDup_Permutation; [by eapply NoDup_fmap_1, sorted_ids|by eapply NoDup_fmap_1, sorted_ids|]. intros a.
    pose proof (set_elem s (ID a) a H) as A. pose proof (set_elem s' (ID a) a H') as B. rewrite E in A. tauto.
Qed.

Lemma NoDup_map_inj {A B} (f : A -> B) l a b : NoDup (map f l) -> a ∈ l -> b ∈ l -> f a = f b -> a = b.
Proof.
  induction l as [|x l IH]; cbn; [set_solver|]. intros [Hx Hn]%NoDup_cons [->|Ha]%elem_of_cons [->|Hb]%elem_of_cons E; [done| | |auto].
  - destruct Hx. rewrite E. by apply (list_elem_of_fmap_2 f).
  - destruct Hx. rewrite <- E. by apply (list_elem_of_fmap_2 f).
Qed.

Lemma ByName_spec s name :
  match ByName s name with
  | Some o => o ∈ s /\ Name o = name
  | None => Forall (fun a => Name a <> name) s
  end.
Proof.
  unfold ByName. destruct (List.find _ s) as [o|] eqn:E.
  - apply List.find_some in E as [Hin Hn]. apply bool_decide_eq_true in Hn. by rewrite list_elem_of_In.
  - apply Forall_forall. intros a Ha Hn. apply list_elem_of_In in Ha. pose proof (List.find_none _ _ E a Ha) as F. by apply bool_decide_eq_false in F.
Qed.

Lemma map_by_elem s m : set_ok s -> (forall id a, m !! id = Some a <-> a ∈ s /\ ID a = id) -> by_id s = m.
Proof. intros H E. apply map_eq. intros id. apply option_eq. intros a. by rewrite set_elem, E. Qed.

(** Putting an attachment between what is below and what is above its id. *)
Lemma splice_ok l r a : set_ok (l ++ r) -> att_ok a -> Forall (fun b => ukey (ID b) < ukey (ID a)) l -> Forall (fun b => ukey (ID a) < ukey (ID b)) r ->
  Forall (fun b => Name b <> Name a) (l ++ r) -> set_ok (l ++ a :: r) /\ forall b, b ∈ l ++ a :: r <-> b = a \/ (b ∈ l ++ r /\ ID b <> ID a).
Proof.
  intros (Hs & Ho & Hn) Ha Hl Hr Hf. split.
  - apply sorted_app in Hs as (Sl & Sr & Hlr). rewrite Forall_app in Ho. rewrite Forall_forall in Hl, Hr. split_and!.
    + apply sorted_app. rewrite StronglySorted_cons, Forall_forall. split_and!; [done|done|done|]. intros x y Hx [->|Hy]%elem_of_cons; [by apply Hl|by apply Hlr].
    + rewrite Forall_app, Forall_cons. tauto.
    + rewrite map_app in *. cbn [map]. rewrite <- Permutation_middle. constructor; [|done]. rewrite <- map_app, list_elem_of_fmap. intros (b & E & Hb). rewrite Forall_forall in Hf. by apply (Hf b Hb).
  - intros b. rewrite Forall_forall in Hl, Hr. rewrite !elem_of_app, elem_of_cons. split; [|tauto]. intros [Hb|[->|Hb]]; [right|by left|right].
    + split; [tauto|]. intros E. pose proof (Hl b Hb) as L. rewrite E in L. lia.
    + split; [tauto|]. intros E. pose proof (Hr b Hb) as L. rewrite E in L. lia.
Qed.

Lemma drop_one l x r : set_ok (l ++ x :: r) -> set_ok (l ++ r) /\ Forall (fun b => ukey (ID b) < ukey (ID x)) l /\ Forall (fun b => ukey (ID x) < ukey (ID b)) r /\
  forall b, b ∈ l ++ r <-> b ∈ l ++ x :: r /\ ID b <> ID x.
Proof.
  intros (Hs & Ho & Hn). apply sorted_app in Hs as (Sl & [Hx Sr]%StronglySorted_cons & Hlr). rewrite Forall_app, Forall_cons in Ho. rewrite Forall_forall in Hx.
  assert (Ll : forall b, b ∈ l -> ukey (ID b) < ukey (ID x)) by (intros b Hb; apply Hlr; [done|by left]).
  split_and!.
  - split_and!; [apply sorted_app; split_and!; [done|done|]; intros a b Ha Hb; apply Hlr; [done|by right]|rewrite Forall_app; tauto|].
    rewrite map_app in *. cbn [map] in Hn. rewrite <- Permutation_middle in Hn. by apply NoDup_cons in Hn as [_ Hn].
  - by apply Forall_forall.
  - by apply Forall_forall.
  - intros b. rewrite !elem_of_app, elem_of_cons. split; [|intros [[?|[->|?]] ?]; tauto]. intros [Hb|Hb]; (split; [tauto|]); intros E.
    + pose proof (Ll b Hb) as L. rewrite E in L. lia.
    + pose proof (Hx b Hb) as L. unfold att_lt in L. rewrite E in L. lia.
Qed.

Lemma get_spec s id : set_ok s -> uuid_wf id -> get s id = by_id s !! id.
Proof.
  intros Hs Hid. unfold get. destruct (find_cases s id) as [(l & a & r & -> & <- & E)|(l & r & -> & E & Hl & Hr)]; [apply Hs|apply Hs|done| |]; rewrite E; cbv beta iota.
  - rewrite list_lookup_middle by done. symmetry. apply set_elem; [done|]. split; [set_solver|done].
  - symmetry. apply by_id_None. rewrite Forall_forall in Hl, Hr. apply Forall_forall. intros a [Ha|Ha]%elem_of_app Ea; [pose proof (Hl a Ha) as L|pose proof (Hr a Ha) as L]; rewrite Ea in L; lia.
Qed.

Lemma set_without_spec s id : set_ok s -> uuid_wf id ->
  let '(s', b) := set_without s id in set_ok s' /\ by_id s' = delete id (by_id s) /\ b = bool_decide (is_Some (by_id s !! id)).
Proof.
  intros Hs Hid. pose proof (get_spec s id Hs Hid) as G. unfold get in G. unfold set_without.
  destruct (find_cases s id) as [(l & a & r & -> & <- & E)|(l & r & -> & E & Hl & Hr)]; [apply Hs|apply Hs|done| |]; rewrite E in *.
  - rewrite list_lookup_middle in G by done. rewrite take_app_length. replace (drop (S (length l)) (l ++ a :: r)) with r by (rewrite drop_app_ge, Nat.sub_succ_l, Nat.sub_diag; [done|lia|lia]).
    destruct (drop_one l a r Hs) as (Hlr & _ & _ & Hin). split_and!; [done| |by rewrite <- G, bool_decide_eq_true_2 by eauto].
    apply map_by_elem; [done|]. intros i b. rewrite lookup_delete_Some, set_elem, Hin by done. split; [intros [? (? & <-)]; split; [split; congruence|done]|intros [[? ?] <-]; done].
  - split_and!; [done|by rewrite delete_id|]. rewrite <- G. by rewrite bool_decide_eq_false_2 by by intros [].
Qed.

(** No other attachment of the set has the name. *)
Definition name_free (m : gmap UUID Attachment) (a : Attachment) : Prop := forall id o, m !! id = Some o -> Name o = Name a -> id = ID a.

Lemma set_with_ok s a : set_ok s -> att_ok a -> name_free (by_id s) a ->
  exists s', set_with s a = Ok s' /\ set_ok s' /\ by_id s' = <[ID a := a]> (by_id s).
Proof.
  intros Hs Ha Hf. assert (E : set_with s a = let '(i, found) := find s (ID a) in Ok (take i s ++ a :: drop (if found then S i else i) s)).
  { unfold set_with. pose proof (ByName_spec s (Name a)) as B. destruct (ByName s (Name a)) as [o|]; [|done]. destruct B as [Hin Hn].
    rewrite bool_decide_eq_true_2; [done|]. apply (Hf (ID o) o); [by apply set_elem|done]. }
  rewrite E. clear E. assert (Hnames : forall b, b ∈ s -> ID b <> ID a -> Name b <> Name a).
  { intros b Hb Hd Hn. apply Hd, (Hf (ID b) b); [by apply set_elem|done]. }
  destruct (find_cases s (ID a)) as [(l & x & r & -> & Hx & E)|(l & r & -> & E & Hl & Hr)]; [apply Hs|apply Hs|apply Ha| |]; rewrite E; rewrite take_app_length.
  - replace (drop (S (length l)) (l ++ x :: r)) with r by (rewrite drop_app_ge, Nat.sub_succ_l, Nat.sub_diag; [done|lia|lia]). exists (l ++ a :: r). split; [done|].
    destruct (drop_one l x r Hs) as (Hlr & Ll & Lr & Hin). rewrite Hx in *. destruct (splice_ok l r a Hlr Ha Ll Lr) as [Hok Hin'].
    { apply Forall_forall. intros b [Hb Hd]%Hin. by apply Hnames. }
    split; [done|]. apply map_by_elem; [done|]. intros i b. rewrite lookup_insert_Some, set_elem, Hin', Hin by done. split; naive_solver.
  - rewrite drop_app_length. exists (l ++ a :: r). split; [done|]. destruct (splice_ok l r a Hs Ha Hl Hr) as [Hok Hin'].
    { apply Forall_forall. intros b Hb. apply Hnames; [done|]. intros Eb. rewrite Forall_forall in Hl, Hr. apply elem_of_app in Hb as [Hb|Hb]; [pose proof (Hl b Hb) as L|pose proof (Hr b Hb) as L]; rewrite Eb in L; lia. }
    split; [done|]. apply map_by_elem; [done|]. intros i b. rewrite lookup_insert_Some, set_elem, Hin' by done. split; naive_solver.
Qed.

Lemma set_with_err s a : set_ok s -> ~ name_free (by_id s) a ->
  exists o, by_id s !! ID o = Some o /\ Name o = Name a /\ ID o <> ID a /\ set_with s a = Err (NameUsed (Name a) (ID o)).
Proof.
  intros Hs Hf. pose proof (ByName_spec s (Name a)) as B. unfold set_with. destruct (ByName s (Name a)) as [o|].
  - destruct B as [Hin Hn]. destruct (decide (ID o = ID a)) as [E|E].
    + destruct Hf. intros id p Hp Hnp. apply set_elem in Hp as [Hp <-]; [|done]. assert (p = o) as ->; [|done].
      destruct Hs as (_ & _ & Hnd). apply (NoDup_map_inj Name s); [done|done|done|congruence].
    + exists o. rewrite bool_decide_eq_false_2 by done. split_and!; [by apply set_elem|done|done|done].
  - destruct Hf. intros id p Hp Hnp. apply set_elem in Hp as [Hp <-]; [|done]. rewrite Forall_forall in B. by destruct (B p Hp).
Qed.

(** ** Varints *)

Lemma uvarint_append_app fuel buf x : uvarint_append fuel buf x = buf ++ uvarint_append fuel [] x.
Proof.
  revert buf x. induction fuel as [|f IH]; intros buf x; cbn [uvarint_append]; [by rewrite app_nil_r|].
  destruct (128 <=? x); [|done]. by rewrite (IH (buf ++ _)), (IH ([] ++ _)), app_assoc.
Qed.

Lemma AppendUvarint_app dst x : AppendUvarint dst x = dst ++ AppendUvarint [] x.
Proof. apply uvarint_append_app. Qed.

Lemma uvarint_loop_append fuel x rest i acc : i + Z.of_nat fuel = 10 -> 0 <= i -> (0 < fuel)%nat -> 0 <= x -> 0 <= acc < 2 ^ (7 * i) -> acc + x * 2 ^ (7 * i) < 2 ^ 64 ->
  uvarint_loop (uvarint_append fuel [] x ++ rest) i acc (7 * i) = (acc + x * 2 ^ (7 * i), i + zlen (uvarint_append fuel [] x)) /\ 1 <= zlen (uvarint_append fuel [] x).
Proof.
  revert x i acc. induction fuel as [|f IH]; intros x i acc Hi Hi0 Hf Hx Ha Hb; [lia|]. cbn [uvarint_append].
  assert (Hp : 0 < 2 ^ (7 * i)) by lia. assert (E7 : 2 ^ (7 * (i + 1)) = 128 * 2 ^ (7 * i)) by (replace (7 * (i + 1)) with (7 + 7 * i) by lia; by rewrite Z.pow_add_r by lia).
  case (Z.leb_spec 128 x); intros H.
  - rewrite uvarint_append_app, <- app_assoc, zlen_app. cbn [app uvarint_loop]. change (zlen [_]) with 1. case (Z.eqb_spec i 10); [lia|]. intros _.
    assert (i < 9). { destruct (decide (i = 9)) as [->|]; [|lia]. change (2 ^ (7 * 9)) with (2 ^ 63) in Hb. lia. }
    rewrite (CommitCorrect.z2b_or_128 x) by lia. rewrite CodecCorrect.chunk_cont by lia. pose proof (Z.mod_pos_bound x 128 ltac:(lia)). case (Z.ltb_spec (x mod 128 + 128) 128); [lia|]. intros _.
    assert (El : Z.land (x mod 128 + 128) 127 = x mod 128).
    { rewrite CodecCorrect.land_127 by lia. replace (x mod 128 + 128) with (x mod 128 + 1 * 128) by lia. rewrite Z.mod_add, Z.mod_mod by lia. done. }
    assert (Em : x = 128 * (x / 128) + x mod 128) by (apply Z.div_mod; lia). assert (Hq : 0 <= x / 128) by (apply Z.div_pos; lia). set (q := x / 128) in *. set (m := x mod 128) in *. clearbody q m. subst x. set (P := 2 ^ (7 * i)) in *.
    rewrite El. rewrite wrapu_id. 2:{ rewrite Z.shiftl_mul_pow2 by lia. fold P. unfold is_u. nia. }
    rewrite lor_shiftl_add by (fold P; lia). fold P. rewrite Z.shiftr_div_pow2 by lia. change (2 ^ 7) with 128. replace (7 * i + 7) with (7 * (i + 1)) by lia.
    replace ((128 * q + m) / 128) with q by (apply (Z.div_unique _ _ q m); lia).
    destruct (IH q (i + 1) (acc + m * P)) as [E L]; [lia|lia|lia|lia|rewrite E7; nia|rewrite E7; nia|].
    rewrite E. split; [|lia]. f_equal; [rewrite E7; lia|lia].
  - cbn [app uvarint_loop]. change (zlen [_]) with 1. case (Z.eqb_spec i 10); [lia|]. intros _. rewrite b2z_z2b, Z.mod_small by lia.
    case (Z.ltb_spec x 128); [|lia]. intros _. case (Z.eqb_spec i 9); cbn [andb].
    + intros ->. change (2 ^ (7 * 9)) with (2 ^ 63) in *. case (Z.ltb_spec 1 x); [lia|]. intros _. rewrite wrapu_id by (rewrite Z.shiftl_mul_pow2 by lia; change (2 ^ (7 * 9)) with (2 ^ 63); unfold is_u; lia).
      by rewrite lor_shiftl_add by (done || lia).
    + intros _. rewrite wrapu_id by (rewrite Z.shiftl_mul_pow2 by lia; unfold is_u; nia). by rewrite lor_shiftl_add by lia.
Qed.

Lemma Uvarint_Append x rest : is_u 64 x -> Uvarint (AppendUvarint [] x ++ rest) = (x, zlen (AppendUvarint [] x)) /\ 1 <= zlen (AppendUvarint [] x).
Proof.
  intros [H0 H1]. destruct (uvarint_loop_append 10 x rest 0 0) as [E L]; [lia|lia|lia|lia|lia|lia|]. split; [|done]. unfold Uvarint, AppendUvarint. change (7 * 0) with 0 in E. rewrite E. f_equal; lia.
Qed.

(** ** Encoding and parsing *)

Definition enc_str (x : bytes) : bytes := AppendUvarint [] (zlen x) ++ x.
Definition enc_fields (a : Attachment) : bytes :=
  enc_str (Name a) ++ (z2b (Scheme (Ref a)) :: HashBytes (ContentHash (Ref a)) ++ be_bytes 8 (Size (Ref a))) ++ enc_str (Mime (Ref a)).
Definition enc_uuid (u : UUID) : bytes := be_bytes 8 (MSB u) ++ be_bytes 8 (LSB u).
Definition enc_attachment (a : Attachment) : bytes := enc_uuid (ID a) ++ enc_fields a.

Lemma append_fields_app dst a : append_fields dst a = dst ++ enc_fields a.
Proof.
  unfold append_fields, enc_fields, enc_str. cbv zeta. rewrite AppendUvarint_app, (AppendUvarint_app dst), <- !app_assoc. cbn [app]. by rewrite <- !app_assoc.
Qed.

Lemma AppendAttachmentSet_app dst s : AppendAttachmentSet dst s = dst ++ x01 :: AppendUvarint [] (zlen s) ++ concat (map enc_attachment s).
Proof.
  unfold AppendAttachmentSet. rewrite AppendUvarint_app, <- app_assoc. cbn [app]. generalize (zlen s). intros n.
  assert (H : forall dst s, fold_left append_attachment s dst = dst ++ concat (map enc_attachment s)).
  { clear. intros dst s. revert dst. induction s as [|a s IH]; intros dst; cbn [fold_left map]; [by rewrite app_nil_r|]. rewrite IH, concat_cons, app_assoc. f_equal.
    unfold append_attachment, enc_attachment, enc_uuid. by rewrite append_fields_app, !app_assoc. }
  rewrite H, <- app_assoc. done.
Qed.

Lemma reader_advance_app p r o n : n = zlen p -> advance n (mkReader (p ++ r) o) = mkReader r (o + zlen p).
Proof. intros ->. unfold advance. cbn [rest off]. unfold zlen. by rewrite Nat2Z.id, drop_app_length. Qed.

Lemma uv_enc x r o : is_u 64 x -> uv (mkReader (AppendUvarint [] x ++ r) o) = Ok (x, mkReader r (o + zlen (AppendUvarint [] x))).
Proof.
  intros Hx. destruct (Uvarint_Append x r Hx) as [E L]. unfold uv. cbn [rest]. rewrite E. case (Z.leb_spec (zlen (AppendUvarint [] x)) 0); [lia|]. intros _. by rewrite reader_advance_app.
Qed.

Lemma read_str_enc x r o : zlen x < 2 ^ 64 -> read_str (mkReader (enc_str x ++ r) o) = Ok (x, mkReader r (o + zlen (enc_str x))).
Proof.
  intros Hx. unfold read_str, enc_str. rewrite <- app_assoc, uv_enc by (split; [apply zlen_nonneg|done]). cbn [mbind go_bind rest]. rewrite zlen_app. pose proof (zlen_nonneg r).
  case (Z.ltb_spec (zlen x + zlen r) (zlen x)); [lia|]. intros _. rewrite reader_advance_app by done. unfold zlen at 1. rewrite Nat2Z.id, take_app_length, zlen_app. by rewrite Z.add_assoc.
Qed.

Lemma read_int64_enc p v r o k : is_s 64 v -> zlen p = k -> read_int64 (mkReader (p ++ be_bytes 8 v ++ r) o) k = v.
Proof.
  intros Hv <-. unfold read_int64. cbn [rest]. rewrite <- (Z.add_0_r (zlen p)), sub_app_r, sub_prefix by (done || by rewrite be_bytes_length).
  rewrite be_val_bytes. change (2 ^ (8 * Z.of_nat 8)) with (2 ^ 64). fold (wrapu 64 v). rewrite wraps_wrapu, wraps_id by (done || lia). done.
Qed.

Lemma read_uuid_enc p u r o k : uuid_wf u -> zlen p = k -> read_uuid (mkReader (p ++ enc_uuid u ++ r) o) k = u.
Proof.
  intros [Hm Hl] Hk. unfold read_uuid, enc_uuid. rewrite <- app_assoc. rewrite read_int64_enc by done. rewrite app_assoc, read_int64_enc by (done || (rewrite zlen_app; unfold zlen at 2; rewrite be_bytes_length; lia)). by destruct u.
Qed.

Lemma enc_uuid_length u : zlen (enc_uuid u) = 16.
Proof. unfold enc_uuid, zlen. by rewrite length_app, !be_bytes_length. Qed.

Lemma read_fields_enc a r o : ref_ok (Ref a) -> slice_ok (Name a) ->
  read_fields (mkReader (enc_fields a ++ r) o) = Ok (Name a, Ref a, mkReader r (o + zlen (enc_fields a))).
Proof.
  intros (Hs & Hh & Hz & Hm) Hn. unfold slice_ok in Hm, Hn. unfold read_fields, enc_fields. rewrite <- app_assoc, read_str_enc by lia. cbn [mbind go_bind rest].
  set (hb := HashBytes (ContentHash (Ref a))) in *. assert (Lh : zlen hb = 32) by (unfold hb, zlen; by rewrite Hh).
  set (tl := enc_str (Mime (Ref a)) ++ r). rewrite <- (app_assoc (_ :: hb ++ _)). fold tl.
  assert (Lm : zlen (z2b (Scheme (Ref a)) :: hb ++ be_bytes 8 (Size (Ref a))) = 41) by (rewrite zlen_cons, zlen_app, Lh; unfold zlen; by rewrite be_bytes_length).
  rewrite zlen_app, Lm. pose proof (zlen_nonneg tl). case (Z.ltb_spec (41 + zlen tl) (1 + 32 + 8)); [lia|]. intros _.
  rewrite (reader_advance_app _ tl _ 41) by by rewrite Lm. cbn [app].
  assert (Ei : forall (b : byte) l, zindex (E:=attach_error) (b :: l) 0 = Ok b) by reflexivity. rewrite Ei. cbn [mbind go_bind].
  unfold tl. rewrite read_str_enc by lia. cbn [mbind go_bind]. rewrite b2z_z2b, Z.mod_small by lia.
  replace (read_int64 _ 33) with (Size (Ref a)).
  2:{ symmetry. rewrite <- app_assoc, app_comm_cons. apply read_int64_enc; [done|]. rewrite zlen_cons, Lh. done. }
  replace (sub _ 1 32) with hb.
  2:{ symmetry. rewrite <- app_assoc. etransitivity; [apply (sub_app_r' [z2b (Scheme (Ref a))] _ 1 0 32); [done|lia]|]. apply sub_prefix. unfold zlen in Lh. lia. }
  assert (Er : mkRef (Scheme (Ref a)) (mkHash hb) (Size (Ref a)) (Mime (Ref a)) = Ref a) by (unfold hb; by destruct (Ref a) as [? [?] ? ?]).
  assert (L8 : zlen (be_bytes 8 (Size (Ref a))) = 8) by (unfold zlen; by rewrite be_bytes_length).
  rewrite Er. repeat first [rewrite zlen_app | rewrite zlen_cons]. rewrite L8, Lh. do 2 f_equal. f_equal. lia.
Qed.

Lemma enc_attachment_length a : 16 <= zlen (enc_attachment a).
Proof. unfold enc_attachment. rewrite zlen_app, enc_uuid_length. pose proof (zlen_nonneg (enc_fields a)). lia. Qed.

Lemma enc_entries_length s : 16 * zlen s <= zlen (concat (map enc_attachment s)).
Proof. induction s as [|a s IH]; [done|]. cbn [map]. rewrite concat_cons, zlen_app, zlen_cons. pose proof (enc_attachment_length a). lia. Qed.

Lemma parse_entries_enc s fuel out names r o : (length s < fuel)%nat -> set_ok (out ++ s) -> (forall x, x ∈ names <-> x ∈ map Name out) ->
  parse_entries fuel (zlen s) out names (mkReader (concat (map enc_attachment s) ++ r) o) = Ok (out ++ s, mkReader r (o + zlen (concat (map enc_attachment s)))).
Proof.
  revert fuel out names o. induction s as [|a s IH]; intros fuel out names o Hf Hok Hn; destruct fuel as [|fuel]; [simpl in Hf; lia| |simpl in Hf; lia|].
  { cbn. by rewrite app_nil_r, Z.add_0_r. }
  assert (Ha : att_ok a). { destruct Hok as (_ & Ho & _). apply Forall_app in Ho as [_ Ho]. by apply Forall_cons in Ho as [? _]. }
  destruct Ha as (Hid & Hnm & Href). cbn [parse_entries map]. rewrite concat_cons, <- app_assoc, zlen_cons. pose proof (zlen_nonneg s). case (Z.eqb_spec (1 + zlen s) 0); [lia|]. intros _.
  set (more := concat (map enc_attachment s) ++ r) in *. assert (Ec : enc_attachment a ++ more = enc_uuid (ID a) ++ enc_fields a ++ more) by (unfold enc_attachment; by rewrite app_assoc).
  rewrite Ec. cbn [rest]. rewrite zlen_app, enc_uuid_length. set (tl := enc_fields a ++ more). pose proof (zlen_nonneg tl). case (Z.ltb_spec (16 + zlen tl) 16); [lia|]. intros _.
  pose proof (read_uuid_enc [] (ID a) tl o 0 Hid eq_refl) as Eu. cbn [app] in Eu. rewrite Eu, (reader_advance_app (enc_uuid (ID a)) tl) by by rewrite enc_uuid_length. unfold tl. rewrite read_fields_enc by done. cbn [mbind go_bind].
  assert (Hlast : match last out with Some b => negb (uuidLess (ID b) (ID a)) | None => false end = false).
  { destruct (last out) as [b|] eqn:El; [|done]. apply last_Some in El as [out' ->]. destruct Hok as (Hs & Ho & _). rewrite <- app_assoc in Hs, Ho. apply sorted_app in Hs as (_ & Hs & _).
    apply StronglySorted_cons in Hs as [Hs _]. apply Forall_app in Ho as [_ Ho]. apply Forall_cons in Ho as [[Hb _] _]. apply Forall_cons in Hs as [Hs _]. rewrite uuidLess_spec by done. apply negb_false_iff, Z.ltb_lt, Hs. }
  rewrite Hlast. rewrite bool_decide_eq_false_2.
  2:{ rewrite Hn. destruct Hok as (_ & _ & Hnd). rewrite map_app in Hnd. cbn [map] in Hnd. rewrite <- Permutation_middle in Hnd. apply NoDup_cons in Hnd as [Hnd _]. set_solver. }
  replace (1 + zlen s - 1) with (zlen s) by lia. unfold more. rewrite IH; [|simpl in Hf; lia|rewrite <- app_assoc; by destruct a|].
  - rewrite <- app_assoc. cbn [app]. rewrite !zlen_app. unfold enc_attachment at 2. rewrite zlen_app, !enc_uuid_length. destruct a. do 2 f_equal. f_equal. lia.
  - intros x. rewrite map_app. cbn [map]. rewrite elem_of_union, elem_of_singleton, elem_of_app, list_elem_of_singleton, Hn. tauto.
Qed.

Lemma Parse_Append s : set_ok s -> slice_ok s -> ParseAttachmentSet (AppendAttachmentSet [] s) = Ok s.
Proof.
  intros Hs Hl. rewrite AppendAttachmentSet_app. cbn [app]. unfold ParseAttachmentSet. rewrite bool_decide_eq_true_2 by done. cbn [negb].
  set (body := concat (map enc_attachment s)). rewrite uv_enc by (unfold slice_ok in Hl; split; [apply zlen_nonneg|lia]). cbn [mbind go_bind].
  set (n := AppendUvarint [] (zlen s)). assert (Lb : zlen (x01 :: n ++ body) = 1 + zlen n + zlen body) by (rewrite zlen_cons, zlen_app; lia). rewrite Lb.
  pose proof (enc_entries_length s) as Le. fold body in Le. pose proof (zlen_nonneg n). pose proof (zlen_nonneg s). case (Z.ltb_spec (1 + zlen n + zlen body) (zlen s)); [lia|]. intros _.
  rewrite <- (app_nil_r body) at 2. unfold body at 2. rewrite (parse_entries_enc s _ [] ∅ []); [|unfold zlen in *; lia|done|set_solver]. cbn [mbind go_bind off app].
  fold body. case (Z.eqb_spec (1 + zlen n + zlen body) (1 + zlen n + zlen body)); [done|lia].
Qed.

(** ** What is parsed is a set *)

Lemma advance_le n c : zlen (rest (advance n c)) <= zlen (rest c).
Proof. unfold advance, zlen. cbn [rest]. rewrite length_drop. lia. Qed.

Lemma uv_le c v c' : uv c = Ok (v, c') -> zlen (rest c') <= zlen (rest c).
Proof. unfold uv. destruct (Uvarint (rest c)) as [w n]. destruct (n <=? 0); [done|]. intros [= <- <-]. apply advance_le. Qed.

Lemma read_str_le c x c' : read_str c = Ok (x, c') -> zlen x <= zlen (rest c) /\ zlen (rest c') <= zlen (rest c).
Proof.
  unfold read_str. intros ([v c1] & E & H)%go_bind_ok. apply uv_le in E. destruct (_ <? v); [done|]. injection H as <- <-.
  pose proof (advance_le v c1). split; [|lia]. unfold zlen in *. rewrite length_take. lia.
Qed.

Lemma read_fields_ok c name ref c' : slice_ok (rest c) -> read_fields c = Ok (name, ref, c') -> slice_ok name /\ ref_ok ref /\ zlen (rest c') <= zlen (rest c).
Proof.
  unfold slice_ok. intros Hc H. unfold read_fields in H. apply go_bind_ok in H as ([nm c1] & E1 & H). apply read_str_le in E1 as [L1 L1'].
  destruct (Z.ltb_spec (zlen (rest c1)) (1 + 32 + 8)); [done|]. apply go_bind_ok in H as (sc & _ & H). apply go_bind_ok in H as ([mi c2] & E2 & H).
  apply read_str_le in E2 as [L2 L2']. pose proof (advance_le 41 c1). injection H as <- <- <-. split_and!; [lia| |lia]. split_and!; cbn [Scheme ContentHash Size Mime].
  - pose proof (b2z_range sc). lia.
  - pose proof (b2z_range sc). lia.
  - unfold hash_wf. cbn [HashBytes]. apply sub_length; lia.
  - apply wraps_range. lia.
  - unfold slice_ok. lia.
Qed.

Lemma read_uuid_wf c k : uuid_wf (read_uuid c k).
Proof. split; apply wraps_range; lia. Qed.

Lemma snoc_ok out a : set_ok out -> att_ok a -> match last out with Some b => ukey (ID b) < ukey (ID a) | None => True end -> Name a ∉ map Name out -> set_ok (out ++ [a]).
Proof.
  intros (Hs & Ho & Hn) Ha Hl Hm. split_and!.
  - apply sorted_app. split_and!; [done|repeat constructor|]. intros x y Hx ->%list_elem_of_singleton. destruct (last out) as [b|] eqn:El; [|by apply last_None in El; subst; apply not_elem_of_nil in Hx].
    apply last_Some in El as [out' ->]. apply sorted_app in Hs as (_ & _ & Hlt). apply elem_of_app in Hx as [Hx|Hx]; [|by apply list_elem_of_singleton in Hx; subst].
    pose proof (Hlt x b Hx ltac:(by left)). unfold att_lt in *. lia.
  - by rewrite Forall_app, Forall_singleton.
  - rewrite map_app. cbn [map]. apply NoDup_app. split_and!; [done|set_solver|apply NoDup_singleton].
Qed.

Lemma parse_entries_ok fuel n out names c s c' : slice_ok (rest c) -> set_ok out -> (forall x, x ∈ names <-> x ∈ map Name out) ->
  parse_entries fuel n out names c = Ok (s, c') -> set_ok s.
Proof.
  revert n out names c. induction fuel as [|fuel IH]; intros n out names c Hc Hok Hn H; [done|]. cbn [parse_entries] in H.
  destruct (n =? 0); [by injection H as <- <-|]. destruct (_ <? 16); [done|]. apply go_bind_ok in H as ([[name ref] c1] & E & H).
  pose proof (advance_le 16 c). apply read_fields_ok in E as (Hnm & Href & Hle); [|unfold slice_ok in *; lia].
  destruct (match last out with Some b => _ | None => false end) eqn:Elast; [done|]. case_bool_decide as Hd; [done|].
  assert (Ha : att_ok (mkAttachment (read_uuid c 0) name ref)) by (split_and!; [apply read_uuid_wf|done|done]).
  apply IH in H; [done|unfold slice_ok in *; lia| |].
  - apply snoc_ok; [done|done| |by rewrite <- Hn]. destruct (last out) as [b|] eqn:El; [|done]. apply negb_false_iff in Elast.
    apply last_Some in El as [out' ->]. destruct Hok as (_ & Ho & _). apply Forall_app in Ho as [_ Ho]. apply Forall_cons in Ho as [[Hb _] _].
    rewrite uuidLess_spec in Elast by (done || apply read_uuid_wf). by apply Z.ltb_lt in Elast.
  - intros x. rewrite map_app. cbn [map Name]. rewrite elem_of_union, elem_of_singleton, elem_of_app, list_elem_of_singleton, Hn. tauto.
Qed.

Lemma parse_entries_len fuel n out names c s c' : parse_entries fuel n out names c = Ok (s, c') -> zlen s = zlen out + n.
Proof.
  revert n out names c. induction fuel as [|fuel IH]; intros n out names c H; [done|]. cbn [parse_entries] in H.
  destruct (Z.eqb_spec n 0); [injection H as <- <-; lia|]. destruct (_ <? 16); [done|]. apply go_bind_ok in H as ([[name ref] c1] & _ & H).
  destruct (match last out with Some b => _ | None => false end); [done|]. case_bool_decide; [done|]. apply IH in H. rewrite zlen_app in H. change (zlen [_]) with 1 in H. lia.
Qed.

Lemma set_ok_nil : set_ok [].
Proof. split_and!; constructor. Qed.

Lemma Parse_ok b s : slice_ok b -> ParseAttachmentSet b = Ok s -> set_ok s /\ slice_ok s.
Proof.
  intros Hb H. unfold ParseAttachmentSet in H. destruct b as [|v b]; [done|]. unfold slice_ok in Hb. rewrite zlen_cons in Hb. case_bool_decide; cbn [negb] in H; [|done].
  apply go_bind_ok in H as ([n c] & E & H). apply uv_le in E. cbn [rest] in E. rewrite zlen_cons in H. destruct (Z.ltb_spec (1 + zlen b) n); [done|]. apply go_bind_ok in H as ([out c'] & Ep & H).
  destruct (negb _); [done|]. injection H as <-. split; [|apply parse_entries_len in Ep; unfold slice_ok; change (zlen []) with 0 in Ep; lia]. eapply parse_entries_ok; [|apply set_ok_nil| |exact Ep]; [unfold slice_ok; lia|set_solver].
Qed.

(** ** The hash of a set *)

Definition set_msgs (s : AttachmentSet) : list bytes := set_msg s :: map (fun a => ref_msg (Ref a)) s.

Lemma be_bytes_inj n v w : 0 <= v < 2 ^ (8 * Z.of_nat n) -> 0 <= w < 2 ^ (8 * Z.of_nat n) -> be_bytes n v = be_bytes n w -> v = w.
Proof. intros Hv Hw E. apply (f_equal be_val) in E. rewrite !be_val_bytes, !Z.mod_small in E by done. done. Qed.

Lemma be_bytes_inj_s v w : is_s 64 v -> is_s 64 w -> be_bytes 8 v = be_bytes 8 w -> v = w.
Proof. intros Hv Hw E. apply (f_equal be_val) in E. rewrite !be_val_bytes in E. by apply wrapu_inj. Qed.

Lemma app_inj_len (a b x y : bytes) : length a = length b -> a ++ x = b ++ y -> a = b /\ x = y.
Proof. intros H E. by apply app_inj_1 in E. Qed.

Definition short_name (a : Attachment) : Prop := zlen (Name a) < 2 ^ 32.

Lemma entry_msg_inj a b x y : att_ok a -> att_ok b -> short_name a -> short_name b -> entry_msg a ++ x = entry_msg b ++ y -> ID a = ID b /\ Name a = Name b /\ ref_Hash (Ref a) = ref_Hash (Ref b) /\ x = y.
Proof.
  unfold short_name. intros ([Ma La] & _ & _) ([Mb Lb] & _ & _) Na Nb E. unfold entry_msg in E. rewrite <- !app_assoc in E. pose proof (zlen_nonneg (Name a)). pose proof (zlen_nonneg (Name b)).
  apply app_inj_len in E as [E1 E]; [|by rewrite !be_bytes_length]. apply app_inj_len in E as [E2 E]; [|by rewrite !be_bytes_length]. apply app_inj_len in E as [E3 E]; [|by rewrite !be_bytes_length].
  apply be_bytes_inj_s in E1, E2; [|done..]. apply be_bytes_inj in E3; [|simpl; lia|simpl; lia]. apply app_inj_len in E as [E4 E]; [|unfold zlen in E3; lia].
  apply app_inj_len in E as [E5 E]; [|unfold ref_Hash; cbn [HashBytes]; by rewrite !Sha256.Sum256_length]. split_and!; [destruct (ID a), (ID b); cbn in *; congruence|done| |done].
  destruct (ref_Hash (Ref a)), (ref_Hash (Ref b)). cbn in *. congruence.
Qed.

Lemma ref_msg_inj r r' : ref_ok r -> ref_ok r' -> ref_msg r = ref_msg r' -> r = r'.
Proof.
  intros (Hs & Hh & Hz & Hm) (Hs' & Hh' & Hz' & Hm') E. unfold ref_msg in E.
  apply (app_inj_len [x41; z2b (Scheme r)] [x41; z2b (Scheme r')]) in E as [Es E]; [|done]. injection Es as Es.
  apply (f_equal b2z) in Es. rewrite !b2z_z2b, !Z.mod_small in Es by lia. apply app_inj_len in E as [E1 E]; [|unfold hash_wf in *; congruence].
  apply app_inj_len in E as [E2 E]; [|by rewrite !be_bytes_length]. apply app_inj_len in E as [_ E]; [|by rewrite !be_bytes_length]. apply be_bytes_inj_s in E2; [|done..].
  destruct r as [? [?] ? ?], r' as [? [?] ? ?]. cbn in *. congruence.
Qed.

Lemma set_Hash_inj s s' : Forall att_ok s -> Forall att_ok s' -> Forall short_name s -> Forall short_name s' -> set_Hash s = set_Hash s' -> s = s' \/ collide (set_msgs s) (set_msgs s').
Proof.
  intros Hs Hs' Ns Ns' E. destruct (collide_or (set_msgs s) (set_msgs s') _ _ ltac:(by left) ltac:(by left) E) as [Em|]; [|by right]. assert (Ec : concat (map entry_msg s) = concat (map entry_msg s')) by (unfold set_msg in Em; congruence). clear E Em.
  assert (H : s = s' \/ collide (map (fun a => ref_msg (Ref a)) s) (map (fun a => ref_msg (Ref a)) s')).
  2:{ destruct H as [->|H]; [by left|right]. eapply collide_mono; [| |exact H]; intros y Hy; by right. }
  revert s' Hs' Ns' Ec. induction Hs as [|a s Ha Hs IH]; intros s' Hs' Ns' Ec.
  - destruct Hs' as [|b s' Hb Hs']; [by left|]. exfalso. apply (f_equal length) in Ec. cbn [map] in Ec. rewrite concat_cons in Ec. unfold entry_msg in Ec. rewrite !length_app, !be_bytes_length in Ec. cbn in Ec. lia.
  - destruct Hs' as [|b s' Hb Hs']; [exfalso; apply (f_equal length) in Ec; cbn [map] in Ec; rewrite concat_cons in Ec; unfold entry_msg in Ec; rewrite !length_app, !be_bytes_length in Ec; cbn in Ec; lia|].
    apply Forall_cons in Ns as [Na Ns], Ns' as [Nb Ns']. cbn [map] in *. rewrite !concat_cons in Ec. apply entry_msg_inj in Ec as (Ei & En & Er & Ec); [|done..].
    destruct (collide_or (ref_msg (Ref a) :: map (fun a => ref_msg (Ref a)) s) (ref_msg (Ref b) :: map (fun a => ref_msg (Ref a)) s') _ _ ltac:(by left) ltac:(by left) Er) as [Em|]; [|by right].
    apply ref_msg_inj in Em; [|apply Ha|apply Hb]. destruct (IH Ns s' Hs' Ns' Ec) as [->|Hc]; [left; destruct a, b; cbn in *; congruence|right].
    eapply collide_mono; [| |exact Hc]; intros y Hy; by right.
Qed.
End AttachmentSet.
