(* ===== verification/AttachmentPool.v ===== *)
(** The pool of attachment sets: [document/attachment_set_pool.go].

    A pool keeps sets by hash.  Over a store it is a cache: it evicts the least recently
    used sets into the store and reads them back.  Whatever the store does, the pool never
    gives a set with another hash than the one asked for; over a store that gives back what
    was written to it, the pool loses no set, and it is within its budget unless the store
    refused a write.  Reads of several callers interleave at the two critical sections of
    [get]. *)

From S2P Require Import Prelude Primitives Schema KdbCodec CodecCorrect Document Sha256 Commit CommitDirect CommitCorrect Utf8 AttachmentHash AttachmentSet.
Import Primitives AttachmentHash AttachmentSet.

(** [AttachmentSetStore]: errors are their text. *)
Class AttachmentSetStore (W : Type) := {
  WriteAttachmentSet : Hash -> bytes -> W -> option bytes * W;
  ReadAttachmentSet : Hash -> W -> go bytes (option bytes) * W;
}.

(** A store that gives back what was written: a write that fails may only damage what is
    stored under its own hash, and a read changes nothing. *)
Class AttachmentSetStoreLaws (W : Type) `{AttachmentSetStore W} := {
  contents : W -> gmap Hash bytes;
  write_ok : forall h b w w', WriteAttachmentSet h b w = (None, w') -> contents w' = <[h := b]> (contents w);
  write_err : forall h b w w' e, WriteAttachmentSet h b w = (Some e, w') -> delete h (contents w') = delete h (contents w);
  read_same : forall h w, contents (ReadAttachmentSet h w).2 = contents w;
  read_ok : forall h w o, (ReadAttachmentSet h w).1 = Ok o -> o = contents w !! h;
  contents_ok : forall w h b, contents w !! h = Some b -> slice_ok b;
  read_no_panic : forall h w, (ReadAttachmentSet h w).1 <> Panic;
}.

Module AttachmentPool.

Record poolEntry := mkEntry { hash : Hash; set : AttachmentSet; size : Z; stored : bool }.

(** [entries] indexes [lru], a list with the most recently used first. *)
Record AttachmentSetPool (W : Type) := mkPool {
  store : option W;
  budget : Z;
  lru : list poolEntry;
  bytes_ : Z;
  track : bool;
  written : gset Hash;
  prevWritten : gset Hash;
  loads : Z; spills : Z; evictions : Z;
}.
Arguments mkPool {_} _ _ _ _ _ _ _ _ _ _.
Arguments store {_} _.
Arguments budget {_} _.
Arguments lru {_} _.
Arguments bytes_ {_} _.
Arguments track {_} _.
Arguments written {_} _.
Arguments prevWritten {_} _.
Arguments loads {_} _.
Arguments spills {_} _.
Arguments evictions {_} _.

Definition DefaultAttachmentSetBudget : Z := Z.shiftl 8 20.

Section pool.
Context {W : Type} `{AttachmentSetStore W}.

Abbreviation pool := (AttachmentSetPool W).

Definition NewAttachmentSetPool (st : option W) (budgetBytes : Z) : pool :=
  mkPool st (if budgetBytes <=? 0 then DefaultAttachmentSetBudget else budgetBytes) [] 0 false ∅ ∅ 0 0 0.

Definition TrackWritten (on : bool) (p : pool) : pool :=
  mkPool (store p) (budget p) (lru p) (bytes_ p) on (if on then written p else ∅) (if on then prevWritten p else ∅) (loads p) (spills p) (evictions p).

Definition TakeWritten (p : pool) : gset Hash * pool :=
  (prevWritten p ∪ written p, mkPool (store p) (budget p) (lru p) (bytes_ p) (track p) ∅ (written p) (loads p) (spills p) (evictions p)).

(** The map entry of a hash, and what is left of the list without it. *)
Definition entry (h : Hash) (l : list poolEntry) : option poolEntry := List.find (fun e => bool_decide (hash e = h)) l.
Definition others (h : Hash) (l : list poolEntry) : list poolEntry := List.filter (fun e => negb (bool_decide (hash e = h))) l.
Definition Contains (h : Hash) (p : pool) : bool := match entry h (lru p) with Some _ => true | None => false end.

Definition setSize (s : AttachmentSet) : Z := fold_left (fun n a => n + 96 + (zlen (Name a) + zlen (Mime (Ref a)))) s 160.

Definition set_lru (l : list poolEntry) (p : pool) : pool :=
  mkPool (store p) (budget p) l (bytes_ p) (track p) (written p) (prevWritten p) (loads p) (spills p) (evictions p).

Definition insertLocked (h : Hash) (s : AttachmentSet) (st : bool) (p : pool) : pool :=
  mkPool (store p) (budget p) (mkEntry h s (setSize s) st :: lru p) (bytes_ p + setSize s) (track p) (written p) (prevWritten p) (loads p) (spills p) (evictions p).

(** Dropping the last entry of the list, once the store has it. *)
Definition drop_entry (e : poolEntry) (p : pool) : pool :=
  mkPool (store p) (budget p) (others (hash e) (lru p)) (bytes_ p - size e) (track p) (written p) (prevWritten p) (loads p) (spills p) (evictions p + 1).

Definition spill (e : poolEntry) (w : W) (p : pool) : option bytes * pool :=
  let '(err, w) := WriteAttachmentSet (hash e) (AppendAttachmentSet [] (set e)) w in
  match err with
  | Some cause => (Some cause, mkPool (Some w) (budget p) (lru p) (bytes_ p) (track p) (written p) (prevWritten p) (loads p) (spills p) (evictions p))
  | None => (None, mkPool (Some w) (budget p) (lru p) (bytes_ p) (track p) (if track p then {[hash e]} ∪ written p else written p) (prevWritten p) (loads p) (spills p + 1) (evictions p))
  end.

Fixpoint evict (fuel : nat) (p : pool) : ares unit * pool :=
  match fuel with
  | O => (Ok tt, p)
  | S fuel =>
    match store p with
    | None => (Ok tt, p)
    | Some w =>
      if (budget p <? bytes_ p) && (1 <? zlen (lru p)) then
        match last (lru p) with
        | None => (Ok tt, p)
        | Some e =>
          if stored e then evict fuel (drop_entry e p)
          else match spill e w p with
               | (Some cause, p) => (Err (SpillingStore (hash e) cause), p)
               | (None, p) => evict fuel (drop_entry e p)
               end
        end
      else (Ok tt, p)
    end
  end.
(** A turn drops an entry, so there are at most as many as entries. *)
Definition evictLocked (p : pool) : ares unit * pool := evict (length (lru p)) p.

Definition put (s : AttachmentSet) (p : pool) : ares Hash * pool :=
  let h := set_Hash s in
  match entry h (lru p) with
  | Some e =>
    let e := if track p then mkEntry (hash e) (set e) (size e) false else e in
    (Ok h, set_lru (e :: others h (lru p)) p)
  | None =>
    match evictLocked (insertLocked h s false p) with
    | (Ok _, p) => (Ok h, p)
    | (Err err, p) => (Err err, p)
    | (Panic, p) => (Panic, p)
    end
  end.

Definition set_store (w : W) (p : pool) : pool :=
  mkPool (Some w) (budget p) (lru p) (bytes_ p) (track p) (written p) (prevWritten p) (loads p) (spills p) (evictions p).
Definition count_load (p : pool) : pool :=
  mkPool (store p) (budget p) (lru p) (bytes_ p) (track p) (written p) (prevWritten p) (loads p + 1) (spills p) (evictions p).

(** [get] holds the lock twice and reads the store between: it looks for the entry, ... *)
Definition cached (h : Hash) (p : pool) : option (AttachmentSet * pool) :=
  match entry h (lru p) with
  | Some e => Some (set e, set_lru (e :: others h (lru p)) p)
  | None => None
  end.

(** ... reads and verifies the stored bytes, ... *)
Definition load (h : Hash) (w : W) : ares AttachmentSet * W :=
  let '(r, w) := ReadAttachmentSet h w in
  (match r with
   | Err cause => Err (ReadingStore h cause)
   | Panic => Panic
   | Ok None => Err (ErrAttachmentSetMissing h)
   | Ok (Some b) =>
     match ParseAttachmentSet b with
     | Err _ => Err (ErrAttachmentSetCorrupt h)
     | Panic => Panic
     | Ok s => if negb (bool_decide (set_Hash s = h)) then Err (ErrAttachmentSetCorrupt h) else Ok s
     end
   end, w).

(** ... and enters the set, unless it was loaded concurrently.  The error of the eviction is
    the first component; [get] drops it. *)
Definition install (h : Hash) (s : AttachmentSet) (p : pool) : ares unit * pool :=
  let p := count_load p in
  match entry h (lru p) with
  | Some e => (Ok tt, set_lru (e :: others h (lru p)) p)
  | None => evictLocked (insertLocked h s true p)
  end.

Definition get (h : Hash) (p : pool) : ares AttachmentSet * pool :=
  match cached h p with
  | Some (s, p) => (Ok s, p)
  | None =>
    match store p with
    | None => (Err (ErrAttachmentSetMissing h), p)
    | Some w =>
      let '(r, w) := load h w in
      let p := set_store w p in
      match r with
      | Ok s => (Ok s, (install h s p).2)
      | Err e => (Err e, p)
      | Panic => (Panic, p)
      end
    end
  end.


(** ** The entries *)

Definition total_size (l : list poolEntry) : Z := foldr (fun e n => size e + n) 0 l.
Definition entry_ok (e : poolEntry) : Prop := hash e = set_Hash (set e) /\ size e = setSize (set e).
Definition entries_ok (l : list poolEntry) : Prop := NoDup (map hash l) /\ Forall entry_ok l.
Definition pool_ok (p : pool) : Prop := entries_ok (lru p) /\ bytes_ p = total_size (lru p).

Lemma entry_Some h l e : NoDup (map hash l) -> entry h l = Some e <-> e ∈ l /\ hash e = h.
Proof.
  intros Hn. unfold entry. split.
  - intros E. apply List.find_some in E as [Hin E]. apply bool_decide_eq_true in E. by rewrite list_elem_of_In.
  - intros [Hin <-]. destruct (List.find _ l) as [e'|] eqn:E.
    + apply List.find_some in E as [Hin' E]. apply bool_decide_eq_true in E. f_equal. apply list_elem_of_In in Hin'. by apply (NoDup_map_inj hash l).
    + apply list_elem_of_In in Hin. pose proof (List.find_none _ _ E e Hin) as F. by apply bool_decide_eq_false in F.
Qed.

Lemma entry_None h l : entry h l = None <-> h ∉ map hash l.
Proof.
  unfold entry. split.
  - intros E (e & -> & Hin)%list_elem_of_fmap. apply list_elem_of_In in Hin. pose proof (List.find_none _ _ E e Hin) as F. by apply bool_decide_eq_false in F.
  - intros Hn. destruct (List.find _ l) as [e|] eqn:E; [|done]. apply List.find_some in E as [Hin E]. apply bool_decide_eq_true in E as <-. destruct Hn. apply (list_elem_of_fmap_2 hash). by apply list_elem_of_In.
Qed.

Lemma others_perm h l e : NoDup (map hash l) -> entry h l = Some e -> e :: others h l ≡ₚ l.
Proof.
  intros Hn He. apply entry_Some in He as [Hin <-]; [|done]. unfold others. induction l as [|x l IH]; [by apply not_elem_of_nil in Hin|].
  cbn [map] in Hn. apply NoDup_cons in Hn as [Hx Hn]. cbn [List.filter]. apply elem_of_cons in Hin as [->|Hin].
  - rewrite bool_decide_eq_true_2 by done. cbn [negb]. f_equiv. clear IH Hn. induction l as [|y l IH]; [done|]. cbn [List.filter map] in *. apply not_elem_of_cons in Hx as [Hy Hx].
    rewrite bool_decide_eq_false_2 by congruence. cbn [negb]. f_equiv. auto.
  - rewrite bool_decide_eq_false_2; [cbn [negb]|intros E; apply Hx; rewrite E; by apply (list_elem_of_fmap_2 hash)]. rewrite Permutation_swap. f_equiv. auto.
Qed.

#[export] Instance entries_ok_perm : Proper ((≡ₚ) ==> iff) entries_ok.
Proof. intros l l' E. unfold entries_ok. by rewrite E. Qed.
#[export] Instance total_size_perm : Proper ((≡ₚ) ==> eq) total_size.
Proof. intros l l' E. unfold total_size. induction E; cbn; lia. Qed.

Lemma others_lookup h l k : entry k (others h l) = if bool_decide (k = h) then None else entry k l.
Proof.
  unfold entry, others. induction l as [|e l IH]; cbn [List.filter List.find]; [by case_bool_decide|].
  destruct (decide (hash e = h)) as [E|E]; [rewrite (bool_decide_eq_true_2 (hash e = h)) by done|rewrite (bool_decide_eq_false_2 (hash e = h)) by done]; cbn [negb List.find]; rewrite IH.
  - case_bool_decide as K; [done|]. by rewrite bool_decide_eq_false_2 by congruence.
  - destruct (decide (hash e = k)) as [E'|E']; [rewrite !(bool_decide_eq_true_2 (hash e = k)) by done|by rewrite !(bool_decide_eq_false_2 (hash e = k)) by done].
    by rewrite bool_decide_eq_false_2 by congruence.
Qed.

Lemma front_lookup h l e k : NoDup (map hash l) -> entry h l = Some e -> entry k (e :: others h l) = entry k l.
Proof.
  intros Hn He. pose proof (proj1 (entry_Some h l e Hn) He) as [_ Eh]. unfold entry at 1. cbn [List.find]. fold (entry k (others h l)). rewrite others_lookup, Eh. case_bool_decide as E; [by subst|].
  by rewrite bool_decide_eq_false_2.
Qed.

Lemma insert_lookup e l k : entry k (e :: l) = if bool_decide (hash e = k) then Some e else entry k l.
Proof. done. Qed.

Lemma pool_ok_front p h e e' : pool_ok p -> entry h (lru p) = Some e -> hash e' = hash e -> set e' = set e -> size e' = size e -> pool_ok (set_lru (e' :: others h (lru p)) p).
Proof.
  intros [Hl Hb] He E1 E2 E3. pose proof (others_perm h (lru p) e (proj1 Hl) He) as P. rewrite <- P in Hl, Hb. split; [|cbn in *; lia].
  destruct Hl as [Hn Hf]. cbn [lru set_lru]. split; [cbn in *; by rewrite E1|]. apply Forall_cons in Hf as [[Hh Hs] Hf]. constructor; [|done]. split; [rewrite E1, E2; done|rewrite E3, E2; done].
Qed.

Lemma pool_ok_insert p h s st : pool_ok p -> entry h (lru p) = None -> set_Hash s = h -> pool_ok (insertLocked h s st p).
Proof.
  intros [[Hn Hf] Hb] He <-. apply entry_None in He. unfold pool_ok, entries_ok, total_size in *. cbn [lru bytes_ insertLocked map hash foldr size] in *. split_and!; [by constructor|by constructor; [split|]|lia].
Qed.

Lemma pool_ok_drop p e : pool_ok p -> e ∈ lru p -> pool_ok (drop_entry e p).
Proof.
  intros [Hl Hb] He. assert (Ee : entry (hash e) (lru p) = Some e) by by apply entry_Some; [apply Hl|].
  pose proof (others_perm (hash e) (lru p) e (proj1 Hl) Ee) as P. rewrite <- P in Hl, Hb. destruct Hl as [Hn Hf]. cbn in *.
  apply NoDup_cons in Hn as [_ Hn]. apply Forall_cons in Hf as [_ Hf]. split; [done|]. cbn. lia.
Qed.


Definition spilled (r : ares unit) : Prop := match r with Ok _ => True | Err e => exists h cause, e = SpillingStore h cause | Panic => False end.

Lemma evict_ok fuel p : pool_ok p -> let '(r, p') := evict fuel p in
  pool_ok p' /\ spilled r /\ budget p' = budget p /\ (store p' = None <-> store p = None) /\ take 1 (lru p') = take 1 (lru p) /\
  ((length (lru p) <= fuel)%nat -> store p <> None -> r = Ok tt -> bytes_ p' <= budget p' \/ zlen (lru p') <= 1).
Proof.
  revert p. induction fuel as [|f IH]; intros p Hp; cbn [evict].
  { split_and!; [done|done|done|done|done|]. intros Hl _ _. right. unfold zlen. lia. }
  destruct (store p) as [w|] eqn:Ew; [rewrite <- Ew|split_and!; done].
  destruct (Z.ltb_spec (budget p) (bytes_ p)) as [Hb|Hb]; cbn [andb]; [|split_and!; [done..|]; intros _ _ _; by left].
  destruct (Z.ltb_spec 1 (zlen (lru p))) as [Hl|Hl]; [|split_and!; [done..|]; intros _ _ _; by right].
  destruct (last (lru p)) as [e|] eqn:El; [|apply last_None in El; rewrite El in Hl; done].
  assert (He : e ∈ lru p) by (apply last_Some in El as [l ->]; set_solver).
  assert (Step : forall q, pool_ok q -> lru q = lru p -> budget q = budget p -> (store q = None <-> store p = None) ->
    let '(r, p') := evict f (drop_entry e q) in
    pool_ok p' /\ spilled r /\ budget p' = budget p /\ (store p' = None <-> store p = None) /\ take 1 (lru p') = take 1 (lru p) /\
    ((length (lru p) <= S f)%nat -> store p <> None -> r = Ok tt -> bytes_ p' <= budget p' \/ zlen (lru p') <= 1)).
  { intros q Hq Elq Ebq Esq. pose proof (IH (drop_entry e q) ltac:(apply pool_ok_drop; [done|by rewrite Elq])) as IH'. destruct (evict f (drop_entry e q)) as [r p'].
    destruct IH' as (Ok' & Sp & Bu & St & Tk & Bd). cbn [budget store lru drop_entry] in *. rewrite Elq in *.
    assert (Hlen : length (others (hash e) (lru p)) = pred (length (lru p))).
    { rewrite <- (others_perm (hash e) (lru p) e (proj1 (proj1 Hp)) ltac:(by apply entry_Some; [apply Hp|])) at 2. done. }
    split_and!; [done|done|by rewrite Bu|by rewrite St|rewrite Tk|intros; apply Bd; [lia|by rewrite Esq|done]].
    destruct Hp as [[Hn _] _]. destruct (lru p) as [|x l] eqn:Elru; [by apply not_elem_of_nil in He|]. cbn [others List.filter]. rewrite bool_decide_eq_false_2; [done|].
    intros E. apply (NoDup_map_inj hash (x :: l)) in E; [|done|by left|done]. subst e. apply last_Some in El as [l' El']. cbn [map] in Hn. apply NoDup_cons in Hn as [Hx _].
    destruct l' as [|y l']; [injection El' as ->; unfold zlen in Hl; simpl in Hl; lia|]. injection El' as -> ->. apply Hx. rewrite map_app. set_solver. }
  destruct (stored e); [apply Step; done|]. unfold spill. destruct (WriteAttachmentSet _ _ w) as [[cause|] w'].
  - split_and!; [done|by do 2 eexists|done|by rewrite Ew|done|done].
  - apply Step; [done|done|done|by rewrite Ew].
Qed.

(** An unbacked pool keeps everything in memory.  A backed one is within its budget or down
    to the most recent set, which it always keeps. *)
Definition bounded (p : pool) : Prop := store p <> None -> bytes_ p <= budget p \/ zlen (lru p) <= 1.

Lemma bounded_front p h e e' : pool_ok p -> entry h (lru p) = Some e -> bounded p -> bounded (set_lru (e' :: others h (lru p)) p).
Proof.
  unfold bounded. cbn [store bytes_ budget lru set_lru]. intros Hp E B St. destruct (B St) as [|B']; [by left|right].
  unfold zlen in *. rewrite <- (others_perm _ _ _ (proj1 (proj1 Hp)) E) in B'. done.
Qed.

(** What follows an insertion: the pool is well formed, still has the new entry, and is bounded
    again when every spill succeeded. *)
Lemma inserted_ok h s st p : pool_ok p -> entry h (lru p) = None -> set_Hash s = h -> let '(r, p') := evictLocked (insertLocked h s st p) in
  pool_ok p' /\ spilled r /\ entry h (lru p') <> None /\ (r = Ok tt -> bounded p').
Proof.
  intros Hp E Eh. pose proof (evict_ok (length (lru (insertLocked h s st p))) _ (pool_ok_insert p h s st Hp E Eh)) as Ev. unfold evictLocked.
  destruct (evict _ _) as [r p']. destruct Ev as (Ok' & Sp & Bu & St & Tk & Bd). split_and!; [done|done| |].
  - cbn [lru insertLocked take] in Tk. destruct (lru p') as [|x l]; [done|]. injection Tk as ->. rewrite insert_lookup. cbn [hash]. by rewrite bool_decide_eq_true_2.
  - intros -> Hs. apply Bd; [done|by rewrite <- St|done].
Qed.

(** Whether the last insertion found room: an operation on a set that is already in memory
    evicts nothing. *)
Definition roomy {A} (h : Hash) (p : pool) (room : bool) (r : ares A) : bool :=
  match entry h (lru p) with
  | Some _ => room
  | None => match r with Ok _ => true | _ => false end
  end.

Lemma put_ok s p room : pool_ok p -> (room = true -> bounded p) -> let '(r, p') := put s p in
  pool_ok p' /\ (r = Ok (set_Hash s) \/ exists h cause, r = Err (SpillingStore h cause)) /\ entry (set_Hash s) (lru p') <> None /\
  (roomy (set_Hash s) p room r = true -> bounded p').
Proof.
  intros Hp Hb. unfold put, roomy. destruct (entry (set_Hash s) (lru p)) as [e|] eqn:E.
  - assert (Eh : hash e = set_Hash s) by (apply entry_Some in E; [tauto|apply Hp]). split_and!; [by apply (pool_ok_front p _ e); destruct (track p)|by left| |].
    + cbn [lru set_lru]. rewrite insert_lookup. by rewrite bool_decide_eq_true_2 by by destruct (track p).
    + intros R. apply (bounded_front p _ e); auto.
  - pose proof (inserted_ok (set_Hash s) s false p Hp E eq_refl) as Ev. destruct (evictLocked _) as [r p']. destruct Ev as (Ok' & Sp & Hin & Bd).
    destruct r as [[]|e|]; [|destruct Sp as (h & c & ->); split_and!; [done|right; by do 2 eexists|done|done]|done]. split_and!; [done|by left|done|auto].
Qed.

Lemma cached_ok h p s p' : pool_ok p -> cached h p = Some (s, p') -> pool_ok p' /\ set_Hash s = h /\ (bounded p -> bounded p').
Proof.
  intros Hp. unfold cached. destruct (entry h (lru p)) as [e|] eqn:E; [|done]. intros [= <- <-]. pose proof E as E'. apply entry_Some in E' as [Hin Eh]; [|apply Hp].
  split_and!; [by apply (pool_ok_front p h e)| |by apply (bounded_front p h e)]. destruct Hp as [[_ Hf] _]. rewrite Forall_forall in Hf. destruct (Hf e Hin) as [Hh _]. by rewrite <- Hh.
Qed.

Lemma load_ok h w s : (load h w).1 = Ok s -> set_Hash s = h.
Proof.
  unfold load. destruct (ReadAttachmentSet h w) as [[[b|]|c|] w']; cbn [fst]; try done. destruct (ParseAttachmentSet b) as [s'|e|]; [|done..].
  case_bool_decide as Hd; [|done]. cbn [negb]. by intros [= <-].
Qed.

Lemma install_ok h s p room : pool_ok p -> set_Hash s = h -> (room = true -> bounded p) -> let '(r, p') := install h s p in
  pool_ok p' /\ (roomy h p room r = true -> bounded p').
Proof.
  intros Hp Eh Hb. unfold install, roomy. cbn [lru count_load]. destruct (entry h (lru p)) as [e|] eqn:E.
  - split; [by apply (pool_ok_front (count_load p) h e)|]. intros R. apply (bounded_front (count_load p) h e); [done|done|exact (Hb R)].
  - pose proof (inserted_ok h s true (count_load p) Hp E Eh) as Ev. destruct (evictLocked _) as [r p']. destruct Ev as (Ok' & Sp & Hin & Bd). split; [done|].
    destruct r as [[]|e|]; auto; done.
Qed.

Lemma get_ok h p : pool_ok p -> let '(r, p') := get h p in pool_ok p' /\ forall s, r = Ok s -> set_Hash s = h.
Proof.
  intros Hp. unfold get. destruct (cached h p) as [[s p']|] eqn:E.
  - destruct (cached_ok h p s p' Hp E) as (Hp' & Eh & _). split; [done|]. by intros s' [= <-].
  - destruct (store p) as [w|]; [|done]. pose proof (load_ok h w) as L. destruct (load h w) as [[s|e|] w']; cbn [fst] in L; [|done..].
    pose proof (install_ok h s (set_store w' p) false Hp (L s eq_refl) ltac:(done)) as I. destruct (install h s _) as [r p']. split; [apply I|]. intros s' [= <-]. by apply L.
Qed.

(** ** A store that gives back what was written *)

Context `{!AttachmentSetStoreLaws W}.

Definition in_store (p : pool) (h : Hash) (s : AttachmentSet) : Prop := exists w b, store p = Some w /\ contents w !! h = Some b /\ ParseAttachmentSet b = Ok s.

(** The pool or its store has the set. *)
Definition holds (p : pool) (s : AttachmentSet) : Prop :=
  match entry (set_Hash s) (lru p) with
  | Some e => set e = s
  | None => in_store p (set_Hash s) s
  end.

(** The entries can be encoded, and one marked as stored is in the store. *)
Definition encodable (s : AttachmentSet) : Prop := set_ok s /\ slice_ok s.
Definition stored_ok (p : pool) : Prop := Forall (fun e => encodable (set e) /\ (stored e = true -> in_store p (hash e) (set e))) (lru p).

Lemma in_store_same p q w h s : store p = Some w -> in_store p h s -> forall w', store q = Some w' -> contents w' !! h = contents w !! h -> in_store q h s.
Proof. intros Ep (w0 & b & E0 & Hb & Hp) w' Eq E. rewrite Ep in E0. injection E0 as <-. exists w', b. by rewrite E. Qed.

(** Dropping an entry the store has. *)
Lemma stored_drop p q e w w' : pool_ok p -> e ∈ lru p -> lru q = lru p -> store p = Some w -> store q = Some w' -> stored_ok p -> in_store q (hash e) (set e) ->
  (forall k, k <> hash e -> contents w' !! k = contents w !! k) -> stored_ok (drop_entry e q) /\ forall s, holds p s -> holds (drop_entry e q) s.
Proof.
  intros Hp He El Ep Eq Hs Hc Hk. assert (Ee : entry (hash e) (lru p) = Some e) by by apply entry_Some; [apply Hp|]. split.
  - unfold stored_ok in *. cbn [lru drop_entry]. rewrite El. rewrite Forall_forall in Hs |- *. intros x Hx. unfold others in Hx. apply list_elem_of_In, List.filter_In in Hx as [Hx Hd].
    apply list_elem_of_In in Hx. destruct (Hs x Hx) as [En St]. split; [done|]. intros Sx. case_bool_decide; [done|]. by eapply (in_store_same p); [exact Ep|auto|exact Eq|apply Hk].
  - intros s. unfold holds. cbn [lru drop_entry]. rewrite El, others_lookup. case_bool_decide as E.
    + rewrite E, Ee. by intros <-.
    + destruct (entry (set_Hash s) (lru p)); [done|]. intros C. by eapply (in_store_same p); [exact Ep|exact C|exact Eq|apply Hk].
Qed.

Lemma evict_holds fuel p : pool_ok p -> stored_ok p -> let p' := (evict fuel p).2 in stored_ok p' /\ forall s, holds p s -> holds p' s.
Proof.
  revert p. induction fuel as [|f IH]; intros p Hp Hs; cbn [evict]; [done|]. destruct (store p) as [w|] eqn:Ew; [|done]. destruct (_ && _); [|done].
  destruct (last (lru p)) as [e|] eqn:El; [|done]. assert (He : e ∈ lru p) by (apply last_Some in El as [l ->]; set_solver).
  assert (Hen : encodable (set e) /\ (stored e = true -> in_store p (hash e) (set e))) by by unfold stored_ok in Hs; rewrite Forall_forall in Hs; apply Hs.
  assert (Step : forall q w', lru q = lru p -> bytes_ q = bytes_ p -> store q = Some w' -> in_store q (hash e) (set e) -> (forall k, k <> hash e -> contents w' !! k = contents w !! k) ->
    stored_ok (evict f (drop_entry e q)).2 /\ forall s, holds p s -> holds (evict f (drop_entry e q)).2 s).
  { intros q w' Elq Ebq Eq Hc Hk. destruct (stored_drop p q e w w' Hp He Elq Ew Eq Hs Hc Hk) as [S1 S2].
    destruct (IH (drop_entry e q)) as [I1 I2]; [|done|split; [done|auto]]. apply pool_ok_drop; [|by rewrite Elq]. unfold pool_ok. by rewrite Elq, Ebq. }
  destruct (stored e) eqn:Es; [by apply (Step p w); [|done|done|apply Hen|]|]. unfold spill. destruct (WriteAttachmentSet _ _ w) as [[cause|] w'] eqn:Ewr.
  - apply write_err in Ewr. assert (Hk : forall k, k <> hash e -> contents w' !! k = contents w !! k) by (intros k Hk; rewrite <- (lookup_delete_ne (contents w') (hash e)), Ewr, lookup_delete_ne; done).
    assert (Ee : entry (hash e) (lru p) = Some e) by by apply entry_Some; [apply Hp|]. split.
    + unfold stored_ok in *. cbn [lru snd]. rewrite Forall_forall in Hs |- *. intros x Hx. destruct (Hs x Hx) as [En St]. split; [done|]. intros Sx. eapply (in_store_same p); [exact Ew|auto|done|].
      apply Hk. intros Eh. apply (NoDup_map_inj hash (lru p)) in Eh; [|apply Hp|done|done]. congruence.
    + intros s. unfold holds. cbn [lru snd]. destruct (entry (set_Hash s) (lru p)) as [x|] eqn:Ex; [done|]. intros C. eapply (in_store_same p); [exact Ew|exact C|done|].
      apply Hk. intros Eh. rewrite Eh in Ex. congruence.
  - apply write_ok in Ewr. apply (Step _ w'); [done|done|done| |intros k Hk; by rewrite Ewr, lookup_insert_ne].
    exists w', (AppendAttachmentSet [] (set e)). split_and!; [done|by rewrite Ewr, lookup_insert_eq|]. by apply Parse_Append; apply Hen.
Qed.

(** A set can be put unless another one that is held has its hash. *)
Definition no_clash (p : pool) (s : AttachmentSet) : Prop := forall s', holds p s' -> set_Hash s' = set_Hash s -> s' = s.

Lemma put_holds s p : pool_ok p -> stored_ok p -> encodable s -> no_clash p s ->
  let p' := (put s p).2 in stored_ok p' /\ (forall s', holds p s' -> holds p' s') /\ holds p' s.
Proof.
  intros Hp Hs He Hn. unfold put. destruct (entry (set_Hash s) (lru p)) as [e|] eqn:E; cbn [snd].
  - pose proof E as E'. apply entry_Some in E' as [Hin Eh]; [|apply Hp]. set (e' := if track p then _ else e). assert (Es : set e' = set e) by (unfold e'; by destruct (track p)).
    assert (Eh' : hash e' = hash e) by (unfold e'; by destruct (track p)).
    assert (Hh : forall s', holds p s' -> holds (set_lru (e' :: others (set_Hash s) (lru p)) p) s').
    { intros s'. unfold holds. cbn [lru set_lru]. rewrite insert_lookup, Eh', Eh, others_lookup. case_bool_decide as K; [rewrite <- K, E, Es; done|]. by rewrite bool_decide_eq_false_2 by congruence. }
    assert (set e = s) as Ese. { apply Hn; [|destruct Hp as [[_ Hf] _]; rewrite Forall_forall in Hf; destruct (Hf e Hin) as [Hhe _]; congruence].
      unfold holds. destruct Hp as [[_ Hf] _]. rewrite Forall_forall in Hf. destruct (Hf e Hin) as [Hhe _]. by rewrite <- Hhe, Eh, E. }
    split_and!; [|done|apply Hh; unfold holds; by rewrite E]. unfold stored_ok in *. cbn [lru set_lru]. rewrite Forall_forall in Hs. apply Forall_cons. split.
    + rewrite Es. destruct (Hs e Hin) as [En St]. split; [done|]. rewrite Eh'. unfold e'. by destruct (track p).
    + apply Forall_forall. intros x Hx. apply Hs. unfold others in Hx. apply list_elem_of_In, List.filter_In in Hx as [Hx _]. by apply list_elem_of_In.
  - pose proof (pool_ok_insert p (set_Hash s) s false Hp E eq_refl) as Hi. assert (Hsi : stored_ok (insertLocked (set_Hash s) s false p)).
    { unfold stored_ok. cbn [lru insertLocked]. constructor; [done|exact Hs]. }
    destruct (evict_holds (length (lru (insertLocked (set_Hash s) s false p))) _ Hi Hsi) as [S1 S2]. unfold evictLocked.
    replace (match evict _ _ with (Ok _, p0) => (Ok (set_Hash s), p0) | (Err err, p0) => (Err err, p0) | (Panic, p0) => (Panic, p0) end).2 with (evict (length (lru (insertLocked (set_Hash s) s false p))) (insertLocked (set_Hash s) s false p)).2 by by destruct (evict _ _) as [[] ?].
    split_and!; [done| |].
    + intros s' Hs'. apply S2. pose proof (Hn s' Hs') as Hn'. unfold holds in *. cbn [lru insertLocked]. rewrite insert_lookup. cbn [hash]. case_bool_decide as K; [cbn [set]; symmetry; by apply Hn'|done].
    + apply S2. unfold holds. cbn [lru insertLocked]. rewrite insert_lookup. cbn [hash]. by rewrite bool_decide_eq_true_2.
Qed.

Lemma front_holds h p e : pool_ok p -> stored_ok p -> entry h (lru p) = Some e ->
  let p' := set_lru (e :: others h (lru p)) p in stored_ok p' /\ forall s, holds p s -> holds p' s.
Proof.
  intros Hp Hs E. pose proof E as E'. apply entry_Some in E' as [Hin Eh]; [|apply Hp]. split.
  - unfold stored_ok in *. cbn [lru set_lru]. rewrite Forall_forall in Hs. apply Forall_cons. split; [by apply Hs|]. apply Forall_forall. intros x Hx. apply Hs.
    unfold others in Hx. apply list_elem_of_In, List.filter_In in Hx as [Hx _]. by apply list_elem_of_In.
  - intros s. unfold holds. cbn [lru set_lru]. by rewrite front_lookup by (apply Hp || done).
Qed.

Lemma set_store_holds p w w' : store p = Some w -> contents w' = contents w -> stored_ok p -> stored_ok (set_store w' p) /\ forall s, holds p s -> holds (set_store w' p) s.
Proof.
  intros Ew Ec Hs. assert (Hin : forall k s, in_store p k s -> in_store (set_store w' p) k s) by (intros k s Hk; eapply (in_store_same p); [exact Ew|exact Hk|done|by rewrite Ec]). split.
  - unfold stored_ok in *. eapply Forall_impl; [exact Hs|]. intros x [En St]. auto.
  - intros s. unfold holds. cbn [lru set_store]. destruct (entry (set_Hash s) (lru p)); [done|apply Hin].
Qed.

(** Reading the store: nothing changes, and what is stored under its hash is found. *)
Lemma load_spec h w : let '(r, w') := load h w in
  contents w' = contents w /\
  (forall s, r = Ok s -> exists b, contents w !! h = Some b /\ ParseAttachmentSet b = Ok s) /\
  (forall s b, contents w !! h = Some b -> ParseAttachmentSet b = Ok s -> set_Hash s = h -> r = Ok s \/ exists cause, r = Err (ReadingStore h cause)).
Proof.
  unfold load. pose proof (read_same h w) as Rs. pose proof (read_ok h w) as Ro. pose proof (read_no_panic h w) as Rp. destruct (ReadAttachmentSet h w) as [r w']. cbn [fst snd] in *.
  split; [done|]. destruct r as [[b|]|c|]; [|specialize (Ro _ eq_refl); split; [done|congruence]|split; eauto; done|done].
  specialize (Ro _ eq_refl). symmetry in Ro. rewrite Ro.
  destruct (ParseAttachmentSet b) as [s|e|] eqn:Ep; [|split; [done|congruence]|split; [done|congruence]].
  case_bool_decide as Hd; cbn [negb]; split; [intros s' [= <-]; eauto|intros s' b' [= <-] Ep'; left; congruence|done|congruence].
Qed.

Lemma install_holds s p : pool_ok p -> stored_ok p -> holds p s ->
  let p' := (install (set_Hash s) s p).2 in stored_ok p' /\ forall s', holds p s' -> holds p' s'.
Proof.
  intros Hp Hs Hh. unfold install. cbn [lru count_load]. destruct (entry (set_Hash s) (lru p)) as [e|] eqn:E.
  - by apply (front_holds (set_Hash s) (count_load p) e).
  - assert (Hst : in_store p (set_Hash s) s) by (unfold holds in Hh; by rewrite E in Hh).
    pose proof (pool_ok_insert (count_load p) (set_Hash s) s true Hp E eq_refl) as Hi.
    assert (Hsi : stored_ok (insertLocked (set_Hash s) s true (count_load p))).
    { unfold stored_ok. cbn [lru insertLocked]. constructor; [|exact Hs]. cbn [set]. destruct Hst as (w & b & Ew & Eb & Ep). split; [eapply Parse_ok; [|exact Ep]; by eapply contents_ok|]. intros _. by exists w, b. }
    destruct (evict_holds (length (lru (insertLocked (set_Hash s) s true (count_load p)))) _ Hi Hsi) as [S1 S2]. split; [done|].
    intros s' Hh'. apply S2. unfold holds. cbn [lru insertLocked count_load]. rewrite insert_lookup. cbn [hash]. case_bool_decide as K; cbn [set]; [|exact Hh'].
    unfold holds in Hh'. rewrite <- K, E in Hh'. destruct Hst as (w & b & Ew & Eb & Ep), Hh' as (w' & b' & Ew' & Eb' & Ep'). congruence.
Qed.

(** The set a load gives is held, unless the pool has another one with its hash. *)
Lemma load_holds h p w s w' : stored_ok p -> store p = Some w -> load h w = (Ok s, w') -> (forall e, entry h (lru p) = Some e -> set e = s) ->
  stored_ok (set_store w' p) /\ (forall s', holds p s' -> holds (set_store w' p) s') /\ holds (set_store w' p) s.
Proof.
  intros Hs Ew El Hn. pose proof (load_spec h w) as L. pose proof (load_ok h w s) as Eh. rewrite El in L, Eh. specialize (Eh eq_refl). destruct L as (Ec & L & _). destruct (L s eq_refl) as (b & Eb & Ep).
  destruct (set_store_holds p w w' Ew Ec Hs) as [S1 S2]. split_and!; [done|done|]. apply S2. unfold holds. rewrite Eh. destruct (entry h (lru p)) as [e|] eqn:E; [by apply Hn|by exists w, b].
Qed.

Lemma get_holds h p : pool_ok p -> stored_ok p ->
  let '(r, p') := get h p in stored_ok p' /\ (forall s, holds p s -> holds p' s) /\
  forall s, holds p s -> set_Hash s = h -> r = Ok s \/ store p <> None /\ exists cause, r = Err (ReadingStore h cause).
Proof.
  intros Hp Hs. unfold get, cached. destruct (entry h (lru p)) as [e|] eqn:E.
  - destruct (front_holds h p e Hp Hs E) as [S1 S2]. split_and!; [done|done|]. intros s Hh <-. left. unfold holds in Hh. rewrite E in Hh. by subst.
  - assert (Hget : forall s, holds p s -> set_Hash s = h -> exists w b, store p = Some w /\ contents w !! h = Some b /\ ParseAttachmentSet b = Ok s).
    { intros s Hh <-. unfold holds in Hh. rewrite E in Hh. exact Hh. }
    destruct (store p) as [w|] eqn:Ew; [|split_and!; [done|done|]; intros s Hh Eh; by destruct (Hget s Hh Eh) as (? & ? & ? & _)].
    pose proof (load_spec h w) as L. pose proof (load_ok h w) as Lh. destruct (load h w) as [r w'] eqn:El. destruct L as (Ec & L1 & L2). cbn [fst] in Lh.
    assert (Res : forall s, holds p s -> set_Hash s = h -> r = Ok s \/ Some w <> None /\ exists cause, r = Err (ReadingStore h cause)).
    { intros s Hh Eh. destruct (Hget s Hh Eh) as (w0 & b & [= <-] & Eb & Ep). destruct (L2 s b Eb Ep Eh); [by left|by right]. }
    destruct (set_store_holds p w w' Ew Ec Hs) as [S1 S2]. destruct r as [s|e|]; [|done..].
    destruct (load_holds h p w s w' Hs Ew El ltac:(congruence)) as (_ & _ & Hh). rewrite <- (Lh s eq_refl). destruct (install_holds s (set_store w' p) Hp S1 Hh) as [I1 I2]. rewrite (Lh s eq_refl). rewrite (Lh s eq_refl) in I1, I2. split_and!; auto.
Qed.

(** ** The life of a pool

    [reached st b L F room p]: [p] is a pool made over [st] with the budget [b], after any puts,
    reads and calls of [TrackWritten] and [TakeWritten].  Reads of several callers may interleave
    with everything: a load reads the store, and what it gave is installed later.  [L] are the
    sets that were put and [F] the ones that were loaded; [room] tells whether every spill of the
    last insertion succeeded. *)
Inductive reached (st : option W) (b : Z) : list AttachmentSet -> list AttachmentSet -> bool -> pool -> Prop :=
  | reached_new : reached st b [] [] true (NewAttachmentSetPool st b)
  | reached_put L F room p s : reached st b L F room p -> encodable s -> no_clash p s ->
      reached st b (s :: L) F (roomy (set_Hash s) p room (put s p).1) (put s p).2
  | reached_cached L F room p h s p' : reached st b L F room p -> cached h p = Some (s, p') -> reached st b L F room p'
  | reached_load L F room p h w s w' : reached st b L F room p -> store p = Some w -> load h w = (Ok s, w') -> no_clash p s ->
      reached st b L (s :: F) room (set_store w' p)
  | reached_load_error L F room p h w e w' : reached st b L F room p -> store p = Some w -> load h w = (Err e, w') -> reached st b L F room (set_store w' p)
  | reached_install L F room p s : reached st b L F room p -> s ∈ F ->
      reached st b L F (roomy (set_Hash s) p room (install (set_Hash s) s p).1) (install (set_Hash s) s p).2
  | reached_track L F room p on : reached st b L F room p -> reached st b L F room (TrackWritten on p)
  | reached_take L F room p : reached st b L F room p -> reached st b L F room (TakeWritten p).2.

Definition pool_inv (L F : list AttachmentSet) (room : bool) (p : pool) : Prop :=
  pool_ok p /\ stored_ok p /\ (forall s, s ∈ L -> holds p s) /\ (forall s, s ∈ F -> holds p s) /\ (room = true -> bounded p).

Lemma entry_clash h p e s : pool_ok p -> entry h (lru p) = Some e -> set_Hash s = h -> no_clash p s -> set e = s.
Proof.
  intros Hp E Eh Hn. pose proof E as E'. apply entry_Some in E' as [Hin Ee]; [|apply Hp]. assert (Hs : set_Hash (set e) = h).
  { destruct Hp as [[_ Hf] _]. rewrite Forall_forall in Hf. destruct (Hf e Hin) as [Hh _]. congruence. }
  apply Hn; [|congruence]. unfold holds. by rewrite Hs, E.
Qed.

Lemma reached_inv st b L F room p : reached st b L F room p -> pool_inv L F room p.
Proof.
  induction 1 as [|L F room p s R (Hp & Hs & Hl & Hf & Hb) He Hn|L F room p h s p' R (Hp & Hs & Hl & Hf & Hb) Hc|L F room p h w s w' R (Hp & Hs & Hl & Hf & Hb) Ew El Hn|L F room p h w e w' R (Hp & Hs & Hl & Hf & Hb) Ew El|L F room p s R (Hp & Hs & Hl & Hf & Hb) Hin|L F room p on R IH|L F room p R IH]; [|clear R..|exact IH|exact IH].
  - split_and!; [split; [split; constructor|done]|constructor| | |intros _ _; right; done]; intros s Hs; by apply not_elem_of_nil in Hs.
  - pose proof (put_ok s p room Hp Hb) as P. destruct (put_holds s p Hp Hs He Hn) as (S1 & S2 & S3). destruct (put s p) as [r p']. cbn [fst snd] in *. split_and!; [apply P|done| |auto|apply P].
    intros s' [->|Hs']%elem_of_cons; auto.
  - destruct (cached_ok h p s p' Hp Hc) as (Hp' & _ & Hb'). unfold cached in Hc. destruct (entry h (lru p)) as [e|] eqn:E; [|done]. destruct (front_holds h p e Hp Hs E) as [S1 S2]. injection Hc as _ <-. split_and!; auto.
  - pose proof (load_ok h w s) as Eh. rewrite El in Eh. specialize (Eh eq_refl).
    destruct (load_holds h p w s w' Hs Ew El) as (S1 & S2 & S3); [intros e Ee; by apply (entry_clash h p)|]. split_and!; [done|done|auto| |intros R _; apply Hb; [done|by rewrite Ew]].
    intros s' [->|Hs']%elem_of_cons; auto.
  - pose proof (load_spec h w) as Ls. rewrite El in Ls. destruct (set_store_holds p w w' Ew (proj1 Ls) Hs) as [S1 S2]. split_and!; [done|done|auto|auto|intros R _; apply Hb; [done|by rewrite Ew]].
  - pose proof (install_ok (set_Hash s) s p room Hp eq_refl Hb) as I. destruct (install_holds s p Hp Hs (Hf s Hin)) as [S1 S2]. destruct (install (set_Hash s) s p) as [r p']. cbn [fst snd] in *. split_and!; [apply I|done|auto|auto|apply I].
Qed.

(** C33. The attachment set pool is a faithful cache.  However it was used, reads of several
    callers interleaved included: a read of a hash gives a set with that hash or an error; a
    set that was put is read back unless the store reports a read error, and without a store it
    is always read back; the byte count is the size of the entries; and a backed pool is within
    its budget, or holds only the most recent set, unless a spill of its last insertion was
    refused by the store, which a put reports and a read does not.  A put succeeds or reports
    the refused spill, the set is in memory either way, and a put of a new set that succeeds
    brings an overfull pool back within its budget.  The stored sets are taken to have no
    second set with their hash. *)
Theorem pool_faithful st b L F room p : reached st b L F room p ->
  (forall h s, (get h p).1 = Ok s -> set_Hash s = h) /\
  (forall s, s ∈ L -> (get (set_Hash s) p).1 = Ok s \/ store p <> None /\ exists cause, (get (set_Hash s) p).1 = Err (ReadingStore (set_Hash s) cause)) /\
  bytes_ p = total_size (lru p) /\
  (room = true -> store p <> None -> bytes_ p <= budget p \/ zlen (lru p) <= 1) /\
  (forall s, Contains (set_Hash s) (put s p).2 = true /\
    ((put s p).1 = Ok (set_Hash s) /\ (Contains (set_Hash s) p = false -> bounded (put s p).2) \/ exists h cause, (put s p).1 = Err (SpillingStore h cause))).
Proof.
  intros R. destruct (reached_inv st b L F room p R) as (Hp & Hs & Hl & _ & Hb). split_and!; [| |apply Hp|exact Hb|].
  - intros h s. pose proof (get_ok h p Hp) as G. destruct (get h p) as [r p']. apply G.
  - intros s Hin. pose proof (get_holds (set_Hash s) p Hp Hs) as G. destruct (get (set_Hash s) p) as [r p']. destruct G as (_ & _ & G). apply (G s (Hl s Hin) eq_refl).
  - intros s. pose proof (put_ok s p room Hp Hb) as P. unfold Contains, roomy in *. destruct (put s p) as [r p']. cbn [fst snd] in *. destruct P as (_ & Pr & Pe & Pb).
    split; [by destruct (entry (set_Hash s) (lru p'))|]. destruct Pr as [->|]; [left|by right]. split; [done|]. intros E. apply Pb. by destruct (entry (set_Hash s) (lru p)).
Qed.

End pool.

(** A store that keeps the slices it is given in memory. *)
Definition fits (b : bytes) : bool := zlen b <? 2 ^ 63.

Lemma fits_ok b : fits b = true <-> slice_ok b.
Proof. apply Z.ltb_lt. Qed.

#[export] Instance map_store : AttachmentSetStore (gmap Hash bytes) := {
  WriteAttachmentSet h b w := if fits b then (None, <[h := b]> w) else (Some (str "too large"), w);
  ReadAttachmentSet h w := (Ok (w !! h ≫= fun b => if fits b then Some b else None), w);
}.

#[export] Program Instance map_store_laws : AttachmentSetStoreLaws (gmap Hash bytes) := {
  contents w := omap (fun b => if fits b then Some b else None) w;
}.
Next Obligation. intros h b w w' E. cbn in E. destruct (fits b) eqn:S; [|done]. injection E as <-. apply omap_insert_Some. by rewrite S. Qed.
Next Obligation. intros h b w w' e E. cbn in E. destruct (fits b); [done|]. by injection E as _ <-. Qed.
Next Obligation. done. Qed.
Next Obligation. intros h w o E. cbn in E. injection E as <-. by rewrite lookup_omap. Qed.
Next Obligation. intros w h b E. rewrite lookup_omap in E. destruct (w !! h) as [b'|]; [|done]. cbn in E. destruct (fits b') eqn:S; [|done]. injection E as <-. by apply fits_ok. Qed.
Next Obligation. done. Qed.

Definition demo_attachment : Attachment := mkAttachment (mkUUID 0 1) (str "a.txt") (mkRef 1 (mkHash (repeat "000"%byte 32)) 0 []).

Lemma demo_attachment_ok : att_ok demo_attachment.
Proof. repeat split; try done. Qed.

Lemma demo_set_ok : encodable [demo_attachment].
Proof. split; [split_and!|done]; repeat constructor; try apply demo_attachment_ok. by apply not_elem_of_nil. Qed.

Lemma new_pool_empty (st : option (gmap Hash bytes)) b s : from_option (fun w => w = ∅) True st -> ~ holds (NewAttachmentSetPool st b) s.
Proof. intros E. unfold holds. cbn. intros (w & c & Ew & Hc & _). cbn in Ew. rewrite Ew in E. cbn in E. rewrite E in Hc. cbn [contents map_store_laws] in Hc. by rewrite lookup_omap, lookup_empty in Hc. Qed.

Definition other_attachment : Attachment := mkAttachment (mkUUID 0 2) (str "b.txt") (mkRef 1 (mkHash (repeat "000"%byte 32)) 0 []).

Lemma other_set_ok : encodable [other_attachment].
Proof. split; [split_and!|done]; repeat constructor; try done. by apply not_elem_of_nil. Qed.

Lemma first_put s (b : Z) : (put s (NewAttachmentSetPool (Some (∅ : gmap Hash bytes)) b)).2 = insertLocked (set_Hash s) s false (NewAttachmentSetPool (Some ∅) b).
Proof. unfold put, evictLocked. cbn [entry lru NewAttachmentSetPool insertLocked length evict store zlen]. change (1 <? zlen [_]) with false. by rewrite andb_false_r. Qed.

(** A budget of one byte: the second put spills the first set. *)
Definition tight_pool (s1 s2 : AttachmentSet) : AttachmentSetPool (gmap Hash bytes) := (put s2 (put s1 (NewAttachmentSetPool (Some ∅) 1)).2).2.

Lemma tight_reached s1 s2 : encodable s1 -> encodable s2 -> set_Hash s1 <> set_Hash s2 -> exists room, reached (Some ∅) 1 [s2; s1] [] room (tight_pool s1 s2).
Proof.
  intros E1 E2 Hd. eexists. apply reached_put; [apply reached_put; [apply reached_new|done|]|done|].
  - intros s Hs. by destruct (new_pool_empty (Some ∅) 1 s).
  - rewrite first_put. intros s Hs E. unfold holds in Hs. cbn [lru insertLocked] in Hs. rewrite insert_lookup in Hs. cbn [hash] in Hs. rewrite bool_decide_eq_false_2 in Hs by congruence.
    by destruct (new_pool_empty (Some ∅) 1 s).
Qed.

Lemma pool_faithful_witness : set_Hash [demo_attachment] = set_Hash [other_attachment] \/
  ((get (set_Hash [demo_attachment]) (tight_pool [demo_attachment] [other_attachment])).1 = Ok [demo_attachment] \/
   store (tight_pool [demo_attachment] [other_attachment]) <> None /\ exists cause, (get (set_Hash [demo_attachment]) (tight_pool [demo_attachment] [other_attachment])).1 = Err (ReadingStore (set_Hash [demo_attachment]) cause)).
Proof.
  destruct (decide (set_Hash [demo_attachment] = set_Hash [other_attachment])) as [E|E]; [by left|right].
  destruct (tight_reached _ _ demo_set_ok other_set_ok E) as [room R]. apply (pool_faithful _ _ _ _ _ _ R). right. by left.
Defined.

End AttachmentPool.
