(* ===== verification/AttachmentTable.v ===== *)
(** Attachment tables: [AttachmentTable] of [document/attachment_table.go].

    A table is a document tree from document ids to the hashes of their attachment sets,
    with the sets in a pool.  It behaves as a map from documents to maps of attachments:
    applying operations to the table is applying them to the map. *)

From S2P Require Import Prelude Primitives Schema KdbCodec CodecCorrect Document Sha256 Commit CommitDirect CommitCorrect TrieHash Trie TrieCorrect TrieWalk TrieBulk DocumentTree TreeMap Utf8 AttachmentHash AttachmentSet AttachmentPool.
Import Primitives Document DocumentTree TreeMap AttachmentHash AttachmentSet AttachmentPool.

Module AttachmentTable.

Record AttachmentTable := mkTable { tree : DocumentTree; total : Z }.

Definition nilUUID : UUID := mkUUID 0 0.

Section table.
Context {W : Type} `{AttachmentSetStore W}.

Abbreviation pool := (AttachmentSetPool W).

(** ** What uses a pool: the pool is an argument and part of the result. *)

Definition PM (A : Type) : Type := pool -> ares A * pool.
Definition pret {A} (a : A) : PM A := fun p => (Ok a, p).
Definition perr {A} (e : attach_error) : PM A := fun p => (Err e, p).
#[local] Instance pbind : MBind PM := fun A B k m p =>
  match m p with
  | (Ok a, p) => k a p
  | (Err e, p) => (Err e, p)
  | (Panic, p) => (Panic, p)
  end.
Definition plift {A} (r : ares A) : PM A := fun p => (r, p).

(** [AttachmentSetPool.Empty]. *)
Definition Empty : AttachmentTable := mkTable EmptyDocumentTree 0.

Definition Len (t : AttachmentTable) : Z := total t.
Definition Documents (t : AttachmentTable) : Z := DocumentTree.Size (tree t).
Definition Root (t : AttachmentTable) : option Hash := if Documents t =? 0 then None else Some (TreeHash (tree t)).

Definition SetHash (t : AttachmentTable) (docID : UUID) : option Hash :=
  if Documents t =? 0 then None else HashFor (tree t) docID.

Definition wrap_doc {A} (docID : UUID) (m : PM A) : PM A := fun p =>
  match m p with
  | (Err e, p) => (Err (AttachmentsOf docID e), p)
  | r => r
  end.

Definition List_ (t : AttachmentTable) (docID : UUID) : PM AttachmentSet :=
  match SetHash t docID with
  | None => pret []
  | Some h => wrap_doc docID (AttachmentPool.get h)
  end.

Definition Count (t : AttachmentTable) (docID : UUID) : PM Z := s ← List_ t docID; pret (zlen s).
Definition Get (t : AttachmentTable) (docID id : UUID) : PM (option Attachment) := s ← List_ t docID; pret (AttachmentSet.get s id).
Definition GetByName (t : AttachmentTable) (docID : UUID) (name : bytes) : PM (option Attachment) := s ← List_ t docID; pret (ByName s name).

Definition setDoc (t : AttachmentTable) (docID : UUID) (before after : AttachmentSet) : PM AttachmentTable :=
  let table tr := mkTable tr (total t - zlen before + zlen after) in
  match after with
  | [] => pret (table (Without (tree t) docID))
  | _ => h ← put after; pret (table (With (tree t) docID h))
  end.

(** The checks of [Put] before it reads anything. *)
Definition put_check (docID : UUID) (a : Attachment) : option attach_error :=
  if bool_decide (ID a = nilUUID) then Some (NoID docID)
  else match ValidateAttachmentName (Name a) with
       | Some e => Some e
       | None =>
         if Size (Ref a) <? 0 then Some (NegativeSize (ID a) docID (Size (Ref a)))
         else if negb (Scheme (Ref a) =? AttachmentHashSchemeChunked1) then Some (UnknownScheme (ID a) docID (Scheme (Ref a)))
         else None
       end.

Definition Put (t : AttachmentTable) (docID : UUID) (a : Attachment) : PM AttachmentTable :=
  match put_check docID a with
  | Some e => perr e
  | None =>
    before ← List_ t docID;
    after ← plift (set_with before a);
    setDoc t docID before after
  end.

Definition Delete (t : AttachmentTable) (docID id : UUID) : PM AttachmentTable :=
  before ← List_ t docID;
  let '(after, found) := set_without before id in
  if found then setDoc t docID before after else pret t.

Definition DeleteAll (t : AttachmentTable) (docID : UUID) : PM AttachmentTable :=
  before ← List_ t docID;
  match before with [] => pret t | _ => setDoc t docID before [] end.

Definition apply_op (t : AttachmentTable) (op : Op) : PM AttachmentTable :=
  match op with
  | AttachmentPutOp doc id name scheme content size mime => Put t doc (mkAttachment id name (mkRef scheme content size mime))
  | AttachmentDeleteOp doc id => Delete t doc id
  | DeleteOp doc => DeleteAll t doc
  | _ => pret t
  end.

Fixpoint Apply (t : AttachmentTable) (ops : list Op) : PM AttachmentTable :=
  match ops with
  | [] => pret t
  | op :: ops => t ← apply_op t op; Apply t ops
  end.

Definition TouchesAttachments (ops : list Op) (tableNonEmpty : bool) : bool :=
  existsb (fun op => match op with
    | AttachmentPutOp _ _ _ _ _ _ _ | AttachmentDeleteOp _ _ => true
    | DeleteOp _ => tableNonEmpty
    | _ => false
    end) ops.

(** ** The map a table stands for *)

Abbreviation attachments := (gmap UUID (gmap UUID Attachment)).
Definition of_doc (A : attachments) (doc : UUID) : gmap UUID Attachment := default ∅ (A !! doc).
Definition set_of (A : attachments) (doc : UUID) (m : gmap UUID Attachment) : attachments := if decide (m = ∅) then delete doc A else <[doc := m]> A.

Definition holder (m : gmap UUID Attachment) (a : Attachment) : option UUID :=
  fst <$> List.find (fun e => bool_decide (Name e.2 = Name a /\ e.1 <> ID a)) (map_to_list m).

Definition spec_op (A : attachments) (op : Op) : ares attachments :=
  match op with
  | AttachmentPutOp doc id name scheme content size mime =>
    let a := mkAttachment id name (mkRef scheme content size mime) in
    match put_check doc a with
    | Some e => Err e
    | None =>
      match holder (of_doc A doc) a with
      | Some other => Err (NameUsed name other)
      | None => Ok (set_of A doc (<[id := a]> (of_doc A doc)))
      end
    end
  | AttachmentDeleteOp doc id => Ok (set_of A doc (delete id (of_doc A doc)))
  | DeleteOp doc => Ok (delete doc A)
  | _ => Ok A
  end.

Fixpoint spec_ops (A : attachments) (ops : list Op) : ares attachments :=
  match ops with
  | [] => Ok A
  | op :: ops => A ← spec_op A op; spec_ops A ops
  end.


(** ** Names *)

Lemma holder_None m a : holder m a = None <-> name_free m a.
Proof.
  unfold holder, name_free. destruct (List.find _ _) as [[id o]|] eqn:E; cbn [fmap option_fmap option_map fst]; (split; [try done|]).
  - intros Hf. apply List.find_some in E as [Hin [Hn Hd]%bool_decide_eq_true]. apply list_elem_of_In, elem_of_map_to_list in Hin. by destruct Hd; apply (Hf id o).
  - intros _ id o Ho Hn. destruct (decide (id = ID a)) as [|Hd]; [done|]. apply elem_of_map_to_list, list_elem_of_In in Ho. pose proof (List.find_none _ _ E (id, o) Ho) as F. by apply bool_decide_eq_false in F; destruct F.
  - done.
Qed.

Lemma holder_Some s a o : set_ok s -> by_id s !! ID o = Some o -> Name o = Name a -> ID o <> ID a -> holder (by_id s) a = Some (ID o).
Proof.
  intros Hs Ho Hn Hd. unfold holder. destruct (List.find _ _) as [[id o']|] eqn:E; cbn [fmap option_fmap option_map fst].
  - apply List.find_some in E as [Hin [Hn' _]%bool_decide_eq_true]. apply list_elem_of_In, elem_of_map_to_list in Hin. cbn [snd] in Hn'. apply set_elem in Hin as [Hin <-], Ho as [Ho _]; [|done..].
    f_equal. f_equal. apply (NoDup_map_inj Name s); [apply Hs|done|done|congruence].
  - apply elem_of_map_to_list, list_elem_of_In in Ho. pose proof (List.find_none _ _ E (ID o, o) Ho) as F. by apply bool_decide_eq_false in F; destruct F.
Qed.

Lemma by_id_empty s : by_id s = ∅ <-> s = [].
Proof.
  split; [|by intros ->]. destruct s as [|a s]; [done|]. intros E. pose proof (lookup_empty (M:=gmap UUID) (A:=Attachment) (ID a)) as L. rewrite <- E, by_id_None in L. by apply Forall_cons in L as [L _].
Qed.

(** ** The sets of a table *)

Context `{!AttachmentSetStoreLaws W}.

Definition sets_total (Ms : gmap UUID AttachmentSet) : Z := map_fold (fun _ s n => zlen s + n) 0 Ms.
Definition upd (Ms : gmap UUID AttachmentSet) (doc : UUID) (s : AttachmentSet) : gmap UUID AttachmentSet := match s with [] => delete doc Ms | _ => <[doc := s]> Ms end.

(** The table holds the sets [Ms]: its tree has their hashes, and the pool has them. *)
Definition tbl (t : AttachmentTable) (p : pool) (Ms : gmap UUID AttachmentSet) : Prop :=
  pool_ok p /\ stored_ok p /\ represents (tree t) (set_Hash <$> Ms) /\ total t = sets_total Ms /\ map_Forall (fun _ s => s <> [] /\ encodable s /\ holds p s) Ms.

Lemma sets_total_delete Ms doc : sets_total (delete doc Ms) = sets_total Ms - zlen (default [] (Ms !! doc)).
Proof.
  unfold sets_total. destruct (Ms !! doc) as [s|] eqn:E; [|rewrite delete_id by done; change (zlen (default [] None)) with 0; lia]. rewrite <- (insert_delete_id Ms doc s) at 2 by done.
  rewrite (map_fold_insert_L (fun _ (s : AttachmentSet) n => zlen s + n)); [change (default [] (Some s)) with s; lia|intros; lia|apply lookup_delete_eq].
Qed.

Lemma sets_total_insert Ms doc s : sets_total (<[doc := s]> Ms) = sets_total Ms - zlen (default [] (Ms !! doc)) + zlen s.
Proof.
  rewrite <- (insert_delete_eq Ms doc s). unfold sets_total at 1. rewrite (map_fold_insert_L (fun _ (s : AttachmentSet) n => zlen s + n)); [|intros; lia|apply lookup_delete_eq].
  fold (sets_total (delete doc Ms)). rewrite sets_total_delete. lia.
Qed.

Lemma tbl_mono t p p' Ms : tbl t p Ms -> pool_ok p' -> stored_ok p' -> (forall s, holds p s -> holds p' s) -> tbl t p' Ms.
Proof. intros (_ & _ & R & T & F) Hp Hs Hh. split_and!; [done|done|done|done|]. intros doc s Hd. destruct (F doc s Hd) as (? & ? & ?). auto. Qed.

Lemma tbl_SetHash t p Ms doc : tbl t p Ms -> uuid_wf doc -> SetHash t doc = set_Hash <$> Ms !! doc.
Proof.
  intros (_ & _ & R & _ & _) Hd. destruct (represents_reads _ _ R) as (Hz & _ & Hr). unfold SetHash, Documents. rewrite Hz. case (Z.eqb_spec (Z.of_nat (base.size (set_Hash <$> Ms))) 0); intros E.
  - assert (Em : base.size (set_Hash <$> Ms) = 0%nat) by lia. apply map_size_empty_inv in Em. by rewrite <- lookup_fmap, Em, lookup_empty.
  - destruct (Hr doc Hd) as [-> _]. by rewrite lookup_fmap.
Qed.

Definition read_failed (e : attach_error) : Prop := exists doc h cause, e = AttachmentsOf doc (ReadingStore h cause).
Definition store_failed (e : attach_error) : Prop := read_failed e \/ exists h cause, e = SpillingStore h cause.

Lemma List_spec t p Ms doc : tbl t p Ms -> uuid_wf doc -> let '(r, p') := List_ t doc p in
  pool_ok p' /\ stored_ok p' /\ (forall s, holds p s -> holds p' s) /\ (r = Ok (default [] (Ms !! doc)) \/ exists e, r = Err e /\ read_failed e).
Proof.
  intros Ht Hd. unfold List_. rewrite (tbl_SetHash t p Ms doc Ht Hd). pose proof Ht as (Hp & Hs & R & T & F). destruct (Ms !! doc) as [s|] eqn:E; cbn [fmap option_fmap option_map]; [|split_and!; [done|done|done|by left]].
  destruct (F doc s E) as (_ & _ & Hh). pose proof (get_ok (set_Hash s) p Hp) as G. pose proof (get_holds (set_Hash s) p Hp Hs) as G'. unfold wrap_doc. destruct (AttachmentPool.get (set_Hash s) p) as [r p'].
  destruct G as [G _]. destruct G' as (S1 & S2 & S3). destruct (S3 s Hh eq_refl) as [->|(_ & c & ->)]; split_and!; [done|done|done|by left|done|done|done|right]. eexists. split; [done|]. by do 3 eexists.
Qed.

Lemma upd_spec Ms doc s : by_id <$> upd Ms doc s = set_of (by_id <$> Ms) doc (by_id s).
Proof. unfold upd, set_of. destruct s as [|a s]; [by rewrite decide_True, fmap_delete by done|]. rewrite decide_False by by intros E%by_id_empty. apply fmap_insert. Qed.

Lemma setDoc_spec t p Ms doc after : tbl t p Ms -> uuid_wf doc -> encodable after -> (after <> [] -> no_clash p after) ->
  let '(r, p') := setDoc t doc (default [] (Ms !! doc)) after p in
  pool_ok p' /\ stored_ok p' /\ (forall s, holds p s -> holds p' s) /\
  ((exists t', r = Ok t' /\ tbl t' p' (upd Ms doc after)) \/ exists e, r = Err e /\ store_failed e).
Proof.
  intros Ht Hd He Hn. pose proof Ht as (Hp & Hs & R & T & F). unfold setDoc. destruct after as [|a after].
  - split_and!; [done|done|done|]. left. eexists. split; [done|]. unfold tbl. cbn [tree total upd]. split_and!; [done|done| | |].
    + rewrite fmap_delete. by apply Without_represents.
    + rewrite sets_total_delete, T. change (zlen []) with 0. lia.
    + by apply map_Forall_delete.
  - set (s := a :: after) in *. cbn [upd]. unfold mbind, pbind. pose proof (put_ok s p false Hp ltac:(done)) as P. pose proof (put_holds s p Hp Hs He (Hn ltac:(done))) as P'. destruct (put s p) as [r p'].
    destruct P as (Po & Pr & _). destruct P' as (S1 & S2 & S3). cbn [snd] in *. destruct Pr as [->|(h & c & ->)].
    + split_and!; [done|done|done|]. left. eexists. split; [done|]. unfold tbl. cbn [tree total]. change (upd Ms doc s) with (<[doc := s]> Ms). split_and!; [done|done| | |].
      * rewrite fmap_insert. apply With_represents; [done|done|apply Sha256.Sum256_length].
      * rewrite sets_total_insert, T. done.
      * apply map_Forall_insert_2; [done|]. intros d s' Hs'. destruct (F d s' Hs') as (? & ? & ?). auto.
    + split_and!; [done|done|done|]. right. eexists. split; [done|]. right. by do 2 eexists.
Qed.

(** ** Operations *)

Definition op_ok (op : Op) : Prop :=
  match op with
  | AttachmentPutOp doc id name scheme content size mime => uuid_wf doc /\ att_ok (mkAttachment id name (mkRef scheme content size mime))
  | AttachmentDeleteOp doc id => uuid_wf doc /\ uuid_wf id
  | DeleteOp doc => uuid_wf doc
  | _ => True
  end.

(** The set an operation puts into the pool is a slice, and has not the hash of another set
    of the pool. *)
Definition step_safe (t : AttachmentTable) (op : Op) (p : pool) : Prop :=
  match op with
  | AttachmentPutOp doc id name scheme content size mime =>
    match List_ t doc p with
    | (Ok before, p) => forall after, set_with before (mkAttachment id name (mkRef scheme content size mime)) = Ok after -> slice_ok after /\ no_clash p after
    | _ => True
    end
  | AttachmentDeleteOp doc id =>
    match List_ t doc p with
    | (Ok before, p) => (set_without before id).1 <> [] -> no_clash p (set_without before id).1
    | _ => True
    end
  | _ => True
  end.

Fixpoint run_safe (t : AttachmentTable) (ops : list Op) (p : pool) : Prop :=
  match ops with
  | [] => True
  | op :: ops => step_safe t op p /\ match apply_op t op p with (Ok t, p) => run_safe t ops p | _ => True end
  end.

(** What an operation on the table does to the map it holds. *)
Definition refines (p : pool) (Ms : gmap UUID AttachmentSet) (spec : ares attachments) (res : ares AttachmentTable * pool) : Prop :=
  let '(r, p') := res in
  pool_ok p' /\ stored_ok p' /\ (forall s, holds p s -> holds p' s) /\
  match r with
  | Ok t' => exists Ms', tbl t' p' Ms' /\ spec = Ok (by_id <$> Ms')
  | Err e => store_failed e \/ spec = Err e
  | Panic => False
  end.

Lemma of_doc_sets Ms doc : of_doc (by_id <$> Ms) doc = by_id (default [] (Ms !! doc)).
Proof. unfold of_doc. rewrite lookup_fmap. by destruct (Ms !! doc). Qed.

Lemma tbl_doc t p Ms doc : tbl t p Ms -> encodable (default [] (Ms !! doc)) /\ (default [] (Ms !! doc) = [] -> Ms !! doc = None).
Proof.
  intros (_ & _ & _ & _ & F). destruct (Ms !! doc) as [s|] eqn:E; [|split; [by split; [apply set_ok_nil|]|done]]. destruct (F doc s E) as (Hn & He & _). done.
Qed.

Lemma set_of_same t p Ms doc : tbl t p Ms -> set_of (by_id <$> Ms) doc (of_doc (by_id <$> Ms) doc) = by_id <$> Ms.
Proof.
  intros Ht. destruct (tbl_doc t p Ms doc Ht) as [_ Hn]. rewrite of_doc_sets. unfold set_of. destruct (decide (by_id (default [] (Ms !! doc)) = ∅)) as [E|E].
  - apply by_id_empty in E. rewrite <- fmap_delete, delete_id by auto. done.
  - rewrite insert_id; [done|]. rewrite lookup_fmap. destruct (Ms !! doc); [done|]. by destruct E.
Qed.

Lemma without_length s id : (length (set_without s id).1 <= length s)%nat.
Proof. unfold set_without. destruct (find s id) as [i []]; cbn [fst]; [|done]. rewrite length_app, length_take, length_drop. lia. Qed.

(** Reading the sets of the document first, as every operation does. *)
Lemma after_List t p Ms doc (k : AttachmentSet -> PM AttachmentTable) spec : tbl t p Ms -> uuid_wf doc ->
  (forall p', tbl t p' Ms -> List_ t doc p = (Ok (default [] (Ms !! doc)), p') -> refines p' Ms spec (k (default [] (Ms !! doc)) p')) ->
  refines p Ms spec ((s ← List_ t doc; k s) p).
Proof.
  intros Ht Hd Hk. pose proof (List_spec t p Ms doc Ht Hd) as L. unfold mbind, pbind. destruct (List_ t doc p) as [r p'] eqn:E. destruct L as (Hp & Hs & Hh & [->|(e & -> & He)]).
  - specialize (Hk p' (tbl_mono _ _ _ _ Ht Hp Hs Hh) eq_refl). unfold refines in *. destruct (k _ p') as [r p'']. destruct Hk as (? & ? & ? & ?). split_and!; [done|done|auto|done].
  - split_and!; [done|done|done|]. left. by left.
Qed.

Lemma setDoc_refines t p Ms doc after spec : tbl t p Ms -> uuid_wf doc -> encodable after -> (after <> [] -> no_clash p after) ->
  spec = Ok (set_of (by_id <$> Ms) doc (by_id after)) -> refines p Ms spec (setDoc t doc (default [] (Ms !! doc)) after p).
Proof.
  intros Ht Hd He Hn ->. pose proof (setDoc_spec t p Ms doc after Ht Hd He Hn) as S. unfold refines. destruct (setDoc _ _ _ _ p) as [r p']. destruct S as (Hp & Hs & Hh & [(t' & -> & Ht')|(e & -> & He')]).
  - split_and!; [done|done|done|]. exists (upd Ms doc after). by rewrite upd_spec.
  - split_and!; [done|done|done|by left].
Qed.

Lemma pret_refines t p Ms spec : tbl t p Ms -> spec = Ok (by_id <$> Ms) -> refines p Ms spec (pret t p).
Proof. intros Ht ->. pose proof Ht as (? & ? & _). split_and!; [done|done|done|]. by exists Ms. Qed.

Lemma apply_op_refines t p Ms op : tbl t p Ms -> op_ok op -> step_safe t op p -> refines p Ms (spec_op (by_id <$> Ms) op) (apply_op t op p).
Proof.
  intros Ht Hop Hsafe. pose proof Ht as (Hp & Hs & _). destruct op as [| doc | | | doc id name scheme content size mime| doc id]; cbn [apply_op spec_op]; try by apply pret_refines.
  - apply (after_List t p Ms doc); [done|done|]. intros p' Ht' _. destruct (tbl_doc t p' Ms doc Ht') as [_ Hn]. destruct (default [] (Ms !! doc)) as [|a s] eqn:E.
    + apply pret_refines; [done|]. rewrite <- fmap_delete, delete_id by auto. done.
    + rewrite <- E. apply setDoc_refines; [done|done|split; [apply set_ok_nil|done]|intros []; reflexivity|]. unfold set_of. rewrite decide_True by done. done.
  - cbn [op_ok step_safe] in *. destruct Hop as [Hd Ha]. unfold Put. set (a := mkAttachment id name (mkRef scheme content size mime)) in *. destruct (put_check doc a) as [e|]; [split_and!; [done|done|done|by right]|].
    apply (after_List t p Ms doc); [done|done|]. intros p' Ht' El. rewrite El in Hsafe. destruct (tbl_doc t p' Ms doc Ht') as [[Hok Hsl] _]. rewrite of_doc_sets. pose proof Ht' as (Hp' & Hs' & _).
    destruct (holder (by_id (default [] (Ms !! doc))) a) as [other|] eqn:Eh.
    + assert (Hf : ~ name_free (by_id (default [] (Ms !! doc))) a) by by rewrite <- holder_None, Eh. destruct (set_with_err _ a Hok Hf) as (o & Ho & Hn & Hd' & E). rewrite (holder_Some _ a o) in Eh by done. injection Eh as <-.
      unfold mbind, pbind, plift. rewrite E. split_and!; [done|done|done|by right].
    + apply holder_None in Eh. destruct (set_with_ok _ a Hok Ha Eh) as (after & E & Hok' & Eb). unfold mbind, pbind, plift. rewrite E. destruct (Hsafe after E) as [Hsl' Hnc].
      apply setDoc_refines; [done|done|by split|intros _; exact Hnc|]. by rewrite Eb.
  - cbn [op_ok step_safe] in *. destruct Hop as [Hd Hid]. unfold Delete. apply (after_List t p Ms doc); [done|done|]. intros p' Ht' El. rewrite El in Hsafe. destruct (tbl_doc t p' Ms doc Ht') as [[Hok Hsl] _].
    rewrite of_doc_sets. pose proof (set_without_spec _ id Hok Hid) as W'. pose proof (without_length (default [] (Ms !! doc)) id) as Hlen. destruct (set_without _ id) as [after found]. cbn [fst] in *. destruct W' as (Hok' & Eb & ->).
    case_bool_decide as Hf.
    + apply setDoc_refines; [done|done| |exact Hsafe|by rewrite Eb]. split; [done|]. unfold slice_ok, zlen in *. lia.
    + apply pret_refines; [done|]. rewrite delete_id by by apply eq_None_not_Some. by rewrite <- of_doc_sets, (set_of_same t p').
Qed.

Lemma Apply_refines t p Ms ops : tbl t p Ms -> Forall op_ok ops -> run_safe t ops p -> refines p Ms (spec_ops (by_id <$> Ms) ops) (Apply t ops p).
Proof.
  intros Ht Ho. revert t p Ms Ht. induction Ho as [|op ops Hop Ho IH]; intros t p Ms Ht Hsafe; cbn [Apply spec_ops]; [by apply pret_refines|]. cbn [run_safe] in Hsafe. destruct Hsafe as [Hs1 Hs2].
  pose proof (apply_op_refines t p Ms op Ht Hop Hs1) as R. unfold mbind at 2, pbind. destruct (apply_op t op p) as [r p']. destruct R as (Hp & Hs & Hh & R). destruct r as [t'|e|]; [|split_and!; [done|done|done|]; destruct R as [|E]; [by left|right; by rewrite E]|done].
  destruct R as (Ms' & Ht' & E). rewrite E. cbn [mbind go_bind]. specialize (IH t' p' Ms' Ht' Hs2). unfold refines in *. destruct (Apply t' ops p') as [r p'']. destruct IH as (? & ? & ? & ?). split_and!; [done|done|auto|done].
Qed.

(** ** From one set to another *)

Lemma of_doc_set_of A doc m : of_doc (set_of A doc m) doc = m.
Proof. unfold of_doc, set_of. destruct (decide (m = ∅)) as [->|]; [by rewrite lookup_delete_eq|by rewrite lookup_insert_eq]. Qed.

Lemma set_of_set_of A doc m m' : set_of (set_of A doc m) doc m' = set_of A doc m'.
Proof. unfold set_of. destruct (decide (m' = ∅)), (decide (m = ∅)); by rewrite ?delete_delete_eq, ?delete_insert_eq, ?insert_delete_eq, ?insert_insert_eq. Qed.

(** What goes first: an attachment that is not in [after], or has another name there. *)
Definition gone (after : AttachmentSet) (a : Attachment) : bool :=
  match by_id after !! ID a with Some n => negb (bool_decide (Name n = Name a)) | None => true end.
Definition same (before : AttachmentSet) (a : Attachment) : bool := bool_decide (by_id before !! ID a = Some a).

Lemma ops_shape doc before after : AttachmentSetOps doc before after =
  map (fun a => AttachmentDeleteOp doc (ID a)) (List.filter (gone after) before) ++
  map (put_op doc) (List.filter (fun a => negb (same before a)) (isort (fun a b => uuidLess (ID a) (ID b)) after)).
Proof.
  unfold AttachmentSetOps. f_equal.
  - induction before as [|a l IH]; [done|]. cbn [omap list_omap List.filter]. rewrite IH. destruct (gone after a) eqn:G; unfold gone in G; (destruct (by_id after !! ID a); [by case_bool_decide|done]).
  - induction (isort _ after) as [|a l IH]; [done|]. cbn [omap list_omap List.filter]. rewrite IH. destruct (same before a) eqn:G; unfold same in G; destruct (by_id before !! ID a) as [o|] eqn:E; try done;
      [apply bool_decide_eq_true in G; injection G as ->; by rewrite bool_decide_eq_true_2|apply bool_decide_eq_false in G; by rewrite bool_decide_eq_false_2 by congruence].
Qed.

Definition del_all (l : AttachmentSet) (m : gmap UUID Attachment) : gmap UUID Attachment := fold_left (fun m a => delete (ID a) m) l m.
Definition put_all (l : AttachmentSet) (m : gmap UUID Attachment) : gmap UUID Attachment := fold_left (fun m a => <[ID a := a]> m) l m.

Lemma spec_dels A doc l m ops : spec_ops (set_of A doc m) (map (fun a => AttachmentDeleteOp doc (ID a)) l ++ ops) = spec_ops (set_of A doc (del_all l m)) ops.
Proof. revert m. induction l as [|a l IH]; intros m; [done|]. cbn [map app spec_ops spec_op del_all fold_left]. rewrite of_doc_set_of, set_of_set_of. cbn [mbind go_bind]. apply IH. Qed.

Lemma del_all_lookup l m id o : del_all l m !! id = Some o <-> m !! id = Some o /\ id ∉ map ID l.
Proof.
  revert m. induction l as [|a l IH]; intros m; cbn [del_all fold_left map]; [split; [intros E; split; [done|apply not_elem_of_nil]|tauto]|]. fold (del_all l (delete (ID a) m)). rewrite IH, lookup_delete_Some, not_elem_of_cons. naive_solver.
Qed.

(** Puts in any order of attachments that have the names of [after]. *)
Definition names_agree (after : AttachmentSet) (m : gmap UUID Attachment) : Prop := forall id o, m !! id = Some o -> exists n, n ∈ after /\ ID n = id /\ Name n = Name o.

Lemma names_agree_insert after m a : names_agree after m -> a ∈ after -> names_agree after (<[ID a := a]> m).
Proof. intros Hm Ha id o [[<- <-]|[_ E]]%lookup_insert_Some; [by exists a|by apply Hm]. Qed.

Lemma spec_puts A doc after l m : NoDup (map Name after) -> Forall (fun a => a ∈ after /\ put_check doc a = None) l -> names_agree after m ->
  spec_ops (set_of A doc m) (map (put_op doc) l) = Ok (set_of A doc (put_all l m)).
Proof.
  intros Hn Hl. revert m. induction Hl as [|a l [Ha Hc] Hl IH]; intros m Hm; [done|]. cbn [map spec_ops put_op spec_op put_all fold_left]. replace (mkAttachment (ID a) (Name a) _) with a by by destruct a as [i n []].
  rewrite Hc, of_doc_set_of. replace (holder m a) with (@None UUID).
  - rewrite set_of_set_of. cbn [mbind go_bind]. apply IH. by apply names_agree_insert.
  - symmetry. apply holder_None. intros id o Ho E. destruct (Hm id o Ho) as (n & Hn' & <- & En). f_equal. apply (NoDup_map_inj Name after); [done|done|done|congruence].
Qed.

Lemma put_all_by_id l m : put_all l m = by_id l ∪ m.
Proof. apply by_id_fold. Qed.

(** The operations from one set of attachments to another turn the map of the first into
    the map of the second. *)
Lemma set_ops_spec A doc before after : NoDup (map ID before) -> NoDup (map ID after) -> NoDup (map Name after) -> Forall (fun a => put_check doc a = None) after ->
  spec_ops (set_of A doc (by_id before)) (AttachmentSetOps doc before after) = Ok (set_of A doc (by_id after)).
Proof.
  intros Hb Ha Hn Hc. rewrite ops_shape, spec_dels. set (sorted := isort _ after). assert (Hs : forall a, a ∈ sorted <-> a ∈ after) by (intros a; unfold sorted; by rewrite isort_perm).
  set (fl := List.filter (fun a => negb (same before a)) sorted). assert (Hfl : forall a, a ∈ fl <-> a ∈ after /\ same before a = false).
  { intros a. unfold fl. rewrite list_elem_of_In, List.filter_In, <- list_elem_of_In, Hs, negb_true_iff. done. }
  assert (Hnf : NoDup (map ID fl)).
  { assert (Hns : NoDup (map ID sorted)) by (unfold sorted; by rewrite isort_perm). unfold fl. clear -Hns. induction sorted as [|a l IH]; [done|]. cbn [map List.filter] in *. apply NoDup_cons in Hns as [Hx Hns]. destruct (negb _); [|auto]. cbn [map]. apply NoDup_cons. split; [|auto].
    intros (b & E & Hin)%list_elem_of_fmap. apply Hx. rewrite E. apply (list_elem_of_fmap_2 ID). apply list_elem_of_In, List.filter_In in Hin as [Hin _]. by apply list_elem_of_In. }
  assert (Hd : forall id o, del_all (List.filter (gone after) before) (by_id before) !! id = Some o <-> o ∈ before /\ ID o = id /\ gone after o = false).
  { intros id o. rewrite del_all_lookup, by_id_Some by done. split.
    - intros [[Hin <-] Hout]. split_and!; [done|done|]. destruct (gone after o) eqn:G; [|done]. destruct Hout. apply (list_elem_of_fmap_2 ID). apply list_elem_of_In, List.filter_In. by rewrite <- list_elem_of_In.
    - intros (Hin & <- & G). split; [done|]. intros (b & E & Hb')%list_elem_of_fmap. apply list_elem_of_In, List.filter_In in Hb' as [Hb' G']. apply list_elem_of_In in Hb'. rewrite (NoDup_map_inj ID before o b) in G by done. congruence. }
  assert (Hag : forall o, gone after o = false -> exists n, n ∈ after /\ ID n = ID o /\ Name n = Name o).
  { intros o. unfold gone. destruct (by_id after !! ID o) as [n|] eqn:E; [|done]. apply by_id_Some in E as [Hin E]; [|done]. case_bool_decide; [|done]. intros _. by exists n. }
  rewrite (spec_puts A doc after); [|done| |].
  - f_equal. f_equal. rewrite put_all_by_id. apply map_eq. intros id. apply option_eq. intros a. rewrite lookup_union_Some_raw, by_id_None, by_id_Some, by_id_Some, Hd, Hfl, Forall_forall by done. split.
    + intros [[[? _] ?]|(Hno & Hin & <- & G)]; [done|]. destruct (Hag a G) as (n & Hn' & E & _). split; [|done]. destruct (same before n) eqn:S.
      * unfold same in S. apply bool_decide_eq_true in S. apply by_id_Some in S as [S _]; [|done]. by rewrite (NoDup_map_inj ID before a n).
      * destruct (Hno n); [by apply Hfl|done].
    + intros [Hin <-]. destruct (same before a) eqn:S; [right|by left]. unfold same in S. apply bool_decide_eq_true in S. apply by_id_Some in S as [S _]; [|done]. split_and!.
      * intros b Hb' E. apply Hfl in Hb' as [Hb' Sb]. rewrite (NoDup_map_inj ID after b a) in Sb by done. unfold same in Sb. apply bool_decide_eq_false in Sb. destruct Sb. by apply by_id_Some.
      * done.
      * done.
      * unfold gone. rewrite (proj2 (by_id_Some after (ID a) a Ha)) by done. by rewrite bool_decide_eq_true_2.
  - apply Forall_forall. intros a Hin. apply Hfl in Hin as [Hin _]. split; [done|]. rewrite Forall_forall in Hc. by apply Hc.
  - intros id o E. apply Hd in E as (_ & <- & G). by apply Hag.
Qed.

(** ** The root *)

Lemma tbl_root t p Ms : tbl t p Ms -> Root t = if bool_decide (Ms = ∅) then None else Some (TreeMap.tree_hash (set_Hash <$> Ms)).
Proof.
  intros (_ & _ & R & _). destruct (represents_reads _ _ R) as (Hz & _ & _). destruct R as (_ & Et & _). unfold Root, Documents. rewrite Hz, map_size_fmap, Et.
  case_bool_decide as E; [by subst|]. case (Z.eqb_spec (Z.of_nat (base.size Ms)) 0); [|done]. intros K. destruct E. apply map_size_empty_inv. lia.
Qed.

Lemma sets_same t p Ms t' p' Ms' : tbl t p Ms -> tbl t' p' Ms' -> by_id <$> Ms = by_id <$> Ms' -> Ms = Ms'.
Proof.
  intros (_ & _ & _ & _ & F) (_ & _ & _ & _ & F') E. apply map_eq. intros doc. pose proof (f_equal (.!! doc) E) as Ed. cbn beta in Ed. rewrite !lookup_fmap in Ed.
  destruct (Ms !! doc) as [s|] eqn:E1, (Ms' !! doc) as [s'|] eqn:E2; [|done..]. destruct (F doc s E1) as (_ & [Ho _] & _), (F' doc s' E2) as (_ & [Ho' _] & _). apply (inj Some) in Ed. by rewrite (set_ext s s').
Qed.

(** C26. An attachment table refines a map from documents to maps of attachments.  Applying
    operations to it has the result of applying them to the map, with the same error when one
    is refused - a put without an id, with a bad name, size or scheme, or with the name of
    another attachment of the document - or fails because the store of its pool does.  Every
    other table over the pool keeps its attachments.  Tables with the same attachments have
    the same root and length, whatever operations, pools and evictions led to them. *)
Theorem attachments_refine t p Ms ops : tbl t p Ms -> Forall op_ok ops -> run_safe t ops p ->
  refines p Ms (spec_ops (by_id <$> Ms) ops) (Apply t ops p) /\
  (forall t' Ms', tbl t' p Ms' -> tbl t' (Apply t ops p).2 Ms') /\
  (forall t' p' Ms', tbl t' p' Ms' -> by_id <$> Ms' = by_id <$> Ms -> Root t' = Root t /\ Len t' = Len t).
Proof.
  intros Ht Ho Hs. pose proof (Apply_refines t p Ms ops Ht Ho Hs) as R. split_and!; [done| |].
  - intros t' Ms' Ht'. destruct (Apply t ops p) as [r p']. destruct R as (? & ? & ? & _). by apply (tbl_mono t' p).
  - intros t' p' Ms' Ht' E. pose proof (sets_same _ _ _ _ _ _ Ht' Ht E) as ->. split; [by rewrite (tbl_root t' p' Ms), (tbl_root t p Ms)|]. destruct Ht as (_ & _ & _ & T & _), Ht' as (_ & _ & _ & T' & _). unfold Len. by rewrite T, T'.
Qed.

(** The operations [AttachmentSetOps] gives turn a document's attachments into the wanted
    ones: applied to a table they leave every other document as it was, and are refused only
    when the store of the pool fails - the order is such that no put meets a name that is
    still taken. *)
Theorem set_ops_apply t p Ms doc after : tbl t p Ms -> NoDup (map ID after) -> NoDup (map Name after) -> Forall (fun a => put_check doc a = None) after ->
  let ops := AttachmentSetOps doc (default [] (Ms !! doc)) after in
  Forall op_ok ops -> run_safe t ops p ->
  match Apply t ops p with
  | (Ok t', p') => exists Ms', tbl t' p' Ms' /\ by_id <$> Ms' = set_of (by_id <$> Ms) doc (by_id after)
  | (Err e, _) => store_failed e
  | (Panic, _) => False
  end.
Proof.
  intros Ht Hi Hn Hc ops Ho Hs. pose proof (Apply_refines t p Ms ops Ht Ho Hs) as R. destruct (tbl_doc t p Ms doc Ht) as [[[Hb _] _] _]. apply sorted_ids in Hb.
  pose proof (set_ops_spec (by_id <$> Ms) doc (default [] (Ms !! doc)) after Hb Hi Hn Hc) as E. rewrite <- of_doc_sets, (set_of_same t p Ms doc Ht) in E.
  unfold refines in R. fold ops in E. rewrite E in R. destruct (Apply t ops p) as [[t'|e|] p']; destruct R as (_ & _ & _ & R); [|by destruct R|done]. destruct R as (Ms' & Ht' & [= R]). by exists Ms'.
Qed.

End table.

Definition demo_doc : UUID := mkUUID 0 7.
Definition demo_pool : AttachmentSetPool (gmap Hash bytes) := NewAttachmentSetPool (Some ∅) 0.

Lemma demo_tbl : tbl Empty demo_pool ∅.
Proof.
  split_and!; [split; [split; constructor|done]|constructor| |done|apply map_Forall_empty]. rewrite fmap_empty. split_and!; [apply map_Forall_empty|done|]. split; [done|]. by right.
Qed.

Lemma demo_put_safe ops : (forall t p, run_safe t ops p) -> run_safe Empty (put_op demo_doc demo_attachment :: ops) demo_pool.
Proof.
  intros Hr. cbn [run_safe]. split; [|destruct (apply_op Empty (put_op demo_doc demo_attachment) demo_pool) as [[] ?]; auto]. cbn [step_safe put_op]. change (List_ Empty demo_doc demo_pool) with (@Ok attach_error _ ([] : AttachmentSet), demo_pool). cbv iota beta.
  intros after E. assert (after = [demo_attachment]) as -> by (cbv in E; by injection E as <-). split; [done|]. intros s Hs. by destruct (new_pool_empty (Some ∅) 0 s).
Qed.

Lemma demo_op_ok : op_ok (put_op demo_doc demo_attachment).
Proof. split; [done|apply demo_attachment_ok]. Qed.

Lemma attachments_refine_witness :
  let ops := [put_op demo_doc demo_attachment; DeleteOp demo_doc] in
  refines demo_pool ∅ (spec_ops (by_id <$> ∅) ops) (Apply Empty ops demo_pool) /\ tbl Empty (Apply Empty ops demo_pool).2 ∅.
Proof.
  intros ops. assert (Ho : Forall op_ok ops) by (repeat constructor; apply demo_op_ok). assert (Hs : run_safe Empty ops demo_pool).
  { apply demo_put_safe. intros t p. cbn [run_safe step_safe]. split; [done|]. by destruct (apply_op t (DeleteOp demo_doc) p) as [[] ?]. }
  destruct (attachments_refine Empty demo_pool ∅ ops demo_tbl Ho Hs) as (R & T & _). split; [exact R|apply T, demo_tbl].
Defined.

Lemma set_ops_apply_witness :
  match Apply Empty (AttachmentSetOps demo_doc [] [demo_attachment]) demo_pool with
  | (Ok t', p') => exists Ms', tbl t' p' Ms' /\ by_id <$> Ms' = set_of (by_id <$> ∅) demo_doc (by_id [demo_attachment])
  | (Err e, _) => store_failed e
  | (Panic, _) => False
  end.
Proof.
  apply (set_ops_apply Empty demo_pool ∅ demo_doc [demo_attachment] demo_tbl).
  - apply NoDup_singleton.
  - apply NoDup_singleton.
  - by repeat constructor.
  - repeat constructor; apply demo_op_ok.
  - by apply demo_put_safe.
Defined.

End AttachmentTable.
