(* ===== verification/AttachmentMerge.v ===== *)
(** Merging the attachments of a document three ways: [mergeAttachmentSets] of
    [dag/attachment_merge.go].

    Each attachment is decided by its identifier, and the result does not depend on which
    parent of the merge comes first.  Renaming after a contested name is not checked again:
    it can give a name that is taken, or cut a character in two. *)

From S2P Require Import Prelude Primitives Schema KdbCodec CodecCorrect Document Sha256 Commit CommitDirect CommitCorrect TrieHash Trie TrieCorrect TrieWalk TrieBulk DocumentTree TreeMap Utf8 AttachmentHash AttachmentSet AttachmentPool AttachmentTable.
Import Primitives Document AttachmentHash AttachmentSet AttachmentTable.

Module AttachmentMerge.

Definition bytes_gtb (a b : bytes) : bool := negb (bytes_leb a b).

Definition attachmentGreater (a b : Attachment) : bool :=
  let ha := HashBytes (ContentHash (Ref a)) in
  let hb := HashBytes (ContentHash (Ref b)) in
  if negb (bool_decide (ha = hb)) then bytes_gtb ha hb
  else if negb (bool_decide (Name a = Name b)) then bytes_gtb (Name a) (Name b)
  else if negb (Size (Ref a) =? Size (Ref b)) then Size (Ref b) <? Size (Ref a)
  else bytes_gtb (Mime (Ref a)) (Mime (Ref b)).

(** One attachment, in the base and on the two sides.  [ov] and [inO] are an option. *)
Definition merge_one (bv ov tv : option Attachment) : option Attachment :=
  if bool_decide (ov = tv) then ov
  else if bool_decide (ov = bv) then tv
  else if bool_decide (tv = bv) then ov
  else match ov, tv with
       | None, _ => tv
       | _, None => ov
       | Some o, Some t => if attachmentGreater o t then ov else tv
       end.

Definition renamed (a : Attachment) : Attachment :=
  let suffix := str "~" ++ take 8 (UUIDString (ID a)) in
  let name := if MaxAttachmentNameBytes <? zlen (Name a) + zlen suffix then take (Z.to_nat (MaxAttachmentNameBytes - zlen suffix)) (Name a) else Name a in
  mkAttachment (ID a) (name ++ suffix) (Ref a).

Fixpoint unique_names (taken : gset bytes) (out : list Attachment) : list Attachment :=
  match out with
  | [] => []
  | a :: out =>
    let a := if bool_decide (Name a ∈ taken) then renamed a else a in
    a :: unique_names ({[Name a]} ∪ taken) out
  end.

(** What each side and the base decide, in the order of the identifiers. *)
Definition merge_ids (base ours theirs : AttachmentSet) : list Attachment :=
  let b := by_id base in
  let o := by_id ours in
  let t := by_id theirs in
  let ids := dom b ∪ dom o ∪ dom t in
  isort (fun x y => uuidLess (ID x) (ID y)) (omap (fun id => merge_one (b !! id) (o !! id) (t !! id)) (elements ids)).

Definition mergeAttachmentSets (base ours theirs : AttachmentSet) : AttachmentSet := unique_names ∅ (merge_ids base ours theirs).

(** ** One attachment *)

Lemma bytes_gtb_swap a b : a <> b -> bytes_gtb b a = negb (bytes_gtb a b).
Proof.
  unfold bytes_gtb. intros Hd. destruct (bytes_leb a b) eqn:E, (bytes_leb b a) eqn:E'; [|done|done|].
  - destruct Hd. by apply bytes_leb_antisymm.
  - apply bytes_leb_total in E. congruence.
Qed.

Definition same_scheme (a b : Attachment) : Prop := Scheme (Ref a) = Scheme (Ref b).

(** Of two versions that differ in more than the scheme, one is the greater. *)
Lemma greater_swap a b : ID a = ID b -> same_scheme a b -> a <> b -> attachmentGreater b a = negb (attachmentGreater a b).
Proof.
  intros Hi Hs Hd. unfold attachmentGreater. set (ha := HashBytes (ContentHash (Ref a))). set (hb := HashBytes (ContentHash (Ref b))).
  destruct (decide (ha = hb)) as [Eh|Eh]; [rewrite (bool_decide_eq_true_2 (ha = hb)), (bool_decide_eq_true_2 (hb = ha)) by done|rewrite (bool_decide_eq_false_2 (ha = hb)), (bool_decide_eq_false_2 (hb = ha)) by congruence; by apply bytes_gtb_swap]. cbn [negb].
  destruct (decide (Name a = Name b)) as [En|En]; [rewrite (bool_decide_eq_true_2 (Name a = Name b)), (bool_decide_eq_true_2 (Name b = Name a)) by done|rewrite (bool_decide_eq_false_2 (Name a = Name b)), (bool_decide_eq_false_2 (Name b = Name a)) by congruence; by apply bytes_gtb_swap]. cbn [negb].
  destruct (Z.eqb_spec (Size (Ref a)) (Size (Ref b))) as [Ez|Ez]; [|rewrite (proj2 (Z.eqb_neq (Size (Ref b)) (Size (Ref a)))) by congruence; cbn [negb]; lia].
  rewrite (proj2 (Z.eqb_eq (Size (Ref b)) (Size (Ref a)))) by congruence. cbn [negb]. apply bytes_gtb_swap. intros Em. apply Hd.
  subst ha hb. destruct a as [i n [s [h] z m]], b as [i' n' [s' [h'] z' m']]. unfold same_scheme in Hs. cbn in *. congruence.
Qed.

Lemma merge_one_sym bv ov tv : (forall a b, ov = Some a -> tv = Some b -> ID a = ID b /\ same_scheme a b) -> merge_one bv ov tv = merge_one bv tv ov.
Proof.
  intros Hs. unfold merge_one. destruct (decide (ov = tv)) as [->|Hd]; [by rewrite !bool_decide_eq_true_2|]. rewrite (bool_decide_eq_false_2 (ov = tv)), (bool_decide_eq_false_2 (tv = ov)) by congruence.
  destruct (decide (ov = bv)) as [Eo|Eo], (decide (tv = bv)) as [Et|Et]; [congruence|rewrite (bool_decide_eq_true_2 (ov = bv)), (bool_decide_eq_false_2 (tv = bv)) by done; done|rewrite (bool_decide_eq_false_2 (ov = bv)), (bool_decide_eq_true_2 (tv = bv)) by done; done|].
  rewrite (bool_decide_eq_false_2 (ov = bv)), (bool_decide_eq_false_2 (tv = bv)) by done. destruct ov as [a|], tv as [b|]; [|done..]. destruct (Hs a b eq_refl eq_refl) as [Hi Hsc].
  rewrite (greater_swap a b) by (done || congruence). by destruct (attachmentGreater a b).
Qed.

(** A side that left an attachment alone takes what the other made of it; only when both
    changed it differently is one dropped, and then never for a removal. *)
Lemma merge_one_spec bv ov tv :
  (ov = bv -> merge_one bv ov tv = tv) /\ (tv = bv -> merge_one bv ov tv = ov) /\
  (ov <> bv -> tv <> bv -> merge_one bv ov tv = ov \/ merge_one bv ov tv = tv) /\
  (ov <> bv -> tv <> bv -> is_Some ov \/ is_Some tv -> is_Some (merge_one bv ov tv)).
Proof.
  unfold merge_one. split_and!.
  - intros ->. repeat case_bool_decide; done.
  - intros ->. repeat case_bool_decide; congruence.
  - intros Ho Ht. case_bool_decide; [by left|]. rewrite !bool_decide_eq_false_2 by done. destruct ov, tv; auto. destruct (attachmentGreater _ _); auto.
  - intros Ho Ht Hs. case_bool_decide; [subst; tauto|]. rewrite !bool_decide_eq_false_2 by done. destruct ov, tv; auto; [destruct (attachmentGreater _ _); eauto|destruct Hs; done].
Qed.

(** ** The merged attachments *)

Lemma by_id_has s id a : by_id s !! id = Some a -> ID a = id /\ a ∈ s.
Proof.
  induction s as [|x s IH] using rev_ind; [done|]. unfold by_id. rewrite fold_left_app. cbn [fold_left]. fold (by_id s). intros [[<- <-]|[Hd E]]%lookup_insert_Some; [split; [done|]; apply elem_of_app; right; by left|].
  destruct (IH E) as [Hi Hs]. split; [done|]. apply elem_of_app. by left.
Qed.

Definition decided (base ours theirs : AttachmentSet) (id : UUID) : option Attachment := merge_one (by_id base !! id) (by_id ours !! id) (by_id theirs !! id).

Lemma decided_id base ours theirs id a : decided base ours theirs id = Some a -> ID a = id.
Proof.
  unfold decided, merge_one. intros E. assert (by_id ours !! id = Some a \/ by_id theirs !! id = Some a) as [H|H] by (repeat case_match; auto); by apply by_id_has in H as [? _].
Qed.

Lemma merge_ids_elem base ours theirs a : a ∈ merge_ids base ours theirs <-> decided base ours theirs (ID a) = Some a.
Proof.
  unfold merge_ids. rewrite isort_perm, list_elem_of_omap. split.
  - intros (id & _ & E). by rewrite (decided_id base ours theirs id a E).
  - intros E. exists (ID a). split; [|exact E]. apply elem_of_elements. rewrite !elem_of_union, !elem_of_dom. unfold decided, merge_one in E. repeat case_match; eauto.
Qed.

Lemma merge_ids_ids base ours theirs : NoDup (map ID (merge_ids base ours theirs)).
Proof.
  unfold merge_ids. rewrite isort_perm. set (ids := elements _). assert (Hn : NoDup ids) by apply NoDup_elements. clearbody ids. induction ids as [|id ids IH]; [constructor|]. apply NoDup_cons in Hn as [Hx Hn]. cbn [omap list_omap].
  fold (decided base ours theirs id). destruct (decided base ours theirs id) as [a|] eqn:E; [|auto]. cbn [map]. apply NoDup_cons. split; [|auto]. intros (b & Eb & Hb)%list_elem_of_fmap. apply list_elem_of_omap in Hb as (id' & Hid & E').
  apply decided_id in E, E'. congruence.
Qed.

Definition wf_side (s : AttachmentSet) : Prop := Forall (fun a => uuid_wf (ID a)) s.

Lemma decided_in base ours theirs id a : decided base ours theirs id = Some a -> a ∈ ours \/ a ∈ theirs.
Proof. unfold decided, merge_one. intros E. assert (by_id ours !! id = Some a \/ by_id theirs !! id = Some a) as [H|H] by (repeat case_match; auto); apply by_id_has in H as [_ ?]; auto. Qed.

Definition same_schemes (ours theirs : AttachmentSet) : Prop := forall a b, a ∈ ours -> b ∈ theirs -> ID a = ID b -> same_scheme a b.

Lemma merge_ids_sym base ours theirs : same_schemes ours theirs -> merge_ids base ours theirs = merge_ids base theirs ours.
Proof.
  intros Hs. unfold merge_ids. replace (dom (by_id base) ∪ dom (by_id theirs) ∪ dom (by_id ours)) with (dom (by_id base) ∪ dom (by_id ours) ∪ dom (by_id theirs)) by set_solver. f_equal.
  apply list_omap_ext, Forall2_same_length_lookup. split; [done|]. intros i x y Hx Hy. rewrite Hx in Hy. injection Hy as <-. apply merge_one_sym. intros a b Ha Hb. apply by_id_has in Ha as [Ea Ha], Hb as [Eb Hb]. split; [congruence|]. apply Hs; [done|done|congruence].
Qed.

(** ** Names *)

Lemma unique_names_ids taken out : map ID (unique_names taken out) = map ID out.
Proof. revert taken. induction out as [|a out IH]; intros taken; [done|]. cbn [unique_names map]. rewrite IH. by case_bool_decide. Qed.
Lemma unique_names_refs taken out : map Ref (unique_names taken out) = map Ref out.
Proof. revert taken. induction out as [|a out IH]; intros taken; [done|]. cbn [unique_names map]. rewrite IH. by case_bool_decide. Qed.

(** Names that nobody contests are kept. *)
Lemma unique_names_kept taken out : NoDup (map Name out) -> (forall a, a ∈ out -> Name a ∉ taken) -> unique_names taken out = out.
Proof.
  revert taken. induction out as [|a out IH]; intros taken Hn Ht; [done|]. cbn [map] in Hn. apply NoDup_cons in Hn as [Ha Hn]. cbn [unique_names]. rewrite bool_decide_eq_false_2 by (apply Ht; by left). f_equal. apply IH; [done|].
  intros b Hb. apply not_elem_of_union. split; [|apply Ht; by right]. intros E%elem_of_singleton. apply Ha. rewrite <- E. by apply (list_elem_of_fmap_2 Name).
Qed.

(** No new name is the name, or the new name, of another attachment. *)
Definition rename_clear (out : list Attachment) : Prop :=
  forall a b, a ∈ out -> b ∈ out -> ID a <> ID b -> Name (renamed a) <> Name b /\ Name (renamed a) <> Name (renamed b).

Lemma unique_names_distinct done_ taken out : NoDup (map ID (done_ ++ out)) -> rename_clear (done_ ++ out) ->
  (forall x, x ∈ taken -> exists b, b ∈ done_ /\ (x = Name b \/ x = Name (renamed b))) ->
  NoDup (map Name (unique_names taken out)) /\ forall x, x ∈ map Name (unique_names taken out) -> x ∉ taken.
Proof.
  revert done_ taken. induction out as [|a out IH]; intros done_ taken Hn Hc Ht; [split; [constructor|]; intros x Hx; by apply not_elem_of_nil in Hx|]. cbn [unique_names]. set (a' := if bool_decide (Name a ∈ taken) then renamed a else a).
  assert (Ha' : Name a' = Name a \/ Name a' = Name (renamed a)) by (unfold a'; case_bool_decide; auto).
  assert (Hfresh : Name a' ∉ taken).
  { unfold a'. case_bool_decide as E; [|done]. intros Hx. destruct (Ht _ Hx) as (b & Hb & Eb). destruct (Hc a b) as [C1 C2]; [apply elem_of_app; right; by left|apply elem_of_app; by left| |destruct Eb; congruence].
    rewrite map_app, NoDup_app in Hn. destruct Hn as (_ & Hn & _). intros Ei. apply (Hn (ID b)); [by apply (list_elem_of_fmap_2 ID)|]. rewrite <- Ei. by left. }
  destruct (IH (done_ ++ [a]) ({[Name a']} ∪ taken)) as [H1 H2]; [by rewrite <- app_assoc|by rewrite <- app_assoc| |].
  { intros x [Hx%elem_of_singleton|Hx]%elem_of_union; [exists a; split; [apply elem_of_app; right; by left|subst x; done]|]. destruct (Ht x Hx) as (b & Hb & Eb). exists b. split; [apply elem_of_app; by left|done]. }
  cbn [map]. split.
  - apply NoDup_cons. split; [|done]. intros Hx. destruct (H2 _ Hx). apply elem_of_union_l. by apply elem_of_singleton.
  - intros x [->|Hx]%elem_of_cons; [done|]. pose proof (H2 x Hx) as Hu. apply not_elem_of_union in Hu. tauto.
Qed.

Lemma unique_names_by_id taken out id : Ref <$> by_id (unique_names taken out) !! id = Ref <$> by_id out !! id.
Proof.
  unfold by_id. cut (forall m m' : gmap UUID Attachment, Ref <$> m !! id = Ref <$> m' !! id -> Ref <$> fold_left (fun m a => <[ID a := a]> m) (unique_names taken out) m !! id = Ref <$> fold_left (fun m a => <[ID a := a]> m) out m' !! id); [intros C; by apply C|].
  revert taken. induction out as [|a out IH]; intros taken m m' E; [done|]. cbn [unique_names fold_left]. apply IH. case_bool_decide; cbn [renamed ID]; (destruct (decide (ID a = id)) as [<-|Hd]; [by rewrite !lookup_insert_eq|by rewrite !lookup_insert_ne]).
Qed.

Lemma merge_ids_by_id base ours theirs id : by_id (merge_ids base ours theirs) !! id = decided base ours theirs id.
Proof.
  apply option_eq. intros a. rewrite by_id_Some by apply merge_ids_ids. rewrite merge_ids_elem. split; [by intros [E <-]|]. intros E. pose proof (decided_id _ _ _ _ _ E) as Ei. by rewrite Ei.
Qed.

(** Merging the attachments of a document decides each one by its identifier: a side that
    left it as the base had it takes what the other made of it; when both changed it one of
    the versions is kept, and never a removal over a version.  Both parents of a merge in
    either order give the same set.  Names nobody contests are kept, and names are unique
    unless the new name of a renamed attachment is the name of another one. *)
Theorem merge_converges base ours theirs : same_schemes ours theirs ->
  let r := mergeAttachmentSets base ours theirs in
  mergeAttachmentSets base theirs ours = r /\
  (forall id, let b := by_id base !! id in let o := by_id ours !! id in let t := by_id theirs !! id in let d := decided base ours theirs id in
    Ref <$> by_id r !! id = Ref <$> d /\ (o = b -> d = t) /\ (t = b -> d = o) /\ (d = o \/ d = t) /\ (o <> b -> t <> b -> is_Some o \/ is_Some t -> is_Some d)) /\
  (NoDup (map Name (merge_ids base ours theirs)) -> forall id, by_id r !! id = decided base ours theirs id) /\
  (rename_clear (merge_ids base ours theirs) -> NoDup (map Name r)).
Proof.
  intros Hs r. split_and!.
  - unfold r, mergeAttachmentSets. by rewrite (merge_ids_sym base ours theirs).
  - intros id b o t d. destruct (merge_one_spec b o t) as (H1 & H2 & H3 & H4). split_and!; [|done|done| |done].
    + unfold r, mergeAttachmentSets. by rewrite unique_names_by_id, merge_ids_by_id.
    + unfold d, decided. destruct (decide (o = b)) as [E|E]; [right; by apply H1|]. destruct (decide (t = b)) as [E'|E']; [left; by apply H2|]. by apply H3.
  - intros Hn id. unfold r, mergeAttachmentSets. rewrite unique_names_kept; [apply merge_ids_by_id|done|]. intros a _. apply not_elem_of_empty.
  - intros Hc. apply (unique_names_distinct [] ∅); [apply merge_ids_ids|done|]. intros x Hx. by apply not_elem_of_empty in Hx.
Qed.

Definition attached (id : Z) (name : bytes) : Attachment := mkAttachment (mkUUID 0 id) name (mkRef 1 (mkHash (repeat "000"%byte 32)) 0 []).

Lemma merge_converges_witness :
  let ours := [attached 1 (str "a"); attached 2 (str "b")] in
  let theirs := [attached 1 (str "c")] in
  same_schemes ours theirs /\ mergeAttachmentSets [] theirs ours = mergeAttachmentSets [] ours theirs.
Proof.
  intros ours theirs. assert (H : same_schemes ours theirs).
  { intros a b Ha Hb _. apply elem_of_cons in Hb as [->|Hb]; [|by apply not_elem_of_nil in Hb]. apply elem_of_cons in Ha as [->|Ha]; [reflexivity|]. apply elem_of_cons in Ha as [->|Ha]; [reflexivity|by apply not_elem_of_nil in Ha]. }
  split; [exact H|]. apply (merge_converges [] ours theirs H).
Defined.

(** ** What renaming leaves unchecked *)

(** The new name of an attachment can be the name of one that came before it: the merge of
    two sets of attachments with different names has two attachments of one name. *)
Theorem rename_collides : exists ours theirs,
  NoDup (map Name ours) /\ NoDup (map Name theirs) /\ Forall (fun a => ValidateAttachmentName (Name a) = None) (ours ++ theirs) /\
  map Name (mergeAttachmentSets [] ours theirs) = [str "a~00000000"; str "a"; str "a~00000000"].
Proof.
  exists [attached 1 (str "a~00000000"); attached 2 (str "a")], [attached 3 (str "a")]. split_and!; [|apply NoDup_singleton|by repeat constructor|vm_compute; reflexivity].
  apply NoDup_cons. split; [|apply NoDup_singleton]. by intros E%list_elem_of_singleton.
Qed.

(** A name cut to the bound can end inside a character, and is then no attachment name. *)
Theorem rename_cuts_character : exists ours theirs,
  Forall (fun a => ValidateAttachmentName (Name a) = None) (ours ++ theirs) /\
  exists a, a ∈ mergeAttachmentSets [] ours theirs /\ ValidateAttachmentName (Name a) = Some NameNotUtf8.
Proof.
  set (name := repeat "a"%byte 245 ++ [xc3; xa9; xc3; xa9]). exists [attached 1 name], [attached 2 name]. split; [by repeat constructor; vm_compute|].
  exists (renamed (attached 2 name)). split; [|vm_compute; reflexivity]. assert (mergeAttachmentSets [] [attached 1 name] [attached 2 name] = [attached 1 name; renamed (attached 2 name)]) as -> by (vm_compute; reflexivity). right. by left.
Qed.

End AttachmentMerge.
