(* ===== verification/DagAttachments.v ===== *)
(** The attachment tables of the commits: [dag/attachments.go].

    A commit records the root of its attachment table; the table itself is its first parent's
    with the operations of the commit applied.  Tables are cached by root, and one that is not
    cached is rebuilt from the nearest commit whose table is known, every step checked against
    the root the commit records.  The result is the table that the operations along the first
    parents make, and the root a new commit records is that of its table. *)

From S2P Require Import Prelude Primitives Schema KdbCodec CodecCorrect Document Sha256 Commit CommitDirect CommitCorrect TrieHash Trie TrieCorrect TrieWalk TrieBulk DocumentTree TreeMap Utf8 Walk Numbering Paint Dag AttachmentHash AttachmentSet AttachmentPool AttachmentTable AttachmentMerge.
Import Primitives Document Commit CommitDirect Dag DocumentTree TreeMap AttachmentHash AttachmentSet AttachmentPool AttachmentTable AttachmentMerge.

Module DagAttachments.

Definition attachmentCacheSize : nat := 64.

(** The attachment part of the graph.  Every table has its sets in [cpool], which is made when
    it is first needed; [sawAttachments] is the graph's flag that a table was seeded or a commit
    with attachments was stored. *)
Record attachmentCache (W : Type) := mkCache {
  cpool : option (AttachmentSetPool W);
  tables : gmap Hash AttachmentTable;
  order : list Hash;
  pinned : gmap Hash AttachmentTable;
  sawAttachments : bool;
}.
Arguments mkCache {_} _ _ _ _ _.
Arguments cpool {_} _.
Arguments tables {_} _.
Arguments order {_} _.
Arguments pinned {_} _.
Arguments sawAttachments {_} _.

Inductive table_error :=
  | NotPresent (commit : Hash)
  | RootDiffers (commit : Hash) (got : option Hash) (want : Hash)
  | TableFailed (e : attach_error).

Section tables.
Context {W : Type} `{AttachmentSetStore W}.

Abbreviation cache := (attachmentCache W).

Definition cache_get (k : cache) (root : Hash) : option AttachmentTable :=
  match pinned k !! root with Some t => Some t | None => tables k !! root end.

Definition setPool (k : cache) : AttachmentSetPool W := match cpool k with Some p => p | None => NewAttachmentSetPool None 0 end.
Definition with_pool (p : AttachmentSetPool W) (k : cache) : cache := mkCache (Some p) (tables k) (order k) (pinned k) (sawAttachments k).

(** The oldest tables go while there are too many. *)
Fixpoint trim (n : nat) (ts : gmap Hash AttachmentTable) (o : list Hash) : gmap Hash AttachmentTable * list Hash :=
  match n, o with
  | S n, h :: o => trim n (delete h ts) o
  | _, _ => (ts, o)
  end.

Definition cache_put (root : Hash) (t : AttachmentTable) (k : cache) : cache :=
  match tables k !! root with
  | Some _ => k
  | None =>
    let o := order k ++ [root] in
    let '(ts, o) := trim (length o - attachmentCacheSize) (<[root := t]> (tables k)) o in
    mkCache (cpool k) ts o (pinned k) (sawAttachments k)
  end.

Definition pin (root : Hash) (t : AttachmentTable) (k : cache) : cache := mkCache (cpool k) (tables k) (order k) (<[root := t]> (pinned k)) (sawAttachments k).
Definition saw (k : cache) : cache := mkCache (cpool k) (tables k) (order k) (pinned k) true.

(** Storing a commit notes that there are attachments. *)
Definition note_commit (c : Commit) (k : cache) : cache := match AttachmentTreeHash c with Some _ => saw k | None => k end.

(** The commits whose tables must be built, newest first, and the table to start from. *)
Fixpoint unknown_tables (fuel : nat) (d : InMemoryCommitDag) (k : cache) (at_ : Hash) (chain : list Commit) : go table_error (AttachmentTable * list Commit) :=
  match fuel with
  | O => Panic
  | S fuel =>
    match commitLocked d at_ with
    | None => Err (NotPresent at_)
    | Some c =>
      match AttachmentTreeHash c with
      | None => Ok (Empty, chain)
      | Some root =>
        match cache_get k root with
        | Some t => Ok (t, chain)
        | None =>
          match ParentHashes c with
          | [] => Ok (Empty, chain ++ [c])
          | p :: _ => unknown_tables fuel d k p (chain ++ [c])
          end
        end
      end
    end
  end.

(** Building them, the oldest first. *)
Fixpoint replay (cs : list Commit) (t : AttachmentTable) (k : cache) : go table_error AttachmentTable * cache :=
  match cs with
  | [] => (Ok t, k)
  | c :: cs =>
    match Apply t (Operations c) (setPool k) with
    | (Err e, p) => (Err (TableFailed e), with_pool p k)
    | (Panic, p) => (Panic, with_pool p k)
    | (Ok next, p) =>
      let k := with_pool p k in
      match AttachmentTreeHash c with
      | Some want =>
        if bool_decide (Root next = Some want) then replay cs next (cache_put want next k)
        else (Err (RootDiffers (CommitHash c) (Root next) want), k)
      | None => (Panic, k)
      end
    end
  end.

(** Along first parents no commit is met twice, so there are no more steps than commits. *)
Definition attachmentTableLocked (d : InMemoryCommitDag) (h : Hash) (k : cache) : go table_error AttachmentTable * cache :=
  match unknown_tables (S (base.size (nodes d))) d k h [] with
  | Err e => (Err e, k)
  | Panic => (Panic, k)
  | Ok (t, chain) => replay (rev chain) t k
  end.

(** ** Tables from elsewhere *)

(** [InPool] for a table over another pool: every set is read from [src] and put into [p].
    [order] is the order in which a map-backed tree is walked. *)
Definition InPool (ord : list (UUID * Hash)) (t : AttachmentTable) (src p : AttachmentSetPool W) : ares AttachmentTable * AttachmentSetPool W * AttachmentSetPool W :=
  if Documents t =? 0 then (Ok Empty, src, p)
  else
    let '(r, src, p) := DocumentTree.Walk ord (fun '(r, src, p) e =>
        match get e.2 src with
        | (Ok s, src) => match put s p with
          | (Ok _, p) => ((r, src, p), true)
          | (Err e, p) => ((Err e, src, p), false)
          | (Panic, p) => ((Panic, src, p), false)
          end
        | (Err e, src) => ((Err e, src, p), false)
        | (Panic, src) => ((Panic, src, p), false)
        end) (Ok tt, src, p) (tree t) in
    match r with Ok _ => (Ok t, src, p) | Err e => (Err e, src, p) | Panic => (Panic, src, p) end.

(** A table that is handed to the graph: over the graph's own pool, or over another one.  What
    reading does to the recency of the other pool is not kept. *)
Inductive staged_table :=
  | OwnTable (t : AttachmentTable)
  | OtherTable (ord : list (UUID * Hash)) (t : AttachmentTable) (src : AttachmentSetPool W).
Definition staged (s : staged_table) : AttachmentTable := match s with OwnTable t | OtherTable _ t _ => t end.

Definition own (s : staged_table) (k : cache) : ares AttachmentTable * cache :=
  match s with
  | OwnTable t => (Ok (if Documents t =? 0 then Empty else t), with_pool (setPool k) k)
  | OtherTable ord t src => let '(r, _, p) := InPool ord t src (setPool k) in (r, with_pool p k)
  end.

(** A transaction on [parents]: the root of the table it carries, or else of the table that its
    operations make. *)
Definition attachmentRootLocked (carried : option staged_table) (d : InMemoryCommitDag) (ops : list Op) (parents : list Hash) (k : cache) : go table_error (option Hash) * cache :=
  match carried with
  | Some s =>
    match Root (staged s) with
    | Some root =>
      match own s k with
      | (Err e, k) => (Err (TableFailed e), k)
      | (Panic, k) => (Panic, k)
      | (Ok owned, k) => (Ok (Some root), cache_put root owned k)
      end
    | None => (Ok None, k)
    end
  | None =>
  let inherited := match parents with [] => None | p :: _ => match commitLocked d p with Some c => AttachmentTreeHash c | None => None end end in
  if negb (TouchesAttachments ops (bool_decide (is_Some inherited))) then (Ok inherited, k)
  else
    let '(base, k) := match inherited, parents with
      | Some _, p :: _ => attachmentTableLocked d p k
      | _, _ => (Ok Empty, k)
      end in
    match base with
    | Err e => (Err e, k)
    | Panic => (Panic, k)
    | Ok base =>
      match Apply base ops (setPool k) with
      | (Err e, p) => (Err (TableFailed e), with_pool p k)
      | (Panic, p) => (Panic, with_pool p k)
      | (Ok next, p) =>
        let k := with_pool p k in
        match Root next with
        | Some root => (Ok (Some root), cache_put root next k)
        | None => (Ok None, k)
        end
      end
    end
  end.

Definition SeedAttachmentTable (s : staged_table) (k : cache) : ares unit * cache :=
  match Root (staged s) with
  | None => (Ok tt, k)
  | Some root =>
    match own s k with
    | (Ok owned, k) => (Ok tt, saw (pin root owned k))
    | (Err e, k) => (Err e, k)
    | (Panic, k) => (Panic, k)
    end
  end.

Definition forget_step (d : InMemoryCommitDag) (old : gmap Hash AttachmentTable) (acc : gmap Hash AttachmentTable * list Hash) (h : Hash) : gmap Hash AttachmentTable * list Hash :=
  match commitLocked d h ≫= AttachmentTreeHash with
  | None => acc
  | Some root =>
    match old !! root with
    | None => acc
    | Some t => match acc.1 !! root with Some _ => acc | None => (<[root := t]> acc.1, acc.2 ++ [root]) end
    end
  end.
Definition ForgetAttachmentTablesExcept (d : InMemoryCommitDag) (keep : list Hash) (k : cache) : cache :=
  let '(kept, o) := foldl (forget_step d (tables k)) (∅, []) keep in mkCache (cpool k) kept o (pinned k) (sawAttachments k).

(** ** Merging *)

(** The documents and the hashes of their sets. *)
Definition set_hashes (t : AttachmentTable) : gmap UUID Hash := if Documents t =? 0 then ∅ else MaterializedEntries (tree t).

Definition decided_docs (ops : list Op) : list UUID :=
  omap (fun op => match op with AttachmentPutOp doc _ _ _ _ _ _ | AttachmentDeleteOp doc _ => Some doc | _ => None end) ops.

(** The documents whose sets differ, without those the operations decide, in order. *)
Definition differing (ours theirs : AttachmentTable) (ops : list Op) : list UUID :=
  let o := set_hashes ours in
  let t := set_hashes theirs in
  isort uuidLess (List.filter (fun id => negb (bool_decide (o !! id = t !! id)) && negb (bool_decide (id ∈ decided_docs ops))) (elements (dom o ∪ dom t))).

Fixpoint merge_docs (base ours theirs : AttachmentTable) (contains : UUID -> bool) (docs : list UUID) (p : AttachmentSetPool W) : ares (list Op) * AttachmentSetPool W :=
  match docs with
  | [] => (Ok [], p)
  | doc :: docs =>
    let '(r, p) :=
      match List_ ours doc p with
      | (Err e, p) => (Err e, p)
      | (Panic, p) => (Panic, p)
      | (Ok o, p) =>
        if contains doc then
          match List_ base doc p with
          | (Err e, p) => (Err e, p)
          | (Panic, p) => (Panic, p)
          | (Ok b, p) =>
            match List_ theirs doc p with
            | (Err e, p) => (Err e, p)
            | (Panic, p) => (Panic, p)
            | (Ok t, p) => (Ok (AttachmentSetOps doc o (AttachmentMerge.mergeAttachmentSets b o t)), p)
            end
          end
        else (Ok (AttachmentSetOps doc o []), p)
      end in
    match r with
    | Err e => (Err e, p)
    | Panic => (Panic, p)
    | Ok ops => match merge_docs base ours theirs contains docs p with
                | (Ok rest, p) => (Ok (ops ++ rest), p)
                | x => x
                end
    end
  end.

(** The operations a commit with two parents carries for the attachments, unless its
    transaction carries a table.  [contains] is whether the merged tree has a document. *)
Definition mergeAttachmentOpsLocked (carried : option staged_table) (d : InMemoryCommitDag) (ops : list Op) (parents : list Hash) (contains : UUID -> bool) (k : cache) : go table_error (list Op) * cache :=
  match parents, carried with
  | [first; second], None =>
    if negb (sawAttachments k) then (Ok [], k)
    else
      match attachmentTableLocked d first k with
      | (Err e, k) => (Err e, k)
      | (Panic, k) => (Panic, k)
      | (Ok ours, k) =>
        match attachmentTableLocked d second k with
        | (Err e, k) => (Err e, k)
        | (Panic, k) => (Panic, k)
        | (Ok theirs, k) =>
          if bool_decide (Root ours = Root theirs) then (Ok [], k)
          else
            let '(base, k) := match (MergeBases [first] [second] d).1 with [] => (Ok Empty, k) | b :: _ => attachmentTableLocked d b k end in
            match base with
            | Err e => (Err e, k)
            | Panic => (Panic, k)
            | Ok base =>
              match merge_docs base ours theirs contains (differing ours theirs ops) (setPool k) with
              | (Ok ops, p) => (Ok ops, with_pool p k)
              | (Err e, p) => (Err (TableFailed e), with_pool p k)
              | (Panic, p) => (Panic, with_pool p k)
              end
            end
        end
      end
  | _, _ => (Ok [], k)
  end.

(** ** What the tables should hold *)

Definition rootOf (Ms : gmap UUID AttachmentSet) : option Hash := if bool_decide (Ms = ∅) then None else Some (TreeMap.tree_hash (set_Hash <$> Ms)).
Definition sets_ok (Ms : gmap UUID AttachmentSet) : Prop := map_Forall (fun _ s => set_ok s) Ms.

(** The attachments at a commit: nothing where it records no root, and else those of its first
    parent with its operations applied.  The number is how far back the walk goes. *)
Inductive history (d : InMemoryCommitDag) : nat -> Hash -> gmap UUID AttachmentSet -> Prop :=
  | history_none h c : commitLocked d h = Some c -> AttachmentTreeHash c = None -> history d 0 h ∅
  | history_root h c Ms : commitLocked d h = Some c -> AttachmentTreeHash c <> None -> ParentHashes c = [] ->
      spec_ops ∅ (Operations c) = Ok (by_id <$> Ms) -> sets_ok Ms -> history d 0 h Ms
  | history_step n h c q ps Ms0 Ms : commitLocked d h = Some c -> AttachmentTreeHash c <> None -> ParentHashes c = q :: ps -> history d n q Ms0 ->
      spec_ops (by_id <$> Ms0) (Operations c) = Ok (by_id <$> Ms) -> sets_ok Ms -> history d (S n) h Ms.

(** The commits record the roots of their tables. *)
Definition recorded (d : InMemoryCommitDag) : Prop := forall n h c Ms, history d n h Ms -> commitLocked d h = Some c -> AttachmentTreeHash c = rootOf Ms.
(** Commits with the same root have the same attachments. *)
Definition roots_identify (d : InMemoryCommitDag) : Prop := forall n h Ms n' h' Ms', history d n h Ms -> history d n' h' Ms' -> rootOf Ms = rootOf Ms' -> Ms = Ms'.

Lemma sets_ok_inj Ms Ms' : sets_ok Ms -> sets_ok Ms' -> by_id <$> Ms = by_id <$> Ms' -> Ms = Ms'.
Proof.
  intros F F' E. apply map_eq. intros doc. pose proof (f_equal (.!! doc) E) as Ed. cbn beta in Ed. rewrite !lookup_fmap in Ed.
  destruct (Ms !! doc) as [s|] eqn:E1, (Ms' !! doc) as [s'|] eqn:E2; [|done..]. apply (inj Some) in Ed. f_equal. apply set_ext; [by apply (F doc)|by apply (F' doc)|done].
Qed.

Lemma history_unique d n h Ms n' Ms' : history d n h Ms -> history d n' h Ms' -> n = n' /\ Ms = Ms'.
Proof.
  intros H1. revert n' Ms'. induction H1 as [h c E Er|h c Ms E Er Ep Eo Ho|n h c q ps Ms0 Ms E Er Ep H1 IH Eo Ho]; intros n' Ms' H2; destruct H2 as [h c' E' Er'|h c' Ms' E' Er' Ep' Eo' Ho'|n' h c' q' ps' Ms0' Ms' E' Er' Ep' H2 Eo' Ho'];
    rewrite E in E'; injection E' as <-; try congruence.
  - done.
  - split; [done|]. apply sets_ok_inj; [done|done|congruence].
  - rewrite Ep in Ep'. injection Ep' as <- <-. destruct (IH _ _ H2) as [-> ->]. split; [done|]. apply sets_ok_inj; [done|done|congruence].
Qed.

(** The commits on the way back. *)
Lemma history_nodes d n h Ms : history d n h Ms -> exists X : gset Hash, (n < base.size X)%nat /\ X ⊆ dom (nodes d) /\ forall x, x ∈ X -> exists m M, (m <= n)%nat /\ history d m x M.
Proof.
  assert (Hin : forall h c, commitLocked d h = Some c -> h ∈ dom (nodes d)). { intros x c. unfold commitLocked. rewrite elem_of_dom. destruct (nodes d !! x); [by eexists|done]. }
  induction 1 as [h c E Er|h c Ms E Er Ep Eo Ho|n h c q ps Ms0 Ms E Er Ep H1 IH Eo Ho].
  - exists {[h]}. rewrite size_singleton. split_and!; [lia| |]; intros x Hx; apply elem_of_singleton in Hx as ->; [by eapply Hin|]. exists 0%nat, ∅. split; [done|]. by apply (history_none d h c).
  - exists {[h]}. rewrite size_singleton. split_and!; [lia| |]; intros x Hx; apply elem_of_singleton in Hx as ->; [by eapply Hin|]. exists 0%nat, Ms. split; [done|]. by apply (history_root d h c).
  - destruct IH as (X & Hs & Hd & Hx). assert (Hh : history d (S n) h Ms) by by eapply history_step. assert (Hnx : h ∉ X).
    { intros Hc. destruct (Hx h Hc) as (m & M & Hm & Hh'). destruct (history_unique d _ _ _ _ _ Hh Hh'). lia. }
    exists ({[h]} ∪ X). rewrite size_union by set_solver. rewrite size_singleton. split_and!; [lia| |].
    + apply union_subseteq. split; [|done]. intros x Hx'. apply elem_of_singleton in Hx' as ->. by eapply Hin.
    + intros x [->%elem_of_singleton|Hx']%elem_of_union; [by exists (S n), Ms|]. destruct (Hx x Hx') as (m & M & Hm & Hh'). exists m, M. split; [lia|done].
Qed.

Lemma history_bound d n h Ms : history d n h Ms -> (n < S (base.size (nodes d)))%nat.
Proof.
  intros Hh. destruct (history_nodes d n h Ms Hh) as (X & Hs & Hd & _). apply subseteq_size in Hd. rewrite size_dom in Hd. lia.
Qed.

(** ** The cache *)

Context `{!AttachmentSetStoreLaws W}.

Definition cached (k : cache) (root : Hash) (t : AttachmentTable) : Prop := pinned k !! root = Some t \/ tables k !! root = Some t.

(** A cached table holds the attachments of the commits that record its root. *)
Definition cache_ok (d : InMemoryCommitDag) (k : cache) : Prop :=
  pool_ok (setPool k) /\ stored_ok (setPool k) /\
  forall root t, cached k root t -> exists Ms, tbl t (setPool k) Ms /\ forall n h Mh, history d n h Mh -> rootOf Mh = Some root -> Mh = Ms.

Lemma cache_get_cached k root t : cache_get k root = Some t -> cached k root t.
Proof. unfold cache_get, cached. destruct (pinned k !! root); auto. Qed.

Lemma trim_sub n ts o root t : (trim n ts o).1 !! root = Some t -> ts !! root = Some t.
Proof. revert ts o. induction n as [|n IH]; intros ts [|h o]; cbn [trim]; [done..|]. intros E%IH. by apply lookup_delete_Some in E as [_ E]. Qed.

Lemma cached_put k root t root' t' : cached (cache_put root t k) root' t' -> cached k root' t' \/ (root' = root /\ t' = t).
Proof.
  unfold cache_put. destruct (tables k !! root); [by left|]. pose proof (trim_sub (length (order k ++ [root]) - attachmentCacheSize) (<[root := t]> (tables k)) (order k ++ [root]) root' t') as Ht.
  destruct (trim _ _ _) as [ts o]. unfold cached. cbn [pinned tables fst] in *. intros [E|E]; [by left; left|]. apply Ht, lookup_insert_Some in E as [[<- <-]|[_ E]]; [by right|by left; right].
Qed.

Lemma setPool_put root t k : setPool (cache_put root t k) = setPool k.
Proof. unfold cache_put. destruct (tables k !! root); [done|]. by destruct (trim _ _ _). Qed.

(** The pool goes on, and keeps its sets. *)
Lemma cache_ok_pool d k p : cache_ok d k -> pool_ok p -> stored_ok p -> (forall s, holds (setPool k) s -> holds p s) -> cache_ok d (with_pool p k).
Proof.
  intros (_ & _ & Hc) Hp Hs Hh. split_and!; [done|done|]. intros root t Hk. destruct (Hc root t Hk) as (Ms & Ht & Hm). exists Ms. split; [|done]. by apply (tbl_mono t (setPool k)).
Qed.

Lemma cache_ok_put d k root t Ms : cache_ok d k -> tbl t (setPool k) Ms -> (forall n h Mh, history d n h Mh -> rootOf Mh = Some root -> Mh = Ms) -> cache_ok d (cache_put root t k).
Proof.
  intros (Hp & Hs & Hc) Ht Hm. unfold cache_ok. rewrite setPool_put. split_and!; [done|done|]. intros root' t' [Hk|[-> ->]]%cached_put; [by apply Hc|by exists Ms].
Qed.

Lemma tbl_Root t p Ms : tbl t p Ms -> Root t = rootOf Ms.
Proof. apply tbl_root. Qed.
Lemma tbl_sets_ok t p Ms : tbl t p Ms -> sets_ok Ms.
Proof. intros (_ & _ & _ & _ & F) doc s E. by destruct (F doc s E) as (_ & [? _] & _). Qed.

Lemma Empty_tbl p : pool_ok p -> stored_ok p -> tbl Empty p ∅.
Proof. intros Hp Hs. split_and!; [done|done| |done|apply map_Forall_empty]. rewrite fmap_empty. split_and!; [apply map_Forall_empty|done|]. split; [done|]. by right. Qed.

(** ** Rebuilding *)

(** The operations of commits, the oldest first, from one set of attachments to another. *)
Fixpoint builds (d : InMemoryCommitDag) (Ms0 : gmap UUID AttachmentSet) (cs : list Commit) (Ms : gmap UUID AttachmentSet) : Prop :=
  match cs with
  | [] => Ms0 = Ms
  | c :: cs => exists Ms1 n h, commitLocked d h = Some c /\ history d n h Ms1 /\ AttachmentTreeHash c <> None /\ spec_ops (by_id <$> Ms0) (Operations c) = Ok (by_id <$> Ms1) /\ builds d Ms1 cs Ms
  end.

Lemma builds_snoc d Ms0 cs Ms1 c Ms n h : builds d Ms0 cs Ms1 -> commitLocked d h = Some c -> history d n h Ms -> AttachmentTreeHash c <> None -> spec_ops (by_id <$> Ms1) (Operations c) = Ok (by_id <$> Ms) -> builds d Ms0 (cs ++ [c]) Ms.
Proof.
  revert Ms0. induction cs as [|c' cs IH]; intros Ms0 Hb Hc Hh Hr Ho; cbn [builds app] in *; [subst; by exists Ms, n, h|]. destruct Hb as (M & n' & h' & ? & ? & ? & ? & Hb). exists M, n', h'. auto 6.
Qed.

Lemma unknown_spec d k h n Ms fuel chain : history d n h Ms -> recorded d -> cache_ok d k -> (n < fuel)%nat ->
  exists t cs Ms0, unknown_tables fuel d k h chain = Ok (t, chain ++ cs) /\ tbl t (setPool k) Ms0 /\ builds d Ms0 (rev cs) Ms.
Proof.
  intros Hh Hrec Hk. revert fuel chain. pose proof Hk as (Hp & Hs & Hc). induction Hh as [h c E Er|h c Ms E Er Ep Eo Ho|n h c q ps Ms0 Ms E Er Ep Hh IH Eo Ho]; intros fuel chain Hf; (destruct fuel as [|fuel]; [lia|]); cbn [unknown_tables]; rewrite E.
  - rewrite Er. exists Empty, [], ∅. rewrite app_nil_r. split_and!; [done|by apply Empty_tbl|done].
  - destruct (AttachmentTreeHash c) as [root|] eqn:Ea; [|done]. assert (Hh : history d 0 h Ms) by (eapply history_root; eauto; congruence). assert (Hr : rootOf Ms = Some root) by (rewrite <- (Hrec _ _ _ _ Hh E); done).
    destruct (cache_get k root) as [t|] eqn:Eg.
    + destruct (Hc root t (cache_get_cached _ _ _ Eg)) as (M & Ht & Hm). exists t, [], M. rewrite app_nil_r. split_and!; [done|done|]. cbn. symmetry. by apply (Hm 0%nat h).
    + rewrite Ep. exists Empty, [c], ∅. split_and!; [done|by apply Empty_tbl|]. cbn [rev app builds]. exists Ms, 0%nat, h. split_and!; [done|done|congruence|by rewrite fmap_empty|done].
  - destruct (AttachmentTreeHash c) as [root|] eqn:Ea; [|done]. assert (Hh' : history d (S n) h Ms) by (eapply history_step; eauto; congruence). assert (Hr : rootOf Ms = Some root) by (rewrite <- (Hrec _ _ _ _ Hh' E); done).
    destruct (cache_get k root) as [t|] eqn:Eg.
    + destruct (Hc root t (cache_get_cached _ _ _ Eg)) as (M & Ht & Hm). exists t, [], M. rewrite app_nil_r. split_and!; [done|done|]. cbn. symmetry. by apply (Hm (S n) h).
    + rewrite Ep. destruct (IH fuel (chain ++ [c]) ltac:(lia)) as (t & cs & M & Eu & Ht & Hb). exists t, (c :: cs), M. rewrite Eu, <- app_assoc. split_and!; [done|done|]. cbn [rev]. apply (builds_snoc d M (rev cs) Ms0 c Ms (S n) h); [done|done|done|congruence|done].
Qed.

(** Every set that rebuilding puts into the pool is a slice and has not the hash of another. *)
Fixpoint replay_safe (cs : list Commit) (t : AttachmentTable) (p : AttachmentSetPool W) : Prop :=
  match cs with
  | [] => True
  | c :: cs => Forall op_ok (Operations c) /\ run_safe t (Operations c) p /\ match Apply t (Operations c) p with (Ok t, p) => replay_safe cs t p | _ => True end
  end.

Definition outcome (d : InMemoryCommitDag) (k : cache) (Ms : gmap UUID AttachmentSet) (res : go table_error AttachmentTable * cache) : Prop :=
  let '(r, k') := res in cache_ok d k' /\ (forall s, holds (setPool k) s -> holds (setPool k') s) /\
  match r with
  | Ok t => tbl t (setPool k') Ms
  | Err (TableFailed e) => store_failed e
  | _ => False
  end.

Lemma replay_spec d cs t k Ms0 Ms : recorded d -> roots_identify d -> cache_ok d k -> tbl t (setPool k) Ms0 -> builds d Ms0 cs Ms -> replay_safe cs t (setPool k) -> outcome d k Ms (replay cs t k).
Proof.
  intros Hrec Hid. revert t k Ms0. induction cs as [|c cs IH]; intros t k Ms0 Hk Ht Hb Hsafe; cbn [builds replay replay_safe] in *; [subst; by split_and!|].
  destruct Hb as (Ms1 & n & h & Ec & Hh & Hr & Eo & Hb). destruct Hsafe as (Hops & Hrun & Hsafe). pose proof (Apply_refines t (setPool k) Ms0 (Operations c) Ht Hops Hrun) as R. unfold refines in R.
  destruct (Apply t (Operations c) (setPool k)) as [[next|e|] p]; destruct R as (Hp & Hs & Hh' & R); [| |done].
  2:{ split_and!; [by apply cache_ok_pool|done|]. destruct R as [R|R]; [done|congruence]. }
  destruct R as (Ms1' & Ht' & Eo'). assert (Ms1' = Ms1) as ->. { rewrite Eo in Eo'. injection Eo' as Eo'. symmetry. apply sets_ok_inj; [|by eapply tbl_sets_ok|done]. by inversion Hh. }
  pose proof (Hrec _ _ _ _ Hh Ec) as Er. destruct (AttachmentTreeHash c) as [want|] eqn:Ea; [|done]. rewrite bool_decide_eq_true_2 by (rewrite (tbl_Root next p Ms1); done).
  assert (Hk' : cache_ok d (cache_put want next (with_pool p k))).
  { apply (cache_ok_put d (with_pool p k) want next Ms1); [by apply cache_ok_pool|done|]. intros n' h' Mh Hh1 E1. apply (Hid _ _ _ _ _ _ Hh1 Hh). congruence. }
  pose proof (IH next (cache_put want next (with_pool p k)) Ms1 Hk') as IH'. rewrite setPool_put in IH'. specialize (IH' Ht' Hb Hsafe). unfold outcome in *. destruct (replay cs next _) as [r k']. destruct IH' as (? & Hh2 & ?). split_and!; [done| |done].
  intros s Hs'. apply Hh2. rewrite setPool_put. by apply Hh'.
Qed.

Definition table_safe (d : InMemoryCommitDag) (h : Hash) (k : cache) : Prop :=
  match unknown_tables (S (base.size (nodes d))) d k h [] with Ok (t, chain) => replay_safe (rev chain) t (setPool k) | _ => True end.

Lemma attachmentTable_spec d h n Ms k : history d n h Ms -> recorded d -> roots_identify d -> cache_ok d k -> table_safe d h k -> outcome d k Ms (attachmentTableLocked d h k).
Proof.
  intros Hh Hrec Hid Hk Hsafe. unfold attachmentTableLocked, table_safe in *. destruct (unknown_spec d k h n Ms (S (base.size (nodes d))) [] Hh Hrec Hk (history_bound _ _ _ _ Hh)) as (t & cs & Ms0 & E & Ht & Hb). rewrite E in *.
  by apply (replay_spec d (rev ([] ++ cs)) t k Ms0 Ms).
Qed.

(** ** Nothing but the recorded table *)

Definition keyed (k : cache) : Prop := forall root t, cached k root t -> Root t = Some root.

Lemma keyed_put root t k : keyed k -> Root t = Some root -> keyed (cache_put root t k).
Proof. intros Hk Hr root' t' [Hc|[-> ->]]%cached_put; auto. Qed.

(** The root wanted after replaying [cs]. *)
Lemma replay_root cs t k t' k' : keyed k -> replay cs t k = (Ok t', k') -> keyed k' /\ Root t' = match last cs with Some c => AttachmentTreeHash c | None => Root t end.
Proof.
  revert t k. induction cs as [|c cs IH]; intros t k Hk E; cbn [replay] in E; [by injection E as <- <-|]. destruct (Apply t (Operations c) (setPool k)) as [[next|e|] p]; [|done..].
  destruct (AttachmentTreeHash c) as [want|] eqn:Ea; [|done]. case_bool_decide as Er; [|done]. apply IH in E as [Hk' E]; [|by apply keyed_put]. split; [done|]. rewrite E. destruct cs as [|c' cs]; [cbn; congruence|]. change (last (c :: c' :: cs)) with (last (c' :: cs)). destruct (last (c' :: cs)) eqn:El; [done|by apply last_None in El].
Qed.

Lemma unknown_root fuel d k h chain t cs : keyed k -> unknown_tables fuel d k h chain = Ok (t, cs) ->
  exists cs', cs = chain ++ cs' /\ exists c, commitLocked d h = Some c /\ match cs' with [] => Root t = AttachmentTreeHash c | c' :: _ => c' = c end.
Proof.
  intros Hk. revert h chain. induction fuel as [|fuel IH]; intros h chain E; [done|]. cbn [unknown_tables] in E. destruct (commitLocked d h) as [c|] eqn:Ec; [|done].
  destruct (AttachmentTreeHash c) as [root|] eqn:Ea; [|injection E as <- <-; exists []; rewrite app_nil_r; split; [done|]; by exists c].
  destruct (cache_get k root) as [t0|] eqn:Eg; [injection E as <- <-; exists []; rewrite app_nil_r; split; [done|]; exists c; split; [done|]; rewrite Ea; by apply Hk, cache_get_cached|].
  destruct (ParentHashes c) as [|q ps]; [injection E as <- <-; exists [c]; split; [done|]; by exists c|]. apply IH in E as (cs' & -> & c' & Ec' & _). exists (c :: cs'). rewrite <- app_assoc. split; [done|]. by exists c.
Qed.

Lemma table_integrity d h k t k' : keyed k -> attachmentTableLocked d h k = (Ok t, k') -> keyed k' /\ exists c, commitLocked d h = Some c /\ Root t = AttachmentTreeHash c.
Proof.
  intros Hk E. unfold attachmentTableLocked in E. destruct (unknown_tables _ d k h []) as [[t0 cs]|e|] eqn:Eu; [|done..]. apply unknown_root in Eu as (cs' & -> & c & Ec & Hc); [|done]. apply replay_root in E as [Hk' E]; [|done]. split; [done|]. exists c. split; [done|].
  cbn [app] in E. rewrite E. destruct cs' as [|c' cs']; [done|]. subst c'. cbn [rev]. by rewrite last_snoc.
Qed.

(** ** The root of a new commit *)

Lemma spec_untouched A ops : TouchesAttachments ops (bool_decide (A <> ∅)) = false -> spec_ops A ops = Ok A.
Proof.
  unfold TouchesAttachments. induction ops as [|op ops IH]; [done|]. cbn [existsb spec_ops]. intros [E1 E2]%orb_false_iff. specialize (IH E2). destruct op; cbn [spec_op mbind go_bind]; try done.
  apply bool_decide_eq_false in E1. apply dec_stable in E1. subst A. by rewrite delete_empty.
Qed.

Definition root_outcome (d : InMemoryCommitDag) (A : gmap UUID (gmap UUID Attachment)) (ops : list Op) (res : go table_error (option Hash) * cache) : Prop :=
  let '(r, k') := res in
  match r with
  | Ok root => cache_ok d k' /\ exists Ms', spec_ops A ops = Ok (by_id <$> Ms') /\ sets_ok Ms' /\ root = rootOf Ms'
  | Err (TableFailed e) => store_failed e \/ spec_ops A ops = Err e
  | _ => False
  end.

Definition root_safe (d : InMemoryCommitDag) (ops : list Op) (h : Hash) (k : cache) : Prop :=
  table_safe d h k /\ Forall op_ok ops /\ match attachmentTableLocked d h k with (Ok t, k') => run_safe t ops (setPool k') | _ => True end.

Lemma attachmentRoot_spec d ops h n Ms k : history d n h Ms -> recorded d -> roots_identify d -> cache_ok d k -> root_safe d ops h k ->
  (forall m h' Mh Ms', history d m h' Mh -> spec_ops (by_id <$> Ms) ops = Ok (by_id <$> Ms') -> sets_ok Ms' -> rootOf Mh = rootOf Ms' -> Mh = Ms') ->
  root_outcome d (by_id <$> Ms) ops (attachmentRootLocked None d ops [h] k).
Proof.
  intros Hh Hrec Hid Hk (Hts & Hops & Hrun) Hfresh. assert (exists c, commitLocked d h = Some c) as [c Ec] by (inversion Hh; eauto). pose proof (Hrec _ _ _ _ Hh Ec) as Er. assert (Hok : sets_ok Ms) by (inversion Hh; subst; [apply map_Forall_empty|done..]).
  unfold attachmentRootLocked. rewrite Ec. destruct (TouchesAttachments ops (bool_decide (is_Some (AttachmentTreeHash c)))) eqn:Et; cbn [negb].
  2:{ split; [done|]. exists Ms. split_and!; [|done|done]. apply spec_untouched. rewrite <- Et. f_equal. apply bool_decide_ext. rewrite Er. unfold rootOf. rewrite fmap_empty_iff. destruct (decide (Ms = ∅)) as [Em|Em]; [rewrite bool_decide_eq_true_2 by done; split; [done|by intros []]|rewrite bool_decide_eq_false_2 by done; split; [intros _; by eexists|done]]. }
  assert (HB : outcome d k Ms (match AttachmentTreeHash c with Some _ => attachmentTableLocked d h k | None => (Ok Empty, k) end) /\ (match match AttachmentTreeHash c with Some _ => attachmentTableLocked d h k | None => (Ok Empty, k) end with (Ok t, k') => run_safe t ops (setPool k') | _ => True end)).
  { destruct (AttachmentTreeHash c) as [root|] eqn:Ea; [split; [by apply (attachmentTable_spec d h n Ms k)|done]|]. unfold rootOf in Er. destruct (decide (Ms = ∅)) as [->|Em]; [|by rewrite bool_decide_eq_false_2 in Er by done]. split.
    - split_and!; [done|done|]. by apply Empty_tbl; apply Hk.
    - assert (attachmentTableLocked d h k = (Ok Empty, k)) as E' by (unfold attachmentTableLocked; cbn [unknown_tables]; by rewrite Ec, Ea). by rewrite E' in Hrun. }
  destruct (match AttachmentTreeHash c with Some _ => attachmentTableLocked d h k | None => (Ok Empty, k) end) as [base k1]. destruct HB as [(Hk1 & Hh1 & HB) Hr1].
  destruct base as [base|e|]; [|destruct e; [done|done|by left]|done]. pose proof (Apply_refines base (setPool k1) Ms ops HB Hops Hr1) as R. unfold refines in R. destruct (Apply base ops (setPool k1)) as [[next|e|] p]; destruct R as (Hp & Hs & Hh2 & R); [|exact R|done].
  destruct R as (Ms' & Ht' & Eo). pose proof (tbl_sets_ok _ _ _ Ht') as Hok'. pose proof (tbl_Root _ _ _ Ht') as Er'. assert (Hk2 : cache_ok d (with_pool p k1)) by by apply cache_ok_pool.
  destruct (Root next) as [root|]; (split; [|by exists Ms']); [|done]. apply (cache_ok_put d (with_pool p k1) root next Ms'); [done|done|]. intros m h' Mh Hmh Emh. apply (Hfresh m h' Mh Ms' Hmh Eo Hok'). congruence.
Qed.

(** ** Merging two tables *)

Definition set_at (Ms : gmap UUID AttachmentSet) (doc : UUID) : AttachmentSet := default [] (Ms !! doc).
Definition doc_merge (MsB MsO MsT : gmap UUID AttachmentSet) (contains : UUID -> bool) (doc : UUID) : AttachmentSet :=
  if contains doc then AttachmentMerge.mergeAttachmentSets (set_at MsB doc) (set_at MsO doc) (set_at MsT doc) else [].
Definition doc_ops (MsB MsO MsT : gmap UUID AttachmentSet) (contains : UUID -> bool) (doc : UUID) : list Op :=
  AttachmentSetOps doc (set_at MsO doc) (doc_merge MsB MsO MsT contains doc).

Definition pool_step (p p' : AttachmentSetPool W) : Prop := pool_ok p' /\ stored_ok p' /\ forall s, holds p s -> holds p' s.

Lemma tbl_step t p p' Ms : tbl t p Ms -> pool_step p p' -> tbl t p' Ms.
Proof. intros Ht (? & ? & ?). by apply (tbl_mono t p). Qed.
Lemma pool_step_trans p q r : pool_step p q -> pool_step q r -> pool_step p r.
Proof. intros (_ & _ & H1) (? & ? & H2). split_and!; auto. Qed.

Lemma List_step t p Ms doc : tbl t p Ms -> uuid_wf doc -> let '(r, p') := List_ t doc p in pool_step p p' /\ (r = Ok (set_at Ms doc) \/ exists e, r = Err e /\ read_failed e).
Proof. intros Ht Hd. pose proof (List_spec t p Ms doc Ht Hd) as L. destruct (List_ t doc p) as [r p']. destruct L as (? & ? & ? & L). by split_and!. Qed.

Lemma merge_docs_spec base ours theirs contains docs p MsB MsO MsT : tbl base p MsB -> tbl ours p MsO -> tbl theirs p MsT -> Forall uuid_wf docs ->
  let '(r, p') := merge_docs base ours theirs contains docs p in
  pool_step p p' /\ (r = Ok (concat (map (doc_ops MsB MsO MsT contains) docs)) \/ exists e, r = Err e /\ read_failed e).
Proof.
  intros Hb Ho Ht Hd. revert p Hb Ho Ht. induction Hd as [|doc docs Hdoc Hd IH]; intros p Hb Ho Ht; cbn [merge_docs]; [pose proof Hb as (? & ? & _); split; [by split_and!|by left]|].
  assert (Fin : forall q, pool_step p q -> let '(r, p') := match merge_docs base ours theirs contains docs q with (Ok rest, p) => (Ok (doc_ops MsB MsO MsT contains doc ++ rest), p) | x => x end in
    pool_step p p' /\ (r = Ok (concat (map (doc_ops MsB MsO MsT contains) (doc :: docs))) \/ exists e, r = Err e /\ read_failed e)).
  { intros q Hq. specialize (IH q ltac:(by eapply tbl_step) ltac:(by eapply tbl_step) ltac:(by eapply tbl_step)). destruct (merge_docs base ours theirs contains docs q) as [r p']. destruct IH as [Hs [->|(e & -> & He)]]; (split; [by eapply pool_step_trans|]); [by left|right; eauto]. }
  unfold doc_ops at 1, doc_merge in Fin. pose proof (List_step ours p MsO doc Ho Hdoc) as L1. destruct (List_ ours doc p) as [r1 p1]. destruct L1 as [S1 [->|(e & -> & He)]]; [|split; [done|right; eauto]].
  destruct (contains doc); [|by apply Fin]. pose proof (List_step base p1 MsB doc (tbl_step _ _ _ _ Hb S1) Hdoc) as L2. destruct (List_ base doc p1) as [r2 p2]. destruct L2 as [S2 [->|(e & -> & He)]]; [|split; [by eapply pool_step_trans|right; eauto]].
  pose proof (pool_step_trans _ _ _ S1 S2) as S12. pose proof (List_step theirs p2 MsT doc (tbl_step _ _ _ _ Ht S12) Hdoc) as L3. destruct (List_ theirs doc p2) as [r3 p3]. destruct L3 as [S3 [->|(e & -> & He)]]; [|split; [by eapply pool_step_trans|right; eauto]].
  apply Fin. by eapply pool_step_trans.
Qed.

Lemma tbl_hashes t p Ms : tbl t p Ms -> set_hashes t = set_Hash <$> Ms.
Proof.
  intros (_ & _ & R & _). destruct (represents_reads _ _ R) as (Hz & Hm & _). unfold set_hashes, Documents. rewrite Hz, Hm. case (Z.eqb_spec (Z.of_nat (base.size (set_Hash <$> Ms))) 0); [|done]. intros E. symmetry. apply map_size_empty_inv. lia.
Qed.

Lemma tbl_doc_wf t p Ms doc : tbl t p Ms -> is_Some (Ms !! doc) -> uuid_wf doc.
Proof. intros (_ & _ & (Hm & _) & _) [s E]. destruct (Hm doc (set_Hash s)) as [? _]; [|done]. by rewrite lookup_fmap, E. Qed.

Lemma differing_elem ours theirs ops p MsO MsT doc : tbl ours p MsO -> tbl theirs p MsT ->
  doc ∈ differing ours theirs ops <-> set_Hash <$> MsO !! doc <> set_Hash <$> MsT !! doc /\ doc ∉ decided_docs ops.
Proof.
  intros Ho Ht. unfold differing. rewrite (tbl_hashes ours p MsO), (tbl_hashes theirs p MsT) by done. rewrite isort_perm, list_elem_of_In, List.filter_In, <- list_elem_of_In, elem_of_elements, elem_of_union, !elem_of_dom, !lookup_fmap, andb_true_iff, !negb_true_iff, !bool_decide_eq_false. split; [tauto|].
  intros [Hd Hn]. split; [|done]. destruct (MsO !! doc); [left; by eexists|]. destruct (MsT !! doc); [right; by eexists|done].
Qed.

Lemma differing_NoDup ours theirs ops : NoDup (differing ours theirs ops).
Proof. unfold differing. rewrite isort_perm. apply NoDup_ListNoDup, List.NoDup_filter, NoDup_ListNoDup, NoDup_elements. Qed.

(** The merged sets are sets of attachments that may be put. *)
Definition mergeable (doc : UUID) (s : AttachmentSet) : Prop := NoDup (map ID s) /\ NoDup (map Name s) /\ Forall (fun a => put_check doc a = None) s.

Definition no_empty (A : gmap UUID (gmap UUID Attachment)) : Prop := forall doc, A !! doc <> Some ∅.

Lemma set_of_no_empty A doc m : no_empty A -> no_empty (set_of A doc m).
Proof.
  intros Hn d. unfold set_of. destruct (decide (m = ∅)) as [->|Hm]; [intros [_ E]%lookup_delete_Some; by apply (Hn d)|]. intros [[_ E]|[_ E]]%lookup_insert_Some; [done|by apply (Hn d)].
Qed.
Lemma set_of_id A doc : no_empty A -> set_of A doc (of_doc A doc) = A.
Proof.
  intros Hn. unfold set_of, of_doc. destruct (A !! doc) as [m|] eqn:E; cbn [default from_option id].
  - rewrite decide_False; [by apply insert_id|]. intros ->. by apply (Hn doc).
  - rewrite decide_True by done. by apply delete_id.
Qed.
Lemma of_doc_other A doc m d : d <> doc -> of_doc (set_of A doc m) d = of_doc A d.
Proof. intros Hd. unfold of_doc, set_of. destruct (decide (m = ∅)); [by rewrite lookup_delete_ne|by rewrite lookup_insert_ne]. Qed.

Lemma spec_ops_app A ops ops' : spec_ops A (ops ++ ops') = A ← spec_ops A ops; spec_ops A ops'.
Proof. revert A. induction ops as [|op ops IH]; intros A; [done|]. cbn [app spec_ops]. destruct (spec_op A op) as [A'|e|]; cbn [mbind go_bind]; [apply IH|done..]. Qed.

Lemma merge_ops_spec (before after : UUID -> AttachmentSet) docs A : NoDup docs -> no_empty A ->
  (forall doc, doc ∈ docs -> of_doc A doc = by_id (before doc) /\ NoDup (map ID (before doc)) /\ mergeable doc (after doc)) ->
  exists A', spec_ops A (concat (map (fun doc => AttachmentSetOps doc (before doc) (after doc)) docs)) = Ok A' /\ no_empty A' /\
    (forall doc, of_doc A' doc = if decide (doc ∈ docs) then by_id (after doc) else of_doc A doc).
Proof.
  intros Hn. revert A. induction Hn as [|doc docs Hx Hn IH]; intros A Ha Hd; cbn [map concat].
  { exists A. split_and!; [done|done|]. intros doc. destruct (decide (doc ∈ [])) as [E|]; [by apply not_elem_of_nil in E|done]. }
  destruct (Hd doc ltac:(by left)) as (Eo & Hi & M1 & M2 & M3). rewrite spec_ops_app. pose proof (set_ops_spec A doc (before doc) (after doc) Hi M1 M2 M3) as E. rewrite <- Eo, set_of_id in E by done. rewrite E. cbn [mbind go_bind].
  destruct (IH (set_of A doc (by_id (after doc)))) as (A' & E' & Ha' & Hd'); [by apply set_of_no_empty| |].
  { intros d Hin. rewrite of_doc_other by by intros ->. apply Hd. by right. }
  exists A'. split_and!; [done|done|]. intros d. rewrite Hd'. destruct (decide (d = doc)) as [->|Hne].
  - rewrite (decide_False (P := doc ∈ docs)), (decide_True (P := doc ∈ doc :: docs)) by (done || by left). apply of_doc_set_of.
  - rewrite of_doc_other by done. destruct (decide (d ∈ docs)) as [Hin|Hin]; [by rewrite decide_True by by right|]. rewrite decide_False; [done|]. intros [|]%elem_of_cons; done.
Qed.

Lemma tbl_no_empty t p Ms : tbl t p Ms -> no_empty (by_id <$> Ms).
Proof.
  intros (_ & _ & _ & _ & F) doc E. rewrite lookup_fmap in E. destruct (Ms !! doc) as [s|] eqn:Es; [|done]. cbn in E. injection E as E. apply by_id_empty in E as ->. by destruct (F doc [] Es) as [? _].
Qed.

(** What merging does to the first parent's attachments. *)
Definition merged_doc (MsB MsO MsT : gmap UUID AttachmentSet) (contains : UUID -> bool) (ops : list Op) (doc : UUID) : gmap UUID Attachment :=
  if bool_decide (set_Hash <$> MsO !! doc = set_Hash <$> MsT !! doc \/ doc ∈ decided_docs ops) then by_id (set_at MsO doc) else by_id (doc_merge MsB MsO MsT contains doc).

Lemma merge_tables base ours theirs contains ops p MsB MsO MsT : tbl base p MsB -> tbl ours p MsO -> tbl theirs p MsT ->
  (forall doc, doc ∈ differing ours theirs ops -> mergeable doc (doc_merge MsB MsO MsT contains doc)) ->
  let '(r, p') := merge_docs base ours theirs contains (differing ours theirs ops) p in
  pool_step p p' /\
  match r with
  | Ok mops => exists A', spec_ops (by_id <$> MsO) mops = Ok A' /\ forall doc, of_doc A' doc = merged_doc MsB MsO MsT contains ops doc
  | Err e => read_failed e
  | Panic => False
  end.
Proof.
  intros Hb Ho Ht Hm. assert (Hw : Forall uuid_wf (differing ours theirs ops)).
  { apply Forall_forall. intros doc [Hd _]%(differing_elem ours theirs ops p MsO MsT doc Ho Ht). destruct (MsO !! doc) eqn:E1; [eapply (tbl_doc_wf ours); eauto|]. destruct (MsT !! doc) eqn:E2; [eapply (tbl_doc_wf theirs); eauto|done]. }
  pose proof (merge_docs_spec base ours theirs contains _ p MsB MsO MsT Hb Ho Ht Hw) as M. destruct (merge_docs _ _ _ _ _ p) as [r p']. destruct M as [Hs [->|(e & -> & He)]]; (split; [done|]); [|done].
  destruct (merge_ops_spec (set_at MsO) (doc_merge MsB MsO MsT contains) (differing ours theirs ops) (by_id <$> MsO)) as (A' & E & _ & HA); [apply differing_NoDup|by eapply tbl_no_empty| |].
  { intros doc Hin. rewrite of_doc_sets. split_and!; [done| |by apply Hm]. destruct (tbl_doc ours p MsO doc Ho) as [[[Hss _] _] _]. by apply sorted_ids. }
  exists A'. split; [exact E|]. intros doc. rewrite HA. unfold merged_doc. case_bool_decide as Hc.
  - rewrite decide_False; [by rewrite of_doc_sets|]. intros Hin%(differing_elem ours theirs ops p MsO MsT doc Ho Ht). tauto.
  - rewrite decide_True; [done|]. apply (differing_elem ours theirs ops p MsO MsT doc Ho Ht). tauto.
Qed.

(** ** What a history may put

    A put is checked, so the attachments that a history makes may be put again. *)
Definition checked (A : gmap UUID (gmap UUID Attachment)) : Prop := forall doc id a, of_doc A doc !! id = Some a -> put_check doc a = None.

Lemma checked_set A doc m : checked A -> (forall id a, m !! id = Some a -> put_check doc a = None) -> checked (set_of A doc m).
Proof.
  intros Ha Hm d id a. destruct (decide (d = doc)) as [->|Hd]; [rewrite of_doc_set_of; apply Hm|]. unfold of_doc, set_of. destruct (decide (m = ∅)); [rewrite lookup_delete_ne by done|rewrite lookup_insert_ne by done]; apply Ha.
Qed.

Lemma spec_op_checked A op A' : checked A -> spec_op A op = Ok A' -> checked A'.
Proof.
  intros Ha. destruct op; cbn [spec_op]; try (by intros [= <-]).
  - intros [= <-] d id a. unfold of_doc. destruct (delete _ A !! d) as [m|] eqn:E; [|done]. apply lookup_delete_Some in E as [_ E]. intros Em. apply (Ha d id). unfold of_doc. by rewrite E.
  - destruct (put_check _ _) eqn:Ec; [done|]. destruct (holder _ _); [done|]. intros [= <-]. apply checked_set; [done|]. intros i a [[<- <-]|[_ E]]%lookup_insert_Some; [done|]. by apply (Ha _ i).
  - intros [= <-]. apply checked_set; [done|]. intros i a [_ E]%lookup_delete_Some. by apply (Ha _ i).
Qed.

Lemma spec_ops_checked A ops A' : checked A -> spec_ops A ops = Ok A' -> checked A'.
Proof.
  revert A. induction ops as [|op ops IH]; intros A Ha; cbn [spec_ops]; [by intros [= <-]|]. destruct (spec_op A op) as [A1|e|] eqn:E; cbn [mbind go_bind]; [|done..]. apply IH. by apply (spec_op_checked A op).
Qed.

Lemma history_checked d n h Ms : history d n h Ms -> sets_ok Ms /\ checked (by_id <$> Ms).
Proof.
  assert (Hz : checked ∅) by (intros doc id a; unfold of_doc; rewrite lookup_empty; cbn; by rewrite lookup_empty).
  induction 1 as [h c E Er|h c Ms E Er Ep Eo Ho|n h c q ps Ms0 Ms E Er Ep Hh [_ IH] Eo Ho].
  - split; [apply map_Forall_empty|by rewrite fmap_empty].
  - split; [done|]. by apply (spec_ops_checked ∅ (Operations c)).
  - split; [done|]. by apply (spec_ops_checked _ (Operations c) _ IH).
Qed.

Lemma history_put d n h Ms doc a : history d n h Ms -> a ∈ set_at Ms doc -> put_check doc a = None.
Proof.
  intros Hh Ha. destruct (history_checked d n h Ms Hh) as [Hok Hc]. unfold set_at in Ha. destruct (Ms !! doc) as [s|] eqn:E; [|by apply not_elem_of_nil in Ha]. destruct (Hok doc s E) as (Hs & _).
  apply (Hc doc (ID a)). rewrite of_doc_sets, E. cbn [default from_option id]. apply by_id_Some; [by apply sorted_ids|done].
Qed.

(** Two attachments that both stay have the same name, so one gets a new one. *)
Definition contested (MsB MsO MsT : gmap UUID AttachmentSet) (contains : UUID -> bool) (doc : UUID) : Prop :=
  contains doc = true /\ ~ NoDup (map Name (AttachmentMerge.merge_ids (set_at MsB doc) (set_at MsO doc) (set_at MsT doc))).

Lemma uncontested_mergeable d nO nT first second MsB MsO MsT contains doc : history d nO first MsO -> history d nT second MsT ->
  ~ contested MsB MsO MsT contains doc -> mergeable doc (doc_merge MsB MsO MsT contains doc).
Proof.
  intros Ho Ht Hc. unfold doc_merge. destruct (contains doc) eqn:E; [|split_and!; constructor].
  destruct (decide (NoDup (map Name (AttachmentMerge.merge_ids (set_at MsB doc) (set_at MsO doc) (set_at MsT doc))))) as [Hn|Hn]; [|by destruct Hc].
  unfold AttachmentMerge.mergeAttachmentSets. rewrite unique_names_kept by (done || intros a _; apply not_elem_of_empty). split_and!; [apply merge_ids_ids|done|].
  apply Forall_forall. intros a Ha%merge_ids_elem. destruct (decided_in _ _ _ _ _ Ha); [by apply (history_put d nO first MsO)|by apply (history_put d nT second MsT)].
Qed.

(** C27. The attachment table at a commit is the one its history makes: the operations along
    the first parents, from the nearest commit without attachments, whether it is cached,
    rebuilt or rebuilt in part; it fails only when the store of the pool does.  And whatever
    log and cache it works from, a table that is returned has the root that the commit
    records: a log or cache that disagrees is an error, never a wrong attachment. *)
Theorem table_at_commit d h n Ms k : history d n h Ms -> recorded d -> roots_identify d -> cache_ok d k -> table_safe d h k ->
  outcome d k Ms (attachmentTableLocked d h k) /\
  forall d' h' k1 t k2, keyed k1 -> attachmentTableLocked d' h' k1 = (Ok t, k2) -> keyed k2 /\ exists c, commitLocked d' h' = Some c /\ Root t = AttachmentTreeHash c.
Proof. intros Hh Hr Hi Hk Hs. split; [by apply (attachmentTable_spec d h n Ms k)|]. intros d' h' k1 t k2. apply table_integrity. Qed.

(** The tables of both parents and of their merge base. *)
Definition merge_safe (d : InMemoryCommitDag) (first second : Hash) (k : cache) : Prop :=
  table_safe d first k /\
  match attachmentTableLocked d first k with
  | (Ok _, k) => table_safe d second k /\
    match attachmentTableLocked d second k with
    | (Ok _, k) => match (MergeBases [first] [second] d).1 with b :: _ => table_safe d b k | [] => True end
    | _ => True
    end
  | _ => True
  end.

(** Without the flag no commit has attachments. *)
Definition saw_ok (d : InMemoryCommitDag) (k : cache) : Prop := sawAttachments k = false -> forall h c, commitLocked d h = Some c -> AttachmentTreeHash c = None.

Lemma unseen_empty d k n h Ms : saw_ok d k -> sawAttachments k = false -> history d n h Ms -> Ms = ∅.
Proof. intros Hs E Hh. destruct Hh as [h c Ec Er|h c Ms Ec Er _ _ _|n h c q ps Ms0 Ms Ec Er _ _ _ _]; [done|by destruct Er; apply (Hs E h)..]. Qed.

(** C28. The operations that a merge of two commits carries turn the attachments of its first
    parent into the merged ones: a document whose sets the parents agree on, or that the
    merge's own operations change, keeps the first parent's; a document that the merged tree
    does not have loses them; every other document has the three-way merge of its sets
    against the first merge base, or against nothing where the parents have none - unless the
    store of the pool fails.  When two attachments of a document contest a name, one is given a
    new name that is not checked; there the merged set is taken to be one that may be put,
    which it need not be.  For the tables that are read, sets have no second set with their
    hash and commits with the same root the same attachments. *)
Theorem merge_attachments d first second ops contains k nO nT MsB MsO MsT : recorded d -> roots_identify d -> cache_ok d k -> saw_ok d k ->
  history d nO first MsO -> history d nT second MsT ->
  match (MergeBases [first] [second] d).1 with [] => MsB = ∅ | b :: _ => exists nB, history d nB b MsB end ->
  merge_safe d first second k -> (forall doc, contested MsB MsO MsT contains doc -> mergeable doc (doc_merge MsB MsO MsT contains doc)) ->
  match (mergeAttachmentOpsLocked None d ops [first; second] contains k).1 with
  | Ok mops => exists A', spec_ops (by_id <$> MsO) mops = Ok A' /\ forall doc, of_doc A' doc = merged_doc MsB MsO MsT contains ops doc
  | Err (TableFailed e) => store_failed e
  | _ => False
  end.
Proof.
  intros Hrec Hid Hk Hsaw Ho Ht Hbase (Hs1 & Hs2) Hcon. cbn [mergeAttachmentOpsLocked]. assert (Hm : forall doc, mergeable doc (doc_merge MsB MsO MsT contains doc)).
  { intros doc. destruct (decide (contains doc = true)) as [Ec|Ec], (decide (NoDup (map Name (AttachmentMerge.merge_ids (set_at MsB doc) (set_at MsO doc) (set_at MsT doc))))) as [Hn|Hn];
      try (apply (uncontested_mergeable d nO nT first second); [done|done|by intros [? ?]]). apply Hcon. by split. }
  assert (Same : MsO = MsT -> exists A', spec_ops (by_id <$> MsO) [] = Ok A' /\ forall doc, of_doc A' doc = merged_doc MsB MsO MsT contains ops doc).
  { intros <-. exists (by_id <$> MsO). split; [done|]. intros doc. unfold merged_doc. rewrite bool_decide_eq_true_2 by by left. apply of_doc_sets. }
  destruct (sawAttachments k) eqn:Es; cbn [negb]; [|apply Same; by rewrite (unseen_empty d k nO first MsO), (unseen_empty d k nT second MsT)].
  pose proof (attachmentTable_spec d first nO MsO k Ho Hrec Hid Hk Hs1) as O1. destruct (attachmentTableLocked d first k) as [[ours|e|] k1]; destruct O1 as (Hk1 & Hh1 & O1); [|by destruct e|done].
  destruct Hs2 as [Hs2 Hs3]. pose proof (attachmentTable_spec d second nT MsT k1 Ht Hrec Hid Hk1 Hs2) as O2. destruct (attachmentTableLocked d second k1) as [[theirs|e|] k2]; destruct O2 as (Hk2 & Hh2 & O2); [|by destruct e|done].
  case_bool_decide as Er; [apply Same, (Hid _ _ _ _ _ _ Ho Ht); by rewrite <- (tbl_Root _ _ _ O1), <- (tbl_Root _ _ _ O2)|].
  assert (HB : outcome d k2 MsB (match (MergeBases [first] [second] d).1 with [] => (Ok Empty, k2) | b :: _ => attachmentTableLocked d b k2 end)).
  { destruct (MergeBases [first] [second] d).1 as [|b bs]; [subst MsB; split_and!; [done|done|by apply Empty_tbl; apply Hk2]|]. destruct Hbase as [nB Hb]. by apply (attachmentTable_spec d b nB MsB k2). }
  destruct (match (MergeBases [first] [second] d).1 with [] => (Ok Empty, k2) | b :: _ => attachmentTableLocked d b k2 end) as [[base|e|] k3]; destruct HB as (Hk3 & Hh3 & HB); [|by destruct e|done].
  assert (S3 : pool_step (setPool k1) (setPool k3)) by (split_and!; [apply Hk3|apply Hk3|auto]). assert (S3' : pool_step (setPool k2) (setPool k3)) by (split_and!; [apply Hk3|apply Hk3|auto]).
  pose proof (merge_tables base ours theirs contains ops (setPool k3) MsB MsO MsT HB (tbl_step _ _ _ _ O1 S3) (tbl_step _ _ _ _ O2 S3') (fun doc _ => Hm doc)) as M.
  destruct (merge_docs base ours theirs contains _ (setPool k3)) as [[mops|e|] p]; destruct M as [_ M]; [done|by left|done].
Qed.

End tables.

(** ** A graph with one attachment *)

Definition demo_sets : gmap UUID AttachmentSet := {[demo_doc := [demo_attachment]]}.
Definition demo_hash : Hash := mkHash (repeat "001"%byte 32).
Definition demo_commit : Commit :=
  mkCommit demo_hash [] (str "ns") (mkUUID 1 1) (TimestampFromEpochMicros 1) (mkUUID 2 2) [put_op demo_doc demo_attachment] demo_hash None [] (rootOf demo_sets).
Definition bare_hash : Hash := mkHash (repeat "002"%byte 32).
Definition bare_commit : Commit := mkCommit bare_hash [] (str "ns") (mkUUID 1 2) (TimestampFromEpochMicros 1) (mkUUID 2 2) [] bare_hash None [] None.
Definition attach_dag : InMemoryCommitDag :=
  mkDag (str "ns") None (<[demo_hash := mkNode demo_commit 0]> {[bare_hash := mkNode bare_commit 0]}) ∅ ∅ ∅ ∅ ∅ ∅ 0 0 false false ∅ ∅.
Definition demo_cache : attachmentCache (gmap Hash bytes) := mkCache (Some demo_pool) ∅ [] ∅ true.

Lemma demo_at : commitLocked attach_dag demo_hash = Some demo_commit /\ commitLocked attach_dag bare_hash = Some bare_commit.
Proof. unfold commitLocked. cbn [nodes attach_dag]. rewrite lookup_insert_eq, lookup_insert_ne by done. by rewrite lookup_singleton_eq. Qed.

Lemma demo_commitLocked h c : commitLocked attach_dag h = Some c -> h = demo_hash /\ c = demo_commit \/ h = bare_hash /\ c = bare_commit.
Proof.
  unfold commitLocked. cbn [nodes attach_dag]. intros E. apply fmap_Some in E as (n & E & ->). apply lookup_insert_Some in E as [[<- <-]|[_ E]]; [by left|]. apply lookup_singleton_Some in E as [<- <-]. by right.
Qed.

Lemma demo_sets_ok : sets_ok demo_sets.
Proof. apply map_Forall_singleton, demo_set_ok. Qed.

Lemma demo_history : history attach_dag 0 demo_hash demo_sets.
Proof.
  destruct demo_at as [E _]. apply (history_root attach_dag demo_hash demo_commit); [exact E|done|done| |apply demo_sets_ok].
  unfold demo_sets. rewrite map_fmap_singleton. done.
Qed.
Lemma bare_history : history attach_dag 0 bare_hash ∅.
Proof. destruct demo_at as [_ E]. by apply (history_none attach_dag bare_hash bare_commit). Qed.

Lemma demo_history_only n h Ms : history attach_dag n h Ms -> h = demo_hash /\ Ms = demo_sets \/ h = bare_hash /\ Ms = ∅.
Proof.
  intros Hh. assert (exists c, commitLocked attach_dag h = Some c) as [c E] by (destruct Hh; eauto). apply demo_commitLocked in E as [[-> _]|[-> _]]; [left|right]; (split; [done|]).
  - by destruct (history_unique _ _ _ _ _ _ Hh demo_history).
  - by destruct (history_unique _ _ _ _ _ _ Hh bare_history).
Qed.

Lemma demo_recorded : recorded attach_dag /\ roots_identify attach_dag.
Proof.
  assert (Hne : rootOf demo_sets <> rootOf ∅) by (unfold rootOf; rewrite bool_decide_eq_false_2 by done; by rewrite bool_decide_eq_true_2). split.
  - intros n h c Ms Hh E. destruct demo_at as [E1 E2]. apply demo_history_only in Hh as [[-> ->]|[-> ->]]; [rewrite E1 in E|rewrite E2 in E]; injection E as <-; exact eq_refl.
  - intros n h Ms n' h' Ms' [[_ ->]|[_ ->]]%demo_history_only [[_ ->]|[_ ->]]%demo_history_only E; congruence.
Qed.

Lemma demo_cache_ok : cache_ok attach_dag demo_cache.
Proof.
  destruct demo_tbl as (Hp & Hs & _). split_and!; [done|done|]. intros root t [E|E]; cbn [pinned tables demo_cache] in E; by rewrite lookup_empty in E.
Qed.

Lemma demo_safe : table_safe attach_dag demo_hash demo_cache.
Proof.
  unfold table_safe. cbn [unknown_tables]. destruct demo_at as [-> _].
  cbn [AttachmentTreeHash demo_commit]. unfold rootOf. rewrite bool_decide_eq_false_2 by done. assert (forall root, cache_get demo_cache root = None) as -> by (intros root; unfold cache_get; cbn [pinned tables demo_cache]; by rewrite !lookup_empty).
  cbn [ParentHashes demo_commit app rev replay_safe Operations]. split_and!; [repeat constructor; apply demo_op_ok|by apply demo_put_safe|]. by destruct (Apply Empty [put_op demo_doc demo_attachment] (setPool demo_cache)) as [[] ?].
Qed.

Lemma bare_safe k : table_safe attach_dag bare_hash k.
Proof. unfold table_safe. cbn [unknown_tables]. destruct demo_at as [_ ->]. cbn [AttachmentTreeHash bare_commit]. done. Qed.

Lemma table_at_commit_witness : outcome attach_dag demo_cache demo_sets (attachmentTableLocked attach_dag demo_hash demo_cache).
Proof.
  destruct demo_recorded as [Hr Hi]. exact (proj1 (table_at_commit attach_dag demo_hash 0 demo_sets demo_cache demo_history Hr Hi demo_cache_ok demo_safe)).
Defined.

Lemma demo_saw : saw_ok attach_dag demo_cache.
Proof. by intros E. Qed.

Lemma demo_bases : (MergeBases [bare_hash] [demo_hash] attach_dag).1 = [].
Proof. reflexivity. Qed.

Lemma demo_uncontested doc : ~ contested ∅ ∅ demo_sets (fun _ => true) doc.
Proof.
  intros [_ Hn]. apply Hn. unfold set_at, demo_sets. rewrite !lookup_empty. destruct (decide (doc = demo_doc)) as [->|Hd]; [rewrite lookup_singleton_eq; apply NoDup_singleton|rewrite lookup_singleton_ne by done; constructor].
Qed.

Lemma bare_table k : attachmentTableLocked attach_dag bare_hash k = (Ok Empty, k).
Proof. unfold attachmentTableLocked. cbn [unknown_tables]. destruct demo_at as [_ ->]. done. Qed.

Lemma demo_merged : merged_doc ∅ ∅ demo_sets (fun _ => true) [] demo_doc = by_id [demo_attachment].
Proof.
  unfold merged_doc, doc_merge, set_at, demo_sets. rewrite !lookup_empty, lookup_singleton_eq. rewrite bool_decide_eq_false_2; [reflexivity|].
  intros [E|E]; [discriminate E|by apply not_elem_of_nil in E].
Qed.

Lemma demo_no_base : match (MergeBases [bare_hash] [demo_hash] attach_dag).1 with [] => (∅ : gmap UUID AttachmentSet) = ∅ | b :: _ => exists n, history attach_dag n b ∅ end.
Proof. by rewrite demo_bases. Qed.

Lemma demo_merge_safe : merge_safe attach_dag bare_hash demo_hash demo_cache.
Proof.
  split; [apply bare_safe|]. rewrite bare_table. split; [exact demo_safe|]. rewrite demo_bases. destruct (attachmentTableLocked attach_dag demo_hash demo_cache) as [[] ?]; exact I.
Qed.

(** The second parent attaches a file to a document, and the merge carries the put. *)
Lemma merge_attachments_witness :
  match (mergeAttachmentOpsLocked None attach_dag [] [bare_hash; demo_hash] (fun _ => true) demo_cache).1 with
  | Ok mops => exists A', spec_ops (by_id <$> (∅ : gmap UUID AttachmentSet)) mops = Ok A' /\ of_doc A' demo_doc = by_id [demo_attachment]
  | Err (TableFailed e) => store_failed e
  | _ => False
  end.
Proof.
  destruct demo_recorded as [Hr Hi].
  pose proof (merge_attachments attach_dag bare_hash demo_hash [] (fun _ => true) demo_cache 0 0 ∅ ∅ demo_sets Hr Hi demo_cache_ok demo_saw bare_history demo_history
    demo_no_base demo_merge_safe (fun doc Hc => match demo_uncontested doc Hc with end)) as M.
  destruct (mergeAttachmentOpsLocked None attach_dag [] [bare_hash; demo_hash] (fun _ => true) demo_cache).1 as [mops|[]|]; [|exact M..].
  destruct M as (A' & E & HA). exists A'. split; [exact E|]. rewrite HA. exact demo_merged.
Defined.

End DagAttachments.
