(* ===== verification/DocumentJson.v ===== *)
(** New documents: [FromJSONWithID] and [WithJSON] of [document/kdb_document.go], which accept
    what [encoding/json] decodes as an object.

    [encoding/json] first checks the whole text against the grammar, with a bound on the
    nesting, and then decodes it; into an empty interface only a number out of the range of a
    float64 can fail then. *)

From S2P Require Import Prelude Primitives Strconv Utf8 Float64 Schema Document Sha256 Commit Json JsonRoundTrip JsonParser JsonPath JsonPathCorrect DocumentMerge.
Import Primitives Commit DocumentMerge.

Module DocumentJson.

Definition maxNestingDepth : Z := 10000.

Definition is_space (c : byte) : bool := bool_decide (c ∈ [x20; x09; x0a; x0d]).
Fixpoint skip_space (s : bytes) : bytes := match s with c :: r => if is_space c then skip_space r else s | [] => [] end.

Definition is_hex (c : byte) : bool :=
  let v := b2z c in ((48 <=? v) && (v <=? 57)) || ((97 <=? v) && (v <=? 102)) || ((65 <=? v) && (v <=? 70)).
Definition is_escape (c : byte) : bool := bool_decide (c ∈ [x62; x66; x6e; x72; x74; x5c; x2f; x22]).

(** After the opening quote: what follows the closing one. *)
Fixpoint scan_string (s : bytes) : option bytes :=
  match s with
  | [] => None
  | c :: r =>
    if bool_decide (c = x22) then Some r
    else if bool_decide (c = x5c) then
      match r with
      | [] => None
      | e :: r =>
        if bool_decide (e = x75) then
          match r with
          | h1 :: h2 :: h3 :: h4 :: r => if is_hex h1 && is_hex h2 && is_hex h3 && is_hex h4 then scan_string r else None
          | _ => None
          end
        else if is_escape e then scan_string r else None
      end
    else if b2z c <? 0x20 then None else scan_string r
  end.

(** The next byte that is not space, if it is [c]. *)
Definition expect (c : byte) (s : bytes) : option bytes := match skip_space s with x :: r => if bool_decide (x = c) then Some r else None | [] => None end.
Definition next_is (c : byte) (s : bytes) : option bytes := match s with x :: r => if bool_decide (x = c) then Some r else None | [] => None end.

(** One or more digits. *)
Definition digits1 (s : bytes) : option bytes := match Float64.span_digits s with ([], _) => None | (_, r) => Some r end.

Definition scan_number (s : bytes) : option bytes :=
  let s := default s (next_is x2d s) in
  s ← match next_is x30 s with Some r => Some r | None => digits1 s end;
  s ← match next_is x2e s with Some r => digits1 r | None => Some s end;
  match (match next_is x65 s with Some r => Some r | None => next_is x45 s end) with
  | Some r => digits1 (match next_is x2b r with Some r => r | None => default r (next_is x2d r) end)
  | None => Some s
  end.

Definition literal (word s : bytes) : option bytes := if bool_decide (take (length word) s = word) then Some (drop (length word) s) else None.

(** A value: whether its numbers are in range, and what follows it.  [depth] counts the open
    objects and arrays. *)
Fixpoint scan_value (fuel : nat) (depth : Z) (s : bytes) : option (bool * bytes) :=
  match fuel with
  | O => None
  | S fuel =>
    match skip_space s with
    | [] => None
    | c :: r =>
      if bool_decide (c = x7b) then
        if maxNestingDepth <? depth + 1 then None
        else match expect x7d r with Some r => Some (true, r) | None => scan_members fuel (depth + 1) true r end
      else if bool_decide (c = x5b) then
        if maxNestingDepth <? depth + 1 then None
        else match expect x5d r with Some r => Some (true, r) | None => scan_elements fuel (depth + 1) true r end
      else if bool_decide (c = x22) then pair true <$> scan_string r
      else if bool_decide (c = x74) then pair true <$> literal (str "rue") r
      else if bool_decide (c = x66) then pair true <$> literal (str "alse") r
      else if bool_decide (c = x6e) then pair true <$> literal (str "ull") r
      else r' ← scan_number (c :: r); Some (bool_decide (is_Some (Float64.ParseFloat (take (length (c :: r) - length r') (c :: r)))), r')
    end
  end
with scan_members (fuel : nat) (depth : Z) (ok : bool) (s : bytes) : option (bool * bytes) :=
  match fuel with
  | O => None
  | S fuel =>
    r ← expect x22 s;
    r ← scan_string r;
    r ← expect x3a r;
    '(ok', r) ← scan_value fuel depth r;
    match expect x2c r with
    | Some r => scan_members fuel depth (ok && ok') r
    | None => pair (ok && ok') <$> expect x7d r
    end
  end
with scan_elements (fuel : nat) (depth : Z) (ok : bool) (s : bytes) : option (bool * bytes) :=
  match fuel with
  | O => None
  | S fuel =>
    '(ok', r) ← scan_value fuel depth s;
    match expect x2c r with
    | Some r => scan_elements fuel depth (ok && ok') r
    | None => pair (ok && ok') <$> expect x5d r
    end
  end.

(** Every call goes on with fewer bytes, but the one from an array to its first element. *)
Definition scan_fuel (s : bytes) : nat := 2 * length s + 2.

Definition validateObjectJSON (s : bytes) : dres unit :=
  let invalid := Err (mkDecodeError (str "invalid json") None None) in
  match scan_value (scan_fuel s) 0 s with
  | None => invalid
  | Some (in_range, r) =>
    if negb (bool_decide (skip_space r = [])) then invalid
    else if negb in_range then invalid
    else match skip_space s with
         | x7b :: _ => Ok tt
         | _ => Err (mkDecodeError (str "root must be a JSON object") None None)
         end
  end.

Definition FromJSONWithID (id : UUID) (jsonText : bytes) : dres Doc := _ ← validateObjectJSON jsonText; Ok (mkDoc id jsonText).
Definition WithJSON (d : Doc) (newJSON : bytes) : dres Doc := _ ← validateObjectJSON newJSON; Ok (mkDoc (DocumentID d) newJSON).

(** ** The bound on the calls is enough *)

Lemma skip_space_length s : (length (skip_space s) <= length s)%nat.
Proof. induction s as [|c s IH]; [done|]. cbn [skip_space]. destruct (is_space c); cbn [length]; lia. Qed.

Lemma scan_string_length s r : scan_string s = Some r -> (length r < length s)%nat.
Proof.
  remember (length s) as n eqn:En. revert s En. induction (lt_wf n) as [n _ IH]. intros s ->. destruct s as [|c s]; [done|]. cbn [scan_string]. case_bool_decide; [intros [= ->]; cbn; lia|]. case_bool_decide.
  - destruct s as [|e s]; [done|]. case_bool_decide; [|destruct (is_escape e); [|done]; intros E; apply (IH (length s)) in E; [cbn; lia|cbn; lia|done]].
    destruct s as [|h1 [|h2 [|h3 [|h4 s]]]]; try done. destruct (_ && _); [|done]. intros E. apply (IH (length s)) in E; [cbn; lia|cbn; lia|done].
  - destruct (_ <? _); [done|]. intros E. apply (IH (length s)) in E; [cbn; lia|cbn; lia|done].
Qed.

Lemma expect_length c s r : expect c s = Some r -> (length r < length s)%nat.
Proof. unfold expect. pose proof (skip_space_length s). destruct (skip_space s) as [|x t]; [done|]. case_bool_decide; [|done]. intros [= ->]. cbn in *. lia. Qed.
Lemma next_is_length c s r : next_is c s = Some r -> (length r < length s)%nat.
Proof. destruct s as [|x t]; [done|]. cbn. case_bool_decide; [|done]. intros [= ->]. lia. Qed.

Lemma span_digits_length s : length s = (length (Float64.span_digits s).1 + length (Float64.span_digits s).2)%nat.
Proof. induction s as [|c s IH]; [done|]. cbn. destruct (Float64.is_digit c); [|done]. destruct (Float64.span_digits s). cbn in *. lia. Qed.
Lemma digits1_length s r : digits1 s = Some r -> (length r < length s)%nat.
Proof. unfold digits1. pose proof (span_digits_length s) as L. destruct (Float64.span_digits s) as [[|d ds] t]; [done|]. intros [= ->]. cbn in L. lia. Qed.

Lemma scan_number_length s r : scan_number s = Some r -> (length r < length s)%nat.
Proof.
  unfold scan_number. assert (H0 : (length (default s (next_is x2d s)) <= length s)%nat) by (destruct (next_is x2d s) eqn:E; [apply next_is_length in E; cbn; lia|done]). set (s0 := default s (next_is x2d s)) in *.
  assert (H1 : forall s1, match next_is x30 s0 with Some r => Some r | None => digits1 s0 end = Some s1 -> (length s1 < length s0)%nat) by (intros s1; destruct (next_is x30 s0) eqn:E; [intros [= <-]; by apply next_is_length in E|apply digits1_length]).
  destruct (match next_is x30 s0 with Some r => Some r | None => digits1 s0 end) as [s1|]; [|done]. specialize (H1 s1 eq_refl). cbn [mbind option_bind].
  assert (H2 : forall s2, match next_is x2e s1 with Some r => digits1 r | None => Some s1 end = Some s2 -> (length s2 <= length s1)%nat) by (intros s2; destruct (next_is x2e s1) eqn:E; [apply next_is_length in E; intros E2%digits1_length; lia|by intros [= <-]]).
  destruct (match next_is x2e s1 with Some r => digits1 r | None => Some s1 end) as [s2|]; [|done]. specialize (H2 s2 eq_refl). cbn [mbind option_bind].
  assert (H3 : forall s3, match next_is x65 s2 with Some r => Some r | None => next_is x45 s2 end = Some s3 -> (length s3 < length s2)%nat) by (intros s3; destruct (next_is x65 s2) eqn:E; [intros [= <-]; by apply next_is_length in E|apply next_is_length]).
  destruct (match next_is x65 s2 with Some r => Some r | None => next_is x45 s2 end) as [s3|]; [|intros [= <-]; lia]. specialize (H3 s3 eq_refl). intros E%digits1_length.
  assert ((length (match next_is x2b s3 with Some r => r | None => default s3 (next_is x2d s3) end) <= length s3)%nat); [|lia].
  destruct (next_is x2b s3) eqn:E1; [apply next_is_length in E1; lia|]. destruct (next_is x2d s3) eqn:E2; [apply next_is_length in E2; cbn; lia|done].
Qed.

Lemma literal_length w s r : literal w s = Some r -> (length r <= length s)%nat.
Proof. unfold literal. case_bool_decide; [|done]. intros [= <-]. rewrite length_drop. lia. Qed.

Lemma scan_length fuel :
  (forall d s ok r, scan_value fuel d s = Some (ok, r) -> (length r < length s)%nat) /\
  (forall d o s ok r, scan_members fuel d o s = Some (ok, r) -> (length r < length s)%nat) /\
  (forall d o s ok r, scan_elements fuel d o s = Some (ok, r) -> (length r < length s)%nat).
Proof.
  induction fuel as [|fuel (IV & IM & IE)]; [done|]. split_and!.
  - intros d s ok r. cbn [scan_value]. pose proof (skip_space_length s) as L. destruct (skip_space s) as [|c t]; [done|]. cbn [length] in L.
    assert (HP : forall o : option bytes, pair true <$> o = Some (ok, r) -> o = Some r) by (intros [x|]; [by intros [= _ ->]|done]). repeat (case_bool_decide; [|]); try (destruct (_ <? _); [done|]).
    + destruct (expect x7d t) eqn:E; [intros [= _ <-]; apply expect_length in E; lia|]. intros E'%IM. lia.
    + destruct (expect x5d t) eqn:E; [intros [= _ <-]; apply expect_length in E; lia|]. intros E'%IE. lia.
    + intros E%HP%scan_string_length. lia.
    + intros E%HP%literal_length. lia.
    + intros E%HP%literal_length. lia.
    + intros E%HP%literal_length. lia.
    + destruct (scan_number (c :: t)) as [r'|] eqn:E; [|done]. apply scan_number_length in E. cbn [mbind option_bind length] in *. intros [= _ <-]. lia.
  - intros d o s ok r. cbn [scan_members]. destruct (expect x22 s) as [s1|] eqn:E1; [|done]. cbn [mbind option_bind]. destruct (scan_string s1) as [s2|] eqn:E2; [|done]. cbn [mbind option_bind]. destruct (expect x3a s2) as [s3|] eqn:E3; [|done]. cbn [mbind option_bind].
    destruct (scan_value fuel d s3) as [[ok' s4]|] eqn:E4; [|done]. cbn [mbind option_bind]. apply expect_length in E1, E3. apply scan_string_length in E2. apply IV in E4. destruct (expect x2c s4) as [s5|] eqn:E5; [apply expect_length in E5; intros E6%IM; lia|].
    destruct (expect x7d s4) as [s6|] eqn:E6; [|done]. apply expect_length in E6. intros [= _ <-]. lia.
  - intros d o s ok r. cbn [scan_elements]. destruct (scan_value fuel d s) as [[ok' s4]|] eqn:E4; [|done]. cbn [mbind option_bind]. apply IV in E4. destruct (expect x2c s4) as [s5|] eqn:E5; [apply expect_length in E5; intros E6%IE; lia|].
    destruct (expect x5d s4) as [s6|] eqn:E6; [|done]. apply expect_length in E6. intros [= _ <-]. lia.
Qed.

Lemma scan_enough fuel :
  (forall d s, (2 * length s + 1 <= fuel)%nat -> scan_value (S fuel) d s = scan_value fuel d s) /\
  (forall d o s, (2 * length s + 2 <= fuel)%nat -> scan_members (S fuel) d o s = scan_members fuel d o s) /\
  (forall d o s, (2 * length s + 2 <= fuel)%nat -> scan_elements (S fuel) d o s = scan_elements fuel d o s).
Proof.
  induction fuel as [|fuel (IV & IM & IE)]; [split_and!; intros; lia|]. destruct (scan_length fuel) as (LV & _ & _). split_and!.
  - intros d s Hf. change (scan_value (S (S fuel)) d s) with (match skip_space s with [] => None | c :: r =>
      if bool_decide (c = x7b) then if maxNestingDepth <? d + 1 then None else match expect x7d r with Some r => Some (true, r) | None => scan_members (S fuel) (d + 1) true r end
      else if bool_decide (c = x5b) then if maxNestingDepth <? d + 1 then None else match expect x5d r with Some r => Some (true, r) | None => scan_elements (S fuel) (d + 1) true r end
      else if bool_decide (c = x22) then pair true <$> scan_string r else if bool_decide (c = x74) then pair true <$> literal (str "rue") r else if bool_decide (c = x66) then pair true <$> literal (str "alse") r
      else if bool_decide (c = x6e) then pair true <$> literal (str "ull") r else r' ← scan_number (c :: r); Some (bool_decide (is_Some (Float64.ParseFloat (take (length (c :: r) - length r') (c :: r)))), r') end).
    cbn [scan_value]. pose proof (skip_space_length s) as L. destruct (skip_space s) as [|c t]; [done|]. cbn [length] in L. rewrite (IM (d + 1) true t), (IE (d + 1) true t) by lia. done.
  - intros d o s Hf. cbn [scan_members]. destruct (expect x22 s) as [s1|] eqn:E1; [|done]. cbn [mbind option_bind]. destruct (scan_string s1) as [s2|] eqn:E2; [|done]. cbn [mbind option_bind]. destruct (expect x3a s2) as [s3|] eqn:E3; [|done]. cbn [mbind option_bind].
    apply expect_length in E1, E3. apply scan_string_length in E2. fold (scan_value (S fuel) d s3). rewrite (IV d s3) by lia. destruct (scan_value fuel d s3) as [[ok' s4]|] eqn:E4; [|done]. cbn [mbind option_bind]. apply LV in E4. destruct (expect x2c s4) as [s5|] eqn:E5; [|done]. apply expect_length in E5. apply IM. lia.
  - intros d o s Hf. cbn [scan_elements]. fold (scan_value (S fuel) d s). rewrite (IV d s) by lia. destruct (scan_value fuel d s) as [[ok' s4]|] eqn:E4; [|done]. cbn [mbind option_bind]. apply LV in E4. destruct (expect x2c s4) as [s5|] eqn:E5; [|done]. apply expect_length in E5. apply IE. lia.
Qed.

(** More calls change nothing. *)
Lemma scan_fuel_enough n d s : (scan_fuel s <= n)%nat -> scan_value n d s = scan_value (scan_fuel s) d s.
Proof. unfold scan_fuel. induction 1 as [|n Hn IH]; [done|]. rewrite <- IH. apply scan_enough. lia. Qed.

End DocumentJson.
