(* ===== verification/MemStore.v ===== *)
(** The in-memory storage adapter: [storage/mem].

    Trees by hash, documents and blobs by content hash in shards, and the writes of each
    namespace that await a commit.  Behind the interface it is a map from tree hashes to
    documents: a commit puts the pending writes over the documents of the parent tree, and
    nothing that was committed changes. *)

From S2P Require Import Prelude Primitives Schema KdbCodec CodecCorrect Document Sha256 Commit CommitDirect CommitCorrect TrieHash Trie TrieCorrect TrieWalk TrieBulk DocumentTree TreeMap TreePacked.
Import Primitives Document Commit CommitDirect TrieWalk DocumentTree TreeMap TreePacked.

Module MemStore.

(** ** Blobs *)

Definition blobShardCount : Z := 64.

(** A blob may be a nil slice. *)
Record blobShard := mkShard { blobs : gmap Hash (option bytes); docsByBlob : gmap Hash Doc }.
Abbreviation shardedBlobStore := (list blobShard).

Definition newShardedBlobStore : shardedBlobStore := repeat (mkShard ∅ ∅) (Z.to_nat blobShardCount).

Definition shardFor (h : Hash) : nat := Z.to_nat (match HashBytes h with b :: _ => b2z b mod blobShardCount | [] => 0 end).

Definition shard (s : shardedBlobStore) (h : Hash) : blobShard := default (mkShard ∅ ∅) (s !! shardFor h).

Definition set_blob (h : Hash) (b : option bytes) (s : shardedBlobStore) : shardedBlobStore :=
  alter (fun sh => mkShard (<[h := b]> (blobs sh)) (docsByBlob sh)) (shardFor h) s.

Definition blob_read (s : shardedBlobStore) (h : Hash) : option bytes :=
  match blobs (shard s h) !! h with Some (Some b) => Some b | _ => None end.

Definition ContentHashOf (d : Doc) : Hash := contentHash (DocumentID d) (JSON d).

Definition RememberDocument (d : Doc) (s : shardedBlobStore) : shardedBlobStore :=
  let h := ContentHashOf d in
  alter (fun sh => mkShard (<[h := Some (JSON d)]> (blobs sh)) (<[h := d]> (docsByBlob sh))) (shardFor h) s.

Definition GetDocByBlob (s : shardedBlobStore) (h : Hash) : option Doc := docsByBlob (shard s h) !! h.

(** ** Pending writes *)

Record nsPending := mkPending { puts : gmap UUID Doc; deletes : gset UUID }.
Abbreviation pendingByNamespace := (gmap bytes nsPending).

Definition forNamespace (p : pendingByNamespace) (ns : bytes) : nsPending := default (mkPending ∅ ∅) (p !! ns).
Definition pending_put (ns : bytes) (d : Doc) (p : pendingByNamespace) : pendingByNamespace :=
  let n := forNamespace p ns in <[ns := mkPending (<[DocumentID d := d]> (puts n)) (deletes n ∖ {[DocumentID d]})]> p.
Definition pending_delete (ns : bytes) (id : UUID) (p : pendingByNamespace) : pendingByNamespace :=
  let n := forNamespace p ns in <[ns := mkPending (delete id (puts n)) ({[id]} ∪ deletes n)]> p.
Definition takeAndClear (ns : bytes) (p : pendingByNamespace) : gmap UUID Doc * gset UUID * pendingByNamespace :=
  let n := forNamespace p ns in (puts n, deletes n, <[ns := mkPending ∅ ∅]> p).
Definition discardAll (ns : bytes) (p : pendingByNamespace) : pendingByNamespace := <[ns := mkPending ∅ ∅]> p.

(** ** The adapter *)

Record InMemoryStorageAdapter := mkAdapter { blobStore : shardedBlobStore; pending : pendingByNamespace; trees : gmap Hash DocumentTree }.

Definition NewInMemoryStorageAdapter : InMemoryStorageAdapter :=
  mkAdapter newShardedBlobStore ∅ {[TreeHash EmptyDocumentTree := EmptyDocumentTree]}.

Definition GetDocument (a : InMemoryStorageAdapter) (id : UUID) (at_ : Hash) : option Doc :=
  match trees a !! at_ with
  | None => None
  | Some t => match HashFor t id with None => None | Some h => GetDocByBlob (blobStore a) h end
  end.

Inductive store_error := DocumentNotFound (id : UUID) (at_ : Hash) | MissingParent (h : Hash) | NoTree (h : Hash) | ForeignMismatch (tree : Hash) (id : UUID) | CannotIngest.

Definition GetDocumentOrThrow (a : InMemoryStorageAdapter) (id : UUID) (at_ : Hash) : go store_error Doc :=
  match GetDocument a id at_ with None => Err (DocumentNotFound id at_) | Some d => Ok d end.
Definition GetDocuments (a : InMemoryStorageAdapter) (ids : list UUID) (at_ : Hash) : list (option Doc) := map (fun id => GetDocument a id at_) ids.

Definition PutDocument (ns : bytes) (d : Doc) (a : InMemoryStorageAdapter) : InMemoryStorageAdapter := mkAdapter (blobStore a) (pending_put ns d (pending a)) (trees a).
Definition DeleteDocument (ns : bytes) (id : UUID) (a : InMemoryStorageAdapter) : InMemoryStorageAdapter := mkAdapter (blobStore a) (pending_delete ns id (pending a)) (trees a).
Definition DiscardPending (ns : bytes) (a : InMemoryStorageAdapter) : InMemoryStorageAdapter := mkAdapter (blobStore a) (discardAll ns (pending a)) (trees a).

(** [dorder] and [porder] are the orders in which the maps of writes are ranged over. *)
Definition CommitTree_in (dorder : gset UUID -> list UUID) (porder : gmap UUID Doc -> list (UUID * Doc)) (ns : bytes) (parent : Hash) (a : InMemoryStorageAdapter) : go store_error DocumentTree * InMemoryStorageAdapter :=
  match trees a !! parent with
  | None => (Err (MissingParent parent), a)
  | Some base =>
    let '(ps, ds, pend) := takeAndClear ns (pending a) in
    let built := foldl Without base (dorder ds) in
    let '(bs, built) := foldl (fun '(bs, t) '(id, d) => (RememberDocument d bs, With t id (ContentHashOf d))) (blobStore a, built) (porder ps) in
    (Ok built, mkAdapter bs pend (<[TreeHash built := built]> (trees a)))
  end.

Definition ReadBlob (h : Hash) (a : InMemoryStorageAdapter) : option bytes := blob_read (blobStore a) h.
(** [append([]byte(nil), bytes...)] of no bytes is a nil slice. *)
Definition copied (b : bytes) : option bytes := match b with [] => None | _ => Some b end.
Definition WriteKeyedBlob (key : Hash) (b : bytes) (a : InMemoryStorageAdapter) : InMemoryStorageAdapter :=
  mkAdapter (set_blob key (copied b) (blobStore a)) (pending a) (trees a).
Definition WriteBlob (b : bytes) (a : InMemoryStorageAdapter) : Hash * InMemoryStorageAdapter :=
  let h := mkHash (SHA256Digest b) in (h, WriteKeyedBlob h b a).

Definition TreeAt (h : Hash) (a : InMemoryStorageAdapter) : option DocumentTree := trees a !! h.
Definition CountDocuments (h : Hash) (a : InMemoryStorageAdapter) : option Z := DocumentTree.Size <$> trees a !! h.

(** A scan hands the documents out in batches to [onBatch], until it reports an error.  The
    walk of the tree is an argument, as in the source. *)
Section scan.
Context {S E : Type} (onBatch : S -> list Doc -> S * option E).

Definition scan_visit (a : InMemoryStorageAdapter) (batchSize : Z) (st : S * list Doc * option E) (e : UUID * Hash) : S * list Doc * option E * bool :=
  let '(s, buf, err) := st in
  match GetDocByBlob (blobStore a) e.2 with
  | None => (s, buf, err, true)
  | Some d =>
    let buf := buf ++ [d] in
    if batchSize <=? zlen buf then
      match onBatch s buf with
      | (s, Some err) => (s, buf, Some err, false)
      | (s, None) => (s, [], err, true)
      end
    else (s, buf, err, true)
  end.

Definition scanDocuments (walk : forall st, (st -> UUID * Hash -> st * bool) -> st -> DocumentTree -> st) (at_ : Hash) (batchSize : Z) (s : S) (a : InMemoryStorageAdapter) : S * option E :=
  let batchSize := if batchSize <=? 0 then 256 else batchSize in
  match trees a !! at_ with
  | None => (s, None)
  | Some t =>
    let '(s, buf, err) := walk (S * list Doc * option E)%type (scan_visit a batchSize) (s, [], None) t in
    match err with
    | Some _ => (s, err)
    | None => match buf with [] => (s, None) | _ => onBatch s buf end
    end
  end.

Definition ScanDocuments (ord : list (UUID * Hash)) : Hash -> Z -> S -> InMemoryStorageAdapter -> S * option E :=
  scanDocuments (fun st visit s t => Walk ord visit s t).
Definition ScanDocumentsAfter (after : option UUID) : Hash -> Z -> S -> InMemoryStorageAdapter -> S * option E :=
  scanDocuments (fun st visit s t => match after with None => WalkOrdered visit s t | Some u => WalkAfter visit u s t end).
End scan.

(** A tree made elsewhere is taken over when every document's text is there and has the hash
    the tree has. *)
Definition foreign_visit (bodies : gmap UUID bytes) (tree : Hash) (st : list Doc * option store_error) (e : UUID * Hash) : list Doc * option store_error * bool :=
  match bodies !! e.1 with
  | Some body => let d := mkDoc e.1 body in if bool_decide (ContentHashOf d = e.2) then (st.1 ++ [d], st.2, true) else (st.1, Some (ForeignMismatch tree e.1), false)
  | None => (st.1, Some (ForeignMismatch tree e.1), false)
  end.
Definition StoreForeignTree (ord : list (UUID * Hash)) (t : DocumentTree) (bodies : gmap UUID bytes) (a : InMemoryStorageAdapter) : option store_error * InMemoryStorageAdapter :=
  match Walk ord (foreign_visit bodies (TreeHash t)) ([], None) t with
  | (_, Some e) => (Some e, a)
  | (docs, None) => (None, mkAdapter (foldl (fun bs d => RememberDocument d bs) (blobStore a) docs) (pending a) (<[TreeHash t := t]> (trees a)))
  end.

(** ** Shards are one map *)

#[local] Opaque Sha256.Sum256.

Lemma ContentHash_total d : ComputeContentHash d = Ok (ContentHashOf d).
Proof. destruct d as [id json]. apply CommitCorrect.contentHash_agrees. Qed.

Lemma ContentHashOf_wf d : hash_wf (ContentHashOf d).
Proof. apply Sha256.Sum256_length. Qed.

Definition shards_ok (bs : shardedBlobStore) : Prop := length bs = Z.to_nat blobShardCount.

Lemma shardFor_bound bs h : shards_ok bs -> is_Some (bs !! shardFor h).
Proof.
  intros Hs. apply lookup_lt_is_Some. rewrite Hs. unfold shardFor, blobShardCount. destruct (HashBytes h) as [|b l]; [lia|]. pose proof (Z.mod_pos_bound (b2z b) 64 ltac:(lia)). lia.
Qed.

Lemma GetDoc_Remember d bs h : shards_ok bs -> GetDocByBlob (RememberDocument d bs) h = if bool_decide (h = ContentHashOf d) then Some d else GetDocByBlob bs h.
Proof.
  intros Hs. unfold GetDocByBlob, RememberDocument, shard. set (ch := ContentHashOf d). destruct (shardFor_bound bs ch Hs) as [sh Esh]. destruct (decide (shardFor h = shardFor ch)) as [E|E].
  - rewrite E, list_lookup_alter_eq, Esh. cbn [fmap option_fmap option_map default from_option id docsByBlob]. case_bool_decide as K; [subst h; apply lookup_insert_eq|by rewrite lookup_insert_ne].
  - rewrite list_lookup_alter_ne by done. rewrite bool_decide_eq_false_2; [done|]. by intros ->.
Qed.

Lemma Remember_shards d bs : shards_ok bs -> shards_ok (RememberDocument d bs).
Proof. unfold shards_ok, RememberDocument. by rewrite length_alter. Qed.

Lemma set_blob_docs k b bs h : GetDocByBlob (set_blob k b bs) h = GetDocByBlob bs h.
Proof.
  unfold GetDocByBlob, set_blob, shard. destruct (decide (shardFor h = shardFor k)) as [E|E]; [rewrite E, list_lookup_alter_eq; by destruct (bs !! shardFor k)|by rewrite list_lookup_alter_ne].
Qed.

Lemma blob_read_set k b bs h : shards_ok bs -> blob_read (set_blob k b bs) h = if bool_decide (h = k) then b else blob_read bs h.
Proof.
  intros Hs. unfold blob_read, set_blob, shard. destruct (shardFor_bound bs k Hs) as [sh Esh]. destruct (decide (shardFor h = shardFor k)) as [E|E].
  - rewrite E, list_lookup_alter_eq, Esh. cbn [fmap option_fmap option_map default from_option id blobs]. case_bool_decide as K; [subst h; rewrite lookup_insert_eq; by destruct b|by rewrite lookup_insert_ne].
  - rewrite list_lookup_alter_ne by done. rewrite bool_decide_eq_false_2; [done|]. by intros ->.
Qed.

(** ** What is stored *)

Definition pending_ok (n : nsPending) : Prop :=
  map_Forall (fun id d => DocumentID d = id /\ uuid_wf id) (puts n) /\ (forall id, id ∈ deletes n -> uuid_wf id /\ puts n !! id = None).

Definition docs_ok (bs : shardedBlobStore) : Prop := forall h d, GetDocByBlob bs h = Some d -> ContentHashOf d = h.

(** A tree whose documents are stored. *)
Definition tree_ok (bs : shardedBlobStore) (h : Hash) (t : DocumentTree) : Prop :=
  TreeHash t = h /\ exists m, represents t m /\ map_Forall (fun id ch => exists d, GetDocByBlob bs ch = Some d /\ DocumentID d = id) m.

Definition store_ok (a : InMemoryStorageAdapter) : Prop :=
  shards_ok (blobStore a) /\ docs_ok (blobStore a) /\ map_Forall (tree_ok (blobStore a)) (trees a) /\ forall ns, pending_ok (forNamespace (pending a) ns).

(** The documents of a tree. *)
Definition docs_of (bs : shardedBlobStore) (m : gmap UUID Hash) : gmap UUID Doc := omap (GetDocByBlob bs) m.
Definition view (a : InMemoryStorageAdapter) (h : Hash) : option (gmap UUID Doc) := (fun t => docs_of (blobStore a) (MaterializedEntries t)) <$> trees a !! h.

(** Writes over documents. *)
Definition overlay (n : nsPending) (m : gmap UUID Doc) : gmap UUID Doc := puts n ∪ filter (fun e => e.1 ∉ deletes n) m.

Lemma tree_ok_entries bs h t : tree_ok bs h t -> exists m, represents t m /\ MaterializedEntries t = m /\ map_Forall (fun id ch => exists d, GetDocByBlob bs ch = Some d /\ DocumentID d = id) m.
Proof. intros (_ & m & R & F). exists m. by destruct (represents_reads t m R) as (_ & E & _). Qed.

Lemma GetDocument_view a id h : store_ok a -> uuid_wf id -> GetDocument a id h = view a h ≫= (.!! id).
Proof.
  intros (_ & _ & Ht & _) Hid. unfold GetDocument, view. destruct (trees a !! h) as [t|] eqn:E; [|done]. cbn [fmap option_fmap option_map mbind option_bind]. destruct (tree_ok_entries _ _ _ (Ht h t E)) as (m & R & Em & _).
  destruct (represents_reads t m R) as (_ & _ & Hr). destruct (Hr id Hid) as [-> _]. rewrite Em. unfold docs_of. rewrite lookup_omap. by destruct (m !! id).
Qed.

(** ** Committing *)

(** The tree that the pending writes make of [m]. *)
Definition target (n : nsPending) (m : gmap UUID Hash) : gmap UUID Hash := (ContentHashOf <$> puts n) ∪ filter (fun e => e.1 ∉ deletes n) m.

(** No two of the documents, and no two trees, have one hash. *)
Definition doc_clear (bs : shardedBlobStore) (ps : gmap UUID Doc) : Prop :=
  forall id d, ps !! id = Some d -> (forall d', GetDocByBlob bs (ContentHashOf d) = Some d' -> d' = d) /\ (forall id' d', ps !! id' = Some d' -> ContentHashOf d' = ContentHashOf d -> d' = d).
Definition tree_clear (a : InMemoryStorageAdapter) (m : gmap UUID Hash) : Prop := forall t, trees a !! TreeMap.tree_hash m = Some t -> MaterializedEntries t = m.
Definition commit_clear (ns : bytes) (parent : Hash) (a : InMemoryStorageAdapter) : Prop :=
  doc_clear (blobStore a) (puts (forNamespace (pending a) ns)) /\
  forall t, trees a !! parent = Some t -> tree_clear a (target (forNamespace (pending a) ns) (MaterializedEntries t)).

Lemma Without_all l t m : represents t m -> Forall uuid_wf l -> represents (foldl Without t l) (filter (fun e => e.1 ∉ l) m).
Proof.
  intros R Hl. revert t m R. induction Hl as [|id l Hid Hl IH]; intros t m R; cbn [foldl].
  - rewrite map_filter_id; [done|]. intros i x _. apply not_elem_of_nil.
  - specialize (IH _ _ (Without_represents t m id R Hid)). replace (filter (fun e => e.1 ∉ id :: l) m) with (filter (fun e : UUID * Hash => e.1 ∉ l) (delete id m)); [done|].
    apply map_eq. intros i. apply option_eq. intros x. rewrite !map_lookup_filter_Some, lookup_delete_Some. cbn. rewrite not_elem_of_cons. naive_solver.
Qed.

(** Remembering documents and putting their hashes into a tree. *)
Lemma Put_all l bs t m : shards_ok bs -> docs_ok bs -> represents t m -> Forall (fun e => uuid_wf e.1) l ->
  let '(bs', t') := foldl (fun '(bs, t) '(id, d) => (RememberDocument d bs, With t id (ContentHashOf d))) (bs, t) l in
  shards_ok bs' /\ docs_ok bs' /\ represents t' (foldl (fun m (e : UUID * Doc) => <[e.1 := ContentHashOf e.2]> m) m l) /\
  (forall h d, GetDocByBlob bs' h = Some d -> GetDocByBlob bs h = Some d \/ exists id, (id, d) ∈ l) /\
  (forall h, is_Some (GetDocByBlob bs h) -> is_Some (GetDocByBlob bs' h)) /\ forall id d, (id, d) ∈ l -> is_Some (GetDocByBlob bs' (ContentHashOf d)).
Proof.
  intros Hs Hd R Hl. revert bs t m Hs Hd R. induction Hl as [|[id d] l Hid Hl IH]; intros bs t m Hs Hd R; cbn [foldl].
  { split_and!; [done|done|done|by left|done|]. intros id d Hin. by apply not_elem_of_nil in Hin. }
  assert (Hd' : docs_ok (RememberDocument d bs)). { intros h d'. rewrite GetDoc_Remember by done. case_bool_decide as E; [by intros [= <-]|apply Hd]. }
  specialize (IH (RememberDocument d bs) (With t id (ContentHashOf d)) (<[id := ContentHashOf d]> m) (Remember_shards d bs Hs) Hd' (With_represents t m id _ R Hid (ContentHashOf_wf d))).
  destruct (foldl _ _ l) as [bs' t']. destruct IH as (I1 & I2 & I3 & I4 & I5 & I6).
  assert (Hin : forall h, is_Some (GetDocByBlob bs h) -> is_Some (GetDocByBlob (RememberDocument d bs) h)). { intros h Hh. rewrite GetDoc_Remember by done. case_bool_decide; [by eexists|done]. }
  split_and!; [done|done|done| |auto|].
  - intros h d' E. apply I4 in E as [E|(id' & E)]; [|right; exists id'; by right]. rewrite GetDoc_Remember in E by done. case_bool_decide as K; [|by left]. injection E as <-. right. exists id. by left.
  - intros id' d' [E|E]%elem_of_cons; [|by eapply I6]. injection E as -> ->. apply I5. rewrite GetDoc_Remember by done. rewrite bool_decide_eq_true_2 by done. by eexists.
Qed.

Lemma insert_all {A B} (f : A -> B) (ps : gmap UUID A) l (m : gmap UUID B) : l ≡ₚ map_to_list ps -> foldl (fun m e => <[e.1 := f e.2]> m) m l = (f <$> ps) ∪ m.
Proof.
  intros P. assert (Hn : NoDup l.*1) by (rewrite P; apply NoDup_fst_map_to_list). replace ps with (list_to_map l : gmap UUID A) by (rewrite <- (list_to_map_to_list ps); by apply list_to_map_proper).
  clear P. revert m. induction l as [|[id a] l IH]; intros m; cbn [foldl list_to_map foldr]; [by rewrite fmap_empty, (left_id_L ∅ (∪))|]. apply NoDup_cons in Hn as [Hx Hn]. rewrite IH by done. cbn [fst snd]. rewrite fmap_insert, <- insert_union_l, insert_union_r; [done|].
  rewrite lookup_fmap. by rewrite not_elem_of_list_to_map_1.
Qed.

Lemma docs_of_more bs bs' m : docs_ok bs' -> (forall h d, GetDocByBlob bs h = Some d -> GetDocByBlob bs' h = Some d) -> map_Forall (fun id ch => exists d, GetDocByBlob bs ch = Some d /\ DocumentID d = id) m -> docs_of bs' m = docs_of bs m.
Proof.
  intros _ Hm F. unfold docs_of. apply map_eq. intros id. rewrite !lookup_omap. destruct (m !! id) as [ch|] eqn:E; [|done]. cbn. destruct (F id ch E) as (d & Hd & _). by rewrite Hd, (Hm ch d).
Qed.

Lemma tree_ok_more bs bs' h t : (forall h d, GetDocByBlob bs h = Some d -> GetDocByBlob bs' h = Some d) -> tree_ok bs h t -> tree_ok bs' h t.
Proof. intros Hm (E & m & R & F). split; [done|]. exists m. split; [done|]. intros id ch Hc. destruct (F id ch Hc) as (d & ? & ?). exists d. auto. Qed.

(** A commit puts the pending writes of the namespace over the documents of the parent, clears
    them, and changes the documents of no other tree. *)
Lemma CommitTree_spec dorder porder ns parent a m : store_ok a -> (forall X, dorder X ≡ₚ elements X) -> (forall M, porder M ≡ₚ map_to_list M) -> view a parent = Some m -> commit_clear ns parent a ->
  exists t a', CommitTree_in dorder porder ns parent a = (Ok t, a') /\ store_ok a' /\ view a' (TreeHash t) = Some (overlay (forNamespace (pending a) ns) m) /\
    (forall h m', view a h = Some m' -> view a' h = Some m') /\ pending a' = discardAll ns (pending a).
Proof.
  intros Hok Hdo Hpo Hv [Hdc Htc]. pose proof Hok as (Hsh & Hdk & Htr & Hpe). unfold view in Hv. destruct (trees a !! parent) as [base|] eqn:Eb; [|done]. injection Hv as <-. specialize (Htc base eq_refl). set (n := forNamespace (pending a) ns) in *.
  destruct (tree_ok_entries _ _ _ (Htr parent base Eb)) as (mb & Rb & Em & Fb). destruct (Hpe ns) as [Hpp Hpd]. fold n in Hpp, Hpd. rewrite Em in *.
  assert (Rw : represents (foldl Without base (dorder (deletes n))) (filter (fun e => e.1 ∉ deletes n) mb)).
  { replace (filter (fun e => e.1 ∉ deletes n) mb) with (filter (fun e : UUID * Hash => e.1 ∉ dorder (deletes n)) mb); [|apply map_filter_ext; intros i x _; cbn; by rewrite Hdo, elem_of_elements].
    apply Without_all; [done|]. apply Forall_forall. intros id Hid. rewrite Hdo, elem_of_elements in Hid. by apply Hpd. }
  assert (Hpw : Forall (fun e => uuid_wf e.1) (porder (puts n))). { apply Forall_forall. intros [id d] Hin. rewrite Hpo, elem_of_map_to_list in Hin. by apply (Hpp id d). }
  unfold CommitTree_in. rewrite Eb. cbn [takeAndClear]. fold n. pose proof (Put_all (porder (puts n)) (blobStore a) _ _ Hsh Hdk Rw Hpw) as P.
  rewrite (insert_all ContentHashOf (puts n)) in P by done. fold (target n mb) in P. destruct (foldl _ (blobStore a, _) (porder (puts n))) as [bs t]. destruct P as (P1 & P2 & P3 & P4 & P5 & P6).
  assert (Hold : forall h d, GetDocByBlob (blobStore a) h = Some d -> GetDocByBlob bs h = Some d).
  { intros h d Hd. destruct (P5 h ltac:(by eexists)) as [d' Hd']. rewrite Hd'. f_equal. apply P4 in Hd' as Hd''. destruct Hd'' as [E|(id & Hin)]; [congruence|]. rewrite Hpo, elem_of_map_to_list in Hin. destruct (Hdc id d' Hin) as [H1 _].
    symmetry. apply H1. by rewrite (P2 h d' Hd'). }
  assert (Hnew : forall id d, puts n !! id = Some d -> GetDocByBlob bs (ContentHashOf d) = Some d).
  { intros id d Hd. destruct (P6 id d) as [d' Hd']; [by rewrite Hpo, elem_of_map_to_list|]. rewrite Hd'. f_equal. apply P4 in Hd' as Hd''. destruct (Hdc id d Hd) as [H1 H2]. destruct Hd'' as [E|(id' & Hin)]; [by apply H1|]. rewrite Hpo, elem_of_map_to_list in Hin. apply (H2 id' d' Hin). by apply P2. }
  assert (Ft : map_Forall (fun id ch => exists d, GetDocByBlob bs ch = Some d /\ DocumentID d = id) (target n mb)).
  { intros id ch Hc. unfold target in Hc. apply lookup_union_Some_raw in Hc as [Hc|[_ Hc]].
    - rewrite lookup_fmap in Hc. destruct (puts n !! id) as [d|] eqn:E; [|done]. injection Hc as <-. exists d. split; [by eapply Hnew|by apply (Hpp id d)].
    - apply map_lookup_filter_Some in Hc as [Hc _]. destruct (Fb id ch Hc) as (d & Hd & Ei). exists d. auto. }
  assert (Et : MaterializedEntries t = target n mb) by by destruct (represents_reads t _ P3) as (_ & E & _).
  assert (Eh : TreeHash t = TreeMap.tree_hash (target n mb)) by apply P3.
  eexists t, _. split; [done|]. split_and!.
  - unfold store_ok. cbn [blobStore trees pending]. split_and!; [done|done| |].
    + apply map_Forall_insert_2; [split; [done|by exists (target n mb)]|]. eapply map_Forall_impl; [exact Htr|]. intros h t'. by apply (tree_ok_more (blobStore a)).
    + intros ns'. unfold forNamespace. destruct (decide (ns' = ns)) as [->|Hd]; [rewrite lookup_insert_eq; split; [apply map_Forall_empty|]; intros id Hid; cbn in Hid; by apply not_elem_of_empty in Hid|rewrite lookup_insert_ne by done; apply Hpe].
  - unfold view. cbn [blobStore trees]. rewrite lookup_insert_eq. cbn [fmap option_fmap option_map]. f_equal. rewrite Et. unfold docs_of, overlay, target. apply map_eq. intros id. apply option_eq. intros d. rewrite lookup_omap, lookup_union_Some_raw.
    destruct (puts n !! id) as [d0|] eqn:E0.
    + rewrite (lookup_union_Some_l _ _ id (ContentHashOf d0)) by by rewrite lookup_fmap, E0. cbn [mbind option_bind]. rewrite (Hnew id d0 E0). naive_solver.
    + rewrite lookup_union_r by by rewrite lookup_fmap, E0. rewrite map_lookup_filter_Some, lookup_omap. split.
      * intros Hd. destruct (filter _ mb !! id) as [ch|] eqn:Ef; [|done]. apply map_lookup_filter_Some in Ef as [Ef Hi]. cbn [mbind option_bind] in Hd. destruct (Fb id ch Ef) as (d' & Hd' & _). rewrite (Hold ch d' Hd') in Hd. injection Hd as <-. right. split; [done|]. rewrite Ef. done.
      * intros [?|(_ & Hd & Hi)]; [done|]. destruct (mb !! id) as [ch|] eqn:Ef; [|done]. rewrite (map_lookup_filter_Some_2 _ _ _ _ Ef Hi). cbn [mbind option_bind] in Hd |- *. by apply Hold.
  - intros h m' Hv. unfold view in *. cbn [blobStore trees]. destruct (trees a !! h) as [t'|] eqn:E'; [|done]. injection Hv as <-. destruct (tree_ok_entries _ _ _ (Htr h t' E')) as (m'' & R'' & Em'' & F'').
    destruct (decide (h = TreeHash t)) as [->|Hd].
    + rewrite lookup_insert_eq. cbn [fmap option_fmap option_map]. f_equal. rewrite Et. rewrite <- (Htc t') by by rewrite <- Eh. rewrite Em''. by apply docs_of_more.
    + rewrite lookup_insert_ne by done. rewrite E'. cbn [fmap option_fmap option_map]. f_equal. rewrite Em''. by apply docs_of_more.
  - done.
Qed.

(** ** Taking a tree over *)

Lemma Remember_all l bs : shards_ok bs -> docs_ok bs ->
  let bs' := foldl (fun bs d => RememberDocument d bs) bs l in
  shards_ok bs' /\ docs_ok bs' /\ (forall h d, GetDocByBlob bs' h = Some d -> GetDocByBlob bs h = Some d \/ d ∈ l) /\
  (forall h, is_Some (GetDocByBlob bs h) -> is_Some (GetDocByBlob bs' h)) /\ forall d, d ∈ l -> is_Some (GetDocByBlob bs' (ContentHashOf d)).
Proof.
  revert bs. induction l as [|d l IH]; intros bs Hs Hd; cbn [foldl]; [split_and!; [done|done|by left|done|by intros d ?%not_elem_of_nil]|].
  assert (Hd' : docs_ok (RememberDocument d bs)). { intros h d'. rewrite GetDoc_Remember by done. case_bool_decide as E; [by intros [= <-]|apply Hd]. }
  destruct (IH _ (Remember_shards d bs Hs) Hd') as (I1 & I2 & I3 & I4 & I5). assert (Hin : forall h, is_Some (GetDocByBlob bs h) -> is_Some (GetDocByBlob (RememberDocument d bs) h)). { intros h Hh. rewrite GetDoc_Remember by done. case_bool_decide; [by eexists|done]. }
  split_and!; [done|done| |auto|].
  - intros h d' [E|E]%I3; [|right; by right]. rewrite GetDoc_Remember in E by done. case_bool_decide; [injection E as <-; right; by left|by left].
  - intros d' [->|Hd1]%elem_of_cons; [|auto]. apply I4. rewrite GetDoc_Remember by done. rewrite bool_decide_eq_true_2 by done. by eexists.
Qed.

(** The documents that the texts make of the entries of a tree. *)
Definition bodies_of (bodies : gmap UUID bytes) (m : gmap UUID Hash) : gmap UUID Doc := map_imap (fun id _ => mkDoc id <$> bodies !! id) m.

Definition matches (bodies : gmap UUID bytes) (e : UUID * Hash) : bool := match bodies !! e.1 with Some body => bool_decide (ContentHashOf (mkDoc e.1 body) = e.2) | None => false end.

Lemma foreign_walk bodies h l docs : let r := (fold_until (foreign_visit bodies h) (docs, None) l).1 in
  if forallb (matches bodies) l then r = (docs ++ omap (fun e => mkDoc e.1 <$> bodies !! e.1) l, None) else is_Some r.2.
Proof.
  revert docs. induction l as [|e l IH]; intros docs; [cbn; by rewrite app_nil_r|]. cbv zeta. cbn [fold_until forallb]. destruct (matches bodies e) eqn:Em; unfold matches in Em.
  - destruct (bodies !! e.1) as [body|] eqn:Eb; [|done]. assert (foreign_visit bodies h (docs, None) e = (docs ++ [mkDoc e.1 body], None, true)) as ->. { unfold foreign_visit. by rewrite Eb, Em. }
    specialize (IH (docs ++ [mkDoc e.1 body])). cbv zeta in IH. cbn [andb]. destruct (forallb (matches bodies) l); [|exact IH]. rewrite IH. cbn [omap list_omap]. rewrite Eb. cbn [fmap option_fmap option_map]. by rewrite <- app_assoc.
  - assert (exists er, foreign_visit bodies h (docs, None) e = (docs, Some er, false)) as [er ->]. { unfold foreign_visit. destruct (bodies !! e.1); [rewrite Em|]; by eexists. } cbn. by eexists.
Qed.

Lemma matches_all bodies m l : l ≡ₚ map_to_list m -> forallb (matches bodies) l = bool_decide (ContentHashOf <$> bodies_of bodies m = m).
Proof.
  intros P. symmetry. destruct (forallb (matches bodies) l) eqn:E.
  - apply bool_decide_eq_true_2. rewrite forallb_forall in E. apply map_eq. intros id. unfold bodies_of. rewrite lookup_fmap, map_lookup_imap. destruct (m !! id) as [h|] eqn:Em; [|done]. cbn [mbind option_bind].
    specialize (E (id, h)). unfold matches in E. cbn [fst snd] in E. destruct (bodies !! id) as [body|]; cbn.
    + f_equal. eapply bool_decide_eq_true_1. apply E. apply list_elem_of_In. by rewrite P, elem_of_map_to_list.
    + exfalso. enough (false = true) by done. apply E. apply list_elem_of_In. by rewrite P, elem_of_map_to_list.
  - apply bool_decide_eq_false_2. intros Em. enough (forallb (matches bodies) l = true) by congruence. apply forallb_forall. intros [id h] Hin%list_elem_of_In. rewrite P, elem_of_map_to_list in Hin. unfold matches. cbn [fst snd].
    rewrite <- Em in Hin. unfold bodies_of in Hin. rewrite lookup_fmap, map_lookup_imap in Hin. destruct (m !! id); [|done]. cbn in Hin. destruct (bodies !! id) as [body|]; [|done]. cbn in Hin. injection Hin as <-. by apply bool_decide_eq_true_2.
Qed.

Lemma Walk_perm {S} ord (visit : S -> UUID * Hash -> S * bool) s t m : represents t m -> ord ≡ₚ map_to_list m -> exists l, l ≡ₚ map_to_list m /\ Walk ord visit s t = (fold_until visit s l).1.
Proof.
  intros R P. destruct (Entries t) as [e|] eqn:E; [exists ord; split; [done|]; unfold Walk; by rewrite E|]. exists (ordered m). split; [apply ordered_perm, R|by apply Walk_trie].
Qed.

Definition foreign_clear (t : DocumentTree) (bodies : gmap UUID bytes) (a : InMemoryStorageAdapter) : Prop :=
  doc_clear (blobStore a) (bodies_of bodies (MaterializedEntries t)) /\ tree_clear a (MaterializedEntries t).

(** A tree made elsewhere is taken over with its documents when the texts hash to its entries, and
    else nothing changes. *)
Lemma StoreForeignTree_spec ord t bodies a m : store_ok a -> represents t m -> ord ≡ₚ map_to_list m -> foreign_clear t bodies a ->
  let '(e, a') := StoreForeignTree ord t bodies a in
  if bool_decide (ContentHashOf <$> bodies_of bodies m = m) then
    e = None /\ store_ok a' /\ trees a' = <[TreeHash t := t]> (trees a) /\ view a' (TreeHash t) = Some (bodies_of bodies m) /\ (forall h m', view a h = Some m' -> view a' h = Some m') /\ pending a' = pending a
  else is_Some e /\ a' = a.
Proof.
  intros Hok R P [Hdc Htc]. pose proof Hok as (Hsh & Hdk & Htr & Hpe). destruct (represents_reads t m R) as (_ & Em & _). rewrite Em in *. unfold StoreForeignTree. destruct (Walk_perm ord (foreign_visit bodies (TreeHash t)) ([], None) t m R P) as (l & Pl & ->).
  pose proof (foreign_walk bodies (TreeHash t) l []) as Hw. cbv zeta in Hw. rewrite (matches_all bodies m l Pl) in Hw. case_bool_decide as Hall; [|destruct (fold_until _ _ _).1 as [? [e|]]; [by split; [eexists|]|by destruct Hw]].
  rewrite Hw. cbn [app]. set (l' := omap _ l). assert (Hl' : forall d, d ∈ l' <-> exists id, bodies_of bodies m !! id = Some d).
  { intros d. unfold l', bodies_of. rewrite list_elem_of_omap. split.
    - intros ([id h] & Hin & E). rewrite Pl, elem_of_map_to_list in Hin. exists id. rewrite map_lookup_imap, Hin. exact E.
    - intros (id & E). rewrite map_lookup_imap in E. destruct (m !! id) as [h|] eqn:Ei; [|done]. exists (id, h). by rewrite Pl, elem_of_map_to_list. }
  destruct (Remember_all l' (blobStore a) Hsh Hdk) as (P1 & P2 & P4 & P5 & P6). set (bs := foldl _ (blobStore a) l') in *.
  assert (Hold : forall h d, GetDocByBlob (blobStore a) h = Some d -> GetDocByBlob bs h = Some d).
  { intros h d Hd. destruct (P5 h ltac:(by eexists)) as [d' Hd']. rewrite Hd'. f_equal. apply P4 in Hd' as Hd''. destruct Hd'' as [E|(id & Hin)%Hl']; [congruence|]. destruct (Hdc id d' Hin) as [H1 _]. symmetry. apply H1. by rewrite (P2 h d' Hd'). }
  assert (Hnew : forall id d, bodies_of bodies m !! id = Some d -> GetDocByBlob bs (ContentHashOf d) = Some d).
  { intros id d Hd. destruct (P6 d) as [d' Hd']; [apply Hl'; by exists id|]. rewrite Hd'. f_equal. apply P4 in Hd' as Hd''. destruct (Hdc id d Hd) as [H1 H2]. destruct Hd'' as [E|(id' & Hin)%Hl']; [by apply H1|]. apply (H2 id' d' Hin). by apply P2. }
  assert (Ft : forall id h, m !! id = Some h -> exists d, bodies_of bodies m !! id = Some d /\ GetDocByBlob bs h = Some d /\ DocumentID d = id).
  { intros id h Hid. pose proof Hid as Hid'. rewrite <- Hall, lookup_fmap in Hid. destruct (bodies_of bodies m !! id) as [d|] eqn:E; [|done]. injection Hid as <-. exists d. split_and!; [done|by eapply Hnew|]. unfold bodies_of in E. rewrite map_lookup_imap, Hid' in E. cbn in E. destruct (bodies !! id); [|done]. by injection E as <-. }
  assert (Eh : TreeHash t = TreeMap.tree_hash m) by apply R. split_and!; [done| |done| | |done].
  - unfold store_ok. cbn [blobStore trees pending]. split_and!; [done|done| |done]. apply map_Forall_insert_2; [split; [done|]; exists m; split; [done|]; intros id h Hid; destruct (Ft id h Hid) as (d & _ & ? & ?); by exists d|]. eapply map_Forall_impl; [exact Htr|]. intros h t'. by apply (tree_ok_more (blobStore a)).
  - unfold view. cbn [blobStore trees]. rewrite lookup_insert_eq. cbn [fmap option_fmap option_map]. f_equal. rewrite Em. unfold docs_of. apply map_eq. intros id. rewrite lookup_omap. destruct (m !! id) as [h|] eqn:Ei; cbn [mbind option_bind].
    + destruct (Ft id h Ei) as (d & -> & -> & _). done.
    + unfold bodies_of. by rewrite map_lookup_imap, Ei.
  - intros h m' Hv. unfold view in *. cbn [blobStore trees]. destruct (trees a !! h) as [t'|] eqn:E'; [|done]. injection Hv as <-. destruct (tree_ok_entries _ _ _ (Htr h t' E')) as (m'' & R'' & Em'' & F'').
    destruct (decide (h = TreeHash t)) as [->|Hd].
    + rewrite lookup_insert_eq. cbn [fmap option_fmap option_map]. f_equal. rewrite Em. rewrite <- (Htc t') by by rewrite <- Eh. rewrite Em''. by apply docs_of_more.
    + rewrite lookup_insert_ne by done. rewrite E'. cbn [fmap option_fmap option_map]. f_equal. rewrite Em''. by apply docs_of_more.
Qed.

(** ** The store as a map of trees *)

(** What a client sees: the documents of each committed tree, and the requests that no commit or
    discard has taken yet, in the order they were made: a document to store, or one to remove. *)
Inductive request := Store (d : Doc) | Remove (id : UUID).
Record store_spec := mkSpec { committed : gmap Hash (gmap UUID Doc); requests : list (bytes * request) }.

Inductive store_op :=
| OpPut (ns : bytes) (d : Doc)
| OpDelete (ns : bytes) (id : UUID)
| OpDiscard (ns : bytes)
| OpCommit (ns : bytes) (parent : Hash)
| OpForeign (ord : list (UUID * Hash)) (t : DocumentTree) (bodies : gmap UUID bytes)
| OpWriteKeyedBlob (key : Hash) (b : bytes)
| OpWriteBlob (b : bytes).

(** The hash of the tree that holds the documents. *)
Definition docs_root (m : gmap UUID Doc) : Hash := TreeMap.tree_hash (ContentHashOf <$> m).

(** The requests of a namespace carried out on documents. *)
Definition carry_out (m : gmap UUID Doc) (r : request) : gmap UUID Doc := match r with Store d => <[DocumentID d := d]> m | Remove id => delete id m end.
Definition requested (ns : bytes) (rs : list (bytes * request)) : list request := map snd (List.filter (fun r => bool_decide (r.1 = ns)) rs).
Definition others (ns : bytes) (rs : list (bytes * request)) : list (bytes * request) := List.filter (fun r => negb (bool_decide (r.1 = ns))) rs.
Definition result (ns : bytes) (rs : list (bytes * request)) (m : gmap UUID Doc) : gmap UUID Doc := foldl carry_out m (requested ns rs).

Definition spec_step (s : store_spec) (o : store_op) : store_spec :=
  match o with
  | OpPut ns d => mkSpec (committed s) (requests s ++ [(ns, Store d)])
  | OpDelete ns id => mkSpec (committed s) (requests s ++ [(ns, Remove id)])
  | OpDiscard ns => mkSpec (committed s) (others ns (requests s))
  | OpCommit ns parent =>
    match committed s !! parent with
    | None => s
    | Some m => let m' := result ns (requests s) m in mkSpec (<[docs_root m' := m']> (committed s)) (others ns (requests s))
    end
  | OpForeign _ t bodies =>
    let docs := bodies_of bodies (MaterializedEntries t) in
    if bool_decide (ContentHashOf <$> docs = MaterializedEntries t) then mkSpec (<[TreeHash t := docs]> (committed s)) (requests s) else s
  | OpWriteKeyedBlob _ _ | OpWriteBlob _ => s
  end.

Lemma requested_app ns rs rs' : requested ns (rs ++ rs') = requested ns rs ++ requested ns rs'.
Proof. unfold requested. by rewrite List.filter_app, map_app. Qed.
Lemma requested_others ns ns' rs : requested ns' (others ns rs) = if bool_decide (ns' = ns) then [] else requested ns' rs.
Proof.
  unfold requested, others. induction rs as [|[n r] rs IH]; cbn [List.filter fst]; [by case_bool_decide|]. destruct (bool_decide (n = ns)) eqn:E1; cbn [negb].
  - rewrite IH. apply bool_decide_eq_true in E1 as ->. case_bool_decide as E2; [done|]. by rewrite bool_decide_eq_false_2 by congruence.
  - cbn [List.filter fst]. apply bool_decide_eq_false in E1. destruct (bool_decide (n = ns')) eqn:E3; [|exact IH]. apply bool_decide_eq_true in E3 as ->. cbn [map snd]. rewrite IH. by rewrite bool_decide_eq_false_2.
Qed.

Lemma overlay_none m : overlay (mkPending ∅ ∅) m = m.
Proof. unfold overlay. cbn [puts deletes]. rewrite (left_id_L ∅ (∪)). apply map_filter_id. intros i x _. apply not_elem_of_empty. Qed.
Lemma overlay_put d n m : overlay (mkPending (<[DocumentID d := d]> (puts n)) (deletes n ∖ {[DocumentID d]})) m = <[DocumentID d := d]> (overlay n m).
Proof.
  unfold overlay. cbn [puts deletes]. apply map_eq. intros i. destruct (decide (i = DocumentID d)) as [->|Hn]; [rewrite lookup_insert_eq; apply lookup_union_Some_l, lookup_insert_eq|]. rewrite lookup_insert_ne by done.
  apply option_eq. intros x. rewrite !lookup_union_Some_raw, lookup_insert_ne by done. rewrite !map_lookup_filter_Some. cbn. set_solver.
Qed.
Lemma overlay_delete id n m : overlay (mkPending (delete id (puts n)) ({[id]} ∪ deletes n)) m = delete id (overlay n m).
Proof.
  unfold overlay. cbn [puts deletes]. apply map_eq. intros i. apply option_eq. intros x. rewrite lookup_delete_Some, !lookup_union_Some_raw, lookup_delete_None, lookup_delete_Some, !map_lookup_filter_Some. cbn.
  destruct (decide (i = id)) as [->|Hn]; set_solver.
Qed.

Section orders.
Context (dorder : gset UUID -> list UUID) (porder : gmap UUID Doc -> list (UUID * Doc)).

Definition mem_step (a : InMemoryStorageAdapter) (o : store_op) : InMemoryStorageAdapter :=
  match o with
  | OpPut ns d => PutDocument ns d a
  | OpDelete ns id => DeleteDocument ns id a
  | OpDiscard ns => DiscardPending ns a
  | OpCommit ns parent => (CommitTree_in dorder porder ns parent a).2
  | OpForeign ord t bodies => (StoreForeignTree ord t bodies a).2
  | OpWriteKeyedBlob key b => WriteKeyedBlob key b a
  | OpWriteBlob b => (WriteBlob b a).2
  end.

Definition op_ok (o : store_op) : Prop :=
  match o with
  | OpPut _ d => uuid_wf (DocumentID d)
  | OpDelete _ id => uuid_wf id
  | OpForeign ord t _ => exists m, represents t m /\ ord ≡ₚ map_to_list m
  | _ => True
  end.

(** No commit of the run meets two documents, or two trees, with one hash. *)
Fixpoint run_clear (a : InMemoryStorageAdapter) (os : list store_op) : Prop :=
  match os with
  | [] => True
  | o :: os => match o with OpCommit ns parent => commit_clear ns parent a | OpForeign _ t bodies => foreign_clear t bodies a | _ => True end /\ run_clear (mem_step a o) os
  end.

Definition refines (a : InMemoryStorageAdapter) (s : store_spec) : Prop :=
  store_ok a /\ (forall ns m, overlay (forNamespace (pending a) ns) m = result ns (requests s) m) /\ forall h, view a h = committed s !! h.

Lemma result_other ns ns' r rs m : ns' <> ns -> result ns' (rs ++ [(ns, r)]) m = result ns' rs m.
Proof. intros Hn. unfold result. rewrite requested_app. unfold requested at 2. cbn [List.filter fst]. rewrite bool_decide_eq_false_2 by congruence. cbn [map]. by rewrite app_nil_r. Qed.
Lemma result_snoc ns r rs m : result ns (rs ++ [(ns, r)]) m = carry_out (result ns rs m) r.
Proof. unfold result. rewrite requested_app. unfold requested at 2. cbn [List.filter fst]. rewrite bool_decide_eq_true_2 by done. cbn [map snd]. by rewrite foldl_app. Qed.

(** One namespace's pending writes change. *)
Lemma pending_refines p ns n rs r : (forall ns m, overlay (forNamespace p ns) m = result ns rs m) -> (forall m, overlay n m = carry_out (overlay (forNamespace p ns) m) r) ->
  forall ns' m, overlay (forNamespace (<[ns := n]> p) ns') m = result ns' (rs ++ [(ns, r)]) m.
Proof.
  intros Hp Hn ns' m. unfold forNamespace at 1. destruct (decide (ns' = ns)) as [->|Hne]; [rewrite lookup_insert_eq; cbn [default from_option id]; by rewrite Hn, Hp, result_snoc|]. rewrite lookup_insert_ne by done. rewrite result_other by done. apply Hp.
Qed.
Lemma cleared_refines p ns rs : (forall ns m, overlay (forNamespace p ns) m = result ns rs m) -> forall ns' m, overlay (forNamespace (discardAll ns p) ns') m = result ns' (others ns rs) m.
Proof.
  intros Hp ns' m. unfold result. rewrite requested_others. unfold discardAll, forNamespace. destruct (decide (ns' = ns)) as [->|Hne]; [rewrite lookup_insert_eq, bool_decide_eq_true_2 by done; apply overlay_none|]. rewrite lookup_insert_ne, bool_decide_eq_false_2 by done. apply Hp.
Qed.

Lemma pending_put_ok ns d p : uuid_wf (DocumentID d) -> (forall ns, pending_ok (forNamespace p ns)) -> forall ns', pending_ok (forNamespace (pending_put ns d p) ns').
Proof.
  intros Hd Hp ns'. unfold pending_put, forNamespace at 1. destruct (decide (ns' = ns)) as [->|Hn]; [|rewrite lookup_insert_ne by done; apply Hp]. rewrite lookup_insert_eq. cbn [default from_option id]. destruct (Hp ns) as [H1 H2]. split; cbn [puts deletes].
  - by apply map_Forall_insert_2.
  - intros id Hid. apply elem_of_difference in Hid as [Hid Hne]. destruct (H2 id Hid). split; [done|]. rewrite lookup_insert_ne by set_solver. done.
Qed.

Lemma pending_delete_ok ns u p : uuid_wf u -> (forall ns, pending_ok (forNamespace p ns)) -> forall ns', pending_ok (forNamespace (pending_delete ns u p) ns').
Proof.
  intros Hd Hp ns'. unfold pending_delete, forNamespace at 1. destruct (decide (ns' = ns)) as [->|Hn]; [|rewrite lookup_insert_ne by done; apply Hp]. rewrite lookup_insert_eq. cbn [default from_option id]. destruct (Hp ns) as [H1 H2]. split; cbn [puts deletes].
  - by apply map_Forall_delete.
  - intros i [->%elem_of_singleton|Hi]%elem_of_union; [by rewrite lookup_delete_eq|]. destruct (H2 i Hi) as [? E]. split; [done|]. by apply lookup_delete_None; right.
Qed.

Lemma discard_ok ns p : (forall ns, pending_ok (forNamespace p ns)) -> forall ns', pending_ok (forNamespace (discardAll ns p) ns').
Proof.
  intros Hp ns'. unfold discardAll, forNamespace. destruct (decide (ns' = ns)) as [->|Hn]; [|rewrite lookup_insert_ne by done; apply Hp]. rewrite lookup_insert_eq. split; cbn; [apply map_Forall_empty|set_solver].
Qed.

Lemma set_blob_shards k b bs : shards_ok bs -> shards_ok (set_blob k b bs).
Proof. unfold shards_ok, set_blob. by rewrite length_alter. Qed.

(** Writing a blob is not seen by the documents. *)
Lemma WriteKeyedBlob_ok k b a : store_ok a -> store_ok (WriteKeyedBlob k b a) /\ forall h, view (WriteKeyedBlob k b a) h = view a h.
Proof.
  intros (H1 & H2 & H3 & H4). split.
  - unfold store_ok. cbn [blobStore trees pending WriteKeyedBlob]. split_and!; [by apply set_blob_shards| | |done].
    + intros h d. rewrite set_blob_docs. apply H2.
    + eapply map_Forall_impl; [exact H3|]. intros h t. apply tree_ok_more. intros ? ?. by rewrite set_blob_docs.
  - intros h. unfold view. cbn [trees blobStore WriteKeyedBlob]. destruct (trees a !! h); [|done]. cbn [fmap option_fmap option_map]. f_equal. unfold docs_of. apply map_eq. intros i. rewrite !lookup_omap. destruct (_ !! i); [|done]. cbn. apply set_blob_docs.
Qed.

(** The hashes of the documents of a tree are the tree. *)
Lemma view_hashes a h m : store_ok a -> view a h = Some m -> exists t, trees a !! h = Some t /\ MaterializedEntries t = ContentHashOf <$> m /\ represents t (ContentHashOf <$> m) /\ m = docs_of (blobStore a) (MaterializedEntries t).
Proof.
  intros (_ & Hd & Ht & _) Hv. unfold view in Hv. destruct (trees a !! h) as [t|] eqn:E; [|done]. injection Hv as <-. destruct (tree_ok_entries _ _ _ (Ht h t E)) as (mt & R & Em & F). exists t. rewrite Em.
  assert (ContentHashOf <$> docs_of (blobStore a) mt = mt) as ->; [|done]. apply map_eq. intros i. unfold docs_of. rewrite lookup_fmap, lookup_omap. destruct (mt !! i) as [ch|] eqn:Ei; [|done]. cbn. destruct (F i ch Ei) as (d & Hg & _). rewrite Hg. cbn. f_equal. by apply Hd.
Qed.

Lemma target_overlay n (m : gmap UUID Doc) : target n (ContentHashOf <$> m) = ContentHashOf <$> overlay n m.
Proof.
  unfold target, overlay. rewrite map_fmap_union. f_equal. apply map_eq. intros i. apply option_eq. intros x. rewrite map_lookup_filter_Some, !lookup_fmap. split.
  - intros [Hx Hi]. apply fmap_Some in Hx as (d & Hd & ->). by rewrite (map_lookup_filter_Some_2 _ _ _ _ Hd Hi).
  - intros Hx. apply fmap_Some in Hx as (d & Hd & ->). apply map_lookup_filter_Some in Hd as [Hd Hi]. by rewrite Hd.
Qed.

Context (Hdo : forall X, dorder X ≡ₚ elements X) (Hpo : forall M, porder M ≡ₚ map_to_list M).

(** The tree a commit makes is the one of its documents. *)
Lemma CommitTree_root ns parent a m t a' : store_ok a -> view a parent = Some m -> CommitTree_in dorder porder ns parent a = (Ok t, a') -> store_ok a' -> view a' (TreeHash t) = Some (overlay (forNamespace (pending a) ns) m) ->
  TreeHash t = docs_root (overlay (forNamespace (pending a) ns) m).
Proof.
  intros Hok Hv Hc Hok' Hv'. destruct (view_hashes _ _ _ Hok' Hv') as (t' & Et & _ & R & _). destruct Hok' as (_ & _ & Ht & _). destruct (Ht _ _ Et) as [E _]. rewrite <- E. apply R.
Qed.

Lemma commit_refines a s ns parent : refines a s -> commit_clear ns parent a -> refines (mem_step a (OpCommit ns parent)) (spec_step s (OpCommit ns parent)).
Proof.
  intros (Hok & Hp & Hv) Hc. cbn [mem_step spec_step]. rewrite <- Hv. destruct (view a parent) as [m|] eqn:Em; [|unfold CommitTree_in; unfold view in Em; by destruct (trees a !! parent)].
  destruct (CommitTree_spec dorder porder ns parent a m Hok Hdo Hpo Em Hc) as (t & a' & E & Hok' & Hv' & Hold & Hpe). rewrite E. cbn [snd]. pose proof (CommitTree_root ns parent a m t a' Hok Em E Hok' Hv') as Er. rewrite Hp in Hv', Er.
  split_and!; [done|rewrite Hpe; cbn [requests]; by apply cleared_refines|]. cbn [committed]. intros h. rewrite <- Er. destruct (decide (h = TreeHash t)) as [->|Hn]; [by rewrite lookup_insert_eq|]. rewrite lookup_insert_ne by done. rewrite <- Hv.
  destruct (view a h) as [mh|] eqn:Eh; [by apply Hold|]. unfold CommitTree_in in E. destruct (trees a !! parent) as [base|]; [|done]. cbn [takeAndClear] in E. destruct (foldl _ (blobStore a, _) _) as [bs t0] in E. injection E as -> <-. unfold view in *. cbn [trees]. rewrite lookup_insert_ne by done. by destruct (trees a !! h).
Qed.

Lemma foreign_refines a s ord t bodies : refines a s -> op_ok (OpForeign ord t bodies) -> foreign_clear t bodies a -> refines (mem_step a (OpForeign ord t bodies)) (spec_step s (OpForeign ord t bodies)).
Proof.
  intros (Hok & Hp & Hv) (m & R & P) Hc. cbn [mem_step spec_step]. cbv zeta. pose proof (StoreForeignTree_spec ord t bodies a m Hok R P Hc) as Hs. destruct (represents_reads t m R) as (_ & Em & _). rewrite Em in *.
  destruct (StoreForeignTree ord t bodies a) as [e a']. cbn [snd]. case_bool_decide; [|destruct Hs as [_ ->]; by split_and!]. destruct Hs as (_ & Hok' & Et & Hv' & Hold & Hpe). split_and!; [done|by rewrite Hpe|]. cbn [committed]. intros h.
  destruct (decide (h = TreeHash t)) as [->|Hn]; [by rewrite lookup_insert_eq|]. rewrite lookup_insert_ne by done. rewrite <- Hv. destruct (view a h) as [mh|] eqn:Eh; [by apply Hold|]. unfold view in *. rewrite Et, lookup_insert_ne by done. by destruct (trees a !! h).
Qed.

Lemma step_refines a s o : refines a s -> op_ok o -> run_clear a [o] -> refines (mem_step a o) (spec_step s o).
Proof.
  intros Hr Ho [Hc _]. pose proof Hr as (Hok & Hp & Hv). pose proof Hok as (H1 & H2 & H3 & H4). destruct o as [ns d|ns id|ns|ns parent|ord t bodies|k b|b]; [| | |by apply commit_refines|by apply foreign_refines| |]; cbn [mem_step spec_step op_ok requests] in *.
  - split_and!; [split_and!; [done..|]; by apply pending_put_ok| |done]. apply pending_refines; [done|]. intros m. apply overlay_put.
  - split_and!; [split_and!; [done..|]; by apply pending_delete_ok| |done]. apply pending_refines; [done|]. intros m. apply overlay_delete.
  - split_and!; [split_and!; [done..|]; by apply discard_ok| |done]. by apply cleared_refines.
  - destruct (WriteKeyedBlob_ok k b a Hok) as [K1 K2]. split_and!; [done|done|]. intros h. by rewrite K2.
  - destruct (WriteKeyedBlob_ok (mkHash (SHA256Digest b)) b a Hok) as [K1 K2]. split_and!; [done|done|]. intros h. by rewrite K2.
Qed.

Lemma run_refines os a s : refines a s -> Forall op_ok os -> run_clear a os -> refines (foldl mem_step a os) (foldl spec_step s os).
Proof.
  revert a s. induction os as [|o os IH]; intros a s Hr Hos Hc; [done|]. destruct Hc as [Hc Hcs]. inversion Hos; subst. cbn [foldl]. apply IH; [|done..]. by apply step_refines.
Qed.

End orders.

Lemma Empty_represents : represents EmptyDocumentTree ∅.
Proof. apply BuildDocumentTree_represents, map_Forall_empty. Qed.

Lemma New_ok : store_ok NewInMemoryStorageAdapter.
Proof.
  assert (Hsh : forall h, shard newShardedBlobStore h = mkShard ∅ ∅).
  { intros h. unfold shard, newShardedBlobStore. destruct (repeat _ _ !! shardFor h) as [x|] eqn:E; [|done]. apply list_elem_of_lookup_2, list_elem_of_In, repeat_spec in E. by subst. }
  unfold store_ok, NewInMemoryStorageAdapter. cbn [blobStore trees pending]. split_and!.
  - unfold shards_ok, newShardedBlobStore. apply repeat_length.
  - intros h d. unfold GetDocByBlob. rewrite Hsh. cbn [docsByBlob]. by rewrite lookup_empty.
  - apply map_Forall_singleton. split; [done|]. exists ∅. split; [apply Empty_represents|apply map_Forall_empty].
  - intros ns. unfold forNamespace. rewrite lookup_empty. split; cbn; [apply map_Forall_empty|set_solver].
Qed.

Definition spec_init : store_spec := mkSpec {[docs_root ∅ := ∅]} [].

Lemma New_refines : refines NewInMemoryStorageAdapter spec_init.
Proof.
  split_and!; [exact New_ok|intros ns m; unfold forNamespace; cbn [pending NewInMemoryStorageAdapter]; rewrite lookup_empty; apply overlay_none|]. intros h. unfold view, spec_init, NewInMemoryStorageAdapter. cbn [trees committed blobStore]. pose proof Empty_represents as R. destruct (represents_reads _ _ R) as (_ & Em & _).
  assert (TreeHash EmptyDocumentTree = docs_root ∅) as ->. { unfold docs_root. rewrite fmap_empty. apply R. }
  destruct (decide (h = docs_root ∅)) as [->|Hn]; [|by rewrite !lookup_singleton_ne]. rewrite !lookup_singleton_eq. cbn [fmap option_fmap option_map]. f_equal.
Qed.

Lemma run_clear_app dorder porder os os' a : run_clear dorder porder a (os ++ os') -> run_clear dorder porder a os /\ run_clear dorder porder (foldl (mem_step dorder porder) a os) os'.
Proof. revert a. induction os as [|o os IH]; intros a H; cbn [run_clear foldl app] in *; [done|]. destruct H as [? H]. by destruct (IH _ H). Qed.

(** What was committed stays. *)
Lemma mem_step_keeps dorder porder a o h m : (forall X, dorder X ≡ₚ elements X) -> (forall M, porder M ≡ₚ map_to_list M) -> store_ok a -> op_ok o -> run_clear dorder porder a [o] -> view a h = Some m -> view (mem_step dorder porder a o) h = Some m.
Proof.
  intros Hdo Hpo Hok Ho [Hc _] Hv. destruct o as [| | |ns parent|ord t bodies|k b|b]; cbn [mem_step]; [done|done|done| | | |].
  - destruct (view a parent) as [mp|] eqn:Em.
    + destruct (CommitTree_spec dorder porder ns parent a mp Hok Hdo Hpo Em Hc) as (t & a' & -> & _ & _ & Hold & _). by apply Hold.
    + unfold CommitTree_in. unfold view in Em. by destruct (trees a !! parent).
  - destruct Ho as (mt & R & P). pose proof (StoreForeignTree_spec ord t bodies a mt Hok R P Hc) as Hs. destruct (StoreForeignTree ord t bodies a) as [e a']. cbn [snd]. case_bool_decide; [destruct Hs as (_ & _ & _ & _ & Hold & _); by apply Hold|by destruct Hs as [_ ->]].
  - destruct (WriteKeyedBlob_ok k b a Hok) as [_ K]. by rewrite <- K in Hv.
  - destruct (WriteKeyedBlob_ok (mkHash (SHA256Digest b)) b a Hok) as [_ K]. by rewrite <- K in Hv.
Qed.

Lemma run_keeps dorder porder os a s h m : (forall X, dorder X ≡ₚ elements X) -> (forall M, porder M ≡ₚ map_to_list M) -> refines a s -> Forall op_ok os -> run_clear dorder porder a os -> view a h = Some m -> view (foldl (mem_step dorder porder) a os) h = Some m.
Proof.
  intros Hdo Hpo. revert a s. induction os as [|o os IH]; intros a s Hr Hos Hc Hv; [done|]. destruct Hc as [Hc Hcs]. inversion Hos; subst. cbn [foldl].
  eapply (IH _ (spec_step s o)); [|done|done|]; [by apply step_refines|apply mem_step_keeps; [done|done|apply Hr|done|done|done]].
Qed.

(** C31. The in-memory store is a map of trees.  After any sequence of puts, deletes, discards,
    commits, trees taken over from elsewhere and blob writes on a new adapter, in whatever order
    its maps are ranged over: a document read at a tree hash is the one the abstract store has
    there; the next commit returns the tree of the parent's documents with the requests that the
    namespace made since its last commit or discard carried out on them in their order, or fails
    when the parent is unknown; and every tree that an earlier prefix of the sequence stored still
    has the same documents.  The operations must meet no two documents and no two trees with one
    hash. *)
Theorem store_refines dorder porder os os' : (forall X, dorder X ≡ₚ elements X) -> (forall M, porder M ≡ₚ map_to_list M) -> Forall op_ok (os ++ os') -> run_clear dorder porder NewInMemoryStorageAdapter (os ++ os') ->
  let a0 := foldl (mem_step dorder porder) NewInMemoryStorageAdapter os in
  let a := foldl (mem_step dorder porder) NewInMemoryStorageAdapter (os ++ os') in
  let s := foldl spec_step spec_init (os ++ os') in
  (forall id h, uuid_wf id -> GetDocument a id h = committed s !! h ≫= (.!! id)) /\
  (forall id h, uuid_wf id -> is_Some (TreeAt h a0) -> GetDocument a id h = GetDocument a0 id h) /\
  forall ns parent, commit_clear ns parent a ->
    match committed s !! parent with
    | Some m => exists t, (CommitTree_in dorder porder ns parent a).1 = Ok t /\ TreeHash t = docs_root (result ns (requests s) m) /\
        forall id, uuid_wf id -> HashFor t id = ContentHashOf <$> result ns (requests s) m !! id
    | None => CommitTree_in dorder porder ns parent a = (Err (MissingParent parent), a)
    end.
Proof.
  intros Hdo Hpo Hos Hc a0 a s. apply Forall_app in Hos as [Ho Ho']. apply run_clear_app in Hc as [Hc Hc'].
  pose proof (run_refines dorder porder Hdo Hpo os _ _ New_refines Ho Hc) as R0. fold a0 in R0. pose proof (run_refines dorder porder Hdo Hpo os' _ _ R0 Ho' Hc') as R. unfold a0 in R. rewrite <- !foldl_app in R. fold a s in R. destruct R as (Hok & Hp & Hv). split_and!.
  - intros id h Hid. by rewrite GetDocument_view, Hv.
  - intros id h Hid [t Ht]. rewrite !GetDocument_view by (done || apply R0). unfold TreeAt in Ht. f_equal. destruct (view a0 h) as [m|] eqn:Em; [|unfold view in Em; by rewrite Ht in Em]. unfold a. rewrite foldl_app. fold a0. by eapply run_keeps.
  - intros ns parent Hcl. rewrite <- Hv. destruct (view a parent) as [m|] eqn:Em; [|unfold CommitTree_in; unfold view in Em; by destruct (trees a !! parent)].
    destruct (CommitTree_spec dorder porder ns parent a m Hok Hdo Hpo Em Hcl) as (t & a' & E & Hok' & Hv' & _). pose proof (CommitTree_root dorder porder ns parent a m t a' Hok Em E Hok' Hv') as Er. rewrite Hp in Hv', Er. exists t. rewrite E. split_and!; [done|done|].
    intros id Hid. destruct (view_hashes _ _ _ Hok' Hv') as (t' & Et & _ & R & _). assert (t' = t) as -> by (unfold CommitTree_in in E; destruct (trees a !! parent); [|done]; cbn [takeAndClear] in E; destruct (foldl _ (blobStore a, _) _) in E; injection E as -> <-; cbn [trees] in Et; by rewrite lookup_insert_eq in Et; injection Et).
    destruct (represents_reads t _ R) as (_ & _ & Hr). destruct (Hr id Hid) as [-> _]. by rewrite lookup_fmap.
Qed.

(** A blob of no bytes is stored as a nil slice, and a read of it is that of a missing blob. *)
Lemma empty_blob_lost a : store_ok a -> let '(h, a') := WriteBlob [] a in ReadBlob h a' = None.
Proof. intros (Hs & _). cbn [WriteBlob]. unfold ReadBlob, WriteKeyedBlob. cbn [blobStore copied]. rewrite blob_read_set by done. by rewrite bool_decide_eq_true_2. Qed.

(** A blob that has bytes reads back. *)
Lemma WriteBlob_ReadBlob a b : store_ok a -> b <> [] -> let '(h, a') := WriteBlob b a in ReadBlob h a' = Some b.
Proof. intros (Hs & _) Hb. cbn [WriteBlob]. unfold ReadBlob, WriteKeyedBlob. cbn [blobStore]. rewrite blob_read_set by done. rewrite bool_decide_eq_true_2 by done. by destruct b. Qed.

Definition demo_doc : Doc := mkDoc (mkUUID 1 2) (str "{}").
Definition demo_ops : list store_op := [OpPut (str "ns") demo_doc; OpDelete (str "ns") (DocumentID demo_doc); OpCommit (str "ns") (docs_root ∅); OpWriteBlob (str "x"); OpPut (str "ns") demo_doc].

Lemma demo_clear : run_clear elements map_to_list NewInMemoryStorageAdapter demo_ops.
Proof.
  unfold demo_ops. cbn [run_clear]. split_and!; [done|done| |done|done|done]. unfold commit_clear. cbn [mem_step]. unfold DeleteDocument, PutDocument, NewInMemoryStorageAdapter. cbn [pending blobStore trees]. unfold pending_delete, pending_put, forNamespace. rewrite !lookup_insert_eq. cbn [default from_option id puts deletes]. rewrite lookup_empty. cbn [default from_option id puts deletes]. rewrite delete_insert_eq. rewrite delete_empty.
  split; [intros ? ?; by rewrite lookup_empty|]. pose proof Empty_represents as R. destruct (represents_reads _ _ R) as (_ & Em & _). intros t Ht. apply lookup_singleton_Some in Ht as [_ <-]. rewrite Em. unfold tree_clear. cbn [trees]. intros t Ht. apply lookup_singleton_Some in Ht as [_ <-]. rewrite Em. unfold target. cbn [puts]. rewrite fmap_empty, (left_id_L ∅ (∪)). by rewrite map_filter_empty.
Qed.

Lemma demo_id : uuid_wf (DocumentID demo_doc).
Proof. split; unfold is_s; cbn; lia. Qed.

(** A document is put and committed over the empty tree: there it can be read, unless the tree of
    the document has the hash of the empty one. *)
Definition demo_stored : gmap UUID Doc := {[DocumentID demo_doc := demo_doc]}.
Definition demo_store : list store_op := [OpPut (str "ns") demo_doc; OpCommit (str "ns") (docs_root ∅)].

Lemma demo_store_clear : docs_root demo_stored <> docs_root ∅ -> run_clear elements map_to_list NewInMemoryStorageAdapter demo_store.
Proof.
  intros Hne. unfold demo_store. cbn [run_clear]. split_and!; [done| |done]. unfold commit_clear. cbn [mem_step]. unfold PutDocument, NewInMemoryStorageAdapter. cbn [pending blobStore trees]. unfold pending_put, forNamespace. rewrite !lookup_insert_eq. cbn [default from_option id puts deletes]. rewrite lookup_empty. cbn [default from_option id puts deletes].
  pose proof Empty_represents as R. destruct (represents_reads _ _ R) as (_ & Em & _). assert (E0 : TreeHash EmptyDocumentTree = docs_root ∅) by (unfold docs_root; rewrite fmap_empty; apply R). split.
  - intros u d Hd. rewrite insert_empty in Hd. apply lookup_singleton_Some in Hd as [_ <-]. split; [|intros u' d' Hd' _; rewrite insert_empty in Hd'; by apply lookup_singleton_Some in Hd' as [_ <-]].
    intros d' Hd'. unfold GetDocByBlob, shard, newShardedBlobStore in Hd'. destruct (repeat _ _ !! _) as [x|] eqn:E; cbn [default from_option id] in Hd'; [|cbn in Hd'; by rewrite lookup_empty in Hd']. apply list_elem_of_lookup_2, list_elem_of_In, repeat_spec in E as ->. cbn [docsByBlob] in Hd'. by rewrite lookup_empty in Hd'.
  - intros t Ht. apply lookup_singleton_Some in Ht as [_ <-]. rewrite Em. intros t Ht. exfalso. cbn [trees] in Ht. apply lookup_singleton_Some in Ht as [Ht _]. apply Hne. unfold docs_root at 1. rewrite <- E0, Ht. f_equal.
Qed.

Lemma store_refines_witness :
  GetDocument (foldl (mem_step elements map_to_list) NewInMemoryStorageAdapter (demo_ops ++ [])) (DocumentID demo_doc) (docs_root ∅) = committed (foldl spec_step spec_init (demo_ops ++ [])) !! docs_root ∅ ≫= (.!! DocumentID demo_doc) /\
  (docs_root demo_stored = docs_root ∅ \/ GetDocument (foldl (mem_step elements map_to_list) NewInMemoryStorageAdapter (demo_store ++ [])) (DocumentID demo_doc) (docs_root demo_stored) = Some demo_doc).
Proof.
  split.
  - apply (store_refines elements map_to_list demo_ops []); [reflexivity|reflexivity| |exact demo_clear|exact demo_id].
    unfold demo_ops. apply Forall_cons; split; [exact demo_id|]. apply Forall_cons; split; [exact demo_id|]. apply Forall_cons; split; [exact I|]. apply Forall_cons; split; [exact I|]. apply Forall_cons; split; [exact demo_id|apply Forall_nil; exact I].
  - destruct (decide (docs_root demo_stored = docs_root ∅)) as [E|Hne]; [left; exact E|right].
    destruct (store_refines elements map_to_list demo_store []) as [H _]; [reflexivity|reflexivity| |exact (demo_store_clear Hne)|].
    + unfold demo_store. apply Forall_cons; split; [exact demo_id|]. apply Forall_cons; split; [exact I|apply Forall_nil; exact I].
    + rewrite (H _ _ demo_id). unfold demo_store. cbn [app foldl spec_step committed requests spec_init]. rewrite lookup_singleton_eq. cbn [committed]. unfold result, requested. cbn [List.filter fst snd map]. rewrite bool_decide_eq_true_2 by reflexivity. cbn [map snd foldl carry_out].
      rewrite insert_empty. fold demo_stored. rewrite lookup_insert_eq. cbn [mbind option_bind]. unfold demo_stored. apply lookup_singleton_eq.
Defined.

End MemStore.
