(* ===== verification/UniqueRegistry.v ===== *)
(** Unique constraints: [transaction/unique_registry.go].

    The registry has the document that holds each value of each unique constraint.  A plan
    without violations, applied when its transaction is committed, keeps it covering the
    documents: every value of every document at the head is registered for that document, so
    no two documents share one. *)

From S2P Require Import Prelude Primitives Strings Schema Document Sha256 Commit.
Import Primitives Document Commit.

Module UniqueRegistry.

(** ** Keys *)

Record UniqueKey := mkKey { KeyNamespace : bytes; Fields : bytes; KeyValue : bytes }.

#[export] Instance key_eq_dec : EqDecision UniqueKey.
Proof. solve_decision. Defined.
#[export] Instance key_countable : Countable UniqueKey.
Proof.
  apply (inj_countable' (fun k => (KeyNamespace k, Fields k, KeyValue k)) (fun '(a, b, c) => mkKey a b c)). by intros [].
Defined.

Definition FieldSeparator : bytes := [x1f].

Definition join (sep : bytes) (l : list bytes) : bytes :=
  match l with [] => [] | x :: l => x ++ concat (map (fun y => sep ++ y) l) end.
Definition NewUniqueKey (ns : bytes) (fields : list bytes) (value : bytes) : UniqueKey := mkKey ns (join FieldSeparator fields) value.

(** What the schema and the body of a document say.  A value that is absent or null is [None],
    and so is a null element of an array. *)
Class Constraints (S V : Type) := {
  HasUniqueConstraints : S -> bool;
  UniqueTuples : S -> list (list bytes);
  FieldValue : bytes -> bytes -> go bytes (option V);
  ArrayOf : V -> option (list (option V));
  canonicalTuple : list V -> go bytes bytes;
}.

Section keys.
Context {S V : Type} `{Constraints S V}.

Definition multikeyValues (raw : option V) : list V :=
  match raw with
  | None => []
  | Some v => match ArrayOf v with None => [v] | Some l => omap id l end
  end.

Definition combine_values (out : list (list V)) (values : list V) : list (list V) :=
  concat (map (fun prefix => map (fun v => prefix ++ [v]) values) out).
Definition combinations (choices : list (list V)) : list (list V) := foldl combine_values [[]] choices.

(** The choices of a tuple, or [None] when a part claims nothing. *)
Fixpoint tuple_choices (json : bytes) (fields : list bytes) (choices : list (list V)) : go bytes (option (list (list V))) :=
  match fields with
  | [] => Ok (Some choices)
  | name :: fields =>
    raw ← FieldValue json name;
    match multikeyValues raw with
    | [] => Ok None
    | values => tuple_choices json fields (choices ++ [values])
    end
  end.

Fixpoint claim_tuples (ns : bytes) (fields : list bytes) (tuples : list (list V)) (out : list UniqueKey) : go bytes (list UniqueKey) :=
  match tuples with
  | [] => Ok out
  | parts :: tuples =>
    canonical ← canonicalTuple parts;
    let key := NewUniqueKey ns fields canonical in
    claim_tuples ns fields tuples (if bool_decide (key ∈ out) then out else out ++ [key])
  end.

Fixpoint claim_constraints (ns json : bytes) (constraints : list (list bytes)) (out : list UniqueKey) : go bytes (list UniqueKey) :=
  match constraints with
  | [] => Ok out
  | fields :: constraints =>
    choices ← tuple_choices json fields [];
    match choices with
    | None => claim_constraints ns json constraints out
    | Some choices => out ← claim_tuples ns fields (combinations choices) out; claim_constraints ns json constraints out
    end
  end.

Definition UniqueKeysFor (ns : bytes) (sch : S) (d : Doc) : go bytes (list UniqueKey) :=
  if negb (HasUniqueConstraints sch) then Ok [] else claim_constraints ns (JSON d) (UniqueTuples sch) [].

End keys.

(** ** The registry *)

Abbreviation UniqueKeyRegistry := (gmap UniqueKey UUID).

Definition retracted (retract : gmap UniqueKey UUID) (owners : UniqueKeyRegistry) : UniqueKeyRegistry :=
  filter (fun e => retract !! e.1 <> Some e.2) owners.
Definition Apply (retract claim : gmap UniqueKey UUID) (owners : UniqueKeyRegistry) : UniqueKeyRegistry := claim ∪ retracted retract owners.

Record uniquePlan := mkPlan { retract : gmap UniqueKey UUID; claim : gmap UniqueKey UUID }.
Definition plan_empty (p : uniquePlan) : bool := bool_decide (retract p = ∅) && bool_decide (claim p = ∅).

Inductive unique_violation :=
  | CannotEvaluate (index : nat) (doc : UUID) (cause : bytes)
  | ValueHeld (index : nat) (key : UniqueKey) (owner : UUID).

Definition touched (op : Op) : option UUID := match op with WriteOp d _ _ | DeleteOp d => Some d | _ => None end.

Section plan.
(** The keys of a document, and the document at an identifier in the tree the transaction
    lands on. *)
Context (keysFor : Doc -> go bytes (list UniqueKey)) (existing : UUID -> option Doc).

(** The keys that the transaction releases. *)
Definition release_op (released : gmap UniqueKey UUID) (op : Op) : gmap UniqueKey UUID :=
  match touched op with
  | None => released
  | Some id =>
    match existing id with
    | None => released
    | Some d => match keysFor d with Ok keys => foldl (fun r k => <[k := id]> r) released keys | _ => released end
    end
  end.
Definition releases (ops : list Op) : gmap UniqueKey UUID := foldl release_op ∅ ops.

(** Who holds a key in the registry, other than [id] and a document that steps aside. *)
Definition registry_holder (registry : UniqueKeyRegistry) (releasedBy : gmap UniqueKey UUID) (id : UUID) (key : UniqueKey) : option UUID :=
  match registry !! key with
  | None => None
  | Some owner => if bool_decide (owner = id) then None else if bool_decide (releasedBy !! key = Some owner) then None else Some owner
  end.

Definition claim_key (registry : UniqueKeyRegistry) (releasedBy : gmap UniqueKey UUID) (index : nat) (id : UUID) (st : uniquePlan * list unique_violation) (key : UniqueKey) : uniquePlan * list unique_violation :=
  let '(p, vs) := st in
  let taken := match claim p !! key with Some claimant => if bool_decide (claimant = id) then None else Some claimant | None => None end in
  match taken with
  | Some claimant => (p, vs ++ [ValueHeld index key claimant])
  | None =>
    match registry_holder registry releasedBy id key with
    | Some owner => (p, vs ++ [ValueHeld index key owner])
    | None => (mkPlan (if bool_decide (retract p !! key = Some id) then delete key (retract p) else retract p) (<[key := id]> (claim p)), vs)
    end
  end.

Definition claim_op (registry : UniqueKeyRegistry) (releasedBy : gmap UniqueKey UUID) (writes : gmap nat Doc) (st : uniquePlan * list unique_violation) (iop : nat * Op) : uniquePlan * list unique_violation :=
  match iop.2 with
  | WriteOp id _ _ =>
    match writes !! iop.1 with
    | None => st
    | Some d =>
      match keysFor d with
      | Ok keys => foldl (claim_key registry releasedBy iop.1 id) st keys
      | Err cause => (st.1, st.2 ++ [CannotEvaluate iop.1 id cause])
      | Panic => st
      end
    end
  | _ => st
  end.

Definition planUniqueKeys (registry : option UniqueKeyRegistry) (has : bool) (ops : list Op) (writes : gmap nat Doc) : uniquePlan * list unique_violation :=
  match registry with
  | Some registry =>
    if has then foldl (claim_op registry (releases ops) writes) (mkPlan (releases ops) ∅, []) (zip (seq 0 (length ops)) ops)
    else (mkPlan ∅ ∅, [])
  | None => (mkPlan ∅ ∅, [])
  end.

End plan.

(** ** Rebuilding *)

Inductive rebuild_error := Unreadable (doc : UUID) (cause : bytes) | UniqueConstraintError (key : UniqueKey) (owner doc : UUID).

Fixpoint rebuild_keys (id : UUID) (keys : list UniqueKey) (fresh : UniqueKeyRegistry) : go rebuild_error UniqueKeyRegistry :=
  match keys with
  | [] => Ok fresh
  | key :: keys =>
    match fresh !! key with
    | Some owner => if bool_decide (owner = id) then rebuild_keys id keys (<[key := id]> fresh) else Err (UniqueConstraintError key owner id)
    | None => rebuild_keys id keys (<[key := id]> fresh)
    end
  end.

(** The documents, in the order of the scan; the result replaces the registry. *)
Fixpoint Rebuild (keysFor : Doc -> go bytes (list UniqueKey)) (docs : list Doc) (fresh : UniqueKeyRegistry) : go rebuild_error UniqueKeyRegistry :=
  match docs with
  | [] => Ok fresh
  | d :: docs =>
    match keysFor d with
    | Ok keys => fresh ← rebuild_keys (DocumentID d) keys fresh; Rebuild keysFor docs fresh
    | Err cause => Err (Unreadable (DocumentID d) cause)
    | Panic => Panic
    end
  end.

(** ** The registry covers the documents *)

Section covers.
Context (keysFor : Doc -> go bytes (list UniqueKey)).

(** Every value of every document is registered for it. *)
Definition covers (R : UniqueKeyRegistry) (docs : gmap UUID Doc) : Prop :=
  forall id d keys k, docs !! id = Some d -> keysFor d = Ok keys -> k ∈ keys -> R !! k = Some id.

(** No two documents have a value in common. *)
Definition unique_docs (docs : gmap UUID Doc) : Prop :=
  forall id id' d d' keys keys' k, docs !! id = Some d -> docs !! id' = Some d' -> keysFor d = Ok keys -> keysFor d' = Ok keys' -> k ∈ keys -> k ∈ keys' -> id = id'.

Lemma covers_unique R docs : covers R docs -> unique_docs docs.
Proof. intros C id id' d d' keys keys' k E E' K K' Hk Hk'. pose proof (C id d keys k E K Hk) as C1. rewrite (C id' d' keys' k E' K' Hk') in C1. by injection C1. Qed.

(** The documents once the operations have landed. *)
Definition land (writes : gmap nat Doc) (docs : gmap UUID Doc) (iop : nat * Op) : gmap UUID Doc :=
  match iop.2 with
  | WriteOp id _ _ => match writes !! iop.1 with Some d => <[id := d]> docs | None => docs end
  | DeleteOp id => delete id docs
  | _ => docs
  end.
Definition landed (ops : list Op) (writes : gmap nat Doc) (docs : gmap UUID Doc) : gmap UUID Doc := foldl (land writes) docs (zip (seq 0 (length ops)) ops).

Definition staged (writes : gmap nat Doc) (iop : nat * Op) : Prop := match iop.2 with WriteOp _ _ _ => is_Some (writes !! iop.1) | _ => True end.

Lemma land_lookup writes l docs id d : foldl (land writes) docs l !! id = Some d -> Forall (staged writes) l ->
  docs !! id = Some d /\ Forall (fun iop => touched iop.2 <> Some id) l \/ exists i p r, (i, WriteOp id p r) ∈ l /\ writes !! i = Some d.
Proof.
  revert docs. induction l as [|[i op] l IH]; intros docs E Hs; cbn [foldl] in E; [left; by split|]. apply Forall_cons in Hs as [Hop Hs]. destruct (IH _ E Hs) as [[E' Ht]|(j & p & r & Hin & Hw)]; [|right; exists j, p, r; split; [by right|done]].
  assert (Hkeep : docs !! id = Some d -> touched op <> Some id -> docs !! id = Some d /\ Forall (fun iop => touched iop.2 <> Some id) ((i, op) :: l)) by (intros; split; [done|by constructor]).
  unfold land in E'. cbn [fst snd] in E'. destruct op as [x p r|x| | | |]; try (left; by apply Hkeep).
  - destruct Hop as [dx Hx]. cbn [fst] in Hx. rewrite Hx in E'. apply lookup_insert_Some in E' as [[-> ->]|[Hne E']]; [right; exists i, p, r; split; [by left|done]|left; apply Hkeep; [done|cbn; congruence]].
  - apply lookup_delete_Some in E' as [Hne E']. left. apply Hkeep; [done|cbn; congruence].
Qed.

Lemma releases_elem existing ops k x : releases keysFor existing ops !! k = Some x -> exists op d keys, op ∈ ops /\ touched op = Some x /\ existing x = Some d /\ keysFor d = Ok keys /\ k ∈ keys.
Proof.
  unfold releases. induction ops as [|op ops IH] using rev_ind; [done|]. rewrite foldl_app. cbn [foldl]. unfold release_op at 1. intros E.
  assert (Hrec : foldl (release_op keysFor existing) ∅ ops !! k = Some x -> exists op0 d keys, op0 ∈ ops ++ [op] /\ touched op0 = Some x /\ existing x = Some d /\ keysFor d = Ok keys /\ k ∈ keys).
  { intros E'. destruct (IH E') as (op0 & d & keys & Hin & ?). exists op0, d, keys. split; [apply elem_of_app; by left|done]. }
  destruct (touched op) as [id|] eqn:Et; [|auto]. destruct (existing id) as [d|] eqn:Ed; [|auto]. destruct (keysFor d) as [keys| |] eqn:Ek; [|auto..]. set (r0 := foldl _ ∅ ops) in *.
  assert (Hins : forall l (r : UniqueKeyRegistry), foldl (fun r k => <[k := id]> r) r l !! k = Some x -> (k ∈ l /\ x = id) \/ r !! k = Some x).
  { induction l as [|k' l IHl]; intros r E'; cbn [foldl] in E'; [by right|]. apply IHl in E' as [[? ?]|E']; [left; split; [by right|done]|]. apply lookup_insert_Some in E' as [[<- <-]|[_ E']]; [left; split; [by left|done]|by right]. }
  apply Hins in E as [[Hk ->]|E]; [|auto]. exists op, d, keys. split_and!; [apply elem_of_app; right; by left|done..].
Qed.

(** Claims without a violation. *)
Definition free (R releasedBy : gmap UniqueKey UUID) (id : UUID) (k : UniqueKey) : Prop := registry_holder R releasedBy id k = None.

Lemma claim_key_vs R rel i id st k : exists vs, (claim_key R rel i id st k).2 = st.2 ++ vs.
Proof. destruct st as [p vs]. unfold claim_key. repeat case_match; cbn [snd]; first [exists []; by rewrite app_nil_r|by eexists]. Qed.
Lemma claim_keys_vs R rel i id keys st : exists vs, (foldl (claim_key R rel i id) st keys).2 = st.2 ++ vs.
Proof.
  revert st. induction keys as [|k keys IH]; intros st; cbn [foldl]; [exists []; by rewrite app_nil_r|]. destruct (IH (claim_key R rel i id st k)) as [vs E]. destruct (claim_key_vs R rel i id st k) as [vs' E']. exists (vs' ++ vs). by rewrite E, E', app_assoc.
Qed.

Lemma claim_key_ok R rel i id p k p' : claim_key R rel i id (p, []) k = (p', []) ->
  free R rel id k /\ claim p' = <[k := id]> (claim p) /\ (forall x, claim p !! k = Some x -> x = id) /\ retract p' ⊆ retract p.
Proof.
  unfold claim_key, free. intros E. destruct (match claim p !! k with Some claimant => if bool_decide (claimant = id) then None else Some claimant | None => None end) as [c|] eqn:Et; [done|]. destruct (registry_holder R rel id k); [done|]. injection E as <-. split_and!; [done|done| |].
  - intros x Ex. rewrite Ex in Et. by case_bool_decide.
  - cbn [retract]. case_bool_decide; [apply delete_subseteq|done].
Qed.

Lemma claim_keys_ok R rel i id keys p p' : foldl (claim_key R rel i id) (p, []) keys = (p', []) ->
  (forall k, k ∈ keys -> claim p' !! k = Some id) /\ claim p ⊆ claim p' /\ retract p' ⊆ retract p /\
  forall k x, claim p' !! k = Some x -> claim p !! k = Some x \/ x = id /\ free R rel id k.
Proof.
  revert p. induction keys as [|k keys IH]; intros p E; cbn [foldl] in E; [injection E as <-; split_and!; [by intros k ?%not_elem_of_nil|done|done|by left]|].
  destruct (claim_key R rel i id (p, []) k) as [p1 vs1] eqn:E1. destruct (claim_keys_vs R rel i id keys (p1, vs1)) as [vs Evs]. rewrite E in Evs. cbn [snd] in Evs. destruct vs1 as [|v vs1]; [|done].
  destruct (claim_key_ok R rel i id p k p1 E1) as (Hf & Ec & Hs & Hr). destruct (IH p1 E) as (I1 & I2 & I3 & I4).
  assert (Hsub : claim p ⊆ claim p1). { rewrite Ec. apply map_subseteq_spec. intros k' x Ex. destruct (decide (k' = k)) as [->|Hd]; [rewrite lookup_insert_eq; f_equal; symmetry; by apply Hs|by rewrite lookup_insert_ne]. }
  split_and!; [|by etrans|by etrans|].
  - intros k' [->|Hk]%elem_of_cons; [|auto]. apply (lookup_weaken (claim p1)); [|done]. rewrite Ec. apply lookup_insert_eq.
  - intros k' x Ex. apply I4 in Ex as [Ex|]; [|by right]. rewrite Ec in Ex. apply lookup_insert_Some in Ex as [[<- <-]|[_ Ex]]; [by right|by left].
Qed.

Lemma claim_op_vs R rel writes st iop : exists vs, (claim_op keysFor R rel writes st iop).2 = st.2 ++ vs.
Proof.
  unfold claim_op. destruct (iop.2); try (exists []; by rewrite app_nil_r). destruct (writes !! iop.1); [|exists []; by rewrite app_nil_r]. destruct (keysFor d); [apply claim_keys_vs|by eexists|exists []; by rewrite app_nil_r].
Qed.
Lemma claim_ops_vs R rel writes l st : exists vs, (foldl (claim_op keysFor R rel writes) st l).2 = st.2 ++ vs.
Proof.
  revert st. induction l as [|iop l IH]; intros st; cbn [foldl]; [exists []; by rewrite app_nil_r|]. destruct (IH (claim_op keysFor R rel writes st iop)) as [vs E]. destruct (claim_op_vs R rel writes st iop) as [vs' E']. exists (vs' ++ vs). by rewrite E, E', app_assoc.
Qed.

Lemma claim_ops_ok R rel writes l p p' : foldl (claim_op keysFor R rel writes) (p, []) l = (p', []) ->
  (forall i id pt r d keys k, (i, WriteOp id pt r) ∈ l -> writes !! i = Some d -> keysFor d = Ok keys -> k ∈ keys -> claim p' !! k = Some id) /\
  claim p ⊆ claim p' /\ retract p' ⊆ retract p /\ forall k x, claim p' !! k = Some x -> claim p !! k = Some x \/ free R rel x k.
Proof.
  revert p. induction l as [|[i op] l IH]; intros p E; cbn [foldl] in E; [injection E as <-; split_and!; [by intros ? ? ? ? ? ? ? ?%not_elem_of_nil|done|done|by left]|].
  destruct (claim_op keysFor R rel writes (p, []) (i, op)) as [p1 vs1] eqn:E1. destruct (claim_ops_vs R rel writes l (p1, vs1)) as [vs Evs]. rewrite E in Evs. cbn [snd] in Evs. destruct vs1 as [|v vs1]; [|done]. destruct (IH p1 E) as (I1 & I2 & I3 & I4).
  assert (Step : (forall id pt r d keys k, op = WriteOp id pt r -> writes !! i = Some d -> keysFor d = Ok keys -> k ∈ keys -> claim p1 !! k = Some id) /\
    claim p ⊆ claim p1 /\ retract p1 ⊆ retract p /\ forall k x, claim p1 !! k = Some x -> claim p !! k = Some x \/ free R rel x k).
  { unfold claim_op in E1. cbn [fst snd] in E1. destruct op as [id pt r| | | | |]; try (injection E1 as <-; split_and!; [done|done|done|by left]). destruct (writes !! i) as [d|] eqn:Ew; [|injection E1 as <-; split_and!; [done|done|done|by left]].
    destruct (keysFor d) as [keys| |] eqn:Ek; [|done|injection E1 as <-; split_and!; [by intros ? ? ? ? ? ? ? [= <-]; rewrite Ek|done|done|by left]]. destruct (claim_keys_ok R rel i id keys p p1 E1) as (C1 & C2 & C3 & C4). split_and!; [|done|done|].
    - intros id' pt' r' d' keys' k [= <- <- <-] [= <-]. rewrite Ek. intros [= <-]. apply C1.
    - intros k x Ex. apply C4 in Ex as [|[-> Hf]]; [by left|by right]. }
  destruct Step as (S1 & S2 & S3 & S4). split_and!; [|by etrans|by etrans|].
  - intros j id pt r d keys k [Hop|Hin]%elem_of_cons Hw Hk Hin'; [|by eapply I1]. injection Hop as -> <-. apply (lookup_weaken (claim p1)); [|done]. by eapply S1.
  - intros k x Ex. apply I4 in Ex as [Ex|]; [by apply S4|by right].
Qed.

(** A transaction planned without violations, once applied, leaves the registry covering the
    documents it makes. *)
Lemma plan_covers R docs ops writes p : covers R docs -> Forall (staged writes) (zip (seq 0 (length ops)) ops) ->
  planUniqueKeys keysFor (docs !!.) (Some R) true ops writes = (p, []) -> covers (Apply (retract p) (claim p) R) (landed ops writes docs).
Proof.
  intros C Hst E. unfold planUniqueKeys in E. set (rel := releases keysFor (docs !!.) ops) in *. destruct (claim_ops_ok R rel writes _ _ _ E) as (P1 & _ & P3 & P4). cbn [claim retract] in *.
  intros id d keys k Hd Hk Hin. unfold Apply. apply land_lookup in Hd as [[Hd Ht]|(i & pt & r & Hi & Hw)]; [|apply lookup_union_Some_l; by eapply P1|done].
  assert (Hu : forall op, op ∈ ops -> touched op <> Some id). { intros op Hop E'. apply list_elem_of_lookup in Hop as [n Hn]. rewrite Forall_forall in Ht. apply (Ht (n, op)); [|done]. apply list_elem_of_lookup. exists n. rewrite lookup_zip_with_Some. exists n, op. split_and!; [done| |done]. apply lookup_seq. split; [lia|]. by eapply lookup_lt_Some. }
  pose proof (C id d keys k Hd Hk Hin) as HR. assert (Hrel : rel !! k <> Some id). { intros (op & d' & keys' & Hop & Et & _)%releases_elem. by apply (Hu op). }
  destruct (claim p !! k) as [x|] eqn:Ex.
  - apply lookup_union_Some_l. rewrite Ex. f_equal. apply P4 in Ex as [Ex|Hf]; [by rewrite lookup_empty in Ex|]. unfold free, registry_holder in Hf. rewrite HR in Hf.
    destruct (decide (id = x)) as [->|Hne]; [done|]. rewrite bool_decide_eq_false_2 in Hf by done. by rewrite bool_decide_eq_false_2 in Hf.
  - rewrite lookup_union_r by done. apply map_lookup_filter_Some. split; [done|]. cbn. intros Er. apply Hrel. by eapply lookup_weaken.
Qed.

(** ** Nothing else is registered *)

(** Every registered value is one of its document. *)
Definition no_phantom (R : UniqueKeyRegistry) (docs : gmap UUID Doc) : Prop :=
  forall k id, R !! k = Some id -> exists d keys, docs !! id = Some d /\ keysFor d = Ok keys /\ k ∈ keys.

(** A claim comes from a write, and a release stands unless the same document claims again. *)
Lemma claim_key_from R rel i id p k p' : claim_key R rel i id (p, []) k = (p', []) ->
  (forall k' x, claim p' !! k' = Some x -> claim p !! k' = Some x \/ x = id /\ k' = k) /\
  (forall k' x, retract p !! k' = Some x -> retract p' !! k' = Some x \/ claim p' !! k' = Some x).
Proof.
  intros E. pose proof (claim_key_ok R rel i id p k p' E) as (_ & Ec & _). split.
  - intros k' x. rewrite Ec. intros [[<- <-]|[_ Ex]]%lookup_insert_Some; [by right|by left].
  - intros k' x Ex. rewrite Ec. unfold claim_key in E. destruct (match claim p !! k with Some claimant => if bool_decide (claimant = id) then None else Some claimant | None => None end); [done|]. destruct (registry_holder R rel id k); [done|]. injection E as <-. cbn [retract].
    case_bool_decide as Er; [|by left]. destruct (decide (k' = k)) as [->|Hd]; [right; rewrite lookup_insert_eq; congruence|left; by rewrite lookup_delete_ne].
Qed.

Lemma claim_keys_from R rel i id keys p p' : foldl (claim_key R rel i id) (p, []) keys = (p', []) ->
  (forall k x, claim p' !! k = Some x -> claim p !! k = Some x \/ x = id /\ k ∈ keys) /\
  (forall k x, retract p !! k = Some x -> retract p' !! k = Some x \/ claim p' !! k = Some x).
Proof.
  revert p. induction keys as [|k keys IH]; intros p E; cbn [foldl] in E; [injection E as <-; split; auto|].
  destruct (claim_key R rel i id (p, []) k) as [p1 vs1] eqn:E1. destruct (claim_keys_vs R rel i id keys (p1, vs1)) as [vs Evs]. rewrite E in Evs. cbn [snd] in Evs. destruct vs1 as [|v vs1]; [|done].
  destruct (claim_key_from R rel i id p k p1 E1) as [F1 F2]. destruct (IH p1 E) as [I1 I2]. destruct (claim_keys_ok R rel i id keys p1 p' E) as (_ & Hsub & _). split.
  - intros k' x Ex. apply I1 in Ex as [Ex|[-> Hk]]; [|right; split; [done|by right]]. apply F1 in Ex as [|[-> ->]]; [by left|right; split; [done|by left]].
  - intros k' x Ex. apply F2 in Ex as [Ex|Ex]; [by apply I2|right; by eapply lookup_weaken].
Qed.

Lemma claim_ops_from R rel writes l p p' : foldl (claim_op keysFor R rel writes) (p, []) l = (p', []) ->
  (forall k x, claim p' !! k = Some x -> claim p !! k = Some x \/ exists i pt r d keys, (i, WriteOp x pt r) ∈ l /\ writes !! i = Some d /\ keysFor d = Ok keys /\ k ∈ keys) /\
  (forall k x, retract p !! k = Some x -> retract p' !! k = Some x \/ claim p' !! k = Some x).
Proof.
  revert p. induction l as [|[i op] l IH]; intros p E; cbn [foldl] in E; [injection E as <-; split; auto|].
  destruct (claim_op keysFor R rel writes (p, []) (i, op)) as [p1 vs1] eqn:E1. destruct (claim_ops_vs R rel writes l (p1, vs1)) as [vs Evs]. rewrite E in Evs. cbn [snd] in Evs. destruct vs1 as [|v vs1]; [|done]. destruct (IH p1 E) as [I1 I2]. destruct (claim_ops_ok R rel writes l p1 p' E) as (_ & Hsub & _).
  assert (Step : (forall k x, claim p1 !! k = Some x -> claim p !! k = Some x \/ exists pt r d keys, op = WriteOp x pt r /\ writes !! i = Some d /\ keysFor d = Ok keys /\ k ∈ keys) /\ (forall k x, retract p !! k = Some x -> retract p1 !! k = Some x \/ claim p1 !! k = Some x)).
  { unfold claim_op in E1. cbn [fst snd] in E1. destruct op as [id pt r| | | | |]; try (injection E1 as <-; split; by auto). destruct (writes !! i) as [d|] eqn:Ew; [|injection E1 as <-; split; by auto].
    destruct (keysFor d) as [keys| |] eqn:Ek; [|done|injection E1 as <-; split; by auto]. destruct (claim_keys_from R rel i id keys p p1 E1) as [C1 C2]. split; [|done]. intros k x Ex. apply C1 in Ex as [|[-> Hk]]; [by left|right]. by exists pt, r, d, keys. }
  destruct Step as [S1 S2]. split.
  - intros k x Ex. apply I1 in Ex as [Ex|(j & pt & r & d & keys & Hin & Hr)]; [|right; exists j, pt, r, d, keys; split; [by right|done]]. apply S1 in Ex as [|(pt & r & d & keys & -> & Hr)]; [by left|right; exists i, pt, r, d, keys; split; [by left|done]].
  - intros k x Ex. apply S2 in Ex as [Ex|Ex]; [by apply I2|right; by eapply lookup_weaken].
Qed.

(** No document is written or deleted twice. *)
Definition once (l : list (nat * Op)) : Prop := NoDup (omap (fun iop => touched iop.2) l).

Lemma land_once writes l docs i id pt r d : once l -> (i, WriteOp id pt r) ∈ l -> writes !! i = Some d -> foldl (land writes) docs l !! id = Some d.
Proof.
  unfold once. revert docs. induction l as [|[j op] l IH]; intros docs Ho Hin Hw; [by apply not_elem_of_nil in Hin|]. cbn [foldl omap list_omap] in *. cbn [snd] in Ho. apply elem_of_cons in Hin as [E|Hin].
  - injection E as <- <-. cbn [touched] in Ho. apply NoDup_cons in Ho as [Hx _]. assert (Hkeep : forall l docs, id ∉ omap (fun iop : nat * Op => touched iop.2) l -> docs !! id = Some d -> foldl (land writes) docs l !! id = Some d).
    { clear. intros l. induction l as [|[j op] l IH]; intros docs Hx E; [done|]. cbn [foldl omap list_omap] in *. cbn [snd] in Hx. apply IH; [destruct (touched op); [by apply not_elem_of_cons in Hx as [_ Hx]|done]|]. unfold land. cbn [fst snd]. destruct op as [x p r|x| | | |]; try done; cbn [touched] in Hx; apply not_elem_of_cons in Hx as [Hx _].
      - destruct (writes !! j); [by rewrite lookup_insert_ne|done].
      - by rewrite lookup_delete_ne. }
    apply Hkeep; [done|]. unfold land. cbn [fst snd]. rewrite Hw. apply lookup_insert_eq.
  - apply IH; [|done|done]. destruct (touched op); [by apply NoDup_cons in Ho as [_ Ho]|done].
Qed.

Lemma land_untouched writes l docs id : Forall (fun iop => touched iop.2 <> Some id) l -> foldl (land writes) docs l !! id = docs !! id.
Proof.
  intros Hf. revert docs. induction Hf as [|[j op] l Hop Hf IH]; intros docs; [done|]. cbn [foldl]. rewrite IH. unfold land. cbn [fst snd] in *. destruct op as [x p r|x| | | |]; try done; cbn [touched] in Hop.
  - destruct (writes !! j); [rewrite lookup_insert_ne; [done|congruence]|done].
  - rewrite lookup_delete_ne; [done|congruence].
Qed.

Lemma releases_has existing ops op x d keys k : op ∈ ops -> touched op = Some x -> existing x = Some d -> keysFor d = Ok keys -> k ∈ keys -> is_Some (releases keysFor existing ops !! k).
Proof.
  intros Hin Ht Hd Hk Hkin. unfold releases. assert (Hmono : forall l (r : UniqueKeyRegistry), is_Some (r !! k) -> is_Some (foldl (release_op keysFor existing) r l !! k)).
  { induction l as [|o l IH]; intros r Hr; [done|]. cbn [foldl]. apply IH. unfold release_op. destruct (touched o) as [y|]; [|done]. destruct (existing y) as [dy|]; [|done]. destruct (keysFor dy) as [ks| |]; [|done..]. revert r Hr. induction ks as [|k' ks IHk]; intros r Hr; [done|]. cbn [foldl]. apply IHk.
    destruct (decide (k' = k)) as [->|Hne]; [rewrite lookup_insert_eq; by eexists|by rewrite lookup_insert_ne]. }
  apply list_elem_of_split in Hin as (l1 & l2 & ->). rewrite foldl_app. cbn [foldl]. apply Hmono. unfold release_op at 1. rewrite Ht, Hd, Hk. generalize (foldl (release_op keysFor existing) ∅ l1). clear -Hkin. induction keys as [|k' keys IH]; intros r; [by apply not_elem_of_nil in Hkin|]. cbn [foldl]. apply elem_of_cons in Hkin as [->|Hin]; [|auto].
  assert (Hm : forall ks (r : UniqueKeyRegistry), is_Some (r !! k') -> is_Some (foldl (fun r k => <[k := x]> r) r ks !! k')).
  { induction ks as [|k2 ks IHk]; intros r' Hr'; [done|]. cbn [foldl]. apply IHk. destruct (decide (k2 = k')) as [->|Hne]; [rewrite lookup_insert_eq; by eexists|by rewrite lookup_insert_ne]. }
  apply Hm. rewrite lookup_insert_eq. by eexists.
Qed.

Lemma plan_exact R docs ops writes p : covers R docs -> no_phantom R docs -> once (zip (seq 0 (length ops)) ops) ->
  planUniqueKeys keysFor (docs !!.) (Some R) true ops writes = (p, []) -> no_phantom (Apply (retract p) (claim p) R) (landed ops writes docs).
Proof.
  intros C N Ho E. unfold planUniqueKeys in E. set (rel := releases keysFor (docs !!.) ops) in *. destruct (claim_ops_from R rel writes _ _ _ E) as [F1 F2]. cbn [claim retract] in *. intros k id Hk. unfold Apply in Hk. apply lookup_union_Some_raw in Hk as [Hk|[Hnone Hk]].
  - apply F1 in Hk as [Hk|(i & pt & r & d & keys & Hin & Hw & Hkd & Hkin)]; [by rewrite lookup_empty in Hk|]. exists d, keys. split_and!; [|done|done]. by eapply land_once.
  - apply map_lookup_filter_Some in Hk as [Hk Hr]. cbn in Hr. destruct (N k id Hk) as (d & keys & Hd & Hkd & Hkin). exists d, keys. split_and!; [|done|done]. unfold landed. rewrite land_untouched; [done|].
    apply Forall_forall. intros [i op] Hin Et. cbn [snd] in Et. assert (Hop : op ∈ ops) by (apply list_elem_of_lookup in Hin as [n Hn]; apply lookup_zip_with_Some in Hn as (a & b & [= <- <-] & _ & Hb); by eapply list_elem_of_lookup_2).
    destruct (releases_has (docs !!.) ops op id d keys k Hop Et Hd Hkd Hkin) as [x Hx]. fold rel in Hx. assert (x = id) as ->.
    { pose proof Hx as (op' & d' & keys' & _ & _ & Hd' & Hk' & Hin')%releases_elem. pose proof (C x d' keys' k Hd' Hk' Hin') as E'. congruence. }
    destruct (F2 k id Hx) as [?|?]; congruence.
Qed.

(** ** Rebuilding *)

Definition held_by (docs : list Doc) (k : UniqueKey) (id : UUID) : Prop := exists d keys, d ∈ docs /\ DocumentID d = id /\ keysFor d = Ok keys /\ k ∈ keys.

Lemma rebuild_keys_spec id keys fresh : match rebuild_keys id keys fresh with
  | Ok R => forall k x, R !! k = Some x <-> fresh !! k = Some x \/ x = id /\ k ∈ keys
  | Err (UniqueConstraintError k owner x) => x = id /\ owner <> id /\ k ∈ keys /\ fresh !! k = Some owner
  | _ => False
  end.
Proof.
  revert fresh. induction keys as [|key keys IH]; intros fresh; cbn [rebuild_keys].
  { intros k x. split; [by left|]. intros [|[_ ?%not_elem_of_nil]]; done. }
  assert (Hstep : (forall y, fresh !! key = Some y -> y = id) -> match rebuild_keys id keys (<[key := id]> fresh) with
    | Ok R => forall k x, R !! k = Some x <-> fresh !! k = Some x \/ x = id /\ k ∈ key :: keys
    | Err (UniqueConstraintError k owner x) => x = id /\ owner <> id /\ k ∈ key :: keys /\ fresh !! k = Some owner
    | _ => False
    end).
  { intros Hy. specialize (IH (<[key := id]> fresh)). destruct (rebuild_keys id keys _) as [R|[? ?|k owner x]|]; [|done| |done].
    - intros k x. rewrite IH, lookup_insert_Some, elem_of_cons. split; [naive_solver|]. intros [E|[-> [->|Hk]]]; [|naive_solver..]. destruct (decide (key = k)) as [->|]; [left; left; split; [done|symmetry; by apply Hy]|left; by right].
    - destruct IH as (-> & Hne & Hk & E). apply lookup_insert_Some in E as [[_ E]|[_ E]]; [congruence|]. split_and!; [done|done|by right|done]. }
  destruct (fresh !! key) as [owner|] eqn:Eo; [|by apply Hstep]. case_bool_decide as E; [apply Hstep; by intros y [= <-]|]. split_and!; [done|done|by left|done].
Qed.

(** Rebuilding registers every value for the document that has it and nothing else, or names
    a value that two documents have. *)
Lemma Rebuild_spec docs fresh : match Rebuild keysFor docs fresh with
  | Ok R => forall k x, R !! k = Some x <-> fresh !! k = Some x \/ held_by docs k x
  | Err (UniqueConstraintError k owner x) => owner <> x /\ held_by docs k x /\ (fresh !! k = Some owner \/ held_by docs k owner)
  | Err (Unreadable x cause) => exists d, d ∈ docs /\ DocumentID d = x /\ keysFor d = Err cause
  | Panic => exists d, d ∈ docs /\ keysFor d = Panic
  end.
Proof.
  revert fresh. induction docs as [|d docs IH]; intros fresh; cbn [Rebuild].
  { intros k x. split; [by left|]. intros [|(d & keys & ?%not_elem_of_nil & _)]; done. }
  assert (Hcons : forall k x, held_by (d :: docs) k x <-> (DocumentID d = x /\ exists keys, keysFor d = Ok keys /\ k ∈ keys) \/ held_by docs k x).
  { intros k x. unfold held_by. split; [intros (d' & keys & [->|Hin]%elem_of_cons & ? & ? & ?); [left; split; eauto|right; eauto 6]|]. intros [[E (keys & ? & ?)]|(d' & keys & Hin & ?)]; [exists d, keys; split_and!; [by left|done..]|exists d', keys; split; [by right|done]]. }
  destruct (keysFor d) as [keys|cause|] eqn:Ek; [|exists d; split_and!; [by left|done|done]|exists d; split; [by left|done]].
  pose proof (rebuild_keys_spec (DocumentID d) keys fresh) as K. destruct (rebuild_keys (DocumentID d) keys fresh) as [R|[? ?|k owner x]|]; cbn [mbind go_bind]; [|done| |done].
  - specialize (IH R). destruct (Rebuild keysFor docs R) as [R'|[x cause|k owner x]|].
    + intros k x. rewrite IH, K, Hcons. split; [intros [[|[-> Hk]]|]; [by left|right; left; eauto|by right; right]|]. intros [|[[<- (keys' & [= <-] & Hk)]|]]; auto.
    + destruct IH as (d' & Hin & ?). exists d'. split; [by right|done].
    + destruct IH as (Hne & Hx & Ho). rewrite !Hcons. split_and!; [done|by right|]. destruct Ho as [Ho|Ho]; [|by right; right]. destruct (proj1 (K k owner) Ho) as [|[E Hk]]; [by left|right; left; eauto].
    + destruct IH as (d' & Hin & ?). exists d'. split; [by right|done].
  - destruct K as (-> & Hne & Hk & E). rewrite !Hcons. split_and!; [done|left; eauto|by left].
Qed.

(** Unique constraints hold at the head.  When the registry has every value of every
    document and a transaction is planned without a violation, then the registry that the plan
    makes has every value of every document that the transaction leaves, so no two of them
    share a value - whatever the transaction writes, deletes, moves or swaps.  Nothing else is
    registered when no document is written or deleted twice.  Rebuilding the registry from
    documents registers exactly their values, or reports a value that two of them have. *)
Theorem unique_constraints_hold R docs ops writes p : covers R docs -> Forall (staged writes) (zip (seq 0 (length ops)) ops) ->
  planUniqueKeys keysFor (docs !!.) (Some R) true ops writes = (p, []) ->
  let R' := Apply (retract p) (claim p) R in let docs' := landed ops writes docs in
  covers R' docs' /\ unique_docs docs' /\ (no_phantom R docs -> once (zip (seq 0 (length ops)) ops) -> no_phantom R' docs') /\
  forall l, match Rebuild keysFor l ∅ with
    | Ok R => forall k x, R !! k = Some x <-> held_by l k x
    | Err (UniqueConstraintError k owner x) => owner <> x /\ held_by l k x /\ held_by l k owner
    | Err (Unreadable x cause) => exists d, d ∈ l /\ DocumentID d = x /\ keysFor d = Err cause
    | Panic => exists d, d ∈ l /\ keysFor d = Panic
    end.
Proof.
  intros C Hs E R' docs'. assert (C' : covers R' docs') by by apply (plan_covers R docs ops writes p). split_and!; [done|by eapply covers_unique|intros N Ho; by apply (plan_exact R docs ops writes p)|].
  intros l. pose proof (Rebuild_spec l ∅) as B. destruct (Rebuild keysFor l ∅) as [R0|[x cause|k owner x]|]; [|done| |done].
  - intros k x. rewrite B, lookup_empty. naive_solver.
  - rewrite lookup_empty in B. naive_solver.
Qed.

End covers.

(** Documents whose text is the value of the one constraint. *)
Definition text_keys (d : Doc) : go bytes (list UniqueKey) := Ok [mkKey (str "ns") (str "email") (JSON d)].
Definition doc_a : UUID := mkUUID 0 1.
Definition doc_b : UUID := mkUUID 0 2.
Definition swap_ops : list Op := [WriteOp doc_a (str "x") true; WriteOp doc_b (str "y") true].
Definition swap_writes : gmap nat Doc := {[0%nat := mkDoc doc_a (str "x"); 1%nat := mkDoc doc_b (str "y")]}.
Definition swap_docs : gmap UUID Doc := {[doc_a := mkDoc doc_a (str "y"); doc_b := mkDoc doc_b (str "x")]}.
Definition swap_registry : UniqueKeyRegistry := {[mkKey (str "ns") (str "email") (str "y") := doc_a; mkKey (str "ns") (str "email") (str "x") := doc_b]}.

Lemma unique_constraints_hold_witness : exists p, planUniqueKeys text_keys (swap_docs !!.) (Some swap_registry) true swap_ops swap_writes = (p, []) /\
  covers text_keys (Apply (retract p) (claim p) swap_registry) (landed swap_ops swap_writes swap_docs).
Proof.
  assert (Hv : (planUniqueKeys text_keys (swap_docs !!.) (Some swap_registry) true swap_ops swap_writes).2 = []) by (vm_compute; reflexivity).
  destruct (planUniqueKeys text_keys (swap_docs !!.) (Some swap_registry) true swap_ops swap_writes) as [p vs] eqn:E. cbn [snd] in Hv. subst vs. exists p. split; [reflexivity|].
  apply (unique_constraints_hold text_keys swap_registry swap_docs swap_ops swap_writes p); [|repeat constructor; by eexists|exact E].
  intros id d keys k Hd [= <-] Hk%list_elem_of_singleton. subst k. unfold swap_docs in Hd. apply lookup_insert_Some in Hd as [[<- <-]|[_ Hd]]; [vm_compute; reflexivity|]. apply lookup_singleton_Some in Hd as [<- <-]. vm_compute. reflexivity.
Defined.

(** A document written twice in a transaction leaves the first write's value registered, and a
    write then deleted leaves its value: another document is then refused a value that no
    document has. *)
Theorem phantom_claims :
  let twice := [WriteOp doc_a (str "x") true; WriteOp doc_a (str "y") true] in
  let writes : gmap nat Doc := {[0%nat := mkDoc doc_a (str "x"); 1%nat := mkDoc doc_a (str "y")]} in
  let gone := [WriteOp doc_a (str "x") true; DeleteOp doc_a] in
  let claims ops := let '(p, vs) := planUniqueKeys text_keys ((∅ : gmap UUID Doc) !!.) (Some ∅) true ops writes in (Apply (retract p) (claim p) ∅, vs) in
  let again R docs := (planUniqueKeys text_keys (docs !!.) (Some R) true [WriteOp doc_b (str "x") true] {[0%nat := mkDoc doc_b (str "x")]}).2 in
  landed twice writes ∅ = {[doc_a := mkDoc doc_a (str "y")]} /\ (claims twice).2 = [] /\ again (claims twice).1 (landed twice writes ∅) = [ValueHeld 0 (mkKey (str "ns") (str "email") (str "x")) doc_a] /\
  landed gone writes ∅ = ∅ /\ (claims gone).2 = [] /\ again (claims gone).1 (landed gone writes ∅) = [ValueHeld 0 (mkKey (str "ns") (str "email") (str "x")) doc_a].
Proof. split_and!; vm_compute; reflexivity. Qed.

End UniqueRegistry.
