(* ===== verification/StorageAdapter.v ===== *)
(** The storage adapter that the transaction engine writes through: [storage.Adapter], with the
    laws its clients count on, and the in-memory adapter as an instance.

    Behind the interface a store has the documents of each committed tree and, per namespace, the
    writes that the next commit will take. *)

From S2P Require Import Prelude Primitives Schema KdbCodec CodecCorrect Document Sha256 Commit CommitDirect CommitCorrect TrieHash Trie TrieCorrect TrieWalk TrieBulk DocumentTree TreeMap TreePacked MemStore.
Import Primitives Document Commit CommitDirect DocumentTree TreeMap TreePacked MemStore.

Module StorageAdapter.

(** Errors are texts.  A blob is nil when it is not stored; the two ways to ask for a blob
    without reading it are capabilities that an adapter may have. *)
Class Adapter (W : Type) := {
  GetDocument : W -> bytes -> UUID -> Hash -> go bytes (option Doc);
  PutDocument : bytes -> Doc -> W -> go bytes unit * W;
  DeleteDocument : bytes -> UUID -> W -> go bytes unit * W;
  DiscardPending : bytes -> W -> W;
  CommitTree : bytes -> Hash -> W -> go bytes DocumentTree * W;
  ReadBlob : W -> Hash -> go bytes (option bytes);
  HasAttachmentBlob : W -> option (bytes -> Hash -> go bytes bool);
  HasBlob : W -> option (Hash -> go bytes bool);
}.

Definition no_writes : nsPending := mkPending ∅ ∅.
Definition put_doc (d : Doc) (n : nsPending) : nsPending := mkPending (<[DocumentID d := d]> (puts n)) (deletes n ∖ {[DocumentID d]}).
Definition delete_doc (id : UUID) (n : nsPending) : nsPending := mkPending (delete id (puts n)) ({[id]} ∪ deletes n).

(** What clients count on while the adapter is in order.  [clear] says that committing the
    pending writes meets no two documents and no two trees with one hash. *)
Class AdapterLaws (W : Type) `{Adapter W} := {
  in_order : W -> Prop;
  docs : W -> Hash -> option (gmap UUID Doc);
  staged : W -> bytes -> nsPending;
  clear : bytes -> Hash -> W -> Prop;
  get_law w ns id h m : in_order w -> uuid_wf id -> docs w h = Some m -> GetDocument w ns id h = Ok (m !! id);
  docs_law w h m id d : in_order w -> docs w h = Some m -> m !! id = Some d -> DocumentID d = id /\ uuid_wf id;
  put_law w ns d : in_order w -> uuid_wf (DocumentID d) ->
    let '(r, w') := PutDocument ns d w in
    in_order w' /\ (forall h, docs w' h = docs w h) /\ (forall ns', ns' <> ns -> staged w' ns' = staged w ns') /\ r <> Panic /\ (r = Ok tt -> staged w' ns = put_doc d (staged w ns));
  delete_law w ns id : in_order w -> uuid_wf id ->
    let '(r, w') := DeleteDocument ns id w in
    in_order w' /\ (forall h, docs w' h = docs w h) /\ (forall ns', ns' <> ns -> staged w' ns' = staged w ns') /\ r <> Panic /\ (r = Ok tt -> staged w' ns = delete_doc id (staged w ns));
  discard_law w ns : in_order w ->
    let w' := DiscardPending ns w in
    in_order w' /\ (forall h, docs w' h = docs w h) /\ (forall ns', ns' <> ns -> staged w' ns' = staged w ns') /\ staged w' ns = no_writes;
  commit_law w ns parent m : in_order w -> docs w parent = Some m -> clear ns parent w ->
    let '(r, w') := CommitTree ns parent w in
    in_order w' /\ (forall h m', docs w h = Some m' -> docs w' h = Some m') /\ (forall ns', ns' <> ns -> staged w' ns' = staged w ns') /\ r <> Panic /\
    forall t, r = Ok t -> TreeHash t = docs_root (overlay (staged w ns) m) /\ docs w' (TreeHash t) = Some (overlay (staged w ns) m) /\ staged w' ns = no_writes;
}.

(** An adapter on which nothing fails. *)
Class AdapterTotal (W : Type) `{AdapterLaws W} := {
  put_total w ns d : (PutDocument ns d w).1 = Ok tt;
  delete_total w ns id : (DeleteDocument ns id w).1 = Ok tt;
  commit_total w ns parent m : in_order w -> docs w parent = Some m -> clear ns parent w -> exists t, (CommitTree ns parent w).1 = Ok t;
}.

(** ** In memory *)

Definition mem_text (e : store_error) : bytes :=
  match e with
  | DocumentNotFound _ _ => str "document not found"
  | MissingParent _ => str "missing parent tree for commit"
  | NoTree _ => str "no tree"
  | ForeignMismatch _ _ => str "body is missing or does not match its content hash"
  | CannotIngest => str "in-memory adapter cannot ingest delta segments"
  end.

Definition mem_CommitTree (ns : bytes) (parent : Hash) (a : InMemoryStorageAdapter) : go bytes DocumentTree * InMemoryStorageAdapter :=
  match CommitTree_in elements map_to_list ns parent a with
  | (Ok t, a) => (Ok t, a)
  | (Err e, a) => (Err (mem_text e), a)
  | (Panic, a) => (Panic, a)
  end.

#[export] Instance mem_adapter : Adapter InMemoryStorageAdapter := {
  GetDocument a _ id h := Ok (MemStore.GetDocument a id h);
  PutDocument ns d a := (Ok tt, MemStore.PutDocument ns d a);
  DeleteDocument ns id a := (Ok tt, MemStore.DeleteDocument ns id a);
  DiscardPending := MemStore.DiscardPending;
  CommitTree := mem_CommitTree;
  ReadBlob a h := Ok (MemStore.ReadBlob h a);
  HasAttachmentBlob _ := None;
  HasBlob _ := None;
}.

Lemma forNamespace_insert ns n p : forNamespace (<[ns := n]> p) ns = n.
Proof. unfold forNamespace. by rewrite lookup_insert_eq. Qed.
Lemma forNamespace_ne ns ns' n p : ns' <> ns -> forNamespace (<[ns := n]> p) ns' = forNamespace p ns'.
Proof. intros Hn. unfold forNamespace. by rewrite lookup_insert_ne. Qed.

Lemma mem_docs a h m id d : store_ok a -> view a h = Some m -> m !! id = Some d -> DocumentID d = id /\ uuid_wf id.
Proof.
  intros Hok Hv Hm. destruct (view_hashes a h m Hok Hv) as (t & Ht & Em & R & ->). destruct Hok as (_ & _ & Htr & _). destruct (tree_ok_entries _ _ _ (Htr h t Ht)) as (mt & Rt & Et & F). rewrite Et in Hm. unfold docs_of in Hm. rewrite lookup_omap in Hm.
  destruct (mt !! id) as [ch|] eqn:Ei; [|done]. cbn in Hm. destruct (F id ch Ei) as (d' & Hd' & Hid). rewrite Hd' in Hm. injection Hm as <-. split; [done|]. destruct Rt as (Hw & _). by apply (Hw id ch).
Qed.

#[export] Program Instance mem_laws : AdapterLaws InMemoryStorageAdapter := {
  in_order := store_ok;
  docs := view;
  staged a ns := forNamespace (pending a) ns;
  clear ns parent a := commit_clear ns parent a;
}.
Next Obligation. intros w ns id h m Hok Hid Hv. cbn. by rewrite GetDocument_view, Hv. Qed.
Next Obligation. apply mem_docs. Qed.
Next Obligation.
  intros w ns d (H1 & H2 & H3 & H4) Hd. cbn. split_and!; [split_and!; [done..|by apply pending_put_ok]|done| |done|].
  - intros ns' Hn. by apply forNamespace_ne.
  - intros _. apply forNamespace_insert.
Qed.
Next Obligation.
  intros w ns u (H1 & H2 & H3 & H4) Hd. cbn. split_and!; [split_and!; [done..|by apply pending_delete_ok]|done| |done|].
  - intros ns' Hn. by apply forNamespace_ne.
  - intros _. apply forNamespace_insert.
Qed.
Next Obligation.
  intros w ns (H1 & H2 & H3 & H4). cbn. split_and!; [split_and!; [done..|by apply discard_ok]|done| |].
  - intros ns' Hn. by apply forNamespace_ne.
  - apply forNamespace_insert.
Qed.
Next Obligation.
  intros w ns parent m Hok Hv Hc. cbn. unfold mem_CommitTree. destruct (CommitTree_spec elements map_to_list ns parent w m Hok (fun _ => reflexivity _) (fun _ => reflexivity _) Hv Hc) as (t & a' & E & Hok' & Hv' & Hold & Hp). rewrite E.
  pose proof (CommitTree_root elements map_to_list ns parent w m t a' Hok Hv E Hok' Hv') as Er. split_and!; [done|done| |done|].
  - intros ns' Hn. rewrite Hp. by apply forNamespace_ne.
  - intros t' [= <-]. split_and!; [done|done|]. rewrite Hp. apply forNamespace_insert.
Qed.

#[export] Program Instance mem_total : AdapterTotal InMemoryStorageAdapter.
Next Obligation. done. Qed.
Next Obligation. done. Qed.
Next Obligation.
  intros w ns parent m Hok Hv Hc. cbn. unfold mem_CommitTree. destruct (CommitTree_spec elements map_to_list ns parent w m Hok (fun _ => reflexivity _) (fun _ => reflexivity _) Hv Hc) as (t & a' & -> & _). by exists t.
Qed.

End StorageAdapter.
