(* ===== verification/TxPlan.v ===== *)
(** The checks of a transaction: [transaction/default_engine.go], [prepare.go],
    [preconditions.go], [attachments.go] and [document/precondition.go].

    A transaction is checked against the tree it lands on before anything is written: blobs and
    attachments it names must be there, its patches must make valid documents, its preconditions
    must hold, it must not conflict with what was committed since its base, and the values it
    claims must be free.  What passes is a prepared commit. *)

From S2P Require Import Prelude Primitives Strings Schema Document Sha256 Commit CommitDirect Dag DagOps DagHistory Json JsonPath DocumentMerge DocumentJson DocumentTree AttachmentSet AttachmentPool AttachmentTable DagAttachments MemStore UniqueRegistry StorageAdapter.
Import Primitives Document Commit CommitDirect Dag DagOps DagHistory UniqueRegistry StorageAdapter.

Module TxPlan.

#[local] Existing Instance AttachmentSet.attachment_eq_dec.

(** ** Transactions and their outcomes *)

Inductive PreconditionKind := ExpectAny | ExpectAbsent | ExpectPresent | ExpectContentHash.
#[export] Instance kind_eq_dec : EqDecision PreconditionKind.
Proof. solve_decision. Defined.
Record Precondition := mkPre { OpIndex : Z; Kind : PreconditionKind; PreContentHash : Hash }.

(** The attachment table that a transaction may carry is left out: no code of the repository
    sets one. *)
Record Transaction := mkTx {
  tx_ID : UUID; BaseVersion : Hash; tx_Operations : list Op; tx_Timestamp : Timestamp; tx_AuthorNodeID : UUID; Preconditions : list Precondition;
}.

Inductive ConflictPolicy := AppendOnly | LastWrite | Strict | Custom.
Inductive ConflictOperationType := ConcurrentWrite | WriteDelete | DeleteWrite | SchemaIncompatible | PreconditionFailed.
Inductive ViolationType := RequiredFieldMissing | TypeMismatch | UniqueConstraint | EnumValueNotDeclared | CustomConstraint.

Inductive precondition_error := IndexOutOfRange (i : Z) (count : Z) | DuplicateIndex (i : Z).

(** The detail of a violation: a text, or the error it reports. *)
Inductive detail :=
  | Text (s : bytes)
  | OfAttachment (e : AttachmentSet.attach_error)
  | OfTable (e : DagAttachments.table_error)
  | OfPreconditions (e : precondition_error).

Record FieldViolation := mkField { FieldName : bytes; ViolationKind : ViolationType; Detail : detail }.
Record OperationViolation := mkViolation { vIndex : nat; vOp : option Op; Violations : list FieldViolation }.
Record OperationConflict := mkConflict {
  cIndex : nat; cOp : Op; cType : ConflictOperationType; ExistingDoc : option Doc; IncomingDoc : option Doc; BaseDoc : option Doc; ActualContentHash : option Hash;
}.
Record DocumentConflict := mkDocConflict { ConflictDocID : UUID; ConflictType : ConflictOperationType; ConflictExisting : option Doc; ConflictIncoming : option Doc; ConflictBase : option Doc }.

Record ConflictItem := mkItem { ItemDocumentID : bytes; ItemType : ConflictOperationType; LocalJSON : option bytes; IncomingJSON : option bytes; ActualHex : option bytes }.
Record ConflictReport := mkReport { ReportTransaction : bytes; ReportBase : bytes; ReportTarget : bytes; Conflicts : list ConflictItem }.

Inductive TransactionResult :=
  | ResultSuccess (c : Commit) (newTree : Hash)
  | ResultConflict (report : ConflictReport) (ops : list OperationConflict)
  | ResultSchemaError (violations : list OperationViolation)
  | ResultAborted (cause : bytes).

Inductive tx_error :=
  | DagFault (e : dag_error)
  | NavFault (e : nav_error)
  | TableFault (e : DagAttachments.table_error)
  | StoreFault (cause : bytes)
  | BaseNotFound (tx : UUID) (missing : Hash)
  | VersionMissing (h : Hash)
  | AlreadyFinished (tx : UUID).
Abbreviation tres := (go tx_error).

(** What the engine asks of the schema package.  A document that is valid is stored as it is. *)
Class SchemaEngine (S M : Type) := {
  IsNone : S -> bool;
  SchemaHashOf : S -> Hash;
  Validate : Doc -> S -> option (list FieldViolation);
  DecodeMigration : bytes -> go bytes M;
  ApplyMigration : S -> M -> go bytes S;
}.

Record defaultEngine := mkEngine {
  conflictPolicy : ConflictPolicy;
  customResolver : option (DocumentConflict -> go bytes (option Doc));
  preconditions : bool;
}.

Definition indexed (ops : list Op) : list (nat * Op) := zip (seq 0 (length ops)) ops.

(** ** Preconditions *)

Fixpoint by_op_index (ps : list Precondition) (count : Z) (out : gmap Z Precondition) : go precondition_error (gmap Z Precondition) :=
  match ps with
  | [] => Ok out
  | p :: ps =>
    if (OpIndex p <? 0) || (count <=? OpIndex p) then Err (IndexOutOfRange (OpIndex p) count)
    else match out !! OpIndex p with
         | Some _ => Err (DuplicateIndex (OpIndex p))
         | None => by_op_index ps count (<[OpIndex p := p]> out)
         end
  end.
Definition PreconditionsByOpIndex (ps : list Precondition) (opCount : Z) : go precondition_error (gmap Z Precondition) := by_op_index ps opCount ∅.

Definition preconditionHolds (pre : Precondition) (existing : option Doc) : bool * option Hash :=
  match Kind pre, existing with
  | ExpectAbsent, None => (true, None)
  | ExpectAbsent, Some _ => (false, None)
  | ExpectPresent, None => (false, None)
  | ExpectPresent, Some d => match ComputeContentHash d with Ok h => (true, Some h) | _ => (true, None) end
  | ExpectContentHash, None => (false, None)
  | ExpectContentHash, Some d => match ComputeContentHash d with Ok h => (bool_decide (h = PreContentHash pre), Some h) | _ => (false, None) end
  | ExpectAny, _ => (true, None)
  end.

(** The operations with a precondition that asserts something. *)
Definition guardedOpIndexes (ps : list Precondition) : gset Z := list_to_set (omap (fun p => if bool_decide (Kind p = ExpectAny) then None else Some (OpIndex p)) ps).

Section checks.
Context {W P S M V : Type} `{Adapter W} `{AttachmentPool.AttachmentSetStore P} `{SchemaEngine S M} `{!Constraints S V}.
(** The order in which Go ranges over a map of fields when a patch is merged. *)
Context (order : JsonPath.range_order).
Context (ns : bytes) (w : W).

(** [doc, _ := store.GetDocument(...)]: an error reads as no document. *)
Definition doc_at (h : Hash) (id : UUID) : option Doc := match GetDocument w ns id h with Ok d => d | _ => None end.

Fixpoint eval_preconditions (byIndex : gmap Z Precondition) (target : Hash) (ops : list (nat * Op)) (failures : list OperationConflict) : list OperationConflict * list OperationViolation :=
  match ops with
  | [] => (failures, [])
  | (i, op) :: ops =>
    match byIndex !! Z.of_nat i with
    | None => eval_preconditions byIndex target ops failures
    | Some pre =>
      if bool_decide (Kind pre = ExpectAny) then eval_preconditions byIndex target ops failures
      else match OpDocID op with
           | None => ([], [mkViolation i (Some op) [mkField [] CustomConstraint (Text (str "precondition declared on an operation that names no document"))]])
           | Some id =>
             let existing := doc_at target id in
             let '(satisfied, actual) := preconditionHolds pre existing in
             eval_preconditions byIndex target ops (if satisfied then failures else failures ++ [mkConflict i op PreconditionFailed existing None existing actual])
           end
    end
  end.

Definition evaluatePreconditions (tx : Transaction) (target : Hash) : list OperationConflict * list OperationViolation :=
  match PreconditionsByOpIndex (Preconditions tx) (zlen (tx_Operations tx)) with
  | Ok byIndex => eval_preconditions byIndex target (indexed (tx_Operations tx)) []
  | Err e => ([], [mkViolation 0 None [mkField [] CustomConstraint (OfPreconditions e)]])
  | Panic => ([], [])
  end.

(** ** Files and attachments *)

Definition preflightFileWrites (ops : list Op) : list OperationViolation :=
  omap (fun '(i, op) =>
    match op with
    | FileWriteOp path blob =>
      match ReadBlob w blob with
      | Ok (Some _) => None
      | _ => Some (mkViolation i (Some op) [mkField path CustomConstraint (Text (str "blob not found: " ++ Hex blob))])
      end
    | _ => None
    end) (indexed ops).

Definition hasBlob (h : Hash) : bool :=
  let yes r := match r with Ok b => b | _ => false end in
  match HasAttachmentBlob w with
  | Some has => yes (has ns h)
  | None => match HasBlob w with
            | Some has => yes (has h)
            | None => match ReadBlob w h with Ok (Some _) => true | _ => false end
            end
  end.

Definition touchesAttachmentOps (ops : list Op) : bool :=
  existsb (fun op => match op with AttachmentPutOp _ _ _ _ _ _ _ | AttachmentDeleteOp _ _ => true | _ => false end) ops.
Definition hasDelete (ops : list Op) : bool := existsb (fun op => match op with DeleteOp _ => true | _ => false end) ops.

(** Whether a document is there once the transaction has landed. *)
Definition present_after (ops : list Op) : gmap UUID bool :=
  foldl (fun m op => match op with WriteOp id _ _ => <[id := true]> m | DeleteOp id => <[id := false]> m | _ => m end) ∅ ops.
Definition presentAt (target : Hash) (present : gmap UUID bool) (id : UUID) : bool :=
  match present !! id with Some p => p | None => bool_decide (is_Some (doc_at target id)) end.

Definition put_fault (target : Hash) (present : gmap UUID bool) (op : Op) : option detail :=
  match op with
  | AttachmentPutOp doc id name _ ch size _ =>
    if bool_decide (id = AttachmentTable.nilUUID) then Some (Text (str "attachment has no id"))
    else match AttachmentSet.ValidateAttachmentName name with
         | Some e => Some (OfAttachment e)
         | None =>
           if size <? 0 then Some (Text (str "attachment size is negative"))
           else if negb (presentAt target present doc) then Some (Text (str "no such document: an attachment needs its document"))
           else if negb (hasBlob ch) then Some (Text (str "attachment blob not stored: " ++ Hex ch))
           else None
         end
  | _ => None
  end.

Definition attachment_violation (i : nat) (op : Op) (d : detail) : OperationViolation := mkViolation i (Some op) [mkField (str "_attachment") CustomConstraint d].

(** The operations one by one on the table they land on. *)
Fixpoint apply_each (ops : list (nat * Op)) (t : AttachmentTable.AttachmentTable) (k : DagAttachments.attachmentCache P) : tres (list OperationViolation) * DagAttachments.attachmentCache P :=
  match ops with
  | [] => (Ok [], k)
  | (i, op) :: ops =>
    match AttachmentTable.Apply t [op] (DagAttachments.setPool k) with
    | (Ok t, p) => apply_each ops t (DagAttachments.with_pool p k)
    | (Err e, p) => (Ok [attachment_violation i op (OfAttachment e)], DagAttachments.with_pool p k)
    | (Panic, p) => (Panic, DagAttachments.with_pool p k)
    end
  end.

Definition preflightAttachments (d : InMemoryCommitDag) (ops : list Op) (target anchor : Hash) (k : DagAttachments.attachmentCache P) : tres (list OperationViolation) * DagAttachments.attachmentCache P :=
  if negb (touchesAttachmentOps ops) then (Ok [], k)
  else
    let present := present_after ops in
    match omap (fun '(i, op) => attachment_violation i op <$> put_fault target present op) (indexed ops) with
    | [] =>
      match DagAttachments.attachmentTableLocked d anchor k with
      | (Ok t, k) => apply_each (indexed ops) t k
      | (Err e, k) => (Ok (match ops with op :: _ => [attachment_violation 0 op (OfTable e)] | [] => [] end), k)
      | (Panic, k) => (Panic, k)
      end
    | vs => (Ok vs, k)
    end.

(** ** The documents that a transaction writes *)

Record schemaOutcome := mkOutcome { rollingSchema : S; violations : list OperationViolation; writesByOpIndex : gmap nat Doc; txPending : gmap UUID (option Doc) }.

Definition custom (i : nat) (op : Op) (name : bytes) (d : detail) : OperationViolation := mkViolation i (Some op) [mkField name CustomConstraint d].
Definition violate (v : OperationViolation) (o : schemaOutcome) : schemaOutcome := mkOutcome (rollingSchema o) (violations o ++ [v]) (writesByOpIndex o) (txPending o).

(** What an earlier operation left of the document, or else the document of the baseline. *)
Definition rolling_doc (baseline : Hash) (o : schemaOutcome) (id : UUID) : option Doc :=
  match txPending o !! id with Some d => d | None => doc_at baseline id end.

Definition candidate (base : option Doc) (id : UUID) (patch : bytes) (replace : bool) : DocumentMerge.dres Doc :=
  match base with
  | Some d => if replace then DocumentJson.FromJSONWithID id patch else DocumentMerge.Merge order d patch
  | None => DocumentJson.FromJSONWithID id patch
  end.

Definition schema_op (baseline : Hash) (o : schemaOutcome) (iop : nat * Op) : tres schemaOutcome :=
  let '(i, op) := iop in
  match op with
  | WriteOp id patch replace =>
    match candidate (rolling_doc baseline o id) id patch replace with
    | Panic => Panic
    | Err _ => Ok (violate (custom i op (UUIDString id) (Text (str "invalid write payload"))) o)
    | Ok d =>
      match Validate d (rollingSchema o) with
      | Some vs => Ok (violate (mkViolation i (Some op) vs) o)
      | None => Ok (mkOutcome (rollingSchema o) (violations o) (<[i := d]> (writesByOpIndex o)) (<[id := Some d]> (txPending o)))
      end
    end
  | DeleteOp id => Ok (mkOutcome (rollingSchema o) (violations o) (writesByOpIndex o) (<[id := None]> (txPending o)))
  | SchemaMigrationOp _ payload =>
    match DecodeMigration payload with
    | Panic => Panic
    | Err e => Ok (violate (custom i op (str "migration") (Text e)) o)
    | Ok mig =>
      match ApplyMigration (rollingSchema o) mig with
      | Panic => Panic
      | Err e => Ok (violate (custom i op [] (Text e)) o)
      | Ok s => Ok (mkOutcome s (violations o) (writesByOpIndex o) (txPending o))
      end
    end
  | _ => Ok o
  end.

Fixpoint schema_ops (baseline : Hash) (ops : list (nat * Op)) (o : schemaOutcome) : tres schemaOutcome :=
  match ops with
  | [] => Ok o
  | iop :: ops => o ← schema_op baseline o iop; schema_ops baseline ops o
  end.

Definition runSchemaPhase (ops : list Op) (initial : S) (baseline : Hash) : tres schemaOutcome :=
  schema_ops baseline (indexed ops) (mkOutcome initial [] ∅ ∅).

(** ** Conflicts *)

Definition contentHashEqual (a b : option Doc) : bool :=
  match a, b with
  | None, None => true
  | Some a, Some b => match ComputeContentHash a, ComputeContentHash b with Ok ha, Ok hb => bool_decide (ha = hb) | _, _ => false end
  | _, _ => false
  end.

Definition zeroDoc : Doc := mkDoc AttachmentTable.nilUUID [].

Definition detect_op (base target : Hash) (writes : gmap nat Doc) (guarded : gset Z) (iop : nat * Op) : option OperationConflict :=
  let '(i, op) := iop in
  if bool_decide (Z.of_nat i ∈ guarded) then None
  else match op with
  | WriteOp id _ _ =>
    let baseDoc := doc_at base id in let existing := doc_at target id in
    if contentHashEqual baseDoc existing then None
    else match baseDoc, existing with
         | None, None => None
         | None, Some _ => Some (mkConflict i op DeleteWrite existing (Some (default zeroDoc (writes !! i))) baseDoc None)
         | Some _, None => Some (mkConflict i op WriteDelete existing (Some (default zeroDoc (writes !! i))) baseDoc None)
         | Some _, Some _ => Some (mkConflict i op ConcurrentWrite existing (Some (default zeroDoc (writes !! i))) baseDoc None)
         end
  | DeleteOp id =>
    let baseDoc := doc_at base id in let existing := doc_at target id in
    match baseDoc, existing with
    | None, None => None
    | _, _ => if contentHashEqual baseDoc existing then None
              else Some (mkConflict i op (match existing with Some _ => ConcurrentWrite | None => DeleteWrite end) existing None baseDoc None)
    end
  | _ => None
  end.
Definition detectConflicts (ops : list Op) (base target : Hash) (writes : gmap nat Doc) (guarded : gset Z) : list OperationConflict :=
  omap (detect_op base target writes guarded) (indexed ops).

(** Whether an attachment, or any of a document's, differs between two tables. *)
Definition attachmentChanged (base target : AttachmentTable.AttachmentTable) (doc att : UUID) (k : DagAttachments.attachmentCache P) : tres bool * DagAttachments.attachmentCache P :=
  match AttachmentTable.Get base doc att (DagAttachments.setPool k) with
  | (Err e, p) => (Err (TableFault (DagAttachments.TableFailed e)), DagAttachments.with_pool p k)
  | (Panic, p) => (Panic, DagAttachments.with_pool p k)
  | (Ok b, p) =>
    match AttachmentTable.Get target doc att p with
    | (Err e, p) => (Err (TableFault (DagAttachments.TableFailed e)), DagAttachments.with_pool p k)
    | (Panic, p) => (Panic, DagAttachments.with_pool p k)
    | (Ok t, p) => (Ok (negb (bool_decide (b = t))), DagAttachments.with_pool p k)
    end
  end.
Definition documentChanged (base target : AttachmentTable.AttachmentTable) (doc : UUID) : bool :=
  negb (bool_decide (AttachmentTable.SetHash base doc = AttachmentTable.SetHash target doc)).

Fixpoint attachment_conflicts (tbase ttarget : AttachmentTable.AttachmentTable) (base target : Hash) (guarded : gset Z) (ops : list (nat * Op)) (out : list OperationConflict) (k : DagAttachments.attachmentCache P) : tres (list OperationConflict) * DagAttachments.attachmentCache P :=
  match ops with
  | [] => (Ok out, k)
  | (i, op) :: ops =>
    if bool_decide (Z.of_nat i ∈ guarded) then attachment_conflicts tbase ttarget base target guarded ops out k
    else
      let look := match op with
        | AttachmentPutOp doc att _ _ _ _ _ | AttachmentDeleteOp doc att => let '(r, k) := attachmentChanged tbase ttarget doc att k in Some (doc, false, r, k)
        | DeleteOp doc => Some (doc, true, Ok (documentChanged tbase ttarget doc), k)
        | _ => None
        end in
      match look with
      | None => attachment_conflicts tbase ttarget base target guarded ops out k
      | Some (_, _, Err e, k) => (Err e, k)
      | Some (_, _, Panic, k) => (Panic, k)
      | Some (id, isDelete, Ok changed, k) =>
        let baseDoc := doc_at base id in let existing := doc_at target id in
        let out :=
          if changed then out ++ [mkConflict i op ConcurrentWrite existing None baseDoc None]
          else match baseDoc, existing with
               | Some _, None => if isDelete : bool then out else out ++ [mkConflict i op WriteDelete None None baseDoc None]
               | _, _ => out
               end in
        attachment_conflicts tbase ttarget base target guarded ops out k
      end
  end.

Definition detectAttachmentConflicts (d : InMemoryCommitDag) (tx : Transaction) (base target anchor : Hash) (guarded : gset Z) (k : DagAttachments.attachmentCache P) : tres (list OperationConflict) * DagAttachments.attachmentCache P :=
  let ops := tx_Operations tx in
  if negb (touchesAttachmentOps ops) && negb (hasDelete ops) then (Ok [], k)
  else if bool_decide (BaseVersion tx = anchor) || bool_decide (BaseVersion tx = ZeroHash) then (Ok [], k)
  else
    match DagAttachments.attachmentTableLocked d (BaseVersion tx) k with
    | (Err e, k) => (Err (TableFault e), k)
    | (Panic, k) => (Panic, k)
    | (Ok tbase, k) =>
      match DagAttachments.attachmentTableLocked d anchor k with
      | (Err e, k) => (Err (TableFault e), k)
      | (Panic, k) => (Panic, k)
      | (Ok ttarget, k) =>
        if (AttachmentTable.Len tbase =? 0) && (AttachmentTable.Len ttarget =? 0) && negb (touchesAttachmentOps ops) then (Ok [], k)
        else attachment_conflicts tbase ttarget base target guarded (indexed ops) [] k
      end
    end.

Definition toItem (c : OperationConflict) : ConflictItem :=
  mkItem (match OpDocID (cOp c) with Some id => UUIDString id | None => [] end) (cType c) (JSON <$> ExistingDoc c)
    (match cOp c with WriteOp _ _ _ => JSON <$> IncomingDoc c | _ => None end) (Hex <$> ActualContentHash c).
Definition toReport (tx : Transaction) (anchor : Hash) (cs : list OperationConflict) : ConflictReport :=
  mkReport (UUIDString (tx_ID tx)) (Hex (BaseVersion tx)) (Hex anchor) (map toItem cs).

(** ** The plan *)

Record PreparedCommit := mkPrepared {
  p_tx : Transaction; anchorCommit : Hash; extendingTip : bool; p_writes : gmap nat Doc; p_schema : S; uniques : uniquePlan; finished : bool;
}.

(** A custom resolver settles the conflicts of writes one by one. *)
Fixpoint resolve_all (resolve : DocumentConflict -> go bytes (option Doc)) (sch : S) (report : TransactionResult) (cs : list OperationConflict) (writes : gmap nat Doc) : tres (gmap nat Doc + TransactionResult) :=
  match cs with
  | [] => Ok (inl writes)
  | c :: cs =>
    match cOp c with
    | WriteOp id _ _ =>
      match resolve (mkDocConflict id (cType c) (ExistingDoc c) (IncomingDoc c) (BaseDoc c)) with
      | Ok (Some d) =>
        match Validate d sch with
        | Some vs => Ok (inr (ResultSchemaError [mkViolation (cIndex c) (Some (cOp c)) vs]))
        | None => resolve_all resolve sch report cs (<[cIndex c := d]> writes)
        end
      | Panic => Panic
      | _ => Ok (inr report)
      end
    | _ => Ok (inr report)
    end
  end.

(** [strings.Split] at a byte. *)
Fixpoint split_at_byte (sep : byte) (s : bytes) : list bytes :=
  match s with
  | [] => [[]]
  | c :: s => if bool_decide (c = sep) then [] :: split_at_byte sep s else match split_at_byte sep s with x :: l => (c :: x) :: l | [] => [[c]] end
  end.

(** [FieldNames] and [FieldName] of a key. *)
Definition key_name (k : UniqueKey) : bytes :=
  match (if bool_decide (Fields k = []) then [] else split_at_byte x1f (Fields k)) with
  | [n] => n
  | l => str "(" ++ join (str ", ") l ++ str ")"
  end.
Definition uniqueViolation (ops : list Op) (v : unique_violation) : OperationViolation :=
  match v with
  | CannotEvaluate i id cause => mkViolation i (ops !! i) [mkField (UUIDString id) CustomConstraint (Text (str "cannot evaluate unique constraints: " ++ cause))]
  | ValueHeld i key owner => mkViolation i (ops !! i) [mkField (key_name key) UniqueConstraint (Text (str "value already held by document " ++ UUIDString owner))]
  end.

Definition plan (e : defaultEngine) (d : InMemoryCommitDag) (registry : option UniqueKeyRegistry) (tx : Transaction) (incoming : S) (anchor base baseline target : Hash)
    (k : DagAttachments.attachmentCache P) : tres (PreparedCommit + TransactionResult) * DagAttachments.attachmentCache P :=
  let ops := tx_Operations tx in
  let tip := HeadIs anchor d in
  match preflightFileWrites ops with
  | _ :: _ as vs => (Ok (inr (ResultSchemaError vs)), k)
  | [] =>
    let '(pre, k) := preflightAttachments d ops target anchor k in
    match pre with
    | Err e => (Err e, k)
    | Panic => (Panic, k)
    | Ok (_ :: _ as vs) => (Ok (inr (ResultSchemaError vs)), k)
    | Ok [] =>
      match runSchemaPhase ops incoming baseline with
      | Err e => (Err e, k)
      | Panic => (Panic, k)
      | Ok frame =>
        match violations frame with
        | _ :: _ as vs => (Ok (inr (ResultSchemaError vs)), k)
        | [] =>
          let writes := writesByOpIndex frame in
          let checked := preconditions e && match Preconditions tx with [] => false | _ => true end in
          let '(failures, vs) := if checked then evaluatePreconditions tx target else ([], []) in
          match vs, failures with
          | _ :: _, _ => (Ok (inr (ResultSchemaError vs)), k)
          | [], _ :: _ => (Ok (inr (ResultConflict (toReport tx anchor failures) failures)), k)
          | [], [] =>
            let guarded := if checked then guardedOpIndexes (Preconditions tx) else ∅ in
            let '(found, k) :=
              match conflictPolicy e with
              | AppendOnly | LastWrite => (Ok [], k)
              | Strict | Custom =>
                let cs := detectConflicts ops base target writes guarded in
                let '(acs, k) := detectAttachmentConflicts d tx base target anchor guarded k in
                (acs ← acs; Ok (cs ++ acs), k)
              end in
            match found with
            | Err e => (Err e, k)
            | Panic => (Panic, k)
            | Ok cs =>
              let report := ResultConflict (toReport tx anchor cs) cs in
              let settled :=
                match cs, conflictPolicy e with
                | _ :: _, Strict => Ok (inr report)
                | _ :: _, Custom => match customResolver e with None => Ok (inr report) | Some resolve => resolve_all resolve (rollingSchema frame) report cs writes end
                | _, _ => Ok (inl writes)
                end in
              match settled with
              | Err e => (Err e, k)
              | Panic => (Panic, k)
              | Ok (inr r) => (Ok (inr r), k)
              | Ok (inl writes) =>
                let sch := rollingSchema frame in
                let '(u, uvs) := planUniqueKeys (UniqueKeysFor ns sch) (doc_at target) registry (HasUniqueConstraints sch) ops writes in
                match uvs with
                | _ :: _ => (Ok (inr (ResultSchemaError (map (uniqueViolation ops) uvs))), k)
                | [] => (Ok (inl (mkPrepared tx anchor tip writes sch u false)), k)
                end
              end
            end
          end
        end
      end
    end
  end.

End checks.

End TxPlan.
