(* ===== verification/TxSerial.v ===== *)
(** What the checks of a transaction mean.

    The documents that the schema phase makes are those of running the requests one after the
    other; a plan that is made says that preconditions hold, that values are free and, under the
    strict policy, that the documents it changes are still those of its base - so that the
    transaction has the effect of its requests on the tree it lands on. *)

From S2P Require Import Prelude Primitives Strings Schema Document Sha256 Commit CommitDirect CommitCorrect Dag DagOps DagHistory Json JsonPath DocumentMerge DocumentJson DocumentTree AttachmentSet AttachmentPool AttachmentTable DagAttachments MemStore UniqueRegistry StorageAdapter TxPlan.
Import Primitives Document Commit CommitDirect Dag DagOps DagHistory UniqueRegistry StorageAdapter TxPlan.

Module TxSerial.

#[local] Opaque Sha256.Sum256 MemStore.ContentHashOf.

#[export] Instance doc_eq_dec : EqDecision Doc.
Proof. solve_decision. Defined.

(** ** Running requests on documents *)

Section serial.
Context (order : JsonPath.range_order).

(** A patch is merged with the document that is there, unless it replaces it. *)
Definition exec_op (m : gmap UUID Doc) (op : Op) : DocumentMerge.dres (gmap UUID Doc) :=
  match op with
  | WriteOp id patch replace => d ← candidate order (m !! id) id patch replace; Ok (<[id := d]> m)
  | DeleteOp id => Ok (delete id m)
  | _ => Ok m
  end.
Fixpoint exec_ops (ops : list Op) (m : gmap UUID Doc) : DocumentMerge.dres (gmap UUID Doc) :=
  match ops with [] => Ok m | op :: ops => m ← exec_op m op; exec_ops ops m end.

Lemma candidate_id base id patch replace d : (forall b, base = Some b -> DocumentID b = id) -> candidate order base id patch replace = Ok d -> DocumentID d = id.
Proof.
  intros Hb. assert (Hf : DocumentJson.FromJSONWithID id patch = Ok d -> DocumentID d = id) by (unfold DocumentJson.FromJSONWithID; destruct (DocumentJson.validateObjectJSON patch); [intros [= <-]|..]; done).
  unfold candidate. destruct base as [b|]; [|done]. destruct replace; [done|]. unfold DocumentMerge.Merge. do 3 (intros (? & _ & K)%go_bind_ok; revert K). intros [= <-]. cbn. by apply Hb.
Qed.
End serial.

(** ** The schema phase *)

Section phase.
Context {W P S M V : Type} `{Adapter W} `{AttachmentPool.AttachmentSetStore P} `{SchemaEngine S M} `{!Constraints S V}.
Context (order : JsonPath.range_order) (ns : bytes) (w : W) (baseline : Hash).

Abbreviation step := (schema_op order ns w baseline).
Abbreviation steps := (schema_ops order ns w baseline).
Abbreviation rolling := (rolling_doc ns w baseline).

Lemma step_violations o iop o' : step o iop = Ok o' -> exists vs, violations o' = violations o ++ vs.
Proof.
  destruct iop as [i op]. destruct op as [id patch r|id| |mid payload| |]; cbn [schema_op]; try (intros [= <-]; exists []; by rewrite app_nil_r).
  - destruct (candidate _ _ _ _ _); [|intros [= <-]; by eexists|done]. destruct (Validate _ _); intros [= <-]; [by eexists|]. exists []. by rewrite app_nil_r.
  - destruct (DecodeMigration payload); [|intros [= <-]; by eexists|done]. destruct (ApplyMigration _ _); [|intros [= <-]; by eexists|done]. intros [= <-]. exists []. by rewrite app_nil_r.
Qed.
Lemma steps_violations l o o' : steps l o = Ok o' -> exists vs, violations o' = violations o ++ vs.
Proof.
  revert o. induction l as [|iop l IH]; intros o; cbn [schema_ops]; [intros [= <-]; exists []; by rewrite app_nil_r|]. destruct (step o iop) as [o1| |] eqn:E; [|done..]. cbn. intros E'. destruct (IH _ E') as [vs ->]. destruct (step_violations _ _ _ E) as [vs' ->]. exists (vs' ++ vs). by rewrite app_assoc.
Qed.

(** A step that finds nothing wrong. *)
Lemma step_ok o i op o' : step o (i, op) = Ok o' -> violations o' = [] ->
  match op with
  | WriteOp id patch r => exists d, candidate order (rolling o id) id patch r = Ok d /\ writesByOpIndex o' = <[i := d]> (writesByOpIndex o) /\ txPending o' = <[id := Some d]> (txPending o)
  | DeleteOp id => writesByOpIndex o' = writesByOpIndex o /\ txPending o' = <[id := None]> (txPending o)
  | _ => writesByOpIndex o' = writesByOpIndex o /\ txPending o' = txPending o
  end.
Proof.
  assert (Hbad : forall (l : list OperationViolation) v, l ++ [v] <> []) by (intros [|] ?; done).
  destruct op as [id patch r|id| |mid payload| |]; cbn [schema_op]; try (intros [= <-]; done).
  - destruct (candidate _ _ _ _ _) as [d| |]; [|intros [= <-] Hv; by apply Hbad in Hv|done]. destruct (Validate _ _); intros [= <-] Hv; [by apply Hbad in Hv|]. by exists d.
  - destruct (DecodeMigration payload); [|intros [= <-] Hv; by apply Hbad in Hv|done]. destruct (ApplyMigration _ _); [|intros [= <-] Hv; by apply Hbad in Hv|done]. by intros [= <-].
Qed.

Lemma rolling_insert (o o' : schemaOutcome (S := S)) id d id' : txPending o' = <[id := d]> (txPending o) -> rolling o' id' = if bool_decide (id' = id) then d else rolling o id'.
Proof. intros E. unfold rolling_doc. rewrite E. case_bool_decide as K; [subst; by rewrite lookup_insert_eq|by rewrite lookup_insert_ne]. Qed.

(** The documents that the phase makes are those that running the requests makes, on any
    documents that agree with its baseline where the requests touch them. *)
Lemma phase_runs l o o' (m : gmap UUID Doc) : NoDup l.*1 -> steps l o = Ok o' -> violations o' = [] ->
  (forall id d, m !! id = Some d -> DocumentID d = id) ->
  (forall iop id, iop ∈ l -> touched iop.2 = Some id -> m !! id = rolling o id) ->
  (forall i, i ∉ l.*1 -> writesByOpIndex o' !! i = writesByOpIndex o !! i) /\ Forall (UniqueRegistry.staged (writesByOpIndex o')) l /\
  (forall i id pt r d, (i, WriteOp id pt r) ∈ l -> writesByOpIndex o' !! i = Some d -> DocumentID d = id) /\
  exec_ops order l.*2 m = Ok (foldl (land (writesByOpIndex o')) m l).
Proof.
  revert o m. induction l as [|[i op] l IH]; intros o m Hn E Hv Hid Hm; cbn [schema_ops] in E.
  { injection E as <-. split_and!; [done|by constructor| |done]. intros ????? Hin. by apply not_elem_of_nil in Hin. }
  destruct (step o (i, op)) as [o1| |] eqn:E1; [|done..]. cbn in E. destruct (steps_violations _ _ _ E) as [vs Evs]. assert (Hv1 : violations o1 = []) by (rewrite Hv in Evs; by destruct (violations o1)). clear Evs vs.
  pose proof (step_ok o i op o1 E1 Hv1) as K. cbn [fmap list_fmap fst] in Hn. apply NoDup_cons in Hn as [Hi Hn]. cbn [fmap list_fmap snd foldl exec_ops fst].
  assert (Hskip : writesByOpIndex o1 = writesByOpIndex o -> txPending o1 = txPending o -> touched op = None -> exec_op order m op = Ok m -> (forall w, land w m (i, op) = m) ->
    (forall j, j ∉ i :: l.*1 -> writesByOpIndex o' !! j = writesByOpIndex o !! j) /\ Forall (UniqueRegistry.staged (writesByOpIndex o')) ((i, op) :: l) /\
    (forall j id pt r d, (j, WriteOp id pt r) ∈ (i, op) :: l -> writesByOpIndex o' !! j = Some d -> DocumentID d = id) /\ (m0 ← exec_op order m op; exec_ops order l.*2 m0) = Ok (foldl (land (writesByOpIndex o')) (land (writesByOpIndex o') m (i, op)) l)).
  { intros Ew Ep Et Ex El. destruct (IH o1 m Hn E Hv) as (I1 & I2 & I3 & I4); [done|intros iop id Hin Ht; unfold rolling_doc; rewrite Ep; apply (Hm iop id); [by right|done]|]. rewrite Ex, El. split_and!.
    - intros j [_ Hj]%not_elem_of_cons. by rewrite I1, Ew. - constructor; [by destruct op|done].
    - intros j id pt r d [Eq|Hin]%elem_of_cons; [injection Eq as -> <-; done|by eapply I3]. - done. }
  destruct op as [id patch r|id| | | |]; try (by destruct K; apply Hskip).
  - destruct K as (d & Ec & Ew & Ep). clear Hskip. assert (Hmi : m !! id = rolling o id) by (apply (Hm (i, WriteOp id patch r) id); [by left|done]).
    assert (Hdid : DocumentID d = id) by (eapply candidate_id; [|exact Ec]; intros b; rewrite <- Hmi; apply Hid).
    destruct (IH o1 (<[id := d]> m) Hn E Hv) as (I1 & I2 & I3 & I4).
    + intros id' d' [[<- <-]|[_ Hd']]%lookup_insert_Some; [done|by apply Hid].
    + intros iop id' Hin Ht. rewrite (rolling_insert _ _ _ _ id' Ep). case_bool_decide as Eq; [rewrite Eq; apply lookup_insert_eq|]. rewrite lookup_insert_ne by done. apply (Hm iop id'); [by right|done].
    + assert (Hwi : writesByOpIndex o' !! i = Some d) by (rewrite I1 by done; rewrite Ew; apply lookup_insert_eq). split_and!.
      * intros j [Hj Hjl]%not_elem_of_cons. rewrite I1, Ew by done. by apply lookup_insert_ne.
      * constructor; [by exists d|done].
      * intros j id' pt r' d' [Eq|Hin]%elem_of_cons; [|by eapply I3]. injection Eq as -> -> _ _. rewrite Hwi. by intros [= <-].
      * cbn [exec_op]. rewrite Hmi, Ec. cbn. rewrite I4. do 2 f_equal. unfold land. cbn [fst snd]. by rewrite Hwi.
  - destruct K as [Ew Ep]. clear Hskip. destruct (IH o1 (delete id m) Hn E Hv) as (I1 & I2 & I3 & I4).
    + intros id' d' [_ Hd']%lookup_delete_Some. by apply Hid.
    + intros iop id' Hin Ht. rewrite (rolling_insert _ _ _ _ id' Ep). case_bool_decide as Eq; [rewrite Eq; apply lookup_delete_eq|]. rewrite lookup_delete_ne by done. apply (Hm iop id'); [by right|done].
    + split_and!; [intros j [_ Hj]%not_elem_of_cons; by rewrite I1, Ew|constructor; done|intros j id' pt r d [Eq|Hin]%elem_of_cons; [done|by eapply I3]|]. cbn [exec_op]. cbn. by rewrite I4.
Qed.

End phase.

(** ** What a plan says *)

Lemma NoDup_indexed ops : NoDup (indexed ops).*1.
Proof. unfold indexed. rewrite fst_zip by (rewrite length_seq; lia). apply NoDup_seq. Qed.
Lemma indexed_ops ops : (indexed ops).*2 = ops.
Proof. unfold indexed. apply snd_zip. rewrite length_seq. lia. Qed.

Lemma elem_of_indexed ops i op : (i, op) ∈ indexed ops <-> ops !! i = Some op.
Proof.
  unfold indexed. rewrite list_elem_of_lookup. split.
  - intros [j Hj]. rewrite lookup_zip_with_Some in Hj. destruct Hj as (x & y & Eq & Hx & Hy). injection Eq as -> ->. apply lookup_seq in Hx as [-> _]. done.
  - intros E. exists i. rewrite lookup_zip_with_Some. exists i, op. split_and!; [done| |done]. apply lookup_seq. split; [done|]. by apply lookup_lt_Some in E.
Qed.

Section plans.
Context {W P S M V : Type} `{Adapter W} `{AttachmentPool.AttachmentSetStore P} `{SchemaEngine S M} `{!Constraints S V}.
Context (order : JsonPath.range_order) (ns : bytes) (w : W).

(** The preconditions that a transaction declares, by operation. *)
Definition declared (tx : Transaction) (i : nat) (pre : Precondition) : Prop := pre ∈ Preconditions tx /\ OpIndex pre = Z.of_nat i /\ Kind pre <> ExpectAny.

(** A precondition on a document. *)
Definition holds_of (pre : Precondition) (d : option Doc) : Prop :=
  match Kind pre with
  | ExpectAny => True
  | ExpectAbsent => d = None
  | ExpectPresent => is_Some d
  | ExpectContentHash => exists d', d = Some d' /\ MemStore.ContentHashOf d' = PreContentHash pre
  end.

Lemma preconditionHolds_spec pre d : (preconditionHolds pre d).1 = true <-> holds_of pre d.
Proof.
  unfold preconditionHolds, holds_of. destruct d as [d|]; [rewrite MemStore.ContentHash_total|]; destruct (Kind pre); cbn [fst].
  - done.
  - split; [done|]. by intros ?.
  - split; [by eexists|done].
  - rewrite bool_decide_eq_true. split; [intros E; by exists d|]. by intros (d' & [= <-] & E).
  - done.
  - done.
  - split; [done|]. by intros [].
  - split; [done|]. by intros (? & ? & _).
Qed.

Lemma by_op_index_spec ps n out m : by_op_index ps n out = Ok m ->
  (forall i p, out !! i = Some p -> m !! i = Some p) /\ (forall p, p ∈ ps -> m !! OpIndex p = Some p).
Proof.
  revert out. induction ps as [|p ps IH]; intros out; cbn [by_op_index]; [intros [= <-]; split; [done|]; by intros p ?%not_elem_of_nil|]. destruct (_ || _); [done|]. destruct (out !! OpIndex p) eqn:E; [done|]. intros K. destruct (IH _ K) as [I1 I2]. split.
  - intros i q Hq. apply I1. rewrite lookup_insert_ne; [done|]. intros <-. congruence.
  - intros q [->|Hq]%elem_of_cons; [apply I1, lookup_insert_eq|auto].
Qed.

Lemma eval_preconditions_fail byIndex target l fs fs' vs : eval_preconditions ns w byIndex target l fs = (fs', vs) -> vs <> [] \/ exists more, fs' = fs ++ more.
Proof.
  revert fs. induction l as [|[i op] l IH]; intros fs; cbn [eval_preconditions]; [intros [= <- <-]; right; exists []; by rewrite app_nil_r|]. destruct (byIndex !! Z.of_nat i) as [pre|]; [|apply IH]. case_bool_decide; [apply IH|].
  destruct (OpDocID op) as [id|]; [|intros [= <- <-]; by left]. destruct (preconditionHolds pre _) as [sat act]. intros E. destruct (IH _ E) as [?|[more ->]]; [by left|]. right. destruct sat; [by eexists|]. rewrite <- app_assoc. by eexists.
Qed.

Lemma eval_preconditions_ok byIndex target l : eval_preconditions ns w byIndex target l [] = ([], []) ->
  forall i op pre, (i, op) ∈ l -> byIndex !! Z.of_nat i = Some pre -> Kind pre <> ExpectAny -> exists id, OpDocID op = Some id /\ holds_of pre (doc_at ns w target id).
Proof.
  induction l as [|[j op'] l IH]; intros E i op pre Hin Hp Hk; [by apply not_elem_of_nil in Hin|]. cbn [eval_preconditions] in E. apply elem_of_cons in Hin as [[= <- <-]|Hin].
  - rewrite Hp in E. rewrite bool_decide_eq_false_2 in E by done. destruct (OpDocID op) as [id|]; [|done]. exists id. split; [done|]. apply preconditionHolds_spec. destruct (preconditionHolds pre _) as [[] act]; [done|]. destruct (eval_preconditions_fail _ _ _ _ _ _ E) as [?|[more K]]; [done|]. by destruct more.
  - apply (IH) with (i := i); [|done..]. destruct (byIndex !! Z.of_nat j) as [q|]; [|done]. case_bool_decide; [done|]. destruct (OpDocID op') as [id|]; [|done]. destruct (preconditionHolds q _) as [[] act]; [done|]. destruct (eval_preconditions_fail _ _ _ _ _ _ E) as [?|[more K]]; [done|]. by destruct more.
Qed.

(** Every precondition that asserts something holds of the document in the target. *)
Lemma evaluatePreconditions_ok tx target : evaluatePreconditions ns w tx target = ([], []) ->
  forall i op pre, tx_Operations tx !! i = Some op -> declared tx i pre -> exists id, OpDocID op = Some id /\ holds_of pre (doc_at ns w target id).
Proof.
  unfold evaluatePreconditions. destruct (PreconditionsByOpIndex _ _) as [byIndex|e|] eqn:E; [|done|].
  - intros K i op pre Ho (Hin & Hi & Hk). destruct (by_op_index_spec _ _ _ _ E) as [_ I2]. eapply eval_preconditions_ok; [exact K|by apply elem_of_indexed| |done]. rewrite <- Hi. by apply I2.
  - exfalso. unfold PreconditionsByOpIndex in E. revert E. generalize (∅ : gmap Z Precondition). induction (Preconditions tx) as [|p ps IH]; intros out; cbn [by_op_index]; [done|]. destruct (_ || _); [done|]. destruct (out !! _); [done|]. apply IH.
Qed.

(** An operation that is not guarded and not in conflict changes a document that the target has
    as the base has it. *)
Lemma contentHashEqual_spec a b : contentHashEqual a b = true <-> MemStore.ContentHashOf <$> a = MemStore.ContentHashOf <$> b.
Proof.
  unfold contentHashEqual. destruct a as [a|], b as [b|]; [|done..]. rewrite !MemStore.ContentHash_total. rewrite bool_decide_eq_true. cbn [fmap option_fmap option_map]. split; [intros E; exact (f_equal Some E)|intros E; exact (Some_inj _ _ E)].
Qed.

Lemma detectConflicts_none ops base target writes guarded : detectConflicts ns w ops base target writes guarded = [] ->
  forall i op id, ops !! i = Some op -> Z.of_nat i ∉ guarded -> touched op = Some id ->
  MemStore.ContentHashOf <$> doc_at ns w base id = MemStore.ContentHashOf <$> doc_at ns w target id.
Proof.
  intros E i op id Ho Hg Ht. assert (Hn : detect_op ns w base target writes guarded (i, op) = None).
  { destruct (detect_op ns w base target writes guarded (i, op)) as [c|] eqn:Ec; [|done]. assert (Hin : c ∈ detectConflicts ns w ops base target writes guarded) by (unfold detectConflicts; apply list_elem_of_omap; exists (i, op); split; [by apply elem_of_indexed|done]). rewrite E in Hin. by apply not_elem_of_nil in Hin. }
  unfold detect_op in Hn. rewrite bool_decide_eq_false_2 in Hn by done. apply contentHashEqual_spec. destruct op as [x pt r|x| | | |]; try done; cbn in Ht; injection Ht as ->.
  - destruct (contentHashEqual _ _) eqn:Eh; [done|]. by destruct (doc_at ns w base id), (doc_at ns w target id).
  - destruct (doc_at ns w base id), (doc_at ns w target id); [|done..]; destruct (contentHashEqual _ _); done.
Qed.

(** The operations that are exempt from conflict detection. *)
Definition checks_preconditions (e : defaultEngine) (tx : Transaction) : bool := preconditions e && match Preconditions tx with [] => false | _ => true end.
Definition guards (e : defaultEngine) (tx : Transaction) : gset Z := if checks_preconditions e tx then guardedOpIndexes (Preconditions tx) else ∅.

Definition not_write (c : OperationConflict) : Prop := match cOp c with WriteOp _ _ _ => False | _ => True end.

Lemma attachment_conflicts_from tb tt base target guarded l out k cs k' :
  attachment_conflicts (P := P) ns w tb tt base target guarded l out k = (Ok cs, k') -> Forall not_write out -> Forall not_write cs.
Proof.
  revert out k. induction l as [|[i op] l IH]; intros out k; cbn [attachment_conflicts]; [by intros [= <- _]|]. case_bool_decide; [apply IH|].
  assert (Hstep : forall id isDelete changed k1, match op with WriteOp _ _ _ => False | _ => True end ->
    attachment_conflicts ns w tb tt base target guarded l (if changed : bool then out ++ [mkConflict i op ConcurrentWrite (doc_at ns w target id) None (doc_at ns w base id) None] else
      match doc_at ns w base id, doc_at ns w target id with Some _, None => if isDelete : bool then out else out ++ [mkConflict i op WriteDelete None None (doc_at ns w base id) None] | _, _ => out end) k1 = (Ok cs, k') ->
    Forall not_write out -> Forall not_write cs).
  { intros id isDelete changed k1 Hop E Ho. eapply IH; [exact E|]. assert (Happ : forall c, cOp c = op -> Forall not_write (out ++ [c])) by (intros c Ec; apply Forall_app; split; [done|]; constructor; [unfold not_write; by rewrite Ec|done]).
    destruct changed; [by apply Happ|]. destruct (doc_at ns w base id), (doc_at ns w target id); try done. destruct isDelete; [done|by apply Happ]. }
  destruct op as [? ? ?|doc|? ?|? ?|doc att ? ? ? ? ?|doc att]; [apply IH|exact (Hstep doc true _ k I)|apply IH|apply IH|..];
    destruct (attachmentChanged _ _ _ _ k) as [[changed| |] k1]; try done; exact (Hstep doc false changed k1 I).
Qed.

Lemma attachments_not_written d tx base target anchor guarded k acs k' : detectAttachmentConflicts (P := P) ns w d tx base target anchor guarded k = (Ok acs, k') -> Forall not_write acs.
Proof.
  unfold detectAttachmentConflicts. destruct (_ && _); [by intros [= <- _]|]. destruct (_ || _); [by intros [= <- _]|]. destruct (DagAttachments.attachmentTableLocked d (BaseVersion tx) k) as [[tb| |] k1]; [|done..]. destruct (DagAttachments.attachmentTableLocked d anchor k1) as [[ttab| |] k2]; [|done..].
  destruct (_ && _); [by intros [= <- _]|]. intros E. by eapply attachment_conflicts_from.
Qed.

(** How the writes of the plan come from those of the schema phase: as they are, or with the
    conflicting ones settled by the resolver. *)
Definition settled (e : defaultEngine) (tx : Transaction) (base target : Hash) (frame : schemaOutcome (S := S)) (writes : gmap nat Doc) : Prop :=
  let cs := detectConflicts ns w (tx_Operations tx) base target (writesByOpIndex frame) (guards e tx) in
  match conflictPolicy e with
  | AppendOnly | LastWrite => writes = writesByOpIndex frame
  | Strict => cs = [] /\ writes = writesByOpIndex frame
  | Custom => exists acs, Forall not_write acs /\ ((cs ++ acs = [] /\ writes = writesByOpIndex frame) \/
      exists resolve report, customResolver e = Some resolve /\ resolve_all resolve (rollingSchema frame) report (cs ++ acs) (writesByOpIndex frame) = Ok (inl writes))
  end.

Record planned (e : defaultEngine) (d : InMemoryCommitDag) (registry : option UniqueKeyRegistry) (tx : Transaction) (sch : S) (anchor base baseline target : Hash) (p : PreparedCommit (S := S)) : Prop := {
  pl_tx : p_tx p = tx;
  pl_anchor : anchorCommit p = anchor;
  pl_tip : extendingTip p = HeadIs anchor d;
  pl_open : finished p = false;
  pl_frame : exists frame, runSchemaPhase order ns w (tx_Operations tx) sch baseline = Ok frame /\ violations frame = [] /\ p_schema p = rollingSchema frame /\ settled e tx base target frame (p_writes p);
  pl_pre : checks_preconditions e tx = true -> evaluatePreconditions ns w tx target = ([], []);
  pl_unique : planUniqueKeys (UniqueKeysFor ns (p_schema p)) (doc_at ns w target) registry (HasUniqueConstraints (p_schema p)) (tx_Operations tx) (p_writes p) = (uniques p, []);
}.

Lemma found_conflicts e d tx base target anchor writes k : forall found k',
  match conflictPolicy e with
  | AppendOnly | LastWrite => (Ok [], k)
  | Strict | Custom =>
    let cs := detectConflicts ns w (tx_Operations tx) base target writes (guards e tx) in
    let '(acs, k) := detectAttachmentConflicts ns w d tx base target anchor (guards e tx) k in
    (acs ← acs; Ok (cs ++ acs), k)
  end = (Ok found, k') ->
  match conflictPolicy e with AppendOnly | LastWrite => found = [] | _ => exists acs, Forall not_write acs /\ found = detectConflicts ns w (tx_Operations tx) base target writes (guards e tx) ++ acs end.
Proof.
  intros found k'. pose proof (attachments_not_written d tx base target anchor (guards e tx) k) as Hn.
  destruct (detectAttachmentConflicts _ _ _ _ _ _ _ _ k) as [[acs| |] k0]; destruct (conflictPolicy e); try (by intros [= <- _]); try done.
  all: intros [= <- _]; exists acs; split; [by apply (Hn acs k0)|done].
Qed.

Lemma plan_ok e d registry tx sch anchor base baseline target k p k' :
  plan (P := P) order ns w e d registry tx sch anchor base baseline target k = (Ok (inl p), k') -> planned e d registry tx sch anchor base baseline target p.
Proof.
  unfold plan. destruct (preflightFileWrites _ _); [|done]. destruct (preflightAttachments _ _ _ _ _ _ k) as [[[|]| |] k1]; [|done..].
  destruct (runSchemaPhase _ _ _ _ _ _) as [frame| |] eqn:Ef; [|done..]. destruct (violations frame) eqn:Ev; [|done]. fold (checks_preconditions e tx). fold (guards e tx).
  destruct (if checks_preconditions e tx then _ else _) as [fs vs] eqn:Ep. destruct vs; [|done]. destruct fs; [|done].
  destruct (match conflictPolicy e with AppendOnly | LastWrite => _ | _ => _ end) as [found k2] eqn:Ec. destruct found as [found| |]; [|done..]. apply found_conflicts in Ec.
  destruct (match found with [] => _ | _ => _ end) as [[writes|r]| |] eqn:Es; [|done..]. destruct (planUniqueKeys _ _ _ _ _ _) as [u uvs] eqn:Eu. destruct uvs; [|done]. intros [= <- _]. constructor; cbn [p_tx anchorCommit extendingTip finished p_schema p_writes uniques]; [done..| | |done].
  - exists frame. split_and!; [done|done|done|]. unfold settled. destruct (conflictPolicy e).
    + rewrite Ec in Es. by injection Es as <-.
    + rewrite Ec in Es. by injection Es as <-.
    + destruct Ec as (acs & _ & ->). destruct (detectConflicts _ _ _ _ _ _ _ ++ acs) eqn:Ea; [|done]. injection Es as <-. split; [|done]. exact (proj1 (app_eq_nil _ _ Ea)).
    + destruct Ec as (acs & Hacs & ->). exists acs. split; [done|]. destruct (detectConflicts _ _ _ _ _ _ _ ++ acs) eqn:Ea; [left; by injection Es as <-|]. right. destruct (customResolver e) as [resolve|]; [|done]. exists resolve. eexists. split; [done|]. exact Es.
  - intros Hc. by rewrite Hc in Ep.
Qed.

(** A plan that is not made is a conflict or a violation. *)
Definition rejection (r : TransactionResult) : Prop := match r with ResultConflict _ _ | ResultSchemaError _ => True | _ => False end.

Lemma resolve_all_rejects resolve sch report cs writes r : rejection report -> resolve_all resolve sch report cs writes = Ok (inr r) -> rejection r.
Proof.
  intros Hr. revert writes. induction cs as [|c cs IH]; intros writes; cbn [resolve_all]; [done|]. destruct (cOp c); try (by intros [= <-]). destruct (resolve _) as [[d|]| |]; [|by intros [= <-]..|done]. destruct (Validate d sch); [by intros [= <-]|apply IH].
Qed.

Lemma plan_rejects e d registry tx sch anchor base baseline target k r k' : plan (P := P) order ns w e d registry tx sch anchor base baseline target k = (Ok (inr r), k') -> rejection r.
Proof.
  unfold plan. destruct (preflightFileWrites _ _); [|by intros [= <- _]]. destruct (preflightAttachments _ _ _ _ _ _ k) as [[[|]| |] k1]; [|by intros [= <- _]|done..].
  destruct (runSchemaPhase _ _ _ _ _ _) as [frame| |]; [|done..]. destruct (violations frame); [|by intros [= <- _]]. fold (checks_preconditions e tx). destruct (if checks_preconditions e tx then _ else _) as [fs vs]. destruct vs; [|by intros [= <- _]]. destruct fs; [|by intros [= <- _]].
  destruct (match conflictPolicy e with AppendOnly | LastWrite => _ | _ => _ end) as [found k2]. destruct found as [found| |]; [|done..]. destruct (match found with [] => _ | _ => _ end) as [[writes|r0]| |] eqn:Es; [| |done..].
  - destruct (planUniqueKeys _ _ _ _ _ _) as [u uvs]. destruct uvs; [done|by intros [= <- _]].
  - intros [= <- _]. destruct found; [done|]. destruct (conflictPolicy e); [done|done|by injection Es as <-|]. destruct (customResolver e); [|by injection Es as <-]. by eapply resolve_all_rejects; [|exact Es].
Qed.

(** ** The writes of a plan *)

(** A resolver that answers with a document of the identifier it is asked about. *)
Definition resolver_ok (e : defaultEngine) : Prop := conflictPolicy e = Custom -> forall resolve c d, customResolver e = Some resolve -> resolve c = Ok (Some d) -> DocumentID d = ConflictDocID c.

(** Each write has a document, with the identifier of the write. *)
Definition writes_ok (ops : list Op) (writes : gmap nat Doc) : Prop :=
  Forall (UniqueRegistry.staged writes) (indexed ops) /\ forall i id pt r d, ops !! i = Some (WriteOp id pt r) -> writes !! i = Some d -> DocumentID d = id.

Lemma detect_from ops base target writes guarded c : c ∈ detectConflicts ns w ops base target writes guarded -> ops !! cIndex c = Some (cOp c).
Proof.
  unfold detectConflicts. intros ([i op] & Hin & E)%list_elem_of_omap. apply elem_of_indexed in Hin. unfold detect_op in E. case_bool_decide; [done|].
  destruct op as [x pt r|x| | | |]; try done; [destruct (contentHashEqual _ _); [done|]|]; destruct (doc_at ns w base x), (doc_at ns w target x); try done; try (destruct (contentHashEqual _ _); [done|]); by injection E as <-.
Qed.


Lemma writes_ok_insert ops writes i id pt r d : writes_ok ops writes -> ops !! i = Some (WriteOp id pt r) -> DocumentID d = id -> writes_ok ops (<[i := d]> writes).
Proof.
  intros [Hs Hi] Ho Hd. split.
  - eapply Forall_impl; [exact Hs|]. intros [j op]. unfold UniqueRegistry.staged. cbn [fst snd]. destruct op; [|done..]. intros Hj. apply lookup_insert_is_Some'. by right.
  - intros j id' pt' r' d' Hj. destruct (decide (j = i)) as [->|Hne]; [rewrite lookup_insert_eq|rewrite lookup_insert_ne by done; by apply (Hi j id' pt' r')]. rewrite Ho in Hj. injection Hj as -> _ _. by intros [= <-].
Qed.

Lemma resolve_all_ok resolve sch report cs ops writes writes' : (forall c d, resolve c = Ok (Some d) -> DocumentID d = ConflictDocID c) ->
  (forall c id pt r, c ∈ cs -> cOp c = WriteOp id pt r -> ops !! cIndex c = Some (WriteOp id pt r)) ->
  resolve_all resolve sch report cs writes = Ok (inl writes') -> writes_ok ops writes -> writes_ok ops writes'.
Proof.
  intros Hr. revert writes. induction cs as [|c cs IH]; intros writes Hc; cbn [resolve_all]; [by intros [= <-]|]. destruct (cOp c) as [id pt r| | | | |] eqn:Eo; [|done..]. destruct (resolve _) as [[d|]| |] eqn:Er; [|done..]. destruct (Validate d sch); [done|]. intros E Hw.
  eapply IH; [|exact E|]; [intros c' id' pt' r' Hin; by apply Hc; right|]. eapply writes_ok_insert; [done|apply (Hc c id pt r); [by left|done]|]. by apply Hr in Er.
Qed.

End plans.

(** ** With an adapter in order *)

Section ordered.
Context {W P S M V : Type} `{AdapterLaws W} `{AttachmentPool.AttachmentSetStore P} `{SchemaEngine S M} `{!Constraints S V}.
Context (order : JsonPath.range_order) (ns : bytes) (w : W) (Hw : in_order w).

Definition ops_wf (ops : list Op) : Prop := forall op id, op ∈ ops -> OpDocID op = Some id -> uuid_wf id.

Lemma doc_at_docs h m id : docs w h = Some m -> uuid_wf id -> doc_at ns w h id = m !! id.
Proof. intros Hd Hid. unfold doc_at. by rewrite (get_law w ns id h m). Qed.

Lemma docs_ids h m : docs w h = Some m -> forall id d, m !! id = Some d -> DocumentID d = id.
Proof. intros Hd id d E. by destruct (docs_law w h m id d Hw Hd E). Qed.

Lemma touched_wf ops op id : ops_wf ops -> op ∈ ops -> touched op = Some id -> uuid_wf id.
Proof. intros Ho Hin Ht. apply (Ho op id Hin). by destruct op. Qed.

Lemma elem_indexed_op ops (iop : nat * Op) : iop ∈ indexed ops -> iop.2 ∈ ops.
Proof. destruct iop as [i op]. intros E%elem_of_indexed. by eapply list_elem_of_lookup_2. Qed.

(** Documents of the baseline that are asked for have their identifiers. *)
Lemma phase_planned ops sch baseline mb frame m : docs w baseline = Some mb -> ops_wf ops -> runSchemaPhase order ns w ops sch baseline = Ok frame -> violations frame = [] ->
  (forall id d, m !! id = Some d -> DocumentID d = id) -> (forall op id, op ∈ ops -> touched op = Some id -> m !! id = mb !! id) ->
  writes_ok ops (writesByOpIndex frame) /\ exec_ops order ops m = Ok (landed ops (writesByOpIndex frame) m).
Proof.
  intros Hb Ho Ef Hv Hmid Hm.
  assert (Hroll : forall iop id, iop ∈ indexed ops -> touched iop.2 = Some id -> m !! id = rolling_doc ns w baseline (mkOutcome sch [] ∅ ∅) id).
  { intros iop id Hin Ht. apply elem_indexed_op in Hin. unfold rolling_doc. cbn [txPending]. rewrite lookup_empty. rewrite (doc_at_docs baseline mb) by (done || by eapply touched_wf). by apply (Hm iop.2). }
  destruct (phase_runs order ns w baseline (indexed ops) (mkOutcome sch [] ∅ ∅) frame m (NoDup_indexed ops) Ef Hv) as (_ & I2 & I3 & I4); [exact Hmid|exact Hroll|].
  split; [|by rewrite indexed_ops in I4]. split; [done|]. intros i id pt r d Hi%elem_of_indexed. by eapply I3.
Qed.

Lemma planned_writes e d registry tx sch anchor base baseline target mb p : planned order ns w e d registry tx sch anchor base baseline target p ->
  docs w baseline = Some mb -> ops_wf (tx_Operations tx) -> resolver_ok e -> writes_ok (tx_Operations tx) (p_writes p).
Proof.
  intros [_ _ _ _ (frame & Ef & Hv & _ & Hs) _ _] Hb Ho Hr. destruct (phase_planned _ _ _ _ frame mb Hb Ho Ef Hv (docs_ids baseline mb Hb) ltac:(done)) as [Hok _]. unfold settled in Hs. destruct (conflictPolicy e) eqn:Epol; [by rewrite Hs|by rewrite Hs|destruct Hs as [_ Hs]; by rewrite Hs|].
  destruct Hs as (acs & Hacs & [[_ Hs]|(resolve & report & Er & Es)]); [by rewrite Hs|]. eapply resolve_all_ok; [intros c dd; by apply Hr| |exact Es|done].
  intros c id pt r [Hin|Hin]%elem_of_app Hc; [rewrite <- Hc; by eapply detect_from|]. rewrite Forall_forall in Hacs. specialize (Hacs c Hin). unfold not_write in Hacs. by rewrite Hc in Hacs.
Qed.

(** Two documents of one identifier with one content hash. *)
Definition content_collision (mb mt : gmap UUID Doc) : Prop := exists id a b, mb !! id = Some a /\ mt !! id = Some b /\ a <> b /\ MemStore.ContentHashOf a = MemStore.ContentHashOf b.

Definition unchanged (e : defaultEngine) (tx : Transaction) (mb mt : gmap UUID Doc) (iop : nat * Op) : Prop :=
  match touched iop.2 with Some id => Z.of_nat iop.1 ∉ guards e tx -> mb !! id = mt !! id | None => True end.
#[local] Instance unchanged_dec e tx mb mt iop : Decision (unchanged e tx mb mt iop).
Proof. unfold unchanged. destruct (touched iop.2); apply _. Defined.

(** Under the strict policy the target has the documents of the base, where the transaction
    changes them without a precondition. *)
Lemma strict_same e d registry tx sch anchor base baseline target mb mt p : planned order ns w e d registry tx sch anchor base baseline target p ->
  docs w base = Some mb -> docs w target = Some mt -> ops_wf (tx_Operations tx) -> conflictPolicy e = Strict ->
  (forall i op id, tx_Operations tx !! i = Some op -> touched op = Some id -> Z.of_nat i ∉ guards e tx -> mb !! id = mt !! id) \/ content_collision mb mt.
Proof.
  intros [_ _ _ _ (frame & Ef & Hv & _ & Hs) _ _] Hb Ht Ho Hp. unfold settled in Hs. rewrite Hp in Hs. destruct Hs as [Hc _].
  destruct (decide (Forall (unchanged e tx mb mt) (indexed (tx_Operations tx)))) as [HF|HF].
  - left. intros i op id Hi Hop Hg. rewrite Forall_forall in HF. specialize (HF (i, op) (proj2 (elem_of_indexed _ _ _) Hi)). unfold unchanged in HF. cbn [fst snd] in HF. rewrite Hop in HF. auto.
  - right. apply not_Forall_Exists in HF; [|apply _]. apply Exists_exists in HF as ([i op] & Hin & HF). change (~ unchanged e tx mb mt (i, op)) in HF. unfold unchanged in HF. cbn [fst snd] in HF. apply elem_of_indexed in Hin. destruct (touched op) as [id|] eqn:Eo; [|by destruct (HF I)].
    assert (Hg : Z.of_nat i ∉ guards e tx) by (intros Hg; apply HF; intros K; by destruct K). assert (Hne : mb !! id <> mt !! id) by (intros K; by apply HF).
    assert (Hid : uuid_wf id) by (eapply touched_wf; [done|by eapply list_elem_of_lookup_2|done]). pose proof (detectConflicts_none ns w _ _ _ _ _ Hc i op id Hin Hg Eo) as Eh. rewrite (doc_at_docs base mb), (doc_at_docs target mt) in Eh by done.
    destruct (mb !! id) as [a|] eqn:Ea, (mt !! id) as [b|] eqn:Eb; try done. exists id, a, b. split_and!; [done|done|congruence|exact (Some_inj _ _ Eh)].
Qed.

End ordered.

End TxSerial.
