(* ===== verification/TxEngine.v ===== *)
(** Committing a transaction: [transaction/prepare.go] and [transaction/default_engine.go] over
    the commit graph, its attachment tables, a storage adapter and the registry of unique keys;
    and the fold of a commit's operations over a tree, [embed/tree_rebuild.go].

    The documents are staged and committed to a tree, a commit with the operations as they were
    stored is appended to the graph, and the registry takes the values that were claimed. *)

From S2P Require Import Prelude Primitives Strings Schema Document Sha256 Commit CommitDirect CommitCorrect Dag DagOps DagAncestry DagInvariant DagHistory DagReachable Json JsonPath DocumentMerge DocumentJson TrieHash Trie DocumentTree TreeMap AttachmentSet AttachmentPool AttachmentTable DagAttachments MemStore UniqueRegistry StorageAdapter TxPlan.
Import Primitives Document Commit CommitDirect Dag DagOps DagInvariant DagHistory UniqueRegistry StorageAdapter TxPlan.

Module TxEngine.

Section engine.
Context {W P S M V : Type} `{Adapter W} `{AttachmentPool.AttachmentSetStore P} `{SchemaEngine S M} `{!Constraints S V}.
Context (order : JsonPath.range_order).

(** Everything a transaction reads or changes. *)
Record state := mkState { graph : InMemoryCommitDag; cache : DagAttachments.attachmentCache P; store : W; registry : option UniqueKeyRegistry }.

Definition with_graph (d : InMemoryCommitDag) (s : state) : state := mkState d (cache s) (store s) (registry s).
Definition with_cache (k : DagAttachments.attachmentCache P) (s : state) : state := mkState (graph s) k (store s) (registry s).
Definition with_store (w : W) (s : state) : state := mkState (graph s) (cache s) w (registry s).

Definition namespace (s : state) : bytes := dagNamespace (graph s).

(** ** The write phase *)

Definition stage_op (ns : bytes) (writes : gmap nat Doc) (iop : nat * Op) (w : W) : go bytes unit * W :=
  match iop.2 with
  | WriteOp _ _ _ => match writes !! iop.1 with Some d => PutDocument ns d w | None => (Ok tt, w) end
  | DeleteOp id => DeleteDocument ns id w
  | _ => (Ok tt, w)
  end.
Fixpoint stage_ops (ns : bytes) (writes : gmap nat Doc) (ops : list (nat * Op)) (w : W) : go bytes unit * W :=
  match ops with
  | [] => (Ok tt, w)
  | iop :: ops => match stage_op ns writes iop w with (Ok _, w) => stage_ops ns writes ops w | r => r end
  end.

(** A write is recorded as the document that was stored for it. *)
Definition as_stored (writes : gmap nat Doc) (iop : nat * Op) : Op :=
  match iop.2, writes !! iop.1 with WriteOp id _ _, Some d => WriteOp id (JSON d) false | op, _ => op end.
Definition operationsAsStored (ops : list Op) (writes : gmap nat Doc) : list Op := map (as_stored writes) (indexed ops).

(** [AppendCommitWith]: the checks of the parent and the head come before the attachment table is
    computed, and the rest after. *)
Definition append (p : payload) (anchor : Hash) (detached prov : bool) (now : Timestamp) (s : state) : tres Commit * state :=
  match (_ ← requireAll [anchor] (graph s); check_head mainBranch (if detached then None else Some anchor) (graph s)) with
  | Err e => (Err (DagFault e), s)
  | Panic => (Panic, s)
  | Ok _ =>
    match DagAttachments.attachmentRootLocked None (graph s) (txOps p) [anchor] (cache s) with
    | (Err e, k) => (Err (TableFault e), with_cache k s)
    | (Panic, k) => (Panic, with_cache k s)
    | (Ok root, k) =>
      let p := mkPayload (txID p) (txTimestamp p) (txAuthor p) (txOps p) (treeHash p) (schemaHash p) (message p) root in
      match AppendCommitWith p anchor detached prov now (graph s) with
      | (Ok c, d) => (Ok c, with_graph d (with_cache k s))
      | (Err e, d) => (Err (DagFault e), with_graph d (with_cache k s))
      | (Panic, d) => (Panic, with_graph d (with_cache k s))
      end
    end
  end.

Definition is_head_conflict (e : tx_error) : bool := match e with DagFault (HeadConflict _ _ _) => true | _ => false end.
Definition discard (s : state) : state := with_store (DiscardPending (namespace s) (store s)) s.

Definition Apply (p : PreparedCommit (S := S)) (msg : bytes) (prov : bool) (now : Timestamp) (s : state) : tres TransactionResult * state :=
  if finished p then (Err (AlreadyFinished (tx_ID (p_tx p))), s)
  else
    let tx := p_tx p in
    match stage_ops (namespace s) (p_writes p) (indexed (tx_Operations tx)) (store s) with
    | (Err cause, w) => (Ok (ResultAborted cause), discard (with_store w s))
    | (Panic, w) => (Panic, with_store w s)
    | (Ok _, w) =>
      let s := with_store w s in
      let ops := operationsAsStored (tx_Operations tx) (p_writes p) in
      match GetCommitOrThrow (anchorCommit p) (graph s) with
      | Err e => (Err (NavFault e), s)
      | Panic => (Panic, s)
      | Ok anchor =>
        match CommitTree (namespace s) (DocumentTreeHash anchor) (store s) with
        | (Err cause, w) => (Err (StoreFault cause), with_store w s)
        | (Panic, w) => (Panic, with_store w s)
        | (Ok newTree, w) =>
          let s := with_store w s in
          let schema := if IsNone (p_schema p) then None else Some (SchemaHashOf (p_schema p)) in
          match append (mkPayload (tx_ID tx) (tx_Timestamp tx) (tx_AuthorNodeID tx) ops (DocumentTree.TreeHash newTree) schema msg None) (anchorCommit p) (negb (extendingTip p)) prov now s with
          | (Err e, s) => (Err e, if is_head_conflict e then discard s else s)
          | (Panic, s) => (Panic, s)
          | (Ok c, s) =>
            let r := if plan_empty (uniques p) then registry s else UniqueRegistry.Apply (retract (uniques p)) (claim (uniques p)) <$> registry s in
            (Ok (ResultSuccess c (DocumentTreeHash c)), mkState (graph s) (cache s) (store s) r)
          end
        end
      end
    end.

(** ** Commit, replay, prepare and validate *)

Definition finalizeTransaction (e : defaultEngine) (tx : Transaction) (sch : S) (anchor base baseline target : Hash) (msg : bytes) (now : Timestamp) (s : state) : tres TransactionResult * state :=
  match plan order (namespace s) (store s) e (graph s) (registry s) tx sch anchor base baseline target (cache s) with
  | (Err e, k) => (Err e, with_cache k s)
  | (Panic, k) => (Panic, with_cache k s)
  | (Ok (inr r), k) => (Ok r, with_cache k s)
  | (Ok (inl p), k) => Apply p msg false now (with_cache k s)
  end.

Definition findExistingCommit (tx : Transaction) (d : InMemoryCommitDag) (parents : list Hash) : option Commit :=
  match GetCommitByTransactionID (tx_ID tx) d with
  | Some c => if bool_decide (ParentHashes c = parents) then Some c else None
  | None => None
  end.

Definition lift_nav {A} (r : nres A) : tres A := match r with Ok x => Ok x | Err e => Err (NavFault e) | Panic => Panic end.
Definition lift_dag {A} (r : go dag_error A) : tres A := match r with Ok x => Ok x | Err e => Err (DagFault e) | Panic => Panic end.

(** The head or the commit that was named, an earlier commit of the transaction on it, and the
    trees of the base and of the target. *)
Definition commit_target (tx : Transaction) (targetHead : option Hash) (d : InMemoryCommitDag) : tres (Hash * (Commit + Hash * Hash)) :=
  h ← lift_dag (Head d);
  let anchor := default h targetHead in
  if negb (has d (BaseVersion tx)) then Err (BaseNotFound (tx_ID tx) (BaseVersion tx))
  else match findExistingCommit tx d [anchor] with
       | Some c => Ok (anchor, inl c)
       | None =>
         base ← lift_nav (GetCommitOrThrow (BaseVersion tx) d);
         target ← lift_nav (GetCommitOrThrow anchor d);
         Ok (anchor, inr (DocumentTreeHash base, DocumentTreeHash target))
       end.

Definition Commit_ (e : defaultEngine) (tx : Transaction) (sch : S) (targetHead : option Hash) (msg : bytes) (now : Timestamp) (s : state) : tres TransactionResult * state :=
  match commit_target tx targetHead (graph s) with
  | Err e => (Err e, s)
  | Panic => (Panic, s)
  | Ok (_, inl c) => (Ok (ResultSuccess c (DocumentTreeHash c)), s)
  | Ok (anchor, inr (base, target)) => finalizeTransaction e tx sch anchor base base target msg now s
  end.

Definition Replay (e : defaultEngine) (tx : Transaction) (sch : S) (replayTarget : Hash) (msg : bytes) (now : Timestamp) (s : state) : tres TransactionResult * state :=
  if negb (has (graph s) replayTarget) then (Err (VersionMissing replayTarget), s)
  else match findExistingCommit tx (graph s) [replayTarget] with
       | Some c => (Ok (ResultSuccess c (DocumentTreeHash c)), s)
       | None =>
         match GetCommitOrThrow replayTarget (graph s) with
         | Err e => (Err (NavFault e), s)
         | Panic => (Panic, s)
         | Ok c => let tree := DocumentTreeHash c in finalizeTransaction e tx sch replayTarget tree tree tree msg now s
         end
       end.

Definition PrepareCommit (e : defaultEngine) (tx : Transaction) (sch : S) (s : state) : tres (PreparedCommit (S := S) + TransactionResult) * state :=
  match (h ← lift_dag (Head (graph s));
         if negb (has (graph s) (BaseVersion tx)) then Err (BaseNotFound (tx_ID tx) (BaseVersion tx))
         else base ← lift_nav (GetCommitOrThrow (BaseVersion tx) (graph s)); target ← lift_nav (GetCommitOrThrow h (graph s)); Ok (h, DocumentTreeHash base, DocumentTreeHash target)) with
  | Err e => (Err e, s)
  | Panic => (Panic, s)
  | Ok (h, base, target) =>
    let '(r, k) := plan order (namespace s) (store s) e (graph s) (registry s) tx sch h base base target (cache s) in (r, with_cache k s)
  end.

Definition Discard (p : PreparedCommit (S := S)) : PreparedCommit (S := S) :=
  mkPrepared (p_tx p) (anchorCommit p) (extendingTip p) (p_writes p) (p_schema p) (uniques p) true.

Definition ValidateTx (tx : Transaction) (sch : S) (s : state) : tres (list OperationViolation) :=
  if negb (has (graph s) (BaseVersion tx)) then Err (BaseNotFound (tx_ID tx) (BaseVersion tx))
  else base ← lift_nav (GetCommitOrThrow (BaseVersion tx) (graph s));
       out ← runSchemaPhase order (namespace s) (store s) (tx_Operations tx) sch (DocumentTreeHash base);
       Ok (violations out).

End engine.

(** ** The tree that a commit's operations make: [applyCommitToTree] *)

Definition fold_op (st : gmap UUID Doc * gset UUID) (op : Op) : gmap UUID Doc * gset UUID :=
  match op with
  | WriteOp id patch _ =>
    let d := match DocumentJson.FromJSONWithID id patch with Ok d => d | _ => mkDoc id patch end in
    (<[id := d]> st.1, st.2 ∖ {[id]})
  | DeleteOp id => (delete id st.1, {[id]} ∪ st.2)
  | _ => st
  end.

(** [dorder] and [porder] are the orders in which the two maps are ranged over. *)
Definition applyCommitToTree (dorder : gset UUID -> list UUID) (porder : gmap UUID Doc -> list (UUID * Doc)) (tree : DocumentTree.DocumentTree) (ops : list Op) : DocumentTree.DocumentTree :=
  let '(ps, ds) := foldl fold_op (∅, ∅) ops in
  foldl (fun t '(_, d) => DocumentTree.With t (DocumentID d) (MemStore.ContentHashOf d)) (foldl DocumentTree.Without tree (dorder ds)) (porder ps).

End TxEngine.

(** * What the engine lets through

    What the transaction engine lets through, each on a small adapter: a guarded patch that
    reverts another client's change, a precondition that holds because the read failed, and the
    writes that a failed commit leaves for the next one. *)

Import TxEngine.

Module TxFindings.

#[local] Opaque Sha256.Sum256 MemStore.ContentHashOf.

(** Reads are scripted, writes are kept, and no tree can be made. *)
Record script := mkScript { reads : Hash -> UUID -> go bytes (option Doc); kept : MemStore.nsPending }.
#[local] Instance scripted : Adapter script := {
  GetDocument w _ id h := reads w h id;
  PutDocument _ d w := (Ok tt, mkScript (reads w) (put_doc d (kept w)));
  DeleteDocument _ id w := (Ok tt, mkScript (reads w) (delete_doc id (kept w)));
  DiscardPending _ w := mkScript (reads w) no_writes;
  CommitTree _ _ w := (Err (str "disk full"), w);
  ReadBlob _ _ := Ok None;
  HasAttachmentBlob _ := None;
  HasBlob _ := None;
}.
#[local] Existing Instance AttachmentPool.map_store.
#[local] Instance no_schema : SchemaEngine unit unit := {
  IsNone _ := true;
  SchemaHashOf _ := ZeroHash;
  Validate _ _ := None;
  DecodeMigration _ := Err (str "no migrations");
  ApplyMigration s _ := Ok s;
}.
#[local] Instance no_constraints : Constraints unit bytes := {
  HasUniqueConstraints _ := false;
  UniqueTuples _ := [];
  FieldValue _ _ := Ok None;
  ArrayOf _ := None;
  canonicalTuple _ := Ok [];
}.

Definition doc_id : UUID := mkUUID 0 7.
Definition old_tree : Hash := mkHash (str "old").
Definition new_tree : Hash := mkHash (str "new").
(** [{"a":x,"b":y}] *)
Definition ab (x y : bytes) : bytes := str "{" ++ [x22] ++ str "a" ++ [x22] ++ str ":" ++ x ++ str "," ++ [x22] ++ str "b" ++ [x22] ++ str ":" ++ y ++ str "}".
Definition b_is (y : bytes) : bytes := str "{" ++ [x22] ++ str "b" ++ [x22] ++ str ":" ++ y ++ str "}".

(** Since the base, another client has set [a] to 2. *)
Definition two_trees : script :=
  mkScript (fun h id => Ok (if bool_decide (h = old_tree) then Some (mkDoc doc_id (ab (str "1") (str "1"))) else Some (mkDoc doc_id (ab (str "2") (str "1"))))) no_writes.
Definition guarded_tx : Transaction := mkTx (mkUUID 3 3) (mkHash (str "base")) [WriteOp doc_id (b_is (str "2")) false] (mkTs 5 0) (mkUUID 2 2) [mkPre 0 ExpectPresent ZeroHash].
Definition empty_dag : InMemoryCommitDag := mkDag [] None ∅ ∅ ∅ ∅ ∅ ∅ ∅ 0 0 false false ∅ ∅.
Definition no_tables : DagAttachments.attachmentCache (gmap Hash bytes) := DagAttachments.mkCache None ∅ [] ∅ false.

Lemma guarded_precondition : evaluatePreconditions [] two_trees guarded_tx new_tree = ([], []).
Proof.
  unfold evaluatePreconditions. change (PreconditionsByOpIndex _ _) with (Ok (E := precondition_error) (<[0 := mkPre 0 ExpectPresent ZeroHash]> (∅ : gmap Z Precondition))).
  cbn [indexed guarded_tx tx_Operations length seq zip zip_with eval_preconditions]. change (Z.of_nat 0) with 0. rewrite lookup_insert_eq. cbn [Kind OpDocID preconditionHolds].
  unfold preconditionHolds. cbn [Kind]. change (doc_at [] two_trees new_tree doc_id) with (Some (mkDoc doc_id (ab (str "2") (str "1")))). cbn iota. by rewrite MemStore.ContentHash_total.
Qed.

(** Under the strict policy, a patch of [b] whose operation has a precondition is merged over the
    document as it was at the base, and what is written sets [a] back to 1. *)
Theorem guarded_patch_reverts :
  match (plan (fun l => l) [] two_trees (mkEngine Strict None true) empty_dag None guarded_tx tt (mkHash (str "head")) old_tree old_tree new_tree no_tables).1 with
  | Ok (inl p) => p_writes p !! 0%nat = Some (mkDoc doc_id (ab (str "1") (str "2")))
  | _ => False
  end.
Proof.
  unfold plan. rewrite guarded_precondition. vm_compute. reflexivity.
Qed.

(** A document that cannot be read counts as absent. *)
Theorem unreadable_is_absent : let w := mkScript (fun _ _ => Err (str "i/o error")) no_writes in
  evaluatePreconditions [] w (mkTx (mkUUID 3 3) (mkHash (str "base")) [WriteOp doc_id (b_is (str "2")) true] (mkTs 5 0) (mkUUID 2 2) [mkPre 0 ExpectAbsent ZeroHash]) new_tree = ([], []).
Proof. reflexivity. Qed.

(** When the tree cannot be made, the writes of the transaction stay on the adapter. *)
Definition failing_state : state (W := script) (P := gmap Hash bytes) :=
  mkState (dag_of [] (mkCommit (mkHash (str "base")) [] [] (mkUUID 1 1) (mkTs 0 0) (mkUUID 2 2) [] old_tree None [] None) (mkTs 0 0)) no_tables (mkScript (fun _ _ => Ok None) no_writes) None.
Theorem failed_commit_leaves_writes :
  let tx := mkTx (mkUUID 3 3) (mkHash (str "base")) [WriteOp doc_id (b_is (str "2")) true] (mkTs 5 0) (mkUUID 2 2) [] in
  let '(r, s') := Commit_ (fun l => l) (mkEngine Strict None true) tx tt None [] (mkTs 6 0) failing_state in
  r = Err (StoreFault (str "disk full")) /\ MemStore.puts (kept (store s')) !! doc_id = Some (mkDoc doc_id (b_is (str "2"))).
Proof. vm_compute. split; reflexivity. Qed.

End TxFindings.
