(* ===== verification/TxCorrect.v ===== *)
(** Transactions are correct: what a commit leaves in the graph, the store and the registry.

    The state is in order when the graph is well formed, every commit's tree is stored and no
    write is left over.  A transaction that lands makes a child of the commit it lands on whose
    tree has the documents the plan made; one that does not land leaves the documents and the
    history as they were. *)

From S2P Require Import Prelude Primitives Strings Schema Document Sha256 Commit CommitDirect CommitCorrect Dag DagOps DagAncestry DagInvariant DagHistory DagReachable Json JsonPath DocumentMerge DocumentJson TrieHash Trie DocumentTree TreeMap AttachmentSet AttachmentPool AttachmentTable DagAttachments MemStore UniqueRegistry StorageAdapter TxPlan TxSerial TxEngine.
Import Primitives Document Commit CommitDirect Dag DagOps DagInvariant DagHistory DagReachable UniqueRegistry StorageAdapter TxPlan TxSerial TxEngine.

Module TxCorrect.

#[local] Opaque Sha256.Sum256 MemStore.ContentHashOf.

Abbreviation overlay := MemStore.overlay.
Abbreviation docs_root := MemStore.docs_root.

(** ** Staging writes *)

Definition stage (writes : gmap nat Doc) (n : MemStore.nsPending) (iop : nat * Op) : MemStore.nsPending :=
  match iop.2 with
  | WriteOp _ _ _ => match writes !! iop.1 with Some d => put_doc d n | None => n end
  | DeleteOp id => delete_doc id n
  | _ => n
  end.

(** Staging the writes of a transaction and laying them over documents lands them. *)
Lemma overlay_lands ops writes m : writes_ok ops writes -> overlay (foldl (stage writes) no_writes (indexed ops)) m = landed ops writes m.
Proof.
  intros [_ Hi]. unfold landed. fold (indexed ops). assert (Hl : forall i id pt r d, (i, WriteOp id pt r) ∈ indexed ops -> writes !! i = Some d -> DocumentID d = id) by (intros i id pt r d Hin%elem_of_indexed; by apply (Hi i id pt r)). clear Hi.
  rewrite <- (MemStore.overlay_none m) at 2. change (MemStore.mkPending ∅ ∅) with no_writes. generalize no_writes. induction (indexed ops) as [|[i op] l IH]; intros n; cbn [foldl]; [done|]. rewrite IH by (intros j id pt r d Hin; apply (Hl j id pt r); by right). f_equal. unfold stage, land. cbn [fst snd].
  destruct op as [id pt r|id| | | |]; try done; [|apply MemStore.overlay_delete]. destruct (writes !! i) as [d|] eqn:E; [|done]. unfold put_doc. rewrite MemStore.overlay_put. by rewrite (Hl i id pt r d) by (done || by left).
Qed.

Section staging.
Context {W : Type} `{AdapterLaws W} (ns : bytes).

Lemma stage_ops_spec writes l w : in_order w -> (forall i op id, (i, op) ∈ l -> touched op = Some id -> uuid_wf id) -> (forall i id pt r d, (i, WriteOp id pt r) ∈ l -> writes !! i = Some d -> DocumentID d = id) ->
  let '(r, w') := stage_ops ns writes l w in
  in_order w' /\ (forall h, docs w' h = docs w h) /\ (forall ns', ns' <> ns -> StorageAdapter.staged w' ns' = StorageAdapter.staged w ns') /\ r <> Panic /\
  (r = Ok tt -> StorageAdapter.staged w' ns = foldl (stage writes) (StorageAdapter.staged w ns) l).
Proof.
  revert w. induction l as [|[i op] l IH]; intros w Hw Hid Hd; cbn [stage_ops foldl]; [done|].
  assert (Hop : let '(r, w') := stage_op ns writes (i, op) w in in_order w' /\ (forall h, docs w' h = docs w h) /\ (forall ns', ns' <> ns -> StorageAdapter.staged w' ns' = StorageAdapter.staged w ns') /\ r <> Panic /\
    (r = Ok tt -> StorageAdapter.staged w' ns = stage writes (StorageAdapter.staged w ns) (i, op))).
  { unfold stage_op, stage. cbn [fst snd]. destruct op as [id pt r|id| | | |]; try done.
    - destruct (writes !! i) as [d|] eqn:E; [|done]. apply put_law; [done|]. rewrite (Hd i id pt r d) by (done || by left). apply (Hid i (WriteOp id pt r)); [by left|done].
    - apply delete_law; [done|]. apply (Hid i (DeleteOp id)); [by left|done]. }
  destruct (stage_op ns writes (i, op) w) as [r w1]. destruct Hop as (O1 & O2 & O3 & O4 & O5). destruct r as [[]|e|]; [|done|done]. specialize (O5 eq_refl).
  specialize (IH w1 O1 ltac:(intros j op' id' Hin; apply (Hid j); by right) ltac:(intros j id' pt r d Hin; apply (Hd j id' pt r); by right)).
  destruct (stage_ops ns writes l w1) as [r w2]. destruct IH as (I1 & I2 & I3 & I4 & I5). split_and!; [done|intros h; by rewrite I2|intros ns' Hn; by rewrite I3, O3|done|]. intros Er. by rewrite (I5 Er), O5.
Qed.
End staging.

(** ** Appending *)

(** The commits of the graph after an append. *)
Lemma append_nodes p parents branch expected now d c d' : appendCommitLocked p parents branch expected now d = (Ok c, d') ->
  dagNamespace d' = dagNamespace d /\ forall h c', commitLocked d' h = Some c' -> commitLocked d h = Some c' \/ h = CommitHash c /\ c' = c.
Proof.
  unfold appendCommitLocked. destruct (_ ← requireAll parents d; _) as [[]|e|]; [|done..]. destruct (build p parents d) as [b|e|] eqn:Eb; [|done..]. intros E.
  assert (Hput : let '(r, d1) := putCommitLocked b true false d in dagNamespace d1 = dagNamespace d /\ forall h c', commitLocked d1 h = Some c' -> commitLocked d h = Some c' \/ h = CommitHash b /\ c' = b).
  { unfold putCommitLocked. destruct (has d (CommitHash b)); [split; [done|by left]|]. destruct (missing_parent b d); [split; [done|by left]|].
    set (d1 := bump _ (storeCommitLocked b d)). assert (Hd1 : dagNamespace d1 = dagNamespace d /\ forall h c', commitLocked d1 h = Some c' -> commitLocked d h = Some c' \/ h = CommitHash b /\ c' = b).
    { split; [unfold d1, storeCommitLocked; cbn; by destruct (AncestryPruning d && _)|]. intros h c'. unfold commitLocked, d1. cbn [bump nodes]. rewrite store_lookup. case_bool_decide as Eh; [intros [= <-]; by right|by left]. }
    destruct (txIndex d1 !! TransactionID b); [|change (set_txIndex _ d1) with (set_txIndex (<[TransactionID b := CommitHash b]> (txIndex d1)) d1)]; destruct (head _) as [s|]; try destruct (bool_decide _); exact Hd1. }
  destruct (putCommitLocked b true false d) as [[[]|e|] d1]; [|done..]. destruct (branches d1 !! branch); [|done]. injection E as <- <-. destruct Hput as [H1 H2]. split; [exact H1|exact H2].
Qed.

Section correct.
Context {W P S M V : Type} `{AdapterLaws W} `{AttachmentPool.AttachmentSetStore P} `{SchemaEngine S M} `{!Constraints S V}.
Context (order : JsonPath.range_order).

Abbreviation state := (TxEngine.state (W := W) (P := P)).
Abbreviation prepared := (PreparedCommit (S := S)).

Record engine_wf (s : state) : Prop := {
  ew_graph : wfb false (graph s);
  ew_store : in_order (store s);
  ew_empty : StorageAdapter.staged (store s) (namespace s) = no_writes;
  ew_trees : forall h c, commitLocked (graph s) h = Some c -> is_Some (docs (store s) (DocumentTreeHash c));
}.

(** What was committed is still there. *)
Record keeps (s s' : state) : Prop := {
  kp_docs : forall h m, docs (store s) h = Some m -> docs (store s') h = Some m;
  kp_commits : forall h c, commitLocked (graph s) h = Some c -> commitLocked (graph s') h = Some c;
}.

Definition payload_of (p : prepared) (msg : bytes) (tree : Hash) (root : option Hash) : payload :=
  let tx := p_tx p in
  mkPayload (tx_ID tx) (tx_Timestamp tx) (tx_AuthorNodeID tx) (operationsAsStored (tx_Operations tx) (p_writes p)) tree (if IsNone (p_schema p) then None else Some (SchemaHashOf (p_schema p))) msg root.

(** The commit and its tree meet no other ones with their hashes. *)
Record safe_apply (p : prepared) (msg : bytes) (s : state) : Prop := {
  sa_tree : forall w a, stage_ops (namespace s) (p_writes p) (indexed (tx_Operations (p_tx p))) (store s) = (Ok tt, w) -> commitLocked (graph s) (anchorCommit p) = Some a -> clear (namespace s) (DocumentTreeHash a) w;
  sa_commit : forall a m root c, commitLocked (graph s) (anchorCommit p) = Some a -> docs (store s) (DocumentTreeHash a) = Some m ->
    (DagAttachments.attachmentRootLocked None (graph s) (operationsAsStored (tx_Operations (p_tx p)) (p_writes p)) [anchorCommit p] (cache s)).1 = Ok root ->
    build (payload_of p msg (docs_root (landed (tx_Operations (p_tx p)) (p_writes p) m)) root) [anchorCommit p] (graph s) = Ok c -> forall c', commitLocked (graph s) (CommitHash c) = Some c' -> c' = c;
}.

(** The append of a transaction. *)
Lemma append_outcome p anchor detached prov now (s : state) : wfb false (graph s) ->
  (forall root c, (DagAttachments.attachmentRootLocked None (graph s) (txOps p) [anchor] (cache s)).1 = Ok root ->
    build (mkPayload (txID p) (txTimestamp p) (txAuthor p) (txOps p) (treeHash p) (schemaHash p) (message p) root) [anchor] (graph s) = Ok c -> forall c', commitLocked (graph s) (CommitHash c) = Some c' -> c' = c) ->
  let '(r, s') := append p anchor detached prov now s in
  store s' = store s /\ registry s' = registry s /\
  match r with
  | Ok c => wfb false (graph s') /\ namespace s' = namespace s /\ Head (graph s') = Ok (CommitHash c) /\ commitLocked (graph s') (CommitHash c) = Some c /\
      (exists root, build (mkPayload (txID p) (txTimestamp p) (txAuthor p) (txOps p) (treeHash p) (schemaHash p) (message p) root) [anchor] (graph s) = Ok c) /\
      (forall h c', commitLocked (graph s) h = Some c' -> commitLocked (graph s') h = Some c') /\ (forall h c', commitLocked (graph s') h = Some c' -> commitLocked (graph s) h = Some c' \/ h = CommitHash c /\ c' = c) /\
      (detached = false -> exists b, branches (graph s) !! mainBranch = Some b /\ HeadHash b = anchor)
  | _ => graph s' = graph s
  end.
Proof.
  intros Hd Hf. unfold append. destruct (_ ← requireAll [anchor] (graph s); _) as [[]|e|] eqn:Ech; [|done..].
  destruct (DagAttachments.attachmentRootLocked None (graph s) (txOps p) [anchor] (cache s)) as [[root|e|] k]; [|done..]. set (q := mkPayload _ _ _ _ _ _ _ root). specialize (fun c => Hf root c eq_refl) as Hf'. clear Hf. rename Hf' into Hf. fold q in Hf.
  pose proof (any_append q [anchor] (graph s)) as Hfr. pose proof (AppendCommitWith_wf q anchor detached prov now (graph s) Hd Hfr) as Hw.
  pose proof (append_spec false q [anchor] mainBranch (if detached then None else Some anchor) now (graph s) Hd Hfr (core_main _ (wf_core _ Hd))) as Hs. pose proof (append_nodes q [anchor] mainBranch (if detached then None else Some anchor) now (graph s)) as Hn. unfold AppendCommitWith in *.
  destruct (appendCommitLocked q [anchor] mainBranch _ now (graph s)) as [[c|e|] d1]; cbn [snd] in Hw; [|by cbn; rewrite Hs|by cbn; rewrite Hs]. destruct Hs as (Hp & Hch & Eb & (b & Ebr & Ebr') & Hin & Hnew & Hold). destruct (Hn c d1 eq_refl) as [En Hback]. set (d2 := if prov then _ else d1) in *.
  assert (Hf2 : branches d2 = branches d1 /\ nodes d2 = nodes d1 /\ dagNamespace d2 = dagNamespace d1) by (unfold d2; by destruct prov). destruct Hf2 as (E1 & E2 & E3).
  assert (Ec2 : forall h, commitLocked d2 h = commitLocked d1 h) by (intros h; unfold commitLocked; by rewrite E2). cbn [store registry graph with_graph with_cache namespace].
  assert (Hkeep : forall h c', commitLocked (graph s) h = Some c' -> commitLocked d2 h = Some c'). { intros h c' Hc. rewrite Ec2, Hold; [done|]. unfold commitLocked in Hc. destruct (nodes (graph s) !! h); [by eexists|done]. }
  split_and!; [done|done|done|unfold namespace; cbn; by rewrite E3, En| | |by exists root|done| |].
  - destruct (snapshot_main false d2 Hw) as (b' & Eb' & Eh'). rewrite E1, Ebr', lookup_insert_eq in Eb'. injection Eb' as <-. unfold Head, HeadCommit. by rewrite Eh'.
  - destruct (has (graph s) (CommitHash c)) eqn:Ehas; [|rewrite Ec2; by apply Hnew]. apply DagAncestry.has_lookup in Ehas as [nd End]. assert (Hc : commitLocked (graph s) (CommitHash c) = Some (commit nd)) by (unfold commitLocked; by rewrite End). pose proof (Hf c Eb) as Hu. rewrite <- (Hu _ Hc). rewrite (Hu _ Hc) at 1. by rewrite (Hkeep _ _ Hc).
  - intros h c'. rewrite Ec2. apply Hback.
  - intros ->. exists b. split; [done|]. cbn [check_head] in Hch. rewrite Ebr in Hch. by case_bool_decide.
Qed.

(** ** The write phase *)

(** What a transaction that lands leaves. *)
Record lands (s s' : state) (tx : Transaction) (anchor : Hash) (writes : gmap nat Doc) (c : Commit) : Prop := {
  ld_docs : exists a m, commitLocked (graph s) anchor = Some a /\ docs (store s) (DocumentTreeHash a) = Some m /\
    docs (store s') (DocumentTreeHash c) = Some (landed (tx_Operations tx) writes m) /\ DocumentTreeHash c = docs_root (landed (tx_Operations tx) writes m);
  ld_parent : ParentHashes c = [anchor];
  ld_tx : TransactionID c = tx_ID tx;
  ld_ops : Operations c = operationsAsStored (tx_Operations tx) writes;
  ld_head : Head (graph s') = Ok (CommitHash c);
  ld_stored : commitLocked (graph s') (CommitHash c) = Some c;
  ld_wf : engine_wf s';
  ld_keeps : keeps s s';
  ld_ns : namespace s' = namespace s;
}.

Definition moved_registry (p : prepared) (r : option UniqueKeyRegistry) : option UniqueKeyRegistry := UniqueRegistry.Apply (retract (uniques p)) (claim (uniques p)) <$> r.

(** A transaction that does not land. *)
Record untouched (s s' : state) : Prop := {
  un_graph : graph s' = graph s;
  un_registry : registry s' = registry s;
  un_store : in_order (store s');
  un_docs : forall h m, docs (store s) h = Some m -> docs (store s') h = Some m;
}.

Lemma untouched_wf s s' : engine_wf s -> untouched s s' -> StorageAdapter.staged (store s') (namespace s) = no_writes -> engine_wf s'.
Proof.
  intros [E1 E2 E3 E4] [U1 U2 U3 U4] Hs. constructor; [by rewrite U1|done|unfold namespace; by rewrite U1|]. intros h c. rewrite U1. intros Hc. destruct (E4 h c Hc) as [m Hm]. exists m. by apply U4.
Qed.

Lemma plan_empty_apply u (R : UniqueKeyRegistry) : plan_empty u = true -> UniqueRegistry.Apply (retract u) (claim u) R = R.
Proof.
  unfold plan_empty. intros [E1%bool_decide_eq_true E2%bool_decide_eq_true]%andb_prop. rewrite E1, E2. unfold UniqueRegistry.Apply, retracted. rewrite (left_id_L ∅ (∪)). apply map_filter_id. intros i x _. cbn. by rewrite lookup_empty.
Qed.

Definition applied (p : prepared) (s : state) (r : tres TransactionResult) (s' : state) : Prop :=
  match r with
  | Ok (ResultSuccess c t) => t = DocumentTreeHash c /\ lands s s' (p_tx p) (anchorCommit p) (p_writes p) c /\ registry s' = moved_registry p (registry s) /\
      (extendingTip p = true -> exists b, branches (graph s) !! mainBranch = Some b /\ HeadHash b = anchorCommit p)
  | Ok (ResultAborted _) => untouched s s' /\ engine_wf s'
  | Ok _ => False
  | Err (StoreFault _) | Panic => untouched s s'
  | Err _ => untouched s s' /\ ((exists a, GetCommitOrThrow (anchorCommit p) (graph s) = Ok a) -> engine_wf s')
  end.

Lemma Apply_spec p msg prov now s : engine_wf s -> finished p = false -> ops_wf (tx_Operations (p_tx p)) -> writes_ok (tx_Operations (p_tx p)) (p_writes p) -> safe_apply p msg s ->
  applied p s (Apply p msg prov now s).1 (Apply p msg prov now s).2.
Proof.
  intros Hwf Hopen Hops Hwr [Hst Hsc]. pose proof Hwf as [E1 E2 E3 E4]. unfold Apply. rewrite Hopen.
  pose proof (stage_ops_spec (namespace s) (p_writes p) (indexed (tx_Operations (p_tx p))) (store s) E2) as Hstage.
  assert (Ha1 : forall i op id, (i, op) ∈ indexed (tx_Operations (p_tx p)) -> touched op = Some id -> uuid_wf id) by (intros i op id Hin%(elem_indexed_op _ (i, op)) Ht; by eapply touched_wf).
  assert (Ha2 : forall i id pt r d, (i, WriteOp id pt r) ∈ indexed (tx_Operations (p_tx p)) -> p_writes p !! i = Some d -> DocumentID d = id) by (intros i id pt r d Hin%elem_of_indexed; by apply (proj2 Hwr i id pt r)). specialize (Hstage Ha1 Ha2).
  destruct (stage_ops _ _ _ _) as [r w] eqn:Estage. destruct Hstage as (S1 & S2 & _ & S4 & S5). destruct r as [[]|cause|]; [|cbn|done].
  2:{ pose proof (discard_law w (namespace s) S1) as (D1 & D2 & _ & D4). assert (Hu : untouched s (discard (with_store w s))) by (constructor; [done..|]; intros h m; cbn; by rewrite D2, S2). split; [done|]. by apply (untouched_wf s). }
  specialize (S5 eq_refl). rewrite E3 in S5. specialize (Hst w). cbn [graph with_store store].
  assert (Hu1 : untouched s (with_store w s)) by (constructor; [done..|]; intros h m; cbn; by rewrite S2).
  destruct (GetCommitOrThrow (anchorCommit p) (graph s)) as [a|e|] eqn:Eg; [|cbn; split; [done|intros [a Ha]; congruence]|done].
  assert (Hca : commitLocked (graph s) (anchorCommit p) = Some a) by (unfold GetCommitOrThrow in Eg; destruct (stubs (graph s) !! _); [done|]; destruct (commitLocked (graph s) (anchorCommit p)); [by injection Eg as ->|done]).
  destruct (E4 _ _ Hca) as [m Hm]. change (namespace (with_store w s)) with (namespace s). pose proof (commit_law w (namespace s) (DocumentTreeHash a) m S1) as Hcl. rewrite S2 in Hcl. specialize (Hcl Hm (Hst a eq_refl Hca)).
  destruct (CommitTree (namespace s) (DocumentTreeHash a) w) as [[t|cause|] w2]; destruct Hcl as (C1 & C2 & _ & C4 & C5); [|cbn; constructor; [done..|]; intros h m'; rewrite <- S2; apply C2|done].
  destruct (C5 t eq_refl) as (Ct & Cd & Cs). rewrite S5, overlay_lands in Ct, Cd by done. clear C5 C4.
  set (s2 := with_store w2 (with_store w s)). assert (Hu2 : untouched s s2) by (constructor; [done..|]; intros h m'; cbn; rewrite <- S2; apply C2). assert (Hwf2 : engine_wf s2) by by apply (untouched_wf s).
  pose proof (append_outcome (payload_of p msg (DocumentTree.TreeHash t) None) (anchorCommit p) (negb (extendingTip p)) prov now s2 E1) as Ha. unfold payload_of in Ha at 1. specialize (Ha ltac:(intros root c; rewrite Ct; apply (Hsc a m root c Hca Hm))). unfold payload_of in Ha at 1.
  destruct (append _ _ _ prov now s2) as [[c|e|] s3]; destruct Ha as (A1 & A2 & A3); cbn [fst snd].
  - destruct A3 as (B1 & B2 & B3 & B4 & (root & Eb) & B6 & B7 & B8). pose proof (built_hash _ _ Eb) as Ebh. split_and!; [done| | |].
    + constructor; cbn [graph store].
      * exists a, m. rewrite A1. split_and!; [done|done| |]; rewrite Ebh; cbn [DocumentTreeHash set_hash]; [|done]. exact Cd.
      * by rewrite Ebh. * by rewrite Ebh. * by rewrite Ebh. * done. * done.
      * constructor; cbn [graph store]; [done|by rewrite A1|change (namespace _) with (namespace s3); rewrite A1, B2; done|]. intros h c' Hc'. rewrite A1. destruct (B7 h c' Hc') as [Hc|[_ ->]]; [destruct (E4 h c' Hc) as [m' Hm']; exists m'; by apply (un_docs _ _ Hu2)|].
        rewrite Ebh. cbn [DocumentTreeHash set_hash]. eexists. exact Cd.
      * constructor; cbn [graph store]; [rewrite A1; apply (un_docs _ _ Hu2)|done].
      * exact B2.
    + cbn [registry]. rewrite A2. unfold moved_registry. change (registry s2) with (registry s). destruct (plan_empty (uniques p)) eqn:Ee; [|done]. destruct (registry s) as [R|]; [|done]. cbn. by rewrite plan_empty_apply.
    + intros Ht. rewrite Ht in B8. by apply B8.
  - assert (Hu3 : untouched s s3) by (constructor; [by rewrite A3|by rewrite A2|by rewrite A1|rewrite A1; apply (un_docs _ _ Hu2)]).
    assert (Hwf3 : engine_wf s3) by (apply (untouched_wf s); [done|done|by rewrite A1]).
    assert (Hd : forall s4, s4 = (if is_head_conflict e then discard s3 else s3) -> untouched s s4 /\ engine_wf s4).
    { intros s4 ->. destruct (is_head_conflict e); [|done]. pose proof (discard_law (store s3) (namespace s3) (un_store _ _ Hu3)) as (D1 & D2 & _ & D4).
      assert (Hu4 : untouched s (discard s3)) by (constructor; [by apply Hu3|by apply Hu3|done|]; intros h m' Hm'; cbn; rewrite D2; by apply (un_docs _ _ Hu3)). split; [done|]. apply (untouched_wf s); [done|done|]. replace (namespace s) with (namespace s3) by (unfold namespace; by rewrite A3). exact D4. }
    destruct (Hd _ eq_refl) as [U W4]. unfold applied. destruct e; first [exact U|split; [exact U|intros _; exact W4]].
  - constructor; [by rewrite A3|by rewrite A2|by rewrite A1|rewrite A1; apply (un_docs _ _ Hu2)].
Qed.

(** ** Whole transactions *)

Definition planned_at (s : state) (e : defaultEngine) (tx : Transaction) (sch : S) (anchor base baseline target : Hash) (p : prepared) : Prop :=
  planned order (namespace s) (store s) e (graph s) (registry s) tx sch anchor base baseline target p.

(** What a commit is made against. *)
Record aims (tx : Transaction) (targetHead : option Hash) (d : InMemoryCommitDag) (anchor : Hash) (base target : Commit) : Prop := {
  am_anchor : exists h, Head d = Ok h /\ anchor = default h targetHead;
  am_base : GetCommitOrThrow (BaseVersion tx) d = Ok base;
  am_target : GetCommitOrThrow anchor d = Ok target;
  am_new : findExistingCommit tx d [anchor] = None;
}.

(** The plan that is made meets no clash when it is applied. *)
Definition plan_safe (e : defaultEngine) (tx : Transaction) (sch : S) (anchor base baseline target : Hash) (msg : bytes) (s : state) : Prop :=
  forall p k, plan order (namespace s) (store s) e (graph s) (registry s) tx sch anchor base baseline target (cache s) = (Ok (inl p), k) -> safe_apply p msg (with_cache k s).
Definition commit_safe (e : defaultEngine) (tx : Transaction) (sch : S) (targetHead : option Hash) (msg : bytes) (s : state) : Prop :=
  forall anchor base target, aims tx targetHead (graph s) anchor base target -> plan_safe e tx sch anchor (DocumentTreeHash base) (DocumentTreeHash base) (DocumentTreeHash target) msg s.

Lemma keeps_cache s k s' : untouched (with_cache k s) s' -> untouched s s'.
Proof. intros [U1 U2 U3 U4]. by constructor. Qed.

Lemma wf_cache s k : engine_wf s -> engine_wf (with_cache k s).
Proof. intros [E1 E2 E3 E4]. by constructor. Qed.

(** The outcome of a transaction that was not committed before. *)
Definition outcome (e : defaultEngine) (tx : Transaction) (sch : S) (anchor base baseline target : Hash) (s : state) (r : tres TransactionResult) (s' : state) : Prop :=
  match r with
  | Ok (ResultSuccess c t) => t = DocumentTreeHash c /\ exists p, planned_at s e tx sch anchor base baseline target p /\ lands s s' tx anchor (p_writes p) c /\ registry s' = moved_registry p (registry s)
  | Ok (ResultConflict _ _) | Ok (ResultSchemaError _) => graph s' = graph s /\ store s' = store s /\ registry s' = registry s
  | Ok (ResultAborted _) => untouched s s' /\ engine_wf s'
  | Err (StoreFault _) | Panic => untouched s s'
  | Err _ => untouched s s' /\ engine_wf s'
  end.

Lemma finalize_outcome e tx sch anchor base baseline target msg now s a mb : engine_wf s -> ops_wf (tx_Operations tx) -> resolver_ok e -> plan_safe e tx sch anchor base baseline target msg s ->
  GetCommitOrThrow anchor (graph s) = Ok a -> docs (store s) baseline = Some mb ->
  outcome e tx sch anchor base baseline target s (finalizeTransaction order e tx sch anchor base baseline target msg now s).1 (finalizeTransaction order e tx sch anchor base baseline target msg now s).2.
Proof.
  intros Hwf Ho Hr Hs Ha Hb. unfold finalizeTransaction. destruct (plan _ _ _ _ _ _ _ _ _ _ _ _ (cache s)) as [[[p|res]|err|] k] eqn:Ep.
  - pose proof (plan_ok _ _ _ _ _ _ _ _ _ _ _ _ _ _ _ Ep) as Hp. pose proof Hp as [P1 P2 P3 P4 _ _ _].
    assert (Hwr : writes_ok (tx_Operations (p_tx p)) (p_writes p)) by (rewrite P1; eapply planned_writes; [apply Hwf|exact Hp|done..]).
    pose proof (Apply_spec p msg false now (with_cache k s) (wf_cache s k Hwf) P4 ltac:(by rewrite P1) Hwr (Hs p k Ep)) as Hap. destruct (Apply p msg false now (with_cache k s)) as [r s']. cbn [fst snd] in *. unfold applied in Hap.
    destruct r as [[c t| | |cause]|err|].
    + destruct Hap as (-> & [L1 L2 L3 L4 L5 L6 L7 [K1 K2] L8] & Hreg & _). split; [done|]. exists p. rewrite P1, P2 in *. split_and!; [done|by constructor|done].
    + done.
    + done.
    + destruct Hap as [U W1]. split; [by eapply keeps_cache|done].
    + destruct err; cbn [outcome]; try (by eapply keeps_cache); destruct Hap as [U W1]; (split; [by eapply keeps_cache|]; apply W1; exists a; by rewrite P2).
    + by eapply keeps_cache.
  - apply plan_rejects in Ep. cbn [fst snd]. destruct res; done.
  - assert (Hu : untouched s (with_cache k s)) by (constructor; [done..|apply Hwf|done]). cbn [fst snd]. destruct err; first [exact Hu|split; [exact Hu|by apply wf_cache]].
  - constructor; [done..|apply Hwf|done].
Qed.

Lemma GetCommitOrThrow_locked h d c : GetCommitOrThrow h d = Ok c -> commitLocked d h = Some c.
Proof. unfold GetCommitOrThrow. destruct (stubs d !! h); [done|]. destruct (commitLocked d h); [by intros [= ->]|done]. Qed.

Lemma commit_target_cases tx targetHead d : wfb false d ->
  match commit_target tx targetHead d with
  | Ok (anchor, inl c) => exists h, Head d = Ok h /\ anchor = default h targetHead /\ findExistingCommit tx d [anchor] = Some c
  | Ok (anchor, inr (base, target)) => exists b t, aims tx targetHead d anchor b t /\ base = DocumentTreeHash b /\ target = DocumentTreeHash t
  | Err _ => True
  | Panic => False
  end.
Proof.
  intros Hd. destruct (snapshot_main false d Hd) as (br & _ & Eh). assert (Ehd : Head d = Ok (HeadHash br)) by (unfold Head, HeadCommit; by rewrite Eh).
  assert (Hnp : forall h, GetCommitOrThrow h d <> Panic) by (intros h; unfold GetCommitOrThrow; destruct (stubs d !! h); [done|]; by destruct (commitLocked d h)).
  unfold commit_target. rewrite Ehd. cbn [lift_dag mbind go_bind]. destruct (negb _); [done|]. destruct (findExistingCommit tx d [default (HeadHash br) targetHead]) as [c|] eqn:Ef; [by exists (HeadHash br)|].
  destruct (GetCommitOrThrow (BaseVersion tx) d) as [b|e|] eqn:Eb; cbn [lift_nav mbind go_bind]; [|done|by apply Hnp in Eb]. destruct (GetCommitOrThrow (default (HeadHash br) targetHead) d) as [t|e|] eqn:Et; cbn [lift_nav mbind go_bind]; [|done|by apply Hnp in Et].
  exists b, t. split_and!; [|done|done]. constructor; [by exists (HeadHash br)|done..].
Qed.

(** The transaction was not committed before on the commit it aims at. *)
Definition new_tx (tx : Transaction) (targetHead : option Hash) (d : InMemoryCommitDag) : Prop := forall h, Head d = Ok h -> findExistingCommit tx d [default h targetHead] = None.

Lemma Commit_cases e tx sch targetHead msg now s : engine_wf s -> ops_wf (tx_Operations tx) -> resolver_ok e -> commit_safe e tx sch targetHead msg s ->
  let '(r, s') := Commit_ order e tx sch targetHead msg now s in
  (s' = s /\ match r with Ok (ResultSuccess c t) => t = DocumentTreeHash c /\ exists h, Head (graph s) = Ok h /\ findExistingCommit tx (graph s) [default h targetHead] = Some c | Err _ => True | _ => False end) \/
  exists anchor base target, aims tx targetHead (graph s) anchor base target /\ outcome e tx sch anchor (DocumentTreeHash base) (DocumentTreeHash base) (DocumentTreeHash target) s r s'.
Proof.
  intros Hwf Ho Hr Hs. unfold Commit_. pose proof (commit_target_cases tx targetHead (graph s) (ew_graph _ Hwf)) as Hc. destruct (commit_target tx targetHead (graph s)) as [[anchor [c|[bt tt]]]|err|]; [| |by left|done].
  - destruct Hc as (h & Eh & -> & Ef). left. split_and!; [done..|]. by exists h.
  - destruct Hc as (b & t & Ha & -> & ->). destruct (ew_trees _ Hwf _ _ (GetCommitOrThrow_locked _ _ _ (am_base _ _ _ _ _ _ Ha))) as [mb Hmb].
    pose proof (finalize_outcome e tx sch anchor (DocumentTreeHash b) (DocumentTreeHash b) (DocumentTreeHash t) msg now s t mb Hwf Ho Hr (Hs _ _ _ Ha) (am_target _ _ _ _ _ _ Ha) Hmb) as Hf. destruct (finalizeTransaction _ _ _ _ _ _ _ _ _ _ s) as [r s']. right. by exists anchor, b, t.
Qed.

(** A commit that lands, with the plan that it carries out. *)
Lemma Commit_lands e tx sch targetHead msg now s c t s' : engine_wf s -> ops_wf (tx_Operations tx) -> resolver_ok e -> commit_safe e tx sch targetHead msg s ->
  new_tx tx targetHead (graph s) -> Commit_ order e tx sch targetHead msg now s = (Ok (ResultSuccess c t), s') ->
  exists anchor base target p, aims tx targetHead (graph s) anchor base target /\ t = DocumentTreeHash c /\ planned_at s e tx sch anchor (DocumentTreeHash base) (DocumentTreeHash base) (DocumentTreeHash target) p /\
    lands s s' tx anchor (p_writes p) c /\ registry s' = moved_registry p (registry s).
Proof.
  intros Hwf Ho Hr Hs Hn E. pose proof (Commit_cases e tx sch targetHead msg now s Hwf Ho Hr Hs) as Hc. rewrite E in Hc. destruct Hc as [(-> & _ & h & Eh & Hg)|(anchor & b & tg & Ha & -> & p & Hp & Hl & Hreg)]; [rewrite (Hn h Eh) in Hg; done|]. by exists anchor, b, tg, p.
Qed.

(** A transaction commits or changes nothing.  On a state in order, a commit returns the
    commit that the transaction made before on the same parent; or it makes a child of the commit
    it aims at, with the stored documents as its operations and their tree, moves the head and
    the registry to it and keeps every earlier tree and commit; or it reports a conflict or a
    violation and touches neither graph, store nor registry; or it reports a fault, with graph
    and registry as they were, every tree kept and, unless making the tree failed, no write left
    over for the next transaction. *)
Theorem transaction_outcome e tx sch targetHead msg now s : engine_wf s -> ops_wf (tx_Operations tx) -> resolver_ok e -> commit_safe e tx sch targetHead msg s ->
  match Commit_ order e tx sch targetHead msg now s with
  | (Ok (ResultSuccess c t), s') => t = DocumentTreeHash c /\
      (s' = s /\ (exists h, Head (graph s) = Ok h /\ findExistingCommit tx (graph s) [default h targetHead] = Some c) \/
       exists anchor base target p, aims tx targetHead (graph s) anchor base target /\ lands s s' tx anchor (p_writes p) c /\ registry s' = moved_registry p (registry s))
  | (Ok (ResultConflict _ _), s') | (Ok (ResultSchemaError _), s') => graph s' = graph s /\ store s' = store s /\ registry s' = registry s
  | (Ok (ResultAborted _), s') => untouched s s' /\ engine_wf s'
  | (Err (StoreFault _), s') | (Panic, s') => untouched s s'
  | (Err _, s') => untouched s s' /\ engine_wf s'
  end.
Proof.
  intros Hwf Ho Hr Hs. pose proof (Commit_cases e tx sch targetHead msg now s Hwf Ho Hr Hs) as Hc. assert (Hsame : untouched s s) by (constructor; [done..|apply Hwf|done]).
  destruct (Commit_ order e tx sch targetHead msg now s) as [r s']. destruct Hc as [[-> Hc]|(anchor & b & tg & Ha & Hc)].
  - destruct r as [[c t| | |]|err|]; [|done..| |done]. + destruct Hc as [-> ?]. split; [done|by left]. + destruct err; first [exact Hsame|split; [exact Hsame|exact Hwf]].
  - destruct r as [[c t| | |]|err|]; [|done..| |done]. + destruct Hc as (-> & p & Hp & Hl & Hreg). split; [done|]. right. by exists anchor, b, tg, p. + destruct err; exact Hc.
Qed.

End correct.

End TxCorrect.
