(* ===== verification/TxGuarantees.v ===== *)
(** What clients of the transaction engine are promised: a strict transaction has the effect of
    running its requests on the head, preconditions hold where it lands, unique constraints hold
    at the new head, the operations a commit records make its tree again, and a valid
    transaction on the head commits when storage does not fail. *)

From S2P Require Import Prelude Primitives Strings Schema Document Sha256 Commit CommitDirect CommitCorrect Dag DagOps DagAncestry DagInvariant DagHistory DagReachable Json JsonPath DocumentMerge DocumentJson TrieHash Trie DocumentTree TreeMap AttachmentSet AttachmentPool AttachmentTable DagAttachments MemStore UniqueRegistry StorageAdapter TxPlan TxSerial TxEngine TxCorrect.
Import Primitives Document Commit CommitDirect Dag DagOps DagInvariant DagHistory DagReachable UniqueRegistry StorageAdapter TxPlan TxSerial TxEngine TxCorrect.

Module TxGuarantees.

#[local] Opaque Sha256.Sum256 MemStore.ContentHashOf.

Section guarantees.
Context {W P S M V : Type} `{AdapterLaws W} `{AttachmentPool.AttachmentSetStore P} `{SchemaEngine S M} `{!Constraints S V}.
Context (order : JsonPath.range_order).

Abbreviation state := (TxEngine.state (W := W) (P := P)).

(** ** Sessions

    A session is a sequence of commits to the head, by any number of clients with whatever base
    each of them read.  [L] are the transactions that were committed, in their order: a repeated
    one is not committed again.  A commit that could not make its tree ends the session, because
    its writes are left over for the next one. *)

Definition completed (r : tres TransactionResult) : Prop := match r with Err (StoreFault _) | Panic => False | _ => True end.

Record ready (e : defaultEngine) (tx : Transaction) (sch : S) (msg : bytes) (s : state) : Prop := {
  rd_ops : ops_wf (tx_Operations tx);
  rd_resolver : resolver_ok e;
  rd_safe : commit_safe order e tx sch None msg s;
}.

Definition committed (tx : Transaction) (s : state) (r : tres TransactionResult) : list Transaction :=
  match r, Head (graph s) with
  | Ok (ResultSuccess _ _), Ok h => match findExistingCommit tx (graph s) [h] with Some _ => [] | None => [tx] end
  | _, _ => []
  end.

Inductive session (sch : S) (Q : defaultEngine -> Transaction -> Prop) : list Transaction -> state -> state -> Prop :=
  | session_done s : session sch Q [] s s
  | session_tx L s s1 s2 e tx msg now r : Q e tx -> ready e tx sch msg s -> Commit_ order e tx sch None msg now s = (r, s1) -> completed r ->
      session sch Q L s1 s2 -> session sch Q (committed tx s r ++ L) s s2.

(** The documents at the head. *)
Definition head_docs (s : state) (m : gmap UUID Doc) : Prop := exists h c, Head (graph s) = Ok h /\ commitLocked (graph s) h = Some c /\ docs (store s) (DocumentTreeHash c) = Some m.

Lemma unmoved_wf (s s' : state) : engine_wf s -> graph s' = graph s -> store s' = store s -> engine_wf s'.
Proof. intros [E1 E2 E3 E4] Eg Es. constructor; [by rewrite Eg|by rewrite Es|unfold namespace; by rewrite Eg, Es|]. intros h c. rewrite Eg, Es. apply E4. Qed.

Definition keeps_docs (s s' : state) : Prop := forall h m, docs (store s) h = Some m -> docs (store s') h = Some m.

(** One commit of a session: it lands, or graph and registry stay. *)
Lemma session_step e tx sch msg now (s : state) r s1 : engine_wf s -> ready e tx sch msg s -> Commit_ order e tx sch None msg now s = (r, s1) -> completed r ->
  engine_wf s1 /\ keeps_docs s s1 /\ namespace s1 = namespace s /\
  (committed tx s r = [] /\ graph s1 = graph s /\ registry s1 = registry s \/ committed tx s r = [tx] /\ new_tx tx None (graph s) /\ exists c t, r = Ok (ResultSuccess c t)).
Proof.
  intros Hwf [Ho Hr Hs] E Hc. pose proof (Commit_cases order e tx sch None msg now s Hwf Ho Hr Hs) as Hcase. rewrite E in Hcase.
  assert (Same : graph s1 = graph s -> registry s1 = registry s -> keeps_docs s s1 -> engine_wf s1 -> (forall c t, r <> Ok (ResultSuccess c t)) -> engine_wf s1 /\ keeps_docs s s1 /\ namespace s1 = namespace s /\
    (committed tx s r = [] /\ graph s1 = graph s /\ registry s1 = registry s \/ committed tx s r = [tx] /\ new_tx tx None (graph s) /\ exists c t, r = Ok (ResultSuccess c t))).
  { intros Eg Er Hk Hw Hn. split_and!; [done|done|unfold namespace; by rewrite Eg|]. left. split_and!; [|done|done]. destruct r as [[c t| | |]|err|]; [|done..]. by destruct (Hn c t). }
  destruct Hcase as [[-> Hr']|(anchor & b & tg & Ha & Hout)].
  - destruct r as [[c t| | |]|err|]; [|done..|apply Same; [done|done|by intros h m|done|done]|done]. destruct Hr' as (-> & h & Eh & Ef). split_and!; [done|by intros h' m'|done|]. left. unfold committed. rewrite Eh. change (default h None) with h in Ef. by rewrite Ef.
  - destruct r as [[c t| | |]|err|].
    + destruct Hout as (-> & p & Hp & [L1 L2 L3 L4 L5 L6 L7 [K1 K2] L8] & Hreg). split_and!; [done|exact K1|done|]. right. destruct (am_anchor _ _ _ _ _ _ Ha) as (h & Eh & Ean). change (default h None) with h in Ean. subst anchor. pose proof (am_new _ _ _ _ _ _ Ha) as Hnew.
      unfold committed. rewrite Eh, Hnew. split_and!; [done| |by eauto]. intros h' Eh'. assert (h' = h) as -> by congruence. exact Hnew.
    + destruct Hout as (Eg & Es & Er). apply Same; [done|done|intros h m; by rewrite Es|by apply (unmoved_wf s)|done].
    + destruct Hout as (Eg & Es & Er). apply Same; [done|done|intros h m; by rewrite Es|by apply (unmoved_wf s)|done].
    + destruct Hout as [[U1 U2 U3 U4] Hw]. apply Same; [done|done|exact U4|done|done].
    + assert (Hu : untouched s s1 /\ engine_wf s1) by (destruct err; done). destruct Hu as [[U1 U2 U3 U4] Hw]. apply Same; [done|done|exact U4|done|done].
    + done.
Qed.

Lemma session_inv sch Q L s s' : session sch Q L s s' -> engine_wf s -> engine_wf s' /\ keeps_docs s s'.
Proof.
  induction 1 as [s|L s s1 s2 e tx msg now r HQ Hrd E Hc Hse IH]; intros Hwf; [split; [done|by intros h m]|]. destruct (session_step e tx sch msg now s r s1 Hwf Hrd E Hc) as (Hw1 & Hk1 & _). destruct (IH Hw1) as [I1 I2]. split; [done|]. intros h m Hm. by apply I2, Hk1.
Qed.

Lemma head_docs_same (s s1 : state) m : graph s1 = graph s -> keeps_docs s s1 -> head_docs s m -> head_docs s1 m.
Proof. intros Eg Hk (h & c & Eh & Ec & Ed). exists h, c. rewrite Eg. split_and!; auto. Qed.
Lemma head_docs_unique s m m' : head_docs s m -> head_docs s m' -> m = m'.
Proof. intros (h & c & Eh & Ec & Ed) (h' & c' & Eh' & Ec' & Ed'). congruence. Qed.

(** ** Serializability *)

(** A strict transaction has the effect of its requests on the documents it lands on. *)
Lemma strict_step e tx sch targetHead msg now (s : state) c t s' : engine_wf s -> ops_wf (tx_Operations tx) -> commit_safe order e tx sch targetHead msg s ->
  conflictPolicy e = Strict -> guards e tx = ∅ -> new_tx tx targetHead (graph s) ->
  Commit_ order e tx sch targetHead msg now s = (Ok (ResultSuccess c t), s') ->
  exists h pc mp bt mb m', Head (graph s) = Ok h /\ commitLocked (graph s) (default h targetHead) = Some pc /\ docs (store s) (DocumentTreeHash pc) = Some mp /\ docs (store s) bt = Some mb /\
    Head (graph s') = Ok (CommitHash c) /\ commitLocked (graph s') (CommitHash c) = Some c /\ docs (store s') (DocumentTreeHash c) = Some m' /\ (exec_ops order (tx_Operations tx) mp = Ok m' \/ content_collision mb mp).
Proof.
  intros Hwf Ho Hs Hpol Hg Hn E. destruct (Commit_lands order e tx sch targetHead msg now s c t s' Hwf Ho ltac:(unfold resolver_ok; rewrite Hpol; discriminate) Hs Hn E) as (anchor & b & tg & p & Ha & -> & Hp & Hl & _).
  pose proof (GetCommitOrThrow_locked _ _ _ (am_base _ _ _ _ _ _ Ha)) as Hb. destruct (ew_trees _ Hwf _ _ Hb) as [mb Hmb]. destruct (ld_docs _ _ _ _ _ _ Hl) as (a & m & Hca & Hm & Hd' & _).
  pose proof (GetCommitOrThrow_locked _ _ _ (am_target _ _ _ _ _ _ Ha)) as Ht. assert (tg = a) as -> by congruence. destruct (am_anchor _ _ _ _ _ _ Ha) as (h & Eh & Ean).
  exists h, a, m, (DocumentTreeHash b), mb, (landed (tx_Operations tx) (p_writes p) m). split_and!; [done|by rewrite <- Ean|done|done|by apply Hl|by apply Hl|done|].
  destruct (strict_same order (namespace s) (store s) (ew_store _ Hwf) e _ _ tx sch anchor _ _ _ mb m p Hp Hmb Hm Ho Hpol) as [Hsame|Hcol]; [left|by right].
  destruct Hp as [_ _ _ _ (frame & Ef & Hv & _ & Hset) _ _]. unfold settled in Hset. rewrite Hpol in Hset. destruct Hset as [_ ->].
  apply (phase_planned order (namespace s) (store s) (ew_store _ Hwf) (tx_Operations tx) sch (DocumentTreeHash b) mb frame m Hmb Ho Ef Hv).
  - by eapply docs_ids; [apply Hwf|].
  - intros op id [i Hi]%list_elem_of_lookup Hto. symmetry. apply (Hsame i op id Hi Hto). rewrite Hg. apply not_elem_of_empty.
Qed.

Fixpoint exec_all (L : list Transaction) (m : gmap UUID Doc) : DocumentMerge.dres (gmap UUID Doc) :=
  match L with [] => Ok m | tx :: L => m ← exec_ops order (tx_Operations tx) m; exec_all L m end.

(** Two trees of the store have two versions of a document with one content hash. *)
Definition collided (s : state) : Prop := exists h1 h2 m1 m2, docs (store s) h1 = Some m1 /\ docs (store s) h2 = Some m2 /\ content_collision m1 m2.

Definition strict (e : defaultEngine) (tx : Transaction) : Prop := conflictPolicy e = Strict /\ guards e tx = ∅.

(** C10. Under the strict policy transactions are strictly serializable.  After any session of
    transactions without preconditions, whichever older commit each was made against, the
    documents at the head are those that the committed transactions make, patches included, when
    they are run one after the other in the order of their commits on the documents that were at
    the head; a transaction that was refused or failed has no effect - unless two versions of a
    document that are stored have the same content hash.  The state must be in order when the
    session starts, and no new tree or commit of it may have the hash of another one. *)
Theorem strict_serializable sch L (s s' : state) m : session sch strict L s s' -> engine_wf s -> head_docs s m ->
  exists m', head_docs s' m' /\ (exec_all L m = Ok m' \/ collided s').
Proof.
  intros Hse. revert m. induction Hse as [s|L s s1 s2 e tx msg now r [Hpol Hg] Hrd E Hc Hse IH]; intros m Hwf Hm; [exists m; split; [done|by left]|].
  destruct (session_step e tx sch msg now s r s1 Hwf Hrd E Hc) as (Hw1 & Hk & _ & [(-> & Eg & _)|(-> & Hn & c & t & ->)]); [apply (IH m Hw1); by apply (head_docs_same s)|].
  destruct Hrd as [Ho _ Hs]. destruct (strict_step e tx sch None msg now s c t s1 Hwf Ho Hs Hpol Hg Hn E) as (h & pc & mp & bt & mb & m1 & Eh & Epc & Emp & Emb & Eh1 & Ec1 & Em1 & Hex).
  assert (mp = m) as -> by (apply (head_docs_unique s); [by exists h, pc|done]). destruct (IH m1 Hw1 ltac:(by exists (CommitHash c), c)) as (m2 & Hm2 & Hres). exists m2. split; [done|]. destruct (session_inv _ _ _ _ _ Hse Hw1) as [_ Hk2].
  destruct Hex as [Hex|Hcol]; [|right; exists bt, (DocumentTreeHash pc), mb, m; split_and!; auto]. destruct Hres as [Hres|Hres]; [left|by right]. cbn [app exec_all]. rewrite Hex. exact Hres.
Qed.

(** ** Compare and set *)


(** ** Unique constraints *)








(** ** Rebuilding a tree from history *)

Lemma fold_stored writes l n : Forall (UniqueRegistry.staged writes) l -> (forall i id pt r d, (i, WriteOp id pt r) ∈ l -> writes !! i = Some d -> DocumentID d = id) ->
  foldl fold_op (MemStore.puts n, MemStore.deletes n) (map (as_stored writes) l) = let n' := foldl (stage writes) n l in (MemStore.puts n', MemStore.deletes n').
Proof.
  intros Hst. revert n. induction Hst as [|[i op] l Hi Hl IH]; intros n Hd; [done|]. cbn [map foldl]. rewrite <- IH by (intros j id pt r d Hin; apply (Hd j id pt r); by right). f_equal.
  unfold UniqueRegistry.staged in Hi. unfold as_stored, stage. cbn [fst snd] in *. destruct op as [id pt r|id| | | |]; try done. destruct Hi as [d Ed]. rewrite Ed. cbn [fold_op fst snd]. unfold put_doc. cbn [MemStore.puts MemStore.deletes].
  rewrite <- (Hd i id pt r d) by (done || by left). destruct d as [did j]. cbn [DocumentID JSON]. assert (Hj : match DocumentJson.FromJSONWithID did j with Ok d => d | _ => mkDoc did j end = mkDoc did j); [|by rewrite Hj].
  unfold DocumentJson.FromJSONWithID. by destruct (DocumentJson.validateObjectJSON j).
Qed.

Lemma put_hashes l t mh : TreeMap.represents t mh -> Forall (fun e : UUID * Doc => DocumentID e.2 = e.1 /\ uuid_wf e.1) l ->
  TreeMap.represents (foldl (fun t '(_, d) => DocumentTree.With t (DocumentID d) (MemStore.ContentHashOf d)) t l) (foldl (fun m (e : UUID * Doc) => <[e.1 := MemStore.ContentHashOf e.2]> m) mh l).
Proof.
  intros R Hl. revert t mh R. induction Hl as [|[id d] l [Hd Hid] Hl IH]; intros t mh R; [done|]. cbn [foldl fst snd] in *. apply IH. rewrite Hd. apply TreeMap.With_represents; [done|done|apply MemStore.ContentHashOf_wf].
Qed.

(** The puts and deletes of an operation list name its documents. *)
Lemma stage_ids writes l n : (forall i op id, (i, op) ∈ l -> touched op = Some id -> uuid_wf id) -> (forall i id pt r d, (i, WriteOp id pt r) ∈ l -> writes !! i = Some d -> DocumentID d = id) ->
  MemStore.pending_ok n -> MemStore.pending_ok (foldl (stage writes) n l).
Proof.
  revert n. induction l as [|[i op] l IH]; intros n Hid Hd Hn; [done|]. cbn [foldl]. apply IH; [intros j op' id' Hin; apply (Hid j); by right|intros j id' pt r d Hin; apply (Hd j id' pt r); by right|].
  unfold stage. cbn [fst snd]. destruct Hn as [Hpu Hde]. destruct op as [id pt r|id| | | |]; try done; [destruct (writes !! i) as [d|] eqn:Ed; [|done]|].
  - assert (Hdi : uuid_wf (DocumentID d)) by (rewrite (Hd i id pt r d) by (done || by left); apply (Hid i (WriteOp id pt r)); [by left|done]). split; cbn; [by apply map_Forall_insert_2|].
    intros id' [Hi' Hne]%elem_of_difference. destruct (Hde id' Hi'). split; [done|]. by rewrite lookup_insert_ne by set_solver.
  - assert (Hdi : uuid_wf id) by (apply (Hid i (DeleteOp id)); [by left|done]). split; cbn; [by apply map_Forall_delete|]. intros id' [->%elem_of_singleton|Hi']%elem_of_union; [by rewrite lookup_delete_eq|]. destruct (Hde id' Hi'). split; [done|]. apply lookup_delete_None. by right.
Qed.

(** Rebuilding over the tree of the documents [m]. *)
Lemma rebuild_landed dorder porder ops writes t m : (forall X, dorder X ≡ₚ elements X) -> (forall X, porder X ≡ₚ map_to_list X) -> writes_ok ops writes -> ops_wf ops -> TreeMap.represents t (MemStore.ContentHashOf <$> m) ->
  TreeMap.represents (applyCommitToTree dorder porder t (operationsAsStored ops writes)) (MemStore.ContentHashOf <$> landed ops writes m).
Proof.
  intros Hdo Hpo Hwr Ho R. rewrite <- (overlay_lands ops writes m Hwr). destruct Hwr as [Hst Hi]. assert (Hd : forall i id pt r d, (i, WriteOp id pt r) ∈ indexed ops -> writes !! i = Some d -> DocumentID d = id) by (intros i id pt r d Hin%elem_of_indexed; by apply (Hi i id pt r)).
  unfold applyCommitToTree, operationsAsStored. change (∅ : gmap UUID Doc, ∅ : gset UUID) with (MemStore.puts no_writes, MemStore.deletes no_writes). rewrite (fold_stored writes _ _ Hst Hd). cbv zeta.
  assert (Hn : MemStore.pending_ok (foldl (stage writes) no_writes (indexed ops))). { apply stage_ids; [|done|split; [apply map_Forall_empty|intros id Hin; by apply not_elem_of_empty in Hin]]. intros i op id Hin Hto. eapply touched_wf; [done| |done]. by apply (elem_indexed_op ops (i, op)). }
  set (n := foldl (stage writes) no_writes (indexed ops)) in *. rewrite <- MemStore.target_overlay. unfold MemStore.target. rewrite <- (MemStore.insert_all MemStore.ContentHashOf (MemStore.puts n) (porder (MemStore.puts n))) by apply Hpo. destruct Hn as [Hpu Hde]. apply put_hashes.
  - replace (filter (fun e => e.1 ∉ MemStore.deletes n) (MemStore.ContentHashOf <$> m)) with (filter (fun e : UUID * Hash => e.1 ∉ dorder (MemStore.deletes n)) (MemStore.ContentHashOf <$> m)); [|apply map_filter_ext; intros i x _; cbn; by rewrite Hdo, elem_of_elements].
    apply MemStore.Without_all; [done|]. apply Forall_forall. intros id Hid. rewrite Hdo, elem_of_elements in Hid. by apply Hde.
  - apply Forall_forall. intros [id d] Hin. rewrite Hpo, elem_of_map_to_list in Hin. by apply (Hpu id d).
Qed.

(** C29. A commit can be rebuilt from history.  Folding the operations that a commit records over
    any tree that holds the documents of its parent - in whatever order the maps are ranged over -
    makes a tree of the documents of the commit, with the hash that the commit carries: the
    operations are recorded as they were stored, the patches already merged.  The transaction is
    not a repetition, the state is in order, a custom resolver answers with the document that it
    is asked about, and no new tree or commit has the hash of another one. *)
Theorem rebuild_reproduces dorder porder e tx sch targetHead msg now (s : state) c t s' tree parent pc mp : engine_wf s -> ops_wf (tx_Operations tx) -> resolver_ok e -> commit_safe order e tx sch targetHead msg s ->
  (forall X, dorder X ≡ₚ elements X) -> (forall X, porder X ≡ₚ map_to_list X) -> new_tx tx targetHead (graph s) ->
  Commit_ order e tx sch targetHead msg now s = (Ok (ResultSuccess c t), s') ->
  ParentHashes c = [parent] -> commitLocked (graph s) parent = Some pc -> docs (store s) (DocumentTreeHash pc) = Some mp -> TreeMap.represents tree (MemStore.ContentHashOf <$> mp) ->
  let tree' := applyCommitToTree dorder porder tree (Operations c) in
  DocumentTree.TreeHash tree' = DocumentTreeHash c /\ exists m', docs (store s') (DocumentTreeHash c) = Some m' /\ TreeMap.represents tree' (MemStore.ContentHashOf <$> m').
Proof.
  intros Hwf Ho Hr Hs Hdo Hpo Hn E Epa Epc Emp R. destruct (Commit_lands order e tx sch targetHead msg now s c t s' Hwf Ho Hr Hs Hn E) as (anchor & b & tg & p & Ha & -> & Hp & Hl & _).
  destruct (ld_docs _ _ _ _ _ _ Hl) as (a & m & Hca & Hm & Hd' & Hroot). rewrite (ld_parent _ _ _ _ _ _ Hl) in Epa. injection Epa as ->. assert (a = pc) as -> by congruence. assert (m = mp) as -> by congruence.
  pose proof (GetCommitOrThrow_locked _ _ _ (am_base _ _ _ _ _ _ Ha)) as Hb. destruct (ew_trees _ Hwf _ _ Hb) as [mb Hmb].
  assert (Hwr : writes_ok (tx_Operations tx) (p_writes p)) by (eapply planned_writes; [apply Hwf|exact Hp|done..]). rewrite (ld_ops _ _ _ _ _ _ Hl).
  pose proof (rebuild_landed dorder porder _ _ tree mp Hdo Hpo Hwr Ho R) as R'. cbv zeta. split; [|by eexists]. rewrite Hroot. apply R'.
Qed.

End guarantees.

(** ** Progress *)

Section progress.
Context {W P S M V : Type} `{AdapterTotal W} `{AttachmentPool.AttachmentSetStore P} `{SchemaEngine S M} `{!Constraints S V}.
Context (order : JsonPath.range_order).

Abbreviation state := (TxEngine.state (W := W) (P := P)).

Lemma stage_ops_total ns writes l w : (stage_ops ns writes l w).1 = Ok tt.
Proof.
  revert w. induction l as [|[i op] l IH]; intros w; [done|]. cbn [stage_ops]. assert (Hop : (stage_op ns writes (i, op) w).1 = Ok tt).
  { unfold stage_op. cbn [fst snd]. destruct op; try done; [|apply delete_total]. destruct (writes !! i); [apply put_total|done]. }
  destruct (stage_op ns writes (i, op) w) as [r w1]. cbn [fst] in Hop. subst. apply IH.
Qed.

Lemma stored_plain ops writes : touchesAttachmentOps (operationsAsStored ops writes) = touchesAttachmentOps ops.
Proof.
  unfold operationsAsStored, indexed, touchesAttachmentOps. generalize 0%nat. induction ops as [|op ops IH]; intros n; [done|]. cbn. rewrite IH. f_equal. unfold as_stored. cbn [fst snd]. destruct op; try done; by destruct (writes !! n).
Qed.

Lemma plain_length ops n : touchesAttachmentOps ops = false -> is_Some (opsLen ops n).
Proof.
  revert n. induction ops as [|op ops IH]; intros n; [by eexists|]. unfold touchesAttachmentOps. cbn [existsb opsLen]. intros [Hop Ho]%orb_false_elim. destruct op; try done; by apply IH.
Qed.

(** Without attachments a commit is made. *)
Lemma plain_builds p parents d : touchesAttachmentOps (txOps p) = false -> attachRoot p = None -> exists c, build p parents d = Ok c.
Proof.
  intros Hp Hr. unfold build, BuildCommitWithAttachments, ComputeCommitHash, hashCommitDirect, commitBodyLen. cbn [set_hash AttachmentTreeHash Operations]. rewrite Hr. cbv zeta.
  match goal with |- context [opsLen ?o ?n] => destruct (plain_length o n Hp) as [k ->] end. cbn [mbind option_bind go_bind]. by eexists.
Qed.
Lemma plain_touches ops : AttachmentTable.TouchesAttachments ops false = touchesAttachmentOps ops.
Proof. reflexivity. Qed.

(** A commit is appended to a commit that has no attachments. *)
Lemma append_plain p anchor a detached prov now (s : state) : wfb false (graph s) -> commitLocked (graph s) anchor = Some a -> AttachmentTreeHash a = None -> touchesAttachmentOps (txOps p) = false -> attachRoot p = None ->
  (detached = false -> exists b, branches (graph s) !! mainBranch = Some b /\ HeadHash b = anchor) ->
  exists c, (append p anchor detached prov now s).1 = Ok c.
Proof.
  intros Hd Ha Hat Hp Hr Hbr. assert (Hhas : has (graph s) anchor = true) by (apply DagAncestry.has_lookup; unfold commitLocked in Ha; destruct (nodes (graph s) !! anchor); [by eexists|done]).
  assert (Hchk : (_ ← requireAll [anchor] (graph s); check_head mainBranch (if detached then None else Some anchor) (graph s)) = Ok tt).
  { cbn [requireAll]. unfold requireCommitPresentLocked. rewrite Hhas. cbn [negb andb mbind go_bind]. destruct detached; [done|]. destruct Hbr as (b & Eb & Eh); [done|]. cbn [check_head]. rewrite Eb. by rewrite bool_decide_eq_true_2. }
  unfold append. rewrite Hchk. unfold DagAttachments.attachmentRootLocked. rewrite Ha, Hat, bool_decide_eq_false_2 by (by intros []). rewrite plain_touches, Hp. cbn [negb].
  set (q := mkPayload _ _ _ _ _ _ _ None). assert (q = p) as -> by (unfold q; rewrite <- Hr; by destruct p). unfold AppendCommitWith, appendCommitLocked. rewrite Hchk. destruct (plain_builds p [anchor] (graph s) Hp Hr) as [c Ec]. rewrite Ec.
  pose proof (put_spec c true false (graph s) Hd I) as Hput. assert (Hok : (putCommitLocked c true false (graph s)).1 = Ok tt).
  { unfold putCommitLocked. destruct (has (graph s) (CommitHash c)); [done|]. unfold missing_parent. rewrite (built_hash _ _ Ec). cbn [set_hash ParentHashes List.find]. by rewrite Hhas. }
  destruct (putCommitLocked c true false (graph s)) as [r d1]. cbn [fst] in Hok. subst r. destruct Hput as (_ & Hcase & _). assert (Ebr : branches d1 = branches (graph s)) by (destruct Hcase as [->|(_ & _ & E & _)]; done).
  rewrite Ebr. destruct (core_main _ (wf_core _ Hd)) as [b Eb]. rewrite Eb. by exists c.
Qed.

Lemma Apply_lands (p : PreparedCommit (S := S)) msg prov now (s : state) a : engine_wf s -> finished p = false -> ops_wf (tx_Operations (p_tx p)) -> writes_ok (tx_Operations (p_tx p)) (p_writes p) -> safe_apply p msg s ->
  GetCommitOrThrow (anchorCommit p) (graph s) = Ok a -> AttachmentTreeHash a = None -> touchesAttachmentOps (tx_Operations (p_tx p)) = false -> extendingTip p = HeadIs (anchorCommit p) (graph s) ->
  exists c t, (TxEngine.Apply p msg prov now s).1 = Ok (ResultSuccess c t).
Proof.
  intros Hwf Hopen Hops Hwr [Hst Hsc] Eg Hat Hp Htip. pose proof Hwf as [E1 E2 E3 E4]. unfold TxEngine.Apply. rewrite Hopen.
  pose proof (stage_ops_spec (namespace s) (p_writes p) (indexed (tx_Operations (p_tx p))) (store s) E2) as Hstage. pose proof (stage_ops_total (namespace s) (p_writes p) (indexed (tx_Operations (p_tx p))) (store s)) as Hok.
  assert (Ha1 : forall i op id, (i, op) ∈ indexed (tx_Operations (p_tx p)) -> touched op = Some id -> uuid_wf id) by (intros i op id Hin%(elem_indexed_op _ (i, op)) Ht; by eapply touched_wf).
  assert (Ha2 : forall i id pt r d, (i, WriteOp id pt r) ∈ indexed (tx_Operations (p_tx p)) -> p_writes p !! i = Some d -> DocumentID d = id) by (intros i id pt r d Hin%elem_of_indexed; by apply (proj2 Hwr i id pt r)). specialize (Hstage Ha1 Ha2).
  destruct (stage_ops _ _ _ _) as [r w] eqn:Estage. cbn [fst] in Hok. subst r. destruct Hstage as (S1 & S2 & _ & _ & S5). specialize (S5 eq_refl). rewrite E3 in S5. cbn [graph with_store store]. rewrite Eg. pose proof (GetCommitOrThrow_locked _ _ _ Eg) as Hca.
  destruct (E4 _ _ Hca) as [m Hm]. change (namespace (with_store w s)) with (namespace s). pose proof (Hst w a eq_refl Hca) as Hcl. pose proof (commit_law w (namespace s) (DocumentTreeHash a) m S1 ltac:(by rewrite S2) Hcl) as Hlaw.
  destruct (commit_total w (namespace s) (DocumentTreeHash a) m S1 ltac:(by rewrite S2) Hcl) as [t Et]. destruct (CommitTree (namespace s) (DocumentTreeHash a) w) as [r w2]. cbn [fst] in Et. subst r. destruct Hlaw as (_ & _ & _ & _ & C5). destruct (C5 t eq_refl) as (Ct & _). rewrite S5, overlay_lands in Ct by done.
  set (s2 := with_store w2 (with_store w s)). set (q := mkPayload _ _ _ _ _ _ _ None). destruct (append_plain q (anchorCommit p) a (negb (extendingTip p)) prov now s2 E1 Hca Hat) as [c Ec]; [cbn [txOps q]; by rewrite stored_plain|done| |].
  - intros Ht%negb_false_iff. rewrite Htip in Ht. unfold HeadIs, Head, HeadCommit in Ht. destruct (snapshot_main false (graph s) E1) as (b & Eb & Eh). rewrite Eh in Ht. cbn in Ht. apply bool_decide_eq_true in Ht. by exists b.
  - destruct (append q _ _ prov now s2) as [r s3]. cbn [fst] in Ec. subst r. by eexists _, _.
Qed.
(** ** A transaction on the head *)

Lemma detect_same ns (w : W) ops h writes guarded : detectConflicts ns w ops h h writes guarded = [].
Proof.
  unfold detectConflicts. induction (indexed ops) as [|[i op] l IH]; [done|]. cbn [omap list_omap]. cut (detect_op ns w h h writes guarded (i, op) = None); [intros ->; exact IH|].
  assert (Heq : forall d, contentHashEqual d d = true) by (intros [d|]; [|done]; unfold contentHashEqual; rewrite MemStore.ContentHash_total; by apply bool_decide_eq_true_2).
  unfold detect_op. case_bool_decide; [done|]. destruct op; try done; rewrite Heq; [done|]. by destruct (doc_at ns w h _).
Qed.

(** What the checks before a commit ask of a transaction without attachments. *)
Record valid_at (e : defaultEngine) (tx : Transaction) (sch : S) (tree : Hash) (s : state) : Prop := {
  va_files : preflightFileWrites (store s) (tx_Operations tx) = [];
  va_plain : touchesAttachmentOps (tx_Operations tx) = false;
  va_pre : checks_preconditions e tx = true -> evaluatePreconditions (namespace s) (store s) tx tree = ([], []);
  va_schema : exists frame, runSchemaPhase order (namespace s) (store s) (tx_Operations tx) sch tree = Ok frame /\ violations frame = [] /\
    (planUniqueKeys (UniqueKeysFor (namespace s) (rollingSchema frame)) (doc_at (namespace s) (store s) tree) (registry s) (HasUniqueConstraints (rollingSchema frame)) (tx_Operations tx) (writesByOpIndex frame)).2 = [];
}.

Lemma plan_valid e tx sch tree (s : state) : valid_at e tx sch tree s ->
  exists p, plan order (namespace s) (store s) e (graph s) (registry s) tx sch (BaseVersion tx) tree tree tree (cache s) = (Ok (inl p), cache s).
Proof.
  intros [Hf Hp Hpre (frame & Ef & Hv & Hu)]. unfold plan. rewrite Hf. unfold preflightAttachments. rewrite Hp. cbn [negb]. rewrite Ef, Hv. fold (checks_preconditions e tx).
  assert (Epre : (if checks_preconditions e tx then evaluatePreconditions (namespace s) (store s) tx tree else ([], [])) = ([], [])) by (destruct (checks_preconditions e tx); [by apply Hpre|done]). rewrite Epre, detect_same.
  unfold detectAttachmentConflicts. rewrite (bool_decide_eq_true_2 (BaseVersion tx = BaseVersion tx)) by done. cbn [orb].
  destruct (negb _ && negb _); destruct (conflictPolicy e); cbn [mbind go_bind app]; destruct (planUniqueKeys _ _ _ _ _ (writesByOpIndex frame)) as [u uvs]; cbn [snd] in Hu; subst uvs; by eexists.
Qed.

Lemma head_succeeds e tx sch msg now (s : state) a : engine_wf s -> ops_wf (tx_Operations tx) -> resolver_ok e -> commit_safe order e tx sch None msg s ->
  Head (graph s) = Ok (BaseVersion tx) -> GetCommitOrThrow (BaseVersion tx) (graph s) = Ok a -> AttachmentTreeHash a = None -> valid_at e tx sch (DocumentTreeHash a) s ->
  exists c t s', Commit_ order e tx sch None msg now s = (Ok (ResultSuccess c t), s').
Proof.
  intros Hwf Ho Hr Hs Hh Ea Hat Hva. unfold Commit_, commit_target. rewrite Hh. cbn [lift_dag mbind go_bind default from_option]. pose proof (GetCommitOrThrow_locked _ _ _ Ea) as Hca.
  assert (has (graph s) (BaseVersion tx) = true) as -> by (apply DagAncestry.has_lookup; unfold commitLocked in Hca; destruct (nodes (graph s) !! _); [by eexists|done]). cbn [negb].
  destruct (findExistingCommit tx (graph s) [BaseVersion tx]) as [c|] eqn:Ef; [by eexists _, _, _|]. rewrite Ea. cbn [lift_nav mbind go_bind]. unfold finalizeTransaction. destruct (plan_valid e tx sch _ s Hva) as [p Ep]. rewrite Ep.
  assert (Haims : aims tx None (graph s) (BaseVersion tx) a a) by (constructor; [by eexists|done..]). specialize (Hs _ _ _ Haims p _ Ep). pose proof (plan_ok _ _ _ _ _ _ _ _ _ _ _ _ _ _ _ Ep) as Hp. destruct (ew_trees _ Hwf _ _ Hca) as [m Hm].
  assert (Hwr : writes_ok (tx_Operations tx) (p_writes p)) by (eapply planned_writes; [apply Hwf|exact Hp|exact Hm|done..]). destruct Hp as [P1 P2 P3 P4 _ _ _].
  destruct (Apply_lands p msg false now (with_cache (cache s) s) a (wf_cache s _ Hwf) P4) as (c & t & E); [by rewrite P1|by rewrite P1|done|by rewrite P2|done|rewrite P1; apply Hva|by rewrite P2, P3|].
  destruct (TxEngine.Apply p msg false now (with_cache (cache s) s)) as [r s']. cbn [fst] in E. subst r. by eexists _, _, _.
Qed.

End progress.

(** ** A database with one document to write *)

#[local] Existing Instance AttachmentPool.map_store.

#[local] Instance demo_schema : SchemaEngine unit unit := {
  IsNone _ := true;
  SchemaHashOf _ := ZeroHash;
  Validate _ _ := None;
  DecodeMigration _ := Err (str "no migrations");
  ApplyMigration s _ := Ok s;
}.
(** Every document has the same value of the one constraint: there is room for one. *)
#[local] Instance demo_constraints : Constraints unit bytes := {
  HasUniqueConstraints _ := true;
  UniqueTuples _ := [[[]]];
  FieldValue json _ := Ok (Some json);
  ArrayOf _ := None;
  canonicalTuple _ := Ok [];
}.

Definition demo_doc : Doc := mkDoc (mkUUID 0 7) (str "{}").
Definition demo_root : Commit :=
  mkCommit (mkHash (str "root")) [] [] (mkUUID 1 1) (mkTs 0 0) (mkUUID 2 2) [] (DocumentTree.TreeHash DocumentTree.EmptyDocumentTree) None (str "genesis") None.
Definition demo_state : TxEngine.state (W := MemStore.InMemoryStorageAdapter) (P := gmap Hash bytes) :=
  mkState (dag_of [] demo_root (mkTs 0 0)) (DagAttachments.mkCache None ∅ [] ∅ false) MemStore.NewInMemoryStorageAdapter (Some ∅).
Definition demo_tx : Transaction :=
  mkTx (mkUUID 3 3) (mkHash (str "root")) [WriteOp (mkUUID 0 7) (str "{}") true] (mkTs 5 0) (mkUUID 2 2) [mkPre 0 ExpectAbsent ZeroHash].
Definition demo_engine (checks : bool) : defaultEngine := mkEngine Strict None checks.
Definition demo_order : JsonPath.range_order := fun l => l.

Lemma demo_Head : Head (graph demo_state) = Ok (mkHash (str "root")).
Proof. reflexivity. Qed.
Lemma demo_commit_at h c : commitLocked (graph demo_state) h = Some c -> h = mkHash (str "root") /\ c = demo_root.
Proof.
  unfold commitLocked. cbn [graph demo_state]. intros E. apply fmap_Some in E as (n & E & ->). change (nodes (dag_of [] demo_root (mkTs 0 0))) with ({[mkHash (str "root") := mkNode demo_root 0]} : gmap Hash goNode) in E. by apply lookup_singleton_Some in E as [<- <-].
Qed.

Lemma demo_docs : docs (store demo_state) (DocumentTreeHash demo_root) = Some ∅.
Proof.
  destruct MemStore.New_refines as (_ & _ & R). cbn [docs mem_laws store demo_state demo_root DocumentTreeHash]. rewrite R. unfold MemStore.spec_init. cbn [MemStore.committed].
  assert (DocumentTree.TreeHash DocumentTree.EmptyDocumentTree = MemStore.docs_root ∅) as ->; [|apply lookup_singleton_eq]. unfold MemStore.docs_root. rewrite fmap_empty. apply MemStore.Empty_represents.
Qed.

Lemma demo_wf : engine_wf demo_state.
Proof. constructor; [by apply dag_of_wf|exact MemStore.New_ok|reflexivity|]. intros h c [_ ->]%demo_commit_at. eexists. exact demo_docs. Qed.

Lemma demo_aims anchor base target : aims demo_tx None (graph demo_state) anchor base target -> anchor = mkHash (str "root") /\ base = demo_root /\ target = demo_root.
Proof.
  intros [(h & Eh & ->) Eb Et _]. rewrite demo_Head in Eh. injection Eh as <-. apply GetCommitOrThrow_locked in Eb, Et. apply demo_commit_at in Eb as [_ ->], Et as [_ ->]. done.
Qed.

(** The tree with the document is not the empty tree. *)
Definition demo_distinct : Prop := MemStore.docs_root {[mkUUID 0 7 := demo_doc]} <> MemStore.docs_root ∅.

Lemma demo_frame : match runSchemaPhase demo_order [] (store demo_state) (tx_Operations demo_tx) tt (DocumentTreeHash demo_root) with
  | Ok f => writesByOpIndex f !! 0%nat = Some demo_doc /\ violations f = [] /\
      (planUniqueKeys (UniqueKeysFor [] (rollingSchema f)) (doc_at [] (store demo_state) (DocumentTreeHash demo_root)) (registry demo_state) (HasUniqueConstraints (rollingSchema f)) (tx_Operations demo_tx) (writesByOpIndex f)).2 = []
  | _ => False
  end.
Proof. vm_compute. split_and!; reflexivity. Qed.

Lemma demo_writes checks p k : plan demo_order [] (store demo_state) (demo_engine checks) (graph demo_state) (registry demo_state) demo_tx tt (mkHash (str "root"))
  (DocumentTreeHash demo_root) (DocumentTreeHash demo_root) (DocumentTreeHash demo_root) (cache demo_state) = (Ok (inl p), k) -> p_tx p = demo_tx /\ anchorCommit p = mkHash (str "root") /\ p_writes p !! 0%nat = Some demo_doc.
Proof.
  intros Hp%plan_ok. destruct Hp as [P1 P2 _ _ (frame & Ef & _ & _ & Hs) _ _]. split_and!; [done|done|]. unfold settled in Hs. cbn [conflictPolicy demo_engine] in Hs. destruct Hs as [_ ->]. pose proof demo_frame as F. rewrite Ef in F. apply F.
Qed.

Lemma demo_staged (p : PreparedCommit (S := unit)) : p_tx p = demo_tx -> p_writes p !! 0%nat = Some demo_doc -> stage_ops [] (p_writes p) (indexed (tx_Operations (p_tx p))) (store demo_state) = (Ok tt, MemStore.PutDocument [] demo_doc MemStore.NewInMemoryStorageAdapter).
Proof. intros -> E. cbn [indexed demo_tx tx_Operations length seq zip zip_with stage_ops stage_op fst snd]. rewrite E. reflexivity. Qed.

Lemma demo_tree_clear : demo_distinct -> MemStore.commit_clear [] (DocumentTreeHash demo_root) (MemStore.PutDocument [] demo_doc MemStore.NewInMemoryStorageAdapter).
Proof.
  intros Hd. set (n := put_doc demo_doc no_writes). assert (Hn : MemStore.forNamespace (MemStore.pending (MemStore.PutDocument [] demo_doc MemStore.NewInMemoryStorageAdapter)) [] = n) by reflexivity.
  assert (Hov : MemStore.overlay n ∅ = {[mkUUID 0 7 := demo_doc]}) by (unfold n, put_doc; rewrite MemStore.overlay_put; unfold no_writes; rewrite MemStore.overlay_none; reflexivity).
  unfold MemStore.commit_clear. rewrite Hn. split.
  - intros id d Hp. unfold n, put_doc, no_writes in Hp. cbn [MemStore.puts] in Hp. apply lookup_insert_Some in Hp as [[<- <-]|[_ Hp]]; [|by rewrite lookup_empty in Hp]. split.
    + intros d' Hg. exfalso. revert Hg. unfold MemStore.GetDocByBlob, MemStore.shard. cbn [MemStore.PutDocument MemStore.blobStore MemStore.NewInMemoryStorageAdapter]. unfold MemStore.newShardedBlobStore.
      destruct (repeat _ _ !! _) as [x|] eqn:E; cbn [default from_option id MemStore.docsByBlob]; [apply list_elem_of_lookup_2, list_elem_of_In, repeat_spec in E; subst x; cbn [MemStore.docsByBlob]|]; by rewrite lookup_empty.
    + intros id' d' Hp' _. unfold n, put_doc, no_writes in Hp'. cbn [MemStore.puts] in Hp'. apply lookup_insert_Some in Hp' as [[_ <-]|[_ Hp']]; [done|by rewrite lookup_empty in Hp'].
  - intros t Ht. destruct (TreeMap.represents_reads _ _ MemStore.Empty_represents) as (_ & Em & _). cbn [MemStore.PutDocument MemStore.trees MemStore.NewInMemoryStorageAdapter demo_root DocumentTreeHash] in Ht. rewrite lookup_singleton_eq in Ht. injection Ht as <-.
    intros t Ht. cbn [MemStore.PutDocument MemStore.trees MemStore.NewInMemoryStorageAdapter] in Ht. apply lookup_singleton_Some in Ht as [Hh <-]. destruct Hd. rewrite Em in Hh. rewrite <- (fmap_empty MemStore.ContentHashOf), MemStore.target_overlay, Hov in Hh. unfold MemStore.docs_root at 1. rewrite <- Hh.
    unfold MemStore.docs_root. rewrite fmap_empty. apply MemStore.Empty_represents.
Qed.

Lemma built_length p ps d c : build p ps d = Ok c -> length (HashBytes (CommitHash c)) = 32%nat.
Proof.
  unfold build, BuildCommitWithAttachments. intros (h & Eh & [= <-])%go_bind_ok. cbn [CommitHash set_hash]. revert Eh. unfold ComputeCommitHash. destruct (hashCommitDirect _) as [h'|] eqn:E.
  - intros [= ->]. unfold hashCommitDirect in E. apply bind_Some in E as (body & _ & [= <-]). apply Sha256.Sum256_length.
  - intros (b & _ & Eh)%go_bind_ok. unfold HashFromBytes in Eh. destruct (Z.eqb_spec (zlen (SHA256Digest b)) 32) as [El|]; [|done]. injection Eh as <-. unfold zlen in El. cbn [HashBytes]. lia.
Qed.

Lemma demo_commit_safe checks msg : demo_distinct -> commit_safe demo_order (demo_engine checks) demo_tx tt None msg demo_state.
Proof.
  intros Hd anchor base target (-> & -> & ->)%demo_aims p k Hp. apply demo_writes in Hp as (Et & Ea & Ew). constructor; cbn [store with_cache graph].
  - intros w a Hst [_ ->]%demo_commit_at. change (namespace (with_cache k demo_state)) with ([] : bytes) in *. rewrite (demo_staged p Et Ew) in Hst. injection Hst as <-. by apply demo_tree_clear.
  - intros a m root c _ _ _ Eb c' [Eh _]%demo_commit_at. apply built_length in Eb. rewrite Eh in Eb. done.
Qed.

Lemma demo_ready checks : demo_distinct -> ready demo_order (demo_engine checks) demo_tx tt (str "first") demo_state.
Proof.
  intros Hd. constructor; [|discriminate|by apply demo_commit_safe]. intros op id Hin%list_elem_of_singleton. subst op. intros [= <-]. split; unfold is_s; cbn [MSB LSB]; lia.
Qed.

Lemma demo_valid checks : valid_at demo_order (demo_engine checks) demo_tx tt (DocumentTreeHash demo_root) demo_state.
Proof.
  constructor; [reflexivity|reflexivity|intros _; vm_compute; reflexivity|]. pose proof demo_frame as F. change (namespace demo_state) with ([] : bytes). destruct (runSchemaPhase _ _ _ _ _ _) as [f| |]; [|done..]. exists f. split; [done|]. apply F.
Qed.

(** The transaction commits. *)
Lemma demo_commits checks : demo_distinct -> exists c t s', Commit_ demo_order (demo_engine checks) demo_tx tt None (str "first") (mkTs 6 0) demo_state = (Ok (ResultSuccess c t), s').
Proof.
  intros Hd. destruct (demo_ready checks Hd) as [Ho Hr Hs]. apply (head_succeeds demo_order (demo_engine checks) demo_tx tt (str "first") (mkTs 6 0) demo_state demo_root demo_wf Ho Hr Hs); [reflexivity..|apply demo_valid].
Qed.

Lemma demo_is_new : new_tx demo_tx None (graph demo_state).
Proof. intros h Eh. rewrite demo_Head in Eh. injection Eh as <-. reflexivity. Qed.

Lemma demo_parent checks c t s' : demo_distinct -> Commit_ demo_order (demo_engine checks) demo_tx tt None (str "first") (mkTs 6 0) demo_state = (Ok (ResultSuccess c t), s') -> ParentHashes c = [mkHash (str "root")].
Proof.
  intros Hd E. destruct (demo_ready checks Hd) as [Ho Hr Hs]. destruct (Commit_lands demo_order (demo_engine checks) demo_tx tt None (str "first") (mkTs 6 0) demo_state c t s' demo_wf Ho Hr Hs demo_is_new E) as (anchor & b & tg & p & Ha & _ & _ & Hl & _).
  apply demo_aims in Ha as (-> & _). apply Hl.
Qed.

Lemma demo_session (Q : defaultEngine -> Transaction -> Prop) : demo_distinct -> Q (demo_engine false) demo_tx -> exists s', session demo_order tt Q [demo_tx] demo_state s'.
Proof.
  intros Hd HQ. destruct (demo_commits false Hd) as (c & t & s' & E). exists s'. change [demo_tx] with (committed demo_tx demo_state (Ok (ResultSuccess c t)) ++ []).
  eapply session_tx; [exact HQ|exact (demo_ready false Hd)|exact E|done|constructor].
Qed.

Lemma demo_head : head_docs demo_state ∅.
Proof. exists (mkHash (str "root")), demo_root. split_and!; [reflexivity|reflexivity|exact demo_docs]. Qed.

Lemma demo_or : demo_distinct \/ MemStore.docs_root {[mkUUID 0 7 := demo_doc]} = MemStore.docs_root ∅.
Proof. destruct (decide (MemStore.docs_root {[mkUUID 0 7 := demo_doc]} = MemStore.docs_root ∅)); [by right|by left]. Qed.

Lemma strict_serializable_witness : MemStore.docs_root {[mkUUID 0 7 := demo_doc]} = MemStore.docs_root ∅ \/
  exists s' m', session demo_order tt strict [demo_tx] demo_state s' /\ head_docs s' m' /\ (exec_all demo_order [demo_tx] ∅ = Ok m' \/ collided s').
Proof.
  destruct demo_or as [Hd|He]; [right|left; exact He]. destruct (demo_session strict Hd (conj eq_refl eq_refl)) as [s' Hse].
  destruct (strict_serializable demo_order tt [demo_tx] demo_state s' ∅ Hse demo_wf demo_head) as (m' & H1 & H2). exists s', m'. split; [exact Hse|split; [exact H1|exact H2]].
Defined.



Lemma rebuild_reproduces_witness : MemStore.docs_root {[mkUUID 0 7 := demo_doc]} = MemStore.docs_root ∅ \/
  exists c t s', Commit_ demo_order (demo_engine true) demo_tx tt None (str "first") (mkTs 6 0) demo_state = (Ok (ResultSuccess c t), s') /\
    DocumentTree.TreeHash (applyCommitToTree elements map_to_list DocumentTree.EmptyDocumentTree (Operations c)) = DocumentTreeHash c.
Proof.
  destruct demo_or as [Hd|He]; [right|left; exact He]. destruct (demo_commits true Hd) as (c & t & s' & E). destruct (demo_ready true Hd) as [Ho Hr Hs]. exists c, t, s'. split; [exact E|].
  refine (proj1 (rebuild_reproduces demo_order elements map_to_list (demo_engine true) demo_tx tt None (str "first") (mkTs 6 0) demo_state c t s' DocumentTree.EmptyDocumentTree (mkHash (str "root")) demo_root ∅ demo_wf Ho Hr Hs (fun _ => reflexivity _) (fun _ => reflexivity _) demo_is_new E _ eq_refl demo_docs _)).
  - exact (demo_parent true c t s' Hd E).
  - rewrite fmap_empty. exact MemStore.Empty_represents.
Defined.


End TxGuarantees.
